(* ===== verification/_CoqProject ===== *)
-Q . S2P
Prelude.v
WorkSet.v
LockData.v
LockState.v
Transition.v
TransitionProps.v
Critical.v
AddressSpace.v
SpinLock.v
Semaphore.v
RwsemSpinlock.v
RwsemXadd.v
Mutex.v
StampList.v
StampArray.v
StampQueue.v
StampHeap.v
StampBitmap.v
StampVector.v
StampHashtable.v
StampBarrier.v
StampBarrierProps.v
StampThread.v
StampRandom.v
StampMemory.v
StampAvl.v
StampAvlTree.v
StampAvlInsert.v
StampAvlErase.v
StampAvlTrav.v
StampAvlMap.v
Intruder.v
IntruderDecoder.v
IntruderStream.v
IntruderMain.v
Vacation.v
VacationMain.v
SysVSem.v
Pcount.v
OsTable.v
Magic.v
Staller.v
Tl2.v
Tl2Spec.v
Tl2Inv.v
Tl2Steps.v
Tl2Props.v
RbTree.v
RbTreeProps.v
RbTreeDelete.v
RbTreeMap.v
RbTreeVerify.v
