(* ===== verification/Prelude.v ===== *)
(** * A verification library for syncchar

    syncchar characterises the synchronisation of an operating system.  A patched Linux
    kernel ([src/linux-2.6.16-unmod]) runs in the Simics simulator and reports to simulator
    modules ([src/sws/modules]) by magic instructions; the module [sync_char] watches the
    lock words of the kernel, times how long locks are waited for and held, records the
    bytes each critical section reads and writes, and counts the conflicts between critical
    sections.  The STAMP benchmarks ([src/sws/benchmarks/stamp]) are the load.

    This library models the parts that carry that logic and proves them correct: the
    modules, the kernel primitives they watch, and the benchmark whose result is checked.
    Definitions follow the source function by function, with the names of the source; each
    file says in its first comment which source files it stands for.

    ** The modules of the simulator ([src/sws/modules])

    - [WorkSet]: [sync_char/WorkSet.cc], [WorkSet.h].  The footprint of a critical section, a
      sorted list of ranges with two bits per byte.  Recording an access and the conflict count
      agree with byte-by-byte definitions (C1, C2); so do the dictionary of bytes
      ([get_workset_correct]) and the sizes ([sizes_correct]).
    - [LockData], [LockState], [Transition], [TransitionProps], [Critical]: [sync_char/sync_char.cc].
      Lock and caller records with their statistics; the classification of a lock word; the
      handlers for every transition of a lock; the life of a critical section from the
      request to the release.  Workset identifiers are unique (C3); acquiring opens exactly
      one workset and releasing closes and logs it with the exact times (C4, C5); a wait counts
      once however often it polls ([spin_contention_once]).
    - [AddressSpace]: the callbacks of [sync_char.cc] around the handlers: maps of lock
      addresses per address space with reference counts, forks and exits, memory accesses,
      context switches.  No dangling pointer is followed and nothing leaks, except that the exit of the
      last process of an object with locks has no defined result ([exit_with_locks_undefined]) (C6); an access
      lands in exactly the open worksets of its process (C7), switches lose nothing
      ([sched_keeps_worksets]).
    - [OsTable]: [common/os.cc].  The table of processes that each module keeps, refined to a
      map from live pids to fork numbers (C36), and its checkpoints ([os_checkpoint_roundtrip]).
    - [Magic]: [common/common.cc].  The decoding of magic instructions and their dispatch to the
      modules of every machine, the benchmark queue, watchpoints and random shutdowns.  The
      tables of [OsTable] in all modules of a machine agree and no callback crashes, provided that
      no live pid is forked, no unknown pid ends, no random shutdown has the limit 0 and only
      known processors are asked for their process (C39; [unknown_exit_crashes], [zero_limit_crashes]); a random shutdown never
      hits an unsafe region and is never lost ([random_shutdown_safe]).
    - [Staller]: [trans-staller-plus/staller.cc].  The stall of a memory access: bounded and never
      negative as long as the penalty times the greatest configured stall is below 2^31 (C40;
      beyond, [stall_negative]); the bandwidth probes count every byte once ([staller_accounting]).

    ** The kernel primitives ([src/linux-2.6.16-unmod])

    - [SpinLock]: [include/asm-i386/spinlock.h], [rwlock.h].  One step per atomic instruction of each
      processor; exclusion under every interleaving, and the classification of [LockState]
      reads the lock word correctly in every reachable state (C8, C9).
    - [Semaphore], [RwsemSpinlock], [Mutex]: [lib/semaphore-sleepers.c], [lib/rwsem-spinlock.c],
      [kernel/mutex.c] with their headers.  Exclusion or the bound on holders, and no sleeper is
      forgotten (C10-C12).
    - [RwsemXadd]: [lib/rwsem.c], [include/asm-i386/rwsem.h].  The read-write semaphore on one word
      with exchange-and-add: exclusion (C13), waiters are not forgotten once the lock is free (C14),
      and the wait lock is always dropped again ([rwsem_xadd_lock_dropped]); a reader that waits can be read
      as a writer by [LockState], and a wake-up can be lost while others back off, as lemmas
      show.
    - [SysVSem]: [ipc/sem.c].  Vectors of semaphore operations: atomic (C31), no lost wake-up
      (C32), exit undoes (C33); the scan of the queue ends and is complete
      ([sysv_update_queue_complete]), and [sysv_semop_errors] gives the exact error of every call.
    - [Pcount]: [init/pcount.c].  The shared-counter benchmark as a system call, in the robust build
      ([CONFIG_ROBUSTO_COUNTER], the default): every interleaving ends (C34), with the result that the kind of synchronisation gives (C35).

    ** STAMP ([src/sws/benchmarks/stamp])

    - [StampList]: [lib/list.c].  A linked list in a heap that implements sequences (C15), and sets
      when built without duplicates ([stamp_list_set]).
    - [StampArray] gives arrays and the class [Container] of an implementation with its abstract
      operations; [StampQueue], [StampHeap], [StampBitmap], [StampVector], [StampHashtable]: [lib/queue.c],
      [heap.c], [bitmap.c], [vector.c], [hashtable.c] with [pair.c].  The binary heap is a
      priority queue (C16), the hash table a finite map whose growth and refusals are determined
      by the memory that is left (C17), the circular buffer a FIFO queue
      ([stamp_queue_refines]), the bitmap
      a set of bits ([stamp_bitmap_refines]), the vector a sequence ([stamp_vector_refines]); every
      allocation may fail.
    - [StampBarrier], [StampBarrierProps], [StampThread]: [lib/thread.c].  The logarithmic barrier, one
      step per call of the thread library, with wake-ups that nobody signalled at both waits.
      In runs in which the second wait (on [proceedAllCond]) returns only when it is signalled, nobody
      leaves before everybody has arrived, and who is inside waits only for somebody who is not
      (C18); the pool of threads that meets at it runs every function on every thread once, in
      order, and ends (C19).  [spurious_all_breaks] shows that the barrier fails in other runs, which
      POSIX allows.
    - [StampAvl], [StampAvlTree], [StampAvlInsert], [StampAvlErase], [StampAvlTrav], [StampAvlMap]:
      [lib/avltree.c] with the map of [lib/map.h] on it.  [StampAvl] is the code, loops with explicit
      stacks on a heap of nodes; the next files relate heaps to balanced trees and prove
      rotations, insertion, erasure, traversal and destruction; any sequence of operations in which
      nothing is erased from an empty tree implements a sorted list, with insertions refused
      exactly when there is no memory, stays within the stacks and gives its memory back
      (C20); on an empty tree [erase_empty] shows the wrong answer.
    - [StampMemory]: [lib/memory.c].  Pools of blocks that grow: what is handed out is aligned, lies
      inside a block and never overlaps (C21).
    - [StampRandom]: [lib/mt19937ar.c], [lib/random.c].  The generator yields the sequence of the
      recurrence that defines the Mersenne Twister, from the seed of each stream (C22).
    - [Tl2], [Tl2Spec], [Tl2Inv], [Tl2Steps], [Tl2Props]: [tl2-x86-0.9.6/tl2.c], the transactional memory under
      the benchmarks.  [Tl2] is the code, one step per access to shared memory, and the
      specification; [Tl2Spec] has serial executions, [Tl2Inv] the invariant with its ghosts,
      [Tl2Steps] its preservation.  Transactions are serializable in real time (C23), open ones
      see a consistent memory (C24), calls return (C25), and for clients that store through no
      null pointer the run-time assertions of this build that [asserts] lists hold (C26).  This is what
      allows [Vacation], [Intruder] and the [TM] variants of the containers to take a transaction as one
      atomic step.
    - [RbTree], [RbTreeProps], [RbTreeDelete], [RbTreeMap], [RbTreeVerify]: [lib/rbtree.c].  The
      red-black tree with parent pointers in a heap; [RbTree] is the code, [RbTreeProps] relates
      heaps to trees and proves rotations and insertion, [RbTreeDelete] deletion.  Any sequence
      of operations implements the abstract tables [Vacation] is written on and gives its
      memory back (C37), a search is logarithmic ([rbtree_search_bound]), and the integrity
      check of the code succeeds (C38).
    - [Vacation], [VacationMain]: [vacation/reservation.c], [customer.c], [manager.c], [client.c],
      [vacation.c].  The travel database on the four tables, its transactions, set-up and final
      check: the books balance (C27) and the whole benchmark is correct (C28); lemmas give
      single operations: [vacation_no_restart], [vacation_reserve_cancel],
      [vacation_delete_customer], [vacation_bill], [client_selects_best].
    - [Intruder], [IntruderDecoder], [IntruderStream], [IntruderMain]: [intruder/*.c].  The benchmark that
      cuts strings into packets, puts them together again and searches them; [Intruder] is the
      code, on that of the queue, the vector and the random numbers; [IntruderDecoder] proves
      the decoder, [IntruderStream] the generator.  The packets give the strings back in any
      order (C29), and for every interleaving of the threads the benchmark ends, its final
      check succeeds and nothing is left over (C30).

    ** Conventions

    Integers are [Z]; where the code can wrap, [u32], [s32], [u64], [s64], [s16] and [s8] below say so.
    STAMP is built for 32 bits; the pools and the generator take the width of a word as a
    parameter.  A dereference of a bad pointer, a failed assertion or a
    loop that runs out of fuel has no result ([None]), and the theorems show that results
    exist.  Concurrent code is a step function on a state shared by the threads, one step per
    atomic access; [reach] and [run] below give the reachable states.

    Fuel: loops over the nodes of a heap get the size of the heap (the red-black deletion
    loop one more, the destruction of a height-balanced tree twice as much, since it turns
    every node at most once before it frees it); the scan of the semaphore queue gets n*n+n steps for n sleepers, enough
    since each restart follows a removal; the population count gets 33, one per bit and one
    to stop.  The lemmas that use them prove that they suffice.

    Bounds: spinlocks and read-write spinlocks for up to 128 processors (the width of the
    lock byte); semaphores and mutexes for fewer than 2^30 tasks, the exchange-and-add
    semaphore for fewer than 2^15 (half of its word counts the active ones); keys of the
    red-black tree between 0 and 2^31 for the default comparison, whose difference of longs
    wraps beyond; arrays of less than 2^31 bytes, as [malloc] gives them, with up to 2^28
    objects in a container and a growth factor of the hash table between 1 and 3; for
    the height-balanced tree, fewer than 2^45 operations, which keep its height within the 64
    entries of its stacks; for the pools, an even growth factor and requests whose grown size
    fits a [long]; for the barrier, a power of two of threads, as the code asserts; for [Intruder], fewer than
    2^28 buffers, the limit of the vector that keeps them; for the
    transactional memory, runs in which the version clock stays below the addresses of the log
    entries (a lemma shows what happens beyond).

    Parameters stand for code outside the repository: the contents of guest memory and the
    cycle counter of the simulator, the addresses that allocation returns, comparison
    functions, [qsort]; their hypotheses are those of the documentation (an allocated address is
    new and not null) and are met by the functions of the witnesses.

    ** Not modelled

    Printing and the formatting of logs; the registration of simulator classes and plain
    attributes; the transaction-commit hook of [sync_char.cc], which dereferences a null
    pointer; the parsing of map files by [sscanf]; the cache hierarchy ([osacache.cc]); the
    statistics of the staller, which are floating-point, and [dram.cc], which nothing calls; the
    profiler ([profile.cc]), the allocation history ([allochist.cc], compiled out) and the access
    to guest memory ([memaccess.cc]); the module [osatxm], whose source is not in the repository;
    simulator scripts in Python; in TL2 the eager build, the other clocks, allocation inside
    transactions, signal handlers and back-off delays; the functions of [mt19937ar.c]
    that return floating-point numbers; the preprocessor of [intruder] for hexadecimal escapes,
    which is never installed; the other applications of STAMP; the identifiers and
    permissions of System V semaphores; the rest of Linux, which is the unmodified kernel.

    This file: notations, tactics and lemmas shared by all components. *)

From stdpp Require Export base tactics option list list_numbers gmap strings sorting relations.
From Stdlib Require Export ZArith Lia Btauto.

#[export] Set Default Goal Selector "!".

Declare Scope sync_scope.
Delimit Scope sync_scope with sync.
#[global] Open Scope Z_scope.

#[global] Arguments seqZ : simpl never.

(** ** Machine integers

    C integers are [Z]; the conversions of the source are written out. *)

Definition u32 (x : Z) : Z := x mod 2 ^ 32.
Definition u64 (x : Z) : Z := x mod 2 ^ 64.
Definition sN (w : Z) (x : Z) : Z := (x + 2 ^ (w - 1)) mod 2 ^ w - 2 ^ (w - 1).
Definition s8 (x : Z) : Z := sN 8 x.
Definition s16 (x : Z) : Z := sN 16 x.
Definition s32 (x : Z) : Z := sN 32 x.
Definition s64 (x : Z) : Z := sN 64 x.

Lemma u32_range x : 0 <= u32 x < 2 ^ 32.
Proof. apply Z.mod_pos_bound; lia. Qed.

Lemma u32_small x : 0 <= x < 2 ^ 32 -> u32 x = x.
Proof. apply Z.mod_small. Qed.

Lemma u64_small x : 0 <= x < 2 ^ 64 -> u64 x = x.
Proof. apply Z.mod_small. Qed.

Lemma sN_small w x : 0 < w -> - 2 ^ (w - 1) <= x < 2 ^ (w - 1) -> sN w x = x.
Proof.
  intros Hw Hx. unfold sN. rewrite Z.mod_small; [lia|].
  replace (2 ^ w) with (2 * 2 ^ (w - 1)); [lia|].
  rewrite <- Z.pow_succ_r by lia. f_equal. lia.
Qed.

Lemma s8_small x : -128 <= x < 128 -> s8 x = x.
Proof. intros. apply sN_small; simpl; lia. Qed.

Lemma s16_small x : - 2 ^ 15 <= x < 2 ^ 15 -> s16 x = x.
Proof. intros. apply sN_small; simpl; lia. Qed.

Lemma s32_small x : - 2 ^ 31 <= x < 2 ^ 31 -> s32 x = x.
Proof. intros. apply sN_small; simpl; lia. Qed.

(** A sum of two [int] that leaves the range comes back with the other sign. *)
Lemma s32_over x : 2 ^ 31 <= x < 2 ^ 32 + 2 ^ 31 -> s32 x = x - 2 ^ 32.
Proof. intros. unfold s32, sN. Z.to_euclidean_division_equations; lia. Qed.

Lemma s32_range x : - 2 ^ 31 <= s32 x < 2 ^ 31.
Proof. unfold s32, sN. Z.to_euclidean_division_equations; lia. Qed.

Lemma s32_u32 x : s32 (u32 x) = s32 x.
Proof. unfold s32, sN, u32. rewrite Zplus_mod_idemp_l. done. Qed.

Lemma s64_small x : - 2 ^ 63 <= x < 2 ^ 63 -> s64 x = x.
Proof. intros. apply sN_small; simpl; lia. Qed.

(** The x86 [shl] instruction on a 32-bit register: the count is taken modulo
    32.  This is what [1 << x] compiles to for a run-time [x]; C leaves counts of
    32 and more undefined. *)
Definition shl32 (x n : Z) : Z := u32 (Z.shiftl x (n mod 32)).

(** ** Bits *)

Create Rewrite HintDb bits.

#[export] Hint Rewrite Z.land_spec Z.lor_spec Z.lxor_spec Z.ldiff_spec Z.testbit_0_l
  Z.bits_0 : bits.
#[export] Hint Rewrite Z.shiftr_spec Z.shiftl_spec Z.lnot_spec using lia : bits.
#[export] Hint Rewrite orb_false_r orb_true_r andb_false_r andb_true_r
  orb_false_l andb_true_l : bits.

Lemma testbit_high n p i : 0 <= n < 2 ^ p -> 0 <= p <= i -> Z.testbit n i = false.
Proof.
  intros Hn Hi. rewrite <- (Z.mod_small n (2 ^ p)) by lia.
  apply Z.mod_pow2_bits_high. lia.
Qed.

Lemma testbit_u32 x i : 0 <= i -> Z.testbit (u32 x) i = (i <? 32) && Z.testbit x i.
Proof.
  intros Hi. unfold u32. destruct (Z.ltb_spec i 32).
  - rewrite Z.mod_pow2_bits_low by lia. done.
  - rewrite Z.mod_pow2_bits_high by lia. done.
Qed.

Lemma testbit_pow2_minus1 p i :
  0 <= p -> 0 <= i -> Z.testbit (2 ^ p - 1) i = (i <? p).
Proof.
  intros Hp Hi. replace (2 ^ p - 1) with (Z.ones p).
  - destruct (Z.ltb_spec i p).
    + apply Z.ones_spec_low. lia.
    + apply Z.ones_spec_high. lia.
  - rewrite Z.ones_equiv. lia.
Qed.

Lemma lor_range x y p : 0 <= p -> 0 <= x < 2 ^ p -> 0 <= y < 2 ^ p -> 0 <= Z.lor x y < 2 ^ p.
Proof.
  intros Hp Hx Hy. rewrite <- (Z.mod_small x (2 ^ p)), <- (Z.mod_small y (2 ^ p)) by lia.
  rewrite <- !Z.land_ones, <- Z.land_lor_distr_l, Z.land_ones by lia.
  apply Z.mod_pos_bound. lia.
Qed.

Lemma land_range x y p : 0 <= p -> 0 <= y < 2 ^ p -> 0 <= x -> 0 <= Z.land x y < 2 ^ p.
Proof.
  intros Hp Hy Hx. split; [apply Z.land_nonneg; lia|].
  rewrite <- (Z.mod_small y (2 ^ p)), <- Z.land_ones, Z.land_assoc, Z.land_ones by lia.
  apply Z.mod_pos_bound. lia.
Qed.

(** ** Small tactics *)

(** Case analysis on every boolean comparison of the goal and the context. *)
Ltac zify_bool :=
  repeat match goal with
  | H : (_ =? _) = true |- _ => apply Z.eqb_eq in H
  | H : (_ =? _) = false |- _ => apply Z.eqb_neq in H
  | H : (_ <? _) = true |- _ => apply Z.ltb_lt in H
  | H : (_ <? _) = false |- _ => apply Z.ltb_ge in H
  | H : (_ <=? _) = true |- _ => apply Z.leb_le in H
  | H : (_ <=? _) = false |- _ => apply Z.leb_gt in H
  | H : negb _ = true |- _ => apply negb_true_iff in H
  | H : negb _ = false |- _ => apply negb_false_iff in H
  | H : (_ && _) = true |- _ => apply andb_true_iff in H as [? ?]
  | H : (_ || _) = false |- _ => apply orb_false_iff in H as [? ?]
  end.

Ltac bool_cases :=
  repeat match goal with
  | |- context [Z.eqb ?a ?b] => destruct (Z.eqb_spec a b)
  | |- context [Z.ltb ?a ?b] => destruct (Z.ltb_spec a b)
  | |- context [Z.leb ?a ?b] => destruct (Z.leb_spec a b)
  end.

(** [lia] with divisions and remainders by constants. *)
Ltac mlia := Z.to_euclidean_division_equations; lia.

(** A property of every integer below a literal bound, by evaluation. *)
Lemma seqZ_forall (P : Z -> Prop) n : Forall P (seqZ 0 n) -> forall i, 0 <= i < n -> P i.
Proof. rewrite Forall_forall. intros H i Hi. apply H, elem_of_seqZ. lia. Qed.

Lemma b2z_nonneg b : 0 <= Z.b2z b.
Proof. by destruct b. Qed.

(** ** Sums over lists *)

Fixpoint zsum {A} (f : A -> Z) (l : list A) : Z :=
  match l with [] => 0 | x :: l => f x + zsum f l end.

Lemma zsum_app {A} (f : A -> Z) l1 l2 : zsum f (l1 ++ l2) = zsum f l1 + zsum f l2.
Proof. induction l1; simpl; lia. Qed.

Lemma zsum_ext {A} (f g : A -> Z) l : (forall x, x ∈ l -> f x = g x) -> zsum f l = zsum g l.
Proof.
  induction l as [|x l IH]; intros H; simpl; [done|].
  rewrite H, IH by (intros; try apply H; set_solver). done.
Qed.

Lemma zsum_fmap {A B} (f : B -> Z) (g : A -> B) l : zsum f (g <$> l) = zsum (fun x => f (g x)) l.
Proof. induction l as [|x l IH]; csimpl; [done|]. by rewrite IH. Qed.

Lemma zsum_add {A} (f g : A -> Z) l : zsum (fun x => f x + g x) l = zsum f l + zsum g l.
Proof. induction l; simpl; lia. Qed.

Lemma zsum_opp {A} (f : A -> Z) l : zsum (fun x => - f x) l = - zsum f l.
Proof. induction l; simpl; lia. Qed.

Lemma zsum_bind {A B} (f : B -> Z) (g : A -> list B) l :
  zsum f (l ≫= g) = zsum (fun x => zsum f (g x)) l.
Proof. induction l; csimpl; [done|]. rewrite zsum_app. lia. Qed.

Lemma zsum_0 {A} (f : A -> Z) l : (forall x, x ∈ l -> f x = 0) -> zsum f l = 0.
Proof.
  induction l as [|x l IH]; intros H; simpl; [done|].
  rewrite H, IH by (intros; try apply H; set_solver). done.
Qed.

Lemma zsum_insert {A} (f : A -> Z) l i x y :
  l !! i = Some x -> zsum f (<[i := y]> l) = zsum f l - f x + f y.
Proof.
  revert i. induction l as [|z l IH]; intros [|i] H; simplify_eq/=; [lia|]. rewrite IH by done. lia.
Qed.

Lemma zsum_nonneg {A} (f : A -> Z) l : (forall x, x ∈ l -> 0 <= f x) -> 0 <= zsum f l.
Proof.
  induction l as [|x l IH]; intros H; simpl; [lia|].
  pose proof (H x ltac:(left)). assert (0 <= zsum f l) by (apply IH; intros; apply H; by right). lia.
Qed.

Lemma zsum_le {A} (f g : A -> Z) l : (forall x, x ∈ l -> f x <= g x) -> zsum f l <= zsum g l.
Proof.
  induction l as [|x l IH]; intros H; simpl; [lia|].
  pose proof (H x ltac:(left)). assert (zsum f l <= zsum g l) by (apply IH; intros; apply H; by right). lia.
Qed.

Lemma zsum_perm {A} (f : A -> Z) l k : l ≡ₚ k -> zsum f l = zsum f k.
Proof. induction 1; simpl; lia. Qed.

(** ** Sums over the values of a map *)

Definition msum {A} (f : A -> Z) (m : gmap Z A) : Z := zsum (fun p => f p.2) (map_to_list m).

Lemma msum_insert_new {A} (f : A -> Z) m k x : m !! k = None -> msum f (<[k := x]> m) = f x + msum f m.
Proof. intros Hk. unfold msum. by rewrite (zsum_perm _ _ _ (map_to_list_insert m k x Hk)). Qed.

Lemma msum_delete {A} (f : A -> Z) m k x : m !! k = Some x -> msum f (delete k m) = msum f m - f x.
Proof.
  intros Hk. assert (Hm : msum f m = f x + msum f (delete k m)).
  { rewrite <- msum_insert_new with (k := k); [|apply lookup_delete_eq]. by rewrite insert_delete_id. }
  lia.
Qed.

Lemma msum_insert {A} (f : A -> Z) m k x y :
  m !! k = Some x -> msum f (<[k := y]> m) = msum f m - f x + f y.
Proof.
  intros Hk. rewrite <- insert_delete_eq, msum_insert_new by apply lookup_delete_eq.
  rewrite (msum_delete f m k x) by done. lia.
Qed.

Lemma msum_nonneg {A} (f : A -> Z) m : (forall k x, m !! k = Some x -> 0 <= f x) -> 0 <= msum f m.
Proof.
  intros H. apply zsum_nonneg. intros [k x] Hx%elem_of_map_to_list. by apply (H k x).
Qed.

Lemma msum_elem_le {A} (f : A -> Z) m k x :
  (forall x, 0 <= f x) -> m !! k = Some x -> f x <= msum f m.
Proof.
  intros Hf Hk. pose proof (msum_delete f m k x Hk). pose proof (msum_nonneg f (delete k m)).
  enough (0 <= msum f (delete k m)) by lia. auto.
Qed.

Lemma zsum_const {A} (c : Z) (l : list A) : zsum (fun _ => c) l = c * Z.of_nat (length l).
Proof. induction l; simpl length; simpl zsum; lia. Qed.

Lemma zsum_elem_le {A} (f : A -> Z) l i x :
  (forall x, x ∈ l -> 0 <= f x) -> l !! i = Some x -> f x <= zsum f l.
Proof.
  intros Hf Hi. rewrite <- (take_drop_middle l i x Hi), zsum_app. simpl.
  assert (0 <= zsum f (take i l) /\ 0 <= zsum f (drop (S i) l)).
  { split; apply zsum_nonneg; intros y Hy; apply Hf.
    - rewrite <- (take_drop i l). apply elem_of_app. by left.
    - rewrite <- (take_drop (S i) l). apply elem_of_app. by right. }
  lia.
Qed.

Lemma foldl_zsum {A} (f : A -> Z) z l : foldl (fun acc x => acc + f x) z l = z + zsum f l.
Proof. revert z. induction l as [|x l IH]; intros z; simpl; [lia|]. rewrite IH. lia. Qed.

(** A count over a duplicate-free list is the cardinality of a set. *)
Lemma zsum_card (P : Z -> bool) (l : list Z) :
  NoDup l ->
  zsum (fun a => Z.b2z (P a)) l
  = Z.of_nat (size (list_to_set (filter (fun a => P a = true) l) : gset Z)).
Proof.
  intros Hnd. rewrite size_list_to_set by by apply NoDup_filter. clear Hnd.
  induction l as [|a l IH]; simpl; [done|].
  rewrite IH, filter_cons. case_decide as Hp; destruct (P a); cbn [length Z.b2z]; (lia || done).
Qed.

Lemma NoDup_of_submseteq {A} (l k : list A) : l ⊆+ k -> NoDup k -> NoDup l.
Proof. intros [k' ->]%submseteq_Permutation. by intros [? _]%NoDup_app. Qed.

(** ** Population count *)

Fixpoint pos_pop (p : positive) : Z :=
  match p with xH => 1 | xO p => pos_pop p | xI p => 1 + pos_pop p end.

Definition Z_pop (x : Z) : Z := match x with Zpos p => pos_pop p | _ => 0 end.

Lemma Z_pop_double y : 0 <= y -> Z_pop (2 * y) = Z_pop y.
Proof. destruct y; simpl; (done || lia). Qed.

Lemma Z_pop_double1 y : 0 <= y -> Z_pop (2 * y + 1) = 1 + Z_pop y.
Proof. destruct y; simpl; (done || lia). Qed.

Lemma Z_pop_nonneg x : 0 <= Z_pop x.
Proof. destruct x as [|p|p]; simpl; [lia| |lia]. induction p; simpl; lia. Qed.

Lemma Z_pop_pos x : 0 < x -> 0 < Z_pop x.
Proof. destruct x as [|p|p]; simpl; intros; [lia| |lia]. clear H. induction p; simpl; lia. Qed.

(** [x & (x - 1)] clears exactly one bit. *)
Lemma land_pred x : 0 < x ->
  0 <= Z.land x (x - 1) < x /\ Z_pop (Z.land x (x - 1)) = Z_pop x - 1.
Proof.
  intros Hx. destruct x as [|p|p]; [lia| |lia]. clear Hx.
  induction p as [p IH|p IH|].
  - assert (Z.land (Zpos p~1) (Zpos p~1 - 1) = 2 * Zpos p) as ->.
    { replace (Zpos p~1 - 1) with (2 * Zpos p) by lia.
      apply Z.bits_inj'. intros n Hn. rewrite Z.land_spec.
      replace (Zpos p~1) with (2 * Zpos p + 1) by lia.
      destruct (Z.eq_dec n 0) as [-> |]; [by rewrite Z.testbit_even_0, andb_false_r|].
      replace n with (Z.succ (n - 1)) by lia.
      rewrite Z.testbit_odd_succ, Z.testbit_even_succ by lia. apply andb_diag. }
    rewrite Z_pop_double by lia. simpl. lia.
  - assert (Z.land (Zpos p~0) (Zpos p~0 - 1) = 2 * Z.land (Zpos p) (Zpos p - 1)) as ->.
    { apply Z.bits_inj'. intros n Hn. rewrite Z.land_spec.
      replace (Zpos p~0) with (2 * Zpos p) by lia.
      replace (2 * Zpos p - 1) with (2 * (Zpos p - 1) + 1) by lia.
      destruct (Z.eq_dec n 0) as [-> |]; [by rewrite !Z.testbit_even_0|].
      replace n with (Z.succ (n - 1)) by lia.
      rewrite Z.testbit_odd_succ, !Z.testbit_even_succ, Z.land_spec by lia. done. }
    rewrite Z_pop_double by lia. destruct IH as [? ->]. split; [lia|done].
  - done.
Qed.

Lemma Z_pop_bits n : forall x, 0 <= x < 2 ^ Z.of_nat n ->
  Z_pop x = zsum (fun i => Z.b2z (Z.testbit x i)) (seqZ 0 (Z.of_nat n)).
Proof.
  induction n as [|n IH]; intros x Hx.
  - simpl in *. by assert (x = 0) as -> by lia.
  - rewrite seqZ_cons by lia. cbn [zsum].
    rewrite Nat2Z.inj_succ, Z.pow_succ_r in Hx by lia.
    assert (Hhalf : 0 <= x / 2 < 2 ^ Z.of_nat n) by mlia.
    replace (Z.pred (Z.of_nat (S n))) with (Z.of_nat n) by lia.
    change (Z.succ 0) with (1 + 0). rewrite <- (fmap_add_seqZ 1 0), zsum_fmap.
    rewrite (zsum_ext _ (fun i => Z.b2z (Z.testbit (x / 2) i))).
    2: { intros i Hi%elem_of_seqZ. rewrite <- Z.div2_div, Z.div2_spec, Z.shiftr_spec by lia.
         do 2 f_equal. lia. }
    rewrite <- IH by done. rewrite Z.bit0_odd.
    pose proof (Z.div_mod x 2 ltac:(lia)) as Hdm. rewrite Zmod_odd in Hdm.
    destruct (Z.odd x); rewrite Hdm at 1.
    + rewrite Z_pop_double1 by lia. done.
    + rewrite Z.add_0_r, Z_pop_double by lia. done.
Qed.

Lemma zsum_pairs (f : Z -> Z) n :
  zsum f (seqZ 0 (2 * Z.of_nat n)) = zsum (fun j => f (2 * j) + f (2 * j + 1)) (seqZ 0 (Z.of_nat n)).
Proof.
  induction n as [|n IH]; [done|].
  rewrite Nat2Z.inj_succ. replace (2 * Z.succ (Z.of_nat n)) with (2 * Z.of_nat n + 1 + 1) by lia.
  rewrite <- Z.add_1_r, !(seqZ_app _ _ 1), !zsum_app, IH by lia.
  assert (Hs : forall m, seqZ m 1 = [m]) by (intros; unfold seqZ; simpl; f_equal; lia).
  rewrite !Hs. cbn [zsum]. rewrite !Z.add_0_l. lia.
Qed.

(** ** Machines

    A component whose actors interleave is a partial step function: an action and a
    state give the next state, or nothing when the action is not enabled. *)

Section machine.
Context {S A : Type} (step : A -> S -> option S).

Inductive reach (s0 : S) : S -> Prop :=
| reach_refl : reach s0 s0
| reach_next a s s' : reach s0 s -> step a s = Some s' -> reach s0 s'.

Fixpoint run (l : list A) (s : S) : option S :=
  match l with
  | [] => Some s
  | a :: l => s ← step a s; run l s
  end.

Lemma run_reach s0 l : forall s s', reach s0 s -> run l s = Some s' -> reach s0 s'.
Proof.
  induction l as [|a l IH]; intros s s' Hr H; simpl in H; [by simplify_eq|].
  destruct (step a s) as [s1|] eqn:E; simpl in H; [|done].
  eapply IH; [|exact H]. by eapply reach_next.
Qed.

Lemma run_from l s0 s : run l s0 = Some s -> reach s0 s.
Proof. apply run_reach. constructor. Qed.

(** The rule for invariants. *)
Lemma reach_invariant (I : S -> Prop) s0 s :
  I s0 -> (forall a s s', I s -> step a s = Some s' -> I s') -> reach s0 s -> I s.
Proof. intros H0 Hstep. induction 1; eauto. Qed.
End machine.
