(* ===== verification/WorkSet.v ===== *)
(** * Worksets: the memory footprint of a critical section

    Model of [sws/modules/sync_char/WorkSet.h] and [WorkSet.cc].  A workset is an
    ordered map from 32-byte aligned addresses to a bitmap with two bits (read,
    write) per byte.  The theorems relate the bitmap to the plain predicates "this
    byte was read" and "this byte was written": [grow] adds exactly an access's
    bytes, [size]/[rsize]/[wsize] count them, [get_workset] enumerates them and
    [compare] counts the conflicting ones. *)

From S2P Require Import Prelude.

(** ** Constants of WorkSet.h *)

Definition SET_ORDER : Z := 5.
Definition SET_GRANULARITY : Z := 2 ^ SET_ORDER.
Definition sizeof_set_chunk : Z := 4.
Definition CHUNK_BYTES : Z := sizeof_set_chunk * 4.
Definition BYTEMAP_BYTES : Z := SET_GRANULARITY / 4.
Definition BYTEMAP_LEN : Z := BYTEMAP_BYTES / sizeof_set_chunk.

(** [BIT_MASK x] is [~((1<<x) - 1)] on 32-bit integers. *)
Definition BIT_MASK (x : Z) : Z := u32 (Z.lnot (shl32 1 x - 1)).

(** [RANGE_MASK] is the [int] [~31], sign-extended by the [&] with an address. *)
Definition RANGE_MASK : Z := Z.lnot (2 ^ SET_ORDER - 1).

Definition READ_MASK : Z := 0x55555555.
Definition WRITE_MASK : Z := 0xAAAAAAAA.

(** ** Data *)

Record ByteRange := mkByteRange { bmap : list Z }.

Record WorksetID := mkWorksetID {
  lock_addr : Z;
  lock_generation : Z;
  workset_index : Z
}.

#[export] Instance WorksetID_eq_dec : EqDecision WorksetID.
Proof. solve_decision. Defined.

(** [mem_op_type_t]: the accesses the simulator reports. *)
Inductive memop := Sim_Trans_Load | Sim_Trans_Store | Sim_Trans_Other.

Record WorkSet := mkWorkSet {
  ws_cnt : Z;
  ws_id : WorksetID;
  ws_cpu : Z;
  ws_pid : Z;
  ws_twoowners : bool;
  ws_old_pid : Z;
  ws_IO : bool;
  ws_contended : list WorksetID;
  ws_set : list (Z * ByteRange)       (* std::map, in key order *)
}.

Definition with_set (ws : WorkSet) (s : list (Z * ByteRange)) : WorkSet :=
  mkWorkSet (ws_cnt ws) (ws_id ws) (ws_cpu ws) (ws_pid ws) (ws_twoowners ws)
    (ws_old_pid ws) (ws_IO ws) (ws_contended ws) s.

(** [WorksetID::operator==]. *)
Definition WorksetID_eqb (a b : WorksetID) : bool :=
  (lock_addr a =? lock_addr b) && (lock_generation a =? lock_generation b)
  && (workset_index a =? workset_index b).

(** The constructor [WorkSet::WorkSet]. *)
Definition new_WorkSet (lk_addr pd lk_generation ws_index cpu : Z) : WorkSet :=
  mkWorkSet 0 (mkWorksetID lk_addr lk_generation ws_index) cpu pd false pd false [] [].

(** ** [std::map] as an association list in key order *)

Fixpoint map_find {V} (k : Z) (m : list (Z * V)) : option V :=
  match m with
  | [] => None
  | (k', v) :: m' => if k =? k' then Some v else map_find k m'
  end.

Fixpoint map_put {V} (k : Z) (v : V) (m : list (Z * V)) : list (Z * V) :=
  match m with
  | [] => [(k, v)]
  | (k', v') :: m' =>
      if k <? k' then (k, v) :: m
      else if k =? k' then (k, v) :: m'
      else (k', v') :: map_put k v m'
  end.

(** ** [population] *)

(** The loop [for(pop = 0; x; pop++) x &= x - 1]; 32 iterations are enough for a
    32-bit word. *)
Fixpoint population_loop (fuel : nat) (x pop : Z) : Z :=
  match fuel with
  | O => pop
  | S f => if x =? 0 then pop else population_loop f (Z.land x (x - 1)) (pop + 1)
  end.

Definition population (x : Z) : Z := population_loop 33 x 0.

(** ** [WorkSet::grow] *)

Definition chunk (r : ByteRange) (i : Z) : Z := nth (Z.to_nat i) (bmap r) 0.

Definition set_chunk_at (r : ByteRange) (i v : Z) : ByteRange :=
  mkByteRange (<[Z.to_nat i := v]> (bmap r)).

Definition zero_range : ByteRange := mkByteRange (replicate (Z.to_nat BYTEMAP_LEN) 0).

Definition full_chunk (type : memop) : Z :=
  match type with
  | Sim_Trans_Load => READ_MASK
  | Sim_Trans_Store => WRITE_MASK
  | Sim_Trans_Other => 0
  end.

(** The mask of the inner loop for the chunk [[chunk_start, chunk_end)). *)
Definition chunk_mask (addr end_ chunk_start chunk_end : Z) : Z :=
  let m := u32 (-1) in
  let m := if chunk_start <? addr
           then Z.land m (u32 (Z.lnot (BIT_MASK (2 * (8 * sizeof_set_chunk - (addr - chunk_start))))))
           else m in
  if end_ <? chunk_end then Z.land m (BIT_MASK (2 * (chunk_end - end_))) else m.

(** The inner [for] over the chunks of one range; returns the range and [cur]. *)
Fixpoint grow_chunks (fuel : nat) (addr end_ full : Z) (i cur chunk_start chunk_end : Z)
    (range : ByteRange) : ByteRange * Z :=
  match fuel with
  | O => (range, cur)
  | S f =>
      if (i <? BYTEMAP_LEN) && (cur <? end_) then
        let range := set_chunk_at range i
          (Z.lor (chunk range i) (Z.land full (chunk_mask addr end_ chunk_start chunk_end))) in
        grow_chunks f addr end_ full (i + 1) chunk_end chunk_end (u64 (chunk_end + CHUNK_BYTES)) range
      else (range, cur)
  end.

(** The outer [while(cur < end)]. *)
Fixpoint grow_loop (fuel : nat) (addr end_ : Z) (type : memop) (cur : Z)
    (s : list (Z * ByteRange)) : list (Z * ByteRange) :=
  match fuel with
  | O => s
  | S f =>
      if cur <? end_ then
        let range_start := Z.land cur RANGE_MASK in
        let range := default zero_range (map_find range_start s) in
        let offset := Z.land cur (Z.lnot RANGE_MASK) in
        let i := offset / CHUNK_BYTES in
        let chunk_start := u64 (range_start + i * CHUNK_BYTES) in
        let '(range, cur) := grow_chunks (Z.to_nat BYTEMAP_LEN) addr end_ (full_chunk type)
                               i cur chunk_start (u64 (chunk_start + CHUNK_BYTES)) range in
        grow_loop f addr end_ type cur (map_put range_start range s)
      else s
  end.

Definition grow (ws : WorkSet) (addr len : Z) (type : memop) : WorkSet :=
  let end_ := u64 (addr + len) in
  with_set ws (grow_loop (Z.to_nat (end_ - addr)) addr end_ type addr (ws_set ws)).

(** ** [WorkSet::size], [rsize], [wsize] *)

Definition reads_of (c : Z) : Z := Z.land c READ_MASK.
Definition writes_of (c : Z) : Z := Z.shiftr (Z.land c WRITE_MASK) 1.

(** The inner loop shared by the three functions: sum of [f] over the chunks. *)
Definition range_sum (f : Z -> Z) (r : ByteRange) : Z :=
  foldl (fun acc i => acc + f (chunk r i)) 0 (seqZ 0 BYTEMAP_LEN).

Definition set_sum (f : Z -> Z) (s : list (Z * ByteRange)) : Z :=
  foldl (fun acc e => acc + range_sum f e.2) 0 s.

Definition touched_pop (c : Z) : Z := population (Z.lor (reads_of c) (writes_of c)).

Definition size (ws : WorkSet) : Z := set_sum touched_pop (ws_set ws).
Definition rsize (ws : WorkSet) : Z := set_sum (fun c => population (reads_of c)) (ws_set ws).
Definition wsize (ws : WorkSet) : Z := set_sum (fun c => population (writes_of c)) (ws_set ws).

(** ** [WorkSet::compare] *)

(** One chunk of two ranges at the same address: the [continue] skips the
    conflict count when the chunk of [this] is empty. *)
Definition chunk_conflicts (c1 c2 : Z) : Z :=
  let reads1 := reads_of c1 in
  let writes1 := writes_of c1 in
  if population (Z.lor reads1 writes1) =? 0 then 0
  else
    let reads2 := reads_of c2 in
    let writes2 := writes_of c2 in
    population (Z.lor (Z.lor (Z.land reads1 writes2) (Z.land reads2 writes1))
                      (Z.land writes1 writes2)).

Definition range_conflicts (r1 r2 : ByteRange) : Z :=
  foldl (fun acc i => acc + chunk_conflicts (chunk r1 i) (chunk r2 i)) 0 (seqZ 0 BYTEMAP_LEN).

(** The merge loop over the two ordered maps; returns (dependencies, size). *)
Fixpoint compare_loop (self : list (Z * ByteRange)) : list (Z * ByteRange) -> Z -> Z -> Z * Z :=
  fix go other dependencies sz :=
    match self, other with
    | (k1, r1) :: self', (k2, r2) :: other' =>
        if k1 <? k2 then compare_loop self' other dependencies (sz + range_sum touched_pop r1)
        else if k2 <? k1 then go other' dependencies sz
        else compare_loop self' other' (dependencies + range_conflicts r1 r2)
               (sz + range_sum touched_pop r1)
    | _, _ => (dependencies, sz)
    end.

Definition compare (this other : WorkSet) : Z * Z :=
  compare_loop (ws_set this) (ws_set other) 0 0.

(** ** [WorkSet::get_workset] *)

(** The bytes of one chunk, from the least significant pair of bits (the highest
    address) up: (address, 1 = read, 2 = written, 3 = both). *)
Definition chunk_entries (base i c : Z) : list (Z * Z) :=
  omap (fun j =>
    let r := Z.testbit (reads_of c) (2 * j) in
    let w := Z.testbit (writes_of c) (2 * j) in
    if r || w then
      Some (base + (4 * sizeof_set_chunk * i) + (4 * sizeof_set_chunk - 1 - j),
            Z.lor (if r then 1 else 0) (if w then 2 else 0))
    else None) (seqZ 0 (4 * sizeof_set_chunk)).

Definition range_entries (e : Z * ByteRange) : list (Z * Z) :=
  i ← seqZ 0 BYTEMAP_LEN; chunk_entries e.1 i (chunk e.2 i).

Definition get_workset (ws : WorkSet) : list (Z * Z) := ws_set ws ≫= range_entries.

(** ** Bit-level lemmas *)

Lemma shl32_1 x : shl32 1 x = 2 ^ (x mod 32).
Proof.
  unfold shl32. rewrite Z.shiftl_1_l. apply u32_small.
  pose proof (Z.mod_pos_bound x 32 ltac:(lia)).
  split; [lia|]. apply Z.pow_lt_mono_r; lia.
Qed.

Lemma BIT_MASK_spec x i :
  0 <= i -> Z.testbit (BIT_MASK x) i = (i <? 32) && (x mod 32 <=? i).
Proof.
  intros Hi. unfold BIT_MASK. pose proof (Z.mod_pos_bound x 32 ltac:(lia)).
  rewrite testbit_u32 by done. rewrite Z.lnot_spec by done.
  rewrite shl32_1, testbit_pow2_minus1 by lia.
  by rewrite Z.leb_antisym.
Qed.

(** The bit of byte [o] of a chunk: [b = 0] for reads, [b = 1] for writes. *)
Definition byte_bit (o b : Z) : Z := 2 * (15 - o) + b.

Lemma chunk_mask_spec addr end_ cs o b :
  addr < cs + 16 -> cs < end_ -> 0 <= o < 16 -> 0 <= b < 2 ->
  Z.testbit (chunk_mask addr end_ cs (cs + CHUNK_BYTES)) (byte_bit o b)
  = (addr <=? cs + o) && (cs + o <? end_).
Proof.
  intros Ha He Ho Hb.
  assert (Hi : 0 <= byte_bit o b < 32) by (unfold byte_bit; lia).
  unfold chunk_mask, CHUNK_BYTES, sizeof_set_chunk.
  destruct (Z.ltb_spec cs addr); destruct (Z.ltb_spec end_ (cs + 4 * 4));
    rewrite ?Z.land_spec, ?testbit_u32, ?Z.lnot_spec, ?BIT_MASK_spec, ?Z.bits_m1 by lia;
    rewrite !(proj2 (Z.ltb_lt (byte_bit o b) 32)) by lia; cbn [andb].
  1,2: replace ((2 * (8 * 4 - (addr - cs))) mod 32) with (32 - 2 * (addr - cs)) by mlia.
  1,3: rewrite (Z.mod_small (2 * _) 32) by lia.
  all: unfold byte_bit; bool_cases; try reflexivity; lia.
Qed.

(** Which of the two bits an access sets. *)
Definition touches (t : memop) (b : Z) : bool :=
  match t with Sim_Trans_Load => b =? 0 | Sim_Trans_Store => b =? 1 | Sim_Trans_Other => false end.

Lemma full_chunk_spec t o b :
  0 <= o < 16 -> 0 <= b < 2 ->
  Z.testbit (full_chunk t) (byte_bit o b) = touches t b.
Proof.
  intros Ho Hb. assert (b = 0 \/ b = 1) as Hb' by lia. clear Hb.
  revert o Ho. apply seqZ_forall.
  destruct Hb' as [-> | ->]; destruct t; vm_compute; repeat constructor.
Qed.

Lemma range_start_eq cur : Z.land cur RANGE_MASK = 32 * (cur / 32).
Proof.
  unfold RANGE_MASK, SET_ORDER.
  replace (2 ^ 5 - 1) with (Z.ones 5) by done.
  rewrite <- Z.ldiff_land, Z.ldiff_ones_r, Z.shiftl_mul_pow2, Z.shiftr_div_pow2 by lia.
  change (2 ^ 5) with 32. lia.
Qed.

Lemma range_offset_eq cur : Z.land cur (Z.lnot RANGE_MASK) = cur mod 32.
Proof.
  unfold RANGE_MASK, SET_ORDER. rewrite Z.lnot_involutive.
  replace (2 ^ 5 - 1) with (Z.ones 5) by done.
  by rewrite Z.land_ones by lia.
Qed.

(** ** The map *)

Definition keys_sorted {V} (m : list (Z * V)) : Prop := StronglySorted Z.lt m.*1.

Lemma map_find_put {V} k k' (v : V) m :
  map_find k' (map_put k v m) = if k' =? k then Some v else map_find k' m.
Proof.
  induction m as [|[k0 v0] m IH]; simpl; [done|].
  destruct (Z.ltb_spec k k0); [done|].
  destruct (Z.eqb_spec k k0) as [-> | Hne]; simpl.
  - by destruct (Z.eqb_spec k' k0).
  - rewrite IH. destruct (Z.eqb_spec k' k0) as [-> | ]; [|done].
    destruct (Z.eqb_spec k0 k); [lia|done].
Qed.

Lemma map_put_keys {V} k (v : V) m x :
  x ∈ (map_put k v m).*1 -> x = k \/ x ∈ m.*1.
Proof.
  induction m as [|[k0 v0] m IH]; simpl; [set_solver|].
  destruct (k <? k0); [set_solver|]. destruct (k =? k0); set_solver.
Qed.

Lemma map_put_sorted {V} k (v : V) m : keys_sorted m -> keys_sorted (map_put k v m).
Proof.
  unfold keys_sorted. induction m as [|[k0 v0] m IH]; simpl; intros Hs.
  - repeat constructor.
  - inv Hs as [|? ? Hs' Hall].
    destruct (Z.ltb_spec k k0).
    + simpl. constructor; [by constructor|]. constructor; [done|].
      eapply Forall_impl; [exact Hall|]. simpl. lia.
    + destruct (Z.eqb_spec k k0); simpl; [subst; by constructor|].
      constructor; [by apply IH|]. rewrite Forall_forall in *.
      intros x [-> | Hx]%map_put_keys; [lia|]. by apply Hall.
Qed.

(** ** Abstraction: the bytes read and written *)

Definition range_bit (r : ByteRange) (b k o : Z) : bool :=
  Z.testbit (chunk r k) (byte_bit o b).

Definition acc_bit (b : Z) (s : list (Z * ByteRange)) (a : Z) : bool :=
  match map_find (32 * (a / 32)) s with
  | Some r => range_bit r b (a mod 32 / 16) (a mod 16)
  | None => false
  end.

Definition was_read (ws : WorkSet) (a : Z) : bool := acc_bit 0 (ws_set ws) a.
Definition was_written (ws : WorkSet) (a : Z) : bool := acc_bit 1 (ws_set ws) a.

(** Well-formed ranges and maps: two 32-bit chunks per range, aligned keys in
    order. *)
Definition wf_range (r : ByteRange) : Prop :=
  length (bmap r) = 2%nat /\ Forall (fun c => 0 <= c < 2 ^ 32) (bmap r).

Definition wf_set (s : list (Z * ByteRange)) : Prop :=
  keys_sorted s /\ Forall (fun e => (exists q, e.1 = 32 * q) /\ wf_range e.2) s.

Definition wf_ws (ws : WorkSet) : Prop := wf_set (ws_set ws).

Lemma wf_zero_range : wf_range zero_range.
Proof. split; [done|]. repeat constructor; lia. Qed.

Lemma wf_chunk r i : wf_range r -> 0 <= chunk r i < 2 ^ 32.
Proof.
  intros [_ Hall]. unfold chunk. rewrite Forall_forall in Hall.
  destruct (nth_in_or_default (Z.to_nat i) (bmap r) 0) as [Hin | ->]; [|lia].
  apply Hall. by apply list_elem_of_In.
Qed.

Lemma chunk_mask_range addr end_ cs ce : 0 <= chunk_mask addr end_ cs ce < 2 ^ 32.
Proof.
  assert (H : forall x, 0 <= Z.land (u32 (-1)) x < 2 ^ 32).
  { intros x. change (u32 (-1)) with (Z.ones 32). rewrite Z.land_comm, Z.land_ones by lia.
    apply Z.mod_pos_bound. lia. }
  unfold chunk_mask.
  destruct (cs <? addr); destruct (end_ <? ce); rewrite <- ?Z.land_assoc; try apply H.
  vm_compute. intuition congruence.
Qed.

Lemma chunk_set r i k v :
  0 <= i < Z.of_nat (length (bmap r)) -> 0 <= k ->
  chunk (set_chunk_at r i v) k = if k =? i then v else chunk r k.
Proof.
  intros Hi Hk. unfold chunk, set_chunk_at. simpl. rewrite !nth_lookup.
  destruct (Z.eqb_spec k i) as [-> | Hne].
  - by rewrite list_lookup_insert_eq by lia.
  - by rewrite list_lookup_insert_ne by lia.
Qed.

(** ** [grow] *)

Lemma full_chunk_range t : 0 <= full_chunk t < 2 ^ 32.
Proof. destruct t; vm_compute; split; congruence. Qed.

(** One iteration of the inner loop. *)
Definition grow_one (addr end_ : Z) (t : memop) (i cs : Z) (r : ByteRange) : ByteRange :=
  set_chunk_at r i
    (Z.lor (chunk r i) (Z.land (full_chunk t) (chunk_mask addr end_ cs (cs + CHUNK_BYTES)))).

Lemma grow_one_wf addr end_ t i cs r :
  wf_range r -> 0 <= i < 2 -> wf_range (grow_one addr end_ t i cs r).
Proof.
  intros Hr Hi. pose proof (wf_chunk r i Hr) as Hc. destruct Hr as [Hl Hall].
  split; simpl; [by rewrite length_insert|].
  apply Forall_insert; [done|]. apply lor_range; [lia|done|].
  apply land_range; [lia|apply chunk_mask_range|]. apply full_chunk_range.
Qed.

Lemma grow_one_bit addr end_ t i cs r b k o :
  wf_range r -> 0 <= i < 2 -> 0 <= k -> 0 <= o < 16 -> 0 <= b < 2 ->
  addr < cs + 16 -> cs < end_ ->
  range_bit (grow_one addr end_ t i cs r) b k o
  = range_bit r b k o || ((k =? i) && (addr <=? cs + o) && (cs + o <? end_) && touches t b).
Proof.
  intros [Hl _] Hi Hk Ho Hb Ha He. unfold range_bit, grow_one.
  rewrite chunk_set by lia. destruct (Z.eqb_spec k i) as [-> | Hne].
  - rewrite Z.lor_spec, Z.land_spec, full_chunk_spec, chunk_mask_spec by lia. btauto.
  - simpl. btauto.
Qed.

Section grow_chunks.
Variables (addr end_ r0 : Z) (t : memop).
Hypothesis (Hr0 : 0 <= r0) (Hend : r0 + 64 < 2 ^ 64).

(** The bits the inner loop sets when it starts at chunk [i]. *)
Definition chunk_adds (i b k o : Z) : bool :=
  (i <=? k) && (addr <=? r0 + 16 * k + o) && (r0 + 16 * k + o <? end_) && touches t b.

Lemma grow_chunks_step i cur r :
  0 <= i < 2 -> addr < r0 + 16 * i + 16 -> cur < end_ ->
  forall f,
  grow_chunks (S f) addr end_ (full_chunk t) i cur (r0 + 16 * i) (r0 + 16 * i + 16) r
  = grow_chunks f addr end_ (full_chunk t) (i + 1) (r0 + 16 * (i + 1)) (r0 + 16 * (i + 1))
      (r0 + 16 * (i + 1) + 16) (grow_one addr end_ t i (r0 + 16 * i) r).
Proof using Hr0 Hend.
  intros Hi Ha Hc f. cbn [grow_chunks]. change BYTEMAP_LEN with 2.
  rewrite (proj2 (Z.ltb_lt i 2)), (proj2 (Z.ltb_lt cur end_)) by lia. cbn [andb].
  unfold CHUNK_BYTES, sizeof_set_chunk. rewrite u64_small by lia.
  replace (r0 + 16 * (i + 1)) with (r0 + 16 * i + 16) by lia.
  replace (r0 + 16 * i + 16 + 4 * 4) with (r0 + 16 * i + 16 + 16) by lia. done.
Qed.

(** Setting chunk [i] and then what the loop sets from [i + 1] on. *)
Lemma grow_one_adds i b k o r :
  wf_range r -> 0 <= i < 2 -> addr < r0 + 16 * i + 16 -> r0 + 16 * i < end_ ->
  0 <= k < 2 -> 0 <= o < 16 -> 0 <= b < 2 ->
  range_bit (grow_one addr end_ t i (r0 + 16 * i) r) b k o || chunk_adds (i + 1) b k o
  = range_bit r b k o || chunk_adds i b k o.
Proof using Type.
  intros Hwf Hi Ha He Hk Ho Hb. rewrite grow_one_bit by (done || lia). unfold chunk_adds.
  destruct (Z.eqb_spec k i) as [-> |]; [|destruct (Z.leb_spec i k)];
    rewrite ?Z.leb_refl, ?(proj2 (Z.leb_gt (i + 1) i)),
      ?(proj2 (Z.leb_gt (i + 1) k)), ?(proj2 (Z.leb_le (i + 1) k)) by lia; btauto.
Qed.

(** The loop stops past the last chunk and past the access. *)
Lemma grow_chunks_done f i cur cs ce r :
  2 <= i \/ end_ <= cur -> grow_chunks f addr end_ (full_chunk t) i cur cs ce r = (r, cur).
Proof using Type.
  intros H. destruct f; [done|]. cbn [grow_chunks]. change BYTEMAP_LEN with 2.
  destruct (Z.ltb_spec i 2), (Z.ltb_spec cur end_); (done || lia).
Qed.

Lemma chunk_adds_none i b k o :
  0 <= k < 2 -> 0 <= o -> 2 <= i \/ end_ <= r0 + 16 * i -> chunk_adds i b k o = false.
Proof using Type.
  intros Hk Ho Hi. unfold chunk_adds. bool_cases; try lia; simpl; btauto.
Qed.

Lemma grow_chunks_spec f : forall i cur r,
  0 <= i <= 2 -> 2 <= i + Z.of_nat f ->
  wf_range r -> r0 + 16 * i <= cur <= r0 + 32 ->
  addr < r0 + 16 * i + 16 -> r0 + 16 * i = cur \/ cur < end_ ->
  let '(r', cur') := grow_chunks f addr end_ (full_chunk t) i cur (r0 + 16 * i) (r0 + 16 * i + 16) r in
  wf_range r' /\ (cur' = r0 + 32 \/ (end_ <= cur' <= r0 + 32)) /\
  forall b k o, 0 <= k < 2 -> 0 <= o < 16 -> 0 <= b < 2 ->
    range_bit r' b k o = range_bit r b k o || chunk_adds i b k o.
Proof using Hr0 Hend.
  induction f as [|f IH]; intros i cur r Hi Hf Hwf Hcur Ha Hlt.
  all: destruct (Z_lt_le_dec i 2) as [Hi2 | Hi2];
    [destruct (Z_lt_le_dec cur end_) as [Hgo | Hstop]|].
  all: try lia.
  1,3-4: rewrite grow_chunks_done by lia; split_and!; [done|lia|];
    intros b k o Hk Ho Hb; rewrite chunk_adds_none by lia; btauto.
  rewrite grow_chunks_step by lia.
  specialize (IH (i + 1) (r0 + 16 * (i + 1)) (grow_one addr end_ t i (r0 + 16 * i) r)
    ltac:(lia) ltac:(lia) ltac:(apply grow_one_wf; [done|lia]) ltac:(lia) ltac:(lia) ltac:(lia)).
  destruct (grow_chunks _ _ _ _ _ _ _ _ _) as [r' cur'].
  destruct IH as (? & ? & IH). split; [done|]. split; [done|].
  intros b k o Hk Ho Hb. rewrite IH by done. apply grow_one_adds; (done || lia).
Qed.
End grow_chunks.

Lemma map_find_wf s k r : wf_set s -> map_find k s = Some r -> wf_range r.
Proof.
  intros [_ Hall] Hf. induction Hall as [|[k0 r0] s [_ Hr] Hall IH]; simpl in *; [done|].
  destruct (k =? k0); [by inv Hf|by apply IH].
Qed.

Lemma default_range_wf s k : wf_set s -> wf_range (default zero_range (map_find k s)).
Proof.
  intros Hs. destruct (map_find k s) eqn:E; simpl; [by eapply map_find_wf|].
  apply wf_zero_range.
Qed.

Lemma map_put_wf s q r : wf_set s -> wf_range r -> wf_set (map_put (32 * q) r s).
Proof.
  intros [Hs Hall] Hr. split; [by apply map_put_sorted|]. clear Hs.
  assert (Hnew : (exists q', 32 * q = 32 * q') /\ wf_range r) by eauto.
  induction Hall as [|[k0 r0] s ? Hall IH]; simpl; [by constructor|].
  destruct (32 * q <? k0); [|destruct (32 * q =? k0)]; rewrite ?Forall_cons; auto.
Qed.

(** Bits of a map after one range was replaced. *)
Lemma acc_bit_put b s q r a :
  acc_bit b (map_put (32 * q) r s) a
  = if a / 32 =? q then range_bit r b (a mod 32 / 16) (a mod 16) else acc_bit b s a.
Proof.
  unfold acc_bit. rewrite map_find_put.
  destruct (Z.eqb_spec (32 * (a / 32)) (32 * q)), (Z.eqb_spec (a / 32) q); (done || lia).
Qed.

Lemma acc_bit_default b s a :
  0 <= b < 2 ->
  range_bit (default zero_range (map_find (32 * (a / 32)) s)) b (a mod 32 / 16) (a mod 16)
  = acc_bit b s a.
Proof.
  intros Hb. unfold acc_bit. destruct (map_find _ s); simpl; [done|].
  unfold range_bit, chunk, zero_range. simpl.
  assert (a mod 32 / 16 = 0 \/ a mod 32 / 16 = 1) as [-> | ->] by mlia; apply Z.testbit_0_l.
Qed.

Lemma grow_loop_step f addr end_ t cur s :
  cur < end_ ->
  grow_loop (S f) addr end_ t cur s =
  let q := cur / 32 in
  let '(r, cur') := grow_chunks 2 addr end_ (full_chunk t) (cur mod 32 / 16) cur
      (u64 (32 * q + (cur mod 32 / 16) * 16)) (u64 (u64 (32 * q + (cur mod 32 / 16) * 16) + 16))
      (default zero_range (map_find (32 * q) s)) in
  grow_loop f addr end_ t cur' (map_put (32 * q) r s).
Proof.
  intros Hlt. cbn [grow_loop]. rewrite (proj2 (Z.ltb_lt _ _)) by done.
  by rewrite range_start_eq, range_offset_eq.
Qed.

Lemma grow_loop_spec addr end_ t f : forall cur s,
  wf_set s -> 0 <= addr <= cur -> end_ <= 2 ^ 32 ->
  cur = addr \/ (exists q, cur = 32 * q) \/ end_ <= cur ->
  end_ - cur <= Z.of_nat f ->
  let s' := grow_loop f addr end_ t cur s in
  wf_set s' /\
  forall a b, 0 <= b < 2 ->
    acc_bit b s' a = acc_bit b s a || ((cur <=? a) && (a <? end_) && touches t b).
Proof.
  induction f as [|f IH]; intros cur s Hs Ha He Hcur Hf.
  - split; [done|]. intros a b Hb. simpl.
    destruct (Z.leb_spec cur a), (Z.ltb_spec a end_); try lia; simpl; btauto.
  - destruct (Z_lt_le_dec cur end_) as [Hlt | Hge].
    2: { cbn [grow_loop]. rewrite (proj2 (Z.ltb_ge _ _)) by done. split; [done|].
         intros a b Hb.
         destruct (Z.leb_spec cur a), (Z.ltb_spec a end_); try lia; simpl; btauto. }
    rewrite grow_loop_step by done. cbn zeta.
    set (q := cur / 32). set (i := cur mod 32 / 16).
    assert (Hqi : 32 * q + 16 * i <= cur < 32 * q + 16 * i + 16 /\ 0 <= i < 2 /\ 0 <= q)
      by (subst q i; mlia).
    assert (Hi : cur = addr \/ (i = 0 /\ cur = 32 * q))
      by (subst i q; destruct Hcur as [| [[q' ->] |]]; [auto|right; mlia|lia]).
    replace (32 * q + i * 16) with (32 * q + 16 * i) by lia. rewrite !u64_small by lia.
    pose proof (default_range_wf s (32 * q) Hs) as Hr.
    set (r := default zero_range (map_find (32 * q) s)) in *.
    pose proof (grow_chunks_spec addr end_ (32 * q) t ltac:(lia) ltac:(lia) 2 i cur r
      ltac:(lia) ltac:(lia) Hr ltac:(lia) ltac:(lia) ltac:(lia)) as Hg.
    destruct (grow_chunks 2 _ _ _ _ _ _ _ _) as [r' cur'] eqn:Eg.
    destruct Hg as (Hr' & Hcur' & Hbits).
    specialize (IH cur' (map_put (32 * q) r' s) (map_put_wf _ _ _ Hs Hr')
      ltac:(lia) He ltac:(destruct Hcur' as [-> |]; [right; left; exists (q + 1); lia|right; right; lia])
      ltac:(lia)) as [IHwf IHb].
    split; [done|]. intros a b Hb. rewrite IHb, acc_bit_put by done.
    destruct (Z.eqb_spec (a / 32) q) as [Hq | Hq].
    + rewrite Hbits by mlia. subst r. rewrite <- Hq, acc_bit_default by done.
      unfold chunk_adds.
      replace (32 * (a / 32) + 16 * (a mod 32 / 16) + a mod 16) with a by mlia.
      assert (Hk : 32 * q + 16 * (a mod 32 / 16) <= a < 32 * q + 16 * (a mod 32 / 16) + 16)
        by (subst q; mlia).
      bool_cases; try (exfalso; lia); simpl; btauto.
    + assert (Ha' : a < 32 * q \/ 32 * q + 32 <= a) by mlia.
      bool_cases; try (exfalso; lia); simpl; btauto.
Qed.

(** An access adds exactly its bytes. *)
Lemma grow_spec ws addr len t :
  wf_ws ws -> 0 <= addr -> 0 <= len -> addr + len <= 2 ^ 32 ->
  wf_ws (grow ws addr len t) /\
  (forall a, was_read (grow ws addr len t) a
     = was_read ws a || ((addr <=? a) && (a <? addr + len) && touches t 0)) /\
  (forall a, was_written (grow ws addr len t) a
     = was_written ws a || ((addr <=? a) && (a <? addr + len) && touches t 1)).
Proof.
  intros Hwf Ha Hl He. unfold wf_ws, was_read, was_written, grow. simpl.
  rewrite u64_small by lia.
  destruct (grow_loop_spec addr (addr + len) t (Z.to_nat (addr + len - addr)) addr (ws_set ws)
    Hwf ltac:(lia) ltac:(lia) ltac:(auto) ltac:(lia)) as [Hwf' Hb].
  split; [done|]. split; intros a; by rewrite Hb by lia.
Qed.

(** C1: [grow] records exactly the bytes of the access.  For a workset whose map is
    well formed and an access inside the 32-bit address space, the map stays well
    formed, a load marks exactly [[addr, addr+len)] as read, a store exactly those
    bytes as written, any other access marks nothing, and no earlier mark is lost. *)
Theorem grow_correct ws addr len t :
  wf_ws ws -> 0 <= addr -> 0 <= len -> addr + len <= 2 ^ 32 ->
  wf_ws (grow ws addr len t) /\
  (forall a, was_read (grow ws addr len t) a
     = was_read ws a || ((addr <=? a) && (a <? addr + len) && touches t 0)) /\
  (forall a, was_written (grow ws addr len t) a
     = was_written ws a || ((addr <=? a) && (a <? addr + len) && touches t 1)).
Proof. apply grow_spec. Qed.

(** ** [population] and the per-chunk counts *)

Lemma population_loop_spec f : forall x p,
  0 <= x -> Z_pop x < Z.of_nat f -> population_loop f x p = p + Z_pop x.
Proof.
  induction f as [|f IH]; intros x p Hx Hf; [pose proof (Z_pop_nonneg x); lia|].
  cbn [population_loop]. destruct (Z.eqb_spec x 0) as [-> | Hne]; [simpl; lia|].
  destruct (land_pred x ltac:(lia)) as [? Hp]. rewrite IH; lia.
Qed.

Lemma zsum_b2z_bound {A} (f : A -> bool) l :
  0 <= zsum (fun x => Z.b2z (f x)) l <= Z.of_nat (length l).
Proof. induction l as [|x l IH]; simpl; [lia|]. destruct (f x); simpl; lia. Qed.

(** The loop of [population] terminates within its fuel and counts the bits. *)
Lemma population_spec x :
  0 <= x < 2 ^ 32 ->
  population x = zsum (fun i => Z.b2z (Z.testbit x i)) (seqZ 0 32).
Proof.
  intros Hx. assert (Hb := Z_pop_bits 32 x Hx). change (Z.of_nat 32) with 32 in Hb.
  unfold population. rewrite population_loop_spec; [by rewrite Hb|lia|].
  rewrite Hb. pose proof (zsum_b2z_bound (Z.testbit x) (seqZ 0 32)) as H.
  rewrite length_seqZ in H. lia.
Qed.

Lemma population_zero x : 0 <= x < 2 ^ 32 -> population x = 0 -> x = 0.
Proof.
  intros Hx. rewrite population_spec by done. change 32 with (Z.of_nat 32) at 1.
  rewrite <- Z_pop_bits by done. intros H0.
  destruct (Z.eq_dec x 0); [done|]. pose proof (Z_pop_pos x). lia.
Qed.

Lemma READ_MASK_bit i : 0 <= i < 32 -> Z.testbit READ_MASK i = Z.even i.
Proof. revert i. apply seqZ_forall. vm_compute. repeat constructor. Qed.

Lemma WRITE_MASK_bit i : 0 <= i < 32 -> Z.testbit WRITE_MASK i = Z.odd i.
Proof. revert i. apply seqZ_forall. vm_compute. repeat constructor. Qed.

Lemma reads_of_range c : 0 <= c < 2 ^ 32 -> 0 <= reads_of c < 2 ^ 32.
Proof. intros. apply land_range; [lia| |lia]. by vm_compute. Qed.

Lemma writes_of_range c : 0 <= c < 2 ^ 32 -> 0 <= writes_of c < 2 ^ 32.
Proof.
  intros Hc. unfold writes_of. rewrite Z.shiftr_div_pow2 by lia. change (2 ^ 1) with 2.
  assert (0 <= Z.land c WRITE_MASK < 2 ^ 32) by (apply land_range; [lia| |lia]; by vm_compute).
  mlia.
Qed.

Lemma reads_of_bit c j b :
  0 <= j < 16 -> 0 <= b < 2 ->
  Z.testbit (reads_of c) (2 * j + b) = (b =? 0) && Z.testbit c (2 * j).
Proof.
  intros Hj Hb. unfold reads_of. rewrite Z.land_spec, READ_MASK_bit by lia.
  assert (b = 0 \/ b = 1) as [-> | ->] by lia.
  - rewrite Z.add_0_r, Z.even_mul. simpl. btauto.
  - rewrite Z.even_add, Z.even_mul. simpl. btauto.
Qed.

Lemma writes_of_bit c j b :
  0 <= j < 16 -> 0 <= b < 2 -> 0 <= c < 2 ^ 32 ->
  Z.testbit (writes_of c) (2 * j + b) = (b =? 0) && Z.testbit c (2 * j + 1).
Proof.
  intros Hj Hb Hc. unfold writes_of. rewrite Z.shiftr_spec, Z.land_spec by lia.
  assert (b = 0 \/ b = 1) as [-> | ->] by lia.
  - rewrite WRITE_MASK_bit, !Z.add_0_r, Z.odd_add, Z.odd_mul by lia. simpl. btauto.
  - destruct (Z.eq_dec j 15) as [-> |].
    + rewrite (testbit_high c 32) by lia. done.
    + rewrite WRITE_MASK_bit by lia. replace (2 * j + 1 + 1) with (2 * (j + 1)) by lia.
      rewrite Z.odd_mul. simpl. btauto.
Qed.

(** A word whose odd bits are clear: its population is a count over the pairs, and
    over byte offsets, which run the other way. *)
Lemma population_pairs x :
  0 <= x < 2 ^ 32 ->
  (forall j, 0 <= j < 16 -> Z.testbit x (2 * j + 1) = false) ->
  population x = zsum (fun j => Z.b2z (Z.testbit x (2 * j))) (seqZ 0 16).
Proof.
  intros Hx Ho. rewrite population_spec by done.
  change 32 with (2 * Z.of_nat 16). rewrite zsum_pairs. change (Z.of_nat 16) with 16.
  apply zsum_ext. intros j Hj%elem_of_seqZ. rewrite Ho by lia. simpl. lia.
Qed.

Lemma population_even x (g : Z -> bool) :
  0 <= x < 2 ^ 32 ->
  (forall j, 0 <= j < 16 -> Z.testbit x (2 * j) = g (15 - j)) ->
  (forall j, 0 <= j < 16 -> Z.testbit x (2 * j + 1) = false) ->
  population x = zsum (fun o => Z.b2z (g o)) (seqZ 0 16).
Proof.
  intros Hx He Ho. rewrite population_pairs by done.
  rewrite (zsum_ext _ (fun j => Z.b2z (g (15 - j)))).
  - let l := eval vm_compute in (seqZ 0 16) in change (seqZ 0 16) with l. cbn [zsum].
    repeat match goal with |- context [15 - ?k] =>
      let v := eval vm_compute in (15 - k) in change (15 - k) with v end. lia.
  - intros j Hj%elem_of_seqZ. rewrite He by lia. done.
Qed.

(** ** Counting bytes *)

(** [counts P f]: per chunk, [f] counts the bytes whose read and write bits
    satisfy [P]. *)
Definition counts (P : bool -> bool -> bool) (f : Z -> Z) : Prop :=
  forall c, 0 <= c < 2 ^ 32 ->
  f c = zsum (fun o => Z.b2z (P (Z.testbit c (byte_bit o 0)) (Z.testbit c (byte_bit o 1))))
          (seqZ 0 16).

Lemma byte_bit_sub j b : byte_bit (15 - j) b = 2 * j + b.
Proof. unfold byte_bit. lia. Qed.

Lemma reads_of_byte c j : 0 <= j < 16 ->
  Z.testbit (reads_of c) (2 * j) = Z.testbit c (byte_bit (15 - j) 0).
Proof.
  intros. rewrite byte_bit_sub. rewrite <- (Z.add_0_r (2 * j)) at 1.
  rewrite reads_of_bit, Z.add_0_r by lia. done.
Qed.

Lemma writes_of_byte c j : 0 <= j < 16 -> 0 <= c < 2 ^ 32 ->
  Z.testbit (writes_of c) (2 * j) = Z.testbit c (byte_bit (15 - j) 1).
Proof.
  intros. rewrite byte_bit_sub. rewrite <- (Z.add_0_r (2 * j)) at 1.
  rewrite writes_of_bit by lia. done.
Qed.

Lemma reads_counts : counts (fun r _ => r) (fun c => population (reads_of c)).
Proof.
  intros c Hc. apply (population_even _ (fun o => Z.testbit c (byte_bit o 0))).
  - by apply reads_of_range.
  - intros. by apply reads_of_byte.
  - intros. by rewrite reads_of_bit by lia.
Qed.

Lemma writes_counts : counts (fun _ w => w) (fun c => population (writes_of c)).
Proof.
  intros c Hc. apply (population_even _ (fun o => Z.testbit c (byte_bit o 1))).
  - by apply writes_of_range.
  - intros. by apply writes_of_byte.
  - intros. by rewrite writes_of_bit by lia.
Qed.

Lemma touched_counts : counts orb touched_pop.
Proof.
  intros c Hc.
  apply (population_even _ (fun o => Z.testbit c (byte_bit o 0) || Z.testbit c (byte_bit o 1))).
  - apply lor_range; [lia|by apply reads_of_range|by apply writes_of_range].
  - intros. by rewrite Z.lor_spec, reads_of_byte, writes_of_byte.
  - intros. by rewrite Z.lor_spec, reads_of_bit, writes_of_bit by lia.
Qed.

(** A byte conflicts when both sides touch it and one of them writes it. *)
Definition conflict (r1 w1 r2 w2 : bool) : bool := (r1 && w2) || (r2 && w1) || (w1 && w2).

Lemma chunk_conflicts_spec c1 c2 :
  0 <= c1 < 2 ^ 32 -> 0 <= c2 < 2 ^ 32 ->
  chunk_conflicts c1 c2 = zsum (fun o => Z.b2z
    (conflict (Z.testbit c1 (byte_bit o 0)) (Z.testbit c1 (byte_bit o 1))
              (Z.testbit c2 (byte_bit o 0)) (Z.testbit c2 (byte_bit o 1)))) (seqZ 0 16).
Proof.
  intros H1 H2. unfold chunk_conflicts.
  pose proof (reads_of_range c1 H1). pose proof (writes_of_range c1 H1).
  pose proof (reads_of_range c2 H2). pose proof (writes_of_range c2 H2).
  assert (Hp : population (Z.lor (Z.lor (Z.land (reads_of c1) (writes_of c2))
      (Z.land (reads_of c2) (writes_of c1))) (Z.land (writes_of c1) (writes_of c2)))
    = zsum (fun o => Z.b2z
    (conflict (Z.testbit c1 (byte_bit o 0)) (Z.testbit c1 (byte_bit o 1))
              (Z.testbit c2 (byte_bit o 0)) (Z.testbit c2 (byte_bit o 1)))) (seqZ 0 16)).
  { apply population_even.
    - repeat apply lor_range; try lia; apply land_range; lia.
    - intros. autorewrite with bits. by rewrite !reads_of_byte, !writes_of_byte.
    - intros. autorewrite with bits. by rewrite !reads_of_bit, !writes_of_bit by lia. }
  destruct (Z.eqb_spec (population (Z.lor (reads_of c1) (writes_of c1))) 0) as [Hz |]; [|done].
  rewrite <- Hp. apply population_zero in Hz; [|apply lor_range; lia].
  apply Z.lor_eq_0_iff in Hz as [-> ->].
  by rewrite Z.land_0_l, Z.land_0_r.
Qed.

(** ** From chunks to addresses *)

(** Every address a map has room for. *)
Definition addrs (s : list (Z * ByteRange)) : list Z := s ≫= fun e => seqZ e.1 32.

(** A sum over the two chunks of a range is a sum over its 32 bytes. *)
Lemma range_bytes (g : Z -> Z -> Z) (h : Z -> Z) :
  (forall i, 0 <= i < 2 -> h i = zsum (g i) (seqZ 0 16)) ->
  foldl (fun acc i => acc + h i) 0 (seqZ 0 BYTEMAP_LEN)
  = zsum (fun x => g (x / 16) (x mod 16)) (seqZ 0 32).
Proof.
  intros Hh. rewrite foldl_zsum. change BYTEMAP_LEN with 2.
  change 32 with (16 + 16). rewrite (seqZ_app 0 16 16), zsum_app by lia.
  change (0 + 16) with (16 + 0).
  rewrite <- (fmap_add_seqZ 16 0), zsum_fmap.
  change (seqZ 0 2) with [0; 1]. cbn [zsum]. rewrite !Hh by lia.
  rewrite (zsum_ext (fun x => g (x / 16) (x mod 16)) (g 0)).
  - rewrite (zsum_ext (fun x => g ((16 + x) / 16) _) (g 1)); [lia|].
    intros x Hx%elem_of_seqZ. f_equal; mlia.
  - intros x Hx%elem_of_seqZ. f_equal; mlia.
Qed.

Lemma sorted_find {V} (m : list (Z * V)) k v :
  keys_sorted m -> (k, v) ∈ m -> map_find k m = Some v.
Proof.
  unfold keys_sorted. induction m as [|[k0 v0] m IH]; intros Hs Hin; [set_solver|].
  inv Hs as [|? ? Hs' Hall]. simpl. apply elem_of_cons in Hin as [[= -> ->] | Hin].
  - by rewrite Z.eqb_refl.
  - rewrite Forall_forall in Hall. specialize (Hall k (list_elem_of_fmap_2 fst _ _ Hin)).
    destruct (Z.eqb_spec k k0); [lia|by apply IH].
Qed.

Lemma map_find_elem {V} (m : list (Z * V)) k v : map_find k m = Some v -> (k, v) ∈ m.
Proof.
  induction m as [|[k0 v0] m IH]; simpl; [done|].
  destruct (Z.eqb_spec k k0) as [-> |]; [intros [= ->]; set_solver|].
  intros H. apply elem_of_cons. auto.
Qed.

Lemma wf_set_key s k r : wf_set s -> (k, r) ∈ s -> (exists q, k = 32 * q) /\ wf_range r.
Proof. intros [_ Hall] Hin. rewrite Forall_forall in Hall. by apply (Hall (k, r)). Qed.

Lemma acc_bit_at b s k r x :
  wf_set s -> (k, r) ∈ s -> 0 <= x < 32 ->
  acc_bit b s (x + k) = range_bit r b (x / 16) (x mod 16).
Proof.
  intros Hs Hin Hx. destruct (wf_set_key _ _ _ Hs Hin) as [[q ->] _].
  unfold acc_bit. replace (32 * ((x + 32 * q) / 32)) with (32 * q) by mlia.
  rewrite (sorted_find s (32 * q) r) by (apply Hs || done). f_equal; mlia.
Qed.

Lemma seqZ_shift k n : seqZ k n = (fun x => x + k) <$> seqZ 0 n.
Proof.
  rewrite <- (Z.add_0_r k) at 1. rewrite <- fmap_add_seqZ.
  apply list_fmap_ext. intros. lia.
Qed.

(** Sums over all ranges are sums over all addresses. *)
Lemma set_bytes (s : list (Z * ByteRange)) (h : Z -> ByteRange -> Z) (P : Z -> Z) :
  (forall k r, (k, r) ∈ s -> h k r = zsum (fun x => P (x + k)) (seqZ 0 32)) ->
  zsum (fun e => h e.1 e.2) s = zsum P (addrs s).
Proof.
  intros Hh. unfold addrs. rewrite zsum_bind. apply zsum_ext. intros [k r] Hin.
  cbn [fst snd]. rewrite (Hh k r Hin), (seqZ_shift k), zsum_fmap. done.
Qed.

Lemma elem_of_addrs s a :
  wf_set s -> a ∈ addrs s <-> is_Some (map_find (32 * (a / 32)) s).
Proof.
  intros Hs. unfold addrs. rewrite list_elem_of_bind. split.
  - intros ([k r] & Ha%elem_of_seqZ & Hin). simpl in Ha.
    destruct (wf_set_key _ _ _ Hs Hin) as [[q ->] _].
    replace (32 * (a / 32)) with (32 * q) by mlia.
    rewrite (sorted_find s (32 * q) r) by (apply Hs || done). done.
  - intros [r Hr]. exists (32 * (a / 32), r). split; [apply elem_of_seqZ; simpl; mlia|].
    by apply map_find_elem.
Qed.

Lemma addrs_NoDup s : wf_set s -> NoDup (addrs s).
Proof.
  intros [Hs Hall]. unfold keys_sorted in Hs. unfold addrs.
  induction Hall as [|[k r] s [[q Hq] _] Hall IH]; [constructor|].
  rewrite bind_cons. inv Hs as [|? ? Hs' Hlt]. apply NoDup_app. split_and!; [apply NoDup_seqZ| |by apply IH].
  intros a Ha%elem_of_seqZ Ha'. apply list_elem_of_bind in Ha' as ([k' r'] & Ha'%elem_of_seqZ & Hin).
  pose proof (proj1 (Forall_forall _ _) Hlt k' (list_elem_of_fmap_2 fst _ _ Hin)).
  destruct (proj1 (Forall_forall _ _) Hall _ Hin) as [[q' Hq'] _]. simpl in *. lia.
Qed.

Lemma acc_bit_addrs b s a : wf_set s -> acc_bit b s a = true -> a ∈ addrs s.
Proof.
  intros Hs H. apply elem_of_addrs; [done|]. unfold acc_bit in H.
  destruct (map_find _ s); [done|discriminate].
Qed.

(** The count of a byte predicate that implies a mark is a set's cardinality. *)
Lemma addrs_card s (P : Z -> bool) :
  wf_set s -> (forall a, P a = true -> a ∈ addrs s) ->
  exists X : gset Z, (forall a, a ∈ X <-> P a = true)
    /\ zsum (fun a => Z.b2z (P a)) (addrs s) = Z.of_nat (base.size X).
Proof.
  intros Hs HP. exists (list_to_set (filter (fun a => P a = true) (addrs s))). split.
  - intros a. rewrite elem_of_list_to_set, list_elem_of_filter. naive_solver.
  - by apply zsum_card, addrs_NoDup.
Qed.

Lemma set_sum_bytes s P f :
  wf_set s -> counts P f ->
  set_sum f s = zsum (fun a => Z.b2z (P (acc_bit 0 s a) (acc_bit 1 s a))) (addrs s).
Proof.
  intros Hs Hf. unfold set_sum. rewrite foldl_zsum, Z.add_0_l.
  apply (set_bytes s (fun _ r => range_sum f r)). intros k r Hin. unfold range_sum.
  rewrite (range_bytes (fun i o => Z.b2z (P (range_bit r 0 i o) (range_bit r 1 i o)))).
  - apply zsum_ext. intros x Hx%elem_of_seqZ. by rewrite !(acc_bit_at _ s k r) by (done || lia).
  - intros i Hi. apply Hf, wf_chunk. by eapply wf_set_key.
Qed.

(** ** Results *)

(** [rsize], [wsize] and [size] are the cardinalities of the sets of bytes
    read, written, and touched at all. *)
Theorem sizes_correct ws :
  wf_ws ws ->
  exists R W : gset Z,
    (forall a, a ∈ R <-> was_read ws a = true) /\
    (forall a, a ∈ W <-> was_written ws a = true) /\
    rsize ws = Z.of_nat (base.size R) /\ wsize ws = Z.of_nat (base.size W) /\
    size ws = Z.of_nat (base.size (R ∪ W)).
Proof.
  intros Hs. unfold wf_ws, was_read, was_written, rsize, wsize, size in *.
  destruct (addrs_card (ws_set ws) (acc_bit 0 (ws_set ws))) as (R & HR & HRs);
    [done|intros a; by apply acc_bit_addrs|].
  destruct (addrs_card (ws_set ws) (acc_bit 1 (ws_set ws))) as (W & HW & HWs);
    [done|intros a; by apply acc_bit_addrs|].
  destruct (addrs_card (ws_set ws) (fun a => acc_bit 0 (ws_set ws) a || acc_bit 1 (ws_set ws) a))
    as (T & HT & HTs); [done|intros a [H|H]%orb_true_iff; by eapply acc_bit_addrs|].
  exists R, W. split_and!; [done|done| | |].
  - by rewrite (set_sum_bytes _ (fun r _ => r) _ Hs reads_counts).
  - by rewrite (set_sum_bytes _ (fun _ w => w) _ Hs writes_counts).
  - rewrite (set_sum_bytes _ orb _ Hs touched_counts), HTs. do 2 f_equal.
    apply leibniz_equiv. intros a. rewrite elem_of_union, HR, HW, HT. apply orb_true_iff.
Qed.

(** *** [compare] *)

Lemma find_above {V} (m : list (Z * V)) k : Forall (Z.lt k) m.*1 -> map_find k m = None.
Proof.
  induction m as [|[k0 v0] m IH]; simpl; intros Hall; [done|]. inv Hall.
  destruct (Z.eqb_spec k k0); [lia|auto].
Qed.

Definition deps_with (other : list (Z * ByteRange)) (e : Z * ByteRange) : Z :=
  match map_find e.1 other with Some r2 => range_conflicts e.2 r2 | None => 0 end.

(** Dropping a smaller first key of [other] changes nothing for larger keys. *)
Lemma deps_with_tail k r other (self : list (Z * ByteRange)) :
  Forall (Z.lt k) self.*1 -> zsum (deps_with ((k, r) :: other)) self = zsum (deps_with other) self.
Proof.
  intros Hall. apply zsum_ext. intros [k' r'] Hin. unfold deps_with. simpl.
  pose proof (proj1 (Forall_forall _ _) Hall k' (list_elem_of_fmap_2 fst _ _ Hin)).
  destruct (Z.eqb_spec k' k); [lia|done].
Qed.

Lemma sorted_above (k k' : Z) l : k < k' -> Forall (Z.lt k') l -> Forall (Z.lt k) (k' :: l).
Proof. intros H Hall. constructor; [done|]. eapply Forall_impl; [exact Hall|]. simpl. lia. Qed.

Lemma compare_loop_deps self : forall other d z,
  keys_sorted self -> keys_sorted other ->
  (compare_loop self other d z).1 = d + zsum (deps_with other) self.
Proof.
  unfold keys_sorted. induction self as [|[k1 r1] self IH]; intros other d z Hs Ho.
  { destruct other; simpl; lia. }
  pose proof Hs as Hs0. inv Hs as [|? ? Hs' Hlt].
  induction other as [|[k2 r2] other IHo] in d, z, Ho |- *.
  { simpl. rewrite zsum_0 by done. unfold deps_with. simpl. lia. }
  inv Ho as [|? ? Ho' Hlto].
  cbn [compare_loop]. destruct (Z.ltb_spec k1 k2).
  - rewrite IH by (done || by constructor). cbn [zsum]. unfold deps_with at 2.
    rewrite find_above by by apply sorted_above. lia.
  - destruct (Z.ltb_spec k2 k1).
    + change ((compare_loop ((k1, r1) :: self) other d z).1
        = d + zsum (deps_with ((k2, r2) :: other)) ((k1, r1) :: self)).
      rewrite IHo by done. rewrite deps_with_tail; [done|]. by apply sorted_above.
    + assert (k1 = k2) as -> by lia. rewrite IH by done. cbn [zsum].
      rewrite deps_with_tail by done. unfold deps_with at 2. simpl. rewrite Z.eqb_refl. lia.
Qed.

(** A byte on which two worksets conflict: a RAW, WAR or WAW hazard. *)
Definition conflicting (ws1 ws2 : WorkSet) (a : Z) : bool :=
  conflict (was_read ws1 a) (was_written ws1 a) (was_read ws2 a) (was_written ws2 a).

Lemma acc_bit_absent b s k x :
  map_find k s = None -> (exists q, k = 32 * q) -> 0 <= x < 32 -> acc_bit b s (x + k) = false.
Proof.
  intros Hn [q ->] Hx. unfold acc_bit. by replace (32 * ((x + 32 * q) / 32)) with (32 * q) by mlia; rewrite Hn.
Qed.

Lemma conflict_nothing r1 w1 : conflict r1 w1 false false = false.
Proof. unfold conflict. btauto. Qed.

Lemma compare_deps_bytes s1 s2 :
  wf_set s1 -> wf_set s2 ->
  (compare_loop s1 s2 0 0).1 = zsum (fun a => Z.b2z
     (conflict (acc_bit 0 s1 a) (acc_bit 1 s1 a) (acc_bit 0 s2 a) (acc_bit 1 s2 a))) (addrs s1).
Proof.
  intros H1 H2. rewrite compare_loop_deps by (apply H1 || apply H2). rewrite Z.add_0_l.
  apply (set_bytes s1 (fun k r => deps_with s2 (k, r))). intros k r Hin.
  unfold deps_with. cbn [fst snd]. destruct (wf_set_key _ _ _ H1 Hin) as [Hk Hr].
  destruct (map_find k s2) as [r2|] eqn:Hf.
  - pose proof (map_find_elem _ _ _ Hf) as Hin2. destruct (wf_set_key _ _ _ H2 Hin2) as [_ Hr2].
    unfold range_conflicts.
    rewrite (range_bytes (fun i o => Z.b2z (conflict (range_bit r 0 i o) (range_bit r 1 i o)
      (range_bit r2 0 i o) (range_bit r2 1 i o)))).
    + apply zsum_ext. intros x Hx%elem_of_seqZ.
      by rewrite !(acc_bit_at _ s1 k r), !(acc_bit_at _ s2 k r2) by (done || lia).
    + intros i Hi. apply chunk_conflicts_spec; by apply wf_chunk.
  - symmetry. apply zsum_0. intros x Hx%elem_of_seqZ.
    by rewrite !(acc_bit_absent _ s2), conflict_nothing by (done || lia).
Qed.

Lemma compare_card this other :
  wf_ws this -> wf_ws other ->
  exists X : gset Z, (forall a, a ∈ X <-> conflicting this other a = true)
    /\ (compare this other).1 = Z.of_nat (base.size X).
Proof.
  intros H1 H2. unfold compare. rewrite compare_deps_bytes by done.
  apply (addrs_card (ws_set this)); [done|]. intros a Ha. unfold conflict in Ha.
  destruct (acc_bit 0 (ws_set this) a) eqn:E0; [by eapply acc_bit_addrs|].
  destruct (acc_bit 1 (ws_set this) a) eqn:E1; [by eapply acc_bit_addrs|].
  by rewrite andb_false_r in Ha.
Qed.

Lemma conflicting_sym ws1 ws2 a : conflicting ws1 ws2 a = conflicting ws2 ws1 a.
Proof. unfold conflicting, conflict. btauto. Qed.

(** C2: [compare] returns the number of bytes on which the two worksets conflict,
    where a conflict is a byte both touch and at least one writes; the count does
    not depend on which workset is [this]. *)
Theorem compare_correct this other :
  wf_ws this -> wf_ws other ->
  (exists X : gset Z, (forall a, a ∈ X <-> conflicting this other a = true)
    /\ (compare this other).1 = Z.of_nat (base.size X)) /\
  (compare other this).1 = (compare this other).1.
Proof.
  intros H1 H2. destruct (compare_card this other) as (X & HX & Hc); [done|done|].
  split; [by eauto|]. destruct (compare_card other this) as (Y & HY & ->); [done|done|].
  rewrite Hc. do 2 f_equal. apply leibniz_equiv. intros a. by rewrite HX, HY, conflicting_sym.
Qed.

(** *** [get_workset] *)

Lemma length_omap_if {A B} (P : A -> bool) (g : A -> B) l :
  Z.of_nat (length (omap (fun x => if P x then Some (g x) else None) l))
  = zsum (fun x => Z.b2z (P x)) l.
Proof. induction l as [|x l IH]; csimpl; [done|]. destruct (P x); simpl; lia. Qed.

Lemma length_bind {A B} (g : A -> list B) l :
  Z.of_nat (length (l ≫= g)) = zsum (fun x => Z.of_nat (length (g x))) l.
Proof. induction l as [|x l IH]; csimpl; [done|]. rewrite length_app. lia. Qed.

Lemma chunk_entries_length k i c :
  0 <= c < 2 ^ 32 -> Z.of_nat (length (chunk_entries k i c)) = touched_pop c.
Proof.
  intros Hc. unfold touched_pop, chunk_entries. rewrite length_omap_if, population_pairs.
  - apply zsum_ext. intros j _. by rewrite Z.lor_spec.
  - apply lor_range; [lia|by apply reads_of_range|by apply writes_of_range].
  - intros. by rewrite Z.lor_spec, reads_of_bit, writes_of_bit by lia.
Qed.

Lemma get_workset_length ws :
  wf_ws ws -> Z.of_nat (length (get_workset ws)) = size ws.
Proof.
  intros Hs. unfold get_workset, size, set_sum. rewrite length_bind, foldl_zsum, Z.add_0_l.
  apply zsum_ext. intros [k r] Hin. unfold range_entries, range_sum.
  rewrite length_bind, foldl_zsum, Z.add_0_l. apply zsum_ext. intros i _. simpl.
  apply chunk_entries_length, wf_chunk. by eapply wf_set_key.
Qed.

(** The dictionary value of a byte: 1 read, 2 written, 3 both. *)
Definition rw_code (r w : bool) : Z := (if r then 1 else 0) + (if w then 2 else 0).

Lemma elem_of_chunk_entries k i c a v :
  0 <= c < 2 ^ 32 ->
  (a, v) ∈ chunk_entries k i c <->
  exists o, 0 <= o < 16 /\ a = k + 16 * i + o /\
    let r := Z.testbit c (byte_bit o 0) in let w := Z.testbit c (byte_bit o 1) in
    r || w = true /\ v = rw_code r w.
Proof.
  intros Hc. unfold chunk_entries, sizeof_set_chunk. rewrite list_elem_of_omap. split.
  - intros (j & Hj%elem_of_seqZ & Hsome). exists (15 - j).
    rewrite reads_of_byte, writes_of_byte in Hsome by lia.
    destruct (_ || _) eqn:E in Hsome; [|done]. injection Hsome as <- <-.
    split_and!; [lia|lia|lia|done|].
    by destruct (Z.testbit c (byte_bit (15 - j) 0)), (Z.testbit c (byte_bit (15 - j) 1)).
  - intros (o & Ho & -> & Hrw & ->). exists (15 - o). split; [apply elem_of_seqZ; lia|].
    rewrite reads_of_byte, writes_of_byte by lia. replace (15 - (15 - o)) with o by lia.
    rewrite Hrw. do 2 f_equal; [lia|].
    by destruct (Z.testbit c (byte_bit o 0)), (Z.testbit c (byte_bit o 1)).
Qed.

(** [get_workset] fills the dictionary it allocates with [size()] entries
    exactly, and enumerates exactly the touched bytes with their access codes. *)
Theorem get_workset_correct ws :
  wf_ws ws ->
  Z.of_nat (length (get_workset ws)) = size ws /\
  forall a v, (a, v) ∈ get_workset ws <->
    (was_read ws a || was_written ws a = true /\ v = rw_code (was_read ws a) (was_written ws a)).
Proof.
  intros Hs. split; [by apply get_workset_length|]. intros a v.
  unfold get_workset, was_read, was_written. rewrite list_elem_of_bind. split.
  - intros ([k r] & Hin & Hk). unfold range_entries in Hin.
    cbn [fst snd] in Hin.
    apply list_elem_of_bind in Hin as (i & He & Hi%elem_of_seqZ). change BYTEMAP_LEN with 2 in Hi.
    destruct (wf_set_key _ _ _ Hs Hk) as [_ Hr].
    apply elem_of_chunk_entries in He as (o & Ho & -> & Hrw); [|by apply wf_chunk].
    replace (k + 16 * i + o) with (16 * i + o + k) by lia.
    rewrite !(acc_bit_at _ _ k r) by (done || lia).
    by replace ((16 * i + o) / 16) with i by mlia; replace ((16 * i + o) mod 16) with o by mlia.
  - intros [Hrw ->]. assert (Ha : a ∈ addrs (ws_set ws))
      by (apply orb_true_iff in Hrw as [?|?]; by eapply acc_bit_addrs).
    apply elem_of_addrs in Ha as [r Hr]; [|done]. exists (32 * (a / 32), r).
    pose proof (map_find_elem _ _ _ Hr) as Hin. split; [|done].
    unfold range_entries. apply list_elem_of_bind. exists (a mod 32 / 16).
    split; [|apply elem_of_seqZ; change BYTEMAP_LEN with 2; mlia].
    apply elem_of_chunk_entries; [apply wf_chunk; by eapply wf_set_key|].
    exists (a mod 16). unfold acc_bit in *. rewrite Hr in *. simpl. split_and!; [mlia|mlia|mlia|done|done].
Qed.

(** ** Concrete worksets *)

Lemma new_WorkSet_wf a p g i c : wf_ws (new_WorkSet a p g i c).
Proof. split; constructor. Qed.

(** A store of 8 bytes that crosses a range boundary, and a load of 4. *)
Definition ws_store : WorkSet := grow (new_WorkSet 64 1 0 0 0) 4126 8 Sim_Trans_Store.
Definition ws_load : WorkSet := grow (new_WorkSet 64 2 0 1 0) 4130 4 Sim_Trans_Load.

Lemma wf_by_eval s :
  forallb (fun e => (e.1 mod 32 =? 0) && (Nat.eqb (length (bmap e.2)) 2)
    && forallb (fun c => (0 <=? c) && (c <? 2 ^ 32)) (bmap e.2)) s
  && forallb (fun '(a, b) => a <? b) (zip s.*1 (tail s.*1)) = true -> wf_set s.
Proof.
  intros [Hall Hsort]%andb_true_iff. split.
  - apply Sorted_StronglySorted; [intros ???; lia|].
    induction s as [|[k r] s IH]; csimpl; [constructor|].
    csimpl in Hall. apply andb_true_iff in Hall as [_ Hall]. constructor.
    + apply IH; [done|]. destruct s; csimpl in *; [done|]. by apply andb_true_iff in Hsort as [_ ?].
    + destruct s as [|[k' r'] s]; csimpl in *; constructor. zify_bool. lia.
  - clear Hsort. induction s as [|[k r] s IH]; [constructor|].
    csimpl in Hall. apply andb_true_iff in Hall as [He Hall]. constructor; [|by apply IH].
    zify_bool. simpl. split; [exists (k / 32); mlia|]. split; [by apply Nat.eqb_eq|].
    apply Forall_forall. intros c Hc. rewrite forallb_forall in H0.
    specialize (H0 c ltac:(by apply list_elem_of_In)). zify_bool. lia.
Qed.

Lemma grow_correct_witness :
  wf_ws ws_store /\ was_written ws_store 4133 = true /\ was_written ws_store 4134 = false.
Proof.
  destruct (grow_correct (new_WorkSet 64 1 0 0 0) 4126 8 Sim_Trans_Store) as (H & _ & Hw).
  - apply new_WorkSet_wf.
  - lia.
  - lia.
  - lia.
  - split; [exact H|]. unfold ws_store. rewrite !Hw. split; reflexivity.
Defined.

Lemma sizes_correct_witness :
  exists R W : gset Z, rsize ws_store = Z.of_nat (base.size R)
    /\ wsize ws_store = Z.of_nat (base.size W) /\ wsize ws_store = 8.
Proof.
  destruct (sizes_correct ws_store) as (R & W & _ & _ & Hr & Hw & _).
  - apply wf_by_eval. reflexivity.
  - exists R, W. split; [exact Hr|]. split; [exact Hw|reflexivity].
Defined.

Lemma compare_correct_witness :
  (compare ws_load ws_store).1 = (compare ws_store ws_load).1 /\ (compare ws_store ws_load).1 = 4.
Proof.
  destruct (compare_correct ws_store ws_load) as [_ H].
  - apply wf_by_eval. reflexivity.
  - apply wf_by_eval. reflexivity.
  - split; [exact H|reflexivity].
Defined.

Lemma get_workset_correct_witness :
  Z.of_nat (length (get_workset ws_store)) = size ws_store /\ size ws_store = 8.
Proof.
  destruct (get_workset_correct ws_store) as [H _].
  - apply wf_by_eval. reflexivity.
  - split; [exact H|reflexivity].
Defined.

(** The header says [compare] stores the total size of the workset through its
    second argument; the loop stops when either map ends, so the bytes above the
    last range of [other] are missing. *)
Lemma compare_size_undercounts :
  wf_ws ws_store /\ (compare ws_store (new_WorkSet 64 2 0 1 0)).2 = 0 /\ size ws_store = 8.
Proof. split; [apply wf_by_eval|]; done. Qed.

(** [grow] shifts by [2 * (8*sizeof(set_chunk) - (addr - chunk_start))], which is at
    least 34 whenever the guard holds: undefined for a 32-bit [1].  The mask above is
    right because x86 takes the count modulo 32, which turns it into
    [2 * (CHUNK_BYTES - (addr - chunk_start))]. *)
Lemma grow_shift_count d :
  0 < d < CHUNK_BYTES ->
  32 <= 2 * (8 * sizeof_set_chunk - d) /\
  (2 * (8 * sizeof_set_chunk - d)) mod 32 = 2 * (CHUNK_BYTES - d).
Proof. unfold CHUNK_BYTES, sizeof_set_chunk. intros. split; mlia. Qed.
