(* ===== verification/LockData.v ===== *)
(** * The data syncchar keeps about locks

    Model of the data declarations and the small record-keeping helpers of
    [sws/modules/sync_char/sync_char.cc]: lock kinds and flags, running averages,
    per-caller and per-process statistics, the lock record, and the address-space
    record that holds them.  [long double] values are integers here (cycle counts
    and list lengths), rounded to the 64-bit mantissa of the x87 format. *)

From S2P Require Import Prelude WorkSet.

(** ** Constants *)

Definition F_LOCK : Z := 0x1.
Definition F_UNLOCK : Z := 0x2.
Definition F_TRYLOCK : Z := 0x4.
Definition F_INLINED : Z := 0x8.
Definition F_EAX : Z := 0x10.
Definition F_TIME_RET : Z := 0x20.
Definition F_NOADDR : Z := 0x40.

Definition L_SEMA : Z := 1.
Definition L_RSEMA : Z := 2.
Definition L_WSEMA : Z := 3.
Definition L_SPIN : Z := 4.
Definition L_RSPIN : Z := 5.
Definition L_WSPIN : Z := 6.
Definition L_MUTEX : Z := 7.
Definition L_COMPL : Z := 8.
Definition L_RCU : Z := 9.
Definition L_FUTEX : Z := 10.
Definition L_CXA : Z := 11.
Definition L_CXE : Z := 12.

Definition LKST_OPEN : Z := 1.
Definition LKST_RLK : Z := 2.
Definition LKST_WRLK : Z := 3.
Definition LKST_CXA : Z := 4.

(** [(spid_t)-1]: no owner. *)
Definition NO_SPID : Z := u32 (-1).

Definition flag (flags f : Z) : bool := negb (Z.land flags f =? 0).

(** ** Running averages *)

Record avg_var := mkAvg { av_cnt : Z; av_sum : Z; av_xsqr : Z }.

(** [avg_var av[3]]: totals, below the split, above the split. *)
Record avg3 := mkAvg3 { av_all : avg_var; av_below : avg_var; av_above : avg_var }.

(** Round to nearest even on a 64-bit mantissa: the x87 [long double] format,
    restricted to integers. *)
Definition ld_round (x : Z) : Z :=
  let a := Z.abs x in
  let e := Z.log2 a - 63 in
  if e <=? 0 then x
  else
    let q := a / 2 ^ e in
    let r := a mod 2 ^ e in
    let half := 2 ^ (e - 1) in
    let q' := if (half <? r) || ((r =? half) && Z.odd q) then q + 1 else q in
    Z.sgn x * (q' * 2 ^ e).

Definition av_add (a : avg_var) (value : Z) : avg_var :=
  mkAvg (u32 (av_cnt a + 1)) (ld_round (av_sum a + value))
        (ld_round (av_xsqr a + ld_round (value * value))).

Definition update_avgs (av : avg3) (value split : Z) : avg3 :=
  let all := av_add (av_all av) value in
  if value <? split then mkAvg3 all (av_add (av_below av) value) (av_above av)
  else mkAvg3 all (av_below av) (av_add (av_above av) value).

Definition avg_zero : avg_var := mkAvg 0 0 0.
Definition zero_av : avg3 := mkAvg3 avg_zero avg_zero avg_zero.

(** ** Per-caller and per-process records *)

Record ra := mkRa {
  ra_lock_off : Z;
  ra_lock_reg : option string;   (* None is the register number -1 ("nil") *)
  ra_lock_id : Z;
  ra_flags : Z;
  ra_label : string
}.

Record caller := mkCaller {
  c_count : Z;
  c_q_count : Z;
  c_contended : list WorksetID;
  c_useless : Z;
  c_hold : avg3;
  c_acq : avg3
}.

Record spid_info := mkSpidInfo { req_cyc : Z; acq_cyc : Z; acq_ra : Z; spi_cnt : Z }.

Record lock := mkLock {
  lk_state : Z;
  lk_lkval : Z;
  lk_queue : bool;
  lk_lock_id : Z;
  lk_addr : Z;
  lk_generation : Z;
  lk_workset_count : Z;
  lk_spid_owner : Z;
  lk_readers : gmap Z Z;
  lk_aggregate : WorkSet;
  lk_acq : gmap Z spid_info;
  lk_callers : gmap Z caller;
  lk_name : string;
  lk_nest_av : avg3
}.

(** A [lock_mapcit_t] names a node of the lock map: its address and generation. *)
Abbreviation lock_it := (Z * Z)%type.
Abbreviation workset_list := (list (lock_it * WorkSet)).

Record as_data := mkAs {
  ramap : gmap Z ra;
  lockmap : gmap Z lock;
  locksetmap : gmap Z workset_list;
  asym_detector : WorkSet;
  ad_count : Z;
  ref_count : Z
}.

Record transition_info := mkT {
  t_spid : Z;
  t_lkval : Z;
  t_old_lkval : Z;
  t_lock_ra : Z;
  t_caller_ra : Z;
  t_lock_addr : Z;
  t_lock_id : Z;
  t_old_state : Z;
  t_new_state : Z;
  t_spid_owner : Z;
  t_flags : Z;
  t_read_lock : bool;
  t_read_unlock : bool;
  t_now_cyc : Z;
  t_bp_cyc : Z;
  t_bp_lkval : Z
}.

Record spcl_caller := mkSpcl { sp_req_cyc : Z; sp_total_cyc : Z }.

(** The statistics stream: warnings, closed worksets and printed locks. *)
Inductive log_event :=
| XXX (msg : string)
| WS_CLOSE (ws : WorkSet)
| PRINT_LOCK (addr : Z) (l : lock)
| RESET_STATS.

(** ** Zeroing helpers *)

Definition zero_spid_info : spid_info := mkSpidInfo 0 0 0 0.
Definition caller_zero : caller := mkCaller 0 0 [] 0 zero_av zero_av.

(** [unordered_map::operator[]] on the caller and process maps: a missing entry is
    value-initialised. *)
Definition get_caller (l : lock) (ca : Z) : caller := default caller_zero (lk_callers l !! ca).
Definition get_acq (l : lock) (spid : Z) : spid_info := default zero_spid_info (lk_acq l !! spid).

(** ** Record updates *)

Definition lk_with_state (s : Z) (q : bool) (l : lock) : lock :=
  mkLock s (lk_lkval l) q (lk_lock_id l) (lk_addr l) (lk_generation l) (lk_workset_count l)
    (lk_spid_owner l) (lk_readers l) (lk_aggregate l) (lk_acq l) (lk_callers l) (lk_name l) (lk_nest_av l).
Definition lk_with_lkval (v : Z) (l : lock) : lock :=
  mkLock (lk_state l) v (lk_queue l) (lk_lock_id l) (lk_addr l) (lk_generation l) (lk_workset_count l)
    (lk_spid_owner l) (lk_readers l) (lk_aggregate l) (lk_acq l) (lk_callers l) (lk_name l) (lk_nest_av l).
Definition lk_with_owner (o : Z) (l : lock) : lock :=
  mkLock (lk_state l) (lk_lkval l) (lk_queue l) (lk_lock_id l) (lk_addr l) (lk_generation l) (lk_workset_count l)
    o (lk_readers l) (lk_aggregate l) (lk_acq l) (lk_callers l) (lk_name l) (lk_nest_av l).
Definition lk_with_readers (r : gmap Z Z) (l : lock) : lock :=
  mkLock (lk_state l) (lk_lkval l) (lk_queue l) (lk_lock_id l) (lk_addr l) (lk_generation l) (lk_workset_count l)
    (lk_spid_owner l) r (lk_aggregate l) (lk_acq l) (lk_callers l) (lk_name l) (lk_nest_av l).
Definition lk_with_aggregate (w : WorkSet) (l : lock) : lock :=
  mkLock (lk_state l) (lk_lkval l) (lk_queue l) (lk_lock_id l) (lk_addr l) (lk_generation l) (lk_workset_count l)
    (lk_spid_owner l) (lk_readers l) w (lk_acq l) (lk_callers l) (lk_name l) (lk_nest_av l).
Definition lk_with_acq (m : gmap Z spid_info) (l : lock) : lock :=
  mkLock (lk_state l) (lk_lkval l) (lk_queue l) (lk_lock_id l) (lk_addr l) (lk_generation l) (lk_workset_count l)
    (lk_spid_owner l) (lk_readers l) (lk_aggregate l) m (lk_callers l) (lk_name l) (lk_nest_av l).
Definition lk_with_callers (m : gmap Z caller) (l : lock) : lock :=
  mkLock (lk_state l) (lk_lkval l) (lk_queue l) (lk_lock_id l) (lk_addr l) (lk_generation l) (lk_workset_count l)
    (lk_spid_owner l) (lk_readers l) (lk_aggregate l) (lk_acq l) m (lk_name l) (lk_nest_av l).
(** The workset counter and the nesting average move together in [open_workset]. *)
Definition lk_with_opened (n : Z) (av : avg3) (l : lock) : lock :=
  mkLock (lk_state l) (lk_lkval l) (lk_queue l) (lk_lock_id l) (lk_addr l) (lk_generation l) n
    (lk_spid_owner l) (lk_readers l) (lk_aggregate l) (lk_acq l) (lk_callers l) (lk_name l) av.

Definition set_caller (ca : Z) (c : caller) (l : lock) : lock :=
  lk_with_callers (<[ca := c]> (lk_callers l)) l.
Definition set_acq (spid : Z) (s : spid_info) (l : lock) : lock :=
  lk_with_acq (<[spid := s]> (lk_acq l)) l.

Definition as_with_lockmap (m : gmap Z lock) (a : as_data) : as_data :=
  mkAs (ramap a) m (locksetmap a) (asym_detector a) (ad_count a) (ref_count a).
Definition as_with_sets (m : gmap Z workset_list) (a : as_data) : as_data :=
  mkAs (ramap a) (lockmap a) m (asym_detector a) (ad_count a) (ref_count a).
Definition as_with_detector (w : WorkSet) (n : Z) (a : as_data) : as_data :=
  mkAs (ramap a) (lockmap a) (locksetmap a) w n (ref_count a).
Definition as_with_ref (n : Z) (a : as_data) : as_data :=
  mkAs (ramap a) (lockmap a) (locksetmap a) (asym_detector a) (ad_count a) n.

Definition put_lock (addr : Z) (l : lock) (a : as_data) : as_data :=
  as_with_lockmap (<[addr := l]> (lockmap a)) a.

Definition caller_with_contended (c : caller) (l : list WorksetID) (q : Z) : caller :=
  mkCaller (c_count c) q l (c_useless c) (c_hold c) (c_acq c).
Definition caller_with_hold (c : caller) (h : avg3) : caller :=
  mkCaller (c_count c) (c_q_count c) (c_contended c) (c_useless c) h (c_acq c).
Definition caller_with_acq (c : caller) (h : avg3) : caller :=
  mkCaller (c_count c) (c_q_count c) (c_contended c) (c_useless c) (c_hold c) h.
Definition caller_with_useless (c : caller) (n : Z) : caller :=
  mkCaller (c_count c) (c_q_count c) (c_contended c) n (c_hold c) (c_acq c).
Definition caller_with_count (c : caller) (n : Z) : caller :=
  mkCaller n (c_q_count c) (c_contended c) (c_useless c) (c_hold c) (c_acq c).

Definition ws_with_cnt (ws : WorkSet) (n : Z) : WorkSet :=
  mkWorkSet n (ws_id ws) (ws_cpu ws) (ws_pid ws) (ws_twoowners ws) (ws_old_pid ws) (ws_IO ws)
    (ws_contended ws) (ws_set ws).
Definition ws_with_contended (ws : WorkSet) (l : list WorksetID) : WorkSet :=
  mkWorkSet (ws_cnt ws) (ws_id ws) (ws_cpu ws) (ws_pid ws) (ws_twoowners ws) (ws_old_pid ws) (ws_IO ws)
    l (ws_set ws).
Definition ws_with_IO (ws : WorkSet) : WorkSet :=
  mkWorkSet (ws_cnt ws) (ws_id ws) (ws_cpu ws) (ws_pid ws) (ws_twoowners ws) (ws_old_pid ws) true
    (ws_contended ws) (ws_set ws).
Definition ws_with_pids (ws : WorkSet) (pid old : Z) : WorkSet :=
  mkWorkSet (ws_cnt ws) (ws_id ws) (ws_cpu ws) pid true old (ws_IO ws) (ws_contended ws) (ws_set ws).

(** ** Cycle statistics *)

Section cycles.
(** The simulator's [cpu_switch_time]. *)
Variable cpu_switch_time : Z.

(** The elapsed time that [update_cyc_avgs] adds, and the warnings it prints. *)
Definition elapsed (now_cyc start_cyc : Z) : Z * list log_event :=
  let '(cyc, w) := if start_cyc =? 0 then (1, [XXX "XXX update_Avg"])
                   else (s64 (now_cyc - start_cyc), []) in
  if cyc <? 0 then
    (1, w ++ if cpu_switch_time <? - cyc then [XXX "XXX: update_cyc_avgs negative cycles"] else [])
  else (cyc, w).

Definition update_cyc_avgs (av : avg3) (now_cyc start_cyc : Z) : avg3 * list log_event :=
  let '(cyc, w) := elapsed now_cyc start_cyc in (update_avgs av cyc 1000, w).
End cycles.

(** ** [lock_spid_info] and [unlock_spid_info] *)

Definition unlock_spid_info (spi : spid_info) : spid_info * list log_event :=
  let n := spi_cnt spi - 1 in
  let spi := if n =? 0 then mkSpidInfo (req_cyc spi) 0 0 n
             else mkSpidInfo (req_cyc spi) (acq_cyc spi) (acq_ra spi) n in
  if n <? 0 then (mkSpidInfo (req_cyc spi) (acq_cyc spi) (acq_ra spi) 0, [XXX "XXX spi->cnt "])
  else (spi, []).

(** The argument is always the lock's entry for [t->spid], so the final reset of
    [req_cyc] writes the same record. *)
Definition lock_spid_info (spi : spid_info) (t : transition_info) : spid_info :=
  let spi := if t_new_state t =? LKST_CXA then spi
             else if spi_cnt spi =? 0 then mkSpidInfo (req_cyc spi) (t_now_cyc t) (t_caller_ra t) 1
             else mkSpidInfo (req_cyc spi) (acq_cyc spi) (acq_ra spi) (spi_cnt spi + 1) in
  mkSpidInfo 0 (acq_cyc spi) (acq_ra spi) (spi_cnt spi).
