(* ===== verification/LockState.v ===== *)
(** * Classifying a lock word

    Model of [update_current_lock_state] and [detect_read_lock_unlock] of
    [sync_char.cc]: from the value a lock word has after a locking instruction, the
    kind of the lock and the flags of the instruction, decide whether the lock is
    now open, read-locked or write-locked, and whether a reader came or left. *)

From S2P Require Import Prelude WorkSet LockData.

(** What the callbacks read from the simulated machine. *)
Record env := mkEnv {
  e_spid : Z;                      (* os->current_process[cpuNum] *)
  e_cpu : Z;                       (* SIM_get_processor_number *)
  e_now : Z;                       (* osa_get_sim_cycle_count *)
  e_ebx : Z; e_ecx : Z; e_edx : Z; (* osa_read_register *)
  e_reg : string -> Z;             (* _osa_read_register, by name *)
  e_mem : Z -> Z;                  (* read_4bytes on the data segment *)
  e_osatxm : option Z;             (* None: no osatxm; Some txid: current transaction *)
  e_switch : Z                     (* the simulator's cpu_switch_time *)
}.

(** Result: the lock's new state, its queue flag, and the warnings. *)
Definition update_current_lock_state (e : env) (t : transition_info) (state : Z)
    : Z * bool * list log_event :=
  let id := t_lock_id t in
  let v := t_lkval t in
  let sema_tail :=
    if v <? 1 then (LKST_WRLK, (id =? L_MUTEX) || (id =? L_SEMA), [])
    else (LKST_OPEN, false, []) in
  if id =? L_SEMA then
    if flag (t_flags t) F_UNLOCK && (t_old_lkval t <? v) then (LKST_OPEN, false, []) else sema_tail
  else if (id =? L_MUTEX) || (id =? L_COMPL) then sema_tail
  else if (id =? L_RSEMA) || (id =? L_WSEMA) then
    if v =? 0 then (LKST_OPEN, false, [])
    else if v =? s32 0xFFFF0001 then (LKST_WRLK, false, [])
    else if 0 <? v then (LKST_RLK, false, [])
    else (t_old_state t, true, [])
  else if id =? L_SPIN then
    if v =? 1 then (LKST_OPEN, false, [])
    else if (v =? 0) || ((1 <? v) && (v <=? 255)) then (LKST_WRLK, (1 <? v) && (v <=? 255), [])
    else (state, false, [XXX "XXX slock val"])
  else if (id =? L_RSPIN) || (id =? L_WSPIN) then
    if flag (t_flags t) F_UNLOCK then
      if id =? L_RSPIN then
        if Z.rem v 0x01000000 =? 0 then (LKST_OPEN, false, []) else (LKST_RLK, false, [])
      else (LKST_OPEN, false,
            if v <=? t_bp_lkval t then [XXX "XXX write spinlock unlock yielded a lower value!!!"] else [])
    else
      if v =? 0x01000000 then (LKST_OPEN, false, [])
      else if v =? 0 then (LKST_WRLK, false, [])
      else if 0 <? v then (LKST_RLK, false, [])
      else (t_old_state t, true, [])
  else if id =? L_CXA then
    if negb (e_edx e =? 0) then
      if e_ebx e =? e_ecx e then
        (LKST_CXA, false, if negb (v =? 1) || negb (t_old_state t =? LKST_OPEN)
                          then [XXX "XXX cx_exclusive result/lkval/old_state inconsistency!"] else [])
      else (LKST_WRLK, false, if negb (v =? 0) then [XXX "XXX cx_exclusive result/lkval inconsistency!"] else [])
    else (state, false, [])
  else if id =? L_CXE then
    if flag (t_flags t) F_UNLOCK then
      (LKST_OPEN, false, if negb (v =? 1) || negb (t_old_state t =? LKST_WRLK)
                         then [XXX "XXX cx_end result/lkval/old_state inconsistency!"] else [])
    else if negb (e_edx e =? 0) then
      (LKST_WRLK, false, if negb (v =? 0) then [XXX "XXX cx_exclusive result/lkval inconsistency!"] else [])
    else (state, false, [])
  else (state, false, [XXX "UNK "]).

Definition t_with_new_state (t : transition_info) (s : Z) : transition_info :=
  mkT (t_spid t) (t_lkval t) (t_old_lkval t) (t_lock_ra t) (t_caller_ra t) (t_lock_addr t)
    (t_lock_id t) (t_old_state t) s (t_spid_owner t) (t_flags t) (t_read_lock t) (t_read_unlock t)
    (t_now_cyc t) (t_bp_cyc t) (t_bp_lkval t).
Definition t_with_read (t : transition_info) (rl ru : bool) : transition_info :=
  mkT (t_spid t) (t_lkval t) (t_old_lkval t) (t_lock_ra t) (t_caller_ra t) (t_lock_addr t)
    (t_lock_id t) (t_old_state t) (t_new_state t) (t_spid_owner t) (t_flags t) rl ru
    (t_now_cyc t) (t_bp_cyc t) (t_bp_lkval t).
Definition t_with_spid (t : transition_info) (s : Z) : transition_info :=
  mkT s (t_lkval t) (t_old_lkval t) (t_lock_ra t) (t_caller_ra t) (t_lock_addr t)
    (t_lock_id t) (t_old_state t) (t_new_state t) (t_spid_owner t) (t_flags t) (t_read_lock t) (t_read_unlock t)
    (t_now_cyc t) (t_bp_cyc t) (t_bp_lkval t).

Definition detect_read_lock_unlock (t : transition_info) : transition_info * list log_event :=
  let ns := t_new_state t in
  let w := if negb (ns =? LKST_OPEN) && negb (ns =? LKST_RLK) && negb (ns =? LKST_WRLK)
              && negb (ns =? LKST_CXA)
           then [XXX "XXX detect_read called early newst "] else [] in
  let inside := (ns =? LKST_OPEN) || ((t_old_state t =? ns) && (t_old_state t =? LKST_RLK)) in
  let id := t_lock_id t in
  if inside && ((id =? L_RSPIN) || (id =? L_WSPIN)) then
    if id =? L_RSPIN then
      (t_with_read t
         ((0 <? t_lkval t) && (t_lkval t <? 0x01000000) && flag (t_flags t) F_LOCK)
         (flag (t_flags t) F_UNLOCK && (t_bp_lkval t <=? t_lkval t)), w)
    else (t_with_read t false false, w)
  else
    let lk_incr := if inside && ((id =? L_RSEMA) || (id =? L_WSEMA)) then 1 else 0 in
    let diff := s32 (t_lkval t - t_old_lkval t) in
    if diff =? lk_incr then (t_with_read t true false, w)
    else if diff =? - lk_incr then (t_with_read t false true, w)
    else (t_with_read t false false, w).

(** ** The classification always yields a lock state *)

Definition valid_state (s : Z) : Prop :=
  s = LKST_OPEN \/ s = LKST_RLK \/ s = LKST_WRLK \/ s = LKST_CXA.

Lemma update_state_valid e t s :
  valid_state s -> valid_state (t_old_state t) ->
  valid_state (update_current_lock_state e t s).1.1.
Proof.
  intros Hs Ho. unfold update_current_lock_state, valid_state in *.
  repeat case_match; simpl; auto.
Qed.
