(* ===== verification/Transition.v ===== *)
(** * Tracking one lock transition

    Model of the part of [sync_char.cc] that runs when a locking instruction has
    completed: [allocate_lock], [initialize_transition], [record_contention],
    [open_workset], [close_workset], [process_unlock], [process_transition] and
    [lock_transition].  State is passed explicitly; [None] is a crash of the module
    (a failed [OSA_assert] or a dereferenced null or end pointer).  Iteration over an
    [unordered_map] follows the order of [map_to_list]. *)

From S2P Require Import Prelude WorkSet LockData LockState.

(** The configuration the handlers read, and the address spaces they can look up. *)
Record cfg := mkCfg {
  logWorksets : bool;
  afterBoot : bool;
  find_as : Z -> option as_data
}.

Abbreviation spcl_map := (gmap Z (gmap Z (gmap Z spcl_caller))).

Definition AS_COUNT : Z := 4096.
Definition LOCK_NAME_SIZE : nat := 256.

(** ** Lock allocation *)

Definition allocate_lock (lock_id lock_addr lkval : Z) (label : option string) (a : as_data)
    : as_data * list log_event :=
  let old := lockmap a !! lock_addr in
  let generation := match old with Some o => lk_generation o + 1 | None => 0 end in
  let w := match old with Some o => [PRINT_LOCK lock_addr o] | None => [] end in
  let l := mkLock LKST_OPEN lkval false (s16 lock_id) lock_addr generation 0 NO_SPID ∅
             (new_WorkSet lock_addr 0 (u32 generation) 0xffffffff 0) ∅ ∅
             (default EmptyString label) zero_av in
  (put_lock lock_addr l a, w).

Definition get_lock_addr (e : env) (r : ra) : Z :=
  match ra_lock_reg r with
  | Some reg => u32 (ra_lock_off r + e_reg e reg)
  | None => u32 (ra_lock_off r)
  end.

(** The breakpoint record posted by [breakpoint_callback]. *)
Record bp_rec := mkBp { bp_pc : Z; bp_caller_ra : Z; bp_cyc : Z; bp_lkval : Z }.

(** The lock's entry, allocated on first use. *)
Definition find_or_allocate (b : bp_rec) (id addr : Z) (a : as_data) : as_data * list log_event :=
  match lockmap a !! addr with
  | Some _ => (a, [])
  | None =>
      let '(a, w) := allocate_lock id addr (s32 (bp_lkval b)) None a in
      (a, w ++ if (id =? L_SPIN) || (id =? L_CXE) || (id =? L_CXA)
               then [XXX "XXX: Noname spinlock: "] else [])
  end.

(** The caller's and the process's entries, created on first use, and the lock's
    value. *)
Definition touch_lock (e : env) (b : bp_rec) (lkval : Z) (l : lock) : lock :=
  let l := match lk_callers l !! bp_caller_ra b with
           | Some _ => l
           | None => set_caller (bp_caller_ra b) caller_zero l
           end in
  let l := lk_with_lkval lkval l in
  match lk_acq l !! e_spid e with
  | Some _ => l
  | None => set_acq (e_spid e) zero_spid_info l
  end.

Definition initialize_transition (e : env) (b : bp_rec) (a : as_data)
    : option (transition_info * as_data * list log_event) :=
  r ← ramap a !! bp_pc b;
  let addr := if flag (ra_flags r) F_NOADDR then 1 else get_lock_addr e r in
  let id := ra_lock_id r in
  let lkval :=
    if (id =? L_CXA) || (id =? L_CXE) then s32 (e_mem e addr)
    else if negb (flag (ra_flags r) F_NOADDR) && negb (flag (ra_flags r) F_EAX) then s32 (e_mem e addr)
    else s32 0xdeadbeef in
  let '(a, w) := find_or_allocate b id addr a in
  l ← lockmap a !! addr;
  let t := mkT (e_spid e) lkval (lk_lkval l) (bp_pc b) (bp_caller_ra b) addr id (lk_state l)
             (s16 0xAFAF) (lk_spid_owner l) (ra_flags r) true true (e_now e) (bp_cyc b)
             (s32 (bp_lkval b)) in
  Some (t, put_lock addr (touch_lock e b lkval l) a, w).

(** ** Contention *)

(** The body of the loop over the owner's open worksets: the lock, the number of
    matches so far, the warnings. *)
Definition contend_step (t : transition_info) (acc : lock * Z * list log_event)
    (e : lock_it * WorkSet) : lock * Z * list log_event :=
  let '(l, check, w) := acc in
  if lock_addr (ws_id e.2) =? t_lock_addr t then
    let w := if 0 <? check then w ++ [XXX "XXX More than one open workset for same lock"] else w in
    let c := get_caller l (t_caller_ra t) in
    if existsb (fun i => WorksetID_eqb i (ws_id e.2)) (c_contended c) then (l, check + 1, w)
    else (set_caller (t_caller_ra t)
            (caller_with_contended c (c_contended c ++ [ws_id e.2]) (u64 (c_q_count c + 1))) l,
          check + 1, w)
  else acc.

Definition _record_contention (c : cfg) (spid : Z) (l : lock) (t : transition_info)
    : option (lock * list log_event) :=
  let my_spid := if lk_addr l <? 0xc0000000 then spid else 0 in
  a ← find_as c my_spid;
  match locksetmap a !! spid with
  | None => Some (l, [XXX "XXX locked out but empty worksets"])
  | Some worksets =>
      let '(l, check, w) := foldl (contend_step t) (l, 0, []) worksets in
      Some (l, if check =? 0
               then w ++ [XXX "XXX record contention found no open worksets for lock"] else w)
  end.

(** The loop over all readers. *)
Fixpoint record_readers (c : cfg) (spids : list Z) (l : lock) (t : transition_info)
    : option (lock * list log_event) :=
  match spids with
  | [] => Some (l, [])
  | s :: rest =>
      '(l, w) ← _record_contention c s l t;
      '(l, w') ← record_readers c rest l t;
      Some (l, w ++ w')
  end.

Definition record_contention (c : cfg) (l : lock) (t : transition_info)
    : option (lock * list log_event) :=
  if negb (logWorksets c) then Some (l, [])
  else if (lk_spid_owner l =? NO_SPID) && (lk_state l =? LKST_RLK) then
    let w := if decide (lk_readers l = ∅) then [XXX "XXX rw lock read-locked, but no readers"] else [] in
    '(l, w') ← record_readers c (map_to_list (lk_readers l)).*1 l t;
    Some (l, w ++ w')
  else _record_contention c (lk_spid_owner l) l t.

(** ** Worksets *)

(** [get_lsit]: whose list of open worksets a release looks at. *)
Definition get_lsit (spid : Z) (name : string) (spid_owner : Z) : Z :=
  if bool_decide (name = "runqueue_t->lock") then spid_owner else spid.

(** Close the first open workset of the lock [it]: the closed workset if its count
    ran out, the remaining list, and whether one was found. *)
Fixpoint close_first (it : lock_it) (l : workset_list)
    : option WorkSet * workset_list * bool :=
  match l with
  | [] => (None, [], false)
  | (it', ws) :: rest =>
      if bool_decide (it' = it) then
        let ws := ws_with_cnt ws (ws_cnt ws - 1) in
        if ws_cnt ws <=? 0 then (Some ws, rest, true) else (None, (it', ws) :: rest, true)
      else let '(o, rest, f) := close_first it rest in (o, (it', ws) :: rest, f)
  end.

Definition close_workset (c : cfg) (t : transition_info) (a : as_data)
    : option (as_data * list log_event) :=
  l ← lockmap a !! t_lock_addr t;
  let key := get_lsit (t_spid t) (lk_name l) (t_spid_owner t) in
  match locksetmap a !! key with
  | None => Some (a, [XXX "XXX tried to close workset on non-existant spid"])
  | Some worksets =>
      let logging := logWorksets c && afterBoot c in
      let '(closed, rest, found) := close_first (t_lock_addr t, lk_generation l) worksets in
      let w := match closed with Some ws => if logging then [WS_CLOSE ws] else [] | None => [] end in
      let w := if found then w else w ++ [XXX "XXX unable to find workset to close"] in
      let a := as_with_sets (<[key := rest]> (locksetmap a)) a in
      let n := ad_count a + 1 in
      if AS_COUNT <? n then
        Some (as_with_detector (new_WorkSet (lock_addr (ws_id (asym_detector a))) (t_spid t) 0 0xffffffff 0) 0 a,
              w ++ if logging then [WS_CLOSE (asym_detector a)] else [])
      else Some (as_with_detector (asym_detector a) n a, w)
  end.

Definition open_workset (e : env) (t : transition_info) (a : as_data)
    : option (as_data * list log_event) :=
  l ← lockmap a !! t_lock_addr t;
  let it := (t_lock_addr t, lk_generation l) in
  let ws := new_WorkSet (t_lock_addr t) (t_spid t) (u32 (lk_generation l))
              (u32 (lk_workset_count l)) (e_cpu e) in
  match locksetmap a !! t_spid t with
  | None =>
      let l := lk_with_opened (lk_workset_count l + 1) (update_avgs (lk_nest_av l) 0 1) l in
      Some (put_lock (t_lock_addr t) l (as_with_sets (<[t_spid t := [(it, ws)]]> (locksetmap a)) a), [])
  | Some worksets =>
      match list_find (fun e => e.1 = it) worksets with
      | Some (i, (it', ws')) =>
          Some (as_with_sets (<[t_spid t := <[i := (it', ws_with_cnt ws' (ws_cnt ws' + 1))]> worksets]>
                                (locksetmap a)) a,
                [XXX "XXX multiple workset opens (this might be okay)"])
      | None =>
          let l := lk_with_opened (lk_workset_count l + 1)
                     (update_avgs (lk_nest_av l) (Z.of_nat (length worksets)) 1) l in
          Some (put_lock (t_lock_addr t) l
                  (as_with_sets (<[t_spid t := (it, ws) :: worksets]> (locksetmap a)) a), [])
      end
  end.

(** ** Releases *)

(** The readers part of [process_unlock]: [None] is the early return for an inner
    release of a nested read lock. *)
Definition unlock_readers (t : transition_info) (l : lock) : lock * bool * list log_event :=
  if t_old_state t =? LKST_RLK then
    match lk_readers l !! t_spid t with
    | None => (l, true, [XXX "XXX reader unlock missing reader lock "])
    | Some n =>
        if 1 <? n then (lk_with_readers (<[t_spid t := n - 1]> (lk_readers l)) l, false, [])
        else (lk_with_readers (delete (t_spid t) (lk_readers l)) l, true, [])
    end
  else (l, true, []).

(** Who acquired the lock: [acq_cyc], [acq_ra], [acq_spid], and the warnings.  When
    the releasing process has no acquire on record, the loop looks for another
    process that has one; the last one found wins. *)
Definition find_acquirer (t : transition_info) (l : lock) : Z * Z * Z * list log_event :=
  let spi := get_acq l (t_spid t) in
  if negb (acq_ra spi =? 0) then (acq_cyc spi, acq_ra spi, NO_SPID, [])
  else
    let '(cyc, r, sp, nfound) :=
      foldl (fun acc e =>
        let '(cyc, r, sp, n) := acc in
        if negb (e.1 =? t_spid t) && negb (acq_cyc e.2 =? 0) && negb (acq_ra e.2 =? 0)
        then (acq_cyc e.2, acq_ra e.2, e.1, n + 1) else acc)
        (acq_cyc spi, acq_ra spi, NO_SPID, 0) (map_to_list (lk_acq l)) in
    (cyc, r, sp, if nfound =? 1 then [] else [XXX "XXX acq nfound "]).

(** The first open workset of the lock in a list, and the list with it replaced. *)
Fixpoint update_first_ws (addr : Z) (f : WorkSet -> WorkSet) (l : workset_list) : option workset_list :=
  match l with
  | [] => None
  | (it, ws) :: rest =>
      if lock_addr (ws_id ws) =? addr then Some ((it, f ws) :: rest)
      else cons (it, ws) <$> update_first_ws addr f rest
  end.

(** The contended-worksets part: [None] is the early return. *)
Definition hand_over_contended (e : env) (t : transition_info) (ca : Z) (l : lock) (a : as_data)
    : as_data * bool * list log_event :=
  let c := get_caller l ca in
  match c_contended c with
  | [] => (a, true, [])
  | ids =>
      let key := get_lsit (e_spid e) (lk_name l) (t_spid_owner t) in
      match locksetmap a !! key with
      | None => (a, false, [XXX "XXX no open workset in process_unlock"])
      | Some worksets =>
          let n := length (filter (fun x => lock_addr (ws_id x.2) = t_lock_addr t) worksets) in
          let w := replicate (n - 1) (XXX "XXX More than one open ws for same lock!") in
          let cleared := set_caller ca (caller_with_contended c [] (c_q_count c)) l in
          match update_first_ws (t_lock_addr t)
                  (fun ws => ws_with_contended ws (ws_contended ws ++ ids)) worksets with
          | None => (put_lock (t_lock_addr t) cleared a, true,
                     w ++ [XXX "XXX No matching workset for lock being closed, "])
          | Some worksets' =>
              (put_lock (t_lock_addr t) cleared (as_with_sets (<[key := worksets']> (locksetmap a)) a),
               true, w)
          end
      end
  end.

Definition process_unlock (e : env) (c : cfg) (t : transition_info) (a : as_data)
    : option (as_data * list log_event) :=
  l ← lockmap a !! t_lock_addr t;
  let '(l, go, w1) := unlock_readers t l in
  if negb go then Some (put_lock (t_lock_addr t) l a, w1)
  else
    let '(cyc, ca, sp, w2) := find_acquirer t l in
    let w3 := if negb (lk_state l =? LKST_OPEN)
                 && negb ((t_old_state t =? lk_state l) && (t_old_state t =? LKST_RLK))
              then [XXX "XXX nopen "] else [] in
    let cal := get_caller l ca in
    let '(av, w4) := update_cyc_avgs (e_switch e) (c_hold cal) (t_now_cyc t) cyc in
    let l := set_caller ca (caller_with_hold cal av) l in
    let who := if sp =? NO_SPID then t_spid t else sp in
    let '(spi, w5) := unlock_spid_info (get_acq l who) in
    let w6 := if (lk_state l =? LKST_OPEN) && (0 <? spi_cnt spi)
              then [XXX (if sp =? NO_SPID then "XXX Cnt High cnt " else "XXX Cnt Higha cnt ")] else [] in
    let l := set_acq who spi l in
    let l := if lk_state l =? LKST_OPEN then lk_with_owner NO_SPID l else l in
    let '(a, go, w7) := hand_over_contended e t ca l (put_lock (t_lock_addr t) l a) in
    let w := w1 ++ w2 ++ w3 ++ w4 ++ w5 ++ w6 ++ w7 in
    if negb go then Some (a, w)
    else if logWorksets c then
      '(a, w8) ← close_workset c t a; Some (a, w ++ w8)
    else Some (a, w).

(** ** Transitions *)

Definition get_speculative_lock (sm : spcl_map) (txid addr ca : Z) : spcl_caller :=
  default (mkSpcl 0 0) (m1 ← sm !! txid; m2 ← m1 !! addr; m2 !! ca).

Definition set_speculative_lock (sm : spcl_map) (txid addr ca : Z) (s : spcl_caller) : spcl_map :=
  let m1 := default ∅ (sm !! txid) in
  let m2 := default ∅ (m1 !! addr) in
  <[txid := <[addr := <[ca := s]> m2]> m1]> sm.

(** A process is locked out: remember when it started trying, once. *)
Definition start_waiting (c : cfg) (t : transition_info) (warn : spid_info -> bool) (msg : string)
    (a : as_data) : option (as_data * list log_event) :=
  l ← lockmap a !! t_lock_addr t;
  let spi := get_acq l (t_spid t) in
  if negb (flag (t_flags t) F_TRYLOCK) && (req_cyc spi =? 0) then
    let l := set_acq (t_spid t) (mkSpidInfo (t_bp_cyc t) (acq_cyc spi) (acq_ra spi) (spi_cnt spi)) l in
    '(l, w) ← record_contention c l t;
    Some (put_lock (t_lock_addr t) l a, (if warn spi then [XXX msg; XXX ""] else []) ++ w)
  else Some (a, []).

(** The bookkeeping of a first acquire outside a transaction. *)
Definition account_acquire (e : env) (t : transition_info) (l : lock) : lock * list log_event :=
  let spi := get_acq l (t_spid t) in
  let req := if req_cyc spi =? 0 then t_bp_cyc t else req_cyc spi in
  let cal := get_caller l (t_caller_ra t) in
  let '(av, w) := update_cyc_avgs (e_switch e) (c_acq cal) (t_now_cyc t) req in
  (set_caller (t_caller_ra t) (caller_with_acq cal av) l, w).

(** The owner or the reader count of a lock that was open; the flag is the early
    return of a nested read lock. *)
Definition enter_lock (t : transition_info) (l : lock) : lock * bool * list log_event :=
  if lk_state l =? LKST_WRLK then
    if lk_spid_owner l =? NO_SPID then (lk_with_owner (t_spid t) l, false, [])
    else (l, false, [XXX "XXX OWNER "])
  else if lk_state l =? LKST_RLK then
    match lk_readers l !! t_spid t with
    | None => (lk_with_readers (<[t_spid t := 1]> (lk_readers l)) l, false, [])
    | Some n => (lk_with_readers (<[t_spid t := n + 1]> (lk_readers l)) l, true, [])
    end
  else (l, false, []).

(** Outside a transaction the wait is accounted to the caller, inside one it is
    kept aside until the transaction commits. *)
Definition acquire_stats (e : env) (t : transition_info) (txid : Z) (l : lock) (sm : spcl_map)
    : lock * spcl_map * list log_event :=
  if txid =? 0 then let '(l, w) := account_acquire e t l in (l, sm, w)
  else
    let s := get_speculative_lock sm txid (t_lock_addr t) (t_caller_ra t) in
    let req := if sp_req_cyc s =? 0 then t_bp_cyc t else sp_req_cyc s in
    (l, set_speculative_lock sm txid (t_lock_addr t) (t_caller_ra t)
          (mkSpcl 0 (s64 (sp_total_cyc s + (t_now_cyc t - req)))), []).

(** OPEN -> RLK, WRLK or CXA. *)
Definition process_acquire (e : env) (c : cfg) (t : transition_info) (a : as_data) (sm : spcl_map)
    : option (as_data * spcl_map * list log_event) :=
  l ← lockmap a !! t_lock_addr t;
  let '(l, nested, w0) := enter_lock t l in
  if nested : bool then Some (put_lock (t_lock_addr t) l a, sm, w0)
  else
    let txid := default 0 (e_osatxm e) in
    let w1 := if (txid =? 0) && (lk_state l =? LKST_CXA) && flag (t_flags t) F_LOCK
              then [XXX "XXX cx_atomic in a non-transaction?"]
              else if negb (txid =? 0) && (t_lock_id t =? L_CXE)
              then [XXX "XXX cx_exclusive in a transaction?"] else [] in
    let '(l, sm, w2) := acquire_stats e t txid l sm in
    let l := set_acq (t_spid t) (lock_spid_info (get_acq l (t_spid t)) t) l in
    let a := put_lock (t_lock_addr t) l a in
    '(a, w3) ← (if logWorksets c then open_workset e t a else Some (a, []));
    l ← lockmap a !! t_lock_addr t;
    let a := if lk_state l =? LKST_CXA
             then put_lock (t_lock_addr t) (lk_with_state (t_old_state t) (lk_queue l) l) a else a in
    Some (a, sm, w0 ++ w1 ++ w2 ++ w3).

(** OPEN -> OPEN. *)
Definition process_useless (e : env) (c : cfg) (t : transition_info) (a : as_data)
    : option (as_data * list log_event) :=
  let useless :=
    l ← lockmap a !! t_lock_addr t;
    let cal := get_caller l (t_caller_ra t) in
    Some (put_lock (t_lock_addr t)
            (set_caller (t_caller_ra t) (caller_with_useless cal (u32 (c_useless cal + 1))) l) a,
          [XXX "XXX useless "]) in
  if (t_lock_id t =? L_CXA) || (t_lock_id t =? L_CXE) then
    txid ← e_osatxm e;                 (* syncchar->osatxm is dereferenced unchecked *)
    if txid =? 0 then start_waiting c t (fun _ => false) "" a else useless
  else useless.

(** RLK -> RLK. *)
Definition process_shared (e : env) (c : cfg) (t : transition_info) (a : as_data)
    : option (as_data * list log_event) :=
  l ← lockmap a !! t_lock_addr t;
  if t_read_lock t then
    match lk_readers l !! t_spid t with
    | Some n => Some (put_lock (t_lock_addr t) (lk_with_readers (<[t_spid t := n + 1]> (lk_readers l)) l) a, [])
    | None =>
        let a := put_lock (t_lock_addr t) (lk_with_readers (<[t_spid t := 1]> (lk_readers l)) l) a in
        '(a, w1) ← open_workset e t a;
        l ← lockmap a !! t_lock_addr t;
        let '(l, w2) := account_acquire e t l in
        let l := set_acq (t_spid t) (lock_spid_info (get_acq l (t_spid t)) t) l in
        Some (put_lock (t_lock_addr t) l a, w1 ++ w2)
    end
  else if t_read_unlock t then process_unlock e c t a
  else start_waiting c t (fun spi => negb (acq_ra spi =? 0)) "XXXr acq_ra " a.

(** WRLK -> WRLK. *)
Definition process_locked_out (e : env) (c : cfg) (t : transition_info) (a : as_data) (sm : spcl_map)
    : option (as_data * spcl_map * list log_event) :=
  l ← lockmap a !! t_lock_addr t;
  let txid := default 0 (e_osatxm e) in
  if txid =? 0 then
    '(a, w) ← start_waiting c t (fun spi => negb (acq_ra spi =? 0) && negb (lk_queue l)) "XXXw acq_ra " a;
    Some (a, sm, w)
  else if flag (t_flags t) F_TRYLOCK then Some (a, sm, [])
  else
    let s := get_speculative_lock sm txid (t_lock_addr t) (t_caller_ra t) in
    let s := if sp_req_cyc s =? 0 then mkSpcl (t_bp_cyc t) (sp_total_cyc s) else s in
    Some (a, set_speculative_lock sm txid (t_lock_addr t) (t_caller_ra t) s, []).

Definition process_transition (e : env) (c : cfg) (t : transition_info) (a : as_data) (sm : spcl_map)
    : option (as_data * spcl_map * list log_event) :=
  let keep (r : option (as_data * list log_event)) := '(a, w) ← r; Some (a, sm, w) in
  l ← lockmap a !! t_lock_addr t;
  if t_old_state t =? LKST_OPEN then
    if lk_state l =? LKST_OPEN then keep (process_useless e c t a)
    else if (lk_state l =? LKST_RLK) || (lk_state l =? LKST_WRLK) || (lk_state l =? LKST_CXA)
    then process_acquire e c t a sm
    else Some (a, sm, [])
  else if t_old_state t =? LKST_RLK then
    if lk_state l =? LKST_OPEN then
      '(a, w) ← process_unlock e c t a;
      Some (a, sm, (if t_read_unlock t then [] else [XXX "XXX RLK->OPEN read_unlock "]) ++ w)
    else if lk_state l =? LKST_RLK then keep (process_shared e c t a)
    else if lk_state l =? LKST_WRLK then
      Some (put_lock (t_lock_addr t) (set_acq (t_spid t) (lock_spid_info (get_acq l (t_spid t)) t) l) a,
            sm, [XXX "XXX RLK->WRLK "])
    else Some (a, sm, [])
  else if t_old_state t =? LKST_WRLK then
    if lk_state l =? LKST_OPEN then keep (process_unlock e c t a)
    else if lk_state l =? LKST_RLK then Some (a, sm, [XXX "XXX WRLK->RLK "])
    else if lk_state l =? LKST_WRLK then process_locked_out e c t a sm
    else Some (a, sm, [])
  else Some (a, sm, []).

(** [lock_transition]: the callback run after the locking instruction.
    [exception_addr] is the entry of [exception_addrs] for the current CPU. *)
Definition lock_transition (e : env) (c : cfg) (exception_addr : Z) (b : bp_rec) (a : as_data)
    (sm : spcl_map) : option (as_data * spcl_map * list log_event) :=
  '(t, a, w0) ← initialize_transition e b a;
  if exception_addr =? t_lock_ra t then Some (a, sm, w0)
  else
    l ← lockmap a !! t_lock_addr t;
    let cal := get_caller l (t_caller_ra t) in
    let cal := caller_with_count cal (u64 (c_count cal + 1)) in
    if flag (t_flags t) F_NOADDR || (t_lock_id t =? L_COMPL) then
      let bump (v : avg_var) := mkAvg (u32 (av_cnt v + 1)) (av_sum v) (av_xsqr v) in
      let av := c_acq cal in
      let av := mkAvg3 (bump (av_all av)) (bump (av_below av)) (av_above av) in
      Some (put_lock (t_lock_addr t) (set_caller (t_caller_ra t) (caller_with_acq cal av) l) a, sm, w0)
    else
      let l := set_caller (t_caller_ra t) cal l in
      let '(s, q, w1) := update_current_lock_state e t (lk_state l) in
      let a := put_lock (t_lock_addr t) (lk_with_state s q l) a in
      let '(t, w2) := detect_read_lock_unlock (t_with_new_state t s) in
      '(a, sm, w3) ← process_transition e c t a sm;
      Some (a, sm, w0 ++ w1 ++ w2 ++ w3).
