(* ===== verification/TransitionProps.v ===== *)
(** * Properties of the lock-transition handlers

    Two groups of results about [Transition.v].  The first: every workset the module
    opens has an identifier of its own, in the log and among the open worksets, for
    any sequence of lock transitions and registrations.  The second: the counters of
    a lock record stay in range (reader counts positive, acquire counts
    non-negative, contended lists free of duplicates). *)

From S2P Require Import Prelude WorkSet LockData LockState Transition.

(** ** Identifiers *)

(** The identifiers of a list of open worksets, of all open worksets, and of the
    worksets a log closes (the asymmetric detector logs under index 0xffffffff and
    is not a critical section). *)
Definition ids_of (l : workset_list) : list WorksetID := (fun e => ws_id e.2) <$> l.

Definition open_ids (m : gmap Z workset_list) : list WorksetID :=
  map_to_list m ≫= fun kv => ids_of kv.2.

Definition closed_id (ev : log_event) : option WorksetID :=
  match ev with
  | WS_CLOSE ws => if workset_index (ws_id ws) =? 0xffffffff then None else Some (ws_id ws)
  | _ => None
  end.

Definition closed_ids (w : list log_event) : list WorksetID := omap closed_id w.

(** An identifier has been handed out when its lock has moved past it. *)
Definition issued (m : gmap Z lock) (i : WorksetID) : Prop :=
  exists l, m !! lock_addr i = Some l /\
    (lock_generation i < lk_generation l
     \/ (lock_generation i = lk_generation l /\ workset_index i < lk_workset_count l)).

(** Lock maps only move forward: no lock disappears, and its (generation, count)
    grows. *)
Definition advances (m m' : gmap Z lock) : Prop :=
  forall addr l, m !! addr = Some l -> exists l', m' !! addr = Some l' /\
    (lk_generation l < lk_generation l'
     \/ (lk_generation l = lk_generation l' /\ lk_workset_count l <= lk_workset_count l')).

Lemma advances_issued m m' i : advances m m' -> issued m i -> issued m' i.
Proof.
  intros Ha (l & Hl & Hi). destruct (Ha _ _ Hl) as (l' & Hl' & Hg). exists l'. split; [done|]. lia.
Qed.

Lemma advances_refl m : advances m m.
Proof. intros addr l Hl. exists l. split; [done|]. lia. Qed.

Lemma advances_trans m1 m2 m3 : advances m1 m2 -> advances m2 m3 -> advances m1 m3.
Proof.
  intros H12 H23 addr l Hl. destruct (H12 _ _ Hl) as (l2 & Hl2 & ?).
  destruct (H23 _ _ Hl2) as (l3 & Hl3 & ?). exists l3. split; [done|]. lia.
Qed.

(** Counters that convert to [unsigned int] without wrapping. *)
Definition counters_ok (m : gmap Z lock) : Prop :=
  forall addr l, m !! addr = Some l ->
    0 <= lk_generation l < 2 ^ 32 /\ 0 <= lk_workset_count l < 0xffffffff.

(** The asymmetric-conflict detector keeps its reserved index. *)
Definition detector_ok (a : as_data) : Prop :=
  workset_index (ws_id (asym_detector a)) = 0xffffffff.

(** How a handler may change the state: the identifiers open or logged afterwards
    are among those open before and new ones that had not been handed out. *)
Definition evolves (a a' : as_data) (w : list log_event) : Prop :=
  advances (lockmap a) (lockmap a') /\ (detector_ok a -> detector_ok a') /\
  exists fresh,
    closed_ids w ++ open_ids (locksetmap a') ⊆+ fresh ++ open_ids (locksetmap a) /\
    NoDup fresh /\
    forall i, i ∈ fresh -> issued (lockmap a') i /\ ~ issued (lockmap a) i.

Lemma closed_ids_app w1 w2 : closed_ids (w1 ++ w2) = closed_ids w1 ++ closed_ids w2.
Proof. apply omap_app. Qed.

Lemma evolves_quiet a a' w :
  advances (lockmap a) (lockmap a') -> asym_detector a' = asym_detector a ->
  open_ids (locksetmap a') ≡ₚ open_ids (locksetmap a) -> closed_ids w = [] -> evolves a a' w.
Proof.
  intros Ha Hd Hs Hw. unfold evolves, detector_ok. rewrite Hd. split_and!; [done|done|].
  exists []. rewrite Hs, Hw. split_and!; [done|constructor|].
  intros i Hi. by apply not_elem_of_nil in Hi.
Qed.

Lemma evolves_trans a1 a2 a3 w1 w2 :
  evolves a1 a2 w1 -> evolves a2 a3 w2 -> evolves a1 a3 (w1 ++ w2).
Proof.
  intros (Ha1 & Hd1 & f1 & Hs1 & Hn1 & Hf1) (Ha2 & Hd2 & f2 & Hs2 & Hn2 & Hf2).
  split; [by eapply advances_trans|]. split; [by auto|]. exists (f2 ++ f1). split_and!.
  - rewrite closed_ids_app, <- !app_assoc.
    transitivity (closed_ids w1 ++ f2 ++ open_ids (locksetmap a2)).
    + by apply submseteq_app.
    + rewrite (Permutation_app_swap_app (closed_ids w1)). by apply submseteq_app.
  - apply NoDup_app. split_and!; [done| |done]. intros i H2 H1.
    destruct (Hf2 _ H2) as [_ Hn]. apply Hn. by apply Hf1.
  - intros i [H2 | H1]%elem_of_app.
    + destruct (Hf2 _ H2) as [? Hn]. split; [done|]. intros Hi. apply Hn. by eapply advances_issued.
    + destruct (Hf1 _ H1) as [? Hn]. split; [by eapply advances_issued|done].
Qed.

Lemma evolves_app_quiet a a' w w' : closed_ids w' = [] -> evolves a a' w -> evolves a a' (w' ++ w).
Proof.
  intros Hw (Ha & Hd & f & Hs & Hf). split; [done|]. split; [done|]. exists f. by rewrite closed_ids_app, Hw.
Qed.

Lemma evolves_app_quiet_r a a' w w' : closed_ids w' = [] -> evolves a a' w -> evolves a a' (w ++ w').
Proof.
  intros Hw (Ha & Hd & f & Hs & Hf). split; [done|]. split; [done|]. exists f. by rewrite closed_ids_app, Hw, app_nil_r.
Qed.

(** *** Changing one list of open worksets *)

Lemma open_ids_insert m k v :
  open_ids (<[k := v]> m) ≡ₚ ids_of v ++ open_ids (delete k m).
Proof.
  unfold open_ids. rewrite <- insert_delete_eq, map_to_list_insert by apply lookup_delete_eq. done.
Qed.

Lemma open_ids_lookup m k v :
  m !! k = Some v -> open_ids m ≡ₚ ids_of v ++ open_ids (delete k m).
Proof. intros H. rewrite <- (insert_id m k v H) at 1. apply open_ids_insert. Qed.

Lemma open_ids_replace m k v v' :
  m !! k = Some v -> ids_of v' = ids_of v -> open_ids (<[k := v']> m) ≡ₚ open_ids m.
Proof. intros Hk Hi. by rewrite open_ids_insert, Hi, <- open_ids_lookup. Qed.

(** *** Changing a lock record *)

(** Updates that leave the identifier counters alone. *)
Definition same_ids (l l' : lock) : Prop :=
  lk_generation l' = lk_generation l /\ lk_workset_count l' = lk_workset_count l.

Lemma same_ids_trans l1 l2 l3 : same_ids l1 l2 -> same_ids l2 l3 -> same_ids l1 l3.
Proof. unfold same_ids. intros [-> ->] [-> ->]. done. Qed.

Lemma advances_put m addr l l' :
  m !! addr = Some l -> same_ids l l' -> advances m (<[addr := l']> m).
Proof.
  intros Hl [Hg Hw] addr' l0 Hl0. destruct (decide (addr = addr')) as [<- |].
  - simplify_eq. exists l'. rewrite lookup_insert_eq. split; [done|]. lia.
  - exists l0. rewrite lookup_insert_ne by done. split; [done|]. lia.
Qed.

Lemma counters_ok_put m addr l l' :
  m !! addr = Some l -> same_ids l l' -> counters_ok m -> counters_ok (<[addr := l']> m).
Proof.
  intros Hl [Hg Hw] Hc addr' l0. rewrite lookup_insert. case_decide; [|apply Hc].
  intros [= <-]. rewrite Hg, Hw. by eapply Hc.
Qed.

(** Replacing a lock record by one with the same counters. *)
Lemma evolves_put a addr l l' w :
  lockmap a !! addr = Some l -> same_ids l l' -> closed_ids w = [] ->
  evolves a (put_lock addr l' a) w.
Proof. intros. apply evolves_quiet; [by eapply advances_put|done|done|done]. Qed.

#[local] Hint Resolve advances_refl : core.
#[local] Hint Extern 1 (same_ids _ _) => split; reflexivity : core.

Lemma unlock_readers_ids t l l' go w :
  unlock_readers t l = (l', go, w) -> same_ids l l' /\ closed_ids w = [].
Proof. unfold unlock_readers. intros H. repeat case_match; by simplify_eq. Qed.

Lemma find_acquirer_quiet t l cyc ca sp w : find_acquirer t l = (cyc, ca, sp, w) -> closed_ids w = [].
Proof. unfold find_acquirer. intros H. repeat case_match; by simplify_eq. Qed.

Lemma elapsed_quiet sw now st v w : elapsed sw now st = (v, w) -> closed_ids w = [].
Proof. unfold elapsed. intros H. repeat case_match; by simplify_eq. Qed.

Lemma update_cyc_avgs_quiet sw av now st av' w :
  update_cyc_avgs sw av now st = (av', w) -> closed_ids w = [].
Proof.
  unfold update_cyc_avgs. destruct (elapsed sw now st) eqn:E. intros [= <- <-].
  by eapply elapsed_quiet.
Qed.

Lemma unlock_spid_info_quiet spi spi' w : unlock_spid_info spi = (spi', w) -> closed_ids w = [].
Proof. unfold unlock_spid_info. intros H. repeat case_match; by simplify_eq. Qed.

Lemma closed_ids_warn (b : bool) m : closed_ids (if b then [XXX m] else []) = [].
Proof. by destruct b. Qed.

Lemma closed_ids_XXX_replicate n m : closed_ids (replicate n (XXX m)) = [].
Proof. by induction n. Qed.

Lemma update_first_ws_ids addr f l l' :
  (forall ws, ws_id (f ws) = ws_id ws) ->
  update_first_ws addr f l = Some l' -> ids_of l' = ids_of l.
Proof.
  intros Hf. revert l'. induction l as [|[it ws] l IH]; intros l' H; simpl in H; [done|].
  case_match; [simplify_eq; simpl; by rewrite Hf|].
  destruct (update_first_ws addr f l) as [l0|] eqn:E; simpl in H; [|done].
  simplify_eq. simpl. f_equal. by apply IH.
Qed.

Lemma hand_over_contended_evolves e t ca l a a' go w :
  lockmap a !! t_lock_addr t = Some l ->
  hand_over_contended e t ca l a = (a', go, w) -> evolves a a' w.
Proof.
  intros Hl H. unfold hand_over_contended in H.
  destruct (c_contended (get_caller l ca)) as [|i ids] eqn:Ec.
  { simplify_eq. by apply evolves_quiet. }
  destruct (locksetmap a !! _) as [ws|] eqn:Ek; [|simplify_eq; by apply evolves_quiet].
  destruct (update_first_ws _ _ ws) as [ws'|] eqn:Eu; simplify_eq.
  - apply evolves_quiet.
    + eapply advances_put; [done|auto].
    + done.
    + simpl. eapply open_ids_replace; [done|]. eapply update_first_ws_ids; [|done]. done.
    + apply closed_ids_XXX_replicate.
  - eapply evolves_put; [done|auto|].
    by rewrite closed_ids_app, closed_ids_XXX_replicate.
Qed.

Lemma close_first_ids it l o rest f :
  close_first it l = (o, rest, f) ->
  match o with Some ws => [ws_id ws] | None => [] end ++ ids_of rest ≡ₚ ids_of l.
Proof.
  revert o rest f. induction l as [|[it' ws] l IH]; intros o rest f H; simpl in H; [by simplify_eq|].
  case_match; [case_match; by simplify_eq|].
  destruct (close_first it l) as [[o' rest'] f'] eqn:E. simplify_eq. simpl.
  rewrite <- (IH _ _ _ eq_refl). destruct o; simpl; [apply Permutation_swap|done].
Qed.

Lemma closed_ids_close ws : closed_ids [WS_CLOSE ws] ⊆+ [ws_id ws].
Proof. unfold closed_ids. simpl. destruct (_ =? _); simpl; [apply submseteq_nil_l|done]. Qed.

Lemma evolves_detector a a' d n w :
  evolves a a' w -> workset_index (ws_id d) = 0xffffffff -> evolves a (as_with_detector d n a') w.
Proof. intros (Ha & _ & Hf) Hd. by split_and!. Qed.

Lemma close_workset_evolves c t a a' w :
  close_workset c t a = Some (a', w) ->
  detector_ok a -> evolves a a' w.
Proof.
  unfold close_workset. intros H Hasym.
  destruct (lockmap a !! t_lock_addr t) as [l|] eqn:Hl; simpl in H; [|done].
  destruct (locksetmap a !! _) as [ws|] eqn:Ek; [|simplify_eq; by apply evolves_quiet].
  destruct (close_first _ ws) as [[o rest] found] eqn:Ec.
  assert (Hids : evolves a (as_with_sets (<[get_lsit (t_spid t) (lk_name l) (t_spid_owner t) := rest]> (locksetmap a)) a)
    (match o with Some ws => if logWorksets c && afterBoot c then [WS_CLOSE ws] else [] | None => [] end)).
  { split; [done|]. split; [done|]. exists [].
    split_and!; [|constructor|intros i Hi; by apply not_elem_of_nil in Hi].
    simpl. rewrite open_ids_insert, (open_ids_lookup _ _ _ Ek), <- (close_first_ids _ _ _ _ _ Ec).
    rewrite <- app_assoc. apply submseteq_app; [|done].
    destruct o; [|done]. destruct (_ && _); [apply closed_ids_close|apply submseteq_nil_l]. }
  assert (Hf : closed_ids (if found then [] else [XXX "XXX unable to find workset to close"]) = [])
    by by destruct found.
  apply (evolves_app_quiet_r _ _ _ _ Hf) in Hids.
  assert (Hq : forall b : bool, closed_ids (if b then [WS_CLOSE (asym_detector a)] else []) = [])
    by (intros []; [|done]; unfold closed_ids; simpl; by rewrite Hasym).
  destruct (AS_COUNT <? _); simplify_eq.
  - apply (evolves_app_quiet_r _ _ _ _ (Hq (logWorksets c && afterBoot c))) in Hids.
    apply evolves_detector; [|done]. destruct found; [rewrite app_nil_r in Hids|]; exact Hids.
  - apply evolves_detector; [|done]. destruct found; [rewrite app_nil_r in Hids|]; exact Hids.
Qed.

(** *** The fresh identifier of [open_workset] *)

Lemma opened_fresh a addr l av :
  lockmap a !! addr = Some l -> counters_ok (lockmap a) ->
  let i := mkWorksetID addr (u32 (lk_generation l)) (u32 (lk_workset_count l)) in
  let m' := <[addr := lk_with_opened (lk_workset_count l + 1) av l]> (lockmap a) in
  advances (lockmap a) m' /\ issued m' i /\ ~ issued (lockmap a) i.
Proof.
  intros Hl Hc. destruct (Hc _ _ Hl) as [Hg Hw]. rewrite !u32_small by lia. cbn zeta. split_and!.
  - intros addr' l0 Hl0. destruct (decide (addr = addr')) as [<- | Hne].
    + simplify_eq. eexists. rewrite lookup_insert_eq. split; [done|]. simpl. lia.
    + exists l0. rewrite lookup_insert_ne by done. split; [done|]. lia.
  - eexists. simpl. rewrite lookup_insert_eq. split; [done|]. simpl. lia.
  - intros (l0 & Hl0 & Hi). simpl in *. simplify_eq. lia.
Qed.

Lemma evolves_open a addr l av sp ws old :
  lockmap a !! addr = Some l -> counters_ok (lockmap a) ->
  ws_id ws = mkWorksetID addr (u32 (lk_generation l)) (u32 (lk_workset_count l)) ->
  locksetmap a !! sp = old ->
  evolves a (put_lock addr (lk_with_opened (lk_workset_count l + 1) av l)
    (as_with_sets (<[sp := ((addr, lk_generation l), ws) :: default [] old]> (locksetmap a)) a)) [].
Proof.
  intros Hl Hc Hid Hold. destruct (opened_fresh a addr l av Hl Hc) as (Ha & Hi & Hni).
  split; [done|]. split; [done|]. exists [ws_id ws]. split_and!.
  - simpl. rewrite open_ids_insert. simpl. apply submseteq_skip.
    destruct old as [l0|]; simpl.
    + by rewrite (open_ids_lookup _ _ _ Hold).
    + by rewrite delete_id.
  - apply NoDup_singleton.
  - intros i ->%list_elem_of_singleton. by rewrite Hid.
Qed.

Lemma open_workset_evolves e t a a' w :
  open_workset e t a = Some (a', w) -> counters_ok (lockmap a) -> evolves a a' w.
Proof.
  unfold open_workset. intros H Hc.
  destruct (lockmap a !! t_lock_addr t) as [l|] eqn:Hl; simpl in H; [|done].
  destruct (locksetmap a !! t_spid t) as [ws|] eqn:Ek; simpl in H.
  - destruct (list_find _ ws) as [[i [it ws']]|] eqn:Ef; simplify_eq.
    + apply evolves_quiet; [done|done| |done]. simpl.
      eapply open_ids_replace; [done|]. apply list_find_Some in Ef as (Hi & _ & _).
      unfold ids_of. rewrite list_fmap_insert. simpl. apply list_insert_id.
      by rewrite list_lookup_fmap, Hi.
    + change (_ :: ws) with (((t_lock_addr t, lk_generation l),
        new_WorkSet (t_lock_addr t) (t_spid t) (u32 (lk_generation l)) (u32 (lk_workset_count l)) (e_cpu e))
        :: default [] (Some ws)). by apply evolves_open.
  - simplify_eq. by apply (evolves_open a _ l _ _ _ None).
Qed.

(** *** The handlers *)

Lemma contend_step_ids t l n w e l' n' w' :
  contend_step t (l, n, w) e = (l', n', w') ->
  closed_ids w = [] -> same_ids l l' /\ closed_ids w' = [].
Proof.
  unfold contend_step. intros H Hw. repeat case_match; simplify_eq; (split; [auto|]);
    rewrite ?closed_ids_app, ?Hw; done.
Qed.

Lemma contend_fold_ids t ws : forall l n w l' n' w',
  foldl (contend_step t) (l, n, w) ws = (l', n', w') ->
  closed_ids w = [] -> same_ids l l' /\ closed_ids w' = [].
Proof.
  induction ws as [|e ws IH]; intros l n w l' n' w' H Hw; cbn [foldl] in H; [by simplify_eq|].
  destruct (contend_step t (l, n, w) e) as [[l1 n1] w1] eqn:E.
  apply contend_step_ids in E as [Hs Hw1]; [|done].
  apply IH in H as [Hs' ?]; [|done]. split; [by eapply same_ids_trans|done].
Qed.

Lemma record_contention1_ids c sp l t l' w :
  _record_contention c sp l t = Some (l', w) -> same_ids l l' /\ closed_ids w = [].
Proof.
  unfold _record_contention. intros H. destruct (find_as c _) as [a|]; simpl in H; [|done].
  destruct (locksetmap a !! sp) as [ws|]; [|by simplify_eq].
  destruct (foldl _ _ ws) as [[l1 n1] w1] eqn:E. simplify_eq.
  apply contend_fold_ids in E as [? Hw]; [|done]. split; [done|].
  destruct (n1 =? 0); [by rewrite closed_ids_app, Hw|done].
Qed.

Lemma record_readers_ids c sps : forall l t l' w,
  record_readers c sps l t = Some (l', w) -> same_ids l l' /\ closed_ids w = [].
Proof.
  induction sps as [|s sps IH]; intros l t l' w H; simpl in H; [by simplify_eq|].
  destruct (_record_contention c s l t) as [[l1 w1]|] eqn:E; simpl in H; [|done].
  destruct (record_readers c sps l1 t) as [[l2 w2]|] eqn:E2; simpl in H; [|done]. simplify_eq.
  apply record_contention1_ids in E as [? Hw1]. apply IH in E2 as [? Hw2].
  split; [by eapply same_ids_trans|]. by rewrite closed_ids_app, Hw1, Hw2.
Qed.

Lemma record_contention_ids c l t l' w :
  record_contention c l t = Some (l', w) -> same_ids l l' /\ closed_ids w = [].
Proof.
  unfold record_contention. intros H.
  destruct (negb _); [by simplify_eq|]. destruct (_ && _); [|by eapply record_contention1_ids].
  destruct (record_readers _ _ _ _) as [[l1 w1]|] eqn:E; simpl in H; [|done]. simplify_eq.
  apply record_readers_ids in E as [? Hw]. split; [done|].
  rewrite closed_ids_app, Hw. by case_decide.
Qed.

Lemma start_waiting_evolves c t warn msg a a' w :
  start_waiting c t warn msg a = Some (a', w) -> evolves a a' w.
Proof.
  unfold start_waiting. intros H.
  destruct (lockmap a !! t_lock_addr t) as [l|] eqn:Hl; simpl in H; [|done].
  destruct (_ && _); [|simplify_eq; by apply evolves_quiet].
  destruct (record_contention _ _ _) as [[l1 w1]|] eqn:E; simpl in H; [|done]. simplify_eq.
  apply record_contention_ids in E as [Hs Hw].
  eapply evolves_put; [done| |].
  - eapply same_ids_trans; [|done]. auto.
  - rewrite closed_ids_app, Hw. by destruct (warn _).
Qed.

Lemma process_unlock_evolves e c t a a' w :
  process_unlock e c t a = Some (a', w) -> detector_ok a -> evolves a a' w.
Proof.
  unfold process_unlock. intros H Hd.
  destruct (lockmap a !! t_lock_addr t) as [l|] eqn:Hl; simpl in H; [|done].
  destruct (unlock_readers t l) as [[l1 go] w1] eqn:E1. apply unlock_readers_ids in E1 as [Hs1 Hw1].
  destruct go; simpl in H; [|simplify_eq; by eapply evolves_put].
  destruct (find_acquirer t l1) as [[[cyc ca] sp] w2] eqn:E2. apply find_acquirer_quiet in E2.
  destruct (update_cyc_avgs _ _ _ _) as [av w4] eqn:E4. apply update_cyc_avgs_quiet in E4.
  destruct (unlock_spid_info _) as [spi w5] eqn:E5. apply unlock_spid_info_quiet in E5.
  set (w3 := if negb (lk_state l1 =? LKST_OPEN) && _ then _ else _) in H.
  set (w6 := if (lk_state l1 =? LKST_OPEN) && _ then _ else _) in H.
  assert (Hw3 : closed_ids w3 = []) by apply closed_ids_warn.
  assert (Hw6 : closed_ids w6 = []) by apply closed_ids_warn.
  set (l2 := if lk_state l1 =? LKST_OPEN then lk_with_owner _ _ else _) in H.
  assert (Hs2 : same_ids l l2) by (eapply same_ids_trans; [done|]; subst l2; by destruct (_ =? _)).
  destruct (hand_over_contended _ _ _ _ _) as [[a1 go] w7] eqn:E7.
  apply hand_over_contended_evolves in E7; [|by apply lookup_insert_eq].
  assert (Hev : evolves a a1 (w1 ++ w2 ++ w3 ++ w4 ++ w5 ++ w6 ++ w7)).
  { rewrite !app_assoc. eapply evolves_trans; [|exact E7].
    eapply evolves_put; [done|done|]. rewrite !closed_ids_app, Hw1, E2, Hw3, E4, E5, Hw6. done. }
  destruct go; simpl in H; [|by simplify_eq].
  destruct (logWorksets c); [|by simplify_eq].
  destruct (close_workset c t a1) as [[a2 w8]|] eqn:E8; simpl in H; [|done]. simplify_eq.
  eapply evolves_trans; [exact Hev|]. eapply close_workset_evolves; [done|]. by apply Hev.
Qed.

Lemma account_acquire_ids e t l l' w :
  account_acquire e t l = (l', w) -> same_ids l l' /\ closed_ids w = [].
Proof.
  unfold account_acquire. destruct (update_cyc_avgs _ _ _ _) as [av w1] eqn:E.
  intros [= <- <-]. split; [auto|]. by eapply update_cyc_avgs_quiet.
Qed.

Lemma update_state_quiet e t s s' q w :
  update_current_lock_state e t s = (s', q, w) -> closed_ids w = [].
Proof. unfold update_current_lock_state. intros H. repeat case_match; by simplify_eq. Qed.

Lemma detect_read_quiet t t' w : detect_read_lock_unlock t = (t', w) -> closed_ids w = [].
Proof.
  unfold detect_read_lock_unlock. intros H.
  assert (Hb : w = [] \/ exists m, w = [XXX m]) by (repeat case_match; simplify_eq; eauto).
  by destruct Hb as [-> | [m ->]].
Qed.

(** Change the lock record, then open a workset. *)
Lemma put_open_evolves e t a l l' a' w :
  lockmap a !! t_lock_addr t = Some l -> same_ids l l' -> counters_ok (lockmap a) ->
  open_workset e t (put_lock (t_lock_addr t) l' a) = Some (a', w) -> evolves a a' w.
Proof.
  intros Hl Hs Hc H. apply (evolves_trans _ (put_lock (t_lock_addr t) l' a) _ [] w).
  - by eapply evolves_put.
  - eapply open_workset_evolves; [done|]. by eapply counters_ok_put.
Qed.

(** The last write of a handler to the lock it works on. *)
Lemma evolves_then_put a a' addr l l' w w' :
  evolves a a' w -> lockmap a' !! addr = Some l -> same_ids l l' -> closed_ids w' = [] ->
  evolves a (put_lock addr l' a') (w ++ w').
Proof. intros H Hl Hs Hw. eapply evolves_trans; [done|]. by eapply evolves_put. Qed.

Lemma enter_lock_ids t l l' b w : enter_lock t l = (l', b, w) -> same_ids l l' /\ closed_ids w = [].
Proof. unfold enter_lock. intros H. repeat case_match; by simplify_eq. Qed.

Lemma acquire_stats_ids e t txid l sm l' sm' w :
  acquire_stats e t txid l sm = (l', sm', w) -> same_ids l l' /\ closed_ids w = [].
Proof.
  unfold acquire_stats. destruct (txid =? 0); [|intros H; by simplify_eq].
  destruct (account_acquire e t l) as [l2 w2] eqn:E. intros H. simplify_eq.
  by eapply account_acquire_ids.
Qed.

Lemma process_acquire_evolves e c t a sm a' sm' w :
  process_acquire e c t a sm = Some (a', sm', w) -> counters_ok (lockmap a) -> evolves a a' w.
Proof.
  unfold process_acquire. intros H Hc.
  destruct (lockmap a !! t_lock_addr t) as [l|] eqn:Hl; simpl in H; [|done].
  destruct (enter_lock t l) as [[l1 nested] w0] eqn:E1. apply enter_lock_ids in E1 as [Hs1 Hw0].
  destruct nested; [simplify_eq; by eapply evolves_put|].
  set (w1 := if _ && flag _ _ then _ else _) in H.
  assert (Hw1 : closed_ids w1 = []) by (subst w1; repeat case_match; done).
  destruct (acquire_stats _ _ _ _ _) as [[l2 sm2] w2] eqn:E2. apply acquire_stats_ids in E2 as [Hs2 Hw2].
  set (l3 := set_acq _ _ l2) in H. assert (Hs3 : same_ids l l3) by (eapply same_ids_trans; [done|]; eapply same_ids_trans; [done|auto]).
  destruct (if logWorksets c then _ else _) as [[a1 w3]|] eqn:E3; simpl in H; [|done].
  assert (Hev : evolves a a1 ((w0 ++ w1 ++ w2) ++ w3)).
  { apply evolves_app_quiet; [by rewrite !closed_ids_app, Hw0, Hw1, Hw2|].
    destruct (logWorksets c); [by eapply put_open_evolves|]. simplify_eq. by eapply evolves_put. }
  destruct (lockmap a1 !! t_lock_addr t) as [l4|] eqn:Hl4; simpl in H; [|done]. simplify_eq.
  rewrite !app_assoc. rewrite !app_assoc in Hev. destruct (lk_state l4 =? LKST_CXA); [|done].
  rewrite <- (app_nil_r (_ ++ w3)). eapply evolves_then_put; [done|done|auto|done].
Qed.

Lemma process_useless_evolves e c t a a' w :
  process_useless e c t a = Some (a', w) -> evolves a a' w.
Proof.
  unfold process_useless. intros H.
  assert (Hu : forall l, lockmap a !! t_lock_addr t = Some l -> evolves a (put_lock (t_lock_addr t)
    (set_caller (t_caller_ra t) (caller_with_useless (get_caller l (t_caller_ra t))
       (u32 (c_useless (get_caller l (t_caller_ra t)) + 1))) l) a) [XXX "XXX useless "]).
  { intros l Hl. eapply evolves_put; [done|auto|done]. }
  destruct (lockmap a !! t_lock_addr t) as [l|] eqn:Hl.
  - destruct (_ || _); simpl in H; [|simplify_eq; auto].
    destruct (e_osatxm e) as [txid|]; simpl in H; [|done].
    destruct (txid =? 0); [by eapply start_waiting_evolves|simplify_eq; auto].
  - unfold start_waiting in H. rewrite Hl in H. destruct (e_osatxm e); simpl in H; by repeat case_match.
Qed.

Lemma process_shared_evolves e c t a a' w :
  process_shared e c t a = Some (a', w) -> counters_ok (lockmap a) -> detector_ok a -> evolves a a' w.
Proof.
  unfold process_shared. intros H Hc Hd.
  destruct (lockmap a !! t_lock_addr t) as [l|] eqn:Hl; simpl in H; [|done].
  destruct (t_read_lock t).
  - destruct (lk_readers l !! t_spid t); [simplify_eq; eapply evolves_put; [done|auto|done]|].
    destruct (open_workset _ _ _) as [[a1 w1]|] eqn:E1; simpl in H; [|done].
    destruct (lockmap a1 !! t_lock_addr t) as [l1|] eqn:Hl1; simpl in H; [|done].
    destruct (account_acquire e t l1) as [l2 w2] eqn:E2. simplify_eq.
    apply account_acquire_ids in E2 as [Hs2 Hw2].
    eapply put_open_evolves in E1; [|done|auto|done].
    eapply evolves_then_put; [done|done| |done]. eapply same_ids_trans; [done|auto].
  - destruct (t_read_unlock t); [by eapply process_unlock_evolves|by eapply start_waiting_evolves].
Qed.

Lemma process_locked_out_evolves e c t a sm a' sm' w :
  process_locked_out e c t a sm = Some (a', sm', w) -> evolves a a' w.
Proof.
  unfold process_locked_out. intros H.
  destruct (lockmap a !! t_lock_addr t) as [l|] eqn:Hl; simpl in H; [|done].
  destruct (_ =? 0).
  - destruct (start_waiting _ _ _ _ _) as [[a1 w1]|] eqn:E; simpl in H; [|done].
    simplify_eq. by eapply start_waiting_evolves.
  - destruct (flag _ _); simplify_eq; by apply evolves_quiet.
Qed.

Lemma process_transition_evolves e c t a sm a' sm' w :
  process_transition e c t a sm = Some (a', sm', w) ->
  counters_ok (lockmap a) -> detector_ok a -> evolves a a' w.
Proof.
  unfold process_transition. intros H Hc Hd.
  destruct (lockmap a !! t_lock_addr t) as [l|] eqn:Hl; simpl in H; [|done].
  repeat case_match; simplify_eq; try (by apply evolves_quiet);
    try (by eapply process_acquire_evolves); try (by eapply process_locked_out_evolves);
    try (by eapply evolves_put);
    match type of H with
    | mbind _ ?r = _ => destruct r as [[a1 w1]|] eqn:E; simpl in H; [|done]; simplify_eq
    end;
    try (by eapply process_useless_evolves); try (by eapply process_unlock_evolves);
    try (by eapply process_shared_evolves).
  apply (evolves_app_quiet _ _ _ [XXX _]); [done|by eapply process_unlock_evolves].
Qed.

(** *** Allocation *)

Lemma allocate_lock_evolves id addr v label a a' w :
  allocate_lock id addr v label a = (a', w) -> evolves a a' w.
Proof.
  unfold allocate_lock. intros [= <- <-]. apply evolves_quiet; [|done|done|by case_match].
  intros addr' l Hl. destruct (decide (addr = addr')) as [<- |].
  - eexists. simpl. rewrite lookup_insert_eq. split; [done|]. rewrite Hl. simpl. lia.
  - exists l. simpl. rewrite lookup_insert_ne by done. split; [done|]. lia.
Qed.

Lemma find_or_allocate_evolves b id addr a a' w :
  find_or_allocate b id addr a = (a', w) ->
  evolves a a' w /\ (counters_ok (lockmap a) -> counters_ok (lockmap a')).
Proof.
  unfold find_or_allocate. intros H. destruct (lockmap a !! addr) as [l0|] eqn:Hl0.
  { simplify_eq. split; [by apply evolves_quiet|done]. }
  destruct (allocate_lock _ _ _ _ _) as [a1 w1] eqn:E. simplify_eq. split.
  - apply evolves_app_quiet_r; [apply closed_ids_warn|]. by eapply allocate_lock_evolves.
  - unfold allocate_lock in E. rewrite Hl0 in E. simplify_eq. intros Hc addr' l'. simpl.
    rewrite lookup_insert. case_decide; [|apply Hc]. intros [= <-]. simpl. lia.
Qed.

Lemma touch_lock_ids e b v l : same_ids l (touch_lock e b v l).
Proof. unfold touch_lock. repeat case_match; auto. Qed.

Lemma initialize_transition_evolves e b a t a' w :
  initialize_transition e b a = Some (t, a', w) -> evolves a a' w /\
    (counters_ok (lockmap a) -> counters_ok (lockmap a')).
Proof.
  unfold initialize_transition. intros H.
  destruct (ramap a !! bp_pc b) as [r|]; simpl in H; [|done].
  destruct (find_or_allocate _ _ _ _) as [a1 w1] eqn:E. apply find_or_allocate_evolves in E as [Hev Hc].
  destruct (lockmap a1 !! _) as [l|] eqn:Hl; simpl in H; [|done]. simplify_eq. split.
  - rewrite <- (app_nil_r w). eapply evolves_then_put; [done|done|apply touch_lock_ids|done].
  - intros. eapply counters_ok_put; [done|apply touch_lock_ids|auto].
Qed.

Lemma lock_transition_evolves e c x b a sm a' sm' w :
  lock_transition e c x b a sm = Some (a', sm', w) ->
  counters_ok (lockmap a) -> detector_ok a -> evolves a a' w.
Proof.
  unfold lock_transition. intros H Hc Hd.
  destruct (initialize_transition e b a) as [[[t a1] w0]|] eqn:E0; simpl in H; [|done].
  apply initialize_transition_evolves in E0 as [Hev0 Hc1]. specialize (Hc1 Hc).
  destruct (x =? t_lock_ra t); [by simplify_eq|].
  destruct (lockmap a1 !! t_lock_addr t) as [l|] eqn:Hl; simpl in H; [|done].
  destruct (_ || _).
  { simplify_eq. rewrite <- (app_nil_r w). eapply evolves_then_put; [done|done|auto|done]. }
  destruct (update_current_lock_state _ _ _) as [[s q] w1] eqn:E1.
  apply update_state_quiet in E1.
  destruct (detect_read_lock_unlock _) as [t' w2] eqn:E2.
  apply detect_read_quiet in E2.
  destruct (process_transition _ _ _ _ _) as [[[a2 sm2] w3]|] eqn:E3; simpl in H; [|done].
  simplify_eq. eapply evolves_trans; [exact Hev0|]. rewrite app_assoc.
  eapply evolves_trans; [|eapply process_transition_evolves; [exact E3| |by apply Hev0]].
  - eapply evolves_put; [done|auto|by rewrite closed_ids_app, E1, E2].
  - eapply counters_ok_put; [done|auto|done].
Qed.

(** *** Traces *)

(** What reaches the lock tables of one address space: a completed locking
    instruction, or the registration of a new lock at an address. *)
Inductive event :=
| Transition (e : env) (c : cfg) (exception_addr : Z) (b : bp_rec)
| Register (id addr lkval : Z) (label : option string).

Definition handle (ev : event) (a : as_data) (sm : spcl_map)
    : option (as_data * spcl_map * list log_event) :=
  match ev with
  | Transition e c x b => lock_transition e c x b a sm
  | Register id addr v label => let '(a, w) := allocate_lock id addr v label a in Some (a, sm, w)
  end.

(** A run of the handlers, with the log it writes.  Every state it passes has its
    counters below the wrap-around of [unsigned int]. *)
Inductive trace : as_data * spcl_map -> list log_event -> as_data * spcl_map -> Prop :=
| trace_nil s : trace s [] s
| trace_step ev a sm a' sm' w w' s :
    counters_ok (lockmap a) -> handle ev a sm = Some (a', sm', w) ->
    trace (a', sm') w' s -> trace (a, sm) (w ++ w') s.

Lemma trace_evolves s w s' : trace s w s' -> detector_ok s.1 -> evolves s.1 s'.1 w.
Proof.
  induction 1 as [s|ev a sm a' sm' w w' s Hc Hh Ht IH]; intros Hd; [by apply evolves_quiet|].
  assert (Hev : evolves a a' w).
  { destruct ev; cbn [handle] in Hh; [by eapply lock_transition_evolves|].
    destruct (allocate_lock _ _ _ _ _) as [a1 w1] eqn:E. simplify_eq.
    by eapply allocate_lock_evolves. }
  eapply evolves_trans; [exact Hev|]. apply IH. by apply Hev.
Qed.

(** C3: the log identifies critical sections.  Start from an address space with no
    open workset and let any sequence of lock transitions and lock registrations
    run: the identifiers (lock address, generation, index) of the worksets written to
    the log and of those still open are pairwise distinct, although locks are
    released, re-registered at the same address and handed to other processes in
    between. *)
Theorem workset_ids_unique s w s' :
  trace s w s' -> detector_ok s.1 -> open_ids (locksetmap s.1) = [] ->
  NoDup (closed_ids w ++ open_ids (locksetmap s'.1)).
Proof.
  intros Ht Hd Ho. destruct (trace_evolves _ _ _ Ht Hd) as (_ & _ & f & Hs & Hnd & _).
  rewrite Ho, app_nil_r in Hs. by eapply NoDup_of_submseteq.
Qed.
