(* ===== verification/Critical.v ===== *)
(** * The life of a critical section

    What [lock_transition] does, end to end, for the spinlock instructions that make
    up a critical section: the acquire, the attempts of a process that is locked
    out, and the release. *)

From S2P Require Import Prelude WorkSet LockData LockState Transition TransitionProps.

(** ** The common prefix of a transition *)

(** The transition record [initialize_transition] builds for a known lock. *)
Definition attempt (e : env) (b : bp_rec) (r : ra) (addr v : Z) (l : lock) : transition_info :=
  mkT (e_spid e) v (lk_lkval l) (bp_pc b) (bp_caller_ra b) addr (ra_lock_id r) (lk_state l)
    (s16 0xAFAF) (lk_spid_owner l) (ra_flags r) true true (e_now e) (bp_cyc b) (s32 (bp_lkval b)).

(** The lock record with the caller's use counted. *)
Definition counted (e : env) (b : bp_rec) (v : Z) (l : lock) : lock :=
  let l := touch_lock e b v l in
  let cal := get_caller l (bp_caller_ra b) in
  set_caller (bp_caller_ra b) (caller_with_count cal (u64 (c_count cal + 1))) l.

Lemma get_caller_set l ca ca' c :
  get_caller (set_caller ca c l) ca' = if decide (ca = ca') then c else get_caller l ca'.
Proof. unfold get_caller, set_caller. simpl. rewrite lookup_insert. by case_decide. Qed.

Lemma get_acq_set l sp sp' c :
  get_acq (set_acq sp c l) sp' = if decide (sp = sp') then c else get_acq l sp'.
Proof. unfold get_acq, set_acq. simpl. rewrite lookup_insert. by case_decide. Qed.

Lemma touch_lock_spec e b v l :
  let l' := touch_lock e b v l in
  (forall ca, get_caller l' ca = get_caller l ca) /\ (forall sp, get_acq l' sp = get_acq l sp) /\
  lk_state l' = lk_state l /\ lk_spid_owner l' = lk_spid_owner l /\ lk_name l' = lk_name l /\
  lk_readers l' = lk_readers l /\ lk_addr l' = lk_addr l /\ lk_nest_av l' = lk_nest_av l.
Proof.
  unfold touch_lock, get_caller, get_acq. cbn zeta. split_and!; intros; repeat case_match; try done;
    simpl; rewrite lookup_insert; case_decide; by simplify_option_eq.
Qed.

Lemma counted_spec e b v l :
  let l' := counted e b v l in
  let cal := get_caller l (bp_caller_ra b) in
  (forall ca, get_caller l' ca = if decide (bp_caller_ra b = ca)
     then caller_with_count cal (u64 (c_count cal + 1)) else get_caller l ca) /\
  (forall sp, get_acq l' sp = get_acq l sp) /\
  lk_spid_owner l' = lk_spid_owner l /\ lk_name l' = lk_name l /\
  lk_readers l' = lk_readers l /\ lk_addr l' = lk_addr l /\ lk_nest_av l' = lk_nest_av l /\
  lk_generation l' = lk_generation l /\ lk_workset_count l' = lk_workset_count l.
Proof.
  destruct (touch_lock_spec e b v l) as (Hc & Ha & Hs & Ho & Hn & Hr & Had & Hav).
  destruct (touch_lock_ids e b v l) as [Hg Hw]. unfold counted. cbn zeta.
  split_and!; try done. intros ca. by rewrite get_caller_set, !Hc.
Qed.

Lemma detect_read_shape t :
  valid_state (t_new_state t) ->
  exists rl ru, detect_read_lock_unlock t = (t_with_read t rl ru, []).
Proof.
  intros Hv. unfold detect_read_lock_unlock.
  assert (Hb : negb (t_new_state t =? LKST_OPEN) && negb (t_new_state t =? LKST_RLK)
    && negb (t_new_state t =? LKST_WRLK) && negb (t_new_state t =? LKST_CXA) = false)
    by (unfold valid_state in Hv; destruct Hv as [-> | [-> | [-> | ->]]]; done).
  rewrite Hb. repeat case_match; eauto.
Qed.

(** A transition on a known lock that has an address and a value in memory is the
    classification followed by [process_transition]. *)
Lemma lock_transition_run e c x b a sm r l addr s q w :
  ramap a !! bp_pc b = Some r -> lockmap a !! addr = Some l ->
  flag (ra_flags r) F_NOADDR = false -> flag (ra_flags r) F_EAX = false ->
  ra_lock_id r <> L_COMPL -> get_lock_addr e r = addr -> x <> bp_pc b ->
  let v := s32 (e_mem e addr) in
  let t := attempt e b r addr v l in
  update_current_lock_state e t (lk_state l) = (s, q, w) -> valid_state s ->
  exists rl ru,
    lock_transition e c x b a sm
    = ('(a', sm', w') ← process_transition e c (t_with_read (t_with_new_state t s) rl ru)
         (put_lock addr (lk_with_state s q (counted e b v l)) a) sm;
       Some (a', sm', w ++ w')).
Proof.
  intros Hr Hl Hna Heax Hid Hga Hx v t Hu Hv.
  destruct (detect_read_shape (t_with_new_state t s) Hv) as (rl & ru & Hd).
  exists rl, ru. unfold lock_transition, initialize_transition. rewrite Hr. simpl.
  rewrite Hna, Heax, Hga. simpl. unfold find_or_allocate. rewrite Hl. simpl. rewrite Hl. simpl.
  rewrite (proj2 (Z.eqb_neq _ _)) by done. rewrite lookup_insert_eq. simpl.
  rewrite Hna, (proj2 (Z.eqb_neq _ L_COMPL)) by done. simpl.
  replace (if (ra_lock_id r =? L_CXA) || (ra_lock_id r =? L_CXE) then s32 (e_mem e addr)
           else s32 (e_mem e addr)) with v by by destruct (_ || _).
  destruct (touch_lock_spec e b v l) as (_ & _ & -> & _).
  fold (attempt e b r addr v l). fold t. rewrite Hu, Hd. simpl.
  unfold put_lock, as_with_lockmap. simpl. rewrite insert_insert_eq. done.
Qed.

(** ** Acquire *)

Lemma spin_free_state e t s : t_lock_id t = L_SPIN -> t_lkval t = 1 ->
  update_current_lock_state e t s = (LKST_OPEN, false, []).
Proof. intros Hi Hv. unfold update_current_lock_state. by rewrite Hi, Hv. Qed.

Lemma spin_held_state e t s : t_lock_id t = L_SPIN -> t_lkval t = 0 \/ 1 < t_lkval t <= 255 ->
  exists q, update_current_lock_state e t s = (LKST_WRLK, q, []).
Proof.
  intros Hi Hv. unfold update_current_lock_state. rewrite Hi. simpl.
  assert ((t_lkval t =? 1) = false) as -> by lia.
  assert ((t_lkval t =? 0) || ((1 <? t_lkval t) && (t_lkval t <=? 255)) = true) as -> by lia.
  eauto.
Qed.

(** Opening a workset for a lock the process holds no workset of. *)
Lemma open_workset_new e t a l ws :
  lockmap a !! t_lock_addr t = Some l -> default [] (locksetmap a !! t_spid t) = ws ->
  Forall (fun x => ~ x.1 = (t_lock_addr t, lk_generation l)) ws ->
  exists av, open_workset e t a = Some (put_lock (t_lock_addr t) (lk_with_opened (lk_workset_count l + 1) av l)
    (as_with_sets (<[t_spid t := ((t_lock_addr t, lk_generation l),
       new_WorkSet (t_lock_addr t) (t_spid t) (u32 (lk_generation l)) (u32 (lk_workset_count l)) (e_cpu e))
       :: ws]> (locksetmap a)) a), []).
Proof.
  intros Hl Hd Hf. unfold open_workset. rewrite Hl. simpl.
  destruct (locksetmap a !! t_spid t) as [ws0|] eqn:E; simpl in Hd; subst; [|eauto].
  rewrite (proj2 (list_find_None _ _)) by done. eauto.
Qed.

(** [process_acquire] on a lock just taken for writing, outside a transaction. *)
Lemma process_acquire_free e c t a sm l ws :
  lockmap a !! t_lock_addr t = Some l -> lk_state l = LKST_WRLK -> t_new_state t = LKST_WRLK ->
  lk_spid_owner l = NO_SPID -> spi_cnt (get_acq l (t_spid t)) = 0 ->
  default 0 (e_osatxm e) = 0 -> logWorksets c = true ->
  default [] (locksetmap a !! t_spid t) = ws ->
  Forall (fun x => ~ x.1 = (t_lock_addr t, lk_generation l)) ws ->
  let cal := get_caller l (t_caller_ra t) in
  let spi := get_acq l (t_spid t) in
  let avw := update_cyc_avgs (e_switch e) (c_acq cal) (t_now_cyc t)
               (if req_cyc spi =? 0 then t_bp_cyc t else req_cyc spi) in
  exists nest, process_acquire e c t a sm = Some (put_lock (t_lock_addr t)
    (lk_with_opened (lk_workset_count l + 1) nest
      (set_acq (t_spid t) (mkSpidInfo 0 (t_now_cyc t) (t_caller_ra t) 1)
        (set_caller (t_caller_ra t) (caller_with_acq cal avw.1) (lk_with_owner (t_spid t) l))))
    (as_with_sets (<[t_spid t := ((t_lock_addr t, lk_generation l),
       new_WorkSet (t_lock_addr t) (t_spid t) (u32 (lk_generation l)) (u32 (lk_workset_count l)) (e_cpu e))
       :: ws]> (locksetmap a)) a), sm, avw.2).
Proof.
  intros Hl Hst Hnew Hown Hcnt Htx Hlog Hws Hf. cbn zeta. unfold process_acquire.
  rewrite Hl. cbn [mbind option_bind]. unfold enter_lock. rewrite Hst, Hown, Z.eqb_refl, Z.eqb_refl.
  unfold acquire_stats, account_acquire. rewrite Htx. cbn -[open_workset update_cyc_avgs].
  change (get_acq (lk_with_owner _ _)) with (get_acq l).
  change (get_caller (lk_with_owner _ _)) with (get_caller l).
  destruct (update_cyc_avgs _ _ _ _) as [av w] eqn:Eav. cbn -[open_workset]. rewrite Hlog.
  edestruct (open_workset_new e t (put_lock (t_lock_addr t)
    (set_acq (t_spid t) (lock_spid_info (get_acq l (t_spid t)) t)
       (set_caller (t_caller_ra t) (caller_with_acq (get_caller l (t_caller_ra t)) av)
          (lk_with_owner (t_spid t) l))) a)) as [nest Hopen];
    [apply lookup_insert_eq|exact Hws|done|].
  change (get_acq (set_caller _ _ _)) with (get_acq l). rewrite Hopen.
  cbn -[open_workset]. rewrite lookup_insert_eq. cbn. rewrite Hst. simpl.
  exists nest. rewrite app_nil_r. unfold lock_spid_info. rewrite Hnew, Hcnt. cbn.
  unfold put_lock, as_with_lockmap, as_with_sets. cbn. by rewrite insert_insert_eq.
Qed.

(** The entry a new critical section of the lock adds to the list of its process. *)
Definition critical_section (e : env) (addr : Z) (l : lock) : lock_it * WorkSet :=
  ((addr, lk_generation l),
   new_WorkSet addr (e_spid e) (u32 (lk_generation l)) (u32 (lk_workset_count l)) (e_cpu e)).

(** C4: acquiring a spinlock opens a critical section.  When the locking instruction
    of a free spinlock has completed outside a transaction and left the lock word
    taken, the module records the process as the owner and the write-locked state,
    stores when and from where it acquired the lock, adds the waiting time to that
    caller's acquire statistics, and opens exactly one workset for the process,
    in front of those it already has, under the lock's address, generation and
    running index; nothing is logged as closed and the other locks keep their
    records. *)
Theorem spin_acquire_opens e c x b a sm r l addr ws :
  ramap a !! bp_pc b = Some r -> lockmap a !! addr = Some l ->
  flag (ra_flags r) F_NOADDR = false -> flag (ra_flags r) F_EAX = false ->
  ra_lock_id r = L_SPIN -> get_lock_addr e r = addr -> x <> bp_pc b ->
  s32 (e_mem e addr) = 0 \/ 1 < s32 (e_mem e addr) <= 255 ->
  lk_state l = LKST_OPEN -> lk_spid_owner l = NO_SPID -> spi_cnt (get_acq l (e_spid e)) = 0 ->
  default 0 (e_osatxm e) = 0 -> logWorksets c = true ->
  default [] (locksetmap a !! e_spid e) = ws ->
  Forall (fun x => ~ x.1 = (addr, lk_generation l)) ws ->
  exists a' l' w, lock_transition e c x b a sm = Some (a', sm, w) /\ closed_ids w = [] /\
    lockmap a' !! addr = Some l' /\ lk_state l' = LKST_WRLK /\ lk_spid_owner l' = e_spid e /\
    get_acq l' (e_spid e) = mkSpidInfo 0 (e_now e) (bp_caller_ra b) 1 /\
    (let old := get_caller l (bp_caller_ra b) in
     let req := if req_cyc (get_acq l (e_spid e)) =? 0 then bp_cyc b else req_cyc (get_acq l (e_spid e)) in
     get_caller l' (bp_caller_ra b)
     = mkCaller (u64 (c_count old + 1)) (c_q_count old) (c_contended old) (c_useless old) (c_hold old)
         (update_cyc_avgs (e_switch e) (c_acq old) (e_now e) req).1) /\
    lk_workset_count l' = lk_workset_count l + 1 /\ lk_generation l' = lk_generation l /\
    locksetmap a' = <[e_spid e := critical_section e addr l :: ws]> (locksetmap a) /\
    (forall addr', addr' <> addr -> lockmap a' !! addr' = lockmap a !! addr').
Proof.
  intros Hr Hl Hna Heax Hid Hga Hx Hv Hst Hown Hcnt Htx Hlog Hws Hf.
  set (v := s32 (e_mem e addr)) in *. set (t := attempt e b r addr v l).
  destruct (spin_held_state e t (lk_state l)) as [q Hu]; [done|done|].
  edestruct (lock_transition_run e c x b a sm r l addr) as (rl & ru & Hrun);
    [done|done|done|done|by rewrite Hid|done|done|exact Hu|by unfold valid_state; auto|].
  fold v in Hrun. fold t in Hrun. rewrite Hrun. clear Hrun.
  destruct (counted_spec e b v l) as (Hc & Ha & Ho & _ & _ & _ & _ & Hg & Hw).
  set (lc := counted e b v l) in *.
  unfold process_transition. simpl. rewrite lookup_insert_eq, Hst. simpl.
  clearbody lc. edestruct (process_acquire_free e c (t_with_read (t_with_new_state t LKST_WRLK) rl ru)
    (put_lock addr (lk_with_state LKST_WRLK q lc) a) sm (lk_with_state LKST_WRLK q lc) ws) as [nest Hp];
    [apply lookup_insert_eq|done|done|etransitivity; [exact Ho|done]| |done|done|done| |].
  { change (spi_cnt (get_acq lc (e_spid e)) = 0). by rewrite Ha. }
  { simpl. by rewrite Hg. }
  rewrite Hp. clear Hp. simpl. rewrite Hg, Hw.
  change (get_acq (lk_with_state _ _ _)) with (get_acq lc).
  change (get_caller (lk_with_state _ _ _)) with (get_caller lc).
  rewrite (Ha (e_spid e)), (Hc (bp_caller_ra b)), decide_True by done.
  destruct (update_cyc_avgs _ _ _ _) as [av w] eqn:Eav.
  eexists _, _, _. split; [done|]. simpl.
  apply update_cyc_avgs_quiet in Eav. split; [done|].
  split; [apply lookup_insert_eq|]. split_and!; try done.
  - etransitivity; [apply get_acq_set|]. by rewrite decide_True.
  - etransitivity; [apply get_caller_set|]. by rewrite decide_True.
  - intros addr' Hne. by rewrite !lookup_insert_ne.
Qed.

(** ** Release *)

(** The list of open worksets of a process that has exactly one for the lock. *)
Definition holds_one (addr gen : Z) (pre : workset_list) (w : WorkSet) (post : workset_list) : Prop :=
  lock_addr (ws_id w) = addr /\
  Forall (fun x => x.1 <> (addr, gen) /\ lock_addr (ws_id x.2) <> addr) (pre ++ post).

Definition add_contended (ids : list WorksetID) (w : WorkSet) : WorkSet :=
  ws_with_contended w (ws_contended w ++ ids).

Lemma holds_one_split addr gen pre w post :
  holds_one addr gen pre w post ->
  Forall (fun x => x.1 <> (addr, gen) /\ lock_addr (ws_id x.2) <> addr) pre /\
  Forall (fun x => x.1 <> (addr, gen) /\ lock_addr (ws_id x.2) <> addr) post.
Proof. intros [_ ?%Forall_app]. done. Qed.

Lemma update_first_ws_split addr gen f pre w post :
  holds_one addr gen pre w post ->
  update_first_ws addr f (pre ++ ((addr, gen), w) :: post) = Some (pre ++ ((addr, gen), f w) :: post).
Proof.
  intros H. pose proof H as [Hw _]. apply holds_one_split in H as [Hpre _].
  induction Hpre as [|[it w'] pre [_ Hne] _ IH]; simpl in *; [by rewrite Hw, Z.eqb_refl|].
  rewrite (proj2 (Z.eqb_neq _ _)) by done. by rewrite IH.
Qed.

Lemma close_first_split addr gen pre w post :
  holds_one addr gen pre w post -> ws_cnt w <= 1 ->
  close_first (addr, gen) (pre ++ ((addr, gen), w) :: post)
  = (Some (ws_with_cnt w (ws_cnt w - 1)), pre ++ post, true).
Proof.
  intros H Hc. apply holds_one_split in H as [Hpre _].
  induction Hpre as [|[it w'] pre [Hne _] _ IH]; simpl in *.
  - rewrite bool_decide_eq_true_2 by done. by rewrite (proj2 (Z.leb_le _ _)) by lia.
  - rewrite bool_decide_eq_false_2 by done. by rewrite IH.
Qed.

Lemma holds_one_count addr gen pre w post :
  holds_one addr gen pre w post ->
  length (filter (fun x => lock_addr (ws_id x.2) = addr) (pre ++ ((addr, gen), w) :: post)) = 1%nat.
Proof.
  intros H. pose proof H as [Hw _]. apply holds_one_split in H as [Hpre Hpost].
  assert (Hz : forall l : workset_list, Forall (fun x => x.1 <> (addr, gen) /\ lock_addr (ws_id x.2) <> addr) l ->
    filter (fun x => lock_addr (ws_id x.2) = addr) l = []).
  { induction 1 as [|x l [_ ?] ? IH]; [done|]. by rewrite filter_cons_False. }
  rewrite filter_app, filter_cons_True by done. by rewrite !Hz.
Qed.

Lemma holds_one_contended addr gen pre w post ids :
  holds_one addr gen pre w post -> holds_one addr gen pre (add_contended ids w) post.
Proof. done. Qed.

Lemma hand_over_held e t ca l a pre w post :
  lockmap a !! t_lock_addr t = Some l -> get_lsit (e_spid e) (lk_name l) (t_spid_owner t) = e_spid e ->
  locksetmap a !! e_spid e = Some (pre ++ ((t_lock_addr t, lk_generation l), w) :: post) ->
  holds_one (t_lock_addr t) (lk_generation l) pre w post ->
  let cal := get_caller l ca in
  exists l', hand_over_contended e t ca l a
    = (put_lock (t_lock_addr t) l'
         (as_with_sets (<[e_spid e := pre ++ ((t_lock_addr t, lk_generation l),
            add_contended (c_contended cal) w) :: post]> (locksetmap a)) a), true, []) /\
    lk_state l' = lk_state l /\ lk_spid_owner l' = lk_spid_owner l /\ lk_acq l' = lk_acq l /\
    lk_generation l' = lk_generation l /\ lk_name l' = lk_name l /\
    get_caller l' ca = caller_with_contended cal [] (c_q_count cal).
Proof.
  intros Hl Hk Hs Hone. cbn zeta. unfold hand_over_contended. rewrite Hk, Hs.
  destruct (c_contended (get_caller l ca)) as [|i ids] eqn:Ec.
  - exists l. split_and!; try done.
    + unfold add_contended, ws_with_contended. rewrite app_nil_r.
      unfold put_lock, as_with_sets, as_with_lockmap. simpl. destruct w. simpl in *.
      rewrite !insert_id by done. by destruct a.
    + destruct (get_caller l ca). simpl in *. by subst.
  - erewrite holds_one_count, update_first_ws_split by done. simpl.
    eexists. split; [done|]. split_and!; try done. rewrite get_caller_set. by rewrite decide_True.
Qed.

Lemma close_workset_held c t a l pre w post :
  lockmap a !! t_lock_addr t = Some l -> get_lsit (t_spid t) (lk_name l) (t_spid_owner t) = t_spid t ->
  locksetmap a !! t_spid t = Some (pre ++ ((t_lock_addr t, lk_generation l), w) :: post) ->
  holds_one (t_lock_addr t) (lk_generation l) pre w post -> ws_cnt w <= 1 ->
  ad_count a < AS_COUNT -> logWorksets c = true -> afterBoot c = true ->
  close_workset c t a
  = Some (as_with_detector (asym_detector a) (ad_count a + 1)
            (as_with_sets (<[t_spid t := pre ++ post]> (locksetmap a)) a),
          [WS_CLOSE (ws_with_cnt w (ws_cnt w - 1))]).
Proof.
  intros Hl Hk Hs Hone Hcnt Had Hlog Hboot. unfold close_workset. rewrite Hl. cbn [mbind option_bind].
  rewrite Hk, Hs. erewrite close_first_split by done. rewrite Hlog, Hboot. cbn -[AS_COUNT Z.ltb].
  by rewrite (proj2 (Z.ltb_ge _ _)) by lia.
Qed.

Lemma elapsed_normal sw now start :
  0 < start <= now -> now < 2 ^ 63 -> elapsed sw now start = (now - start, []).
Proof.
  intros H1 H2. unfold elapsed. rewrite (proj2 (Z.eqb_neq _ _)), s64_small by lia.
  by rewrite (proj2 (Z.ltb_ge _ _)) by lia.
Qed.

(** [process_unlock] for the process that holds the lock. *)
Lemma process_unlock_held e c t a l pre w post start ca req :
  lockmap a !! t_lock_addr t = Some l -> t_spid t = e_spid e ->
  t_old_state t = LKST_WRLK -> lk_state l = LKST_OPEN ->
  get_acq l (t_spid t) = mkSpidInfo req start ca 1 -> ca <> 0 ->
  0 < start <= t_now_cyc t -> t_now_cyc t < 2 ^ 63 ->
  lk_name l <> "runqueue_t->lock" -> ad_count a < AS_COUNT ->
  logWorksets c = true -> afterBoot c = true ->
  locksetmap a !! e_spid e = Some (pre ++ ((t_lock_addr t, lk_generation l), w) :: post) ->
  holds_one (t_lock_addr t) (lk_generation l) pre w post -> ws_cnt w <= 1 ->
  let cal := get_caller l ca in
  exists a' l', process_unlock e c t a
    = Some (a', [WS_CLOSE (ws_with_cnt (add_contended (c_contended cal) w) (ws_cnt w - 1))]) /\
    lockmap a' = <[t_lock_addr t := l']> (lockmap a) /\
    locksetmap a' = <[e_spid e := pre ++ post]> (locksetmap a) /\
    lk_state l' = LKST_OPEN /\ lk_spid_owner l' = NO_SPID /\
    get_acq l' (e_spid e) = mkSpidInfo req 0 0 0 /\
    get_caller l' ca
    = mkCaller (c_count cal) (c_q_count cal) [] (c_useless cal)
        (update_avgs (c_hold cal) (t_now_cyc t - start) 1000) (c_acq cal).
Proof.
  intros Hl Hsp Hold Hst Hacq Hca Hstart Hnow Hname Had Hlog Hboot Hs Hone Hcnt. cbn zeta.
  assert (Hk : forall o, get_lsit (e_spid e) (lk_name l) o = e_spid e)
    by (intros; unfold get_lsit; by rewrite bool_decide_eq_false_2).
  unfold process_unlock. rewrite Hl. cbn [mbind option_bind].
  unfold unlock_readers. rewrite Hold. cbn [Z.eqb LKST_WRLK LKST_RLK Pos.eqb negb].
  unfold find_acquirer. rewrite Hacq. cbn [acq_ra acq_cyc].
  rewrite (proj2 (Z.eqb_neq _ _) Hca). cbn [negb]. rewrite Z.eqb_refl, Hst.
  unfold update_cyc_avgs. rewrite elapsed_normal by done. cbn -[hand_over_contended close_workset NO_SPID].
  rewrite Hst. cbn -[hand_over_contended close_workset NO_SPID].
  change (get_acq (set_caller _ _ _)) with (get_acq l). rewrite Hacq.
  change (unlock_spid_info _) with (mkSpidInfo req 0 0 0, @nil log_event).
  cbn -[hand_over_contended close_workset NO_SPID].
  match goal with |- context [hand_over_contended e t ca ?x] => set (l1 := x) end.
  destruct (hand_over_held e t ca l1 (put_lock (t_lock_addr t) l1 a) pre w post)
    as (l2 & -> & Hst2 & Ho2 & Ha2 & Hg2 & Hn2 & Hc2);
    [apply lookup_insert_eq|by apply Hk|done|done|].
  cbn -[close_workset NO_SPID]. rewrite Hlog.
  assert (Hcal1 : get_caller l1 ca = caller_with_hold (get_caller l ca)
    (update_avgs (c_hold (get_caller l ca)) (t_now_cyc t - start) 1000)).
  { subst l1. etransitivity; [apply get_caller_set|]. by rewrite decide_True. }
  rewrite Hcal1 in Hc2 |- *. rewrite (close_workset_held c t _ l2 pre (add_contended (c_contended (get_caller l ca)) w) post);
    [|apply lookup_insert_eq|rewrite Hn2, Hsp; by apply Hk|
     simpl; rewrite Hsp, Hg2; apply lookup_insert_eq|by rewrite Hg2|done..].
  simpl. eexists _, l2. split; [done|]. simpl. rewrite insert_insert_eq, Hsp, insert_insert_eq.
  split_and!; try done.
  - by rewrite Hst2.
  - unfold get_acq. rewrite Ha2, <- Hsp. etransitivity; [apply get_acq_set|]. by rewrite decide_True.
Qed.

(** Counting a use leaves the rest of every caller's record alone. *)
Lemma counted_caller e b v l ca :
  let c := get_caller (counted e b v l) ca in
  let c0 := get_caller l ca in
  c_contended c = c_contended c0 /\ c_q_count c = c_q_count c0 /\ c_hold c = c_hold c0.
Proof.
  destruct (counted_spec e b v l) as (Hc & _). cbn zeta. rewrite Hc. by case_decide; subst.
Qed.

(** C5: releasing a spinlock closes its critical section.  When the holder's unlock
    instruction has completed and left the lock word free, the module clears the
    owner, returns the lock to the open state, adds exactly the cycles between the
    acquire and now to the hold statistics of the call site that acquired it, moves
    the worksets that site kept waiting to the workset being closed, removes that
    workset from the process's list (wherever it stands in it) and writes it to the
    log, and nothing else. *)
Theorem spin_release_closes e c x b a sm r l addr pre w post start ca req :
  ramap a !! bp_pc b = Some r -> lockmap a !! addr = Some l ->
  flag (ra_flags r) F_NOADDR = false -> flag (ra_flags r) F_EAX = false ->
  ra_lock_id r = L_SPIN -> get_lock_addr e r = addr -> x <> bp_pc b ->
  s32 (e_mem e addr) = 1 -> lk_state l = LKST_WRLK ->
  get_acq l (e_spid e) = mkSpidInfo req start ca 1 -> ca <> 0 ->
  0 < start <= e_now e -> e_now e < 2 ^ 63 ->
  lk_name l <> "runqueue_t->lock" -> ad_count a < AS_COUNT ->
  logWorksets c = true -> afterBoot c = true ->
  locksetmap a !! e_spid e = Some (pre ++ ((addr, lk_generation l), w) :: post) ->
  holds_one addr (lk_generation l) pre w post -> ws_cnt w <= 1 ->
  exists a' l', lock_transition e c x b a sm
    = Some (a', sm, [WS_CLOSE (ws_with_cnt (add_contended (c_contended (get_caller l ca)) w) (ws_cnt w - 1))]) /\
    lockmap a' = <[addr := l']> (lockmap a) /\
    locksetmap a' = <[e_spid e := pre ++ post]> (locksetmap a) /\
    lk_state l' = LKST_OPEN /\ lk_spid_owner l' = NO_SPID /\
    get_acq l' (e_spid e) = mkSpidInfo req 0 0 0 /\
    c_hold (get_caller l' ca) = update_avgs (c_hold (get_caller l ca)) (e_now e - start) 1000 /\
    c_contended (get_caller l' ca) = [] /\ c_q_count (get_caller l' ca) = c_q_count (get_caller l ca).
Proof.
  intros Hr Hl Hna Heax Hid Hga Hx Hv Hst Hacq Hca Hstart Hnow Hname Had Hlog Hboot Hs Hone Hcnt.
  set (v := s32 (e_mem e addr)) in *. set (t := attempt e b r addr v l).
  edestruct (lock_transition_run e c x b a sm r l addr) as (rl & ru & Hrun);
    [done|done|done|done|by rewrite Hid|done|done|by apply spin_free_state|by unfold valid_state; auto|].
  fold v in Hrun. fold t in Hrun. rewrite Hrun. clear Hrun.
  destruct (counted_spec e b v l) as (_ & Ha & _ & Hn & _ & _ & _ & Hg & _).
  destruct (counted_caller e b v l ca) as (Hcc & Hcq & Hch).
  set (lc := counted e b v l) in *. clearbody lc.
  unfold process_transition. simpl. rewrite lookup_insert_eq, Hst. cbn -[process_unlock].
  destruct (process_unlock_held e c (t_with_read (t_with_new_state t LKST_OPEN) rl ru)
    (put_lock addr (lk_with_state LKST_OPEN false lc) a) (lk_with_state LKST_OPEN false lc)
    pre w post start ca req) as (a' & l' & Hp & Hlm & Hsm & Hst' & Ho' & Ha' & Hc');
    try done; [apply lookup_insert_eq|etransitivity; [apply Ha|done]|by rewrite <- Hn in Hname| | |].
  1: simpl; by rewrite Hg. 1: simpl; by rewrite Hg.
  rewrite Hp. simpl. change (get_caller (lk_with_state _ _ _)) with (get_caller lc) in *.
  rewrite Hcc. exists a', l'. rewrite Hlm, Hsm, Hc'. simpl. rewrite insert_insert_eq, Hch, Hcq.
  by split_and!.
Qed.

(** ** Waiting *)

(** Attempts of a process at a lock: the environment, the pending exception address
    and the breakpoint record of each. *)
Fixpoint spin (c : cfg) (tries : list (env * Z * bp_rec)) (a : as_data) (sm : spcl_map)
    : option (as_data * spcl_map * list log_event) :=
  match tries with
  | [] => Some (a, sm, [])
  | (e, x, b) :: rest =>
      '(a, sm, w) ← lock_transition e c x b a sm;
      '(a, sm, w') ← spin c rest a sm;
      Some (a, sm, w ++ w')
  end.

(** An attempt of [spid] at the spinlock at [addr], outside a transaction and not a
    trylock, that found the lock word taken. *)
Definition failed_try (spid addr : Z) (m : gmap Z ra) (tr : env * Z * bp_rec) : Prop :=
  let '(e, x, b) := tr in
  e_spid e = spid /\ x <> bp_pc b /\ default 0 (e_osatxm e) = 0 /\ bp_cyc b <> 0 /\
  (s32 (e_mem e addr) = 0 \/ 1 < s32 (e_mem e addr) <= 255) /\
  exists r, m !! bp_pc b = Some r /\ ra_lock_id r = L_SPIN /\ get_lock_addr e r = addr /\
    flag (ra_flags r) F_NOADDR = false /\ flag (ra_flags r) F_EAX = false /\
    flag (ra_flags r) F_TRYLOCK = false.

Lemma failed_try_run c spid addr a sm l e x b :
  lockmap a !! addr = Some l -> lk_state l = LKST_WRLK -> failed_try spid addr (ramap a) (e, x, b) ->
  let v := s32 (e_mem e addr) in
  exists r q rl ru, flag (ra_flags r) F_TRYLOCK = false /\
    let t := t_with_read (t_with_new_state (attempt e b r addr v l) LKST_WRLK) rl ru in
    let l' := lk_with_state LKST_WRLK q (counted e b v l) in
    lock_transition e c x b a sm
    = ('(a', w) ← start_waiting c t (fun spi => negb (acq_ra spi =? 0) && negb q) "XXXw acq_ra "
         (put_lock addr l' a);
       Some (a', sm, w)).
Proof.
  intros Hl Hst (Hsp & Hx & Htx & _ & Hv & r & Hr & Hid & Hga & Hna & Heax & Htry). cbn zeta.
  set (v := s32 (e_mem e addr)) in *. set (t := attempt e b r addr v l).
  destruct (spin_held_state e t (lk_state l)) as [q Hu]; [done|done|].
  edestruct (lock_transition_run e c x b a sm r l addr) as (rl & ru & Hrun);
    [done|done|done|done|by rewrite Hid|done|done|exact Hu|by unfold valid_state; auto|].
  exists r, q, rl, ru. split; [done|]. rewrite Hrun. fold v t.
  set (lc := counted e b v l). clearbody lc. unfold process_transition. simpl.
  rewrite lookup_insert_eq, Hst. cbn -[process_locked_out start_waiting].
  unfold process_locked_out. simpl. rewrite lookup_insert_eq, Htx. cbn -[start_waiting].
  by destruct (start_waiting _ _ _ _ _) as [[? ?]|].
Qed.

(** Recording contention against a lock whose owner has one workset open for it. *)
Lemma contend_other t l n ws :
  Forall (fun x => lock_addr (ws_id x.2) <> t_lock_addr t) ws ->
  foldl (contend_step t) (l, n, []) ws = (l, n, []).
Proof.
  induction 1 as [|x ws Hne _ IH]; [done|]. cbn [foldl]. unfold contend_step at 2.
  by rewrite (proj2 (Z.eqb_neq _ _)) by done.
Qed.

Lemma existsb_not_elem i (l : list WorksetID) : i ∉ l -> existsb (fun j => WorksetID_eqb j i) l = false.
Proof.
  intros Hi. apply not_true_iff_false. intros (j & Hj & Heq)%existsb_exists. apply Hi.
  unfold WorksetID_eqb in Heq. destruct i, j. simpl in *. zify_bool. subst. by apply list_elem_of_In.
Qed.

Lemma contend_held t l gen pre w post :
  holds_one (t_lock_addr t) gen pre w post ->
  let cal := get_caller l (t_caller_ra t) in
  ws_id w ∉ c_contended cal ->
  foldl (contend_step t) (l, 0, []) (pre ++ ((t_lock_addr t, gen), w) :: post)
  = (set_caller (t_caller_ra t) (caller_with_contended cal (c_contended cal ++ [ws_id w])
       (u64 (c_q_count cal + 1))) l, 1, []).
Proof.
  intros H. pose proof H as [Hw _]. apply holds_one_split in H as [Hpre Hpost]. cbn zeta. intros Hni.
  rewrite foldl_app, contend_other by (eapply Forall_impl; [exact Hpre|naive_solver]). cbn [foldl].
  unfold contend_step at 2. cbn [snd]. rewrite Hw, Z.eqb_refl, existsb_not_elem by done.
  simpl. apply contend_other. eapply Forall_impl; [exact Hpost|naive_solver].
Qed.

(** The address space whose worksets [_record_contention] searches. *)
Definition contended_as (c : cfg) (l : lock) : option as_data :=
  find_as c (if lk_addr l <? 0xc0000000 then lk_spid_owner l else 0).

Lemma start_waiting_first c t warn msg a l ao pre w post :
  lockmap a !! t_lock_addr t = Some l -> flag (t_flags t) F_TRYLOCK = false ->
  lk_state l = LKST_WRLK -> req_cyc (get_acq l (t_spid t)) = 0 -> warn (get_acq l (t_spid t)) = false ->
  logWorksets c = true -> contended_as c l = Some ao ->
  locksetmap ao !! lk_spid_owner l = Some (pre ++ ((t_lock_addr t, lk_generation l), w) :: post) ->
  holds_one (t_lock_addr t) (lk_generation l) pre w post ->
  let cal := get_caller l (t_caller_ra t) in
  let spi := get_acq l (t_spid t) in
  ws_id w ∉ c_contended cal ->
  start_waiting c t warn msg a = Some (put_lock (t_lock_addr t)
    (set_caller (t_caller_ra t) (caller_with_contended cal (c_contended cal ++ [ws_id w])
       (u64 (c_q_count cal + 1)))
      (set_acq (t_spid t) (mkSpidInfo (t_bp_cyc t) (acq_cyc spi) (acq_ra spi) (spi_cnt spi)) l)) a, []).
Proof.
  intros Hl Htry Hst Hreq Hwarn Hlog Has Hs Hone. cbn zeta. intros Hni.
  unfold start_waiting. rewrite Hl. cbn [mbind option_bind]. rewrite Htry, Hreq. cbn [negb andb Z.eqb].
  unfold record_contention. rewrite Hlog. cbn -[foldl]. rewrite Hst, andb_false_r.
  unfold _record_contention, contended_as in *. cbn -[foldl Z.ltb]. rewrite Has. cbn -[foldl].
  rewrite Hs. erewrite contend_held; [|done|done]. simpl. by rewrite Hwarn.
Qed.

(** Further attempts: the process is on record as waiting. *)
Lemma spin_again c spid addr tries : forall a sm l,
  lockmap a !! addr = Some l -> lk_state l = LKST_WRLK -> req_cyc (get_acq l spid) <> 0 ->
  Forall (failed_try spid addr (ramap a)) tries ->
  exists a' l', spin c tries a sm = Some (a', sm, []) /\ lockmap a' = <[addr := l']> (lockmap a) /\
    locksetmap a' = locksetmap a /\ lk_state l' = LKST_WRLK /\ lk_spid_owner l' = lk_spid_owner l /\
    get_acq l' spid = get_acq l spid /\
    forall ca, c_q_count (get_caller l' ca) = c_q_count (get_caller l ca) /\
               c_contended (get_caller l' ca) = c_contended (get_caller l ca).
Proof.
  induction tries as [|[[e x] b] tries IH]; intros a sm l Hl Hst Hreq Hf.
  { exists a, l. by rewrite insert_id. }
  apply Forall_cons in Hf as [Htry Hf]. cbn [spin].
  destruct (failed_try_run c spid addr a sm l e x b Hl Hst Htry) as (r & q & rl & ru & Hft & Hrun).
  rewrite Hrun. clear Hrun. destruct Htry as (Hsp & _).
  destruct (counted_spec e b (s32 (e_mem e addr)) l) as (_ & Ha & Ho & _).
  pose proof (counted_caller e b (s32 (e_mem e addr)) l) as Hcal.
  set (lc := counted e b _ l) in *. clearbody lc.
  unfold start_waiting. simpl. rewrite lookup_insert_eq. simpl.
  change (get_acq (lk_with_state _ _ _)) with (get_acq lc).
  rewrite (Ha (e_spid e)), Hsp, (proj2 (Z.eqb_neq _ _) Hreq), andb_false_r. simpl.
  destruct (IH (put_lock addr (lk_with_state LKST_WRLK q lc) a) sm (lk_with_state LKST_WRLK q lc))
    as (a' & l' & -> & Hlm & Hsm & Hst' & Ho' & Ha' & Hc'); [apply lookup_insert_eq|done| |done|].
  { change (req_cyc (get_acq lc spid) <> 0). by rewrite Ha. }
  simpl. exists a', l'. rewrite Hlm. simpl. rewrite insert_insert_eq. split_and!; try done.
  - by rewrite Ho'.
  - rewrite Ha'. etransitivity; [|apply Ha]. done.
  - intros ca. destruct (Hc' ca) as [-> ->]. change (get_caller (lk_with_state _ _ _)) with (get_caller lc).
    by destruct (Hcal ca) as (-> & -> & _).
Qed.

(** Contention is counted once per wait.  A process that finds a spinlock taken
    and keeps retrying, any number of times, is charged one queueing event: the call
    site of its first attempt gets one more queue count and the identifier of the
    owner's critical section, and the request time is that of the first attempt; the
    lock stays write-locked with the same owner, the open worksets are untouched and
    nothing is logged. *)
Theorem spin_contention_once c spid addr e x b rest a sm l ao pre w post :
  lockmap a !! addr = Some l -> lk_state l = LKST_WRLK ->
  get_acq l spid = mkSpidInfo 0 0 0 0 -> logWorksets c = true ->
  contended_as c l = Some ao ->
  locksetmap ao !! lk_spid_owner l = Some (pre ++ ((addr, lk_generation l), w) :: post) ->
  holds_one addr (lk_generation l) pre w post ->
  let ca := bp_caller_ra b in
  ws_id w ∉ c_contended (get_caller l ca) ->
  Forall (failed_try spid addr (ramap a)) ((e, x, b) :: rest) ->
  exists a' l', spin c ((e, x, b) :: rest) a sm = Some (a', sm, []) /\
    lockmap a' = <[addr := l']> (lockmap a) /\ locksetmap a' = locksetmap a /\
    lk_state l' = LKST_WRLK /\ lk_spid_owner l' = lk_spid_owner l /\
    get_acq l' spid = mkSpidInfo (bp_cyc b) 0 0 0 /\
    c_q_count (get_caller l' ca) = u64 (c_q_count (get_caller l ca) + 1) /\
    c_contended (get_caller l' ca) = c_contended (get_caller l ca) ++ [ws_id w] /\
    forall ca', ca' <> ca -> c_q_count (get_caller l' ca') = c_q_count (get_caller l ca').
Proof.
  intros Hl Hst Hacq Hlog Has Hs Hone. cbn zeta. intros Hni [Htry Hf]%Forall_cons. cbn [spin].
  destruct (failed_try_run c spid addr a sm l e x b Hl Hst Htry) as (r & q & rl & ru & Hft & Hrun).
  rewrite Hrun. clear Hrun. destruct Htry as (Hsp & _ & _ & Hbp & _).
  destruct (counted_spec e b (s32 (e_mem e addr)) l) as (_ & Ha & Ho & _ & _ & Had & _ & Hg & _).
  pose proof (counted_caller e b (s32 (e_mem e addr)) l) as Hcal.
  set (lc := counted e b _ l) in *. clearbody lc. set (lw := lk_with_state LKST_WRLK q lc).
  assert (Hal : forall sp, get_acq lw sp = get_acq l sp) by (intros; apply Ha).
  erewrite (start_waiting_first c _ _ _ _ lw ao pre w post);
    [|apply lookup_insert_eq|done|done|simpl; by rewrite Hal, Hsp, Hacq|simpl; by rewrite Hal, Hsp, Hacq
     |done| | | |].
  2: { unfold contended_as in *. simpl. by rewrite Had, Ho. }
  2: { simpl. by rewrite Ho, Hg. }
  2: { simpl. by rewrite Hg. }
  2: { simpl. destruct (Hcal (bp_caller_ra b)) as [Hc _]. by rewrite <- Hc in Hni. }
  simpl. set (l1 := set_caller _ _ _).
  assert (Ha1 : get_acq l1 spid = mkSpidInfo (bp_cyc b) 0 0 0).
  { subst l1. etransitivity; [apply get_acq_set|]. rewrite decide_True by done. by rewrite Hal, Hsp, Hacq. }
  destruct (spin_again c spid addr rest (put_lock addr l1 (put_lock addr lw a)) sm l1)
    as (a' & l' & -> & Hlm & Hsm & Hst' & Ho' & Ha' & Hc'); [apply lookup_insert_eq|done|by rewrite Ha1|done|].
  simpl. exists a', l'. rewrite Hlm. simpl. rewrite !insert_insert_eq.
  destruct (Hcal (bp_caller_ra b)) as (Hcc & Hcq & _). rewrite <- Hcc, <- Hcq.
  destruct (Hc' (bp_caller_ra b)) as [-> ->].
  split_and!; try done; [by rewrite Ho'|by rewrite Ha'|..].
  - subst l1. rewrite get_caller_set, decide_True by done. done.
  - subst l1. rewrite get_caller_set, decide_True by done. done.
  - intros ca' Hne. destruct (Hc' ca') as [-> _]. subst l1. rewrite get_caller_set, decide_False by done.
    by destruct (Hcal ca') as (_ & <- & _).
Qed.

(** ** Concrete runs *)

Module Run.

Definition lock_at : Z := 0xc0300000.
Definition pc_lock : Z := 0xc0100000.
Definition pc_unlock : Z := 0xc0100010.

Definition ras : gmap Z ra :=
  <[pc_lock := mkRa 0 (Some "eax") L_SPIN F_LOCK "lock"]>
  (<[pc_unlock := mkRa 0 (Some "eax") L_SPIN F_UNLOCK "unlock"]> ∅).

(** Process [spid] sees the value [v] in the lock word at time [now]. *)
Definition at_lock (spid now v : Z) : env :=
  mkEnv spid 0 now 0 0 0 (fun _ => lock_at) (fun _ => v) None 1000.

Definition fresh_lock : lock :=
  mkLock LKST_OPEN 1 false L_SPIN lock_at 0 0 NO_SPID ∅ (new_WorkSet lock_at 0 0 0xffffffff 0) ∅ ∅
    "dcache_lock" zero_av.

Definition start : as_data :=
  mkAs ras (<[lock_at := fresh_lock]> ∅) ∅ (new_WorkSet 0 0 0 0xffffffff 0) 0 1.

Definition conf (a : as_data) : cfg := mkCfg true true (fun _ => Some a).

Definition bp (pc ca cyc v : Z) : bp_rec := mkBp pc ca cyc v.

(** Process 7 takes the lock at cycle 100. *)
Definition taken : option (as_data * spcl_map * list log_event) :=
  lock_transition (at_lock 7 100 0) (conf start) 0 (bp pc_lock 0xc0200000 90 1) start ∅.

Definition held : as_data := match taken with Some (a, _, _) => a | None => start end.

Definition held_lock : lock := default fresh_lock (lockmap held !! lock_at).

(** Process 7 releases it at cycle 160. *)
Definition released : option (as_data * spcl_map * list log_event) :=
  lock_transition (at_lock 7 160 1) (conf held) 0 (bp pc_unlock 0xc0200040 159 0) held ∅.

Definition done_as : as_data := match released with Some (a, _, _) => a | None => start end.

Definition cs : WorkSet := new_WorkSet lock_at 7 0 0 0.

End Run.

Lemma spin_acquire_opens_witness : exists a' l' w,
  Run.taken = Some (a', ∅, w) /\ lockmap a' !! Run.lock_at = Some l' /\ lk_spid_owner l' = 7.
Proof.
  pose proof (spin_acquire_opens (Run.at_lock 7 100 0) (Run.conf Run.start) 0
    (Run.bp Run.pc_lock 0xc0200000 90 1) Run.start ∅ (mkRa 0 (Some "eax") L_SPIN F_LOCK "lock")
    Run.fresh_lock Run.lock_at [] eq_refl eq_refl eq_refl eq_refl eq_refl eq_refl
    ltac:(discriminate) (or_introl eq_refl) eq_refl eq_refl eq_refl eq_refl eq_refl eq_refl
    (List.Forall_nil _)) as (a' & l' & w & H & _ & Hl & _ & Ho & _).
  exists a', l', w. split_and!; assumption.
Defined.

Lemma held_facts :
  lockmap Run.held !! Run.lock_at = Some Run.held_lock /\ lk_state Run.held_lock = LKST_WRLK /\
  get_acq Run.held_lock 7 = mkSpidInfo 0 100 0xc0200000 1 /\
  get_acq Run.held_lock 8 = mkSpidInfo 0 0 0 0 /\
  lk_name Run.held_lock <> "runqueue_t->lock" /\ ad_count Run.held < AS_COUNT /\
  locksetmap Run.held !! 7 = Some ([] ++ ((Run.lock_at, lk_generation Run.held_lock), Run.cs) :: []) /\
  lk_generation Run.held_lock = 0 /\ ramap Run.held = Run.ras /\
  lk_spid_owner Run.held_lock = 7 /\ lk_addr Run.held_lock = Run.lock_at /\
  (forall ca, c_contended (get_caller Run.held_lock ca) = []).
Proof.
  split_and!; try (vm_compute; reflexivity); [vm_compute; discriminate|].
  assert (H : Run.held_lock = lk_with_callers (<[0xc0200000 := get_caller Run.held_lock 0xc0200000]> ∅) Run.held_lock)
    by (vm_compute; reflexivity).
  intros ca. rewrite H. unfold get_caller at 1. simpl. rewrite lookup_insert. by case_decide.
Qed.

Lemma spin_release_closes_witness : exists a' l',
  Run.released = Some (a', ∅, [WS_CLOSE (ws_with_cnt Run.cs (-1))]) /\
  lockmap a' = <[Run.lock_at := l']> (lockmap Run.held) /\ lk_spid_owner l' = NO_SPID.
Proof.
  destruct held_facts as (Hl & Hst & Hacq & _ & Hn & Had & Hs & Hg & Hr & _ & _ & Hc).
  assert (Hone : holds_one Run.lock_at (lk_generation Run.held_lock) [] Run.cs []) by (split; [reflexivity|constructor]).
  assert (Hra : ramap Run.held !! Run.pc_unlock = Some (mkRa 0 (Some "eax") L_SPIN F_UNLOCK "unlock"))
    by (rewrite Hr; reflexivity).
  pose proof (spin_release_closes (Run.at_lock 7 160 1) (Run.conf Run.held) 0
    (Run.bp Run.pc_unlock 0xc0200040 159 0) Run.held ∅ (mkRa 0 (Some "eax") L_SPIN F_UNLOCK "unlock")
    Run.held_lock Run.lock_at [] Run.cs [] 100 0xc0200000 0 Hra Hl eq_refl eq_refl eq_refl eq_refl
    ltac:(discriminate) eq_refl Hst Hacq ltac:(discriminate) ltac:(simpl; lia) ltac:(simpl; lia)
    Hn Had eq_refl eq_refl Hs Hone ltac:(simpl; lia)) as (a' & l' & H & Hlm & _ & _ & Ho & _).
  rewrite Hc in H. exists a', l'. split_and!; [exact H|exact Hlm|exact Ho].
Defined.

(** Process 8 tries at cycles 110 and 120 and again at 130, from another site. *)
Definition three_tries : list (env * Z * bp_rec) :=
  [(Run.at_lock 8 110 255, 0, Run.bp Run.pc_lock 0xc0200100 109 0);
   (Run.at_lock 8 120 254, 0, Run.bp Run.pc_lock 0xc0200100 119 0);
   (Run.at_lock 8 130 254, 0, Run.bp Run.pc_lock 0xc0200200 129 0)].

Lemma three_tries_fail : Forall (failed_try 8 Run.lock_at Run.ras) three_tries.
Proof.
  repeat constructor; try discriminate; try (right; vm_compute; done);
    exists (mkRa 0 (Some "eax") L_SPIN F_LOCK "lock"); split_and!; vm_compute; reflexivity.
Qed.

Lemma spin_contention_once_witness : exists a' l',
  spin (Run.conf Run.held) three_tries Run.held ∅ = Some (a', ∅, []) /\
  lockmap a' !! Run.lock_at = Some l' /\ get_acq l' 8 = mkSpidInfo 109 0 0 0 /\
  c_contended (get_caller l' 0xc0200100) = [ws_id Run.cs].
Proof.
  destruct held_facts as (Hl & Hst & _ & Hacq & _ & _ & Hs & Hg & Hr & Ho & Had & Hc).
  assert (Hone : holds_one Run.lock_at (lk_generation Run.held_lock) [] Run.cs []) by (split; [reflexivity|constructor]).
  assert (Has : contended_as (Run.conf Run.held) Run.held_lock = Some Run.held)
    by (unfold contended_as; rewrite Had; reflexivity).
  rewrite <- Ho in Hs. pose proof three_tries_fail as Htr. rewrite <- Hr in Htr.
  pose proof (spin_contention_once (Run.conf Run.held) 8 Run.lock_at _ _ _ _ Run.held ∅ Run.held_lock Run.held
    [] Run.cs [] Hl Hst Hacq eq_refl Has Hs Hone
    ltac:(rewrite Hc; apply not_elem_of_nil) Htr)
    as (a' & l' & H & Hlm & _ & _ & _ & Hacq' & _ & Hcont & _).
  rewrite Hc in Hcont. exists a', l'. rewrite Hlm, lookup_insert_eq.
  split_and!; [exact H|reflexivity|exact Hacq'|exact Hcont].
Defined.

(** The log of the three steps: registration, acquire, release. *)
Lemma workset_ids_unique_witness : exists w s',
  trace (Run.start, ∅) w s' /\ closed_ids w = [mkWorksetID Run.lock_at 0 0] /\
  NoDup (closed_ids w ++ open_ids (locksetmap s'.1)).
Proof.
  assert (Hc : forall l, lk_generation l = 0 -> 0 <= lk_workset_count l <= 1 ->
    counters_ok (<[Run.lock_at := l]> ∅)).
  { intros l Hg Hw addr l' H. apply lookup_insert_Some in H as [[_ <-]|[_ H]]; [lia|].
    rewrite lookup_empty in H. discriminate H. }
  assert (Ht : trace (Run.start, ∅)
    ([] ++ [WS_CLOSE (ws_with_cnt Run.cs (-1))] ++ []) (Run.done_as, ∅)).
  { eapply (trace_step (Transition (Run.at_lock 7 100 0) (Run.conf Run.start) 0
      (Run.bp Run.pc_lock 0xc0200000 90 1)) _ _ Run.held ∅).
    - apply Hc; simpl; lia.
    - vm_compute; reflexivity.
    - eapply (trace_step (Transition (Run.at_lock 7 160 1) (Run.conf Run.held) 0
        (Run.bp Run.pc_unlock 0xc0200040 159 0)) _ _ Run.done_as ∅).
      + replace (lockmap Run.held) with (<[Run.lock_at := Run.held_lock]> (∅ : gmap Z lock))
          by (vm_compute; reflexivity).
        apply Hc; vm_compute; [reflexivity|split; discriminate].
      + vm_compute; reflexivity.
      + constructor. }
  exists ([] ++ [WS_CLOSE (ws_with_cnt Run.cs (-1))] ++ []), (Run.done_as, ∅).
  split; [exact Ht|]. split; [reflexivity|].
  exact (workset_ids_unique _ _ _ Ht eq_refl eq_refl).
Defined.
