(* ===== verification/AddressSpace.v ===== *)
(** * Address spaces and the callbacks around the lock handlers

    Model of the part of [sync_char.cc] that owns the per-process data: which
    process uses which [as_data_t] (threads of one application share one, counted by
    [ref_count]), how maps are loaded, and the callbacks the simulator runs on
    forks, exits, context switches, memory accesses, device accesses and breakpoints.
    [as_data_t] objects live in a heap of locations, so that sharing, freeing and
    dangling pointers are visible; [None] is a crash of the module. *)

From S2P Require Import Prelude WorkSet LockData LockState Transition TransitionProps.

(** ** State *)

Record module := mkMod {
  as_of : gmap Z Z;              (* syncchar->as_data: process -> object *)
  heap : gmap Z as_data;         (* the allocated as_data_t objects *)
  m_logWorksets : bool;
  m_afterBoot : bool;
  exception_addrs : gmap Z Z;    (* per CPU *)
  spec_map : spcl_map
}.

Definition m_with_as (s : gmap Z Z) (h : gmap Z as_data) (m : module) : module :=
  mkMod s h (m_logWorksets m) (m_afterBoot m) (exception_addrs m) (spec_map m).
Definition m_with_boot (m : module) : module :=
  mkMod (as_of m) (heap m) (m_logWorksets m) true (exception_addrs m) (spec_map m).
Definition m_with_exc (x : gmap Z Z) (m : module) : module :=
  mkMod (as_of m) (heap m) (m_logWorksets m) (m_afterBoot m) x (spec_map m).
Definition m_with_spec (s : spcl_map) (m : module) : module :=
  mkMod (as_of m) (heap m) (m_logWorksets m) (m_afterBoot m) (exception_addrs m) s.

Definition put_as (loc : Z) (a : as_data) (m : module) : module :=
  m_with_as (as_of m) (<[loc := a]> (heap m)) m.

(** Follow the pointer found in [syncchar->as_data]: the outer [None] is a dangling
    pointer, the inner one the absence of an entry. *)
Definition find_as_data (spid : Z) (m : module) : option (option (Z * as_data)) :=
  match as_of m !! spid with
  | None => Some None
  | Some loc => a ← heap m !! loc; Some (Some (loc, a))
  end.

(** ** Map files *)

(** A line of a map file, by what [sscanf] matched. *)
Inductive map_record :=
| RaRecord (lock_ra lock_off : Z) (lock_reg : option string) (lock_id flags : Z) (label : string)
| LockDef (lock_addr lock_id lock_val : Z) (label : string)
| BadRecord.

Definition insert_ra (lock_ra lock_off : Z) (lock_reg : option string) (lock_id flags : Z) (label : string)
    (m : gmap Z ra) : gmap Z ra * list log_event :=
  (<[lock_ra := mkRa lock_off lock_reg lock_id flags label]> m,
   match m !! lock_ra with Some _ => [XXX "XXX [sync_char]: multiple ras "] | None => [] end).

Definition as_with_ras (m : gmap Z ra) (a : as_data) : as_data :=
  mkAs m (lockmap a) (locksetmap a) (asym_detector a) (ad_count a) (ref_count a).

Definition read_record (first_time : bool) (r : map_record) (a : as_data) : as_data * list log_event :=
  match r with
  | BadRecord => (a, [XXX "XXX sync_char.map bad record"])
  | LockDef addr id v label => allocate_lock id addr v (Some label) a
  | RaRecord pc off reg id flags label =>
      let w := if 255 <? id then [XXX "XXX [sync_char]: lock_id is > 255.  Ack!"] else [] in
      if negb first_time then (a, w)
      else if negb (id =? L_SPIN) && negb (id =? L_CXA) && negb (id =? L_CXE) then (a, w)
      else let '(m, w') := insert_ra pc off reg id flags label (ramap a) in (as_with_ras m a, w ++ w')
  end.

Fixpoint read_ra2sync (first_time : bool) (f : list map_record) (a : as_data)
    : as_data * list log_event :=
  match f with
  | [] => (a, [])
  | r :: f =>
      let '(a, w) := read_record first_time r a in
      let '(a, w') := read_ra2sync first_time f a in (a, w ++ w')
  end.

(** [None]: the file could not be opened. *)
Definition init_ras (file : option (list map_record)) (a : as_data) : as_data * list log_event :=
  match file with
  | None => (a, [])
  | Some f => read_ra2sync (bool_decide (ramap a = ∅)) f a
  end.

Definition new_as_data (detector : WorkSet) : as_data := mkAs ∅ ∅ ∅ detector 0 1.

(** [set_mapfile]: the kernel's address space.  [loc] is the object [new] returns. *)
Definition set_mapfile (loc : Z) (file : option (list map_record)) (m : module) : module * list log_event :=
  let '(a, w) := init_ras file (new_as_data (new_WorkSet 0xc0000000 0 0 0xffffffff 0)) in
  (m_with_as (<[0 := loc]> (as_of m)) (<[loc := a]> (heap m)) m, w).

(** [syncchar_load_map_callback]: an application loads its own map. *)
Definition syncchar_load_map_callback (pid cpuNum loc : Z) (file : option (list map_record)) (m : module)
    : option (module * list log_event) :=
  if pid =? 0 then None
  else
    r ← find_as_data pid m;
    match r with
    | None =>
        let '(a, w) := init_ras file (new_as_data (new_WorkSet 0 pid 0 0xffffffff cpuNum)) in
        Some (m_with_as (<[pid := loc]> (as_of m)) (<[loc := a]> (heap m)) m, w)
    | Some (l, a) => let '(a, w) := init_ras file a in Some (put_as l a m, w)
    end.

(** ** Processes *)

(** [free_as_data]: the loop over [lockmap] erases the element its iterator points to
    and then increments that iterator, which is undefined: with a lock in the map the
    call has no result ([None]).  With an empty map nothing is left of the function
    but the end of the breakpoints and [delete as_data]. *)
Definition free_as_data (loc : Z) (h : gmap Z as_data) : option (gmap Z as_data) :=
  a ← h !! loc;
  if decide (lockmap a = ∅) then Some (delete loc h) else None.

Definition osa_fork_callback (ppid pid : Z) (m : module) : option module :=
  if ppid =? 0 then Some m
  else
    r ← find_as_data ppid m;
    match r with
    | None => Some m
    | Some (loc, a) =>
        Some (m_with_as (<[pid := loc]> (as_of m)) (<[loc := as_with_ref (ref_count a + 1) a]> (heap m)) m)
    end.

Definition osa_exit_callback (spid : Z) (m : module) : option (module * list log_event) :=
  if spid =? 0 then Some (m, [XXX "XXX: Attempt to free kernel as_data thwarted."])
  else
    r ← find_as_data spid m;
    match r with
    | None => Some (m, [])
    | Some (loc, a) =>
        let a := as_with_ref (ref_count a - 1) a in
        let h := <[loc := a]> (heap m) in
        h ← (if ref_count a =? 0 then free_as_data loc h else Some h);
        Some (m_with_as (delete spid (as_of m)) h m, [])
    end.

(** [syncchar_clear_map_callback] frees the object and keeps the pointer. *)
Definition syncchar_clear_map_callback (spid : Z) (m : module) : option module :=
  r ← find_as_data spid m;
  match r with
  | None => Some m
  | Some (loc, _) => h ← free_as_data loc (heap m); Some (m_with_as (as_of m) h m)
  end.

Definition osa_register_spinlock_callback (e : env) (label : string) (m : module)
    : option (module * list log_event) :=
  let addr := e_edx e in
  let spid := if 0xc0000000 <=? addr then 0 else e_spid e in
  r ← find_as_data spid m;
  '(loc, a) ← r;                                   (* OSA_assert *)
  let '(a, w) := allocate_lock L_SPIN addr (s32 (e_mem e addr)) (Some label) a in
  Some (put_as loc a m, w).

Definition osa_after_boot_callback (m : module) : module := m_with_boot m.

(** ** Context switches *)

(** One lock of the loop in [osa_sched_callback]. *)
Definition switch_lock (old_pid new_pid addr : Z) (a : as_data) : as_data :=
  match lockmap a !! addr with
  | None => a
  | Some l =>
      if (lk_spid_owner l =? old_pid) && bool_decide (lk_name l = "runqueue_t->lock") then
        let a := put_lock addr (lk_with_owner new_pid l) a in
        match locksetmap a !! old_pid with
        | None => a
        | Some worksets =>
            let mine (x : lock_it * WorkSet) := lock_addr (ws_id x.2) = addr in
            let moved := (fun x => ((addr, lk_generation l), ws_with_pids x.2 new_pid old_pid))
                           <$> filter mine worksets in
            let sets := <[old_pid := filter (fun x => ~ mine x) worksets]> (locksetmap a) in
            as_with_sets (match moved with
                          | [] => sets
                          | _ => <[new_pid := reverse moved ++ default [] (sets !! new_pid)]> sets
                          end) a
        end
      else a
  end.

Definition osa_sched_callback (old_pid new_pid : Z) (m : module) : option module :=
  r ← find_as_data 0 m;
  '(loc, a) ← r;
  Some (put_as loc (foldl (fun a addr => switch_lock old_pid new_pid addr a) a
                      (map_to_list (lockmap a)).*1) m).

(** ** Memory accesses *)

Record access := mkAccess {
  x_spid : Z;                (* current process *)
  x_eip : Z; x_ebp : Z; x_esp : Z;
  x_addr : Z; x_size : Z;
  x_type : memop;
  x_vanilla : bool           (* access_type == X86_Vanilla *)
}.

Definition is_load_store (t : memop) : bool :=
  match t with Sim_Trans_Load | Sim_Trans_Store => true | Sim_Trans_Other => false end.

(** The loop over the open worksets: each grows, and so does the aggregate of its
    lock.  A workset whose lock is not in the map dereferences the end iterator. *)
Fixpoint record_access (x : access) (l : workset_list) (m : gmap Z lock)
    : option (workset_list * gmap Z lock) :=
  match l with
  | [] => Some ([], m)
  | (it, ws) :: rest =>
      match m !! x_addr x with
      | Some _ => '(rest, m) ← record_access x rest m; Some ((it, ws) :: rest, m)
      | None =>
          let ws := grow ws (x_addr x) (x_size x) (x_type x) in
          lk ← m !! lock_addr (ws_id ws);
          let lk := lk_with_aggregate (grow (lk_aggregate lk) (x_addr x) (x_size x) (x_type x)) lk in
          '(rest, m) ← record_access x rest (<[lock_addr (ws_id ws) := lk]> m);
          Some ((it, ws) :: rest, m)
      end
  end.

(** The address space's part of [timing_operate]. *)
Definition as_access (x : access) (a : as_data) : option as_data :=
  match default [] (locksetmap a !! x_spid x) with
  | [] => Some (as_with_detector (grow (asym_detector a) (x_addr x) (x_size x) (x_type x)) (ad_count a) a)
  | worksets =>
      '(worksets, m) ← record_access x worksets (lockmap a);
      Some (as_with_lockmap m (as_with_sets (<[x_spid x := worksets]> (locksetmap a)) a))
  end.

(** [timing_operate], without the cache timing it returns. *)
Definition timing_operate (x : access) (m : module) : option module :=
  let in_kernel := 0xc0000000 <=? x_eip x in
  if ((x_ebp x <? x_addr x) || (x_addr x <? x_esp x)) && x_vanilla x && is_load_store (x_type x) then
    r ← find_as_data (if in_kernel then 0 else x_spid x) m;
    match r with
    | None => Some m
    | Some (loc, a) => a ← as_access x a; Some (put_as loc a m)
    end
  else Some m.

Fixpoint mark_io (l : workset_list) (m : gmap Z lock) : option (workset_list * gmap Z lock) :=
  match l with
  | [] => Some ([], m)
  | (it, ws) :: rest =>
      lk ← m !! lock_addr (ws_id ws);
      '(rest, m) ← mark_io rest (<[lock_addr (ws_id ws) := lk_with_aggregate (ws_with_IO (lk_aggregate lk)) lk]> m);
      Some ((it, ws_with_IO ws) :: rest, m)
  end.

Definition handle_device_access_memop (spid eip : Z) (m : module) : option module :=
  r ← find_as_data (if 0xc0000000 <=? eip then 0 else spid) m;
  match r with
  | None => Some m
  | Some (loc, a) =>
      match locksetmap a !! spid with
      | None => Some m
      | Some worksets =>
          '(worksets, lm) ← mark_io worksets (lockmap a);
          Some (put_as loc (as_with_lockmap lm (as_with_sets (<[spid := worksets]> (locksetmap a)) a)) m)
      end
  end.

(** ** Breakpoints and transactions *)

Definition exception_callback (cpuNum eip : Z) (m : module) : module :=
  m_with_exc (<[cpuNum := eip]> (exception_addrs m)) m.

(** The posted record, if any, with the object it refers to; [stack] is memory read
    through the stack segment, [dbg_bp] whether the debugging breakpoint was hit. *)
Definition breakpoint_callback (e : env) (stack : Z -> Z) (linear_address : Z) (dbg_bp : bool) (m : module)
    : option (module * option (bp_rec * Z) * list log_event) :=
  let m := m_with_exc (<[e_cpu e := 0]> (exception_addrs m)) m in
  let my_spid := if linear_address <? 0xC0000000 then e_spid e else 0 in
  r ← find_as_data my_spid m;
  match r with
  | None => Some (m, None, [])
  | Some (loc, a) =>
      if dbg_bp then Some (m, None, [])
      else
      match ramap a !! linear_address with
      | None => Some (m, None, if my_spid =? 0 then [XXX "XXX breakpoint on RA that we did not set "] else [])
      | Some r =>
          let lkval :=
            if (negb (flag (ra_flags r) F_NOADDR) && negb (flag (ra_flags r) F_EAX))
               || (ra_lock_id r =? L_CXA) || (ra_lock_id r =? L_CXE)
            then e_mem e (get_lock_addr e r) else 0 in
          let caller_ra := if flag (ra_flags r) F_INLINED then linear_address
                           else stack (u32 (e_reg e "ebp" + 4)) in
          Some (m, Some (mkBp linear_address caller_ra (e_now e) lkval, loc), [])
      end
  end.

(** [find_as] of the handlers: they assert that the process has an entry and follow
    its pointer. *)
Definition cfg_of (m : module) : cfg :=
  mkCfg (m_logWorksets m) (m_afterBoot m) (fun spid => loc ← as_of m !! spid; heap m !! loc).

(** Running the posted [lock_transition]. *)
Definition run_posted (e : env) (b : bp_rec) (loc : Z) (m : module) : option (module * list log_event) :=
  a ← heap m !! loc;
  '(a, sm, w) ← lock_transition e (cfg_of m) (default 0 (exception_addrs m !! e_cpu e)) b a (spec_map m);
  Some (m_with_spec sm (put_as loc a m), w).

Definition handle_transaction_abort (txid : Z) (m : module) : module :=
  m_with_spec (delete txid (spec_map m)) m.

(** ** Resetting the statistics *)

Definition reset_lock (addr : Z) (l : lock) : lock :=
  lk_with_aggregate (new_WorkSet addr 0 (u32 (lk_generation l)) 0xffffffff 0)
    (lk_with_callers ((fun _ => caller_zero) <$> lk_callers l) l).

Definition reset_as (a : as_data) : as_data :=
  as_with_lockmap (map_imap (fun addr l => Some (reset_lock addr l)) (lockmap a)) a.

Definition reset_stats (m : module) : option (module * list log_event) :=
  h ← foldr (fun e acc => h ← acc; a ← h !! e.2; Some (<[e.2 := reset_as a]> h)) (Some (heap m))
        (map_to_list (as_of m));
  Some (m_with_as (as_of m) h m, [RESET_STATS]).

(** ** Sharing: reference counts *)

(** The processes that use an object. *)
Definition users (s : gmap Z Z) (loc : Z) : gmap Z Z := filter (fun p => p.2 = loc) s.

(** Every pointer leads to a live object, and every live object counts the processes
    that point to it, at least one. *)
Definition refs_ok (m : module) : Prop :=
  (forall pid loc, as_of m !! pid = Some loc -> is_Some (heap m !! loc)) /\
  (forall loc a, heap m !! loc = Some a ->
     ref_count a = Z.of_nat (base.size (users (as_of m) loc)) /\ 0 < ref_count a).

Inductive proc_event :=
| Fork (ppid pid : Z)
| Exit (spid : Z)
| LoadMap (pid cpuNum loc : Z) (file : option (list map_record)).

Definition proc (ev : proc_event) (m : module) : option module :=
  match ev with
  | Fork ppid pid => osa_fork_callback ppid pid m
  | Exit spid => fst <$> osa_exit_callback spid m
  | LoadMap pid cpu loc file => fst <$> syncchar_load_map_callback pid cpu loc file m
  end.

(** A fork creates a process that has no entry yet; a new object is at a fresh
    location. *)
Definition allowed (ev : proc_event) (m : module) : Prop :=
  match ev with
  | Fork _ pid => as_of m !! pid = None
  | Exit _ => True
  | LoadMap pid _ loc _ => pid <> 0 /\ heap m !! loc = None
  end.

(** The event is the exit of the last process of an object that still has locks in
    its map: [free_as_data] has to walk over them. *)
Definition frees_locks (ev : proc_event) (m : module) : bool :=
  match ev with
  | Exit spid =>
      negb (spid =? 0) &&
      match loc ← as_of m !! spid; heap m !! loc with
      | Some a => (ref_count a =? 1) && negb (bool_decide (lockmap a = ∅))
      | None => false
      end
  | _ => false
  end.

Lemma users_insert s pid loc loc' :
  s !! pid = None ->
  base.size (users (<[pid := loc]> s) loc') = ((if decide (loc = loc') then 1 else 0) + base.size (users s loc'))%nat.
Proof.
  intros Hp. unfold users. case_decide as Hd.
  - rewrite map_filter_insert_True by done. apply map_size_insert_None.
    apply map_lookup_filter_None. by left.
  - rewrite map_filter_insert_False, delete_id by done. done.
Qed.

Lemma users_delete s pid loc loc' :
  s !! pid = Some loc ->
  base.size (users s loc') = ((if decide (loc = loc') then 1 else 0) + base.size (users (delete pid s) loc'))%nat.
Proof.
  intros Hp. rewrite <- (insert_delete_id s pid loc Hp) at 1.
  apply users_insert, lookup_delete_eq.
Qed.

Lemma users_pos s pid loc : s !! pid = Some loc -> (0 < base.size (users s loc))%nat.
Proof. intros Hp. rewrite (users_delete s pid loc loc Hp), decide_True by done. lia. Qed.

Lemma users_fresh m loc : refs_ok m -> heap m !! loc = None -> base.size (users (as_of m) loc) = 0%nat.
Proof.
  intros [Hd _] Hn. apply map_size_empty_iff, map_empty. intros pid. apply map_lookup_filter_None. right.
  intros loc' Hp Heq. simpl in Heq. destruct (Hd _ _ Hp) as [a Ha]. congruence.
Qed.

Lemma read_record_ref ft r a : ref_count (read_record ft r a).1 = ref_count a.
Proof. unfold read_record, allocate_lock, insert_ra. repeat case_match; by simplify_eq. Qed.

Lemma read_ra2sync_ref ft f : forall a, ref_count (read_ra2sync ft f a).1 = ref_count a.
Proof.
  induction f as [|r f IH]; intros a; simpl; [done|].
  pose proof (read_record_ref ft r a) as Hr. destruct (read_record ft r a) as [a1 w1].
  pose proof (IH a1) as Hf. destruct (read_ra2sync ft f a1) as [a2 w2]. simpl in *. congruence.
Qed.

Lemma init_ras_ref file a a' w : init_ras file a = (a', w) -> ref_count a' = ref_count a.
Proof.
  unfold init_ras. intros H. destruct file as [f|]; [|by simplify_eq].
  pose proof (read_ra2sync_ref (bool_decide (ramap a = ∅)) f a) as Hr. by rewrite H in Hr.
Qed.

(** Replacing an object by one with the same count. *)
Lemma refs_ok_put m loc a a' :
  refs_ok m -> heap m !! loc = Some a -> ref_count a' = ref_count a -> refs_ok (put_as loc a' m).
Proof.
  intros [Hd Hc] Ha Hr. split; simpl.
  - intros pid l Hp. rewrite lookup_insert. case_decide; [eauto|]. by eapply Hd.
  - intros l b. rewrite lookup_insert. case_decide; [|by apply Hc].
    intros [= <-]. subst. rewrite Hr. by apply Hc.
Qed.

(** A new process pointing to an object whose count says so. *)
Lemma refs_ok_add m pid loc a :
  refs_ok m -> as_of m !! pid = None ->
  ref_count a = 1 + Z.of_nat (base.size (users (as_of m) loc)) ->
  refs_ok (m_with_as (<[pid := loc]> (as_of m)) (<[loc := a]> (heap m)) m).
Proof.
  intros [Hd Hc] Hp Hr. split; simpl.
  - intros p l Hpl. rewrite lookup_insert. case_decide as Hll; [eauto|].
    apply lookup_insert_Some in Hpl as [[_ ?]|[_ ?]]; [done|]. by eapply Hd.
  - intros l b. rewrite lookup_insert, users_insert by done. case_decide as Hl.
    + intros [= <-]. subst. rewrite Hr. lia.
    + intros Hb. apply Hc in Hb. lia.
Qed.

Lemma refs_ok_exit m spid loc a :
  refs_ok m -> as_of m !! spid = Some loc -> heap m !! loc = Some a ->
  let a' := as_with_ref (ref_count a - 1) a in
  refs_ok (m_with_as (delete spid (as_of m))
    (if ref_count a' =? 0 then delete loc (<[loc := a']> (heap m)) else <[loc := a']> (heap m)) m).
Proof.
  intros [Hd Hc] Hp Ha. destruct (Hc _ _ Ha) as [Hr _]. cbn zeta. simpl.
  rewrite (users_delete _ _ _ loc Hp), decide_True in Hr by done. split; simpl.
  - intros p l [Hne Hl]%lookup_delete_Some. destruct (decide (l = loc)) as [-> |Hll].
    + pose proof (users_pos (delete spid (as_of m)) p loc ltac:(by rewrite lookup_delete_ne)) as Hu.
      rewrite (proj2 (Z.eqb_neq _ _)) by lia. rewrite lookup_insert_eq. eauto.
    + case_match; rewrite ?lookup_delete_ne, lookup_insert_ne by done; by eapply Hd.
  - intros l b Hb. assert (Hl : l <> loc /\ heap m !! l = Some b
      \/ l = loc /\ b = as_with_ref (ref_count a - 1) a /\ ref_count a - 1 <> 0).
    { case_match; zify_bool; [apply lookup_delete_Some in Hb as [? Hb]|];
        apply lookup_insert_Some in Hb as [[? ?]|[? ?]]; naive_solver. }
    destruct Hl as [[Hne Hl]|(-> & -> & Hnz)].
    + apply Hc in Hl. rewrite (users_delete _ _ _ l Hp), decide_False in Hl by done. lia.
    + simpl. lia.
Qed.

Lemma find_as_data_ok m spid :
  refs_ok m -> match as_of m !! spid with
    | None => find_as_data spid m = Some None
    | Some loc => exists a, heap m !! loc = Some a /\ find_as_data spid m = Some (Some (loc, a))
    end.
Proof.
  intros [Hd _]. unfold find_as_data. destruct (as_of m !! spid) as [loc|] eqn:E; [|done].
  destruct (Hd _ _ E) as [a Ha]. exists a. by rewrite Ha.
Qed.

(** What an exit does to the heap, undefined when it has to free locks. *)
Lemma exit_heap m spid loc a :
  spid <> 0 -> as_of m !! spid = Some loc -> heap m !! loc = Some a ->
  let a' := as_with_ref (ref_count a - 1) a in
  (h ← (if ref_count a' =? 0 then free_as_data loc (<[loc := a']> (heap m)) else Some (<[loc := a']> (heap m)));
   Some (m_with_as (delete spid (as_of m)) h m)) =
  if frees_locks (Exit spid) m then None
  else Some (m_with_as (delete spid (as_of m))
         (if ref_count a' =? 0 then delete loc (<[loc := a']> (heap m)) else <[loc := a']> (heap m)) m).
Proof.
  intros Hs Hp Ha. cbn zeta. unfold frees_locks, free_as_data.
  rewrite (proj2 (Z.eqb_neq _ _) Hs), Hp, lookup_insert_eq. simpl. rewrite Ha.
  destruct (ref_count a =? 1) eqn:E1, (ref_count a - 1 =? 0) eqn:E2; try lia; simpl; [|done].
  case_decide; case_bool_decide; done.
Qed.


(** ** Accesses *)

(** The byte [b] is covered by the access and marked by accesses of its type. *)
Definition hits (x : access) (rw b : Z) : bool :=
  (x_addr x <=? b) && (b <? x_addr x + x_size x) && touches (x_type x) rw.

(** A lock record whose aggregate has taken in the access, everything else kept. *)
Definition agg_grown (x : access) (l l' : lock) : Prop :=
  l' = lk_with_aggregate (lk_aggregate l') l /\ wf_ws (lk_aggregate l') /\
  (forall b, was_read (lk_aggregate l') b = was_read (lk_aggregate l) b || hits x 0 b) /\
  (forall b, was_written (lk_aggregate l') b = was_written (lk_aggregate l) b || hits x 1 b).

Definition in_bounds (x : access) : Prop :=
  0 <= x_addr x /\ 0 <= x_size x /\ x_addr x + x_size x <= 2 ^ 32.

Lemma grow_id ws addr len t : ws_id (grow ws addr len t) = ws_id ws.
Proof. done. Qed.

Lemma agg_grown_once x l :
  in_bounds x -> wf_ws (lk_aggregate l) ->
  agg_grown x l (lk_with_aggregate (grow (lk_aggregate l) (x_addr x) (x_size x) (x_type x)) l).
Proof.
  intros (Ha & Hs & He) Hwf. destruct (grow_spec (lk_aggregate l) (x_addr x) (x_size x) (x_type x))
    as (Hw & Hr & Hww); [done..|]. by split_and!.
Qed.

Lemma agg_grown_again x l l1 l2 : agg_grown x l l1 -> agg_grown x l1 l2 -> agg_grown x l l2.
Proof.
  intros (H1 & _ & Hr1 & Hw1) (H2 & Hwf & Hr2 & Hw2). split_and!.
  - rewrite H2 at 1. by rewrite H1.
  - done.
  - intros b. rewrite Hr2, Hr1. btauto.
  - intros b. rewrite Hw2, Hw1. btauto.
Qed.

(** The locks of the open worksets are known, with well-formed aggregates. *)
Definition locks_known (l : workset_list) (m : gmap Z lock) : Prop :=
  forall it ws, (it, ws) ∈ l -> exists lk, m !! lock_addr (ws_id ws) = Some lk /\ wf_ws (lk_aggregate lk).

Definition grow_all (x : access) (l : workset_list) : workset_list :=
  (fun e => (e.1, grow e.2 (x_addr x) (x_size x) (x_type x))) <$> l.

Lemma record_access_spec x l : forall m,
  in_bounds x -> m !! x_addr x = None -> locks_known l m ->
  exists m', record_access x l m = Some (grow_all x l, m') /\
    (forall it ws, (it, ws) ∈ l -> exists lk lk', m !! lock_addr (ws_id ws) = Some lk /\
       m' !! lock_addr (ws_id ws) = Some lk' /\ agg_grown x lk lk') /\
    (forall addr, (forall it ws, (it, ws) ∈ l -> lock_addr (ws_id ws) <> addr) -> m' !! addr = m !! addr).
Proof.
  induction l as [|[it ws] l IH]; intros m Hb Hn Hk; simpl.
  { exists m. split_and!; [done|intros ? ? Hi; by apply not_elem_of_nil in Hi|done]. }
  rewrite Hn. destruct (Hk it ws ltac:(left)) as (lk & Hlk & Hwf).
  rewrite Hlk. cbn [mbind option_bind].
  set (lk1 := lk_with_aggregate _ lk). set (k := lock_addr (ws_id ws)) in *.
  assert (Hg1 : agg_grown x lk lk1) by by apply agg_grown_once.
  assert (Hne : x_addr x <> k) by congruence.
  destruct (IH (<[k := lk1]> m)) as (m' & Hr & Hin & Hout); [done|by rewrite lookup_insert_ne| |].
  { intros it' ws' Hi. destruct (Hk it' ws' ltac:(by right)) as (lk' & Hlk' & Hwf').
    rewrite lookup_insert. case_decide; [|by eauto]. exists lk1. split; [done|]. apply Hg1. }
  rewrite Hr. cbn [mbind option_bind]. exists m'. split; [done|].
  assert (Hhit : forall it' ws', (it', ws') ∈ l -> exists lk0 lk', m !! lock_addr (ws_id ws') = Some lk0 /\
    m' !! lock_addr (ws_id ws') = Some lk' /\ agg_grown x lk0 lk').
  { intros it' ws' Hi. destruct (Hin _ _ Hi) as (lk0 & lk' & H0 & H' & Hg).
    apply lookup_insert_Some in H0 as [[Heq <-]|[_ H0]]; [|by eauto 6].
    rewrite <- Heq in *. exists lk, lk'. split_and!; [done|done|by eapply agg_grown_again]. }
  split.
  - intros it' ws' Hi. apply elem_of_cons in Hi as [[= -> ->]|Hi]; [|by eapply Hhit].
    fold k. destruct (decide (Exists (fun e => lock_addr (ws_id e.2) = k) l)) as [Hex|Hno].
    + apply Exists_exists in Hex as ([it0 ws0] & Hi & Heq). simpl in Heq. rewrite <- Heq. by eapply Hhit.
    + exists lk, lk1. split_and!; [done| |done]. rewrite Hout, lookup_insert_eq; [done|].
      intros it0 ws0 Hi Heq. apply Hno, Exists_exists. by exists (it0, ws0).
  - intros addr Ha. rewrite Hout, lookup_insert_ne; [done| |].
    + intros <-. eapply (Ha it ws); [left|done].
    + intros it0 ws0 Hi. eapply Ha. by right.
Qed.

(** C7: an access inside critical sections is recorded in all of them.  A load or
    store of a process with open worksets, at an address that is not a lock word,
    grows every one of them, adds exactly the bytes it touches to the aggregate
    workset of each of their locks (however many worksets a lock has open), changes
    no other lock, and leaves the asymmetric-conflict detector alone. *)
Theorem access_recorded x a l :
  locksetmap a !! x_spid x = Some l -> l <> [] -> lockmap a !! x_addr x = None ->
  in_bounds x -> locks_known l (lockmap a) ->
  exists a', as_access x a = Some a' /\
    locksetmap a' = <[x_spid x := grow_all x l]> (locksetmap a) /\
    asym_detector a' = asym_detector a /\
    (forall it ws, (it, ws) ∈ l -> exists lk lk', lockmap a !! lock_addr (ws_id ws) = Some lk /\
       lockmap a' !! lock_addr (ws_id ws) = Some lk' /\ agg_grown x lk lk') /\
    (forall addr, (forall it ws, (it, ws) ∈ l -> lock_addr (ws_id ws) <> addr) ->
       lockmap a' !! addr = lockmap a !! addr).
Proof.
  intros Hl Hne Hn Hb Hk. unfold as_access. rewrite Hl. cbn [default].
  destruct (record_access_spec x l (lockmap a) Hb Hn Hk) as (m' & Hr & Hin & Hout).
  destruct l as [|e l]; [done|]. cbn [default id]. rewrite Hr. simpl. eexists. split; [done|]. by split_and!.
Qed.

(** ** Context switches keep the worksets *)

Lemma ids_moved addr gen new old (l : workset_list) :
  ids_of ((fun x => ((addr, gen), ws_with_pids x.2 new old)) <$> l) = ids_of l.
Proof. unfold ids_of. rewrite <- list_fmap_compose. done. Qed.

Lemma ids_filter_split (P : lock_it * WorkSet -> Prop) `{!forall x, Decision (P x)} (l : workset_list) :
  ids_of (filter P l) ++ ids_of (filter (fun x => ~ P x) l) ≡ₚ ids_of l.
Proof.
  unfold ids_of. rewrite <- fmap_app. apply fmap_Permutation.
  induction l as [|x l IH]; [done|]. destruct (decide (P x)).
  - rewrite filter_cons_True, (filter_cons_False (fun x => ~ P x)) by naive_solver. simpl. by rewrite IH.
  - rewrite filter_cons_False, (filter_cons_True (fun x => ~ P x)) by done.
    rewrite <- Permutation_middle. by rewrite IH.
Qed.

(** Put [k1 ++ ...] in front of one list after shrinking another. *)
Lemma open_ids_move m old new l moved rest :
  m !! old = Some l -> ids_of moved ++ ids_of rest ≡ₚ ids_of l ->
  let sets := <[old := rest]> m in
  open_ids (<[new := moved ++ default [] (sets !! new)]> sets) ≡ₚ open_ids m.
Proof.
  intros Hm Hp. cbn zeta. rewrite open_ids_insert. unfold ids_of at 1. rewrite fmap_app, <- app_assoc.
  fold (ids_of moved). set (sets := <[old := rest]> m).
  assert (Hd : ids_of (default [] (sets !! new)) ++ open_ids (delete new sets) ≡ₚ open_ids sets).
  { destruct (sets !! new) as [l'|] eqn:E; simpl; [by rewrite (open_ids_lookup _ _ _ E)|by rewrite delete_id]. }
  unfold ids_of in Hd at 1. rewrite Hd. subst sets.
  by rewrite open_ids_insert, app_assoc, Hp, <- open_ids_lookup.
Qed.

Lemma switch_lock_spec old new addr a :
  open_ids (locksetmap (switch_lock old new addr a)) ≡ₚ open_ids (locksetmap a) /\
  asym_detector (switch_lock old new addr a) = asym_detector a /\
  forall k, (forall l, lockmap a !! k = Some l ->
      exists l', lockmap (switch_lock old new addr a) !! k = Some l' /\ same_ids l l') /\
    (k <> addr -> lockmap (switch_lock old new addr a) !! k = lockmap a !! k).
Proof.
  assert (Hsame : forall k, (forall l, lockmap a !! k = Some l -> exists l', lockmap a !! k = Some l' /\ same_ids l l')
    /\ (k <> addr -> lockmap a !! k = lockmap a !! k)) by (intros k; split; [intros l0 ?; by exists l0|done]).
  unfold switch_lock. destruct (lockmap a !! addr) as [l|] eqn:Hl; [|exact (conj (reflexivity _) (conj eq_refl Hsame))].
  destruct (_ && _); [|exact (conj (reflexivity _) (conj eq_refl Hsame))].
  assert (Hk : forall k, (forall l0, lockmap a !! k = Some l0 -> exists l',
      <[addr := lk_with_owner new l]> (lockmap a) !! k = Some l' /\ same_ids l0 l') /\
    (k <> addr -> <[addr := lk_with_owner new l]> (lockmap a) !! k = lockmap a !! k)).
  { intros k. split; [|intros; by rewrite lookup_insert_ne]. intros l0 H0. rewrite lookup_insert.
    case_decide; [|by exists l0]. simplify_eq. eexists. by split. }
  simpl. destruct (locksetmap a !! old) as [ws|] eqn:Es; simpl; [|by split_and!].
  split_and!; [|done|done].
  set (mine := fun x : lock_it * WorkSet => lock_addr (ws_id x.2) = addr).
  set (moved := _ <$> filter mine ws).
  assert (Hp : ids_of (reverse moved) ++ ids_of (filter (fun x => ~ mine x) ws) ≡ₚ ids_of ws).
  { unfold ids_of at 1. rewrite fmap_reverse, reverse_Permutation. fold (ids_of moved). subst moved.
    rewrite ids_moved. apply ids_filter_split. }
  destruct moved as [|e moved'] eqn:Em; [|by eapply open_ids_move].
  rewrite open_ids_insert, (open_ids_lookup _ _ _ Es), <- Hp. done.
Qed.

(** A context switch hands over the runqueue lock without losing a critical
    section.  The callback keeps exactly the identifiers of the open worksets (those
    of the runqueue lock move to the incoming process), keeps every lock's
    generation and workset counter and the detector, so identifiers stay unique. *)
Theorem sched_keeps_worksets old new m loc a :
  find_as_data 0 m = Some (Some (loc, a)) ->
  exists a', osa_sched_callback old new m = Some (put_as loc a' m) /\
    open_ids (locksetmap a') ≡ₚ open_ids (locksetmap a) /\ evolves a a' [].
Proof.
  intros Hf. unfold osa_sched_callback. rewrite Hf. simpl. eexists. split; [done|].
  generalize (map_to_list (lockmap a)).*1 as ks. intros ks. clear Hf. revert a.
  induction ks as [|k ks IH]; intros a; cbn [foldl].
  { split; [done|]. by apply evolves_quiet; [apply advances_refl|..]. }
  destruct (switch_lock_spec old new k a) as (Hs & Hd & Hk). destruct (IH (switch_lock old new k a)) as [Hs' He'].
  split; [by rewrite Hs'|]. apply (evolves_trans _ (switch_lock old new k a) _ [] []); [|done].
  apply evolves_quiet; [|done|done|done]. intros addr l Hl.
  destruct (proj1 (Hk addr) l Hl) as (l' & Hl' & Hg & Hw). exists l'. split; [done|]. lia.
Qed.

(** ** Concrete states *)

(** The kernel (object 1, used by process 0) and an application whose two threads, 5
    and 6, share object 2. *)
Definition two_spaces : module :=
  mkMod {[0 := 1; 5 := 2; 6 := 2]}
    {[1 := new_as_data (new_WorkSet 0xc0000000 0 0 0xffffffff 0);
      2 := as_with_ref 2 (new_as_data (new_WorkSet 0 5 0 0xffffffff 0))]} true true ∅ ∅.

Lemma two_spaces_ok : refs_ok two_spaces.
Proof.
  split.
  - intros pid loc H. cbn in H.
    repeat (apply lookup_insert_Some in H as [[_ <-]|[_ H]]; [vm_compute; eauto|]).
    apply lookup_singleton_Some in H as [_ <-]. vm_compute. eauto.
  - intros loc a H. cbn in H.
    repeat (apply lookup_insert_Some in H as [[<- <-]|[_ H]]; [vm_compute; auto|]).
    apply lookup_singleton_Some in H as [<- <-]. vm_compute. auto.
Qed.


(** A process alone in an address space with one lock: its exit has no defined
    result. *)
Definition one_lock_space : module :=
  mkMod {[5 := 2]}
    {[2 := (allocate_lock L_SPIN 0x8050000 1 (Some "queue") (new_as_data (new_WorkSet 0 5 0 0xffffffff 0))).1]}
    false false ∅ ∅.

Lemma exit_with_locks_undefined :
  refs_ok one_lock_space /\ frees_locks (Exit 5) one_lock_space = true /\ proc (Exit 5) one_lock_space = None.
Proof.
  split; [split|split; vm_compute; reflexivity].
  - intros pid loc H. unfold one_lock_space, as_of in H.
    apply lookup_singleton_Some in H as [_ <-]. vm_compute. eauto.
  - intros loc a H. unfold one_lock_space, heap in H. apply lookup_singleton_Some in H as [<- <-]. vm_compute. auto.
Qed.

(** [syncchar_clear_map_callback] leaves the pointer of the process behind: the next
    look-up dangles. *)
Lemma clear_map_dangles :
  exists m', syncchar_clear_map_callback 5 two_spaces = Some m' /\ find_as_data 5 m' = None /\
    find_as_data 6 m' = None.
Proof. eexists. split; [reflexivity|]. split; vm_compute; reflexivity. Qed.

(** A process with two locks held stores to a word. *)
Definition two_locks : as_data :=
  let lk addr := mkLock LKST_WRLK 0 false L_SPIN addr 0 1 7 ∅ (new_WorkSet addr 0 0 0xffffffff 0) ∅ ∅
                   "" zero_av in
  mkAs ∅ {[0xc0300000 := lk 0xc0300000; 0xc0300010 := lk 0xc0300010]}
    {[7 := [((0xc0300010, 0), new_WorkSet 0xc0300010 7 0 0 0); ((0xc0300000, 0), new_WorkSet 0xc0300000 7 0 0 0)]]}
    (new_WorkSet 0xc0000000 0 0 0xffffffff 0) 0 1.

Definition a_store : access := mkAccess 7 0xc0100000 0xc7ff0000 0xc7fe0000 0xc0400000 4 Sim_Trans_Store true.

Lemma access_recorded_witness : exists a', as_access a_store two_locks = Some a' /\
  exists lk', lockmap a' !! 0xc0300000 = Some lk' /\ was_written (lk_aggregate lk') 0xc0400003 = true.
Proof.
  destruct (access_recorded a_store two_locks
    [((0xc0300010, 0), new_WorkSet 0xc0300010 7 0 0 0); ((0xc0300000, 0), new_WorkSet 0xc0300000 7 0 0 0)])
    as (a' & Ha & _ & _ & Hin & _).
  - reflexivity.
  - discriminate.
  - reflexivity.
  - split_and!; simpl; lia.
  - intros it ws Hi. apply elem_of_cons in Hi as [[= -> ->]|Hi].
    { eexists. split; [reflexivity|]. apply new_WorkSet_wf. }
    apply list_elem_of_singleton in Hi. injection Hi as -> ->. eexists. split; [reflexivity|]. apply new_WorkSet_wf.
  - exists a'. split; [exact Ha|].
    destruct (Hin (0xc0300000, 0) (new_WorkSet 0xc0300000 7 0 0 0)) as (lk & lk' & _ & H' & _ & _ & _ & Hw).
    { right. left. }
    exists lk'. split; [exact H'|]. rewrite Hw. apply orb_true_intro. right. reflexivity.
Defined.

Lemma sched_keeps_worksets_witness : exists a',
  osa_sched_callback 5 6 two_spaces = Some (put_as 1 a' two_spaces) /\ open_ids (locksetmap a') = [].
Proof.
  destruct (sched_keeps_worksets 5 6 two_spaces 1 (new_as_data (new_WorkSet 0xc0000000 0 0 0xffffffff 0)))
    as (a' & Ha & Hp & _).
  - vm_compute. reflexivity.
  - exists a'. split; [exact Ha|]. apply Permutation_nil. symmetry. exact Hp.
Defined.
