(* ===== verification/SpinLock.v ===== *)
(** * The kernel's spinlocks and read-write spinlocks

    Model of [include/asm-i386/spinlock.h], [include/asm-i386/rwlock.h] and the
    read-write fallbacks of [arch/i386/kernel/semaphore.c]: the lock words that
    syncchar watches.  One step is one locked instruction or one read; any CPU may
    take the next step, so a run is an interleaving of the CPUs' instructions.  The
    lock word keeps its machine width. *)

From S2P Require Import Prelude WorkSet LockData LockState.

(** ** Spinlocks *)

Module Spin.

(** Where a CPU is: outside, at label [1:] (before [decb]), in the wait loop
    ([2:]/[3:]), or inside the critical section. *)
Inductive pc := Idle | AtDecb | Waiting | Holding.

#[export] Instance pc_eq_dec : EqDecision pc.
Proof. solve_decision. Defined.

(** [slock] is the low byte of the lock word, read as [signed char]. *)
Record state := mkState { slock : Z; cpus : list pc }.

Definition __raw_spin_is_locked (s : state) : bool := slock s <=? 0.

Inductive instr :=
| Enter        (* call of __raw_spin_lock or __raw_spin_lock_flags *)
| Decb         (* 1: lock ; decb %0 ; jns *)
| Cmpb         (* cmpb $0,%0 ; jle 2b ; jmp 1b *)
| Trylock      (* xchgb %b0,%1 *)
| Unlock.      (* movb $1,%0 *)

Definition goto (i : nat) (p : pc) (s : state) : state := mkState (slock s) (<[i := p]> (cpus s)).
Definition store (v : Z) (s : state) : state := mkState v (cpus s).

Definition __raw_spin_lock_1 (i : nat) (s : state) : state :=
  let v := s8 (slock s - 1) in
  goto i (if v <? 0 then Waiting else Holding) (store v s).

Definition __raw_spin_lock_2 (i : nat) (s : state) : state :=
  if __raw_spin_is_locked s then s else goto i AtDecb s.

Definition __raw_spin_trylock (i : nat) (s : state) : state * bool :=
  let oldval := slock s in
  (goto i (if 0 <? oldval then Holding else Idle) (store 0 s), 0 <? oldval).

Definition __raw_spin_unlock (i : nat) (s : state) : state := goto i Idle (store 1 s).

(** One instruction of CPU [i]; [None] when the CPU is not at that instruction. *)
Definition step (i : nat) (op : instr) (s : state) : option state :=
  p ← cpus s !! i;
  match op, p with
  | Enter, Idle => Some (goto i AtDecb s)
  | Decb, AtDecb => Some (__raw_spin_lock_1 i s)
  | Cmpb, Waiting => Some (__raw_spin_lock_2 i s)
  | Trylock, Idle => Some (__raw_spin_trylock i s).1
  | Unlock, Holding => Some (__raw_spin_unlock i s)
  | _, _ => None
  end.

Definition init (n : nat) : state := mkState 1 (replicate n Idle).

Definition reachable (n : nat) : state -> Prop := reach (fun o => step o.1 o.2) (init n).

Definition holders (s : state) : Z := zsum (fun p => Z.b2z (bool_decide (p = Holding))) (cpus s).
Definition waiters (s : state) : Z := zsum (fun p => Z.b2z (bool_decide (p = Waiting))) (cpus s).

(** The lock word is 1 exactly when nobody holds the lock; otherwise it is at most
    one below zero for every CPU that waits. *)
Definition inv (n : nat) (s : state) : Prop :=
  length (cpus s) = n /\
  (slock s = 1 /\ holders s = 0 \/ slock s <= 0 /\ holders s = 1) /\
  1 - slock s <= holders s + waiters s.

Lemma at_most_all n s : length (cpus s) = n -> 0 <= holders s /\ 0 <= waiters s /\ holders s + waiters s <= Z.of_nat n.
Proof.
  intros <-. unfold holders, waiters. split_and!.
  - apply zsum_nonneg. intros x _. apply b2z_nonneg.
  - apply zsum_nonneg. intros x _. apply b2z_nonneg.
  - rewrite <- zsum_add. etransitivity; [apply (zsum_le _ (fun _ => 1))|rewrite zsum_const; lia].
    intros [] _; done.
Qed.

Lemma spin_step_inv n s i op s' : Z.of_nat n <= 128 -> inv n s -> step i op s = Some s' -> inv n s'.
Proof.
  intros Hn (Hlen & Hlock & Hw) Hs. pose proof (at_most_all n s Hlen) as Hall.
  unfold step in Hs. destruct (cpus s !! i) as [p|] eqn:Hi; simpl in Hs; [|done].
  unfold inv, holders, waiters in *.
  pose proof (fun q => zsum_elem_le (fun p => Z.b2z (bool_decide (p = q))) (cpus s) i p
    (fun x _ => b2z_nonneg _) Hi) as Hge. pose proof (Hge Holding) as Hh.
  specialize (Hge Waiting).
  destruct op, p; simplify_eq/=; unfold __raw_spin_lock_1, __raw_spin_lock_2, __raw_spin_trylock,
    __raw_spin_unlock, __raw_spin_is_locked, goto, store in *; simpl;
    try (rewrite s8_small by lia); repeat case_match; zify_bool; simpl;
    rewrite ?length_insert, ?(zsum_insert _ _ _ _ _ Hi); simpl in *; try lia.
Qed.

Lemma spin_reachable_inv n s : Z.of_nat n <= 128 -> reachable n s -> inv n s.
Proof.
  intros Hn. apply reach_invariant; [|intros [i op] s1 s2 ? ?; by eapply spin_step_inv].
  split_and!; simpl; [apply length_replicate|left; split; [done|]|]; unfold holders, waiters; simpl.
  - apply zsum_0. intros x [-> _]%elem_of_replicate. done.
  - pose proof (at_most_all n (init n) ltac:(apply length_replicate)). unfold holders, waiters in *. simpl in *. lia.
Qed.

(** The word a 4-byte read of the lock sees: the byte above, three zero bytes. *)
Definition word (s : state) : Z := slock s mod 256.

(** C8: spinlocks exclude, and syncchar reads them right.  With at most 128 CPUs,
    whatever the interleaving of lock, trylock, wait-loop and unlock instructions,
    at most one CPU is inside the critical section, the byte counter never wraps
    (it stays between -127 and 1), and the state syncchar derives from the lock word
    is "open" exactly when no CPU holds the lock and "write-locked" otherwise. *)
Theorem spin_exclusion n s e t st :
  Z.of_nat n <= 128 -> reachable n s ->
  t_lock_id t = L_SPIN -> t_lkval t = s32 (word s) ->
  holders s <= 1 /\ -127 <= slock s <= 1 /\
  exists q, update_current_lock_state e t st
    = (if holders s =? 0 then LKST_OPEN else LKST_WRLK, q, []).
Proof.
  intros Hn Hr Hid Hv. apply spin_reachable_inv in Hr as (Hlen & Hlock & Hw); [|done].
  pose proof (at_most_all n s Hlen) as Hall. split; [lia|]. split; [lia|].
  assert (Hword : word s = 1 /\ holders s = 0 \/ holders s = 1 /\ (word s = 0 \/ 1 < word s <= 255)).
  { unfold word. destruct Hlock as [[-> ->]|[Hle Hh]]; [by left|]. right. split; [done|].
    destruct (Z.eq_dec (slock s) 0) as [-> |]; [by left|]. right.
    rewrite <- (Z.mod_add _ 1 256) by lia. rewrite Z.mod_small by lia. lia. }
  rewrite s32_small in Hv by (unfold word in *; lia).
  unfold update_current_lock_state. rewrite Hid, Hv. simpl.
  destruct Hword as [[-> ->]|[-> Hword]]; simpl; [by exists false|].
  rewrite (proj2 (Z.eqb_neq (word s) 1)) by lia.
  assert ((word s =? 0) || ((1 <? word s) && (word s <=? 255)) = true) as -> by lia. eauto.
Qed.

(** CPU 0 takes the lock, CPU 1 fails, waits and polls, CPU 2 tries. *)
Definition contended : list (nat * instr) :=
  [(0%nat, Enter); (1%nat, Enter); (0%nat, Decb); (1%nat, Decb); (1%nat, Cmpb); (2%nat, Trylock); (1%nat, Cmpb)].

Lemma spin_exclusion_witness : exists s, run (fun o => step o.1 o.2) contended (init 3) = Some s /\ holders s <= 1.
Proof.
  eexists. split; [vm_compute; reflexivity|].
  refine (proj1 (spin_exclusion 3 _ (mkEnv 0 0 0 0 0 0 (fun _ => 0) (fun _ => 0) None 0)
    (mkT 0 0 0 0 0 0 L_SPIN 1 0 0 0 false false 0 0 0) LKST_OPEN _ _ _ _)).
  - vm_compute. discriminate.
  - apply (run_from _ contended); vm_compute; reflexivity.
  - reflexivity.
  - reflexivity.
Defined.

(** The bound is needed: 129 waiters bring the byte from -128 back to 127, and the
    next CPU walks in beside the holder. *)
Definition stampede : list (nat * instr) :=
  ((fun i => (i, Enter)) <$> seq 0 130) ++ ((fun i => (i, Decb)) <$> seq 0 130).

Lemma spin_wraps_at_130 : exists s, run (fun o => step o.1 o.2) stampede (init 130) = Some s /\ 1 < holders s.
Proof. eexists. split; [vm_compute; reflexivity|]. vm_compute. reflexivity. Qed.

End Spin.

(** ** Read-write spinlocks *)

Module Rw.

Definition RW_LOCK_BIAS : Z := 0x01000000.

(** Where a CPU is.  [RFailed]/[WFailed]: subtracted, lost, about to put it back in
    [__read_lock_failed]/[__write_lock_failed]; [RWait]/[WWait]: at label [1:] there;
    [RRetry]/[WRetry]: past the loop, before the second subtraction; [RTry]: between
    [atomic_dec] and [atomic_read] of [__raw_read_trylock]; [RUndo]/[WUndo]: a
    trylock about to put its subtraction back. *)
Inductive pc :=
| Idle | Reader | Writer
| RFailed | RWait | RRetry | WFailed | WWait | WRetry
| RTry | RUndo | WUndo.

Record state := mkState { lock : Z; cpus : list pc }.

Definition goto (i : nat) (p : pc) (s : state) : state := mkState (lock s) (<[i := p]> (cpus s)).
Definition add (v : Z) (s : state) : state := mkState (s32 (lock s + v)) (cpus s).

Definition __raw_read_can_lock (s : state) : bool := 0 <? lock s.
Definition __raw_write_can_lock (s : state) : bool := lock s =? RW_LOCK_BIAS.

(** [subl $1 ; jns] with the two continuations. *)
Definition sub_reader (i : nat) (fail : pc) (s : state) : state :=
  let s := add (-1) s in goto i (if lock s <? 0 then fail else Reader) s.
Definition sub_writer (i : nat) (fail : pc) (s : state) : state :=
  let s := add (- RW_LOCK_BIAS) s in goto i (if lock s =? 0 then Writer else fail) s.

(** The next instruction of CPU [i].  An idle CPU chooses what to do. *)
Inductive choice := ReadLock | WriteLock | ReadTrylock | WriteTrylock | Next.

Definition step (i : nat) (c : choice) (s : state) : option state :=
  p ← cpus s !! i;
  match c, p with
  | ReadLock, Idle => Some (sub_reader i RFailed s)              (* __build_read_lock *)
  | WriteLock, Idle => Some (sub_writer i WFailed s)             (* __build_write_lock *)
  | ReadTrylock, Idle => Some (goto i RTry (add (-1) s))         (* atomic_dec *)
  | WriteTrylock, Idle => Some (sub_writer i WUndo s)            (* atomic_sub_and_test *)
  | Next, Reader => Some (goto i Idle (add 1 s))                 (* __raw_read_unlock *)
  | Next, Writer => Some (goto i Idle (add RW_LOCK_BIAS s))      (* __raw_write_unlock *)
  | Next, RFailed => Some (goto i RWait (add 1 s))               (* incl (%eax) *)
  | Next, RWait => Some (if s32 (lock s - 1) <? 0 then s else goto i RRetry s)
  | Next, RRetry => Some (sub_reader i RFailed s)                (* decl (%eax) ; js *)
  | Next, WFailed => Some (goto i WWait (add RW_LOCK_BIAS s))
  | Next, WWait => Some (if __raw_write_can_lock s then goto i WRetry s else s)
  | Next, WRetry => Some (sub_writer i WFailed s)
  | Next, RTry => Some (goto i (if 0 <=? lock s then Reader else RUndo) s)   (* atomic_read *)
  | Next, RUndo => Some (goto i Idle (add 1 s))
  | Next, WUndo => Some (goto i Idle (add RW_LOCK_BIAS s))
  | _, _ => None
  end.

Definition init (n : nat) : state := mkState RW_LOCK_BIAS (replicate n Idle).

Definition reachable (n : nat) : state -> Prop := reach (fun o => step o.1 o.2) (init n).

(** What a CPU has subtracted from the lock word, in units of 1 and of the bias. *)
Definition sub1 (p : pc) : Z := match p with Reader | RFailed | RTry | RUndo => 1 | _ => 0 end.
Definition subB (p : pc) : Z := match p with Writer | WFailed | WUndo => 1 | _ => 0 end.
Definition isR (p : pc) : Z := match p with Reader => 1 | _ => 0 end.
Definition isW (p : pc) : Z := match p with Writer => 1 | _ => 0 end.

Definition readers (s : state) : Z := zsum isR (cpus s).
Definition writers (s : state) : Z := zsum isW (cpus s).

Definition inv (n : nat) (s : state) : Prop :=
  length (cpus s) = n /\
  lock s = RW_LOCK_BIAS - zsum sub1 (cpus s) - RW_LOCK_BIAS * zsum subB (cpus s) /\
  (writers s = 0 \/ writers s = 1 /\ readers s = 0).

Lemma rw_sums_bound l : 0 <= zsum isR l <= zsum sub1 l /\ 0 <= zsum isW l <= zsum subB l /\
  zsum sub1 l + zsum subB l <= Z.of_nat (length l).
Proof.
  rewrite <- zsum_add. split_and!; try (apply zsum_nonneg || apply zsum_le); try (by intros [] _).
  etransitivity; [apply (zsum_le _ (fun _ => 1)); by intros [] _|]. rewrite zsum_const. lia.
Qed.

Lemma rw_step_inv n s i c s' : Z.of_nat n <= 128 -> inv n s -> step i c s = Some s' -> inv n s'.
Proof.
  intros Hn (Hlen & Hlock & Hx) Hs. pose proof (rw_sums_bound (cpus s)) as Hb. rewrite Hlen in Hb.
  unfold step in Hs. destruct (cpus s !! i) as [p|] eqn:Hi; simpl in Hs; [|done].
  unfold inv, readers, writers, RW_LOCK_BIAS in *.
  pose proof (zsum_elem_le isW (cpus s) i p ltac:(by intros [] _) Hi) as HW.
  pose proof (zsum_elem_le isR (cpus s) i p ltac:(by intros [] _) Hi) as HR.
  pose proof (zsum_elem_le sub1 (cpus s) i p ltac:(by intros [] _) Hi) as H1.
  pose proof (zsum_elem_le subB (cpus s) i p ltac:(by intros [] _) Hi) as HB.
  destruct c, p; simplify_eq/=; unfold sub_reader, sub_writer, goto, add, __raw_write_can_lock, RW_LOCK_BIAS in *;
    simpl in *; try (rewrite s32_small by lia); rewrite ?Hlock in *; repeat case_match; zify_bool; simpl;
    rewrite ?length_insert, ?(zsum_insert _ _ _ _ _ Hi); simpl in *; try lia.
Qed.

Lemma rw_reachable_inv n s : Z.of_nat n <= 128 -> reachable n s -> inv n s.
Proof.
  intros Hn. apply reach_invariant; [|intros [i c] s1 s2 ? ?; by eapply rw_step_inv].
  assert (Hz : forall f : pc -> Z, f Idle = 0 -> zsum f (replicate n Idle) = 0)
    by (intros f Hf; apply zsum_0; by intros x [-> _]%elem_of_replicate).
  unfold inv, readers, writers. simpl. rewrite length_replicate, !Hz by done. split_and!; [done|done|by left].
Qed.

(** No CPU is in the middle of a failed attempt. *)
Definition quiet (s : state) : Prop := Forall (fun p => sub1 p = isR p /\ subB p = isW p) (cpus s).

Lemma quiet_sums s : quiet s -> zsum sub1 (cpus s) = readers s /\ zsum subB (cpus s) = writers s.
Proof.
  unfold quiet, readers, writers. intros H. rewrite Forall_forall in H.
  split; apply zsum_ext; intros x Hx; apply H in Hx; apply Hx.
Qed.

(** C9: read-write spinlocks admit many readers or one writer.  With at most 128
    CPUs, whatever the interleaving of lock, trylock and unlock instructions and of
    the out-of-line wait loops, a writer excludes readers and other writers, and the
    32-bit word never wraps.  When no CPU is in the middle of a failed attempt, the
    state syncchar derives from the word after a lock instruction is open, read- or
    write-locked exactly as the CPUs hold it. *)
Theorem rw_exclusion n s e t st :
  Z.of_nat n <= 128 -> reachable n s ->
  t_lock_id t = L_RSPIN \/ t_lock_id t = L_WSPIN -> flag (t_flags t) F_UNLOCK = false ->
  t_lkval t = lock s ->
  (writers s = 0 \/ writers s = 1 /\ readers s = 0) /\ - 2 ^ 31 < lock s <= RW_LOCK_BIAS /\
  (quiet s -> exists q, update_current_lock_state e t st
     = (if 0 <? writers s then LKST_WRLK else if 0 <? readers s then LKST_RLK else LKST_OPEN, q, [])).
Proof.
  intros Hn Hr Hid Hf Hv. apply rw_reachable_inv in Hr as (Hlen & Hlock & Hx); [|done].
  pose proof (rw_sums_bound (cpus s)) as Hb. rewrite Hlen in Hb. unfold RW_LOCK_BIAS in *.
  split; [done|]. split; [lia|]. intros Hq. apply quiet_sums in Hq as [Hq1 HqB].
  rewrite Hq1, HqB in *. unfold update_current_lock_state. rewrite Hf, Hv.
  destruct Hid as [Hid | Hid]; rewrite Hid; simpl; bool_cases; eauto; lia.
Qed.

(** Two readers, a writer that fails and waits, a trylock reader. *)
Definition mixed : list (nat * choice) :=
  [(0%nat, ReadLock); (1%nat, ReadLock); (2%nat, WriteLock); (2%nat, Next); (2%nat, Next);
   (3%nat, ReadTrylock); (3%nat, Next)].

Lemma rw_exclusion_witness : exists s, run (fun o => step o.1 o.2) mixed (init 4) = Some s /\ readers s = 3 /\
  exists q, update_current_lock_state (mkEnv 0 0 0 0 0 0 (fun _ => 0) (fun _ => 0) None 0)
    (mkT 0 (lock s) 0 0 0 0 L_RSPIN 1 0 0 F_LOCK false false 0 0 0) LKST_OPEN = (LKST_RLK, q, []).
Proof.
  eexists. split; [vm_compute; reflexivity|]. split; [reflexivity|].
  refine (proj2 (proj2 (rw_exclusion 4 (mkState 16777213 [Reader; Reader; WWait; Reader])
    (mkEnv 0 0 0 0 0 0 (fun _ => 0) (fun _ => 0) None 0)
    (mkT 0 16777213 0 0 0 0 L_RSPIN 1 0 0 F_LOCK false false 0 0 0) LKST_OPEN _ _ _ _ _)) _).
  - vm_compute. discriminate.
  - apply (run_from _ mixed); vm_compute; reflexivity.
  - left. reflexivity.
  - reflexivity.
  - reflexivity.
  - repeat constructor.
Defined.

End Rw.
