(* ===== verification/Semaphore.v ===== *)
(** * The kernel's counting semaphores

    Model of [include/asm-i386/semaphore.h] and [lib/semaphore-sleepers.c]: the
    two-way counter ([count], decremented by every attempt, and [sleepers], which
    remembers how many of those decrements are still to be undone), the wait queue,
    and the sleeping and waking of tasks.  One step is one locked instruction, or one
    critical section of the wait-queue lock; any task may take the next step. *)

From S2P Require Import Prelude.

(** [down] or [down_interruptible]. *)
Inductive kind := Plain | Intr.

(** Where a task is: outside; past a failed [decl], about to enter [__down] or
    [__down_trylock]; asleep on the queue; awake in the loop of [__down]; past an
    [incl] that found waiters, about to call [__up]. *)
Inductive pc := Idle | Failed (k : kind) | TryFailed | Asleep (k : kind) | Awake (k : kind) | Waker.

Record semaphore := mkSem {
  count : Z;
  sleepers : Z;
  wait : list nat;       (* the exclusive waiters, in queue order *)
  tasks : list pc;
  downs : Z;             (* units handed out, over the whole run *)
  ups : Z                (* units returned *)
}.

Definition sema_init (val : Z) (n : nat) : semaphore := mkSem val 0 [] (replicate n Idle) 0 0.

Definition goto (i : nat) (p : pc) (s : semaphore) : semaphore :=
  mkSem (count s) (sleepers s) (wait s) (<[i := p]> (tasks s)) (downs s) (ups s).
Definition atomic_add (v : Z) (s : semaphore) : semaphore :=
  mkSem (s32 (count s + v)) (sleepers s) (wait s) (tasks s) (downs s) (ups s).
Definition set_sleepers (v : Z) (s : semaphore) : semaphore :=
  mkSem (count s) v (wait s) (tasks s) (downs s) (ups s).
Definition set_wait (q : list nat) (s : semaphore) : semaphore :=
  mkSem (count s) (sleepers s) q (tasks s) (downs s) (ups s).
Definition got (s : semaphore) : semaphore :=
  mkSem (count s) (sleepers s) (wait s) (tasks s) (downs s + 1) (ups s).
Definition returned (s : semaphore) : semaphore :=
  mkSem (count s) (sleepers s) (wait s) (tasks s) (downs s) (ups s + 1).

(** [wake_up] of one exclusive waiter: the first on the queue that is asleep. *)
Fixpoint wake_first (q : list nat) (ts : list pc) : list pc :=
  match q with
  | [] => ts
  | i :: q => match ts !! i with
              | Some (Asleep k) => <[i := Awake k]> ts
              | _ => wake_first q ts
              end
  end.

Definition wake_up (s : semaphore) : semaphore :=
  mkSem (count s) (sleepers s) (wait s) (wake_first (wait s) (tasks s)) (downs s) (ups s).

(** [down], [down_interruptible]: [decl ; js]. *)
Definition down (k : kind) (i : nat) (s : semaphore) : semaphore :=
  let s := atomic_add (-1) s in
  if count s <? 0 then goto i (Failed k) s else got s.

Definition down_trylock (i : nat) (s : semaphore) : semaphore :=
  let s := atomic_add (-1) s in
  if count s <? 0 then goto i TryFailed s else got s.

(** [up]: [incl ; jle]. *)
Definition up (i : nat) (s : semaphore) : semaphore :=
  let s := returned (atomic_add 1 s) in
  if count s <=? 0 then goto i Waker s else s.

Definition __up (i : nat) (s : semaphore) : semaphore := wake_up (goto i Idle s).

(** Leaving the loop: off the queue, wake the next. *)
Definition leave (i : nat) (s : semaphore) : semaphore :=
  wake_up (set_wait (filter (fun j => j <> i) (wait s)) (goto i Idle s)).

(** One turn of the loop of [__down] and [__down_interruptible], under the
    wait-queue lock; [sig] is [signal_pending(current)]. *)
Definition __down_loop (k : kind) (sig : bool) (i : nat) (s : semaphore) : semaphore :=
  let sl := sleepers s in
  if match k with Intr => sig | Plain => false end then
    leave i (atomic_add sl (set_sleepers 0 s))
  else
    let s := atomic_add (sl - 1) s in
    if count s <? 0 then goto i (Asleep k) (set_sleepers 1 s)
    else leave i (got (set_sleepers 0 s)).

(** The entry of [__down]: join the queue, count in, first turn of the loop. *)
Definition __down (k : kind) (sig : bool) (i : nat) (s : semaphore) : semaphore :=
  __down_loop k sig i (set_sleepers (sleepers s + 1) (set_wait (wait s ++ [i]) s)).

Definition __down_trylock (i : nat) (s : semaphore) : semaphore :=
  let sl := sleepers s + 1 in
  let s := atomic_add sl (set_sleepers 0 s) in
  goto i Idle (if count s <? 0 then s else wake_up s).

Inductive action := Down (k : kind) | TryDown | Up | Signal | Next (sig : bool).

Definition step (i : nat) (a : action) (s : semaphore) : option semaphore :=
  p ← tasks s !! i;
  match a, p with
  | Down k, Idle => Some (down k i s)
  | TryDown, Idle => Some (down_trylock i s)
  | Up, Idle => Some (up i s)
  | Signal, Asleep Intr => Some (goto i (Awake Intr) s)
  | Next sig, Failed k => Some (__down k sig i s)
  | Next _, TryFailed => Some (__down_trylock i s)
  | Next sig, Awake k => Some (__down_loop k sig i s)
  | Next _, Waker => Some (__up i s)
  | _, _ => None
  end.

(** The units not handed out. *)
Definition avail (val : Z) (s : semaphore) : Z := val + ups s - downs s.

(** A step after which the number of free units is still within [int]. *)
Definition bounded_step (val : Z) (o : nat * action) (s : semaphore) : option semaphore :=
  s ← step o.1 o.2 s; if avail val s <? 2 ^ 30 then Some s else None.

(** Runs of [n] tasks on a semaphore of initial value [val]. *)
Definition reachable (val : Z) (n : nat) : semaphore -> Prop :=
  reach (bounded_step val) (sema_init val n).

(** ** Counting tasks *)

Definition isP (p : pc) : Z := match p with Failed _ | TryFailed => 1 | _ => 0 end.
Definition isA (p : pc) : Z := match p with Asleep _ => 1 | _ => 0 end.
(** Tasks that will look at the semaphore again without being woken. *)
Definition isActive (p : pc) : Z := match p with Failed _ | TryFailed | Awake _ | Waker => 1 | _ => 0 end.

Definition queued (p : pc) : bool := match p with Asleep _ | Awake _ => true | _ => false end.

(** The queue holds exactly the tasks asleep or awake in the loop, once each. *)
Definition queue_ok (s : semaphore) : Prop :=
  NoDup (wait s) /\ forall i, i ∈ wait s <-> exists p, tasks s !! i = Some p /\ queued p = true.

Definition inv (val : Z) (n : nat) (s : semaphore) : Prop :=
  length (tasks s) = n /\ queue_ok s /\
  count s = avail val s - zsum isP (tasks s) - sleepers s /\
  0 <= sleepers s <= 1 /\ 0 <= avail val s < 2 ^ 30 /\
  (zsum isActive (tasks s) = 0 -> 0 < zsum isA (tasks s) -> sleepers s = 1 /\ avail val s = 0).

Lemma sem_sums_bound l : 0 <= zsum isP l <= zsum isActive l /\ 0 <= zsum isA l /\
  zsum isActive l + zsum isA l <= Z.of_nat (length l).
Proof.
  rewrite <- zsum_add. split_and!; try (apply zsum_nonneg || apply zsum_le); try (by intros [] _).
  etransitivity; [apply (zsum_le _ (fun _ => 1)); by intros [] _|]. rewrite zsum_const. lia.
Qed.

(** Waking changes one sleeper into an active task, if there is one. *)
Lemma wake_first_spec q ts :
  (forall i k, ts !! i = Some (Asleep k) -> i ∈ q) ->
  exists b, 0 <= b <= 1 /\ (b = 0 -> zsum isA ts = 0) /\
    zsum isA (wake_first q ts) = zsum isA ts - b /\
    zsum isActive (wake_first q ts) = zsum isActive ts + b /\
    zsum isP (wake_first q ts) = zsum isP ts.
Proof.
  induction q as [|i q IH]; intros Hq; simpl.
  - exists 0. split_and!; try lia. intros _. apply zsum_0. intros p Hp. destruct p; try done.
    apply list_elem_of_lookup in Hp as [j Hj]. apply Hq in Hj. by apply not_elem_of_nil in Hj.
  - destruct (ts !! i) as [p|] eqn:Ei.
    + destruct p; try (apply IH; intros j k' Hj; pose proof (Hq _ _ Hj) as Hj'; apply elem_of_cons in Hj' as [-> |]; congruence).
      exists 1. rewrite !(zsum_insert _ _ _ _ _ Ei). simpl. lia.
    + apply IH. intros j k' Hj. pose proof (Hq _ _ Hj) as Hj'. apply elem_of_cons in Hj' as [-> |]; congruence.
Qed.

Lemma wake_first_queued q ts : length (wake_first q ts) = length ts /\
  forall i, queued <$> wake_first q ts !! i = queued <$> ts !! i.
Proof.
  induction q as [|j q IH]; simpl; [done|]. destruct (ts !! j) as [[]|] eqn:Ej; try done.
  split; [apply length_insert|]. intros i. destruct (decide (i = j)) as [-> |].
  - rewrite list_lookup_insert_eq, Ej; [done|]. by eapply lookup_lt_Some.
  - by rewrite list_lookup_insert_ne.
Qed.

(** ** The invariant *)

(** The invariant without its last clause; [m] bounds [sleepers]. *)
Definition base (val : Z) (n : nat) (m : Z) (s : semaphore) : Prop :=
  length (tasks s) = n /\ queue_ok s /\
  count s = avail val s - zsum isP (tasks s) - sleepers s /\
  0 <= sleepers s <= m /\ 0 <= avail val s < 2 ^ 30.

Lemma sem_queue_goto i p p' s :
  queue_ok s -> tasks s !! i = Some p -> queued p' = queued p -> queue_ok (goto i p' s).
Proof.
  intros [Hn Hq] Hi Hp. split; [done|]. intros j. rewrite Hq. simpl.
  destruct (decide (i = j)) as [<- |]; [|by rewrite list_lookup_insert_ne].
  rewrite list_lookup_insert_eq by by eapply lookup_lt_Some. rewrite Hi. naive_solver congruence.
Qed.

Lemma sem_queue_join i p p' s :
  queue_ok s -> tasks s !! i = Some p -> queued p = false -> queued p' = true ->
  queue_ok (goto i p' (set_wait (wait s ++ [i]) s)).
Proof.
  intros [Hn Hq] Hi Hp Hp'. assert (Hni : i ∉ wait s).
  { rewrite Hq. intros (p0 & H0 & Hq0). congruence. }
  split; simpl.
  - apply NoDup_app. split_and!; [done| |apply NoDup_singleton].
    intros j Hj ->%list_elem_of_singleton. done.
  - intros j. rewrite elem_of_app, list_elem_of_singleton, Hq. destruct (decide (i = j)) as [<- |].
    + rewrite list_lookup_insert_eq by by eapply lookup_lt_Some. naive_solver.
    + rewrite list_lookup_insert_ne by done. naive_solver.
Qed.

Lemma sem_queue_leave i p p' s :
  queue_ok s -> tasks s !! i = Some p -> queued p' = false ->
  queue_ok (set_wait (filter (fun j => j <> i) (wait s)) (goto i p' s)).
Proof.
  intros [Hn Hq] Hi Hp'. split; simpl; [by apply NoDup_filter|].
  intros j. rewrite list_elem_of_filter, Hq. destruct (decide (i = j)) as [<- |].
  - rewrite list_lookup_insert_eq by by eapply lookup_lt_Some. naive_solver congruence.
  - rewrite list_lookup_insert_ne by done. naive_solver.
Qed.

(** After a wake-up somebody is active, or nobody sleeps. *)
Lemma wake_inv val n s : base val n 1 s -> inv val n (wake_up s).
Proof.
  intros (Hlen & [Hnd Hq] & Hc & Hs & Ha). destruct (wake_first_queued (wait s) (tasks s)) as [Hl Hqu].
  destruct (wake_first_spec (wait s) (tasks s)) as (b & Hb & Hb0 & HA & HAct & HP).
  { intros i k Hi. apply Hq. eauto. }
  pose proof (sem_sums_bound (tasks s)). unfold inv, wake_up, avail in *. simpl in *. split_and!; try lia.
  - split; [done|]. intros i. rewrite Hq. specialize (Hqu i). simpl.
    destruct (tasks s !! i), (wake_first (wait s) (tasks s) !! i); simplify_eq/=; naive_solver congruence.
Qed.

Lemma base_goto val n m i p p' s :
  base val n m s -> tasks s !! i = Some p -> queued p' = queued p -> isP p' = isP p -> base val n m (goto i p' s).
Proof.
  intros (Hlen & Hq & Hc & Hs & Ha) Hi Hqq HP. unfold base, avail in *. simpl in *.
  rewrite length_insert, (zsum_insert _ _ _ _ _ Hi), HP. split_and!; try lia. by eapply sem_queue_goto.
Qed.

Lemma loop_goto k sig i p s : __down_loop k sig i (goto i p s) = __down_loop k sig i s.
Proof.
  unfold __down_loop, leave, goto, got, atomic_add, set_sleepers, set_wait. simpl.
  by rewrite !list_insert_insert_eq.
Qed.

(** One turn of the loop by an awake waiter. *)
Lemma loop_inv val n k sig i s :
  Z.of_nat n < 2 ^ 30 -> base val n 2 s -> tasks s !! i = Some (Awake k) ->
  avail val (__down_loop k sig i s) < 2 ^ 30 -> inv val n (__down_loop k sig i s).
Proof.
  intros Hn (Hlen & Hq & Hc & Hs & Ha) Hi. pose proof (sem_sums_bound (tasks s)) as Hb. rewrite Hlen in Hb.
  pose proof (zsum_elem_le isActive (tasks s) i _ ltac:(by intros [] _) Hi) as Hact. simpl in Hact.
  pose proof (zsum_elem_le (fun p => isActive p + - isP p) (tasks s) i _ ltac:(by intros [] _) Hi) as Hrest.
  rewrite zsum_add, zsum_opp in Hrest. simpl in Hrest.
  assert (Hleave : forall c d, c = avail val s - d + downs s - zsum isP (tasks s) -> 0 <= avail val s - d + downs s ->
      avail val s - d + downs s < 2 ^ 30 ->
      inv val n (leave i (mkSem c 0 (wait s) (tasks s) d (ups s)))).
  { intros c d Hcd H0 H1. apply wake_inv. unfold base, avail in *. simpl.
    rewrite length_insert, (zsum_insert _ _ _ _ _ Hi). simpl. split_and!; try lia.
    eapply (sem_queue_leave i (Awake k) Idle (mkSem c 0 (wait s) (tasks s) d (ups s))); done. }
  unfold __down_loop. destruct (match k with Intr => sig | Plain => false end).
  { intros _. unfold atomic_add, set_sleepers. simpl. rewrite s32_small by lia. apply Hleave; lia. }
  unfold atomic_add. cbn [count]. rewrite s32_small by lia. case_match; zify_bool.
  - intros _. unfold inv, avail in *. simpl. rewrite length_insert, !(zsum_insert _ _ _ _ _ Hi). simpl.
    split_and!; try lia. by apply (sem_queue_goto i (Awake k)).
  - unfold got, set_sleepers. simpl. intros _. apply Hleave; unfold avail in *; lia.
Qed.

Lemma inv_base val n s : inv val n s -> base val n 1 s.
Proof. unfold inv, base. tauto. Qed.

(** The locked instructions of [down], [down_trylock] and [up]. *)
Lemma attempt_inv val n i p s :
  Z.of_nat n < 2 ^ 30 -> inv val n s -> tasks s !! i = Some Idle -> isP p = 1 -> queued p = false ->
  let s1 := atomic_add (-1) s in
  inv val n (if count s1 <? 0 then goto i p s1 else got s1).
Proof.
  intros Hn (Hlen & Hq & Hc & Hs & Ha & Hl) Hi HP Hqd. pose proof (sem_sums_bound (tasks s)) as Hb.
  rewrite Hlen in Hb. cbn zeta. unfold atomic_add. cbn [count]. rewrite s32_small by lia.
  assert (Hact : isActive p = 1) by by destruct p. assert (HA : isA p = 0) by by destruct p.
  case_match; zify_bool; unfold inv, avail in *; simpl in *;
    rewrite ?length_insert, ?(zsum_insert _ _ _ _ _ Hi), ?HP, ?Hact, ?HA; simpl; split_and!; try lia.
  - apply (sem_queue_goto i Idle); [exact Hq|done|by rewrite Hqd].
  - exact Hq.
Qed.

Lemma up_inv val n i s :
  Z.of_nat n < 2 ^ 30 -> inv val n s -> tasks s !! i = Some Idle -> avail val (up i s) < 2 ^ 30 ->
  inv val n (up i s).
Proof.
  intros Hn (Hlen & Hq & Hc & Hs & Ha & Hl) Hi. pose proof (sem_sums_bound (tasks s)) as Hb. rewrite Hlen in Hb.
  unfold up, returned, atomic_add, inv, avail in *. cbn [count]. rewrite s32_small by lia.
  case_match; zify_bool; simpl in *; intros; rewrite ?length_insert, ?(zsum_insert _ _ _ _ _ Hi); simpl;
    split_and!; try lia.
  - apply (sem_queue_goto i Idle); [exact Hq|done|done].
  - exact Hq.
Qed.

(** Waking and moving a task that is not asleep commute. *)
Lemma wake_first_insert q ts i p p' :
  ts !! i = Some p -> isA p = 0 -> isA p' = 0 ->
  <[i := p']> (wake_first q ts) = wake_first q (<[i := p']> ts).
Proof.
  intros Hi Hp Hp'. induction q as [|j q IH]; simpl; [done|].
  destruct (decide (i = j)) as [<- |Hne].
  - rewrite Hi, list_lookup_insert_eq by by eapply lookup_lt_Some. by destruct p, p'.
  - rewrite list_lookup_insert_ne by done. destruct (ts !! j) as [[]|]; try done.
    by rewrite list_insert_insert_ne.
Qed.

Lemma trylock_inv val n i s :
  Z.of_nat n < 2 ^ 30 -> inv val n s -> tasks s !! i = Some TryFailed -> inv val n (__down_trylock i s).
Proof.
  intros Hn (Hlen & Hq & Hc & Hs & Ha & Hl) Hi. pose proof (sem_sums_bound (tasks s)) as Hb. rewrite Hlen in Hb.
  unfold __down_trylock, atomic_add, set_sleepers. cbn [count sleepers wait tasks downs ups].
  rewrite s32_small by lia.
  set (s1 := mkSem (count s + (sleepers s + 1)) 0 (wait s) (tasks s) (downs s) (ups s)).
  assert (Hb1 : base val n 1 (goto i Idle s1)).
  { unfold base, avail in *. simpl. rewrite length_insert, (zsum_insert _ _ _ _ _ Hi). simpl.
    split_and!; try lia. apply (sem_queue_goto i TryFailed); [exact Hq|done|done]. }
  simpl. case_match; zify_bool.
  - destruct Hb1 as (? & ? & Hc1 & ? & ?). unfold inv.
    pose proof (sem_sums_bound (tasks (goto i Idle s1))) as Hb2. unfold avail in *. simpl in *.
    split_and!; try done; lia.
  - assert (Heq : goto i Idle (wake_up s1) = wake_up (goto i Idle s1)); [|rewrite Heq; by apply wake_inv].
    unfold goto, wake_up. simpl. f_equal. by eapply wake_first_insert.
Qed.

Lemma sem_step_inv val n i a s s' :
  Z.of_nat n < 2 ^ 30 -> inv val n s -> step i a s = Some s' -> avail val s' < 2 ^ 30 -> inv val n s'.
Proof.
  intros Hn Hinv Hs Hav. unfold step in Hs. destruct (tasks s !! i) as [p|] eqn:Hi; simpl in Hs; [|done].
  destruct a as [k| | | |sig], p as [|k'| |k'|k'|]; simplify_eq.
  - by apply (attempt_inv val n i (Failed k)).
  - by apply (attempt_inv val n i TryFailed).
  - by apply up_inv.
  - destruct k'; simplify_eq. destruct Hinv as (Hlen & Hq & Hc & Hsl & Ha & Hl).
    pose proof (sem_sums_bound (tasks s)). unfold inv, avail in *. simpl in *.
    rewrite length_insert, !(zsum_insert _ _ _ _ _ Hi). simpl. split_and!; try lia.
    by apply (sem_queue_goto i (Asleep Intr)).
  - unfold __down in *. rewrite <- (loop_goto k' sig i (Awake k')) in *.
    destruct Hinv as (Hlen & Hq & Hc & Hsl & Ha & Hl). apply loop_inv; [done| | |done].
    + unfold base, avail in *. simpl. rewrite length_insert, (zsum_insert _ _ _ _ _ Hi). simpl.
      split_and!; try lia. by apply (sem_queue_join i (Failed k') (Awake k') s).
    + simpl. apply list_lookup_insert_eq. by eapply lookup_lt_Some.
  - by apply trylock_inv.
  - apply loop_inv; try done. apply inv_base in Hinv as (? & ? & ? & ? & ?). unfold base. split_and!; try done; lia.
  - apply wake_inv. eapply base_goto; [by apply inv_base|done|done|done].
Qed.

Lemma sem_reachable_inv val n s :
  Z.of_nat n < 2 ^ 30 -> 0 <= val < 2 ^ 30 -> reachable val n s -> inv val n s.
Proof.
  intros Hn Hv. apply reach_invariant.
  2: { intros [i a] s1 s2 H1 H2. unfold bounded_step in H2. simpl in H2.
       destruct (step i a s1) as [s3|] eqn:E; simpl in H2; [|done]. case_match; [|done]. zify_bool. simplify_eq.
       by eapply sem_step_inv. }
  assert (Hz : forall f : pc -> Z, f Idle = 0 -> zsum f (replicate n Idle) = 0)
    by (intros f Hf; apply zsum_0; by intros x [-> _]%elem_of_replicate).
  unfold inv, avail. simpl. rewrite length_replicate, !Hz by done. split_and!; try lia.
  split; [constructor|]. intros i. split; [by intros ?%not_elem_of_nil|].
  intros (p & [-> _]%lookup_replicate & Hp). done.
Qed.

(** C10: semaphores hand out no more units than they have, and lose no wake-up.  In
    every interleaving of [down], [down_interruptible] (with signals), [down_trylock]
    and [up], split at their locked instructions and their critical sections, the
    units taken never exceed the initial value plus the units returned; and whenever
    a task is asleep while a unit is free, some other task is still on its way to
    the semaphore (about to enter it, awake in its loop, or about to wake). *)
Theorem semaphore_correct val n s :
  Z.of_nat n < 2 ^ 30 -> 0 <= val < 2 ^ 30 -> reachable val n s ->
  downs s - ups s <= val /\
  (0 < avail val s -> 0 < zsum isA (tasks s) -> 0 < zsum isActive (tasks s)).
Proof.
  intros Hn Hv Hr. apply sem_reachable_inv in Hr as (_ & _ & _ & _ & Ha & Hl); [|done|done].
  pose proof (sem_sums_bound (tasks s)). unfold avail in *. lia.
Qed.

(** Task 0 takes the only unit, 1 and 2 block, 0 returns it: 1 is woken. *)
Definition handover : list (nat * action) :=
  [(0%nat, Down Plain); (1%nat, Down Plain); (1%nat, Next false); (2%nat, Down Intr); (2%nat, Next false);
   (0%nat, Up); (0%nat, Next false)].

Lemma semaphore_correct_witness : exists s, run (bounded_step 1) handover (sema_init 1 3) = Some s /\
  downs s - ups s <= 1 /\ tasks s = [Idle; Awake Plain; Asleep Intr].
Proof.
  eexists. split; [vm_compute; reflexivity|]. split; [|reflexivity].
  refine (proj1 (semaphore_correct 1 3 _ _ _ _)); [lia|lia|].
  apply (run_from _ handover). vm_compute. reflexivity.
Defined.
