(* ===== verification/RwsemSpinlock.v ===== *)
(** * Read-write semaphores, the spinlock variant

    Model of [lib/rwsem-spinlock.c]: every operation runs under [sem->wait_lock], so
    one step is one call; a task that has to wait goes on [wait_list] and is handed
    the lock by the task that wakes it.  The invariant ties [activity] to the tasks
    that hold the lock and says what the wake-up code relies on: a free semaphore has
    no waiters, and a read-locked one has a writer at the head of the queue. *)

From S2P Require Import Prelude.

Inductive waiting := RWSEM_WAITING_FOR_READ | RWSEM_WAITING_FOR_WRITE.

#[export] Instance waiting_eq_dec : EqDecision waiting.
Proof. solve_decision. Defined.

Record rw_semaphore := mkRwsem {
  activity : Z;
  wait_list : list (nat * waiting)     (* task, flags; in queue order *)
}.

Definition init_rwsem : rw_semaphore := mkRwsem 0 [].

Definition rwsem_is_locked (sem : rw_semaphore) : bool := negb (activity sem =? 0).

(** ** The operations

    Each returns the semaphore and the tasks woken, or granted at once. *)

(** The loop that grants the lock to the readers at the front. *)
Fixpoint wake_readers (l : list (nat * waiting)) : list nat * list (nat * waiting) :=
  match l with
  | (t, RWSEM_WAITING_FOR_READ) :: rest => let '(woken, rest) := wake_readers rest in (t :: woken, rest)
  | _ => ([], l)
  end.

Definition __rwsem_do_wake (sem : rw_semaphore) (wakewrite : bool) : rw_semaphore * list nat :=
  match wait_list sem with
  | [] => (sem, [])
  | (t, RWSEM_WAITING_FOR_WRITE) :: rest =>
      if wakewrite then (mkRwsem (-1) rest, [t]) else (sem, [])
  | (_, RWSEM_WAITING_FOR_READ) :: _ =>
      let '(woken, rest) := wake_readers (wait_list sem) in
      (mkRwsem (s32 (activity sem + Z.of_nat (length woken))) rest, woken)
  end.

Definition __rwsem_wake_one_writer (sem : rw_semaphore) : rw_semaphore * list nat :=
  match wait_list sem with
  | [] => (mkRwsem (-1) [], [])
  | (t, _) :: rest => (mkRwsem (-1) rest, [t])
  end.

Definition list_empty (sem : rw_semaphore) : bool :=
  match wait_list sem with [] => true | _ => false end.

(** The flag says whether the lock was granted at once. *)
Definition __down_read (t : nat) (sem : rw_semaphore) : rw_semaphore * bool :=
  if (0 <=? activity sem) && list_empty sem then (mkRwsem (s32 (activity sem + 1)) (wait_list sem), true)
  else (mkRwsem (activity sem) (wait_list sem ++ [(t, RWSEM_WAITING_FOR_READ)]), false).

Definition __down_read_trylock (sem : rw_semaphore) : rw_semaphore * bool :=
  if (0 <=? activity sem) && list_empty sem then (mkRwsem (s32 (activity sem + 1)) (wait_list sem), true)
  else (sem, false).

Definition __down_write (t : nat) (sem : rw_semaphore) : rw_semaphore * bool :=
  if (activity sem =? 0) && list_empty sem then (mkRwsem (-1) (wait_list sem), true)
  else (mkRwsem (activity sem) (wait_list sem ++ [(t, RWSEM_WAITING_FOR_WRITE)]), false).

Definition __down_write_trylock (sem : rw_semaphore) : rw_semaphore * bool :=
  if (activity sem =? 0) && list_empty sem then (mkRwsem (-1) (wait_list sem), true)
  else (sem, false).

Definition __up_read (sem : rw_semaphore) : rw_semaphore * list nat :=
  let sem := mkRwsem (s32 (activity sem - 1)) (wait_list sem) in
  if (activity sem =? 0) && negb (list_empty sem) then __rwsem_wake_one_writer sem else (sem, []).

Definition __up_write (sem : rw_semaphore) : rw_semaphore * list nat :=
  let sem := mkRwsem 0 (wait_list sem) in
  if negb (list_empty sem) then __rwsem_do_wake sem true else (sem, []).

Definition __downgrade_write (sem : rw_semaphore) : rw_semaphore * list nat :=
  let sem := mkRwsem 1 (wait_list sem) in
  if negb (list_empty sem) then __rwsem_do_wake sem false else (sem, []).

(** ** The tasks *)

Inductive pc := Idle | Wait (w : waiting) | Hold (w : waiting).

#[export] Instance pc_eq_dec : EqDecision pc.
Proof. solve_decision. Defined.

Record system := mkSys { sem : rw_semaphore; tasks : list pc }.

(** A woken task finds [waiter.task] cleared and holds what it waited for. *)
Definition grant (t : nat) (ts : list pc) : list pc :=
  match ts !! t with
  | Some (Wait w) => <[t := Hold w]> ts
  | _ => ts
  end.

Fixpoint grant_all (l : list nat) (ts : list pc) : list pc :=
  match l with [] => ts | t :: l => grant_all l (grant t ts) end.

Inductive op := DownRead | DownReadTry | DownWrite | DownWriteTry | UpRead | UpWrite | Downgrade.

Definition step (t : nat) (o : op) (s : system) : option system :=
  p ← tasks s !! t;
  let '(R, W) := (RWSEM_WAITING_FOR_READ, RWSEM_WAITING_FOR_WRITE) in
  match o, p with
  | DownRead, Idle => let '(m, g) := __down_read t (sem s) in
      Some (mkSys m (<[t := if g : bool then Hold R else Wait R]> (tasks s)))
  | DownReadTry, Idle => let '(m, g) := __down_read_trylock (sem s) in
      Some (mkSys m (if g : bool then <[t := Hold R]> (tasks s) else tasks s))
  | DownWrite, Idle => let '(m, g) := __down_write t (sem s) in
      Some (mkSys m (<[t := if g : bool then Hold W else Wait W]> (tasks s)))
  | DownWriteTry, Idle => let '(m, g) := __down_write_trylock (sem s) in
      Some (mkSys m (if g : bool then <[t := Hold W]> (tasks s) else tasks s))
  | UpRead, Hold RWSEM_WAITING_FOR_READ => let '(m, woken) := __up_read (sem s) in
      Some (mkSys m (grant_all woken (<[t := Idle]> (tasks s))))
  | UpWrite, Hold RWSEM_WAITING_FOR_WRITE => let '(m, woken) := __up_write (sem s) in
      Some (mkSys m (grant_all woken (<[t := Idle]> (tasks s))))
  | Downgrade, Hold RWSEM_WAITING_FOR_WRITE => let '(m, woken) := __downgrade_write (sem s) in
      Some (mkSys m (grant_all woken (<[t := Hold R]> (tasks s))))
  | _, _ => None
  end.

Definition init (n : nat) : system := mkSys init_rwsem (replicate n Idle).

Definition reachable (n : nat) : system -> Prop := reach (fun o => step o.1 o.2) (init n).

(** ** The invariant *)

Definition holds (w : waiting) (ts : list pc) : Z := zsum (fun p => Z.b2z (bool_decide (p = Hold w))) ts.

Abbreviation R := RWSEM_WAITING_FOR_READ.
Abbreviation W := RWSEM_WAITING_FOR_WRITE.

(** The queue lists the waiting tasks with what they wait for, once each. *)
Definition queue_ok (q : list (nat * waiting)) (ts : list pc) : Prop :=
  NoDup q.*1 /\ forall t w, (t, w) ∈ q <-> ts !! t = Some (Wait w).

Definition activity_ok (a : Z) (ts : list pc) : Prop :=
  (a = holds R ts /\ holds W ts = 0) \/ (a = -1 /\ holds R ts = 0 /\ holds W ts = 1).

Definition heads_ok (sem : rw_semaphore) : Prop :=
  match wait_list sem with
  | [] => True
  | (_, w) :: _ => activity sem = -1 \/ (0 < activity sem /\ w = W)
  end.

Definition inv (n : nat) (s : system) : Prop :=
  length (tasks s) = n /\ queue_ok (wait_list (sem s)) (tasks s) /\
  activity_ok (activity (sem s)) (tasks s) /\ heads_ok (sem s).

Lemma holds_insert w ts i p p' :
  ts !! i = Some p ->
  holds w (<[i := p']> ts) = holds w ts - Z.b2z (bool_decide (p = Hold w)) + Z.b2z (bool_decide (p' = Hold w)).
Proof. intros Hi. unfold holds. by rewrite (zsum_insert _ _ _ _ _ Hi). Qed.

Lemma holds_ge w ts i p : ts !! i = Some p -> Z.b2z (bool_decide (p = Hold w)) <= holds w ts.
Proof. intros Hi. unfold holds. by apply (zsum_elem_le (fun p => Z.b2z (bool_decide (p = Hold w))) ts i p (fun x _ => b2z_nonneg _)). Qed.

Lemma holds_bound ts : 0 <= holds R ts /\ 0 <= holds W ts /\ holds R ts + holds W ts <= Z.of_nat (length ts).
Proof.
  unfold holds. rewrite <- zsum_add. split_and!; try (apply zsum_nonneg; intros; apply b2z_nonneg).
  etransitivity; [apply (zsum_le _ (fun _ => 1)); by intros [|[]|[]] _|]. rewrite zsum_const. lia.
Qed.

(** A change that neither starts nor ends a wait. *)
Lemma rwsem_queue_keep q ts t p p' :
  queue_ok q ts -> ts !! t = Some p -> (forall w, p <> Wait w) -> (forall w, p' <> Wait w) ->
  queue_ok q (<[t := p']> ts).
Proof.
  intros [Hn Hq] Ht Hp Hp'. split; [done|]. intros t' w. rewrite Hq.
  destruct (decide (t = t')) as [<- |]; [|by rewrite list_lookup_insert_ne].
  rewrite list_lookup_insert_eq by by eapply lookup_lt_Some. naive_solver congruence.
Qed.

Lemma rwsem_queue_join q ts t p w :
  queue_ok q ts -> ts !! t = Some p -> (forall w, p <> Wait w) -> queue_ok (q ++ [(t, w)]) (<[t := Wait w]> ts).
Proof.
  intros [Hn Hq] Ht Hp. split.
  - rewrite fmap_app. apply NoDup_app. split_and!; [done| |apply NoDup_singleton].
    intros t' ([t0 w0] & Heq & Hin)%list_elem_of_fmap_1 Ht'%list_elem_of_singleton.
    simpl in *. subst. apply Hq in Hin. naive_solver.
  - intros t' w'. rewrite elem_of_app, list_elem_of_singleton, Hq. destruct (decide (t = t')) as [<- |].
    + rewrite list_lookup_insert_eq by by eapply lookup_lt_Some. naive_solver.
    + rewrite list_lookup_insert_ne by done. naive_solver.
Qed.

Lemma grant_one q ts t w :
  queue_ok ((t, w) :: q) ts ->
  queue_ok q (grant t ts) /\ length (grant t ts) = length ts /\
  forall w', holds w' (grant t ts) = holds w' ts + Z.b2z (bool_decide (w = w')).
Proof.
  intros [Hn Hq]. assert (Ht : ts !! t = Some (Wait w)) by (apply Hq; left).
  apply NoDup_cons in Hn as [Hni Hn]. unfold grant. rewrite Ht. split_and!.
  - split; [done|]. intros t' w'. destruct (decide (t = t')) as [<- |Hne].
    + rewrite list_lookup_insert_eq by by eapply lookup_lt_Some. split; [|done].
      intros Hin. destruct Hni. by apply (list_elem_of_fmap_2 fst _ (t, w')).
    + rewrite list_lookup_insert_ne by done. rewrite <- Hq, elem_of_cons. naive_solver.
  - apply length_insert.
  - intros w'. rewrite (holds_insert _ _ _ _ _ Ht). rewrite (bool_decide_eq_false_2 (Wait w = Hold w')) by done.
    rewrite (bool_decide_ext (Hold w = Hold w') (w = w')) by naive_solver. simpl. lia.
Qed.

(** Granting the lock to the first waiters of the queue. *)
Lemma grant_prefix q1 : forall q2 ts,
  queue_ok (q1 ++ q2) ts ->
  let ts' := grant_all q1.*1 ts in
  queue_ok q2 ts' /\ length ts' = length ts /\
  forall w, holds w ts' = holds w ts + zsum (fun e => Z.b2z (bool_decide (e.2 = w))) q1.
Proof.
  induction q1 as [|[t w] q1 IH]; intros q2 ts Hq; csimpl; [split_and!; [done|done|lia]|].
  destruct (grant_one (q1 ++ q2) ts t w Hq) as (Hq1 & Hl1 & Hh1).
  destruct (IH q2 (grant t ts) Hq1) as (Hq2 & Hl2 & Hh2). split_and!; [done|congruence|].
  intros w'. rewrite Hh2, Hh1. lia.
Qed.

Lemma wake_readers_spec l : exists q1 rest,
  wake_readers l = (q1.*1, rest) /\ l = q1 ++ rest /\ Forall (fun e => e.2 = R) q1 /\
  match rest with (_, w) :: _ => w = W | [] => True end.
Proof.
  induction l as [|[t w] l IH]; simpl; [by exists [], []|]. destruct w.
  - destruct IH as (q1 & rest & -> & -> & Hf & Hr). exists ((t, R) :: q1), rest. split_and!; try done.
    by constructor.
  - by exists [], ((t, W) :: l).
Qed.

Lemma count_readers q1 : Forall (fun e : nat * waiting => e.2 = R) q1 ->
  zsum (fun e => Z.b2z (bool_decide (e.2 = R))) q1 = Z.of_nat (length q1.*1) /\
  zsum (fun e => Z.b2z (bool_decide (e.2 = W))) q1 = 0.
Proof.
  induction 1 as [|[t w] q1 Hw _ [IH1 IH2]]; [done|]. simpl in Hw. subst. csimpl. cbn [length]. rewrite IH1, IH2. lia.
Qed.

(** The wake-up of a release: the semaphore is free and somebody waits. *)
Lemma do_wake_inv n q ts a wk m woken :
  Z.of_nat n < 2 ^ 30 -> length ts = n -> queue_ok q ts -> holds W ts = 0 -> holds R ts = a ->
  (wk = true -> a = 0) -> (wk = false -> 0 < a) ->
  __rwsem_do_wake (mkRwsem a q) wk = (m, woken) ->
  q <> [] -> inv n (mkSys m (grant_all woken ts)).
Proof.
  intros Hn Hlen Hq HW HR Ht Hf Hd Hne. pose proof (holds_bound ts) as Hb. rewrite Hlen in Hb.
  unfold __rwsem_do_wake in Hd. cbn [wait_list activity] in Hd. destruct q as [|[t w] q]; [done|]. destruct w.
  - destruct (wake_readers_spec ((t, R) :: q)) as (q1 & rest & Hwr & Hqq & Hall & Hrest).
    rewrite Hwr in Hd. simplify_eq. rewrite Hqq in Hq.
    destruct (grant_prefix q1 rest ts Hq) as (Hq' & Hl' & Hh').
    destruct (count_readers q1 Hall) as [HcR HcW].
    pose proof (Hh' R) as HhR. pose proof (Hh' W) as HhW. rewrite HcR in HhR. rewrite HcW in HhW.
    pose proof (holds_bound (grant_all q1.*1 ts)) as Hb'. rewrite Hl' in Hb'.
    assert (Hpos : 0 < Z.of_nat (length q1.*1)).
    { destruct q1 as [|e q1]; [|simpl; lia]. simpl in Hqq. subst rest. by simpl in Hrest. }
    unfold inv. simpl. rewrite s32_small by lia. split_and!; [congruence|done| |].
    + left. lia.
    + unfold heads_ok. simpl. destruct rest as [|[t' w'] rest]; [done|]. right. split; [lia|done].
  - destruct wk; simplify_eq.
    + destruct (grant_prefix [(t, W)] q ts Hq) as (Hq' & Hl' & Hh').
      pose proof (Hh' R) as HhR. pose proof (Hh' W) as HhW. simpl in HhR, HhW.
      unfold inv. simpl in *. split_and!; [done|done| |].
      * right. rewrite HhR, HhW, HW. specialize (Ht eq_refl). lia.
      * unfold heads_ok. simpl. destruct q as [|[]]; auto.
    + unfold inv. simpl. split_and!; [done|done|left; lia|]. unfold heads_ok. simpl. right. split; [lia|done].
Qed.

(** Granted at once: nobody waits. *)
Lemma granted_inv n ts t w a :
  Z.of_nat n < 2 ^ 30 -> length ts = n -> queue_ok [] ts -> ts !! t = Some Idle ->
  a = holds R ts -> holds W ts = 0 -> (w = W -> a = 0) ->
  inv n (mkSys (mkRwsem (match w with R => s32 (a + 1) | W => -1 end) []) (<[t := Hold w]> ts)).
Proof.
  intros Hn Hlen Hq Ht Ha HW Hw. pose proof (holds_bound ts) as Hb. rewrite Hlen in Hb.
  unfold inv, activity_ok. simpl. rewrite length_insert, !(holds_insert _ _ _ _ _ Ht). split_and!; [done| | |done].
  - eapply rwsem_queue_keep; [done|done|done|done].
  - destruct w; simpl; [left; rewrite s32_small by lia; lia|right; specialize (Hw eq_refl); lia].
Qed.

(** Joining the queue. *)
Lemma joined_inv n q ts t w a :
  length ts = n -> queue_ok q ts -> ts !! t = Some Idle -> activity_ok a ts -> heads_ok (mkRwsem a q) ->
  (q = [] -> a = -1 \/ (0 < a /\ w = W)) ->
  inv n (mkSys (mkRwsem a (q ++ [(t, w)])) (<[t := Wait w]> ts)).
Proof.
  intros Hlen Hq Ht Ha Hh Hw. unfold inv, activity_ok in *. simpl.
  rewrite length_insert, !(holds_insert _ _ _ _ _ Ht). simpl. split_and!; [done| | |].
  - by eapply rwsem_queue_join.
  - rewrite !Z.sub_0_r, !Z.add_0_r. done.
  - unfold heads_ok in *. simpl in *. destruct q as [|[]]; simpl; auto.
Qed.

Lemma release_inv n q ts t p' w :
  length ts = n -> queue_ok q ts -> ts !! t = Some (Hold w) -> (forall w, p' <> Wait w) ->
  length (<[t := p']> ts) = n /\ queue_ok q (<[t := p']> ts) /\
  forall w', holds w' (<[t := p']> ts) = holds w' ts - Z.b2z (bool_decide (w = w')) + Z.b2z (bool_decide (p' = Hold w')).
Proof.
  intros Hlen Hq Ht Hp'. split_and!; [by rewrite length_insert|by eapply rwsem_queue_keep|].
  intros w'. rewrite (holds_insert _ _ _ _ _ Ht). by rewrite (bool_decide_ext (Hold w = Hold w') (w = w')) by naive_solver.
Qed.

Lemma rwsem_step_inv n s t o s' : Z.of_nat n < 2 ^ 30 -> inv n s -> step t o s = Some s' -> inv n s'.
Proof.
  intros Hn (Hlen & Hq & Ha & Hh) Hs. destruct s as [[a q] ts]. cbn [sem tasks activity wait_list] in *.
  pose proof (holds_bound ts) as Hb. rewrite Hlen in Hb.
  unfold step in Hs. cbn [sem tasks] in Hs. destruct (ts !! t) as [p|] eqn:Ht; simpl in Hs; [|done].
  pose proof (holds_ge R ts t p Ht) as HgR. pose proof (holds_ge W ts t p Ht) as HgW.
  assert (Hsame : inv n (mkSys (mkRwsem a q) ts)) by by split_and!.
  assert (Hfree : 0 <= a -> a = holds R ts /\ holds W ts = 0) by (unfold activity_ok in Ha; lia).
  destruct o, p as [|w|[]]; try done.
  - unfold __down_read, list_empty in Hs. cbn [activity wait_list] in Hs.
    destruct q as [|e q]; [destruct (Z.leb_spec 0 a); simpl in Hs|rewrite andb_false_r in Hs]; simplify_eq.
    + by apply (granted_inv (length ts) ts t R a); try done; apply Hfree.
    + apply (joined_inv _ []); try done. unfold activity_ok in Ha. lia.
    + by apply (joined_inv _ (e :: q)).
  - unfold __down_read_trylock, list_empty in Hs. cbn [activity wait_list] in Hs.
    destruct q as [|e q]; [destruct (Z.leb_spec 0 a); simpl in Hs|rewrite andb_false_r in Hs]; simplify_eq; try done.
    by apply (granted_inv (length ts) ts t R a); try done; apply Hfree.
  - unfold __down_write, list_empty in Hs. cbn [activity wait_list] in Hs.
    destruct q as [|e q]; [destruct (Z.eqb_spec a 0); simpl in Hs|rewrite andb_false_r in Hs]; simplify_eq.
    + by apply (granted_inv (length ts) ts t W 0); try done; apply Hfree.
    + apply (joined_inv _ []); try done. unfold activity_ok in Ha. intros _. destruct (decide (a = -1)); [by left|right].
      split; [lia|done].
    + by apply (joined_inv _ (e :: q)).
  - unfold __down_write_trylock, list_empty in Hs. cbn [activity wait_list] in Hs.
    destruct q as [|e q]; [destruct (Z.eqb_spec a 0); simpl in Hs|rewrite andb_false_r in Hs]; simplify_eq; try done.
    by apply (granted_inv (length ts) ts t W 0); try done; apply Hfree.
  - simpl in HgR. destruct (release_inv n q ts t Idle R) as (Hl' & Hq' & Hh'); [done..|].
    pose proof (Hh' R) as HhR. pose proof (Hh' W) as HhW. simpl in HhR, HhW.
    assert (Hpos : a = holds R ts /\ holds W ts = 0) by (unfold activity_ok in Ha; lia).
    unfold __up_read, list_empty in Hs. cbn [activity wait_list] in Hs. rewrite s32_small in Hs by lia.
    destruct (Z.eqb_spec (a - 1) 0) as [Hz|Hz]; simpl in Hs.
    + destruct q as [|[t' w'] q]; simpl in Hs; simplify_eq.
      * split_and!; try done. left. simpl. lia.
      * unfold heads_ok in Hh. simpl in Hh. assert (w' = W) as -> by lia || (destruct Hh as [?|[_ ?]]; [lia|done]).
        destruct (grant_prefix [(t', W)] q _ Hq') as (Hq2 & Hl2 & Hh2).
        pose proof (Hh2 R) as Hh2R. pose proof (Hh2 W) as Hh2W. simpl in Hh2R, Hh2W, Hl2, Hq2.
        split_and!; simpl; [congruence|done|right; lia|]. unfold heads_ok. simpl. destruct q as [|[]]; auto.
    + simplify_eq. split_and!; try done; [left; simpl; lia|].
      unfold heads_ok in *. simpl in *. destruct q as [|[t' w'] q]; [done|]. right. split; [lia|]. naive_solver lia.
  - simpl in HgW. destruct (release_inv n q ts t Idle W) as (Hl' & Hq' & Hh'); [done..|].
    pose proof (Hh' R) as HhR. pose proof (Hh' W) as HhW. simpl in HhR, HhW.
    assert (Hpos : a = -1 /\ holds R ts = 0 /\ holds W ts = 1) by (unfold activity_ok in Ha; lia).
    unfold __up_write, list_empty in Hs. cbn [wait_list] in Hs. destruct q as [|e q]; simpl in Hs.
    + simplify_eq. split_and!; try done. left. simpl. lia.
    + destruct (__rwsem_do_wake _ _) as [m woken] eqn:Ed. simplify_eq.
      eapply do_wake_inv; [done|done|done|lia|..|exact Ed|done]; [lia|done|done].
  - simpl in HgW. destruct (release_inv n q ts t (Hold R) W) as (Hl' & Hq' & Hh'); [done..|].
    pose proof (Hh' R) as HhR. pose proof (Hh' W) as HhW. simpl in HhR, HhW.
    assert (Hpos : a = -1 /\ holds R ts = 0 /\ holds W ts = 1) by (unfold activity_ok in Ha; lia).
    unfold __downgrade_write, list_empty in Hs. cbn [wait_list] in Hs. destruct q as [|e q]; simpl in Hs.
    + simplify_eq. split_and!; try done. left. simpl. lia.
    + destruct (__rwsem_do_wake _ _) as [m woken] eqn:Ed. simplify_eq.
      eapply do_wake_inv; [done|done|done|lia|..|exact Ed|done]; [lia|done|lia].
Qed.

Lemma rwsem_reachable_inv n s : Z.of_nat n < 2 ^ 30 -> reachable n s -> inv n s.
Proof.
  intros Hn. apply reach_invariant; [|intros [t o] s1 s2 ? ?; by eapply rwsem_step_inv].
  assert (Hz : forall w, holds w (replicate n Idle) = 0)
    by (intros w; apply zsum_0; by intros x [-> _]%elem_of_replicate).
  unfold inv, activity_ok. simpl. rewrite length_replicate, !Hz. split_and!; [done| |by left|done].
  split; [constructor|]. intros t w. split; [by intros ?%not_elem_of_nil|].
  by intros [? _]%lookup_replicate.
Qed.

(** C11: read-write semaphores (spinlock variant) are correct.  In every sequence of
    read and write acquisitions, trylocks, releases and downgrades by any tasks,
    [activity] is the number of readers or -1 for the one writer, a writer excludes
    everybody else, no task waits for a free semaphore, and when readers hold it the
    first waiter is a writer, which is what lets [__up_read] wake one writer without
    looking at the queue. *)
Theorem rwsem_correct n s :
  Z.of_nat n < 2 ^ 30 -> reachable n s ->
  activity_ok (activity (sem s)) (tasks s) /\
  (activity (sem s) = 0 -> forall t w, tasks s !! t <> Some (Wait w)) /\
  (0 < activity (sem s) -> forall t w rest, wait_list (sem s) = (t, w) :: rest -> w = W).
Proof.
  intros Hn Hr. apply rwsem_reachable_inv in Hr as (_ & [_ Hq] & Ha & Hh); [|done]. split; [done|].
  unfold heads_ok in Hh. split.
  - intros Hz t w Ht. apply Hq in Ht. destruct (wait_list (sem s)) as [|[]]; [by apply not_elem_of_nil in Ht|lia].
  - intros Hpos t w rest Hw. rewrite Hw in Hh. destruct Hh as [?|[_ ?]]; [lia|done].
Qed.

(** A reader, a waiting writer, a reader that must queue behind it, and the release
    that hands the lock to the writer. *)
Definition fifo : list (nat * op) :=
  [(0%nat, DownRead); (1%nat, DownWrite); (2%nat, DownRead); (0%nat, UpRead)].

Lemma rwsem_correct_witness : exists s, run (fun o => step o.1 o.2) fifo (init 3) = Some s /\
  activity_ok (activity (sem s)) (tasks s) /\ tasks s = [Idle; Hold W; Wait R].
Proof.
  eexists. split; [vm_compute; reflexivity|]. split; [|reflexivity].
  refine (proj1 (rwsem_correct 3 _ _ _)); [lia|].
  apply (run_from _ fifo); vm_compute; reflexivity.
Defined.
