(* ===== verification/RwsemXadd.v ===== *)
(** * Read-write semaphores, the exchange-and-add variant

    Model of [lib/rwsem.c] and [include/asm-i386/rwsem.h], the implementation that
    i386 kernels use and whose word sync_char classifies.  The fast paths are one
    locked instruction on [count]; the slow paths run under [wait_lock] but still
    race with the fast paths, so a slow path is a sequence of steps here, one per
    atomic access, that any other task may interleave with.

    [count] holds the active tasks in its low half and, negated, the writers and
    waiters in its high half.  The invariant says exactly which tasks it counts at
    every point of every slow path. *)

From S2P Require Import Prelude WorkSet LockData LockState.

Module Xadd.

Definition RWSEM_UNLOCKED_VALUE : Z := 0x00000000.
Definition RWSEM_ACTIVE_BIAS : Z := 0x00000001.
Definition RWSEM_ACTIVE_MASK : Z := 0x0000ffff.
Definition RWSEM_WAITING_BIAS : Z := -0x00010000.
Definition RWSEM_ACTIVE_READ_BIAS : Z := RWSEM_ACTIVE_BIAS.
Definition RWSEM_ACTIVE_WRITE_BIAS : Z := RWSEM_WAITING_BIAS + RWSEM_ACTIVE_BIAS.

Inductive waiter_flags := RWSEM_WAITING_FOR_READ | RWSEM_WAITING_FOR_WRITE.

#[export] Instance waiter_flags_eq_dec : EqDecision waiter_flags.
Proof. solve_decision. Defined.

Abbreviation R := RWSEM_WAITING_FOR_READ.
Abbreviation W := RWSEM_WAITING_FOR_WRITE.

Definition waiter : Type := nat * waiter_flags.     (* task, flags *)

(** ** The instructions on [count]

    Each returns the new word; the flag says which way the branch goes. *)

(** [lock; xadd]: the C function returns [tmp + delta], the new value. *)
Definition rwsem_atomic_update (delta c : Z) : Z := s32 (c + delta).

Definition rwsem_atomic_add (delta c : Z) : Z := s32 (c + delta).

(** [incl; js]: granted when the sign flag is clear. *)
Definition __down_read (c : Z) : Z * bool :=
  let c' := s32 (c + RWSEM_ACTIVE_READ_BIAS) in (c', 0 <=? c').

(** [addl; jle] on a copy, then [cmpxchgl], which succeeds on the value read: the
    loop as the atomic step of its last round.  Returns [result >= 0]. *)
Definition __down_read_trylock (c : Z) : Z * bool :=
  let tmp := s32 (c + RWSEM_ACTIVE_READ_BIAS) in
  (if c + RWSEM_ACTIVE_READ_BIAS <=? 0 then c else tmp, 0 <=? c).

(** [xadd; testl %edx,%edx; jnz]: granted when the old value was 0. *)
Definition __down_write (c : Z) : Z * bool := (s32 (c + RWSEM_ACTIVE_WRITE_BIAS), c =? 0).

Definition __down_write_trylock (c : Z) : Z * bool :=
  if c =? RWSEM_UNLOCKED_VALUE then (RWSEM_ACTIVE_WRITE_BIAS, true) else (c, false).

(** [decw %dx] on the old value: did the active part become 0? *)
Definition decw_zero (old : Z) : bool := (old - 1) mod 2 ^ 16 =? 0.

(** [xadd; js], then [decw; jnz]: the flag says that [rwsem_wake] is called. *)
Definition __up_read (c : Z) : Z * bool :=
  let c' := s32 (c - RWSEM_ACTIVE_READ_BIAS) in (c', (c' <? 0) && decw_zero c).

(** [xaddl; jnz], then [decw; jnz]. *)
Definition __up_write (c : Z) : Z * bool :=
  let c' := s32 (c - RWSEM_ACTIVE_WRITE_BIAS) in (c', negb (c' =? 0) && decw_zero c).

(** [addl; js]: the flag says that [rwsem_downgrade_wake] is called. *)
Definition __downgrade_write (c : Z) : Z * bool :=
  let c' := s32 (c - RWSEM_WAITING_BIAS) in (c', c' <? 0).

Definition rwsem_is_locked (c : Z) : bool := negb (c =? 0).

(** ** The slow paths

    Where the owner of [wait_lock] is in its code. *)
Inductive phase :=
| Enqueue (w : waiter_flags)                    (* rwsem_down_failed_common, before list_add_tail *)
| TryAgain                                      (* __rwsem_do_wake, label try_again *)
| Undo                                          (* label undo *)
| Wake                                          (* the active part went 0 -> 1 *)
| DontWakeWriters                               (* label dont_wake_writers *)
| Signal (loop : nat) (next : list waiter)      (* the loop that clears ->task *)
| Out.                                          (* label out, then spin_unlock *)

(** Where a task is.  [Hold w] is a holder (a waiter whose [->task] has been cleared
    included), [Failed w] is about to take [wait_lock] in [rwsem_down_failed_common],
    [Queued w] waits for its [->task] to be cleared, [WakeCall] and [DowngradeCall]
    are about to take [wait_lock] in [rwsem_wake] and [rwsem_downgrade_wake], [Waking]
    and [Downgrading] are inside. *)
Inductive pc :=
| Idle
| Hold (w : waiter_flags)
| Failed (w : waiter_flags)
| Queued (w : waiter_flags)
| WakeCall
| Waking
| DowngradeCall
| Downgrading.

#[export] Instance pc_eq_dec : EqDecision pc.
Proof. solve_decision. Defined.

Record system := mkSys {
  count : Z;
  wait_list : list waiter;
  wait_lock : option (nat * phase);
  tasks : list pc
}.

(** The argument [adjustment] of [rwsem_down_failed_common]. *)
Definition adjustment (w : waiter_flags) : Z :=
  match w with
  | RWSEM_WAITING_FOR_READ => RWSEM_WAITING_BIAS - RWSEM_ACTIVE_BIAS
  | RWSEM_WAITING_FOR_WRITE => - RWSEM_ACTIVE_BIAS
  end.

Definition list_empty (l : list waiter) : bool := match l with [] => true | _ => false end.

(** The readers that directly follow the first waiter. *)
Fixpoint more_readers (l : list waiter) : nat :=
  match l with
  | (_, RWSEM_WAITING_FOR_READ) :: l => S (more_readers l)
  | _ => O
  end.

(** Label [readers_only], up to the loop. *)
Definition readers_only (t : nat) (downgrading : bool) (s : system) : system :=
  let loop := S (more_readers (tail (wait_list s))) in
  let woken := Z.of_nat loop * (RWSEM_ACTIVE_BIAS - RWSEM_WAITING_BIAS) in
  let woken := if downgrading then woken else woken - RWSEM_ACTIVE_BIAS in
  mkSys (rwsem_atomic_add woken (count s)) (wait_list s)
    (Some (t, Signal loop (wait_list s))) (tasks s).

(** One step of [__rwsem_do_wake].  [None] marks a [list_entry] of an empty list. *)
Definition __rwsem_do_wake (t : nat) (ph : phase) (s : system) : option system :=
  match ph with
  | TryAgain =>
      let c := rwsem_atomic_update RWSEM_ACTIVE_BIAS (count s) in
      let oldcount := s32 (c - RWSEM_ACTIVE_BIAS) in
      let ph := if Z.land oldcount RWSEM_ACTIVE_MASK =? 0 then Wake else Undo in
      Some (mkSys c (wait_list s) (Some (t, ph)) (tasks s))
  | Undo =>
      let c := rwsem_atomic_update (- RWSEM_ACTIVE_BIAS) (count s) in
      Some (mkSys c (wait_list s) (Some (t, if c =? 0 then TryAgain else Out)) (tasks s))
  | Wake =>
      match wait_list s with
      | (u, RWSEM_WAITING_FOR_WRITE) :: rest =>
          Some (mkSys (count s) rest (Some (t, Out)) (<[u := Hold W]> (tasks s)))
      | (_, RWSEM_WAITING_FOR_READ) :: _ => Some (readers_only t false s)
      | [] => None
      end
  | DontWakeWriters =>
      match wait_list s with
      | (_, RWSEM_WAITING_FOR_WRITE) :: _ => Some (mkSys (count s) (wait_list s) (Some (t, Out)) (tasks s))
      | (_, RWSEM_WAITING_FOR_READ) :: _ => Some (readers_only t true s)
      | [] => None
      end
  | Signal loop next =>
      match loop, next with
      | O, _ => Some (mkSys (count s) next (Some (t, Out)) (tasks s))
      | S loop, (u, _) :: next =>
          Some (mkSys (count s) (wait_list s) (Some (t, Signal loop next)) (<[u := Hold R]> (tasks s)))
      | S _, [] => None
      end
  | _ => None
  end.

(** The part of [rwsem_down_failed_common] under the lock. *)
Definition rwsem_down_failed_common (t : nat) (w : waiter_flags) (s : system) : system :=
  let c := rwsem_atomic_update (adjustment w) (count s) in
  let ph := if Z.land c RWSEM_ACTIVE_MASK =? 0 then TryAgain else Out in
  mkSys c (wait_list s ++ [(t, w)]) (Some (t, ph)) (<[t := Queued w]> (tasks s)).

(** The return of the task that drops [wait_lock]. *)
Definition returns (p : pc) : pc :=
  match p with Waking => Idle | Downgrading => Hold R | p => p end.

Definition locked_step (t : nat) (ph : phase) (p : pc) (s : system) : option system :=
  match ph with
  | Enqueue w => Some (rwsem_down_failed_common t w s)
  | Out => Some (mkSys (count s) (wait_list s) None (<[t := returns p]> (tasks s)))
  | ph => __rwsem_do_wake t ph s
  end.

(** ** The steps of the tasks *)

Inductive op :=
| DownRead | DownReadTry | DownWrite | DownWriteTry | UpRead | UpWrite | Downgrade
| TakeLock       (* spin_lock(&sem->wait_lock) *)
| Locked.        (* the next atomic access under the lock *)

#[export] Instance op_eq_dec : EqDecision op.
Proof. solve_decision. Defined.

Definition set_task (t : nat) (r : Z * pc) (s : system) : option system :=
  Some (mkSys r.1 (wait_list s) (wait_lock s) (<[t := r.2]> (tasks s))).

Definition branch (r : Z * bool) (p q : pc) : Z * pc := (r.1, if r.2 then p else q).

Definition take_lock (t : nat) (p : pc) (s : system) : option system :=
  match wait_lock s, p with
  | None, Failed w =>       (* rwsem_down_read_failed, rwsem_down_write_failed *)
      Some (mkSys (count s) (wait_list s) (Some (t, Enqueue w)) (tasks s))
  | None, WakeCall =>     (* rwsem_wake *)
      let ph := if list_empty (wait_list s) then Out else TryAgain in
      Some (mkSys (count s) (wait_list s) (Some (t, ph)) (<[t := Waking]> (tasks s)))
  | None, DowngradeCall => (* rwsem_downgrade_wake *)
      let ph := if list_empty (wait_list s) then Out else DontWakeWriters in
      Some (mkSys (count s) (wait_list s) (Some (t, ph)) (<[t := Downgrading]> (tasks s)))
  | _, _ => None
  end.

(** What [t] does when it does not own the lock. *)
Definition free_step (t : nat) (o : op) (p : pc) (s : system) : option system :=
  match o, p with
  | DownRead, Idle => set_task t (branch (__down_read (count s)) (Hold R) (Failed R)) s
  | DownReadTry, Idle => set_task t (branch (__down_read_trylock (count s)) (Hold R) Idle) s
  | DownWrite, Idle => set_task t (branch (__down_write (count s)) (Hold W) (Failed W)) s
  | DownWriteTry, Idle => set_task t (branch (__down_write_trylock (count s)) (Hold W) Idle) s
  | UpRead, Hold RWSEM_WAITING_FOR_READ => set_task t (branch (__up_read (count s)) WakeCall Idle) s
  | UpWrite, Hold RWSEM_WAITING_FOR_WRITE => set_task t (branch (__up_write (count s)) WakeCall Idle) s
  | Downgrade, Hold RWSEM_WAITING_FOR_WRITE =>
      set_task t (branch (__downgrade_write (count s)) DowngradeCall (Hold R)) s
  | TakeLock, p => take_lock t p s
  | _, _ => None
  end.

Definition step (t : nat) (o : op) (s : system) : option system :=
  p ← tasks s !! t;
  match wait_lock s with
  | Some (u, ph) =>
      if decide (u = t) then match o with Locked => locked_step t ph p s | _ => None end
      else free_step t o p s
  | None => free_step t o p s
  end.

Definition init_rwsem (n : nat) : system := mkSys RWSEM_UNLOCKED_VALUE [] None (replicate n Idle).

Definition reachable (n : nat) : system -> Prop := reach (fun o => step o.1 o.2) (init_rwsem n).

(** ** What [count] counts *)

Definition tally (f : pc -> bool) (ts : list pc) : Z := zsum (fun p => Z.b2z (f p)) ts.

Definition reads (p : pc) : bool := match p with Hold RWSEM_WAITING_FOR_READ | DowngradeCall | Downgrading => true | _ => false end.
Definition writes (p : pc) : bool := match p with Hold RWSEM_WAITING_FOR_WRITE => true | _ => false end.
Definition fails (w : waiter_flags) (p : pc) : bool := bool_decide (p = Failed w).
Definition queued (p : pc) : bool := match p with Queued _ => true | _ => false end.
Definition to_wake (p : pc) : bool := bool_decide (p = WakeCall).

(** The waiters whose [->task] is not cleared yet, in queue order. *)
Definition waiters (s : system) : list waiter :=
  match wait_lock s with Some (_, Signal _ next) => next | _ => wait_list s end.

(** Those of them that [count] already counts as active readers. *)
Definition granted (s : system) : nat :=
  match wait_lock s with Some (_, Signal loop _) => loop | _ => O end.

(** The increment that [__rwsem_do_wake] has made and not yet undone or given away. *)
Definition probe (s : system) : Z :=
  match wait_lock s with Some (_, (Undo | Wake)) => 1 | _ => 0 end.

Definition active (s : system) : Z :=
  tally reads (tasks s) + tally writes (tasks s) + tally (fails R) (tasks s) + tally (fails W) (tasks s)
  + Z.of_nat (granted s) + probe s.

Definition waiting (s : system) : Z :=
  tally writes (tasks s) + tally (fails W) (tasks s) + Z.of_nat (length (waiters s)) - Z.of_nat (granted s).

Definition count_ok (s : system) : Prop := count s = active s - 0x10000 * waiting s.

(** The queue lists the waiting tasks with what they wait for, once each. *)
Definition queue_ok (q : list waiter) (ts : list pc) : Prop :=
  NoDup q.*1 /\ (forall t w, (t, w) ∈ q <-> ts !! t = Some (Queued w)) /\ tally queued ts = Z.of_nat (length q).

(** At most one writer, and no reader, granted or not yet told, beside it. *)
Definition exclusive (s : system) : Prop :=
  tally writes (tasks s) = 0 \/
  (tally writes (tasks s) = 1 /\ tally reads (tasks s) = 0 /\ granted s = O).

Definition owner_ok (s : system) : Prop :=
  match wait_lock s with
  | None => True
  | Some (t, Enqueue w) => tasks s !! t = Some (Failed w)
  | Some (t, TryAgain) => wait_list s <> []
  | Some (t, Undo) => wait_list s <> []
  | Some (t, Wake) => wait_list s <> [] /\ tally reads (tasks s) = 0 /\ tally writes (tasks s) = 0
  | Some (t, DontWakeWriters) => wait_list s <> [] /\ tasks s !! t = Some Downgrading
  | Some (t, Signal loop next) => (loop <= length next <= length (wait_list s))%nat /\ Forall (fun e => e.2 = R) (take loop next)
  | Some (t, Out) => True
  end.

Definition wf (n : nat) (s : system) : Prop :=
  length (tasks s) = n /\ queue_ok (waiters s) (tasks s) /\ owner_ok s.

Definition inv (n : nat) (s : system) : Prop := wf n s /\ count_ok s /\ exclusive s.

Lemma tally_insert f ts i p p' :
  ts !! i = Some p -> tally f (<[i := p']> ts) = tally f ts - Z.b2z (f p) + Z.b2z (f p').
Proof. intros Hi. unfold tally. by rewrite (zsum_insert _ _ _ _ _ Hi). Qed.

Lemma tally_nonneg f ts : 0 <= tally f ts.
Proof. apply zsum_nonneg. intros. apply b2z_nonneg. Qed.

Lemma tally_ge f ts i p : ts !! i = Some p -> Z.b2z (f p) <= tally f ts.
Proof. intros Hi. by apply (zsum_elem_le (fun p => Z.b2z (f p)) ts i p (fun x _ => b2z_nonneg _)). Qed.

Lemma tally_bound ts :
  tally reads ts + tally writes ts + tally (fails R) ts + tally (fails W) ts + tally queued ts <= Z.of_nat (length ts).
Proof.
  unfold tally. rewrite <- !zsum_add. etransitivity; [apply (zsum_le _ (fun _ => 1)); by intros [|[]|[]|[]| | | |] _|].
  rewrite zsum_const. lia.
Qed.

Lemma low_half a w : 0 <= a < 0x10000 -> (a - 0x10000 * w) mod 2 ^ 16 = a.
Proof. intros Ha. change (2 ^ 16) with 0x10000. rewrite <- (Z.mod_small a 0x10000 Ha) at 2. by rewrite <- (Z_mod_plus_full a (- w)); f_equal; lia. Qed.

Lemma low_half_mask a w : 0 <= a < 0x10000 -> Z.land (a - 0x10000 * w) RWSEM_ACTIVE_MASK = a.
Proof. intros Ha. change RWSEM_ACTIVE_MASK with (Z.ones 16). rewrite Z.land_ones by lia. by apply low_half. Qed.

Lemma low_half_decw a w : 1 <= a < 0x10000 -> decw_zero (a - 0x10000 * w) = (a =? 1).
Proof.
  intros Ha. unfold decw_zero. replace (a - 0x10000 * w - 1) with ((a - 1) - 0x10000 * w) by lia.
  rewrite low_half by lia. lia.
Qed.

(** The bounds every state has, and what they say about the word. *)
Lemma wf_bounds n s : Z.of_nat n < 2 ^ 15 -> wf n s ->
  0 <= active s <= Z.of_nat n + 1 /\ 0 <= waiting s <= Z.of_nat n /\
  (granted s <= length (waiters s))%nat /\ tally queued (tasks s) = Z.of_nat (length (waiters s)) /\
  0 <= probe s <= 1.
Proof.
  intros Hn (Hlen & (_ & _ & Hq) & Ho). pose proof (tally_bound (tasks s)) as Hb. rewrite Hlen in Hb.
  pose proof (fun f => tally_nonneg f (tasks s)) as Hnn.
  pose proof (Hnn reads). pose proof (Hnn writes). pose proof (Hnn (fails R)). pose proof (Hnn (fails W)).
  assert (Hg : (granted s <= length (waiters s))%nat /\ 0 <= probe s <= 1 /\ (probe s = 0 \/ granted s = O)).
  { unfold granted, waiters, probe. unfold owner_ok in Ho. destruct (wait_lock s) as [[t []]|]; lia. }
  unfold active, waiting. lia.
Qed.

Lemma count_wraps n s : Z.of_nat n < 2 ^ 15 -> wf n s ->
  count s = s32 (active s - 0x10000 * waiting s) -> count_ok s.
Proof. intros Hn Hwf Hc. destruct (wf_bounds n s Hn Hwf). unfold count_ok. rewrite Hc. apply s32_small. lia. Qed.

Lemma queue_keep q ts t p p' :
  queue_ok q ts -> ts !! t = Some p -> queued p = false -> queued p' = false -> queue_ok q (<[t := p']> ts).
Proof.
  intros (Hn & Hq & Hl) Ht Hp Hp'. split_and!; [done| |rewrite (tally_insert _ _ _ _ _ Ht), Hp, Hp'; simpl; lia].
  intros t' w. rewrite Hq. destruct (decide (t = t')) as [<- |]; [|by rewrite list_lookup_insert_ne].
  rewrite list_lookup_insert_eq by by eapply lookup_lt_Some. split; intros ?; by simplify_eq/=.
Qed.

Lemma queue_join q ts t p w :
  queue_ok q ts -> ts !! t = Some p -> queued p = false -> queue_ok (q ++ [(t, w)]) (<[t := Queued w]> ts).
Proof.
  intros (Hn & Hq & Hl) Ht Hp. split_and!.
  - rewrite fmap_app. apply NoDup_app. split_and!; [done| |apply NoDup_singleton].
    intros t' ([t0 w0] & Heq & Hin)%list_elem_of_fmap_1 Ht'%list_elem_of_singleton.
    simpl in *. subst. apply Hq in Hin. by simplify_eq/=.
  - intros t' w'. rewrite elem_of_app, list_elem_of_singleton, Hq. destruct (decide (t = t')) as [<- |].
    + rewrite list_lookup_insert_eq by by eapply lookup_lt_Some. split; [intros [?|?]; by simplify_eq/=|]. intros ?; simplify_eq. by right.
    + rewrite list_lookup_insert_ne by done. naive_solver.
  - rewrite (tally_insert _ _ _ _ _ Ht), Hp, length_app. simpl. lia.
Qed.

Lemma queue_leave q ts t w p' :
  queue_ok ((t, w) :: q) ts -> queued p' = false -> queue_ok q (<[t := p']> ts).
Proof.
  intros (Hn & Hq & Hl) Hp'. assert (Ht : ts !! t = Some (Queued w)) by (apply Hq; left).
  apply NoDup_cons in Hn as [Hni Hn]. split_and!; [done| |].
  - intros t' w'. destruct (decide (t = t')) as [<- |Hne].
    + rewrite list_lookup_insert_eq by by eapply lookup_lt_Some. split; [|intros ?; by simplify_eq/=].
      intros Hin. destruct Hni. by apply (list_elem_of_fmap_2 fst _ (t, w')).
    + rewrite list_lookup_insert_ne by done. rewrite <- Hq, elem_of_cons. naive_solver.
  - rewrite (tally_insert _ _ _ _ _ Ht), Hp', Hl. simpl. lia.
Qed.

(** A fast path: [t], which does not own the lock, moves from [p] to [p'] and the
    word changes by what the move changes. *)
Lemma set_inv n s t p p' c :
  Z.of_nat n < 2 ^ 15 -> inv n s -> tasks s !! t = Some p -> queued p = false -> queued p' = false ->
  (forall ph, wait_lock s <> Some (t, ph)) ->
  let d f := Z.b2z (f p') - Z.b2z (f p) in
  c = count s + (d reads + d writes + d (fails R) + d (fails W) - 0x10000 * (d writes + d (fails W))) ->
  (0 < d writes -> tally writes (tasks s) = 0 /\ tally reads (tasks s) = 0 /\ granted s = O) ->
  (0 < d reads -> tally writes (tasks s) + d writes = 0) ->
  ((granted s < length (waiters s))%nat -> d reads <= 0 /\ d writes <= 0 \/ 0 < tally writes (tasks s)) ->
  inv n (mkSys (s32 c) (wait_list s) (wait_lock s) (<[t := p']> (tasks s))).
Proof.
  intros Hn ((Hlen & Hqu & How) & Hco & Hex) Ht Hp Hp' Ho d Hc Hw Hr Hk.
  pose proof (fun f => tally_insert f _ _ _ p' Ht) as Hd.
  pose proof (fun f => tally_ge f _ _ _ Ht) as Hge.
  set (s' := mkSys (s32 c) (wait_list s) (wait_lock s) (<[t := p']> (tasks s))).
  assert (Hwf : wf n s').
  { split_and!; [by unfold s'; simpl; rewrite length_insert|by eapply queue_keep|].
    unfold owner_ok in *. subst s'. cbn [wait_lock tasks wait_list]. destruct (wait_lock s) as [[u ph]|] eqn:El; [|done].
    assert (Hne : t <> u) by (intros ->; by apply (Ho ph)).
    rewrite list_lookup_insert_ne by done. destruct ph; try done.
    destruct How as (Hwl & HR & HW). rewrite !Hd, HR, HW. pose proof (Hge reads). pose proof (Hge writes).
    destruct Hk as [[H1 H2]|H1]; [|..|lia].
    { unfold granted, waiters. rewrite El. destruct (wait_list s); [done|simpl; lia]. } pose proof (tally_nonneg reads (<[t:=p']> (tasks s))) as H3.
    pose proof (tally_nonneg writes (<[t:=p']> (tasks s))) as H4. rewrite Hd in H3, H4. unfold d in *. split_and!; [done|lia|lia]. }
  split_and!; [done|apply (count_wraps n); [done|done|]|].
  - subst s'. unfold count_ok, active, waiting, waiters, granted, probe in *. cbn [wait_lock tasks wait_list count].
    rewrite !Hd. f_equal. unfold d in Hc. lia.
  - subst s'. unfold exclusive, granted in *. cbn [wait_lock tasks]. rewrite !Hd. unfold d in *.
    pose proof (Hge writes). pose proof (Hge reads).
    destruct (reads p), (reads p'), (writes p), (writes p'); simpl in *; lia.
Qed.

Local Ltac bias :=
  unfold RWSEM_ACTIVE_WRITE_BIAS, RWSEM_ACTIVE_READ_BIAS, RWSEM_WAITING_BIAS, RWSEM_ACTIVE_BIAS, RWSEM_UNLOCKED_VALUE in *.

Lemma free_step_inv n s t o p s' :
  Z.of_nat n < 2 ^ 15 -> inv n s -> tasks s !! t = Some p -> (forall ph, wait_lock s <> Some (t, ph)) ->
  o <> TakeLock -> free_step t o p s = Some s' -> inv n s'.
Proof.
  intros Hn Hi Ht Ho Hto Hs. destruct (wf_bounds n s Hn (proj1 Hi)) as (Ha & Hw & Hg & Hq & Hpr).
  pose proof (fun f => tally_nonneg f (tasks s)) as Hnn.
  pose proof (Hnn reads) as H0r. pose proof (Hnn writes) as H0w. pose proof (Hnn (fails R)) as H0fr. pose proof (Hnn (fails W)) as H0fw.
  pose proof (tally_ge reads _ _ _ Ht) as Hgr. pose proof (tally_ge writes _ _ _ Ht) as Hgw.
  pose proof Hi as (_ & Hco & Hex). unfold count_ok in Hco.
  pose proof (fun p' c => set_inv n s t p p' c Hn Hi Ht) as Hset.
  unfold active, waiting, exclusive in *.
  destruct o, p as [|[]|[]|[]| | | |]; try done; unfold free_step, set_task, branch in Hs; simplify_eq.
  - simpl. bias. pose proof (s32_small (count s + 1) ltac:(lia)) as Hs1. destruct (Z.leb_spec 0 (s32 (count s + 1))); apply Hset; try done; simpl; lia.
  - simpl. bias. destruct (Z.leb_spec (count s + 1) 0), (Z.leb_spec 0 (count s)); try lia.
    + rewrite <- (s32_small (count s)) by lia. apply Hset; try done; simpl; lia.
    + apply Hset; try done; simpl; lia.
  - simpl. bias. destruct (Z.eqb_spec (count s) 0); apply Hset; try done; simpl; lia.
  - unfold __down_write_trylock. bias. destruct (Z.eqb_spec (count s) 0) as [Hz|Hz]; simpl.
    + rewrite <- (s32_small (-0x10000 + 1)) by lia. apply Hset; try done; simpl; lia.
    + rewrite <- (s32_small (count s)) by lia. apply Hset; try done; simpl; lia.
  - simpl. bias. destruct (_ && _); apply Hset; try done; simpl in *; lia.
  - simpl. bias. destruct (_ && _); apply Hset; try done; simpl in *; lia.
  - simpl. bias. destruct (s32 _ <? 0); apply Hset; try done; simpl in *; lia.
Qed.

Lemma take_lock_inv n s t p s' :
  inv n s -> tasks s !! t = Some p -> take_lock t p s = Some s' -> inv n s'.
Proof.
  intros ((Hlen & Hqu & How) & Hco & Hex) Ht Hs. unfold take_lock in Hs.
  destruct s as [c l [[u ph]|] ts]; cbn [wait_lock count wait_list tasks] in *; [done|].
  pose proof (fun f p' => tally_insert f _ _ _ p' Ht) as Hd.
  assert (Hl : length ts = n) by done.
  assert (Hlk : forall p', <[t := p']> ts !! t = Some p')
    by (intros p'; apply list_lookup_insert_eq; by eapply lookup_lt_Some).
  destruct p; simplify_eq; [done|..].
  all: destruct l as [|e l]; (split; [split_and!; simpl; [by rewrite length_insert|by eapply queue_keep|]|split]).
  all: unfold count_ok, exclusive, active, waiting, granted, probe, waiters, owner_ok in *; simpl in *.
  all: rewrite ?Hd, ?Hlk; simpl; try done; lia.
Qed.

(** The owner of the lock: a step that leaves the tasks and the queue alone. *)
Lemma phase_inv n s t ph ph' c :
  Z.of_nat n < 2 ^ 15 -> inv n s -> wait_lock s = Some (t, ph) ->
  let s' := mkSys (s32 c) (wait_list s) (Some (t, ph')) (tasks s) in
  waiters s' = waiters s -> owner_ok s' -> exclusive s' ->
  c = count s + 0x10001 * (Z.of_nat (granted s') - Z.of_nat (granted s)) + probe s' - probe s ->
  inv n s'.
Proof.
  intros Hn ((Hlen & Hqu & How) & Hco & Hex) Hl s' Hwt Ho He Hc.
  assert (Hwf : wf n s') by (split_and!; [done|by rewrite Hwt|done]).
  split_and!; [done| |done]. apply (count_wraps n); [done|done|].
  subst s'. cbn [count]. f_equal. unfold count_ok, active, waiting in *. rewrite Hwt. cbn [tasks]. lia.
Qed.

Lemma more_readers_spec l :
  (more_readers l <= length l)%nat /\ Forall (fun e => e.2 = R) (take (more_readers l) l).
Proof. induction l as [|[t []] l [IH1 IH2]]; simpl; (split; [lia|]); by constructor. Qed.

(** [readers_only]: nobody writes, and the owner has made its increment or reads. *)
Lemma readers_only_inv n s t ph u rest (dg : bool) :
  Z.of_nat n < 2 ^ 15 -> inv n s -> wait_lock s = Some (t, ph) -> wait_list s = (u, R) :: rest ->
  granted s = O -> waiters s = wait_list s -> tally writes (tasks s) = 0 -> probe s = (if dg then 0 else 1) ->
  inv n (readers_only t dg s).
Proof.
  intros Hn Hi Hl Hq Hg Hwt Hw Hp. destruct (more_readers_spec rest) as [H1 H2].
  unfold readers_only, rwsem_atomic_add. replace (tail (wait_list s)) with rest by by rewrite Hq.
  eapply (phase_inv n s t ph); [done|done|done|..].
  - by rewrite Hwt.
  - unfold owner_ok. cbn [wait_lock]. rewrite Hq, firstn_cons. simpl. split; [lia|by constructor].
  - by left.
  - unfold RWSEM_ACTIVE_BIAS, RWSEM_WAITING_BIAS. rewrite Hg, Hp. unfold granted, probe. cbn [wait_lock]. destruct dg; lia.
Qed.

Lemma wake_writer_inv n s t u rest :
  Z.of_nat n < 2 ^ 15 -> inv n s -> wait_lock s = Some (t, Wake) -> wait_list s = (u, W) :: rest ->
  inv n (mkSys (count s) rest (Some (t, Out)) (<[u := Hold W]> (tasks s))).
Proof.
  intros Hn ((Hlen & Hqu & How) & Hco & Hex) Hl Hq. unfold owner_ok in How. rewrite Hl in How.
  assert (Hwt : waiters s = (u, W) :: rest) by (unfold waiters; by rewrite Hl).
  rewrite Hwt in Hqu. assert (Hu : tasks s !! u = Some (Queued W)) by (apply Hqu; left).
  pose proof (fun f => tally_insert f _ _ _ (Hold W) Hu) as Hd.
  split_and!; [split_and!; [by simpl; rewrite length_insert|by eapply queue_leave|done]|..].
  - unfold count_ok, active, waiting in *. rewrite Hwt in Hco. unfold granted, probe, waiters in *. rewrite Hl in Hco.
    cbn [wait_lock tasks wait_list count length] in *. rewrite !Hd. simpl. lia.
  - right. cbn [tasks]. rewrite !Hd. destruct How as (_ & -> & ->). done.
Qed.

Lemma signal_inv n s t loop u w next :
  Z.of_nat n < 2 ^ 15 -> inv n s -> wait_lock s = Some (t, Signal (S loop) ((u, w) :: next)) ->
  inv n (mkSys (count s) (wait_list s) (Some (t, Signal loop next)) (<[u := Hold R]> (tasks s))).
Proof.
  intros Hn ((Hlen & Hqu & How) & Hco & Hex) Hl. unfold owner_ok in How. rewrite Hl in How.
  assert (Hwt : waiters s = (u, w) :: next) by (unfold waiters; by rewrite Hl).
  rewrite Hwt in Hqu. assert (Hu : tasks s !! u = Some (Queued w)) by (apply Hqu; left).
  pose proof (fun f => tally_insert f _ _ _ (Hold R) Hu) as Hd.
  split_and!; [split_and!; [by simpl; rewrite length_insert|by eapply queue_leave|]|..].
  - unfold owner_ok. cbn [wait_lock wait_list]. destruct How as [H1 H2]. rewrite firstn_cons in H2. apply Forall_cons in H2 as [_ H2]. split; [simpl in H1; lia|done].
  - unfold count_ok, active, waiting in *. rewrite Hwt in Hco. unfold granted, probe, waiters in *. rewrite Hl in Hco.
    cbn [wait_lock tasks wait_list count length] in *. rewrite !Hd. simpl. lia.
  - unfold exclusive, granted in *. rewrite Hl in Hex. cbn [tasks wait_lock]. rewrite !Hd. simpl. lia.
Qed.

Lemma xadd_do_wake_inv n s t ph s' :
  Z.of_nat n < 2 ^ 15 -> inv n s -> wait_lock s = Some (t, ph) -> __rwsem_do_wake t ph s = Some s' -> inv n s'.
Proof.
  intros Hn Hi Hl Hs. pose proof (wf_bounds n s Hn (proj1 Hi)) as (Ha & Hw & _).
  pose proof Hi as ((Hlen & Hqu & How) & Hco & Hex). unfold owner_ok in How. rewrite Hl in How.
  assert (Hc : - 2 ^ 31 <= count s < 2 ^ 31 - 1) by (unfold count_ok in Hco; lia).
  assert (Hex' : granted s = O -> forall c ph', (match ph' with Signal _ _ => False | _ => True end) ->
      exclusive (mkSys c (wait_list s) (Some (t, ph')) (tasks s))).
  { intros Hg c ph' Hph. unfold exclusive, granted in *. simpl. destruct ph'; naive_solver. }
  unfold __rwsem_do_wake, rwsem_atomic_update, RWSEM_ACTIVE_BIAS in Hs. destruct ph as [w| | | | |loop next|]; try done.
  - injection Hs as <-. rewrite (s32_small (count s + 1)) in * by lia. replace (count s + 1 - 1) with (count s) by lia.
    rewrite (s32_small (count s)) by lia. rewrite Hco, low_half_mask, <- Hco by lia. rewrite <- (s32_small (count s + 1)) by lia.
    assert (Hg : granted s = O) by (unfold granted; by rewrite Hl).
    assert (Hp : probe s = 0) by (unfold probe; by rewrite Hl).
    assert (Hwt : waiters s = wait_list s) by (unfold waiters; by rewrite Hl).
    eapply (phase_inv n s t TryAgain); [done|done|done|..].
    + rewrite Hwt. by destruct (active s =? 0).
    + destruct (Z.eqb_spec (active s) 0) as [Hz|]; [|done]. unfold active in Hz.
      pose proof (fun f => tally_nonneg f (tasks s)) as Hnn.
      pose proof (Hnn reads). pose proof (Hnn writes). pose proof (Hnn (fails R)). pose proof (Hnn (fails W)).
      split_and!; [done|simpl; lia|simpl; lia].
    + apply Hex'; [done|]. by destruct (active s =? 0).
    + rewrite Hg, Hp. unfold granted, probe. cbn [wait_lock]. destruct (active s =? 0); lia.
  - injection Hs as <-. assert (Hg : granted s = O) by (unfold granted; by rewrite Hl).
    assert (Hp : probe s = 1) by (unfold probe; by rewrite Hl).
    eapply (phase_inv n s t Undo); [done|done|done|..].
    + unfold waiters. rewrite Hl. simpl. by destruct (_ =? 0).
    + unfold owner_ok. simpl. by destruct (_ =? 0).
    + apply Hex'; [done|]. by destruct (_ =? 0).
    + rewrite Hg, Hp. unfold granted, probe. cbn [wait_lock]. destruct (_ =? 0); lia.
  - destruct (wait_list s) as [|[u []] rest] eqn:Eq; [done|injection Hs as <-..].
    + eapply readers_only_inv; try done; unfold granted, waiters, probe; rewrite ?Hl; try done. apply How.
    + rewrite <- Eq in *. by eapply wake_writer_inv.
  - destruct How as [Hne Ht]. pose proof (tally_ge reads _ _ _ Ht) as Hge. simpl in Hge.
    assert (Hw0 : tally writes (tasks s) = 0) by (unfold exclusive in Hex; lia).
    assert (Hg : granted s = O) by (unfold granted; by rewrite Hl).
    destruct (wait_list s) as [|[u []] rest] eqn:Eq; [done|injection Hs as <-..].
    + eapply readers_only_inv; try done; unfold granted, waiters, probe; by rewrite ?Hl.
    + rewrite <- Eq in *. rewrite <- (s32_small (count s)) by lia.
      eapply (phase_inv n s t DontWakeWriters); try done; [|by apply Hex'|].
      * unfold waiters. by rewrite Hl.
      * unfold granted, probe. rewrite Hl. simpl. lia.
  - destruct loop as [|loop]; [injection Hs as <-|destruct next as [|[u w] next]; [done|injection Hs as <-]].
    + unfold waiters in Hqu. rewrite Hl in Hqu. split_and!; [done|..].
      * unfold count_ok, active, waiting, granted, probe, waiters in *. rewrite Hl in Hco. done.
      * unfold exclusive, granted in *. rewrite Hl in Hex. done.
    + by eapply signal_inv.
Qed.

Lemma enqueue_inv n s t w :
  Z.of_nat n < 2 ^ 15 -> inv n s -> wait_lock s = Some (t, Enqueue w) ->
  inv n (rwsem_down_failed_common t w s).
Proof.
  intros Hn ((Hlen & Hqu & How) & Hco & Hex) Hl. unfold owner_ok in How. rewrite Hl in How.
  assert (Hwt : waiters s = wait_list s) by (unfold waiters; by rewrite Hl). rewrite Hwt in Hqu.
  pose proof (fun f => tally_insert f _ _ _ (Queued w) How) as Hd.
  assert (Hg : granted s = O) by (unfold granted; by rewrite Hl).
  assert (Hp : probe s = 0) by (unfold probe; by rewrite Hl).
  set (s' := rwsem_down_failed_common t w s).
  assert (Hs' : granted s' = O /\ probe s' = 0 /\ waiters s' = wait_list s ++ [(t, w)]).
  { unfold s', rwsem_down_failed_common, granted, probe, waiters. cbn [wait_lock wait_list]. by destruct (_ =? 0). }
  destruct Hs' as (Hg' & Hp' & Hwt').
  assert (Hwf : wf n s').
  { split_and!; [by simpl; rewrite length_insert|rewrite Hwt'; by eapply queue_join|].
    unfold owner_ok, s', rwsem_down_failed_common. cbn [wait_lock wait_list]. destruct (_ =? 0); [|done].
    by destruct (wait_list s). }
  split_and!; [done|apply (count_wraps n); [done|done|]|].
  - unfold count_ok, active, waiting in *. rewrite Hg, Hp, Hwt in Hco. rewrite Hg', Hp', Hwt', length_app.
    unfold s'. simpl. rewrite !Hd. unfold rwsem_atomic_update. f_equal. destruct w; simpl; bias; lia.
  - unfold exclusive in *. rewrite Hg'. unfold s'. simpl. rewrite !Hd. destruct w; simpl; lia.
Qed.

Lemma unlock_inv n s t p :
  Z.of_nat n < 2 ^ 15 -> inv n s -> wait_lock s = Some (t, Out) -> tasks s !! t = Some p ->
  inv n (mkSys (count s) (wait_list s) None (<[t := returns p]> (tasks s))).
Proof.
  intros Hn ((Hlen & (Hnd & Hqu & Hql) & How) & Hco & Hex) Hl Ht.
  assert (Hwt : waiters s = wait_list s) by (unfold waiters; by rewrite Hl). rewrite Hwt in Hqu, Hql, Hnd.
  pose proof (fun f => tally_insert f _ _ _ (returns p) Ht) as Hd.
  split_and!; [split_and!; [by simpl; rewrite length_insert| |done]|..].
  - split_and!; [done| |simpl; rewrite Hd; destruct p; simpl; unfold waiters; cbn [wait_lock wait_list]; lia].
    cbn [tasks]. intros u w. unfold waiters. cbn [wait_lock wait_list]. rewrite Hqu. destruct (decide (t = u)) as [<- |].
    + rewrite list_lookup_insert_eq by by eapply lookup_lt_Some. rewrite Ht. destruct p; naive_solver.
    + by rewrite list_lookup_insert_ne.
  - unfold count_ok, active, waiting in *. rewrite Hwt in Hco. unfold granted, probe, waiters in *. rewrite Hl in Hco.
    cbn [wait_lock tasks wait_list count] in *. rewrite !Hd. destruct p; simpl; lia.
  - unfold exclusive, granted in *. rewrite Hl in Hex. cbn [tasks wait_lock]. rewrite !Hd. destruct p; simpl; lia.
Qed.

Lemma rwsem_xadd_step_inv n s t o s' : Z.of_nat n < 2 ^ 15 -> inv n s -> step t o s = Some s' -> inv n s'.
Proof.
  intros Hn Hi Hs. unfold step in Hs. destruct (tasks s !! t) as [p|] eqn:Ht; [|done]. cbn [mbind option_bind] in Hs.
  assert (Hfree : (forall ph, wait_lock s <> Some (t, ph)) -> free_step t o p s = Some s' -> inv n s').
  { intros Ho Hf. destruct (decide (o = TakeLock)) as [-> |]; [|by eapply free_step_inv].
    by eapply take_lock_inv. }
  destruct (wait_lock s) as [[u ph]|] eqn:El; [|by apply Hfree].
  destruct (decide (u = t)) as [-> |]; [|apply Hfree; [naive_solver|done]].
  destruct o; try done. unfold locked_step in Hs. destruct ph; try (by eapply xadd_do_wake_inv).
  - injection Hs as <-. by apply enqueue_inv.
  - injection Hs as <-. by apply unlock_inv.
Qed.

Lemma rwsem_xadd_init_inv n : inv n (init_rwsem n).
Proof.
  assert (Hz : forall f, f Idle = false -> tally f (replicate n Idle) = 0)
    by (intros f Hf; apply zsum_0; intros x [-> _]%elem_of_replicate; by rewrite Hf).
  unfold inv, wf, count_ok, exclusive, active, waiting. simpl. rewrite length_replicate, !Hz by done. split_and!; try done; [|by left].
  split_and!; [constructor| |by apply Hz]. intros t w. split; [by intros ?%not_elem_of_nil|].
  by intros [? _]%lookup_replicate.
Qed.

Lemma rwsem_xadd_reachable_inv n s : Z.of_nat n < 2 ^ 15 -> reachable n s -> inv n s.
Proof.
  intros Hn. apply reach_invariant; [apply rwsem_xadd_init_inv|]. intros [t o] s1 s2 ? ?. by eapply rwsem_xadd_step_inv.
Qed.

(** A writer is alone. *)
Lemma exclusive_alone s t u q :
  exclusive s -> tasks s !! t = Some (Hold W) -> tasks s !! u = Some q -> t <> u ->
  reads q = false /\ writes q = false.
Proof.
  intros Hex Ht Hu Hne. pose proof (tally_ge writes _ _ _ Ht) as Hw. simpl in Hw.
  pose proof (tally_insert writes _ _ _ Idle Ht) as Hd. simpl in Hd.
  assert (Hq : <[t := Idle]> (tasks s) !! u = Some q) by by rewrite list_lookup_insert_ne.
  pose proof (tally_ge writes _ _ _ Hq) as H1. pose proof (tally_ge reads _ _ _ Hu) as H2.
  unfold exclusive in Hex. destruct (reads q), (writes q); simpl in *; split; try done; lia.
Qed.

(** ** Theorems *)

(** C13: read-write semaphores (exchange-and-add variant) exclude.  With fewer than 2^15
    tasks, in every interleaving of the locked instructions of the fast paths with
    the atomic accesses of the slow paths: a writer is alone; the tasks in the queue
    are the waiting tasks, once each; and the word never wraps, its low half is the
    number of active tasks and its high half the negated number of writers and
    waiters, those that failed and have not queued yet included. *)
Theorem rwsem_xadd_exclusion n s :
  Z.of_nat n < 2 ^ 15 -> reachable n s ->
  (forall t u q, tasks s !! t = Some (Hold W) -> tasks s !! u = Some q -> t <> u ->
    reads q = false /\ writes q = false) /\
  (NoDup (waiters s).*1 /\ forall t w, (t, w) ∈ waiters s <-> tasks s !! t = Some (Queued w)) /\
  count s = active s - 0x10000 * waiting s /\ 0 <= active s < 0x10000 /\ 0 <= waiting s < 0x8000.
Proof.
  intros Hn Hr. apply rwsem_xadd_reachable_inv in Hr as (Hwf & Hco & Hex); [|done].
  destruct (wf_bounds n s Hn Hwf) as (Ha & Hw & _). destruct Hwf as (_ & (Hnd & Hq & _) & _).
  split_and!; [intros; by eapply exclusive_alone|done|done|done|lia..].
Qed.

(** A writer, a reader and a writer queued behind it, and the release that grants the
    reader. *)
Definition handover : list (nat * op) :=
  [(0%nat, DownWrite);
   (1%nat, DownRead); (1%nat, TakeLock); (1%nat, Locked); (1%nat, Locked);
   (2%nat, DownWrite); (2%nat, TakeLock); (2%nat, Locked); (2%nat, Locked);
   (0%nat, UpWrite); (0%nat, TakeLock); (0%nat, Locked); (0%nat, Locked); (0%nat, Locked); (0%nat, Locked);
   (0%nat, Locked)].

Lemma rwsem_xadd_exclusion_witness : exists s,
  run (fun o => step o.1 o.2) handover (init_rwsem 3) = Some s /\
  tasks s = [Idle; Hold R; Queued W] /\ count s = active s - 0x10000 * waiting s.
Proof.
  eexists. split; [vm_compute; reflexivity|]. split; [reflexivity|].
  refine (proj1 (proj2 (proj2 (rwsem_xadd_exclusion 3 _ _ _)))); [lia|].
  apply (run_from _ handover); vm_compute; reflexivity.
Defined.

(** *** The lock is always dropped *)

Definition budget (s : system) : nat :=
  match wait_lock s with
  | None => 0
  | Some (_, ph) =>
      match ph with
      | Enqueue _ => length (wait_list s) + 6
      | TryAgain => length (wait_list s) + 4
      | Undo => 2
      | Wake | DontWakeWriters => length (wait_list s) + 3
      | Signal loop _ => loop + 2
      | Out => 1
      end
  end.

Lemma owner_is_task n s : Z.of_nat n < 2 ^ 15 -> reachable n s ->
  forall t ph, wait_lock s = Some (t, ph) -> (t < n)%nat.
Proof.
  intros Hn Hr. set (I s := inv n s /\ forall t ph, wait_lock s = Some (t, ph) -> (t < n)%nat).
  enough (H : I s) by apply H. revert Hr. apply reach_invariant; [split; [apply rwsem_xadd_init_inv|done]|].
  intros [t o] s1 s2 [Hi Ho] Hs. split; [by eapply rwsem_xadd_step_inv|]. intros u ph Hu.
  simpl in Hs. unfold step in Hs. destruct (tasks s1 !! t) as [p|] eqn:Ht; [|done]. cbn [mbind option_bind] in Hs.
  apply lookup_lt_Some in Ht. destruct Hi as ((Hlen & _) & _). rewrite Hlen in Ht.
  assert (Hf : free_step t o p s1 = Some s2 -> (u < n)%nat).
  { unfold free_step, set_task, take_lock. intros Hf. destruct o, p as [|[]|[]|[]| | | |]; try done; simplify_eq/=; try (by eapply Ho).
    all: destruct (wait_lock s1); by simplify_eq/=. }
  destruct (wait_lock s1) as [[t' ph']|] eqn:El; [|by apply Hf]. case_decide; [subst|by apply Hf].
  destruct o; try done. unfold locked_step, __rwsem_do_wake in Hs.
  destruct ph'; repeat case_match; simplify_eq/=; done.
Qed.

(** While somebody is queued the word is negative, so the undo never tries again. *)
Lemma waiters_negative n s : Z.of_nat n < 2 ^ 15 -> inv n s -> (granted s < length (waiters s))%nat -> count s < - 1.
Proof.
  intros Hn (Hwf & Hco & _) Hg. destruct (wf_bounds n s Hn Hwf) as (Ha & _).
  pose proof (tally_nonneg writes (tasks s)). pose proof (tally_nonneg (fails W) (tasks s)).
  unfold count_ok, waiting in Hco. lia.
Qed.

Lemma locked_step_progress n s t ph p :
  Z.of_nat n < 2 ^ 15 -> inv n s -> wait_lock s = Some (t, ph) ->
  exists s', locked_step t ph p s = Some s' /\ (budget s' < budget s)%nat.
Proof.
  intros Hn Hi Hl. pose proof Hi as ((_ & _ & How) & Hco & _). pose proof (wf_bounds n s Hn (proj1 Hi)) as (Ha & Hw & _).
  pose proof (waiters_negative n s Hn Hi) as Hneg.
  unfold owner_ok in How. unfold budget, granted, waiters in *. rewrite Hl in *. destruct ph as [w| | | | |loop next|]; simpl.
  - eexists. split; [done|]. simpl. rewrite length_app. simpl. destruct (_ =? 0); lia.
  - eexists. split; [done|]. simpl. destruct (_ =? 0); lia.
  - eexists. split; [done|]. simpl. unfold rwsem_atomic_update, RWSEM_ACTIVE_BIAS.
    assert (count s < - 1) by (apply Hneg; destruct (wait_list s); simpl; [done|lia]).
    rewrite s32_small by (unfold count_ok in Hco; lia). destruct (Z.eqb_spec (count s + - (1)) 0); lia.
  - destruct How as (Hne & _). destruct (wait_list s) as [|[u []] rest] eqn:Eq; [done|..]; (eexists; split; [done|]); simpl; [|lia].
    rewrite Eq. simpl. pose proof (more_readers_spec rest). lia.
  - destruct How as (Hne & _). destruct (wait_list s) as [|[u []] rest] eqn:Eq; [done|..]; (eexists; split; [done|]); simpl; [|lia].
    rewrite Eq. simpl. pose proof (more_readers_spec rest). lia.
  - destruct How as (Hle & _). destruct loop as [|loop], next as [|[u w] next]; simpl in *; try lia; (eexists; split; [done|]); simpl; lia.
  - eexists. split; [done|]. simpl. lia.
Qed.

(** A step of a task that does not own the lock. *)
Lemma free_step_owner t o p s s' u ph :
  wait_lock s = Some (u, ph) -> free_step t o p s = Some s' ->
  wait_lock s' = Some (u, ph) /\ wait_list s' = wait_list s.
Proof.
  intros Hl Hs. unfold free_step, set_task, take_lock in Hs. rewrite Hl in Hs.
  destruct o, p as [|[]|[]|[]| | | |]; try done; by simplify_eq.
Qed.

(** The lock [wait_lock] is always dropped.  In every reachable state the owner of the
    lock has its next step enabled (it never takes the first entry of an empty list)
    and the step uses up a budget that no step of another task refills, so that the
    owner drops the lock after at most [length wait_list + 6] steps of its own under
    every schedule; in particular [goto try_again] after the undo is never taken. *)
Theorem rwsem_xadd_lock_dropped n s t ph :
  Z.of_nat n < 2 ^ 15 -> reachable n s -> wait_lock s = Some (t, ph) ->
  (budget s <= length (wait_list s) + 6)%nat /\
  (exists s', step t Locked s = Some s' /\ (budget s' < budget s)%nat) /\
  (forall u o s', u <> t -> step u o s = Some s' -> budget s' = budget s /\ wait_lock s' = wait_lock s).
Proof.
  intros Hn Hr Hl. pose proof (owner_is_task n s Hn Hr t ph Hl) as Ht.
  apply rwsem_xadd_reachable_inv in Hr as Hi; [|done]. split_and!.
  - pose proof Hi as ((_ & _ & How) & _). unfold owner_ok, budget in *. rewrite Hl in *.
    destruct ph; lia.
  - destruct (lookup_lt_is_Some_2 (tasks s) t) as [p Hp]; [by destruct Hi as ((-> & _) & _)|].
    unfold step. rewrite Hp, Hl. cbn [mbind option_bind]. rewrite decide_True by done. by apply (locked_step_progress n).
  - intros u o s' Hne Hs. unfold step in Hs. destruct (tasks s !! u) as [p|] eqn:Hu; [|done].
    cbn [mbind option_bind] in Hs. rewrite Hl, decide_False in Hs by done.
    destruct (free_step_owner u o p s s' t ph Hl Hs) as [H1 H2]. unfold budget. by rewrite H1, H2, Hl.
Qed.

Lemma rwsem_xadd_lock_dropped_witness : exists s s',
  run (fun o => step o.1 o.2) (take 11 handover) (init_rwsem 3) = Some s /\
  wait_lock s = Some (0%nat, TryAgain) /\ step 0 Locked s = Some s' /\ (budget s' < budget s)%nat.
Proof.
  eexists _. eassert (Hr : reachable 3 _).
  { apply (run_from _ (take 11 handover)); vm_compute; reflexivity. }
  destruct (rwsem_xadd_lock_dropped 3 _ 0 TryAgain ltac:(lia) Hr eq_refl) as (_ & (s' & H1 & H2) & _).
  exists s'. split; [vm_compute; reflexivity|]. split; [reflexivity|]. by split.
Defined.

(** *** No wake-up is lost, the undo apart *)

(** The undo that finds, after the active part went back to 0, that somebody waits:
    the code tests the whole word for 0, so it leaves. *)
Definition losing_undo (t : nat) (o : op) (s : system) : bool :=
  match o, wait_lock s with
  | Locked, Some (u, Undo) =>
      bool_decide (u = t) && (Z.land (rwsem_atomic_update (- RWSEM_ACTIVE_BIAS) (count s)) RWSEM_ACTIVE_MASK =? 0)
  | _, _ => false
  end.

Definition careful_step (t : nat) (o : op) (s : system) : option system :=
  if losing_undo t o s then None else step t o s.

Definition trying (s : system) : Z := match wait_lock s with Some (_, TryAgain) => 1 | _ => 0 end.

(** When somebody waits, somebody is active, about to call [rwsem_wake], or at it. *)
Definition watched (s : system) : Prop :=
  waiters s <> [] -> 0 < active s + tally to_wake (tasks s) + trying s.

Lemma count_mask n s : Z.of_nat n < 2 ^ 15 -> inv n s -> Z.land (count s) RWSEM_ACTIVE_MASK = active s.
Proof.
  intros Hn (Hwf & -> & _). destruct (wf_bounds n s Hn Hwf) as (Ha & _). apply low_half_mask. lia.
Qed.

Definition watches (p : pc) : bool := reads p || writes p || fails R p || fails W p || to_wake p.

Lemma tally_watches ts :
  tally watches ts = tally reads ts + tally writes ts + tally (fails R) ts + tally (fails W) ts + tally to_wake ts.
Proof. unfold tally. rewrite <- !zsum_add. apply zsum_ext. by intros [|[]|[]|[]| | | |] _. Qed.

(** A fast path keeps the watch when its task keeps it or others are active. *)
Lemma watched_set s t p p' c :
  watched s -> tasks s !! t = Some p ->
  (waiters s <> [] -> Z.b2z (watches p) <= Z.b2z (watches p') \/ 2 <= active s) ->
  watched (mkSys c (wait_list s) (wait_lock s) (<[t := p']> (tasks s))).
Proof.
  intros Hw Ht Hd Hne. change (waiters _) with (waiters s) in Hne. specialize (Hw Hne). specialize (Hd Hne).
  pose proof (tally_insert watches _ _ _ p' Ht) as Hins. pose proof (tally_nonneg to_wake (tasks s)) as H0.
  assert (Ht1 : trying s >= 0) by (unfold trying; repeat case_match; lia).
  rewrite !tally_watches in Hins. unfold active in *.
  change (trying _) with (trying s). change (granted (mkSys _ _ _ _)) with (granted s).
  change (probe (mkSys _ _ _ _)) with (probe s). cbn [tasks].
  destruct (watches p), (watches p'); simpl in *; lia.
Qed.

(** The last active task that releases while somebody waits goes to wake it. *)
Lemma last_up_wakes n s t p :
  Z.of_nat n < 2 ^ 15 -> inv n s -> tasks s !! t = Some p -> waiters s <> [] -> active s < 2 ->
  (p = Hold R -> (__up_read (count s)).2 = true) /\ (p = Hold W -> (__up_write (count s)).2 = true).
Proof.
  intros Hn Hi Ht Hne Ha2. destruct (wf_bounds n s Hn (proj1 Hi)) as (Ha & Hw & Hg & _ & Hpr). pose proof Hi as (_ & Hco & _).
  pose proof (fun f => tally_nonneg f (tasks s)) as Hnn.
  pose proof (Hnn reads). pose proof (Hnn writes). pose proof (Hnn (fails R)). pose proof (Hnn (fails W)).
  pose proof (tally_ge reads _ _ _ Ht). pose proof (tally_ge writes _ _ _ Ht).
  assert (Hlen : (1 <= length (waiters s))%nat) by (destruct (waiters s); simpl; [done|lia]).
  assert (Hlow : 1 <= active s -> decw_zero (count s) = true).
  { intros ?. rewrite Hco, low_half_decw by lia. lia. }
  unfold count_ok in Hco. unfold __up_read, __up_write. bias. unfold active, waiting in *.
  split; intros ->; simpl in *; rewrite Hlow, andb_true_r by lia; rewrite s32_small by lia; lia.
Qed.

Lemma free_step_watched n s t o p s' :
  Z.of_nat n < 2 ^ 15 -> inv n s -> watched s -> tasks s !! t = Some p ->
  o <> TakeLock -> free_step t o p s = Some s' -> watched s'.
Proof.
  intros Hn Hi Hw Ht Ho Hs. pose proof (last_up_wakes n s t p Hn Hi Ht) as Hup.
  destruct o, p as [|[]|[]|[]| | | |]; try done; unfold free_step, set_task in Hs; simplify_eq/=;
    (eapply watched_set; [done|done|intros Hne]); try (left; by repeat case_match).
  all: destruct (Z.ltb_spec (active s) 2) as [H2|]; [left|by right].
  - destruct (Hup Hne H2) as [H1 _]. unfold __up_read in H1. simpl in H1. by rewrite H1.
  - destruct (Hup Hne H2) as [_ H1]. unfold __up_write in H1. simpl in H1. by rewrite H1.
Qed.

Lemma take_lock_watched s t p s' :
  watched s -> tasks s !! t = Some p -> take_lock t p s = Some s' -> watched s'.
Proof.
  intros Hw Ht Hs. unfold take_lock in Hs. destruct s as [c l [[u ph]|] ts]; cbn [wait_lock count wait_list tasks] in *; [done|].
  unfold watched, active, waiters, granted, probe, trying in *. simpl in Hw.
  pose proof (fun f => tally_nonneg f ts) as Hnn.
  pose proof (Hnn reads). pose proof (Hnn writes). pose proof (Hnn (fails R)). pose proof (Hnn (fails W)).
  pose proof (tally_ge to_wake _ _ _ Ht).
  destruct p; simplify_eq; simpl; [done|..]; (destruct l; [done|]); intros _; simpl;
    rewrite ?(tally_insert _ _ _ _ _ Ht); specialize (Hw ltac:(done)); simpl in *; lia.
Qed.

(** The steps under the lock. *)
Lemma locked_step_watched n s t ph p s' :
  Z.of_nat n < 2 ^ 15 -> inv n s -> inv n s' -> watched s -> tasks s !! t = Some p ->
  wait_lock s = Some (t, ph) -> losing_undo t Locked s = false -> locked_step t ph p s = Some s' -> watched s'.
Proof.
  intros Hn Hi Hi' Hw Ht Hl Hu Hs Hne. pose proof (count_mask n s' Hn Hi') as Hm.
  destruct (wf_bounds n s' Hn (proj1 Hi')) as (Ha & _). pose proof (tally_nonneg to_wake (tasks s')) as H0.
  pose proof (fun f => tally_nonneg f (tasks s')) as Hnn.
  pose proof (Hnn reads). pose proof (Hnn writes). pose proof (Hnn (fails R)). pose proof (Hnn (fails W)).
  assert (Htr : 0 <= trying s') by (unfold trying; repeat case_match; lia).
  pose proof Hi as ((_ & _ & How) & _). unfold owner_ok in How. unfold losing_undo in Hu. rewrite Hl in *.
  enough (0 < active s' \/ 0 < trying s' \/ 0 < tally to_wake (tasks s')) by lia.
  destruct ph as [w| | | | |loop next|]; unfold locked_step in Hs; simpl in Hs.
  - injection Hs as <-. simpl in Hm. unfold trying. simpl. destruct (Z.eqb_spec (Z.land (rwsem_atomic_update (adjustment w) (count s)) RWSEM_ACTIVE_MASK) 0); lia.
  - injection Hs as <-. left. unfold active, granted, probe. simpl in *. destruct (_ =? 0); lia.
  - injection Hs as <-. simpl in Hm. rewrite bool_decide_eq_true_2 in Hu by done. simpl in Hu. left. lia.
  - left. destruct (wait_list s) as [|[u []] rest] eqn:Eq; [done|injection Hs as <-..].
    + unfold active, granted, probe. simpl in *. lia.
    + pose proof Hi as ((_ & (_ & Hq & _) & _) & _).
      assert (Hlk : tasks s !! u = Some (Queued W)) by (apply Hq; unfold waiters; rewrite Hl, Eq; left).
      pose proof (tally_insert writes _ _ _ (Hold W) Hlk) as Hd. pose proof (tally_nonneg writes (tasks s)).
      unfold active, granted, probe. simpl in *. lia.
  - left. destruct How as [_ Hd]. pose proof (tally_ge reads _ _ _ Hd) as Hr. simpl in Hr.
    destruct (wait_list s) as [|[u []] rest] eqn:Eq; [done|injection Hs as <-..]; unfold active, granted, probe; simpl in *; lia.
  - destruct loop as [|loop]; [injection Hs as <-|destruct next as [|[u w] next]; [done|injection Hs as <-]].
    + unfold watched, waiters, active, granted, probe, trying in *. rewrite Hl in Hw. specialize (Hw Hne). simpl in *. lia.
    + pose proof Hi as ((_ & (_ & Hq & _) & _) & _).
      assert (Hlk : tasks s !! u = Some (Queued w)) by (apply Hq; unfold waiters; rewrite Hl; left).
      pose proof (tally_insert reads _ _ _ (Hold R) Hlk) as Hd. pose proof (tally_nonneg reads (tasks s)).
      left. unfold active, granted, probe. simpl in *. lia.
  - injection Hs as <-. pose proof (fun f => tally_insert f _ _ _ (returns p) Ht) as Hd.
    unfold watched, waiters, active, granted, probe, trying in *. rewrite Hl in Hw. specialize (Hw Hne). simpl in *.
    rewrite !Hd in *. destruct p; simpl in *; lia.
Qed.

Definition carefully_reachable (n : nat) : system -> Prop := reach (fun o => careful_step o.1 o.2) (init_rwsem n).

Lemma rwsem_xadd_watched n s : Z.of_nat n < 2 ^ 15 -> carefully_reachable n s -> inv n s /\ watched s.
Proof.
  intros Hn. set (I s := inv n s /\ watched s). change (carefully_reachable n s -> I s).
  apply reach_invariant; [split; [apply rwsem_xadd_init_inv|by intros Hne; destruct Hne]|].
  intros [t o] s1 s2 [Hi Hw] Hs. simpl in Hs. unfold careful_step in Hs.
  destruct (losing_undo t o s1) eqn:Eu; [done|]. pose proof (rwsem_xadd_step_inv n s1 t o s2 Hn Hi Hs) as Hi2.
  split; [done|]. unfold step in Hs. destruct (tasks s1 !! t) as [p|] eqn:Ht; [|done]. cbn [mbind option_bind] in Hs.
  assert (Hfree : free_step t o p s1 = Some s2 -> watched s2).
  { intros Hf. destruct (decide (o = TakeLock)) as [-> |]; [by apply (take_lock_watched s1 t p)|by apply (free_step_watched n s1 t o p)]. }
  destruct (wait_lock s1) as [[u ph]|] eqn:El; [|by apply Hfree].
  case_decide; [subst u|by apply Hfree]. destruct o; try done. by eapply (locked_step_watched n s1 t ph p).
Qed.

(** C14: no wake-up is lost but through the undo of [__rwsem_do_wake].  In every run in
    which no task undoes its increment at the moment the active part goes back to 0,
    a non-empty queue with the lock free has somebody who will look at it: a holder,
    a task about to queue, or one about to call [rwsem_wake]. *)
Theorem rwsem_xadd_no_lost_wakeup n s :
  Z.of_nat n < 2 ^ 15 -> carefully_reachable n s -> wait_lock s = None -> wait_list s <> [] ->
  exists t p, tasks s !! t = Some p /\ watches p = true.
Proof.
  intros Hn Hr Hl Hne. apply rwsem_xadd_watched in Hr as [_ Hw]; [|done].
  assert (Hpos : 0 < tally watches (tasks s)).
  { rewrite tally_watches. unfold watched, waiters, active, granted, probe, trying in Hw. rewrite Hl in Hw. specialize (Hw Hne). lia. }
  destruct (decide (Exists (fun p => watches p = true) (tasks s))) as [He|He].
  - apply Exists_exists in He as (p & [t Ht]%list_elem_of_lookup & Hp). eauto.
  - apply not_Exists_Forall in He; [|intros p; exact (decide _)]. exfalso.
    unfold tally in Hpos. rewrite zsum_0 in Hpos; [lia|]. intros p Hp. rewrite Forall_forall in He.
    specialize (He p Hp). simpl in He. destruct (watches p); [by destruct He|done].
Qed.

Lemma rwsem_xadd_no_lost_wakeup_witness : exists s t p,
  run (fun o => careful_step o.1 o.2) (take 9 handover) (init_rwsem 3) = Some s /\
  wait_list s = [(1%nat, R); (2%nat, W)] /\ tasks s !! t = Some p /\ watches p = true.
Proof.
  eexists _. eassert (Hr : carefully_reachable 3 _).
  { apply (run_from _ (take 9 handover)); vm_compute; reflexivity. }
  destruct (rwsem_xadd_no_lost_wakeup 3 _ ltac:(lia) Hr eq_refl ltac:(done)) as (t & p & H1 & H2).
  exists t, p. split; [vm_compute; reflexivity|]. by split.
Defined.

(** The undo does lose one: task 0, delayed on its way into [rwsem_wake], makes its
    increment after task 2 has granted the lock to task 1; task 1 releases and sees an
    active part of 1, so it wakes nobody; task 0 undoes its increment, finds the word
    different from 0 and leaves.  Task 2 stays queued on a semaphore nobody holds. *)
Definition lost_wakeup : list (nat * op) :=
  [(0%nat, DownWrite);
   (1%nat, DownWrite); (1%nat, TakeLock); (1%nat, Locked); (1%nat, Locked);
   (0%nat, UpWrite);
   (2%nat, DownWrite); (2%nat, TakeLock); (2%nat, Locked); (2%nat, Locked); (2%nat, Locked); (2%nat, Locked);
   (0%nat, TakeLock); (0%nat, Locked);
   (1%nat, UpWrite);
   (0%nat, Locked); (0%nat, Locked)].

Lemma rwsem_xadd_lost_wakeup :
  run (fun o => step o.1 o.2) lost_wakeup (init_rwsem 3) =
  Some (mkSys (- 0x10000) [(2%nat, W)] None [Idle; Idle; Queued W]).
Proof. vm_compute. reflexivity. Qed.

(** *** The word as sync_char reads it *)

Lemma rwsem_word e ti st :
  t_lock_id ti = L_RSEMA \/ t_lock_id ti = L_WSEMA ->
  update_current_lock_state e ti st =
  if t_lkval ti =? 0 then (LKST_OPEN, false, [])
  else if t_lkval ti =? 1 - 0x10000 then (LKST_WRLK, false, [])
  else if 0 <? t_lkval ti then (LKST_RLK, false, [])
  else (t_old_state ti, true, []).
Proof. by intros [Hid|Hid]; unfold update_current_lock_state; rewrite Hid. Qed.

(** With nobody queued and nobody on the way to the queue, sync_char's reading of
    the word is right: write-locked when a task writes, read-locked when tasks read,
    open when nobody holds the semaphore. *)
Theorem rwsem_xadd_classified n s e ti st :
  Z.of_nat n < 2 ^ 15 -> reachable n s -> waiters s = [] ->
  tally (fails R) (tasks s) = 0 -> tally (fails W) (tasks s) = 0 ->
  t_lock_id ti = L_RSEMA \/ t_lock_id ti = L_WSEMA -> t_lkval ti = count s ->
  (update_current_lock_state e ti st).1.1 =
  if 0 <? tally writes (tasks s) then LKST_WRLK
  else if 0 <? tally reads (tasks s) then LKST_RLK else LKST_OPEN.
Proof.
  intros Hn Hr Hq Hfr Hfw Hid Hv. apply rwsem_xadd_reachable_inv in Hr as (Hwf & Hco & Hex); [|done].
  assert (Hp : probe s = 0 /\ granted s = O).
  { destruct Hwf as (_ & _ & How). unfold probe, granted, waiters, owner_ok in *. 
    destruct (wait_lock s) as [[u []]|]; try done; [naive_solver..|]. destruct How as [Hle _]. rewrite Hq in Hle. simpl in Hle. lia. }
  destruct Hp as [Hp Hg]. unfold count_ok, active, waiting in Hco. rewrite Hp, Hg, Hfr, Hfw, Hq in Hco. simpl in Hco.
  assert (Hbr : count s = tally reads (tasks s) /\ tally writes (tasks s) = 0 /\ 0 <= tally reads (tasks s) \/
    count s = 1 - 0x10000 /\ tally writes (tasks s) = 1).
  { pose proof (tally_nonneg reads (tasks s)). unfold exclusive in Hex. lia. }
  rewrite rwsem_word, Hv by done. destruct Hbr as [(Hc & -> & Hr)|[Hc ->]]; rewrite Hc; simpl; [|done].
  destruct (Z.eqb_spec (tally reads (tasks s)) 0) as [-> |]; [done|].
  rewrite (proj2 (Z.eqb_neq _ (1 - 65536))), (proj2 (Z.ltb_lt _ _)) by lia. done.
Qed.

Lemma rwsem_xadd_classified_witness : exists s,
  run (fun o => step o.1 o.2) [(0%nat, DownRead); (1%nat, DownRead)] (init_rwsem 2) = Some s /\
  (update_current_lock_state (mkEnv 0 0 0 0 0 0 (fun _ => 0) (fun _ => 0) None 0)
    (mkT 0 2 1 0 0 0 L_RSEMA LKST_RLK 0 0 0 false false 0 0 0) LKST_RLK).1.1 = LKST_RLK.
Proof.
  eexists. split; [vm_compute; reflexivity|].
  refine (rwsem_xadd_classified 2 (mkSys 2 [] None [Hold R; Hold R]) _
    (mkT 0 2 1 0 0 0 L_RSEMA LKST_RLK 0 0 0 false false 0 0 0) LKST_RLK _ _ eq_refl eq_refl eq_refl _ eq_refl);
    [lia| |by left].
  apply (run_from _ [(0%nat, DownRead); (1%nat, DownRead)]); vm_compute; reflexivity.
Defined.

(** One active reader with one waiter behind it leaves the word of a lone writer. *)
Definition reader_and_waiter : list (nat * op) :=
  [(0%nat, DownRead); (1%nat, DownWrite); (1%nat, TakeLock); (1%nat, Locked); (1%nat, Locked)].

Lemma rwsem_xadd_reader_read_as_writer e ti st :
  t_lock_id ti = L_RSEMA -> t_lkval ti = 1 - 0x10000 ->
  run (fun o => step o.1 o.2) reader_and_waiter (init_rwsem 2) =
    Some (mkSys (t_lkval ti) [(1%nat, W)] None [Hold R; Queued W]) /\
  (update_current_lock_state e ti st).1.1 = LKST_WRLK.
Proof.
  intros Hid Hv. rewrite rwsem_word, Hv by by left. split; [vm_compute; reflexivity|done].
Qed.

End Xadd.
