(* ===== verification/Mutex.v ===== *)
(** * The kernel's mutexes

    Model of [kernel/mutex.c] with the i386 fast paths of [include/asm-i386/mutex.h]
    ([CONFIG_NO_MUTEX] and [CONFIG_DEBUG_MUTEXES] off).  One step is one atomic
    instruction on [count] together with the list work done around it under
    [wait_lock]; the slow paths that touch [count] twice take two steps with
    [wait_lock] held in between, so that the fast paths of other tasks interleave
    with them. *)

From S2P Require Import Prelude.

Inductive tstate := TASK_UNINTERRUPTIBLE | TASK_INTERRUPTIBLE.

(** Where a task is: outside; past a failed fast path; on [wait_list], asleep or
    woken; past the successful [atomic_xchg] of a slow path with [wait_lock] held;
    past the failed one of [__mutex_trylock_slowpath], likewise; inside the critical
    section; past an unlock fast path that found contention. *)
Inductive pc := Idle | Failed (k : tstate) | Asleep (k : tstate) | Awake (k : tstate)
  | Got | TryLost | Holding | Releasing.

Record mutex := mkMutex {
  count : Z;
  wait_list : list nat;
  tasks : list pc
}.

Definition __mutex_init (n : nat) : mutex := mkMutex 1 [] (replicate n Idle).

Definition goto (i : nat) (p : pc) (m : mutex) : mutex := mkMutex (count m) (wait_list m) (<[i := p]> (tasks m)).
Definition atomic_set (v : Z) (m : mutex) : mutex := mkMutex v (wait_list m) (tasks m).
Definition set_list (l : list nat) (m : mutex) : mutex := mkMutex (count m) l (tasks m).
Definition remove_waiter (i : nat) (m : mutex) : mutex := set_list (filter (fun j => j <> i) (wait_list m)) m.

Definition list_empty (m : mutex) : bool := match wait_list m with [] => true | _ => false end.

(** [wait_lock] is held between the two steps of a slow path. *)
Definition has_lock (p : pc) : bool := match p with Got | TryLost => true | _ => false end.
Definition wait_lock_free (m : mutex) : bool := negb (existsb has_lock (tasks m)).

(** [__mutex_fastpath_lock], [__mutex_fastpath_lock_retval]: [decl ; js]. *)
Definition mutex_lock (k : tstate) (i : nat) (m : mutex) : mutex :=
  let m := atomic_set (s32 (count m - 1)) m in
  goto i (if count m <? 0 then Failed k else Holding) m.

(** [__mutex_fastpath_unlock]: [incl ; jle]. *)
Definition mutex_unlock (i : nat) (m : mutex) : mutex :=
  let m := atomic_set (s32 (count m + 1)) m in
  goto i (if count m <=? 0 then Releasing else Idle) m.

(** One turn of the loop of [__mutex_lock_common]. *)
Definition lock_turn (k : tstate) (sig : bool) (i : nat) (m : mutex) : mutex :=
  let old_val := count m in
  let m := atomic_set (-1) m in
  if old_val =? 1 then goto i Got (remove_waiter i m)
  else if match k with TASK_INTERRUPTIBLE => sig | TASK_UNINTERRUPTIBLE => false end
  then goto i Idle (remove_waiter i m)
  else goto i (Asleep k) m.

(** Its entry: join the queue, first turn. *)
Definition __mutex_lock_common (k : tstate) (sig : bool) (i : nat) (m : mutex) : mutex :=
  lock_turn k sig i (set_list (wait_list m ++ [i]) m).

(** Its end: [count] goes to 0 when nobody waits. *)
Definition clear_if_alone (m : mutex) : mutex := if list_empty m then atomic_set 0 m else m.
Definition lock_finish (i : nat) (m : mutex) : mutex := goto i Holding (clear_if_alone m).

Definition wake_up_process (i : nat) (m : mutex) : mutex :=
  match tasks m !! i with Some (Asleep k) => goto i (Awake k) m | _ => m end.

(** [__mutex_slowpath_needs_to_unlock()] is 1. *)
Definition __mutex_unlock_slowpath (i : nat) (m : mutex) : mutex :=
  let m := goto i Idle (atomic_set 1 m) in
  match wait_list m with [] => m | w :: _ => wake_up_process w m end.

(** [mutex_trylock] with [cmpxchg], and its spinlock-based fallback. *)
Definition mutex_trylock (i : nat) (m : mutex) : mutex :=
  if count m =? 1 then goto i Holding (atomic_set 0 m) else m.
Definition __mutex_trylock_slowpath (i : nat) (m : mutex) : mutex :=
  goto i (if count m =? 1 then Got else TryLost) (atomic_set (-1) m).
Definition trylock_finish (i : nat) (m : mutex) : mutex := goto i Idle (clear_if_alone m).

Inductive action := Lock (k : tstate) | Trylock | TrylockSlow | Unlock | Signal | Next (sig : bool).

(** What an action needs: a task at that place, and [wait_lock] where it takes it. *)
Definition step (i : nat) (a : action) (m : mutex) : option mutex :=
  p ← tasks m !! i;
  match a, p with
  | Lock k, Idle => Some (mutex_lock k i m)
  | Trylock, Idle => Some (mutex_trylock i m)
  | TrylockSlow, Idle => if wait_lock_free m then Some (__mutex_trylock_slowpath i m) else None
  | Unlock, Holding => Some (mutex_unlock i m)
  | Signal, Asleep TASK_INTERRUPTIBLE => Some (goto i (Awake TASK_INTERRUPTIBLE) m)
  | Next sig, Failed k => if wait_lock_free m then Some (__mutex_lock_common k sig i m) else None
  | Next sig, Awake k => if wait_lock_free m then Some (lock_turn k sig i m) else None
  | Next _, Got => Some (lock_finish i m)
  | Next _, TryLost => Some (trylock_finish i m)
  | Next _, Releasing => if wait_lock_free m then Some (__mutex_unlock_slowpath i m) else None
  | _, _ => None
  end.

Definition reachable (n : nat) : mutex -> Prop := reach (fun o => step o.1 o.2) (__mutex_init n).

(** ** The invariant *)

Definition own (p : pc) : Z := match p with Got | Holding | Releasing => 1 | _ => 0 end.
Definition rel (p : pc) : Z := match p with Releasing => 1 | _ => 0 end.
Definition lck (p : pc) : Z := match p with Got | TryLost => 1 | _ => 0 end.
Definition slp (p : pc) : Z := match p with Asleep _ => 1 | _ => 0 end.
Definition awk (p : pc) : Z := match p with Awake _ => 1 | _ => 0 end.
Definition fld (p : pc) : Z := match p with Failed _ => 1 | _ => 0 end.

Definition sum (f : pc -> Z) (m : mutex) : Z := zsum f (tasks m).

Definition queued (p : pc) : bool := match p with Asleep _ | Awake _ => true | _ => false end.

Definition queue_ok (l : list nat) (ts : list pc) : Prop :=
  forall i, i ∈ l <-> exists p, ts !! i = Some p /\ queued p = true.

(** The arithmetic part, over the sums: owner and [count], the bounds of [count],
    [wait_lock], and that sleepers are not forgotten. *)
Definition counts_ok (c o r l s a f : Z) : Prop :=
  (c = 1 /\ o = 0 \/ c <= 0 /\ o = 1) /\ -1 - f <= c /\ l <= 1 /\
  (l = 1 -> r = 1 \/ c < 0) /\
  (0 < s -> a = 0 -> o = 1 /\ (r = 1 \/ c < 0)).

Definition inv (n : nat) (m : mutex) : Prop :=
  length (tasks m) = n /\ queue_ok (wait_list m) (tasks m) /\
  counts_ok (count m) (sum own m) (sum rel m) (sum lck m) (sum slp m) (sum awk m) (sum fld m).

Lemma mutex_queue_keep l ts i p p' :
  queue_ok l ts -> ts !! i = Some p -> queued p' = queued p -> queue_ok l (<[i := p']> ts).
Proof.
  intros Hq Hi Hp j. rewrite (Hq j). destruct (decide (i = j)) as [<- |]; [|by rewrite list_lookup_insert_ne].
  rewrite list_lookup_insert_eq by by eapply lookup_lt_Some. rewrite Hi. naive_solver congruence.
Qed.

Lemma mutex_queue_join l ts i p p' :
  queue_ok l ts -> ts !! i = Some p -> queued p' = true -> queue_ok (l ++ [i]) (<[i := p']> ts).
Proof.
  intros Hq Hi Hp j. rewrite elem_of_app, list_elem_of_singleton, (Hq j). destruct (decide (i = j)) as [<- |].
  - rewrite list_lookup_insert_eq by by eapply lookup_lt_Some. naive_solver.
  - rewrite list_lookup_insert_ne by done. naive_solver.
Qed.

Lemma mutex_queue_leave l ts i p p' :
  queue_ok l ts -> ts !! i = Some p -> queued p' = false ->
  queue_ok (filter (fun j => j <> i) l) (<[i := p']> ts).
Proof.
  intros Hq Hi Hp j. rewrite list_elem_of_filter, (Hq j). destruct (decide (i = j)) as [<- |].
  - rewrite list_lookup_insert_eq by by eapply lookup_lt_Some. naive_solver congruence.
  - rewrite list_lookup_insert_ne by done. naive_solver.
Qed.

Lemma filter_join (l : list nat) i : filter (fun j => j <> i) (l ++ [i]) = filter (fun j => j <> i) l.
Proof. rewrite filter_app, filter_cons_False, app_nil_r by naive_solver. done. Qed.

Lemma queue_nil ts : queue_ok [] ts -> zsum slp ts = 0 /\ zsum awk ts = 0.
Proof.
  intros Hq. split; apply zsum_0; intros p [i Hi]%list_elem_of_lookup; destruct p; try done;
    exfalso; apply (not_elem_of_nil i), Hq; eauto.
Qed.

Lemma mutex_sums_range ts : 0 <= zsum rel ts <= zsum own ts /\ 0 <= zsum lck ts /\ 0 <= zsum slp ts /\
  0 <= zsum awk ts /\ 0 <= zsum fld ts <= Z.of_nat (length ts).
Proof.
  split_and!; try (apply zsum_nonneg || apply zsum_le); try (by intros [] _).
  etransitivity; [apply (zsum_le _ (fun _ => 1)); by intros [] _|]. rewrite zsum_const. lia.
Qed.

Lemma wait_lock_free_sum m : wait_lock_free m = true -> sum lck m = 0.
Proof.
  unfold wait_lock_free, sum. intros H%negb_true_iff. apply zsum_0. intros p Hp.
  destruct (has_lock p) eqn:E; [|by destruct p]. apply not_true_iff_false in H. destruct H.
  apply existsb_exists. exists p. split; [by apply list_elem_of_In|done].
Qed.

(** The update of one task, as seen by the sums. *)
Lemma sum_goto f m i p p' : tasks m !! i = Some p -> sum f (goto i p' m) = sum f m - f p + f p'.
Proof. intros Hi. unfold sum. simpl. by apply zsum_insert. Qed.

(** Waking the first waiter leaves somebody awake. *)
Lemma wake_spec n m w l :
  length (tasks m) = n -> queue_ok (wait_list m) (tasks m) -> wait_list m = w :: l ->
  let m' := wake_up_process w m in
  length (tasks m') = n /\ queue_ok (wait_list m') (tasks m') /\ count m' = count m /\
  sum own m' = sum own m /\ sum rel m' = sum rel m /\ sum lck m' = sum lck m /\ sum fld m' = sum fld m /\
  0 < sum awk m'.
Proof.
  intros Hlen Hq Hw. cbn zeta. unfold wake_up_process.
  destruct (proj1 (Hq w)) as (p & Hp & Hqp); [rewrite Hw; left|]. rewrite Hp.
  destruct p; try done.
  - rewrite !(sum_goto _ _ _ _ _ Hp). simpl. rewrite length_insert.
    split_and!; try done; try lia; [by eapply mutex_queue_keep|].
    pose proof (mutex_sums_range (tasks m)). unfold sum. lia.
  - split_and!; try done. pose proof (zsum_elem_le awk (tasks m) w _ ltac:(by intros [] _) Hp). unfold sum. simpl in *. lia.
Qed.

Lemma turn_inv n k sig i m p :
  Z.of_nat n < 2 ^ 30 -> length (tasks m) = n -> queue_ok (filter (fun j => j <> i) (wait_list m)) (<[i := Idle]> (tasks m)) ->
  queue_ok (wait_list m) (<[i := Asleep k]> (tasks m)) ->
  tasks m !! i = Some p -> own p = 0 -> rel p = 0 -> lck p = 0 -> slp p = 0 ->
  counts_ok (count m) (sum own m) (sum rel m) (sum lck m) (sum slp m) (sum awk m) (sum fld m) ->
  sum lck m = 0 ->
  inv n (lock_turn k sig i m).
Proof.
  intros Hn Hlen Hout Hin Hi Ho Hr Hl Hs Hc Hfree. pose proof (mutex_sums_range (tasks m)) as Hb. rewrite Hlen in Hb.
  pose proof (zsum_elem_le fld (tasks m) i _ ltac:(by intros [] _) Hi) as Hf.
  pose proof (zsum_elem_le awk (tasks m) i _ ltac:(by intros [] _) Hi) as Ha.
  assert (Hq : forall p', queued p' = false -> queue_ok (filter (fun j => j <> i) (wait_list m)) (<[i := p']> (tasks m))).
  { intros p' Hp'. assert (Hlt : (i < length (tasks m))%nat) by by eapply lookup_lt_Some.
    rewrite <- (list_insert_insert_eq (tasks m) i p' Idle). apply (mutex_queue_keep _ _ i Idle p'); [exact Hout| |done].
    by apply list_lookup_insert_eq. }
  unfold lock_turn. destruct (Z.eqb_spec (count m) 1) as [Hz|Hz];
    [|destruct (match k with TASK_INTERRUPTIBLE => sig | TASK_UNINTERRUPTIBLE => false end)];
    unfold inv; (split; [simpl; by rewrite length_insert|split; [first [by apply Hq|exact Hin]|]]);
    unfold sum in *; simpl; rewrite !(zsum_insert _ _ _ _ _ Hi); unfold counts_ok in *; simpl; lia.
Qed.

(** The update of one task outside the queue. *)
Lemma goto_inv n m i p p' c :
  inv n m -> tasks m !! i = Some p -> queued p = false -> queued p' = false ->
  let m' := goto i p' (atomic_set c m) in
  counts_ok c (sum own m') (sum rel m') (sum lck m') (sum slp m') (sum awk m') (sum fld m') -> inv n m'.
Proof.
  intros (Hlen & Hq & _) Hi Hp Hp' m' Hc. split_and!; [simpl; by rewrite length_insert| |done].
  simpl. eapply mutex_queue_keep; [done|done|congruence].
Qed.

Lemma clear_if_alone_spec n m :
  inv n m -> clear_if_alone m = atomic_set (if list_empty m then 0 else count m) m /\
  (list_empty m = true -> sum slp m = 0 /\ sum awk m = 0).
Proof.
  intros (_ & Hq & _). unfold clear_if_alone. split; [destruct (list_empty m), m; done|].
  unfold list_empty. destruct (wait_list m); [intros _; by apply queue_nil|done].
Qed.

Lemma unlock_slow_inv n m i :
  inv n m -> tasks m !! i = Some Releasing -> sum lck m = 0 -> inv n (__mutex_unlock_slowpath i m).
Proof.
  intros (Hlen & Hq & Hc) Hi Hfree. pose proof (mutex_sums_range (tasks m)) as Hb.
  pose proof (zsum_elem_le rel (tasks m) i _ ltac:(by intros [] _) Hi) as Hr. simpl in Hr.
  unfold __mutex_unlock_slowpath. set (m1 := goto i Idle (atomic_set 1 m)).
  assert (Hlen1 : length (tasks m1) = n) by (simpl; by rewrite length_insert).
  assert (Hq1 : queue_ok (wait_list m1) (tasks m1)) by (simpl; by eapply mutex_queue_keep).
  assert (Hs : forall f, sum f m1 = sum f m - f Releasing + f Idle) by (intros f; by apply (sum_goto f (atomic_set 1 m))).
  destruct (wait_list m1) as [|w l] eqn:Hw.
  - split_and!; [done|by rewrite Hw|]. rewrite !Hs. apply queue_nil in Hq1 as [Hz1 Hz2].
    pose proof (Hs slp) as Hs1. pose proof (Hs awk) as Hs2. unfold sum, counts_ok in *. simpl in *. lia.
  - rewrite <- Hw in Hq1. destruct (wake_spec n m1 w l Hlen1 Hq1 Hw) as (H1 & H2 & H3 & H4 & H5 & H6 & H7 & H8).
    split_and!; [done|done|]. rewrite H3, H4, H5, H6, H7, !Hs. unfold sum, counts_ok in *. simpl in *. lia.
Qed.

Lemma mutex_step_inv n i a m m' : Z.of_nat n < 2 ^ 30 -> inv n m -> step i a m = Some m' -> inv n m'.
Proof.
  intros Hn Hinv Hs. pose proof Hinv as (Hlen & Hq & Hc).
  unfold step in Hs. destruct (tasks m !! i) as [p|] eqn:Hi; simpl in Hs; [|done].
  pose proof (mutex_sums_range (tasks m)) as Hb. rewrite Hlen in Hb.
  pose proof (zsum_elem_le own (tasks m) i _ ltac:(by intros [] _) Hi) as Ho.
  pose proof (zsum_elem_le rel (tasks m) i _ ltac:(by intros [] _) Hi) as Hr.
  pose proof (zsum_elem_le lck (tasks m) i _ ltac:(by intros [] _) Hi) as Hl.
  pose proof (zsum_elem_le (fun p => own p + - rel p) (tasks m) i _ ltac:(by intros [] _) Hi) as Hor.
  rewrite zsum_add, zsum_opp in Hor.
  assert (Hsum : forall f c p', sum f (goto i p' (atomic_set c m)) = sum f m - f p + f p')
    by (intros f c p'; by apply (sum_goto f (atomic_set c m))).
  assert (Hcr : -1 - Z.of_nat n <= count m <= 1) by (unfold counts_ok, sum in Hc; lia).
  destruct a as [k| | | | |sig], p as [|k'|k'|k'| | | |]; try done.
  - simplify_eq. unfold mutex_lock. simpl. rewrite s32_small by lia.
    eapply goto_inv; [done|done|done|by case_match|]. rewrite !Hsum. unfold sum, counts_ok in *.
    case_match; zify_bool; simpl; lia.
  - simplify_eq. unfold mutex_trylock. destruct (Z.eqb_spec (count m) 1); [|done].
    eapply goto_inv; [done|done|done|done|]. rewrite !Hsum. unfold sum, counts_ok in *. simpl. lia.
  - destruct (wait_lock_free m) eqn:Hf; [|done]. simplify_eq. apply wait_lock_free_sum in Hf.
    unfold __mutex_trylock_slowpath. eapply goto_inv; [done|done|done|by case_match|]. rewrite !Hsum.
    unfold sum, counts_ok in *. case_match; zify_bool; simpl; lia.
  - simplify_eq. unfold mutex_unlock. simpl. rewrite s32_small by lia.
    eapply goto_inv; [done|done|done|by case_match|]. rewrite !Hsum. unfold sum, counts_ok in *.
    case_match; zify_bool; simpl in *; lia.
  - destruct k'; simplify_eq. unfold inv. rewrite !(sum_goto _ _ _ _ _ Hi). simpl. rewrite length_insert.
    split_and!; [done|by eapply mutex_queue_keep|]. unfold sum, counts_ok in *. lia.
  - destruct (wait_lock_free m) eqn:Hf; [|done]. simplify_eq. apply wait_lock_free_sum in Hf.
    eapply (turn_inv _ _ _ _ _ (Failed k')); try done; simpl.
    + rewrite filter_join. by eapply mutex_queue_leave.
    + by eapply mutex_queue_join.
  - destruct (wait_lock_free m) eqn:Hf; [|done]. simplify_eq. apply wait_lock_free_sum in Hf.
    eapply (turn_inv _ _ _ _ _ (Awake k')); try done; [by eapply mutex_queue_leave|by eapply mutex_queue_keep].
  - destruct (clear_if_alone_spec n m Hinv) as [Hcl Hempty].
    simplify_eq. unfold lock_finish. rewrite Hcl. eapply goto_inv; [done|done|done|done|]. rewrite !Hsum.
    unfold sum, counts_ok in *. destruct (list_empty m); simpl in *; lia.
  - destruct (clear_if_alone_spec n m Hinv) as [Hcl Hempty].
    simplify_eq. unfold trylock_finish. rewrite Hcl. eapply goto_inv; [done|done|done|done|]. rewrite !Hsum.
    unfold sum, counts_ok in *. destruct (list_empty m); simpl in *; lia.
  - destruct (wait_lock_free m) eqn:Hf; [|done]. simplify_eq. apply wait_lock_free_sum in Hf. by apply unlock_slow_inv.
Qed.

Lemma mutex_reachable_inv n m : Z.of_nat n < 2 ^ 30 -> reachable n m -> inv n m.
Proof.
  intros Hn. apply reach_invariant; [|intros [i a] m1 m2 ? ?; by eapply mutex_step_inv].
  assert (Hz : forall f : pc -> Z, f Idle = 0 -> zsum f (replicate n Idle) = 0)
    by (intros f Hf; apply zsum_0; by intros x [-> _]%elem_of_replicate).
  unfold inv, sum. simpl. rewrite length_replicate, !Hz by done. split_and!; [done| |unfold counts_ok; lia].
  intros i. split; [by intros ?%not_elem_of_nil|]. by intros (p & [-> _]%lookup_replicate & Hp).
Qed.

(** C12: mutexes exclude and lose no wake-up.  In every interleaving of the fast
    paths, the slow paths (split where they touch [count] twice), trylocks in both
    variants, unlocks and signals, at most one task owns the mutex, [count] is 1
    exactly when it is free and stays within [int]; and when tasks sleep on the
    queue with none of them woken, the owner's unlock is bound to take the slow path
    and wake one: [count] is negative, or the owner is already on its way there. *)
Theorem mutex_correct n m :
  Z.of_nat n < 2 ^ 30 -> reachable n m ->
  sum own m <= 1 /\ (count m = 1 <-> sum own m = 0) /\ - 2 ^ 30 - 1 < count m <= 1 /\
  (0 < sum slp m -> sum awk m = 0 -> sum own m = 1 /\ (sum rel m = 1 \/ count m < 0)).
Proof.
  intros Hn Hr. apply mutex_reachable_inv in Hr as (Hlen & _ & Hc); [|done].
  pose proof (mutex_sums_range (tasks m)) as Hb. unfold counts_ok, sum in *. lia.
Qed.

(** Task 0 owns, task 1 queues up, task 2's trylock fails, 0 unlocks and wakes 1. *)
Definition scenario : list (nat * action) :=
  [(0%nat, Lock TASK_UNINTERRUPTIBLE); (1%nat, Lock TASK_INTERRUPTIBLE); (1%nat, Next false);
   (2%nat, TrylockSlow); (0%nat, Unlock); (2%nat, Next false); (0%nat, Next false)].

Lemma mutex_correct_witness : exists m, run (fun o => step o.1 o.2) scenario (__mutex_init 3) = Some m /\
  sum own m <= 1 /\ tasks m = [Idle; Awake TASK_INTERRUPTIBLE; Idle].
Proof.
  eexists. split; [vm_compute; reflexivity|]. split; [|reflexivity].
  refine (proj1 (mutex_correct 3 _ _ _)); [lia|]. apply (run_from _ scenario). vm_compute. reflexivity.
Defined.
