(* ===== verification/StampList.v ===== *)
(** * The sorted linked list of STAMP ([src/sws/benchmarks/stamp/lib/list.c])

    A list is a sentinel node embedded in [list_t] followed by heap nodes in
    ascending order of the comparison function.  The nodes live in a heap, a finite map
    from addresses; a dereference of an address that is not in it has no result.  The
    three families of operations ([list_*], [Plist_*] with thread-local allocation and
    [TMlist_*] inside a transaction) have the same body and differ in the macros that
    read, write and allocate: one definition stands for each body, and the variants are
    defined from it.

    The second half gives the list its contract: [repr] relates a heap to the sequence of
    the elements, and every operation refines a function on sorted sequences ([lfind],
    [linsert], [lremove]), which is what the clients of the list reason about. *)

From S2P Require Import Prelude.

(** ** Sorted sequences: the abstract list *)

Section spec.
Context {A : Type} (compare : A -> A -> Z).

(** The elements before the position of [x], and those from it on. *)
Fixpoint lsplit (x : A) (l : list A) : list A * list A :=
  match l with
  | [] => ([], [])
  | y :: l' => if compare y x >=? 0 then ([], l) else (y :: (lsplit x l').1, (lsplit x l').2)
  end.

Definition lfind (x : A) (l : list A) : option A :=
  match (lsplit x l).2 with
  | y :: _ => if compare y x =? 0 then Some y else None
  | [] => None
  end.

(** Insertion; [no_dup] is the macro [LIST_NO_DUPLICATES]. *)
Definition linsert (no_dup : bool) (x : A) (l : list A) : option (list A) :=
  if no_dup && bool_decide (is_Some (lfind x l)) then None
  else Some ((lsplit x l).1 ++ x :: (lsplit x l).2).

Definition lremove (x : A) (l : list A) : option (list A) :=
  match (lsplit x l).2 with
  | y :: post => if compare y x =? 0 then Some ((lsplit x l).1 ++ post) else None
  | [] => None
  end.

Definition cle (x y : A) : Prop := compare x y <= 0.
Definition clt (x y : A) : Prop := compare x y < 0.

Lemma lsplit_app x l : (lsplit x l).1 ++ (lsplit x l).2 = l.
Proof. induction l as [|y l IH]; simpl; [done|]. destruct (_ >=? 0); csimpl; [done|]. by rewrite IH. Qed.

Lemma lsplit_pre x l : Forall (fun y => clt y x) (lsplit x l).1.
Proof.
  induction l as [|y l IH]; simpl; [done|].
  destruct (compare y x >=? 0) eqn:E; csimpl; [done|]. constructor; [|done]. unfold clt. lia.
Qed.

Lemma lsplit_post x l y post : (lsplit x l).2 = y :: post -> compare y x >= 0.
Proof.
  induction l as [|z l IH]; simpl; [done|].
  destruct (compare z x >=? 0) eqn:E; csimpl; [|done]. intros [= -> ->]. lia.
Qed.

(** What the comparison functions promise: the sign is a total preorder. *)
Class Comparison : Prop := {
  compare_refl x : compare x x = 0;
  compare_flip x y : compare x y < 0 <-> 0 < compare y x;
  compare_trans x y z : compare x y <= 0 -> compare y z <= 0 -> compare x z <= 0;
}.
Context {Hcmp : Comparison}.

Lemma compare_eq_flip x y : compare x y = 0 -> compare y x = 0.
Proof. pose proof (compare_flip x y). pose proof (compare_flip y x). lia. Qed.

Lemma compare_lt_le_trans x y z : compare x y < 0 -> compare y z <= 0 -> compare x z < 0.
Proof.
  intros H1 H2. destruct (Z.lt_ge_cases (compare x z) 0); [done|].
  assert (compare z x <= 0) by (pose proof (compare_flip z x); pose proof (compare_flip x z); lia).
  assert (compare y x <= 0) by by eapply compare_trans.
  apply compare_flip in H1. lia.
Qed.

Lemma compare_le_lt_trans x y z : compare x y <= 0 -> compare y z < 0 -> compare x z < 0.
Proof.
  intros H1 H2. destruct (Z.lt_ge_cases (compare x z) 0); [done|].
  assert (compare z x <= 0) by (pose proof (compare_flip z x); pose proof (compare_flip x z); lia).
  assert (compare z y <= 0) by by eapply compare_trans.
  apply compare_flip in H2. lia.
Qed.

#[global] Instance cle_trans : Transitive cle.
Proof. intros x y z. apply compare_trans. Qed.

(** In a sorted list the whole suffix is at or above the position. *)
Lemma lsplit_suffix x l : StronglySorted cle l -> Forall (fun y => 0 <= compare y x) (lsplit x l).2.
Proof.
  induction 1 as [|y l Hs IH Hy]; simpl; [done|].
  destruct (compare y x >=? 0) eqn:E; csimpl; [|done].
  constructor; [lia|]. eapply Forall_impl; [exact Hy|]. intros z Hz. unfold cle in Hz.
  destruct (Z.lt_ge_cases (compare z x) 0); [|lia].
  pose proof (compare_le_lt_trans y z x). lia.
Qed.

Lemma lfind_Some x l y : lfind x l = Some y -> y ∈ l /\ compare y x = 0.
Proof.
  unfold lfind. destruct (lsplit x l).2 as [|z post] eqn:E; [done|].
  destruct (Z.eqb_spec (compare z x) 0); intros [= <-]. split; [|done].
  rewrite <- (lsplit_app x l), E. set_solver.
Qed.

(** [lfind] is complete: it finds an equal element whenever there is one. *)
Lemma lfind_None x l : StronglySorted cle l -> lfind x l = None -> forall y, y ∈ l -> compare y x <> 0.
Proof.
  intros Hs H y Hy. rewrite <- (lsplit_app x l), elem_of_app in Hy. destruct Hy as [Hy|Hy].
  - pose proof (proj1 (Forall_forall _ _) (lsplit_pre x l) y Hy) as Hlt. unfold clt in Hlt. lia.
  - pose proof (lsplit_suffix x l Hs) as Hsuf. revert H Hsuf. unfold lfind.
    destruct (lsplit x l).2 as [|z post] eqn:E; [by apply elem_of_nil in Hy|].
    destruct (Z.eqb_spec (compare z x) 0) as [|Hne]; [done|]. intros _ Hsuf.
    rewrite Forall_cons in Hsuf. destruct Hsuf as [Hz _].
    assert (Hsz : StronglySorted cle (z :: post)).
    { rewrite <- (lsplit_app x l), E in Hs. by apply StronglySorted_app_1_r in Hs. }
    apply StronglySorted_inv in Hsz as [_ Hp].
    apply elem_of_cons in Hy as [-> |Hy]; [done|].
    pose proof (proj1 (Forall_forall _ _) Hp y Hy) as Hzy. unfold cle in Hzy.
    intros Heq. apply compare_eq_flip in Heq.
    assert (compare x z < 0) by (apply compare_flip; lia).
    pose proof (compare_lt_le_trans x z y). lia.
Qed.

Lemma linsert_sorted nd x l l' :
  StronglySorted cle l -> linsert nd x l = Some l' -> StronglySorted cle l'.
Proof.
  unfold linsert. intros Hs. destruct (_ && _); intros [= <-].
  pose proof (lsplit_suffix x l Hs) as Hsuf. pose proof (lsplit_pre x l) as Hpre.
  rewrite <- (lsplit_app x l) in Hs.
  apply StronglySorted_app in Hs as (Hc & H1 & H2).
  apply StronglySorted_app. split_and!.
  - intros a b Ha Hb. pose proof (proj1 (Forall_forall _ _) Hpre a Ha) as Hax. unfold clt in Hax.
    apply elem_of_cons in Hb as [-> |Hb]; [unfold cle; lia|by apply Hc].
  - done.
  - constructor; [done|]. eapply Forall_impl; [exact Hsuf|]. intros b Hb.
    unfold cle. pose proof (compare_flip b x). pose proof (compare_flip x b). simpl in Hb. lia.
Qed.

Lemma linsert_perm nd x l l' : linsert nd x l = Some l' -> l' ≡ₚ x :: l.
Proof.
  unfold linsert. destruct (_ && _); intros [= <-].
  rewrite <- (lsplit_app x l) at 3. by rewrite Permutation_middle.
Qed.

Lemma lremove_Some x l l' :
  lremove x l = Some l' -> exists y, lfind x l = Some y /\ l ≡ₚ y :: l'.
Proof.
  unfold lremove, lfind. destruct (lsplit x l).2 as [|z post] eqn:E; [done|].
  destruct (Z.eqb_spec (compare z x) 0) as [|Hne]; intros [= <-]. exists z. split; [done|].
  rewrite <- (lsplit_app x l) at 1. rewrite E. by rewrite Permutation_middle.
Qed.

Lemma lremove_None x l : lremove x l = None <-> lfind x l = None.
Proof. unfold lremove, lfind. destruct (lsplit x l).2 as [|z post]; [done|]. by destruct (_ =? 0). Qed.

Lemma lremove_sorted x l l' :
  StronglySorted cle l -> lremove x l = Some l' -> StronglySorted cle l'.
Proof.
  unfold lremove. intros Hs. destruct (lsplit x l).2 as [|z post] eqn:E; [done|].
  destruct (_ =? 0); intros [= <-]. rewrite <- (lsplit_app x l), E in Hs.
  apply StronglySorted_app in Hs as (Hc & H1 & H2). apply StronglySorted_app. split_and!; [|done|].
  - intros a b Ha Hb. apply Hc; [done|by right].
  - by apply StronglySorted_inv in H2 as [? _].
Qed.
End spec.

(** ** The code: nodes in a heap *)

Definition NULL : Z := 0.

Record list_node_t (A : Type) := ListNode { dataPtr : option A; nextPtr : Z }.
Arguments ListNode {A} _ _.
Arguments dataPtr {A} _.
Arguments nextPtr {A} _.

(** The heap of the nodes; [list_size] is the [size] field of the one [list_t] at hand.  Its
    [head] node is in the heap, at the address of the [list_t]. *)
Record list_heap (A : Type) := ListHeap { nodes : gmap Z (list_node_t A); list_size : Z }.
Arguments ListHeap {A} _ _.
Arguments nodes {A} _.
Arguments list_size {A} _.

Section code.
Context {A : Type} (compare : A -> A -> Z) (no_dup : bool).
Notation heap := (gmap Z (list_node_t A)).

Definition allocNode (a : Z) (d : A) (h : heap) : heap := <[a := ListNode (Some d) NULL]> h.

(** [freeNode]: the node is gone; freeing an address that is not allocated has no result. *)
Definition freeNode (a : Z) (h : heap) : option heap :=
  match h !! a with Some _ => Some (delete a h) | None => None end.

Definition list_alloc (listPtr : Z) (h : heap) : list_heap A :=
  ListHeap (<[listPtr := ListNode None NULL]> h) 0.

(** [freeList]: recursion to the end of the list, nodes freed on the way back. *)
Fixpoint freeList (fuel : nat) (nodePtr : Z) (h : heap) : option heap :=
  if nodePtr =? NULL then Some h
  else match fuel with
  | O => None
  | S fuel =>
    n ← h !! nodePtr;
    h ← freeList fuel (nextPtr n) h;
    freeNode nodePtr h
  end.

Definition list_free (listPtr : Z) (s : list_heap A) : option heap :=
  n ← nodes s !! listPtr;
  h ← freeList (size (nodes s)) (nextPtr n) (nodes s);
  freeNode listPtr h.

Definition list_isEmpty (listPtr : Z) (s : list_heap A) : option bool :=
  n ← nodes s !! listPtr; Some (nextPtr n =? NULL).

Definition list_getSize (s : list_heap A) : Z := list_size s.

(** The loop of [findPrevious], from a node and the node before it. *)
Fixpoint findPrevious_loop (fuel : nat) (x : A) (prevPtr nodePtr : Z) (h : heap) : option Z :=
  if nodePtr =? NULL then Some prevPtr
  else match fuel with
  | O => None
  | S fuel =>
    n ← h !! nodePtr;
    d ← dataPtr n;
    if compare d x >=? 0 then Some prevPtr
    else findPrevious_loop fuel x nodePtr (nextPtr n) h
  end.

Definition findPrevious (listPtr : Z) (x : A) (h : heap) : option Z :=
  n ← h !! listPtr; findPrevious_loop (size h) x listPtr (nextPtr n) h.

(** The result of [list_find] is the data of the node, or NULL. *)
Definition list_find (listPtr : Z) (x : A) (s : list_heap A) : option (option A) :=
  prevPtr ← findPrevious listPtr x (nodes s);
  prev ← nodes s !! prevPtr;
  if nextPtr prev =? NULL then Some None
  else
    n ← nodes s !! nextPtr prev;
    d ← dataPtr n;
    Some (if compare d x =? 0 then Some d else None).

(** [list_insert]; [fresh] is the address [malloc] returns, NULL on failure. *)
Definition list_insert (fresh : Z) (listPtr : Z) (x : A) (s : list_heap A)
  : option (bool * list_heap A) :=
  prevPtr ← findPrevious listPtr x (nodes s);
  prev ← nodes s !! prevPtr;
  let currPtr := nextPtr prev in
  dup ← (if no_dup && negb (currPtr =? NULL)
         then c ← nodes s !! currPtr; d ← dataPtr c; Some (compare d x =? 0)
         else Some false);
  if (dup : bool) then Some (false, s)
  else if fresh =? NULL then Some (false, s)
  else
    let h := allocNode fresh x (nodes s) in
    let h := <[fresh := ListNode (Some x) currPtr]> h in
    prev ← h !! prevPtr;
    let h := <[prevPtr := ListNode (dataPtr prev) fresh]> h in
    Some (true, ListHeap h (list_size s + 1)).

(** [list_remove]; the [assert] on the size stops the program. *)
Definition list_remove (listPtr : Z) (x : A) (s : list_heap A) : option (bool * list_heap A) :=
  prevPtr ← findPrevious listPtr x (nodes s);
  prev ← nodes s !! prevPtr;
  let nodePtr := nextPtr prev in
  if nodePtr =? NULL then Some (false, s)
  else
    n ← nodes s !! nodePtr;
    d ← dataPtr n;
    if compare d x =? 0 then
      let h := <[prevPtr := ListNode (dataPtr prev) (nextPtr n)]> (nodes s) in
      let h := <[nodePtr := ListNode (dataPtr n) NULL]> h in
      h ← freeNode nodePtr h;
      let sz := list_size s - 1 in
      if sz >=? 0 then Some (true, ListHeap h sz) else None
    else Some (false, s).

Definition list_clear (listPtr : Z) (s : list_heap A) : option (list_heap A) :=
  n ← nodes s !! listPtr;
  h ← freeList (size (nodes s)) (nextPtr n) (nodes s);
  n ← h !! listPtr;
  Some (ListHeap (<[listPtr := ListNode (dataPtr n) NULL]> h) 0).

(** Iterators: the address of the current node, the sentinel at first. *)
Definition list_iter_reset (listPtr : Z) : Z := listPtr.

Definition list_iter_hasNext (it : Z) (s : list_heap A) : option bool :=
  n ← nodes s !! it; Some (negb (nextPtr n =? NULL)).

Definition list_iter_next (it : Z) (s : list_heap A) : option (Z * option A) :=
  n ← nodes s !! it; m ← nodes s !! nextPtr n; Some (nextPtr n, dataPtr m).

(** [while (list_iter_hasNext(&it, l)) x = list_iter_next(&it, l)]: the elements in the order
    a client's loop meets them. *)
Fixpoint list_iterate (fuel : nat) (it : Z) (s : list_heap A) : option (list A) :=
  more ← list_iter_hasNext it s;
  if (more : bool) then
    match fuel with
    | O => None
    | S fuel =>
      '(it, d) ← list_iter_next it s;
      d ← d;
      l ← list_iterate fuel it s;
      Some (d :: l)
    end
  else Some [].
End code.

(** The variants: thread-local and transactional. *)
Definition PallocNode {A} := @allocNode A.
Definition TMallocNode {A} := @allocNode A.
Definition PfreeNode {A} := @freeNode A.
Definition TMfreeNode {A} := @freeNode A.
Definition Plist_alloc {A} := @list_alloc A.
Definition TMlist_alloc {A} := @list_alloc A.
Definition PfreeList {A} := @freeList A.
Definition TMfreeList {A} := @freeList A.
Definition Plist_free {A} := @list_free A.
Definition TMlist_free {A} := @list_free A.
Definition TMlist_isEmpty {A} := @list_isEmpty A.
Definition TMlist_getSize {A} := @list_getSize A.
Definition TMfindPrevious {A} := @findPrevious A.
Definition TMlist_find {A} := @list_find A.
Definition Plist_insert {A} := @list_insert A.
Definition TMlist_insert {A} := @list_insert A.
Definition Plist_remove {A} := @list_remove A.
Definition TMlist_remove {A} := @list_remove A.
Definition Plist_clear {A} := @list_clear A.
Definition TMlist_iter_reset := list_iter_reset.
Definition TMlist_iter_hasNext {A} := @list_iter_hasNext A.
Definition TMlist_iter_next {A} := @list_iter_next A.

(** [compareDataPtrAddresses], the comparison used when none is given ([long] is 32 bits). *)
Definition compareDataPtrAddresses (a b : Z) : Z := s32 (s32 a - s32 b).

(** ** Representation *)

Section refinement.
Context {A : Type} (compare : A -> A -> Z) (no_dup : bool).
Notation heap := (gmap Z (list_node_t A)).
Implicit Types (h : heap) (s : list_heap A).

Definition hd_loc (ns : list (Z * option A)) (e : Z) : Z :=
  match ns with [] => e | (a, _) :: _ => a end.

(** The nodes [ns] are linked in [h] in this order, and the last one points to [e]. *)
Fixpoint chain h (ns : list (Z * option A)) (e : Z) : Prop :=
  match ns with
  | [] => True
  | (a, d) :: ns => a <> NULL /\ h !! a = Some (ListNode d (hd_loc ns e)) /\ chain h ns e
  end.

(** Element nodes carry data. *)
Definition lift (ns : list (Z * A)) : list (Z * option A) := (fun p => (p.1, Some p.2)) <$> ns.

Definition full (listPtr : Z) (ns : list (Z * A)) : list (Z * option A) :=
  (listPtr, None) :: lift ns.

Definition repr_nodes (listPtr : Z) s (ns : list (Z * A)) : Prop :=
  NoDup (full listPtr ns).*1 /\ chain (nodes s) (full listPtr ns) NULL
  /\ list_size s = Z.of_nat (length ns).

Definition repr (listPtr : Z) s (l : list A) : Prop :=
  exists ns, ns.*2 = l /\ repr_nodes listPtr s ns.

Lemma lift_locs ns : (lift ns).*1 = ns.*1.
Proof. induction ns as [|[a d] ns IH]; csimpl; [done|]. by f_equal. Qed.

Lemma lift_app ns1 ns2 : lift (ns1 ++ ns2) = lift ns1 ++ lift ns2.
Proof. apply fmap_app. Qed.

Lemma hd_loc_app ns1 ns2 e : hd_loc (ns1 ++ ns2) e = hd_loc ns1 (hd_loc ns2 e).
Proof. by destruct ns1 as [|[??]?]. Qed.

Lemma chain_app h ns1 ns2 e :
  chain h (ns1 ++ ns2) e <-> chain h ns1 (hd_loc ns2 e) /\ chain h ns2 e.
Proof.
  induction ns1 as [|[a d] ns1 IH]; simpl; [tauto|]. rewrite IH, hd_loc_app. tauto.
Qed.

Lemma chain_frame h h' ns e :
  (forall a, a ∈ ns.*1 -> h' !! a = h !! a) -> chain h ns e -> chain h' ns e.
Proof.
  induction ns as [|[a d] ns IH]; csimpl; [done|]. intros Hf (Ha & Hh & Hc).
  split_and!; [done| |].
  - by rewrite Hf by set_solver.
  - apply IH; [|done]. intros b Hb. apply Hf. set_solver.
Qed.

(** Redirecting the last node of a chain. *)
Lemma chain_retarget h ini a d e e' :
  NoDup (ini ++ [(a, d)]).*1 -> chain h (ini ++ [(a, d)]) e ->
  chain (<[a := ListNode d e']> h) (ini ++ [(a, d)]) e'.
Proof.
  rewrite fmap_app, NoDup_app. intros (_ & Hd & _). rewrite !chain_app. simpl.
  intros (Hi & Ha & _). split; [|by rewrite lookup_insert_eq].
  eapply chain_frame; [|exact Hi]. intros b Hb. apply lookup_insert_ne.
  intros <-. apply (Hd a Hb). set_solver.
Qed.

Lemma chain_dom h ns e : chain h ns e -> forall a, a ∈ ns.*1 -> a ∈ dom h.
Proof.
  induction ns as [|[a d] ns IH]; csimpl; [set_solver|]. intros (_ & Hh & Hc) b.
  rewrite elem_of_cons. intros [-> |Hb]; [by eapply elem_of_dom_2|by eapply IH].
Qed.

(** The heap bounds the length of a list, so its size is fuel enough for every loop. *)
Lemma chain_length h ns e : NoDup ns.*1 -> chain h ns e -> (length ns <= size h)%nat.
Proof.
  intros Hnd Hc. rewrite <- size_dom, <- (length_fmap fst ns), <- (size_list_to_set (C := gset Z)) by done.
  apply subseteq_size. intros a Ha%elem_of_list_to_set. by eapply chain_dom.
Qed.

Lemma hd_loc_null h ns e : chain h ns e -> (hd_loc ns NULL =? NULL) = bool_decide (ns = []).
Proof.
  destruct ns as [|[a d] ns]; simpl; [done|]. intros [Ha _]. by apply Z.eqb_neq.
Qed.

(** [findPrevious] stops at the last node below [x]. *)
Lemma findPrevious_loop_spec h x ns : forall fuel p dp,
  chain h ((p, dp) :: lift ns) NULL -> (length ns <= fuel)%nat ->
  exists pre post ini a d,
    ns = pre ++ post /\ lsplit compare x ns.*2 = (pre.*2, post.*2)
    /\ (p, dp) :: lift pre = ini ++ [(a, d)]
    /\ findPrevious_loop compare fuel x p (hd_loc (lift ns) NULL) h = Some a.
Proof.
  induction ns as [|[b v] ns IH]; intros fuel p dp Hc Hf.
  - exists [], [], [], p, dp. split_and!; try done. destruct fuel; done.
  - pose proof Hc as (_ & _ & Hb & Hhb & _). cbn [fst snd] in Hb, Hhb.
    destruct fuel as [|fuel]; [simpl in Hf; lia|]. cbn [findPrevious_loop lift fmap list_fmap hd_loc fst snd].
    rewrite (proj2 (Z.eqb_neq b NULL) Hb), Hhb. cbn [mbind option_bind dataPtr nextPtr].
    csimpl. destruct (compare v x >=? 0) eqn:E.
    + exists [], ((b, v) :: ns), [], p, dp. done.
    + destruct (IH fuel b (Some v)) as (pre & post & ini & a & d & -> & Hs & Hi & Hl).
      * apply Hc.
      * simpl in Hf. lia.
      * exists ((b, v) :: pre), post, ((p, dp) :: ini), a, d. 
        rewrite Hs. split_and!; [done|done| |done]. csimpl. by rewrite <- Hi.
Qed.

(** The state of a list around the position of [x]: the node [a] before it, and the rest. *)
Lemma findPrevious_spec listPtr x s ns :
  repr_nodes listPtr s ns ->
  exists pre post ini a d,
    ns = pre ++ post /\ lsplit compare x ns.*2 = (pre.*2, post.*2)
    /\ full listPtr pre = ini ++ [(a, d)]
    /\ findPrevious compare listPtr x (nodes s) = Some a
    /\ nodes s !! a = Some (ListNode d (hd_loc (lift post) NULL))
    /\ chain (nodes s) (ini ++ [(a, d)]) (hd_loc (lift post) NULL)
    /\ chain (nodes s) (lift post) NULL.
Proof.
  intros (Hnd & Hc & _). pose proof (chain_length _ _ _ Hnd Hc) as Hl.
  destruct (findPrevious_loop_spec (nodes s) x ns (size (nodes s)) listPtr None) as
    (pre & post & ini & a & d & -> & Hs & Hi & Hf); [done| |].
  { unfold full, lift in Hl. simpl in Hl. rewrite length_fmap in Hl. lia. }
  exists pre, post, ini, a, d. unfold full in *. rewrite lift_app in Hc, Hf.
  pose proof Hc as (Hn & Hhd & _). unfold findPrevious. rewrite Hhd. cbn [mbind option_bind nextPtr].
  rewrite app_comm_cons, chain_app, Hi in Hc. destruct Hc as [Hc1 Hc2].
  split_and!; try done. apply chain_app in Hc1 as [_ Hc1]. apply Hc1.
Qed.

Lemma list_find_spec listPtr x s l :
  repr listPtr s l -> list_find compare listPtr x s = Some (lfind compare x l).
Proof.
  intros (ns & <- & Hr). destruct (findPrevious_spec _ x _ _ Hr) as
    (pre & post & ini & a & d & -> & Hs & Hi & Hf & Ha & Hc1 & Hc2).
  unfold list_find, lfind. rewrite Hf, Hs. cbn [mbind option_bind snd]. rewrite Ha. cbn [mbind option_bind nextPtr].
  destruct post as [|[b v] post]; [done|]. destruct Hc2 as (Hb & Hhb & _). simpl in Hb, Hhb |- *.
  rewrite (proj2 (Z.eqb_neq b NULL) Hb), Hhb. done.
Qed.

(** Outside the nodes of the list nothing changes. *)
Definition list_frame (own : list Z) s s' : Prop :=
  forall c, c ∉ own -> nodes s' !! c = nodes s !! c.

Lemma full_locs listPtr ns : (full listPtr ns).*1 = listPtr :: ns.*1.
Proof. unfold full. csimpl. by rewrite lift_locs. Qed.

(** The node before the position is the sentinel or one of the elements before it. *)
Lemma prev_own listPtr pre ini (a : Z) (d : option A) :
  full listPtr pre = ini ++ [(a, d)] -> a ∈ listPtr :: pre.*1.
Proof.
  intros H. rewrite <- full_locs, H, fmap_app. set_solver.
Qed.

Lemma list_insert_spec fresh listPtr x s ns :
  repr_nodes listPtr s ns -> fresh <> NULL -> fresh ∉ dom (nodes s) ->
  match linsert compare no_dup x ns.*2 with
  | None => list_insert compare no_dup fresh listPtr x s = Some (false, s)
  | Some l' => exists s' ns',
      list_insert compare no_dup fresh listPtr x s = Some (true, s')
      /\ ns'.*2 = l' /\ repr_nodes listPtr s' ns'
      /\ list_frame (fresh :: listPtr :: ns.*1) s s'
  end.
Proof.
  intros Hr Hf0 Hfr. destruct (findPrevious_spec _ x _ _ Hr) as
    (pre & post & ini & a & d & -> & Hs & Hi & Hf & Ha & Hc1 & Hc2).
  destruct Hr as (Hnd & Hc & Hsz).
  assert (Hfd : fresh ∉ (full listPtr (pre ++ post)).*1).
  { intros Hin. exact (Hfr (chain_dom _ _ _ Hc _ Hin)). }
  unfold linsert, list_insert, lfind. rewrite Hf, Hs. cbn [mbind option_bind fst snd]. rewrite Ha.
  cbn [mbind option_bind nextPtr]. rewrite (proj2 (Z.eqb_neq fresh NULL) Hf0).
  set (curr := hd_loc (lift post) NULL) in *.
  set (dup := no_dup && bool_decide (is_Some (match post.*2 with
    | y :: _ => if compare y x =? 0 then Some y else None | [] => None end))).
  assert ((if no_dup && negb (curr =? NULL)
           then c ← nodes s !! curr; d ← dataPtr c; Some (compare d x =? 0) else Some false)
          = Some dup) as ->.
  { subst dup curr. destruct no_dup; [|done]. destruct post as [|[b v] post]; [done|].
    destruct Hc2 as (Hb & Hhb & _). simpl in Hb, Hhb |- *.
    rewrite (proj2 (Z.eqb_neq b NULL) Hb), Hhb. simpl. f_equal. by destruct (compare v x =? 0). }
  cbn [mbind option_bind]. destruct dup; [done|].
  assert (Haf : a <> fresh).
  { intros ->. apply Hfr. by eapply elem_of_dom_2. }
  unfold allocNode. rewrite insert_insert_eq, lookup_insert_ne, Ha by done. cbn [mbind option_bind dataPtr].
  eexists _, (pre ++ (fresh, x) :: post). split_and!; [done|by rewrite fmap_app|split_and!|].
  - rewrite !full_locs, !fmap_app in *. csimpl.
    rewrite <- Permutation_middle, Permutation_swap. constructor; [|done]. set_solver.
  - rewrite full_locs in Hfd. unfold full in *. rewrite lift_app, app_comm_cons, Hi. apply chain_app.
    cbn [nodes]. cbn [lift fmap list_fmap fst snd hd_loc]. split.
    + eapply chain_retarget; [|eapply chain_frame; [|exact Hc1]].
      * rewrite <- Hi. rewrite lift_app, app_comm_cons, fmap_app in Hnd. by apply NoDup_app in Hnd as [? _].
      * rewrite <- Hi. intros b Hb. apply lookup_insert_ne. intros <-. apply Hfd.
        csimpl in Hb. rewrite lift_locs in Hb. set_solver.
    + simpl. split_and!; [done| |].
      * by rewrite lookup_insert_ne, lookup_insert_eq.
      * eapply chain_frame; [|exact Hc2]. intros b Hb. change (b ∈ (lift post).*1) in Hb.
        rewrite lift_locs in Hb. rewrite !lookup_insert_ne; [done|intros <-..].
        -- apply Hfd. set_solver.
        -- rewrite lift_app, app_comm_cons, Hi, fmap_app in Hnd.
           apply NoDup_app in Hnd as (_ & Hd & _). eapply (Hd a); [|by rewrite lift_locs].
           rewrite fmap_app. apply elem_of_app. right. left.
  - cbn [list_size]. rewrite Hsz, !length_app. simpl. lia.
  - intros c Hcn. cbn [nodes]. pose proof (prev_own _ _ _ _ _ Hi).
    rewrite !lookup_insert_ne; [done|set_solver..].
Qed.

Lemma list_remove_spec listPtr x s ns :
  repr_nodes listPtr s ns ->
  match lremove compare x ns.*2 with
  | None => list_remove compare listPtr x s = Some (false, s)
  | Some l' => exists s' ns' b,
      list_remove compare listPtr x s = Some (true, s')
      /\ ns'.*2 = l' /\ repr_nodes listPtr s' ns'
      /\ list_frame (listPtr :: ns.*1) s s'
      /\ b ∈ dom (nodes s) /\ dom (nodes s') = dom (nodes s) ∖ {[b]}
  end.
Proof.
  intros Hr. destruct (findPrevious_spec _ x _ _ Hr) as
    (pre & post & ini & a & d & -> & Hs & Hi & Hf & Ha & Hc1 & Hc2).
  destruct Hr as (Hnd & Hc & Hsz).
  unfold lremove, list_remove. rewrite Hf, Hs. cbn [mbind option_bind fst snd]. rewrite Ha.
  cbn [mbind option_bind nextPtr]. destruct post as [|[b v] post]; [done|].
  destruct Hc2 as (Hb & Hhb & Hc2). simpl in Hb, Hhb. change (hd_loc (lift ((b, v) :: post)) NULL) with b in *.
  rewrite (proj2 (Z.eqb_neq b NULL) Hb), Hhb. csimpl. destruct (compare v x =? 0); [|done].
  rewrite full_locs, fmap_app in Hnd. csimpl in Hnd.
  pose proof (prev_own _ _ _ _ _ Hi) as Hao.
  assert (Hb' : b ∉ listPtr :: pre.*1 ++ post.*1).
  { intros Hin. rewrite <- Permutation_middle, Permutation_swap, NoDup_cons in Hnd. by destruct Hnd. }
  assert (Hab : a <> b) by (intros ->; set_solver).
  unfold freeNode. rewrite lookup_insert_eq. cbn [mbind option_bind].
  rewrite Hsz, length_app. simpl length. rewrite delete_insert_eq, delete_insert_ne by done.
  destruct (Z.geb_spec (Z.of_nat (length pre + S (length post)) - 1) 0); [|lia].
  eexists _, (pre ++ post), b. split_and!; [done|by rewrite fmap_app|split_and!| | |].
  - rewrite full_locs, fmap_app. rewrite <- Permutation_middle, Permutation_swap, NoDup_cons in Hnd. apply Hnd.
  - unfold full. rewrite lift_app, app_comm_cons. change ((listPtr, None) :: lift pre) with (full listPtr pre).
    rewrite Hi. apply chain_app. cbn [nodes].
    assert (Hpre : forall c, c ∈ (ini ++ [(a, d)]).*1 -> c ∈ listPtr :: pre.*1).
    { intros c. by rewrite <- Hi, full_locs. }
    split.
    + eapply chain_retarget; [|eapply chain_frame; [|exact Hc1]].
      * rewrite <- Hi, full_locs. eapply NoDup_of_submseteq; [|exact Hnd].
        apply submseteq_skip. apply submseteq_inserts_r. done.
      * intros c Hin. apply lookup_delete_ne. intros <-. apply Hpre in Hin. set_solver.
    + eapply chain_frame; [|exact Hc2]. intros c Hin. change (c ∈ (lift post).*1) in Hin. rewrite lift_locs in Hin.
      rewrite lookup_insert_ne, lookup_delete_ne; [done|intros <-..].
      * set_solver.
      * rewrite app_comm_cons, NoDup_app in Hnd. destruct Hnd as (_ & Hd & _). eapply Hd; [exact Hao|by right].
  - cbn [list_size]. rewrite length_app. lia.
  - intros c Hcn. cbn [nodes]. rewrite fmap_app in Hcn. csimpl in Hcn.
    rewrite lookup_insert_ne, lookup_delete_ne; [done|set_solver..].
  - by eapply elem_of_dom_2.
  - cbn [nodes]. rewrite dom_insert_lookup_L, dom_delete_L; [done|].
    rewrite lookup_delete_ne, Ha by done. done.
Qed.

Lemma list_isEmpty_spec listPtr s l :
  repr listPtr s l -> list_isEmpty listPtr s = Some (bool_decide (l = [])).
Proof.
  intros (ns & <- & _ & (_ & Hh & Hc) & _). unfold list_isEmpty. rewrite Hh. cbn [mbind option_bind nextPtr].
  f_equal. erewrite hd_loc_null by done. apply bool_decide_ext. by destruct ns.
Qed.

(** An iterator visits every element, in order. *)
Lemma list_iterate_chain s ns : forall fuel p dp,
  chain (nodes s) ((p, dp) :: lift ns) NULL -> (length ns <= fuel)%nat ->
  list_iterate fuel p s = Some ns.*2.
Proof.
  induction ns as [|[b v] ns IH]; intros fuel p dp (Hp & Hh & Hc) Hf.
  - destruct fuel; simpl; unfold list_iter_hasNext; rewrite Hh; done.
  - destruct fuel as [|fuel]; [simpl in Hf; lia|]. pose proof Hc as (Hb & Hhb & _).
    cbn [lift fmap list_fmap fst snd hd_loc] in *.
    simpl. unfold list_iter_hasNext, list_iter_next. rewrite Hh. cbn [mbind option_bind nextPtr].
    rewrite (proj2 (Z.eqb_neq b NULL) Hb). cbn [negb]. rewrite Hhb. cbn [mbind option_bind dataPtr].
    rewrite (IH fuel b (Some v) Hc); [done|]. simpl in Hf. lia.
Qed.

Lemma list_iterate_spec listPtr s l :
  repr listPtr s l -> list_iterate (size (nodes s)) (list_iter_reset listPtr) s = Some l.
Proof.
  intros (ns & <- & Hnd & Hc & _). eapply list_iterate_chain; [exact Hc|].
  apply chain_length in Hc; [|done]. unfold full, lift in Hc. simpl in Hc. rewrite length_fmap in Hc. lia.
Qed.

(** [freeList] frees the nodes of the chain and nothing else. *)
Lemma freeList_spec h ns : forall fuel,
  NoDup ns.*1 -> chain h (lift ns) NULL -> (length ns <= fuel)%nat ->
  exists h', freeList fuel (hd_loc (lift ns) NULL) h = Some h'
    /\ forall c, h' !! c = if decide (c ∈ ns.*1) then None else h !! c.
Proof.
  induction ns as [|[b v] ns IH]; intros fuel Hnd Hc Hf.
  - exists h. split; [by destruct fuel|]. intros c. by rewrite decide_False by set_solver.
  - destruct fuel as [|fuel]; [simpl in Hf; lia|]. destruct Hc as (Hb & Hhb & Hc).
    cbn [lift fmap list_fmap fst snd hd_loc freeList] in *.
    rewrite (proj2 (Z.eqb_neq b NULL) Hb), Hhb. cbn [mbind option_bind nextPtr].
    apply NoDup_cons in Hnd as [Hbn Hnd].
    destruct (IH fuel Hnd Hc) as (h' & Hfl & Hh'); [simpl in Hf; lia|].
    rewrite Hfl. cbn [mbind option_bind]. unfold freeNode.
    rewrite Hh', decide_False, Hhb by done. eexists. split; [done|]. intros c. csimpl.
    destruct (decide (c = b)) as [-> |Hcb].
    + rewrite lookup_delete_eq, decide_True by left. done.
    + rewrite lookup_delete_ne, Hh' by done.
      destruct (decide (c ∈ ns.*1)); [rewrite decide_True by by right|rewrite decide_False by set_solver]; done.
Qed.

Lemma repr_free_chain listPtr s ns :
  repr_nodes listPtr s ns ->
  exists h', freeList (size (nodes s)) (hd_loc (lift ns) NULL) (nodes s) = Some h'
    /\ forall c, h' !! c = if decide (c ∈ ns.*1) then None else nodes s !! c.
Proof.
  intros (Hnd & Hc & _). pose proof (chain_length _ _ _ Hnd Hc) as Hl. rewrite full_locs in Hnd.
  apply NoDup_cons in Hnd as [_ Hnd]. apply freeList_spec; [done|apply Hc|].
  unfold full, lift in Hl. simpl in Hl. rewrite length_fmap in Hl. lia.
Qed.

Lemma list_free_spec listPtr s ns :
  repr_nodes listPtr s ns ->
  exists h', list_free listPtr s = Some h'
    /\ forall c, h' !! c = if decide (c ∈ listPtr :: ns.*1) then None else nodes s !! c.
Proof.
  intros Hr. destruct (repr_free_chain _ _ _ Hr) as (h' & Hf & Hh).
  destruct Hr as (Hnd & (_ & Hl & _) & _). rewrite full_locs in Hnd. apply NoDup_cons in Hnd as [Hn Hnd].
  unfold list_free, freeNode. rewrite Hl. cbn [mbind option_bind nextPtr]. rewrite Hf. cbn [mbind option_bind].
  rewrite Hh, decide_False, Hl by done. eexists. split; [done|]. intros c.
  destruct (decide (c = listPtr)) as [-> |Hcl].
  - rewrite lookup_delete_eq, decide_True by left. done.
  - rewrite lookup_delete_ne, Hh by done.
    destruct (decide (c ∈ ns.*1)); [rewrite decide_True by by right|rewrite decide_False by set_solver]; done.
Qed.

Lemma list_clear_spec listPtr s ns :
  repr_nodes listPtr s ns ->
  exists s', list_clear listPtr s = Some s' /\ repr_nodes listPtr s' []
    /\ forall c, c <> listPtr -> nodes s' !! c = if decide (c ∈ ns.*1) then None else nodes s !! c.
Proof.
  intros Hr. destruct (repr_free_chain _ _ _ Hr) as (h' & Hf & Hh).
  destruct Hr as (Hnd & (Hl0 & Hl & _) & _). rewrite full_locs in Hnd. apply NoDup_cons in Hnd as [Hn Hnd].
  unfold list_clear. rewrite Hl. cbn [mbind option_bind nextPtr]. rewrite Hf. cbn [mbind option_bind].
  rewrite Hh, decide_False, Hl by done. cbn [mbind option_bind dataPtr]. eexists. split; [done|]. split.
  - split_and!; [apply NoDup_singleton| |done]. cbn [full chain lift fmap list_fmap nodes hd_loc].
    by rewrite lookup_insert_eq.
  - intros c Hc. cbn [nodes]. by rewrite lookup_insert_ne, Hh.
Qed.

Lemma list_alloc_spec listPtr h :
  listPtr <> NULL -> repr_nodes listPtr (list_alloc listPtr h) [].
Proof.
  intros Hl. split_and!; [apply NoDup_singleton| |done].
  cbn [full chain lift fmap list_fmap list_alloc nodes hd_loc]. by rewrite lookup_insert_eq.
Qed.
End refinement.

(** C15: every operation on a list that represents the sequence [l] returns, follows no dangling or
    null pointer and computes the operation on sequences: a lookup gives [lfind], an insertion
    [linsert] (and leaves the list alone when that is refused), a removal [lremove] and gives
    back exactly one node, an iterator visits [l] in order, [list_clear] and [list_free] give
    back every node; no operation touches memory of anyone else. *)
Theorem stamp_list_refines {A} (compare : A -> A -> Z) no_dup listPtr s ns x fresh :
  repr_nodes listPtr s ns -> fresh <> NULL -> fresh ∉ dom (nodes s) ->
  list_find compare listPtr x s = Some (lfind compare x ns.*2)
  /\ list_isEmpty listPtr s = Some (bool_decide (ns.*2 = []))
  /\ list_getSize s = Z.of_nat (length ns)
  /\ list_iterate (size (nodes s)) (list_iter_reset listPtr) s = Some ns.*2
  /\ match linsert compare no_dup x ns.*2 with
     | None => list_insert compare no_dup fresh listPtr x s = Some (false, s)
     | Some l' => exists s' ns',
         list_insert compare no_dup fresh listPtr x s = Some (true, s')
         /\ ns'.*2 = l' /\ repr_nodes listPtr s' ns'
         /\ list_frame (fresh :: listPtr :: ns.*1) s s'
     end
  /\ match lremove compare x ns.*2 with
     | None => list_remove compare listPtr x s = Some (false, s)
     | Some l' => exists s' ns' b,
         list_remove compare listPtr x s = Some (true, s')
         /\ ns'.*2 = l' /\ repr_nodes listPtr s' ns'
         /\ list_frame (listPtr :: ns.*1) s s'
         /\ b ∈ dom (nodes s) /\ dom (nodes s') = dom (nodes s) ∖ {[b]}
     end
  /\ (exists s', list_clear listPtr s = Some s' /\ repr_nodes listPtr s' []
        /\ forall c, c <> listPtr -> nodes s' !! c = if decide (c ∈ ns.*1) then None else nodes s !! c)
  /\ (exists h', list_free listPtr s = Some h'
        /\ forall c, h' !! c = if decide (c ∈ listPtr :: ns.*1) then None else nodes s !! c).
Proof.
  intros Hr Hf Hd. assert (Hr' : repr listPtr s ns.*2) by by exists ns.
  split_and!; [by apply list_find_spec|by apply list_isEmpty_spec|apply Hr|by apply list_iterate_spec
    |by apply list_insert_spec|by apply list_remove_spec|by apply list_clear_spec|by apply list_free_spec].
Qed.

(** ** The list as a set

    Clients that compile with [LIST_NO_DUPLICATES] use the list as a set of classes of
    the comparison. *)

Inductive list_op (A : Type) := OpInsert (x : A) | OpRemove (x : A).
Arguments OpInsert {A} _.
Arguments OpRemove {A} _.

Definition list_step {A} (compare : A -> A -> Z) (o : list_op A) (l : list A) : option (list A) :=
  match o with
  | OpInsert x => Some (default l (linsert compare true x l))
  | OpRemove x => Some (default l (lremove compare x l))
  end.

Definition strict {A} (compare : A -> A -> Z) (l : list A) : Prop := StronglySorted (clt compare) l.

Section set.
Context {A : Type} (compare : A -> A -> Z) {Hcmp : Comparison compare}.

Lemma strict_cle l : strict compare l -> StronglySorted (cle compare) l.
Proof.
  unfold strict. induction 1 as [|x l Hs IH Hx]; constructor; [done|].
  eapply Forall_impl; [exact Hx|]. unfold clt, cle. lia.
Qed.

Lemma linsert_strict x l l' : strict compare l -> linsert compare true x l = Some l' -> strict compare l'.
Proof.
  intros Hs H. pose proof (lfind_None compare x l (strict_cle l Hs)) as Hn. revert H.
  unfold linsert. cbn [andb]. case_bool_decide as Hf; intros [= <-].
  apply eq_None_not_Some in Hf. specialize (Hn Hf).
  pose proof (lsplit_suffix compare x l (strict_cle l Hs)) as Hsuf. pose proof (lsplit_pre compare x l) as Hpre.
  assert (Hl : forall b, b ∈ (lsplit compare x l).2 -> b ∈ l).
  { intros b Hb. rewrite <- (lsplit_app compare x l). apply elem_of_app. by right. }
  unfold strict in *. rewrite <- (lsplit_app compare x l) in Hs.
  apply StronglySorted_app in Hs as (Hc & H1 & H2). apply StronglySorted_app. split_and!; [|done|].
  - intros a b Ha Hb. pose proof (proj1 (Forall_forall _ _) Hpre a Ha) as Hax.
    apply elem_of_cons in Hb as [-> |Hb]; [done|by apply Hc].
  - constructor; [done|]. apply Forall_forall. intros b Hb. apply compare_flip; [done|].
    pose proof (proj1 (Forall_forall _ _) Hsuf b Hb) as Hbx. simpl in Hbx. pose proof (Hn b (Hl b Hb)). lia.
Qed.

Lemma lremove_strict x l l' : strict compare l -> lremove compare x l = Some l' -> strict compare l'.
Proof.
  unfold lremove, strict. intros Hs. destruct (lsplit compare x l).2 as [|z post] eqn:E; [done|].
  destruct (_ =? 0); intros [= <-]. rewrite <- (lsplit_app compare x l), E in Hs.
  apply StronglySorted_app in Hs as (Hc & H1 & H2). apply StronglySorted_app. split_and!; [|done|].
  - intros a b Ha Hb. apply Hc; [done|by right].
  - by apply StronglySorted_inv in H2 as [? _].
Qed.

(** In a strictly sorted list an element is determined by its class. *)
Lemma strict_unique l x y : strict compare l -> x ∈ l -> y ∈ l -> compare x y = 0 -> x = y.
Proof.
  unfold strict. induction 1 as [|z l Hs IH Hz]; [by intros ?%elem_of_nil|].
  rewrite !elem_of_cons. rewrite Forall_forall in Hz. unfold clt in Hz.
  intros [-> |Hx] [-> |Hy] Hc; [done| | |by apply IH].
  - specialize (Hz y Hy). lia.
  - specialize (Hz x Hx). apply compare_eq_flip in Hc; [lia|done].
Qed.

Lemma list_step_strict o l l' : strict compare l -> list_step compare o l = Some l' -> strict compare l'.
Proof.
  intros Hs. destruct o as [x|x]; simpl; intros [= <-].
  - destruct (linsert compare true x l) as [l1|] eqn:E; simpl; [|done]. by eapply linsert_strict.
  - destruct (lremove compare x l) as [l1|] eqn:E; simpl; [|done]. by eapply lremove_strict.
Qed.

Lemma lfind_class l x y : strict compare l -> y ∈ l -> compare y x = 0 -> lfind compare x l = Some y.
Proof.
  intros Hs Hy Hc. destruct (lfind compare x l) as [z|] eqn:E.
  - apply lfind_Some in E as [Hz Hzx]; [|done]. f_equal. eapply strict_unique; [done|done|done|].
    apply compare_eq_flip in Hc; [|done].
    pose proof (compare_trans compare z x y). pose proof (compare_trans compare y x z).
    pose proof (compare_flip compare z y). pose proof (compare_eq_flip compare x y Hc).
    pose proof (compare_eq_flip compare z x Hzx). lia.
  - by destruct (lfind_None compare x l (strict_cle l Hs) E y Hy).
Qed.
End set.

(** After any sequence of insertions and removals into an empty list without duplicates, the
    list is strictly ascending, a lookup finds exactly the element equal to its key, an insertion
    succeeds if and only if no equal element is present and adds just that element, and a removal
    takes out just the equal element. *)
Theorem stamp_list_set {A} (compare : A -> A -> Z) {Hcmp : Comparison compare} l x :
  reach (list_step compare) [] l ->
  strict compare l
  /\ (forall y, lfind compare x l = Some y <-> y ∈ l /\ compare y x = 0)
  /\ (linsert compare true x l = None <-> exists y, y ∈ l /\ compare y x = 0)
  /\ (forall l', linsert compare true x l = Some l' -> l' ≡ₚ x :: l)
  /\ (forall l', lremove compare x l = Some l' <->
        exists y, y ∈ l /\ compare y x = 0 /\ strict compare l' /\ l ≡ₚ y :: l').
Proof.
  intros Hr. assert (Hs : strict compare l).
  { apply (reach_invariant (list_step compare) (strict compare) [] l); [constructor| |done].
    intros o l1 l2 H1 H2. by apply (list_step_strict compare o l1 l2). }
  assert (Hfind : forall y, lfind compare x l = Some y <-> y ∈ l /\ compare y x = 0).
  { intros y. split; [by apply lfind_Some|]. intros [? ?]. by apply lfind_class. }
  split_and!; [done|done| | |].
  - unfold linsert. cbn [andb]. case_bool_decide as Hf.
    + split; [|done]. intros _. destruct Hf as [y Hy]. exists y. by apply Hfind.
    + split; [done|]. intros [y Hy%Hfind]. destruct Hf. eauto.
  - intros l'. by apply linsert_perm.
  - intros l'. split.
    + intros H. destruct (lremove_Some _ _ _ _ H) as (y & Hy & Hp). exists y.
      apply Hfind in Hy as [? ?]. split_and!; [done|done| |done]. by eapply lremove_strict.
    + intros (y & Hy & Hc & Hs' & Hp). destruct (lremove compare x l) as [l1|] eqn:E.
      * destruct (lremove_Some _ _ _ _ E) as (z & Hz & Hpz). f_equal.
        apply Hfind in Hz as [Hz Hzc].
        assert (z = y) as -> by (pose proof (lfind_class compare l x y Hs Hy Hc) as H1;
          rewrite (proj2 (Hfind z)) in H1 by done; congruence).
        rewrite Hp in Hpz. apply Permutation_cons_inv in Hpz.
        apply (StronglySorted_unique_strong (clt compare)); [|exact (lremove_strict compare x l l1 Hs E)|done|by symmetry].
        intros u v _ _ Huv Hvu. apply compare_flip in Huv; [|done]. unfold clt in Hvu. lia.
      * apply lremove_None in E. rewrite (proj2 (Hfind y)) in E by done. done.
Qed.

(** ** Concrete lists *)

(** A comparison of small integers, as the test of [list.c] uses it. *)
Definition zcmp (a b : Z) : Z := a - b.

#[global] Instance zcmp_comparison : Comparison zcmp.
Proof. split; unfold zcmp; intros; lia. Qed.

(** A list with the elements 1, 3 and 4, inserted out of order at addresses 16, 32 and 24. *)
Definition demo_heap : option (list_heap Z) :=
  '(_, s) ← list_insert zcmp true 16 8 3 (list_alloc 8 ∅);
  '(_, s) ← list_insert zcmp true 24 8 1 s;
  '(_, s) ← list_insert zcmp true 32 8 4 s;
  Some s.

Definition demo_list : list_heap Z := default (list_alloc 8 ∅) demo_heap.

Lemma demo_list_repr : repr_nodes 8 demo_list [(24, 1); (16, 3); (32, 4)].
Proof.
  split_and!; [|vm_compute; split_and!; done|done].
  apply (bool_decide_unpack (NoDup [8; 24; 16; 32])). by vm_compute.
Qed.

Lemma stamp_list_refines_witness :
  list_find zcmp 8 3 demo_list = Some (Some 3)
  /\ list_iterate (size (nodes demo_list)) 8 demo_list = Some [1; 3; 4]
  /\ list_insert zcmp true 40 8 3 demo_list = Some (false, demo_list).
Proof.
  destruct (stamp_list_refines zcmp true 8 demo_list [(24, 1); (16, 3); (32, 4)] 3 40 demo_list_repr
    ltac:(discriminate) ltac:(apply (bool_decide_unpack _); by vm_compute)) as (H1 & _ & _ & H2 & H3 & _).
  split_and!; [exact H1|exact H2|exact H3].
Defined.

Lemma stamp_list_set_witness :
  linsert zcmp true 3 [1; 3; 4] = None /\ strict zcmp [1; 3; 4].
Proof.
  destruct (stamp_list_set zcmp [1; 3; 4] 3
    (run_from (list_step zcmp) [OpInsert 3; OpInsert 1; OpInsert 3; OpInsert 4] [] [1; 3; 4] eq_refl))
    as (H1 & _ & H2 & _).
  split; [|exact H1]. apply H2. exists 3. split; [|reflexivity]. right. left.
Defined.
