(* ===== verification/StampArray.v ===== *)
(** * The arrays of the STAMP containers

    [queue.c], [vector.c] and [heap.c] keep their elements in an array of pointers
    obtained from [malloc] and grown by copying.  An array is the list of its cells; a
    cell that was never written holds no determinate value.  An access outside the
    array, and a use of an indeterminate value, are undefined behaviour: [None]. *)

From S2P Require Import Prelude.

Definition cells : Type := list (option Z).

Definition NULL : Z := 0.

(** [sizeof(void* )] on i386. *)
Definition PTR_BYTES : Z := 4.

(** The cell at an index, with no use of its value. *)
Definition acell (a : cells) (i : Z) : option (option Z) :=
  if 0 <=? i then a !! Z.to_nat i else None.

(** [elements[i]] as a value. *)
Definition aread (a : cells) (i : Z) : option Z := c ← acell a i; c.

Definition aset (a : cells) (i : Z) (c : option Z) : option cells :=
  if (0 <=? i) && (i <? Z.of_nat (length a)) then Some (<[Z.to_nat i := c]> a) else None.

(** [elements[i] = v]. *)
Definition awrite (a : cells) (i v : Z) : option cells := aset a i (Some v).

(** [malloc(n * sizeof(void* ))]: [ok] says whether memory is left; the product wraps
    at the width of [size_t]; no object is larger than [PTRDIFF_MAX] bytes. *)
Definition malloc_array (ok : bool) (n : Z) : option cells :=
  let bytes := u32 (n * PTR_BYTES) in
  if ok && (bytes <? 2 ^ 31) then Some (replicate (Z.to_nat (bytes / PTR_BYTES)) None) else None.

(** [k] rounds of [dst[d] = src[s]; s++; d++]. *)
Fixpoint copy_cells (k : nat) (src : cells) (s : Z) (dst : cells) (d : Z) : option cells :=
  match k with
  | O => Some dst
  | S k => c ← acell src s; dst ← aset dst d c; copy_cells k src (s + 1) dst (d + 1)
  end.

(** ** Lemmas *)

Lemma acell_lookup a i : 0 <= i -> acell a i = a !! Z.to_nat i.
Proof. intros Hi. unfold acell. by rewrite (proj2 (Z.leb_le 0 i) Hi). Qed.

Lemma acell_in a i : 0 <= i < Z.of_nat (length a) -> exists c, acell a i = Some c.
Proof. intros Hi. rewrite acell_lookup by lia. apply lookup_lt_is_Some_2. lia. Qed.

Lemma acell_bound a i c : acell a i = Some c -> 0 <= i < Z.of_nat (length a).
Proof.
  unfold acell. destruct (Z.leb_spec 0 i); [|done]. intros ?%lookup_lt_Some. lia.
Qed.

Lemma aread_cell a i v : acell a i = Some (Some v) -> aread a i = Some v.
Proof. intros H. unfold aread. by rewrite H. Qed.

Lemma aset_in a i c : 0 <= i < Z.of_nat (length a) ->
  exists a', aset a i c = Some a' /\ length a' = length a /\
    forall j, acell a' j = if decide (j = i) then Some c else acell a j.
Proof.
  intros Hi. unfold aset. rewrite (proj2 (Z.leb_le 0 i)), (proj2 (Z.ltb_lt i _)) by lia. simpl.
  eexists. split_and!; [done|apply length_insert|]. intros j. unfold acell. destruct (Z.leb_spec 0 j); case_decide; subst; try lia.
  - apply list_lookup_insert_eq. lia.
  - apply list_lookup_insert_ne. lia.
  - done.
Qed.

Lemma copy_cells_spec k : forall src s dst d,
  0 <= s -> s + Z.of_nat k <= Z.of_nat (length src) -> 0 <= d -> d + Z.of_nat k <= Z.of_nat (length dst) ->
  exists dst', copy_cells k src s dst d = Some dst' /\ length dst' = length dst /\
    forall j, acell dst' j = if decide (d <= j < d + Z.of_nat k) then acell src (s + (j - d)) else acell dst j.
Proof.
  induction k as [|k IH]; intros src s dst d Hs Hs' Hd Hd'; simpl.
  - exists dst. split_and!; [done|done|]. intros j. by rewrite decide_False by lia.
  - destruct (acell_in src s) as [c Hc]; [lia|]. rewrite Hc. cbn [mbind option_bind].
    destruct (aset_in dst d c) as (a & Ha & Hla & Hga); [lia|]. rewrite Ha. cbn [mbind option_bind].
    destruct (IH src (s + 1) a (d + 1)) as (dst' & Hdst & Hl & Hg); [lia..|]. exists dst'. split_and!; [done|congruence|].
    intros j. rewrite Hg. repeat case_decide; try lia.
    + f_equal. lia.
    + rewrite Hga. destruct (decide (j = d)) as [-> |]; [|lia]. rewrite <- Hc. f_equal. lia.
    + rewrite Hga, decide_False by lia. done.
Qed.

Lemma malloc_array_small ok n a : 0 <= n < 2 ^ 30 -> malloc_array ok n = Some a ->
  Z.of_nat (length a) = n /\ n < 2 ^ 29.
Proof.
  intros Hn Ha. unfold malloc_array, PTR_BYTES in Ha. rewrite u32_small in Ha by lia.
  destruct ok, (Z.ltb_spec (n * 4) (2 ^ 31)); simpl in Ha; try done. simplify_eq.
  rewrite length_replicate, Z.div_mul by lia. lia.
Qed.

Lemma malloc_array_fails ok n : 0 <= n < 2 ^ 30 -> malloc_array ok n = None -> ok = false \/ 2 ^ 29 <= n.
Proof.
  intros Hn Ha. unfold malloc_array, PTR_BYTES in Ha. rewrite u32_small in Ha by lia.
  destruct ok, (Z.ltb_spec (n * 4) (2 ^ 31)); simpl in Ha; try done; [right; lia|by left..].
Qed.

(** Exchanging two elements. *)
Definition swap {A} (i j : nat) (l : list A) : list A :=
  match l !! i, l !! j with Some x, Some y => <[j := x]> (<[i := y]> l) | _, _ => l end.

Lemma length_swap {A} i j (l : list A) : length (swap i j l) = length l.
Proof. unfold swap. repeat case_match; by rewrite ?length_insert. Qed.

Lemma lookup_swap {A} i j k (l : list A) : (i < length l)%nat -> (j < length l)%nat ->
  swap i j l !! k = l !! (if decide (k = j) then i else if decide (k = i) then j else k).
Proof.
  intros [x Hx]%lookup_lt_is_Some_2 [y Hy]%lookup_lt_is_Some_2. unfold swap. rewrite Hx, Hy.
  pose proof (lookup_lt_Some _ _ _ Hx). pose proof (lookup_lt_Some _ _ _ Hy). repeat case_decide; subst.
  - rewrite list_lookup_insert_eq by by rewrite length_insert. congruence.
  - rewrite list_lookup_insert_ne by done. rewrite list_lookup_insert_eq by done. congruence.
  - by rewrite !list_lookup_insert_ne.
Qed.

Lemma swap_perm {A} i j (l : list A) : (i < length l)%nat -> (j < length l)%nat -> swap i j l ≡ₚ l.
Proof.
  intros Hi Hj. apply Permutation_inj. split; [apply length_swap|].
  exists (fun k => if decide (k = j) then i else if decide (k = i) then j else k). split.
  - intros k1 k2. repeat case_decide; subst; congruence.
  - intros k. by apply lookup_swap.
Qed.

(** ** What a container promises

    A container is a partial step function on its representation (an operation gives
    the next state and the value returned, or nothing when the code's behaviour is
    undefined), a relation that says which abstract value a state represents, and the
    specification of the operations on abstract values.  The law is the simulation:
    a legal operation on a state that represents a value is defined and agrees with
    the specification. *)
Class Container (St Op Abs : Type) := {
  cstep : Op -> St -> option (St * Z);
  crepr : St -> Abs -> Prop;
  clegal : Op -> Prop;
  cspec : Op -> Abs -> Z -> Abs -> Prop;
  csim : forall o s a, crepr s a -> clegal o ->
    exists s' r a', cstep o s = Some (s', r) /\ cspec o a r a' /\ crepr s' a'
}.

Section container.
Context {St Op Abs : Type} `{Container St Op Abs}.

(** Any number of operations, with the values they return. *)
Fixpoint crun (ops : list Op) (s : St) : option (St * list Z) :=
  match ops with
  | [] => Some (s, [])
  | o :: ops => '(s, r) ← cstep o s; '(s, rs) ← crun ops s; Some (s, r :: rs)
  end.

Inductive cspecs : list Op -> Abs -> list Z -> Abs -> Prop :=
| cspecs_nil a : cspecs [] a [] a
| cspecs_cons o ops a r a1 rs a2 : cspec o a r a1 -> cspecs ops a1 rs a2 -> cspecs (o :: ops) a (r :: rs) a2.

Lemma crun_sim ops : forall s a, crepr s a -> Forall clegal ops ->
  exists s' rs a', crun ops s = Some (s', rs) /\ cspecs ops a rs a' /\ crepr s' a'.
Proof.
  induction ops as [|o ops IH]; intros s a Hr Hl; simpl.
  - exists s, [], a. split_and!; [done|constructor|done].
  - apply Forall_cons in Hl as [Ho Hl]. destruct (csim o s a Hr Ho) as (s1 & r & a1 & -> & Hsp & Hr1).
    cbn [mbind option_bind]. destruct (IH s1 a1 Hr1 Hl) as (s2 & rs & a2 & -> & Hsps & Hr2). cbn [mbind option_bind].
    exists s2, (r :: rs), a2. split_and!; [done|by econstructor|done].
Qed.
End container.
