(* ===== verification/StampQueue.v ===== *)
(** * The queue of STAMP

    Model of [lib/queue.c]: a ring buffer of pointers with [pop] pointing before the
    first element and [push] behind the last; a push that would fill the ring moves
    the elements to an array of twice the size.  The variants of an operation (plain,
    [P] and [TM]) differ in the allocator and in how memory is accessed within a
    transaction, not in what they compute. *)

From S2P Require Import Prelude StampArray.

Module Queue.

Record queue := mkQueue {
  pop : Z;          (* points before element to pop *)
  push : Z;
  capacity : Z;
  elements : cells
}.

Definition QUEUE_GROWTH_FACTOR : Z := 2.

(** [ok1], [ok2]: whether the two calls of [malloc] find memory. *)
Definition queue_alloc (ok1 ok2 : bool) (initCapacity : Z) : option queue :=
  if ok1 then
    let capacity := if initCapacity <? 2 then 2 else initCapacity in
    match malloc_array ok2 capacity with
    | None => None
    | Some elements => Some (mkQueue (capacity - 1) 0 capacity elements)
    end
  else None.

Definition Pqueue_alloc := queue_alloc.
Definition TMqueue_alloc := queue_alloc.

Definition queue_isEmpty (q : queue) : bool := Z.rem (pop q + 1) (capacity q) =? push q.
Definition TMqueue_isEmpty := queue_isEmpty.

Definition queue_clear (q : queue) : queue := mkQueue (capacity q - 1) 0 (capacity q) (elements q).

(** [for (src = lo; src < hi; src++, dst++) newElements[dst] = elements[src];] *)
Definition copy_range (elements : cells) (lo hi : Z) (newElements : cells) (dst : Z) : option (cells * Z) :=
  let k := Z.to_nat (hi - lo) in
  newElements ← copy_cells k elements lo newElements dst;
  Some (newElements, dst + Z.of_nat k).

(** The copy into the new array; returns [dst]. *)
Definition queue_move (q : queue) (newElements : cells) : option (cells * Z) :=
  if pop q <? push q then copy_range (elements q) (pop q + 1) (push q) newElements 0
  else '(newElements, dst) ← copy_range (elements q) (pop q + 1) (capacity q) newElements 0;
       copy_range (elements q) 0 (push q) newElements dst.

Definition queue_push (ok : bool) (q : queue) (dataPtr : Z) : option (queue * bool) :=
  if pop q =? push q then None       (* assert(pop != push) *)
  else
    let newPush := Z.rem (push q + 1) (capacity q) in
    if newPush =? pop q then
      let newCapacity := s32 (capacity q * QUEUE_GROWTH_FACTOR) in
      match malloc_array ok newCapacity with
      | None => Some (q, false)
      | Some newElements =>
          '(newElements, dst) ← queue_move q newElements;
          newElements ← awrite newElements dst dataPtr;
          Some (mkQueue (newCapacity - 1) (dst + 1) newCapacity newElements, true)
      end
    else
      elements ← awrite (elements q) (push q) dataPtr;
      Some (mkQueue (pop q) newPush (capacity q) elements, true).

Definition Pqueue_push := queue_push.
Definition TMqueue_push := queue_push.

Definition queue_pop (q : queue) : option (queue * Z) :=
  let newPop := Z.rem (pop q + 1) (capacity q) in
  if newPop =? push q then Some (q, NULL)
  else
    dataPtr ← aread (elements q) newPop;
    Some (mkQueue newPop (push q) (capacity q) (elements q), dataPtr).

Definition TMqueue_pop := queue_pop.

Definition numElement (q : queue) : Z :=
  if pop q <? push q then push q - (pop q + 1) else capacity q - (pop q - push q + 1).

(** One round of [queue_shuffle]: [g1] and [g2] are the random numbers it draws. *)
Definition shuffle_swap (q : queue) (g1 g2 : Z) : option queue :=
  let i1 := Z.rem (pop q + 1 + Z.rem g1 (numElement q)) (capacity q) in
  let i2 := Z.rem (pop q + 1 + Z.rem g2 (numElement q)) (capacity q) in
  tmp ← aread (elements q) i1;
  e2 ← aread (elements q) i2;
  els ← awrite (elements q) i1 e2;
  els ← awrite els i2 tmp;
  Some (mkQueue (pop q) (push q) (capacity q) els).

(** [rnd] gives the numbers [random_generate] returns, in order. *)
Fixpoint shuffle_loop (k : nat) (rnd : nat -> Z) (q : queue) : option queue :=
  match k with
  | O => Some q
  | S k => q ← shuffle_swap q (rnd 0%nat) (rnd 1%nat); shuffle_loop k (fun i => rnd (S (S i))) q
  end.

Definition queue_shuffle (rnd : nat -> Z) (q : queue) : option queue :=
  shuffle_loop (Z.to_nat (numElement q)) rnd q.

(** ** What the queue represents *)

(** A place of the ring: what [% capacity] gives below twice the capacity. *)
Definition ring (c x : Z) : Z := if x <? c then x else x - c.

(** The elements in order: element [k] of the list is [k] places behind [pop + 1]. *)
Definition repr (q : queue) (l : list Z) : Prop :=
  2 <= capacity q < 2 ^ 29 /\ Z.of_nat (length (elements q)) = capacity q /\
  0 <= pop q < capacity q /\ Z.of_nat (length l) <= capacity q - 2 /\
  push q = ring (capacity q) (pop q + 1 + Z.of_nat (length l)) /\
  forall k, 0 <= k < Z.of_nat (length l) ->
    acell (elements q) (ring (capacity q) (pop q + 1 + k)) = Some (l !! Z.to_nat k).

Lemma ring_rem c x : 0 <= x < 2 * c -> Z.rem x c = ring c x.
Proof.
  intros Hx. unfold ring. rewrite Z.rem_mod_nonneg by lia. destruct (Z.ltb_spec x c); [by apply Z.mod_small; lia|].
  replace x with (x - c + 1 * c) at 1 by lia. rewrite Z_mod_plus_full. apply Z.mod_small. lia.
Qed.

Ltac ring_cases := unfold ring in *; repeat match goal with
  | H : context [?x <? ?y] |- _ => destruct (Z.ltb_spec x y)
  | |- context [?x <? ?y] => destruct (Z.ltb_spec x y)
  end.

Lemma queue_alloc_repr ok1 ok2 n q : n < 2 ^ 30 -> queue_alloc ok1 ok2 n = Some q -> repr q [].
Proof.
  intros Hn Hq. unfold queue_alloc in Hq. destruct ok1; [|done].
  destruct (malloc_array ok2 _) as [els|] eqn:Em; [|done]. simplify_eq.
  apply malloc_array_small in Em; [|case_match; lia]. destruct Em as [Hlen Hlt].
  unfold repr. simpl. destruct (Z.ltb_spec n 2); (split_and!; [lia..| |intros; lia]); ring_cases; lia.
Qed.

Lemma queue_isEmpty_spec q l : repr q l -> queue_isEmpty q = bool_decide (l = []).
Proof.
  intros (Hc & _ & Hp & Hl & Hpush & _). unfold queue_isEmpty. rewrite ring_rem, Hpush by lia.
  destruct l as [|x l]; simpl length in *.
  - rewrite Z.add_0_r, Z.eqb_refl. done.
  - rewrite bool_decide_eq_false_2 by done. apply Z.eqb_neq. ring_cases; lia.
Qed.

Lemma queue_clear_repr q l : repr q l -> repr (queue_clear q) [].
Proof.
  intros (Hc & Hlen & Hp & Hl & Hpush & Hk). unfold repr. simpl. split_and!; try lia. ring_cases; lia.
Qed.

Lemma queue_pop_spec q l : repr q l ->
  exists q', queue_pop q = Some (q', default NULL (head l)) /\ repr q' (tail l).
Proof.
  intros Hr. pose proof (queue_isEmpty_spec q l Hr) as He. unfold queue_isEmpty in He.
  unfold queue_pop. rewrite He. destruct l as [|x l]; [by exists q|]. rewrite bool_decide_eq_false_2 by done.
  destruct Hr as (Hc & Hlen & Hp & Hl & Hpush & Hk). simpl length in *. rewrite ring_rem by lia.
  pose proof (Hk 0 ltac:(lia)) as H0. rewrite Z.add_0_r in H0. rewrite (aread_cell _ _ x) by done. cbn [mbind option_bind].
  eexists. split; [done|]. unfold repr. simpl. split_and!; [lia..|ring_cases; lia|ring_cases; lia|lia|ring_cases; lia|].
  intros k Hkk. specialize (Hk (k + 1) ltac:(lia)). replace (Z.to_nat (k + 1)) with (S (Z.to_nat k)) in Hk by lia.
  simpl in Hk. rewrite <- Hk. f_equal. ring_cases; lia.
Qed.

(** The copy that a growing push makes lays the elements out from index 0. *)
Lemma queue_move_spec q l new :
  repr q l -> Z.of_nat (length l) = capacity q - 2 -> capacity q <= Z.of_nat (length new) ->
  exists new', queue_move q new = Some (new', Z.of_nat (length l)) /\ length new' = length new /\
    forall k, 0 <= k < Z.of_nat (length l) -> acell new' k = Some (l !! Z.to_nat k).
Proof.
  intros (Hc & Hlen & Hp & Hl & Hpush & Hk) Hfull Hnew. unfold queue_move, copy_range.
  destruct (Z.ltb_spec (pop q) (push q)) as [Hlt|Hge].
  - assert (Hps : push q = pop q + 1 + Z.of_nat (length l)) by (ring_cases; lia).
    destruct (copy_cells_spec (Z.to_nat (push q - (pop q + 1))) (elements q) (pop q + 1) new 0) as (n1 & -> & Hl1 & Hg1);
      [ring_cases; lia..|]. cbn [mbind option_bind]. eexists. split_and!; [f_equal; f_equal; lia|done|].
    intros k Hkk. rewrite Hg1, decide_True by lia. rewrite <- Hk by done. f_equal. ring_cases; lia.
  - destruct (copy_cells_spec (Z.to_nat (capacity q - (pop q + 1))) (elements q) (pop q + 1) new 0) as (n1 & -> & Hl1 & Hg1);
      [lia..|]. cbn [mbind option_bind].
    destruct (copy_cells_spec (Z.to_nat (push q - 0)) (elements q) 0 n1 (0 + Z.of_nat (Z.to_nat (capacity q - (pop q + 1)))))
      as (n2 & -> & Hl2 & Hg2); [ring_cases; lia..|]. cbn [mbind option_bind].
    eexists. split_and!; [f_equal; f_equal; ring_cases; lia|congruence|].
    intros k Hkk. rewrite Hg2, <- Hk by done. case_decide; [f_equal; ring_cases; lia|].
    rewrite Hg1, decide_True by (ring_cases; lia). f_equal. ring_cases; lia.
Qed.

Lemma lookup_snoc_Z (l : list Z) d k : 0 <= k <= Z.of_nat (length l) ->
  (l ++ [d]) !! Z.to_nat k = if decide (k = Z.of_nat (length l)) then Some d else l !! Z.to_nat k.
Proof.
  intros Hk. case_decide; [subst; by rewrite Nat2Z.id, list_lookup_middle|]. apply lookup_app_l. lia.
Qed.

Lemma queue_push_spec ok q l d : repr q l ->
  exists q' b, queue_push ok q d = Some (q', b) /\ repr q' (if b : bool then l ++ [d] else l) /\
    (b = false -> ok = false \/ 2 ^ 28 <= Z.of_nat (length l) + 2).
Proof.
  intros Hr. pose proof Hr as (Hc & Hlen & Hp & Hl & Hpush & Hk). unfold queue_push.
  assert (Hne : pop q <> push q) by (ring_cases; lia). rewrite (proj2 (Z.eqb_neq _ _) Hne).
  rewrite ring_rem by (ring_cases; lia). unfold QUEUE_GROWTH_FACTOR.
  destruct (Z.eqb_spec (ring (capacity q) (push q + 1)) (pop q)) as [Heq|Hneq].
  - rewrite s32_small by lia. destruct (malloc_array ok (capacity q * 2)) as [new|] eqn:Em.
    2: { exists q, false. split_and!; [done|done|]. intros _. apply malloc_array_fails in Em as [?|?]; [by left|right; ring_cases; lia|lia]. }
    apply malloc_array_small in Em as [Hln Hbd]; [|lia].
    destruct (queue_move_spec q l new) as (n1 & -> & Hl1 & Hg1); [done|ring_cases; lia|lia|]. cbn [mbind option_bind].
    destruct (aset_in n1 (Z.of_nat (length l)) (Some d)) as (n2 & Hn2 & Hl2 & Hg2); [lia|]. unfold awrite. rewrite Hn2.
    cbn [mbind option_bind]. eexists _, true. split; [done|]. split; [|done].
    unfold repr. simpl. rewrite length_app. simpl length. split_and!; try lia; [ring_cases; lia|].
    intros k Hkk. rewrite lookup_snoc_Z by lia. replace (ring _ _) with k by (ring_cases; lia). rewrite Hg2.
    case_decide; [done|]. apply Hg1. lia.
  - destruct (aset_in (elements q) (push q) (Some d)) as (n2 & Hn2 & Hl2 & Hg2); [ring_cases; lia|]. unfold awrite. rewrite Hn2.
    cbn [mbind option_bind]. eexists _, true. split; [done|]. split; [|done].
    unfold repr. simpl. rewrite length_app. simpl length. split_and!; try lia; [ring_cases; lia..|].
    intros k Hkk. rewrite lookup_snoc_Z, Hg2 by lia. case_decide; case_decide; try done; [ring_cases; lia..|]. apply Hk. lia.
Qed.

Lemma numElement_spec q l : repr q l -> numElement q = Z.of_nat (length l).
Proof. intros (Hc & _ & Hp & Hl & Hpush & _). unfold numElement. ring_cases; lia. Qed.

Lemma shuffle_swap_spec q l g1 g2 : repr q l -> l <> [] -> 0 <= g1 -> 0 <= g2 ->
  exists q' l', shuffle_swap q g1 g2 = Some q' /\ repr q' l' /\ l' ≡ₚ l.
Proof.
  intros Hr Hne H1 H2. unfold shuffle_swap. rewrite (numElement_spec q l Hr).
  assert (Hpos : 0 < Z.of_nat (length l)) by (destruct l; [done|simpl; lia]).
  rewrite !(Z.rem_mod_nonneg _ (Z.of_nat _)) by lia.
  set (r1 := g1 mod Z.of_nat (length l)). set (r2 := g2 mod Z.of_nat (length l)).
  assert (Hr1 : 0 <= r1 < Z.of_nat (length l)) by (apply Z.mod_pos_bound; lia).
  assert (Hr2 : 0 <= r2 < Z.of_nat (length l)) by (apply Z.mod_pos_bound; lia).
  pose proof Hr as (Hc & Hlen & Hp & Hl & Hpush & Hk). rewrite !ring_rem by lia.
  destruct (lookup_lt_is_Some_2 l (Z.to_nat r1)) as [x1 Hx1]; [lia|].
  destruct (lookup_lt_is_Some_2 l (Z.to_nat r2)) as [x2 Hx2]; [lia|].
  assert (Hrd : forall r x, 0 <= r < Z.of_nat (length l) -> l !! Z.to_nat r = Some x ->
    aread (elements q) (ring (capacity q) (pop q + 1 + r)) = Some x).
  { intros r x Hrr Hx. apply aread_cell. rewrite Hk by done. by rewrite Hx. }
  rewrite (Hrd r1 x1), (Hrd r2 x2) by done. cbn [mbind option_bind].
  destruct (aset_in (elements q) (ring (capacity q) (pop q + 1 + r1)) (Some x2)) as (a1 & Ha1 & Hla1 & Hga1); [ring_cases; lia|].
  unfold awrite. rewrite Ha1. cbn [mbind option_bind].
  destruct (aset_in a1 (ring (capacity q) (pop q + 1 + r2)) (Some x1)) as (a2 & Ha2 & Hla2 & Hga2); [ring_cases; lia|].
  rewrite Ha2. cbn [mbind option_bind]. eexists _, (swap (Z.to_nat r1) (Z.to_nat r2) l).
  split_and!; [done| |apply swap_perm; lia]. unfold repr. simpl. rewrite length_swap. split_and!; try lia.
  intros k Hkk. rewrite Hga2, Hga1, lookup_swap by lia.
  assert (Hinj : forall r, 0 <= r < Z.of_nat (length l) -> ring (capacity q) (pop q + 1 + k) = ring (capacity q) (pop q + 1 + r) <-> k = r).
  { intros r Hrr. split; [|by intros ->]. ring_cases; lia. }
  pose proof (Hinj r1 Hr1). pose proof (Hinj r2 Hr2).
  repeat case_decide; first [exfalso; lia|congruence|by apply Hk].
Qed.

Lemma shuffle_loop_spec k : forall rnd q l, repr q l -> (k <> 0%nat -> l <> []) -> (forall i, 0 <= rnd i) ->
  exists q' l', shuffle_loop k rnd q = Some q' /\ repr q' l' /\ l' ≡ₚ l.
Proof.
  induction k as [|k IH]; intros rnd q l Hr Hne Hrnd; simpl; [by exists q, l|].
  destruct (shuffle_swap_spec q l (rnd 0%nat) (rnd 1%nat)) as (q1 & l1 & -> & Hr1 & Hp1); [done|by apply Hne|done|done|].
  cbn [mbind option_bind]. destruct (IH (fun i => rnd (S (S i))) q1 l1) as (q2 & l2 & -> & Hr2 & Hp2); [done| |done|].
  - intros _ ->. apply Permutation_nil_l in Hp1. by apply Hne.
  - exists q2, l2. split_and!; [done|done|]. by rewrite Hp2.
Qed.

Lemma queue_shuffle_spec rnd q l : repr q l -> (forall i, 0 <= rnd i) ->
  exists q' l', queue_shuffle rnd q = Some q' /\ repr q' l' /\ l' ≡ₚ l.
Proof.
  intros Hr Hrnd. unfold queue_shuffle. rewrite (numElement_spec q l Hr).
  apply shuffle_loop_spec; [done| |done]. by intros ? ->.
Qed.

(** ** The container *)

Inductive qop := Push (ok : bool) (dataPtr : Z) | Pop | IsEmpty | Clear | Shuffle (rnd : nat -> Z).

Definition qstep (o : qop) (q : queue) : option (queue * Z) :=
  match o with
  | Push ok d => '(q, b) ← queue_push ok q d; Some (q, Z.b2z b)
  | Pop => queue_pop q
  | IsEmpty => Some (q, Z.b2z (queue_isEmpty q))
  | Clear => Some (queue_clear q, 0)
  | Shuffle rnd => q ← queue_shuffle rnd q; Some (q, 0)
  end.

Definition qlegal (o : qop) : Prop := match o with Shuffle rnd => forall i, 0 <= rnd i | _ => True end.

(** A queue is a list: push at the end (or report that no memory was left), pop from
    the front. *)
Definition qspec (o : qop) (l : list Z) (r : Z) (l' : list Z) : Prop :=
  match o with
  | Push ok d => (r = 1 /\ l' = l ++ [d]) \/ (r = 0 /\ l' = l /\ (ok = false \/ 2 ^ 28 <= Z.of_nat (length l) + 2))
  | Pop => r = default NULL (head l) /\ l' = tail l
  | IsEmpty => r = Z.b2z (bool_decide (l = [])) /\ l' = l
  | Clear => l' = []
  | Shuffle _ => l' ≡ₚ l
  end.

Lemma queue_sim o q l : repr q l -> qlegal o ->
  exists q' r l', qstep o q = Some (q', r) /\ qspec o l r l' /\ repr q' l'.
Proof.
  intros Hr Hl. destruct o as [ok d| | | |rnd]; simpl.
  - destruct (queue_push_spec ok q l d Hr) as (q' & b & -> & Hr' & Hb). exists q', (Z.b2z b), (if b then l ++ [d] else l).
    split_and!; [done| |done]. destruct b; auto 6.
  - destruct (queue_pop_spec q l Hr) as (q' & -> & Hr'). by exists q', (default NULL (head l)), (tail l).
  - exists q, (Z.b2z (queue_isEmpty q)), l. split_and!; [done|by rewrite (queue_isEmpty_spec q l Hr)|done|done].
  - exists (queue_clear q), 0, []. split_and!; [done|done|by eapply queue_clear_repr].
  - destruct (queue_shuffle_spec rnd q l Hr Hl) as (q' & l' & -> & Hr' & Hp). exists q', 0, l'. done.
Qed.

#[export] Instance queue_container : Container queue qop (list Z) :=
  {| cstep := qstep; crepr := repr; clegal := qlegal; cspec := qspec; csim := queue_sim |}.

(** The ring buffer is a queue.  From any successful [queue_alloc], any sequence of
    operations (pushes that find memory or not, pops, tests, clears, shuffles) never
    fails an assertion, never accesses memory outside the array or a value never
    written, and returns what a list returns: first in, first out across every
    wrap-around and every growth, a failed push changes nothing, and a shuffle
    permutes. *)
Theorem stamp_queue_refines ok1 ok2 n q ops :
  n < 2 ^ 30 -> queue_alloc ok1 ok2 n = Some q -> Forall qlegal ops ->
  exists q' rs l, crun ops q = Some (q', rs) /\ cspecs ops [] rs l /\ repr q' l.
Proof. intros Hn Hq Hl. refine (crun_sim ops q ([] : list Z) _ _); [by eapply queue_alloc_repr|done]. Qed.

Definition queue_example : list qop :=
  [Push false 7; Push true 3; Push true 1; Pop; Push true 4; Push true 1; Push true 5; Push true 9; Pop; Pop; IsEmpty; Pop; Pop].

Lemma stamp_queue_refines_witness : exists q q' rs l,
  queue_alloc true true (-1) = Some q /\ crun queue_example q = Some (q', rs) /\ cspecs queue_example [] rs l /\ repr q' l.
Proof.
  eexists. destruct (stamp_queue_refines true true (-1) _ queue_example ltac:(lia) eq_refl) as (q' & rs & l & H).
  - by repeat constructor.
  - exists q', rs, l. split; [reflexivity|exact H].
Defined.

(** The values of that run: 7 finds no memory when the ring must grow. *)
Lemma queue_example_values : (q ← queue_alloc true true (-1); snd <$> crun queue_example q) =
  Some [0; 1; 1; 3; 1; 1; 1; 1; 1; 4; 0; 1; 5].
Proof. vm_compute. reflexivity. Qed.

End Queue.
