(* ===== verification/StampHeap.v ===== *)
(** * The heap of STAMP

    Model of [lib/heap.c]: a binary heap of pointers in an array, root at index 1,
    ordered by the comparison function given at its creation, grown by doubling.  The
    [TM] variants compute the same through transactional accesses. *)

From S2P Require Import Prelude StampArray.

Module Heap.

Record heap := mkHeap {
  elements : cells;
  size : Z;
  capacity : Z
}.

Definition PARENT (i : Z) : Z := Z.quot i 2.
Definition LEFT_CHILD (i : Z) : Z := 2 * i.
Definition RIGHT_CHILD (i : Z) : Z := 2 * i + 1.

(** [Some None] is a [NULL] result, [None] the failed assertion. *)
Definition heap_alloc (ok1 ok2 : bool) (initCapacity : Z) : option (option heap) :=
  if ok1 then
    let capacity := if 0 <? initCapacity then initCapacity else 1 in
    elements ← malloc_array ok2 capacity;
    Some (Some (mkHeap elements 0 capacity))
  else Some None.

Section operations.
Context (compare : Z -> Z -> Z).

(** The loop of [siftUp]; [fuel] bounds the rounds. *)
Fixpoint siftUp_loop (fuel : nat) (elements : cells) (index : Z) : option cells :=
  match fuel with
  | O => None
  | S fuel =>
      if 1 <? index then
        let parentIndex := PARENT index in
        parentPtr ← aread elements parentIndex;
        thisPtr ← aread elements index;
        if 0 <=? compare parentPtr thisPtr then Some elements
        else
          elements ← awrite elements parentIndex thisPtr;
          elements ← awrite elements index parentPtr;
          siftUp_loop fuel elements parentIndex
      else Some elements
  end.

Definition siftUp (h : heap) (startIndex : Z) : option heap :=
  elements ← siftUp_loop (S (Z.to_nat startIndex)) (elements h) startIndex;
  Some (mkHeap elements (size h) (capacity h)).

Definition TMsiftUp := siftUp.

(** The growth at the head of [heap_insert]: [Some None] when no memory is left. *)
Definition heap_reserve (ok : bool) (h : heap) : option (option heap) :=
  if capacity h <=? size h + 1 then
    let newCapacity := s32 (capacity h * 2) in
    match malloc_array ok newCapacity with
    | None => Some None
    | Some newElements =>
        newElements ← copy_cells (Z.to_nat (size h + 1)) (elements h) 0 newElements 0;
        Some (Some (mkHeap newElements (size h) newCapacity))
    end
  else Some (Some h).

Definition heap_insert (ok : bool) (h : heap) (dataPtr : Z) : option (heap * bool) :=
  r ← heap_reserve ok h;
  match r with
  | None => Some (h, false)
  | Some h =>
      let size := size h + 1 in
      elements ← awrite (elements h) size dataPtr;
      h ← siftUp (mkHeap elements size (capacity h)) size;
      Some (h, true)
  end.

Definition TMheap_insert := heap_insert.

(** The index [maxIndex] of one round of [heapify]. *)
Definition max_child (elements : cells) (size index : Z) : option Z :=
  let leftIndex := LEFT_CHILD index in
  let rightIndex := RIGHT_CHILD index in
  maxIndex ← (if leftIndex <=? size then
                l ← aread elements leftIndex; i ← aread elements index;
                Some (if 0 <? compare l i then leftIndex else index)
              else Some index);
  if rightIndex <=? size then
    r ← aread elements rightIndex; m ← aread elements maxIndex;
    Some (if 0 <? compare r m then rightIndex else maxIndex)
  else Some maxIndex.

Fixpoint heapify_loop (fuel : nat) (elements : cells) (size index : Z) : option cells :=
  match fuel with
  | O => None
  | S fuel =>
      maxIndex ← max_child elements size index;
      if maxIndex =? index then Some elements
      else
        tmpPtr ← aread elements index;
        m ← aread elements maxIndex;
        elements ← awrite elements index m;
        elements ← awrite elements maxIndex tmpPtr;
        heapify_loop fuel elements size maxIndex
  end.

Definition heapify (h : heap) (startIndex : Z) : option heap :=
  elements ← heapify_loop (S (Z.to_nat (size h))) (elements h) (size h) startIndex;
  Some (mkHeap elements (size h) (capacity h)).

Definition TMheapify := heapify.

Definition heap_remove (h : heap) : option (heap * Z) :=
  if size h <? 1 then Some (h, NULL)
  else
    dataPtr ← aread (elements h) 1;
    last ← aread (elements h) (size h);
    elements ← awrite (elements h) 1 last;
    h ← heapify (mkHeap elements (size h - 1) (capacity h)) 1;
    Some (h, dataPtr).

(** The transactional version differs in the access macros only; it reads the last
    element directly, outside of them, which a transaction alone does not notice. *)
Definition TMheap_remove := heap_remove.

(** [for (i = 1; i < size; i++)], [k] rounds from [i]. *)
Fixpoint isValid_loop (k : nat) (elements : cells) (i : Z) : option bool :=
  match k with
  | O => Some true
  | S k =>
      c ← aread elements (i + 1);
      p ← aread elements (PARENT (i + 1));
      if 0 <? compare c p then Some false else isValid_loop k elements (i + 1)
  end.

Definition heap_isValid (h : heap) : option bool :=
  isValid_loop (Z.to_nat (size h - 1)) (elements h) 1.

(** ** The values of a heap *)

(** [n] removals, with the pointers they return. *)
Fixpoint drain (n : nat) (h : heap) : option (heap * list Z) :=
  match n with
  | O => Some (h, [])
  | S n => '(h, r) ← heap_remove h; '(h, rs) ← drain n h; Some (h, r :: rs)
  end.

(** The contract of a comparison function: a three-way comparison of a preorder. *)
Definition ge (a b : Z) : Prop := 0 <= compare a b.

Hypothesis cmp_flip : forall a b, compare a b <= 0 <-> ge b a.
Hypothesis cmp_trans : forall a b c, ge a b -> ge b c -> ge a c.

(** The value at index [i], from 1. *)
Definition val (xs : list Z) (i : Z) : Z := default 0 (xs !! Z.to_nat (i - 1)).

(** The cells from 1 on hold [xs]. *)
Definition holds (a : cells) (xs : list Z) : Prop :=
  forall i, 1 <= i <= Z.of_nat (length xs) -> acell a i = Some (Some (val xs i)).

Definition heap_ok (xs : list Z) : Prop :=
  forall i, 1 < i <= Z.of_nat (length xs) -> ge (val xs (PARENT i)) (val xs i).

(** Heap order but between [index] and its parent; its children are in order with
    its parent. *)
Definition up_ok (xs : list Z) (index : Z) : Prop :=
  (forall i, 1 < i <= Z.of_nat (length xs) -> i <> index -> ge (val xs (PARENT i)) (val xs i)) /\
  (forall i, 1 < i <= Z.of_nat (length xs) -> PARENT i = index -> 1 < index -> ge (val xs (PARENT index)) (val xs i)).

(** Heap order but between [index] and its children. *)
Definition down_ok (xs : list Z) (index : Z) : Prop :=
  (forall i, 1 < i <= Z.of_nat (length xs) -> PARENT i <> index -> ge (val xs (PARENT i)) (val xs i)) /\
  (forall i, 1 < i <= Z.of_nat (length xs) -> PARENT i = index -> 1 < index -> ge (val xs (PARENT index)) (val xs i)).

Lemma PARENT_bounds i : 1 < i -> 1 <= PARENT i < i.
Proof. intros Hi. unfold PARENT. rewrite Z.quot_div_nonneg by lia. mlia. Qed.

Lemma PARENT_child i j : 1 < i -> PARENT i = j <-> i = LEFT_CHILD j \/ i = RIGHT_CHILD j.
Proof. intros Hi. unfold PARENT, LEFT_CHILD, RIGHT_CHILD. rewrite Z.quot_div_nonneg by lia. mlia. Qed.

Lemma ge_refl a : ge a a.
Proof. destruct (Z.le_gt_cases (compare a a) 0) as [H|H]; [by apply cmp_flip|unfold ge; lia]. Qed.

Definition swap_vals (i j : Z) (xs : list Z) : list Z := swap (Z.to_nat (i - 1)) (Z.to_nat (j - 1)) xs.

Lemma val_swap i j xs k :
  1 <= i <= Z.of_nat (length xs) -> 1 <= j <= Z.of_nat (length xs) -> 1 <= k ->
  val (swap_vals i j xs) k = val xs (if decide (k = j) then i else if decide (k = i) then j else k).
Proof.
  intros Hi Hj Hk. unfold val, swap_vals. rewrite lookup_swap by lia. repeat case_decide; try lia; done.
Qed.

Lemma read_val a xs i : holds a xs -> 1 <= i <= Z.of_nat (length xs) -> aread a i = Some (val xs i).
Proof. intros Hh Hi. apply aread_cell. by apply Hh. Qed.

Lemma holds_length a xs i : holds a xs -> 1 <= i <= Z.of_nat (length xs) -> 0 <= i < Z.of_nat (length a).
Proof. intros Hh Hi. by eapply acell_bound, Hh. Qed.

(** The exchange both loops make. *)
Lemma exchange a xs i j :
  holds a xs -> 1 <= i <= Z.of_nat (length xs) -> 1 <= j <= Z.of_nat (length xs) ->
  exists a1 a2, awrite a i (val xs j) = Some a1 /\ awrite a1 j (val xs i) = Some a2 /\
    length a2 = length a /\ holds a2 (swap_vals i j xs) /\ swap_vals i j xs ≡ₚ xs.
Proof.
  intros Hh Hi Hj. pose proof (holds_length _ _ _ Hh Hi). pose proof (holds_length _ _ _ Hh Hj).
  destruct (aset_in a i (Some (val xs j))) as (a1 & H1 & Hl1 & Hg1); [lia|].
  destruct (aset_in a1 j (Some (val xs i))) as (a2 & H2 & Hl2 & Hg2); [lia|].
  exists a1, a2. split_and!; [done|done|congruence| |apply swap_perm; lia].
  intros k Hk. unfold swap_vals in Hk. rewrite length_swap in Hk. rewrite Hg2, Hg1, val_swap by lia.
  repeat case_decide; try done. by apply Hh.
Qed.

Lemma up_ok_swap xs index :
  1 < index <= Z.of_nat (length xs) -> up_ok xs index -> ge (val xs index) (val xs (PARENT index)) ->
  up_ok (swap_vals (PARENT index) index xs) (PARENT index).
Proof.
  intros Hi [Hu1 Hu2] Hup. pose proof (PARENT_bounds index ltac:(lia)) as Hp.
  assert (Hlen : length (swap_vals (PARENT index) index xs) = length xs) by apply length_swap.
  set (p := PARENT index) in *. split; intros i Hir; rewrite Hlen in Hir; pose proof (PARENT_bounds i ltac:(lia)) as Hpi.
  - intros Hne. rewrite !val_swap by lia. destruct (decide (i = index)) as [-> |Hni].
    { fold p. by rewrite decide_False, decide_True by lia. }
    rewrite (decide_False (P := i = p)) by done. repeat case_decide.
    + apply Hu2; lia.
    + apply (cmp_trans _ (val xs p)); [done|]. replace p with (PARENT i). by apply Hu1.
    + by apply Hu1.
  - intros Hpar H1. pose proof (PARENT_bounds p ltac:(lia)) as Hpp. rewrite !val_swap by lia.
    assert (Hg : ge (val xs (PARENT p)) (val xs p)) by (apply Hu1; lia).
    repeat case_decide; try lia; [done|]. apply (cmp_trans _ (val xs p)); [done|]. rewrite <- Hpar. apply Hu1; lia.
Qed.

Lemma siftUp_loop_spec fuel : forall a xs index,
  (Z.to_nat index < fuel)%nat -> holds a xs -> 1 <= index <= Z.of_nat (length xs) -> up_ok xs index ->
  exists a' xs', siftUp_loop fuel a index = Some a' /\ length a' = length a /\ holds a' xs' /\ xs' ≡ₚ xs /\ heap_ok xs'.
Proof.
  induction fuel as [|fuel IH]; intros a xs index Hf Hh Hi [Hu1 Hu2]; [lia|]. simpl. destruct (Z.ltb_spec 1 index) as [H1|H1].
  2: { exists a, xs. split_and!; try done. intros i Hir. apply Hu1; lia. }
  pose proof (PARENT_bounds index H1) as Hp.
  rewrite (read_val a xs), (read_val a xs) by (done || lia). cbn [mbind option_bind].
  destruct (Z.leb_spec 0 (compare (val xs (PARENT index)) (val xs index))) as [Hge|Hlt].
  { exists a, xs. split_and!; try done. intros i Hir. destruct (decide (i = index)) as [-> |]; [done|by apply Hu1]. }
  destruct (exchange a xs (PARENT index) index) as (a1 & a2 & H2 & H3 & Hl & Hh2 & Hperm); [done|lia|done|].
  rewrite H2. cbn [mbind option_bind]. rewrite H3. cbn [mbind option_bind].
  assert (Hlen : length (swap_vals (PARENT index) index xs) = length xs) by apply length_swap.
  destruct (IH a2 (swap_vals (PARENT index) index xs) (PARENT index)) as (a' & xs' & Hs & Hl' & Hh' & Hp' & Hok); [lia|done|lia| |].
  - apply up_ok_swap; [lia|done|]. apply cmp_flip. lia.
  - exists a', xs'. split_and!; try done; [congruence|by rewrite Hp'].
Qed.

(** What a round of [heapify] finds: [index] itself when it dominates its children,
    else the child that dominates both. *)
Lemma max_child_spec a xs index :
  holds a xs -> 1 <= index <= Z.of_nat (length xs) ->
  exists m, max_child a (Z.of_nat (length xs)) index = Some m /\
    (m = index \/ (index < m <= Z.of_nat (length xs) /\ PARENT m = index)) /\
    ge (val xs m) (val xs index) /\
    forall i, 1 < i <= Z.of_nat (length xs) -> PARENT i = index -> ge (val xs m) (val xs i).
Proof.
  intros Hh Hi. unfold max_child.
  set (n := Z.of_nat (length xs)) in *. set (l := LEFT_CHILD index). set (r := RIGHT_CHILD index).
  assert (Hlr : l = 2 * index /\ r = 2 * index + 1) by done.
  assert (Hrd : forall i, 1 <= i <= n -> aread a i = Some (val xs i)) by (intros; by apply read_val).
  assert (Hfirst : exists m1, (if l <=? n then x ← aread a l; i ← aread a index; Some (if 0 <? compare x i then l else index)
      else Some index) = Some m1 /\ (m1 = index \/ (m1 = l /\ l <= n)) /\ ge (val xs m1) (val xs index) /\
      (l <= n -> ge (val xs m1) (val xs l))).
  { destruct (Z.leb_spec l n); [|exists index; split_and!; [done|by left|apply ge_refl|lia]].
    rewrite !Hrd by lia. cbn [mbind option_bind]. destruct (Z.ltb_spec 0 (compare (val xs l) (val xs index))).
    - exists l. split_and!; [done|by right|unfold ge; lia|intros; apply ge_refl].
    - exists index. split_and!; [done|by left|apply ge_refl|intros; by apply cmp_flip]. }
  destruct Hfirst as (m1 & -> & Hm1 & Hg1 & Hl1). cbn [mbind option_bind].
  assert (Hch : forall i, 1 < i -> PARENT i = index -> i = l \/ i = r) by (intros i ? ?; by apply PARENT_child).
  destruct (Z.leb_spec r n).
  - rewrite !Hrd by lia. cbn [mbind option_bind]. destruct (Z.ltb_spec 0 (compare (val xs r) (val xs m1))) as [Hc|Hc].
    + assert (Hrm : ge (val xs r) (val xs m1)) by (unfold ge; lia). exists r. split_and!; [done| | |].
      * right. split; [lia|]. apply PARENT_child; [lia|by right].
      * by eapply cmp_trans.
      * intros i Hir Hp. destruct (Hch i ltac:(lia) Hp) as [-> | ->]; [|apply ge_refl]. eapply cmp_trans; [done|]. apply Hl1. lia.
    + exists m1. split_and!; [done| |done|].
      * destruct Hm1 as [? |[-> ?]]; [by left|right]. split; [lia|]. apply PARENT_child; [lia|by left].
      * intros i Hir Hp. destruct (Hch i ltac:(lia) Hp) as [-> | ->]; [apply Hl1; lia|by apply cmp_flip].
  - exists m1. split_and!; [done| |done|].
    + destruct Hm1 as [? |[-> ?]]; [by left|right]. split; [lia|]. apply PARENT_child; [lia|by left].
    + intros i Hir Hp. destruct (Hch i ltac:(lia) Hp) as [-> | ->]; [apply Hl1; lia|lia].
Qed.

Lemma down_ok_swap xs index m :
  1 <= index -> index < m <= Z.of_nat (length xs) -> PARENT m = index -> down_ok xs index ->
  ge (val xs m) (val xs index) ->
  (forall i, 1 < i <= Z.of_nat (length xs) -> PARENT i = index -> ge (val xs m) (val xs i)) ->
  down_ok (swap_vals index m xs) m.
Proof.
  intros Hi Hm Hpm [Hd1 Hd2] Hg Hch.
  assert (Hlen : length (swap_vals index m xs) = length xs) by apply length_swap.
  split; intros i Hir; rewrite Hlen in Hir; pose proof (PARENT_bounds i ltac:(lia)) as Hpi.
  - intros Hne. rewrite !val_swap by lia. rewrite (decide_False (P := PARENT i = m)) by done.
    repeat case_decide; try lia; try subst i; try done.
    + by apply Hch.
    + apply Hd2; lia.
    + by apply Hd1.
  - intros Hpar H1. rewrite !val_swap, Hpm by lia. repeat case_decide; try lia.
    rewrite <- Hpar. apply Hd1; lia.
Qed.

Lemma heapify_loop_spec fuel : forall a xs index,
  (Z.to_nat (Z.of_nat (length xs) - index) < fuel)%nat -> holds a xs -> 1 <= index <= Z.of_nat (length xs) -> down_ok xs index ->
  exists a' xs', heapify_loop fuel a (Z.of_nat (length xs)) index = Some a' /\ length a' = length a /\
    holds a' xs' /\ xs' ≡ₚ xs /\ heap_ok xs'.
Proof.
  induction fuel as [|fuel IH]; intros a xs index Hf Hh Hi Hd; [lia|]. simpl.
  destruct (max_child_spec a xs index Hh Hi) as (m & -> & Hm & Hg & Hch). cbn [mbind option_bind].
  destruct (Z.eqb_spec m index) as [-> |Hne].
  { exists a, xs. split_and!; try done. intros i Hir. destruct (decide (PARENT i = index)) as [Hp|Hp]; [rewrite Hp; by apply Hch|].
    by apply (proj1 Hd). }
  destruct Hm as [|[Hm Hp]]; [done|]. rewrite (read_val a xs), (read_val a xs) by (done || lia). cbn [mbind option_bind].
  destruct (exchange a xs index m) as (a1 & a2 & H2 & H3 & Hl & Hh2 & Hperm); [done|done|lia|].
  rewrite H2. cbn [mbind option_bind]. rewrite H3. cbn [mbind option_bind].
  assert (Hlen : length (swap_vals index m xs) = length xs) by apply length_swap. rewrite <- Hlen.
  destruct (IH a2 (swap_vals index m xs) m) as (a' & xs' & Hs & Hl' & Hh' & Hp' & Hok); [lia|done|lia| |].
  - apply down_ok_swap; (done || lia).
  - exists a', xs'. split_and!; try done; [congruence|by rewrite Hp'].
Qed.

(** The root of a heap dominates it. *)
Lemma root_max xs : heap_ok xs -> forall k i, i <= Z.of_nat k -> 1 <= i <= Z.of_nat (length xs) -> ge (val xs 1) (val xs i).
Proof.
  intros Hok. induction k as [|k IH]; intros i Hik Hi; [lia|].
  destruct (decide (i = 1)) as [-> |]; [apply ge_refl|]. pose proof (PARENT_bounds i ltac:(lia)) as Hp.
  eapply cmp_trans; [apply (IH (PARENT i)); lia|]. apply Hok. lia.
Qed.

(** ** What the heap represents: a bag of pointers *)

Definition repr (h : heap) (l : list Z) : Prop :=
  exists xs, xs ≡ₚ l /\ holds (elements h) xs /\ heap_ok xs /\ size h = Z.of_nat (length xs) /\
    Z.of_nat (length (elements h)) = capacity h /\ size h < capacity h < 2 ^ 29.

Lemma heap_alloc_repr ok1 ok2 n h : n < 2 ^ 30 -> heap_alloc ok1 ok2 n = Some (Some h) -> repr h [].
Proof.
  intros Hn Hh. unfold heap_alloc in Hh. destruct ok1; [|done].
  destruct (malloc_array ok2 _) as [els|] eqn:Em; [|done]. cbn [mbind option_bind] in Hh. simplify_eq.
  apply malloc_array_small in Em; [|case_match; lia]. destruct Em as [Hlen Hlt].
  exists []. unfold holds, heap_ok. simpl. split_and!; try done; try (intros; lia). destruct (0 <? n) eqn:E; lia.
Qed.

Lemma holds_ext a a' xs : holds a xs -> (forall i, 1 <= i <= Z.of_nat (length xs) -> acell a' i = acell a i) -> holds a' xs.
Proof. intros Hh He i Hi. rewrite He by done. by apply Hh. Qed.

Lemma val_app xs d i : 1 <= i <= Z.of_nat (length xs) + 1 ->
  val (xs ++ [d]) i = if decide (i = Z.of_nat (length xs) + 1) then d else val xs i.
Proof.
  intros Hi. unfold val. case_decide; [|by rewrite lookup_app_l by lia].
  subst i. replace (Z.to_nat (Z.of_nat (length xs) + 1 - 1)) with (length xs) by lia. by rewrite list_lookup_middle.
Qed.

Lemma heap_reserve_spec ok h l : repr h l ->
  (exists h', heap_reserve ok h = Some (Some h') /\ repr h' l /\ size h' + 1 < capacity h') \/
  (heap_reserve ok h = Some None /\ (ok = false \/ 2 ^ 28 <= Z.of_nat (length l) + 1)).
Proof.
  intros (xs & Hp & Hh & Hok & Hs & Hlen & Hc). unfold heap_reserve.
  destruct (Z.leb_spec (capacity h) (size h + 1)); [|left; exists h; split_and!; [done|by exists xs|lia]].
  rewrite s32_small by lia. destruct (malloc_array ok (capacity h * 2)) as [new|] eqn:Em.
  - left. apply malloc_array_small in Em as [Hln Hbd]; [|lia].
    destruct (copy_cells_spec (Z.to_nat (size h + 1)) (elements h) 0 new 0) as (n1 & -> & Hl1 & Hg1); [lia..|]. cbn [mbind option_bind].
    eexists. split_and!; [done| |simpl; lia]. exists xs. simpl. split_and!; try done; try lia.
    apply (holds_ext (elements h)); [done|]. intros i Hi. rewrite Hg1, decide_True by lia. f_equal. lia.
  - right. split; [done|]. apply Permutation_length in Hp. apply malloc_array_fails in Em as [?|?]; [by left|right|]; lia.
Qed.

Lemma heap_insert_spec ok h l d : repr h l ->
  exists h' b, heap_insert ok h d = Some (h', b) /\ repr h' (if b : bool then d :: l else l) /\
    (b = false -> ok = false \/ 2 ^ 28 <= Z.of_nat (length l) + 1).
Proof.
  intros Hr. unfold heap_insert. destruct (heap_reserve_spec ok h l Hr) as [(h1 & -> & Hr1 & Hc1)|[-> Hf]]; cbn [mbind option_bind].
  2: { by exists h, false. }
  destruct Hr1 as (xs & Hp & Hh & Hok & Hs & Hlen & Hc).
  destruct (aset_in (elements h1) (size h1 + 1) (Some d)) as (a1 & H1 & Hl1 & Hg1); [lia|]. unfold awrite. rewrite H1. cbn [mbind option_bind].
  assert (Hlx : Z.of_nat (length (xs ++ [d])) = size h1 + 1) by (rewrite length_app; simpl; lia).
  destruct (siftUp_loop_spec (S (Z.to_nat (size h1 + 1))) a1 (xs ++ [d]) (size h1 + 1)) as (a2 & ys & H2 & Hl2 & Hh2 & Hp2 & Hok2).
  - lia.
  - intros i Hi. rewrite Hg1, val_app by lia. repeat case_decide; try lia; try done. apply Hh. lia.
  - lia.
  - split; intros i Hi; rewrite Hlx in Hi; pose proof (PARENT_bounds i ltac:(lia)).
    + intros Hne. rewrite !val_app, !decide_False by lia. apply Hok. lia.
    + lia.
  - unfold siftUp. cbn [size elements capacity]. rewrite H2. cbn [mbind option_bind].
    eexists _, true. split_and!; [done| |done]. exists ys. pose proof (Permutation_length Hp2) as Hpl.
    split_and!; try done; simpl; try lia. by rewrite Hp2, Permutation_app_comm, Hp.
Qed.

Lemma val_cons x xs i : 1 <= i -> val (x :: xs) (i + 1) = val xs i.
Proof. intros Hi. unfold val. replace (Z.to_nat (i + 1 - 1)) with (S (Z.to_nat (i - 1))) by lia. done. Qed.

(** The last element in the place of the first. *)
Lemma move_last x z ys i : 1 < i <= Z.of_nat (length ys) + 1 -> val (z :: ys) i = val (x :: ys ++ [z]) i.
Proof.
  intros Hi. replace i with (i - 1 + 1) by lia. rewrite !val_cons by lia. rewrite val_app, decide_False by lia. done.
Qed.

Lemma heap_remove_spec h l : repr h l ->
  exists h' r l', heap_remove h = Some (h', r) /\ repr h' l' /\
    ((l = [] /\ r = NULL /\ l' = []) \/ (l ≡ₚ r :: l' /\ forall x, x ∈ l -> ge r x)).
Proof.
  intros (xs & Hp & Hh & Hok & Hs & Hlen & Hc). unfold heap_remove. destruct (Z.ltb_spec (size h) 1) as [Hz|Hz].
  { exists h, NULL, []. assert (xs = []) as -> by (apply length_zero_iff_nil; lia). apply Permutation_nil in Hp as ->.
    split_and!; [done|exists []; split_and!; (done || lia)|by left]. }
  assert (Hmax : forall x, x ∈ l -> ge (val xs 1) x).
  { intros x Hx. rewrite <- Hp in Hx. apply list_elem_of_lookup in Hx as [k Hk]. pose proof (lookup_lt_Some _ _ _ Hk).
    replace x with (val xs (Z.of_nat k + 1)); [|unfold val; replace (Z.to_nat (Z.of_nat k + 1 - 1)) with k by lia; by rewrite Hk].
    apply (root_max xs Hok (S k)); lia. }
  rewrite (read_val (elements h) xs 1), (read_val (elements h) xs (size h)) by (done || lia). cbn [mbind option_bind].
  destruct (aset_in (elements h) 1 (Some (val xs (size h)))) as (a1 & H1 & Hl1 & Hg1); [lia|].
  unfold awrite. rewrite H1. cbn [mbind option_bind]. destruct xs as [|x rest]; [simpl in Hs; lia|].
  destruct (decide (rest = [])) as [-> |Hne].
  - simpl in Hs. unfold heapify, heapify_loop, max_child, LEFT_CHILD, RIGHT_CHILD. cbn [size elements capacity].
    rewrite Hs. simpl. eexists _, x, []. split_and!; [done| |right; split; [done|]].
    + exists []. unfold holds, heap_ok. simpl. split_and!; try done; intros; lia.
    + done.
  - apply exists_last in Hne as (ys & z & ->).
    assert (Hz' : val (x :: ys ++ [z]) (size h) = z).
    { rewrite Hs. simpl length. rewrite length_app. simpl. replace (Z.of_nat (S (length ys + 1))) with (Z.of_nat (length ys) + 1 + 1) by lia.
      rewrite val_cons, val_app by lia. by rewrite decide_True. }
    assert (Hlx : Z.of_nat (length (z :: ys)) = size h - 1) by (rewrite Hs; simpl; rewrite length_app; simpl; lia).
    assert (Hly : size h - 1 = Z.of_nat (length ys) + 1) by (rewrite <- Hlx; simpl; lia).
    destruct (heapify_loop_spec (S (Z.to_nat (size h - 1))) a1 (z :: ys) 1) as (a2 & zs & H2 & Hl2 & Hh2 & Hp2 & Hok2).
    + lia.
    + intros i Hi. rewrite Hg1, Hz'. case_decide; [by subst|]. rewrite (move_last x) by lia. apply Hh. lia.
    + lia.
    + split; [|lia]. intros i Hi Hpi. pose proof (PARENT_bounds i ltac:(lia)). rewrite (move_last x z ys i), (move_last x z ys (PARENT i)) by lia. apply Hok. lia.
    + unfold heapify. cbn [size elements capacity]. rewrite Hlx in H2. rewrite H2. cbn [mbind option_bind].
      eexists _, x, (z :: ys). split_and!; [done| |right; split; [|done]].
      * exists zs. pose proof (Permutation_length Hp2) as Hpl. split_and!; try done; simpl in *; lia.
      * rewrite <- Hp. by rewrite Permutation_app_comm.
Qed.

Lemma heap_isValid_spec h l : repr h l -> heap_isValid h = Some true.
Proof.
  intros (xs & Hp & Hh & Hok & Hs & _). unfold heap_isValid.
  enough (H : forall k i, 1 <= i -> i + Z.of_nat k <= Z.of_nat (length xs) -> isValid_loop k (elements h) i = Some true).
  { destruct (Z.leb_spec (size h) 1); [by replace (Z.to_nat (size h - 1)) with O by lia|]. apply H; lia. }
  induction k as [|k IH]; intros i Hi Hik; [done|]. simpl. pose proof (PARENT_bounds (i + 1) ltac:(lia)).
  rewrite (read_val (elements h) xs (i + 1)), (read_val (elements h) xs (PARENT (i + 1))) by (done || lia).
  cbn [mbind option_bind]. specialize (Hok (i + 1) ltac:(lia)). apply cmp_flip in Hok.
  rewrite (proj2 (Z.ltb_ge _ _) Hok). apply IH; lia.
Qed.

(** ** The container *)

Inductive hop := Insert (ok : bool) (dataPtr : Z) | Remove | IsValid.

Definition hstep (o : hop) (h : heap) : option (heap * Z) :=
  match o with
  | Insert ok d => '(h, b) ← heap_insert ok h d; Some (h, Z.b2z b)
  | Remove => heap_remove h
  | IsValid => b ← heap_isValid h; Some (h, Z.b2z b)
  end.

(** A priority queue: removal returns an element that no other one exceeds. *)
Definition hspec (o : hop) (l : list Z) (r : Z) (l' : list Z) : Prop :=
  match o with
  | Insert ok d => (r = 1 /\ l' = d :: l) \/ (r = 0 /\ l' = l /\ (ok = false \/ 2 ^ 28 <= Z.of_nat (length l) + 1))
  | Remove => (l = [] /\ r = NULL /\ l' = []) \/ (l ≡ₚ r :: l' /\ forall x, x ∈ l -> ge r x)
  | IsValid => r = 1 /\ l' = l
  end.

Lemma heap_sim o h l : repr h l -> True ->
  exists h' r l', hstep o h = Some (h', r) /\ hspec o l r l' /\ repr h' l'.
Proof.
  intros Hr _. destruct o as [ok d| |]; simpl.
  - destruct (heap_insert_spec ok h l d Hr) as (h' & b & -> & Hr' & Hb). exists h', (Z.b2z b), (if b then d :: l else l).
    split_and!; [done| |done]. destruct b; auto 6.
  - destruct (heap_remove_spec h l Hr) as (h' & r & l' & -> & Hr' & Hsp). by exists h', r, l'.
  - rewrite (heap_isValid_spec h l Hr). by exists h, 1, l.
Qed.

(** Removing everything returns the elements in order. *)
Lemma drain_sorted n : forall h l, repr h l -> n = length l ->
  exists h' ds, drain n h = Some (h', ds) /\ ds ≡ₚ l /\ StronglySorted ge ds /\ repr h' [].
Proof.
  induction n as [|n IH]; intros h l Hr Hn; simpl.
  - destruct l; [|done]. exists h, []. split_and!; [done|done|constructor|done].
  - destruct (heap_remove_spec h l Hr) as (h1 & r & l1 & -> & Hr1 & [(-> & _)|[Hp Hmax]]); [done|]. cbn [mbind option_bind].
    destruct (IH h1 l1 Hr1) as (h2 & ds & -> & Hp2 & Hs & Hr2); [apply Permutation_length in Hp; simpl in Hp; lia|].
    cbn [mbind option_bind]. exists h2, (r :: ds). split_and!; [done|by rewrite Hp2|constructor; [done|]|done].
    apply Forall_forall. intros x Hx. apply Hmax. rewrite Hp, <- Hp2. by right.
Qed.

End operations.

(** The container, for a comparison function that is one. *)
Section container.
Context (compare : Z -> Z -> Z).
Context (cmp_flip : forall a b, compare a b <= 0 <-> ge compare b a).
Context (cmp_trans : forall a b c, ge compare a b -> ge compare b c -> ge compare a c).

Definition heap_container : Container heap hop (list Z) :=
  {| cstep := hstep compare; crepr := repr compare; clegal := fun _ => True; cspec := hspec compare;
     csim := heap_sim compare cmp_flip cmp_trans |}.

(** C16: the heap is a priority queue.  For every comparison function that is a
    three-way comparison, from any successful [heap_alloc], any sequence of insertions
    and removals ends, never accesses memory outside the array or a value never
    written, keeps [heap_isValid] true, and removes an element that no other one
    exceeds; removing all that is left returns it in descending order. *)
Theorem stamp_heap_refines ok1 ok2 n h ops :
  n < 2 ^ 30 -> heap_alloc ok1 ok2 n = Some (Some h) ->
  exists h' rs l, @crun _ _ _ heap_container ops h = Some (h', rs) /\ @cspecs _ _ _ heap_container ops [] rs l /\
    heap_isValid compare h' = Some true /\
    exists h'' ds, drain compare (length l) h' = Some (h'', ds) /\ ds ≡ₚ l /\ StronglySorted (ge compare) ds.
Proof.
  intros Hn Hh. pose proof (heap_alloc_repr compare ok1 ok2 n h Hn Hh) as Hr.
  destruct (@crun_sim _ _ _ heap_container ops h [] Hr) as (h' & rs & l & H1 & H2 & H3); [by apply Forall_true|].
  exists h', rs, l. split_and!; [done|done|by apply (heap_isValid_spec compare cmp_flip h' l)|].
  destruct (drain_sorted compare cmp_flip cmp_trans (length l) h' l H3 eq_refl) as (h'' & ds & H4 & H5 & H6 & _). eauto.
Qed.
End container.

(** Pointers compared by their addresses. *)
Definition by_address (a b : Z) : Z := a - b.

Definition heap_example : list hop := [Insert true 3; Insert true 1; Insert true 4; Insert true 1; Remove; Insert true 5].

Lemma by_address_flip a b : by_address a b <= 0 <-> ge by_address b a.
Proof. unfold ge, by_address. lia. Qed.

Lemma by_address_trans a b c : ge by_address a b -> ge by_address b c -> ge by_address a c.
Proof. unfold ge, by_address. lia. Qed.

Lemma stamp_heap_refines_witness : exists h h' rs l,
  heap_alloc true true 1 = Some (Some h) /\
  @crun _ _ _ (heap_container by_address by_address_flip by_address_trans) heap_example h = Some (h', rs) /\
  heap_isValid by_address h' = Some true /\
  exists h'' ds, drain by_address (length l) h' = Some (h'', ds) /\ ds ≡ₚ l /\ StronglySorted (ge by_address) ds.
Proof.
  eexists. destruct (stamp_heap_refines by_address by_address_flip by_address_trans true true 1 _ heap_example ltac:(lia) eq_refl)
    as (h' & rs & l & H1 & _ & H2 & H3).
  exists h', rs, l. by split_and!.
Defined.

Lemma heap_example_values :
  (r ← heap_alloc true true 1; h ← r;
   '(h, rs) ← @crun _ _ _ (heap_container by_address by_address_flip by_address_trans) heap_example h;
   '(_, ds) ← drain by_address 4 h; Some (rs, ds)) = Some ([1; 1; 1; 1; 4; 1], [5; 3; 1; 1]).
Proof. vm_compute. reflexivity. Qed.

End Heap.
