(* ===== verification/StampBitmap.v ===== *)
(** * The bitmap of STAMP

    Model of [lib/bitmap.c] on i386, where [ulong_t] has 32 bits: an array of words,
    with bounds-checked access to single bits, searches, counts and a complement. *)

From S2P Require Import Prelude StampArray.

Module Bitmap.

Definition NUM_BIT_PER_WORD : Z := 32.

Record bitmap := mkBitmap {
  numBit : Z;
  numWord : Z;
  bits : list Z
}.

Definition DIVIDE_AND_ROUND_UP (a b : Z) : Z := Z.quot a b + (if 0 <? Z.rem a b then 1 else 0).

(** [malloc] then [memset] to 0; [ok1], [ok2]: whether memory is left. *)
Definition bitmap_alloc (ok1 ok2 : bool) (n : Z) : option bitmap :=
  if ok1 then
    let numWord := DIVIDE_AND_ROUND_UP n NUM_BIT_PER_WORD in
    match malloc_array ok2 numWord with
    | None => None
    | Some words => Some (mkBitmap n numWord (replicate (length words) 0))
    end
  else None.

Definition Pbitmap_alloc := bitmap_alloc.

(** [(1 << (i % NUM_BIT_PER_WORD))], an [int], converted to [ulong_t]. *)
Definition bit_mask (i : Z) : Z := u32 (s32 (Z.shiftl 1 (Z.rem i NUM_BIT_PER_WORD))).

(** [bits[i/NUM_BIT_PER_WORD]]; [None] outside the array. *)
Definition word_of (m : bitmap) (i : Z) : option Z := bits m !! Z.to_nat (Z.quot i NUM_BIT_PER_WORD).

Definition in_range (m : bitmap) (i : Z) : bool := (0 <=? i) && (i <? numBit m).

Definition set_word (m : bitmap) (i w : Z) : bitmap :=
  mkBitmap (numBit m) (numWord m) (<[Z.to_nat (Z.quot i NUM_BIT_PER_WORD) := w]> (bits m)).

Definition bitmap_set (m : bitmap) (i : Z) : option (bitmap * bool) :=
  if negb (in_range m i) then Some (m, false)
  else w ← word_of m i; Some (set_word m i (Z.lor w (bit_mask i)), true).

(** [&= ~(1 << ...)]: the complement at the width of the word. *)
Definition bitmap_clear (m : bitmap) (i : Z) : option (bitmap * bool) :=
  if negb (in_range m i) then Some (m, false)
  else w ← word_of m i; Some (set_word m i (Z.land w (u32 (Z.lnot (bit_mask i)))), true).

Definition bitmap_clearAll (m : bitmap) : bitmap :=
  mkBitmap (numBit m) (numWord m) (replicate (Z.to_nat (numWord m)) 0 ++ drop (Z.to_nat (numWord m)) (bits m)).

(** Whether the bit is set, without the bounds check. *)
Definition bit_at (m : bitmap) (i : Z) : option bool :=
  w ← word_of m i; Some (negb (Z.land w (bit_mask i) =? 0)).

Definition bitmap_isClear (m : bitmap) (i : Z) : option bool :=
  if in_range m i then b ← bit_at m i; Some (negb b) else Some false.

Definition bitmap_isSet (m : bitmap) (i : Z) : option bool :=
  if in_range m i then bit_at m i else Some false.

(** The search loops: [k] rounds from [i] for a bit equal to [want]. *)
Fixpoint find_loop (k : nat) (want : bool) (m : bitmap) (i : Z) : option Z :=
  match k with
  | O => Some (-1)
  | S k => b ← bit_at m i; if eqb b want then Some i else find_loop k want m (i + 1)
  end.

Definition bitmap_findClear (m : bitmap) (startIndex : Z) : option Z :=
  let i := Z.max startIndex 0 in find_loop (Z.to_nat (numBit m - i)) false m i.

Definition bitmap_findSet (m : bitmap) (startIndex : Z) : option Z :=
  let i := Z.max startIndex 0 in find_loop (Z.to_nat (numBit m - i)) true m i.

(** The counting loop, with [1UL] as the mask's base. *)
Fixpoint count_loop (k : nat) (m : bitmap) (i count : Z) : option Z :=
  match k with
  | O => Some count
  | S k =>
      w ← word_of m i;
      count_loop k m (i + 1)
        (if Z.land w (u32 (Z.shiftl 1 (Z.rem i NUM_BIT_PER_WORD))) =? 0 then count else count + 1)
  end.

Definition bitmap_getNumSet (m : bitmap) : option Z := count_loop (Z.to_nat (numBit m)) m 0 0.

Definition bitmap_getNumClear (m : bitmap) : option Z := n ← bitmap_getNumSet m; Some (numBit m - n).

(** [None] when the assertion fails. *)
Definition bitmap_copy (dst src : bitmap) : option bitmap :=
  if numBit dst =? numBit src then
    Some (mkBitmap (numBit dst) (numWord dst)
      (take (Z.to_nat (numWord dst)) (bits src) ++ drop (Z.to_nat (numWord dst)) (bits dst)))
  else None.

(** [bits[w] ^= (ulong_t)(-1L)] for every word. *)
Definition bitmap_toggleAll (m : bitmap) : bitmap :=
  mkBitmap (numBit m) (numWord m)
    (((fun w => Z.lxor w (u32 (-1))) <$> take (Z.to_nat (numWord m)) (bits m)) ++ drop (Z.to_nat (numWord m)) (bits m)).

(** ** What the bitmap represents: the list of its bits *)

Definition bitv (m : bitmap) (i : Z) : option bool :=
  w ← bits m !! Z.to_nat (i / 32); Some (Z.testbit w (i mod 32)).

Definition repr (m : bitmap) (bs : list bool) : Prop :=
  numBit m = Z.of_nat (length bs) /\ numWord m = Z.of_nat (length (bits m)) /\
  numWord m = (numBit m + 31) / 32 /\ Forall (fun w => 0 <= w < 2 ^ 32) (bits m) /\
  forall i, 0 <= i < numBit m -> bitv m i = bs !! Z.to_nat i.

Lemma u32_s32 x : u32 (s32 x) = u32 x.
Proof. unfold u32, s32, sN. simpl. mlia. Qed.

Lemma shift_mask i : 0 <= i -> u32 (Z.shiftl 1 (Z.rem i NUM_BIT_PER_WORD)) = 2 ^ (i mod 32).
Proof.
  intros Hi. unfold NUM_BIT_PER_WORD. rewrite Z.rem_mod_nonneg, Z.shiftl_1_l by lia. apply u32_small.
  pose proof (Z.mod_pos_bound i 32 ltac:(lia)). split; [lia|]. apply Z.pow_lt_mono_r; lia.
Qed.

Lemma bit_mask_pow i : 0 <= i -> bit_mask i = 2 ^ (i mod 32).
Proof. intros Hi. unfold bit_mask. rewrite u32_s32. by apply shift_mask. Qed.

Lemma land_pow_zero w k : 0 <= k -> (Z.land w (2 ^ k) =? 0) = negb (Z.testbit w k).
Proof.
  intros Hk. destruct (Z.testbit w k) eqn:E; simpl.
  - apply Z.eqb_neq. intros H. assert (Hf : Z.testbit (Z.land w (2 ^ k)) k = false) by by rewrite H, Z.testbit_0_l.
    by rewrite Z.land_spec, E, Z.pow2_bits_true in Hf by done.
  - apply Z.eqb_eq, Z.bits_inj'. intros n Hn. rewrite Z.land_spec, Z.testbit_0_l.
    destruct (decide (n = k)) as [-> |]; [by rewrite E|]. rewrite (Z.pow2_bits_false k n) by lia. apply andb_false_r.
Qed.

Lemma word_of_div m i : 0 <= i -> word_of m i = bits m !! Z.to_nat (i / 32).
Proof. intros Hi. unfold word_of, NUM_BIT_PER_WORD. by rewrite Z.quot_div_nonneg by lia. Qed.

Lemma bit_at_bitv m i : 0 <= i -> bit_at m i = bitv m i.
Proof.
  intros Hi. unfold bit_at, bitv. rewrite word_of_div, bit_mask_pow by done.
  destruct (bits m !! _); [|done]. simpl. rewrite land_pow_zero, negb_involutive; [done|]. apply Z.mod_pos_bound. lia.
Qed.

(** A bit of the list, and the word that holds it. *)
Lemma repr_bit m bs i : repr m bs -> 0 <= i < numBit m ->
  exists b w, bs !! Z.to_nat i = Some b /\ bits m !! Z.to_nat (i / 32) = Some w /\ b = Z.testbit w (i mod 32) /\ 0 <= w < 2 ^ 32.
Proof.
  intros (Hn & Hw & Hle & Hall & Hb) Hi. specialize (Hb i Hi). unfold bitv in Hb.
  destruct (lookup_lt_is_Some_2 bs (Z.to_nat i)) as [b Hbs]; [lia|].
  destruct (bits m !! _) as [w|] eqn:Ew; simpl in Hb; [|congruence]. exists b, w.
  rewrite Forall_lookup in Hall. split_and!; [done|done|congruence|by eapply Hall..].
Qed.

Lemma bit_at_repr m bs i : repr m bs -> 0 <= i < numBit m -> bit_at m i = bs !! Z.to_nat i.
Proof. intros Hr Hi. rewrite bit_at_bitv by lia. by apply Hr. Qed.

(** Writing the word of bit [i] so that only that bit changes. *)
Lemma set_word_repr m bs i w w' b :
  repr m bs -> 0 <= i < numBit m -> bits m !! Z.to_nat (i / 32) = Some w -> 0 <= w' < 2 ^ 32 ->
  (forall k, 0 <= k < 32 -> Z.testbit w' k = if decide (k = i mod 32) then b else Z.testbit w k) ->
  repr (set_word m i w') (<[Z.to_nat i := b]> bs).
Proof.
  intros (Hn & Hnw & Hle & Hall & Hb) Hi Hw Hw' Hbits. unfold repr, set_word, NUM_BIT_PER_WORD. simpl.
  rewrite Z.quot_div_nonneg by lia. rewrite !length_insert. split_and!; try done; [by apply Forall_insert|].
  intros j Hj. unfold bitv. simpl. pose proof (lookup_lt_Some _ _ _ Hw) as Hlt.
  destruct (decide (j / 32 = i / 32)) as [Hd|Hd].
  - rewrite Hd, list_lookup_insert_eq by done. simpl. rewrite Hbits by (apply Z.mod_pos_bound; lia).
    case_decide as Hm.
    + assert (j = i) as -> by mlia. rewrite list_lookup_insert_eq by lia. done.
    + rewrite list_lookup_insert_ne by (intros ?; apply Hm; f_equal; lia). rewrite <- Hb by done.
      unfold bitv. by rewrite Hd, Hw.
  - rewrite list_lookup_insert_ne by (pose proof (Z.div_pos i 32); pose proof (Z.div_pos j 32); lia).
    rewrite list_lookup_insert_ne by (intros ?; apply Hd; f_equal; lia). rewrite <- Hb by done. done.
Qed.

Lemma in_range_true m i : in_range m i = true <-> 0 <= i < numBit m.
Proof. unfold in_range. lia. Qed.

Lemma bitmap_set_spec m bs i : repr m bs ->
  exists m' b, bitmap_set m i = Some (m', b) /\ b = in_range m i /\
    repr m' (if b then <[Z.to_nat i := true]> bs else bs).
Proof.
  intros Hr. unfold bitmap_set. destruct (in_range m i) eqn:Ei; simpl; [|by exists m, false].
  apply in_range_true in Ei. destruct (repr_bit m bs i Hr Ei) as (b & w & _ & Hw & _ & Hwr).
  rewrite word_of_div, Hw by lia. simpl. eexists _, true. split_and!; [done|done|]. rewrite bit_mask_pow by lia.
  pose proof (Z.mod_pos_bound i 32 ltac:(lia)) as Hm. eapply set_word_repr; [done|done|done| |].
  - apply lor_range; [lia|done|]. split; [lia|]. apply Z.pow_lt_mono_r; lia.
  - intros k Hk. rewrite Z.lor_spec. case_decide; [subst; by rewrite Z.pow2_bits_true, orb_true_r by lia|].
    by rewrite Z.pow2_bits_false, orb_false_r by lia.
Qed.

Lemma bitmap_clear_spec m bs i : repr m bs ->
  exists m' b, bitmap_clear m i = Some (m', b) /\ b = in_range m i /\
    repr m' (if b then <[Z.to_nat i := false]> bs else bs).
Proof.
  intros Hr. unfold bitmap_clear. destruct (in_range m i) eqn:Ei; simpl; [|by exists m, false].
  apply in_range_true in Ei. destruct (repr_bit m bs i Hr Ei) as (b & w & _ & Hw & _ & Hwr).
  rewrite word_of_div, Hw by lia. simpl. eexists _, true. split_and!; [done|done|]. rewrite bit_mask_pow by lia.
  pose proof (Z.mod_pos_bound i 32 ltac:(lia)) as Hm. eapply set_word_repr; [done|done|done| |].
  - apply land_range; [lia|apply u32_range|lia].
  - intros k Hk. rewrite Z.land_spec, testbit_u32, Z.lnot_spec by lia. rewrite (proj2 (Z.ltb_lt k 32)) by lia. simpl.
    case_decide; [subst; by rewrite Z.pow2_bits_true, andb_false_r by lia|].
    by rewrite Z.pow2_bits_false, andb_true_r by lia.
Qed.

(** The operations on whole words. *)
Lemma bitmap_words_repr m bs f g :
  repr m bs -> (forall w, 0 <= w < 2 ^ 32 -> 0 <= f w < 2 ^ 32) ->
  (forall w k, 0 <= w < 2 ^ 32 -> 0 <= k < 32 -> Z.testbit (f w) k = g (Z.testbit w k)) ->
  repr (mkBitmap (numBit m) (numWord m) (f <$> bits m)) (g <$> bs).
Proof.
  intros Hr Hf Hg. pose proof Hr as (Hn & Hnw & Hle & Hall & Hb). unfold repr. simpl. rewrite !length_fmap. split_and!; try done.
  - apply Forall_fmap. eapply Forall_impl; [done|]. simpl. intros w Hw. by apply Hf.
  - intros i Hi. destruct (repr_bit m bs i Hr Hi) as (b & w & Hbs & Hw & -> & Hwr).
    unfold bitv. simpl. rewrite !list_lookup_fmap, Hw, Hbs. simpl. f_equal. apply Hg; [done|]. apply Z.mod_pos_bound. lia.
Qed.

Lemma bitmap_clearAll_spec m bs : repr m bs -> repr (bitmap_clearAll m) ((fun _ => false) <$> bs).
Proof.
  intros Hr. pose proof Hr as (Hn & Hnw & _). unfold bitmap_clearAll. rewrite Hnw, Nat2Z.id, drop_all, app_nil_r.
  replace (replicate (length (bits m)) 0) with ((fun _ => 0) <$> bits m) by by apply const_fmap. rewrite <- Hnw.
  apply bitmap_words_repr; [done|lia|]. intros. apply Z.testbit_0_l.
Qed.

Lemma bitmap_toggleAll_spec m bs : repr m bs -> repr (bitmap_toggleAll m) (negb <$> bs).
Proof.
  intros Hr. pose proof Hr as (Hn & Hnw & _). unfold bitmap_toggleAll. rewrite Hnw, Nat2Z.id, drop_all, app_nil_r, take_ge by lia.
  rewrite <- Hnw. apply bitmap_words_repr; [done| |].
  - intros w Hw. assert (Z.lxor w (u32 (-1)) = u32 (Z.lxor w (u32 (-1)))) as ->; [|apply u32_range].
    apply Z.bits_inj'. intros n Hn0. rewrite testbit_u32 by done. destruct (Z.ltb_spec n 32); [done|]. simpl.
    rewrite Z.lxor_spec, !(testbit_high _ 32) by (try apply u32_range; lia). done.
  - intros w k Hw Hk. rewrite Z.lxor_spec. change (u32 (-1)) with (2 ^ 32 - 1).
    rewrite testbit_pow2_minus1 by lia. rewrite (proj2 (Z.ltb_lt k 32)) by lia. by destruct (Z.testbit w k).
Qed.

(** The searches: the first bit from the start index that equals [want]. *)
Definition first_from (want : bool) (bs : list bool) (start r : Z) : Prop :=
  (r = -1 /\ forall i, start <= i < Z.of_nat (length bs) -> 0 <= i -> bs !! Z.to_nat i <> Some want) \/
  (start <= r < Z.of_nat (length bs) /\ 0 <= r /\ bs !! Z.to_nat r = Some want /\
   forall i, start <= i < r -> 0 <= i -> bs !! Z.to_nat i <> Some want).

Lemma find_loop_spec want m bs k : repr m bs -> forall i, 0 <= i -> k = Z.to_nat (numBit m - i) ->
  exists r, find_loop k want m i = Some r /\ first_from want bs i r.
Proof.
  intros Hr. pose proof Hr as (Hn & _). induction k as [|k IH]; intros i Hi Hk; simpl.
  - exists (-1). split; [done|]. left. split; [done|]. intros; lia.
  - rewrite (bit_at_repr m bs) by (done || lia). destruct (repr_bit m bs i Hr) as (b & _ & Hb & _); [lia|].
    rewrite Hb. simpl. destruct (eqb b want) eqn:Eb.
    + apply eqb_prop in Eb as ->. exists i. split; [done|]. right. split_and!; [lia..|done|]. intros; lia.
    + destruct (IH (i + 1)) as (r & -> & Hf); [lia..|]. exists r. split; [done|].
      assert (Hnot : bs !! Z.to_nat i <> Some want) by (rewrite Hb; intros ?; simplify_eq; by rewrite eqb_reflx in Eb).
      assert (Hstep : forall j, i <= j -> (i + 1 <= j -> bs !! Z.to_nat j <> Some want) -> bs !! Z.to_nat j <> Some want).
      { intros j Hj H. destruct (decide (j = i)) as [-> |]; [done|]. apply H. lia. }
      destruct Hf as [[-> Hf]|(Hr1 & Hr2 & Hr3 & Hf)]; [left; split; [done|]|right; split_and!; [lia..|done|]].
      * intros j Hj Hj0. apply Hstep; [lia|]. intros. apply Hf; lia.
      * intros j Hj Hj0. apply Hstep; [lia|]. intros. apply Hf; lia.
Qed.

Lemma find_from_spec want m bs start : repr m bs ->
  exists r, find_loop (Z.to_nat (numBit m - Z.max start 0)) want m (Z.max start 0) = Some r /\ first_from want bs start r.
Proof.
  intros Hr. destruct (find_loop_spec want m bs _ Hr (Z.max start 0) ltac:(lia) eq_refl) as (r & -> & Hf).
  exists r. split; [done|]. destruct Hf as [[-> Hf]|(H1 & H2 & H3 & Hf)]; [left; split; [done|]|right; split_and!; [lia..|done|]].
  - intros i Hi H0. apply Hf; lia.
  - intros i Hi H0. apply Hf; lia.
Qed.

Definition num_set (bs : list bool) : Z := zsum Z.b2z bs.

Lemma count_loop_spec m bs k : repr m bs -> forall i c, 0 <= i -> k = Z.to_nat (numBit m - i) -> i <= numBit m ->
  count_loop k m i c = Some (c + num_set (drop (Z.to_nat i) bs)).
Proof.
  intros Hr. pose proof Hr as (Hn & _). induction k as [|k IH]; intros i c Hi Hk Hle; simpl.
  - rewrite drop_ge by lia. unfold num_set. simpl. f_equal. lia.
  - destruct (repr_bit m bs i Hr) as (b & w & Hb & Hw & Heq & _); [lia|]. rewrite word_of_div, Hw by done. simpl.
    rewrite shift_mask, land_pow_zero by (done || (apply Z.mod_pos_bound; lia)). rewrite <- Heq, IH by lia.
    rewrite (drop_S _ b (Z.to_nat i)) by done. replace (Z.to_nat (i + 1)) with (S (Z.to_nat i)) by lia.
    unfold num_set. simpl. f_equal. destruct b; simpl; lia.
Qed.

Lemma bitmap_getNumSet_spec m bs : repr m bs -> bitmap_getNumSet m = Some (num_set bs).
Proof.
  intros Hr. unfold bitmap_getNumSet. rewrite (count_loop_spec m bs) by (try done; pose proof Hr as (? & _); f_equal; lia).
  done.
Qed.

(** Copying between bitmaps of one size; of different sizes, the assertion fails. *)
Lemma bitmap_copy_spec dst src bs bs' : repr dst bs -> repr src bs' -> length bs = length bs' ->
  exists m, bitmap_copy dst src = Some m /\ repr m bs'.
Proof.
  intros (Hn & Hnw & Hc & _) (Hn' & Hnw' & Hc' & Hall & Hb) Hl. unfold bitmap_copy.
  rewrite (proj2 (Z.eqb_eq _ _)) by lia. eexists. split; [done|].
  assert (Hw : length (bits dst) = length (bits src)) by (apply Nat2Z.inj; congruence).
  rewrite Hnw, Nat2Z.id, drop_all, app_nil_r, Hw, take_ge by lia.
  unfold repr. simpl. split_and!; [congruence|done|congruence|done|]. intros i Hi. apply Hb. congruence.
Qed.

Lemma bitmap_alloc_repr ok1 ok2 n m : 0 <= n < 2 ^ 31 - 31 -> bitmap_alloc ok1 ok2 n = Some m ->
  repr m (replicate (Z.to_nat n) false).
Proof.
  intros Hn Hm. unfold bitmap_alloc in Hm. destruct ok1; [|done].
  assert (Hup : DIVIDE_AND_ROUND_UP n NUM_BIT_PER_WORD = (n + 31) / 32).
  { unfold DIVIDE_AND_ROUND_UP, NUM_BIT_PER_WORD. rewrite Z.quot_div_nonneg, Z.rem_mod_nonneg by lia.
    destruct (Z.ltb_spec 0 (n mod 32)); mlia. }
  rewrite Hup in Hm.
  destruct (malloc_array ok2 _) as [ws|] eqn:Em; [|done]. simplify_eq.
  apply malloc_array_small in Em as [Hlen _]; [|mlia].
  unfold repr. simpl. rewrite !length_replicate. split_and!; [lia|lia|f_equal; lia|by apply Forall_replicate|].
  intros i Hi. unfold bitv. simpl. rewrite !lookup_replicate_2 by mlia. simpl. by rewrite Z.testbit_0_l.
Qed.

(** ** The container *)

Inductive bop :=
| SetBit (i : Z) | ClearBit (i : Z) | ClearAll | ToggleAll | IsClear (i : Z) | IsSet (i : Z)
| FindClear (start : Z) | FindSet (start : Z) | NumSet | NumClear | CopyFrom (src : bitmap).

Definition bstep (o : bop) (m : bitmap) : option (bitmap * Z) :=
  match o with
  | SetBit i => '(m, b) ← bitmap_set m i; Some (m, Z.b2z b)
  | ClearBit i => '(m, b) ← bitmap_clear m i; Some (m, Z.b2z b)
  | ClearAll => Some (bitmap_clearAll m, 0)
  | ToggleAll => Some (bitmap_toggleAll m, 0)
  | IsClear i => b ← bitmap_isClear m i; Some (m, Z.b2z b)
  | IsSet i => b ← bitmap_isSet m i; Some (m, Z.b2z b)
  | FindClear i => r ← bitmap_findClear m i; Some (m, r)
  | FindSet i => r ← bitmap_findSet m i; Some (m, r)
  | NumSet => r ← bitmap_getNumSet m; Some (m, r)
  | NumClear => r ← bitmap_getNumClear m; Some (m, r)
  | CopyFrom src => m ← bitmap_copy m src; Some (m, 0)
  end.

(** The bit at an index that may be out of range. *)
Definition look (bs : list bool) (i : Z) : option bool := if 0 <=? i then bs !! Z.to_nat i else None.

Definition change (i : Z) (b : bool) (bs : list bool) : list bool := if 0 <=? i then <[Z.to_nat i := b]> bs else bs.

Definition bspec (o : bop) (bs : list bool) (r : Z) (bs' : list bool) : Prop :=
  match o with
  | SetBit i => r = Z.b2z (bool_decide (is_Some (look bs i))) /\ bs' = change i true bs
  | ClearBit i => r = Z.b2z (bool_decide (is_Some (look bs i))) /\ bs' = change i false bs
  | ClearAll => bs' = (fun _ => false) <$> bs
  | ToggleAll => bs' = negb <$> bs
  | IsClear i => r = Z.b2z (bool_decide (look bs i = Some false)) /\ bs' = bs
  | IsSet i => r = Z.b2z (bool_decide (look bs i = Some true)) /\ bs' = bs
  | FindClear i => first_from false bs i r /\ bs' = bs
  | FindSet i => first_from true bs i r /\ bs' = bs
  | NumSet => r = num_set bs /\ bs' = bs
  | NumClear => r = num_set (negb <$> bs) /\ bs' = bs
  | CopyFrom src => repr src bs'
  end.

(** Bitmaps of [n] bits. *)
Definition repr_n (n : nat) (m : bitmap) (bs : list bool) : Prop := repr m bs /\ length bs = n.

Definition blegal (n : nat) (o : bop) : Prop :=
  match o with CopyFrom src => exists bs, repr_n n src bs | _ => True end.

Lemma look_in_range m bs i : repr m bs -> in_range m i = bool_decide (is_Some (look bs i)).
Proof.
  intros (Hn & _). unfold in_range, look. symmetry. destruct (Z.leb_spec 0 i); simpl.
  - destruct (Z.ltb_spec i (numBit m)).
    + apply bool_decide_eq_true_2. apply lookup_lt_is_Some_2. lia.
    + apply bool_decide_eq_false_2. rewrite lookup_ge_None_2 by lia. by intros [].
  - done.
Qed.

Lemma change_out bs i b : look bs i = None -> change i b bs = bs.
Proof.
  unfold look, change. destruct (0 <=? i); [|done]. intros H. apply list_insert_ge. by apply lookup_ge_None_1.
Qed.

Lemma num_clear bs : Z.of_nat (length bs) - num_set bs = num_set (negb <$> bs).
Proof. unfold num_set. rewrite zsum_fmap. induction bs as [|[] bs IH]; simpl in *; lia. Qed.

Lemma bitmap_sim n o m bs : repr_n n m bs -> blegal n o ->
  exists m' r bs', bstep o m = Some (m', r) /\ bspec o bs r bs' /\ repr_n n m' bs'.
Proof.
  intros [Hr Hlen] Hl. pose proof (fun i => look_in_range m bs i Hr) as Hin. pose proof Hr as (Hn & _).
  assert (Hbit : forall i, in_range m i = true -> bit_at m i = look bs i).
  { intros i Hi. apply in_range_true in Hi. rewrite (bit_at_repr m bs) by done. unfold look. by rewrite (proj2 (Z.leb_le 0 i)) by lia. }
  assert (Hch : forall i b, (if in_range m i then <[Z.to_nat i := b]> bs else bs) = change i b bs).
  { intros i b. destruct (in_range m i) eqn:Ei.
    - unfold change. apply in_range_true in Ei. by rewrite (proj2 (Z.leb_le 0 i)) by lia.
    - rewrite change_out; [done|]. rewrite Hin in Ei. apply bool_decide_eq_false in Ei. by apply eq_None_not_Some. }
  assert (Hcl : forall i b, length (change i b bs) = n).
  { intros i b. unfold change. case_match; by rewrite ?length_insert. }
  destruct o as [i|i| | |i|i|i|i| | |src]; simpl.
  - destruct (bitmap_set_spec m bs i Hr) as (m' & b & -> & -> & Hr'). rewrite Hch in Hr'. simpl.
    eexists m', _, _. split_and!; [done|by rewrite Hin|done|by split].
  - destruct (bitmap_clear_spec m bs i Hr) as (m' & b & -> & -> & Hr'). rewrite Hch in Hr'. simpl.
    eexists m', _, _. split_and!; [done|by rewrite Hin|done|by split].
  - eexists _, _, _. split_and!; [done|done|split; [by apply bitmap_clearAll_spec|by rewrite length_fmap]].
  - eexists _, _, _. split_and!; [done|done|split; [by apply bitmap_toggleAll_spec|by rewrite length_fmap]].
  - unfold bitmap_isClear. destruct (in_range m i) eqn:Ei.
    + rewrite Hbit by done. rewrite Hin in Ei. apply bool_decide_eq_true in Ei as [b Hb]. rewrite Hb. simpl.
      eexists _, _, _. split_and!; [done| |done|done]. by destruct b.
    + rewrite Hin in Ei. apply bool_decide_eq_false, eq_None_not_Some in Ei. rewrite Ei. by eexists _, _, _.
  - unfold bitmap_isSet. destruct (in_range m i) eqn:Ei.
    + rewrite Hbit by done. rewrite Hin in Ei. apply bool_decide_eq_true in Ei as [b Hb]. rewrite Hb. simpl.
      eexists _, _, _. split_and!; [done| |done|done]. by destruct b.
    + rewrite Hin in Ei. apply bool_decide_eq_false, eq_None_not_Some in Ei. rewrite Ei. by eexists _, _, _.
  - unfold bitmap_findClear. destruct (find_from_spec false m bs i Hr) as (r & -> & Hf). by eexists _, _, _.
  - unfold bitmap_findSet. destruct (find_from_spec true m bs i Hr) as (r & -> & Hf). by eexists _, _, _.
  - rewrite (bitmap_getNumSet_spec m bs Hr). by eexists _, _, _.
  - unfold bitmap_getNumClear. rewrite (bitmap_getNumSet_spec m bs Hr). simpl. rewrite Hn, num_clear. by eexists _, _, _.
  - destruct Hl as (bs' & Hs & Hl'). destruct (bitmap_copy_spec m src bs bs' Hr Hs) as (m' & -> & Hr'); [congruence|].
    by eexists m', _, bs'.
Qed.

Definition bitmap_container (n : nat) : Container bitmap bop (list bool) :=
  {| cstep := bstep; crepr := repr_n n; clegal := blegal n; cspec := bspec; csim := bitmap_sim n |}.

(** The bitmap is a list of bits.  From any successful [bitmap_alloc], any sequence
    of operations stays inside the array of words, and every operation changes and
    returns what it would on a list of [n] bits: single bits are set, cleared and
    tested with the bounds checked, searches return the first match or -1, counts
    count, [bitmap_toggleAll] complements, copies between bitmaps of one size copy. *)
Theorem stamp_bitmap_refines ok1 ok2 n m ops :
  0 <= n < 2 ^ 31 - 31 -> bitmap_alloc ok1 ok2 n = Some m -> Forall (blegal (Z.to_nat n)) ops ->
  exists m' rs bs, @crun _ _ _ (bitmap_container (Z.to_nat n)) ops m = Some (m', rs) /\
    @cspecs _ _ _ (bitmap_container (Z.to_nat n)) ops (replicate (Z.to_nat n) false) rs bs /\ repr m' bs.
Proof.
  intros Hn Hm Hl.
  destruct (@crun_sim _ _ _ (bitmap_container (Z.to_nat n)) ops m (replicate (Z.to_nat n) false)) as (m' & rs & bs & H1 & H2 & H3 & _);
    [split; [by eapply bitmap_alloc_repr|apply length_replicate]|done|].
  by exists m', rs, bs.
Qed.

Definition bitmap_example : list bop :=
  [SetBit 31; SetBit 32; SetBit 70; SetBit (-1); IsSet 31; FindSet 32; FindClear 31; NumSet; ToggleAll; NumClear; FindClear 0;
   ClearBit 0; IsClear 0; FindSet (-5)].

Lemma stamp_bitmap_refines_witness : exists m m' rs bs,
  bitmap_alloc true true 70 = Some m /\ @crun _ _ _ (bitmap_container 70) bitmap_example m = Some (m', rs) /\ repr m' bs.
Proof.
  eexists. destruct (stamp_bitmap_refines true true 70 _ bitmap_example ltac:(lia) eq_refl) as (m' & rs & bs & H1 & _ & H2).
  - by repeat constructor.
  - exists m', rs, bs. by split_and!.
Defined.

Lemma bitmap_example_values :
  (m ← bitmap_alloc true true 70; snd <$> @crun _ _ _ (bitmap_container 70) bitmap_example m) =
  Some [1; 1; 0; 0; 1; 32; 33; 2; 0; 2; 31; 1; 1; 1].
Proof. vm_compute. reflexivity. Qed.

End Bitmap.
