(* ===== verification/StampVector.v ===== *)
(** * The vector of STAMP

    Model of [lib/vector.c]: a growable array of pointers with access by index, push
    and pop at the back, sorting and copying. *)

From stdpp Require Import sorting.
From S2P Require Import Prelude StampArray.

Module Vector.

Record vector := mkVector {
  size : Z;
  capacity : Z;
  elements : cells
}.

Definition vector_alloc (ok1 ok2 : bool) (initCapacity : Z) : option vector :=
  let capacity := Z.max initCapacity 1 in
  if ok1 then
    match malloc_array ok2 capacity with
    | None => None
    | Some elements => Some (mkVector 0 capacity elements)
    end
  else None.

Definition Pvector_alloc := vector_alloc.

Definition vector_at (v : vector) (i : Z) : option Z :=
  if (i <? 0) || (size v <=? i) then Some NULL else aread (elements v) i.

(** The growth at the head of [vector_pushBack]: [Some None] when no memory is left. *)
Definition vector_reserve (ok : bool) (v : vector) : option (option vector) :=
  if size v =? capacity v then
    let newCapacity := s32 (capacity v * 2) in
    match malloc_array ok newCapacity with
    | None => Some None
    | Some newElements =>
        newElements ← copy_cells (Z.to_nat (size v)) (elements v) 0 newElements 0;
        Some (Some (mkVector (size v) newCapacity newElements))
    end
  else Some (Some v).

Definition vector_pushBack (ok : bool) (v : vector) (dataPtr : Z) : option (vector * bool) :=
  r ← vector_reserve ok v;
  match r with
  | None => Some (v, false)
  | Some v =>
      elements ← awrite (elements v) (size v) dataPtr;
      Some (mkVector (size v + 1) (capacity v) elements, true)
  end.

Definition Pvector_pushBack := vector_pushBack.

Definition vector_popBack (v : vector) : option (vector * Z) :=
  if size v <? 1 then Some (v, NULL)
  else
    d ← aread (elements v) (size v - 1);
    Some (mkVector (size v - 1) (capacity v) (elements v), d).

Definition vector_getSize (v : vector) : Z := size v.

Definition vector_clear (v : vector) : vector := mkVector 0 (capacity v) (elements v).

(** [qsort] of the first [size] elements; the array behind them is not touched. *)
Definition vector_sort (qsort : list Z -> list Z) (v : vector) : option vector :=
  xs ← mapM (fun c => c) (take (Z.to_nat (size v)) (elements v));
  Some (mkVector (size v) (capacity v) ((Some <$> qsort xs) ++ drop (Z.to_nat (size v)) (elements v))).

(** [memcpy] of the source's [size] elements, into a new array when they do not fit. *)
Definition vector_copy (ok : bool) (dst src : vector) : option (vector * bool) :=
  let fit := if capacity dst <? size src then
               els ← malloc_array ok (capacity src); Some (mkVector (size dst) (capacity src) els)
             else Some dst in
  match fit with
  | None => Some (dst, false)
  | Some dst =>
      els ← copy_cells (Z.to_nat (size src)) (elements src) 0 (elements dst) 0;
      Some (mkVector (size src) (capacity dst) els, true)
  end.

Definition Pvector_copy := vector_copy.

(** ** What the vector represents *)

Definition repr (v : vector) (l : list Z) : Prop :=
  size v = Z.of_nat (length l) /\ size v <= capacity v < 2 ^ 29 /\ 1 <= capacity v /\
  Z.of_nat (length (elements v)) = capacity v /\
  forall i, 0 <= i < size v -> acell (elements v) i = Some (l !! Z.to_nat i).

Lemma vector_alloc_repr ok1 ok2 n v : n < 2 ^ 30 -> vector_alloc ok1 ok2 n = Some v -> repr v [].
Proof.
  intros Hn Hv. unfold vector_alloc in Hv. destruct ok1; [|done].
  destruct (malloc_array ok2 _) as [els|] eqn:Em; [|done]. simplify_eq.
  apply malloc_array_small in Em as [Hlen Hlt]; [|lia]. unfold repr. simpl. split_and!; try lia; intros; lia.
Qed.

Lemma vector_read v l i x : repr v l -> 0 <= i < size v -> l !! Z.to_nat i = Some x -> aread (elements v) i = Some x.
Proof. intros (_ & _ & _ & _ & Hk) Hi Hx. apply aread_cell. rewrite Hk by done. by rewrite Hx. Qed.

Lemma vector_at_spec v l i : repr v l ->
  vector_at v i = Some (default NULL (if 0 <=? i then l !! Z.to_nat i else None)).
Proof.
  intros Hr. pose proof Hr as (Hs & _). unfold vector_at.
  destruct (Z.ltb_spec i 0), (Z.leb_spec 0 i); try lia; [done|]. simpl. destruct (Z.leb_spec (size v) i).
  - by rewrite lookup_ge_None_2 by lia.
  - destruct (lookup_lt_is_Some_2 l (Z.to_nat i)) as [x Hx]; [lia|]. rewrite Hx. by apply (vector_read v l).
Qed.

Lemma vector_reserve_spec ok v l : repr v l ->
  (exists v', vector_reserve ok v = Some (Some v') /\ repr v' l /\ size v' < capacity v') \/
  (vector_reserve ok v = Some None /\ (ok = false \/ 2 ^ 28 <= Z.of_nat (length l))).
Proof.
  intros Hr. pose proof Hr as (Hs & Hc & H1 & Hlen & Hk). unfold vector_reserve.
  destruct (Z.eqb_spec (size v) (capacity v)); [|left; exists v; split_and!; [done|done|lia]].
  rewrite s32_small by lia. destruct (malloc_array ok (capacity v * 2)) as [new|] eqn:Em.
  - left. apply malloc_array_small in Em as [Hln Hbd]; [|lia].
    destruct (copy_cells_spec (Z.to_nat (size v)) (elements v) 0 new 0) as (n1 & -> & Hl1 & Hg1); [lia..|]. cbn [mbind option_bind].
    eexists. split_and!; [done| |simpl; lia]. unfold repr. simpl. split_and!; try lia.
    intros i Hi. rewrite Hg1, decide_True by lia. rewrite <- Hk by done. f_equal. lia.
  - right. split; [done|]. apply malloc_array_fails in Em as [?|?]; [by left|right|]; lia.
Qed.

Lemma vector_pushBack_spec ok v l d : repr v l ->
  exists v' b, vector_pushBack ok v d = Some (v', b) /\ repr v' (if b : bool then l ++ [d] else l) /\
    (b = false -> ok = false \/ 2 ^ 28 <= Z.of_nat (length l)).
Proof.
  intros Hr. unfold vector_pushBack. destruct (vector_reserve_spec ok v l Hr) as [(v1 & -> & Hr1 & Hc1)|[-> Hf]]; cbn [mbind option_bind].
  2: { by exists v, false. }
  destruct Hr1 as (Hs & Hc & H1 & Hlen & Hk).
  destruct (aset_in (elements v1) (size v1) (Some d)) as (a1 & Ha & Hl1 & Hg1); [lia|]. unfold awrite. rewrite Ha. cbn [mbind option_bind].
  eexists _, true. split_and!; [done| |done]. unfold repr. simpl. rewrite length_app. simpl length. split_and!; try lia.
  intros i Hi. rewrite Hg1, Hs. case_decide as Heq.
  - subst i. by rewrite Nat2Z.id, list_lookup_middle.
  - rewrite lookup_app_l by lia. apply Hk. lia.
Qed.

Lemma vector_popBack_spec v l : repr v l ->
  exists v', vector_popBack v = Some (v', default NULL (last l)) /\ repr v' (take (length l - 1) l).
Proof.
  intros Hr. pose proof Hr as (Hs & Hc & H1 & Hlen & Hk). unfold vector_popBack. destruct (Z.ltb_spec (size v) 1).
  - assert (l = []) as -> by (apply length_zero_iff_nil; lia). by exists v.
  - rewrite last_lookup. destruct (lookup_lt_is_Some_2 l (pred (length l))) as [x Hx]; [lia|]. rewrite Hx.
    rewrite (vector_read v l (size v - 1) x); [|done|lia|rewrite <- Hx; f_equal; lia]. cbn [mbind option_bind].
    eexists. split; [done|]. unfold repr. simpl. rewrite length_take. split_and!; try lia.
    intros i Hi. rewrite lookup_take_lt by lia. apply Hk. lia.
Qed.

Lemma vector_cells v l : repr v l -> take (length l) (elements v) = Some <$> l.
Proof.
  intros (Hs & Hc & _ & Hlen & Hk). apply list_eq. intros i. destruct (decide (i < length l)%nat) as [Hi|Hi].
  - rewrite lookup_take_lt by done. specialize (Hk (Z.of_nat i) ltac:(lia)). rewrite acell_lookup, Nat2Z.id in Hk by lia.
    etransitivity; [exact Hk|]. rewrite list_lookup_fmap. destruct (lookup_lt_is_Some_2 l i Hi) as [x ->]. done.
  - rewrite !lookup_ge_None_2; [done|rewrite length_fmap; lia|rewrite length_take; lia].
Qed.

Lemma vector_sort_spec qsort v l : repr v l -> length (qsort l) = length l ->
  exists v', vector_sort qsort v = Some v' /\ repr v' (qsort l).
Proof.
  intros Hr Hq. pose proof Hr as (Hs & Hc & H1 & Hlen & Hk). unfold vector_sort. rewrite Hs, Nat2Z.id, (vector_cells v l Hr).
  assert (Hm : mapM (fun c => c) (Some <$> l) = Some l).
  { apply mapM_Some, Forall2_fmap_l. by apply Forall_Forall2_diag, Forall_true. }
  rewrite Hm. cbn [mbind option_bind]. eexists. split; [done|]. unfold repr. simpl.
  rewrite length_app, length_fmap, length_drop, Hq. split_and!; try lia.
  intros i Hi. rewrite acell_lookup by lia. etransitivity; [apply lookup_app_l; rewrite length_fmap; lia|]. rewrite list_lookup_fmap.
  destruct (lookup_lt_is_Some_2 (qsort l) (Z.to_nat i)) as [x ->]; [lia|done].
Qed.

Lemma vector_copy_spec ok dst src l l' : repr dst l -> repr src l' ->
  exists v b, vector_copy ok dst src = Some (v, b) /\ repr v (if b : bool then l' else l) /\
    (b = false -> ok = false /\ capacity dst < Z.of_nat (length l')).
Proof.
  intros Hr Hr'. pose proof Hr as (Hs & Hc & H1 & Hlen & Hk). pose proof Hr' as (Hs' & Hc' & H1' & Hlen' & Hk').
  assert (Hgo : forall d, capacity d < 2 ^ 29 -> Z.of_nat (length (elements d)) = capacity d -> size src <= capacity d -> 1 <= capacity d ->
    exists v, (els ← copy_cells (Z.to_nat (size src)) (elements src) 0 (elements d) 0; Some (mkVector (size src) (capacity d) els, true)) = Some (v, true)
      /\ repr v l').
  { intros d Hd1 Hd2 Hd3 Hd4. destruct (copy_cells_spec (Z.to_nat (size src)) (elements src) 0 (elements d) 0) as (n1 & -> & Hl1 & Hg1); [lia..|].
    cbn [mbind option_bind]. eexists. split; [done|]. unfold repr. simpl. split_and!; try lia.
    intros i Hi. rewrite Hg1, decide_True by lia. rewrite <- Hk' by done. f_equal. lia. }
  unfold vector_copy. destruct (Z.ltb_spec (capacity dst) (size src)).
  - destruct (malloc_array ok (capacity src)) as [els|] eqn:Em; cbn [mbind option_bind].
    + apply malloc_array_small in Em as [Hle Hlt]; [|lia].
      destruct (Hgo (mkVector (size dst) (capacity src) els)) as (v & -> & Hv); [simpl; lia..|]. by exists v, true.
    + apply malloc_array_fails in Em as [?|?]; [|lia..]. exists dst, false. split_and!; [done|done|]. split; [done|lia].
  - destruct (Hgo dst) as (v & -> & Hv); [lia..|]. by exists v, true.
Qed.

(** ** The container *)

Section container.

(** [qsort] of the C library with the comparison function of the caller: it permutes
    and puts in order. *)
Context (le : Z -> Z -> Prop) (qsort : list Z -> list Z).
Hypothesis qsort_permutes : forall l, qsort l ≡ₚ l.
Hypothesis qsort_sorts : forall l, StronglySorted le (qsort l).

Inductive vop := At (i : Z) | PushBack (ok : bool) (dataPtr : Z) | PopBack | GetSize | Clear | Sort | CopyFrom (ok : bool) (src : vector).

Definition vstep (o : vop) (v : vector) : option (vector * Z) :=
  match o with
  | At i => r ← vector_at v i; Some (v, r)
  | PushBack ok d => '(v, b) ← vector_pushBack ok v d; Some (v, Z.b2z b)
  | PopBack => vector_popBack v
  | GetSize => Some (v, vector_getSize v)
  | Clear => Some (vector_clear v, 0)
  | Sort => v ← vector_sort qsort v; Some (v, 0)
  | CopyFrom ok src => '(v, b) ← vector_copy ok v src; Some (v, Z.b2z b)
  end.

Definition vlegal (o : vop) : Prop := match o with CopyFrom _ src => exists l, repr src l | _ => True end.

Definition vspec (o : vop) (l : list Z) (r : Z) (l' : list Z) : Prop :=
  match o with
  | At i => r = default NULL (if 0 <=? i then l !! Z.to_nat i else None) /\ l' = l
  | PushBack ok d => (r = 1 /\ l' = l ++ [d]) \/ (r = 0 /\ l' = l /\ (ok = false \/ 2 ^ 28 <= Z.of_nat (length l)))
  | PopBack => r = default NULL (last l) /\ l' = take (length l - 1) l
  | GetSize => r = Z.of_nat (length l) /\ l' = l
  | Clear => l' = []
  | Sort => l' ≡ₚ l /\ StronglySorted le l'
  | CopyFrom ok src => (r = 1 /\ repr src l') \/ (r = 0 /\ l' = l /\ ok = false)
  end.

Lemma vector_sim o v l : repr v l -> vlegal o ->
  exists v' r l', vstep o v = Some (v', r) /\ vspec o l r l' /\ repr v' l'.
Proof.
  intros Hr Hl. destruct o as [i|ok d| | | | |ok src]; simpl.
  - rewrite (vector_at_spec v l i Hr). by eexists _, _, _.
  - destruct (vector_pushBack_spec ok v l d Hr) as (v' & b & -> & Hr' & Hb). simpl. eexists v', _, _. split_and!; [done| |done].
    destruct b; auto 6.
  - destruct (vector_popBack_spec v l Hr) as (v' & -> & Hr'). by eexists v', _, _.
  - eexists v, _, l. split_and!; [done|apply Hr|done|done].
  - eexists _, _, []. split_and!; [done|done|]. destruct Hr as (H1 & H2 & H3 & H4 & _). unfold repr. simpl. split_and!; try lia; intros; lia.
  - destruct (vector_sort_spec qsort v l Hr) as (v' & -> & Hr'); [apply Permutation_length, qsort_permutes|]. simpl.
    exists v', 0, (qsort l). by split_and!.
  - destruct Hl as [l' Hs]. destruct (vector_copy_spec ok v src l l' Hr Hs) as (v' & b & -> & Hr' & Hb). simpl.
    eexists v', _, _. split_and!; [done| |done]. destruct b; [by left|right]. by destruct (Hb eq_refl).
Qed.

Definition vector_container : Container vector vop (list Z) :=
  {| cstep := vstep; crepr := repr; clegal := vlegal; cspec := vspec; csim := vector_sim |}.

(** The vector is a list.  From any successful [vector_alloc], any sequence of
    operations stays inside the array and reads only what was written; access by index
    is bounds-checked, pushes and pops work at the end across every growth, a failed
    push or copy changes nothing, sorting with a [qsort] that sorts leaves a sorted
    permutation. *)
Theorem stamp_vector_refines ok1 ok2 n v ops :
  n < 2 ^ 30 -> vector_alloc ok1 ok2 n = Some v -> Forall vlegal ops ->
  exists v' rs l, @crun _ _ _ vector_container ops v = Some (v', rs) /\ @cspecs _ _ _ vector_container ops [] rs l /\ repr v' l.
Proof. intros Hn Hv Hl. refine (@crun_sim _ _ _ vector_container ops v [] _ _); [by eapply vector_alloc_repr|done]. Qed.

End container.

Definition library_sort : list Z -> list Z := merge_sort Z.le.

Lemma library_sort_permutes l : library_sort l ≡ₚ l.
Proof. apply merge_sort_Permutation. Qed.

Lemma library_sort_sorts l : StronglySorted Z.le (library_sort l).
Proof. apply (StronglySorted_merge_sort _ l). Qed.

Definition vector_example : list vop :=
  [PushBack true 3; PushBack true 1; PushBack false 4; PushBack true 4; Sort; At 0; At 2; PopBack; GetSize; At 2; At (-1)].

Lemma stamp_vector_refines_witness : exists v v' rs l,
  vector_alloc true true 0 = Some v /\
  @crun _ _ _ (vector_container Z.le library_sort library_sort_permutes library_sort_sorts) vector_example v = Some (v', rs) /\
  repr v' l.
Proof.
  eexists. destruct (stamp_vector_refines Z.le library_sort library_sort_permutes library_sort_sorts true true 0 _ vector_example
    ltac:(lia) eq_refl) as (v' & rs & l & H1 & _ & H2).
  - by repeat constructor.
  - exists v', rs, l. by split_and!.
Defined.

Lemma vector_example_values :
  (v ← vector_alloc true true 0;
   snd <$> @crun _ _ _ (vector_container Z.le library_sort library_sort_permutes library_sort_sorts) vector_example v) =
  Some [1; 1; 0; 1; 0; 1; 4; 4; 2; 0; 0].
Proof. vm_compute. reflexivity. Qed.

End Vector.
