(* ===== verification/StampHashtable.v ===== *)
(** * The hash table of STAMP

    Model of [lib/hashtable.c] with [lib/pair.c]: an array of chains, each a sorted
    list of pairs ([lib/list.c]), with one dummy chain behind the last for the
    iterator, and, when configured, a size field and growth by rehashing.  The chains
    are used through the contract of the list, the functions [lfind], [linsert] and
    [lremove] on sorted sequences that [StampList] proves its operations to refine.
    The compile-time options are the parameters [size_field], [resizable], [no_dup]. *)

From S2P Require Import Prelude StampList StampArray.

Module Hashtable.

Record pair_t := mkPair { firstPtr : Z; secondPtr : Z }.

#[export] Instance pair_t_eq_dec : EqDecision pair_t.
Proof. solve_decision. Defined.

Definition HASHTABLE_DEFAULT_RESIZE_RATIO : Z := 3.
Definition HASHTABLE_DEFAULT_GROWTH_FACTOR : Z := 3.

Record hashtable_t := mkHashtable {
  buckets : list (list pair_t);
  numBucket : Z;
  size : Z;
  resizeRatio : Z;
  growthFactor : Z
}.

(** At most this many lists, or pairs, fit into a 32-bit address space: each takes at
    least 16 bytes with its header. *)
Definition MAX_OBJECTS : Z := 2 ^ 28.

(** [ok] says whether memory is left; [n] objects of the kind exist already. *)
Definition pair_alloc (ok : bool) (n : nat) (firstPtr secondPtr : Z) : option pair_t :=
  if ok && (Z.of_nat n <? MAX_OBJECTS) then Some (mkPair firstPtr secondPtr) else None.

Definition Ppair_alloc := pair_alloc.
Definition TMpair_alloc := pair_alloc.

(** The array and [n + 1] empty lists, or [NULL] with everything freed. *)
Definition allocBuckets (ok : bool) (n : Z) : option (list (list pair_t)) :=
  if ok && (n + 1 <? MAX_OBJECTS) then Some (replicate (Z.to_nat (n + 1)) []) else None.

Definition TMallocBuckets := allocBuckets.

Definition hashtable_alloc (ok1 ok2 : bool) (initNumBucket ratio growth : Z) : option hashtable_t :=
  if ok1 then
    buckets ← allocBuckets ok2 initNumBucket;
    Some (mkHashtable buckets initNumBucket 0
      (if ratio <? 0 then HASHTABLE_DEFAULT_RESIZE_RATIO else ratio)
      (if growth <? 0 then HASHTABLE_DEFAULT_GROWTH_FACTOR else growth))
  else None.

Definition TMhashtable_alloc := hashtable_alloc.

Section operations.
Context (hash : Z -> Z) (cmp : Z -> Z -> Z) (size_field resizable no_dup : bool).

(** [comparePairs]: pairs are compared by their keys. *)
Definition comparePairs (p q : pair_t) : Z := cmp (firstPtr p) (firstPtr q).

(** A pair to search with; only its key is read. *)
Definition findPair (keyPtr : Z) : pair_t := mkPair keyPtr NULL.

(** [hash(keyPtr) % numBucket], an unsigned remainder; no result for 0 buckets. *)
Definition index_of (keyPtr n : Z) : option nat :=
  if n =? 0 then None else Some (Z.to_nat (hash keyPtr mod n)).

(** The loops over the chains [0 .. numBucket - 1]. *)
Definition chains (h : hashtable_t) : list (list pair_t) := take (Z.to_nat (numBucket h)) (buckets h).

Definition hashtable_getSize (h : hashtable_t) : Z :=
  if size_field then size h else foldl (fun acc ch => acc + Z.of_nat (length ch)) 0 (chains h).

Definition TMhashtable_getSize := hashtable_getSize.

Fixpoint all_empty (chs : list (list pair_t)) : bool :=
  match chs with
  | [] => true
  | [] :: chs => all_empty chs
  | _ :: _ => false
  end.

Definition hashtable_isEmpty (h : hashtable_t) : bool :=
  if size_field then size h =? 0 else all_empty (chains h).

Definition TMhashtable_isEmpty := hashtable_isEmpty.

(** [list_find(buckets[i], &findPair)]. *)
Definition find_pair (h : hashtable_t) (keyPtr : Z) : option (option pair_t) :=
  i ← index_of keyPtr (numBucket h);
  ch ← buckets h !! i;
  Some (lfind comparePairs (findPair keyPtr) ch).

Definition hashtable_containsKey (h : hashtable_t) (keyPtr : Z) : option bool :=
  r ← find_pair h keyPtr; Some (match r with Some _ => true | None => false end).

Definition TMhashtable_containsKey := hashtable_containsKey.

Definition hashtable_find (h : hashtable_t) (keyPtr : Z) : option Z :=
  r ← find_pair h keyPtr; Some (match r with Some p => secondPtr p | None => NULL end).

Definition TMhashtable_find := hashtable_find.

(** [list_insert(buckets[i], p)] on an array of chains: [Some None] when it fails. *)
Definition insert_at (ok : bool) (p : pair_t) (n : Z) (bs : list (list pair_t)) : option (option (list (list pair_t))) :=
  i ← index_of (firstPtr p) n;
  ch ← bs !! i;
  Some (if ok then match linsert comparePairs no_dup p ch with Some ch => Some (<[i := ch]> bs) | None => None end
        else None).

(** The two loops of [rehash] over the pairs of the old chains, in order; [mem] says
    which list nodes find memory. *)
Fixpoint rehash_loop (mem : nat -> bool) (ps : list pair_t) (n : Z) (new : list (list pair_t))
    : option (option (list (list pair_t))) :=
  match ps with
  | [] => Some (Some new)
  | p :: ps =>
      r ← insert_at (mem 0%nat) p n new;
      match r with
      | None => Some None
      | Some new => rehash_loop (fun k => mem (S k)) ps n new
      end
  end.

Definition rehash (ok : bool) (mem : nat -> bool) (h : hashtable_t) : option (option (list (list pair_t))) :=
  let newNumBucket := s32 (growthFactor h * numBucket h) in
  match allocBuckets ok newNumBucket with
  | None => Some None
  | Some new => rehash_loop mem (mjoin (chains h)) newNumBucket new
  end.

(** Growth before an insertion that makes the size [newSize]. *)
Definition maybe_grow (ok : bool) (mem : nat -> bool) (newSize : Z) (h : hashtable_t) : option (option hashtable_t) :=
  if resizable && (s32 (numBucket h * resizeRatio h) <=? newSize) then
    r ← rehash ok mem h;
    Some (match r with
          | None => None
          | Some new => Some (mkHashtable new (s32 (numBucket h * growthFactor h)) (size h) (resizeRatio h) (growthFactor h))
          end)
  else Some (Some h).

(** [ok1]: the pair, [ok2], [mem]: the rehash, [ok3]: the list node. *)
Definition hashtable_insert (ok1 ok2 ok3 : bool) (mem : nat -> bool) (h : hashtable_t) (keyPtr dataPtr : Z)
    : option (hashtable_t * bool) :=
  r ← find_pair h keyPtr;
  match r with
  | Some _ => Some (h, false)
  | None =>
      match pair_alloc ok1 (length (mjoin (chains h))) keyPtr dataPtr with
      | None => Some (h, false)
      | Some insertPtr =>
          let newSize := s32 (hashtable_getSize h + 1) in
          if (size_field || resizable) && (newSize <=? 0) then None     (* assert(newSize > 0) *)
          else
            g ← maybe_grow ok2 mem newSize h;
            match g with
            | None => Some (h, false)
            | Some h =>
                r ← insert_at ok3 insertPtr (numBucket h) (buckets h);
                Some (match r with
                      | None => (h, false)
                      | Some bs => (mkHashtable bs (numBucket h) (if size_field then newSize else size h)
                                      (resizeRatio h) (growthFactor h), true)
                      end)
            end
      end
  end.

(** Without growth; the size field is written at the end. *)
Definition TMhashtable_insert (ok1 ok3 : bool) (h : hashtable_t) (keyPtr dataPtr : Z) : option (hashtable_t * bool) :=
  r ← find_pair h keyPtr;
  match r with
  | Some _ => Some (h, false)
  | None =>
      match pair_alloc ok1 (length (mjoin (chains h))) keyPtr dataPtr with
      | None => Some (h, false)
      | Some insertPtr =>
          r ← insert_at ok3 insertPtr (numBucket h) (buckets h);
          match r with
          | None => Some (h, false)
          | Some bs =>
              let newSize := s32 (size h + 1) in
              if size_field && (newSize <=? 0) then None
              else Some (mkHashtable bs (numBucket h) (if size_field then newSize else size h)
                           (resizeRatio h) (growthFactor h), true)
          end
      end
  end.

Definition hashtable_remove (h : hashtable_t) (keyPtr : Z) : option (hashtable_t * bool) :=
  i ← index_of keyPtr (numBucket h);
  ch ← buckets h !! i;
  match lfind comparePairs (findPair keyPtr) ch with
  | None => Some (h, false)
  | Some _ =>
      ch ← lremove comparePairs (findPair keyPtr) ch;      (* assert(status) *)
      let size' := s32 (size h - 1) in
      if size_field && (size' <? 0) then None
      else Some (mkHashtable (<[i := ch]> (buckets h)) (numBucket h) (if size_field then size' else size h)
                   (resizeRatio h) (growthFactor h), true)
  end.

(** The transactional version; with the size field it does not compile (a comma is
    missing), so this is its meaning without the field. *)
Definition TMhashtable_remove := hashtable_remove.

(** *** The iterator: a bucket and the number of pairs of it already returned *)

Record hashtable_iter_t := mkIter { bucket : Z; it : nat }.

Definition hashtable_iter_reset : hashtable_iter_t := mkIter 0 0.
Definition TMhashtable_iter_reset := hashtable_iter_reset.

(** The loop both iterator functions share: the next position that holds a pair;
    [k] bounds the buckets left. *)
Fixpoint seek (k : nat) (h : hashtable_t) (i : hashtable_iter_t) : option (hashtable_iter_t * option pair_t) :=
  match k with
  | O => Some (i, None)
  | S k =>
      if bucket i <? numBucket h then
        ch ← buckets h !! Z.to_nat (bucket i);
        match ch !! it i with
        | Some p => Some (i, Some p)
        | None => _ ← buckets h !! Z.to_nat (bucket i + 1); seek k h (mkIter (bucket i + 1) 0)
        end
      else Some (i, None)
  end.

Definition hashtable_iter_hasNext (h : hashtable_t) (i : hashtable_iter_t) : option bool :=
  '(_, r) ← seek (S (Z.to_nat (numBucket h))) h i; Some (match r with Some _ => true | None => false end).

Definition TMhashtable_iter_hasNext := hashtable_iter_hasNext.

Definition hashtable_iter_next (h : hashtable_t) (i : hashtable_iter_t) : option (hashtable_iter_t * Z) :=
  '(i, r) ← seek (S (Z.to_nat (numBucket h))) h i;
  Some (match r with Some p => (mkIter (bucket i) (S (it i)), secondPtr p) | None => (i, NULL) end).

Definition TMhashtable_iter_next := hashtable_iter_next.

(** ** What the table represents: a finite map

    Keys are pointers; [norm] gives the value a key stands for, by which the client's
    functions compare and hash. *)

Context (norm : Z -> Z).
Hypothesis cmp_norm : forall a b, cmp a b = 0 <-> norm a = norm b.
Hypothesis hash_norm : forall a b, norm a = norm b -> hash a = hash b.
Context {cmp_comparison : Comparison comparePairs}.

Definition nkey (p : pair_t) : Z := norm (firstPtr p).

Definition entry (p : pair_t) : Z * Z := (nkey p, secondPtr p).

Definition abs (es : list pair_t) : gmap Z Z := list_to_map (entry <$> es).

(** [n] chains and the dummy: each chain sorted, each pair in its chain. *)
Definition wf_buckets (n : Z) (bs : list (list pair_t)) : Prop :=
  1 <= n /\ Z.of_nat (length bs) = n + 1 /\ bs !! Z.to_nat n = Some [] /\
  forall j ch, bs !! j = Some ch ->
    StronglySorted (cle comparePairs) ch /\ forall p, p ∈ ch -> Z.to_nat (hash (firstPtr p) mod n) = j.

Lemma entry_keys es : (entry <$> es).*1 = nkey <$> es.
Proof. rewrite <- list_fmap_compose. by apply list_fmap_ext. Qed.

Lemma abs_perm es es' : NoDup (nkey <$> es) -> es ≡ₚ es' -> abs es = abs es'.
Proof.
  intros Hn Hp. apply list_to_map_proper; [by rewrite entry_keys|]. by rewrite Hp.
Qed.

Lemma abs_cons p es : abs (p :: es) = <[nkey p := secondPtr p]> (abs es).
Proof. done. Qed.

Lemma abs_elem es p : NoDup (nkey <$> es) -> p ∈ es -> abs es !! nkey p = Some (secondPtr p).
Proof.
  intros Hn Hp. apply elem_of_list_to_map_1; [by rewrite entry_keys|]. by apply (list_elem_of_fmap_2 entry es p).
Qed.

Lemma abs_None es k : abs es !! k = None <-> forall p, p ∈ es -> nkey p <> k.
Proof.
  unfold abs. rewrite <- not_elem_of_list_to_map, entry_keys, list_elem_of_fmap. naive_solver.
Qed.

Lemma bucket_update (bs : list (list pair_t)) i ch : bs !! i = Some ch ->
  exists rest, mjoin bs ≡ₚ ch ++ rest /\ forall ch', mjoin (<[i := ch']> bs) ≡ₚ ch' ++ rest.
Proof.
  intros Hi. exists (mjoin (take i bs) ++ mjoin (drop (S i) bs)). split.
  - rewrite <- (take_drop_middle bs i ch Hi) at 1. rewrite join_app. simpl. by rewrite Permutation_app_swap_app.
  - intros ch'. rewrite insert_take_drop by by eapply lookup_lt_Some. rewrite join_app. simpl. by rewrite Permutation_app_swap_app.
Qed.

Lemma index_of_wf k n bs : wf_buckets n bs ->
  exists i ch, index_of k n = Some i /\ i = Z.to_nat (hash k mod n) /\ (i < Z.to_nat n)%nat /\ bs !! i = Some ch.
Proof.
  intros (Hn & Hl & _). unfold index_of. rewrite (proj2 (Z.eqb_neq n 0)) by lia.
  pose proof (Z.mod_pos_bound (hash k) n ltac:(lia)) as Hm.
  destruct (lookup_lt_is_Some_2 bs (Z.to_nat (hash k mod n))) as [ch Hch]; [lia|]. exists (Z.to_nat (hash k mod n)), ch.
  split_and!; [done|done|lia|done].
Qed.

(** A search in the key's chain decides the key. *)
Lemma lfind_bucket n bs k i ch :
  wf_buckets n bs -> NoDup (nkey <$> mjoin bs) -> i = Z.to_nat (hash k mod n) -> bs !! i = Some ch ->
  secondPtr <$> lfind comparePairs (findPair k) ch = abs (mjoin bs) !! norm k.
Proof.
  intros Hwf Hnd Hi Hch. destruct (lfind comparePairs (findPair k) ch) as [p|] eqn:Ef; simpl.
  - destruct (lfind_Some comparePairs _ _ _ Ef) as [Hp Hc]. unfold comparePairs in Hc. apply cmp_norm in Hc. simpl in Hc. rewrite <- Hc. symmetry. apply abs_elem; [done|].
    apply list_elem_of_join. eexists. split; [exact Hp|]. by eapply list_elem_of_lookup_2.
  - symmetry. apply abs_None. intros p Hp Hk. apply list_elem_of_join in Hp as (ch' & Hp & [j Hj]%list_elem_of_lookup).
    destruct Hwf as (Hn & Hl & _ & Hall). destruct (Hall j ch' Hj) as [_ Hh]. specialize (Hh p Hp).
    rewrite (hash_norm (firstPtr p) k Hk) in Hh. assert (ch' = ch) as -> by congruence.
    destruct (Hall i ch Hch) as [Hs _]. eapply (lfind_None comparePairs (findPair k) ch Hs Ef p Hp). by apply cmp_norm.
Qed.

(** A search reads only the key of the pair it searches with. *)
Lemma lsplit_key p ch : lsplit comparePairs p ch = lsplit comparePairs (findPair (firstPtr p)) ch.
Proof. induction ch as [|q ch IH]; [done|]. simpl. by rewrite IH. Qed.

Lemma lfind_key p ch : lfind comparePairs p ch = lfind comparePairs (findPair (firstPtr p)) ch.
Proof. unfold lfind. by rewrite lsplit_key. Qed.

Lemma insert_at_spec ok p n bs :
  wf_buckets n bs -> NoDup (nkey <$> mjoin bs) -> abs (mjoin bs) !! nkey p = None ->
  exists r, insert_at ok p n bs = Some r /\
    if ok then exists bs', r = Some bs' /\ wf_buckets n bs' /\ mjoin bs' ≡ₚ p :: mjoin bs else r = None.
Proof.
  intros Hwf Hnd Hnone. destruct (index_of_wf (firstPtr p) n bs Hwf) as (i & ch & Hix & Hi & Hlt & Hch).
  unfold insert_at. rewrite Hix. cbn [mbind option_bind]. rewrite Hch. cbn [mbind option_bind].
  destruct ok; [|eauto]. pose proof (lfind_bucket n bs (firstPtr p) i ch Hwf Hnd Hi Hch) as Hf.
  fold (nkey p) in Hf. rewrite Hnone in Hf.
  assert (Hfp : lfind comparePairs p ch = None).
  { rewrite (lfind_key p). by destruct (lfind comparePairs (findPair (firstPtr p)) ch). }
  unfold linsert. rewrite Hfp. replace (no_dup && _) with false by (symmetry; apply andb_false_intro2, bool_decide_eq_false_2; by intros []).
  eexists. split; [done|]. eexists. split; [done|]. set (ch' := _ ++ p :: _).
  assert (Hlin : linsert comparePairs false p ch = Some ch') by done.
  pose proof (linsert_perm comparePairs _ _ _ _ Hlin) as Hperm. destruct (bucket_update bs i ch Hch) as (rest & Hr1 & Hr2).
  split; [|by rewrite Hr2, Hr1, Hperm]. destruct Hwf as (Hn & Hl & Hd & Hall).
  split_and!; [done|by rewrite length_insert|rewrite list_lookup_insert_ne by lia; done|].
  intros j c Hj. destruct (decide (j = i)) as [-> |Hne]; [|rewrite list_lookup_insert_ne in Hj by done; by apply Hall].
  rewrite list_lookup_insert_eq in Hj by by eapply lookup_lt_Some. simplify_eq. destruct (Hall _ _ Hch) as [Hs Hh].
  split; [by eapply linsert_sorted|]. intros q Hq. rewrite Hperm in Hq. apply elem_of_cons in Hq as [-> |Hq]; [done|by apply Hh].
Qed.

Lemma abs_None_nodup p es : NoDup (nkey <$> p :: es) <-> abs es !! nkey p = None /\ NoDup (nkey <$> es).
Proof. rewrite fmap_cons, NoDup_cons, abs_None, list_elem_of_fmap. naive_solver. Qed.

Lemma forallb_shift (f : nat -> bool) n : forall k, forallb (fun j => f (S j)) (seq k n) = forallb f (seq (S k) n).
Proof. induction n as [|n IH]; intros k; simpl; [done|]. by rewrite IH. Qed.

(** The pairs are all moved, or a list node that does not find memory stops the move. *)
Lemma rehash_loop_spec ps : forall mem n new,
  wf_buckets n new -> NoDup (nkey <$> ps ++ mjoin new) ->
  exists r, rehash_loop mem ps n new = Some r /\
    if forallb mem (seq 0 (length ps)) then exists bs, r = Some bs /\ wf_buckets n bs /\ mjoin bs ≡ₚ ps ++ mjoin new
    else r = None.
Proof.
  induction ps as [|p ps IH]; intros mem n new Hwf Hnd; simpl; [eexists; split; [done|]; eauto|].
  rewrite <- app_comm_cons in Hnd. apply abs_None_nodup in Hnd as [Hnone Hnd].
  assert (Hnew : NoDup (nkey <$> mjoin new)) by (rewrite fmap_app in Hnd; by apply NoDup_app in Hnd as (_ & _ & ?)).
  destruct (insert_at_spec (mem 0%nat) p n new) as (r & -> & Hr); [done|done| |].
  { apply abs_None. intros q Hq. rewrite abs_None in Hnone. apply Hnone. apply elem_of_app. by right. }
  cbn [mbind option_bind]. destruct (mem 0%nat); [|subst; simpl; eauto]. destruct Hr as (bs & -> & Hwf' & Hp).
  destruct (IH (fun k => mem (S k)) n bs Hwf') as (r & -> & Hr).
  { rewrite Hp, <- Permutation_middle. by apply abs_None_nodup. }
  rewrite forallb_shift in Hr. simpl. exists r. split; [done|]. case_match; [|done].
  destruct Hr as (bs' & -> & Hwf2 & Hp2). exists bs'. split_and!; [done|done|]. by rewrite Hp2, Hp, <- Permutation_middle.
Qed.

Lemma allocBuckets_Some ok n : is_Some (allocBuckets ok n) <-> ok && (n + 1 <? MAX_OBJECTS) = true.
Proof. unfold allocBuckets. destruct (ok && _); split; try done; by intros []. Qed.

Lemma allocBuckets_wf ok n bs : 1 <= n -> allocBuckets ok n = Some bs -> wf_buckets n bs /\ mjoin bs = [] /\ n + 1 < MAX_OBJECTS.
Proof.
  intros Hn Ha. unfold allocBuckets in Ha. destruct ok; [|done]. destruct (Z.ltb_spec (n + 1) MAX_OBJECTS); [|done].
  simpl in Ha. simplify_eq. split_and!; [|by induction (Z.to_nat (n + 1))|done].
  split_and!; [done|rewrite length_replicate; lia|rewrite lookup_replicate_2 by lia; done|].
  intros j ch [-> _]%lookup_replicate. split; [constructor|]. by intros ? ?%elem_of_nil.
Qed.

Section sized.
Context (ratio growth : Z).

(** The map a table represents, and its number of buckets; [ratio] and [growth] are
    the table's own. *)
Definition repr (h : hashtable_t) (a : gmap Z Z * Z) : Prop :=
  a.2 = numBucket h /\ wf_buckets (numBucket h) (buckets h) /\ numBucket h + 1 < MAX_OBJECTS /\
  NoDup (nkey <$> mjoin (buckets h)) /\ a.1 = abs (mjoin (buckets h)) /\
  Z.of_nat (length (mjoin (buckets h))) <= MAX_OBJECTS /\
  (size_field = true -> size h = Z.of_nat (length (mjoin (buckets h)))) /\
  resizeRatio h = ratio /\ growthFactor h = growth /\ 1 <= growth <= 3.

Lemma chains_all h : wf_buckets (numBucket h) (buckets h) -> mjoin (chains h) = mjoin (buckets h).
Proof.
  intros (Hn & Hl & Hd & _). unfold chains. rewrite <- (take_drop_middle _ _ _ Hd) at 2.
  rewrite join_app. simpl. rewrite drop_ge by lia. simpl. by rewrite app_nil_r.
Qed.

Lemma abs_size es : NoDup (nkey <$> es) -> base.size (abs es) = length es.
Proof.
  intros Hn. unfold abs. rewrite map_size_list_to_map by by rewrite entry_keys. by rewrite length_fmap.
Qed.

Lemma getSize_spec h a : repr h a -> hashtable_getSize h = Z.of_nat (base.size a.1).
Proof.
  intros (_ & Hwf & _ & Hnd & -> & _ & Hsz & _). rewrite abs_size by done. unfold hashtable_getSize.
  destruct size_field; [by apply Hsz|]. rewrite <- (chains_all h Hwf). rewrite foldl_zsum. simpl.
  induction (chains h) as [|c cs IH]; [done|]. simpl. rewrite length_app. lia.
Qed.

Lemma all_empty_spec chs : all_empty chs = bool_decide (mjoin chs = []).
Proof. induction chs as [|[|p c] chs IH]; [done|done|]. by rewrite bool_decide_eq_false_2. Qed.

Lemma isEmpty_spec h a : repr h a -> hashtable_isEmpty h = bool_decide (a.1 = ∅).
Proof.
  intros Hr. pose proof Hr as (_ & Hwf & _ & Hnd & Ha & _ & Hsz & _). pose proof (getSize_spec h a Hr) as Hg.
  assert (He : a.1 = ∅ <-> mjoin (buckets h) = []).
  { rewrite <- map_size_empty_iff, Ha, abs_size by done. apply length_zero_iff_nil. }
  unfold hashtable_isEmpty, hashtable_getSize in *. destruct size_field.
  - rewrite (Hsz eq_refl). rewrite (bool_decide_ext _ _ He). destruct (mjoin (buckets h)); [done|]. by rewrite bool_decide_eq_false_2.
  - rewrite all_empty_spec, (chains_all h Hwf). symmetry. by apply bool_decide_ext.
Qed.

Lemma find_pair_spec h a k : repr h a ->
  exists r, find_pair h k = Some r /\ secondPtr <$> r = a.1 !! norm k.
Proof.
  intros (_ & Hwf & _ & Hnd & -> & _). destruct (index_of_wf k _ _ Hwf) as (i & ch & Hix & Hi & _ & Hch).
  unfold find_pair. rewrite Hix. cbn [mbind option_bind]. rewrite Hch. cbn [mbind option_bind].
  eexists. split; [done|]. by eapply lfind_bucket.
Qed.

(** Growth on the map: when the ratio asks for it, the buckets are multiplied, which
    takes memory for the new array ([ok]) and one list node per entry ([mem]). *)
Definition abs_grow (ok : bool) (mem : nat -> bool) (a : gmap Z Z * Z) : option (gmap Z Z * Z) :=
  if resizable && (s32 (a.2 * ratio) <=? Z.of_nat (base.size a.1) + 1) then
    if ok && (growth * a.2 + 1 <? MAX_OBJECTS) && forallb mem (seq 0 (base.size a.1))
    then Some (a.1, growth * a.2) else None
  else Some a.

(** A new key is refused only when the pair, the growth or the list node does not find
    memory; a table that has grown stays so. *)
Definition abs_insert (ok1 ok2 ok3 : bool) (mem : nat -> bool) (k d : Z) (a : gmap Z Z * Z) : bool * (gmap Z Z * Z) :=
  match a.1 !! norm k with
  | Some _ => (false, a)
  | None =>
      if ok1 && (Z.of_nat (base.size a.1) <? MAX_OBJECTS) then
        match abs_grow ok2 mem a with
        | None => (false, a)
        | Some a => if ok3 then (true, (<[norm k := d]> a.1, a.2)) else (false, a)
        end
      else (false, a)
  end.

(** The transactional insertion never grows the table. *)
Definition abs_TMinsert (ok1 ok3 : bool) (k d : Z) (a : gmap Z Z * Z) : bool * (gmap Z Z * Z) :=
  match a.1 !! norm k with
  | Some _ => (false, a)
  | None =>
      if ok1 && (Z.of_nat (base.size a.1) <? MAX_OBJECTS) && ok3
      then (true, (<[norm k := d]> a.1, a.2)) else (false, a)
  end.

Lemma maybe_grow_spec ok mem h a : repr h a ->
  exists r, maybe_grow ok mem (Z.of_nat (base.size a.1) + 1) h = Some r /\
    match abs_grow ok mem a with None => r = None | Some a' => a'.1 = a.1 /\ exists h', r = Some h' /\ repr h' a' end.
Proof.
  intros Hr. pose proof Hr as (Hnb & Hwf & Hmax & Hnd & Ha & Hlen & Hsz & Hra & Hgr & Hg). unfold maybe_grow, abs_grow.
  rewrite Hnb, Hra. destruct (resizable && _); [|eauto 7].
  assert (Hn1 : 1 <= numBucket h) by apply Hwf. assert (Hes : base.size a.1 = length (mjoin (buckets h))) by (rewrite Ha; by apply abs_size).
  assert (Hb : 1 <= growth * numBucket h < 2 ^ 31) by (unfold MAX_OBJECTS in *; nia).
  unfold rehash. rewrite Hgr, (Z.mul_comm (numBucket h) growth), (s32_small (growth * numBucket h)) by lia.
  pose proof (allocBuckets_Some ok (growth * numBucket h)) as Hsome.
  destruct (allocBuckets ok (growth * numBucket h)) as [new|] eqn:Ea.
  - rewrite (proj1 Hsome) by eauto.
    destruct (allocBuckets_wf _ _ _ (proj1 Hb) Ea) as (Hwn & Hjn & Hmn). rewrite (chains_all h Hwf).
    destruct (rehash_loop_spec (mjoin (buckets h)) mem _ new Hwn) as (r & -> & Hrr); [by rewrite Hjn, app_nil_r|].
    cbn [mbind option_bind]. rewrite Hes. eexists. split; [done|]. simpl. destruct (forallb _ _); [|by subst].
    destruct Hrr as (bs & -> & Hwb & Hpb). split; [done|]. rewrite Hjn, app_nil_r in Hpb. eexists. split; [done|]. unfold repr. simpl.
    split_and!; try done; try lia; [by rewrite Hpb|rewrite Ha; apply abs_perm; [done|by rewrite Hpb]|by rewrite Hpb|by rewrite Hpb].
  - cbn [mbind option_bind]. eexists. split; [done|]. destruct (ok && _); [|done]. by destruct (proj2 Hsome eq_refl).
Qed.

(** A pair under a new key, put into its chain. *)
Lemma add_pair h a bs k d sz :
  repr h a -> a.1 !! norm k = None -> Z.of_nat (length (mjoin (buckets h))) < MAX_OBJECTS ->
  wf_buckets (numBucket h) bs -> mjoin bs ≡ₚ mkPair k d :: mjoin (buckets h) ->
  (size_field = true -> sz = size h + 1) ->
  repr (mkHashtable bs (numBucket h) sz (resizeRatio h) (growthFactor h)) (<[norm k := d]> a.1, a.2).
Proof.
  intros (Hnb & Hwf & Hmax & Hnd & Ha & Hlen & Hsz & Hra & Hgr & Hg) Hnone Hlt Hwb Hp Hs.
  assert (Hnd' : NoDup (nkey <$> mkPair k d :: mjoin (buckets h))) by (apply abs_None_nodup; by rewrite <- Ha).
  assert (Hl : length (mjoin bs) = S (length (mjoin (buckets h)))) by by rewrite Hp.
  unfold repr. simpl. split_and!; try done; try lia; [by rewrite Hp| |].
  - rewrite (abs_perm (mjoin bs) (mkPair k d :: mjoin (buckets h))); [by rewrite abs_cons, <- Ha|by rewrite Hp|done].
  - intros E. rewrite Hs, Hsz, Hl by done. lia.
Qed.

Lemma find_pair_None h a k r : repr h a -> find_pair h k = Some r ->
  match r with Some _ => is_Some (a.1 !! norm k) | None => a.1 !! norm k = None end.
Proof.
  intros Hr Hf. destruct (find_pair_spec h a k Hr) as (r' & Hf' & Hk). rewrite Hf' in Hf. simplify_eq. rewrite <- Hk.
  by destruct r; eauto.
Qed.

Lemma hashtable_insert_spec ok1 ok2 ok3 mem h a k d : repr h a ->
  let '(b, a') := abs_insert ok1 ok2 ok3 mem k d a in
  exists h', hashtable_insert ok1 ok2 ok3 mem h k d = Some (h', b) /\ repr h' a'.
Proof.
  intros Hr. pose proof Hr as (Hnb & Hwf & Hmax & Hnd & Ha & Hlen & Hsz & _). unfold hashtable_insert, abs_insert.
  destruct (find_pair_spec h a k Hr) as (r & Hf & Hk). rewrite Hf. cbn [mbind option_bind].
  pose proof (find_pair_None h a k r Hr Hf) as Hnone. destruct r as [p|]; [destruct Hnone as [v ->]; eauto|].
  rewrite Hnone. assert (Hes : length (mjoin (buckets h)) = base.size a.1) by (rewrite Ha; by rewrite abs_size).
  unfold pair_alloc. rewrite (chains_all h Hwf), Hes. destruct ok1; simpl; [|eauto].
  destruct (Z.ltb_spec (Z.of_nat (base.size a.1)) MAX_OBJECTS) as [Hlt|]; [|eauto].
  rewrite (getSize_spec h a Hr). rewrite s32_small by (unfold MAX_OBJECTS in *; lia).
  rewrite (proj2 (Z.leb_gt _ 0)), andb_false_r by lia.
  destruct (maybe_grow_spec ok2 mem h a Hr) as (g & -> & Hgr). cbn [mbind option_bind].
  destruct (abs_grow ok2 mem a) as [a1|]; [|subst; eauto]. destruct Hgr as (H1 & h' & -> & Hr').
  pose proof Hr' as (_ & Hwf' & _ & Hnd' & Ha' & _ & Hsz' & _). rewrite <- H1 in *.
  destruct (insert_at_spec ok3 (mkPair k d) (numBucket h') (buckets h') Hwf' Hnd') as (r & -> & Hri); [by rewrite <- Ha'|].
  cbn [mbind option_bind]. destruct ok3; [|subst; eauto]. destruct Hri as (bs & -> & Hwb & Hpb).
  eexists. split; [done|]. apply (add_pair h' a1); try done.
  - rewrite <- (abs_size (mjoin (buckets h'))), <- Ha' by done. done.
  - intros E. rewrite E. rewrite Hsz' by done. rewrite <- (abs_size (mjoin (buckets h'))), <- Ha' by done. done.
Qed.

Lemma TMhashtable_insert_spec ok1 ok3 h a k d : repr h a ->
  let '(b, a') := abs_TMinsert ok1 ok3 k d a in
  exists h', TMhashtable_insert ok1 ok3 h k d = Some (h', b) /\ repr h' a'.
Proof.
  intros Hr. pose proof Hr as (Hnb & Hwf & Hmax & Hnd & Ha & Hlen & Hsz & _). unfold TMhashtable_insert, abs_TMinsert.
  destruct (find_pair_spec h a k Hr) as (r & Hf & Hk). rewrite Hf. cbn [mbind option_bind].
  pose proof (find_pair_None h a k r Hr Hf) as Hnone. destruct r as [p|]; [destruct Hnone as [v ->]; eauto|].
  rewrite Hnone. assert (Hes : length (mjoin (buckets h)) = base.size a.1) by (rewrite Ha; by rewrite abs_size).
  unfold pair_alloc. rewrite (chains_all h Hwf), Hes. destruct ok1; simpl; [|eauto].
  destruct (Z.ltb_spec (Z.of_nat (base.size a.1)) MAX_OBJECTS) as [Hlt|]; [|simpl; eauto].
  destruct (insert_at_spec ok3 (mkPair k d) (numBucket h) (buckets h) Hwf Hnd) as (r & -> & Hri); [by rewrite <- Ha|].
  cbn [mbind option_bind]. destruct ok3; simpl; [|subst; eauto]. destruct Hri as (bs & -> & Hwb & Hpb).
  assert (Hsz1 : size_field = true -> s32 (size h + 1) = size h + 1).
  { intros E. apply s32_small. rewrite (Hsz E), Hes. unfold MAX_OBJECTS in *. lia. }
  replace (size_field && _) with false.
  2: { symmetry. destruct size_field; [|done]. rewrite (Hsz1 eq_refl), (Hsz eq_refl). simpl. lia. }
  eexists. split; [done|]. apply add_pair; try done; [by rewrite Hes|]. intros E. rewrite E. by apply Hsz1.
Qed.

Lemma hashtable_remove_spec h a k : repr h a ->
  exists h', hashtable_remove h k = Some (h', bool_decide (is_Some (a.1 !! norm k))) /\ repr h' (delete (norm k) a.1, a.2).
Proof.
  intros Hr. pose proof Hr as (Hnb & Hwf & Hmax & Hnd & Ha & Hlen & Hsz & Hra & Hgr & Hg).
  destruct (index_of_wf k _ _ Hwf) as (i & ch & Hix & Hi & Hlt & Hch). unfold hashtable_remove.
  rewrite Hix. cbn [mbind option_bind]. rewrite Hch. cbn [mbind option_bind].
  pose proof (lfind_bucket _ _ k i ch Hwf Hnd Hi Hch) as Hf. rewrite <- Ha in Hf.
  destruct (lfind comparePairs (findPair k) ch) as [p|] eqn:Ef; simpl in Hf; rewrite <- Hf.
  2: { exists h. split; [by rewrite bool_decide_eq_false_2 by by intros []|]. rewrite delete_id by done. by destruct a. }
  destruct (lremove comparePairs (findPair k) ch) as [ch'|] eqn:Er; [|apply lremove_None in Er; congruence].
  cbn [mbind option_bind]. destruct (lremove_Some comparePairs _ _ _ Er) as (p' & Hp' & Hperm). assert (p' = p) as -> by congruence.
  destruct (lfind_Some comparePairs _ _ _ Ef) as [_ Hc]. unfold comparePairs in Hc. apply cmp_norm in Hc. simpl in Hc.
  destruct (bucket_update _ i ch Hch) as (rest & Hr1 & Hr2).
  assert (Hes : mjoin (buckets h) ≡ₚ p :: mjoin (<[i := ch']> (buckets h))) by by rewrite Hr1, Hr2, Hperm.
  pose proof Hnd as Hnd'. rewrite Hes in Hnd'. apply abs_None_nodup in Hnd' as [Hnone Hnd'].
  pose proof (Permutation_length Hes) as Hl. simpl in Hl.
  assert (Hs1 : size_field = true -> s32 (size h - 1) = size h - 1).
  { intros E. apply s32_small. rewrite (Hsz E). unfold MAX_OBJECTS in *. lia. }
  replace (size_field && _) with false.
  2: { symmetry. destruct size_field; [|done]. rewrite (Hs1 eq_refl), (Hsz eq_refl). simpl. lia. }
  eexists. split; [by rewrite bool_decide_eq_true_2 by eauto|]. unfold repr. simpl. split_and!; try done; try lia.
  - destruct Hwf as (Hn & Hlb & Hd & Hall). split_and!; [done|by rewrite length_insert|by rewrite list_lookup_insert_ne by lia|].
    intros j c Hj. destruct (decide (j = i)) as [-> |Hne]; [|rewrite list_lookup_insert_ne in Hj by done; by apply Hall].
    rewrite list_lookup_insert_eq in Hj by by eapply lookup_lt_Some. simplify_eq. destruct (Hall _ _ Hch) as [Hss Hh].
    split; [by eapply lremove_sorted|]. intros q Hq. apply Hh. rewrite Hperm. by right.
  - rewrite Ha, (abs_perm _ _ Hnd Hes), abs_cons. fold (nkey p) in Hc. rewrite Hc. apply delete_insert_id. by rewrite <- Hc.
  - intros E. rewrite E, Hs1, Hsz by done. lia.
Qed.

(** *** The iterator *)

(** The pairs an iterator has not returned yet. *)
Definition remaining (h : hashtable_t) (i : hashtable_iter_t) : list pair_t :=
  match buckets h !! Z.to_nat (bucket i) with
  | Some ch => drop (it i) ch ++ mjoin (drop (S (Z.to_nat (bucket i))) (buckets h))
  | None => []
  end.

Lemma seek_spec h k : wf_buckets (numBucket h) (buckets h) -> forall i,
  0 <= bucket i <= numBucket h -> (Z.to_nat (numBucket h - bucket i) < k)%nat ->
  exists i', seek k h i = Some (i', head (remaining h i)) /\ 0 <= bucket i' <= numBucket h /\
    forall p ps, remaining h i = p :: ps -> remaining h (mkIter (bucket i') (S (it i'))) = ps.
Proof.
  intros Hwf. pose proof Hwf as (Hn & Hl & Hd & _). induction k as [|k IH]; intros i Hb Hk; [lia|]. simpl.
  destruct (lookup_lt_is_Some_2 (buckets h) (Z.to_nat (bucket i))) as [ch Hch]; [lia|].
  destruct (Z.ltb_spec (bucket i) (numBucket h)) as [Hlt|Hge].
  - rewrite Hch. cbn [mbind option_bind]. destruct (ch !! it i) as [p|] eqn:Ep.
    + exists i. unfold remaining. simpl. rewrite Hch. rewrite (drop_S _ _ _ Ep). simpl. split_and!; [done|lia|lia|].
      intros q ps Hq. by simplify_eq.
    + destruct (lookup_lt_is_Some_2 (buckets h) (Z.to_nat (bucket i + 1))) as [c2 Hc2]; [lia|]. rewrite Hc2. cbn [mbind option_bind].
      destruct (IH (mkIter (bucket i + 1) 0)) as (i' & -> & Hb' & Hps); [simpl; lia|simpl; lia|].
      assert (Hrem : remaining h (mkIter (bucket i + 1) 0) = remaining h i).
      { unfold remaining. simpl. rewrite Hc2, Hch, (drop_ge ch) by by apply lookup_ge_None_1.
        simpl. replace (Z.to_nat (bucket i + 1)) with (S (Z.to_nat (bucket i))) in * by lia. rewrite (drop_S _ _ _ Hc2). done. }
      exists i'. rewrite Hrem in Hps |- *. split; [done|]. by split.
  - assert (Hbi : bucket i = numBucket h) by lia. exists i. rewrite Hbi in Hch. assert (ch = []) as -> by congruence.
    assert (Hrem : remaining h i = []).
    { unfold remaining. rewrite Hbi, Hch, (drop_ge (buckets h)) by lia. by rewrite drop_nil. }
    rewrite Hrem. split_and!; [done|lia|lia|done].
Qed.

(** The loop [while (hasNext) next] of the clients. *)
Fixpoint iterate (fuel : nat) (h : hashtable_t) (i : hashtable_iter_t) : option (list Z) :=
  match fuel with
  | O => None
  | S fuel =>
      b ← hashtable_iter_hasNext h i;
      if b : bool then '(i, d) ← hashtable_iter_next h i; ds ← iterate fuel h i; Some (d :: ds)
      else Some []
  end.

Lemma iterate_spec h : wf_buckets (numBucket h) (buckets h) -> forall fuel i,
  0 <= bucket i <= numBucket h -> (length (remaining h i) < fuel)%nat ->
  iterate fuel h i = Some (secondPtr <$> remaining h i).
Proof.
  intros Hwf. induction fuel as [|fuel IH]; intros i Hb Hf; [lia|]. simpl. unfold hashtable_iter_hasNext, hashtable_iter_next.
  destruct (seek_spec h (S (Z.to_nat (numBucket h))) Hwf i Hb) as (i' & -> & Hb' & Hps); [lia|]. cbn [mbind option_bind].
  destruct (remaining h i) as [|p ps] eqn:Er; [done|]. simpl. rewrite IH; [|done|].
  - rewrite (Hps p ps eq_refl). done.
  - rewrite (Hps p ps eq_refl). simpl in Hf. lia.
Qed.

Lemma remaining_all h : wf_buckets (numBucket h) (buckets h) -> remaining h hashtable_iter_reset = mjoin (buckets h).
Proof.
  intros (Hn & Hl & _). unfold remaining. simpl. destruct (buckets h) as [|c bs]; [simpl in Hl; lia|]. simpl. by rewrite drop_0.
Qed.

(** ** The container *)

Inductive htop :=
| Insert (ok1 ok2 ok3 : bool) (mem : nat -> bool) (keyPtr dataPtr : Z)
| TMInsert (ok1 ok3 : bool) (keyPtr dataPtr : Z)
| Remove (keyPtr : Z) | Find (keyPtr : Z) | ContainsKey (keyPtr : Z) | GetSize | IsEmpty.

Definition htstep (o : htop) (h : hashtable_t) : option (hashtable_t * Z) :=
  match o with
  | Insert ok1 ok2 ok3 mem k d => '(h, b) ← hashtable_insert ok1 ok2 ok3 mem h k d; Some (h, Z.b2z b)
  | TMInsert ok1 ok3 k d => '(h, b) ← TMhashtable_insert ok1 ok3 h k d; Some (h, Z.b2z b)
  | Remove k => '(h, b) ← hashtable_remove h k; Some (h, Z.b2z b)
  | Find k => r ← hashtable_find h k; Some (h, r)
  | ContainsKey k => b ← hashtable_containsKey h k; Some (h, Z.b2z b)
  | GetSize => Some (h, hashtable_getSize h)
  | IsEmpty => Some (h, Z.b2z (hashtable_isEmpty h))
  end.

(** The operations of a finite map. *)
Definition htspec (o : htop) (a : gmap Z Z * Z) (r : Z) (a' : gmap Z Z * Z) : Prop :=
  match o with
  | Insert ok1 ok2 ok3 mem k d =>
      let '(b, a1) := abs_insert ok1 ok2 ok3 mem k d a in r = Z.b2z b /\ a' = a1
  | TMInsert ok1 ok3 k d => let '(b, a1) := abs_TMinsert ok1 ok3 k d a in r = Z.b2z b /\ a' = a1
  | Remove k => r = Z.b2z (bool_decide (is_Some (a.1 !! norm k))) /\ a' = (delete (norm k) a.1, a.2)
  | Find k => r = default NULL (a.1 !! norm k) /\ a' = a
  | ContainsKey k => r = Z.b2z (bool_decide (is_Some (a.1 !! norm k))) /\ a' = a
  | GetSize => r = Z.of_nat (base.size a.1) /\ a' = a
  | IsEmpty => r = Z.b2z (bool_decide (a.1 = ∅)) /\ a' = a
  end.

Lemma hashtable_sim o h a : repr h a -> True ->
  exists h' r a', htstep o h = Some (h', r) /\ htspec o a r a' /\ repr h' a'.
Proof.
  intros Hr _. destruct o as [ok1 ok2 ok3 mem k d|ok1 ok3 k d|k|k|k| |]; simpl.
  - pose proof (hashtable_insert_spec ok1 ok2 ok3 mem h a k d Hr) as Hi.
    destruct (abs_insert ok1 ok2 ok3 mem k d a) as [b a']. destruct Hi as (h' & -> & Hr'). simpl. eauto 8.
  - pose proof (TMhashtable_insert_spec ok1 ok3 h a k d Hr) as Hi.
    destruct (abs_TMinsert ok1 ok3 k d a) as [b a']. destruct Hi as (h' & -> & Hr'). simpl. eauto 8.
  - destruct (hashtable_remove_spec h a k Hr) as (h' & -> & Hr'). simpl. eauto 8.
  - destruct (find_pair_spec h a k Hr) as (r & Hf & Hk). unfold hashtable_find. rewrite Hf. simpl. rewrite <- Hk.
    exists h, (match r with Some p => secondPtr p | None => NULL end), a. split_and!; [done|by destruct r|done|done].
  - destruct (find_pair_spec h a k Hr) as (r & Hf & Hk). unfold hashtable_containsKey. rewrite Hf. simpl. rewrite <- Hk.
    exists h, (Z.b2z (match r with Some _ => true | None => false end)), a. split_and!; [done| |done|done].
    by destruct r.
  - exists h, (hashtable_getSize h), a. split_and!; [done|by apply getSize_spec|done|done].
  - exists h, (Z.b2z (hashtable_isEmpty h)), a. split_and!; [done|by rewrite (isEmpty_spec h a)|done|done].
Qed.

Definition hashtable_container : Container hashtable_t htop (gmap Z Z * Z) :=
  {| cstep := htstep; crepr := repr; clegal := fun _ => True; cspec := htspec; csim := hashtable_sim |}.

End sized.

(** The ratio and the factor a table is given: negative arguments ask for the defaults. *)
Definition given (arg dflt : Z) : Z := if arg <? 0 then dflt else arg.

(** The container of the tables allocated with these arguments. *)
Definition allocated_container (ratio growth : Z) : Container hashtable_t htop (gmap Z Z * Z) :=
  hashtable_container (given ratio HASHTABLE_DEFAULT_RESIZE_RATIO) (given growth HASHTABLE_DEFAULT_GROWTH_FACTOR).

Lemma hashtable_alloc_repr ok1 ok2 n ratio growth h :
  1 <= n -> growth < 0 \/ 1 <= growth <= 3 -> hashtable_alloc ok1 ok2 n ratio growth = Some h ->
  @crepr _ _ _ (allocated_container ratio growth) h (∅, n).
Proof.
  intros Hn Hg Ha. unfold hashtable_alloc in Ha. destruct ok1; [|done].
  destruct (allocBuckets ok2 n) as [bs|] eqn:Eb; [|done]. cbn [mbind option_bind] in Ha. simplify_eq.
  destruct (allocBuckets_wf _ _ _ Hn Eb) as (Hwf & Hj & Hm). simpl. unfold repr, given. simpl. rewrite Hj. simpl. unfold MAX_OBJECTS in *.
  split_and!; try done; try lia; try constructor.
  - destruct (Z.ltb_spec growth 0); unfold HASHTABLE_DEFAULT_GROWTH_FACTOR; lia.
  - destruct (Z.ltb_spec growth 0); unfold HASHTABLE_DEFAULT_GROWTH_FACTOR; lia.
Qed.

(** C17: the hash table is a finite map.  For keys that compare and hash by the value
    they stand for, under every choice of the compile-time options, from any
    successful [hashtable_alloc] of at least one bucket and with a growth factor of 1 to
    3 (or the default), any sequence of operations ends with no failed
    assertion, no access outside the array of chains and no division by zero, and
    returns what a finite map returns.  The specification is a function: a key that is
    present is not inserted again; a new key enters the map unless the allocation of
    the pair, of the list node or, when the number of entries reaches the ratio and the
    table grows by its factor, of the new chains and their nodes fails (by lack of
    memory, or because 2^28 of them exist); the number of
    buckets is multiplied by the factor in exactly that case.  The iterator visits
    every entry once. *)
Theorem stamp_hashtable_refines ok1 ok2 n ratio growth h ops :
  1 <= n -> growth < 0 \/ 1 <= growth <= 3 -> hashtable_alloc ok1 ok2 n ratio growth = Some h ->
  exists h' rs a, @crun _ _ _ (allocated_container ratio growth) ops h = Some (h', rs) /\
    @cspecs _ _ _ (allocated_container ratio growth) ops (∅, n) rs a /\
    exists ds, iterate (S (base.size a.1)) h' hashtable_iter_reset = Some ds /\ ds ≡ₚ (map_to_list a.1).*2.
Proof.
  intros Hn Hg Ha. pose proof (hashtable_alloc_repr _ _ _ _ _ _ Hn Hg Ha) as Hr.
  destruct (@crun_sim _ _ _ (allocated_container ratio growth) ops h (∅, n) Hr) as (h' & rs & a & H1 & H2 & H3); [by apply Forall_true|].
  exists h', rs, a. split_and!; [done|done|]. destruct H3 as (_ & Hwf & _ & Hnd & Hab & _).
  rewrite (iterate_spec h' Hwf); [|destruct Hwf; simpl; lia|].
  - eexists. split; [done|]. rewrite (remaining_all h' Hwf), Hab. unfold abs. rewrite map_to_list_to_map by by rewrite entry_keys.
    rewrite <- list_fmap_compose. done.
  - rewrite (remaining_all h' Hwf), Hab, abs_size by done. lia.
Qed.

End operations.

(** The functions of the library's own test, on keys that stand for themselves. *)
Definition test_hash (k : Z) : Z := u32 k.
Definition test_cmp (a b : Z) : Z := a - b.

Lemma test_cmp_norm a b : test_cmp a b = 0 <-> a = b.
Proof. unfold test_cmp. lia. Qed.

Lemma test_hash_norm a b : a = b -> test_hash a = test_hash b.
Proof. by intros ->. Qed.

#[export] Instance test_comparison : Comparison (comparePairs test_cmp).
Proof. split; unfold comparePairs, test_cmp; intros; lia. Qed.

Definition test_container (size_field resizable no_dup : bool) (ratio growth : Z) : Container hashtable_t htop (gmap Z Z * Z) :=
  allocated_container test_hash test_cmp size_field resizable no_dup (fun k => k) test_cmp_norm test_hash_norm ratio growth.

Definition hashtable_example : list htop :=
  let ins k d := Insert true true true (fun _ => true) k d in
  [ins 3 30; ins 1 10; ins 4 40; ins 1 11; Insert true false true (fun _ => true) 5 50; Find 4; Remove 3; Remove 3; GetSize; ins 9 90; Find 1; Find 3].

Lemma stamp_hashtable_refines_witness : exists h h' rs (a : gmap Z Z * Z),
  hashtable_alloc true true 1 2 2 = Some h /\
  @crun _ _ _ (test_container false true true 2 2) hashtable_example h = Some (h', rs) /\
  exists ds, iterate (S (base.size a.1)) h' hashtable_iter_reset = Some ds /\ ds ≡ₚ (map_to_list a.1).*2.
Proof.
  eexists. destruct (stamp_hashtable_refines test_hash test_cmp false true true (fun k => k) test_cmp_norm test_hash_norm
    true true 1 2 2 _ hashtable_example ltac:(lia) ltac:(lia) eq_refl) as (h' & rs & a & H1 & _ & H2).
  exists h', rs, a. split_and!; [reflexivity|exact H1|exact H2].
Defined.

Lemma hashtable_example_values :
  (h ← hashtable_alloc true true 1 2 2;
   '(h, rs) ← @crun _ _ _ (test_container false true true 2 2) hashtable_example h;
   ds ← iterate 10 h hashtable_iter_reset; Some (rs, ds, numBucket h)) =
  Some ([1; 1; 1; 0; 0; 40; 1; 0; 2; 1; 10; 0], [40; 10; 90], 2).
Proof. vm_compute. reflexivity. Qed.

End Hashtable.
