(* ===== verification/StampBarrier.v ===== *)
(** * The logarithmic barrier of STAMP ([src/sws/benchmarks/stamp/lib/thread.c])

    Threads meet in a tree of pairs.  At each level the even thread of a pair waits until the
    odd one has arrived and goes on to the next level; the odd one sleeps until it is woken
    from above.  Thread 0 reaches the top and wakes the others on its way down.

    One step is one operation of a thread on a mutex, a condition variable or a counter; the
    threads interleave.  A waiting thread is in the queue of its condition variable until it
    is signalled, and then needs the mutex to go on.  POSIX lets a waiter wake up without a
    signal: the action [Spurious], at both waits of the code.  The first wait tests its
    condition again; the second does not, and a wake-up without a signal there lets a thread
    out of the barrier too early ([BarrierProps.spurious_all_breaks]).  What is proved of the
    barrier and of the pool is therefore about the runs in which no such wake-up hits the
    second wait, the condition [all_signalled].  Between two calls of the barrier a thread
    runs a client, which is a parameter: the pool of [StampThread] is one.

    For every number of threads that [thread_barrier_alloc] accepts, the invariant of this file
    holds in those runs; [StampBarrierProps] concludes that nobody leaves a call before
    everybody entered it and that a call is blocked only by threads that have not arrived. *)

From S2P Require Import Prelude.

Module Barrier.

Notation tid := nat (only parsing).

(** ** The code *)

(** [thread_barrier_t] without the field of the first entry that holds the number of threads.
    A condition variable is the queue of its waiters. *)
Record node := Node {
  count : Z; countLock : option tid; proceedCond : list tid; proceedAllCond : list tid }.

Record barrier_t := Barrier { numThread : Z; entries : list node }.

(** [None] when an assertion fails. *)
Definition thread_barrier_alloc (n : Z) : option barrier_t :=
  if (0 <? n) && (Z.land n (n - 1) =? 0)
  then Some (Barrier n (replicate (Z.to_nat n) (Node 0 None [] []))) else None.

Definition thread_barrier_init (b : barrier_t) : barrier_t :=
  Barrier (numThread b) ((fun _ => Node 0 None [] []) <$> entries b).

(** Where a thread is inside [thread_barrier], by the next operation. *)
Inductive label :=
| L_lock        (* THREAD_MUTEX_LOCK at the top of the do loop *)
| L_inc         (* count++ *)
| L_test        (* while (count < 2) *)
| L_wait        (* inside THREAD_COND_WAIT (proceedCond) *)
| L_unlock      (* THREAD_MUTEX_UNLOCK after the while loop *)
| L_sig         (* if (count == 2) THREAD_COND_SIGNAL (proceedCond) *)
| L_sleep       (* THREAD_COND_WAIT (proceedAllCond) is called *)
| L_wait_all    (* inside THREAD_COND_WAIT (proceedAllCond) *)
| L_unlock_all  (* THREAD_MUTEX_UNLOCK before the break *)
| L_down        (* the test of the for loop, and THREAD_MUTEX_LOCK *)
| L_reset       (* count = 0 *)
| L_sig_all     (* THREAD_COND_SIGNAL (proceedAllCond) *)
| L_unlock_down (* THREAD_MUTEX_UNLOCK in the for loop *).

(** The variables [i] and [base] with the place in the code.  At [L_down] the subtraction of
    [base = base - numThread / i] is not done yet. *)
Record frame := Frame { lab : label; var_i : Z; var_base : Z }.

(** The index of the entry that a frame works on. *)
Definition index (threadId : Z) (f : frame) : Z := var_base f + threadId / var_i f.

(** The head of the loop that goes up, and of the one that goes down. *)
Definition next_level (n : Z) (f : frame) : frame :=
  let base := var_base f + n / var_i f in
  let i := var_i f * 2 in
  if i <=? n then Frame L_lock i base else Frame L_down (i / 2) base.

(** Mutexes and condition variables. *)
Definition lock (t : tid) (e : node) : option node :=
  match countLock e with
  | None => Some (Node (count e) (Some t) (proceedCond e) (proceedAllCond e))
  | Some _ => None
  end.

Definition unlock (e : node) : node := Node (count e) None (proceedCond e) (proceedAllCond e).

Definition set_count (c : Z) (e : node) : node :=
  Node c (countLock e) (proceedCond e) (proceedAllCond e).

Definition cond_wait (t : tid) (e : node) : node :=
  Node (count e) None (proceedCond e ++ [t]) (proceedAllCond e).

Definition cond_wait_all (t : tid) (e : node) : node :=
  Node (count e) None (proceedCond e) (proceedAllCond e ++ [t]).

Definition cond_signal (e : node) : node :=
  Node (count e) (countLock e) (tail (proceedCond e)) (proceedAllCond e).

Definition cond_signal_all (e : node) : node :=
  Node (count e) (countLock e) (proceedCond e) (tail (proceedAllCond e)).

(** The operation at a frame: the next frame and the entry it changed; [None] when the thread
    has to wait for a mutex or a signal. *)
Definition operate (n : Z) (t : tid) (f : frame) (e : node) : option (frame * node) :=
  let even := Z.of_nat t mod var_i f =? 0 in
  let go l := Frame l (var_i f) (var_base f) in
  match lab f with
  | L_lock => e ← lock t e; Some (go L_inc, e)
  | L_inc => Some (go (if even then L_test else L_sig), set_count (count e + 1) e)
  | L_test => if count e <? 2 then Some (go L_wait, cond_wait t e) else Some (go L_unlock, e)
  | L_wait => if bool_decide (t ∈ proceedCond e) then None else e ← lock t e; Some (go L_test, e)
  | L_unlock => Some (next_level n f, unlock e)
  | L_sig => Some (go L_sleep, if count e =? 2 then cond_signal e else e)
  | L_sleep => Some (go L_wait_all, cond_wait_all t e)
  | L_wait_all =>
    if bool_decide (t ∈ proceedAllCond e) then None else e ← lock t e; Some (go L_unlock_all, e)
  | L_unlock_all => Some (Frame L_down (var_i f / 2) (var_base f), unlock e)
  | L_down => e ← lock t e; Some (go L_reset, e)
  | L_reset => Some (go L_sig_all, set_count 0 e)
  | L_sig_all => Some (go L_unlock_down, cond_signal_all e)
  | L_unlock_down => Some (Frame L_down (var_i f / 2) (var_base f), unlock e)
  end.

(** The frame whose entry [operate] works on: at [L_down] the base moves first. *)
Definition settle (n : Z) (f : frame) : frame :=
  match lab f with
  | L_down => Frame L_down (var_i f) (var_base f - n / var_i f)
  | _ => f
  end.

(** The last test of the for loop. *)
Definition returns (f : frame) : bool :=
  match lab f with L_down => var_i f <=? 1 | _ => false end.

(** One step of [thread_barrier]: [inr] when the call returns. *)
Definition thread_barrier (b : barrier_t) (t : tid) (f : frame) : option (frame * barrier_t + unit) :=
  if returns f then Some (inr ())
  else
    let f := settle (numThread b) f in
    let ix := Z.to_nat (index (Z.of_nat t) f) in
    e ← entries b !! ix;
    '(f, e) ← operate (numThread b) t f e;
    Some (inl (f, Barrier (numThread b) (<[ix := e]> (entries b)))).

(** The beginning of a call; [None] when it returns at once. *)
Definition enter (b : barrier_t) : option frame :=
  if numThread b <? 2 then None else Some (Frame L_lock 2 0).

(** ** Threads and their client

    [cstep t c g] is a step of the client of thread [t] with local state [c] and shared state
    [g]; the boolean says that it calls the barrier.  [calls] counts the calls that have
    returned. *)

Section client.
Context {C G : Type} (cstep : tid -> C -> G -> option (C * G * bool)).

Record thread := Thread { inside : option frame; calls : Z; client : C }.
Record state := State { barrierPtr : barrier_t; threads : list thread; shared : G }.

Inductive action := Step (t : tid) | Spurious (t : tid).

Definition call (b : barrier_t) (c : C) (k : Z) : thread :=
  match enter b with
  | Some f => Thread (Some f) k c
  | None => Thread None (k + 1) c
  end.

Definition step_thread (t : tid) (s : state) : option state :=
  th ← threads s !! t;
  match inside th with
  | None =>
    '(c, g, calls_barrier) ← cstep t (client th) (shared s);
    let th := if calls_barrier : bool then call (barrierPtr s) c (calls th) else Thread None (calls th) c in
    Some (State (barrierPtr s) (<[t := th]> (threads s)) g)
  | Some f =>
    r ← thread_barrier (barrierPtr s) t f;
    match r with
    | inl (f, b) => Some (State b (<[t := Thread (Some f) (calls th) (client th)]> (threads s)) (shared s))
    | inr _ =>
      Some (State (barrierPtr s) (<[t := Thread None (calls th + 1) (client th)]> (threads s)) (shared s))
    end
  end.

(** A waiter of either condition variable leaves the queue without a signal. *)
Definition spurious (t : tid) (s : state) : option state :=
  th ← threads s !! t;
  f ← inside th;
  let ix := Z.to_nat (index (Z.of_nat t) f) in
  e ← entries (barrierPtr s) !! ix;
  let awake q := filter (fun u => u <> t) q in
  e ← match lab f with
      | L_wait => Some (Node (count e) (countLock e) (awake (proceedCond e)) (proceedAllCond e))
      | L_wait_all => Some (Node (count e) (countLock e) (proceedCond e) (awake (proceedAllCond e)))
      | _ => None
      end;
  Some (State (Barrier (numThread (barrierPtr s)) (<[ix := e]> (entries (barrierPtr s)))) (threads s) (shared s)).

Definition step (a : action) (s : state) : option state :=
  match a with Step t => step_thread t s | Spurious t => spurious t s end.

(** The action wakes a waiter of [proceedAllCond] without a signal. *)
Definition wakes_all (a : action) (s : state) : bool :=
  match a with
  | Step _ => false
  | Spurious t =>
    match th ← threads s !! t; inside th with
    | Some f => match lab f with L_wait_all => true | _ => false end
    | None => false
    end
  end.

(** No action of the run does. *)
Fixpoint all_signalled (acts : list action) (s : state) : bool :=
  match acts with
  | [] => true
  | a :: acts => negb (wakes_all a s) && match step a s with Some s => all_signalled acts s | None => true end
  end.

(** The same condition, step by step. *)
Definition signalled_step (a : action) (s : state) : option state := if wakes_all a s then None else step a s.

Lemma run_signalled acts : forall s s', run step acts s = Some s' -> all_signalled acts s = true ->
  run signalled_step acts s = Some s'.
Proof.
  induction acts as [|a acts IH]; intros s s' Hr Ha; simpl in *; [done|]. unfold signalled_step.
  destruct (wakes_all a s); [done|]. destruct (step a s); simpl in *; [|done]. by apply IH.
Qed.

(** All threads outside, no call made yet. *)
Definition start (b : barrier_t) (g : G) (cs : list C) : state :=
  State (thread_barrier_init b) (Thread None 0 <$> cs) g.

End client.

Arguments thread : clear implicits.
Arguments state : clear implicits.

(** ** What a thread has done at a level

    Entry [(l, j)] of the tree, with [1 <= l <= L] for [2 ^ L] threads, is shared by the even thread
    [j * 2 ^ l] and the odd thread [j * 2 ^ l + 2 ^ (l - 1)].  The view of a thread at level [l] counts,
    over all calls, how often it incremented the counter, got past the wait, reset the counter,
    signalled [proceedAllCond] and woke up from it; the flags say what it is about to do. *)

Record view := View {
  v_up : Z; v_pass : Z; v_reset : Z; v_sig : Z; v_woken : Z;
  v_hold : bool; v_wait : bool; v_wait_all : bool; v_signal : bool; v_fresh : bool }.

Definition going_down (l : label) : bool :=
  match l with L_down | L_reset | L_sig_all | L_unlock_down => true | _ => false end.
Definition incremented (l : label) : bool := match l with L_lock | L_inc => false | _ => true end.
Definition has_reset (l : label) : bool := match l with L_sig_all | L_unlock_down => true | _ => false end.
Definition holding (l : label) : bool :=
  match l with L_lock | L_wait | L_wait_all | L_down => false | _ => true end.
Definition odd_label (l : label) : bool :=
  match l with L_sig | L_sleep | L_wait_all | L_unlock_all => true | _ => false end.
Definition code (l : label) : nat :=
  match l with
  | L_lock => 0 | L_inc => 1 | L_test => 2 | L_wait => 3 | L_unlock => 4 | L_sig => 5 | L_sleep => 6
  | L_wait_all => 7 | L_unlock_all => 8 | L_down => 9 | L_reset => 10 | L_sig_all => 11
  | L_unlock_down => 12
  end.
Definition is_label (l l' : label) : bool := Nat.eqb (code l) (code l').

Definition frame_view (li k : Z) (f : frame) : view :=
  let i := var_i f in
  let down := going_down (lab f) in
  let here := li =? i in
  View
    (k + Z.b2z (down || (li <? i) || here && incremented (lab f)))
    (k + Z.b2z (down || (li <? i) || here && is_label (lab f) L_unlock))
    (k + Z.b2z (down && ((i <? li) || here && has_reset (lab f))))
    (k + Z.b2z (down && ((i <? li) || here && is_label (lab f) L_unlock_down)))
    (k + Z.b2z (down && (i <? li) || here && is_label (lab f) L_unlock_all))
    (here && holding (lab f)) (here && is_label (lab f) L_wait) (here && is_label (lab f) L_wait_all)
    (here && is_label (lab f) L_sig) (here && (is_label (lab f) L_sig || is_label (lab f) L_sleep)).

Definition view_of {C} (li : Z) (th : thread C) : view :=
  match inside th with
  | None => View (calls th) (calls th) (calls th) (calls th) (calls th) false false false false false
  | Some f => frame_view li (calls th) f
  end.

(** The calls a thread has entered. *)
Definition entered {C} (th : thread C) : Z :=
  calls th + match inside th with Some _ => 1 | None => 0 end.

(** ** The invariant *)

Section tree.
Context (L : Z) (HL : 0 <= L).

Definition base_of (l : Z) : Z := 2 ^ L - 2 ^ (L - l + 1).
Definition even_of (l j : Z) : tid := Z.to_nat (j * 2 ^ l).
Definition odd_of (l j : Z) : tid := Z.to_nat (j * 2 ^ l + 2 ^ (l - 1)).
Definition valid (l j : Z) : Prop := 1 <= l <= L /\ 0 <= j < 2 ^ (L - l).

(** The variables of a frame fit its place in the code. *)
Definition frame_ok (t : tid) (f : frame) : Prop :=
  exists l, var_i f = 2 ^ l /\ l <= L /\
  match lab f with
  | L_lock | L_inc => 1 <= l /\ var_base f = base_of l /\ Z.of_nat t mod 2 ^ (l - 1) = 0
  | L_test | L_wait | L_unlock => 1 <= l /\ var_base f = base_of l /\ Z.of_nat t mod 2 ^ l = 0
  | L_sig | L_sleep | L_wait_all | L_unlock_all =>
    1 <= l /\ var_base f = base_of l /\ Z.of_nat t mod 2 ^ (l - 1) = 0 /\ Z.of_nat t mod 2 ^ l <> 0
  | L_down => 0 <= l /\ var_base f = base_of (l + 1) /\ Z.of_nat t mod 2 ^ l = 0
  | L_reset | L_sig_all | L_unlock_down =>
    1 <= l /\ var_base f = base_of l /\ Z.of_nat t mod 2 ^ l = 0
  end.

Definition thread_ok {C} (t : tid) (th : thread C) : Prop :=
  match inside th with Some f => frame_ok t f | None => True end.

(** How the counter, the mutex and the queues of an entry follow from the views of its two
    threads. *)
Record node_inv (tE tO : tid) (e : node) (E O : view) : Prop := {
  ni_count : count e = (v_up E - v_reset E) + (v_up O - v_reset E);
  ni_odd : v_reset E <= v_up O <= v_reset E + 1;
  ni_woken : v_woken O <= v_sig E;
  ni_pass : v_pass E <= v_up O;
  ni_lock : countLock e = (if v_hold E then Some tE else if v_hold O then Some tO else None);
  ni_mutex : v_hold E && v_hold O = false;
  ni_wait : proceedCond e = [] \/
    proceedCond e = [tE] /\ v_wait E = true /\ (v_up O = v_reset E \/ v_signal O = true);
  ni_wait_all : proceedAllCond e = (if v_wait_all O && (v_sig E <? v_up O) then [tO] else []);
  ni_fresh : v_fresh O = true -> v_up O = v_reset E + 1 }.

Record inv {C G} (s : state C G) : Prop := {
  inv_num : numThread (barrierPtr s) = 2 ^ L;
  inv_entries : length (entries (barrierPtr s)) = Z.to_nat (2 ^ L);
  inv_threads : length (threads s) = Z.to_nat (2 ^ L);
  inv_ok : forall t th, threads s !! t = Some th -> thread_ok t th;
  inv_nodes : forall l j e thE thO, valid l j ->
    entries (barrierPtr s) !! Z.to_nat (base_of l + j) = Some e ->
    threads s !! even_of l j = Some thE -> threads s !! odd_of l j = Some thO ->
    node_inv (even_of l j) (odd_of l j) e (view_of (2 ^ l) thE) (view_of (2 ^ l) thO) }.

(** ** Arithmetic of the tree *)

Lemma pow2_pos n : 0 <= n -> 0 < 2 ^ n.
Proof. intros. apply Z.pow_pos_nonneg; lia. Qed.

Lemma pow2_split n : 1 <= n -> 2 ^ n = 2 * 2 ^ (n - 1).
Proof. intros. rewrite <- Z.pow_succ_r by lia. f_equal. lia. Qed.

Lemma base_of_succ l : 1 <= l <= L -> base_of (l + 1) = base_of l + 2 ^ (L - l).
Proof.
  intros. unfold base_of. replace (L - (l + 1) + 1) with (L - l) by lia.
  rewrite (pow2_split (L - l + 1)) by lia. replace (L - l + 1 - 1) with (L - l) by lia. lia.
Qed.

Lemma base_of_mono l l' : 1 <= l <= l' -> l' <= L + 1 -> base_of l <= base_of l'.
Proof. intros. unfold base_of. pose proof (Z.pow_le_mono_r 2 (L - l' + 1) (L - l + 1)). lia. Qed.

Lemma base_of_1 : base_of 1 = 0.
Proof. unfold base_of. replace (L - 1 + 1) with L by lia. lia. Qed.

Lemma div_pow l : 0 <= l <= L -> 2 ^ L / 2 ^ l = 2 ^ (L - l).
Proof. intros. rewrite <- Z.pow_sub_r by lia. done. Qed.

Lemma index_bound l j : valid l j -> 0 <= base_of l + j < 2 ^ L.
Proof.
  intros [Hl Hj]. pose proof (base_of_succ l Hl). pose proof (base_of_mono 1 l).
  rewrite base_of_1 in *. unfold base_of in *. pose proof (pow2_pos (L - (l + 1) + 1)). lia.
Qed.

Lemma index_inj l j l' j' : valid l j -> valid l' j' -> base_of l + j = base_of l' + j' -> l = l' /\ j = j'.
Proof.
  intros [Hl Hj] [Hl' Hj'] Heq. pose proof (base_of_succ l Hl). pose proof (base_of_succ l' Hl').
  destruct (Z.lt_trichotomy l l') as [Hc|[->|Hc]].
  - pose proof (base_of_mono (l + 1) l'). lia.
  - lia.
  - pose proof (base_of_mono (l' + 1) l). lia.
Qed.

(** The entry of a thread at level [l]. *)
Lemma pos_valid t l : 1 <= l <= L -> (t < Z.to_nat (2 ^ L))%nat -> valid l (Z.of_nat t / 2 ^ l).
Proof.
  intros Hl Ht. split; [done|]. pose proof (pow2_pos l). split; [apply Z.div_pos; lia|].
  apply Z.div_lt_upper_bound; [lia|]. rewrite <- Z.pow_add_r by lia.
  replace (l + (L - l)) with L by lia. lia.
Qed.

Lemma even_pos t l : 1 <= l -> Z.of_nat t mod 2 ^ l = 0 -> t = even_of l (Z.of_nat t / 2 ^ l).
Proof.
  intros Hl Hm. unfold even_of. pose proof (pow2_pos l). pose proof (Z.div_mod (Z.of_nat t) (2 ^ l)). lia.
Qed.

Lemma odd_mod t l : 1 <= l -> t mod 2 ^ (l - 1) = 0 -> t mod 2 ^ l <> 0 -> t mod 2 ^ l = 2 ^ (l - 1).
Proof.
  intros Hl Hm Hn. pose proof (pow2_pos (l - 1)). rewrite (pow2_split l) in * by lia.
  set (q := 2 ^ (l - 1)) in *. pose proof (Z.mod_pos_bound t (2 * q)).
  pose proof (Z.div_mod t q). pose proof (Z.div_mod t (2 * q)).
  assert (q * (t / q - 2 * (t / (2 * q))) = t mod (2 * q)) by lia.
  assert (t / q - 2 * (t / (2 * q)) = 1) by nia. lia.
Qed.

Lemma odd_pos t l : 1 <= l -> Z.of_nat t mod 2 ^ (l - 1) = 0 -> Z.of_nat t mod 2 ^ l <> 0 ->
  t = odd_of l (Z.of_nat t / 2 ^ l).
Proof.
  intros Hl Hm Hn. unfold odd_of. pose proof (pow2_pos l). pose proof (odd_mod _ l Hl Hm Hn).
  pose proof (Z.div_mod (Z.of_nat t) (2 ^ l)). lia.
Qed.

Lemma even_lt l j : valid l j -> (even_of l j < Z.to_nat (2 ^ L))%nat.
Proof.
  intros [Hl Hj]. unfold even_of. pose proof (pow2_pos l).
  assert (2 ^ L = 2 ^ (L - l) * 2 ^ l) by (rewrite <- Z.pow_add_r by lia; f_equal; lia). nia.
Qed.

Lemma odd_lt l j : valid l j -> (odd_of l j < Z.to_nat (2 ^ L))%nat.
Proof.
  intros [Hl Hj]. unfold odd_of. pose proof (pow2_pos (l - 1)). pose proof (pow2_split l).
  assert (2 ^ L = 2 ^ (L - l) * 2 ^ l) by (rewrite <- Z.pow_add_r by lia; f_equal; lia). nia.
Qed.

Lemma Z_even_of l j : valid l j -> Z.of_nat (even_of l j) = j * 2 ^ l.
Proof. intros [Hl Hj]. unfold even_of. pose proof (pow2_pos l). nia. Qed.

Lemma Z_odd_of l j : valid l j -> Z.of_nat (odd_of l j) = j * 2 ^ l + 2 ^ (l - 1).
Proof. intros [Hl Hj]. unfold odd_of. pose proof (pow2_pos l). pose proof (pow2_pos (l - 1)). nia. Qed.

Lemma even_of_mod l j : valid l j -> Z.of_nat (even_of l j) mod 2 ^ l = 0.
Proof.
  intros Hv. rewrite Z_even_of by done. apply Z.mod_mul. pose proof (pow2_pos l). destruct Hv. lia.
Qed.

Lemma odd_of_mod l j : valid l j -> Z.of_nat (odd_of l j) mod 2 ^ l = 2 ^ (l - 1).
Proof.
  intros Hv. rewrite Z_odd_of by done. destruct Hv as [Hl Hj].
  pose proof (pow2_pos (l - 1)). pose proof (pow2_split l).
  rewrite Z.add_comm, Z.mod_add by lia. apply Z.mod_small. lia.
Qed.

Lemma even_of_div l j : valid l j -> Z.of_nat (even_of l j) / 2 ^ l = j.
Proof. intros Hv. rewrite Z_even_of by done. apply Z.div_mul. pose proof (pow2_pos l). destruct Hv. lia. Qed.

Lemma odd_of_div l j : valid l j -> Z.of_nat (odd_of l j) / 2 ^ l = j.
Proof.
  intros Hv. rewrite Z_odd_of by done. destruct Hv as [Hl Hj].
  pose proof (pow2_pos (l - 1)). pose proof (pow2_split l).
  rewrite Z.add_comm, Z.div_add, Z.div_small by lia. lia.
Qed.

(** Multiples of a power of two are multiples of the smaller ones. *)
Lemma mod_down t a b : 0 <= a <= b -> t mod 2 ^ b = 0 -> t mod 2 ^ a = 0.
Proof.
  intros Hab Hb. pose proof (pow2_pos a). pose proof (pow2_pos b).
  apply Z.mod_divide; [lia|]. apply Z.mod_divide in Hb; [|lia].
  transitivity (2 ^ b); [|done]. exists (2 ^ (b - a)). rewrite <- Z.pow_add_r by lia. f_equal. lia.
Qed.

Lemma pow_lt a b : 0 <= a -> 0 <= b -> 2 ^ a < 2 ^ b <-> a < b.
Proof. intros. symmetry. apply Z.pow_lt_mono_r_iff; lia. Qed.

Lemma pow_ltb a b : 0 <= a -> 0 <= b -> (2 ^ a <? 2 ^ b) = (a <? b).
Proof. intros. pose proof (pow_lt a b). bool_cases; lia. Qed.

Lemma pow_eqb a b : 0 <= a -> 0 <= b -> (2 ^ a =? 2 ^ b) = (a =? b).
Proof.
  intros. pose proof (pow_lt a b). pose proof (pow_lt b a).
  destruct (Z.eqb_spec a b) as [->|]; [apply Z.eqb_refl|]. apply Z.eqb_neq. lia.
Qed.

(** ** Views *)

Record even_ok (v : view) : Prop := {
  eo_sig : v_sig v <= v_reset v <= v_sig v + 1;
  eo_pass : v_reset v <= v_pass v <= v_up v;
  eo_up : v_up v <= v_reset v + 1;
  eo_wait : v_wait v = true -> v_up v = v_reset v + 1 }.

Record odd_ok (v : view) : Prop := {
  oo_up : v_woken v <= v_up v <= v_woken v + 1;
  oo_asleep : v_up v = v_woken v + 1 -> v_fresh v = true \/ v_wait_all v = true;
  oo_wait_all : v_wait_all v = true -> v_up v = v_woken v + 1 /\ v_hold v = false;
  oo_signal : v_signal v = true -> v_fresh v = true;
  oo_fresh : v_fresh v = true -> v_hold v = true }.

Ltac view_cases :=
  rewrite ?pow_ltb, ?pow_eqb in * by lia;
  repeat match goal with
  | |- context [?a <? ?b] => destruct (Z.ltb_spec a b)
  | |- context [?a =? ?b] => destruct (Z.eqb_spec a b)
  end; simpl in *.

Lemma even_view_ok {C} l (th : thread C) t : 1 <= l -> Z.of_nat t mod 2 ^ l = 0 -> thread_ok t th ->
  even_ok (view_of (2 ^ l) th).
Proof.
  intros Hl Hm Hok. destruct th as [[[lb i b]|] k c]; [|split; simpl; (lia || done)].
  destruct Hok as (m & Hi & HmL & Hok). simpl in Hi. subst i.
  unfold view_of, frame_view; simpl. assert (0 <= m) by (destruct lb; simpl in Hok; lia).
  destruct lb; simpl in *; view_cases; split; simpl; intros; try (lia || done).
Qed.

Lemma odd_view_ok {C} l (th : thread C) t : 1 <= l -> Z.of_nat t mod 2 ^ (l - 1) = 0 -> Z.of_nat t mod 2 ^ l <> 0 ->
  thread_ok t th -> odd_ok (view_of (2 ^ l) th).
Proof.
  intros Hl Hm Hn Hok. destruct th as [[[lb i b]|] k c]; [|split; simpl; (lia || done)].
  destruct Hok as (m & Hi & HmL & Hok). simpl in Hi. subst i.
  assert (0 <= m) by (destruct lb; simpl in Hok; lia).
  assert (Hup : forall a, l <= a -> Z.of_nat t mod 2 ^ a = 0 -> False).
  { intros a Ha H0. apply Hn. by apply (mod_down _ l a); [lia|]. }
  assert (Hdn : forall a, 0 <= a -> a <= l - 1 -> Z.of_nat t mod 2 ^ a <> 0 -> False).
  { intros a Ha0 Ha H0. apply H0. by apply (mod_down _ a (l - 1)); [lia|]. }
  unfold view_of, frame_view; simpl.
  destruct lb; simpl in *; destruct_and?; view_cases; split; simpl; intros;
    try (lia || done || (by right) || (by left)).
  all: exfalso; first [ eapply Hup; [|eassumption]; lia | eapply Hdn; [| |eassumption]; lia ].
Qed.

(** ** Steps preserve the invariant *)

Section steps.
Context {C G : Type}.
Implicit Types (th : thread C) (s : state C G) (g : G).

Lemma even_odd_ne l j : valid l j -> even_of l j <> odd_of l j.
Proof.
  intros Hv Heq. pose proof (Z_even_of l j Hv). pose proof (Z_odd_of l j Hv). rewrite Heq in *.
  pose proof (pow2_pos (l - 1)). destruct Hv. lia.
Qed.

Lemma even_of_mod' l j : valid l j -> Z.of_nat (even_of l j) mod 2 ^ (l - 1) = 0.
Proof. intros Hv. apply (mod_down _ _ l); [destruct Hv; lia|]. by apply even_of_mod. Qed.

Lemma odd_of_mod' l j : valid l j -> Z.of_nat (odd_of l j) mod 2 ^ (l - 1) = 0.
Proof.
  intros Hv. rewrite Z_odd_of by done. destruct Hv as [Hl _]. pose proof (pow2_pos (l - 1)).
  rewrite (pow2_split l) by lia. replace (j * (2 * 2 ^ (l - 1)) + 2 ^ (l - 1)) with ((2 * j + 1) * 2 ^ (l - 1)) by lia.
  apply Z.mod_mul. lia.
Qed.

Lemma odd_of_mod_ne l j : valid l j -> Z.of_nat (odd_of l j) mod 2 ^ l <> 0.
Proof. intros Hv. rewrite odd_of_mod by done. pose proof (pow2_pos (l - 1)). destruct Hv. lia. Qed.

(** A thread moves without touching an entry: its views stay. *)
Lemma inv_silent s t th th' g : inv s -> threads s !! t = Some th -> thread_ok t th' ->
  (forall l, 1 <= l <= L -> Z.of_nat t mod 2 ^ (l - 1) = 0 -> view_of (2 ^ l) th' = view_of (2 ^ l) th) ->
  inv (State (barrierPtr s) (<[t := th']> (threads s)) g).
Proof.
  intros [? ? ? Hok Hn] Ht Hok' Hv. split; simpl; [done|done|by rewrite length_insert| |].
  - intros u tu [[<- [<- _]]|[? ?]]%list_lookup_insert_Some; [done|]. by apply Hok.
  - intros l j e thE thO Hlj He HE HO.
    assert (HvE : exists x, threads s !! even_of l j = Some x /\ view_of (2 ^ l) thE = view_of (2 ^ l) x).
    { apply list_lookup_insert_Some in HE as [[-> [<- _]]|[_ HE]]; [|by exists thE].
      exists th. split; [done|]. apply Hv; [apply Hlj|by apply even_of_mod']. }
    assert (HvO : exists x, threads s !! odd_of l j = Some x /\ view_of (2 ^ l) thO = view_of (2 ^ l) x).
    { apply list_lookup_insert_Some in HO as [[-> [<- _]]|[_ HO]]; [|by exists thO].
      exists th. split; [done|]. apply Hv; [apply Hlj|by apply odd_of_mod']. }
    destruct HvE as (? & ? & ->), HvO as (? & ? & ->). by apply Hn.
Qed.

(** A thread works on one of its entries: its views at the other levels stay. *)
Lemma inv_update s t th th' l j e e' : inv s -> valid l j -> t = even_of l j \/ t = odd_of l j ->
  threads s !! t = Some th -> entries (barrierPtr s) !! Z.to_nat (base_of l + j) = Some e ->
  thread_ok t th' ->
  (forall l', 1 <= l' <= L -> l' <> l -> Z.of_nat t mod 2 ^ (l' - 1) = 0 ->
    view_of (2 ^ l') th' = view_of (2 ^ l') th) ->
  (forall thE thO, <[t := th']> (threads s) !! even_of l j = Some thE ->
    <[t := th']> (threads s) !! odd_of l j = Some thO ->
    node_inv (even_of l j) (odd_of l j) e' (view_of (2 ^ l) thE) (view_of (2 ^ l) thO)) ->
  inv (State (Barrier (numThread (barrierPtr s)) (<[Z.to_nat (base_of l + j) := e']> (entries (barrierPtr s))))
         (<[t := th']> (threads s)) (shared s)).
Proof.
  intros [? ? ? Hok Hn] Hlj Hrole Ht He Hok' Hv Hnew. split; simpl; [done|by rewrite length_insert..| |].
  - intros u tu [[<- [<- _]]|[? ?]]%list_lookup_insert_Some; [done|]. by apply Hok.
  - intros l' j' e1 thE thO Hlj' He1 HE HO.
    destruct (decide (l = l' /\ j = j')) as [[<- <-]|Hne].
    { rewrite list_lookup_insert_eq in He1 by by eapply lookup_lt_Some. simplify_eq. by apply Hnew. }
    assert (base_of l + j <> base_of l' + j') as Hidx by (intros Heq; apply Hne; by apply index_inj).
    pose proof (index_bound l j Hlj). pose proof (index_bound l' j' Hlj').
    rewrite list_lookup_insert_ne in He1 by lia.
    assert (Hlev : t = even_of l' j' \/ t = odd_of l' j' -> l' <> l).
    { intros Hr ->. apply Hne. split; [done|].
      pose proof (even_of_div l j Hlj). pose proof (even_of_div l j' Hlj').
      pose proof (odd_of_div l j Hlj). pose proof (odd_of_div l j' Hlj').
      destruct Hrole, Hr; congruence. }
    assert (HvE : exists x, threads s !! even_of l' j' = Some x /\ view_of (2 ^ l') thE = view_of (2 ^ l') x).
    { apply list_lookup_insert_Some in HE as [[-> [<- _]]|[_ HE]]; [|by exists thE].
      exists th. split; [done|]. apply Hv; [apply Hlj'|auto|by apply even_of_mod']. }
    assert (HvO : exists x, threads s !! odd_of l' j' = Some x /\ view_of (2 ^ l') thO = view_of (2 ^ l') x).
    { apply list_lookup_insert_Some in HO as [[-> [<- _]]|[_ HO]]; [|by exists thO].
      exists th. split; [done|]. apply Hv; [apply Hlj'|auto|by apply odd_of_mod']. }
    destruct HvE as (? & ? & ->), HvO as (? & ? & ->). by apply Hn.
Qed.

Definition moved s t th' ix e' : state C G :=
  State (Barrier (numThread (barrierPtr s)) (<[ix := e']> (entries (barrierPtr s)))) (<[t := th']> (threads s)) (shared s).

Lemma inv_even_step s t th th' l e e' : inv s -> 1 <= l <= L -> Z.of_nat t mod 2 ^ l = 0 ->
  threads s !! t = Some th ->
  entries (barrierPtr s) !! Z.to_nat (base_of l + Z.of_nat t / 2 ^ l) = Some e ->
  thread_ok t th' ->
  (forall l', 1 <= l' <= L -> l' <> l -> Z.of_nat t mod 2 ^ (l' - 1) = 0 ->
    view_of (2 ^ l') th' = view_of (2 ^ l') th) ->
  (forall tO o, odd_ok o -> even_ok (view_of (2 ^ l) th) -> tO <> t ->
    node_inv t tO e (view_of (2 ^ l) th) o -> node_inv t tO e' (view_of (2 ^ l) th') o) ->
  inv (moved s t th' (Z.to_nat (base_of l + Z.of_nat t / 2 ^ l)) e').
Proof.
  intros Hs Hl Hm Ht He Hok' Hv Hn. set (j := Z.of_nat t / 2 ^ l) in *.
  assert (Hlt : (t < Z.to_nat (2 ^ L))%nat) by (rewrite <- (inv_threads s Hs); by eapply lookup_lt_Some).
  assert (Hlj : valid l j) by (apply pos_valid; done).
  assert (Hte : t = even_of l j) by (apply even_pos; [lia|done]).
  apply (inv_update _ _ th _ l j e); auto. intros thE thO HE HO.
  pose proof (even_odd_ne l j Hlj). rewrite Hte in HE, HO.
  rewrite list_lookup_insert_ne in HO by done.
  apply list_lookup_insert_Some in HE as [[_ [<- _]]|[? _]]; [|done].
  rewrite Hte in Hn, Ht. apply Hn; [| |congruence|].
  - eapply (odd_view_ok l _ (odd_of l j)); [lia|by apply odd_of_mod'|by apply odd_of_mod_ne|by apply (inv_ok s Hs)].
  - eapply (even_view_ok l _ (even_of l j)); [lia|by apply even_of_mod|by apply (inv_ok s Hs)].
  - by apply (inv_nodes s Hs).
Qed.

Lemma inv_odd_step s t th th' l e e' : inv s -> 1 <= l <= L -> Z.of_nat t mod 2 ^ (l - 1) = 0 ->
  Z.of_nat t mod 2 ^ l <> 0 -> threads s !! t = Some th ->
  entries (barrierPtr s) !! Z.to_nat (base_of l + Z.of_nat t / 2 ^ l) = Some e ->
  thread_ok t th' ->
  (forall l', 1 <= l' <= L -> l' <> l -> Z.of_nat t mod 2 ^ (l' - 1) = 0 ->
    view_of (2 ^ l') th' = view_of (2 ^ l') th) ->
  (forall tE v, even_ok v -> odd_ok (view_of (2 ^ l) th) -> tE <> t ->
    node_inv tE t e v (view_of (2 ^ l) th) -> node_inv tE t e' v (view_of (2 ^ l) th')) ->
  inv (moved s t th' (Z.to_nat (base_of l + Z.of_nat t / 2 ^ l)) e').
Proof.
  intros Hs Hl Hm Hm' Ht He Hok' Hv Hn. set (j := Z.of_nat t / 2 ^ l) in *.
  assert (Hlt : (t < Z.to_nat (2 ^ L))%nat) by (rewrite <- (inv_threads s Hs); by eapply lookup_lt_Some).
  assert (Hlj : valid l j) by (apply pos_valid; done).
  assert (Hte : t = odd_of l j) by (apply odd_pos; [lia|done|done]).
  apply (inv_update _ _ th _ l j e); auto. intros thE thO HE HO.
  pose proof (even_odd_ne l j Hlj). rewrite Hte in HE, HO.
  rewrite list_lookup_insert_ne in HE by done.
  apply list_lookup_insert_Some in HO as [[_ [<- _]]|[? _]]; [|done].
  rewrite Hte in Hn, Ht. apply Hn; [| |congruence|].
  - eapply (even_view_ok l _ (even_of l j)); [lia|by apply even_of_mod|by apply (inv_ok s Hs)].
  - eapply (odd_view_ok l _ (odd_of l j)); [lia|by apply odd_of_mod'|by apply odd_of_mod_ne|by apply (inv_ok s Hs)].
  - by apply (inv_nodes s Hs).
Qed.

(** Views of two frames at another level. *)
Ltac view_elsewhere :=
  intros; unfold view_of, frame_view, is_label; cbn [inside lab var_i var_base calls];
  rewrite ?pow_ltb, ?pow_eqb by lia; bool_cases; simpl; try lia; try done; f_equal; lia.

(** The waiters of [proceedCond]. *)
Ltac queue_case :=
  match goal with
  | H : _ = [] \/ _ /\ _ |- _ => destruct H as [Hq|(Hq & ? & [?|?])]; rewrite ?Hq in *; simpl in *
  end;
  first [by left | discriminate | exfalso; lia | match goal with H : ?x ∉ [?x] |- _ => by destruct H; left end
    | right; split_and!; first [done | by left | left; lia | by right]].

(** The entry itself, for a step of one of its two threads. *)
Ltac node_case :=
  intros ? [] [] [] ? []; unfold view_of, frame_view, is_label in *; cbn [inside lab var_i var_base calls] in *;
  rewrite ?pow_ltb, ?pow_eqb in * by lia; rewrite ?Z.eqb_refl, ?Z.ltb_irrefl in *;
  rewrite ?(proj2 (Z.ltb_lt (_ - 1) _)), ?(proj2 (Z.eqb_neq _ (_ - 1))) by lia; simpl in *;
  repeat match goal with
  | b : bool |- _ => destruct b; simpl in *; try congruence
  end;
  repeat match goal with
  | H : context [?a <? ?b] |- _ => destruct (Z.ltb_spec a b); try lia
  | H : context [?a =? ?b] |- _ => destruct (Z.eqb_spec a b); try lia
  end; simpl in *;
  try match goal with H : ?q = [?t], H' : ?t ∉ ?q |- _ => rewrite H in H'; by destruct H'; left end;
  split; simpl; intros; bool_cases; simpl; try done; try lia; try congruence; try queue_case;
  try match goal with H : proceedAllCond _ = _ |- _ => by rewrite H end.

(** A step of the even and of the odd thread of the entry at level [l]; what is left are the
    variables of the new frame and the entry. *)
Ltac even_step l :=
  eapply (inv_even_step _ _ _ _ l); [done|lia|assumption|eassumption|eassumption|
    first [by exists l; simpl; auto | idtac]|try view_elsewhere|try node_case].
Ltac odd_step l :=
  eapply (inv_odd_step _ _ _ _ l); [done|lia|assumption|assumption|eassumption|eassumption|
    first [by exists l; simpl; auto | idtac]|try view_elsewhere|try node_case].

Lemma half_pow l : 1 <= l -> 2 ^ l / 2 = 2 ^ (l - 1).
Proof. intros. rewrite pow2_split by lia. rewrite Z.mul_comm. apply Z.div_mul. lia. Qed.

Lemma inv_operate s t k c f f' e e' : inv s -> threads s !! t = Some (Thread (Some f) k c) ->
  frame_ok t f -> returns f = false ->
  entries (barrierPtr s) !! Z.to_nat (index (Z.of_nat t) (settle (2 ^ L) f)) = Some e ->
  operate (2 ^ L) t (settle (2 ^ L) f) e = Some (f', e') ->
  inv (moved s t (Thread (Some f') k c) (Z.to_nat (index (Z.of_nat t) (settle (2 ^ L) f))) e').
Proof.
  intros Hs Ht (l & Hi & HlL & Hok) Hret He Hop. destruct f as [lb i b]. simpl in *. subst i.
  unfold operate, settle, index, lock, next_level in *. cbn [lab var_i var_base] in *.
  destruct lb; cbn [lab var_i var_base] in *; destruct Hok as (Hl1 & -> & Hm).
  - destruct (countLock e) eqn:Hlock; simplify_eq/=.
    destruct (decide (Z.of_nat t mod 2 ^ l = 0)) as [Hz|Hz]; [even_step l|odd_step l].
  - destruct (Z.eqb_spec (Z.of_nat t mod 2 ^ l) 0) as [Hz|Hz]; simplify_eq/=; [even_step l|odd_step l].
  - destruct (Z.ltb_spec (count e) 2); simplify_eq/=; even_step l.
  - case_bool_decide as Hnq; [done|]. destruct (countLock e) eqn:Hlock; simplify_eq/=. even_step l.
  - simplify_eq/=. rewrite div_pow by lia. replace (2 ^ l * 2) with (2 ^ (l + 1)) by (rewrite (pow2_split (l + 1)) by lia; rewrite Z.add_simpl_r; lia).
    rewrite <- base_of_succ by lia. destruct (Z.leb_spec (2 ^ (l + 1)) (2 ^ L)) as [Hle|Hgt].
    + apply Z.pow_le_mono_r_iff in Hle; [|lia..]. even_step l.
      exists (l + 1). simpl. rewrite Z.add_simpl_r. split_and!; (done || lia).
    + assert (L < l + 1) by (apply (Z.pow_lt_mono_r_iff 2); lia). rewrite half_pow, Z.add_simpl_r by lia.
      even_step l. exists l. simpl. split_and!; (done || lia).
  - destruct Hm as [Hm Hm']. simplify_eq/=. destruct (Z.eqb_spec (count e) 2); odd_step l.
  - destruct Hm as [Hm Hm']. simplify_eq/=. odd_step l.
  - destruct Hm as [Hm Hm']. case_bool_decide as Hnq; [done|]. destruct (countLock e) eqn:Hlock; simplify_eq/=. odd_step l.
  - destruct Hm as [Hm Hm']. simplify_eq/=. rewrite half_pow by lia. odd_step l.
    + exists (l - 1). simpl. rewrite Z.sub_add. split_and!; (done || lia).
    + intros l' Hl' Hne Hm1. assert (l' < l).
      { destruct (decide (l <= l' - 1)); [|lia]. destruct Hm'. by apply (mod_down _ l (l' - 1)); [lia|]. }
      view_elsewhere.
  - unfold returns in Hret. simpl in Hret. zify_bool. assert (1 <= l) by (destruct (decide (l = 0)) as [->|]; lia).
    rewrite div_pow, (base_of_succ l), Z.add_simpl_r in * by lia.
    destruct (countLock e) eqn:Hlock; simplify_eq/=. even_step l.
  - simplify_eq/=. even_step l.
  - simplify_eq/=. even_step l.
  - simplify_eq/=. rewrite half_pow by lia. even_step l.
    exists (l - 1). simpl. rewrite Z.sub_add. split_and!; try (done || lia). by apply (mod_down _ (l - 1) l); [lia|].
Qed.
End steps.
End tree.

#[global] Arguments inv_num {_ _ _} _ _ : rename.
#[global] Arguments inv_entries {_ _ _} _ _ : rename.
#[global] Arguments inv_threads {_ _ _} _ _ : rename.
#[global] Arguments inv_ok {_ _ _} _ _ : rename.
#[global] Arguments inv_nodes {_ _ _} _ _ : rename.
End Barrier.
