(* ===== verification/StampBarrierProps.v ===== *)
(** * The barrier is correct ([src/sws/benchmarks/stamp/lib/thread.c])

    For the machine of [StampBarrier], in runs whose wake-ups without a signal hit the first
    wait only: the invariant holds in every state; hence nobody leaves a call before
    everybody entered it, a thread is stuck inside a call only when another one has not
    entered it, and every step inside a call decreases a measure.  [spurious_all_breaks] shows
    that the restriction is needed. *)

From S2P Require Import Prelude StampBarrier.

Module BarrierProps.
Import Barrier.

Lemma zsum_lt {A} (f g : A -> Z) (l : list A) x : (forall y, y ∈ l -> f y <= g y) -> x ∈ l -> f x < g x ->
  zsum f l < zsum g l.
Proof.
  intros Hle Hx Hlt. induction l as [|y l IH]; [set_solver|]. simpl.
  pose proof (Hle y ltac:(left)). assert (zsum f l <= zsum g l) by (apply zsum_le; intros; apply Hle; by right).
  apply elem_of_cons in Hx as [->|Hx]; [lia|].
  assert (zsum f l < zsum g l) by (apply IH; [intros; apply Hle; by right|done]). lia.
Qed.

Lemma zsum_at (t : nat) d l : 0 <= d -> NoDup l -> zsum (fun u => if decide (u = t) then d else 0) l <= d.
Proof.
  intros Hd. induction l as [|u l IH]; intros Hnd; simpl; [done|].
  apply NoDup_cons in Hnd as [Hu Hnd]. specialize (IH Hnd). case_decide; subst; [|lia].
  rewrite zsum_0; [lia|]. intros v Hv. case_decide; [by subst|done].
Qed.

Section tree.
Context (L : Z) (HL : 0 <= L).
Section steps.
Context {C G : Type}.
Implicit Types (th : thread C) (s : state C G) (g : G).

Notation base_of := (base_of L).
Notation valid := (valid L).
Notation frame_ok := (frame_ok L).
Notation thread_ok := (thread_ok L).
Notation inv := (inv L).

Context (cstep : tid -> C -> G -> option (C * G * bool)).

Lemma frame_index_bound t f : (t < Z.to_nat (2 ^ L))%nat -> frame_ok t f -> returns f = false ->
  exists l, 1 <= l <= L /\ var_i f = 2 ^ l /\
  index (Z.of_nat t) (settle (2 ^ L) f) = base_of l + Z.of_nat t / 2 ^ l /\
  valid l (Z.of_nat t / 2 ^ l).
Proof.
  intros Ht (l & Hi & Hl & Hok) Hr. exists l. destruct f as [lb i b]; simpl in *; subst i.
  assert (1 <= l).
  { destruct lb; simpl in *; destruct Hok as (? & _); try lia. unfold returns in Hr. simpl in Hr. zify_bool.
    destruct (decide (l = 0)) as [->|]; lia. }
  split_and!; [lia|lia|done| |apply pos_valid; (lia || done)].
  unfold index, settle; destruct lb; simpl in *; destruct Hok as (_ & -> & _); try done.
  rewrite div_pow, base_of_succ by lia. lia.
Qed.

Lemma inv_return s t k c f : inv s -> threads s !! t = Some (Thread (Some f) k c) -> frame_ok t f ->
  returns f = true -> inv (State (barrierPtr s) (<[t := Thread None (k + 1) c]> (threads s)) (shared s)).
Proof.
  intros Hs Ht (l & Hi & Hl & Hok) Hr. eapply inv_silent; [done|exact Ht|done|].
  destruct f as [lb i b]. destruct lb; simplify_eq/=. destruct Hok as (H0 & _). unfold returns in Hr.
  simpl in Hr. zify_bool. assert (l = 0) as -> by (destruct (decide (l = 0)); [done|]; pose proof (pow_lt 0 l); lia).
  intros l' Hl' _. unfold view_of, frame_view. cbn [inside lab var_i calls].
  rewrite ?pow_ltb, ?pow_eqb by lia. bool_cases; simpl; try lia; done.
Qed.

Lemma inv_enter s t k c c' g : inv s -> threads s !! t = Some (Thread None k c) ->
  inv (State (barrierPtr s) (<[t := call (barrierPtr s) c' k]> (threads s)) g).
Proof.
  intros Hs Ht. unfold call, enter. rewrite (inv_num s Hs). destruct (Z.ltb_spec (2 ^ L) 2) as [Hlt|Hge].
  - assert (L < 1) by (apply (Z.pow_lt_mono_r_iff 2); simpl; lia).
    eapply inv_silent; [done|exact Ht|done|]. intros l Hl. lia.
  - assert (1 <= L) by (apply (Z.pow_le_mono_r_iff 2); simpl; lia).
    eapply inv_silent; [done|exact Ht| |].
    + exists 1. simpl. rewrite base_of_1, Z.mod_1_r. split_and!; (done || lia).
    + intros l Hl _. unfold view_of, frame_view. cbn [inside lab var_i calls].
      change 2 with (2 ^ 1) at 2 4 6 8 10 12 14 16 18 20. rewrite ?pow_ltb, ?pow_eqb by lia.
      bool_cases; simpl; try lia; f_equal; lia.
Qed.

(** The waiter of [proceedCond] that a wake-up without a signal hits. *)
Lemma spurious_wait t s s' : signalled_step cstep (Spurious t) s = Some s' ->
  exists i b k c e, let f := Frame L_wait i b in
  threads s !! t = Some (Thread (Some f) k c) /\
  entries (barrierPtr s) !! Z.to_nat (index (Z.of_nat t) f) = Some e /\
  s' = State (Barrier (numThread (barrierPtr s)) (<[Z.to_nat (index (Z.of_nat t) f) :=
         Node (count e) (countLock e) (filter (fun u => u <> t) (proceedCond e)) (proceedAllCond e)]> (entries (barrierPtr s))))
         (threads s) (shared s).
Proof.
  unfold signalled_step, wakes_all, step, spurious. intros H.
  destruct (threads s !! t) as [[[[lb i b]|] k c]|]; simplify_eq/=.
  destruct lb; simplify_eq/=; destruct (entries (barrierPtr s) !! _) as [e|] eqn:He; simplify_eq/=.
  exists i, b, k, c, e. done.
Qed.

Lemma inv_spurious s s' t : inv s -> signalled_step cstep (Spurious t) s = Some s' -> inv s'.
Proof.
  intros Hs H. apply spurious_wait in H as (i & b & k & c & e & Ht & He & ->).
  destruct (inv_ok s Hs t _ Ht) as (l & Hi & Hl & H1 & Hb & Hm). simpl in *. subst i b. unfold index in *. simpl in *.
  assert (Hid : threads s = <[t := Thread (Some (Frame L_wait (2 ^ l) (base_of l))) k c]> (threads s))
    by by rewrite list_insert_id.
  rewrite Hid. eapply (inv_even_step L HL _ _ _ _ l); [done|lia|done|exact Ht|exact He| |done|].
  - exists l. simpl. auto.
  - intros ? o ? ? ? []. split; simpl; auto. destruct ni_wait0 as [->|(-> & ? & ?)]; [by left|].
    rewrite filter_cons. case_decide; [done|]. by left.
Qed.

Lemma barrier_inv_step a s s' : inv s -> signalled_step cstep a s = Some s' -> inv s'.
Proof.
  intros Hs H. destruct a as [t|t]; [unfold signalled_step in H; simpl in H|by eapply inv_spurious].
  unfold step_thread in H. destruct (threads s !! t) as [[[f|] k c]|] eqn:Ht; simplify_eq/=.
  - pose proof (inv_ok s Hs t _ Ht) as Hok. unfold thread_ok in Hok. simpl in Hok.
    unfold thread_barrier in H. rewrite (inv_num s Hs) in H. destruct (returns f) eqn:Hr; simplify_eq/=.
    { by eapply inv_return. }
    destruct (entries (barrierPtr s) !! _) as [e|] eqn:He; simplify_eq/=.
    destruct (operate _ _ _ _) as [[f' e']|] eqn:Hop; simplify_eq/=.
    rewrite <- (inv_num s Hs) at 1. by eapply (inv_operate L HL).
  - destruct (cstep t c (shared s)) as [[[c' g] []]|] eqn:Hc; simplify_eq/=; [by eapply inv_enter|].
    eapply inv_silent; [done|exact Ht|done|done].
Qed.

Lemma inv_start b g (cs : list C) : numThread b = 2 ^ L -> length (entries b) = Z.to_nat (2 ^ L) ->
  length cs = Z.to_nat (2 ^ L) -> inv (start b g cs).
Proof.
  intros Hn He Hc. split; simpl; [done|by rewrite length_fmap..| |].
  - intros t th [c [-> _]]%list_lookup_fmap_Some. done.
  - intros l j e thE thO Hlj [? [-> _]]%list_lookup_fmap_Some [? [-> _]]%list_lookup_fmap_Some
      [? [-> _]]%list_lookup_fmap_Some. split; simpl; intros; try (done || lia). by left.
Qed.

Lemma inv_reach b g (cs : list C) s : numThread b = 2 ^ L -> length (entries b) = Z.to_nat (2 ^ L) ->
  length cs = Z.to_nat (2 ^ L) -> reach (signalled_step cstep) (start b g cs) s -> inv s.
Proof. intros. eapply reach_invariant; [by apply inv_start|intros; by eapply barrier_inv_step|done]. Qed.

Lemma b2z_range b : 0 <= Z.b2z b <= 1.
Proof. destruct b; simpl; lia. Qed.

(** A view counts between the calls that returned and the calls that were entered. *)
Lemma view_range li th :
  calls th <= v_up (view_of li th) <= entered th /\ calls th <= v_pass (view_of li th) <= entered th /\
  calls th <= v_reset (view_of li th) <= entered th /\ calls th <= v_sig (view_of li th) <= entered th /\
  calls th <= v_woken (view_of li th) <= entered th.
Proof.
  unfold view_of, entered. destruct (inside th); simpl; [|lia].
  repeat match goal with |- context [Z.b2z ?b] => pose proof (b2z_range b); generalize dependent (Z.b2z b); intros end.
  lia.
Qed.

(** ** Nobody leaves before everybody entered *)

(** How often a thread has got past level [l]; level 0 is the entrance. *)
Definition passes (l : Z) th : Z := if l =? 0 then entered th else v_pass (view_of (2 ^ l) th).

(** Every thread but the first is the odd one of some level. *)
Lemma odd_level t : (0 < t < Z.to_nat (2 ^ L))%nat ->
  exists l j, valid l j /\ t = odd_of l j.
Proof.
  intros Ht. assert (Hex : forall n, Z.of_nat n <= L -> Z.of_nat t mod 2 ^ Z.of_nat n <> 0 ->
    exists l, 1 <= l <= L /\ Z.of_nat t mod 2 ^ (l - 1) = 0 /\ Z.of_nat t mod 2 ^ l <> 0).
  { intros n. induction n as [|n IH]; intros Hn Hm; [by rewrite Z.mod_1_r in Hm|].
    destruct (decide (Z.of_nat t mod 2 ^ Z.of_nat n = 0)) as [Hz|Hz]; [|apply IH; [lia|done]].
    exists (Z.of_nat (S n)). replace (Z.of_nat (S n) - 1) with (Z.of_nat n) by lia. split_and!; (done || lia). }
  destruct (Hex (Z.to_nat L)) as (l & Hl & Hm & Hm'); [lia|rewrite Z2Nat.id, Z.mod_small by lia; lia|].
  exists l, (Z.of_nat t / 2 ^ l). split; [apply pos_valid; (done || lia)|apply odd_pos; (done || lia)].
Qed.

Lemma odd_level_unique l j l' j' : valid l j -> valid l' j' -> odd_of l j = odd_of l' j' -> l = l'.
Proof.
  intros Hv Hv' Heq.
  pose proof (odd_of_mod_ne L _ _ Hv) as H1. pose proof (odd_of_mod' L _ _ Hv) as H2.
  pose proof (odd_of_mod_ne L _ _ Hv') as H3. pose proof (odd_of_mod' L _ _ Hv') as H4. rewrite <- Heq in *.
  destruct (Z.lt_trichotomy l l') as [Hc|[?|Hc]]; [|done|]; exfalso.
  - destruct H1. apply (mod_down _ l (l' - 1)); [destruct Hv; lia|done].
  - destruct H3. apply (mod_down _ l' (l - 1)); [destruct Hv'; lia|done].
Qed.

Ltac thread_cases th Hok :=
  destruct th as [[[?lb ?i ?b]|] ?k ?c];
  [ destruct Hok as (?m & ?Hi & ?HmL & Hok); simpl in *; subst i; unfold view_of, frame_view, is_label in *;
    cbn [inside lab var_i calls] in *; destruct lb; simpl in *; destruct_and?;
    rewrite ?pow_ltb, ?pow_eqb in * by lia
  | simpl in * ].

Lemma passes_down l th t : 0 <= l < L -> thread_ok t th ->
  v_pass (view_of (2 ^ (l + 1)) th) <= passes l th /\ v_up (view_of (2 ^ (l + 1)) th) <= passes l th.
Proof.
  intros Hl Hok. unfold passes, entered. destruct (Z.eqb_spec l 0) as [Hz|]; thread_cases th Hok; bool_cases; simpl; lia.
Qed.

Lemma passes_all s : inv s -> forall n j th u thu, Z.of_nat n <= L -> 0 <= j < 2 ^ (L - Z.of_nat n) ->
  threads s !! Z.to_nat (j * 2 ^ Z.of_nat n) = Some th -> threads s !! u = Some thu ->
  j * 2 ^ Z.of_nat n <= Z.of_nat u < (j + 1) * 2 ^ Z.of_nat n ->
  passes (Z.of_nat n) th <= entered thu.
Proof.
  intros Hs n. induction n as [|n IH]; intros j th u thu Hn Hj Hth Hu Hr.
  { assert (u = Z.to_nat (j * 2 ^ Z.of_nat 0)) as -> by (change (2 ^ Z.of_nat 0) with 1 in *; lia).
    simplify_eq. unfold passes. simpl. lia. }
  set (l := Z.of_nat n) in *. replace (Z.of_nat (S n)) with (l + 1) in * by lia.
  assert (Hv : valid (l + 1) j) by (split; [lia|done]).
  assert (Hpow : 2 ^ (l + 1) = 2 * 2 ^ l) by (rewrite (pow2_split (l + 1)), Z.add_simpl_r by lia; done).
  assert (Hpow' : 2 ^ (L - l) = 2 * 2 ^ (L - (l + 1))).
  { rewrite (pow2_split (L - l)) by lia. do 2 f_equal. lia. }
  pose proof (pow2_pos l ltac:(lia)).
  assert (HE : threads s !! even_of (l + 1) j = Some th) by done.
  destruct (lookup_lt_is_Some_2 (threads s) (odd_of (l + 1) j)) as [tho HO].
  { rewrite (inv_threads s Hs). by apply (odd_lt L). }
  destruct (lookup_lt_is_Some_2 (entries (barrierPtr s)) (Z.to_nat (base_of (l + 1) + j))) as [e He].
  { rewrite (inv_entries s Hs). pose proof (index_bound L HL _ _ Hv). lia. }
  pose proof (inv_nodes s Hs _ _ _ _ _ Hv He HE HO) as Hnode.
  pose proof (ni_pass _ _ _ _ _ Hnode).
  assert (Hp : passes (l + 1) th = v_pass (view_of (2 ^ (l + 1)) th)).
  { unfold passes. destruct (Z.eqb_spec (l + 1) 0); [lia|done]. }
  destruct (passes_down l th _ ltac:(lia) (inv_ok s Hs _ _ HE)) as [? _].
  destruct (passes_down l tho _ ltac:(lia) (inv_ok s Hs _ _ HO)) as [_ ?].
  destruct (decide (Z.of_nat u < (2 * j + 1) * 2 ^ l)) as [Hlt|Hge].
  - assert (passes l th <= entered thu); [|lia]. apply (IH (2 * j) th u thu); [lia|lia| |done|lia].
    rewrite <- HE. f_equal. unfold even_of. lia.
  - assert (passes l tho <= entered thu); [|lia]. apply (IH (2 * j + 1) tho u thu); [lia|lia| |done|lia].
    rewrite <- HO. f_equal. unfold odd_of. rewrite Z.add_simpl_r. lia.
Qed.

Lemma woken_top s : inv s -> forall th0, threads s !! 0%nat = Some th0 ->
  forall n t l j th, (t <= n)%nat -> valid l j -> t = odd_of l j -> threads s !! t = Some th ->
  v_woken (view_of (2 ^ l) th) <= passes L th0.
Proof.
  intros Hs th0 H0 n. induction n as [|n IH]; intros t l j th Hn Hv -> Ht.
  { exfalso. pose proof (Z_odd_of L l j Hv). pose proof (pow2_pos (l - 1)). pose proof (pow2_pos l).
    destruct Hv as [? ?]. nia. }
  destruct (lookup_lt_is_Some_2 (threads s) (even_of l j)) as [the HE].
  { rewrite (inv_threads s Hs). by apply (even_lt L). }
  destruct (lookup_lt_is_Some_2 (entries (barrierPtr s)) (Z.to_nat (base_of l + j))) as [e He].
  { rewrite (inv_entries s Hs). pose proof (index_bound L HL _ _ Hv). lia. }
  pose proof (inv_nodes s Hs _ _ _ _ _ Hv He HE Ht) as Hnode. pose proof (ni_woken _ _ _ _ _ Hnode).
  pose proof (inv_ok s Hs _ _ HE) as Hok.
  destruct (decide (even_of l j = 0%nat)) as [Hz|Hz].
  - rewrite Hz in HE. simplify_eq. enough (v_sig (view_of (2 ^ l) th0) <= passes L th0) by lia.
    unfold passes. destruct (Z.eqb_spec L 0); [destruct Hv; lia|]. destruct Hv as [Hl _].
    clear -Hok Hl. thread_cases th0 Hok; bool_cases; simpl; lia.
  - destruct (odd_level (even_of l j)) as (l' & j' & Hv' & Heq).
    { split; [lia|]. by apply (even_lt L). }
    pose proof (Z_even_of L l j Hv). pose proof (Z_odd_of L l j Hv). pose proof (pow2_pos (l - 1)).
    assert (v_woken (view_of (2 ^ l') the) <= passes L th0).
    { eapply (IH (even_of l j) l' j' the); [|done|done|done]. destruct Hv; lia. }
    enough (v_sig (view_of (2 ^ l) the) <= v_woken (view_of (2 ^ l') the)) by lia.
    assert (Hll : l < l').
    { destruct (decide (l' <= l)); [|lia]. exfalso. apply (odd_of_mod_ne L l' j' Hv'). rewrite <- Heq.
      apply (mod_down _ l' l); [destruct Hv'; lia|]. by apply (even_of_mod L). }
    destruct Hv as [Hl _], Hv' as [Hl' _]. clear -Hok Hl Hl' Hll. thread_cases the Hok; bool_cases; simpl; lia.
Qed.

(** A thread that has returned from [k] calls: every thread has entered [k] calls. *)
Lemma calls_le_entered s t th u thu : inv s -> threads s !! t = Some th -> threads s !! u = Some thu ->
  calls th <= entered thu.
Proof.
  intros Hs Ht Hu.
  assert (Hlt : forall v tv, threads s !! v = Some tv -> 0 <= Z.of_nat v < 2 ^ L).
  { intros v tv Hv%lookup_lt_Some. rewrite (inv_threads s Hs) in Hv. lia. }
  destruct (lookup_lt_is_Some_2 (threads s) 0) as [th0 H0].
  { pose proof (Hlt _ _ Ht). rewrite (inv_threads s Hs). lia. }
  assert (Hpass : passes L th0 <= entered thu).
  { replace L with (Z.of_nat (Z.to_nat L)) by lia.
    apply (passes_all s Hs (Z.to_nat L) 0 th0 u thu); [lia| |done|done|].
    - rewrite Z2Nat.id, Z.sub_diag by lia. simpl. lia.
    - rewrite Z2Nat.id by lia. pose proof (Hlt _ _ Hu). lia. }
  assert (calls th <= passes L th0); [|lia]. destruct (decide (t = 0%nat)) as [->|Hne].
  - simplify_eq. pose proof (view_range (2 ^ L) th). unfold passes, entered in *. destruct (L =? 0), (inside th); lia.
  - destruct (odd_level t) as (l & j & Hv & ->); [pose proof (Hlt _ _ Ht); lia|].
    pose proof (woken_top s Hs th0 H0 _ _ _ _ _ (le_n _) Hv eq_refl Ht) as Hw.
    pose proof (view_range (2 ^ l) th). lia.
Qed.

(** ** Only a thread that has not arrived can block the others *)

Notation step_thread := (step_thread cstep).

Lemma node_exists s l j : inv s -> valid l j ->
  exists e thE thO, entries (barrierPtr s) !! Z.to_nat (base_of l + j) = Some e /\
  threads s !! even_of l j = Some thE /\ threads s !! odd_of l j = Some thO /\
  node_inv (even_of l j) (odd_of l j) e (view_of (2 ^ l) thE) (view_of (2 ^ l) thO).
Proof.
  intros Hs Hv. pose proof (index_bound L HL _ _ Hv).
  destruct (lookup_lt_is_Some_2 (entries (barrierPtr s)) (Z.to_nat (base_of l + j))) as [e He].
  { rewrite (inv_entries s Hs). lia. }
  destruct (lookup_lt_is_Some_2 (threads s) (even_of l j)) as [thE HE].
  { rewrite (inv_threads s Hs). by apply (even_lt L). }
  destruct (lookup_lt_is_Some_2 (threads s) (odd_of l j)) as [thO HO].
  { rewrite (inv_threads s Hs). by apply (odd_lt L). }
  exists e, thE, thO. split_and!; auto. by apply (inv_nodes s Hs).
Qed.

(** The operation a thread is about to do inside a call. *)
Lemma step_inside s t th f : inv s -> threads s !! t = Some th -> inside th = Some f -> step_thread t s = None ->
  exists l e, valid l (Z.of_nat t / 2 ^ l) /\ var_i f = 2 ^ l /\
  entries (barrierPtr s) !! Z.to_nat (base_of l + Z.of_nat t / 2 ^ l) = Some e /\
  operate (2 ^ L) t (settle (2 ^ L) f) e = None.
Proof.
  intros Hs Ht Hf Hnone. pose proof (inv_ok s Hs t th Ht) as Hok. unfold thread_ok in Hok. rewrite Hf in Hok.
  unfold Barrier.step_thread in Hnone. rewrite Ht in Hnone. simpl in Hnone. rewrite Hf in Hnone.
  unfold thread_barrier in Hnone. rewrite (inv_num s Hs) in Hnone.
  destruct (returns f) eqn:Hr; [done|].
  assert (Hlt : (t < Z.to_nat (2 ^ L))%nat) by (rewrite <- (inv_threads s Hs); by eapply lookup_lt_Some).
  destruct (frame_index_bound t f Hlt Hok Hr) as (l & Hl & Hi & Hidx & Hv). rewrite Hidx in Hnone.
  destruct (node_exists s l _ Hs Hv) as (e & _ & _ & He & _). exists l, e. rewrite He in Hnone. simpl in Hnone.
  split_and!; auto. destruct (operate _ _ _ _) as [[f' e']|]; done.
Qed.

Lemma hold_steps s t th l : inv s -> threads s !! t = Some th -> v_hold (view_of (2 ^ l) th) = true ->
  step_thread t s <> None.
Proof.
  intros Hs Ht Hh Hnone. unfold view_of in Hh. destruct (inside th) as [f|] eqn:Hf; [|done].
  destruct (step_inside s t th f Hs Ht Hf Hnone) as (l' & e & _ & _ & _ & Hop).
  unfold operate, settle in Hop. simpl in Hh. apply andb_true_iff in Hh as [_ Hh].
  destruct f as [lb i b]; destruct lb; simpl in *; try done.
  destruct (count e <? 2); done.
Qed.

Section stuck.
Context (s : state C G) (Hs : inv s) (Hstuck : forall t, step_thread t s = None).

Lemma stuck_unlocked l j e : valid l j -> entries (barrierPtr s) !! Z.to_nat (base_of l + j) = Some e ->
  countLock e = None.
Proof.
  intros Hv He. destruct (node_exists s l j Hs Hv) as (e' & thE & thO & He' & HE & HO & []). simplify_eq.
  rewrite ni_lock0. destruct (v_hold (view_of (2 ^ l) thE)) eqn:H1.
  { by destruct (hold_steps s _ _ l Hs HE H1). }
  destruct (v_hold (view_of (2 ^ l) thO)) eqn:H2; [|done]. by destruct (hold_steps s _ _ l Hs HO H2).
Qed.

(** A stuck thread sleeps in a queue. *)
Lemma stuck_asleep t th f : threads s !! t = Some th -> inside th = Some f ->
  exists l e, valid l (Z.of_nat t / 2 ^ l) /\ var_i f = 2 ^ l /\
  entries (barrierPtr s) !! Z.to_nat (base_of l + Z.of_nat t / 2 ^ l) = Some e /\
  (lab f = L_wait /\ t ∈ proceedCond e /\ t = even_of l (Z.of_nat t / 2 ^ l) \/
   lab f = L_wait_all /\ t ∈ proceedAllCond e /\ t = odd_of l (Z.of_nat t / 2 ^ l)).
Proof using Hs Hstuck HL.
  intros Ht Hf. destruct (step_inside s t th f Hs Ht Hf (Hstuck t)) as (l & e & Hv & Hi & He & Hop).
  exists l, e. split_and!; auto. pose proof (stuck_unlocked _ _ _ Hv He) as Hfree.
  pose proof (inv_ok s Hs t th Ht) as Hok. unfold thread_ok in Hok. rewrite Hf in Hok.
  destruct Hok as (l' & Hi' & Hl' & Hok). destruct f as [lb i b]; simpl in *. subst i.
  assert (l = l') as <-.
  { destruct Hv as [? _]. assert (0 <= l') by (destruct lb; simpl in Hok; lia).
    pose proof (pow_eqb l l'). rewrite Hi', Z.eqb_refl in *. destruct (Z.eqb_spec l l'); [done|]. lia. }
  unfold operate, settle, lock in Hop. rewrite Hfree in Hop.
  destruct lb; simpl in *; destruct Hok as (? & _ & Hm); try done.
  - destruct (count e <? 2); done.
  - case_bool_decide; [|done]. left. split_and!; auto. by apply even_pos.
  - case_bool_decide; [|done]. right. destruct Hm. split_and!; auto. by apply odd_pos.
Qed.

Definition late (k : Z) : Prop := exists u thu, threads s !! u = Some thu /\ inside thu = None /\ calls thu <= k.

(** The even thread of a pair waits: the odd one is late. *)
Lemma late_wait n : forall l t th f e, l <= Z.of_nat n -> valid l (Z.of_nat t / 2 ^ l) ->
  threads s !! t = Some th -> inside th = Some f -> lab f = L_wait -> var_i f = 2 ^ l ->
  entries (barrierPtr s) !! Z.to_nat (base_of l + Z.of_nat t / 2 ^ l) = Some e -> t ∈ proceedCond e ->
  t = even_of l (Z.of_nat t / 2 ^ l) -> late (calls th).
Proof using Hs Hstuck HL.
  induction n as [|n IH]; intros l t th f e Hn Hv Ht Hf Hlab Hi He Hq Heven; [destruct Hv; lia|].
  set (j := Z.of_nat t / 2 ^ l) in *.
  destruct (node_exists s l j Hs Hv) as (e' & thE & thO & He' & HE & HO & Hnode).
  rewrite <- Heven in HE. assert (thE = th) as -> by congruence. assert (e' = e) as -> by congruence.
  pose proof (inv_ok s Hs _ _ HO) as HokO.
  assert (Hreset : v_reset (view_of (2 ^ l) th) = calls th).
  { unfold view_of, frame_view. rewrite Hf. simpl. rewrite Hlab. simpl. lia. }
  assert (Hup : v_up (view_of (2 ^ l) thO) <= calls th).
  { destruct (ni_wait _ _ _ _ _ Hnode) as [Hnil|(_ & _ & [Heq|Hsg])]; [rewrite Hnil in Hq; set_solver|lia|].
    pose proof (odd_view_ok L l thO _ ltac:(destruct Hv; lia) (odd_of_mod' L l j Hv) (odd_of_mod_ne L l j Hv) HokO) as [].
    by destruct (hold_steps s _ _ l Hs HO (oo_fresh0 (oo_signal0 Hsg))). }
  pose proof (view_range (2 ^ l) thO) as (Hr & _).
  destruct (inside thO) as [fO|] eqn:HfO; [|exists (odd_of l j), thO; split_and!; auto; lia].
  destruct (stuck_asleep _ _ _ HO HfO) as (l' & e2 & Hv' & Hi' & He2 & [(Hl' & Hq2 & Hev)|(Hl' & Hq2 & Hodd)]).
  - assert (l' < l).
    { destruct (decide (l <= l')); [|lia]. exfalso. apply (odd_of_mod_ne L l j Hv).
      apply (mod_down _ l l'); [destruct Hv; lia|]. rewrite Hev. by apply (even_of_mod L). }
    destruct (IH l' _ thO fO e2 ltac:(lia) Hv' HO HfO Hl' Hi' He2 Hq2 Hev) as (u & thu & ? & ? & ?).
    exists u, thu. split_and!; auto. lia.
  - exfalso. rewrite <- (odd_level_unique _ _ _ _ Hv Hv' Hodd) in *.
    rewrite (odd_of_div L) in He2 by done. simplify_eq.
    pose proof (ni_wait_all _ _ _ _ _ Hnode) as Hwa. pose proof (view_range (2 ^ l) th) as (_ & _ & _ & Hsg & _).
    rewrite (proj2 (Z.ltb_ge _ _)), andb_false_r in Hwa by lia. rewrite Hwa in Hq2. set_solver.
Qed.

(** The odd thread of a pair sleeps: somebody above it is late. *)
Lemma late_wait_all n : forall l t th f e, (t <= n)%nat -> valid l (Z.of_nat t / 2 ^ l) ->
  threads s !! t = Some th -> inside th = Some f -> lab f = L_wait_all -> var_i f = 2 ^ l ->
  entries (barrierPtr s) !! Z.to_nat (base_of l + Z.of_nat t / 2 ^ l) = Some e -> t ∈ proceedAllCond e ->
  t = odd_of l (Z.of_nat t / 2 ^ l) -> late (calls th).
Proof using Hs Hstuck HL.
  induction n as [|n IH]; intros l t th f e Hn Hv Ht Hf Hlab Hi He Hq Hodd.
  { exfalso. pose proof (Z_odd_of L l _ Hv). pose proof (pow2_pos (l - 1)). destruct Hv as [? [? _]].
    pose proof (pow2_pos l). rewrite <- Hodd in *. nia. }
  set (j := Z.of_nat t / 2 ^ l) in *.
  destruct (node_exists s l j Hs Hv) as (e' & thE & thO & He' & HE & HO & Hnode).
  rewrite <- Hodd in HO. assert (thO = th) as -> by congruence. assert (e' = e) as -> by congruence.
  assert (Hsig : v_sig (view_of (2 ^ l) thE) <= calls th).
  { pose proof (ni_wait_all _ _ _ _ _ Hnode) as Hwa. destruct (_ && _) eqn:Hb; [|rewrite Hwa in Hq; set_solver].
    zify_bool. pose proof (view_range (2 ^ l) th) as (Hr & _). unfold entered in Hr. rewrite Hf in Hr. lia. }
  pose proof (view_range (2 ^ l) thE) as (_ & _ & _ & Hr & _).
  destruct (inside thE) as [fE|] eqn:HfE; [|exists (even_of l j), thE; split_and!; auto; lia].
  assert (Hl : late (calls thE)).
  { destruct (stuck_asleep _ _ _ HE HfE) as (l' & e2 & Hv' & Hi' & He2 & [(Hl' & Hq2 & Hev)|(Hl' & Hq2 & Ho)]).
    - eapply (late_wait (Z.to_nat L) l' (even_of l j)); eauto. destruct Hv'; lia.
    - eapply (IH l' (even_of l j)); eauto. pose proof (Z_even_of L l j Hv). pose proof (Z_odd_of L l j Hv).
      pose proof (pow2_pos (l - 1)). destruct Hv; lia. }
  destruct Hl as (u & thu & ? & ? & ?). exists u, thu. split_and!; auto. lia.
Qed.

Lemma stuck_late t th f : threads s !! t = Some th -> inside th = Some f -> late (calls th).
Proof using Hs Hstuck HL.
  intros Ht Hf.
  destruct (stuck_asleep _ _ _ Ht Hf) as (l & e & Hv & Hi & He & [(Hl & Hq & Hev)|(Hl & Hq & Ho)]).
  - eapply (late_wait (Z.to_nat L) l t); eauto. destruct Hv; lia.
  - eapply (late_wait_all t l t); eauto.
Qed.
End stuck.

(** ** Calls are short

    The rank of a thread bounds the operations it still has to do in its call, if it is not
    woken without a signal. *)

Definition rank_frame (t : nat) (f : frame) (e : node) : Z :=
  let l := Z.log2 (var_i f) in
  let up := 10 * (L - l) + 5 * (L + 1) + 2 in
  match lab f with
  | L_lock => up + 8 | L_inc => up + 7
  | L_test => up + (if count e <? 2 then 5 else 2)
  | L_wait => up + (if bool_decide (t ∈ proceedCond e) then 4 else if count e <? 2 then 6 else 3)
  | L_unlock => up + 1 | L_sig => up + 6 | L_sleep => up + 5 | L_wait_all => up + 4 | L_unlock_all => up + 1
  | L_down => 5 * l + 1 | L_reset => 5 * l | L_sig_all => 5 * l - 1 | L_unlock_down => 5 * l - 2
  end.

Definition entry_of s t f : node := default (Node 0 None [] []) (entries (barrierPtr s) !! Z.to_nat (index (Z.of_nat t) f)).

Definition rank s (t : nat) : Z :=
  match threads s !! t with
  | Some th => match inside th with Some f => rank_frame t f (entry_of s t f) | None => 0 end
  | None => 0
  end.

Definition total s : Z := zsum (rank s) (seq 0 (length (threads s))).

(** The operations of a call, at most. *)
Definition call_cost : Z := 15 * L + 5.

Lemma log2_pow l : 0 <= l -> Z.log2 (2 ^ l) = l.
Proof. apply Z.log2_pow2. Qed.

Lemma barrier_rank_nonneg s t : inv s -> 0 <= rank s t.
Proof.
  intros Hs. unfold rank. destruct (threads s !! t) as [[[f|] k c]|] eqn:Ht; simpl; [|lia..].
  destruct (inv_ok s Hs t _ Ht) as (l & Hi & Hl & Hok). unfold rank_frame. rewrite Hi.
  assert (0 <= l) by (destruct (lab f); simpl in Hok; lia). rewrite log2_pow by done.
  destruct (lab f); destruct Hok as (? & _); repeat case_match; lia.
Qed.

Lemma total_nonneg s : inv s -> 0 <= total s.
Proof. intros Hs. apply zsum_nonneg. intros. by apply barrier_rank_nonneg. Qed.

(** The entry of the thread that moves, after its own step. *)
Ltac same_entry Hlt He := simplify_eq/=; rewrite ?Hlt, ?He; simpl; rewrite ?log2_pow by lia.

(** The thread that steps comes closer to its return. *)
Lemma rank_self s t k c f f' e e' : inv s -> threads s !! t = Some (Thread (Some f) k c) -> returns f = false ->
  entries (barrierPtr s) !! Z.to_nat (index (Z.of_nat t) (settle (2 ^ L) f)) = Some e ->
  operate (2 ^ L) t (settle (2 ^ L) f) e = Some (f', e') ->
  rank (moved s t (Thread (Some f') k c) (Z.to_nat (index (Z.of_nat t) (settle (2 ^ L) f))) e') t < rank s t.
Proof.
  intros Hs Ht Hr He Hop. pose proof (inv_ok s Hs t _ Ht) as (l & Hi & Hl & Hok).
  unfold rank, moved. simpl. rewrite Ht, list_lookup_insert_eq by by eapply lookup_lt_Some. simpl.
  unfold entry_of. simpl. destruct f as [lb i b]; simpl in *; subst i.
  assert (Hlt : forall x, <[Z.to_nat (b + Z.of_nat t / 2 ^ l) := x]> (entries (barrierPtr s))
    !! Z.to_nat (b + Z.of_nat t / 2 ^ l) = entries (barrierPtr s) !! Z.to_nat (b + Z.of_nat t / 2 ^ l) ≫= fun _ => Some x).
  { intros x. destruct (entries (barrierPtr s) !! Z.to_nat (b + _)) eqn:E; simpl.
    - by rewrite list_lookup_insert_eq by by eapply lookup_lt_Some.
    - rewrite list_insert_ge by by apply lookup_ge_None. done. }
  assert (0 <= l) by (destruct lb; simpl in Hok; lia).
  unfold operate, settle, index, lock, next_level, rank_frame in *. cbn [lab var_i var_base] in *.
  destruct lb; cbn [lab var_i var_base] in *; destruct Hok as (H1 & Hb & Hm).
  - destruct (countLock e); same_entry Hlt He. lia.
  - destruct (_ =? 0); same_entry Hlt He; repeat case_match; lia.
  - destruct (count e <? 2) eqn:Hc; same_entry Hlt He; rewrite ?Hc; [|lia].
    rewrite bool_decide_true by (apply elem_of_app; right; by left). lia.
  - case_bool_decide; [done|]. destruct (countLock e); same_entry Hlt He.
    rewrite bool_decide_false by done. repeat case_match; lia.
  - simplify_eq/=. replace (2 ^ l * 2) with (2 ^ (l + 1)) by (rewrite (pow2_split (l + 1)), Z.add_simpl_r by lia; lia).
    destruct (_ <=? _); simpl; [rewrite !log2_pow by lia; lia|].
    rewrite half_pow, Z.add_simpl_r, !log2_pow by lia. lia.
  - destruct (count e =? 2); same_entry Hlt He; lia.
  - same_entry Hlt He. lia.
  - case_bool_decide; [done|]. destruct (countLock e); same_entry Hlt He. lia.
  - simplify_eq/=. rewrite half_pow, !log2_pow by lia. lia.
  - destruct (countLock e); simplify_eq/=. rewrite !log2_pow by lia. lia.
  - same_entry Hlt He. lia.
  - same_entry Hlt He. lia.
  - simplify_eq/=. rewrite half_pow, !log2_pow by lia. lia.
Qed.

(** The odd thread of a pair does not push the even one back. *)
Lemma rank_pair t f f' e e' u fu : operate (2 ^ L) t f e = Some (f', e') -> u <> t ->
  match lab f with L_lock | L_inc => True | l => odd_label l = true end ->
  proceedCond e = [] \/ proceedCond e = [u] -> rank_frame u fu e' <= rank_frame u fu e.
Proof.
  intros Hop Hne Hlab Hq.
  assert (Heff : count e <= count e' /\ (proceedCond e' = proceedCond e \/ proceedCond e' = [] /\ 2 <= count e')).
  { unfold operate, lock in Hop. destruct (lab f); try done;
      try (case_bool_decide; [done|]); try (destruct (countLock e); [done|]);
      try (destruct (Z.eqb_spec (count e) 2)); simplify_eq/=; try (split; [lia|by left]).
    split; [lia|right]. split; [|lia]. destruct Hq as [->| ->]; done. }
  destruct Heff as [Hc [Hp|[Hp Hc2]]]; unfold rank_frame; rewrite Hp; destruct (lab fu); try lia;
    repeat case_bool_decide; try set_solver; bool_cases; lia.
Qed.

(** The others do not fall back. *)
Lemma rank_other s t k c f f' e e' u : inv s -> threads s !! t = Some (Thread (Some f) k c) -> returns f = false ->
  entries (barrierPtr s) !! Z.to_nat (index (Z.of_nat t) (settle (2 ^ L) f)) = Some e ->
  operate (2 ^ L) t (settle (2 ^ L) f) e = Some (f', e') -> u <> t ->
  rank (moved s t (Thread (Some f') k c) (Z.to_nat (index (Z.of_nat t) (settle (2 ^ L) f))) e') u <= rank s u.
Proof.
  intros Hs Ht Hr He Hop Hne. unfold rank, moved. simpl. rewrite list_lookup_insert_ne by done.
  destruct (threads s !! u) as [[[fu|] ku cu]|] eqn:Hu; simpl; [|lia..].
  assert (Hltt : (t < Z.to_nat (2 ^ L))%nat) by (rewrite <- (inv_threads s Hs); by eapply lookup_lt_Some).
  assert (Hltu : (u < Z.to_nat (2 ^ L))%nat) by (rewrite <- (inv_threads s Hs); by eapply lookup_lt_Some).
  destruct (frame_index_bound t f Hltt (inv_ok s Hs t _ Ht) Hr) as (l & Hl & Hi & Hidx & Hv). rewrite Hidx in *.
  pose proof (inv_ok s Hs u _ Hu) as (m & Him & Hm & Hok). unfold entry_of. simpl.
  assert (Hcase : (forall e1 e2, rank_frame u fu e1 = rank_frame u fu e2) \/
    1 <= m /\ var_base fu = base_of m /\ Z.of_nat u mod 2 ^ m = 0).
  { destruct (lab fu) eqn:Hlab; try (by right); left; intros; unfold rank_frame; by rewrite Hlab. }
  destruct Hcase as [Hcase|(H1 & Hb & Hum)]; [apply Z.eq_le_incl, Hcase|].
  assert (Hidu : index (Z.of_nat u) fu = base_of m + Z.of_nat u / 2 ^ m) by (unfold index; rewrite Hb, Him; done).
  assert (Hvu : valid m (Z.of_nat u / 2 ^ m)) by (apply pos_valid; (done || lia)).
  pose proof (index_bound L HL _ _ Hv). pose proof (index_bound L HL _ _ Hvu). rewrite Hidu.
  destruct (decide (base_of m + Z.of_nat u / 2 ^ m = base_of l + Z.of_nat t / 2 ^ l)) as [Heq|Hd].
  2: { rewrite list_lookup_insert_ne by lia. lia. }
  destruct (index_inj L _ _ _ _ Hvu Hv Heq) as [-> Hj].
  rewrite Heq, list_lookup_insert_eq, He by by eapply lookup_lt_Some. simpl.
  pose proof (even_pos u l H1 Hum) as Hu'.
  eapply rank_pair; [exact Hop|done| |].
  - pose proof (inv_ok s Hs t _ Ht) as (l' & Hi' & Hl' & Hok').
    assert (l' = l) as ->.
    { assert (0 <= l') by (destruct (lab f); simpl in Hok'; lia). pose proof (pow_eqb l l').
      rewrite <- Hi, Hi', Z.eqb_refl in *. destruct (Z.eqb_spec l l'); [done|lia]. }
    assert (Hnt : Z.of_nat t mod 2 ^ l <> 0).
    { intros Hz. apply Hne. rewrite Hu', (even_pos t l H1 Hz). by rewrite Hj. }
    destruct f as [lb i b]. destruct lb; simpl in *; try done; by destruct Hok' as (? & ? & ?).
  - destruct (node_exists s l _ Hs Hv) as (e1 & thE & thO & He1 & HE & HO & []). simplify_eq.
    rewrite <- Hj, <- Hu' in ni_wait0. destruct ni_wait0 as [?|(? & _)]; auto.
Qed.

Lemma total_inside s t th f s' : inv s -> threads s !! t = Some th -> inside th = Some f ->
  step_thread t s = Some s' -> total s' < total s /\ shared s' = shared s /\ length (threads s') = length (threads s) /\
  (forall u, u <> t -> threads s' !! u = threads s !! u) /\
  (exists th', threads s' !! t = Some th' /\ client th' = client th /\
    (inside th' <> None /\ calls th' = calls th \/ inside th' = None /\ calls th' = calls th + 1)).
Proof.
  intros Hs Ht Hf Hstep. destruct th as [f1 k c]. simpl in Hf. subst f1.
  pose proof (lookup_lt_Some _ _ _ Ht) as Hlt.
  unfold Barrier.step_thread, thread_barrier in Hstep. rewrite Ht, (inv_num s Hs) in Hstep. simpl in Hstep.
  destruct (returns f) eqn:Hr; simplify_eq/=.
  { split_and!; try done.
    - unfold total. simpl. rewrite length_insert. apply (zsum_lt _ _ _ t).
      + intros u Hu. destruct (decide (u = t)) as [->|].
        * pose proof (barrier_rank_nonneg s t Hs). unfold rank at 1. simpl. by rewrite list_lookup_insert_eq.
        * unfold rank, entry_of. simpl. rewrite list_lookup_insert_ne by done. lia.
      + apply elem_of_seq. lia.
      + unfold rank. simpl. rewrite Ht, list_lookup_insert_eq by done. simpl.
        destruct (inv_ok s Hs t _ Ht) as (l & Hi & Hl & Hok). destruct f as [lb i b]. destruct lb; simplify_eq/=.
        unfold rank_frame. simpl. pose proof (Z.log2_nonneg (2 ^ l)). lia.
    - by rewrite length_insert.
    - intros. by rewrite list_lookup_insert_ne.
    - eexists. rewrite list_lookup_insert_eq by done. split_and!; [done|done|by right]. }
  destruct (entries (barrierPtr s) !! _) as [e|] eqn:He; simplify_eq/=.
  destruct (operate _ _ _ _) as [[f' e']|] eqn:Hop; simplify_eq/=.
  split_and!; try done.
  - unfold total. simpl. rewrite length_insert.
    pose proof (rank_self s t k c f f' e e' Hs Ht Hr He Hop) as Hself. unfold moved in Hself.
    rewrite (inv_num s Hs) in Hself. apply (zsum_lt _ _ _ t); [|apply elem_of_seq; lia|done].
    intros u _. destruct (decide (u = t)) as [->|Hne]; [lia|].
    pose proof (rank_other s t k c f f' e e' u Hs Ht Hr He Hop Hne) as Ho. unfold moved in Ho.
    by rewrite (inv_num s Hs) in Ho.
  - by rewrite length_insert.
  - intros. by rewrite list_lookup_insert_ne.
  - eexists. rewrite list_lookup_insert_eq by done. split_and!; [done|done|by left].
Qed.

Lemma total_outside s t th s' : inv s -> threads s !! t = Some th -> inside th = None ->
  step_thread t s = Some s' ->
  exists c g b, cstep t (client th) (shared s) = Some (c, g, b) /\ shared s' = g /\
  threads s' = <[t := if b then call (barrierPtr s) c (calls th) else Thread None (calls th) c]> (threads s) /\
  barrierPtr s' = barrierPtr s /\ total s' <= total s + (if b then call_cost else 0).
Proof.
  intros Hs Ht Hf Hstep. unfold Barrier.step_thread in Hstep. rewrite Ht in Hstep. simpl in Hstep. rewrite Hf in Hstep.
  destruct (cstep t (client th) (shared s)) as [[[c g] b]|] eqn:Hc; simplify_eq/=.
  exists c, g, b. split_and!; try done. unfold total. simpl. rewrite length_insert.
  pose proof (lookup_lt_Some _ _ _ Ht) as Hlt.
  set (s' := State _ _ _). set (d := if b then call_cost else 0).
  assert (Hr : forall u, rank s' u <= rank s u + (if decide (u = t) then d else 0)).
  { intros u. destruct (decide (u = t)) as [->|].
    - unfold rank. simpl. rewrite list_lookup_insert_eq, Ht, Hf by done. unfold d. destruct b; simpl; [|lia].
      unfold call, enter. rewrite (inv_num s Hs). unfold call_cost. destruct (Z.ltb_spec (2 ^ L) 2); simpl; [lia|].
      unfold rank_frame. simpl. lia.
    - unfold rank, entry_of. simpl. rewrite list_lookup_insert_ne by done. lia. }
  transitivity (zsum (fun u => rank s u + (if decide (u = t) then d else 0)) (seq 0 (length (threads s)))).
  { apply zsum_le. intros. apply Hr. }
  rewrite zsum_add. apply Z.add_le_mono_l, zsum_at; [unfold d, call_cost; destruct b; lia|apply NoDup_seq].
Qed.

Lemma total_spurious s t s' : inv s -> signalled_step cstep (Spurious t) s = Some s' ->
  total s' <= total s + 2 /\ threads s' = threads s /\ shared s' = shared s.
Proof.
  intros Hs H. apply spurious_wait in H as (i & b & k & c & e & Ht & He & ->). split_and!; try done.
  destruct (inv_ok s Hs t _ Ht) as (l & Hi & Hl & H1 & Hb & Hm). simpl in *. subst i b.
  unfold total. simpl. set (s' := State _ _ _).
  assert (Hr : forall u, rank s' u <= rank s u + (if decide (u = t) then 2 else 0)).
  { intros u. unfold rank. simpl. destruct (decide (u = t)) as [->|Hne].
    - rewrite Ht. simpl. unfold entry_of. simpl. rewrite list_lookup_insert_eq, He by by eapply lookup_lt_Some.
      unfold rank_frame. simpl. repeat case_bool_decide; repeat case_match; lia.
    - destruct (threads s !! u) as [[[fu|] ku cu]|] eqn:Hu; simpl; try lia.
      unfold entry_of. simpl. destruct (decide (Z.to_nat (index (Z.of_nat t) (Frame L_wait (2 ^ l) (base_of l)))
        = Z.to_nat (index (Z.of_nat u) fu))) as [Heq|]; [|rewrite list_lookup_insert_ne by done; lia].
      rewrite <- Heq, list_lookup_insert_eq, He by by eapply lookup_lt_Some. simpl.
      unfold rank_frame. simpl. destruct (lab fu); try lia.
      rewrite (bool_decide_ext (u ∈ filter (fun v => v <> t) (proceedCond e)) (u ∈ proceedCond e)); [lia|].
      rewrite list_elem_of_filter. naive_solver. }
  transitivity (zsum (fun u => rank s u + (if decide (u = t) then 2 else 0)) (seq 0 (length (threads s)))).
  { apply zsum_le. intros. apply Hr. }
  rewrite zsum_add. apply Z.add_le_mono_l, zsum_at; [lia|apply NoDup_seq].
Qed.

End steps.
End tree.

(** [thread_barrier_alloc] accepts the powers of two. *)
Lemma pos_pop_1 p : pos_pop p = 1 -> exists k, 0 <= k /\ Zpos p = 2 ^ k.
Proof.
  induction p as [p IH|p IH|]; simpl; intros H.
  - pose proof (Z_pop_pos (Zpos p) ltac:(lia)). simpl in *. lia.
  - destruct (IH H) as (k & Hk & Hp). exists (k + 1). split; [lia|].
    rewrite (pow2_split (k + 1)), Z.add_simpl_r by lia. lia.
  - by exists 0.
Qed.

Lemma alloc_ok n b : thread_barrier_alloc n = Some b ->
  exists L, 0 <= L /\ n = 2 ^ L /\ numThread b = n /\ length (entries b) = Z.to_nat n.
Proof.
  unfold thread_barrier_alloc. destruct (_ && _) eqn:Hb; [|done]. intros [= <-]. zify_bool. simpl.
  destruct (land_pred n ltac:(lia)) as [_ Hpop]. rewrite H0 in Hpop. simpl in Hpop.
  destruct n as [|q|q]; try lia. simpl in Hpop. destruct (pos_pop_1 q ltac:(lia)) as (L & HL & Hq).
  exists L. rewrite length_replicate. done.
Qed.

(** C18: the barrier, for every number of threads that [thread_barrier_alloc] accepts, every client
    and every run in which the wait on [proceedAllCond] returns only when it is signalled
    ([all_signalled]; POSIX lets it return without a signal too, and then the barrier does not
    hold, [spurious_all_breaks]), with any wake-ups at the wait on [proceedCond]: a thread returns
    from its [k]-th call only after every thread has entered its own; and when no thread can
    take a step any more, a thread that is still inside a call waits for one that has not
    entered it. *)
Theorem thread_barrier_synchronizes {C G} (cstep : nat -> C -> G -> option (C * G * bool)) n b g cs acts s :
  thread_barrier_alloc n = Some b -> length cs = Z.to_nat n ->
  run (step cstep) acts (start b g cs) = Some s -> all_signalled cstep acts (start b g cs) = true ->
  (forall t th u thu, threads s !! t = Some th -> threads s !! u = Some thu -> calls th <= entered thu) /\
  ((forall t, step_thread cstep t s = None) ->
   forall t th, threads s !! t = Some th -> inside th <> None ->
   exists u thu, threads s !! u = Some thu /\ inside thu = None /\ calls thu <= calls th).
Proof.
  intros Ha Hcs Hr Hsig. destruct (alloc_ok n b Ha) as (L & HL & -> & Hn & He).
  assert (Hinv : inv L s) by (eapply (inv_reach L HL); [done..|]; by eapply run_from, run_signalled).
  split; [intros; by eapply (calls_le_entered L HL)|].
  intros Hstuck t th Ht Hin. destruct (inside th) as [f|] eqn:Hf; [|done].
  by eapply (stuck_late L HL).
Qed.

(** A client that calls the barrier [c] times. *)
Definition one_call (t : nat) (c : nat) (g : unit) : option (nat * unit * bool) :=
  match c with O => None | S c => Some (c, g, true) end.

(** Two threads: thread 1 arrives and sleeps; thread 0 passes and is about to wake it. *)
Definition two_threads : list action :=
  replicate 5 (Step 1) ++ replicate 7 (Step 0).

(** Thread 0 arrives first and is woken for nothing at the first wait. *)
Definition woken_first : list action :=
  replicate 4 (Step 0) ++ [Spurious 0] ++ replicate 2 (Step 0) ++ replicate 5 (Step 1).

Lemma thread_barrier_synchronizes_witness :
  exists b s th0 th1, thread_barrier_alloc 2 = Some b /\
  run (step one_call) two_threads (start b () [1%nat; 1%nat]) = Some s /\
  threads s !! 0%nat = Some th0 /\ threads s !! 1%nat = Some th1 /\ calls th0 <= entered th1.
Proof.
  destruct (thread_barrier_alloc 2) as [b|] eqn:Ha; [|by vm_compute in Ha].
  destruct (run (step one_call) two_threads (start b () [1%nat; 1%nat])) as [s|] eqn:Hr.
  2: { exfalso. revert Hr. injection Ha as <-. by vm_compute. }
  destruct (thread_barrier_synchronizes one_call 2 b () [1%nat; 1%nat] two_threads s Ha eq_refl Hr) as [Hsafe _].
  { injection Ha as <-. by vm_compute. }
  destruct (threads s !! 0%nat) as [th0|] eqn:H0, (threads s !! 1%nat) as [th1|] eqn:H1;
    try (exfalso; revert H0 H1; injection Ha as <-; vm_compute in Hr; injection Hr as <-; by vm_compute).
  exists b, s, th0, th1. split_and!; try done. exact (Hsafe _ _ _ _ H0 H1).
Defined.

(** ** A wake-up without a signal

    The odd thread takes any return from [THREAD_COND_WAIT (proceedAllCond)] for the release of the
    barrier, also one without a signal, as POSIX allows. *)
(** Calls returned from and calls entered, of both threads: thread 1 has returned from its
    first call, thread 0 has not entered its own. *)
Lemma spurious_all_breaks :
  (b ← thread_barrier_alloc 2;
   s ← run (step one_call) (replicate 5 (Step 1) ++ [Spurious 1] ++ replicate 3 (Step 1)) (start b () [1%nat; 1%nat]);
   Some ((fun th => (calls th, entered th)) <$> threads s)) = Some [(0, 0); (1, 1)].
Proof. vm_compute. reflexivity. Qed.

(** At the first wait it does no harm: thread 0 waits again. *)
Lemma woken_first_waits :
  (b ← thread_barrier_alloc 2;
   s ← run (step one_call) woken_first (start b () [1%nat; 1%nat]);
   Some (all_signalled one_call woken_first (start b () [1%nat; 1%nat]),
         (fun th => (lab <$> inside th, calls th)) <$> threads s)) =
  Some (true, [(Some L_wait, 0); (Some L_wait_all, 0)]).
Proof. vm_compute. reflexivity. Qed.

End BarrierProps.
