(* ===== verification/StampThread.v ===== *)
(** * The thread pool of STAMP ([src/sws/benchmarks/stamp/lib/thread.c])

    The pool as a client of the barrier: thread 0 creates the others, hands them one job
    after the other and shuts them down; a job is a function with its argument.  The function
    is not known, so running it is a beginning and an end in a log, and anything may happen
    in between.

    Every job is run once by every thread, a job begins only after the previous one has ended
    everywhere, and however the threads interleave they all end, within a number of steps
    that is known in advance; all this as long as the second wait of the barrier returns only
    when it is signalled, as the barrier itself needs. *)

From S2P Require Import Prelude StampBarrier StampBarrierProps.

Module Pool.
Import Barrier BarrierProps.

(** ** The code *)

(** [funcPtr] with [argPtr]. *)
Definition job := Z.

Inductive event := Begin (t : nat) (j : job) | End_ (t : nat) (j : job).

(** The global variables, with what [pthread_create] and [pthread_join] know and the log. *)
Record globals := Globals {
  global_job : option job; global_doShutdown : bool; created : nat; exited : list nat; log : list event }.

(** Where a thread is outside the barrier, by the next thing it does. *)
Inductive place :=
| P_create (i : nat)  (* thread_startup: THREAD_CREATE (global_threads[i]) *)
| P_main              (* the caller: thread_start with the next job, or thread_shutdown *)
| P_join (i : nat)    (* thread_shutdown: THREAD_JOIN (global_threads[i]) *)
| P_done
| T_unborn
| T_top               (* threadWait: wait for start parallel *)
| T_check             (* if (global_doShutdown) *)
| T_run (j : job)     (* inside global_funcPtr(global_argPtr) *)
| T_end               (* wait for end parallel *)
| T_loop              (* if (threadId == 0) *)
| T_exited.

(** [todo]: the jobs the caller has still to start; empty in secondary threads. *)
Record local := Local { at_ : place; todo : list job }.

Definition set_job (j : job) (g : globals) : globals :=
  Globals (Some j) (global_doShutdown g) (created g) (exited g) (log g).
Definition set_shutdown (g : globals) : globals := Globals (global_job g) true (created g) (exited g) (log g).
Definition set_created (n : nat) (g : globals) : globals :=
  Globals (global_job g) (global_doShutdown g) n (exited g) (log g).
Definition exit_thread (t : nat) (g : globals) : globals :=
  Globals (global_job g) (global_doShutdown g) (created g) (t :: exited g) (log g).
Definition record (e : event) (g : globals) : globals :=
  Globals (global_job g) (global_doShutdown g) (created g) (exited g) (log g ++ [e]).

(** One step of [threadWait]; the boolean says that it calls the barrier. *)
Definition threadWait (t : nat) (c : local) (g : globals) : option (local * globals * bool) :=
  let go p := Local p (todo c) in
  match at_ c with
  | T_top => Some (go T_check, g, true)
  | T_check =>
    if global_doShutdown g
    then Some (go (if (t =? 0)%nat then P_main else T_exited), if (t =? 0)%nat then g else exit_thread t g, false)
    else j ← global_job g; Some (go (T_run j), record (Begin t j) g, false)
  | T_run j => Some (go T_end, record (End_ t j) g, false)
  | T_end => Some (go T_loop, g, true)
  | T_loop => Some (go (if (t =? 0)%nat then P_main else T_top), g, false)
  | _ => None
  end.

(** One step of the creation loop of [thread_startup]. *)
Definition thread_startup (numThread i : nat) (c : local) (g : globals) : option (local * globals * bool) :=
  if (i <? numThread)%nat then Some (Local (P_create (S i)) (todo c), set_created (S i) g, false)
  else Some (Local P_main (todo c), g, false).

Definition thread_start (j : job) (rest : list job) (g : globals) : option (local * globals * bool) :=
  Some (Local T_top rest, set_job j g, false).

(** [thread_shutdown] up to the barrier, and the loop that joins the threads. *)
Definition thread_shutdown (c : local) (g : globals) : option (local * globals * bool) :=
  Some (Local (P_join 1) (todo c), set_shutdown g, true).

Definition join_threads (numThread i : nat) (c : local) (g : globals) : option (local * globals * bool) :=
  if (i <? numThread)%nat
  then if bool_decide (i ∈ exited g) then Some (Local (P_join (S i)) (todo c), g, false) else None
  else Some (Local P_done (todo c), g, false).

Definition pool_step (numThread t : nat) (c : local) (g : globals) : option (local * globals * bool) :=
  match at_ c with
  | P_create i => thread_startup numThread i c g
  | P_main => match todo c with j :: rest => thread_start j rest g | [] => thread_shutdown c g end
  | P_join i => join_threads numThread i c g
  | T_unborn => if (t <? created g)%nat then Some (Local T_top (todo c), g, false) else None
  | P_done | T_exited => None
  | _ => threadWait t c g
  end.

(** A program that calls [thread_startup], [thread_start] for each job and [thread_shutdown]. *)
Definition pool_start (b : barrier_t) (jobs : list job) : state local globals :=
  start b (Globals None false 1 [] [])
    (Local (P_create 1) jobs :: replicate (Z.to_nat (numThread b) - 1) (Local T_unborn [])).

(** ** What the pool promises *)

Definition is_begin (t : nat) (e : event) : bool := match e with Begin u _ => (u =? t)%nat | End_ _ _ => false end.
Definition is_end (t : nat) (e : event) : bool := match e with End_ u _ => (u =? t)%nat | Begin _ _ => false end.
Definition begins (t : nat) (l : list event) : nat := length (filter (fun e => is_begin t e) l).
Definition ends (t : nat) (l : list event) : nat := length (filter (fun e => is_end t e) l).

(** What has happened before an event: a thread begins its next job only when every thread has
    ended all the jobs before it. *)
Definition event_ok (n : nat) (jobs : list job) (l : list event) (e : event) : Prop :=
  match e with
  | Begin t j => (t < n)%nat /\ jobs !! begins t l = Some j /\ begins t l = ends t l /\
      forall u, (u < n)%nat -> (begins t l <= ends u l)%nat
  | End_ t j => (t < n)%nat /\ jobs !! ends t l = Some j /\ begins t l = S (ends t l)
  end.

Definition log_ok (n : nat) (jobs : list job) (l : list event) : Prop :=
  forall l1 e l2, l = l1 ++ e :: l2 -> event_ok n jobs l1 e.

Lemma log_ok_nil n jobs : log_ok n jobs [].
Proof. intros l1 e l2 H. by destruct l1. Qed.

Lemma log_ok_snoc n jobs l e : log_ok n jobs l -> event_ok n jobs l e -> log_ok n jobs (l ++ [e]).
Proof.
  intros Hl He l1 e' l2 Heq. destruct l2 as [|x l2 _] using rev_ind.
  - apply app_inj_tail in Heq as [<- <-]. done.
  - rewrite app_comm_cons, app_assoc in Heq. apply app_inj_tail in Heq as [-> _]. by eapply Hl.
Qed.

Lemma begins_snoc t l e : begins t (l ++ [e]) = (begins t l + if is_begin t e then 1 else 0)%nat.
Proof. unfold begins. rewrite filter_app, length_app. f_equal. rewrite filter_cons. by destruct (is_begin t e). Qed.

Lemma ends_snoc t l e : ends t (l ++ [e]) = (ends t l + if is_end t e then 1 else 0)%nat.
Proof. unfold ends. rewrite filter_app, length_app. f_equal. rewrite filter_cons. by destruct (is_end t e). Qed.

(** The steps of [n] threads for [j] jobs, at most: a call of the barrier takes [15 log n + 5]
    operations. *)
Definition step_bound (n : Z) (j : nat) : Z :=
  (15 * Z.log2 n + 6) * ((n - 1) * (5 * Z.of_nat j + 3) + 6 * Z.of_nat j + 2 * n + 1).

(** ** The invariant *)

Section pool.
Context (L : Z) (HL : 0 <= L) (jobs : list job).
Notation n := (Z.to_nat (2 ^ L)).
Notation J := (length jobs).
Notation step := (signalled_step (pool_step n)).
Notation thread := (thread local).

(** A thread that has done [k] jobs: the calls of the barrier it has entered, by its place, and
    the jobs it has begun and ended. *)
Definition place_at (k t : nat) (th : thread) (begun ended : nat) : Prop :=
  let e := entered th in
  let out := inside th = None in
  match at_ (client th) with
  | P_create i => t = 0%nat /\ out /\ e = 0 /\ k = 0%nat /\ begun = k /\ ended = k /\ (1 <= i <= n)%nat
  | P_main => t = 0%nat /\ out /\ e = 2 * Z.of_nat k /\ begun = k /\ ended = k
  | P_join i => t = 0%nat /\ e = 2 * Z.of_nat J + 1 /\ k = J /\ begun = k /\ ended = k /\ (1 <= i <= n)%nat
  | P_done => t = 0%nat /\ out /\ e = 2 * Z.of_nat J + 1 /\ k = J /\ begun = k /\ ended = k
  | T_unborn => t <> 0%nat /\ out /\ e = 0 /\ k = 0%nat /\ begun = k /\ ended = k
  | T_top => out /\ e = 2 * Z.of_nat k /\ begun = k /\ ended = k
  | T_check => e = 2 * Z.of_nat k + 1 /\ begun = k /\ ended = k
  | T_run j => out /\ e = 2 * Z.of_nat k + 1 /\ begun = S k /\ ended = k /\ jobs !! k = Some j
  | T_end => out /\ e = 2 * Z.of_nat k + 1 /\ begun = S k /\ ended = S k /\ (k < J)%nat
  | T_loop => e = 2 * Z.of_nat k + 2 /\ begun = S k /\ ended = S k /\ (k < J)%nat
  | T_exited => t <> 0%nat /\ out /\ e = 2 * Z.of_nat J + 1 /\ k = J /\ begun = k /\ ended = k
  end.

(** The global variables, by the place of thread 0. *)
Definition main_at (k : nat) (c : local) (g : globals) : Prop :=
  match at_ c with
  | P_create i => global_doShutdown g = false /\ created g = i /\ todo c = jobs
  | P_main => global_doShutdown g = false /\ created g = n /\ todo c = drop k jobs
  | P_join _ | P_done => global_doShutdown g = true /\ created g = n
  | _ => global_doShutdown g = false /\ created g = n /\ todo c = drop (S k) jobs /\
         global_job g = jobs !! k /\ (k < J)%nat
  end.

Definition thread_inv (t : nat) (th : thread) (g : globals) : Prop :=
  exists k, (k <= J)%nat /\ place_at k t th (begins t (log g)) (ends t (log g)) /\
  (t = 0%nat -> main_at k (client th) g) /\ (at_ (client th) = T_exited -> t ∈ exited g).

Record pool_inv (s : state local globals) : Prop := {
  pi_inv : inv L s;
  pi_thread : forall t th, threads s !! t = Some th -> thread_inv t th (shared s);
  pi_log : log_ok n jobs (log (shared s)) }.

(** A thread that has entered [2 k + 1] calls has ended [k] jobs. *)
Lemma entered_ends t th g k : thread_inv t th g -> 2 * Z.of_nat k + 1 <= entered th -> (k <= ends t (log g))%nat.
Proof.
  intros (k' & Hk & Hp & _) He. unfold place_at in Hp. destruct (at_ (client th)); destruct_and?; simplify_eq; lia.
Qed.

(** A thread that has left the first barrier of its round sees what thread 0 has set. *)
Lemma check_globals s t th : pool_inv s -> threads s !! t = Some th -> at_ (client th) = T_check -> inside th = None ->
  (global_doShutdown (shared s) = true /\ begins t (log (shared s)) = J /\ t <> 0%nat) \/
  (global_doShutdown (shared s) = false /\ global_job (shared s) = jobs !! begins t (log (shared s)) /\
   (begins t (log (shared s)) < J)%nat).
Proof.
  intros Hs Ht Hc Hin. destruct (pi_thread s Hs t th Ht) as (k & Hk & Hp & Hm & _).
  destruct (lookup_lt_is_Some_2 (threads s) 0) as [th0 H0]; [apply lookup_lt_Some in Ht; lia|].
  destruct (pi_thread s Hs _ _ H0) as (k0 & Hk0 & Hp0 & Hm0 & _). specialize (Hm0 eq_refl).
  pose proof (calls_le_entered L HL s _ _ _ _ (pi_inv s Hs) Ht H0) as H1.
  pose proof (calls_le_entered L HL s _ _ _ _ (pi_inv s Hs) H0 Ht) as H2.
  unfold place_at in Hp. rewrite Hc in Hp. destruct Hp as (He & Hb & _). rewrite Hb.
  assert (Ht1 : calls th = 2 * Z.of_nat k + 1) by (unfold entered in He; rewrite Hin in He; lia).
  assert (Hc0 : entered th0 - 1 <= calls th0) by (unfold entered; destruct (inside th0); lia).
  assert (Hcc : inside th0 = None -> calls th0 = entered th0) by (unfold entered; intros ->; lia).
  assert (He1 : entered th = calls th) by (unfold entered; rewrite Hin; lia).
  unfold place_at, main_at in Hp0, Hm0. destruct (at_ (client th0)) eqn:Hat; destruct_and?.
  all: try (specialize (Hcc ltac:(done))); try lia.
  all: try (right; assert (k0 = k) as -> by lia; by split_and!).
  all: left; split_and!; [done|lia|]; intros ->; congruence.
Qed.

(** The others, when thread [t] steps in its client. *)
Lemma others_ok t g g' : (forall u, u <> t -> begins u (log g') = begins u (log g)) ->
  (forall u, u <> t -> ends u (log g') = ends u (log g)) -> exited g ⊆ exited g' ->
  (t <> 0%nat -> forall k c, main_at k c g -> main_at k c g') ->
  forall u th, u <> t -> thread_inv u th g -> thread_inv u th g'.
Proof.
  intros Hb He Hx Hm u th Hu (k & Hk & Hp & Hmain & Hex). exists k. rewrite Hb, He by done. split_and!; try done.
  - intros ->. apply Hm; auto.
  - intros Hat. by apply Hx, Hex.
Qed.

Lemma others_record t e g : (forall u, u <> t -> is_begin u e = false /\ is_end u e = false) ->
  forall u th, u <> t -> thread_inv u th g -> thread_inv u th (record e g).
Proof.
  intros He. apply others_ok; [| |done|by intros].
  - intros u Hu. unfold record. simpl. rewrite begins_snoc. destruct (He u Hu) as [-> _]. lia.
  - intros u Hu. unfold record. simpl. rewrite ends_snoc. destruct (He u Hu) as [_ ->]. lia.
Qed.

Ltac new_place k :=
  exists k; unfold place_at, main_at in *; cbn [Z.b2z] in *;
  repeat match goal with H : false = false -> _ |- _ => specialize (H eq_refl) end;
  match goal with H : client ?x = _ |- context [client ?x] => rewrite H end; simpl; rewrite ?begins_snoc, ?ends_snoc; simpl; rewrite ?Nat.eqb_refl;
  split_and!; try done; try lia; try congruence; try (intros; split_and!; (done || lia)).

(** The client's own step: the thread it leaves and the globals. *)
Lemma client_step s t th c g (b : bool) : pool_inv s -> threads s !! t = Some th -> inside th = None ->
  pool_step n t (client th) (shared s) = Some (c, g, b) ->
  let th' := if b then call (barrierPtr s) c (calls th) else Thread None (calls th) c in
  thread_inv t th' g /\ log_ok n jobs (log g) /\ (forall u thu, u <> t -> thread_inv u thu (shared s) -> thread_inv u thu g).
Proof.
  intros Hs Ht Hin Hstep th'.
  assert (Hent : entered th = calls th) by (unfold entered; rewrite Hin; lia).
  assert (Hin' : b = false -> inside th' = None) by (unfold th'; by intros ->).
  assert (Hent' : entered th' = calls th + Z.b2z b).
  { unfold th', call, enter, entered. destruct b; simpl; [|lia]. destruct (_ <? 2); simpl; lia. }
  assert (Hc' : client th' = c).
  { unfold th', call. destruct b; [|done]. by destruct (enter _). }
  assert (Hlt : (t < n)%nat) by (rewrite <- (inv_threads s (pi_inv s Hs)); by eapply lookup_lt_Some).
  destruct (pi_thread s Hs t th Ht) as (k & Hk & Hp & Hm & Hx). pose proof (pi_log s Hs) as Hlog.
  clearbody th'. unfold pool_step, threadWait in Hstep. unfold place_at in Hp. unfold main_at in Hm.
  destruct (at_ (client th)) eqn:Hat; try done; destruct_and?.
  - (* P_create *)
    subst t k. specialize (Hm eq_refl). destruct_and?. unfold thread_startup in Hstep.
    destruct (Nat.ltb_spec i n); injection Hstep as <- <- <-; (split_and!; [new_place 0%nat|done|by apply others_ok]).
  - (* P_main *)
    subst t. specialize (Hm eq_refl). destruct Hm as (? & ? & Htodo).
    destruct (todo (client th)) as [|j rest] eqn:Hj; injection Hstep as <- <- <-.
    + assert (k = J) as -> by (apply (f_equal length) in Htodo; rewrite length_drop in Htodo; simpl in Htodo; lia).
      split_and!; [new_place (length jobs)|done|by apply others_ok].
    + assert (Hjk : jobs !! k = Some j).
      { rewrite <- (Nat.add_0_r k), <- lookup_drop, <- Htodo. done. }
      pose proof (lookup_lt_Some _ _ _ Hjk).
      assert (rest = drop (S k) jobs) by (rewrite (drop_S _ _ _ Hjk) in Htodo; by injection Htodo).
      split_and!; [new_place k|done|by apply others_ok].
  - (* P_join *)
    subst t. specialize (Hm eq_refl). destruct_and?. unfold join_threads in Hstep.
    destruct (Nat.ltb_spec i n); [case_bool_decide; [|done]|]; injection Hstep as <- <- <-;
      (split_and!; [new_place (length jobs)|done|by apply others_ok]).
  - (* T_unborn *)
    destruct (Nat.ltb_spec t (created (shared s))); [|done]. injection Hstep as <- <- <-.
    split_and!; [new_place 0%nat|done|by apply others_ok].
  - (* T_top *)
    injection Hstep as <- <- <-. split_and!; [new_place k|done|by apply others_ok].
  - (* T_check *)
    destruct (check_globals s t th Hs Ht Hat Hin) as [(Hsh & Hbj & Ht0)|(Hsh & Hjob & Hbj)]; rewrite Hsh in Hstep.
    + destruct (Nat.eqb_spec t 0); [done|]. injection Hstep as <- <- <-.
      split_and!; [new_place (length jobs); by left|done|by apply others_ok; set_solver].
    + destruct (global_job (shared s)) as [j|] eqn:Hgj; [|done]. simpl in Hstep. injection Hstep as <- <- <-.
      split_and!.
      * new_place k. by rewrite Hgj.
      * apply log_ok_snoc; [done|]. split_and!; [done|done|congruence|].
        intros u Hu. rewrite <- (inv_threads s (pi_inv s Hs)) in Hu. apply lookup_lt_is_Some_2 in Hu as [thu Hu].
        pose proof (calls_le_entered L HL s _ _ _ _ (pi_inv s Hs) Ht Hu).
        apply (entered_ends u thu); [by apply (pi_thread s Hs)|]. lia.
      * apply others_record; intros; simpl; by rewrite (proj2 (Nat.eqb_neq _ _)) by done.
  - (* T_run *)
    injection Hstep as <- <- <-.
    split_and!; [new_place k; by eapply lookup_lt_Some| |apply others_record; intros; simpl; by rewrite (proj2 (Nat.eqb_neq _ _)) by done].
    apply log_ok_snoc; [done|]. split_and!; [done|congruence|congruence].
  - (* T_end *)
    injection Hstep as <- <- <-. split_and!; [new_place k|done|by apply others_ok].
  - (* T_loop *)
    destruct (Nat.eqb_spec t 0); injection Hstep as <- <- <-; (split_and!; [new_place (S k)|done|by apply others_ok]).
    intros Hz. by destruct (Hm Hz) as (? & ? & ? & _).
Qed.

Lemma pool_inv_step a s s' : pool_inv s -> step a s = Some s' -> pool_inv s'.
Proof.
  intros Hs Hstep. pose proof (barrier_inv_step L HL _ a s s' (pi_inv s Hs) Hstep) as Hinv.
  destruct a as [t|t].
  2: { destruct (total_spurious L (pool_step n) s t s' (pi_inv s Hs) Hstep) as (_ & Heq & Hg).
       split; [done| |rewrite Hg; apply (pi_log s Hs)]. rewrite Heq, Hg. apply (pi_thread s Hs). }
  change (step_thread (pool_step n) t s = Some s') in Hstep.
  destruct (threads s !! t) as [th|] eqn:Ht; [|by unfold step_thread in Hstep; rewrite Ht in Hstep].
  destruct (inside th) as [f|] eqn:Hin.
  - destruct (total_inside L HL _ s t th f s' (pi_inv s Hs) Ht Hin Hstep) as (_ & Hg & _ & Hother & th' & Ht' & Hc & Hcalls).
    split; [done| |rewrite Hg; apply (pi_log s Hs)]. intros u thu Hu. rewrite Hg.
    destruct (decide (u = t)) as [->|Hne]; [|rewrite Hother in Hu by done; by apply (pi_thread s Hs)].
    assert (thu = th') as -> by congruence. destruct (pi_thread s Hs t th Ht) as (k & Hk & Hp & Hm & Hx).
    exists k. rewrite Hc. split_and!; try done.
    assert (He : entered th' = entered th).
    { unfold entered. rewrite Hin. destruct Hcalls as [[Hn ->]|[-> ->]]; [destruct (inside th'); [lia|done]|lia]. }
    unfold place_at in *. rewrite Hc, He. rewrite Hin in Hp. destruct (at_ (client th)); destruct_and?; done.
  - destruct (total_outside L HL _ s t th s' (pi_inv s Hs) Ht Hin Hstep) as (c & g & b & Hc & Hg & Hth & _ & _).
    destruct (client_step s t th c g b Hs Ht Hin Hc) as (Hnew & Hlog & Hothers).
    split; [done| |by rewrite Hg]. rewrite Hg, Hth.
    intros u thu [[<- [<- _]]|[Hne Hu]]%list_lookup_insert_Some; [done|].
    apply Hothers; [done|]. by apply (pi_thread s Hs).
Qed.

Lemma pool_inv_start b : numThread b = 2 ^ L -> length (entries b) = n -> pool_inv (pool_start b jobs).
Proof.
  intros Hn He. pose proof (pow2_pos L HL). split.
  - apply inv_start; [done|done|]. simpl. rewrite length_replicate, Hn. lia.
  - intros t th Ht. simpl in Ht. apply lookup_cons_Some in Ht as [[-> <-]|[Hpos Ht]].
    + exists 0%nat. unfold place_at, main_at, entered. simpl. split_and!; try done; lia.
    + apply list_lookup_fmap_Some in Ht as (c & -> & Hc). apply lookup_replicate_1 in Hc as [-> _].
      exists 0%nat. unfold place_at, entered. simpl. split_and!; try done; lia.
  - apply log_ok_nil.
Qed.

Lemma pool_reach b s : numThread b = 2 ^ L -> length (entries b) = n ->
  reach step (pool_start b jobs) s -> pool_inv s.
Proof. intros. eapply reach_invariant; [by apply pool_inv_start|intros; by eapply pool_inv_step|done]. Qed.

(** ** Every maximal run is complete *)

Definition finished (s : state local globals) : Prop :=
  forall t th, threads s !! t = Some th ->
    at_ (client th) = (if decide (t = 0%nat) then P_done else T_exited) /\ inside th = None /\
    ends t (log (shared s)) = J.

(** A thread outside the barrier that cannot step waits for its creation, waits for another
    thread's exit, or has ended. *)
Lemma outside_stuck s t th : pool_inv s -> threads s !! t = Some th -> inside th = None ->
  step_thread (pool_step n) t s = None ->
  match at_ (client th) with
  | P_join i => (i < n)%nat /\ i ∉ exited (shared s)
  | T_unborn => (created (shared s) <= t)%nat
  | P_done | T_exited => True
  | _ => False
  end.
Proof.
  intros Hs Ht Hin Hnone. unfold step_thread in Hnone. rewrite Ht in Hnone. simpl in Hnone. rewrite Hin in Hnone.
  destruct (pool_step n t (client th) (shared s)) as [[[c g] b]|] eqn:Hp; [done|].
  destruct (at_ (client th)) eqn:Hat; unfold pool_step, threadWait, thread_startup, join_threads in Hp; rewrite Hat in Hp; try done.
  - by destruct (_ <? _)%nat.
  - by destruct (todo (client th)).
  - destruct (Nat.ltb_spec i n); [|done]. by case_bool_decide.
  - destruct (Nat.ltb_spec t (created (shared s))); [done|lia].
  - destruct (check_globals s t th Hs Ht Hat Hin) as [(Hsh & _)|(Hsh & Hj & Hlt)]; rewrite Hsh in Hp; [done|].
    apply lookup_lt_is_Some_2 in Hlt as [j Hj']. rewrite Hj, Hj' in Hp. done.
Qed.

Lemma pool_stuck_finished s : pool_inv s -> (forall t, step_thread (pool_step n) t s = None) -> finished s.
Proof.
  intros Hs Hstuck.
  destruct (lookup_lt_is_Some_2 (threads s) 0) as [th0 H0].
  { rewrite (inv_threads s (pi_inv s Hs)). pose proof (pow2_pos L HL). lia. }
  assert (Hcreated : created (shared s) = n).
  { destruct (pi_thread s Hs _ _ H0) as (k0 & _ & Hp0 & Hm0 & _). specialize (Hm0 eq_refl).
    unfold main_at in Hm0. destruct (at_ (client th0)) eqn:Hat; destruct_and?; try done.
    unfold place_at in Hp0. rewrite Hat in Hp0. destruct Hp0 as (_ & Hout & _).
    pose proof (outside_stuck s _ _ Hs H0 Hout (Hstuck 0%nat)) as Ho. by rewrite Hat in Ho. }
  assert (Hout : forall u thu, threads s !! u = Some thu -> inside thu = None ->
    calls thu = 2 * Z.of_nat J + 1 /\ ends u (log (shared s)) = J /\
    match at_ (client thu) with P_join _ | P_done => u = 0%nat | T_exited => u <> 0%nat | _ => False end).
  { intros u thu Hu Hin. pose proof (outside_stuck s u thu Hs Hu Hin (Hstuck u)) as Ho.
    destruct (pi_thread s Hs u thu Hu) as (k & _ & Hp & _). unfold place_at in Hp.
    assert (entered thu = calls thu) by (unfold entered; rewrite Hin; lia).
    apply lookup_lt_Some in Hu. rewrite (inv_threads s (pi_inv s Hs)) in Hu.
    destruct (at_ (client thu)); try done; destruct_and?; simplify_eq; split_and!; (done || lia). }
  assert (Hall : forall t th, threads s !! t = Some th -> inside th = None).
  { intros t th Ht. destruct (inside th) as [f|] eqn:Hin; [exfalso|done].
    destruct (stuck_late L HL _ s (pi_inv s Hs) Hstuck t th f Ht Hin) as (u & thu & Hu & Hinu & Hle).
    destruct (Hout u thu Hu Hinu) as [Hc _].
    destruct (pi_thread s Hs t th Ht) as (k & Hk & Hp & _). unfold place_at, entered in Hp. rewrite Hin in Hp.
    destruct (at_ (client th)); destruct_and?; (done || lia). }
  intros t th Ht. specialize (Hall t th Ht) as Hin. destruct (Hout t th Ht Hin) as (_ & He & Hp). split_and!; [|done|done].
  destruct (at_ (client th)) eqn:Hat; try done; subst; try by rewrite decide_True.
  - exfalso. pose proof (outside_stuck s _ _ Hs Ht Hin (Hstuck 0%nat)) as Ho. rewrite Hat in Ho. destruct Ho as [Hi Hn].
    apply Hn. rewrite <- (inv_threads s (pi_inv s Hs)) in Hi. apply lookup_lt_is_Some_2 in Hi as [thi Hti].
    destruct (pi_thread s Hs _ _ Hti) as (k & _ & _ & _ & Hx). apply Hx.
    destruct (Hout i thi Hti (Hall _ _ Hti)) as (_ & _ & Hpi).
    destruct (pi_thread s Hs _ _ Ht) as (k0 & _ & Hp0 & _). unfold place_at in Hp0. rewrite Hat in Hp0.
    destruct (at_ (client thi)); try done; lia.
  - by rewrite decide_False.
Qed.

(** ** Every run ends *)

(** The steps a thread has still to do outside the barrier. *)
Definition remaining (t : nat) (th : thread) : Z :=
  let left := Z.of_nat J - entered th / 2 in
  if (t =? 0)%nat then
    match at_ (client th) with
    | P_create i => 6 * Z.of_nat J + 2 * Z.of_nat n + 2 - Z.of_nat i
    | P_main => 6 * left + Z.of_nat n + 1
    | T_top => 6 * left + Z.of_nat n
    | T_check => 6 * left + Z.of_nat n - 1
    | T_run _ => 6 * left + Z.of_nat n - 2
    | T_end => 6 * left + Z.of_nat n - 3
    | T_loop => 6 * left + Z.of_nat n + 2
    | P_join i => Z.of_nat n + 1 - Z.of_nat i
    | _ => 0
    end
  else
    match at_ (client th) with
    | T_unborn => 5 * Z.of_nat J + 3
    | T_top => 5 * left + 2
    | T_check => 5 * left + 1
    | T_run _ => 5 * left
    | T_end => 5 * left - 1
    | T_loop => 5 * left + 3
    | _ => 0
    end.

Definition remaining_at (s : state local globals) (t : nat) : Z :=
  match threads s !! t with Some th => remaining t th | None => 0 end.

(** What is left to do in all. *)
Definition potential (s : state local globals) : Z :=
  total L s + (call_cost L + 1) * zsum (remaining_at s) (seq 0 (length (threads s))).

Lemma remaining_nonneg t th g : thread_inv t th g -> (0 < n)%nat -> 0 <= remaining t th.
Proof.
  intros (k & Hk & Hp & Hm & _) Hn. unfold place_at in Hp. unfold remaining.
  destruct (Nat.eqb_spec t 0) as [->|]; destruct (at_ (client th)); destruct_and?; simplify_eq; try lia;
    try (pose proof (lookup_lt_Some _ _ _ ltac:(eassumption))); mlia.
Qed.

Lemma potential_nonneg s : pool_inv s -> 0 <= potential s.
Proof.
  intros Hs. unfold potential. pose proof (total_nonneg L HL s (pi_inv s Hs)). pose proof (pow2_pos L HL).
  assert (0 <= zsum (remaining_at s) (seq 0 (length (threads s)))).
  { apply zsum_nonneg. intros t _. unfold remaining_at. destruct (threads s !! t) as [th|] eqn:Ht; [|lia].
    apply (remaining_nonneg t th (shared s)); [by apply (pi_thread s Hs)|lia]. }
  unfold call_cost. nia.
Qed.

(** A step of the client leaves less to do. *)
Lemma remaining_client s t th c g (b : bool) : pool_inv s -> threads s !! t = Some th -> inside th = None ->
  pool_step n t (client th) (shared s) = Some (c, g, b) ->
  remaining t (if b then call (barrierPtr s) c (calls th) else Thread None (calls th) c) < remaining t th.
Proof.
  intros Hs Ht Hin Hstep. set (th' := if b then _ else _).
  assert (Hent' : entered th' = entered th + Z.b2z b).
  { unfold th', call, enter, entered. rewrite Hin. destruct b; simpl; [|lia]. destruct (_ <? 2); simpl; lia. }
  assert (Hc' : client th' = c).
  { unfold th', call. destruct b; [|done]. by destruct (enter _). }
  clearbody th'. assert (Hlt : (t < n)%nat) by (rewrite <- (inv_threads s (pi_inv s Hs)); by eapply lookup_lt_Some).
  destruct (pi_thread s Hs t th Ht) as (k & Hk & Hp & Hm & _).
  unfold remaining. rewrite Hent', Hc'.
  unfold pool_step, threadWait, thread_startup, thread_start, thread_shutdown, join_threads in Hstep. unfold place_at in Hp.
  destruct (at_ (client th)) eqn:Hat; destruct_and?; try done.
  all: repeat match type of Hstep with
    | context [Nat.ltb ?a ?b] => destruct (Nat.ltb_spec a b)
    | context [Nat.eqb ?a ?b] => destruct (Nat.eqb_spec a b)
    | context [bool_decide _] => case_bool_decide
    | context [match todo ?c with _ => _ end] => destruct (todo c) eqn:?
    | context [global_doShutdown ?g] => destruct (global_doShutdown g) eqn:?
    | context [global_job ?g] => destruct (global_job g) eqn:?; simpl in Hstep
    end; try done; injection Hstep as <- <- <-; cbn [at_ Z.b2z]; destruct (Nat.eqb_spec t 0); try done; try lia.
  all: unfold main_at in Hm; rewrite Hat in Hm; try (exfalso; destruct (Hm ltac:(assumption)) as [Hsh _]; congruence).
  all: clear Hs Ht Hin Hat Hent' Hc' Hm; mlia.
Qed.

(** A step uses up the potential. *)
Lemma potential_step s t s' : pool_inv s -> step (Step t) s = Some s' -> potential s' < potential s.
Proof.
  intros Hs Hstep. change (step_thread (pool_step n) t s = Some s') in Hstep.
  destruct (threads s !! t) as [th|] eqn:Ht; [|by unfold step_thread in Hstep; rewrite Ht in Hstep].
  pose proof (lookup_lt_Some _ _ _ Ht) as Hlt. unfold potential.
  destruct (inside th) as [f|] eqn:Hin.
  - destruct (total_inside L HL _ s t th f s' (pi_inv s Hs) Ht Hin Hstep) as (Htot & _ & Hlen & Hother & th' & Ht' & Hc & Hcalls).
    enough (zsum (remaining_at s') (seq 0 (length (threads s'))) = zsum (remaining_at s) (seq 0 (length (threads s)))) by nia.
    rewrite Hlen. apply zsum_ext. intros u _. unfold remaining_at. destruct (decide (u = t)) as [->|Hne]; [|by rewrite Hother].
    rewrite Ht', Ht. unfold remaining. rewrite Hc.
    assert (entered th' = entered th) as ->; [|done].
    unfold entered. rewrite Hin. destruct Hcalls as [[Hn ->]|[-> ->]]; [destruct (inside th'); [lia|done]|lia].
  - destruct (total_outside L HL _ s t th s' (pi_inv s Hs) Ht Hin Hstep) as (c & g & b & Hc & _ & Hth & _ & Htot).
    pose proof (remaining_client s t th c g b Hs Ht Hin Hc) as Hrem.
    enough (zsum (remaining_at s') (seq 0 (length (threads s'))) < zsum (remaining_at s) (seq 0 (length (threads s)))) as Hz.
    { assert (0 <= call_cost L) by (unfold call_cost; lia). destruct b; nia. }
    rewrite Hth, length_insert. apply (zsum_lt _ _ _ t); [|apply elem_of_seq; lia|].
    + intros u _. unfold remaining_at. rewrite Hth. destruct (decide (u = t)) as [->|]; [|by rewrite list_lookup_insert_ne].
      rewrite list_lookup_insert_eq, Ht by done. lia.
    + unfold remaining_at. rewrite Hth, list_lookup_insert_eq, Ht by done. done.
Qed.

Lemma potential_spurious s t s' : pool_inv s -> step (Spurious t) s = Some s' -> potential s' <= potential s + 2.
Proof.
  intros Hs Hstep. destruct (total_spurious L (pool_step n) s t s' (pi_inv s Hs) Hstep) as (Htot & Heq & _).
  unfold potential, remaining_at. rewrite Heq. lia.
Qed.

Definition is_step (a : action) : bool := match a with Step _ => true | Spurious _ => false end.
Definition steps (acts : list action) : nat := length (filter (fun a => is_step a) acts).
Definition spurious_wakeups (acts : list action) : nat := length acts - steps acts.

Lemma run_bounded acts : forall s s', pool_inv s -> run step acts s = Some s' ->
  Z.of_nat (steps acts) <= potential s + 2 * Z.of_nat (spurious_wakeups acts).
Proof.
  induction acts as [|a acts IH]; intros s s' Hs Hrun; simpl in Hrun.
  { pose proof (potential_nonneg s Hs). unfold steps. simpl. lia. }
  destruct (step a s) as [s1|] eqn:Ha; [|done]. simpl in Hrun.
  pose proof (pool_inv_step a s s1 Hs Ha) as Hs1. specialize (IH s1 s' Hs1 Hrun).
  assert (Hle : (steps acts <= length acts)%nat) by (unfold steps; apply length_filter).
  unfold spurious_wakeups, steps in *. rewrite filter_cons. destruct a as [t|t]; simpl in *.
  - pose proof (potential_step s t s1 Hs Ha). lia.
  - pose proof (potential_spurious s t s1 Hs Ha). lia.
Qed.

Lemma potential_start b : numThread b = 2 ^ L -> potential (pool_start b jobs) <= step_bound (2 ^ L) J.
Proof.
  intros Hn. pose proof (pow2_pos L HL). unfold potential, step_bound. rewrite Z.log2_pow2 by done.
  assert (total L (pool_start b jobs) = 0) as ->.
  { apply zsum_0. intros t _. unfold rank. destruct (threads (pool_start b jobs) !! t) as [th|] eqn:Ht; [|done].
    apply list_lookup_fmap_Some in Ht as (c & -> & _). done. }
  unfold call_cost. rewrite Z.add_0_l. replace (15 * L + 5 + 1) with (15 * L + 6) by lia.
  apply Z.mul_le_mono_nonneg_l; [lia|].
  unfold pool_start, start. simpl. rewrite length_fmap, length_replicate, Hn.
  rewrite (zsum_ext _ (fun _ => 5 * Z.of_nat J + 3)).
  - rewrite zsum_const, length_seq. unfold remaining_at, remaining. simpl. nia.
  - intros t Ht%elem_of_seq. unfold remaining_at. destruct t as [|t]; [lia|]. simpl.
    rewrite list_lookup_fmap, lookup_replicate_2 by lia. done.
Qed.

End pool.


(** Round robin, until nobody can step. *)
Fixpoint round_robin (fuel : nat) (n t : nat) (s : state local globals) : list action :=
  match fuel with
  | O => []
  | S fuel =>
    match step_thread (pool_step n) (t mod n) s with
    | Some s' => Step (t mod n) :: round_robin fuel n (S t) s'
    | None => round_robin fuel n (S t) s
    end
  end.


End Pool.
