(* ===== verification/StampRandom.v ===== *)
(** * The random numbers of STAMP ([src/sws/benchmarks/stamp/lib/mt19937ar.c], [random.c])

    The Mersenne Twister on an array of 624 words that each thread owns.  The code claims to
    run unchanged where [unsigned long] has 32 or 64 bits: the width is a parameter.  The
    words of an array are [StampArray.cells]: a word that was never written has no value, and
    neither has an access outside the array.

    The reference is the definition of the generator as a recurrence on an infinite sequence
    of words, with the tempering of its outputs; it knows nothing of arrays, batches and
    widths.  The functions that return [double] are left out. *)

From Equations Require Import Equations.
From S2P Require Import Prelude StampArray.

Module Random.

(** ** The code *)

Definition N : Z := 624.
Definition M : Z := 397.
Definition MATRIX_A : Z := 0x9908b0df.
Definition UPPER_MASK : Z := 0x80000000.
Definition LOWER_MASK : Z := 0x7fffffff.
Definition WORD_MASK : Z := 0xffffffff.

Section width.
Context (W : Z).

(** The arithmetic of [unsigned long]. *)
Definition ul (x : Z) : Z := x mod 2 ^ W.

(** [k] rounds of the loop, from [mti]. *)
Fixpoint init_loop (k : nat) (mt : cells) (mti : Z) : option (cells * Z) :=
  match k with
  | O => Some (mt, mti)
  | S k =>
    v ← aread mt (mti - 1);
    let x := ul (ul (1812433253 * Z.lxor v (Z.shiftr v 30)) + mti) in
    mt ← awrite mt mti (Z.land x WORD_MASK);
    init_loop k mt (mti + 1)
  end.

Definition init_genrand (mt : cells) (s : Z) : option (cells * Z) :=
  mt ← awrite mt 0 (Z.land s WORD_MASK);
  init_loop (Z.to_nat (N - 1)) mt 1.

(** [if (i>=N) { mt[0] = mt[N-1]; i=1; }]. *)
Definition wrap_index (mt : cells) (i : Z) : option (cells * Z) :=
  if N <=? i then v ← aread mt (N - 1); mt ← awrite mt 0 v; Some (mt, 1) else Some (mt, i).

Fixpoint key_loop (k : nat) (init_key : list Z) (key_length : Z) (mt : cells) (i j : Z) : option (cells * Z) :=
  match k with
  | O => Some (mt, i)
  | S k =>
    v ← aread mt i;
    p ← aread mt (i - 1);
    key ← (if 0 <=? j then init_key !! Z.to_nat j else None);
    let x := ul (ul (Z.lxor v (ul (Z.lxor p (Z.shiftr p 30) * 1664525)) + key) + j) in
    mt ← awrite mt i (Z.land x WORD_MASK);
    '(mt, i) ← wrap_index mt (i + 1);
    let j := j + 1 in
    key_loop k init_key key_length mt i (if key_length <=? j then 0 else j)
  end.

Fixpoint mix_loop (k : nat) (mt : cells) (i : Z) : option cells :=
  match k with
  | O => Some mt
  | S k =>
    v ← aread mt i;
    p ← aread mt (i - 1);
    let x := ul (Z.lxor v (ul (Z.lxor p (Z.shiftr p 30) * 1566083941)) - i) in
    mt ← awrite mt i (Z.land x WORD_MASK);
    '(mt, i) ← wrap_index mt (i + 1);
    mix_loop k mt i
  end.

Definition init_by_array (mt : cells) (init_key : list Z) (key_length : Z) : option (cells * Z) :=
  '(mt, _) ← init_genrand mt 19650218;
  '(mt, i) ← key_loop (Z.to_nat (if key_length <? N then N else key_length)) init_key key_length mt 1 0;
  mt ← mix_loop (Z.to_nat (N - 1)) mt i;
  mt ← awrite mt 0 0x80000000;
  Some (mt, N + 1).

Definition mag01 (b : Z) : Z := if b =? 0 then 0 else MATRIX_A.

(** [mt[kk] = mt[src] ^ (y >> 1) ^ mag01[y & 1]], where [y] is made of [mt[kk]] and [mt[next]]. *)
Definition twist (mt : cells) (kk next src : Z) : option cells :=
  a ← aread mt kk;
  b ← aread mt next;
  let y := Z.lor (Z.land a UPPER_MASK) (Z.land b LOWER_MASK) in
  c ← aread mt src;
  awrite mt kk (Z.lxor (Z.lxor c (Z.shiftr y 1)) (mag01 (Z.land y 1))).

(** [k] rounds of a loop over [kk], whose source word is [off] away. *)
Fixpoint twist_loop (k : nat) (off : Z) (mt : cells) (kk : Z) : option (cells * Z) :=
  match k with
  | O => Some (mt, kk)
  | S k => mt ← twist mt kk (kk + 1) (kk + off); twist_loop k off mt (kk + 1)
  end.

Definition generate (mt : cells) : option cells :=
  '(mt, kk) ← twist_loop (Z.to_nat (N - M)) M mt 0;
  '(mt, kk) ← twist_loop (Z.to_nat (N - 1 - kk)) (M - N) mt kk;
  twist mt (N - 1) 0 (M - 1).

Definition tempering (y : Z) : Z :=
  let y := Z.lxor y (Z.shiftr y 11) in
  let y := Z.lxor y (Z.land (ul (Z.shiftl y 7)) 0x9d2c5680) in
  let y := Z.lxor y (Z.land (ul (Z.shiftl y 15)) 0xefc60000) in
  Z.lxor y (Z.shiftr y 18).

Definition genrand_int32 (mt : cells) (mti : Z) : option (cells * Z * Z) :=
  '(mt, mti) ← (if N <=? mti then
      mt ← (if mti =? N + 1 then '(mt, _) ← init_genrand mt 5489; Some mt else Some mt);
      mt ← generate mt;
      Some (mt, 0)
    else Some (mt, mti));
  y ← aread mt mti;
  Some (mt, mti + 1, tempering y).

Definition genrand_int31 (mt : cells) (mti : Z) : option (cells * Z * Z) :=
  '(mt, mti, y) ← genrand_int32 mt mti; Some (mt, mti, Z.shiftr y 1).

(** [random_t]. *)
Record random_t := mkRandom { rmt : cells; rmti : Z }.

Definition RANDOM_DEFAULT_SEED : Z := 0.

(** [ok]: whether memory is left; [Some None] is the null pointer. *)
Definition random_alloc (ok : bool) : option (option random_t) :=
  if ok then
    '(mt, mti) ← init_genrand (replicate (Z.to_nat N) None) RANDOM_DEFAULT_SEED;
    Some (Some (mkRandom mt mti))
  else Some None.

Definition Prandom_alloc := random_alloc.

Definition random_seed (r : random_t) (seed : Z) : option random_t :=
  '(mt, mti) ← init_genrand (rmt r) seed; Some (mkRandom mt mti).

Definition random_generate (r : random_t) : option (random_t * Z) :=
  '(mt, mti, y) ← genrand_int32 (rmt r) (rmti r); Some (mkRandom mt mti, y).

(** The next [n] numbers. *)
Fixpoint random_numbers (n : nat) (r : random_t) : option (random_t * list Z) :=
  match n with
  | O => Some (r, [])
  | S n => '(r, y) ← random_generate r; '(r, ys) ← random_numbers n r; Some (r, y :: ys)
  end.

End width.

(** ** The reference *)

Fixpoint seed_word (s : Z) (k : nat) : Z :=
  match k with
  | O => s mod 2 ^ 32
  | S k' => let v := seed_word s k' in (1812433253 * Z.lxor v (Z.shiftr v 30) + Z.of_nat k) mod 2 ^ 32
  end.

(** The linear map of the recurrence, on a word made of the highest bit of [a] and the others of
    [b]. *)
Definition recur (a b c : Z) : Z :=
  let y := 2 ^ 31 * (a / 2 ^ 31) + b mod 2 ^ 31 in
  Z.lxor c (Z.lxor (y / 2) (if Z.odd y then MATRIX_A else 0)).

Equations? word (s : Z) (k : nat) : Z by wf k lt :=
  word s k with lt_dec k 624 => {
    | left _ := seed_word s k;
    | right _ := recur (word s (k - 624)%nat) (word s (k - 623)%nat) (word s (k - 227)%nat) }.
Proof. all: lia. Qed.

(** The output transformation, on bits 0 to 31. *)
Definition temper (x : Z) : Z :=
  let x := Z.lxor x (Z.shiftr x 11) in
  let x := Z.lxor x (Z.land (Z.shiftl x 7) 0x9d2c5680) in
  let x := Z.lxor x (Z.land (Z.shiftl x 15) 0xefc60000) in
  Z.lxor x (Z.shiftr x 18).

(** ** Words *)

Lemma land_mask x p : 0 <= p -> Z.land x (2 ^ p - 1) = x mod 2 ^ p.
Proof. intros. replace (2 ^ p - 1) with (Z.ones p) by (rewrite Z.ones_equiv; lia). by apply Z.land_ones. Qed.

Lemma mod_mod_pow x p q : 0 <= p <= q -> (x mod 2 ^ q) mod 2 ^ p = x mod 2 ^ p.
Proof.
  intros Hpq. pose proof (Z.pow_pos_nonneg 2 p). pose proof (Z.pow_pos_nonneg 2 (q - p)).
  replace (2 ^ q) with (2 ^ p * 2 ^ (q - p)) by (rewrite <- Z.pow_add_r by lia; f_equal; lia).
  rewrite Z.rem_mul_r by lia. rewrite Z.mul_comm, Z.mod_add by lia. apply Z.mod_mod. lia.
Qed.

Lemma xor_range x y p : 0 <= p -> 0 <= x < 2 ^ p -> 0 <= y < 2 ^ p -> 0 <= Z.lxor x y < 2 ^ p.
Proof.
  intros Hp Hx Hy. split; [apply Z.lxor_nonneg; lia|].
  rewrite <- (Z.mod_small x (2 ^ p)), <- (Z.mod_small y (2 ^ p)) by lia.
  rewrite <- !Z.land_ones by lia.
  assert (Z.lxor (Z.land x (Z.ones p)) (Z.land y (Z.ones p)) = Z.land (Z.lxor x y) (Z.ones p)) as ->.
  { apply Z.bits_inj'. intros i Hi. autorewrite with bits. btauto. }
  rewrite Z.land_ones by lia. apply Z.mod_pos_bound. lia.
Qed.

(** A mask of 32 bits does not see the width. *)
Lemma land_ul W x m : 32 <= W -> 0 <= m < 2 ^ 32 -> Z.land (ul W x) m = Z.land x m.
Proof.
  intros HW Hm. unfold ul. rewrite <- Z.land_ones, <- Z.land_assoc by lia. f_equal.
  rewrite Z.land_comm, Z.land_ones by lia. apply Z.mod_small.
  pose proof (Z.pow_le_mono_r 2 32 W). lia.
Qed.

Lemma land_word W x : 32 <= W -> Z.land (ul W x) WORD_MASK = x mod 2 ^ 32.
Proof. intros. rewrite land_ul by (unfold WORD_MASK; lia). by apply (land_mask x 32). Qed.

Lemma land_top a : 0 <= a < 2 ^ 32 -> Z.land a UPPER_MASK = 2 ^ 31 * (a / 2 ^ 31).
Proof.
  intros Ha. rewrite Z.mul_comm, <- Z.shiftr_div_pow2, <- Z.shiftl_mul_pow2 by lia.
  apply Z.bits_inj'. intros i Hi. rewrite Z.land_spec, Z.shiftl_spec by done.
  change UPPER_MASK with (2 ^ 31). destruct (decide (i < 31)).
  - rewrite (Z.testbit_neg_r _ (i - 31)), Z.pow2_bits_false, andb_false_r by lia. done.
  - rewrite Z.shiftr_spec, Z.sub_add by lia. destruct (decide (i = 31)) as [->|].
    + by rewrite Z.pow2_bits_true, andb_true_r by lia.
    + rewrite (testbit_high a 32 i) by lia. done.
Qed.

Lemma lor_parts a b : Z.lor (2 ^ 31 * (a / 2 ^ 31)) (b mod 2 ^ 31) = 2 ^ 31 * (a / 2 ^ 31) + b mod 2 ^ 31.
Proof.
  assert (Z.land (2 ^ 31 * (a / 2 ^ 31)) (b mod 2 ^ 31) = 0) as H0.
  { apply Z.bits_inj'. intros i Hi. rewrite Z.land_spec, Z.bits_0, Z.mul_comm.
    destruct (decide (i < 31)); [by rewrite Z.mul_pow2_bits_low by lia|].
    rewrite Z.mod_pow2_bits_high, andb_false_r by lia. done. }
  rewrite Z.add_nocarry_lxor by done. rewrite <- Z.lxor_lor by done. done.
Qed.

Lemma recur_spec a b c : 0 <= a < 2 ^ 32 ->
  let y := Z.lor (Z.land a UPPER_MASK) (Z.land b LOWER_MASK) in
  Z.lxor (Z.lxor c (Z.shiftr y 1)) (mag01 (Z.land y 1)) = recur a b c.
Proof.
  intros Ha y. assert (y = 2 ^ 31 * (a / 2 ^ 31) + b mod 2 ^ 31) as Hy.
  { unfold y. rewrite land_top by done. change LOWER_MASK with (2 ^ 31 - 1). rewrite land_mask by lia. apply lor_parts. }
  unfold recur. cbv zeta. rewrite <- Hy, Z.lxor_assoc. f_equal.
  rewrite Z.shiftr_div_pow2 by lia. change (2 ^ 1) with 2. f_equal. unfold mag01.
  change 1 with (2 ^ 1 - 1). rewrite land_mask by lia. change (2 ^ 1) with 2. rewrite Zmod_odd.
  by destruct (Z.odd y).
Qed.

Lemma recur_range a b c : 0 <= a < 2 ^ 32 -> 0 <= c < 2 ^ 32 -> 0 <= recur a b c < 2 ^ 32.
Proof.
  intros Ha Hc. unfold recur. set (y := _ + _).
  assert (0 <= y < 2 ^ 32) by (unfold y; mlia).
  apply xor_range; [lia|done|]. apply xor_range; [lia|mlia|]. unfold MATRIX_A. destruct (Z.odd y); lia.
Qed.

Lemma seed_word_range s k : 0 <= seed_word s k < 2 ^ 32.
Proof. destruct k; simpl; apply Z.mod_pos_bound; lia. Qed.

Lemma word_range s k : 0 <= word s k < 2 ^ 32.
Proof.
  induction k as [k IH] using lt_wf_ind. simp word. destruct (lt_dec k 624); simpl; [apply seed_word_range|].
  apply recur_range; apply IH; lia.
Qed.

Lemma word_seed s k : (k < 624)%nat -> word s k = seed_word s k.
Proof. intros. simp word. destruct (lt_dec k 624); [done|lia]. Qed.

Lemma word_rec s k : word s (k + 624)%nat = recur (word s k) (word s (k + 1)%nat) (word s (k + 397)%nat).
Proof.
  rewrite word_equation_1. destruct (lt_dec (k + 624) 624); [lia|]. simpl. f_equal; f_equal; lia.
Qed.

(** ** The array *)

Lemma awrite_in mt i v : 0 <= i < Z.of_nat (length mt) ->
  exists mt', awrite mt i v = Some mt' /\ length mt' = length mt /\
    forall j, aread mt' j = if decide (j = i) then Some v else aread mt j.
Proof.
  intros Hi. destruct (aset_in mt i (Some v) Hi) as (mt' & Ha & Hl & Hc). exists mt'. split_and!; [done|done|].
  intros j. unfold aread. rewrite Hc. by case_decide.
Qed.

Section width.
Context (W : Z) (HW : 32 <= W).

Lemma init_loop_spec s k : forall mt mti, length mt = 624%nat -> 1 <= mti -> mti + Z.of_nat k <= 624 ->
  (forall j, 0 <= j < mti -> aread mt j = Some (seed_word s (Z.to_nat j))) ->
  exists mt', init_loop W k mt mti = Some (mt', mti + Z.of_nat k) /\ length mt' = 624%nat /\
  forall j, 0 <= j < mti + Z.of_nat k -> aread mt' j = Some (seed_word s (Z.to_nat j)).
Proof.
  induction k as [|k IH]; intros mt mti Hl H1 Hk Hmt; cbn [init_loop].
  { exists mt. rewrite Z.add_0_r. done. }
  rewrite Hmt by lia. cbn [mbind option_bind].
  assert (Hx : Z.land (ul W (ul W (1812433253 * Z.lxor (seed_word s (Z.to_nat (mti - 1)))
      (Z.shiftr (seed_word s (Z.to_nat (mti - 1))) 30)) + mti)) WORD_MASK = seed_word s (Z.to_nat mti)).
  { rewrite land_word by done. replace (Z.to_nat mti) with (S (Z.to_nat (mti - 1))) by lia. cbn [seed_word]. cbv zeta.
    rewrite <- Zplus_mod_idemp_l. unfold ul at 1. rewrite mod_mod_pow, Zplus_mod_idemp_l by lia. do 2 f_equal. lia. }
  rewrite Hx. destruct (awrite_in mt mti (seed_word s (Z.to_nat mti))) as (mt1 & -> & Hl1 & Hr); [lia|].
  cbn [mbind option_bind]. destruct (IH mt1 (mti + 1)) as (mt' & -> & Hl' & Hr'); [congruence|lia|lia| |].
  { intros j Hj. rewrite Hr. case_decide; [by subst|]. apply Hmt. lia. }
  exists mt'. split_and!; [do 2 f_equal; lia|done|]. intros j Hj. apply Hr'. lia.
Qed.

(** The array holds 624 consecutive words of the sequence, the first [kk] of them of the next
    batch. *)
Definition window (s : Z) (base : nat) (kk : Z) (mt : cells) : Prop :=
  length mt = 624%nat /\
  forall i, 0 <= i < 624 -> aread mt i = Some (word s (base + (if (i <? kk)%Z then 624 else 0) + Z.to_nat i)%nat).

Lemma init_genrand_spec mt s : length mt = 624%nat ->
  exists mt', init_genrand W mt s = Some (mt', N) /\ window s 0 0 mt'.
Proof.
  intros Hl. unfold init_genrand. change (Z.land s WORD_MASK) with (Z.land s (2 ^ 32 - 1)). rewrite land_mask by lia.
  destruct (awrite_in mt 0 (s mod 2 ^ 32)) as (mt1 & -> & Hl1 & Hr); [lia|]. cbn [mbind option_bind].
  destruct (init_loop_spec s (Z.to_nat (N - 1)) mt1 1) as (mt' & -> & Hl' & Hr'); [congruence|lia|done| |].
  { intros j Hj. assert (j = 0) as -> by lia. rewrite Hr. done. }
  exists mt'. split; [done|]. split; [done|]. intros i Hi. rewrite Hr' by (unfold N in *; lia).
  destruct (Z.ltb_spec i 0); [lia|]. rewrite word_seed by lia. done.
Qed.

Lemma twist_spec s base kk next src mt : window s base kk mt -> 0 <= kk < 624 ->
  aread mt next = Some (word s (base + Z.to_nat kk + 1)%nat) ->
  aread mt src = Some (word s (base + Z.to_nat kk + 397)%nat) ->
  exists mt', twist mt kk next src = Some mt' /\ window s base (kk + 1) mt'.
Proof.
  intros [Hl Hw] Hk Hn Hs. unfold twist. rewrite (Hw kk Hk), Hn, Hs. cbn [mbind option_bind].
  rewrite recur_spec by apply word_range. rewrite (proj2 (Z.ltb_ge kk kk)), Nat.add_0_r, <- word_rec by lia.
  destruct (awrite_in mt kk (word s (base + Z.to_nat kk + 624)%nat)) as (mt' & -> & Hl' & Hr); [lia|].
  exists mt'. split; [done|]. split; [congruence|]. intros i Hi. rewrite Hr. case_decide as Hd.
  - subst. destruct (Z.ltb_spec kk (kk + 1)); [|lia]. do 2 f_equal. lia.
  - rewrite Hw by done. destruct (Z.ltb_spec i kk), (Z.ltb_spec i (kk + 1)); (done || lia).
Qed.

Lemma twist_loop_spec s base off k : forall kk mt, window s base kk mt -> 0 <= kk -> kk + Z.of_nat k < 624 ->
  off = 397 /\ kk + Z.of_nat k <= 227 \/ off = -227 /\ 227 <= kk ->
  exists mt', twist_loop k off mt kk = Some (mt', kk + Z.of_nat k) /\ window s base (kk + Z.of_nat k) mt'.
Proof.
  induction k as [|k IH]; intros kk mt Hw H0 Hk Hoff; cbn [twist_loop].
  { exists mt. by rewrite Z.add_0_r. }
  destruct (twist_spec s base kk (kk + 1) (kk + off) mt Hw) as (mt1 & -> & Hw1); [lia| | |].
  - destruct Hw as [_ Hw]. rewrite Hw by lia. destruct (Z.ltb_spec (kk + 1) kk); [lia|]. do 2 f_equal. lia.
  - destruct Hw as [_ Hw]. rewrite Hw by lia. destruct (Z.ltb_spec (kk + off) kk); do 2 f_equal; lia.
  - cbn [mbind option_bind]. destruct (IH (kk + 1) mt1 Hw1) as (mt' & -> & Hw'); [lia..|].
    exists mt'. replace (kk + Z.of_nat (S k)) with (kk + 1 + Z.of_nat k) by lia. done.
Qed.

Lemma generate_spec s base mt : window s base 0 mt ->
  exists mt', generate mt = Some mt' /\ window s (base + 624) 0 mt'.
Proof.
  intros Hw. unfold generate.
  destruct (twist_loop_spec s base M (Z.to_nat (N - M)) 0 mt Hw) as (mt1 & -> & Hw1); [done|done|left; done|].
  cbn [mbind option_bind].
  change (0 + Z.of_nat (Z.to_nat (N - M))) with 227 in *.
  destruct (twist_loop_spec s base (M - N) (Z.to_nat (N - 1 - 227)) 227 mt1 Hw1) as (mt2 & -> & Hw2); [done|done|right; done|].
  cbn [mbind option_bind]. change (227 + Z.of_nat (Z.to_nat (N - 1 - 227))) with 623 in *.
  change (N - 1) with 623. change (M - 1) with 396.
  destruct (twist_spec s base 623 0 396 mt2 Hw2) as (mt3 & -> & Hw3); [lia| | |].
  - destruct Hw2 as [_ Hw2]. rewrite Hw2 by lia. simpl. do 2 f_equal. lia.
  - destruct Hw2 as [_ Hw2]. rewrite Hw2 by lia. simpl. do 2 f_equal. lia.
  - exists mt3. split; [done|]. destruct Hw3 as [Hl Hw3]. split; [done|]. intros i Hi. rewrite Hw3 by done.
    destruct (Z.ltb_spec i (623 + 1)), (Z.ltb_spec i 0); try lia. do 2 f_equal. lia.
Qed.

Lemma tempering_spec y : tempering W y = temper y.
Proof. unfold tempering, temper. by rewrite !land_ul by lia. Qed.

(** The next number is made from word [j] of the sequence. *)
Definition at_word (s : Z) (j : nat) (r : random_t) : Prop :=
  exists base, window s base 0 (rmt r) /\ 0 <= rmti r <= 624 /\ j = (base + Z.to_nat (rmti r))%nat.

Lemma random_generate_spec s j r : at_word s j r ->
  exists r', random_generate W r = Some (r', temper (word s j)) /\ at_word s (S j) r'.
Proof.
  intros (base & Hw & Hi & ->). unfold random_generate, genrand_int32.
  assert (Hnext : exists mt' mti' base', (if N <=? rmti r then
      mt ← (if rmti r =? N + 1 then '(mt, _) ← init_genrand W (rmt r) 5489; Some mt else Some (rmt r));
      mt ← generate mt; Some (mt, 0) else Some (rmt r, rmti r)) = Some (mt', mti') /\
      window s base' 0 mt' /\ 0 <= mti' < 624 /\ (base + Z.to_nat (rmti r) = base' + Z.to_nat mti')%nat).
  { unfold N. destruct (Z.leb_spec 624 (rmti r)); [|exists (rmt r), (rmti r), base; split_and!; (done || lia)].
    destruct (Z.eqb_spec (rmti r) (624 + 1)); [lia|]. cbn [mbind option_bind].
    destruct (generate_spec s base (rmt r) Hw) as (mt' & -> & Hw'). cbn [mbind option_bind].
    exists mt', 0, (base + 624)%nat. split_and!; (done || lia). }
  destruct Hnext as (mt' & mti' & base' & -> & Hw' & Hi' & Hj). cbn [mbind option_bind].
  pose proof Hw' as [_ Hw2]. rewrite Hw2 by done. cbn [mbind option_bind]. rewrite tempering_spec.
  eexists. split.
  - do 4 f_equal. destruct (Z.ltb_spec mti' 0); [lia|]. lia.
  - exists base'. simpl. split_and!; (done || lia).
Qed.

Lemma random_numbers_spec s n : forall j r, at_word s j r ->
  exists r', random_numbers W n r = Some (r', (fun i => temper (word s i)) <$> seq j n) /\ at_word s (j + n)%nat r'.
Proof.
  induction n as [|n IH]; intros j r Hr; cbn [random_numbers].
  { exists r. rewrite Nat.add_0_r. done. }
  destruct (random_generate_spec s j r Hr) as (r1 & -> & Hr1). cbn [mbind option_bind].
  destruct (IH (S j) r1 Hr1) as (r' & -> & Hr'). cbn [mbind option_bind]. exists r'. split; [done|].
  by rewrite Nat.add_succ_r.
Qed.

Lemma random_seed_spec s r : length (rmt r) = 624%nat -> exists r', random_seed W r s = Some r' /\ at_word s 624 r'.
Proof.
  intros Hl. unfold random_seed. destruct (init_genrand_spec (rmt r) s Hl) as (mt & -> & Hw). cbn [mbind option_bind].
  eexists. split; [done|]. exists 0%nat. split_and!; (done || unfold N; simpl; lia).
Qed.

Lemma random_alloc_spec : exists r, random_alloc W true = Some (Some r) /\ at_word RANDOM_DEFAULT_SEED 624 r.
Proof.
  unfold random_alloc. destruct (init_genrand_spec (replicate (Z.to_nat N) None) RANDOM_DEFAULT_SEED) as (mt & -> & Hw);
    [by rewrite length_replicate|].
  cbn [mbind option_bind]. eexists. split; [done|]. exists 0%nat. split_and!; (done || unfold N; simpl; lia).
Qed.

Lemma at_word_length s j r : at_word s j r -> length (rmt r) = 624%nat.
Proof. by intros (base & [Hl _] & _). Qed.

(** ** [init_by_array] has no effect

    It ends by setting the index to [N + 1], which [genrand_int32] takes for an array that has not
    been initialised: the first number is made after seeding with 5489. *)

Definition full (mt : cells) : Prop := length mt = 624%nat /\ forall i, 0 <= i < 624 -> exists v, aread mt i = Some v.

Lemma full_write mt i v : full mt -> 0 <= i < 624 -> exists mt', awrite mt i v = Some mt' /\ full mt'.
Proof.
  intros [Hl Hf] Hi. destruct (awrite_in mt i v) as (mt' & Ha & Hl' & Hr); [lia|]. exists mt'. split; [done|].
  split; [congruence|]. intros j Hj. rewrite Hr. case_decide; [by eexists|by apply Hf].
Qed.

Lemma wrap_index_full mt i : full mt -> 2 <= i <= 624 -> exists mt' i', wrap_index mt i = Some (mt', i') /\ full mt' /\ 1 <= i' < 624.
Proof.
  intros Hf Hi. unfold wrap_index, N. destruct (Z.leb_spec 624 i); [|exists mt, i; split_and!; (done || lia)].
  pose proof Hf as [Hl Hr]. destruct (Hr (624 - 1)) as [v ->]; [lia|]. cbn [mbind option_bind].
  destruct (full_write mt 0 v) as (mt' & -> & Hf'); [done|lia|]. cbn [mbind option_bind].
  exists mt', 1. split_and!; (done || lia).
Qed.

Lemma key_loop_full key k : forall mt i j, full mt -> 1 <= i < 624 -> 0 <= j < Z.of_nat (length key) ->
  exists mt' i', key_loop W k key (Z.of_nat (length key)) mt i j = Some (mt', i') /\ full mt' /\ 1 <= i' < 624.
Proof.
  induction k as [|k IH]; intros mt i j Hf Hi Hj; cbn [key_loop]; [by exists mt, i|].
  pose proof Hf as [Hl Hr]. destruct (Hr i) as [v ->]; [lia|]. cbn [mbind option_bind].
  destruct (Hr (i - 1)) as [p ->]; [lia|]. cbn [mbind option_bind].
  destruct (Z.leb_spec 0 j); [|lia]. destruct (lookup_lt_is_Some_2 key (Z.to_nat j)) as [kv ->]; [lia|].
  cbn [mbind option_bind]. set (x := Z.land _ _).
  destruct (full_write mt i x) as (mt1 & -> & Hf1); [done|lia|]. cbn [mbind option_bind].
  destruct (wrap_index_full mt1 (i + 1)) as (mt2 & i2 & -> & Hf2 & Hi2); [done|lia|]. cbn [mbind option_bind].
  apply IH; [done|done|]. destruct (Z.leb_spec (Z.of_nat (length key)) (j + 1)); lia.
Qed.

Lemma mix_loop_full k : forall mt i, full mt -> 1 <= i < 624 -> exists mt', mix_loop W k mt i = Some mt' /\ full mt'.
Proof.
  induction k as [|k IH]; intros mt i Hf Hi; cbn [mix_loop]; [by exists mt|].
  pose proof Hf as [Hl Hr]. destruct (Hr i) as [v ->]; [lia|]. cbn [mbind option_bind].
  destruct (Hr (i - 1)) as [p ->]; [lia|]. cbn [mbind option_bind]. set (x := Z.land _ _).
  destruct (full_write mt i x) as (mt1 & -> & Hf1); [done|lia|]. cbn [mbind option_bind].
  destruct (wrap_index_full mt1 (i + 1)) as (mt2 & i2 & -> & Hf2 & Hi2); [done|lia|]. cbn [mbind option_bind].
  by apply IH.
Qed.

Lemma window_full s base kk mt : window s base kk mt -> full mt.
Proof. intros [Hl Hw]. split; [done|]. intros i Hi. eexists. by apply Hw. Qed.

Lemma init_by_array_spec mt key : length mt = 624%nat -> key <> [] ->
  exists mt', init_by_array W mt key (Z.of_nat (length key)) = Some (mt', N + 1) /\ length mt' = 624%nat.
Proof.
  intros Hl Hk. unfold init_by_array. destruct (init_genrand_spec mt 19650218 Hl) as (mt1 & -> & Hw). cbn [mbind option_bind].
  destruct (key_loop_full key (Z.to_nat (if Z.of_nat (length key) <? N then N else Z.of_nat (length key))) mt1 1 0)
    as (mt2 & i2 & -> & Hf2 & Hi2); [by eapply window_full|lia|destruct key; [done|simpl; lia]|]. cbn [mbind option_bind].
  destruct (mix_loop_full (Z.to_nat (N - 1)) mt2 i2) as (mt3 & -> & Hf3); [done|done|]. cbn [mbind option_bind].
  destruct (full_write mt3 0 0x80000000) as (mt4 & -> & [Hl4 _]); [done|lia|]. by exists mt4.
Qed.

Lemma first_after_reset mt : length mt = 624%nat ->
  random_generate W (mkRandom mt (N + 1)) = r ← random_seed W (mkRandom mt (N + 1)) 5489; random_generate W r.
Proof.
  intros Hl. unfold random_seed, random_generate, genrand_int32. simpl rmt. simpl rmti.
  destruct (init_genrand_spec mt 5489 Hl) as (mt1 & -> & Hw). done.
Qed.

Lemma init_by_array_ignored mt key n : length mt = 624%nat -> key <> [] ->
  exists mt' r, init_by_array W mt key (Z.of_nat (length key)) = Some (mt', N + 1) /\
  random_numbers W (S n) (mkRandom mt' (N + 1)) = Some (r, (fun i => temper (word 5489 i)) <$> seq 624 (S n)).
Proof.
  intros Hl Hk. destruct (init_by_array_spec mt key Hl Hk) as (mt' & Hi & Hl').
  destruct (random_seed_spec 5489 (mkRandom mt' (N + 1)) Hl') as (r1 & Hs & Hr1).
  destruct (random_numbers_spec 5489 (S n) 624 r1 Hr1) as (r' & Hn & _).
  exists mt', r'. split; [done|]. rewrite <- Hn. cbn [random_numbers]. by rewrite (first_after_reset mt' Hl'), Hs.
Qed.

End width.

(** C22: on machines with words of 32 bits and more, a generator that was allocated and seeded
    with [s] gives exactly the numbers of the reference: number [i] is the tempering of word
    [624 + i] of the recurrence.  No word is read before it was written, and no access leaves
    the array. *)
Theorem mersenne_twister_correct W s n : 32 <= W ->
  exists r0 r r', random_alloc W true = Some (Some r0) /\ random_seed W r0 s = Some r /\
  random_numbers W n r = Some (r', (fun i => temper (word s i)) <$> seq 624 n).
Proof.
  intros HW. destruct (random_alloc_spec W HW) as (r0 & H0 & Hr0).
  destruct (random_seed_spec W HW s r0 (at_word_length _ _ _ Hr0)) as (r & Hs & Hr).
  destruct (random_numbers_spec W HW s n 624 r Hr) as (r' & Hn & _).
  exists r0, r, r'. split; [exact H0|]. split; [exact Hs|exact Hn].
Qed.

(** The first two numbers for the seed 5489, computed by the code, are those of the reference. *)
Lemma mersenne_twister_correct_witness : 32 <= 64 /\
  (fun i => temper (word 5489 i)) <$> seq 624 2 = [3499211612; 581869302].
Proof.
  split; [lia|]. destruct (mersenne_twister_correct 64 5489 2 ltac:(lia)) as (r0 & r & r' & H0 & Hs & Hn).
  assert (Hc : (r0 ← random_alloc 64 true; r0 ← r0; r ← random_seed 64 r0 5489; snd <$> random_numbers 64 2 r)
    = Some [3499211612; 581869302]) by (vm_compute; reflexivity).
  rewrite H0 in Hc. cbn [mbind option_bind] in Hc. rewrite Hs in Hc. cbn [mbind option_bind] in Hc. rewrite Hn in Hc.
  clear Hn. revert Hc. generalize ((fun i => temper (word 5489 i)) <$> seq 624 2). intros l Hc.
  cbn [fmap option_fmap option_map snd] in Hc. by injection Hc.
Defined.

End Random.
