(* ===== verification/StampMemory.v ===== *)
(** * The memory pools of STAMP ([src/sws/benchmarks/stamp/lib/memory.c])

    Each thread has one pool per colour; a pool is a chain of blocks that grows by a factor
    when the newest block is full, and [memory_get] takes the next bytes of that block.  Memory
    is never given back before [memory_destroy].

    The state is the list of regions the C library has allocated, the structures that live in
    them, and a count of the requests the C library refused.  [malloc] is a parameter: it
    answers with an address or [NULL], given the regions in use.  A failed assertion, an access
    outside an array or through a pointer never set, [free] of an address that is not allocated, and
    a signed overflow have no result.  The chain of blocks of a pool, linked by [nextPtr], is a list whose head is
    [blocksPtr].  The compile-time switch [ORDERTM] is off; [SIMULATOR] is a parameter. *)

From S2P Require Import Prelude.

Module Memory.

(** ** Data *)

(** An address and a number of bytes. *)
Definition region : Type := Z * Z.

Record block_t := mkBlock { b_addr : Z; size : Z; capacity : Z; contents : Z }.

Record pool_t := mkPool {
  p_addr : Z; blocks : list block_t; nextCapacity : Z;
  initBlockCapacity : Z; blockGrowthFactor : Z; poolColor : Z }.

(** The array [pools[i]], with the entries that were set. *)
Record row := mkRow { r_addr : Z; entries : list (option pool_t) }.

Record memory := mkMemory {
  m_addr : Z; pools_addr : Z; pools : list (option row);
  numThread : option Z; numColors : option Z }.

Record world := mkWorld { live : list region; refused : nat; global_memoryPtr : option memory }.

(** Programs: a state is changed and a value returned, or the behaviour is undefined. *)
Definition prog (A : Type) : Type := world -> option (A * world).

#[global] Instance prog_ret : MRet prog := fun A a w => Some (a, w).
#[global] Instance prog_bind : MBind prog := fun A B k m w =>
  match m w with Some (a, w') => k a w' | None => None end.
Definition ret {A} (a : A) : prog A := mret a.
Definition stop {A} : prog A := fun _ => None.

Definition assert (b : bool) : prog unit := if b then ret tt else stop.
Definition the {A} (o : option A) : prog A := match o with Some a => ret a | None => stop end.
Definition get_global : prog memory := fun w => match global_memoryPtr w with Some m => Some (m, w) | None => None end.
Definition set_global (m : option memory) : prog unit := fun w => Some (tt, mkWorld (live w) (refused w) m).

Fixpoint remove_region (a : Z) (l : list region) : option (list region) :=
  match l with
  | [] => None
  | r :: l => if fst r =? a then Some l else cons r <$> remove_region a l
  end.

(** [free] of an address that is not the start of an allocated region is undefined. *)
Definition free (a : Z) : prog unit := fun w =>
  match remove_region a (live w) with Some l => Some (tt, mkWorld l (refused w) (global_memoryPtr w)) | None => None end.

(** ** The code *)

Definition DEFAULT_INIT_BLOCK_CAPACITY : Z := 16.
Definition DEFAULT_BLOCK_GROWTH_FACTOR : Z := 2.

Section code.
(** The width of [long], [size_t] and pointers; the allocator of the C library; the switch. *)
Context (W : Z) (malloc : list region -> Z -> option Z) (SIMULATOR : bool).

Definition size_t (x : Z) : Z := x mod 2 ^ W.
Definition word_size : Z := W / 8.
Definition sizeof_block : Z := 20 * word_size.
Definition sizeof_pool : Z := 5 * word_size.
Definition sizeof_memory : Z := 3 * word_size.

(** A region of no bytes takes up an address of its own. *)
Definition do_malloc (n : Z) : prog (option Z) := fun w =>
  match malloc (live w) (size_t n) with
  | Some a => Some (Some a, mkWorld ((a, Z.max 1 (size_t n)) :: live w) (refused w) (global_memoryPtr w))
  | None => Some (None, mkWorld (live w) (S (refused w)) (global_memoryPtr w))
  end.

Definition color_malloc (n color : Z) : prog (option Z) := do_malloc n.
Definition color_free (a color : Z) : prog unit := free a.

Definition allocBlock (capacity color : Z) : prog (option block_t) :=
  assert (0 <? capacity);;
  p ← color_malloc sizeof_block color;
  match p with
  | None => ret None
  | Some a =>
    c ← color_malloc (capacity + 1) color;
    match c with None => ret None | Some c => ret (Some (mkBlock a 0 capacity c)) end
  end.

Definition freeBlock (b : block_t) (color : Z) : prog unit :=
  color_free (contents b) color;; color_free (b_addr b) color.

Definition allocPool (initBlockCapacity blockGrowthFactor color : Z) : prog (option pool_t) :=
  p ← color_malloc sizeof_pool color;
  match p with
  | None => ret None
  | Some a =>
    let init := if 0 <? initBlockCapacity then initBlockCapacity else DEFAULT_INIT_BLOCK_CAPACITY in
    let growth := if 0 <? blockGrowthFactor then blockGrowthFactor else DEFAULT_BLOCK_GROWTH_FACTOR in
    b ← allocBlock init color;
    match b with
    | None => ret None
    | Some b => ret (Some (mkPool a [b] (size_t (init * growth)) init growth color))
    end
  end.

Fixpoint freeBlocks (l : list block_t) (color : Z) : prog unit :=
  match l with [] => ret tt | b :: l => freeBlocks l color;; freeBlock b color end.

Definition freePool (p : pool_t) : prog unit :=
  freeBlocks (blocks p) (poolColor p);; color_free (p_addr p) (poolColor p).

(** Array accesses: [pools[i] = r], [pools[i][j] = p] and their reads. *)
Definition in_array {A} (l : list A) (i : Z) : bool := (0 <=? i) && (i <? Z.of_nat (length l)).

Definition set_row (i : Z) (r : option row) : prog unit :=
  m ← get_global;
  assert (in_array (pools m) i);;
  set_global (Some (mkMemory (m_addr m) (pools_addr m) (<[Z.to_nat i := r]> (pools m)) (numThread m) (numColors m))).

Definition get_row (i : Z) : prog row :=
  m ← get_global;
  assert (in_array (pools m) i);;
  the (mjoin (pools m !! Z.to_nat i)).

Definition set_pool (i j : Z) (p : option pool_t) : prog unit :=
  r ← get_row i;
  assert (in_array (entries r) j);;
  set_row i (Some (mkRow (r_addr r) (<[Z.to_nat j := p]> (entries r)))).

Definition get_pool (i j : Z) : prog pool_t :=
  r ← get_row i;
  assert (in_array (entries r) j);;
  the (mjoin (entries r !! Z.to_nat j)).

(** An array of [n] pointers: as many entries as the bytes that were asked for hold. *)
Definition array_of {A} (n : Z) : list (option A) := replicate (Z.to_nat (size_t (n * word_size) / word_size)) None.

Fixpoint row_loop (k : nat) (i numColors : Z) : prog bool :=
  match k with
  | O => ret true
  | S k =>
    p ← do_malloc (numColors * word_size);
    match p with
    | None => set_row i None;; ret false
    | Some a => set_row i (Some (mkRow a (array_of numColors)));; row_loop k (i + 1) numColors
    end
  end.

Fixpoint color_loop (k : nat) (i j initBlockCapacity blockGrowthFactor : Z) : prog bool :=
  match k with
  | O => ret true
  | S k =>
    p ← allocPool initBlockCapacity blockGrowthFactor j;
    set_pool i j p;;
    match p with None => ret false | Some _ => color_loop k i (j + 1) initBlockCapacity blockGrowthFactor end
  end.

Fixpoint thread_loop (k : nat) (i initBlockCapacity blockGrowthFactor numColors : Z) : prog bool :=
  match k with
  | O => ret true
  | S k =>
    b ← color_loop (Z.to_nat numColors) i 0 initBlockCapacity blockGrowthFactor;
    if (b : bool) then thread_loop k (i + 1) initBlockCapacity blockGrowthFactor numColors else ret false
  end.

Definition memory_init_colors (numThread initBlockCapacity blockGrowthFactor numColors : Z) : prog bool :=
  assert (0 <? numThread);;
  g ← do_malloc sizeof_memory;
  match g with
  | None => set_global None;; ret false
  | Some g =>
    p ← do_malloc (numThread * word_size);
    match p with
    | None => set_global (Some (mkMemory g 0 [] None None));; ret false
    | Some p =>
      set_global (Some (mkMemory g p (array_of numThread) None None));;
      b ← row_loop (Z.to_nat numThread) 0 numColors;
      if negb b then ret false else
      b ← thread_loop (Z.to_nat numThread) 0 initBlockCapacity blockGrowthFactor numColors;
      if negb b then ret false else
      m ← get_global;
      set_global (Some (mkMemory (m_addr m) (pools_addr m) (pools m) (Some numThread) (Some numColors)));;
      ret true
    end
  end.

Definition memory_init (numThread initBlockCapacity blockGrowthFactor : Z) : prog bool :=
  memory_init_colors numThread initBlockCapacity blockGrowthFactor 1.

Fixpoint free_colors (k : nat) (i j : Z) : prog unit :=
  match k with
  | O => ret tt
  | S k => p ← get_pool i j; freePool p;; free_colors k i (j + 1)
  end.

Fixpoint free_pools (k : nat) (i numColors : Z) : prog unit :=
  match k with
  | O => ret tt
  | S k => free_colors (Z.to_nat numColors) i 0;; free_pools k (i + 1) numColors
  end.

Fixpoint free_rows (k : nat) (i : Z) : prog unit :=
  match k with
  | O => ret tt
  | S k => r ← get_row i; free (r_addr r);; free_rows k (i + 1)
  end.

(** The pointer is left dangling: no access through it has a result afterwards. *)
Definition memory_destroy : prog unit :=
  m ← get_global;
  nt ← the (numThread m);
  nc ← the (numColors m);
  free_pools (Z.to_nat nt) 0 nc;;
  free_rows (Z.to_nat nt) 0;;
  free (pools_addr m);;
  free (m_addr m);;
  set_global None.

(** A product of two [long]s. *)
Definition long_mul (x y : Z) : prog Z :=
  assert ((- 2 ^ (W - 1) <=? x * y) && (x * y <? 2 ^ (W - 1)));; ret (x * y).

(** The pool after the call, and the new block. *)
Definition addBlockToPool (p : pool_t) (numByte : Z) : prog (pool_t * option block_t) :=
  c ← (if nextCapacity p <? size_t numByte then x ← long_mul numByte (blockGrowthFactor p); ret (size_t x)
        else ret (nextCapacity p));
  b ← allocBlock c (poolColor p);
  match b with
  | None => ret (p, None)
  | Some b =>
    ret (mkPool (p_addr p) (b :: blocks p) (size_t (c * blockGrowthFactor p))
      (initBlockCapacity p) (blockGrowthFactor p) (poolColor p), Some b)
  end.

(** The block after the call, and the address. *)
Definition getMemoryFromBlock (b : block_t) (numByte : Z) : prog (block_t * Z) :=
  assert (size_t (size b + numByte) <=? capacity b);;
  ret (mkBlock (b_addr b) (size_t (size b + numByte)) (capacity b) (contents b), size_t (contents b + size b)).

(** The block the memory is taken from is the first of the pool in both branches. *)
Definition getMemoryFromPool (p : pool_t) (numByte : Z) : prog (pool_t * option Z) :=
  b ← the (head (blocks p));
  '(p, b) ← (if capacity b <? size_t (size b + numByte)
              then assert (negb SIMULATOR);; addBlockToPool p (sN W numByte)
              else ret (p, Some b));
  match b with
  | None => ret (p, None)
  | Some b =>
    '(b, a) ← getMemoryFromBlock b numByte;
    ret (mkPool (p_addr p) (b :: tail (blocks p)) (nextCapacity p)
      (initBlockCapacity p) (blockGrowthFactor p) (poolColor p), Some a)
  end.

Definition memory_prealloc (threadId numByte color : Z) : prog unit :=
  p ← get_pool threadId color;
  b ← the (head (blocks p));
  if capacity b <? size_t (size b + numByte)
  then assert (negb SIMULATOR);;
       '(p, _) ← addBlockToPool p (sN W numByte); set_pool threadId color (Some p)
  else ret tt.

(** [NULL] is [None]; its address 0 is aligned. *)
Definition memory_get_color (threadId numByte color : Z) : prog (option Z) :=
  p ← get_pool threadId color;
  '(p, d) ← getMemoryFromPool p (size_t (numByte + 7));
  set_pool threadId color (Some p);;
  match d with
  | None => ret None
  | Some addr =>
    let misalignment := addr mod 8 in
    ret (Some (if misalignment =? 0 then addr else size_t (addr + (8 - misalignment))))
  end.

Definition memory_get (threadId numByte : Z) : prog (option Z) := memory_get_color threadId numByte 0.

(** The operations of the threads, in the order in which they take place.  The result is the list
    of the regions that were given, with the call each answers. *)
Inductive call := Prealloc (threadId numByte color : Z) | Get (threadId numByte color : Z).

Definition perform (c : call) : prog (option Z) :=
  match c with
  | Prealloc t n c => memory_prealloc t n c;; ret None
  | Get t n c => memory_get_color t n c
  end.

Fixpoint perform_all (l : list call) : prog (list (call * option Z)) :=
  match l with
  | [] => ret []
  | c :: l => a ← perform c; rest ← perform_all l; ret ((c, a) :: rest)
  end.

End code.

(** ** What the C library promises *)

Definition disj (x y : region) : Prop := fst x + snd x <= fst y \/ fst y + snd y <= fst x.

Fixpoint apart (l : list region) : Prop :=
  match l with [] => True | x :: l => Forall (disj x) l /\ apart l end.

(** A new region lies in the address space, apart from all others; its size fits [ptrdiff_t]. *)
Definition malloc_ok (W : Z) (malloc : list region -> Z -> option Z) : Prop :=
  forall l n a, 0 <= n < 2 ^ W -> malloc l n = Some a ->
  0 < a /\ n < 2 ^ (W - 1) /\ a + Z.max 1 n <= 2 ^ W /\ Forall (disj (a, Z.max 1 n)) l.

(** ** Regions *)

#[global] Instance disj_sym : Symmetric disj.
Proof. intros x y [H|H]; [by right|by left]. Qed.

#[global] Instance apart_perm : Proper ((≡ₚ) ==> iff) apart.
Proof.
  assert (H : forall l k, l ≡ₚ k -> apart l -> apart k).
  { intros l k. induction 1 as [|x l k HP IH|x y l|l1 l2 l3 H1 IH1 H2 IH2]; simpl; [done| | |tauto].
    - intros [Hx Hl]. split; [by rewrite <- HP|auto].
    - intros [Hy [Hx Hl]]. apply Forall_cons in Hy as [Hyx Hy]. split_and!; [|done|done].
      apply Forall_cons. split; [by apply disj_sym|done]. }
  intros l k HP. split; apply H; [done|by symmetry].
Qed.

Lemma apart_app l k : apart (l ++ k) <-> apart l /\ apart k /\ forall x y, x ∈ l -> y ∈ k -> disj x y.
Proof.
  induction l as [|a l IH]; simpl; [set_solver|]. rewrite IH, Forall_app, !Forall_forall. set_solver.
Qed.

(** Allocated regions: not empty, within the address space. *)
Definition region_ok (W : Z) (r : region) : Prop := 0 < fst r /\ 0 < snd r /\ fst r + snd r <= 2 ^ W.

Definition heap_ok (W : Z) (l : list region) : Prop := Forall (region_ok W) l /\ apart l.

#[global] Instance heap_ok_perm W : Proper ((≡ₚ) ==> iff) (heap_ok W).
Proof. intros l k HP. unfold heap_ok. by rewrite HP. Qed.

Lemma remove_region_perm W a n l k : heap_ok W l -> l ≡ₚ (a, n) :: k -> exists l', remove_region a l = Some l' /\ l' ≡ₚ k.
Proof.
  revert k. induction l as [|[b m] l IH]; intros k Hok HP; [by apply Permutation_nil_cons in HP|]. simpl.
  destruct (Z.eqb_spec b a) as [->|Hne].
  - exists l. split; [done|]. pose proof HP as HP0. rewrite HP in Hok. destruct Hok as [Hr [Ha _]].
    assert (Hin : (a, m) ∈ (a, n) :: k) by (rewrite <- HP; set_solver).
    apply elem_of_cons in Hin as [[= <-]|Hin]; [by apply Permutation_cons_inv in HP0|].
    rewrite Forall_forall in Ha. specialize (Ha _ Hin). apply Forall_cons in Hr as [Hr1 Hr2].
    rewrite Forall_forall in Hr2. specialize (Hr2 _ Hin). destruct Hr1 as (? & ? & ?), Hr2 as (? & ? & ?). destruct Ha; simpl in *; lia.
  - assert (Hin : (a, n) ∈ (b, m) :: l) by (rewrite HP; set_solver).
    apply elem_of_cons in Hin as [[= ??]|Hin]; [done|]. apply elem_of_Permutation in Hin as [l1 Hl1].
    destruct (IH l1) as (l' & -> & Hl'); [|done|].
    + destruct Hok as [Hr [_ Ha]]. apply Forall_cons in Hr as [_ Hr]. by split.
    + eexists. split; [done|]. rewrite Hl'. apply (Permutation_cons_inv (a := (a, n))). rewrite <- HP, Hl1. constructor.
Qed.

(** ** Programs that have a result *)

Definition wp {A} (m : prog A) (w : world) (Q : A -> world -> Prop) : Prop :=
  match m w with Some (a, w') => Q a w' | None => False end.

Lemma wp_mono {A} (m : prog A) w (Q Q' : A -> world -> Prop) : wp m w Q -> (forall a w', Q a w' -> Q' a w') -> wp m w Q'.
Proof. unfold wp. destruct (m w) as [[a w']|]; eauto. Qed.

Lemma wp_bind {A B} (m : prog A) (k : A -> prog B) w Q : wp m w (fun a w' => wp (k a) w' Q) -> wp (m ≫= k) w Q.
Proof. unfold wp, mbind, prog_bind. by destruct (m w) as [[a w']|]. Qed.

Lemma wp_ret {A} (a : A) w (Q : A -> world -> Prop) : Q a w -> wp (ret a) w Q.
Proof. done. Qed.

Lemma wp_assert b w (Q : unit -> world -> Prop) : b = true -> Q tt w -> wp (assert b) w Q.
Proof. by intros ->. Qed.

Lemma wp_the {A} (o : option A) a w (Q : A -> world -> Prop) : o = Some a -> Q a w -> wp (the o) w Q.
Proof. by intros ->. Qed.

Lemma wp_get_global w m (Q : memory -> world -> Prop) : global_memoryPtr w = Some m -> Q m w -> wp get_global w Q.
Proof. unfold wp, get_global. by intros ->. Qed.

Lemma wp_set_global m w (Q : unit -> world -> Prop) : Q tt (mkWorld (live w) (refused w) m) -> wp (set_global m) w Q.
Proof. done. Qed.

Lemma wp_free W a n w l (Q : unit -> world -> Prop) : heap_ok W (live w) -> live w ≡ₚ (a, n) :: l ->
  (forall l', l' ≡ₚ l -> Q tt (mkWorld l' (refused w) (global_memoryPtr w))) -> wp (free a) w Q.
Proof. intros Hok HP HQ. unfold wp, free. destruct (remove_region_perm W a n _ l Hok HP) as (l' & -> & Hl'). by apply HQ. Qed.

(** ** One pool *)

Definition block_regions (W : Z) (b : block_t) : list region :=
  [(contents b, capacity b + 1); (b_addr b, sizeof_block W)].

Definition pool_regions (W : Z) (p : pool_t) : list region :=
  (p_addr p, sizeof_pool W) :: (blocks p ≫= block_regions W).

(** The bytes of a block that were given out. *)
Definition used (b : block_t) : region := (contents b, size b).

Definition block_ok (W : Z) (b : block_t) : Prop :=
  0 <= size b <= capacity b /\ capacity b + 1 < 2 ^ (W - 1) /\ 0 < contents b /\ contents b + capacity b + 1 <= 2 ^ W.

(** With an even growth factor the capacity of a new block is even, so that [capacity + 1] does not
    wrap around. *)
Definition pool_ok (W : Z) (p : pool_t) : Prop :=
  blocks p <> [] /\ Forall (block_ok W) (blocks p) /\
  0 < blockGrowthFactor p /\ Z.even (blockGrowthFactor p) = true /\
  0 <= nextCapacity p < 2 ^ W /\ Z.even (nextCapacity p) = true.

(** What was given out of [p] is still given out of [p']. *)
Definition keeps (p p' : pool_t) : Prop :=
  forall b, b ∈ blocks p -> exists b', b' ∈ blocks p' /\ contents b' = contents b /\ size b <= size b'.

Lemma keeps_refl p : keeps p p.
Proof. intros b Hb. exists b. split_and!; (done || lia). Qed.

Definition within (r s : region) : Prop := fst s <= fst r /\ fst r + snd r <= fst s + snd s.

Lemma within_disj r s x : within r s -> disj s x -> disj r x.
Proof. unfold within, disj. lia. Qed.

Section proofs.
Context (W : Z) (malloc : list region -> Z -> option Z) (SIMULATOR : bool).
Hypotheses (HW : 32 <= W) (Hm : malloc_ok W malloc).

Local Notation heap_ok := (heap_ok W).
Local Notation block_regions := (block_regions W).
Local Notation pool_regions := (pool_regions W).

Lemma word_bound : 2 ^ W = 2 * 2 ^ (W - 1) /\ 4 * W - 8 <= 2 ^ W.
Proof.
  split; [rewrite <- Z.pow_succ_r by lia; f_equal; lia|].
  pose proof (Z.pow_gt_lin_r 2 (W - 2) ltac:(lia) ltac:(lia)).
  assert (2 ^ W = 4 * 2 ^ (W - 2)) as ->; [|lia]. change 4 with (2 ^ 2). rewrite <- Z.pow_add_r by lia. f_equal. lia.
Qed.

Lemma size_t_small x : 0 <= x < 2 ^ W -> size_t W x = x.
Proof. apply Z.mod_small. Qed.

Lemma alloc_size n : 1 <= n < 2 ^ W -> Z.max 1 (size_t W n) = n.
Proof. intros Hn. rewrite size_t_small by lia. lia. Qed.

Lemma size_t_range x : 0 <= size_t W x < 2 ^ W.
Proof. apply Z.mod_pos_bound. lia. Qed.

Lemma size_t_even x : Z.even x = true -> Z.even (size_t W x) = true.
Proof.
  intros Hx. unfold size_t. rewrite Zmod_eq_full by lia. destruct word_bound as [-> _].
  rewrite Z.even_sub, Hx, !Z.even_mul. simpl. by rewrite orb_true_r.
Qed.

Lemma sizes_ok : 0 < word_size W /\ 20 * word_size W < 2 ^ W.
Proof. pose proof word_bound. unfold word_size. split; mlia. Qed.

Lemma wp_malloc n w (Q : option Z -> world -> Prop) : heap_ok (live w) ->
  (forall a l, l = (a, Z.max 1 (size_t W n)) :: live w -> heap_ok l -> size_t W n < 2 ^ (W - 1) ->
    Q (Some a) (mkWorld l (refused w) (global_memoryPtr w))) ->
  Q None (mkWorld (live w) (S (refused w)) (global_memoryPtr w)) ->
  wp (do_malloc W malloc n) w Q.
Proof.
  intros [Hr Ha] HS HN. unfold wp, do_malloc. destruct (malloc (live w) (size_t W n)) as [a|] eqn:E; [|done].
  destruct (Hm _ _ _ (size_t_range n) E) as (H1 & H2 & H3 & H4). apply HS; [done| |done].
  split; [|by split]. apply Forall_cons. split; [|done]. unfold region_ok. simpl. lia.
Qed.

Definition alloc_post (w : world) (r : option block_t) (cap : Z) (w' : world) : Prop :=
  heap_ok (live w') /\ global_memoryPtr w' = global_memoryPtr w /\
  match r with
  | Some b => live w' ≡ₚ block_regions b ++ live w /\ refused w' = refused w /\
      block_ok W b /\ size b = 0 /\ capacity b = cap
  | None => refused w' = S (refused w) /\ exists leak, live w' ≡ₚ leak ++ live w /\ (length leak <= 1)%nat
  end.

Lemma allocBlock_spec cap color w : 0 < cap -> cap + 1 < 2 ^ W -> heap_ok (live w) ->
  wp (allocBlock W malloc cap color) w (fun r w' => alloc_post w r cap w').
Proof.
  intros Hc Hc' Hok. pose proof sizes_ok as [Hs1 Hs2]. unfold allocBlock, color_malloc.
  apply wp_bind, wp_assert; [by apply Z.ltb_lt|]. apply wp_bind, wp_malloc; [done| |].
  - intros a l -> Hl _. apply wp_bind, wp_malloc; [done| |].
    + intros c l -> Hl' Hb. simpl in *. rewrite !size_t_small in * by (unfold sizeof_block in *; lia).
      apply wp_ret. unfold alloc_post. simpl. split_and!; [done|done| |done| |done|done].
      * rewrite !Z.max_r by (unfold sizeof_block; lia). done.
      * destruct Hl' as [Hr _]. apply Forall_cons in Hr as [(? & ? & ?) _]. unfold block_ok. simpl in *. lia.
    + apply wp_ret. unfold alloc_post. simpl. split_and!; [done|done|done|]. exists [(a, Z.max 1 (size_t W (sizeof_block W)))]. split; [done|simpl; lia].
  - apply wp_ret. unfold alloc_post. simpl. split_and!; [done|done|done|]. exists []. split; [done|simpl; lia].
Qed.

Definition add_post (w : world) (p : pool_t) (rest : list region) (n : Z) (r : pool_t * option block_t) (w' : world) : Prop :=
  heap_ok (live w') /\ global_memoryPtr w' = global_memoryPtr w /\ pool_ok W (fst r) /\
  blockGrowthFactor (fst r) = blockGrowthFactor p /\
  match snd r with
  | Some b => live w' ≡ₚ pool_regions (fst r) ++ rest /\ refused w' = refused w /\
      blocks (fst r) = b :: blocks p /\ size b = 0 /\ n <= capacity b /\ block_ok W b
  | None => fst r = p /\ refused w' = S (refused w) /\
      exists leak, live w' ≡ₚ leak ++ pool_regions p ++ rest /\ (length leak <= 1)%nat
  end.

Lemma addBlockToPool_spec p n w rest : 0 < n -> n * blockGrowthFactor p < 2 ^ (W - 1) -> pool_ok W p ->
  heap_ok (live w) -> live w ≡ₚ pool_regions p ++ rest ->
  wp (addBlockToPool W malloc p n) w (add_post w p rest n).
Proof.
  intros Hn Hng Hp Hok HP. pose proof Hp as (Hne & Hbs & Hg & Hge & Hc & Hce). pose proof word_bound as [Hb _].
  assert (Hnn : n <= n * blockGrowthFactor p) by nia.
  assert (Hcap : wp (if nextCapacity p <? size_t W n then x ← long_mul W n (blockGrowthFactor p); ret (size_t W x)
    else ret (nextCapacity p)) w (fun c w' => w' = w /\ n <= c < 2 ^ W /\ Z.even c = true)).
  { rewrite size_t_small by lia. destruct (Z.ltb_spec (nextCapacity p) n); [|apply wp_ret; split_and!; (done || lia)].
    apply wp_bind, wp_bind, wp_assert.
    - apply andb_true_iff. split; [apply Z.leb_le|apply Z.ltb_lt]; lia.
    - apply wp_ret, wp_ret. rewrite size_t_small by lia. split_and!; [done|lia|lia|]. rewrite Z.even_mul, Hge. apply orb_true_r. }
  unfold addBlockToPool. apply wp_bind. eapply wp_mono; [exact Hcap|]. intros c w' (-> & Hcn & Hc2).
  assert (c + 1 < 2 ^ W).
  { destruct (decide (c = 2 * 2 ^ (W - 1) - 1)) as [->|]; [|lia]. rewrite Z.even_sub, Z.even_mul in Hc2. done. }
  apply wp_bind. eapply wp_mono; [apply allocBlock_spec; [lia|lia|done]|]. intros [b|] w' (Hok' & Hgl & Hpost); apply wp_ret; simpl.
  - destruct Hpost as (HP' & Hrf & Hbk & Hsz & Hcp). unfold add_post. simpl. split_and!; try done.
    + unfold pool_ok. simpl. split_and!; try done; try (by apply Forall_cons).
      * apply size_t_range.
      * apply size_t_range.
      * apply size_t_even. rewrite Z.even_mul, Hc2. done.
    + rewrite HP', HP. unfold Memory.pool_regions. simpl. solve_Permutation.
    + lia.
  - destruct Hpost as (Hrf & leak & HP' & Hle). unfold add_post. simpl. split_and!; try done. exists leak. by rewrite HP', HP.
Qed.

Lemma first_block_apart p b bs rest l : heap_ok l -> l ≡ₚ pool_regions p ++ rest -> blocks p = b :: bs ->
  let r := (contents b, capacity b + 1) in
  Forall (disj r) rest /\ forall b', b' ∈ bs -> disj r (contents b', capacity b' + 1).
Proof.
  intros [_ Ha] HP Hbs r. rewrite HP in Ha. unfold Memory.pool_regions in Ha. rewrite Hbs in Ha. simpl in Ha.
  destruct Ha as (_ & Ha & _). fold r in Ha. apply Forall_cons in Ha as [_ Ha].
  rewrite Forall_app in Ha. destruct Ha as [Hb Hr]. split; [done|]. intros b' Hb'.
  rewrite Forall_forall in Hb. apply Hb, list_elem_of_bind. exists b'. split; [set_solver|done].
Qed.

Definition take_post (w : world) (p : pool_t) (rest : list region) (n : Z) (r : pool_t * option Z) (w' : world) : Prop :=
  heap_ok (live w') /\ global_memoryPtr w' = global_memoryPtr w /\
  pool_ok W (fst r) /\ blockGrowthFactor (fst r) = blockGrowthFactor p /\ keeps p (fst r) /\
  (exists leak, live w' ≡ₚ leak ++ pool_regions (fst r) ++ rest /\ (refused w + length leak <= refused w')%nat) /\
  match snd r with
  | Some a => 0 < a /\ a + n < 2 ^ W /\ (exists b, b ∈ blocks (fst r) /\ within (a, n) (used b)) /\
      Forall (disj (a, n)) rest /\ (forall b, b ∈ blocks p -> disj (a, n) (used b))
  | None => (refused w < refused w')%nat
  end.

(** Taking [n] bytes of a first block [b] that has room for them. *)
Lemma take_first p b bs n w rest : blocks p = b :: bs -> 0 < n -> size b + n <= capacity b -> pool_ok W p ->
  heap_ok (live w) -> live w ≡ₚ pool_regions p ++ rest ->
  wp ('(b, a) ← getMemoryFromBlock W b n;
      ret (mkPool (p_addr p) (b :: tail (blocks p)) (nextCapacity p)
        (initBlockCapacity p) (blockGrowthFactor p) (poolColor p), Some a)) w (take_post w p rest n).
Proof.
  intros Hbl Hn Hfit Hp Hok HP. pose proof Hp as (Hne & Hbs & Hp'). rewrite Hbl in Hbs.
  apply Forall_cons in Hbs as [(H1 & H2 & H3 & H4) Hbs]. pose proof word_bound as [Hb _].
  destruct (first_block_apart p b bs rest _ Hok HP Hbl) as [Hrest Hothers].
  assert (Hw : within (contents b + size b, n) (contents b, capacity b + 1)) by (unfold within; simpl; lia).
  apply wp_bind, wp_bind. rewrite !size_t_small by lia. apply wp_assert; [by apply Z.leb_le|]. apply wp_ret, wp_ret.
  unfold take_post. simpl. split_and!; [done|done| |done| | |lia|lia| | |].
  - unfold pool_ok. simpl. split_and!; try done; try apply Hp'.
    apply Forall_cons. split; [|by rewrite Hbl]. unfold block_ok. simpl. lia.
  - intros b0 Hb0. rewrite Hbl in Hb0. apply elem_of_cons in Hb0 as [->|Hb0]; simpl.
    + eexists. split; [left|]. simpl. lia.
    + exists b0. split_and!; [right; by rewrite Hbl|done|lia].
  - exists []. simpl. split; [|lia]. rewrite HP. unfold Memory.pool_regions. rewrite Hbl. done.
  - eexists. split; [left|]. unfold within. simpl. lia.
  - eapply Forall_impl; [exact Hrest|]. intros x. by apply within_disj.
  - intros b0 Hb0. rewrite Hbl in Hb0. apply elem_of_cons in Hb0 as [->|Hb0]; [right; simpl; lia|].
    apply disj_sym. apply (within_disj _ (contents b0, capacity b0 + 1)).
    + rewrite Forall_forall in Hbs. destruct (Hbs _ Hb0) as (? & ?). unfold within. simpl. lia.
    + apply disj_sym. eapply within_disj; [exact Hw|]. by apply Hothers.
Qed.

Lemma getMemoryFromPool_spec p n w rest : SIMULATOR = false -> 0 < n -> n * blockGrowthFactor p < 2 ^ (W - 1) -> pool_ok W p ->
  heap_ok (live w) -> live w ≡ₚ pool_regions p ++ rest ->
  wp (getMemoryFromPool W malloc SIMULATOR p n) w (take_post w p rest n).
Proof.
  intros -> Hn Hng Hp Hok HP. pose proof Hp as (Hne & Hbs & Hg & Hp'). pose proof word_bound as [Hb _].
  assert (n <= n * blockGrowthFactor p) by nia. destruct (blocks p) as [|b bs] eqn:Hbl; [done|].
  apply Forall_cons in Hbs as [(H1 & H2 & H3 & H4) Hbs].
  unfold getMemoryFromPool. rewrite Hbl. apply wp_bind. apply (wp_the _ b); [done|].
  rewrite size_t_small by lia. destruct (Z.ltb_spec (capacity b) (size b + n)) as [Hfull|Hfit].
  - rewrite sN_small by lia. apply wp_bind, wp_bind, wp_assert; [done|].
    eapply wp_mono; [by apply (addBlockToPool_spec p n w rest)|].
    intros [p1 [b1|]] w1 (Hok1 & Hgl & Hp1 & Hgr & Hpost); simpl in *.
    + destruct Hpost as (HP1 & Hrf & Hbl1 & Hsz & Hcp & Hbk).
      eapply wp_mono; [apply (take_first p1 b1 (blocks p) n w1 rest); [done|lia|lia|done|done|done]|].
      intros [p2 d] w2 (K1 & K2 & K3 & K4 & K5 & (leak & K6 & K7) & K8). unfold take_post. simpl in *.
      split_and!; [done|congruence|done|congruence| | |].
      * intros b0 Hb0. apply K5. rewrite Hbl1. by right.
      * exists leak. split; [done|lia].
      * destruct d; [|lia]. destruct K8 as (? & ? & ? & ? & Hd). split_and!; try done.
        intros b0 Hb0. apply Hd. rewrite Hbl1. by right.
    + destruct Hpost as (-> & Hrf & leak & HP1 & Hlk). apply wp_ret. unfold take_post. simpl.
      split_and!; [done|done|done|done|apply keeps_refl| |lia]. exists leak. split; [done|lia].
  - apply wp_bind, wp_ret. by apply (take_first p b bs n w rest).
Qed.

(** ** The arrays *)

Definition with_pools (m : memory) (l : list (option row)) : memory :=
  mkMemory (m_addr m) (pools_addr m) l (numThread m) (numColors m).

Definition with_global (m : memory) (w : world) : world := mkWorld (live w) (refused w) (Some m).

Lemma in_array_middle {A} (l1 l2 : list A) x : in_array (l1 ++ x :: l2) (Z.of_nat (length l1)) = true.
Proof. unfold in_array. rewrite length_app. simpl. apply andb_true_iff. split; [apply Z.leb_le|apply Z.ltb_lt]; lia. Qed.

Lemma insert_middle {A} (l1 l2 : list A) x y : <[length l1 := y]> (l1 ++ x :: l2) = l1 ++ y :: l2.
Proof. by rewrite insert_app_r_alt, Nat.sub_diag by done. Qed.

Lemma wp_get_row w m i l1 r l2 (Q : row -> world -> Prop) :
  global_memoryPtr w = Some m -> pools m = l1 ++ Some r :: l2 -> i = Z.of_nat (length l1) -> Q r w -> wp (get_row i) w Q.
Proof.
  intros Hg Hp -> HQ. unfold get_row. apply wp_bind. apply (wp_get_global w m); [done|]. rewrite Hp.
  apply wp_bind, wp_assert; [apply in_array_middle|]. apply (wp_the _ r); [|done]. by rewrite Nat2Z.id, list_lookup_middle.
Qed.

Lemma wp_set_row w m i l1 x l2 r (Q : unit -> world -> Prop) :
  global_memoryPtr w = Some m -> pools m = l1 ++ x :: l2 -> i = Z.of_nat (length l1) ->
  Q tt (with_global (with_pools m (l1 ++ r :: l2)) w) -> wp (set_row i r) w Q.
Proof.
  intros Hg Hp -> HQ. unfold set_row. apply wp_bind. apply (wp_get_global w m); [done|]. rewrite Hp.
  apply wp_bind, wp_assert; [apply in_array_middle|]. by rewrite Nat2Z.id, insert_middle.
Qed.

Lemma wp_get_pool w m i j l1 a e1 p e2 l2 (Q : pool_t -> world -> Prop) :
  global_memoryPtr w = Some m -> pools m = l1 ++ Some (mkRow a (e1 ++ Some p :: e2)) :: l2 ->
  i = Z.of_nat (length l1) -> j = Z.of_nat (length e1) -> Q p w -> wp (get_pool i j) w Q.
Proof.
  intros Hg Hp Hi -> HQ. unfold get_pool. apply wp_bind. eapply wp_get_row; [done..|]. simpl.
  apply wp_bind, wp_assert; [apply in_array_middle|]. apply (wp_the _ p); [|done]. by rewrite Nat2Z.id, list_lookup_middle.
Qed.

Lemma wp_set_pool w m i j l1 a e1 x e2 l2 p (Q : unit -> world -> Prop) :
  global_memoryPtr w = Some m -> pools m = l1 ++ Some (mkRow a (e1 ++ x :: e2)) :: l2 ->
  i = Z.of_nat (length l1) -> j = Z.of_nat (length e1) ->
  Q tt (with_global (with_pools m (l1 ++ Some (mkRow a (e1 ++ p :: e2)) :: l2)) w) -> wp (set_pool i j p) w Q.
Proof.
  intros Hg Hp Hi -> HQ. unfold set_pool. apply wp_bind. eapply wp_get_row; [done..|]. simpl.
  apply wp_bind, wp_assert; [apply in_array_middle|]. rewrite Nat2Z.id, insert_middle. by eapply wp_set_row.
Qed.

(** ** All pools *)

(** Row [i]: the address of [pools[i]] and its pools. *)
Definition full_row (x : Z * list pool_t) : option row := Some (mkRow (fst x) (Some <$> snd x)).

Definition pools_of (rows : list (Z * list pool_t)) : list pool_t := rows ≫= snd.

Definition row_region (nc : Z) (x : Z * list pool_t) : region := (fst x, Z.max 1 (nc * word_size W)).

Definition regions (g pa nt nc : Z) (rows : list (Z * list pool_t)) : list region :=
  (pools_of rows ≫= pool_regions) ++ (row_region nc <$> rows) ++ [(pa, nt * word_size W); (g, sizeof_memory W)].

Definition covered (ps : list pool_t) (r : region) : Prop := exists p b, p ∈ ps /\ b ∈ blocks p /\ within r (used b).

(** The state between calls: [base] was allocated by others, [given] was given out, and at most as
    many regions were lost as requests were refused since [r0]. *)
Record inv (nt nc growth : Z) (base : list region) (r0 : nat) (given : list region) (w : world) : Prop := {
  inv_heap : heap_ok (live w);
  inv_state : exists g pa rows leak,
    global_memoryPtr w = Some (mkMemory g pa (full_row <$> rows) (Some nt) (Some nc)) /\
    Z.of_nat (length rows) = nt /\ Forall (fun x => Z.of_nat (length (snd x)) = nc) rows /\
    Forall (fun p => pool_ok W p /\ blockGrowthFactor p = growth) (pools_of rows) /\
    live w ≡ₚ leak ++ base ++ regions g pa nt nc rows /\ (r0 + length leak <= refused w)%nat /\
    Forall (covered (pools_of rows)) given;
  inv_given : apart given }.

Lemma pools_of_middle R1 a P1 p P2 R2 :
  pools_of (R1 ++ (a, P1 ++ p :: P2) :: R2) ≡ₚ p :: (pools_of R1 ++ P1 ++ P2 ++ pools_of R2).
Proof. unfold pools_of. rewrite bind_app, bind_cons. simpl. solve_Permutation. Qed.

Lemma regions_middle g pa nt nc R1 a P1 p P2 R2 :
  regions g pa nt nc (R1 ++ (a, P1 ++ p :: P2) :: R2) ≡ₚ pool_regions p ++
    (((pools_of R1 ++ P1 ++ P2 ++ pools_of R2) ≫= pool_regions) ++
     (row_region nc <$> R1) ++ row_region nc (a, []) :: (row_region nc <$> R2) ++ [(pa, nt * word_size W); (g, sizeof_memory W)]).
Proof.
  unfold regions. rewrite pools_of_middle, bind_cons, fmap_app, fmap_cons. unfold row_region at 2. simpl. solve_Permutation.
Qed.

Lemma find_pool nt nc (rows : list (Z * list pool_t)) t c :
  Z.of_nat (length rows) = nt -> Forall (fun x => Z.of_nat (length (snd x)) = nc) rows -> 0 <= t < nt -> 0 <= c < nc ->
  exists R1 a P1 p P2 R2, rows = R1 ++ (a, P1 ++ p :: P2) :: R2 /\ t = Z.of_nat (length R1) /\ c = Z.of_nat (length P1).
Proof.
  intros Hl Hf Ht Hc. destruct (lookup_lt_is_Some_2 rows (Z.to_nat t)) as [[a ps] Hr]; [lia|].
  rewrite Forall_lookup in Hf. specialize (Hf _ _ Hr). simpl in Hf.
  destruct (lookup_lt_is_Some_2 ps (Z.to_nat c)) as [p Hp]; [lia|].
  apply list_elem_of_split_length in Hr as (R1 & R2 & -> & HR), Hp as (P1 & P2 & -> & HP).
  exists R1, a, P1, p, P2, R2. split_and!; [done|lia|lia].
Qed.

Lemma covered_keeps ps p p' r : keeps p p' -> covered (p :: ps) r -> covered (p' :: ps) r.
Proof.
  intros Hk (q & b & Hq & Hb & Hw). apply elem_of_cons in Hq as [->|Hq].
  - destruct (Hk b Hb) as (b' & Hb' & Hc & Hs). exists p', b'. split_and!; [left|done|].
    unfold within, used in *. simpl in *. rewrite Hc. lia.
  - exists q, b. split_and!; [by right|done|done].
Qed.

#[global] Instance covered_perm : Proper ((≡ₚ) ==> eq ==> iff) covered.
Proof. intros l k HP r ? <-. unfold covered. by setoid_rewrite HP. Qed.

Lemma within_trans x y z : within x y -> within y z -> within x z.
Proof. unfold within. lia. Qed.

(** A call works on one pool: its own regions, the rest, and the state when the pool is stored. *)
Lemma inv_focus nt nc growth base r0 given w t c :
  inv nt nc growth base r0 given w -> 0 <= t < nt -> 0 <= c < nc ->
  exists p rest,
    (forall Q : pool_t -> world -> Prop, Q p w -> wp (get_pool t c) w Q) /\
    pool_ok W p /\ blockGrowthFactor p = growth /\ live w ≡ₚ pool_regions p ++ rest /\
    (forall r, r ∈ given -> (exists b, b ∈ blocks p /\ within r (used b)) \/ (exists s, s ∈ rest /\ within r s)) /\
    forall w' p' leak' given',
      heap_ok (live w') -> global_memoryPtr w' = global_memoryPtr w ->
      pool_ok W p' -> blockGrowthFactor p' = growth -> keeps p p' ->
      live w' ≡ₚ leak' ++ pool_regions p' ++ rest -> (refused w + length leak' <= refused w')%nat ->
      apart given' -> Forall (fun r => r ∈ given \/ exists b, b ∈ blocks p' /\ within r (used b)) given' ->
      forall Q : unit -> world -> Prop,
      (forall w'', inv nt nc growth base r0 given' w'' -> refused w'' = refused w' -> Q tt w'') ->
      wp (set_pool t c (Some p')) w' Q.
Proof.
  intros [Hok (g & pa & rows & leak & Hg & Hl & Hnc & Hps & HP & Hlk & Hcov) Hap] Ht Hc.
  destruct (find_pool nt nc rows t c Hl Hnc Ht Hc) as (R1 & a & P1 & p & P2 & R2 & -> & -> & ->).
  rewrite pools_of_middle in Hps. apply Forall_cons in Hps as [[Hpok Hgr] Hps].
  rewrite regions_middle in HP. set (frame := _ ++ (row_region nc <$> R1) ++ _) in HP.
  assert (Hfull : pools (mkMemory g pa (full_row <$> R1 ++ (a, P1 ++ p :: P2) :: R2) (Some nt) (Some nc)) =
    (full_row <$> R1) ++ Some (mkRow a ((Some <$> P1) ++ Some p :: (Some <$> P2))) :: (full_row <$> R2)).
  { simpl. rewrite fmap_app, fmap_cons. unfold full_row at 2. simpl. by rewrite fmap_app, fmap_cons. }
  exists p, (leak ++ base ++ frame). split_and!; [|done|done| | |].
  - intros Q HQ. by eapply wp_get_pool; [exact Hg|exact Hfull|rewrite length_fmap..|].
  - rewrite HP. solve_Permutation.
  - intros r Hr. rewrite Forall_forall in Hcov. specialize (Hcov _ Hr). rewrite pools_of_middle in Hcov.
    destruct Hcov as (q & b & Hq & Hb & Hw). apply elem_of_cons in Hq as [->|Hq]; [left; by exists b|]. right.
    exists (contents b, capacity b + 1). split.
    + unfold frame. rewrite !elem_of_app. right. right. left. apply list_elem_of_bind. exists q. split; [|done].
      unfold Memory.pool_regions. right. apply list_elem_of_bind. exists b. split; [left|done].
    + rewrite Forall_forall in Hps. destruct (Hps _ Hq) as [(_ & Hbs & _) _]. rewrite Forall_forall in Hbs.
      destruct (Hbs _ Hb) as (? & ?). eapply within_trans; [exact Hw|]. unfold within, used. simpl. lia.
  - intros w' p' leak' given' Hok' Hg' Hp' Hgr' Hk HP' Hlk' Hap' Hcov' Q HQ. rewrite Hg in Hg'.
    eapply wp_set_pool; [exact Hg'|exact Hfull|by rewrite length_fmap..|]. apply HQ; [|done].
    split; [done| |done]. exists g, pa, (R1 ++ (a, P1 ++ p' :: P2) :: R2), (leak' ++ leak). simpl. split_and!.
    + unfold with_pools. simpl. rewrite fmap_app, fmap_cons. unfold full_row at 4. simpl. by rewrite fmap_app, fmap_cons.
    + rewrite <- Hl, !length_app. simpl. lia.
    + rewrite Forall_app, Forall_cons in Hnc |- *. simpl in *. rewrite length_app in *. simpl in *. naive_solver.
    + rewrite pools_of_middle. by apply Forall_cons.
    + rewrite HP', regions_middle. fold frame. solve_Permutation.
    + rewrite length_app. lia.
    + rewrite Forall_forall in Hcov, Hcov' |- *. intros r Hr. rewrite pools_of_middle. destruct (Hcov' r Hr) as [Hr'|(b & Hb & Hw)].
      * specialize (Hcov _ Hr'). rewrite pools_of_middle in Hcov. by eapply covered_keeps.
      * exists p', b. split_and!; [left|done|done].
Qed.

Lemma align_ok a : 0 < a -> a + 7 < 2 ^ W ->
  let a' := if a mod 8 =? 0 then a else size_t W (a + (8 - a mod 8)) in a' mod 8 = 0 /\ a <= a' <= a + 7.
Proof.
  intros Ha Hb. simpl. destruct (Z.eqb_spec (a mod 8) 0) as [He|He]; [lia|].
  assert (0 <= a mod 8 < 8) by mlia. rewrite size_t_small by lia. split; [|lia].
  replace (a + (8 - a mod 8)) with ((a / 8 + 1) * 8) by mlia. apply Z_mod_mult.
Qed.

Lemma memory_get_color_spec nt nc growth base r0 given w t n c :
  SIMULATOR = false -> inv nt nc growth base r0 given w ->
  0 <= t < nt -> 0 <= c < nc -> 0 <= n -> (n + 7) * growth < 2 ^ (W - 1) ->
  wp (memory_get_color W malloc SIMULATOR t n c) w (fun r w' =>
    (refused w <= refused w')%nat /\
    match r with
    | Some a => 0 < a /\ a mod 8 = 0 /\ inv nt nc growth base r0 ((a, n) :: given) w'
    | None => (refused w < refused w')%nat /\ inv nt nc growth base r0 given w'
    end).
Proof.
  intros Hsim Hinv Ht Hc Hn Hng. pose proof Hinv as [Hok _ Hap].
  destruct (inv_focus _ _ _ _ _ _ _ _ _ Hinv Ht Hc) as (p & rest & Hget & Hp & Hgr & HP & Hgiven & Hset).
  pose proof Hp as (_ & _ & Hg & _). pose proof word_bound as [Hb _]. subst growth.
  assert (n + 7 <= (n + 7) * blockGrowthFactor p) by nia.
  unfold memory_get_color. apply wp_bind, Hget, wp_bind. rewrite (size_t_small (n + 7)) by lia.
  eapply wp_mono; [apply (getMemoryFromPool_spec p (n + 7) w rest); [done|lia|done..]|].
  intros [p' d] w' (Hok' & Hgl & Hp' & Hgr' & Hk & (leak & HP' & Hlk) & Hd). simpl in *. apply wp_bind. destruct d as [a|].
  - destruct Hd as (Ha & Haw & (b & Hb' & Hw) & Hdr & Hdb). destruct (align_ok a Ha ltac:(lia)) as [Hal Hle].
    set (a' := if a mod 8 =? 0 then a else _) in *.
    assert (Hin : within (a', n) (a, n + 7)) by (unfold within; simpl; lia).
    apply (Hset w' p' leak ((a', n) :: given)); [done..| | |].
    + split; [|done]. apply Forall_forall. intros r Hr. apply (within_disj _ (a, n + 7)); [done|]. apply disj_sym.
      destruct (Hgiven r Hr) as [(b0 & Hb0 & Hw0)|(s & Hs & Hw0)]; (eapply within_disj; [exact Hw0|apply disj_sym]).
      * by apply Hdb.
      * rewrite Forall_forall in Hdr. by apply Hdr.
    + apply Forall_cons. split; [right; exists b; split; [done|by eapply within_trans]|]. apply Forall_forall. by left.
    + intros w'' Hinv' Hrf. apply wp_ret. split; [lia|]. split_and!; [lia|done|done].
  - apply (Hset w' p' leak given); [done..| |].
    + apply Forall_forall. by left.
    + intros w'' Hinv' Hrf. apply wp_ret. split; [lia|]. split; [lia|done].
Qed.

Lemma memory_prealloc_spec nt nc growth base r0 given w t n c :
  SIMULATOR = false -> inv nt nc growth base r0 given w ->
  0 <= t < nt -> 0 <= c < nc -> 0 <= n -> n * growth < 2 ^ (W - 1) ->
  wp (memory_prealloc W malloc SIMULATOR t n c) w (fun _ w' =>
    (refused w <= refused w')%nat /\ inv nt nc growth base r0 given w').
Proof.
  intros -> Hinv Ht Hc Hn Hng. pose proof Hinv as [Hok _ Hap].
  destruct (inv_focus _ _ _ _ _ _ _ _ _ Hinv Ht Hc) as (p & rest & Hget & Hp & Hgr & HP & _ & Hset).
  pose proof Hp as (Hne & Hbs & Hg & _). pose proof word_bound as [Hb _]. subst growth.
  assert (n <= n * blockGrowthFactor p) by nia. destruct (blocks p) as [|b bs] eqn:Hbl; [done|].
  apply Forall_cons in Hbs as [(H1 & H2 & _) _].
  unfold memory_prealloc. apply wp_bind, Hget, wp_bind, (wp_the _ b); [by rewrite Hbl|].
  rewrite size_t_small, sN_small by lia. destruct (Z.ltb_spec (capacity b) (size b + n)); [|by apply wp_ret].
  apply wp_bind, wp_assert; [done|]. apply wp_bind. eapply wp_mono; [apply (addBlockToPool_spec p n w rest); [lia|done..]|].
  intros [p' r] w' (Hok' & Hgl & Hp' & Hgr' & Hpost). simpl in *.
  assert (Hk : keeps p p' /\ exists leak, live w' ≡ₚ leak ++ pool_regions p' ++ rest /\ (refused w + length leak <= refused w')%nat).
  { destruct r as [b'|].
    - destruct Hpost as (HP' & Hrf & Hbl' & _). split.
      + intros b0 Hb0. exists b0. rewrite Hbl'. split_and!; [by right|done|lia].
      + exists []. simpl. split; [done|lia].
    - destruct Hpost as (-> & Hrf & leak & HP' & Hlk). split; [apply keeps_refl|]. exists leak. split; [done|lia]. }
  destruct Hk as (Hk & leak & HP' & Hlk). apply (Hset w' p' leak given); [done..| |].
  - apply Forall_forall. by left.
  - intros w'' Hinv' Hrf. split; [lia|done].
Qed.

(** ** Sequences of calls *)

Definition call_ok (nt nc growth : Z) (k : call) : Prop :=
  match k with
  | Prealloc t n c => 0 <= t < nt /\ 0 <= c < nc /\ 0 <= n /\ n * growth < 2 ^ (W - 1)
  | Get t n c => 0 <= t < nt /\ 0 <= c < nc /\ 0 <= n /\ (n + 7) * growth < 2 ^ (W - 1)
  end.

(** The region a call was given. *)
Definition given_by (x : call * option Z) : option region :=
  match x with (Get _ n _, Some a) => Some (a, n) | _ => None end.

Definition answered (x : call * option Z) : Prop :=
  match x with (Get _ _ _, r) => is_Some r | (Prealloc _ _ _, _) => True end.

Lemma inv_given_perm nt nc growth base r0 given given' w :
  given ≡ₚ given' -> inv nt nc growth base r0 given w -> inv nt nc growth base r0 given' w.
Proof.
  intros HP [Hok (g & pa & rows & leak & H1 & H2 & H3 & H4 & H5 & H6 & H7) Hap].
  split; [done| |by rewrite <- HP]. exists g, pa, rows, leak. split_and!; try done. by rewrite <- HP.
Qed.

Lemma perform_all_spec nt nc growth base r0 l : SIMULATOR = false -> forall given w,
  inv nt nc growth base r0 given w -> Forall (call_ok nt nc growth) l ->
  wp (perform_all W malloc SIMULATOR l) w (fun rs w' =>
    fst <$> rs = l /\ inv nt nc growth base r0 (omap given_by rs ++ given) w' /\
    Forall (fun r => 0 < fst r /\ fst r mod 8 = 0) (omap given_by rs) /\
    (refused w <= refused w')%nat /\ (refused w' = refused w -> Forall answered rs)).
Proof.
  intros Hsim. induction l as [|k l IH]; intros given w Hinv Hl.
  { apply wp_ret. split_and!; (done || (simpl; lia)). }
  apply Forall_cons in Hl as [Hk Hl]. cbn [perform_all]. apply wp_bind. destruct k as [t n c|t n c]; simpl in Hk; unfold perform.
  - destruct Hk as (H1 & H2 & H3 & H4). apply wp_bind.
    eapply wp_mono; [by eapply memory_prealloc_spec|]. intros [] w1 [Hrf Hinv1]. apply wp_ret, wp_bind.
    eapply wp_mono; [by apply (IH given)|]. intros rs w2 (K1 & K2 & K3 & K4 & K5). apply wp_ret. simpl.
    split_and!; [by f_equal|done|done|lia|]. intros Heq. apply Forall_cons. split; [done|]. apply K5. lia.
  - destruct Hk as (H1 & H2 & H3 & H4). eapply wp_mono; [by eapply memory_get_color_spec|].
    intros r w1 [Hrf Hr]. apply wp_bind. destruct r as [a|].
    + destruct Hr as (Ha & Ham & Hinv1). eapply wp_mono; [by apply (IH ((a, n) :: given))|].
      intros rs w2 (K1 & K2 & K3 & K4 & K5). apply wp_ret. simpl. split_and!; [by f_equal| |by apply Forall_cons|lia|].
      * eapply inv_given_perm; [|exact K2]. solve_Permutation.
      * intros Heq. apply Forall_cons. split; [by eexists|]. apply K5. lia.
    + destruct Hr as (Hr & Hinv1). eapply wp_mono; [by apply (IH given)|].
      intros rs w2 (K1 & K2 & K3 & K4 & K5). apply wp_ret. simpl. split_and!; [by f_equal|done|done|lia|lia].
Qed.

(** ** Freeing *)

Definition freed (w : world) (rest : list region) (w' : world) : Prop :=
  refused w' = refused w /\ global_memoryPtr w' = global_memoryPtr w /\ heap_ok (live w') /\ live w' ≡ₚ rest.

Lemma heap_ok_tail r l : heap_ok (r :: l) -> heap_ok l.
Proof. intros [Hr [_ Ha]]. apply Forall_cons in Hr as [_ Hr]. by split. Qed.

Lemma free_spec a n w rest : heap_ok (live w) -> live w ≡ₚ (a, n) :: rest -> wp (free a) w (fun _ w' => freed w rest w').
Proof.
  intros Hok HP. apply (wp_free W a n w rest); [done|done|]. intros l' Hl'. split_and!; [done|done| |done].
  simpl. rewrite Hl'. rewrite HP in Hok. by eapply heap_ok_tail.
Qed.

Lemma freed_trans w1 w2 w3 l2 l3 : freed w1 l2 w2 -> freed w2 l3 w3 -> freed w1 l3 w3.
Proof. intros (H1 & H2 & H3 & H4) (K1 & K2 & K3 & K4). split_and!; (done || congruence). Qed.

Lemma freeBlocks_spec bs color : forall w rest, heap_ok (live w) -> live w ≡ₚ (bs ≫= block_regions) ++ rest ->
  wp (freeBlocks bs color) w (fun _ w' => freed w rest w').
Proof.
  induction bs as [|b bs IH]; intros w rest Hok HP; cbn [freeBlocks]; [by apply wp_ret|].
  apply wp_bind. rewrite bind_cons in HP.
  eapply wp_mono; [apply (IH w (block_regions b ++ rest) Hok); rewrite HP; solve_Permutation|].
  intros [] w1 F1. unfold freeBlock, color_free. apply wp_bind. destruct F1 as (E1 & E2 & E3 & E4).
  eapply wp_mono; [by apply (free_spec (contents b) (capacity b + 1) w1 ((b_addr b, sizeof_block W) :: rest))|]. intros [] w2 F2.
  destruct F2 as (G1 & G2 & G3 & G4). eapply wp_mono; [by apply (free_spec (b_addr b) (sizeof_block W) w2 rest)|].
  intros [] w3 (K1 & K2 & K3 & K4). split_and!; (done || congruence).
Qed.

Lemma freePool_spec p w rest : heap_ok (live w) -> live w ≡ₚ pool_regions p ++ rest -> wp (freePool p) w (fun _ w' => freed w rest w').
Proof.
  intros Hok HP. unfold freePool. apply wp_bind.
  eapply wp_mono; [apply (freeBlocks_spec (blocks p) _ w ((p_addr p, sizeof_pool W) :: rest) Hok); rewrite HP; unfold Memory.pool_regions; solve_Permutation|].
  intros [] w1 F1. pose proof F1 as (_ & _ & Hok1 & HP1). eapply wp_mono; [by eapply free_spec|].
  intros [] w2 F2. by eapply freed_trans.
Qed.

Lemma free_colors_spec m i a l1 l2 ps : pools m = l1 ++ Some (mkRow a (Some <$> ps)) :: l2 -> i = Z.of_nat (length l1) ->
  forall qs es w rest, ps = es ++ qs -> global_memoryPtr w = Some m -> heap_ok (live w) -> live w ≡ₚ (qs ≫= pool_regions) ++ rest ->
  wp (free_colors (length qs) i (Z.of_nat (length es))) w (fun _ w' => freed w rest w').
Proof.
  intros Hp Hi. induction qs as [|q qs IH]; intros es w rest -> Hg Hok HP; cbn [free_colors length]; [by apply wp_ret|].
  apply wp_bind. rewrite fmap_app, fmap_cons in Hp. eapply wp_get_pool; [exact Hg|exact Hp|done|by rewrite length_fmap|].
  apply wp_bind. rewrite bind_cons, <- app_assoc in HP. eapply wp_mono; [by apply freePool_spec|].
  intros [] w1 F1. pose proof F1 as (_ & E2 & E3 & E4).
  replace (Z.of_nat (length es) + 1) with (Z.of_nat (length (es ++ [q]))) by (rewrite length_app; simpl; lia).
  eapply wp_mono; [apply (IH (es ++ [q]) w1 rest); [by rewrite <- app_assoc|congruence|done|done]|].
  intros [] w2 F2. by eapply freed_trans.
Qed.

Lemma free_pools_spec m nc rows : pools m = full_row <$> rows -> Forall (fun x => Z.of_nat (length (snd x)) = nc) rows ->
  forall qs es w rest, rows = es ++ qs -> global_memoryPtr w = Some m -> heap_ok (live w) -> live w ≡ₚ (pools_of qs ≫= pool_regions) ++ rest ->
  wp (free_pools (length qs) (Z.of_nat (length es)) nc) w (fun _ w' => freed w rest w').
Proof.
  intros Hp Hnc. induction qs as [|[a ps] qs IH]; intros es w rest -> Hg Hok HP; cbn [free_pools length]; [by apply wp_ret|].
  apply wp_bind. rewrite Forall_app, Forall_cons in Hnc. destruct Hnc as (Hnc1 & Hps & Hnc2). simpl in Hps.
  rewrite <- Hps, Nat2Z.id. rewrite fmap_app, fmap_cons in Hp. unfold pools_of in HP. rewrite bind_cons, bind_app, <- app_assoc in HP.
  eapply wp_mono; [by eapply (free_colors_spec m _ a _ _ ps Hp ltac:(by rewrite length_fmap) ps [] w)|].
  intros [] w1 F1. pose proof F1 as (_ & E2 & E3 & E4).
  replace (Z.of_nat (length es) + 1) with (Z.of_nat (length (es ++ [(a, ps)]))) by (rewrite length_app; simpl; lia).
  rewrite Hps. eapply wp_mono; [apply (IH (es ++ [(a, ps)]) w1 rest); [by rewrite <- app_assoc|congruence|done|done]|].
  intros [] w2 F2. by eapply freed_trans.
Qed.

Lemma free_rows_spec m nc rows : pools m = full_row <$> rows ->
  forall qs es w rest, rows = es ++ qs -> global_memoryPtr w = Some m -> heap_ok (live w) -> live w ≡ₚ (row_region nc <$> qs) ++ rest ->
  wp (free_rows (length qs) (Z.of_nat (length es))) w (fun _ w' => freed w rest w').
Proof.
  intros Hp. induction qs as [|[a ps] qs IH]; intros es w rest -> Hg Hok HP; cbn [free_rows length]; [by apply wp_ret|].
  apply wp_bind. pose proof Hp as Hp'. rewrite fmap_app, fmap_cons in Hp'. eapply wp_get_row; [exact Hg|exact Hp'|by rewrite length_fmap|].
  apply wp_bind. rewrite fmap_cons in HP. simpl. eapply wp_mono; [by eapply free_spec|].
  intros [] w1 F1. pose proof F1 as (_ & E2 & E3 & E4).
  replace (Z.of_nat (length es) + 1) with (Z.of_nat (length (es ++ [(a, ps)]))) by (rewrite length_app; simpl; lia).
  eapply wp_mono; [apply (IH (es ++ [(a, ps)]) w1 rest); [by rewrite <- app_assoc|congruence|done|done]|].
  intros [] w2 F2. by eapply freed_trans.
Qed.

Lemma memory_destroy_spec nt nc growth base r0 given w : inv nt nc growth base r0 given w ->
  wp memory_destroy w (fun _ w' => refused w' = refused w /\
    exists leak, live w' ≡ₚ leak ++ base /\ (r0 + length leak <= refused w)%nat).
Proof.
  intros [Hok (g & pa & rows & leak & Hg & <- & Hnc & Hps & HP & Hlk & _) _]. unfold memory_destroy.
  apply wp_bind. eapply wp_get_global; [exact Hg|]. simpl.
  do 2 apply wp_bind, wp_ret. rewrite Nat2Z.id. apply wp_bind.
  set (m := mkMemory _ _ _ _ _) in Hg.
  set (tl := leak ++ base ++ [(pa, Z.of_nat (length rows) * word_size W); (g, sizeof_memory W)]).
  eapply wp_mono; [apply (free_pools_spec m nc rows eq_refl Hnc rows [] w ((row_region nc <$> rows) ++ tl)); [done|done|done|]|].
  { rewrite HP. unfold regions, tl. solve_Permutation. }
  intros [] w1 (E1 & E2 & E3 & E4). apply wp_bind.
  eapply wp_mono; [apply (free_rows_spec m nc rows eq_refl rows [] w1 tl); [done|congruence|done|done]|].
  intros [] w2 (F1 & F2 & F3 & F4). apply wp_bind.
  eapply wp_mono; [eapply (free_spec pa _ w2 (leak ++ base ++ [(g, sizeof_memory W)])); [done|rewrite F4; unfold tl; solve_Permutation]|].
  intros [] w3 (G1 & G2 & G3 & G4). apply wp_bind.
  eapply wp_mono; [eapply (free_spec g _ w3 (leak ++ base)); [done|rewrite G4; solve_Permutation]|].
  intros [] w4 (K1 & K2 & K3 & K4). split; [simpl; congruence|]. exists leak. done.
Qed.


(** ** Initialisation *)

(** What the loops add: regions [new] in the state [m'], or a refusal. *)
Definition built (w : world) (ok : bool) (new : list region) (m' : option memory) (w' : world) : Prop :=
  if ok then heap_ok (live w') /\ refused w' = refused w /\ live w' ≡ₚ new ++ live w /\ global_memoryPtr w' = m'
  else (refused w < refused w')%nat.

Definition effective (x default : Z) : Z := if 0 <? x then x else default.

Lemma allocPool_spec init growth color w : 0 <= init -> init + 1 < 2 ^ W ->
  Z.even (effective growth DEFAULT_BLOCK_GROWTH_FACTOR) = true -> heap_ok (live w) ->
  wp (allocPool W malloc init growth color) w (fun r w' =>
    global_memoryPtr w' = global_memoryPtr w /\
    match r with
    | Some p => built w true (pool_regions p) (global_memoryPtr w) w' /\ pool_ok W p /\
        blockGrowthFactor p = effective growth DEFAULT_BLOCK_GROWTH_FACTOR
    | None => (refused w < refused w')%nat
    end).
Proof.
  intros Hi Hi' Hge Hok. pose proof sizes_ok as [Hs1 Hs2]. unfold allocPool, color_malloc.
  apply wp_bind, wp_malloc; [done| |].
  - intros a l -> Hl _. rewrite (alloc_size (sizeof_pool W)) in Hl |- * by (unfold sizeof_pool; lia).
    change (if 0 <? init then init else _) with (effective init DEFAULT_INIT_BLOCK_CAPACITY).
    change (if 0 <? growth then growth else _) with (effective growth DEFAULT_BLOCK_GROWTH_FACTOR).
    assert (He : 0 < effective init DEFAULT_INIT_BLOCK_CAPACITY /\ effective init DEFAULT_INIT_BLOCK_CAPACITY + 1 < 2 ^ W).
    { unfold effective, DEFAULT_INIT_BLOCK_CAPACITY. pose proof word_bound. destruct (Z.ltb_spec 0 init); lia. }
    assert (0 < effective growth DEFAULT_BLOCK_GROWTH_FACTOR).
    { unfold effective, DEFAULT_BLOCK_GROWTH_FACTOR. destruct (Z.ltb_spec 0 growth); lia. }
    destruct He. apply wp_bind. eapply wp_mono; [by apply allocBlock_spec|]. intros [b|] w1 (Hok1 & Hg & Hpost); apply wp_ret; simpl in *.
    + destruct Hpost as (HP & Hrf & Hbk & _ & _). split_and!; [done|done|done| |done| |done].
      * rewrite HP. unfold Memory.pool_regions. simpl. solve_Permutation.
      * unfold pool_ok. simpl. split_and!; [done|by apply Forall_singleton|done|done|apply size_t_range|apply size_t_range|].
        apply size_t_even. rewrite Z.even_mul, Hge. apply orb_true_r.
    + split; [done|lia].
  - apply wp_ret. simpl. split; [done|lia].
Qed.

Definition blank (nc : Z) (a : Z) : option row := Some (mkRow a (replicate (Z.to_nat nc) None)).

Lemma array_of_length {A} n : 0 <= n -> n * word_size W < 2 ^ W -> array_of W n = replicate (Z.to_nat n) (@None A).
Proof. intros Hn Hb. pose proof sizes_ok. unfold array_of. rewrite size_t_small by nia. by rewrite Z.div_mul by lia. Qed.

Lemma row_loop_spec nc m : 0 <= nc -> nc * word_size W < 2 ^ W -> forall k addrs w,
  heap_ok (live w) -> global_memoryPtr w = Some (with_pools m ((blank nc <$> addrs) ++ replicate k None)) ->
  wp (row_loop W malloc k (Z.of_nat (length addrs)) nc) w (fun ok w' => exists new, length new = k /\
    built w ok ((fun a => (a, Z.max 1 (nc * word_size W))) <$> new) (Some (with_pools m (blank nc <$> addrs ++ new))) w').
Proof.
  intros Hnc Hb. pose proof sizes_ok as [Hs _]. induction k as [|k IH]; intros addrs w Hok Hg; cbn [row_loop].
  { apply wp_ret. exists []. simpl in *. rewrite !app_nil_r in *. split_and!; done. }
  apply wp_bind, wp_malloc; [done| |].
  - intros a l -> Hl _. rewrite size_t_small in Hl |- * by nia. apply wp_bind.
    eapply wp_set_row; [exact Hg|reflexivity|by rewrite length_fmap|]. rewrite array_of_length by done.
    replace (Z.of_nat (length addrs) + 1) with (Z.of_nat (length (addrs ++ [a]))) by (rewrite length_app; simpl; lia).
    eapply wp_mono; [apply (IH (addrs ++ [a])); [done|]|].
    + simpl. unfold with_pools. simpl. rewrite fmap_app. simpl. by rewrite <- app_assoc.
    + intros ok w' (new & Hn & Hbt). exists (a :: new). split; [simpl; lia|]. unfold built in *. simpl in *. destruct ok; [|done].
      destruct Hbt as (H1 & H2 & H3 & H4). split_and!; [done|done|rewrite H3; solve_Permutation|]. by rewrite <- app_assoc in H4.
  - apply wp_bind. eapply wp_set_row; [exact Hg|reflexivity|by rewrite length_fmap|]. apply wp_ret.
    exists (replicate (S k) 0). rewrite length_replicate. split; [done|]. simpl. lia.
Qed.

Lemma color_loop_spec init growth m l1 a l2 i : 0 <= init -> init + 1 < 2 ^ W ->
  Z.even (effective growth DEFAULT_BLOCK_GROWTH_FACTOR) = true -> i = Z.of_nat (length l1) -> forall k ps w,
  heap_ok (live w) -> global_memoryPtr w = Some (with_pools m (l1 ++ Some (mkRow a ((Some <$> ps) ++ replicate k None)) :: l2)) ->
  wp (color_loop W malloc k i (Z.of_nat (length ps)) init growth) w (fun ok w' => exists new, length new = k /\
    Forall (fun p => ok = true -> pool_ok W p /\ blockGrowthFactor p = effective growth DEFAULT_BLOCK_GROWTH_FACTOR) new /\
    built w ok (new ≫= pool_regions) (Some (with_pools m (l1 ++ Some (mkRow a (Some <$> ps ++ new)) :: l2))) w').
Proof.
  intros H1 H2 H3 ->. induction k as [|k IH]; intros ps w Hok Hg; cbn [color_loop].
  { apply wp_ret. exists []. simpl in *. rewrite !app_nil_r in *. split_and!; done. }
  apply wp_bind. eapply wp_mono; [by apply allocPool_spec|]. intros [p|] w1 [Hg1 Hp]; apply wp_bind; rewrite Hg in Hg1;
    (eapply wp_set_pool; [exact Hg1|reflexivity|done|by rewrite length_fmap|]).
  - destruct Hp as ((Hok1 & Hrf1 & HP1 & _) & Hpok & Hgr).
    replace (Z.of_nat (length ps) + 1) with (Z.of_nat (length (ps ++ [p]))) by (rewrite length_app; simpl; lia).
    eapply wp_mono; [apply (IH (ps ++ [p])); [done|]|].
    + simpl. unfold with_pools. simpl. rewrite fmap_app. simpl. by rewrite <- app_assoc.
    + intros ok w' (new & Hn & Hf & Hbt). exists (p :: new). split_and!; [simpl; lia|by apply Forall_cons|].
      unfold built in *. simpl in *. destruct ok; [|lia]. destruct Hbt as (K1 & K2 & K3 & K4).
      split_and!; [done|congruence|rewrite K3, HP1; solve_Permutation|]. by rewrite <- app_assoc in K4.
  - apply wp_ret. exists (replicate (S k) (mkPool 0 [] 0 0 0 0)). rewrite length_replicate. split_and!; [done| |simpl; lia].
    by apply Forall_forall.
Qed.

Lemma thread_loop_spec init growth nc m : 0 <= init -> init + 1 < 2 ^ W -> 0 <= nc ->
  Z.even (effective growth DEFAULT_BLOCK_GROWTH_FACTOR) = true -> forall addrs rows w,
  heap_ok (live w) -> global_memoryPtr w = Some (with_pools m ((full_row <$> rows) ++ (blank nc <$> addrs))) ->
  wp (thread_loop W malloc (length addrs) (Z.of_nat (length rows)) init growth nc) w (fun ok w' =>
    if ok then exists new, fst <$> new = addrs /\ Forall (fun x => Z.of_nat (length (snd x)) = nc) new /\
      Forall (fun p => pool_ok W p /\ blockGrowthFactor p = effective growth DEFAULT_BLOCK_GROWTH_FACTOR) (pools_of new) /\
      built w true (pools_of new ≫= pool_regions) (Some (with_pools m (full_row <$> rows ++ new))) w'
    else (refused w < refused w')%nat).
Proof.
  intros H1 H2 Hnc H3. induction addrs as [|a addrs IH]; intros rows w Hok Hg; cbn [thread_loop length].
  { apply wp_ret. exists []. simpl in *. rewrite !app_nil_r in *. split_and!; done. }
  apply wp_bind. eapply wp_mono; [by eapply (color_loop_spec init growth m (full_row <$> rows) a (blank nc <$> addrs) _ H1 H2 H3
    ltac:(by rewrite length_fmap) (Z.to_nat nc) [] w)|].
  intros ok w1 (ps & Hlen & Hf & Hbt). destruct ok; [|by apply wp_ret]. destruct Hbt as (K1 & K2 & K3 & K4).
  replace (Z.of_nat (length rows) + 1) with (Z.of_nat (length (rows ++ [(a, ps)]))) by (rewrite length_app; simpl; lia).
  eapply wp_mono; [apply (IH (rows ++ [(a, ps)])); [done|]|].
  - rewrite K4, (fmap_app full_row). simpl. by rewrite <- app_assoc.
  - intros ok w2 Hpost. destruct ok; [|by rewrite K2 in Hpost]. destruct Hpost as (new & E1 & E2 & E3 & F1 & F2 & F3 & F4).
    exists ((a, ps) :: new). unfold pools_of in *. rewrite !bind_cons, Forall_app, bind_app. simpl in *. split_and!.
    + by f_equal.
    + apply Forall_cons. split; [simpl; lia|done].
    + eapply Forall_impl; [exact Hf|]. simpl. auto.
    + done.
    + done.
    + congruence.
    + rewrite F3, K3. solve_Permutation.
    + by rewrite <- app_assoc in F4.
Qed.

Lemma memory_init_colors_spec nt nc init growth w : 0 < nt -> nt * word_size W < 2 ^ W -> 0 <= nc -> nc * word_size W < 2 ^ W ->
  0 <= init -> init + 1 < 2 ^ W -> Z.even (effective growth DEFAULT_BLOCK_GROWTH_FACTOR) = true -> heap_ok (live w) ->
  wp (memory_init_colors W malloc nt init growth nc) w (fun ok w' =>
    if ok then refused w' = refused w /\
      inv nt nc (effective growth DEFAULT_BLOCK_GROWTH_FACTOR) (live w) (refused w) [] w'
    else (refused w < refused w')%nat).
Proof.
  intros Hnt Hntb Hnc Hncb Hi Hi' Hge Hok. pose proof sizes_ok as [Hs1 Hs2]. unfold memory_init_colors.
  apply wp_bind, wp_assert; [by apply Z.ltb_lt|]. apply wp_bind, wp_malloc; [done| |apply wp_bind, wp_set_global, wp_ret; simpl; lia].
  intros g l -> Hl _. apply wp_bind, wp_malloc; [done| |apply wp_bind, wp_set_global, wp_ret; simpl; lia].
  intros pa l -> Hl' _. cbn [live] in Hl'. rewrite (alloc_size (sizeof_memory W)), (alloc_size (nt * word_size W)) in Hl' |- *
    by (unfold sizeof_memory; nia).
  apply wp_bind, wp_set_global. cbn [live refused]. rewrite array_of_length by lia. apply wp_bind.
  set (m := mkMemory g pa _ None None). set (w1 := mkWorld _ _ (Some m)).
  eapply wp_mono; [by apply (row_loop_spec nc m Hnc Hncb (Z.to_nat nt) [] w1)|].
  intros ok w2 (addrs & Hal & Hbt). destruct ok; [|apply wp_ret; done]. destruct Hbt as (E1 & E2 & E3 & E4). simpl.
  apply wp_bind. rewrite <- Hal. eapply wp_mono; [by apply (thread_loop_spec init growth nc m Hi Hi' Hnc Hge addrs [] w2)|].
  intros ok w3 Hpost. destruct ok; [|apply wp_ret; simpl; by rewrite E2 in Hpost].
  destruct Hpost as (rows & F1 & F2 & F3 & G1 & G2 & G3 & G4). simpl.
  apply wp_bind. eapply wp_get_global; [exact G4|]. apply wp_bind, wp_set_global, wp_ret. split; [simpl; by rewrite G2, E2|].
  split; [done| |done]. exists g, pa, rows, []. simpl. split_and!; [done| |done|done| |rewrite G2, E2; simpl; lia|done].
  - rewrite <- (length_fmap fst rows), F1. lia.
  - rewrite G3, E3. unfold regions, w1. simpl.
    assert ((fun a : Z => (a, Z.max 1 (nc * word_size W))) <$> addrs = row_region nc <$> rows) as ->.
    { by rewrite <- F1, <- list_fmap_compose. }
    solve_Permutation.
Qed.

End proofs.

(** C21: from initialisation to destruction, with any allocator of the C library that gives out
    regions apart from each other, threads in range and requests that do not overflow: the program
    has a result.  Initialisation fails only if an allocation was refused.  Otherwise every
    [memory_get_color] gives [NULL], which happens only if an allocation was refused, or an address
    that is a multiple of 8; the regions given lie in the bytes in use of the pools' blocks and
    never overlap; and [memory_destroy] gives everything back, save at most one region
    for every refused request. *)
Theorem memory_pools_correct W malloc nt nc init growth l w :
  32 <= W -> malloc_ok W malloc -> heap_ok W (live w) ->
  0 < nt -> nt * word_size W < 2 ^ W -> 0 <= nc -> nc * word_size W < 2 ^ W ->
  0 <= init -> init + 1 < 2 ^ W -> Z.even (effective growth DEFAULT_BLOCK_GROWTH_FACTOR) = true ->
  Forall (call_ok W nt nc (effective growth DEFAULT_BLOCK_GROWTH_FACTOR)) l ->
  exists ok w1, memory_init_colors W malloc nt init growth nc w = Some (ok, w1) /\
  (ok = false -> (refused w < refused w1)%nat) /\
  (ok = true -> exists rs w2 w3 m leak,
    perform_all W malloc false l w1 = Some (rs, w2) /\ fst <$> rs = l /\
    (refused w2 = refused w -> Forall answered rs) /\
    Forall (fun r => 0 < fst r /\ fst r mod 8 = 0) (omap given_by rs) /\
    apart (omap given_by rs) /\
    global_memoryPtr w2 = Some m /\
    Forall (fun r => exists x p b, Some x ∈ pools m /\ Some p ∈ entries x /\ b ∈ blocks p /\ within r (used b) /\ size b <= capacity b /\
      (contents b, capacity b + 1) ∈ live w2) (omap given_by rs) /\
    memory_destroy w2 = Some (tt, w3) /\ live w3 ≡ₚ leak ++ live w /\ (refused w + length leak <= refused w3)%nat).
Proof.
  intros HW Hm Hok Hnt Hntb Hnc Hncb Hi Hi' Hge Hl.
  pose proof (memory_init_colors_spec W malloc HW Hm nt nc init growth w Hnt Hntb Hnc Hncb Hi Hi' Hge Hok) as Hinit.
  unfold wp in Hinit. destruct (memory_init_colors _ _ _ _ _ _ w) as [[ok w1]|]; [|done]. exists ok, w1. split; [done|].
  split; intros ->; [done|]. destruct Hinit as [Hrf Hinv].
  pose proof (perform_all_spec W malloc false HW Hm _ _ _ _ _ l eq_refl [] w1 Hinv Hl) as Hall. unfold wp in Hall.
  destruct (perform_all _ _ _ l w1) as [[rs w2]|]; [|done]. destruct Hall as (E1 & Hinv2 & E3 & E4 & E5).
  rewrite app_nil_r in Hinv2. pose proof (memory_destroy_spec W _ _ _ _ _ _ _ Hinv2) as Hd. unfold wp in Hd.
  destruct (memory_destroy w2) as [[[] w3]|] eqn:Hdes; [|done]. destruct Hd as (D1 & leak & D2 & D3).
  destruct Hinv2 as [Hok2 (g & pa & rows & leak2 & G1 & G2 & G3 & G4 & G5 & G6 & G7) Hap].
  exists rs, w2, w3, (mkMemory g pa (full_row <$> rows) (Some nt) (Some nc)), leak.
  split_and!; [done|done|intros ?; apply E5; congruence|done|done|done| |exact Hdes|done|by rewrite D1].
  eapply Forall_impl; [exact G7|]. intros r (p & b & Hp & Hb & Hw). pose proof Hp as Hp'.
  unfold pools_of in Hp. apply list_elem_of_bind in Hp as ([a ps] & Hp & Hx). simpl in Hp.
  exists (mkRow a (Some <$> ps)), p, b. rewrite Forall_forall in G4. destruct (G4 p Hp') as [(_ & Hbs & _) _].
  rewrite Forall_forall in Hbs. destruct (Hbs b Hb) as (? & _). split_and!; [|simpl; by apply list_elem_of_fmap_2|done|done|lia|].
  - simpl. by apply (list_elem_of_fmap_2 full_row _ (a, ps)).
  - rewrite G5. unfold regions. rewrite !elem_of_app. right. right. left. apply list_elem_of_bind. exists p. split; [|done].
    unfold pool_regions. right. apply list_elem_of_bind. exists b. split; [left|done].
Qed.

(** An allocator that gives out the addresses after all regions in use, up to a limit. *)
Definition top (l : list region) : Z := foldr (fun r => Z.max (fst r + snd r)) 4 l.

Definition bump (limit : Z) (l : list region) (n : Z) : option Z :=
  if top l + n + 1 <=? limit then Some (top l) else None.

Lemma top_ge l : 4 <= top l.
Proof. unfold top. induction l as [|r l IH]; simpl; lia. Qed.

Lemma bump_ok limit : limit <= 2 ^ 31 -> malloc_ok 32 (bump limit).
Proof.
  intros Hlim l n a Hn. unfold bump. pose proof (top_ge l). destruct (Z.leb_spec (top l + n + 1) limit); [|done]. intros [= <-].
  split_and!; [lia|lia|lia|]. apply Forall_forall. intros r Hr. right. simpl.
  induction l as [|x l IH]; [by apply not_elem_of_nil in Hr|]. unfold top in *. simpl in *. apply elem_of_cons in Hr as [->|Hr]; [lia|].
  pose proof (top_ge l). unfold top in *. assert (fst r + snd r <= foldr (fun r => Z.max (fst r + snd r)) 4 l); [|lia].
  clear - Hr. induction l as [|y l IH]; [by apply not_elem_of_nil in Hr|]. simpl. apply elem_of_cons in Hr as [->|Hr]; [lia|]. specialize (IH Hr). lia.
Qed.

Definition start : world := mkWorld [] 0 None.

(** Two threads, two colours, first blocks of 16 bytes: nine bytes, then a block that grows. *)
Definition script : list call := [Get 0 9 0; Get 1 3 1; Prealloc 0 40 1; Get 0 9 0; Get 0 20 1].

Lemma memory_pools_correct_witness :
  memory_init_colors 32 (bump (2 ^ 20)) 2 16 2 2 start <> None /\ malloc_ok 32 (bump (2 ^ 20)) /\
  exists rs, omap given_by rs = [(144, 9); (496, 3); (752, 9); (592, 20)] /\ apart (omap given_by rs).
Proof.
  split; [by vm_compute|]. split; [by apply bump_ok|].
  destruct (memory_pools_correct 32 (bump (2 ^ 20)) 2 2 16 2 script start) as (ok & w1 & H1 & _ & H2).
  - lia.
  - by apply bump_ok.
  - split; [apply Forall_nil_2|done].
  - lia.
  - vm_compute. done.
  - lia.
  - vm_compute. done.
  - lia.
  - vm_compute. done.
  - vm_compute. done.
  - unfold script. repeat (apply Forall_cons; split); [..|apply Forall_nil_2]; vm_compute; intuition congruence.
  - assert (Hok : fst <$> memory_init_colors 32 (bump (2 ^ 20)) 2 16 2 2 start = Some true) by (vm_compute; reflexivity).
    rewrite H1 in Hok. injection Hok as ->. destruct (H2 eq_refl) as (rs & w2 & w3 & m & leak & Hp & _ & _ & _ & Ha & _).
    exists rs. split; [|exact Ha].
    assert (Hc : (x ← memory_init_colors 32 (bump (2 ^ 20)) 2 16 2 2 start; y ← perform_all 32 (bump (2 ^ 20)) false script (snd x);
      Some (omap (M := list) given_by (fst y))) = Some [(144, 9); (496, 3); (752, 9); (592, 20)]) by (vm_compute; reflexivity).
    rewrite H1 in Hc. cbn [mbind option_bind snd] in Hc. rewrite Hp in Hc. by injection Hc.
Defined.

(** [memory_prealloc] is said to make sure that there is enough memory for what follows, but it looks
    for [numByte] bytes where [memory_get] takes [numByte + 7]: in the simulator build, where a pool
    must not grow, the preallocation of 16 bytes passes and the request for 16 bytes fails its
    assertion. *)
Lemma prealloc_short :
  exists w1 w2, memory_init 32 (bump (2 ^ 20)) 1 16 2 start = Some (true, w1) /\
  memory_prealloc 32 (bump (2 ^ 20)) true 0 16 0 w1 = Some (tt, w2) /\
  memory_get 32 (bump (2 ^ 20)) true 0 16 w2 = None.
Proof. eexists _, _. split; [vm_compute; reflexivity|]. split; [vm_compute; reflexivity|]. vm_compute. reflexivity. Qed.

(** With an odd growth factor the capacity of a block can be the largest number, whose successor is
    0: the block then claims the whole address space, and has one byte. *)
Lemma odd_growth_wraps :
  exists p b w, addBlockToPool 32 (bump (2 ^ 20)) (mkPool 4 [] (size_t 32 (0x55555555 * 3)) 0x55555555 3 0) 1 start
    = Some ((p, Some b), w) /\ capacity b = 2 ^ 32 - 1 /\ live w = [(contents b, 1); (b_addr b, 80)].
Proof. eexists _, _, _. split; [vm_compute; reflexivity|]. split; vm_compute; reflexivity. Qed.

End Memory.
