(* ===== verification/StampAvl.v ===== *)
(** * The height-balanced tree of STAMP ([src/sws/benchmarks/stamp/lib/avltree.c])

    The second balanced tree behind STAMP's maps.  The nodes live in a heap, a finite map from
    addresses; a dereference of an address that is not in the heap has no result, and neither has
    an access outside the stacks of [HEIGHT_LIMIT] pointers or a loop that runs out of fuel.

    The macros of the file assign to the pointer they are given: the definitions return its new
    value.  A direction is a boolean, as it is the result of a comparison in the code.  The answer of
    [P_MALLOC] is the argument [rn] of [new_node] (0 for [NULL]).  The two families of functions
    ([jsw_*] and [Pjsw_*]) have the same text: one definition stands for both.  [USE_DUP_AND_REL] is
    off. *)

From S2P Require Import Prelude.

Module Avl.

(** ** Data *)

Definition HEIGHT_LIMIT : nat := 64.
Definition NULL : Z := 0.

Record jsw_avlnode_t := Node { balance : Z; data : Z; link0 : Z; link1 : Z }.

Notation heap := (gmap Z jsw_avlnode_t).

Record jsw_avltree := Avltree { root : Z; size : Z; mem : heap }.

Definition link (dir : bool) (n : jsw_avlnode_t) : Z := if dir then link1 n else link0 n.
Definition set_balance (b : Z) (n : jsw_avlnode_t) : jsw_avlnode_t := Node b (data n) (link0 n) (link1 n).
Definition set_data (d : Z) (n : jsw_avlnode_t) : jsw_avlnode_t := Node (balance n) d (link0 n) (link1 n).
Definition set_link (dir : bool) (x : Z) (n : jsw_avlnode_t) : jsw_avlnode_t :=
  if dir then Node (balance n) (data n) (link0 n) x else Node (balance n) (data n) x (link1 n).

(** Loads and stores through a pointer. *)
Definition ld {A} (f : jsw_avlnode_t -> A) (x : Z) (m : heap) : option A := n ← m !! x; Some (f n).
Definition st (f : jsw_avlnode_t -> jsw_avlnode_t) (x : Z) (m : heap) : option heap := n ← m !! x; Some (<[x := f n]> m).

(** ** The macros *)

Definition jsw_single (root : Z) (dir : bool) (m : heap) : option (Z * heap) :=
  save ← ld (link (negb dir)) root m;
  c ← ld (link dir) save m;
  m ← st (set_link (negb dir) c) root m;
  m ← st (set_link dir root) save m;
  Some (save, m).

Definition jsw_double (root : Z) (dir : bool) (m : heap) : option (Z * heap) :=
  a ← ld (link (negb dir)) root m;
  save ← ld (link dir) a m;
  c ← ld (link (negb dir)) save m;
  m ← st (set_link dir c) a m;
  a ← ld (link (negb dir)) root m;
  m ← st (set_link (negb dir) a) save m;
  m ← st (set_link (negb dir) save) root m;
  save ← ld (link (negb dir)) root m;
  c ← ld (link dir) save m;
  m ← st (set_link (negb dir) c) root m;
  m ← st (set_link dir root) save m;
  Some (save, m).

Definition jsw_adjust_balance (root : Z) (dir : bool) (bal : Z) (m : heap) : option heap :=
  n ← ld (link dir) root m;
  nn ← ld (link (negb dir)) n m;
  b ← ld balance nn m;
  m ← (if b =? 0 then m ← st (set_balance 0) n m; st (set_balance 0) root m
       else if b =? bal then m ← st (set_balance (- bal)) root m; st (set_balance 0) n m
       else m ← st (set_balance 0) root m; st (set_balance bal) n m);
  st (set_balance 0) nn m.

Definition jsw_insert_balance (root : Z) (dir : bool) (m : heap) : option (Z * heap) :=
  n ← ld (link dir) root m;
  let bal := if dir then 1 else -1 in
  b ← ld balance n m;
  if b =? bal then
    m ← st (set_balance 0) n m;
    m ← st (set_balance 0) root m;
    jsw_single root (negb dir) m
  else
    m ← jsw_adjust_balance root dir bal m;
    jsw_double root (negb dir) m.

(** The new value of the pointer, of [done], and the heap. *)
Definition jsw_remove_balance (root : Z) (dir : bool) (m : heap) : option (Z * bool * heap) :=
  n ← ld (link (negb dir)) root m;
  let bal := if dir then 1 else -1 in
  b ← ld balance n m;
  if b =? - bal then
    m ← st (set_balance 0) n m;
    m ← st (set_balance 0) root m;
    '(root, m) ← jsw_single root dir m;
    Some (root, false, m)
  else if b =? bal then
    m ← jsw_adjust_balance root (negb dir) (- bal) m;
    '(root, m) ← jsw_double root dir m;
    Some (root, false, m)
  else
    m ← st (set_balance (- bal)) root m;
    m ← st (set_balance bal) n m;
    '(root, m) ← jsw_single root dir m;
    Some (root, true, m).

(** ** Creation and destruction *)

Definition new_node (rn : Z) (data : Z) (m : heap) : heap :=
  if rn =? NULL then m else <[rn := Node 0 data NULL NULL]> m.

Definition jsw_avlnew (m : heap) : jsw_avltree := Avltree NULL 0 m.

Definition P_FREE (x : Z) (m : heap) : option heap := _ ← m !! x; Some (delete x m).

Fixpoint delete_loop (fuel : nat) (it : Z) (m : heap) : option heap :=
  if it =? NULL then Some m else
  match fuel with
  | O => None
  | S fuel =>
    l ← ld (link false) it m;
    if l =? NULL then
      save ← ld (link true) it m;
      m ← P_FREE it m;
      delete_loop fuel save m
    else
      let save := l in
      r ← ld (link true) save m;
      m ← st (set_link false r) it m;
      m ← st (set_link true it) save m;
      delete_loop fuel save m
  end.

(** A rotation takes a node off the left spine for good, so that there is at most one per node. *)
Definition jsw_avldelete (t : jsw_avltree) : option heap := delete_loop (2 * base.size (mem t)) (root t) (mem t).

(** ** Search, insertion, removal *)

Section code.
(** The comparison of the tree; the width of [size_t]. *)
Context (cmp : Z -> Z -> Z) (W : Z).

Fixpoint find_loop (fuel : nat) (it d : Z) (m : heap) : option Z :=
  if it =? NULL then Some it else
  match fuel with
  | O => None
  | S fuel =>
    x ← ld data it m;
    let c := cmp x d in
    if c =? 0 then Some it else
    it ← ld (link (c <? 0)) it m;
    find_loop fuel it d m
  end.

Definition jsw_avlfind (t : jsw_avltree) (d : Z) : option Z :=
  it ← find_loop (base.size (mem t)) (root t) d (mem t);
  if it =? NULL then Some NULL else ld data it (mem t).

(** The pointers [t], [s], [p] and the direction when the loop is left; [None] stands for [&head]. *)
Fixpoint search_loop (fuel : nat) (t : option Z) (s p d : Z) (m : heap) : option (option Z * Z * Z * bool) :=
  match fuel with
  | O => None
  | S fuel =>
    x ← ld data p m;
    let dir := cmp x d <? 0 in
    q ← ld (link dir) p m;
    if q =? NULL then Some (t, s, p, dir) else
    b ← ld balance q m;
    if b =? 0 then search_loop fuel t s q d m else search_loop fuel (Some p) q q d m
  end.

Fixpoint update_loop (fuel : nat) (p q d : Z) (m : heap) : option heap :=
  if p =? q then Some m else
  match fuel with
  | O => None
  | S fuel =>
    x ← ld data p m;
    let dir := cmp x d <? 0 in
    b ← ld balance p m;
    m ← st (set_balance (b + if dir then 1 else -1)) p m;
    p ← ld (link dir) p m;
    update_loop fuel p q d m
  end.

Definition jsw_avlinsert (t : jsw_avltree) (rn d : Z) : option (bool * jsw_avltree) :=
  let done r m := Some (true, Avltree r ((size t + 1) mod 2 ^ W) m) in
  if root t =? NULL then
    let m := new_node rn d (mem t) in
    if rn =? NULL then Some (false, Avltree rn (size t) m) else done rn m
  else
    '(tp, s, p, dir) ← search_loop (base.size (mem t)) None (root t) (root t) d (mem t);
    let m := new_node rn d (mem t) in
    m ← st (set_link dir rn) p m;
    if rn =? NULL then Some (false, Avltree (root t) (size t) m) else
    m ← update_loop (base.size m) s rn d m;
    let q := s in
    b ← ld balance s m;
    '(s, m) ← (if 1 <? Z.abs b then x ← ld data s m; jsw_insert_balance s (cmp x d <? 0) m else Some (s, m));
    if q =? root t then done s m else
    match tp with
    | None => done (root t) m
    | Some tp => r ← ld (link true) tp m; m ← st (set_link (q =? r) s) tp m; done (root t) m
    end.

(** The stacks [up] and [upd] together, the top first. *)
Definition stack : Type := list (Z * bool).

Definition push (x : Z) (dir : bool) (up : stack) : option stack :=
  if (length up <? HEIGHT_LIMIT)%nat then Some ((x, dir) :: up) else None.

Fixpoint erase_search (fuel : nat) (it d : Z) (up : stack) (m : heap) : option (Z * stack) :=
  if it =? NULL then Some (NULL, up) else
  match fuel with
  | O => None
  | S fuel =>
    x ← ld data it m;
    if cmp x d =? 0 then Some (it, up) else
    let dir := cmp x d <? 0 in
    up ← push it dir up;
    it ← ld (link dir) it m;
    erase_search fuel it d up m
  end.

Fixpoint heir_loop (fuel : nat) (heir : Z) (up : stack) (m : heap) : option (Z * stack) :=
  match fuel with
  | O => None
  | S fuel =>
    l ← ld (link false) heir m;
    if l =? NULL then Some (heir, up) else
    up ← push heir false up;
    heir_loop fuel l up m
  end.

(** Removing the node [it]: the stacks, the root and the heap. *)
Definition unlink (it root : Z) (up : stack) (m : heap) : option (stack * Z * heap) :=
  l ← ld (link false) it m;
  r ← ld (link true) it m;
  if (l =? NULL) || (r =? NULL) then
    let dir := l =? NULL in
    c ← ld (link dir) it m;
    '(root, m) ← match up with
                 | (u, ud) :: _ => m ← st (set_link ud c) u m; Some (root, m)
                 | [] => Some (c, m)
                 end;
    m ← P_FREE it m;
    Some (up, root, m)
  else
    up ← push it true up;
    '(heir, up) ← heir_loop (base.size m) r up m;
    save ← ld data it m;
    h ← ld data heir m;
    m ← st (set_data h) it m;
    m ← st (set_data save) heir m;
    c ← ld (link true) heir m;
    u ← fst <$> head up;
    m ← st (set_link (u =? it) c) u m;
    m ← P_FREE heir m;
    Some (up, root, m).

(** Walking back up the search path. *)
Fixpoint walk (up : stack) (done : bool) (root : Z) (m : heap) : option (Z * heap) :=
  match up with
  | [] => Some (root, m)
  | (u, ud) :: up =>
    if done then Some (root, m) else
    b ← ld balance u m;
    let b := b + if ud then -1 else 1 in
    m ← st (set_balance b) u m;
    if Z.abs b =? 1 then Some (root, m)
    else if 1 <? Z.abs b then
      '(u, done, m) ← jsw_remove_balance u ud m;
      match up with
      | (v, vd) :: _ => m ← st (set_link vd u) v m; walk up done root m
      | [] => walk up done u m
      end
    else walk up done root m
  end.

Definition jsw_avlerase (t : jsw_avltree) (d : Z) : option (bool * jsw_avltree) :=
  let done r m := Some (true, Avltree r ((size t - 1) mod 2 ^ W) m) in
  if root t =? NULL then done (root t) (mem t) else
  '(it, up) ← erase_search (base.size (mem t)) (root t) d [] (mem t);
  if it =? NULL then Some (false, t) else
  '(up, r, m) ← unlink it (root t) up (mem t);
  '(r, m) ← walk up false r m;
  done r m.

End code.

Definition jsw_avlsize (t : jsw_avltree) : Z := size t.

(** The second family. *)
Definition Pnew_node := new_node.
Definition Pjsw_avlnew := jsw_avlnew.
Definition Pjsw_avldelete := jsw_avldelete.
Definition Pjsw_avlinsert := jsw_avlinsert.
Definition Pjsw_avlerase := jsw_avlerase.

(** ** Traversal *)

(** [struct jsw_avltrav]: the tree, the current node and the path, the top first. *)
Record jsw_avltrav := Trav { tree : jsw_avltree; it : Z; path : list Z }.

Definition push_path (x : Z) (path : list Z) : option (list Z) :=
  if (length path <? HEIGHT_LIMIT)%nat then Some (x :: path) else None.

(** [while (it->link[dir] != NULL) { path[top++] = it; it = it->link[dir]; }]. *)
Fixpoint descend (fuel : nat) (dir : bool) (it : Z) (path : list Z) (m : heap) : option (Z * list Z) :=
  match fuel with
  | O => None
  | S fuel =>
    c ← ld (link dir) it m;
    if c =? NULL then Some (it, path) else
    path ← push_path it path;
    descend fuel dir c path m
  end.

(** The data of the current node, [NULL] where there is none. *)
Definition current (tr : jsw_avltrav) : option Z :=
  if it tr =? NULL then Some NULL else ld data (it tr) (mem (tree tr)).

Definition start (t : jsw_avltree) (dir : bool) : option (Z * jsw_avltrav) :=
  '(it, path) ← (if root t =? NULL then Some (NULL, []) else descend (base.size (mem t)) dir (root t) [] (mem t));
  let tr := Trav t it path in
  x ← current tr; Some (x, tr).

(** The [do]-[while] loop: a round per entry of the path. *)
Fixpoint ascend (dir : bool) (it : Z) (path : list Z) (m : heap) : option (Z * list Z) :=
  match path with
  | [] => Some (NULL, [])
  | x :: path => c ← ld (link dir) x m; if it =? c then ascend dir x path m else Some (x, path)
  end.

Definition move (tr : jsw_avltrav) (dir : bool) : option (Z * jsw_avltrav) :=
  let m := mem (tree tr) in
  c ← ld (link dir) (it tr) m;
  '(it, path) ← (if c =? NULL then ascend dir (it tr) (path tr) m else
                 path ← push_path (it tr) (path tr); descend (base.size m) (negb dir) c path m);
  let tr := Trav (tree tr) it path in
  x ← current tr; Some (x, tr).

Definition jsw_avltfirst (t : jsw_avltree) := start t false.
Definition jsw_avltlast (t : jsw_avltree) := start t true.
Definition jsw_avltnext (tr : jsw_avltrav) := move tr true.
Definition jsw_avltprev (tr : jsw_avltrav) := move tr false.

(** Insertions and removals, then a traversal, evaluated. *)
Definition ins (t : option jsw_avltree) (d : Z) : option jsw_avltree := t ← t; snd <$> jsw_avlinsert Z.sub 64 t (1000 + d) d.
Definition del (t : option jsw_avltree) (d : Z) : option jsw_avltree := t ← t; snd <$> jsw_avlerase Z.sub 64 t d.

Fixpoint collect (n : nat) (x : Z) (tr : jsw_avltrav) : option (list Z) :=
  if x =? NULL then Some [] else
  match n with
  | O => None
  | S n => '(y, tr) ← jsw_avltnext tr; l ← collect n y tr; Some (x :: l)
  end.

Example avl_runs :
  let t := foldl del (foldl ins (Some (jsw_avlnew ∅)) [5; 1; 8; 3; 2; 9; 7; 4; 6; 10; 11; 12]) [5; 2; 9; 1] in
  (t ← t; '(x, tr) ← jsw_avltfirst t; l ← collect 20 x tr; Some (size t, l)) = Some (8, [3; 4; 6; 7; 8; 10; 11; 12]).
Proof. vm_compute. reflexivity. Qed.

End Avl.
