(* ===== verification/StampAvlTree.v ===== *)
(** * The height-balanced tree: heaps, trees and rotations

    The nodes of a tree are a list of cells, up to permutation; [holds] relates a heap to such
    a list.  On cells the loads and stores of the code are evaluated step by step.  Rotations and the
    adjustment of balances are steps on algebraic trees, and what they do to heights is proved on
    the trees alone. *)

From S2P Require Import Prelude StampAvl.
Import Avl.

Module AvlTree.

(** ** Heaps *)

Definition cell : Type := Z * jsw_avlnode_t.

(** The heap has the cells [cs]; elsewhere it is [Fr]. *)
Record holds (Fr : Z -> option jsw_avlnode_t) (h : heap) (cs : list cell) : Prop := {
  h_nodup : NoDup cs.*1;
  h_null : NULL ∉ cs.*1;
  h_cells : forall x n, (x, n) ∈ cs -> h !! x = Some n;
  h_frame : forall z, z ∉ cs.*1 -> h !! z = Fr z }.

#[global] Instance holds_perm Fr h : Proper ((≡ₚ) ==> iff) (holds Fr h).
Proof.
  assert (H : forall l k, l ≡ₚ k -> holds Fr h l -> holds Fr h k).
  { intros l k HP [H1 H2 H3 H4]. split.
    - by rewrite <- HP.
    - by rewrite <- HP.
    - intros x n. rewrite <- HP. apply H3.
    - intros z. rewrite <- HP. apply H4. }
  intros l k HP. split; apply H; [done|by symmetry].
Qed.

Section heap.
Context {Fr : Z -> option jsw_avlnode_t} {h : heap}.

Lemma holds_lookup x n cs : holds Fr h ((x, n) :: cs) -> h !! x = Some n.
Proof. intros H. apply (h_cells _ _ _ H). left. Qed.

Lemma ld_first {A} (f : jsw_avlnode_t -> A) x n cs : holds Fr h ((x, n) :: cs) -> ld f x h = Some (f n).
Proof. intros H. unfold ld. by rewrite (holds_lookup _ _ _ H). Qed.

Lemma holds_update x n n' cs : holds Fr h ((x, n) :: cs) -> holds Fr (<[x := n']> h) ((x, n') :: cs).
Proof.
  intros [H1 H2 H3 H4]. simpl in *. apply NoDup_cons in H1 as [Hx H1]. split; simpl.
  - by apply NoDup_cons.
  - done.
  - intros y k Hy. apply elem_of_cons in Hy as [[= -> ->]|Hy]; [by rewrite lookup_insert_eq|].
    rewrite lookup_insert_ne; [apply H3; by right|]. intros ->. apply Hx. by apply (list_elem_of_fmap_2 fst _ (y, k)).
  - intros z Hz. rewrite lookup_insert_ne; [by apply H4|]. intros ->. apply Hz. left.
Qed.

Lemma st_first f x n cs : holds Fr h ((x, n) :: cs) -> exists h', st f x h = Some h' /\ holds Fr h' ((x, f n) :: cs).
Proof. intros H. eexists. split; [unfold st; by rewrite (holds_lookup _ _ _ H)|]. by eapply holds_update. Qed.

Lemma holds_alloc x n cs : x <> NULL -> h !! x = None -> holds Fr h cs -> holds Fr (<[x := n]> h) ((x, n) :: cs).
Proof.
  intros Hx Hn [H1 H2 H3 H4].
  assert (Hnot : x ∉ cs.*1).
  { intros ([y k] & -> & Hin)%list_elem_of_fmap. simpl in Hn. by rewrite (H3 _ _ Hin) in Hn. }
  split; simpl.
  - by apply NoDup_cons.
  - apply not_elem_of_cons. by split.
  - intros y k Hy. apply elem_of_cons in Hy as [[= -> ->]|Hy]; [by rewrite lookup_insert_eq|].
    rewrite lookup_insert_ne; [by apply H3|]. intros ->. apply Hnot. by apply (list_elem_of_fmap_2 fst _ (y, k)).
  - intros z Hz. apply not_elem_of_cons in Hz as [Hz Hz']. rewrite lookup_insert_ne by done. by apply H4.
Qed.

End heap.

(** What is left when a cell is freed; the frame forgets the address. *)
Definition without (x : Z) (Fr : Z -> option jsw_avlnode_t) (z : Z) : option jsw_avlnode_t := if z =? x then None else Fr z.

Lemma free_first Fr h x n cs : holds Fr h ((x, n) :: cs) -> exists h', P_FREE x h = Some h' /\ holds (without x Fr) h' cs.
Proof.
  intros H. eexists. split; [unfold P_FREE; by rewrite (holds_lookup _ _ _ H)|]. destruct H as [H1 H2 H3 H4]. simpl in *.
  apply NoDup_cons in H1 as [Hx H1]. apply not_elem_of_cons in H2 as [Hx0 H2]. split; [done|done| |].
  - intros y k Hy. rewrite lookup_delete_ne; [apply H3; by right|]. intros ->. apply Hx. by apply (list_elem_of_fmap_2 fst _ (y, k)).
  - intros z Hz. unfold without. destruct (Z.eqb_spec z x) as [->|Hne]; [by rewrite lookup_delete_eq|].
    rewrite lookup_delete_ne by done. apply H4. by apply not_elem_of_cons.
Qed.

(** ** Trees *)

Inductive tree := E | T (x b d : Z) (l r : tree).

Definition ptr (t : tree) : Z := match t with E => NULL | T x _ _ _ _ => x end.

Fixpoint cells (t : tree) : list cell :=
  match t with E => [] | T x b d l r => (x, Node b d (ptr l) (ptr r)) :: cells l ++ cells r end.

Fixpoint elems (t : tree) : list Z :=
  match t with E => [] | T _ _ d l r => elems l ++ d :: elems r end.

(** A node with [a] on side [dir] and [c] on the other. *)
Definition mk (dir : bool) (x b d : Z) (a c : tree) : tree := if dir then T x b d c a else T x b d a c.

Definition mkn (dir : bool) (b d p q : Z) : jsw_avlnode_t := if dir then Node b d q p else Node b d p q.

Lemma ptr_mk dir x b d a c : ptr (mk dir x b d a c) = x.
Proof. by destruct dir. Qed.

Lemma cells_mk dir x b d a c : cells (mk dir x b d a c) ≡ₚ (x, mkn dir b d (ptr a) (ptr c)) :: cells a ++ cells c.
Proof. destruct dir; simpl; [|done]. constructor. apply Permutation_app_comm. Qed.

Lemma mk_negb dir x b d a c : mk (negb dir) x b d a c = mk dir x b d c a.
Proof. by destruct dir. Qed.

Lemma mk_case dir t : t = E \/ exists x b d a c, t = mk dir x b d a c.
Proof. destruct t as [|x b d l r]; [by left|]. right. destruct dir; [by exists x, b, d, r, l|by exists x, b, d, l, r]. Qed.

(** ** Rotations *)

(** Evaluating loads and stores of the first cells. *)
Ltac ld1 H := rewrite (ld_first _ _ _ _ H); cbn [mbind option_bind link set_link set_balance set_data balance data link0 link1 negb].
Ltac st1 H := match goal with |- context [st ?f ?x ?h] =>
  let h' := fresh "h" in let E := fresh "E" in let H' := fresh in
  destruct (st_first f x _ _ H) as (h' & E & H'); rewrite E; clear E H; rename H' into H;
  cbn [mbind option_bind link set_link set_balance set_data balance data link0 link1 negb] in H |- * end.

Lemma perm_third {A} (x y z : A) l : x :: y :: z :: l ≡ₚ z :: x :: y :: l.
Proof. solve_Permutation. Qed.

(** Bring the cell of address [x], one of the first three, to the front. *)
Ltac front H x :=
  lazymatch type of H with
  | holds _ _ ((x, _) :: _) => idtac
  | holds _ _ (_ :: (x, _) :: _) => rewrite perm_swap in H
  | holds _ _ (_ :: _ :: (x, _) :: _) => rewrite perm_third in H
  end.

(** Evaluate the next load or store. *)
Ltac exec_ld H :=
  match goal with |- context [ld _ ?x ?h] => lazymatch type of H with holds _ h _ => front H x; ld1 H end end.
Ltac exec_st H :=
  match goal with |- context [st _ ?x ?h] => lazymatch type of H with holds _ h _ => front H x; st1 H end end.
Ltac exec H := repeat first [exec_ld H | exec_st H].

(** The cells of a tree of known shape, those of unknown trees last. *)
Lemma cells_rot dir x bx dx a y bY dy b c cs :
  cells (mk dir x bx dx a (mk dir y bY dy b c)) ++ cs
  ≡ₚ (x, mkn dir bx dx (ptr a) y) :: (y, mkn dir bY dy (ptr b) (ptr c)) :: cells a ++ cells b ++ cells c ++ cs.
Proof. rewrite !cells_mk, ptr_mk. solve_Permutation. Qed.

Lemma cells_rotated dir x bx dx a y bY dy b c cs :
  cells (mk dir y bY dy (mk dir x bx dx a b) c) ++ cs
  ≡ₚ (x, mkn dir bx dx (ptr a) (ptr b)) :: (y, mkn dir bY dy x (ptr c)) :: cells a ++ cells b ++ cells c ++ cs.
Proof. rewrite !cells_mk, ptr_mk. solve_Permutation. Qed.

Lemma jsw_single_ok Fr h cs dir x bx dx a y bY dy b c :
  holds Fr h (cells (mk dir x bx dx a (mk dir y bY dy b c)) ++ cs) ->
  exists h', jsw_single x dir h = Some (y, h') /\ holds Fr h' (cells (mk dir y bY dy (mk dir x bx dx a b) c) ++ cs).
Proof.
  setoid_rewrite cells_rotated. rewrite cells_rot. intros H. unfold jsw_single.
  destruct dir; simpl in *; exec H; front H x; by eexists.
Qed.

Lemma cells_zigzag dir x bx dx a y bY dy z bz dz b c e cs :
  cells (mk dir x bx dx a (mk dir y bY dy (mk dir z bz dz b c) e)) ++ cs
  ≡ₚ (x, mkn dir bx dx (ptr a) y) :: (y, mkn dir bY dy z (ptr e)) :: (z, mkn dir bz dz (ptr b) (ptr c))
     :: cells a ++ cells b ++ cells c ++ cells e ++ cs.
Proof. rewrite !cells_mk, !ptr_mk. solve_Permutation. Qed.

Lemma cells_straight dir x bx dx a y bY dy z bz dz b c e cs :
  cells (mk dir z bz dz (mk dir x bx dx a b) (mk dir y bY dy c e)) ++ cs
  ≡ₚ (x, mkn dir bx dx (ptr a) (ptr b)) :: (y, mkn dir bY dy (ptr c) (ptr e)) :: (z, mkn dir bz dz x y)
     :: cells a ++ cells b ++ cells c ++ cells e ++ cs.
Proof. rewrite !cells_mk, !ptr_mk. solve_Permutation. Qed.

Lemma jsw_double_ok Fr h cs dir x bx dx a y bY dy z bz dz b c e :
  holds Fr h (cells (mk dir x bx dx a (mk dir y bY dy (mk dir z bz dz b c) e)) ++ cs) ->
  exists h', jsw_double x dir h = Some (z, h') /\
    holds Fr h' (cells (mk dir z bz dz (mk dir x bx dx a b) (mk dir y bY dy c e)) ++ cs).
Proof.
  setoid_rewrite cells_straight. rewrite cells_zigzag. intros H. unfold jsw_double.
  destruct dir; simpl in *; exec H; front H z; front H y; front H x; by eexists.
Qed.

(** The new balances of the root and of its child, from the balance [b] of the grandchild. *)
Definition adjusted (bal b : Z) : Z * Z := if b =? 0 then (0, 0) else if b =? bal then (- bal, 0) else (0, bal).

Lemma jsw_adjust_balance_ok Fr h cs dir bal x bx dx a y bY dy z bz dz b c e :
  holds Fr h (cells (mk (negb dir) x bx dx a (mk (negb dir) y bY dy (mk (negb dir) z bz dz b c) e)) ++ cs) ->
  exists h', jsw_adjust_balance x dir bal h = Some h' /\
    holds Fr h' (cells (mk (negb dir) x (adjusted bal bz).1 dx a
      (mk (negb dir) y (adjusted bal bz).2 dy (mk (negb dir) z 0 dz b c) e)) ++ cs).
Proof.
  setoid_rewrite cells_zigzag. intros H. unfold jsw_adjust_balance, adjusted.
  destruct dir; simpl in *; do 3 exec_ld H; (destruct (bz =? 0); [|destruct (bz =? bal)]); simpl; exec H;
    front H z; front H y; front H x; by eexists.
Qed.

(** ** Heights *)

(** What a node on side [dir] adds to the balance. *)
Definition sg (dir : bool) : Z := if dir then 1 else -1.

(** Balanced, of height [h], with the balances of the nodes right. *)
Inductive avl : tree -> Z -> Prop :=
  | avl_E : avl E 0
  | avl_T x b d l r hl hr : avl l hl -> avl r hr -> b = hr - hl -> -1 <= b <= 1 -> avl (T x b d l r) (Z.max hl hr + 1).

Lemma avl_mk dir x b d a c ha hc : avl a ha -> avl c hc -> b = sg dir * (ha - hc) -> -1 <= b <= 1 ->
  avl (mk dir x b d a c) (Z.max ha hc + 1).
Proof.
  intros Ha Hc Hb Hb'. destruct dir; simpl in *.
  - rewrite Z.max_comm. constructor; (done || lia).
  - constructor; (done || lia).
Qed.

Lemma avl_mk_inv dir x b d a c h : avl (mk dir x b d a c) h ->
  exists ha hc, avl a ha /\ avl c hc /\ b = sg dir * (ha - hc) /\ -1 <= b <= 1 /\ h = Z.max ha hc + 1.
Proof.
  intros H. destruct dir; inversion H; subst; simpl.
  - eexists _, _. split_and!; [done|done|lia..].
  - eexists _, _. split_and!; [done|done|lia..].
Qed.

Lemma avl_nonneg t h : avl t h -> 0 <= h.
Proof. induction 1; lia. Qed.

Lemma avl_zero t : avl t 0 -> t = E.
Proof. intros H. inversion H as [|? ? ? ? ? hl hr Hl Hr]; [done|]. apply avl_nonneg in Hl, Hr. lia. Qed.

(** A node whose height is computed. *)
Lemma avl_mk' dir x b d a c ha hc h : avl a ha -> avl c hc -> b = sg dir * (ha - hc) -> -1 <= b <= 1 -> h = Z.max ha hc + 1 ->
  avl (mk dir x b d a c) h.
Proof. intros Ha Hc Hb Hb' ->. by apply avl_mk. Qed.

(** A tree that an insertion has made taller, from [k] to [k + 1]: all nodes above the new one, which
    were even, lean to it. *)
Inductive grown : tree -> Z -> Prop :=
  | grown_new x d : grown (T x 0 d E E) 0
  | grown_step dir x d a c k : grown a k -> avl c k -> grown (mk dir x (sg dir) d a c) (k + 1).

Lemma grown_avl t k : grown t k -> avl t (k + 1).
Proof.
  induction 1 as [x d|dir x d a c k Ha IH Hc].
  - replace (0 + 1) with (Z.max 0 0 + 1) by done. constructor; [constructor..|done|done].
  - eapply avl_mk'; [done|done|destruct dir; simpl; lia..].
Qed.

Lemma grown_nonneg t k : grown t k -> 0 <= k.
Proof. induction 1; lia. Qed.

Lemma elems_mk dir x b d a c : elems (mk dir x b d a c) = if dir then elems c ++ d :: elems a else elems a ++ d :: elems c.
Proof. by destruct dir. Qed.

Lemma elems_single dir x bx bx' dx a y bY bY' dy b c :
  elems (mk dir y bY' dy (mk dir x bx' dx a b) c) = elems (mk dir x bx dx a (mk dir y bY dy b c)).
Proof. destruct dir; simpl; by rewrite <- app_assoc. Qed.

Lemma elems_double dir x bx bx' dx a y bY bY' dy z bz bz' dz b c e :
  elems (mk dir z bz' dz (mk dir x bx' dx a b) (mk dir y bY' dy c e)) =
  elems (mk dir x bx dx a (mk dir y bY dy (mk dir z bz dz b c) e)).
Proof. destruct dir; simpl; rewrite <- ?app_assoc; simpl; rewrite <- ?app_assoc; done. Qed.

(** ** Rebalancing after an insertion *)

Definition rebalanced (Fr : Z -> option jsw_avlnode_t) (cs : list cell) (old t' : tree) (k : Z) (h' : heap) : Prop :=
  holds Fr h' (cells t' ++ cs) /\ avl t' k /\ elems t' = elems old /\ t' <> E.

Lemma mk_not_E dir x b d a c : mk dir x b d a c <> E.
Proof. by destruct dir. Qed.

(** Loads and stores at the root of a tree and at its child. *)
Lemma ld_root {A} (f : jsw_avlnode_t -> A) Fr h cs dir x b d a c : holds Fr h (cells (mk dir x b d a c) ++ cs) ->
  ld f x h = Some (f (mkn dir b d (ptr a) (ptr c))).
Proof. rewrite cells_mk. apply ld_first. Qed.

Lemma cells_child dir dir' x bx dx a y bY dy u v cs : cells (mk dir x bx dx a (mk dir' y bY dy u v)) ++ cs
  ≡ₚ (y, mkn dir' bY dy (ptr u) (ptr v)) :: (x, mkn dir bx dx (ptr a) y) :: cells a ++ cells u ++ cells v ++ cs.
Proof. rewrite !cells_mk, ptr_mk. solve_Permutation. Qed.

Lemma ld_child {A} (f : jsw_avlnode_t -> A) Fr h cs dir dir' x bx dx a y bY dy u v :
  holds Fr h (cells (mk dir x bx dx a (mk dir' y bY dy u v)) ++ cs) -> ld f y h = Some (f (mkn dir' bY dy (ptr u) (ptr v))).
Proof. rewrite cells_child. apply ld_first. Qed.

Lemma set_balance_mkn dir b b' d p q : set_balance b' (mkn dir b d p q) = mkn dir b' d p q.
Proof. by destruct dir. Qed.

Lemma link_mkn dir b d p q : link dir (mkn dir b d p q) = p /\ link (negb dir) (mkn dir b d p q) = q.
Proof. by destruct dir. Qed.

Lemma balance_mkn dir b d p q : balance (mkn dir b d p q) = b /\ data (mkn dir b d p q) = d.
Proof. by destruct dir. Qed.

Lemma st_root b' Fr h cs dir x b d a c : holds Fr h (cells (mk dir x b d a c) ++ cs) ->
  exists h', st (set_balance b') x h = Some h' /\ holds Fr h' (cells (mk dir x b' d a c) ++ cs).
Proof.
  setoid_rewrite cells_mk. intros H. destruct (st_first (set_balance b') _ _ _ H) as (h' & -> & H'). rewrite set_balance_mkn in H'.
  by exists h'.
Qed.

Lemma st_child b' Fr h cs dir dir' x bx dx a y bY dy u v :
  holds Fr h (cells (mk dir x bx dx a (mk dir' y bY dy u v)) ++ cs) ->
  exists h', st (set_balance b') y h = Some h' /\ holds Fr h' (cells (mk dir x bx dx a (mk dir' y b' dy u v)) ++ cs).
Proof.
  setoid_rewrite cells_child. intros H. destruct (st_first (set_balance b') _ _ _ H) as (h' & -> & H').
  rewrite set_balance_mkn in H'. by exists h'.
Qed.

(** The child of the root on side [dir], which is the far side of [mk (negb dir)]. *)
Lemma ld_far Fr h cs dir x bx dx a n : holds Fr h (cells (mk (negb dir) x bx dx a n) ++ cs) -> ld (link dir) x h = Some (ptr n).
Proof. intros H. rewrite (ld_root _ _ _ _ _ _ _ _ _ _ H). by destruct dir. Qed.

Lemma insert_single Fr h cs dir x bx dx a y dy b c :
  holds Fr h (cells (mk (negb dir) x bx dx a (mk (negb dir) y (sg dir) dy b c)) ++ cs) ->
  exists h', jsw_insert_balance x dir h = Some (y, h') /\
    holds Fr h' (cells (mk (negb dir) y 0 dy (mk (negb dir) x 0 dx a b) c) ++ cs).
Proof.
  intros H. unfold jsw_insert_balance. rewrite (ld_far _ _ _ _ _ _ _ _ _ H), ptr_mk. cbn [mbind option_bind].
  rewrite (ld_child _ _ _ _ _ _ _ _ _ _ _ _ _ _ _ H). cbn [mbind option_bind].
  rewrite (proj1 (balance_mkn _ _ _ _ _)). change (if dir then 1 else -1) with (sg dir). rewrite Z.eqb_refl.
  destruct (st_child 0 _ _ _ _ _ _ _ _ _ _ _ _ _ _ H) as (h1 & -> & H1). cbn [mbind option_bind].
  destruct (st_root 0 _ _ _ _ _ _ _ _ _ H1) as (h2 & -> & H2). cbn [mbind option_bind]. by eapply jsw_single_ok.
Qed.

Lemma insert_double Fr h cs dir x bx dx a y bY dy z bz dz b c e : bY <> sg dir ->
  holds Fr h (cells (mk (negb dir) x bx dx a (mk (negb dir) y bY dy (mk (negb dir) z bz dz b c) e)) ++ cs) ->
  exists h', jsw_insert_balance x dir h = Some (z, h') /\
    holds Fr h' (cells (mk (negb dir) z 0 dz (mk (negb dir) x (adjusted (sg dir) bz).1 dx a b)
      (mk (negb dir) y (adjusted (sg dir) bz).2 dy c e)) ++ cs).
Proof.
  intros Hb H. unfold jsw_insert_balance. rewrite (ld_far _ _ _ _ _ _ _ _ _ H), ptr_mk. cbn [mbind option_bind].
  rewrite (ld_child _ _ _ _ _ _ _ _ _ _ _ _ _ _ _ H). cbn [mbind option_bind].
  rewrite (proj1 (balance_mkn _ _ _ _ _)). change (if dir then 1 else -1) with (sg dir). rewrite (proj2 (Z.eqb_neq _ _) Hb).
  destruct (jsw_adjust_balance_ok _ _ _ dir (sg dir) _ _ _ _ _ _ _ _ _ _ _ _ _ H) as (h1 & -> & H1). cbn [mbind option_bind].
  by eapply jsw_double_ok.
Qed.

Lemma jsw_insert_balance_ok Fr h cs dir x dx a n k : grown n k -> avl a (k - 1) ->
  holds Fr h (cells (mk dir x (2 * sg dir) dx n a) ++ cs) ->
  exists t' h', jsw_insert_balance x dir h = Some (ptr t', h') /\
    rebalanced Fr cs (mk dir x (2 * sg dir) dx n a) t' (k + 1) h'.
Proof.
  intros Hg Ha. rewrite <- mk_negb. intros H. pose proof (avl_nonneg _ _ Ha). unfold rebalanced.
  inversion Hg as [|dir' y dy sub oth k' Hsub Hoth]; subst; [lia|]. replace (k' + 1 - 1) with k' in Ha by lia.
  destruct (decide (dir' = dir)) as [->|Hd].
  - rewrite <- (mk_negb dir y) in H |- *. destruct (insert_single _ _ _ _ _ _ _ _ _ _ _ _ H) as (h' & Hi & H').
    eexists _, h'. rewrite Hi. split_and!; [by rewrite ptr_mk|exact H'| |apply elems_single|apply mk_not_E].
    rewrite !mk_negb. apply grown_avl in Hsub.
    eapply avl_mk'; [done|by eapply (avl_mk' _ _ _ _ _ _ k' k' (k' + 1)); try (done || lia)|lia..].
  - assert (dir' = negb dir) as -> by (by destruct dir, dir'). apply grown_nonneg in Hsub as Hk.
    assert (Hne : sg (negb dir) <> sg dir) by (by destruct dir).
    inversion Hsub as [z dz|dz' z dz sub2 oth2 k2 Hsub2 Hoth2]; subst.
    + assert (T z 0 dz E E = mk (negb dir) z 0 dz E E) as Hz by (by destruct dir). rewrite Hz in H |- *.
      destruct (insert_double _ _ _ _ _ _ _ _ _ _ _ _ _ _ _ _ _ Hne H) as (h' & Hi & H').
      eexists _, h'. rewrite Hi. split_and!; [by rewrite ptr_mk|exact H'| |apply elems_double|apply mk_not_E].
      simpl. rewrite !mk_negb. eapply (avl_mk' _ _ _ _ _ _ 1 1);
        [eapply (avl_mk' _ _ _ _ _ _ 0 0); first [done|apply avl_E|lia]..|lia|lia|lia].
    + assert (Hz : exists b c, mk dz' z (sg dz') dz sub2 oth2 = mk (negb dir) z (sg dz') dz b c /\
        if decide (dz' = dir) then avl b k2 /\ avl c (k2 + 1) else avl b (k2 + 1) /\ avl c k2).
      { apply grown_avl in Hsub2. case_decide as Hd'.
        - subst. exists oth2, sub2. by rewrite mk_negb.
        - assert (dz' = negb dir) as -> by (by destruct dir, dz'). by exists sub2, oth2. }
      destruct Hz as (b & c & Hz & Hbc). rewrite Hz in H |- *.
      destruct (insert_double _ _ _ _ _ _ _ _ _ _ _ _ _ _ _ _ _ Hne H) as (h' & Hi & H').
      eexists _, h'. rewrite Hi. split_and!; [by rewrite ptr_mk|exact H'| |apply elems_double|apply mk_not_E].
      case_decide; destruct Hbc as [Hb Hc].
      * subst. unfold adjusted. rewrite Z.eqb_refl. destruct (Z.eqb_spec (sg dir) 0); [by destruct dir|]. simpl.
        eapply (avl_mk' _ _ _ _ _ _ (k2 + 2) (k2 + 2));
          [eapply avl_mk'; [done|done|destruct dir; simpl; lia..]|eapply avl_mk'; [done|done|destruct dir; simpl; lia..]|lia..].
      * unfold adjusted. destruct (Z.eqb_spec (sg dz') 0); [by destruct dz'|]. destruct (Z.eqb_spec (sg dz') (sg dir)); [by destruct dir, dz'|].
        simpl. eapply (avl_mk' _ _ _ _ _ _ (k2 + 2) (k2 + 2));
          [eapply avl_mk'; [done|done|destruct dir; simpl; lia..]|eapply avl_mk'; [done|done|destruct dir; simpl; lia..]|lia..].
Qed.

(** ** Rebalancing after a removal *)

Lemma ld_other Fr h cs dir x bx dx a n : holds Fr h (cells (mk dir x bx dx a n) ++ cs) -> ld (link (negb dir)) x h = Some (ptr n).
Proof. intros H. rewrite (ld_root _ _ _ _ _ _ _ _ _ _ H). by destruct dir. Qed.

(** The three cases, on the balance of the taller child. *)
Lemma remove_single Fr h cs dir x bx dx a y dy b c :
  holds Fr h (cells (mk dir x bx dx a (mk dir y (- sg dir) dy b c)) ++ cs) ->
  exists h', jsw_remove_balance x dir h = Some (y, false, h') /\
    holds Fr h' (cells (mk dir y 0 dy (mk dir x 0 dx a b) c) ++ cs).
Proof.
  intros H. unfold jsw_remove_balance. rewrite (ld_other _ _ _ _ _ _ _ _ _ H), ptr_mk. cbn [mbind option_bind].
  rewrite (ld_child _ _ _ _ _ _ _ _ _ _ _ _ _ _ _ H). cbn [mbind option_bind].
  rewrite (proj1 (balance_mkn _ _ _ _ _)). change (if dir then 1 else -1) with (sg dir). rewrite Z.eqb_refl.
  destruct (st_child 0 _ _ _ _ _ _ _ _ _ _ _ _ _ _ H) as (h1 & -> & H1). cbn [mbind option_bind].
  destruct (st_root 0 _ _ _ _ _ _ _ _ _ H1) as (h2 & -> & H2). cbn [mbind option_bind].
  destruct (jsw_single_ok _ _ _ _ _ _ _ _ _ _ _ _ _ H2) as (h3 & -> & H3). by exists h3.
Qed.

Lemma remove_double Fr h cs dir x bx dx a y dy z bz dz b c e :
  holds Fr h (cells (mk dir x bx dx a (mk dir y (sg dir) dy (mk dir z bz dz b c) e)) ++ cs) ->
  exists h', jsw_remove_balance x dir h = Some (z, false, h') /\
    holds Fr h' (cells (mk dir z 0 dz (mk dir x (adjusted (- sg dir) bz).1 dx a b)
      (mk dir y (adjusted (- sg dir) bz).2 dy c e)) ++ cs).
Proof.
  intros H. unfold jsw_remove_balance. rewrite (ld_other _ _ _ _ _ _ _ _ _ H), ptr_mk. cbn [mbind option_bind].
  rewrite (ld_child _ _ _ _ _ _ _ _ _ _ _ _ _ _ _ H). cbn [mbind option_bind].
  rewrite (proj1 (balance_mkn _ _ _ _ _)). change (if dir then 1 else -1) with (sg dir). rewrite Z.eqb_refl.
  destruct (Z.eqb_spec (sg dir) (- sg dir)); [by destruct dir|].
  assert (Hn : holds Fr h (cells (mk (negb (negb dir)) x bx dx a (mk (negb (negb dir)) y (sg dir) dy (mk (negb (negb dir)) z bz dz b c) e)) ++ cs))
    by (by rewrite negb_involutive).
  destruct (jsw_adjust_balance_ok _ _ _ (negb dir) (- sg dir) _ _ _ _ _ _ _ _ _ _ _ _ _ Hn) as (h1 & -> & H1). cbn [mbind option_bind].
  rewrite negb_involutive in H1. destruct (jsw_double_ok _ _ _ _ _ _ _ _ _ _ _ _ _ _ _ _ _ H1) as (h2 & -> & H2). by exists h2.
Qed.

Lemma remove_even Fr h cs dir x bx dx a y dy b c :
  holds Fr h (cells (mk dir x bx dx a (mk dir y 0 dy b c)) ++ cs) ->
  exists h', jsw_remove_balance x dir h = Some (y, true, h') /\
    holds Fr h' (cells (mk dir y (sg dir) dy (mk dir x (- sg dir) dx a b) c) ++ cs).
Proof.
  intros H. unfold jsw_remove_balance. rewrite (ld_other _ _ _ _ _ _ _ _ _ H), ptr_mk. cbn [mbind option_bind].
  rewrite (ld_child _ _ _ _ _ _ _ _ _ _ _ _ _ _ _ H). cbn [mbind option_bind].
  rewrite (proj1 (balance_mkn _ _ _ _ _)). change (if dir then 1 else -1) with (sg dir).
  destruct (Z.eqb_spec 0 (- sg dir)); [by destruct dir|]. destruct (Z.eqb_spec 0 (sg dir)); [by destruct dir|].
  destruct (st_root (- sg dir) _ _ _ _ _ _ _ _ _ H) as (h1 & -> & H1). cbn [mbind option_bind].
  destruct (st_child (sg dir) _ _ _ _ _ _ _ _ _ _ _ _ _ _ H1) as (h2 & -> & H2). cbn [mbind option_bind].
  destruct (jsw_single_ok _ _ _ _ _ _ _ _ _ _ _ _ _ H2) as (h3 & -> & H3). by exists h3.
Qed.

(** The side [a] of the node is two lower than the other side. *)
Lemma jsw_remove_balance_ok Fr h cs dir x bx dx a n k : avl a (k - 1) -> avl n (k + 1) ->
  holds Fr h (cells (mk dir x bx dx a n) ++ cs) ->
  exists t' done h', jsw_remove_balance x dir h = Some (ptr t', done, h') /\
    rebalanced Fr cs (mk dir x bx dx a n) t' (if (done : bool) then k + 2 else k + 1) h'.
Proof.
  intros Ha Hn H. pose proof (avl_nonneg _ _ Ha). unfold rebalanced.
  destruct (mk_case dir n) as [->|(y & bY & dy & b & c & ->)]; [inversion Hn; lia|].
  destruct (avl_mk_inv _ _ _ _ _ _ _ Hn) as (hb & hc & Hb & Hc & Hby & Hby' & Hh).
  assert (Hcase : bY = - sg dir \/ bY = sg dir \/ bY = 0) by (destruct dir; simpl; lia).
  destruct Hcase as [->|[->| ->]].
  - assert (hb = k - 1 /\ hc = k) as [-> ->] by (destruct dir; simpl in *; lia).
    destruct (remove_single _ _ _ _ _ _ _ _ _ _ _ _ H) as (h' & Hi & H').
    eexists _, false, h'. rewrite Hi. split_and!; [by rewrite ptr_mk|exact H'| |apply elems_single|apply mk_not_E].
    eapply (avl_mk' _ _ _ _ _ _ k k); [by eapply (avl_mk' _ _ _ _ _ _ (k - 1) (k - 1)); try (done || lia)|done|lia..].
  - assert (hb = k /\ hc = k - 1) as [-> ->] by (destruct dir; simpl in *; lia).
    destruct (mk_case dir b) as [->|(z & bz & dz & b1 & b2 & ->)]; [inversion Hb; lia|].
    destruct (avl_mk_inv _ _ _ _ _ _ _ Hb) as (h1 & h2 & H1 & H2 & Hbz & Hbz' & Hh').
    destruct (remove_double _ _ _ _ _ _ _ _ _ _ _ _ _ _ _ _ H) as (h' & Hi & H').
    eexists _, false, h'. rewrite Hi. split_and!; [by rewrite ptr_mk|exact H'| |apply elems_double|apply mk_not_E].
    unfold adjusted. eapply (avl_mk' _ _ _ _ _ _ k k); [| |lia..];
      (eapply avl_mk'; [done|done|..]; destruct (Z.eqb_spec bz 0); [|destruct (Z.eqb_spec bz (- sg dir))| |destruct (Z.eqb_spec bz (- sg dir))| |destruct (Z.eqb_spec bz (- sg dir))]; destruct dir; simpl in *; lia).
  - assert (hb = k /\ hc = k) as [-> ->] by (destruct dir; simpl in *; lia).
    destruct (remove_even _ _ _ _ _ _ _ _ _ _ _ _ H) as (h' & Hi & H').
    eexists _, true, h'. rewrite Hi. split_and!; [by rewrite ptr_mk|exact H'| |apply elems_single|apply mk_not_E].
    eapply (avl_mk' _ _ _ _ _ _ (k + 1) k); [eapply (avl_mk' _ _ _ _ _ _ (k - 1) k); [done|done|destruct dir; simpl; lia..]|done|destruct dir; simpl; lia..].
Qed.

End AvlTree.
