(* ===== verification/StampAvlInsert.v ===== *)
(** * The height-balanced tree: search and insertion

    Paths are zippers ([plug]).  The search of an insertion splits the path at the node [s] where
    the tree may have to be rebalanced; below it all nodes are even, so that the update of the
    balances makes a [grown] tree. *)

From S2P Require Import Prelude StampAvl StampAvlTree.
Import Avl AvlTree.

Module AvlInsert.

(** ** Contexts *)

(** A step from a node to its child on side [fd]; [fs] is the other child. *)
Record frame := F { fd : bool; fx : Z; fb : Z; fv : Z; fs : tree }.

Definition node (f : frame) (t : tree) : tree := mk (fd f) (fx f) (fb f) (fv f) t (fs f).

Fixpoint plug (ctx : list frame) (t : tree) : tree := match ctx with [] => t | f :: ctx => plug ctx (node f t) end.

Fixpoint ccells (ctx : list frame) (p : Z) : list cell :=
  match ctx with
  | [] => []
  | f :: ctx => (fx f, mkn (fd f) (fb f) (fv f) p (ptr (fs f))) :: cells (fs f) ++ ccells ctx (fx f)
  end.

(** The elements before and after the hole. *)
Fixpoint pre (ctx : list frame) : list Z :=
  match ctx with [] => [] | f :: ctx => pre ctx ++ if fd f then elems (fs f) ++ [fv f] else [] end.
Fixpoint post (ctx : list frame) : list Z :=
  match ctx with [] => [] | f :: ctx => (if fd f then [] else fv f :: elems (fs f)) ++ post ctx end.

(** A context that takes trees of height [k] to trees of height [H]. *)
Inductive avlc : list frame -> Z -> Z -> Prop :=
  | avlc_nil k : avlc [] k k
  | avlc_cons f ctx k hs H : avl (fs f) hs -> fb f = sg (fd f) * (k - hs) -> -1 <= fb f <= 1 ->
      avlc ctx (Z.max k hs + 1) H -> avlc (f :: ctx) k H.

Lemma avl_plug_app c1 : forall c2 t, plug (c1 ++ c2) t = plug c2 (plug c1 t).
Proof. induction c1 as [|f c1 IH]; intros c2 t; simpl; [done|]. by rewrite IH. Qed.

Lemma ptr_node f t : ptr (node f t) = fx f.
Proof. apply ptr_mk. Qed.

Lemma node_cells f t : cells (node f t) ≡ₚ (fx f, mkn (fd f) (fb f) (fv f) (ptr t) (ptr (fs f))) :: cells t ++ cells (fs f).
Proof. apply cells_mk. Qed.

Lemma plug_cells ctx : forall t, cells (plug ctx t) ≡ₚ cells t ++ ccells ctx (ptr t).
Proof.
  induction ctx as [|f ctx IH]; intros t; simpl; [by rewrite app_nil_r|]. rewrite IH, node_cells, ptr_node. solve_Permutation.
Qed.

Lemma plug_elems ctx : forall t, elems (plug ctx t) = pre ctx ++ elems t ++ post ctx.
Proof.
  induction ctx as [|f ctx IH]; intros t; simpl; [by rewrite app_nil_r|]. rewrite IH. unfold node. rewrite elems_mk.
  destruct (fd f); rewrite <- ?app_assoc; simpl; rewrite <- ?app_assoc; done.
Qed.

Lemma plug_avl ctx : forall t H, avl (plug ctx t) H <-> exists k, avl t k /\ avlc ctx k H.
Proof.
  induction ctx as [|f ctx IH]; intros t H; simpl.
  - split; [intros Ha; exists H; split; [done|constructor]|]. intros (k & Ha & Hc). by inversion Hc; subst.
  - rewrite IH. split.
    + intros (k & Ha & Hc). destruct (avl_mk_inv _ _ _ _ _ _ _ Ha) as (ht & hs & H1 & H2 & H3 & H4 & ->).
      exists ht. split; [done|]. by eapply avlc_cons.
    + intros (k & Ha & Hc). inversion Hc as [|? ? ? hs ? H1 H2 H3 H4]; subst. eexists. split; [|exact H4]. by apply avl_mk.
Qed.

Lemma ptr_plug ctx : forall t t', ptr t = ptr t' -> ptr (plug ctx t) = ptr (plug ctx t').
Proof. induction ctx as [|f ctx IH]; intros t t' Ht; simpl; [done|]. apply IH. by rewrite !ptr_node. Qed.

Lemma ptr_plug_snoc c f t : ptr (plug (c ++ [f]) t) = fx f.
Proof. rewrite avl_plug_app. simpl. apply ptr_node. Qed.

(** Inverting a node on the side given by a test. *)
Lemma node_case dir x b d l r : exists a c, T x b d l r = mk dir x b d a c /\ (dir = true -> a = r /\ c = l) /\ (dir = false -> a = l /\ c = r).
Proof. destruct dir; [exists r, l|exists l, r]; by split_and!. Qed.

(** ** Order *)

(** The comparison is a total preorder. *)
Record cmp_ok (cmp : Z -> Z -> Z) : Prop := {
  cmp_anti : forall a b, cmp a b < 0 <-> 0 < cmp b a;
  cmp_trans : forall a b c, cmp a b <= 0 -> cmp b c <= 0 -> cmp a c <= 0 }.

Section order.
Context (cmp : Z -> Z -> Z) (Hcmp : cmp_ok cmp).

Definition le (a b : Z) : Prop := cmp a b <= 0.

Definition ordered (l : list Z) : Prop := StronglySorted le l.

Lemma le_lt a b d : le a b -> cmp b d < 0 -> cmp a d < 0.
Proof.
  unfold le. intros H1 H2. destruct Hcmp as [Ha Ht]. pose proof (Ht a b d H1 ltac:(lia)).
  destruct (decide (cmp a d = 0)) as [He|]; [|lia]. exfalso.
  assert (cmp d a <= 0) by (destruct (decide (0 < cmp d a)); [apply Ha in l; lia|lia]).
  pose proof (Ht d a b ltac:(lia) H1). apply Ha in H2. lia.
Qed.

Lemma le_ge a b d : le a b -> 0 <= cmp a d -> 0 <= cmp b d.
Proof. intros H1 H2. destruct (decide (0 <= cmp b d)) as [|Hn]; [done|]. pose proof (le_lt a b d H1 ltac:(lia)). lia. Qed.

Lemma le_gt a b d : le a b -> 0 < cmp a d -> 0 < cmp b d.
Proof.
  intros H1 H2. destruct Hcmp as [Ha Ht]. apply Ha in H2. apply Ha. destruct (decide (cmp d b < 0)) as [|Hn]; [done|].
  exfalso. assert (cmp b d <= 0) by (destruct (decide (0 < cmp b d)); [apply Ha in l; lia|lia]).
  pose proof (Ht a b d H1 ltac:(done)). apply Ha in H2. lia.
Qed.

Lemma avl_ordered_app l k : ordered (l ++ k) <-> ordered l /\ ordered k /\ forall a b, a ∈ l -> b ∈ k -> le a b.
Proof.
  unfold ordered. induction l as [|x l IH]; simpl.
  - split; [intros H; split_and!; [constructor|done|set_solver]|tauto].
  - split.
    + intros H. inversion H as [|? ? H1 H2]; subst. apply IH in H1 as (H3 & H4 & H5). rewrite Forall_app, !Forall_forall in H2.
      split_and!; [constructor; [done|rewrite Forall_forall; tauto]|done|]. intros a b Ha Hb.
      apply elem_of_cons in Ha as [->|Ha]; [by apply H2|auto].
    + intros (H1 & H2 & H3). inversion H1 as [|? ? H4 H5]; subst. constructor.
      * apply IH. split_and!; [done|done|set_solver].
      * apply Forall_app. split; [done|]. apply Forall_forall. intros b Hb. apply H3; [left|done].
Qed.

(** ** Paths *)

(** The path to where the comparison with [d] leads. *)
Definition leads (d : Z) (f : frame) : Prop := fd f = (cmp (fv f) d <? 0).

Lemma leads_split d ctx : forall t, Forall (leads d) ctx -> ordered (elems (plug ctx t)) ->
  Forall (fun x => cmp x d < 0) (pre ctx) /\ Forall (fun x => 0 <= cmp x d) (post ctx).
Proof.
  induction ctx as [|f ctx IH]; intros t Hl Ho; simpl; [by split|]. apply Forall_cons in Hl as [Hf Hl].
  destruct (IH _ Hl Ho) as [H1 H2]. simpl in Ho. rewrite plug_elems in Ho.
  apply avl_ordered_app in Ho as (_ & Ho & _). apply avl_ordered_app in Ho as (Ho & _ & _). unfold node in Ho. rewrite elems_mk in Ho.
  unfold leads in Hf. destruct (fd f); symmetry in Hf; rewrite !Forall_app.
  - apply Z.ltb_lt in Hf. apply avl_ordered_app in Ho as (_ & _ & Ho). split_and!; [done| |by apply Forall_singleton|constructor|done].
    apply Forall_forall. intros x Hx. eapply le_lt; [|exact Hf]. apply Ho; [done|left].
  - apply Z.ltb_ge in Hf. apply avl_ordered_app in Ho as (_ & Ho & _). inversion Ho as [|? ? _ Ho']; subst.
    rewrite Forall_forall in Ho'. split_and!; [done|constructor| |done].
    constructor; [done|]. apply Forall_forall. intros x Hx. eapply le_ge; [|exact Hf]. by apply Ho'.
Qed.

(** Without equal elements on the path, those after the hole are greater. *)
Lemma leads_strict d ctx : forall t, Forall (leads d) ctx -> Forall (fun f => cmp (fv f) d <> 0) ctx -> ordered (elems (plug ctx t)) ->
  Forall (fun x => 0 < cmp x d) (post ctx).
Proof.
  induction ctx as [|f ctx IH]; intros t Hl Hn Ho; simpl; [done|]. apply Forall_cons in Hl as [Hf Hl]. apply Forall_cons in Hn as [Hnf Hn].
  pose proof (IH _ Hl Hn Ho) as H2. simpl in Ho. rewrite plug_elems in Ho.
  apply avl_ordered_app in Ho as (_ & Ho & _). apply avl_ordered_app in Ho as (Ho & _ & _). unfold node in Ho. rewrite elems_mk in Ho.
  unfold leads in Hf. destruct (fd f); symmetry in Hf; [done|]. rewrite Forall_app. split; [|done].
  apply Z.ltb_ge in Hf. apply avl_ordered_app in Ho as (_ & Ho & _). inversion Ho as [|? ? _ Ho']; subst. rewrite Forall_forall in Ho'.
  constructor; [lia|]. apply Forall_forall. intros x Hx. eapply le_gt; [by apply Ho'|lia].
Qed.

(** A step down: the node [x] has its child on the side of the comparison. *)
Lemma step_down d x b v l r : exists a c, T x b v l r = mk (cmp v d <? 0) x b v a c /\
  (length (cells a) < length (cells (T x b v l r)))%nat.
Proof.
  destruct (node_case (cmp v d <? 0) x b v l r) as (a & c & Heq & H1 & H2). exists a, c. split; [done|].
  simpl. rewrite length_app. destruct (cmp v d <? 0); [destruct (H1 eq_refl) as [-> _]|destruct (H2 eq_refl) as [-> _]]; lia.
Qed.

Lemma ld_plug {A} (f : jsw_avlnode_t -> A) Fr h ctx dir x b v a c : holds Fr h (cells (plug ctx (mk dir x b v a c))) ->
  ld f x h = Some (f (mkn dir b v (ptr a) (ptr c))).
Proof. rewrite plug_cells. apply ld_root. Qed.

Lemma not_null Fr h x n cs : holds Fr h ((x, n) :: cs) -> x <> NULL.
Proof. intros [_ H _ _]. simpl in H. apply not_elem_of_cons in H as [H _]. congruence. Qed.

Lemma node_not_null Fr h ctx dir x b v a c : holds Fr h (cells (plug ctx (mk dir x b v a c))) -> x <> NULL.
Proof. rewrite plug_cells, cells_mk. apply not_null. Qed.

Lemma node_not_null_eqb Fr h ctx dir x b v a c : holds Fr h (cells (plug ctx (mk dir x b v a c))) -> (x =? NULL) = false.
Proof. intros H. by apply Z.eqb_neq, (node_not_null _ _ _ _ _ _ _ _ _ H). Qed.

Lemma plug_step ctx dir x b v a c : plug ctx (mk dir x b v a c) = plug (F dir x b v c :: ctx) a.
Proof. done. Qed.

Lemma ptr_null Fr h ctx t : holds Fr h (cells (plug ctx t)) -> ptr t = NULL -> t = E.
Proof.
  intros H Hp. destruct (mk_case true t) as [->|(x & b & v & a & c & ->)]; [done|].
  rewrite ptr_mk in Hp. by apply node_not_null in H.
Qed.

(** ** [jsw_avlfind] *)

Lemma find_loop_ok Fr h d : forall n P ctx fuel, (length (cells P) <= n)%nat -> (n <= fuel)%nat ->
  holds Fr h (cells (plug ctx P)) -> Forall (leads d) ctx -> Forall (fun f => cmp (fv f) d <> 0) ctx ->
  exists ctx' P', plug ctx P = plug ctx' P' /\ find_loop cmp fuel (ptr P) d h = Some (ptr P') /\
    Forall (leads d) ctx' /\ Forall (fun f => cmp (fv f) d <> 0) ctx' /\
    (P' = E \/ exists x b v l r, P' = T x b v l r /\ cmp v d = 0).
Proof.
  induction n as [|n IH]; intros P ctx fuel Hn Hf H Hl Hs; (destruct P as [|x b v l r]; [exists ctx, E; destruct fuel; split_and!; (done || by left)|]).
  { simpl in Hn. lia. }
  destruct fuel as [|fuel]; [lia|]. destruct (step_down d x b v l r) as (a & c & Heq & Hlt).
  rewrite Heq in H |- *. rewrite ptr_mk. cbn [find_loop]. rewrite (node_not_null_eqb _ _ _ _ _ _ _ _ _ H).
  rewrite (ld_plug data _ _ _ _ _ _ _ _ _ H), (proj2 (balance_mkn _ _ _ _ _)). cbn [mbind option_bind].
  destruct (Z.eqb_spec (cmp v d) 0) as [He|Hne].
  - exists ctx, (T x b v l r). rewrite Heq, ptr_mk. split_and!; try done. right. by exists x, b, v, l, r.
  - rewrite (ld_plug (link _) _ _ _ _ _ _ _ _ _ H), (proj1 (link_mkn _ _ _ _ _)). cbn [mbind option_bind].
    rewrite plug_step in H |- *. apply IH; [lia|lia|done|by apply Forall_cons|by apply Forall_cons].
Qed.

(** ** The search of [jsw_avlinsert] *)

(** Below its end the path [c], which starts above a node of balance [b], is even. *)
Fixpoint lean (b : Z) (c : list frame) : Prop := match c with [] => True | f :: c => b = 0 /\ lean (fb f) c end.

(** The balance of the node at the end. *)
Fixpoint end_b (b : Z) (c : list frame) : Z := match c with [] => b | f :: c => end_b (fb f) c end.

Definition parent (c : list frame) : option Z := fx <$> head c.

Lemma search_loop_ok Fr h d : forall n x b v l r c2 c1 fuel, (length (cells (T x b v l r)) <= n)%nat -> (n <= fuel)%nat ->
  holds Fr h (cells (plug (c2 ++ c1) (T x b v l r))) -> Forall (leads d) (c2 ++ c1) -> lean b c2 -> (c1 = [] \/ end_b b c2 <> 0) ->
  exists f c2' c1', plug (c2 ++ c1) (T x b v l r) = plug (f :: c2' ++ c1') E /\
    search_loop cmp fuel (parent c1) (ptr (plug c2 (T x b v l r))) x d h
      = Some (parent c1', ptr (plug (f :: c2') E), fx f, fd f) /\
    Forall (leads d) (f :: c2' ++ c1') /\ lean (fb f) c2' /\ (c1' = [] \/ end_b (fb f) c2' <> 0).
Proof.
  induction n as [|n IH]; intros x b v l r c2 c1 fuel Hn Hf H Hl Hlean Hs; [simpl in Hn; lia|].
  destruct fuel as [|fuel]; [lia|]. destruct (step_down d x b v l r) as (a & c & Heq & Hlt). rewrite Heq in H |- *.
  cbn [search_loop]. rewrite (ld_plug data _ _ _ _ _ _ _ _ _ H), (proj2 (balance_mkn _ _ _ _ _)). cbn [mbind option_bind].
  rewrite (ld_plug (link _) _ _ _ _ _ _ _ _ _ H), (proj1 (link_mkn _ _ _ _ _)). cbn [mbind option_bind].
  set (f := F (cmp v d <? 0) x b v c). rewrite plug_step in H |- *. fold f in H |- *.
  assert (Hlf : Forall (leads d) (f :: c2 ++ c1)) by (by apply Forall_cons).
  destruct (Z.eqb_spec (ptr a) NULL) as [Ha|Ha].
  - apply (ptr_null _ _ _ _ H) in Ha as ->. exists f, c2, c1. split_and!; try done.
  - destruct a as [|y by' vy ly ry]; [done|]. simpl ptr.
    assert (Hb : ld balance y h = Some by').
    { exact (ld_plug balance Fr h (f :: c2 ++ c1) false y by' vy ly ry H). }
    rewrite Hb. cbn [mbind option_bind]. destruct (Z.eqb_spec by' 0) as [->|Hne].
    + destruct (IH y 0 vy ly ry (f :: c2) c1 fuel) as (g & d2 & d1 & E1 & E2 & E3); [lia|lia|done|done|done|done|].
      exists g, d2, d1. split; [exact E1|]. split; [exact E2|exact E3].
    + destruct (IH y by' vy ly ry [] (f :: c2 ++ c1) fuel) as (g & d2 & d1 & E1 & E2 & E3); [lia|lia|done|done|done|by right|].
      exists g, d2, d1. split; [exact E1|]. split; [exact E2|exact E3].
Qed.

(** ** The update of the balances *)

Definition bump (f : frame) : frame := F (fd f) (fx f) (fb f + sg (fd f)) (fv f) (fs f).

Lemma in_ccells f c c' : forall p, exists q, (fx f, mkn (fd f) (fb f) (fv f) q (ptr (fs f))) ∈ ccells (c ++ f :: c') p.
Proof.
  induction c as [|g c IH]; intros p; simpl; [exists p; left|]. destruct (IH (fx g)) as [q Hq]. exists q. right. apply elem_of_app. by right.
Qed.

Lemma avl_update_loop_ok Fr d rn v0 : forall c up fuel h, (length c <= fuel)%nat -> Forall (leads d) c ->
  holds Fr h (cells (plug (c ++ up) (T rn 0 v0 E E))) ->
  exists h', update_loop cmp fuel (ptr (plug c (T rn 0 v0 E E))) rn d h = Some h' /\
    holds Fr h' (cells (plug ((bump <$> c) ++ up) (T rn 0 v0 E E))).
Proof.
  induction c as [|f c IH] using rev_ind; intros up fuel h Hf Hl H.
  { exists h. simpl. split; [|done]. destruct fuel; cbn [update_loop]; by rewrite Z.eqb_refl. }
  rewrite length_app in Hf. simpl in Hf. destruct fuel as [|fuel]; [lia|]. apply Forall_app in Hl as [Hl Hlf].
  apply Forall_cons in Hlf as [Hlf _]. rewrite ptr_plug_snoc. set (N := T rn 0 v0 E E) in *.
  rewrite <- app_assoc in H. simpl in H. rewrite avl_plug_app in H. simpl in H. set (S := plug c N) in *.
  assert (Hne : fx f <> rn).
  { rewrite plug_cells, node_cells in H. destruct H as [H _ _ _]. unfold S in H. rewrite plug_cells in H. simpl in H.
    apply NoDup_cons in H as [H _]. by apply not_elem_of_cons in H as [H _]. }
  cbn [update_loop]. rewrite (proj2 (Z.eqb_neq _ _) Hne). unfold node in H.
  rewrite (ld_plug data _ _ _ _ _ _ _ _ _ H), (proj2 (balance_mkn _ _ _ _ _)). cbn [mbind option_bind]. rewrite <- Hlf.
  rewrite (ld_plug balance _ _ _ _ _ _ _ _ _ H), (proj1 (balance_mkn _ _ _ _ _)). cbn [mbind option_bind].
  change (if fd f then 1 else -1) with (sg (fd f)). rewrite plug_cells in H.
  destruct (st_root (fb f + sg (fd f)) _ _ _ _ _ _ _ _ _ H) as (h1 & -> & H1). cbn [mbind option_bind].
  rewrite (ld_root (link _) _ _ _ _ _ _ _ _ _ H1), (proj1 (link_mkn _ _ _ _ _)). cbn [mbind option_bind].
  destruct (IH (bump f :: up) fuel h1) as (h2 & E2 & H2); [lia|done| |].
  - rewrite avl_plug_app. simpl. fold S. rewrite plug_cells. unfold node, bump. simpl. by rewrite ptr_mk in H1 |- *.
  - exists h2. split; [exact E2|]. rewrite fmap_app, <- app_assoc. exact H2.
Qed.

(** ** [jsw_avlinsert] *)

Lemma avlc_app c1 : forall c2 k H, avlc (c1 ++ c2) k H <-> exists m, avlc c1 k m /\ avlc c2 m H.
Proof.
  induction c1 as [|f c1 IH]; intros c2 k H; simpl.
  - split; [intros Hc; exists k; split; [constructor|done]|]. intros (m & Hm & Hc). by inversion Hm; subst.
  - split.
    + intros Hc. inversion Hc as [|? ? ? hs ? H1 H2 H3 H4]; subst. apply IH in H4 as (m & Hm & Hc2). exists m. split; [|done].
      by eapply avlc_cons.
    + intros (m & Hm & Hc). inversion Hm as [|? ? ? hs ? H1 H2 H3 H4]; subst. eapply avlc_cons; [done..|]. apply IH. by exists m.
Qed.

(** After the update, the path is a node with its new balance over a tree that has grown. *)
Lemma grow c : forall f sub k H, grown sub k -> avlc (f :: c) k H -> lean (fb f) c ->
  exists c0 fl subl kl, f :: c = c0 ++ [fl] /\ plug (bump <$> f :: c) sub = node (bump fl) subl /\
    grown subl kl /\ avlc [fl] kl H /\ fb fl = end_b (fb f) c.
Proof.
  induction c as [|g c IH]; intros f sub k H Hg Hc Hl.
  { by exists [], f, sub, k. }
  inversion Hc as [|? ? ? hs ? H1 H2 H3 H4]; subst. destruct Hl as [Hf Hl].
  assert (hs = k) as -> by (rewrite Hf in H2; destruct (fd f); simpl in H2; lia). rewrite Z.max_id in H4.
  assert (Hg' : grown (node (bump f) sub) (k + 1)).
  { unfold node, bump. simpl. rewrite Hf, Z.add_0_l. by constructor. }
  destruct (IH g _ _ _ Hg' H4 Hl) as (c0 & fl & subl & kl & E1 & E2 & E3). exists (f :: c0), fl, subl, kl.
  split; [by rewrite E1|]. split; [exact E2|done].
Qed.

Lemma avl_holds_size Fr h cs : holds Fr h cs -> (length cs <= base.size h)%nat.
Proof.
  intros H. replace (length cs) with (length cs.*1) by apply length_fmap.
  rewrite <- size_dom, <- (size_list_to_set (C := gset Z) cs.*1) by apply H.
  apply subseteq_size. intros x Hx. apply elem_of_list_to_set, list_elem_of_fmap in Hx as ([y n] & -> & Hin).
  apply elem_of_dom. simpl. rewrite (h_cells _ _ _ H _ _ Hin). by eexists.
Qed.

Lemma ccells_length c p : (length c <= length (ccells c p))%nat.
Proof. revert p. induction c as [|f c IH]; intros p; simpl; [lia|]. rewrite length_app. specialize (IH (fx f)). lia. Qed.

Lemma path_size Fr h c t : holds Fr h (cells (plug c t)) -> (length c <= base.size h)%nat.
Proof.
  rewrite plug_cells. intros H. apply avl_holds_size in H. rewrite length_app in H. pose proof (ccells_length c (ptr t)). lia.
Qed.

(** The parent is made to point to the rebalanced tree. *)
Lemma fix_parent Fr h f ctx t' q : q <> NULL -> q ∉ (cells (fs f)).*1 -> t' <> E ->
  holds Fr h (cells t' ++ ccells (f :: ctx) q) ->
  exists r h', ld (link true) (fx f) h = Some r /\ st (set_link (q =? r) (ptr t')) (fx f) h = Some h' /\
    holds Fr h' (cells (plug (f :: ctx) t')).
Proof.
  intros Hq Hqs Ht. simpl ccells. rewrite <- Permutation_middle. intros H.
  set (r := link true (mkn (fd f) (fb f) (fv f) q (ptr (fs f)))). exists r.
  destruct (st_first (set_link (q =? r) (ptr t')) _ _ _ H) as (h' & -> & H'). exists h'.
  split; [by rewrite (ld_first _ _ _ _ H)|]. split; [done|]. rewrite plug_cells. simpl. rewrite <- Permutation_middle.
  assert (set_link (q =? r) (ptr t') (mkn (fd f) (fb f) (fv f) q (ptr (fs f))) = mkn (fd f) (fb f) (fv f) (ptr t') (ptr (fs f))) as <-; [|done].
  unfold r. destruct (fd f); simpl; [by rewrite Z.eqb_refl|]. destruct (Z.eqb_spec q (ptr (fs f))) as [->|]; [|done].
  destruct (fs f) as [|y b v l r']; [done|]. exfalso. apply Hqs. left.
Qed.

(** The state of a tree. *)
Record is_avl (Fr : Z -> option jsw_avlnode_t) (t : jsw_avltree) (tr : tree) (H : Z) : Prop := {
  ia_root : root t = ptr tr;
  ia_holds : holds Fr (mem t) (cells tr);
  ia_avl : avl tr H }.

(** Linking the new node at the end of the path. *)
Lemma avl_attach_ok Fr h rn d f c : rn <> NULL -> h !! rn = None -> holds Fr h (cells (plug (f :: c) E)) ->
  exists h', st (set_link (fd f) rn) (fx f) (new_node rn d h) = Some h' /\ holds Fr h' (cells (plug (f :: c) (T rn 0 d E E))).
Proof.
  intros Hrn Hfree H. rewrite plug_cells in H. setoid_rewrite plug_cells. simpl in H |- *. unfold new_node. rewrite (proj2 (Z.eqb_neq _ _) Hrn).
  apply (holds_alloc rn (Node 0 d NULL NULL)) in H; [|done|done]. rewrite perm_swap in H.
  destruct (st_first (set_link (fd f) rn) _ _ _ H) as (h' & -> & H'). exists h'. split; [done|].
  rewrite perm_swap in H'. by destruct (fd f).
Qed.

(** A node that is not there: the link that was [NULL] is set to [NULL]. *)
Lemma attach_null Fr h d f c : holds Fr h (cells (plug (f :: c) E)) ->
  exists h', st (set_link (fd f) NULL) (fx f) (new_node NULL d h) = Some h' /\ holds Fr h' (cells (plug (f :: c) E)).
Proof.
  intros H. unfold new_node. simpl (NULL =? NULL). rewrite plug_cells in H. setoid_rewrite plug_cells. simpl in H |- *.
  destruct (st_first (set_link (fd f) NULL) _ _ _ H) as (h' & -> & H'). exists h'. split; [done|]. by destruct (fd f).
Qed.

(** The tree at [s] after the update and the rotation. *)
Lemma settle_ok Fr h fl subl kl Hs cs d : fd fl = (cmp (fv fl) d <? 0) -> grown subl kl -> avlc [fl] kl Hs ->
  holds Fr h (cells (node (bump fl) subl) ++ cs) ->
  exists t' h' Hs', (b ← ld balance (fx fl) h;
      if 1 <? Z.abs b then x ← ld data (fx fl) h; jsw_insert_balance (fx fl) (cmp x d <? 0) h else Some (fx fl, h)) = Some (ptr t', h') /\
    rebalanced Fr cs (node (bump fl) subl) t' Hs' h' /\ (Hs' = Hs \/ fb fl = 0).
Proof.
  intros Hd Hg Hc H. inversion Hc as [|? ? ? hs ? H1 H2 H3 H4]; subst. inversion H4; subst. unfold node in H |- *. simpl in H |- *.
  rewrite (ld_root balance _ _ _ _ _ _ _ _ _ H), (proj1 (balance_mkn _ _ _ _ _)). cbn [mbind option_bind].
  pose proof (grown_avl _ _ Hg) as Hga. destruct (Z.ltb_spec 1 (Z.abs (fb fl + sg (fd fl)))) as [Hb|Hb].
  - rewrite (ld_root data _ _ _ _ _ _ _ _ _ H), (proj2 (balance_mkn _ _ _ _ _)). cbn [mbind option_bind]. rewrite <- Hd.
    assert (Hbal : fb fl + sg (fd fl) = 2 * sg (fd fl) /\ hs = kl - 1) by (destruct (fd fl); simpl in *; lia).
    destruct Hbal as [Hbal ->]. rewrite Hbal in H |- *.
    destruct (jsw_insert_balance_ok _ _ _ _ _ _ _ _ _ Hg H1 H) as (t' & h' & Hi & Hr). exists t', h', (kl + 1).
    split_and!; [done|done|]. left. lia.
  - eexists (mk (fd fl) (fx fl) (fb fl + sg (fd fl)) (fv fl) subl (fs fl)), h, (Z.max (kl + 1) hs + 1). rewrite ptr_mk.
    split_and!; [done| |].
    + split_and!; [done| |done|apply mk_not_E]. apply avl_mk; [done|done|destruct (fd fl); simpl in *; lia..].
    + destruct (decide (fb fl = 0)); [by right|left]. destruct (fd fl); simpl in *; lia.
Qed.

Lemma nodup_top Fr h fl ctx t g : holds Fr h (cells (plug (fl :: g :: ctx) t)) -> fx fl ∉ (cells (fs g)).*1 /\ fx fl <> NULL /\ fx fl <> fx g.
Proof.
  rewrite plug_cells. simpl. rewrite <- Permutation_middle. intros H. split_and!.
  - destruct H as [H _ _ _]. simpl in H. apply NoDup_cons in H as [H _]. rewrite !fmap_app in H. simpl in H. rewrite fmap_app in H. set_solver.
  - by eapply not_null.
  - destruct H as [H _ _ _]. simpl in H. apply NoDup_cons in H as [H _]. rewrite !fmap_app in H. simpl in H. set_solver.
Qed.

(** The root differs from the nodes below it. *)
Lemma root_differs Fr h f g ctx t : holds Fr h (cells (plug (f :: g :: ctx) t)) -> fx f <> ptr (plug (f :: g :: ctx) t).
Proof.
  intros H. pose proof H as H0. rewrite plug_cells in H. simpl in H. rewrite <- Permutation_middle in H. destruct H as [H _ _ _]. simpl in H.
  apply NoDup_cons in H as [H _]. destruct (exists_last (l := g :: ctx)) as (c' & l & Hl); [done|].
  assert (Hp : ptr (plug (f :: g :: ctx) t) = fx l) by (rewrite Hl; apply (ptr_plug_snoc (f :: c'))).
  rewrite Hp. intros Heq. apply H. rewrite Heq.
  assert (Hin : fx l ∈ (ccells (g :: ctx) (fx f)).*1).
  { rewrite Hl. destruct (in_ccells l c' [] (fx f)) as [q Hq]. by apply (list_elem_of_fmap_2 fst) in Hq. }
  simpl in Hin. rewrite !fmap_app. simpl. set_solver.
Qed.

Lemma bump_elems c : forall t, elems (plug (bump <$> c) t) = elems (plug c t).
Proof.
  intros t. rewrite !plug_elems. assert (Hb : pre (bump <$> c) = pre c /\ post (bump <$> c) = post c).
  { induction c as [|g c [I1 I2]]; [done|]. rewrite fmap_cons. simpl. by rewrite I1, I2. }
  by destruct Hb as [-> ->].
Qed.

(** The update of the whole path, seen from [s]. *)
Lemma update_path Fr h1 rn d f c2 c1 H : Forall (leads d) (f :: c2 ++ c1) -> lean (fb f) c2 -> avlc (f :: c2 ++ c1) 0 H ->
  holds Fr h1 (cells (plug (f :: c2 ++ c1) (T rn 0 d E E))) ->
  exists c0 fl subl kl Hm h2, f :: c2 = c0 ++ [fl] /\ leads d fl /\ fb fl = end_b (fb f) c2 /\
    update_loop cmp (base.size h1) (fx fl) rn d h1 = Some h2 /\ grown subl kl /\ avlc [fl] kl Hm /\ avlc c1 Hm H /\
    holds Fr h2 (cells (node (bump fl) subl) ++ ccells c1 (fx fl)) /\
    elems (node (bump fl) subl) = elems (plug (f :: c2) (T rn 0 d E E)).
Proof.
  intros Hl Hlean Hc H1. rewrite app_comm_cons in Hl, Hc. apply Forall_app in Hl as [Hl _]. apply avlc_app in Hc as (Hm & Hc2 & Hc1).
  destruct (grow c2 f (T rn 0 d E E) 0 Hm (grown_new _ _) Hc2 Hlean) as (c0 & fl & subl & kl & G1 & G2 & G3 & G4 & G5).
  destruct (avl_update_loop_ok Fr d rn d (f :: c2) c1 (base.size h1) h1) as (h2 & Hu & H2); [|done|done|].
  { pose proof (path_size _ _ _ _ H1). simpl in *. rewrite length_app in *. lia. }
  exists c0, fl, subl, kl, Hm, h2. rewrite G1, ptr_plug_snoc in Hu. split_and!; try done.
  - rewrite G1 in Hl. apply Forall_app in Hl as [_ Hl]. by apply Forall_cons in Hl as [Hl _].
  - rewrite avl_plug_app, G2, plug_cells in H2. by rewrite ptr_node in H2.
  - rewrite <- G2. apply bump_elems.
Qed.

(** The last step: the tree at [s] is linked to its parent, or becomes the root. *)
Definition finish (t : jsw_avltree) (W : Z) (tp : option Z) (q s : Z) (m : heap) : option (bool * jsw_avltree) :=
  let done r m := Some (true, Avltree r ((size t + 1) mod 2 ^ W) m) in
  if q =? root t then done s m else
  match tp with
  | None => done (root t) m
  | Some tp => r ← ld (link true) tp m; m ← st (set_link (q =? r) s) tp m; done (root t) m
  end.

Lemma finish_ok W Fr t c0 fl c1 t' h3 Hm Hm' H : root t = ptr (plug (c0 ++ fl :: c1) E) -> holds Fr (mem t) (cells (plug (c0 ++ fl :: c1) E)) ->
  rebalanced Fr (ccells c1 (fx fl)) t' t' Hm' h3 -> avlc c1 Hm H -> (Hm' = Hm \/ c1 = []) ->
  exists t2 H2, finish t W (parent c1) (fx fl) (ptr t') h3 = Some (true, t2) /\ is_avl Fr t2 (plug c1 t') H2 /\
    size t2 = (size t + 1) mod 2 ^ W.
Proof.
  intros Hroot Hh (R1 & R2 & _ & R4) Hc Hhm. unfold finish. rewrite Hroot, avl_plug_app. rewrite avl_plug_app in Hh. destruct c1 as [|f1 c1].
  - simpl plug. rewrite ptr_node, Z.eqb_refl. eexists _, Hm'. split_and!; [done| |done]. split; [done| |done]. simpl in *.
    by rewrite app_nil_r in R1.
  - destruct (nodup_top _ _ _ _ _ _ Hh) as (N1 & N2 & N3). rewrite (proj2 (Z.eqb_neq _ _) (root_differs _ _ _ _ _ _ Hh)). change (parent (f1 :: c1)) with (Some (fx f1)).
    destruct (fix_parent _ _ f1 c1 t' (fx fl) N2 N1 R4 R1) as (rr & h4 & -> & K2 & K3). cbn [mbind option_bind]. rewrite K2.
    cbn [mbind option_bind]. assert (Hm' = Hm) as -> by (by destruct Hhm). eexists _, H. split_and!; [done| |done].
    split; [|done|apply plug_avl; by exists Hm]. simpl. apply ptr_plug. by rewrite !ptr_node.
Qed.

Lemma jsw_avlinsert_nonempty W Fr t tr H rn d : is_avl Fr t tr H -> tr <> E -> rn <> NULL -> mem t !! rn = None ->
  exists t' c H' tr', jsw_avlinsert cmp W t rn d = Some (true, t') /\ tr = plug c E /\ Forall (leads d) c /\
    is_avl Fr t' tr' H' /\ size t' = (size t + 1) mod 2 ^ W /\ elems tr' = pre c ++ d :: post c.
Proof.
  intros [Hroot Hh Ha] Hne Hrn Hfree. destruct tr as [|x b v l r]; [done|].
  assert (Hx : x <> NULL) by (apply (node_not_null _ _ [] false x b v l r Hh)). unfold jsw_avlinsert.
  rewrite Hroot. simpl ptr. rewrite (proj2 (Z.eqb_neq _ _) Hx).
  destruct (search_loop_ok Fr (mem t) d (base.size (mem t)) x b v l r [] [] (base.size (mem t))) as (f & c2 & c1 & E1 & E2 & Hl & Hlean & Hend);
    [by eapply avl_holds_size|done|done|done|done|by left|].
  change (parent []) with (@None Z) in E2. change (ptr (plug [] _)) with x in E2. rewrite E2. cbn [mbind option_bind].
  change (T x b v l r = plug (f :: c2 ++ c1) E) in E1. rewrite E1 in Hh, Ha, Hroot.
  apply plug_avl in Ha as (k0 & Hk0 & Hc). inversion Hk0; subst k0.
  destruct (avl_attach_ok _ _ rn d f (c2 ++ c1) Hrn Hfree Hh) as (h1 & -> & H1). cbn [mbind option_bind].
  rewrite (proj2 (Z.eqb_neq _ _) Hrn).
  destruct (update_path _ _ _ _ _ _ _ _ Hl Hlean Hc H1) as (c0 & fl & subl & kl & Hm & h2 & G1 & G2 & G3 & G4 & G5 & G6 & G7 & G8 & G9).
  rewrite G1, ptr_plug_snoc, G4. cbn [mbind option_bind].
  destruct (settle_ok Fr h2 fl subl kl Hm _ d G2 G5 G6 G8) as (t' & h3 & Hm' & Hset & (R1 & R2 & R3 & R4) & Hhm).
  destruct (ld balance (fx fl) h2) as [bb|]; [|done]. cbn [mbind option_bind] in Hset |- *. rewrite Hset. cbn [mbind option_bind].
  rewrite app_comm_cons, G1, <- app_assoc in Hh, Hroot. simpl app in Hh, Hroot.
  destruct (finish_ok W Fr t c0 fl c1 t' h3 Hm Hm' H Hroot Hh) as (t2 & H2 & F1 & F2 & F3); [done|done| |].
  { destruct Hhm; [by left|]. destruct Hend; [by right|congruence]. }
  exists t2, (f :: c2 ++ c1), H2, (plug c1 t'). split_and!; [|done|done|done|done|].
  - unfold finish in F1. rewrite Hroot in F1. rewrite <- F1. assert (x = ptr (plug (c0 ++ fl :: c1) E)) as <-; [|done].
    transitivity (ptr (T x b v l r)); [done|]. rewrite E1, app_comm_cons, G1, <- app_assoc. done.
  - rewrite plug_elems, R3, G9, <- plug_elems, <- avl_plug_app, plug_elems. done.
Qed.

(** When there is no memory the tree stays as it is. *)
Lemma jsw_avlinsert_null W Fr t tr H d : is_avl Fr t tr H ->
  exists t', jsw_avlinsert cmp W t NULL d = Some (false, t') /\ is_avl Fr t' tr H /\ size t' = size t.
Proof.
  intros [Hroot Hh Ha]. unfold jsw_avlinsert. rewrite Hroot. destruct tr as [|x b v l r].
  { eexists. split; [done|]. by split. }
  simpl ptr. rewrite (node_not_null_eqb _ _ [] false x b v l r Hh).
  destruct (search_loop_ok Fr (mem t) d (base.size (mem t)) x b v l r [] [] (base.size (mem t))) as (f & c2 & c1 & E1 & E2 & Hl & _);
    [by eapply avl_holds_size|done|done|done|done|by left|].
  change (parent []) with (@None Z) in E2. change (ptr (plug [] _)) with x in E2. rewrite E2. cbn [mbind option_bind].
  change (T x b v l r = plug (f :: c2 ++ c1) E) in E1. rewrite E1 in Hh.
  destruct (attach_null _ _ d f (c2 ++ c1) Hh) as (h1 & -> & H1). cbn [mbind option_bind]. rewrite <- E1 in H1.
  eexists. split; [done|]. by split.
Qed.

Lemma jsw_avlinsert_empty W Fr t H rn d : is_avl Fr t E H -> rn <> NULL -> mem t !! rn = None ->
  exists t', jsw_avlinsert cmp W t rn d = Some (true, t') /\ is_avl Fr t' (T rn 0 d E E) 1 /\ size t' = (size t + 1) mod 2 ^ W.
Proof.
  intros [Hroot Hh _] Hrn Hfree. unfold jsw_avlinsert. rewrite Hroot. simpl ptr. rewrite Z.eqb_refl, (proj2 (Z.eqb_neq _ _) Hrn).
  eexists. split; [done|]. split; [|done]. split; [done| |].
  - simpl. unfold new_node. rewrite (proj2 (Z.eqb_neq _ _) Hrn). by apply holds_alloc.
  - apply (avl_mk' false rn 0 d E E 0 0); first [apply avl_E|done].
Qed.

End order.

End AvlInsert.
