(* ===== verification/StampAvlErase.v ===== *)
(** * The height-balanced tree: removal

    The stacks of [jsw_avlerase] are the path to the node that is unlinked; the subtree there has
    become lower by one, and the walk back up repairs the path. *)

From S2P Require Import Prelude StampAvl StampAvlTree StampAvlInsert.
Import Avl AvlTree AvlInsert.

Module AvlErase.

(** The stacks of a path. *)
Definition stack_of (c : list frame) : stack := (fun f => (fx f, fd f)) <$> c.

Lemma push_ok x dir up : (length up < 64)%nat -> push x dir up = Some ((x, dir) :: up).
Proof. intros H. unfold push, HEIGHT_LIMIT. by rewrite (proj2 (Nat.ltb_lt _ _) H). Qed.

Lemma avl_child dir x b v a c h : avl (mk dir x b v a c) h -> exists ha, avl a ha /\ ha <= h - 1.
Proof. intros H. destruct (avl_mk_inv _ _ _ _ _ _ _ H) as (ha & hc & Ha & Hc & _ & _ & ->). exists ha. split; [done|lia]. Qed.

Lemma avl_node_pos dir x b v a c h : avl (mk dir x b v a c) h -> 1 <= h.
Proof.
  intros H. destruct (avl_mk_inv _ _ _ _ _ _ _ H) as (ha & hc & Ha & Hc & _ & _ & ->). apply avl_nonneg in Ha, Hc. lia.
Qed.

(** ** The search *)

Lemma erase_search_ok cmp Fr h d : forall n P ctx hP fuel, (length (cells P) <= n)%nat -> (n <= fuel)%nat ->
  holds Fr h (cells (plug ctx P)) -> avl P hP -> Z.of_nat (length ctx) + hP <= 64 ->
  Forall (leads cmp d) ctx -> Forall (fun f => cmp (fv f) d <> 0) ctx ->
  exists ctx' P' hP', plug ctx P = plug ctx' P' /\ erase_search cmp fuel (ptr P) d (stack_of ctx) h = Some (ptr P', stack_of ctx') /\
    avl P' hP' /\ Z.of_nat (length ctx') + hP' <= 64 /\
    Forall (leads cmp d) ctx' /\ Forall (fun f => cmp (fv f) d <> 0) ctx' /\
    (P' = E \/ exists x b v l r, P' = T x b v l r /\ cmp v d = 0).
Proof.
  induction n as [|n IH]; intros P ctx hP fuel Hn Hf H Ha Hd Hl Hs;
    (destruct P as [|x b v l r]; [exists ctx, E, hP; destruct fuel; split_and!; (done || by left)|]).
  { simpl in Hn. lia. }
  destruct fuel as [|fuel]; [lia|]. destruct (step_down cmp d x b v l r) as (a & c & Heq & Hlt).
  rewrite Heq in H, Ha |- *. rewrite ptr_mk. cbn [erase_search]. rewrite (node_not_null_eqb _ _ _ _ _ _ _ _ _ H).
  rewrite (ld_plug data _ _ _ _ _ _ _ _ _ H), (proj2 (balance_mkn _ _ _ _ _)). cbn [mbind option_bind].
  destruct (Z.eqb_spec (cmp v d) 0) as [He|Hne].
  - exists ctx, (T x b v l r), hP. rewrite Heq, ptr_mk. split_and!; try done. right. by exists x, b, v, l, r.
  - pose proof (avl_node_pos _ _ _ _ _ _ _ Ha). destruct (avl_child _ _ _ _ _ _ _ Ha) as (ha & Haa & Hle).
    rewrite push_ok by (unfold stack_of; rewrite length_fmap; lia). cbn [mbind option_bind].
    rewrite (ld_plug (link _) _ _ _ _ _ _ _ _ _ H), (proj1 (link_mkn _ _ _ _ _)). cbn [mbind option_bind].
    rewrite plug_step in H |- *. set (f := F (cmp v d <? 0) x b v c) in *.
    change ((x, cmp v d <? 0) :: stack_of ctx) with (stack_of (f :: ctx)).
    eapply IH; [lia|lia|done|done|simpl; lia|by apply Forall_cons|by apply Forall_cons].
Qed.

(** ** The successor *)

Lemma heir_loop_ok Fr h : forall n x b v l r ctx hP fuel, (length (cells (T x b v l r)) <= n)%nat -> (n <= fuel)%nat ->
  holds Fr h (cells (plug ctx (T x b v l r))) -> avl (T x b v l r) hP -> Z.of_nat (length ctx) + hP <= 64 ->
  exists ch hx hb hv hr, T x b v l r = plug ch (T hx hb hv E hr) /\ Forall (fun f => fd f = false) ch /\
    heir_loop fuel x (stack_of ctx) h = Some (hx, stack_of (ch ++ ctx)) /\ Z.of_nat (length (ch ++ ctx)) + 1 <= 64.
Proof.
  induction n as [|n IH]; intros x b v l r ctx hP fuel Hn Hf H Ha Hd; [simpl in Hn; lia|].
  destruct fuel as [|fuel]; [lia|]. cbn [heir_loop].
  change (T x b v l r) with (mk false x b v l r) in H, Ha. pose proof (avl_node_pos _ _ _ _ _ _ _ Ha).
  rewrite (ld_plug (link false) _ _ _ _ _ _ _ _ _ H), (proj1 (link_mkn false _ _ _ _)). cbn [mbind option_bind].
  rewrite plug_step in H. set (f := F false x b v r) in *. destruct (Z.eqb_spec (ptr l) NULL) as [He|Hne].
  - apply (ptr_null _ _ _ _ H) in He as ->. exists [], x, b, v, r. split_and!; [done|done|done|simpl; lia].
  - destruct l as [|y by' vy ly ry]; [done|]. simpl ptr. destruct (avl_child _ _ _ _ _ _ _ Ha) as (ha & Haa & Hle).
    rewrite push_ok by (unfold stack_of; rewrite length_fmap; lia). cbn [mbind option_bind].
    change ((x, false) :: stack_of ctx) with (stack_of (f :: ctx)).
    destruct (IH y by' vy ly ry (f :: ctx) ha fuel) as (ch & hx & hb & hv & hr & E1 & E2 & E3 & E4).
    { simpl in Hn |- *. rewrite length_app in Hn |- *. simpl in Hn |- *. rewrite ?length_app in *. lia. }
    { lia. }
    { done. }
    { done. }
    { simpl. lia. }
    exists (ch ++ [f]), hx, hb, hv, hr. rewrite <- app_assoc. split_and!; [|apply Forall_app; by repeat constructor|done|done].
    rewrite avl_plug_app, <- E1. done.
Qed.

(** ** Unlinking a node *)

(** The link of the path to its end. *)
Lemma relink_ok Fr h f ctx p q cs : holds Fr h (ccells (f :: ctx) p ++ cs) ->
  exists h', st (set_link (fd f) q) (fx f) h = Some h' /\ holds Fr h' (ccells (f :: ctx) q ++ cs).
Proof.
  simpl. intros H. destruct (st_first (set_link (fd f) q) _ _ _ H) as (h' & -> & H'). exists h'. split; [done|]. by destruct (fd f).
Qed.

(** The state after a node was unlinked: at the end of the path [c] is a tree lower by one. *)
Record cut (Fr : Z -> option jsw_avlnode_t) (up : stack) (r : Z) (m : heap) (c : list frame) (P : tree) (H : Z) : Prop := {
  cut_up : up = stack_of c;
  cut_root : r = ptr (plug c P);
  cut_holds : holds Fr m (cells (plug c P));
  cut_avl : exists k, avl P k /\ avlc c (k + 1) H }.

Lemma head_stack f c : head (stack_of (f :: c)) = Some (fx f, fd f).
Proof. done. Qed.

(** One of the children is missing: the other one takes the place of the node. *)
Definition only (l r : tree) : tree := match l with E => r | _ => l end.
Definition missing (t : tree) : bool := match t with E => true | _ => false end.

Lemma only_cells l r : l = E \/ r = E -> cells (only l r) = cells l ++ cells r.
Proof. intros [->|Hr]; [done|]. subst r. destruct l; simpl; by rewrite ?app_nil_r. Qed.

Lemma only_elems l r : l = E \/ r = E -> elems (only l r) = elems l ++ elems r.
Proof. intros [->|Hr]; [done|]. subst r. destruct l; simpl; by rewrite ?app_nil_r. Qed.

Lemma only_avl x b v l r k : avl (T x b v l r) k -> l = E \/ r = E -> avl (only l r) (k - 1).
Proof.
  intros Ha Hlr. inversion Ha as [|? ? ? ? ? hl hr Hl Hr]; subst. pose proof (avl_nonneg _ _ Hl). pose proof (avl_nonneg _ _ Hr).
  destruct l as [|y by' vy ly ry]; simpl.
  - inversion Hl; subst. by replace (Z.max 0 hr + 1 - 1) with hr by lia.
  - destruct Hlr as [|Hr']; [done|]. subst r. inversion Hr; subst. by replace (Z.max hl 0 + 1 - 1) with hl by lia.
Qed.

Lemma missing_eqb Fr h ctx t : holds Fr h (cells (plug ctx t)) -> (ptr t =? NULL) = missing t.
Proof. intros H. destruct t as [|x b v l r]; [done|]. apply (node_not_null_eqb Fr h ctx false x b v l r H). Qed.

(** The links of the node [it] and the tests on them. *)
Lemma unlink_links Fr h ctx it b v l r : holds Fr h (cells (plug ctx (T it b v l r))) ->
  ld (link false) it h = Some (ptr l) /\ ld (link true) it h = Some (ptr r) /\
  (ptr l =? NULL) = missing l /\ (ptr r =? NULL) = missing r.
Proof.
  intros H. split_and!.
  - exact (ld_plug (link false) Fr h ctx false it b v l r H).
  - exact (ld_plug (link true) Fr h ctx false it b v l r H).
  - exact (missing_eqb Fr h (F false it b v r :: ctx) l H).
  - exact (missing_eqb Fr h (F true it b v l :: ctx) r H).
Qed.

Lemma avl_unlink_leaf Fr h ctx it b v l r H root : holds Fr h (cells (plug ctx (T it b v l r))) -> avl (plug ctx (T it b v l r)) H ->
  root = ptr (plug ctx (T it b v l r)) -> l = E \/ r = E ->
  exists up' root' m', unlink it root (stack_of ctx) h = Some (up', root', m') /\ cut (without it Fr) up' root' m' ctx (only l r) H.
Proof.
  intros Hh Ha Hroot Hlr. destruct (unlink_links _ _ _ _ _ _ _ _ Hh) as (Hl & Hr & Hnl & Hnr).
  apply plug_avl in Ha as (k & Ha & Hc). apply only_avl in Ha; [|done].
  assert (Hk : exists k, avl (only l r) k /\ avlc ctx (k + 1) H) by (exists (k - 1); split; [done|by rewrite Z.sub_add]).
  assert (Hor : missing l || missing r = true) by (destruct Hlr as [->| ->]; [done|apply orb_true_r]).
  unfold unlink. rewrite Hl, Hr. cbn [mbind option_bind]. rewrite Hnl, Hnr, Hor.
  assert (Hd : ld (link (missing l)) it h = Some (ptr (only l r))) by (by destruct l).
  rewrite Hd. cbn [mbind option_bind]. rewrite plug_cells in Hh. simpl in Hh. rewrite <- only_cells in Hh by done.
  destruct ctx as [|f ctx].
  - simpl. destruct (free_first _ _ _ _ _ Hh) as (m' & -> & Hm). cbn [mbind option_bind]. eexists _, _, m'. split; [done|].
    split; [done|done| |done]. simpl in Hm |- *. by rewrite app_nil_r in Hm.
  - assert (Hh' : holds Fr h (ccells (f :: ctx) it ++ (it, Node b v (ptr l) (ptr r)) :: cells (only l r))).
    { eapply holds_perm; [|exact Hh]. solve_Permutation. }
    destruct (relink_ok _ _ _ _ _ (ptr (only l r)) _ Hh') as (h1 & E1 & H1). cbn [stack_of fmap list_fmap]. rewrite E1. cbn [mbind option_bind].
    rewrite <- Permutation_middle in H1. destruct (free_first _ _ _ _ _ H1) as (m' & -> & Hm). cbn [mbind option_bind].
    eexists _, _, m'. split; [done|]. split; [done| | |done].
    + rewrite Hroot. simpl. apply ptr_plug. by rewrite !ptr_node.
    + rewrite plug_cells. eapply holds_perm; [|exact Hm]. solve_Permutation.
Qed.

(** The address at the top of a path. *)
Fixpoint ptop (c : list frame) (p : Z) : Z := match c with [] => p | f :: c => ptop c (fx f) end.

Lemma ccells_app c1 : forall c2 p, ccells (c1 ++ c2) p = ccells c1 p ++ ccells c2 (ptop c1 p).
Proof. induction c1 as [|f c1 IH]; intros c2 p; simpl; [done|]. by rewrite IH, <- app_assoc. Qed.

(** The data of a node on the path. *)
Lemma data_path Fr h ch d x b v s ctx p cs v' : holds Fr h (ccells (ch ++ F d x b v s :: ctx) p ++ cs) ->
  ld data x h = Some v /\
  exists h', st (set_data v') x h = Some h' /\ holds Fr h' (ccells (ch ++ F d x b v' s :: ctx) p ++ cs).
Proof.
  assert (HP : forall v, ccells (ch ++ F d x b v s :: ctx) p ++ cs ≡ₚ
    (x, mkn d b v (ptop ch p) (ptr s)) :: ccells ch p ++ cells s ++ ccells ctx x ++ cs).
  { intros w. rewrite ccells_app. simpl. solve_Permutation. }
  setoid_rewrite HP. intros H. rewrite (ld_first _ _ _ _ H), (proj2 (balance_mkn _ _ _ _ _)). split; [done|].
  destruct (st_first (set_data v') _ _ _ H) as (h' & -> & H'). exists h'. split; [done|]. by destruct d.
Qed.

Lemma holds_mid Fr h l1 l2 (c : cell) : holds Fr h (l1 ++ c :: l2) -> holds Fr h (c :: l1 ++ l2).
Proof. apply holds_perm. solve_Permutation. Qed.

(** The first node of the path to the heir, and the test on it. *)
Lemma heir_parent Fr h ch it b v l ctx t : holds Fr h (cells (plug (ch ++ F true it b v l :: ctx) t)) -> Forall (fun f => fd f = false) ch ->
  exists f c, ch ++ F true it b v l :: ctx = f :: c /\ (fx f =? it) = fd f.
Proof.
  intros H Hch. destruct ch as [|f ch]; [eexists _, _; split; [done|]; apply Z.eqb_refl|]. exists f, (ch ++ F true it b v l :: ctx). split; [done|].
  apply Forall_cons in Hch as [Hf _]. rewrite Hf. apply Z.eqb_neq. intros Heq. rewrite plug_cells in H. simpl in H.
  apply holds_mid in H. destruct H as [H _ _ _]. simpl in H. apply NoDup_cons in H as [H _]. apply H.
  destruct (in_ccells (F true it b v l) ch ctx (fx f)) as [q Hq]. apply (list_elem_of_fmap_2 fst) in Hq. simpl in Hq.
  rewrite !fmap_app, Heq. rewrite Heq in Hq. set_solver.
Qed.

(** Moving the data of the heir and unlinking it. *)
Lemma splice_heir Fr h ch it b v l ctx hx hb hv hr (root : Z) : Forall (fun f => fd f = false) ch ->
  holds Fr h (cells (plug (ch ++ F true it b v l :: ctx) (T hx hb hv E hr))) ->
  let up := stack_of (ch ++ F true it b v l :: ctx) in
  exists m', (save ← ld data it h; h0 ← ld data hx h; m ← st (set_data h0) it h; m ← st (set_data save) hx m;
      c ← ld (link true) hx m; u ← fst <$> head up; m ← st (set_link (u =? it) c) u m; m ← P_FREE hx m; Some (up, root, m))
    = Some (up, root, m') /\ holds (without hx Fr) m' (cells (plug (ch ++ F true it b hv l :: ctx) hr)).
Proof.
  intros Hch H up. rewrite plug_cells in H. simpl cells in H. simpl ptr in H. rewrite <- app_comm_cons in H.
  assert (Hx : ld data hx h = Some hv) by exact (ld_first data _ _ _ H).
  assert (H0 : holds Fr h (ccells (ch ++ F true it b v l :: ctx) hx ++ (hx, Node hb hv NULL (ptr hr)) :: cells hr)).
  { eapply holds_perm; [|exact H]. solve_Permutation. }
  destruct (data_path _ _ _ _ _ _ _ _ _ _ _ hv H0) as (Hit & h1 & E1 & H1). rewrite Hit. cbn [mbind option_bind]. rewrite Hx.
  cbn [mbind option_bind]. rewrite E1. cbn [mbind option_bind]. apply holds_mid in H1.
  destruct (st_first (set_data v) _ _ _ H1) as (h2 & -> & H2). cbn [mbind option_bind]. rewrite (ld_first _ _ _ _ H2). cbn [mbind option_bind].
  assert (Hup : stack_of (ch ++ F true it b hv l :: ctx) = up) by (unfold up, stack_of; by rewrite !fmap_app).
  simpl set_data in H2 |- *. destruct (heir_parent Fr h2 ch it b hv l ctx (T hx hb v E hr)) as (f & c & Hfc & Hfd); [|done|].
  { rewrite plug_cells. simpl. eapply holds_perm; [|exact H2]. solve_Permutation. }
  rewrite <- Hup, Hfc, head_stack. cbn [fmap option_fmap option_map mbind option_bind fst link set_data link1]. rewrite Hfd.
  rewrite Hfc in H2.
  assert (H3 : holds Fr h2 (ccells (f :: c) hx ++ (hx, Node hb v NULL (ptr hr)) :: cells hr)).
  { eapply holds_perm; [|exact H2]. solve_Permutation. }
  destruct (relink_ok _ _ _ _ _ (ptr hr) _ H3) as (h4 & E4 & H4). simpl link. rewrite E4. cbn [mbind option_bind].
  apply holds_mid in H4. destruct (free_first _ _ _ _ _ H4) as (m' & -> & Hm). cbn [mbind option_bind]. exists m'.
  split; [done|]. rewrite plug_cells. eapply holds_perm; [|exact Hm]. solve_Permutation.
Qed.

Lemma unlink_heir Fr h ctx it b v l r H root k : holds Fr h (cells (plug ctx (T it b v l r))) -> avl (plug ctx (T it b v l r)) H ->
  root = ptr (plug ctx (T it b v l r)) -> l <> E -> r <> E -> avl r k -> Z.of_nat (length ctx) + 1 + k <= 64 ->
  exists ch hx hb hv hr up' root' m', r = plug ch (T hx hb hv E hr) /\ Forall (fun f => fd f = false) ch /\
    unlink it root (stack_of ctx) h = Some (up', root', m') /\
    cut (without hx Fr) up' root' m' (ch ++ F true it b hv l :: ctx) hr H.
Proof.
  intros Hh Ha Hroot Hl Hr Hk Hd. destruct (unlink_links _ _ _ _ _ _ _ _ Hh) as (Hll & Hlr & Hnl & Hnr).
  destruct r as [|y by' vy ly ry]; [done|].
  destruct (heir_loop_ok Fr h (base.size h) y by' vy ly ry (F true it b v l :: ctx) k (base.size h))
    as (ch & hx & hb & hv & hr & E1 & E2 & E3 & E4); [|done|exact Hh|done|simpl; lia|].
  { apply avl_holds_size in Hh. rewrite plug_cells in Hh. simpl in Hh |- *. rewrite !length_app in *. simpl in *. rewrite length_app in *. lia. }
  assert (Hpl : forall X v, plug ctx (T it b v l (plug ch X)) = plug (ch ++ F true it b v l :: ctx) X).
  { intros X w. by rewrite avl_plug_app. }
  rewrite E1, Hpl in Hh, Ha, Hroot. exists ch, hx, hb, hv, hr. unfold unlink. rewrite Hll, Hlr. cbn [mbind option_bind]. rewrite Hnl, Hnr.
  assert (missing l || missing (T y by' vy ly ry) = false) as -> by (by destruct l).
  rewrite push_ok by (unfold stack_of; rewrite length_fmap; pose proof (avl_nonneg _ _ Hk); lia). cbn [mbind option_bind].
  change ((it, true) :: stack_of ctx) with (stack_of (F true it b v l :: ctx)). change (ptr (T y by' vy ly ry)) with y.
  rewrite E3. cbn [mbind option_bind].
  destruct (splice_heir Fr h ch it b v l ctx hx hb hv hr root E2 Hh) as (m' & Hs & Hm). eexists _, _, m'.
  split; [done|]. split; [done|]. split; [exact Hs|].
  split; [unfold stack_of; by rewrite !fmap_app| |done|].
  - rewrite Hroot, !avl_plug_app. simpl. apply ptr_plug. by rewrite !ptr_node.
  - apply plug_avl in Ha as (k1 & Ha & Hc). inversion Ha as [|? ? ? ? ? hl0 hr0 Hl0 Hr0]; subst. inversion Hl0; subst.
    exists hr0. split; [done|]. apply avl_nonneg in Hr0 as Hn. rewrite Z.max_r in Hc by done.
    apply avlc_app in Hc as (m & Hc1 & Hc2). apply avlc_app. exists m. split; [done|].
    inversion Hc2 as [|? ? ? hs ? K1 K2 K3 K4]; subst. by eapply avlc_cons.
Qed.

(** ** The walk back *)

Definition repaired (Fr : Z -> option jsw_avlnode_t) (old : tree) (r : Z) (m : heap) : Prop :=
  exists t H, r = ptr t /\ holds Fr m (cells t) /\ avl t H /\ elems t = elems old.

(** After a rotation the parent is made to point to the new tree; the walk goes on above it. *)
Lemma walk_fix Fr c t t' p done root m h0 : holds Fr m (cells t' ++ ccells c p) -> root = ptr (plug c t) ->
  h0 = (match stack_of c with
    | (v, vd) :: _ => m ← st (set_link vd (ptr t')) v m; walk (stack_of c) done root m
    | [] => walk (stack_of c) done (ptr t') m end) ->
  exists m', h0 = walk (stack_of c) done (ptr (plug c t')) m' /\ holds Fr m' (cells (plug c t')).
Proof.
  intros H Hroot ->. destruct c as [|f c].
  - exists m. simpl in *. by rewrite app_nil_r in H.
  - assert (H' : holds Fr m (ccells (f :: c) p ++ cells t')) by (eapply holds_perm; [|exact H]; apply Permutation_app_comm).
    destruct (relink_ok _ _ _ _ _ (ptr t') _ H') as (m' & E1 & H1). cbn [stack_of fmap list_fmap]. rewrite E1. cbn [mbind option_bind].
    exists m'. split.
    + f_equal. rewrite Hroot. simpl. apply ptr_plug. by rewrite !ptr_node.
    + rewrite plug_cells. eapply holds_perm; [|exact H1]. apply Permutation_app_comm.
Qed.

Lemma plug_elems_eq c t t' : elems t = elems t' -> elems (plug c t) = elems (plug c t').
Proof. intros Heq. by rewrite !plug_elems, Heq. Qed.

Lemma walk_done c root m : walk (stack_of c) true root m = Some (root, m).
Proof. by destruct c. Qed.

Lemma walk_ok Fr c : forall P k H m, holds Fr m (cells (plug c P)) -> avl P k -> avlc c (k + 1) H ->
  exists r m', walk (stack_of c) false (ptr (plug c P)) m = Some (r, m') /\ repaired Fr (plug c P) r m'.
Proof.
  induction c as [|f c IH]; intros P k H m Hh Ha Hc.
  { exists (ptr P), m. split; [done|]. by exists P, k. }
  inversion Hc as [|? ? ? hs ? H1 H2 H3 H4]; subst. unfold stack_of. rewrite fmap_cons. cbn [walk].
  change ((fun f => (fx f, fd f)) <$> c) with (stack_of c).
  change (plug (f :: c) P) with (plug c (node f P)) in *. unfold node in *.
  rewrite (ld_plug balance _ _ _ _ _ _ _ _ _ Hh), (proj1 (balance_mkn _ _ _ _ _)). cbn [mbind option_bind].
  set (b' := fb f + (if fd f then -1 else 1)).
  assert (Hb' : b' = sg (fd f) * (k - hs)) by (unfold b'; destruct (fd f); simpl in *; lia).
  rewrite plug_cells in Hh. destruct (st_root b' _ _ _ _ _ _ _ _ _ Hh) as (m1 & -> & Hh1). cbn [mbind option_bind].
  assert (Hroot : ptr (plug c (mk (fd f) (fx f) (fb f) (fv f) P (fs f))) = ptr (plug c (mk (fd f) (fx f) b' (fv f) P (fs f)))).
  { apply ptr_plug. by rewrite !ptr_mk. }
  assert (Hel : elems (plug c (mk (fd f) (fx f) (fb f) (fv f) P (fs f))) = elems (plug c (mk (fd f) (fx f) b' (fv f) P (fs f)))).
  { apply plug_elems_eq. by rewrite !elems_mk. }
  assert (Hh2 : holds Fr m1 (cells (plug c (mk (fd f) (fx f) b' (fv f) P (fs f))))).
  { rewrite plug_cells, ptr_mk. by rewrite ptr_mk in Hh1. }
  rewrite ptr_mk in Hh1. rewrite Hroot. unfold repaired. rewrite Hel. destruct (Z.eqb_spec (Z.abs b') 1) as [E1|E1].
  - eexists _, m1. split; [done|]. exists (plug c (mk (fd f) (fx f) b' (fv f) P (fs f))), H. split_and!; [done|done| |done]. apply plug_avl. exists (Z.max (k + 1) hs + 1).
    split; [|done]. eapply avl_mk'; [done|done|done|lia|]. destruct (fd f); simpl in *; lia.
  - destruct (Z.ltb_spec 1 (Z.abs b')) as [E2|E2].
    + assert (hs = k + 2) as -> by (destruct (fd f); simpl in *; lia).
      destruct (jsw_remove_balance_ok Fr m1 (ccells c (fx f)) (fd f) (fx f) b' (fv f) P (fs f) (k + 1)) as (t' & dn & m2 & E3 & R1 & R2 & R3 & R4);
        [by replace (k + 1 - 1) with k by lia|by replace (k + 1 + 1) with (k + 2) by lia|exact Hh1|].
      rewrite E3. cbn [mbind option_bind].
      destruct (walk_fix Fr c (mk (fd f) (fx f) b' (fv f) P (fs f)) t' (fx f) dn _ m2 _ R1 eq_refl eq_refl) as (m3 & E4 & Hm3).
      rewrite E4. replace (Z.max (k + 1) (k + 2) + 1) with (k + 3) in H4 by lia.
      destruct dn; [rewrite walk_done|destruct (IH t' (k + 2) H m3) as (r & m' & E5 & t2 & H2' & E6 & E7 & E8 & E9)].
      * eexists _, m3. split; [done|]. exists (plug c t'), H. split_and!; [done|done| |by apply plug_elems_eq].
        apply plug_avl. exists (k + 3). split; [|done]. by replace (k + 3) with (k + 1 + 2) by lia.
      * done.
      * by replace (k + 2) with (k + 1 + 1) by lia.
      * by replace (k + 2 + 1) with (k + 3) by lia.
      * exists r, m'. split; [done|]. exists t2, H2'. split_and!; [done|done|done|]. rewrite E9. by apply plug_elems_eq.
    + assert (b' = 0 /\ hs = k) as [Hb0 ->] by (destruct (fd f); simpl in *; lia).
      apply (IH _ (k + 1) H m1 Hh2); [|by replace (k + 1 + 1) with (Z.max (k + 1) k + 1) by lia].
      eapply avl_mk'; [done|done|done|lia|lia].
Qed.

End AvlErase.
