(* ===== verification/StampAvlTrav.v ===== *)
(** * The height-balanced tree: traversal, destruction and the bound on the height

    The path of a traversal is the path of the current node; a move takes the next element in its
    direction.  A balanced tree with fewer than [2 ^ 45] nodes is at most 64 high, so that neither
    the path nor the stacks of a removal overflow. *)

From S2P Require Import Prelude StampAvl StampAvlTree StampAvlInsert StampAvlErase.
Import Avl AvlTree AvlInsert AvlErase.

Module AvlTrav.

(** ** Height *)

(** The least number of nodes of a tree of height [n], and of height [n + 1]. *)
Definition least (n : nat) : Z * Z := Nat.iter n (fun p => (snd p, fst p + snd p + 1)) (0, 1).

Lemma least_S n : snd (least n) = fst (least (S n)).
Proof. done. Qed.

Lemma least_SS n : fst (least (S (S n))) = fst (least n) + fst (least (S n)) + 1.
Proof. done. Qed.

Lemma least_mono n m : (n <= m)%nat -> 0 <= fst (least n) <= fst (least m).
Proof.
  assert (H : forall k, 0 <= fst (least k) <= fst (least (S k))).
  { induction k as [|k IH]; [done|]. rewrite least_SS. lia. }
  induction 1 as [|m Hle IH]; [specialize (H n); lia|]. specialize (H m). lia.
Qed.

Lemma avl_least t h : avl t h -> fst (least (Z.to_nat h)) <= Z.of_nat (length (elems t)).
Proof.
  induction 1 as [|x b d l r hl hr Hl IHl Hr IHr Hb Hb']; [done|]. apply avl_nonneg in Hl, Hr. simpl. rewrite length_app. simpl.
  destruct (decide (Z.max hl hr = 0)) as [He|Hne].
  - rewrite He. simpl. lia.
  - replace (Z.to_nat (Z.max hl hr + 1)) with (S (S (Z.to_nat (Z.max hl hr - 1)))) by lia. rewrite least_SS.
    replace (S (Z.to_nat (Z.max hl hr - 1))) with (Z.to_nat (Z.max hl hr)) by lia.
    pose proof (least_mono (Z.to_nat (Z.max hl hr - 1)) (Z.to_nat (Z.min hl hr)) ltac:(lia)).
    destruct (Z.max_spec hl hr) as [[? Hm]|[? Hm]], (Z.min_spec hl hr) as [[? Hm']|[? Hm']]; rewrite Hm, ?Hm' in *; lia.
Qed.

Lemma avl_height t h : avl t h -> Z.of_nat (length (elems t)) < 2 ^ 45 -> h <= 64.
Proof.
  intros Ha Hl. apply avl_least in Ha. destruct (decide (h <= 64)) as [|Hn]; [done|]. exfalso.
  pose proof (least_mono 65 (Z.to_nat h) ltac:(lia)) as [_ Hm].
  assert (H65 : 2 ^ 45 < fst (least 65)) by (vm_compute; reflexivity). lia.
Qed.

(** ** Elements in a direction *)

Definition seqd (dir : bool) (l : list Z) : list Z := if dir then l else reverse l.

(** What comes after the hole of a context. *)
Definition rem (dir : bool) (ctx : list frame) : list Z := if dir then post ctx else reverse (pre ctx).

Lemma seqd_mk dir x b v a c : seqd dir (elems (mk dir x b v a c)) = seqd dir (elems c) ++ v :: seqd dir (elems a).
Proof.
  destruct dir; simpl; [done|]. rewrite reverse_app, reverse_cons, <- app_assoc. done.
Qed.

Lemma rem_same dir x b v a ctx : rem dir (F dir x b v a :: ctx) = rem dir ctx.
Proof. destruct dir; simpl; [done|by rewrite app_nil_r]. Qed.

Lemma rem_other dir x b v a ctx : rem dir (F (negb dir) x b v a :: ctx) = v :: seqd dir (elems a) ++ rem dir ctx.
Proof. destruct dir; simpl; [done|]. rewrite reverse_app, reverse_app. done. Qed.

Lemma avlc_length c k H : avlc c k H -> k + Z.of_nat (length c) <= H.
Proof. induction 1 as [|f ctx k hs H H1 H2 H3 H4 IH]; simpl; lia. Qed.

Lemma depth_ok ctx t H : avl (plug ctx t) H -> H <= 64 -> exists ht, avl t ht /\ Z.of_nat (length ctx) + ht <= 64.
Proof. intros Ha HH. apply plug_avl in Ha as (k & Hk & Hc). apply avlc_length in Hc. exists k. split; [done|lia]. Qed.

(** The traversal is at the node [x] with data [v] and its child [a] on side [dir]; [todo] is what
    comes after it. *)
Definition at_node (dir : bool) (tr : tree) (x : Z) (path : list Z) (v : Z) (todo : list Z) : Prop :=
  exists ctx b a c, tr = plug ctx (mk dir x b v a c) /\ path = fx <$> ctx /\ todo = seqd dir (elems a) ++ rem dir ctx.

Lemma push_path_ok x path : (length path < 64)%nat -> push_path x path = Some (x :: path).
Proof. intros H. unfold push_path, HEIGHT_LIMIT. by rewrite (proj2 (Nat.ltb_lt _ _) H). Qed.

Section traversal.
Context {Fr : Z -> option jsw_avlnode_t} {h : heap} {tr : tree} {H : Z}.
Hypotheses (Hh : holds Fr h (cells tr)) (Ha : avl tr H) (HH : H <= 64).

Lemma push_node ctx dir x b v a c : tr = plug ctx (mk dir x b v a c) -> a <> E \/ c <> E -> push_path x (fx <$> ctx) = Some (x :: (fx <$> ctx)).
Proof.
  intros Htr Hac. apply push_path_ok. rewrite length_fmap. rewrite Htr in Ha. destruct (depth_ok _ _ _ Ha HH) as (ht & Ht & Hd).
  apply avl_node_pos in Ht as Hp. lia.
Qed.

Lemma plug_other ctx dir x b v a c : plug ctx (mk dir x b v a c) = plug (F (negb dir) x b v a :: ctx) c.
Proof. simpl. unfold node. simpl. by rewrite mk_negb. Qed.

Lemma descend_ok dir : forall n t ctx fuel, t <> E -> (length (cells t) <= n)%nat -> (n <= fuel)%nat -> tr = plug ctx t ->
  exists x path v todo, descend fuel (negb dir) (ptr t) (fx <$> ctx) h = Some (x, path) /\
    seqd dir (elems t) ++ rem dir ctx = v :: todo /\ at_node dir tr x path v todo.
Proof.
  induction n as [|n IH]; intros t ctx fuel Hne Hn Hf Htr; (destruct (mk_case dir t) as [->|(x & b & v & a & c & ->)]; [done|]).
  { rewrite cells_mk in Hn. simpl in Hn. lia. }
  destruct fuel as [|fuel]; [lia|]. cbn [descend]. rewrite ptr_mk. pose proof Hh as Hp. rewrite Htr in Hp.
  rewrite (ld_plug (link (negb dir)) _ _ _ _ _ _ _ _ _ Hp), (proj2 (link_mkn _ _ _ _ _)). cbn [mbind option_bind].
  destruct (Z.eqb_spec (ptr c) NULL) as [He|He].
  - rewrite plug_other in Hp. apply (ptr_null _ _ _ _ Hp) in He as ->. eexists x, _, v, (seqd dir (elems a) ++ rem dir ctx). split; [done|]. split.
    + rewrite seqd_mk. by destruct dir.
    + by exists ctx, b, a, E.
  - rewrite (push_node ctx dir x b v a c Htr) by (right; by intros ->). cbn [mbind option_bind].
    destruct (IH c (F (negb dir) x b v a :: ctx) fuel) as (x' & path' & v' & todo' & E1 & E2 & E3);
      [by intros ->|rewrite cells_mk in Hn; simpl in Hn; rewrite length_app in Hn; lia|lia|by rewrite Htr, plug_other|].
    exists x', path', v', todo'. split; [exact E1|]. split; [|done]. rewrite <- E2, seqd_mk, rem_other, <- app_assoc. done.
Qed.

Lemma ascend_ok dir : forall ctx t, t <> E -> tr = plug ctx t ->
  exists x path, ascend dir (ptr t) (fx <$> ctx) h = Some (x, path) /\
    ((rem dir ctx = [] /\ x = NULL) \/ exists v todo, rem dir ctx = v :: todo /\ at_node dir tr x path v todo).
Proof.
  induction ctx as [|[d x b v s] ctx IH]; intros t Hne Htr.
  { exists NULL, []. split; [done|]. left. by destruct dir. }
  rewrite fmap_cons. cbn [ascend fx]. pose proof Hh as Hp. rewrite Htr in Hp. simpl in Hp. unfold node in Hp. simpl in Hp.
  rewrite (ld_plug (link dir) _ _ _ _ _ _ _ _ _ Hp). cbn [mbind option_bind]. destruct (decide (d = dir)) as [->|Hd].
  - rewrite (proj1 (link_mkn _ _ _ _ _)), Z.eqb_refl, rem_same.
    destruct (IH (mk dir x b v t s)) as (y & path & E1 & E2); [apply mk_not_E|done|]. rewrite ptr_mk in E1. by exists y, path.
  - assert (d = negb dir) as -> by (by destruct d, dir).
    assert (Hl : link dir (mkn (negb dir) b v (ptr t) (ptr s)) = ptr s) by (by destruct dir). rewrite Hl.
    assert (Hpt : ptr t <> ptr s).
    { rewrite plug_cells, cells_mk in Hp. destruct t as [|y by' vy ly ry]; [done|]. destruct s as [|z bz vz lz rz].
      - destruct Hp as [_ Hp _ _]. simpl in Hp |- *. rewrite !not_elem_of_cons in Hp. intros ->. by destruct Hp as (_ & Hp & _).
      - destruct Hp as [Hp _ _ _]. simpl in Hp |- *. apply NoDup_cons in Hp as [_ Hp]. apply NoDup_cons in Hp as [Hp _]. intros ->. apply Hp.
        rewrite !fmap_app. simpl. set_solver. }
    rewrite (proj2 (Z.eqb_neq _ _) Hpt). exists x, (fx <$> ctx). split; [done|]. right. rewrite rem_other.
    exists v, (seqd dir (elems s) ++ rem dir ctx). split; [done|]. exists ctx, b, s, t. split_and!; [|done|done].
    rewrite Htr. simpl. unfold node. simpl. by rewrite mk_negb.
Qed.

End traversal.

(** ** [start] and [move] *)

(** [k] moves, with the data they return. *)
Fixpoint moves (k : nat) (dir : bool) (tr : jsw_avltrav) : option (list Z) :=
  match k with
  | O => Some []
  | S k => '(x, tr) ← move tr dir; l ← moves k dir tr; Some (x :: l)
  end.

Lemma current_ok Fr t tr H dir x path v todo : is_avl Fr t tr H -> at_node dir tr x path v todo -> current (Trav t x path) = Some v.
Proof.
  intros [_ Hh _] (ctx & b & a & c & Ht & _). unfold current. cbn [it Avl.tree]. rewrite Ht in Hh.
  rewrite (node_not_null_eqb _ _ _ _ _ _ _ _ _ Hh), (ld_plug data _ _ _ _ _ _ _ _ _ Hh). by rewrite (proj2 (balance_mkn _ _ _ _ _)).
Qed.

(** Where the traversal is after a step: at the first element of [todo], or nowhere. *)
Definition arrived (dir : bool) (tr : tree) (w y : Z) (path : list Z) (todo : list Z) : Prop :=
  match todo with [] => w = NULL /\ y = NULL | w' :: todo => w = w' /\ at_node dir tr y path w todo end.

Lemma move_ok Fr t tr H dir x path v todo : is_avl Fr t tr H -> H <= 64 -> at_node dir tr x path v todo ->
  exists w y path', move (Trav t x path) dir = Some (w, Trav t y path') /\ arrived dir tr w y path' todo.
Proof.
  intros Ht HH Hat. pose proof Ht as [Hroot Hh Ha]. destruct Hat as (ctx & b & a & c & Htr & -> & ->).
  pose proof Hh as Hp. rewrite Htr in Hp. unfold move. cbn [Avl.tree it path].
  rewrite (ld_plug (link dir) _ _ _ _ _ _ _ _ _ Hp), (proj1 (link_mkn _ _ _ _ _)). cbn [mbind option_bind].
  destruct (Z.eqb_spec (ptr a) NULL) as [He|He].
  - rewrite plug_step in Hp. apply (ptr_null _ _ _ _ Hp) in He as ->.
    destruct (ascend_ok Hh Ha HH dir ctx (mk dir x b v E c)) as (y & path' & E1 & E2); [apply mk_not_E|done|]. rewrite ptr_mk in E1. rewrite E1.
    cbn [mbind option_bind]. assert (seqd dir (elems E) = []) as -> by (by destruct dir). simpl app.
    destruct E2 as [[-> ->]|(w & td & -> & Hat)]; [by exists NULL, NULL, path'|].
    rewrite (current_ok _ _ _ _ _ _ _ _ _ Ht Hat). cbn [mbind option_bind]. by exists w, y, path'.
  - rewrite (push_node Ha HH ctx dir x b v a c Htr) by (left; by intros ->). cbn [mbind option_bind].
    destruct (descend_ok Hh Ha HH dir (base.size (mem t)) a (F dir x b v c :: ctx) (base.size (mem t))) as (y & path' & w & td & E1 & E2 & Hat);
      [by intros ->| |done|done|].
    { apply avl_holds_size in Hp. rewrite plug_cells, cells_mk in Hp. simpl in Hp. rewrite !length_app in Hp. lia. }
    rewrite rem_same in E2. rewrite E2. rewrite fmap_cons in E1. cbn [fx] in E1. rewrite E1. cbn [mbind option_bind].
    rewrite (current_ok _ _ _ _ _ _ _ _ _ Ht Hat). cbn [mbind option_bind]. by exists w, y, path'.
Qed.

Lemma moves_ok Fr t tr H dir : is_avl Fr t tr H -> H <= 64 -> forall todo x path v, at_node dir tr x path v todo ->
  moves (S (length todo)) dir (Trav t x path) = Some (todo ++ [NULL]).
Proof.
  intros Ht HH. induction todo as [|w todo IH]; intros x path v Hat; pose proof (move_ok _ _ _ _ _ _ _ _ _ Ht HH Hat) as Hm.
  - destruct Hm as (w & y & path' & Hm & -> & ->). cbn [moves length]. rewrite Hm. done.
  - destruct Hm as (w' & y & path' & Hm & -> & Hat'). specialize (IH _ _ _ Hat'). cbn [length]. cbn [moves] in IH |- *. rewrite Hm. cbn [mbind option_bind].
    rewrite IH. done.
Qed.

(** A whole traversal gives the elements in order, then [NULL]. *)
Lemma traversal_ok Fr t tr H dir : is_avl Fr t tr H -> H <= 64 ->
  ('(x, trv) ← start t (negb dir); l ← moves (length (elems tr)) dir trv; Some (x :: l)) = Some (seqd dir (elems tr) ++ [NULL]).
Proof.
  intros Ht HH. pose proof Ht as [Hroot Hh Ha]. unfold start. destruct (mk_case dir tr) as [->|(x & b & v & a & c & Htr)].
  { rewrite Hroot. simpl. by destruct dir. }
  rewrite Hroot. assert (Hnn : (ptr tr =? NULL) = false).
  { rewrite Htr, ptr_mk. rewrite Htr in Hh. apply (node_not_null_eqb _ _ [] _ _ _ _ _ _ Hh). }
  rewrite Hnn. destruct (descend_ok Hh Ha HH dir (base.size (mem t)) tr [] (base.size (mem t))) as (y & path & w & td & E1 & E2 & Hat);
    [rewrite Htr; apply mk_not_E|by eapply avl_holds_size|done|done|].
  change (fx <$> []) with (@nil Z) in E1. rewrite E1. cbn [mbind option_bind].
  assert (Hlen : length (elems tr) = S (length td)).
  { assert (Hrem : rem dir [] = []) by (by destruct dir). rewrite Hrem, app_nil_r in E2. transitivity (length (seqd dir (elems tr))); [|by rewrite E2].
    destruct dir; simpl; [done|by rewrite length_reverse]. }
  rewrite (current_ok _ _ _ _ _ _ _ _ _ Ht Hat). cbn [mbind option_bind]. rewrite Hlen, (moves_ok _ _ _ _ _ Ht HH _ _ _ _ Hat). cbn [mbind option_bind].
  assert (Hrem : rem dir [] = []) by (by destruct dir). rewrite Hrem, app_nil_r in E2. by rewrite E2.
Qed.

(** ** Destruction *)

Fixpoint spine (t : tree) : nat := match t with E => 0 | T _ _ _ _ r => S (spine r) end.

Lemma spine_le t : (spine t <= length (cells t))%nat.
Proof. induction t as [|x b v l IHl r IHr]; simpl; [lia|]. rewrite length_app. lia. Qed.

(** The frame without the nodes of [t]. *)
Definition cleared (t : tree) (Fr : Z -> option jsw_avlnode_t) (z : Z) : option jsw_avlnode_t :=
  if bool_decide (z ∈ (cells t).*1) then None else Fr z.

(** A rotation makes the right spine longer, a removal makes the tree smaller: there are at most
    twice as many rounds as nodes. *)
Lemma delete_loop_ok : forall fuel t Fr h, holds Fr h (cells t) -> (2 * length (cells t) - spine t <= fuel)%nat ->
  exists h', delete_loop fuel (ptr t) h = Some h' /\ forall z, h' !! z = cleared t Fr z.
Proof.
  induction fuel as [|fuel IH]; intros t Fr h Hh Hf; (destruct t as [|x b v l r]; [exists h; split; [done|]; intros z; apply Hh; apply not_elem_of_nil|]).
  { pose proof (spine_le (T x b v l r)). simpl in *. lia. }
  simpl ptr. cbn [delete_loop]. rewrite (node_not_null_eqb _ _ [] false x b v l r Hh).
  assert (Hl : ld (link false) x h = Some (ptr l)) by exact (ld_plug (link false) _ _ [] false x b v l r Hh).
  assert (Hr : ld (link true) x h = Some (ptr r)) by exact (ld_plug (link true) _ _ [] false x b v l r Hh).
  rewrite Hl. cbn [mbind option_bind]. rewrite (missing_eqb _ _ [F false x b v r] l Hh). destruct l as [|y by' vy ll lr].
  - simpl missing. cbn iota. rewrite Hr. cbn [mbind option_bind]. simpl in Hh. destruct (free_first _ _ _ _ _ Hh) as (h1 & -> & H1). cbn [mbind option_bind].
    destruct (IH r _ _ H1) as (h' & E1 & E2); [simpl in Hf; lia|]. exists h'. split; [done|]. intros z. rewrite E2. unfold cleared, without. cbn [cells app ptr].
    rewrite fmap_cons. cbn [fst]. destruct (Z.eqb_spec z x) as [->|Hne].
    + rewrite (bool_decide_true (x ∈ x :: _)) by left. by case_bool_decide.
    + rewrite (bool_decide_ext (z ∈ x :: (cells r).*1) (z ∈ (cells r).*1)) by set_solver. done.
  - simpl missing. cbn iota zeta. simpl ptr.
    assert (Hh1 : holds Fr h ((x, Node b v y (ptr r)) :: (y, Node by' vy (ptr ll) (ptr lr)) :: cells ll ++ cells lr ++ cells r)).
    { eapply holds_perm; [|exact Hh]. simpl. solve_Permutation. }
    clear Hl Hr. exec Hh1.
    destruct (IH (T y by' vy ll (T x b v lr r)) Fr h1) as (h' & E1 & E2).
    { eapply holds_perm; [|exact Hh1]. simpl. solve_Permutation. }
    { simpl in Hf |- *. rewrite !length_app in *. simpl in *. rewrite ?length_app in *. lia. }
    exists h'. split; [exact E1|]. intros z. rewrite E2. unfold cleared.
    rewrite (bool_decide_ext (z ∈ (cells (T y by' vy ll (T x b v lr r))).*1) (z ∈ (cells (T x b v (T y by' vy ll lr) r)).*1)); [done|].
    simpl. rewrite !fmap_app. simpl. rewrite !fmap_app. set_solver.
Qed.

Lemma jsw_avldelete_ok Fr t tr H : is_avl Fr t tr H -> exists m, jsw_avldelete t = Some m /\ forall z, m !! z = cleared tr Fr z.
Proof.
  intros [Hroot Hh _]. unfold jsw_avldelete. rewrite Hroot. apply delete_loop_ok; [done|]. apply avl_holds_size in Hh. lia.
Qed.

End AvlTrav.
