(* ===== verification/StampAvlMap.v ===== *)
(** * The height-balanced tree as an ordered list

    The abstract tree is a list sorted by the comparison; its operations are relations, since a
    search may meet any of several equal elements, but whether they succeed is determined: an
    insertion by the allocator, a removal by the elements.  Every sequence of operations of the code
    in which nothing is removed from an empty tree is one of the specification; on an empty tree
    the code answers wrongly, as [erase_empty] shows. *)

From S2P Require Import Prelude StampAvl StampAvlTree StampAvlInsert StampAvlErase StampAvlTrav.
Import Avl AvlTree AvlInsert AvlErase AvlTrav.

Module AvlMap.

(** ** Specification *)

(** [ok] says whether the allocator has memory for the node of an insertion. *)
Inductive op := Find (d : Z) | Insert (ok : bool) (d : Z) | Erase (d : Z).

Section spec.
Context (cmp : Z -> Z -> Z) (W : Z).

Fixpoint insert_sorted (d : Z) (l : list Z) : list Z :=
  match l with [] => [d] | x :: l => if cmp x d <? 0 then x :: insert_sorted d l else d :: x :: l end.

Definition absent (d : Z) (l : list Z) : Prop := Forall (fun x => cmp x d <> 0) l.

(** [step o l a l']: the operation answers [a] and makes [l'] of the list [l]. *)
Inductive step : op -> list Z -> Z -> list Z -> Prop :=
  | step_found d l x : x ∈ l -> cmp x d = 0 -> step (Find d) l x l
  | step_not_found d l : absent d l -> step (Find d) l NULL l
  | step_insert d l : step (Insert true d) l 1 (insert_sorted d l)
  | step_no_memory d l : step (Insert false d) l 0 l
  | step_erase d l1 x l2 : cmp x d = 0 -> step (Erase d) (l1 ++ x :: l2) 1 (l1 ++ l2)
  | step_no_erase d l : absent d l -> step (Erase d) l 0 l.

Inductive steps : list op -> list Z -> list Z -> list Z -> Prop :=
  | steps_nil l : steps [] l [] l
  | steps_cons o ops l a l1 answers l2 : step o l a l1 -> steps ops l1 answers l2 -> steps (o :: ops) l (a :: answers) l2.

(** ** The code *)

Context (alloc : heap -> Z).

Definition perform (o : op) (t : jsw_avltree) : option (Z * jsw_avltree) :=
  match o with
  | Find d => x ← jsw_avlfind cmp t d; Some (x, t)
  | Insert ok d =>
      '(b, t) ← jsw_avlinsert cmp W t (if ok : bool then alloc (mem t) else NULL) d; Some (Z.b2z b, t)
  | Erase d => '(b, t) ← jsw_avlerase cmp W t d; Some (Z.b2z b, t)
  end.

Fixpoint run (ops : list op) (t : jsw_avltree) : option (list Z * jsw_avltree) :=
  match ops with
  | [] => Some ([], t)
  | o :: ops => '(a, t) ← perform o t; '(l, t) ← run ops t; Some (a :: l, t)
  end.

(** An allocator that has memory gives an address that is not in use. *)
Definition alloc_ok : Prop := forall m, alloc m <> NULL /\ m !! alloc m = None.

(** No removal of the run is done on an empty tree. *)
Fixpoint no_empty_erase (ops : list op) (t : jsw_avltree) : bool :=
  match ops with
  | [] => true
  | o :: ops =>
      match o with Erase _ => negb (root t =? NULL) | _ => true end &&
      match perform o t with Some (_, t) => no_empty_erase ops t | None => true end
  end.

End spec.

(** ** Simulation *)

Section sim.
Context (cmp : Z -> Z -> Z) (W : Z) (alloc : heap -> Z).
Hypotheses (Hcmp : cmp_ok cmp) (Halloc : alloc_ok alloc).

(** Only nodes of the tree are in the heap. *)
Definition sim (t : jsw_avltree) (l : list Z) : Prop :=
  exists tr H, is_avl (fun _ => None) t tr H /\ elems tr = l /\ size t = Z.of_nat (length l) mod 2 ^ W /\ ordered cmp l.

Lemma insert_sorted_length d l : length (insert_sorted cmp d l) = S (length l).
Proof. induction l as [|x l IH]; simpl; [done|]. destruct (cmp x d <? 0); simpl; lia. Qed.

(** The counter of the code, which wraps around, counts the elements. *)
Lemma counter_up n : (Z.of_nat n mod 2 ^ W + 1) mod 2 ^ W = Z.of_nat (S n) mod 2 ^ W.
Proof. rewrite Zplus_mod_idemp_l. f_equal. lia. Qed.

Lemma counter_down n : (Z.of_nat (S n) mod 2 ^ W - 1) mod 2 ^ W = Z.of_nat n mod 2 ^ W.
Proof. rewrite Zminus_mod_idemp_l. f_equal. lia. Qed.

Lemma insert_sorted_split d l1 : forall l2, Forall (fun x => cmp x d < 0) l1 -> Forall (fun x => 0 <= cmp x d) l2 ->
  insert_sorted cmp d (l1 ++ l2) = l1 ++ d :: l2.
Proof.
  induction l1 as [|x l1 IH]; intros l2 H1 H2; simpl.
  - destruct l2 as [|y l2]; [done|]. apply Forall_cons in H2 as [Hy _]. simpl. by rewrite (proj2 (Z.ltb_ge _ _) Hy).
  - apply Forall_cons in H1 as [Hx H1]. rewrite (proj2 (Z.ltb_lt _ _) Hx). by rewrite IH.
Qed.

Lemma cmp_ge_le x d : 0 <= cmp x d -> le cmp d x.
Proof. unfold le. intros H. destruct Hcmp as [Ha _]. destruct (decide (0 < cmp d x)) as [Hd|]; [apply Ha in Hd; lia|lia]. Qed.

Lemma avl_ordered_insert d l1 l2 : Forall (fun x => cmp x d < 0) l1 -> Forall (fun x => 0 <= cmp x d) l2 -> ordered cmp (l1 ++ l2) ->
  ordered cmp (l1 ++ d :: l2).
Proof.
  intros H1 H2 Ho. apply avl_ordered_app in Ho as (O1 & O2 & O3); [|done]. rewrite Forall_forall in H1, H2. apply avl_ordered_app; [done|]. split_and!; [done| |].
  - constructor; [done|]. apply Forall_forall. intros x Hx. by apply cmp_ge_le, H2.
  - intros a b Ha Hb. apply elem_of_cons in Hb as [->|Hb]; [specialize (H1 _ Ha); unfold le; lia|auto].
Qed.

Lemma ordered_remove l1 x l2 : ordered cmp (l1 ++ x :: l2) -> ordered cmp (l1 ++ l2).
Proof.
  intros Ho. apply avl_ordered_app in Ho as (O1 & O2 & O3); [|done]. inversion O2 as [|? ? O4 O5]; subst. apply avl_ordered_app; [done|]. split_and!; [done|done|].
  intros a b Ha Hb. apply O3; [done|by right].
Qed.

Lemma sim_find t s d : sim t s -> exists x, jsw_avlfind cmp t d = Some x /\ step cmp (Find d) s x s.
Proof.
  intros (tr & H & [Hroot Hh Ha] & Hel & Hsz & Ho). subst s. unfold jsw_avlfind. rewrite Hroot.
  destruct (find_loop_ok cmp (fun _ => None) (mem t) d (base.size (mem t)) tr [] (base.size (mem t))) as (ctx & P & E1 & -> & L1 & L2 & HP);
    [by eapply avl_holds_size|done|done|done|done|]. cbn [mbind option_bind]. change (plug [] tr) with tr in E1. subst tr.
  destruct HP as [->|(x & b & v & l & r & -> & Hv)].
  - exists NULL. split; [done|]. apply step_not_found. destruct (leads_split cmp Hcmp d ctx E L1 Ho) as [H1 _].
    pose proof (leads_strict cmp Hcmp d ctx E L1 L2 Ho) as H2. unfold absent. rewrite plug_elems, !Forall_app.
    split_and!; [eapply Forall_impl; [exact H1|simpl; lia]|constructor|eapply Forall_impl; [exact H2|simpl; lia]].
  - exists v. simpl ptr. rewrite (node_not_null_eqb _ _ _ false x b v l r Hh). rewrite (ld_plug data _ _ _ false x b v l r Hh).
    split; [done|]. apply step_found; [|done]. rewrite plug_elems. simpl. set_solver.
Qed.

Lemma sim_insert t s ok d : sim t s -> exists b t' s',
  jsw_avlinsert cmp W t (if ok : bool then alloc (mem t) else NULL) d = Some (b, t') /\
  step cmp (Insert ok d) s (Z.b2z b) s' /\ sim t' s'.
Proof.
  intros (tr & H & Ht & Hel & Hsz & Ho). subst s. destruct ok.
  2: { destruct (jsw_avlinsert_null cmp W _ _ _ _ d Ht) as (t' & -> & Ht' & Hsz'). exists false, t', (elems tr).
       split_and!; [done|constructor|]. exists tr, H. split_and!; [done|done|congruence|done]. }
  destruct (Halloc (mem t)) as [Hrn Hfree]. set (rn := alloc (mem t)) in *.
  exists true. destruct (decide (elems tr = [])) as [He|Hne].
  - assert (tr = E) as -> by (destruct tr as [|x b v l r]; [done|]; simpl in He; by destruct (elems l)).
    destruct (jsw_avlinsert_empty cmp W _ _ _ rn d Ht Hrn Hfree) as (t' & -> & Ht' & Hsz').
    exists t', [d]. split_and!; [done|apply (step_insert cmp d [])|]. exists (T rn 0 d E E), 1. split_and!; [done|done| |by repeat constructor].
    rewrite Hsz', Hsz. apply (counter_up 0).
  - destruct (jsw_avlinsert_nonempty cmp Hcmp W _ _ _ _ rn d Ht ltac:(by intros ->) Hrn Hfree) as (t' & c & H' & tr' & -> & -> & Hl & Ht' & Hsz' & Hel').
    destruct (leads_split cmp Hcmp d c E Hl Ho) as [L1 L2]. rewrite plug_elems in Ho, Hsz |- *. simpl elems in Ho, Hsz |- *. rewrite app_nil_l in Ho, Hsz |- *.
    exists t', (pre c ++ d :: post c). split_and!; [done| |].
    + rewrite <- (insert_sorted_split d) by done. constructor.
    + exists tr', H'. split_and!; [done|done| |by apply avl_ordered_insert]. rewrite Hsz', Hsz, counter_up, !length_app. simpl. do 2 f_equal. lia.
Qed.

Lemma holds_weaken Fr h cs : holds Fr h cs -> (forall z, Fr z = None) -> holds (fun _ => None) h cs.
Proof. intros [H1 H2 H3 H4] HF. split; try done. intros z Hz. by rewrite H4. Qed.

(** What is left of the elements when a node is unlinked. *)
Lemma sim_unlink t ctx it b v l r H : is_avl (fun _ => None) t (plug ctx (T it b v l r)) H -> H <= 64 ->
  exists up' root' m' c P x, unlink it (root t) (stack_of ctx) (mem t) = Some (up', root', m') /\
    cut (without x (fun _ => None)) up' root' m' c P H /\ elems (plug c P) = (pre ctx ++ elems l) ++ elems r ++ post ctx.
Proof.
  intros [Hroot Hh Ha] HH. assert (Hlr : (l = E \/ r = E) \/ (l <> E /\ r <> E)) by (destruct l, r; naive_solver).
  destruct Hlr as [Hlr|[Hl Hr]].
  - destruct (avl_unlink_leaf _ _ _ _ _ _ _ _ _ _ Hh Ha Hroot Hlr) as (up' & root' & m' & Hu & Hcut).
    exists up', root', m', ctx, (only l r), it. split_and!; [done|done|]. by rewrite plug_elems, only_elems, <- !app_assoc.
  - destruct (depth_ok ctx _ _ Ha HH) as (ht & Ht & Hd). destruct (avl_mk_inv false _ _ _ _ _ _ Ht) as (hl & hr & Hal & Har & _ & _ & Hht).
    destruct (unlink_heir _ _ _ _ _ _ _ _ _ _ hr Hh Ha Hroot Hl Hr Har) as (ch & hx & hb & hv & hr' & up' & root' & m' & -> & Hch & Hu & Hcut); [lia|].
    exists up', root', m', (ch ++ F true it b hv l :: ctx), hr', hx. split_and!; [done|done|].
    rewrite avl_plug_app, plug_elems. simpl. rewrite !plug_elems. simpl. clear - Hch.
    assert (Hpre : pre ch = []).
    { induction ch as [|f ch IH]; [done|]. apply Forall_cons in Hch as [Hf Hch]. simpl. by rewrite IH, Hf. }
    rewrite Hpre. simpl. by rewrite <- !app_assoc.
Qed.

Lemma sim_erase t s d : sim t s -> Z.of_nat (length s) < 2 ^ 45 -> root t <> NULL -> exists b t' s', jsw_avlerase cmp W t d = Some (b, t') /\
  step cmp (Erase d) s (Z.b2z b) s' /\ sim t' s'.
Proof.
  intros (tr & H & Ht & Hel & Hsz & Ho) Hlen Hnull. subst s. pose proof Ht as [Hroot Hh Ha].
  unfold jsw_avlerase. rewrite Hroot in *. destruct tr as [|x0 b0 v0 l0 r0]; [done|].
  assert (Hroot0 : (ptr (T x0 b0 v0 l0 r0) =? NULL) = false) by apply (node_not_null_eqb _ _ [] false x0 b0 v0 l0 r0 Hh).
  rewrite Hroot0. set (tr := T x0 b0 v0 l0 r0) in *. pose proof (avl_height _ _ Ha Hlen) as HH.
  destruct (erase_search_ok cmp (fun _ => None) (mem t) d (base.size (mem t)) tr [] H (base.size (mem t)))
    as (ctx & P & hP & E1 & E2 & HaP & Hd & L1 & L2 & HP); [by eapply avl_holds_size|done|done|done|simpl; lia|done|done|].
  change (stack_of []) with (@nil (Z * bool)) in E2. rewrite E2. cbn [mbind option_bind]. change (plug [] tr) with tr in E1.
  destruct HP as [->|(it & b & v & l & r & -> & Hv)].
  - exists false, t, (elems tr). split_and!; [done| |by exists tr, H]. apply step_no_erase.
    rewrite E1 in Ho |- *. destruct (leads_split cmp Hcmp d ctx E L1 Ho) as [H1 _].
    pose proof (leads_strict cmp Hcmp d ctx E L1 L2 Ho) as H2. unfold absent. rewrite plug_elems, !Forall_app.
    split_and!; [eapply Forall_impl; [exact H1|simpl; lia]|constructor|eapply Forall_impl; [exact H2|simpl; lia]].
  - rewrite E1 in Hh, Ht. change (ptr (T it b v l r)) with it. rewrite (node_not_null_eqb _ _ _ false it b v l r Hh).
    destruct (sim_unlink t ctx it b v l r H Ht HH) as (up' & root' & m' & c & P & x & Hu & [-> -> Hm (k & Hk & Hc)] & Hel).
    rewrite Hroot in Hu. rewrite Hu. cbn [mbind option_bind].
    destruct (walk_ok _ c P k H m' Hm Hk Hc) as (rr & m2 & -> & t2 & H2 & -> & Ht2 & Ha2 & Hel2). cbn [mbind option_bind].
    eexists true, _, ((pre ctx ++ elems l) ++ elems r ++ post ctx).
    assert (Hsp : elems tr = (pre ctx ++ elems l) ++ v :: elems r ++ post ctx) by (rewrite E1, plug_elems; simpl; by rewrite <- !app_assoc).
    rewrite Hsp in Ho, Hsz |- *. split_and!; [done|by constructor|]. exists t2, H2. split_and!; [|by rewrite Hel2| |by eapply ordered_remove].
    2: { simpl. rewrite Hsz, length_app, length_cons, Nat.add_succ_r, counter_down. by rewrite <- length_app. }
    split; [done| |done]. simpl. eapply holds_weaken; [exact Ht2|]. intros z. unfold without. by destruct (z =? x).
Qed.

Lemma step_length o l a l' : step cmp o l a l' -> (length l' <= S (length l))%nat.
Proof. destruct 1; simpl; rewrite ?insert_sorted_length, ?length_app; simpl; lia. Qed.

Lemma sim_run ops : forall t s, sim t s -> Z.of_nat (length s + length ops) < 2 ^ 45 ->
  no_empty_erase cmp W alloc ops t = true ->
  exists l t' s', run cmp W alloc ops t = Some (l, t') /\ steps cmp ops s l s' /\ sim t' s' /\ Z.of_nat (length s') < 2 ^ 45.
Proof.
  induction ops as [|o ops IH]; intros t s Hs Hlen Hne; cbn [run no_empty_erase] in *.
  { exists [], t, s. split_and!; [done|constructor|done|simpl in Hlen; lia]. }
  apply andb_true_iff in Hne as [Hne1 Hne].
  assert (Ho : exists a t1 s1, perform cmp W alloc o t = Some (a, t1) /\ step cmp o s a s1 /\ sim t1 s1).
  { destruct o as [d|ok d|d]; unfold perform.
    - destruct (sim_find t s d Hs) as (x & -> & Hst). by exists x, t, s.
    - destruct (sim_insert t s ok d Hs) as (b & t1 & s1 & -> & Hst & Hs1). by exists (Z.b2z b), t1, s1.
    - apply negb_true_iff, Z.eqb_neq in Hne1.
      destruct (sim_erase t s d Hs) as (b & t1 & s1 & -> & Hst & Hs1); [simpl in Hlen; lia|done|]. by exists (Z.b2z b), t1, s1. }
  destruct Ho as (a & t1 & s1 & Hp & Hst & Hs1). rewrite Hp in Hne |- *. cbn [mbind option_bind]. pose proof (step_length _ _ _ _ Hst).
  destruct (IH t1 s1 Hs1) as (l & t' & s' & -> & Hst' & Hs' & Hl'); [simpl in Hlen; lia|done|]. cbn [mbind option_bind].
  exists (a :: l), t', s'. split_and!; [done|by econstructor|done|done].
Qed.

End sim.

(** C20: any sequence of fewer than [2 ^ 45] searches, insertions and removals on a new tree, with any
    total preorder and any allocator, in which nothing is removed from an empty tree (there the code
    answers 1 and takes one from the counter, [erase_empty]): the code has a result (no null
    dereference, no access outside the stacks of 64 pointers) and its answers are those of a sorted
    list: a search gives an equal element or [NULL], an insertion answers 1 and adds the element, equal
    ones included, exactly when the allocator has memory, and a removal takes one equal element
    out and answers 1, or answers 0 when there is none.  The counter is the number of elements, modulo
    the width of [size_t]; a traversal of the tree from either end then gives the list in order,
    and the destruction of the tree frees every node. *)
Theorem avl_tree_refines cmp W alloc ops : cmp_ok cmp -> alloc_ok alloc -> Z.of_nat (length ops) < 2 ^ 45 ->
  no_empty_erase cmp W alloc ops (jsw_avlnew ∅) = true ->
  exists answers t l, run cmp W alloc ops (jsw_avlnew ∅) = Some (answers, t) /\ steps cmp ops [] answers l /\
    jsw_avlsize t = Z.of_nat (length l) mod 2 ^ W /\ ordered cmp l /\
    ('(x, tr) ← jsw_avltfirst t; xs ← moves (length l) true tr; Some (x :: xs)) = Some (l ++ [NULL]) /\
    ('(x, tr) ← jsw_avltlast t; xs ← moves (length l) false tr; Some (x :: xs)) = Some (reverse l ++ [NULL]) /\
    jsw_avldelete t = Some ∅.
Proof.
  intros Hcmp Halloc Hops Hne. destruct (sim_run cmp W alloc Hcmp Halloc ops (jsw_avlnew ∅) []) as (a & t & l & Hr & Hst & Hs & Hlen).
  { exists E, 0. split_and!; [|done|by rewrite Zmod_0_l|constructor]. split; [done| |constructor]. split; simpl; [constructor|apply not_elem_of_nil|set_solver|done]. }
  { simpl. lia. }
  { done. }
  destruct Hs as (tr & H & Ht & Hel & Hsz & Ho). simpl in *. subst l. pose proof (avl_height _ _ (ia_avl _ _ _ _ Ht) Hlen) as HH.
  exists a, t, (elems tr). split_and!; [done|done|done|done|exact (traversal_ok _ _ _ _ true Ht HH)|exact (traversal_ok _ _ _ _ false Ht HH)|].
  destruct (jsw_avldelete_ok _ _ _ _ Ht) as (m & -> & Hm). f_equal. apply map_eq. intros z. rewrite Hm. unfold cleared.
  rewrite lookup_empty. by case_bool_decide.
Qed.

(** An allocator that gives the address after the highest one in use. *)
Definition bump_alloc (m : heap) : Z := 1 + map_fold (fun k _ acc => Z.max k acc) 0 m.

Lemma bump_alloc_ok : alloc_ok bump_alloc.
Proof.
  intros m. assert (Hpos : 0 < bump_alloc m).
  { unfold bump_alloc. apply (map_fold_weak_ind (fun acc _ => 0 < 1 + acc)); lia. }
  split; [unfold NULL; lia|]. destruct (m !! bump_alloc m) as [n|] eqn:Hn; [|done]. exfalso.
  assert (Hle : forall (m : heap) k n, m !! k = Some n -> k <= map_fold (fun k _ acc => Z.max k acc) 0 m).
  { clear. intros m. apply (map_fold_weak_ind (fun acc m => forall k n, m !! k = Some n -> k <= acc)).
    - intros k n. by rewrite lookup_empty.
    - intros i x m' acc Hi IH k n. rewrite lookup_insert_Some. intros [[<- _]|[_ Hk]]; [lia|]. specialize (IH _ _ Hk). lia. }
  apply Hle in Hn. unfold bump_alloc in Hn. lia.
Qed.

Lemma sub_cmp_ok : cmp_ok Z.sub.
Proof. split; intros; lia. Qed.

Definition script : list op :=
  let ins := Insert true in [ins 5; ins 1; ins 8; ins 5; Find 5; Erase 5; Erase 7; Find 1; Erase 1; Insert false 4; ins 9].

Lemma avl_tree_refines_witness : cmp_ok Z.sub /\ alloc_ok bump_alloc /\
  exists t, run Z.sub 64 bump_alloc script (jsw_avlnew ∅) = Some ([1; 1; 1; 1; 5; 1; 0; 1; 1; 0; 1], t) /\
    jsw_avlsize t = 3 /\ jsw_avldelete t = Some ∅.
Proof.
  split; [apply sub_cmp_ok|]. split; [apply bump_alloc_ok|].
  destruct (avl_tree_refines Z.sub 64 bump_alloc script sub_cmp_ok bump_alloc_ok) as (a & t & l & Hr & _ & Hn & _ & _ & _ & Hd);
    [vm_compute; reflexivity|vm_compute; reflexivity|].
  assert (Hc : ('(a, t) ← run Z.sub 64 bump_alloc script (jsw_avlnew ∅); Some (a, jsw_avlsize t)) = Some ([1; 1; 1; 1; 5; 1; 0; 1; 1; 0; 1], 3))
    by (vm_compute; reflexivity).
  rewrite Hr in Hc. cbn [mbind option_bind] in Hc. injection Hc as -> Hsz. exists t. split; [exact Hr|]. split; [exact Hsz|exact Hd].
Defined.

(** Removing from an empty tree succeeds and takes one from the counter, which becomes the greatest
    [size_t]: [--tree->size; return 1;] comes after the test for an empty tree. *)
Lemma erase_empty d : jsw_avlerase Z.sub 64 (jsw_avlnew ∅) d = Some (true, Avltree NULL (2 ^ 64 - 1) ∅).
Proof. reflexivity. Qed.

(** An element that is there already is inserted again: [MAP_INSERT] on this tree succeeds for a key
    that is in the map. *)
Lemma insert_twice : exists t, run Z.sub 64 bump_alloc [Insert true 5; Insert true 5] (jsw_avlnew ∅) = Some ([1; 1], t) /\ jsw_avlsize t = 2.
Proof. eexists. split; vm_compute; reflexivity. Qed.

End AvlMap.
