(* ===== verification/Intruder.v ===== *)
(** * The intruder benchmark of STAMP: the code
      ([src/sws/benchmarks/stamp/intruder/{packet,preprocessor,dictionary,detector,stream,decoder,intruder}.c])

    A generator cuts strings into packets and shuffles them; threads take packets from the
    queue, give them to a decoder that puts the strings together again, and look for the
    words of a dictionary in the strings that are complete.  At the end the number of strings
    found is compared with the number of strings that the generator knows to contain a word.

    The variants of an operation (plain, [P] and [TM]) differ in the allocator and in how memory is
    accessed within a transaction, not in what they compute.

    The queues, the vectors and the random numbers are the code of [StampQueue], [StampVector] and
    [StampRandom]; the map from flows to lists is a finite map, as [RbTreeMap] shows the tree of
    [MAP_USE_RBTREE] to be one, and a list of fragments is a sorted sequence with duplicates, as
    [StampList] shows ([LIST_NO_DUPLICATES] is not defined here).  A transaction is one step, by
    [Tl2Props].  The dictionary and the preprocessors of a detector are never changed once they are
    set up and are plain sequences.

    [alloc] gives the address of a new object, different from those in use; allocation
    finds memory up to the limits of the arrays.  [long] has 32 bits.  [None] is a failed assertion or
    an access that C does not define. *)

From Stdlib Require Import Ascii String.
From S2P Require Import Prelude StampList StampArray StampQueue StampVector StampRandom.

Module Intruder.

(** ** Strings

    An array of characters is an array of cells; a C string is what stands before the
    first zero. *)

Fixpoint cstring (b : cells) : option (list Z) :=
  match b with
  | Some c :: b => if c =? 0 then Some [] else s ← cstring b; Some (c :: s)
  | _ => None
  end.

Definition strlen (b : cells) : option Z := s ← cstring b; Some (Z.of_nat (length s)).

(** The array of a string constant. *)
Definition literal (s : list Z) : cells := (Some <$> s) ++ [Some 0].

(** [strcpy(dst, src)] into an array of [n] characters. *)
Definition strcpy (n : Z) (src : cells) : option cells :=
  s ← cstring src;
  copy_cells (S (length s)) src 0 (replicate (Z.to_nat n) None) 0.

Fixpoint prefix_of (p s : list Z) : bool :=
  match p, s with
  | [], _ => true
  | x :: p, y :: s => (x =? y) && prefix_of p s
  | _ :: _, [] => false
  end.

(** [strstr(s, sig) != NULL]. *)
Fixpoint strstr (s sig : list Z) : bool :=
  prefix_of sig s || match s with [] => false | _ :: s => strstr s sig end.

Definition tolower (c : Z) : Z := if (65 <=? c) && (c <=? 90) then c + 32 else c.

Definition codes (s : string) : list Z := (fun a => Z.of_N (N_of_ascii a)) <$> list_ascii_of_string s.

(** ** [packet.h], [packet.c], [error.h] *)

Record packet := mkPacket { flowId : Z; fragmentId : Z; numFragment : Z; length_ : Z; data : cells }.

Definition PACKET_HEADER_LENGTH : Z := 16.

Definition compare_flow (a b : packet) : Z := s32 (flowId a - flowId b).
Definition compare_fragment (a b : packet) : Z := s32 (fragmentId a - fragmentId b).

Inductive error_t :=
  ERROR_NONE | ERROR_SHORT | ERROR_FLOWID | ERROR_FRAGMENTID | ERROR_LENGTH
| ERROR_NUMFRAGMENT | ERROR_INCOMPLETE | ERROR_SIGNATURE.

#[export] Instance error_eq_dec : EqDecision error_t.
Proof. solve_decision. Defined.

(** ** [preprocessor.c], [dictionary.c], [detector.c] *)

Fixpoint preprocessor_toLower (str : cells) : option cells :=
  match str with
  | Some c :: rest =>
    if c =? 0 then Some str else rest ← preprocessor_toLower rest; Some (Some (tolower c) :: rest)
  | _ => None
  end.

Definition dictionary := list (list Z).

Definition global_defaultSignatures : dictionary := codes <$>
  ["about"; "after"; "all"; "also"; "and"; "any"; "back"; "because"; "but"; "can"; "come"; "could";
   "day"; "even"; "first"; "for"; "from"; "get"; "give"; "good"; "have"; "him"; "how"; "into"; "its";
   "just"; "know"; "like"; "look"; "make"; "most"; "new"; "not"; "now"; "one"; "only"; "other"; "out";
   "over"; "people"; "say"; "see"; "she"; "some"; "take"; "than"; "that"; "their"; "them"; "then";
   "there"; "these"; "they"; "think"; "this"; "time"; "two"; "use"; "want"; "way"; "well"; "what";
   "when"; "which"; "who"; "will"; "with"; "work"; "would"; "year"; "your"]%string.

Definition global_numDefaultSignature : Z := Z.of_nat (length global_defaultSignatures).

Definition dictionary_alloc : dictionary := global_defaultSignatures.
Definition Pdictionary_alloc := dictionary_alloc.
Definition dictionary_add (d : dictionary) (str : list Z) : dictionary := d ++ [str].
Definition dictionary_get (d : dictionary) (i : Z) : option (list Z) :=
  if i <? 0 then None else d !! Z.to_nat i.

(** The first signature that occurs in the string. *)
Definition dictionary_match (d : dictionary) (str : cells) : option (option (list Z)) :=
  s ← cstring str; Some (List.find (strstr s) d).

Definition preprocessor_t : Type := cells -> option cells.

Record detector := mkDetector { dictionaryPtr : dictionary; preprocessorVector : list preprocessor_t }.

Definition detector_alloc : detector := mkDetector dictionary_alloc [].
Definition Pdetector_alloc := detector_alloc.
Definition detector_addPreprocessor (d : detector) (p : preprocessor_t) : detector :=
  mkDetector (dictionaryPtr d) (preprocessorVector d ++ [p]).

(** [for (p = 0; p < numPreprocessor; p++) preprocessor(str);] *)
Fixpoint preprocess (ps : list preprocessor_t) (str : cells) : option cells :=
  match ps with [] => Some str | p :: ps => str ← p str; preprocess ps str end.

Definition detector_process (d : detector) (str : cells) : option error_t :=
  str ← preprocess (preprocessorVector d) str;
  signature ← dictionary_match (dictionaryPtr d) str;
  Some (match signature with Some _ => ERROR_SIGNATURE | None => ERROR_NONE end).

(** What [processPackets] and [stream_generate] set up. *)
Definition lower_detector : detector := detector_addPreprocessor detector_alloc preprocessor_toLower.

(** ** [stream.c] *)

(** What the generator allocates: strings and packets. *)
Inductive buffer := Str (s : cells) | Pkt (p : packet).

Record stream := mkStream {
  percentAttack : Z;
  randomPtr : Random.random_t;
  allocVector : Vector.vector;
  packetQueue : Queue.queue;
  attackMap : gmap Z cells;
  buffers : gmap Z buffer }.

Section code.
Context (alloc : gset Z -> Z).

Definition stream_alloc (percent : Z) : option stream :=
  if (0 <=? percent) && (percent <=? 100) then
    r ← Random.random_alloc 32 true;
    r ← r;
    v ← Vector.vector_alloc true true 1;
    q ← Queue.queue_alloc true true (-1);
    Some (mkStream percent r v q ∅ ∅)
  else None.

(** [malloc], and the address is pushed to [allocVectorPtr]. *)
Definition keep (b : buffer) (s : stream) : option (Z * stream) :=
  let a := alloc (dom (buffers s)) in
  '(v, status) ← Vector.vector_pushBack true (allocVector s) a;
  if status : bool then
    Some (a, mkStream (percentAttack s) (randomPtr s) v (packetQueue s) (attackMap s) (<[a := b]> (buffers s)))
  else None.

Definition enqueue (a : Z) (s : stream) : option stream :=
  '(q, status) ← Queue.queue_push true (packetQueue s) a;
  if status : bool then
    Some (mkStream (percentAttack s) (randomPtr s) (allocVector s) q (attackMap s) (buffers s))
  else None.

Definition draw (s : stream) : option (Z * stream) :=
  '(r, y) ← Random.random_generate 32 (randomPtr s);
  Some (y, mkStream (percentAttack s) r (allocVector s) (packetQueue s) (attackMap s) (buffers s)).

Definition MAP_INSERT (f : Z) (str : cells) (s : stream) : option stream :=
  match attackMap s !! f with
  | Some _ => None           (* assert(status) *)
  | None =>
    Some (mkStream (percentAttack s) (randomPtr s) (allocVector s) (packetQueue s) (<[f := str]> (attackMap s)) (buffers s))
  end.

(** One packet of [n] bytes from [str + off]. *)
Definition send (str : cells) (flow p numPacket off n : Z) (s : stream) : option stream :=
  bytes ← copy_cells (Z.to_nat n) str off (replicate (Z.to_nat n) None) 0;
  '(a, s) ← keep (Pkt (mkPacket flow p numPacket n bytes)) s;
  enqueue a s.

(** [k] rounds of the loop over [p]. *)
Fixpoint send_loop (k : nat) (str : cells) (flow p numPacket numDataByte : Z) (s : stream) : option stream :=
  match k with
  | O => Some s
  | S k =>
    s ← send str flow p numPacket (p * numDataByte) numDataByte s;
    send_loop k str flow (p + 1) numPacket numDataByte s
  end.

Definition splitIntoPackets (str : cells) (flow : Z) (s : stream) : option stream :=
  numByte ← strlen str;
  '(g, s) ← draw s;
  if numByte =? 0 then None else
  let numPacket := g mod numByte + 1 in
  let numDataByte := numByte / numPacket in
  s ← send_loop (Z.to_nat (numPacket - 1)) str flow 0 numPacket numDataByte s;
  let lastNumDataByte := numDataByte + numByte mod numPacket in
  send str flow (numPacket - 1) numPacket ((numPacket - 1) * numDataByte) lastNumDataByte s.

(** [k] more characters of the random string. *)
Fixpoint random_chars (k : nat) (s : stream) : option (list Z * stream) :=
  match k with
  | O => Some ([], s)
  | S k =>
    '(g, s) ← draw s;
    '(cs, s) ← random_chars k s;
    Some (32 + g mod 95 :: cs, s)
  end.

(** The string of flow [f]; [n] is [numAttack]. *)
Definition choose_string (dict : dictionary) (maxLength f : Z) (s : stream) (n : Z) : option (cells * stream * Z) :=
  '(g, s) ← draw s;
  if g mod 100 <? percentAttack s then
    '(g, s) ← draw s;
    str ← dictionary_get dict (g mod global_numDefaultSignature);
    s ← MAP_INSERT f (literal str) s;
    Some (literal str, s, n + 1)
  else
    if u32 maxLength =? 0 then None else
    '(g, s) ← draw s;
    '(cs, s) ← random_chars (Z.to_nat (g mod u32 maxLength + 1)) s;
    '(a, s) ← keep (Str (literal cs)) s;
    str2 ← strcpy (g mod u32 maxLength + 2) (literal cs);
    error ← detector_process lower_detector str2;
    if decide (error = ERROR_SIGNATURE)
    then s ← MAP_INSERT f (literal cs) s; Some (literal cs, s, n + 1)
    else Some (literal cs, s, n).

(** The body of the loop over the flows. *)
Definition generate_flow (dict : dictionary) (maxLength f : Z) (s : stream) (n : Z) : option (stream * Z) :=
  '(str, s, n) ← choose_string dict maxLength f s n;
  s ← splitIntoPackets str f s;
  Some (s, n).

Fixpoint generate_loop (k : nat) (dict : dictionary) (maxLength f : Z) (s : stream) (n : Z) : option (stream * Z) :=
  match k with
  | O => Some (s, n)
  | S k => '(s, n) ← generate_flow dict maxLength f s n; generate_loop k dict maxLength (f + 1) s n
  end.

(** [random_seed(randomPtr, seed); queue_clear(packetQueuePtr);] *)
Definition stream_reset (s : stream) (seed : Z) : option stream :=
  r ← Random.random_seed 32 (randomPtr s) seed;
  Some (mkStream (percentAttack s) r (allocVector s) (Queue.queue_clear (packetQueue s)) (attackMap s) (buffers s)).

Definition stream_generate (s : stream) (dict : dictionary) (numFlow seed maxLength : Z) : option (stream * Z) :=
  s ← stream_reset s seed;
  '(s, n) ← generate_loop (Z.to_nat numFlow) dict maxLength 1 s 0;
  '(r, gs) ← Random.random_numbers 32 (2 * Z.to_nat (Queue.numElement (packetQueue s))) (randomPtr s);
  q ← Queue.queue_shuffle (fun i => nth i gs 0) (packetQueue s);
  Some (mkStream (percentAttack s) r (allocVector s) q (attackMap s) (buffers s), n).

Definition stream_getPacket (q : Queue.queue) : option (Queue.queue * Z) := Queue.queue_pop q.
Definition TMstream_getPacket := stream_getPacket.

Definition stream_isAttack (s : stream) (flow : Z) : bool := bool_decide (is_Some (attackMap s !! flow)).

(** The loop of [stream_free]: [free] of an address not in use is undefined. *)
Fixpoint free_loop (k : nat) (a : Z) (v : Vector.vector) (h : gmap Z buffer) : option (gmap Z buffer) :=
  match k with
  | O => Some h
  | S k =>
    p ← Vector.vector_at v a;
    _ ← h !! p;
    free_loop k (a + 1) v (delete p h)
  end.

Definition stream_free (s : stream) : option (gmap Z buffer) :=
  free_loop (Z.to_nat (Vector.vector_getSize (allocVector s))) 0 (allocVector s) (buffers s).

(** ** [decoder.c] *)

Record decoded := mkDecoded { decodedFlowId : Z; decodedData : cells }.

Record decoder := mkDecoder {
  fragmentedMap : gmap Z Z;         (* flow -> list *)
  lists : gmap Z (list Z);          (* the lists of packets *)
  decodedQueue : Queue.queue;
  decodeds : gmap Z decoded }.

Definition decoder_alloc : option decoder :=
  q ← Queue.queue_alloc true true 1024; Some (mkDecoder ∅ ∅ q ∅).

(** The objects the decoder works on. *)
Definition used (packets : gmap Z packet) (d : decoder) : gset Z :=
  dom packets ∪ dom (lists d) ∪ dom (decodeds d).

Definition set_map (m : gmap Z Z) (d : decoder) : decoder := mkDecoder m (lists d) (decodedQueue d) (decodeds d).
Definition set_lists (l : gmap Z (list Z)) (d : decoder) : decoder := mkDecoder (fragmentedMap d) l (decodedQueue d) (decodeds d).

(** [status = MAP_REMOVE(fragmentedMapPtr, flowId); assert(status);] *)
Definition MAP_REMOVE (flow : Z) (d : decoder) : option decoder :=
  match fragmentedMap d !! flow with
  | Some _ => Some (set_map (delete flow (fragmentedMap d)) d)
  | None => None
  end.

Section packets.
Context (packets : gmap Z packet).

(** [packet_compareFragmentId] on pointers. *)
Definition packet_compareFragmentId (a b : Z) : Z :=
  match packets !! a, packets !! b with Some pa, Some pb => compare_fragment pa pb | _, _ => 0 end.

(** [list_insert] of a list with duplicates. *)
Definition list_insert (bytes : Z) (l : list Z) : option (list Z) := linsert packet_compareFragmentId false bytes l.

(** The first loop over the fragments: [Some None] when they are not in sequence. *)
Fixpoint check_loop (l : list Z) (flow i numByte : Z) : option (option Z) :=
  match l with
  | [] => Some (Some numByte)
  | a :: l =>
    p ← packets !! a;
    if negb (flowId p =? flow) then None
    else if negb (fragmentId p =? i) then Some None
    else check_loop l flow (i + 1) (s32 (numByte + length_ p))
  end.

(** The second loop: the data of every fragment at [dst]. *)
Fixpoint gather_loop (l : list Z) (bytes : cells) (dst : Z) : option (cells * Z) :=
  match l with
  | [] => Some (bytes, dst)
  | a :: l =>
    p ← packets !! a;
    bytes ← copy_cells (Z.to_nat (length_ p)) (data p) 0 bytes dst;
    gather_loop l bytes (dst + length_ p)
  end.

(** [decodedPtr] is allocated, filled and pushed. *)
Definition push_decoded (flow : Z) (bytes : cells) (d : decoder) : option decoder :=
  let a := alloc (used packets d) in
  '(q, status) ← Queue.queue_push true (decodedQueue d) a;
  if status : bool then
    Some (mkDecoder (fragmentedMap d) (lists d) q (<[a := mkDecoded flow bytes]> (decodeds d)))
  else None.

(** [data = malloc(n + 1); data[n] = 0]: a size of 0 bytes or beyond [PTRDIFF_MAX] is refused. *)
Definition new_data (n : Z) : option cells :=
  if (0 <=? n) && (n <? 2 ^ 31 - 1) then awrite (replicate (Z.to_nat (n + 1)) None) n 0 else None.

(** All the fragments are there. *)
Definition reassemble (flow lp : Z) (l : list Z) (d : decoder) : option (decoder * error_t) :=
  checked ← check_loop l flow 0 0;
  match checked with
  | None => d ← MAP_REMOVE flow d; Some (d, ERROR_INCOMPLETE)
  | Some numByte =>
    bytes ← new_data numByte;
    '(bytes, dst) ← gather_loop l bytes 0;
    if negb (dst =? numByte) then None else
    d ← push_decoded flow bytes d;
    d ← MAP_REMOVE flow (set_lists (delete lp (lists d)) d);
    Some (d, ERROR_NONE)
  end.

Definition first_fragment (flow bytes : Z) (d : decoder) : option (decoder * error_t) :=
  let lp := alloc (used packets d) in
  l ← list_insert bytes [];
  match fragmentedMap d !! flow with
  | Some _ => None           (* assert(status) of MAP_INSERT *)
  | None => Some (set_map (<[flow := lp]> (fragmentedMap d)) (set_lists (<[lp := l]> (lists d)) d), ERROR_NONE)
  end.

Definition next_fragment (flow num lp bytes : Z) (d : decoder) : option (decoder * error_t) :=
  l ← lists d !! lp;
  first ← head l;
  firstFragment ← packets !! first;
  if negb (num =? numFragment firstFragment) then d ← MAP_REMOVE flow d; Some (d, ERROR_NUMFRAGMENT)
  else
    l ← list_insert bytes l;
    let d := set_lists (<[lp := l]> (lists d)) d in
    if Z.of_nat (length l) =? num then reassemble flow lp l d else Some (d, ERROR_NONE).

Definition only_fragment (p : packet) (d : decoder) : option (decoder * error_t) :=
  if negb (fragmentId p =? 0) then Some (d, ERROR_FRAGMENTID)
  else
    bytes ← new_data (length_ p);
    bytes ← copy_cells (Z.to_nat (length_ p)) (data p) 0 bytes 0;
    d ← push_decoded (flowId p) bytes d;
    Some (d, ERROR_NONE).

(** [numByte] is compared with a [size_t]. *)
Definition decoder_process (bytes numByte : Z) (d : decoder) : option (decoder * error_t) :=
  if u32 numByte <? PACKET_HEADER_LENGTH then Some (d, ERROR_SHORT)
  else
    p ← packets !! bytes;
    if flowId p <? 0 then Some (d, ERROR_FLOWID)
    else if (fragmentId p <? 0) || (numFragment p <=? fragmentId p) then Some (d, ERROR_FRAGMENTID)
    else if length_ p <? 0 then Some (d, ERROR_LENGTH)
    else if 1 <? numFragment p then
      let fragmentList := default NULL (fragmentedMap d !! flowId p) in
      if fragmentList =? NULL then first_fragment (flowId p) bytes d
      else next_fragment (flowId p) (numFragment p) fragmentList bytes d
    else only_fragment p d.

End packets.

(** The string, or nothing, with its flow. *)
Definition decoder_getComplete (d : decoder) : option (decoder * option cells * Z) :=
  '(q, a) ← Queue.queue_pop (decodedQueue d);
  if a =? NULL then Some (mkDecoder (fragmentedMap d) (lists d) q (decodeds d), None, -1)
  else
    r ← decodeds d !! a;
    Some (mkDecoder (fragmentedMap d) (lists d) q (delete a (decodeds d)), Some (decodedData r), decodedFlowId r).

Definition TMdecoder_process := decoder_process.
Definition TMdecoder_getComplete := decoder_getComplete.

(** ** [intruder.c] *)

(** Where a thread is in the loop of [processPackets]. *)
Inductive place := Get | Process (bytes : Z) | Complete | Detect (str : cells) (flow : Z) | Done.

Record thread := mkThread { at_ : place; errorVector : Vector.vector }.

Record state := mkState { input : Queue.queue; decoderPtr : decoder; threads : list thread }.

Section run.
Context (packets : gmap Z packet).

(** [if (error) assert(0)] for the errors of the decoder. *)
Definition processPackets (th : thread) (q : Queue.queue) (d : decoder) : option (thread * Queue.queue * decoder) :=
  let go p := mkThread p (errorVector th) in
  match at_ th with
  | Get =>
    '(q, bytes) ← TMstream_getPacket q;
    Some (go (if bytes =? NULL then Done else Process bytes), q, d)
  | Process bytes =>
    p ← packets !! bytes;
    '(d, error) ← TMdecoder_process packets bytes (s32 (PACKET_HEADER_LENGTH + length_ p)) d;
    if decide (error = ERROR_NONE) then Some (go Complete, q, d) else None
  | Complete =>
    '(d, str, flow) ← TMdecoder_getComplete d;
    Some (go (match str with Some str => Detect str flow | None => Get end), q, d)
  | Detect str flow =>
    error ← detector_process lower_detector str;
    if decide (error = ERROR_NONE) then Some (go Get, q, d)
    else
      '(v, status) ← Vector.vector_pushBack true (errorVector th) flow;
      if status : bool then Some (mkThread Get v, q, d) else None
  | Done => None
  end.

Definition step (t : nat) (s : state) : option state :=
  th ← threads s !! t;
  '(th, q, d) ← processPackets th (input s) (decoderPtr s);
  Some (mkState q d (<[t := th]> (threads s))).

End run.

(** The packets among the buffers. *)
Definition packets_of (s : stream) : gmap Z packet :=
  omap (fun b => match b with Pkt p => Some p | Str _ => None end) (buffers s).

(** [main] up to the parallel phase: the stream, [numAttack] and the first state. *)
Definition set_up (percent maxLength numFlow seed : Z) (numThread : nat) : option (stream * Z * state) :=
  s ← stream_alloc percent;
  '(s, numAttack) ← stream_generate s dictionary_alloc numFlow seed maxLength;
  d ← decoder_alloc;
  v ← Vector.vector_alloc true true numFlow;
  Some (s, numAttack, mkState (packetQueue s) d (replicate numThread (mkThread Get v))).

(** The loop over the errors of one thread. *)
Fixpoint check_errors (k : nat) (e : Z) (s : stream) (v : Vector.vector) : option () :=
  match k with
  | O => Some ()
  | S k =>
    flow ← Vector.vector_at v e;
    if stream_isAttack s flow then check_errors k (e + 1) s v else None
  end.

(** The check at the end: [numFound]. *)
Fixpoint check_solution (s : stream) (ths : list thread) (numFound : Z) : option Z :=
  match ths with
  | [] => Some numFound
  | th :: ths =>
    let numError := Vector.vector_getSize (errorVector th) in
    _ ← check_errors (Z.to_nat numError) 0 s (errorVector th);
    check_solution s ths (numFound + numError)
  end.

End code.
End Intruder.
