(* ===== verification/IntruderDecoder.v ===== *)
(** * The intruder benchmark of STAMP: the decoder

    What the decoder of [Intruder] does with the packets of a set of flows, in any order: no
    packet is refused, and a flow is put together exactly when its last packet arrives. *)

From S2P Require Import Prelude StampList StampArray StampQueue Intruder.
Import Intruder.

Lemma seqZ_sorted m n : StronglySorted Z.le (seqZ m n).
Proof.
  unfold seqZ. generalize 0%nat at 1. induction (Z.to_nat n) as [|k IH]; intros j; csimpl; constructor; [done|].
  apply Forall_fmap, Forall_forall. intros x Hx%elem_of_seq. simpl. lia.
Qed.

Lemma Forall2_in {A B} (P Q : A -> B -> Prop) l k : Forall2 P l k -> (forall a b, a ∈ l -> P a b -> Q a b) -> Forall2 Q l k.
Proof. induction 1; intros H'; constructor; [by apply H'; [left|]|]. apply IHForall2. intros. apply H'; [by right|done]. Qed.

(** ** The packets of a flow *)

(** Where packet [i] of [k] begins in a string of [n] characters; packet [k] would begin at the end. *)
Definition offset (n k i : Z) : Z := if i =? k then n else i * (n / k).

Definition piece (f : Z) (s : list Z) (k i : Z) : packet :=
  let n := Z.of_nat (length s) in
  mkPacket f i k (offset n k (i + 1) - offset n k i)
    (Some <$> take (Z.to_nat (offset n k (i + 1) - offset n k i)) (drop (Z.to_nat (offset n k i)) s)).

(** A string and the number of its packets. *)
Definition flow_ok (x : list Z * Z) : Prop :=
  0 ∉ x.1 /\ 1 <= x.2 <= Z.of_nat (length x.1) /\ Z.of_nat (length x.1) < 2 ^ 30.

Lemma offset_bounds n k i : 1 <= k <= n -> 0 <= i < k ->
  0 <= offset n k i <= offset n k (i + 1) /\ offset n k (i + 1) <= n.
Proof.
  intros Hk Hi. unfold offset.
  assert (k * (n / k) <= n) by (apply Z.mul_div_le; lia).
  assert (0 <= n / k) by (apply Z.div_pos; lia).
  destruct (Z.eqb_spec i k), (Z.eqb_spec (i + 1) k); try lia; nia.
Qed.

Lemma piece_length f s k i : length (data (piece f s k i)) =
  Nat.min (Z.to_nat (length_ (piece f s k i))) (length s - Z.to_nat (offset (Z.of_nat (length s)) k i)).
Proof. unfold piece. cbv zeta. cbn [data length_]. by rewrite length_fmap, length_take, length_drop. Qed.

Lemma piece_cell f s k i j : 1 <= k <= Z.of_nat (length s) -> 0 <= i < k -> 0 <= j < length_ (piece f s k i) ->
  acell (data (piece f s k i)) j = Some (s !! Z.to_nat (offset (Z.of_nat (length s)) k i + j)).
Proof.
  intros Hk Hi Hj. pose proof (offset_bounds _ k i Hk Hi). unfold piece in *. cbv zeta in *. cbn [data length_] in *.
  rewrite acell_lookup by lia. unfold cells. rewrite list_lookup_fmap, lookup_take_lt, lookup_drop by lia.
  replace (_ + Z.to_nat j)%nat with (Z.to_nat (offset (Z.of_nat (length s)) k i + j)) by lia.
  destruct (lookup_lt_is_Some_2 s (Z.to_nat (offset (Z.of_nat (length s)) k i + j))) as [x ->]; [lia|done].
Qed.

(** A C string in its array. *)
Lemma literal_cells (s : list Z) (b : cells) : length b = S (length s) -> acell b (Z.of_nat (length s)) = Some (Some 0) ->
  (forall j, 0 <= j < Z.of_nat (length s) -> acell b j = Some (s !! Z.to_nat j)) -> b = literal s.
Proof.
  intros Hl H0 Hj. rewrite acell_lookup in H0 by lia. unfold cells in *. apply list_eq. intros i. unfold literal. destruct (decide (i < length s)%nat).
  - specialize (Hj (Z.of_nat i) ltac:(lia)). rewrite acell_lookup, Nat2Z.id in Hj by lia. unfold cells in Hj. rewrite Hj.
    destruct (lookup_lt_is_Some_2 s i) as [x Hx]; [done|]. rewrite lookup_app_l by by rewrite length_fmap.
    by rewrite list_lookup_fmap, Hx.
  - destruct (decide (i = length s)) as [->|].
    + rewrite Nat2Z.id in H0. rewrite H0, lookup_app_r; rewrite length_fmap; [|lia]. by rewrite Nat.sub_diag.
    + rewrite !lookup_ge_None_2; [done|rewrite length_app, length_fmap; simpl; lia|lia].
Qed.

Lemma cstring_literal s : 0 ∉ s -> cstring (literal s) = Some s.
Proof.
  unfold literal. induction s as [|c s IH]; intros H; [done|]. apply not_elem_of_cons in H as [Hc Hs].
  csimpl. cbn [cstring]. destruct (Z.eqb_spec c 0); [by subst|]. by rewrite IH.
Qed.

(** ** The decoder *)

Section decoder.
Context (packets : gmap Z packet) (flows : list (list Z * Z)) (all : list Z).

Definition flow (f : Z) : option (list Z * Z) := if 1 <=? f then flows !! Z.to_nat (f - 1) else None.

(** The packets of the flows, one of each. *)
Record well_cut : Prop := {
  cut_flows : Forall flow_ok flows;
  cut_few : Z.of_nat (length flows) < 2 ^ 30;
  cut_nodup : NoDup all;
  cut_null : NULL ∉ all;
  cut_piece a : a ∈ all -> exists f s k i, flow f = Some (s, k) /\ 0 <= i < k /\ packets !! a = Some (piece f s k i);
  cut_all f s k i : flow f = Some (s, k) -> 0 <= i < k -> exists a, a ∈ all /\ packets !! a = Some (piece f s k i);
  cut_once a b p : a ∈ all -> b ∈ all -> packets !! a = Some p -> packets !! b = Some p -> a = b }.

Context (Hcut : well_cut).

Definition flow_of (a : Z) : Z := default (-1) (flowId <$> packets !! a).
Definition frag_of (a : Z) : Z := default 0 (fragmentId <$> packets !! a).
Definition of_flow (f : Z) (l : list Z) : list Z := filter (fun a => flow_of a = f) l.

Lemma flow_valid f s k : flow f = Some (s, k) ->
  0 ∉ s /\ 1 <= k <= Z.of_nat (length s) /\ Z.of_nat (length s) < 2 ^ 30 /\ 1 <= f <= Z.of_nat (length flows).
Proof.
  unfold flow. destruct (Z.leb_spec 1 f); [|done]. intros Hf. pose proof (lookup_lt_Some _ _ _ Hf).
  pose proof (proj1 (Forall_lookup _ _) (cut_flows Hcut) _ _ Hf) as (H1 & H2 & H3). simpl in *. split_and!; (done || lia).
Qed.

Lemma piece_of a f s k i : packets !! a = Some (piece f s k i) -> flow_of a = f /\ frag_of a = i.
Proof. unfold flow_of, frag_of. by intros ->. Qed.

(** The numbers of the packets of a flow are 0 to [k - 1]. *)
Lemma frags_all f s k : flow f = Some (s, k) -> frag_of <$> of_flow f all ≡ₚ seqZ 0 k.
Proof.
  intros Hf. apply NoDup_Permutation.
  - apply NoDup_fmap_2_strong; [|apply NoDup_filter, (cut_nodup Hcut)].
    intros a b Ha Hb Hab. apply list_elem_of_filter in Ha as [Hfa Ha], Hb as [Hfb Hb].
    destruct (cut_piece Hcut a Ha) as (f1 & s1 & k1 & i1 & Hf1 & _ & Hp1), (cut_piece Hcut b Hb) as (f2 & s2 & k2 & i2 & Hf2 & _ & Hp2).
    destruct (piece_of _ _ _ _ _ Hp1) as [E1 E2], (piece_of _ _ _ _ _ Hp2) as [E3 E4].
    eapply (cut_once Hcut); [done|done|exact Hp1|]. rewrite Hp2. congruence.
  - apply NoDup_seqZ.
  - intros i. rewrite elem_of_seqZ, list_elem_of_fmap. split.
    + intros (a & -> & Ha). apply list_elem_of_filter in Ha as [Hfa Ha].
      destruct (cut_piece Hcut a Ha) as (f1 & s1 & k1 & i1 & Hf1 & Hi & Hp1). destruct (piece_of _ _ _ _ _ Hp1) as [E1 E2].
      assert (k1 = k) by congruence. lia.
    + intros Hi. destruct (cut_all Hcut f s k i Hf) as (a & Ha & Hp); [lia|]. destruct (piece_of _ _ _ _ _ Hp) as [E1 E2].
      exists a. split; [done|]. by apply list_elem_of_filter.
Qed.

Lemma all_count f s k : flow f = Some (s, k) -> Z.of_nat (length (of_flow f all)) = k.
Proof.
  intros Hf. pose proof (frags_all f s k Hf) as Hp. apply Permutation_length in Hp. rewrite length_fmap, length_seqZ in Hp.
  destruct (flow_valid f s k Hf) as (_ & ? & _). lia.
Qed.

(** Some of the packets; all of the flow when there are [k] of it. *)
Definition some_of (l : list Z) : Prop := NoDup l /\ forall a, a ∈ l -> a ∈ all.

Lemma some_submseteq l f : some_of l -> of_flow f l ⊆+ of_flow f all.
Proof.
  intros [Hn Ha]. apply NoDup_submseteq; [by apply NoDup_filter|].
  intros a. unfold of_flow. rewrite !list_elem_of_filter. naive_solver.
Qed.

Lemma some_count l f s k : some_of l -> flow f = Some (s, k) -> Z.of_nat (length (of_flow f l)) <= k.
Proof.
  intros Hl Hf. rewrite <- (all_count f s k Hf). apply inj_le, submseteq_length, some_submseteq, Hl.
Qed.

Lemma some_complete l f s k : some_of l -> flow f = Some (s, k) -> Z.of_nat (length (of_flow f l)) = k ->
  of_flow f l ≡ₚ of_flow f all.
Proof.
  intros Hl Hf Hk. apply submseteq_length_Permutation; [by apply some_submseteq|].
  pose proof (all_count f s k Hf). lia.
Qed.

(** *** The list of fragments *)

Definition by_frag (a b : Z) : Z := frag_of a - frag_of b.

#[local] Instance by_frag_comparison : Comparison by_frag.
Proof. split; unfold by_frag; intros; lia. Qed.

Lemma compare_all a b : a ∈ all -> b ∈ all -> packet_compareFragmentId packets a b = by_frag a b.
Proof.
  intros Ha Hb. destruct (cut_piece Hcut a Ha) as (f1 & s1 & k1 & i1 & Hf1 & Hi1 & Hp1), (cut_piece Hcut b Hb) as (f2 & s2 & k2 & i2 & Hf2 & Hi2 & Hp2).
  destruct (flow_valid _ _ _ Hf1) as (_ & ? & ? & _), (flow_valid _ _ _ Hf2) as (_ & ? & ? & _).
  unfold packet_compareFragmentId, compare_fragment, by_frag, frag_of. rewrite Hp1, Hp2. cbn. apply s32_small. lia.
Qed.

Lemma lsplit_ext {A} (c1 c2 : A -> A -> Z) x l : (forall y, y ∈ l -> c1 y x = c2 y x) -> lsplit c1 x l = lsplit c2 x l.
Proof.
  induction l as [|y l IH]; intros H; simpl; [done|]. rewrite (H y) by left. rewrite IH; [done|]. intros. apply H. by right.
Qed.

Lemma fragment_insert_spec a l : a ∈ all -> (forall b, b ∈ l -> b ∈ all) -> StronglySorted (cle by_frag) l ->
  exists l', list_insert packets a l = Some l' /\ l' ≡ₚ a :: l /\ StronglySorted (cle by_frag) l'.
Proof.
  intros Ha Hl Hs. assert (E : linsert (packet_compareFragmentId packets) false a l = linsert by_frag false a l).
  { unfold linsert. simpl. rewrite (lsplit_ext _ by_frag); [done|]. intros b Hb. apply compare_all; auto. }
  unfold list_insert. rewrite E. eexists. split; [done|].
  split; [by apply (linsert_perm by_frag false)|by eapply (linsert_sorted by_frag false)].
Qed.

(** A complete sorted list has the packets in sequence. *)
Lemma in_sequence l f s k : flow f = Some (s, k) -> StronglySorted (cle by_frag) l -> l ≡ₚ of_flow f all ->
  length l = Z.to_nat k /\ forall j a, l !! j = Some a -> packets !! a = Some (piece f s k (Z.of_nat j)).
Proof.
  intros Hf Hs Hp. assert (E : frag_of <$> l = seqZ 0 k).
  { apply (StronglySorted_unique Z.le).
    - clear -Hs. induction Hs as [|a l Hs IH Ha]; csimpl; constructor; [done|]. apply Forall_fmap. eapply Forall_impl; [exact Ha|].
      unfold cle, by_frag. simpl. intros. lia.
    - apply seqZ_sorted.
    - rewrite Hp. by eapply frags_all. }
  assert (Hk : length l = Z.to_nat k) by by rewrite <- (length_fmap frag_of), E, length_seqZ.
  split; [done|]. intros j a Ha. pose proof (list_elem_of_lookup_2 _ _ _ Ha) as Hin. rewrite Hp in Hin.
  apply list_elem_of_filter in Hin as [Hfa Hin]. destruct (cut_piece Hcut a Hin) as (f1 & s1 & k1 & i1 & Hf1 & Hi & Hp1).
  destruct (piece_of _ _ _ _ _ Hp1) as [E1 E2].
  assert (Hj : (frag_of <$> l) !! j = Some (frag_of a)) by by rewrite list_lookup_fmap, Ha.
  rewrite E in Hj. apply lookup_seqZ in Hj as [Hj _]. rewrite Hp1. replace (Z.of_nat j) with i1 by lia. congruence.
Qed.

(** Packets [i] and following of a flow. *)
Definition pieces (l : list Z) (f : Z) (s : list Z) (k i : Z) : Prop :=
  forall j a, l !! j = Some a -> packets !! a = Some (piece f s k (i + Z.of_nat j)).

Lemma pieces_cons a l f s k i : pieces (a :: l) f s k i -> packets !! a = Some (piece f s k i) /\ pieces l f s k (i + 1).
Proof.
  intros H. split.
  - rewrite <- (Z.add_0_r i). by apply (H 0%nat).
  - intros j b Hb. replace (i + 1 + Z.of_nat j) with (i + Z.of_nat (S j)) by lia. by apply H.
Qed.

Lemma check_loop_spec f s k l : flow f = Some (s, k) -> forall i, 0 <= i -> i + Z.of_nat (length l) <= k -> pieces l f s k i ->
  check_loop packets l f i (offset (Z.of_nat (length s)) k i) = Some (Some (offset (Z.of_nat (length s)) k (i + Z.of_nat (length l)))).
Proof.
  intros Hf. destruct (flow_valid f s k Hf) as (_ & Hk & Hs & _). induction l as [|a l IH]; intros i Hi Hl Hp; simpl.
  { by rewrite Z.add_0_r. }
  apply pieces_cons in Hp as [Ha Hp]. rewrite Ha. cbn [mbind option_bind]. unfold piece at 1 2 3. cbn [flowId fragmentId length_].
  simpl length in Hl. rewrite !Z.eqb_refl. cbn [negb]. pose proof (offset_bounds _ k i Hk ltac:(lia)).
  rewrite s32_small by lia. replace (_ + (_ - _)) with (offset (Z.of_nat (length s)) k (i + 1)) by lia.
  rewrite IH by (done || lia). do 3 f_equal. lia.
Qed.

(** The first [n] characters of the string are in the array, and the zero at its end. *)
Definition filled (s : list Z) (n : Z) (b : cells) : Prop :=
  length b = S (length s) /\ acell b (Z.of_nat (length s)) = Some (Some 0) /\
  forall j, 0 <= j < n -> acell b j = Some (s !! Z.to_nat j).

Lemma filled_new s : Z.of_nat (length s) < 2 ^ 30 -> exists b, new_data (Z.of_nat (length s)) = Some b /\ filled s 0 b.
Proof.
  intros Hs. unfold new_data. rewrite (proj2 (Z.leb_le _ _)), (proj2 (Z.ltb_lt _ _)) by lia. cbn [andb]. unfold awrite.
  destruct (aset_in (replicate (Z.to_nat (Z.of_nat (length s) + 1)) None) (Z.of_nat (length s)) (Some 0)) as (b & -> & Hl & Hb).
  - rewrite length_replicate. lia.
  - exists b. split; [done|]. rewrite length_replicate in Hl. split_and!; [lia| |lia]. by rewrite Hb, decide_True.
Qed.

Lemma filled_copy f s k i b : 1 <= k <= Z.of_nat (length s) -> 0 <= i < k -> filled s (offset (Z.of_nat (length s)) k i) b ->
  exists b', copy_cells (Z.to_nat (length_ (piece f s k i))) (data (piece f s k i)) 0 b (offset (Z.of_nat (length s)) k i) = Some b' /\
  filled s (offset (Z.of_nat (length s)) k (i + 1)) b'.
Proof.
  intros Hk Hi (Hl & H0 & Hb). pose proof (offset_bounds _ k i Hk Hi) as Ho.
  assert (Hlen : length_ (piece f s k i) = offset (Z.of_nat (length s)) k (i + 1) - offset (Z.of_nat (length s)) k i) by done.
  destruct (copy_cells_spec (Z.to_nat (length_ (piece f s k i))) (data (piece f s k i)) 0 b (offset (Z.of_nat (length s)) k i)) as (b' & -> & Hl' & Hb').
  { lia. } { rewrite piece_length. lia. } { lia. } { lia. }
  exists b'. split; [done|]. split_and!; [congruence| |].
  - rewrite Hb', decide_False by lia. done.
  - intros j Hj. rewrite Hb'. case_decide; [|apply Hb; lia]. rewrite piece_cell by lia. do 3 f_equal. lia.
Qed.

Lemma gather_loop_spec f s k l : flow f = Some (s, k) -> forall i b, 0 <= i -> i + Z.of_nat (length l) <= k -> pieces l f s k i ->
  filled s (offset (Z.of_nat (length s)) k i) b ->
  exists b', gather_loop packets l b (offset (Z.of_nat (length s)) k i) = Some (b', offset (Z.of_nat (length s)) k (i + Z.of_nat (length l))) /\
  filled s (offset (Z.of_nat (length s)) k (i + Z.of_nat (length l))) b'.
Proof.
  intros Hf. destruct (flow_valid f s k Hf) as (_ & Hk & Hs & _). induction l as [|a l IH]; intros i b Hi Hl Hp Hb; simpl.
  { exists b. by rewrite Z.add_0_r. }
  apply pieces_cons in Hp as [Ha Hp]. rewrite Ha. cbn [mbind option_bind]. simpl length in Hl.
  destruct (filled_copy f s k i b) as (b1 & -> & Hb1); [lia|lia|done|]. cbn [mbind option_bind].
  replace (offset _ k i + _) with (offset (Z.of_nat (length s)) k (i + 1)) by (unfold piece; cbn [length_]; lia).
  destruct (IH (i + 1) b1) as (b2 & -> & Hb2); [lia|lia|done|done|]. exists b2.
  replace (i + Z.of_nat (S (length l))) with (i + 1 + Z.of_nat (length l)) by lia. done.
Qed.

Lemma filled_literal s b : filled s (Z.of_nat (length s)) b -> b = literal s.
Proof. intros (H1 & H2 & H3). by apply literal_cells. Qed.

(** *** The invariant

    [seen] are the packets processed so far, [out] the strings in the queue. *)

Record queued (d : decoder) (out : list (Z * list Z)) (ps : list Z) : Prop := {
  queued_repr : Queue.repr (decodedQueue d) ps;
  queued_out : Forall2 (fun a x => decodeds d !! a = Some (mkDecoded x.1 (literal x.2))) ps out;
  queued_nodup : NoDup ps;
  queued_null : NULL ∉ ps;
  queued_dom : dom (decodeds d) = list_to_set ps }.

Record holding (seen : list Z) (d : decoder) : Prop := {
  hold_list f lp : fragmentedMap d !! f = Some lp -> lp <> NULL /\ exists s k l, flow f = Some (s, k) /\
    lists d !! lp = Some l /\ l ≡ₚ of_flow f seen /\ StronglySorted (cle by_frag) l /\ 0 < Z.of_nat (length l) < k;
  hold_none f s k : fragmentedMap d !! f = None -> flow f = Some (s, k) ->
    k = 1 \/ of_flow f seen = [] \/ Z.of_nat (length (of_flow f seen)) = k;
  hold_apart f g lp : fragmentedMap d !! f = Some lp -> fragmentedMap d !! g = Some lp -> f = g;
  hold_dom lp l : lists d !! lp = Some l -> exists f, fragmentedMap d !! f = Some lp }.

Record decoder_inv (seen : list Z) (d : decoder) (out : list (Z * list Z)) : Prop := {
  inv_some : some_of seen;
  inv_hold : holding seen d;
  inv_out : (length out <= length seen)%nat;
  inv_queued : exists ps, queued d out ps }.

(** The oldest string of the queue. *)
Lemma decoder_getComplete_ok seen d out : decoder_inv seen d out -> exists d',
  decoder_getComplete d = Some (d', (fun x => literal x.2) <$> head out, default (-1) (fst <$> head out)) /\
  decoder_inv seen d' (tail out).
Proof.
  intros [H1 H2 H3 (ps & [Hr Ho Hn H0 Hd])]. unfold decoder_getComplete.
  destruct (Queue.queue_pop_spec (decodedQueue d) ps Hr) as (q & -> & Hr'). cbn [mbind option_bind].
  destruct Ho as [|p x ps out Hp Ho]; simpl in *.
  - eexists. split; [done|]. split; [done|by destruct H2|simpl; lia|]. exists []. by split.
  - apply not_elem_of_cons in H0 as [Hp0 H0]. apply NoDup_cons in Hn as [Hps Hn]. destruct (Z.eqb_spec p NULL); [by subst|].
    rewrite Hp. cbn [mbind option_bind]. eexists. split; [done|]. split; [done|by destruct H2|simpl; lia|].
    exists ps. split; cbn [decodedQueue decodeds]; [done| |done|done|].
    + eapply Forall2_in; [exact Ho|]. intros b y Hb Hy. rewrite lookup_delete_ne; [done|]. by intros ->.
    + rewrite dom_delete_L, Hd. set_solver.
Qed.

Lemma decoder_alloc_ok : exists d, decoder_alloc = Some d /\ decoder_inv [] d [].
Proof.
  unfold decoder_alloc. destruct (Queue.queue_alloc true true 1024) as [q|] eqn:Eq; [|by vm_compute in Eq].
  eexists. split; [done|]. apply Queue.queue_alloc_repr in Eq; [|lia]. split.
  - split; [constructor|]. by intros a ?%elem_of_nil.
  - split; cbn [fragmentedMap lists]; try done. by right; left.
  - done.
  - exists []. split; [done|constructor|constructor|by intros ?%elem_of_nil|done].
Qed.

Context (alloc : gset Z -> Z) (alloc_ok : forall X, alloc X <> NULL /\ alloc X ∉ X).

Lemma push_decoded_spec d out ps f s : queued d out ps -> Z.of_nat (length out) + 2 < 2 ^ 28 ->
  exists d' ps', push_decoded alloc packets f (literal s) d = Some d' /\ queued d' (out ++ [(f, s)]) ps' /\
  fragmentedMap d' = fragmentedMap d /\ lists d' = lists d.
Proof.
  intros [Hr Ho Hn H0 Hd] Hlen. unfold push_decoded. destruct (alloc_ok (used packets d)) as [Ha0 Ha].
  set (a := alloc (used packets d)) in *. assert (Hps : a ∉ ps).
  { intros Hin. apply Ha. unfold used. rewrite Hd. set_solver. }
  destruct (Queue.queue_push_spec true (decodedQueue d) ps a Hr) as (q & b & -> & Hr' & Hb). cbn [mbind option_bind].
  assert (Hl := Forall2_length _ _ _ Ho). destruct b; [|destruct (Hb eq_refl); [done|lia]].
  eexists _, (ps ++ [a]). split; [done|]. split; [|done]. split; cbn [decodedQueue decodeds].
  - done.
  - apply Forall2_app; [|constructor; [by rewrite lookup_insert_eq|constructor]].
    eapply Forall2_in; [exact Ho|]. intros b x Hb' Hx. rewrite lookup_insert_ne; [done|]. by intros ->.
  - apply NoDup_app. split_and!; [done|set_solver|apply NoDup_singleton].
  - set_solver.
  - rewrite dom_insert_L, list_to_set_app_L, Hd. set_solver.
Qed.

Lemma of_flow_cons a l f : of_flow f (a :: l) = if decide (flow_of a = f) then a :: of_flow f l else of_flow f l.
Proof. unfold of_flow. rewrite filter_cons. done. Qed.

Lemma some_cons a l : some_of l -> a ∈ all -> a ∉ l -> some_of (a :: l).
Proof. intros [Hn Hl] Ha Hal. split; [by constructor|]. intros b [->|Hb]%elem_of_cons; auto. Qed.

(** A step on flow [f] keeps what the decoder holds of the others. *)
Lemma holding_step seen d d' a f s k : holding seen d -> flow_of a = f -> flow f = Some (s, k) ->
  (forall g, g <> f -> fragmentedMap d' !! g = fragmentedMap d !! g) ->
  (forall g lp, g <> f -> fragmentedMap d !! g = Some lp -> lists d' !! lp = lists d !! lp) ->
  (forall lp, fragmentedMap d' !! f = Some lp -> lp <> NULL /\ (forall g, g <> f -> fragmentedMap d !! g <> Some lp) /\ exists l,
    lists d' !! lp = Some l /\ l ≡ₚ a :: of_flow f seen /\ StronglySorted (cle by_frag) l /\ 0 < Z.of_nat (length l) < k) ->
  (fragmentedMap d' !! f = None -> k = 1 \/ Z.of_nat (S (length (of_flow f seen))) = k) ->
  (forall lp l, lists d' !! lp = Some l -> fragmentedMap d' !! f = Some lp \/ exists g, g <> f /\ fragmentedMap d !! g = Some lp) ->
  holding (a :: seen) d'.
Proof.
  intros H Ha Hf Hm Hl Hs Hn Hd. split.
  - intros g lp Hg. rewrite of_flow_cons, Ha. case_decide as E.
    + subst g. destruct (Hs lp Hg) as (H0 & _ & l & Hl1 & Hl2 & Hl3 & Hl4). split; [done|]. by exists s, k, l.
    + rewrite Hm in Hg by done. destruct (hold_list _ _ H g lp Hg) as (H0 & s' & k' & l & ?). split; [done|].
      exists s', k', l. by rewrite (Hl g).
  - intros g s' k' Hg Hf'. rewrite of_flow_cons, Ha. case_decide as E.
    + subst g. simplify_eq. destruct (Hn Hg) as [?|?]; [by left|by right; right].
    + rewrite Hm in Hg by done. by eapply (hold_none _ _ H).
  - intros g h lp Hg Hh. destruct (decide (g = f)) as [->|Eg], (decide (h = f)) as [->|Eh]; [done| | |].
    + rewrite Hm in Hh by done. destruct (Hs lp Hg) as (_ & Hx & _). by destruct (Hx h).
    + rewrite Hm in Hg by done. destruct (Hs lp Hh) as (_ & Hx & _). by destruct (Hx g).
    + rewrite Hm in Hg, Hh by done. by eapply (hold_apart _ _ H).
  - intros lp l Hlp. destruct (Hd lp l Hlp) as [?|(g & Hg & E)]; [by exists f|]. exists g. by rewrite Hm.
Qed.

(** What the next packet of a flow completes. *)
Definition completes (seen : list Z) (a f : Z) (s : list Z) (k : Z) : list (Z * list Z) :=
  if Z.of_nat (length (of_flow f (a :: seen))) =? k then [(f, s)] else [].

Section step.
Context (seen : list Z) (d : decoder) (out : list (Z * list Z)) (a f : Z) (s : list Z) (k i : Z).
Context (Hinv : decoder_inv seen d out) (Ha : a ∈ all) (Hnew : a ∉ seen) (Hroom : Z.of_nat (length out) + 2 < 2 ^ 28).
Context (Hf : flow f = Some (s, k)) (Hi : 0 <= i < k) (Hp : packets !! a = Some (piece f s k i)).

Definition processed (r : option (decoder * error_t)) : Prop :=
  exists d', r = Some (d', ERROR_NONE) /\ decoder_inv (a :: seen) d' (out ++ completes seen a f s k).

Lemma step_flow : flow_of a = f.
Proof. by destruct (piece_of _ _ _ _ _ Hp). Qed.

Lemma step_count : of_flow f (a :: seen) = a :: of_flow f seen /\ Z.of_nat (S (length (of_flow f seen))) <= k.
Proof.
  rewrite of_flow_cons, decide_True by apply step_flow. split; [done|].
  pose proof (some_count (a :: seen) f s k) as H. rewrite of_flow_cons, decide_True in H by apply step_flow.
  apply H; [|done]. apply some_cons; [apply (inv_some _ _ _ Hinv)|done|done].
Qed.

Lemma processed_intro d' : holding (a :: seen) d' -> (exists ps, queued d' (out ++ completes seen a f s k) ps) ->
  processed (Some (d', ERROR_NONE)).
Proof.
  intros H1 H2. exists d'. split; [done|]. split; [|done| |done].
  - apply some_cons; [apply (inv_some _ _ _ Hinv)|done|done].
  - rewrite length_app. pose proof (inv_out _ _ _ Hinv). unfold completes. simpl. case_match; simpl; lia.
Qed.

Lemma only_ok : k = 1 -> processed (only_fragment alloc packets (piece f s k i) d).
Proof.
  pose proof processed_intro as Hpi. pose proof step_flow as Hfa. destruct step_count as [Hc1 Hc2].
  intros Hk1. assert (Hi0 : i = 0) by lia. rewrite Hk1 in Hf, Hpi, Hc2 |- *. rewrite Hi0. unfold only_fragment. cbn [fragmentId piece]. rewrite Z.eqb_refl. cbn [negb].
  destruct (flow_valid f s 1 Hf) as (_ & Hk & Hs & _).
  assert (E : length_ (piece f s 1 0) = Z.of_nat (length s)).
  { unfold piece, offset. cbn [length_]. rewrite Z.div_1_r. simpl. lia. }
  rewrite E. destruct (filled_new s Hs) as (b & -> & Hb). cbn [mbind option_bind].
  destruct (filled_copy f s 1 0 b Hk ltac:(lia)) as (b' & Hcp & Hb'); [exact Hb|]. rewrite E in Hcp.
  change (offset (Z.of_nat (length s)) 1 0) with 0 in Hcp. rewrite Hcp. cbn [mbind option_bind].
  change (offset (Z.of_nat (length s)) 1 (0 + 1)) with (Z.of_nat (length s)) in Hb'. apply filled_literal in Hb' as ->.
  destruct (inv_queued _ _ _ Hinv) as (ps & Hq). change (flowId (piece f s 1 0)) with f.
  destruct (push_decoded_spec d out ps f s Hq Hroom) as (d' & ps' & -> & Hq' & Em & El). cbn [mbind option_bind].
  apply Hpi.
  - pose proof (inv_hold _ _ _ Hinv) as H. apply (holding_step seen d d' a f s 1); rewrite ?Em, ?El; try done.
    + intros lp Hlp. destruct (hold_list _ _ H f lp Hlp) as (_ & s' & k' & l & Hf' & _ & _ & _ & Hl). simplify_eq. lia.
    + by left.
    + intros lp l Hl. destruct (hold_dom _ _ H lp l Hl) as (g & Hg). destruct (decide (g = f)) as [->|]; [by left|right; eauto].
  - exists ps'. unfold completes. rewrite Hc1. simpl length. replace (Z.of_nat _ =? 1) with true; [done|]. symmetry. apply Z.eqb_eq. lia.
Qed.

Lemma not_complete : Z.of_nat (S (length (of_flow f seen))) < k -> completes seen a f s k = [].
Proof.
  intros H. unfold completes. destruct step_count as [-> _]. simpl length. destruct (Z.eqb_spec (Z.of_nat (S (length (of_flow f seen)))) k); [lia|done].
Qed.

Lemma first_ok : 1 < k -> fragmentedMap d !! f = None -> processed (first_fragment alloc packets f a d).
Proof.
  intros Hk Hm. pose proof step_flow as Hfa. destruct step_count as [Hc1 Hc2]. pose proof (inv_hold _ _ _ Hinv) as H.
  destruct (hold_none _ _ H f s k Hm Hf) as [?|[Hnil|?]]; [lia| |lia].
  unfold first_fragment, list_insert, linsert. cbn [lsplit andb mbind option_bind fst snd app]. rewrite Hm.
  destruct (alloc_ok (used packets d)) as [Hn Hu]. set (lp := alloc (used packets d)) in *.
  assert (Hlp : lists d !! lp = None) by (apply not_elem_of_dom; unfold used in Hu; set_solver).
  assert (Hother : forall g, fragmentedMap d !! g <> Some lp).
  { intros g Hg. destruct (hold_list _ _ H g lp Hg) as (_ & s' & k' & l & _ & Hl & _). congruence. }
  apply processed_intro.
  - apply (holding_step seen d _ a f s k); cbn [fragmentedMap lists set_map set_lists]; try done.
    + intros g Hg. by rewrite lookup_insert_ne.
    + intros g lp' Hg Hlp'. rewrite lookup_insert_ne; [done|]. intros <-. by apply (Hother g).
    + intros lp'. rewrite lookup_insert_eq. intros [= <-]. split; [done|]. split; [by intros|]. exists [a]. rewrite lookup_insert_eq, Hnil.
      split_and!; [done|done|repeat constructor|simpl; lia..].
    + by rewrite lookup_insert_eq.
    + intros lp' l. rewrite lookup_insert_Some. intros [[<- _]|[_ Hl]]; [left; by rewrite lookup_insert_eq|].
      destruct (hold_dom _ _ H lp' l Hl) as (g & Hg). right. exists g. split; [|done]. intros ->. congruence.
  - rewrite not_complete by (rewrite Hnil; simpl; lia). rewrite app_nil_r. destruct (inv_queued _ _ _ Hinv) as (ps & [? ? ? ? ?]).
    exists ps. by split.
Qed.

(** The list of a flow is complete: its string goes to the queue, and nothing is left of it. *)
Lemma reassemble_ok lp l : 1 < k -> fragmentedMap d !! f = Some lp -> l ≡ₚ of_flow f (a :: seen) ->
  StronglySorted (cle by_frag) l -> Z.of_nat (length l) = k ->
  processed (reassemble alloc packets f lp l (set_lists (<[lp := l]> (lists d)) d)).
Proof.
  intros Hk Hm Hperm Hsort Hlen. pose proof step_flow as Hfa. destruct step_count as [Hc1 Hc2]. pose proof (inv_hold _ _ _ Hinv) as H.
  destruct (flow_valid f s k Hf) as (_ & Hks & Hs & _).
  assert (Hall : l ≡ₚ of_flow f all).
  { rewrite Hperm. eapply some_complete; [|done|by rewrite <- Hperm]. apply some_cons; [apply (inv_some _ _ _ Hinv)|done|done]. }
  destruct (in_sequence l f s k Hf Hsort Hall) as [_ Hseq].
  assert (H0 : offset (Z.of_nat (length s)) k 0 = 0) by (unfold offset; destruct (Z.eqb_spec 0 k); lia).
  assert (Hend : offset (Z.of_nat (length s)) k (0 + Z.of_nat (length l)) = Z.of_nat (length s)) by (unfold offset; destruct (Z.eqb_spec (0 + Z.of_nat (length l)) k); lia).
  unfold reassemble. pose proof (check_loop_spec f s k l Hf 0 ltac:(lia) ltac:(lia) Hseq) as Hcheck. rewrite H0, Hend in Hcheck. rewrite Hcheck.
  cbn [mbind option_bind]. destruct (filled_new s Hs) as (b & -> & Hb). cbn [mbind option_bind].
  destruct (gather_loop_spec f s k l Hf 0 b ltac:(lia) ltac:(lia) Hseq) as (b' & Hg & Hb'); [by rewrite H0|].
  rewrite H0, Hend in Hg. rewrite Hend in Hb'. rewrite Hg. cbn [mbind option_bind]. rewrite Z.eqb_refl. cbn [negb].
  apply filled_literal in Hb' as ->. destruct (inv_queued _ _ _ Hinv) as (ps & Hq).
  destruct (push_decoded_spec (set_lists (<[lp := l]> (lists d)) d) out ps f s) as (d' & ps' & -> & Hq' & Em & El); [by destruct Hq|done|].
  cbn [mbind option_bind]. unfold MAP_REMOVE. cbn [set_lists fragmentedMap]. rewrite Em. cbn [set_lists fragmentedMap]. rewrite Hm. cbn [mbind option_bind].
  apply processed_intro.
  - rewrite El. apply (holding_step seen d _ a f s k); cbn [fragmentedMap lists set_map set_lists]; rewrite ?delete_insert_eq; try done.
    + intros g Hg'. by rewrite lookup_delete_ne.
    + intros g lp' Hg' Hlp'. rewrite lookup_delete_ne; [done|]. intros <-. apply Hg'. by eapply (hold_apart _ _ H).
    + intros lp'. by rewrite lookup_delete_eq.
    + intros _. right. rewrite <- Hlen, Hperm, Hc1. done.
    + intros lp' l' [Hne Hl']%lookup_delete_Some. destruct (hold_dom _ _ H lp' l' Hl') as (g & Hg'). right. exists g.
      split; [|done]. intros ->. congruence.
  - exists ps'. unfold completes. rewrite Hperm, Hc1 in Hlen. rewrite Hc1, Hlen, Z.eqb_refl. by destruct Hq'.
Qed.

Lemma next_ok lp : 1 < k -> fragmentedMap d !! f = Some lp -> processed (next_fragment alloc packets f k lp a d).
Proof.
  intros Hk Hm. pose proof step_flow as Hfa. destruct step_count as [Hc1 Hc2]. pose proof (inv_hold _ _ _ Hinv) as H.
  destruct (hold_list _ _ H f lp Hm) as (Hn & s' & k' & l & Hf' & Hl & Hperm & Hsort & Hlen).
  assert (s' = s) as -> by congruence. assert (k' = k) as -> by congruence. clear Hf'.
  assert (Hin : forall b, b ∈ l -> b ∈ all /\ flow_of b = f).
  { intros b. rewrite Hperm. intros [? Hb]%list_elem_of_filter. split; [|done]. by apply (inv_some _ _ _ Hinv). }
  unfold next_fragment. rewrite Hl. cbn [mbind option_bind]. destruct l as [|b l]; [simpl in Hlen; lia|]. cbn [head mbind option_bind].
  destruct (Hin b) as [Hb Hfb]; [left|]. destruct (cut_piece Hcut b Hb) as (f1 & s1 & k1 & i1 & Hf1 & _ & Hp1). rewrite Hp1. cbn [mbind option_bind].
  destruct (piece_of _ _ _ _ _ Hp1) as [E1 _]. assert (k1 = k) as -> by congruence. unfold piece at 1. cbn [numFragment]. rewrite Z.eqb_refl. cbn [negb].
  destruct (fragment_insert_spec a (b :: l) Ha) as (l' & -> & Hperm' & Hsort'); [naive_solver|done|]. cbn [mbind option_bind].
  rewrite Hperm, <- Hc1 in Hperm'. destruct (Z.eqb_spec (Z.of_nat (length l')) k) as [Hfull|Hpart].
  - by apply reassemble_ok.
  - assert (Z.of_nat (length l') = Z.of_nat (S (length (of_flow f seen)))) by by rewrite Hperm', Hc1.
    apply processed_intro.
    + apply (holding_step seen d _ a f s k); cbn [fragmentedMap lists set_map set_lists]; try done.
      * intros g lp' Hg Hlp'. rewrite lookup_insert_ne; [done|]. intros <-. apply Hg. by eapply (hold_apart _ _ H).
      * intros lp' Hlp'. assert (lp' = lp) as -> by congruence. split; [done|]. split; [intros g Hg Hg'; apply Hg; by eapply (hold_apart _ _ H)|].
        exists l'. rewrite lookup_insert_eq, <- Hc1. split_and!; [done|done|done|lia..].
      * congruence.
      * intros lp' l1. rewrite lookup_insert_Some. intros [[<- _]|[Hne Hl1]]; [by left|]. destruct (hold_dom _ _ H lp' l1 Hl1) as (g & Hg).
        right. exists g. split; [|done]. intros ->. congruence.
    + rewrite not_complete by lia. rewrite app_nil_r. destruct (inv_queued _ _ _ Hinv) as (ps & [? ? ? ? ?]). exists ps. by split.
Qed.

(** The packet is taken. *)
Lemma decoder_process_ok : processed (decoder_process alloc packets a (s32 (PACKET_HEADER_LENGTH + length_ (piece f s k i))) d).
Proof.
  destruct (flow_valid f s k Hf) as (_ & Hk & Hs & Hfr). pose proof (cut_few Hcut). pose proof (offset_bounds _ k i Hk Hi).
  unfold decoder_process, PACKET_HEADER_LENGTH. rewrite Hp. cbn [mbind option_bind].
  unfold piece at 1 2 3 4 5 6 7 8 9. cbn [flowId fragmentId numFragment length_].
  rewrite s32_small, u32_small by lia. destruct (Z.ltb_spec (16 + (offset (Z.of_nat (length s)) k (i + 1) - offset (Z.of_nat (length s)) k i)) 16); [lia|].
  destruct (Z.ltb_spec f 0); [lia|]. destruct (Z.ltb_spec i 0); [lia|]. destruct (Z.leb_spec k i); [lia|]. cbn [orb].
  destruct (Z.ltb_spec (offset (Z.of_nat (length s)) k (i + 1) - offset (Z.of_nat (length s)) k i) 0); [lia|].
  destruct (Z.ltb_spec 1 k) as [Hk1|Hk1]; [|apply only_ok; lia].
  destruct (fragmentedMap d !! f) as [lp|] eqn:Hm; simpl default.
  - destruct (hold_list _ _ (inv_hold _ _ _ Hinv) f lp Hm) as (Hn & _). destruct (Z.eqb_spec lp NULL); [done|]. rewrite Hm. by apply next_ok.
  - cbn. by apply first_ok.
Qed.

End step.

End decoder.
