(* ===== verification/IntruderStream.v ===== *)
(** * The intruder benchmark of STAMP: the generator

    [stream_generate] of [Intruder] cuts every string into the packets that [IntruderDecoder] is
    about, once each, and marks exactly the flows in which the detector finds a word. *)

From S2P Require Import Prelude StampArray StampQueue StampVector StampRandom Intruder IntruderDecoder.
Import Intruder.

(** ** The detector *)

(** The detector finds a word in the string. *)
Definition attack (s : list Z) : bool := existsb (strstr (tolower <$> s)) global_defaultSignatures.

Lemma tolower_nonzero s : 0 ∉ s -> 0 ∉ (tolower <$> s : list Z).
Proof.
  intros H (c & Hc & Hin)%list_elem_of_fmap. apply H. unfold tolower in Hc.
  destruct (Z.leb_spec 65 c), (Z.leb_spec c 90); simpl in Hc; try lia; by subst.
Qed.

Lemma toLower_literal s : 0 ∉ s -> preprocessor_toLower (literal s) = Some (literal (tolower <$> s)).
Proof.
  unfold literal. induction s as [|c s IH]; intros H; [done|]. apply not_elem_of_cons in H as [Hc Hs].
  csimpl. cbn [preprocessor_toLower]. destruct (Z.eqb_spec c 0); [by subst|]. by rewrite IH.
Qed.

Lemma detector_spec s : 0 ∉ s -> detector_process lower_detector (literal s) = Some (if attack s then ERROR_SIGNATURE else ERROR_NONE).
Proof.
  intros Hs. unfold detector_process, dictionary_match. cbn [preprocess preprocessorVector lower_detector detector_addPreprocessor detector_alloc app].
  rewrite toLower_literal by done. cbn [mbind option_bind]. rewrite cstring_literal by by apply tolower_nonzero.
  cbn [mbind option_bind]. unfold attack. cbn [dictionaryPtr lower_detector detector_addPreprocessor detector_alloc]. unfold dictionary_alloc.
  do 2 f_equal. induction global_defaultSignatures as [|w d IH]; simpl; [done|]. by destruct (strstr _ w).
Qed.

(** Every word of the dictionary is found in itself. *)
Lemma signatures_found : Forall (fun w => attack w = true /\ 0 ∉ w /\ 1 <= Z.of_nat (length w) <= 7) global_defaultSignatures.
Proof.
  apply (bool_decide_unpack _). vm_compute. exact I.
Qed.

Lemma dictionary_get_ok g : exists w, dictionary_get dictionary_alloc (g mod global_numDefaultSignature) = Some w /\
  attack w = true /\ 0 ∉ w /\ 1 <= Z.of_nat (length w) <= 7.
Proof.
  pose proof (Z.mod_pos_bound g global_numDefaultSignature ltac:(done)) as Hr. unfold dictionary_get, dictionary_alloc, dictionary.
  destruct (Z.ltb_spec (g mod global_numDefaultSignature) 0); [lia|].
  destruct (lookup_lt_is_Some_2 global_defaultSignatures (Z.to_nat (g mod global_numDefaultSignature))) as [w Hw].
  { unfold global_numDefaultSignature in *. lia. }
  exists w. split; [done|]. exact (proj1 (Forall_lookup _ _) signatures_found _ _ Hw).
Qed.

Lemma strcpy_literal s : 0 ∉ s -> strcpy (Z.of_nat (S (length s))) (literal s) = Some (literal s).
Proof.
  intros Hs. unfold strcpy. rewrite cstring_literal by done. cbn [mbind option_bind].
  assert (Hl : length (literal s) = S (length s)) by (unfold literal; rewrite length_app, length_fmap; simpl; lia).
  destruct (copy_cells_spec (S (length s)) (literal s) 0 (replicate (Z.to_nat (Z.of_nat (S (length s)))) None) 0) as (b & -> & Hb & Hc);
    rewrite ?length_replicate in *; try lia.
  f_equal. unfold cells in *. apply list_eq. intros i. destruct (decide (i < S (length s))%nat).
  - specialize (Hc (Z.of_nat i)). rewrite decide_True in Hc by lia. rewrite !acell_lookup in Hc by lia. unfold cells in Hc.
    replace (Z.to_nat (0 + (Z.of_nat i - 0))) with i in Hc by lia. by rewrite Nat2Z.id in Hc.
  - rewrite !lookup_ge_None_2; [done|lia..].
Qed.

(** ** The packets of a string *)

Definition flow_pieces (f : Z) (x : list Z * Z) : list packet := piece f x.1 x.2 <$> seqZ 0 x.2.

Definition all_pieces (flows : list (list Z * Z)) : list packet :=
  mjoin (imap (fun i x => flow_pieces (Z.of_nat i + 1) x) flows).

Lemma all_pieces_snoc flows x : all_pieces (flows ++ [x]) = all_pieces flows ++ flow_pieces (Z.of_nat (length flows) + 1) x.
Proof.
  unfold all_pieces. rewrite imap_app, join_app. f_equal. simpl. rewrite app_nil_r, Nat.add_0_r. done.
Qed.

Lemma literal_cell s j : 0 <= j < Z.of_nat (length s) -> acell (literal s) j = Some (s !! Z.to_nat j).
Proof.
  intros Hj. unfold literal. rewrite acell_lookup by lia. unfold cells. rewrite lookup_app_l by (rewrite length_fmap; lia).
  rewrite list_lookup_fmap. destruct (lookup_lt_is_Some_2 s (Z.to_nat j)) as [c ->]; [lia|done].
Qed.

Lemma copy_piece f s k i : 1 <= k <= Z.of_nat (length s) -> 0 <= i < k ->
  copy_cells (Z.to_nat (length_ (piece f s k i))) (literal s) (offset (Z.of_nat (length s)) k i)
    (replicate (Z.to_nat (length_ (piece f s k i))) None) 0 = Some (data (piece f s k i)).
Proof.
  intros Hk Hi. pose proof (offset_bounds _ k i Hk Hi) as Ho.
  assert (Hn : length_ (piece f s k i) = offset (Z.of_nat (length s)) k (i + 1) - offset (Z.of_nat (length s)) k i) by done.
  assert (Hl : length (literal s) = S (length s)) by (unfold literal; rewrite length_app, length_fmap; simpl; lia).
  destruct (copy_cells_spec (Z.to_nat (length_ (piece f s k i))) (literal s) (offset (Z.of_nat (length s)) k i)
    (replicate (Z.to_nat (length_ (piece f s k i))) None) 0) as (b & -> & Hb & Hc); rewrite ?length_replicate in *; try lia.
  f_equal. pose proof (piece_length f s k i) as Hpl. unfold cells in *. apply list_eq. intros j.
  destruct (decide (j < length b)%nat).
  - specialize (Hc (Z.of_nat j)). rewrite decide_True in Hc by lia. pose proof (piece_cell f s k i (Z.of_nat j) Hk Hi ltac:(lia)) as Hp.
    rewrite literal_cell in Hc by lia. rewrite acell_lookup in Hc, Hp by lia. unfold cells in *. rewrite Nat2Z.id in Hc, Hp. rewrite Hc, Hp.
    do 2 f_equal. lia.
  - rewrite !lookup_ge_None_2; [done|lia..].
Qed.

(** ** Random numbers *)

Definition random_ok (r : Random.random_t) : Prop := exists s j, Random.at_word s j r.

Lemma temper_nonneg x : 0 <= x -> 0 <= Random.temper x.
Proof.
  assert (Hx : forall a b, 0 <= a -> 0 <= b -> 0 <= Z.lxor a b) by (intros; apply Z.lxor_nonneg; tauto).
  intros H. unfold Random.temper. cbv zeta. repeat match goal with
  | |- 0 <= Z.lxor _ _ => apply Hx
  | |- 0 <= Z.land _ _ => apply Z.land_nonneg; right; lia
  | |- 0 <= Z.shiftr _ _ => apply Z.shiftr_nonneg
  end; done.
Qed.

Lemma random_step r : random_ok r -> exists r' y, Random.random_generate 32 r = Some (r', y) /\ 0 <= y /\ random_ok r'.
Proof.
  intros (s & j & H). destruct (Random.random_generate_spec 32 ltac:(lia) s j r H) as (r' & -> & H').
  exists r', (Random.temper (Random.word s j)). split_and!; [done| |by exists s, (S j)]. apply temper_nonneg, Random.word_range.
Qed.

Lemma random_list r n : random_ok r -> exists r' ys, Random.random_numbers 32 n r = Some (r', ys) /\ Forall (Z.le 0) ys /\ random_ok r'.
Proof.
  revert r. induction n as [|n IH]; intros r Hr; simpl; [by exists r, []|].
  destruct (random_step r Hr) as (r1 & y & -> & Hy & Hr1). cbn [mbind option_bind].
  destruct (IH r1 Hr1) as (r2 & ys & -> & Hys & Hr2). cbn [mbind option_bind]. exists r2, (y :: ys). auto.
Qed.

(** ** Generation *)

Section stream.
Context (alloc : gset Z -> Z) (alloc_ok : forall X, alloc X <> NULL /\ alloc X ∉ X).

(** [held]: the buffers; [sent]: the queue, with the packets [pks]. *)
Record made (s : stream) (held sent : list Z) (pks : list packet) : Prop := {
  made_random : random_ok (randomPtr s);
  made_held : Vector.repr (allocVector s) held;
  made_nodup : NoDup held;
  made_null : NULL ∉ held;
  made_dom : dom (buffers s) = list_to_set held;
  made_sent : Queue.repr (packetQueue s) sent;
  made_once : NoDup sent;
  made_pks : Forall2 (fun a p => buffers s !! a = Some (Pkt p)) sent pks }.

Definition same (s s' : stream) : Prop := percentAttack s' = percentAttack s /\ attackMap s' = attackMap s.

Lemma made_sub s held sent pks a : made s held sent pks -> a ∈ sent -> a ∈ held.
Proof.
  intros H Ha. apply list_elem_of_lookup in Ha as (i & Hi). destruct (Forall2_lookup_l _ _ _ _ _ (made_pks _ _ _ _ H) Hi) as (p & _ & Hp).
  apply elem_of_dom_2 in Hp. rewrite (made_dom _ _ _ _ H) in Hp. set_solver.
Qed.

Lemma made_length s held sent pks : made s held sent pks -> (length sent <= length held)%nat.
Proof. intros H. apply submseteq_length, NoDup_submseteq; [apply H|]. intros a. by eapply made_sub. Qed.

Lemma draw_ok s held sent pks : made s held sent pks ->
  exists g s', draw s = Some (g, s') /\ 0 <= g /\ made s' held sent pks /\ same s s'.
Proof.
  intros [? ? ? ? ? ? ? ?]. unfold draw. destruct (random_step (randomPtr s)) as (r & y & -> & Hy & Hr); [done|]. cbn [mbind option_bind].
  eexists _, _. split_and!; [done|done| |done]. by split.
Qed.

Lemma keep_ok s held sent pks b : made s held sent pks -> Z.of_nat (length held) < 2 ^ 28 ->
  exists a s', keep alloc b s = Some (a, s') /\ made s' (held ++ [a]) sent pks /\ same s s' /\
  a ∉ held /\ buffers s' !! a = Some b.
Proof.
  intros H Hlen. pose proof H as [? Hh Hn H0 Hd Hs Ho Hp]. unfold keep. destruct (alloc_ok (dom (buffers s))) as [Ha0 Ha].
  set (a := alloc (dom (buffers s))) in *. rewrite Hd in Ha. assert (Ha' : a ∉ held) by set_solver.
  destruct (Vector.vector_pushBack_spec true (allocVector s) held a Hh) as (v & ok & -> & Hv & Hok). cbn [mbind option_bind].
  destruct ok; [|destruct (Hok eq_refl); [done|lia]]. eexists a, _. split; [done|]. split; [|split_and!; [done|done|apply lookup_insert_eq]].
  split; cbn; [done|done| | | |done|done|].
  - apply NoDup_app. split_and!; [done|set_solver|apply NoDup_singleton].
  - set_solver.
  - rewrite dom_insert_L, list_to_set_app_L, Hd. set_solver.
  - eapply Forall2_in; [exact Hp|]. intros b' p Hb' Hp'. rewrite lookup_insert_ne; [done|]. intros <-. by eapply Ha', made_sub.
Qed.

Lemma enqueue_ok s held sent pks a p : made s held sent pks -> a ∉ sent -> buffers s !! a = Some (Pkt p) ->
  Z.of_nat (length sent) + 2 < 2 ^ 28 ->
  exists s', enqueue a s = Some s' /\ made s' held (sent ++ [a]) (pks ++ [p]) /\ same s s'.
Proof.
  intros [? Hh Hn H0 Hd Hs Ho Hp] Ha Hb Hlen. unfold enqueue.
  destruct (Queue.queue_push_spec true (packetQueue s) sent a Hs) as (q & ok & -> & Hq & Hok). cbn [mbind option_bind].
  destruct ok; [|destruct (Hok eq_refl); [done|lia]]. eexists. split; [done|]. split; [|done].
  split; cbn; try done.
  - apply NoDup_app. split_and!; [done|set_solver|apply NoDup_singleton].
  - apply Forall2_app; [done|]. by repeat constructor.
Qed.

(** Packet [i] of a flow. *)
Lemma send_ok s held sent pks f st k i off n : made s held sent pks -> Z.of_nat (length held) + 2 < 2 ^ 28 ->
  1 <= k <= Z.of_nat (length st) -> 0 <= i < k -> off = offset (Z.of_nat (length st)) k i ->
  n = length_ (piece f st k i) ->
  exists a s', send alloc (literal st) f i k off n s = Some s' /\ made s' (held ++ [a]) (sent ++ [a]) (pks ++ [piece f st k i]) /\ same s s'.
Proof.
  intros H Hlen Hk Hi -> ->. unfold send. rewrite copy_piece by done. cbn [mbind option_bind].
  destruct (keep_ok s held sent pks (Pkt (piece f st k i)) H ltac:(lia)) as (a & s1 & Hkeep & H1 & [E1 E2] & Ha & Hb).
  change (mkPacket f i k _ _) with (piece f st k i). rewrite Hkeep. cbn [mbind option_bind].
  pose proof (made_length _ _ _ _ H). destruct (enqueue_ok s1 (held ++ [a]) sent pks a (piece f st k i) H1) as (s2 & -> & H2 & [E3 E4]).
  - intros Hin. by eapply Ha, made_sub.
  - done.
  - lia.
  - exists a, s2. split_and!; [done|done|split; congruence].
Qed.

Lemma send_loop_ok f st k : 1 <= k <= Z.of_nat (length st) -> forall n i s held sent pks, made s held sent pks ->
  0 <= i -> i + Z.of_nat n < k -> Z.of_nat (length held + n) + 2 < 2 ^ 28 ->
  exists new s', send_loop alloc n (literal st) f i k (Z.of_nat (length st) / k) s = Some s' /\ length new = n /\
  made s' (held ++ new) (sent ++ new) (pks ++ (piece f st k <$> seqZ i (Z.of_nat n))) /\ same s s'.
Proof.
  intros Hk. induction n as [|n IH]; intros i s held sent pks H Hi Hn Hlen; simpl send_loop.
  { exists [], s. rewrite !app_nil_r. change (seqZ i (Z.of_nat 0)) with (@nil Z). done. }
  assert (Ho : forall j, 0 <= j < k -> offset (Z.of_nat (length st)) k j = j * (Z.of_nat (length st) / k)).
  { intros j Hj. unfold offset. destruct (Z.eqb_spec j k); [lia|done]. }
  destruct (send_ok s held sent pks f st k i (i * (Z.of_nat (length st) / k)) (Z.of_nat (length st) / k)) as (a & s1 & -> & H1 & [E1 E2]);
    [done|lia|done|lia|by rewrite Ho by lia|unfold piece; cbn [length_]; rewrite !Ho by lia; lia|]. cbn [mbind option_bind].
  destruct (IH (i + 1) s1 (held ++ [a]) (sent ++ [a]) (pks ++ [piece f st k i]) H1) as (new & s2 & -> & Hl & H2 & [E3 E4]);
    [lia|lia|rewrite length_app; simpl; lia|].
  exists (a :: new), s2. rewrite <- !app_assoc in H2. split_and!; [done|simpl; lia| |split; congruence].
  rewrite seqZ_cons by lia. csimpl. replace (Z.pred (Z.of_nat (S n))) with (Z.of_nat n) by lia. exact H2.
Qed.

Lemma splitIntoPackets_ok s held sent pks f st : made s held sent pks -> 0 ∉ st -> st <> [] ->
  Z.of_nat (length held + length st) + 2 < 2 ^ 28 ->
  exists k new s', splitIntoPackets alloc (literal st) f s = Some s' /\ 1 <= k <= Z.of_nat (length st) /\
  Z.of_nat (length new) = k /\ made s' (held ++ new) (sent ++ new) (pks ++ flow_pieces f (st, k)) /\ same s s'.
Proof.
  intros H Hz Hne Hlen. unfold splitIntoPackets, strlen. rewrite cstring_literal by done. cbn [mbind option_bind].
  destruct (draw_ok s held sent pks H) as (g & s1 & -> & Hg & H1 & [E1 E2]). cbn [mbind option_bind].
  set (n := Z.of_nat (length st)) in *. assert (Hn : 1 <= n) by (destruct st; [done|unfold n; simpl; lia]).
  destruct (Z.eqb_spec n 0); [lia|]. set (k := g mod n + 1).
  assert (Hk : 1 <= k <= n) by (unfold k; pose proof (Z.mod_pos_bound g n ltac:(lia)); lia).
  destruct (send_loop_ok f st k Hk (Z.to_nat (k - 1)) 0 s1 held sent pks H1) as (new & s2 & Hsl & Hl & H2 & [E3 E4]); [lia..|].
  fold n in Hsl. rewrite Hsl. cbn [mbind option_bind]. rewrite Z2Nat.id in H2 by lia.
  destruct (send_ok s2 (held ++ new) (sent ++ new) (pks ++ (piece f st k <$> seqZ 0 (k - 1))) f st k (k - 1)
    ((k - 1) * (n / k)) (n / k + n mod k)) as (a & s3 & -> & H3 & [E5 E6]); [done|rewrite length_app; lia|done|lia| | |].
  - unfold offset. destruct (Z.eqb_spec (k - 1) k); [lia|done].
  - unfold piece, offset. cbn [length_]. fold n. destruct (Z.eqb_spec (k - 1) k), (Z.eqb_spec (k - 1 + 1) k); try lia.
    pose proof (Z.div_mod n k). lia.
  - exists k, (new ++ [a]), s3. rewrite <- !app_assoc in H3. split_and!; [done|lia|lia|rewrite length_app; simpl; lia| |split; congruence].
    replace (flow_pieces f (st, k)) with ((piece f st k <$> seqZ 0 (k - 1)) ++ [piece f st k (k - 1)]); [exact H3|].
    unfold flow_pieces. simpl. replace (seqZ 0 k) with (seqZ 0 (k - 1) ++ [k - 1]); [by rewrite fmap_app|].
    replace k with ((k - 1) + 1) at 3 by lia. rewrite seqZ_app by lia. done.
Qed.

Lemma random_chars_ok n : forall s held sent pks, made s held sent pks ->
  exists cs s', random_chars n s = Some (cs, s') /\ length cs = n /\ 0 ∉ cs /\ made s' held sent pks /\ same s s'.
Proof.
  induction n as [|n IH]; intros s held sent pks H; simpl.
  { exists [], s. split_and!; try done. by intros ?%elem_of_nil. }
  destruct (draw_ok s held sent pks H) as (g & s1 & -> & Hg & H1 & [E1 E2]). cbn [mbind option_bind].
  destruct (IH s1 held sent pks H1) as (cs & s2 & -> & Hl & Hz & H2 & [E3 E4]). cbn [mbind option_bind].
  pose proof (Z.mod_pos_bound g 95 ltac:(lia)). eexists _, s2. split_and!; [done|simpl; lia| |done|split; congruence].
  apply not_elem_of_cons. split; [lia|done].
Qed.

Lemma made_insert s held sent pks f str : made s held sent pks -> attackMap s !! f = None ->
  exists s', MAP_INSERT f str s = Some s' /\ made s' held sent pks /\ percentAttack s' = percentAttack s /\ attackMap s' = <[f := str]> (attackMap s).
Proof. intros [? ? ? ? ? ? ? ?] Hf. unfold MAP_INSERT. rewrite Hf. eexists. split_and!; [done| |done|done]. by split. Qed.

Lemma choose_string_ok s held sent pks maxLength f n : made s held sent pks -> 0 < maxLength < 2 ^ 31 ->
  attackMap s !! f = None -> Z.of_nat (length held) < 2 ^ 28 ->
  exists st s' held', choose_string alloc dictionary_alloc maxLength f s n = Some (literal st, s', n + Z.b2z (attack st)) /\
  made s' held' sent pks /\ (length held' <= S (length held))%nat /\
  0 ∉ st /\ 1 <= Z.of_nat (length st) <= Z.max maxLength 7 /\ percentAttack s' = percentAttack s /\
  attackMap s' = if attack st then <[f := literal st]> (attackMap s) else attackMap s.
Proof.
  intros H Hmax Hf Hlen. unfold choose_string. destruct (draw_ok s held sent pks H) as (g & s1 & -> & Hg & H1 & [E1 E2]). cbn [mbind option_bind].
  destruct (g mod 100 <? percentAttack s1).
  - destruct (draw_ok s1 held sent pks H1) as (h & s2 & -> & Hh & H2 & [E3 E4]). cbn [mbind option_bind].
    destruct (dictionary_get_ok h) as (w & -> & Hat & Hz & Hlw). cbn [mbind option_bind].
    destruct (made_insert s2 held sent pks f (literal w) H2) as (s3 & -> & H3 & E5 & E6); [congruence|]. cbn [mbind option_bind].
    exists w, s3, held. rewrite Hat. split_and!; [done|done|lia|done|lia|lia|congruence|congruence].
  - rewrite u32_small by lia. destruct (Z.eqb_spec maxLength 0); [lia|].
    destruct (draw_ok s1 held sent pks H1) as (h & s2 & -> & Hh & H2 & [E3 E4]). cbn [mbind option_bind].
    pose proof (Z.mod_pos_bound h maxLength ltac:(lia)) as Hr.
    destruct (random_chars_ok (Z.to_nat (h mod maxLength + 1)) s2 held sent pks H2) as (cs & s3 & -> & Hl & Hz & H3 & [E5 E6]). cbn [mbind option_bind].
    destruct (keep_ok s3 held sent pks (Str (literal cs)) H3 Hlen) as (a & s4 & -> & H4 & [E7 E8] & _). cbn [mbind option_bind].
    replace (h mod maxLength + 2) with (Z.of_nat (S (length cs))) by lia. rewrite strcpy_literal by done. cbn [mbind option_bind].
    rewrite detector_spec by done. cbn [mbind option_bind]. exists cs. destruct (attack cs); simpl decide; cbn [Z.b2z].
    + destruct (made_insert s4 (held ++ [a]) sent pks f (literal cs) H4) as (s5 & Hins & H5 & E9 & E10); [congruence|].
      rewrite decide_True by done. rewrite Hins. cbn [mbind option_bind]. exists s5, (held ++ [a]).
      split_and!; [done|done|rewrite length_app; simpl; lia|done|lia|lia|congruence|congruence].
    + rewrite decide_False by done. exists s4, (held ++ [a]). rewrite Z.add_0_r. split_and!; [done|done|rewrite length_app; simpl; lia|done|lia|lia|congruence|congruence].
Qed.

(** ** All the flows *)

Record generated (s : stream) (n maxLength : Z) (held sent : list Z) (flows : list (list Z * Z)) : Prop := {
  gen_made : made s held sent (all_pieces flows);
  gen_flows : Forall (fun x => 0 ∉ x.1 /\ 1 <= x.2 <= Z.of_nat (length x.1) /\ Z.of_nat (length x.1) <= Z.max maxLength 7) flows;
  gen_attack f : is_Some (attackMap s !! f) <-> exists st k, flow flows f = Some (st, k) /\ attack st = true;
  gen_count : n = Z.of_nat (length (filter (fun x => attack x.1 = true) flows));
  gen_held : Z.of_nat (length held) <= Z.of_nat (length flows) * (Z.max maxLength 7 + 1) }.

Lemma flow_snoc flows x f y : flow (flows ++ [x]) f = Some y <->
  flow flows f = Some y \/ (f = Z.of_nat (length flows) + 1 /\ y = x).
Proof.
  unfold flow. destruct (Z.leb_spec 1 f); [|split; [done|intros [?|?]; [done|lia]]].
  rewrite lookup_snoc_Some. split.
  - intros [[_ ?]|[? ?]]; [by left|right; split; [lia|done]].
  - intros [Hl|[-> ->]]; [left; split; [by eapply lookup_lt_Some|done]|right; split; [lia|done]].
Qed.

(** The strings that the generator cuts, from flow [f] on. *)
Fixpoint chosen (k : nat) (maxLength f : Z) (s : stream) (n : Z) : option (list cells) :=
  match k with
  | O => Some []
  | S k =>
    '(str, s, n) ← choose_string alloc dictionary_alloc maxLength f s n;
    s ← splitIntoPackets alloc str f s;
    strs ← chosen k maxLength (f + 1) s n;
    Some (str :: strs)
  end.

Lemma generate_flow_ok s n maxLength held sent flows : generated s n maxLength held sent flows -> 0 < maxLength < 2 ^ 31 ->
  (Z.of_nat (length flows) + 1) * (Z.max maxLength 7 + 1) + 2 < 2 ^ 28 ->
  exists x held' sent' s' n', generate_flow alloc dictionary_alloc maxLength (Z.of_nat (length flows) + 1) s n = Some (s', n') /\
  generated s' n' maxLength held' sent' (flows ++ [x]) /\ percentAttack s' = percentAttack s /\
  forall k, chosen (S k) maxLength (Z.of_nat (length flows) + 1) s n =
    strs ← chosen k maxLength (Z.of_nat (length flows) + 1 + 1) s' n'; Some (literal x.1 :: strs).
Proof.
  intros [H Hfl Hat Hc Hh] Hmax Hroom. unfold generate_flow. cbn [chosen].
  assert (Hnone : attackMap s !! (Z.of_nat (length flows) + 1) = None).
  { destruct (attackMap s !! _) eqn:E; [|done]. destruct (proj1 (Hat (Z.of_nat (length flows) + 1))) as (st & k & Hf & _); [by eexists|].
    unfold flow in Hf. case_match; [|done]. apply lookup_lt_Some in Hf. lia. }
  destruct (choose_string_ok s held sent (all_pieces flows) maxLength _ n H Hmax Hnone) as (st & s1 & held1 & -> & H1 & Hl1 & Hz & Hst & Ep & Ea); [lia|].
  cbn [mbind option_bind]. destruct (splitIntoPackets_ok s1 held1 sent (all_pieces flows) (Z.of_nat (length flows) + 1) st H1 Hz)
    as (k & new & s2 & -> & Hk & Hnew & H2 & [E1 E2]); [intros ->; simpl in Hst; lia|lia|]. cbn [mbind option_bind].
  exists (st, k), (held1 ++ new), (sent ++ new), s2, (n + Z.b2z (attack st)). split; [done|]. split; [|split; [congruence|done]]. split.
  - by rewrite all_pieces_snoc.
  - apply Forall_app. split; [done|]. constructor; [|done]. simpl. split_and!; (done || lia).
  - intros f. rewrite E2, Ea. transitivity (is_Some (attackMap s !! f) \/ (f = Z.of_nat (length flows) + 1 /\ attack st = true)).
    + destruct (attack st); [|naive_solver]. rewrite lookup_insert_is_Some. destruct (decide (f = Z.of_nat (length flows) + 1)); naive_solver.
    + rewrite Hat. setoid_rewrite flow_snoc. naive_solver.
  - rewrite filter_app, length_app, Hc. rewrite filter_cons, filter_nil. simpl. destruct (attack st); simpl; lia.
  - rewrite !length_app. simpl. lia.
Qed.

Lemma generate_loop_ok k : forall s n maxLength held sent flows, generated s n maxLength held sent flows -> 0 < maxLength < 2 ^ 31 ->
  (Z.of_nat (length flows + k)) * (Z.max maxLength 7 + 1) + 2 < 2 ^ 28 ->
  exists new held' sent' s' n', generate_loop alloc k dictionary_alloc maxLength (Z.of_nat (length flows) + 1) s n = Some (s', n') /\
  generated s' n' maxLength held' sent' (flows ++ new) /\ length new = k /\ percentAttack s' = percentAttack s /\
  chosen k maxLength (Z.of_nat (length flows) + 1) s n = Some ((fun x => literal x.1) <$> new).
Proof.
  induction k as [|k IH]; intros s n maxLength held sent flows H Hmax Hroom.
  { exists [], held, sent, s, n. rewrite app_nil_r. done. }
  destruct (generate_flow_ok s n maxLength held sent flows H Hmax) as (x & held1 & sent1 & s1 & n1 & Hf & H1 & E1 & Hch); [nia|].
  cbn [generate_loop]. rewrite Hf, Hch. cbn [mbind option_bind].
  destruct (IH s1 n1 maxLength held1 sent1 (flows ++ [x]) H1 Hmax) as (new & held2 & sent2 & s2 & n2 & Hg & H2 & Hl & E2 & Hc2); [rewrite length_app; simpl; lia|].
  rewrite length_app in Hg, Hc2. simpl length in Hg, Hc2. replace (Z.of_nat (length flows + 1) + 1) with (Z.of_nat (length flows) + 1 + 1) in Hg, Hc2 by lia.
  exists (x :: new), held2, sent2, s2, n2. rewrite <- app_assoc in H2. rewrite Hc2. split_and!; [done|done|simpl; lia|congruence|done].
Qed.

(** ** The stream *)

Lemma elem_of_pieces flows p : p ∈ all_pieces flows <->
  exists f st k i, flow flows f = Some (st, k) /\ 0 <= i < k /\ p = piece f st k i.
Proof.
  revert p. induction flows as [|x flows IH] using rev_ind; intros p.
  - split; [by intros ?%elem_of_nil|]. intros (f & st & k & i & Hf & _). unfold flow in Hf. by case_match.
  - rewrite all_pieces_snoc, elem_of_app, IH. unfold flow_pieces. rewrite list_elem_of_fmap. setoid_rewrite flow_snoc.
    setoid_rewrite elem_of_seqZ. split.
    + intros [(f & st & k & i & Hf & Hi & ->)|(i & -> & Hi)]; [by exists f, st, k, i; auto|]. destruct x as [st k].
      exists (Z.of_nat (length flows) + 1), st, k, i. split; [by right|]. split; [simpl in Hi; lia|done].
    + intros (f & st & k & i & [Hf|[-> <-]] & Hi & ->); [left; by exists f, st, k, i|right]. exists i. split; [done|simpl; lia].
Qed.

Lemma flow_below flows f x : flow flows f = Some x -> f <= Z.of_nat (length flows).
Proof. unfold flow. case_match; [|done]. intros H'%lookup_lt_Some. lia. Qed.

Lemma pieces_nodup flows : NoDup (all_pieces flows).
Proof.
  induction flows as [|x flows IH] using rev_ind; [constructor|]. rewrite all_pieces_snoc. apply NoDup_app. split_and!; [done| |].
  - intros p (f & st & k & i & Hf & _ & ->)%elem_of_pieces (j & Hj & _)%list_elem_of_fmap. apply flow_below in Hf.
    apply (f_equal flowId) in Hj. simpl in Hj. lia.
  - apply NoDup_fmap_2_strong; [|apply NoDup_seqZ]. intros i j _ _ Hij. by apply (f_equal fragmentId) in Hij.
Qed.

Lemma packets_lookup s a p : packets_of s !! a = Some p <-> buffers s !! a = Some (Pkt p).
Proof.
  unfold packets_of. rewrite lookup_omap. destruct (buffers s !! a) as [[?|?]|]; simpl; naive_solver.
Qed.

Lemma made_well_cut s held sent pks flows : made s held sent pks -> pks ≡ₚ all_pieces flows -> Forall flow_ok flows ->
  Z.of_nat (length flows) < 2 ^ 30 -> well_cut (packets_of s) flows sent.
Proof.
  intros H Hp Hf Hl. pose proof (made_pks _ _ _ _ H) as H2. split; try done.
  - apply H.
  - intros H0. eapply (made_null _ _ _ _ H), made_sub; done.
  - intros a Ha. apply list_elem_of_lookup in Ha as (j & Hj). destruct (Forall2_lookup_l _ _ _ _ _ H2 Hj) as (p & Hpj & Hb).
    assert (Hin : p ∈ all_pieces flows) by (rewrite <- Hp; by eapply list_elem_of_lookup_2).
    apply elem_of_pieces in Hin as (f & st & k & i & Hfl & Hi & ->). exists f, st, k, i. by rewrite packets_lookup.
  - intros f st k i Hfl Hi. assert (Hin : piece f st k i ∈ pks) by (rewrite Hp; apply elem_of_pieces; eauto 8).
    apply list_elem_of_lookup in Hin as (j & Hj). destruct (Forall2_lookup_r _ _ _ _ _ H2 Hj) as (a & Ha & Hb).
    exists a. rewrite packets_lookup. split; [by eapply list_elem_of_lookup_2|done].
  - intros a b p Ha Hb. rewrite !packets_lookup. intros Hpa Hpb.
    apply list_elem_of_lookup in Ha as (j & Hj), Hb as (j' & Hj').
    destruct (Forall2_lookup_l _ _ _ _ _ H2 Hj) as (p1 & Hp1 & Hb1), (Forall2_lookup_l _ _ _ _ _ H2 Hj') as (p2 & Hp2 & Hb2).
    simplify_eq. assert (j = j'); [|congruence]. eapply NoDup_lookup; [|done|done]. rewrite Hp. apply pieces_nodup.
Qed.

(** What the generator makes: the flows, the packets in the queue, and the buffers. *)
Record stream_made (s : stream) (n : Z) (held sent : list Z) (flows : list (list Z * Z)) : Prop := {
  sm_cut : well_cut (packets_of s) flows sent;
  sm_queue : Queue.repr (packetQueue s) sent;
  sm_made : exists pks, made s held sent pks;
  sm_attack f : is_Some (attackMap s !! f) <-> exists st k, flow flows f = Some (st, k) /\ attack st = true;
  sm_count : n = Z.of_nat (length (filter (fun x => attack x.1 = true) flows));
  sm_few : Z.of_nat (length sent) + 2 < 2 ^ 28 }.

Lemma shuffled s held sent pks q sent' r : made s held sent pks -> Queue.repr q sent' -> sent' ≡ₚ sent -> random_ok r ->
  exists pks', pks' ≡ₚ pks /\ made (mkStream (percentAttack s) r (allocVector s) q (attackMap s) (buffers s)) held sent' pks'.
Proof.
  intros [? ? ? ? ? ? Ho Hp] Hq Hperm Hr. symmetry in Hperm.
  destruct (Permutation_Forall2 Hperm Hp) as (pks' & Hpk & Hp'). exists pks'. split; [by symmetry|]. split; try done.
  by rewrite <- Hperm.
Qed.

Lemma stream_generate_ok percent numFlow seed maxLength : 0 <= percent <= 100 -> 0 <= numFlow -> 0 < maxLength < 2 ^ 31 ->
  numFlow * (Z.max maxLength 7 + 1) + 2 < 2 ^ 28 ->
  exists s0 s1 s n held sent flows, stream_alloc percent = Some s0 /\ stream_reset s0 seed = Some s1 /\
  stream_generate alloc s0 dictionary_alloc numFlow seed maxLength = Some (s, n) /\
  stream_made s n held sent flows /\ Z.of_nat (length flows) = numFlow /\
  chosen (Z.to_nat numFlow) maxLength 1 s1 0 = Some ((fun x => literal x.1) <$> flows).
Proof.
  intros Hpc Hn Hmax Hroom. unfold stream_alloc. rewrite (proj2 (Z.leb_le 0 percent)), (proj2 (Z.leb_le percent 100)) by lia. cbn [andb].
  destruct (Random.random_alloc_spec 32 ltac:(lia)) as (r0 & -> & Hr0). cbn [mbind option_bind].
  destruct (Vector.vector_alloc true true 1) as [v|] eqn:Ev; [|by vm_compute in Ev].
  destruct (Queue.queue_alloc true true (-1)) as [q|] eqn:Eq; [|by vm_compute in Eq]. cbn [mbind option_bind].
  apply Vector.vector_alloc_repr in Ev; [|lia]. apply Queue.queue_alloc_repr in Eq; [|lia].
  exists (mkStream percent r0 v q ∅ ∅). unfold stream_generate, stream_reset. cbn [randomPtr percentAttack allocVector packetQueue attackMap buffers].
  destruct (Random.random_seed_spec 32 ltac:(lia) seed r0 (Random.at_word_length _ _ _ Hr0)) as (r & -> & Hr). cbn [mbind option_bind].
  exists (mkStream percent r v (Queue.queue_clear q) ∅ ∅).
  destruct (generate_loop_ok (Z.to_nat numFlow) (mkStream percent r v (Queue.queue_clear q) ∅ ∅) 0 maxLength [] [] []) as (flows & held & sent & s & n & Hg & [H Hfl Hat Hc Hh] & Hlen & _ & Hch).
  { split; [|done| |done|simpl; lia].
    - split; cbn; [by exists seed, 624%nat|done|apply NoDup_nil_2|by intros ?%elem_of_nil|done|by eapply Queue.queue_clear_repr|apply NoDup_nil_2|apply Forall2_nil_2].
    - intros f. cbn. rewrite lookup_empty. split; [by intros [? ?]|]. intros (st & k & Hf & _). unfold flow in Hf. by case_match. }
  { done. } { simpl. lia. }
  cbn [app] in *. change (Z.of_nat (length []) + 1) with 1 in Hg, Hch. rewrite Hg. cbn [mbind option_bind].
  destruct (random_list (randomPtr s) (2 * Z.to_nat (Queue.numElement (packetQueue s)))) as (r' & gs & -> & Hgs & Hr'); [apply H|]. cbn [mbind option_bind].
  destruct (Queue.queue_shuffle_spec (fun i => nth i gs 0) (packetQueue s) sent) as (q' & sent' & -> & Hq' & Hperm); [apply H| |].
  { intros i. destruct (nth_in_or_default i gs 0) as [Hin| ->]; [|lia]. rewrite Forall_forall in Hgs. by apply Hgs, list_elem_of_In. }
  cbn [mbind option_bind]. destruct (shuffled s held sent (all_pieces flows) q' sent' r' H Hq' Hperm Hr') as (pks & Hpk & H').
  eexists _, n, held, sent', flows. split; [done|]. split; [done|]. split; [done|]. split; [|split; [lia|done]].
  pose proof (made_length _ _ _ _ H'). split; [|done|by exists pks|done|done|nia].
  eapply made_well_cut; [done|done| |nia]. rewrite Forall_forall in Hfl |- *. intros x Hx. destruct (Hfl x Hx) as (? & ? & ?).
  destruct flows; [by apply elem_of_nil in Hx|]. simpl length in *. split_and!; (done || nia).
Qed.

(** The buffers are given back. *)
Lemma free_loop_ok v held : Vector.repr v held -> NoDup held -> forall k i h, (i + k = length held)%nat ->
  dom h = list_to_set (drop i held) -> free_loop k (Z.of_nat i) v h = Some ∅.
Proof.
  intros Hv Hn. induction k as [|k IH]; intros i h Hi Hd; simpl.
  - rewrite drop_ge in Hd by lia. f_equal. by apply dom_empty_iff_L.
  - rewrite (Vector.vector_at_spec v held _ Hv). destruct (Z.leb_spec 0 (Z.of_nat i)); [|lia]. rewrite Nat2Z.id.
    destruct (lookup_lt_is_Some_2 held i) as [a Ha]; [lia|]. rewrite Ha. cbn [default mbind option_bind id].
    rewrite (drop_S _ _ _ Ha) in Hd. assert (Hin : a ∈ dom h) by (rewrite Hd; set_solver).
    apply elem_of_dom in Hin as [b ->]. cbn [mbind option_bind]. replace (Z.of_nat i + 1) with (Z.of_nat (S i)) by lia.
    apply IH; [lia|]. rewrite dom_delete_L, Hd. rewrite <- (take_drop i held) in Hn. rewrite (drop_S _ _ _ Ha) in Hn.
    apply NoDup_app in Hn as (_ & _ & Hn). apply NoDup_cons in Hn as [Hn _]. set_solver.
Qed.

Lemma stream_free_ok s n held sent flows : stream_made s n held sent flows -> stream_free s = Some ∅.
Proof.
  intros H. destruct (sm_made _ _ _ _ _ H) as (pks & Hm). unfold stream_free.
  pose proof (made_held _ _ _ _ Hm) as Hv. pose proof Hv as (Hs & _). apply (free_loop_ok _ held Hv (made_nodup _ _ _ _ Hm) _ 0%nat).
  - unfold Vector.vector_getSize. lia.
  - apply Hm.
Qed.

End stream.
