(* ===== verification/IntruderMain.v ===== *)
(** * The intruder benchmark of STAMP: the whole program

    Every order of the packets gives the strings back, and every interleaving of the threads of
    [Intruder] ends, without a failed assertion, with exactly the flows found that the generator
    counted, and with nothing left in the decoder. *)

From Stdlib Require Import String.
From S2P Require Import Prelude StampArray StampQueue StampVector Intruder IntruderDecoder IntruderStream.
Import Intruder.

(** ** The strings that are complete *)

Section complete.
Context (packets : gmap Z packet) (flows : list (list Z * Z)) (all : list Z) (Hcut : well_cut packets flows all).

Definition numbered : list (Z * (list Z * Z)) := imap (fun i x => (Z.of_nat i + 1, x)) flows.

Definition complete (seen : list Z) (x : Z * (list Z * Z)) : Prop := Z.of_nat (length (of_flow packets x.1 seen)) = x.2.2.

#[export] Instance complete_dec seen x : Decision (complete seen x) := decide (_ = _).

Definition named (x : Z * (list Z * Z)) : Z * list Z := (x.1, x.2.1).

Definition completed (seen : list Z) : list (Z * list Z) := named <$> filter (complete seen) numbered.

Lemma elem_of_numbered f x : (f, x) ∈ numbered <-> flow flows f = Some x.
Proof.
  unfold numbered, flow. rewrite elem_of_lookup_imap. split.
  - intros (i & y & [= -> ->] & Hi). destruct (Z.leb_spec 1 (Z.of_nat i + 1)); [|lia].
    by replace (Z.to_nat (Z.of_nat i + 1 - 1)) with i by lia.
  - destruct (Z.leb_spec 1 f); [|done]. intros Hf. exists (Z.to_nat (f - 1)), x. split; [f_equal; lia|done].
Qed.

Lemma numbered_nodup : NoDup numbered.
Proof.
  unfold numbered. apply NoDup_alt. intros i j x. rewrite !list_lookup_imap. intros Hi Hj.
  destruct (flows !! i), (flows !! j); simplify_eq/=. lia.
Qed.

Lemma completed_cons seen a f s k i : some_of all seen -> a ∈ all -> a ∉ seen -> flow flows f = Some (s, k) ->
  packets !! a = Some (piece f s k i) -> completed (a :: seen) ≡ₚ completed seen ++ completes packets seen a f s k.
Proof.
  intros Hs Ha Hn Hf Hp. destruct (piece_of _ _ _ _ _ _ Hp) as [Hfa _].
  assert (Hle : Z.of_nat (length (of_flow packets f (a :: seen))) <= k) by (apply (some_count packets flows all Hcut _ f s k); [by apply some_cons|done]).
  assert (Ho : forall x, x ∈ numbered -> x <> (f, (s, k)) -> complete (a :: seen) x <-> complete seen x).
  { intros [g y] Hx Hne. unfold complete. simpl. rewrite of_flow_cons, decide_False; [done|]. rewrite Hfa. intros <-.
    apply elem_of_numbered in Hx. congruence. }
  assert (Hin : (f, (s, k)) ∈ numbered) by by apply elem_of_numbered.
  unfold completes. rewrite of_flow_cons, decide_True in Hle |- * by done. simpl length in *.
  assert (Hno : ~ complete seen (f, (s, k))) by (unfold complete; simpl; lia).
  assert (Hyes : complete (a :: seen) (f, (s, k)) <-> Z.of_nat (S (length (of_flow packets f seen))) = k).
  { unfold complete. simpl. rewrite of_flow_cons, decide_True by done. done. }
  unfold completed. destruct (Z.eqb_spec (Z.of_nat (S (length (of_flow packets f seen)))) k) as [E|E].
  - change [(f, s)] with (named <$> [(f, (s, k))]). rewrite <- fmap_app. apply fmap_Permutation. apply NoDup_Permutation.
    + apply NoDup_filter, numbered_nodup.
    + apply NoDup_app. split_and!; [apply NoDup_filter, numbered_nodup| |apply NoDup_singleton].
      intros x [Hx _]%list_elem_of_filter ->%list_elem_of_singleton. done.
    + intros x. rewrite elem_of_app, !list_elem_of_filter, list_elem_of_singleton.
      destruct (decide (x = (f, (s, k)))) as [->|Hne]; [naive_solver|]. specialize (Ho x). naive_solver.
  - rewrite app_nil_r. apply fmap_Permutation. apply NoDup_Permutation; [apply NoDup_filter, numbered_nodup..|].
    intros x. rewrite !list_elem_of_filter. destruct (decide (x = (f, (s, k)))) as [->|Hne]; [naive_solver|]. specialize (Ho x). naive_solver.
Qed.

Lemma completed_perm seen seen' : seen ≡ₚ seen' -> completed seen = completed seen'.
Proof.
  intros H. unfold completed. f_equal. apply list_filter_iff. intros x. unfold complete, of_flow. by rewrite H.
Qed.

Lemma completed_nil : completed [] = [].
Proof.
  unfold completed. assert (E : filter (complete []) numbered = []); [|by rewrite E].
  apply elem_of_nil_inv. intros [f [s k]] [Hc Hx%elem_of_numbered]%list_elem_of_filter. unfold complete in Hc. simpl in Hc.
  destruct (flow_valid _ _ _ Hcut f s k Hx) as (_ & ? & _). lia.
Qed.

Lemma completed_all : completed all = named <$> numbered.
Proof.
  unfold completed. f_equal. assert (H : Forall (complete all) numbered).
  { apply Forall_forall. intros [f [s k]] Hx%elem_of_numbered. by apply (all_count packets flows all Hcut f s k). }
  induction H as [|x l Hx _ IH]; [done|]. rewrite filter_cons_True by done. by f_equal.
Qed.

Lemma completed_flow seen x : x ∈ completed seen -> exists k, flow flows x.1 = Some (x.2, k).
Proof. intros ([f [s k]] & -> & [_ Hx%elem_of_numbered]%list_elem_of_filter)%list_elem_of_fmap. by exists k. Qed.

(** One more packet, in any order. *)
Lemma take_packet alloc seen d out a : (forall X, alloc X <> NULL /\ alloc X ∉ X) -> decoder_inv packets flows all seen d out ->
  a ∈ all -> a ∉ seen -> Z.of_nat (length all) + 2 < 2 ^ 28 ->
  exists p d' new, packets !! a = Some p /\
  decoder_process alloc packets a (s32 (PACKET_HEADER_LENGTH + length_ p)) d = Some (d', ERROR_NONE) /\
  decoder_inv packets flows all (a :: seen) d' (out ++ new) /\ completed (a :: seen) ≡ₚ completed seen ++ new /\ (length new <= 1)%nat.
Proof.
  intros Halloc Hinv Ha Hn Hroom. destruct (cut_piece _ _ _ Hcut a Ha) as (f & s & k & i & Hf & Hi & Hp).
  assert (Z.of_nat (length out) <= Z.of_nat (length all)).
  { destruct Hinv as [[Hnd Hs] _ Hout _]. pose proof (submseteq_length _ _ (NoDup_submseteq _ _ Hnd Hs)). lia. }
  destruct (decoder_process_ok packets flows all Hcut alloc Halloc seen d out a f s k i) as (d' & Hd & Hinv'); try (done || lia).
  exists (piece f s k i), d', (completes packets seen a f s k). split_and!; [done|done|done| |unfold completes; case_match; simpl; lia].
  eapply completed_cons; [apply Hinv|done|done|done|done].
Qed.

(** When every packet was seen and the queue is empty, nothing is left in the decoder. *)
Lemma decoder_empty seen d : decoder_inv packets flows all seen d [] -> seen ≡ₚ all ->
  fragmentedMap d = ∅ /\ lists d = ∅ /\ decodeds d = ∅.
Proof.
  intros [_ H _ (ps & Hq)] Hseen. assert (Hm : fragmentedMap d = ∅).
  { apply map_empty. intros f. destruct (fragmentedMap d !! f) as [lp|] eqn:E; [|done]. exfalso.
    destruct (hold_list _ _ _ _ H f lp E) as (_ & s & k & l & Hf & _ & Hl & _ & Hlen).
    pose proof (all_count packets flows all Hcut f s k Hf) as Hc. apply Permutation_length in Hl.
    unfold of_flow in Hl, Hc. rewrite Hseen in Hl. lia. }
  split_and!; [done| |].
  - apply map_empty. intros lp. destruct (lists d !! lp) as [l|] eqn:E; [|done].
    destruct (hold_dom _ _ _ _ H lp l E) as (f & Hf). by rewrite Hm in Hf.
  - destruct Hq as [_ Ho _ _ Hd]. apply Forall2_nil_inv_r in Ho as ->. by apply dom_empty_iff_L.
Qed.

End complete.

(** ** The decoder alone *)

Section sequential.
Context (alloc : gset Z -> Z) (packets : gmap Z packet).

(** Packets one after the other; every one must be taken. *)
Fixpoint decode_all (l : list Z) (d : decoder) : option decoder :=
  match l with
  | [] => Some d
  | a :: l =>
    p ← packets !! a;
    '(d, error) ← decoder_process alloc packets a (s32 (PACKET_HEADER_LENGTH + length_ p)) d;
    if decide (error = ERROR_NONE) then decode_all l d else None
  end.

(** [decoder_getComplete] until it returns no string. *)
Fixpoint collect (fuel : nat) (d : decoder) : option (list (Z * list Z) * decoder) :=
  match fuel with
  | O => None
  | S fuel =>
    '(d, str, f) ← decoder_getComplete d;
    match str with
    | None => Some ([], d)
    | Some b => s ← cstring b; '(l, d) ← collect fuel d; Some ((f, s) :: l, d)
    end
  end.
End sequential.

Lemma decode_all_ok alloc packets flows all l : well_cut packets flows all -> (forall X, alloc X <> NULL /\ alloc X ∉ X) ->
  Z.of_nat (length all) + 2 < 2 ^ 28 -> forall seen d out, decoder_inv packets flows all seen d out ->
  seen ++ l ≡ₚ all -> out ≡ₚ completed packets flows seen ->
  exists d' out', decode_all alloc packets l d = Some d' /\ decoder_inv packets flows all (reverse l ++ seen) d' out' /\
  out' ≡ₚ completed packets flows (reverse l ++ seen).
Proof.
  intros Hcut Halloc Hroom. induction l as [|a l IH]; intros seen d out Hinv Hall Hout; cbn [decode_all].
  { by exists d, out. }
  assert (Ha : a ∈ all) by (rewrite <- Hall; set_solver).
  assert (Hn : a ∉ seen).
  { pose proof (cut_nodup _ _ _ Hcut) as Hnd. rewrite <- Hall in Hnd. apply NoDup_app in Hnd as (_ & Hd & _). intros Hin. by apply (Hd a Hin); left. }
  destruct (take_packet packets flows all Hcut alloc seen d out a Halloc Hinv Ha Hn Hroom) as (p & d1 & new & -> & Hd & Hinv1 & Hc & _).
  cbn [mbind option_bind]. rewrite Hd. cbn [mbind option_bind]. rewrite decide_True by done.
  destruct (IH (a :: seen) d1 (out ++ new) Hinv1) as (d' & out' & Hdec & Hinv' & Hout').
  - rewrite <- Hall. simpl. by rewrite Permutation_middle.
  - by rewrite Hc, Hout.
  - exists d', out'. rewrite reverse_cons, <- app_assoc. done.
Qed.

Lemma collect_ok packets flows all seen : well_cut packets flows all -> forall out d, decoder_inv packets flows all seen d out ->
  (forall x, x ∈ out -> 0 ∉ x.2) ->
  exists d', collect (S (length out)) d = Some (out, d') /\ decoder_inv packets flows all seen d' [].
Proof.
  intros Hcut. induction out as [|[f s] out IH]; intros d Hinv Hz; cbn [collect].
  - destruct (decoder_getComplete_ok packets flows all Hcut seen d [] Hinv) as (d' & -> & Hinv'). exists d'. done.
  - destruct (decoder_getComplete_ok packets flows all Hcut seen d _ Hinv) as (d1 & -> & Hinv1). cbn [mbind option_bind head fmap option_fmap option_map fst snd default].
    rewrite cstring_literal by (apply (Hz (f, s)); left). cbn [mbind option_bind].
    destruct (IH d1 Hinv1) as (d2 & Hc & Hinv2); [intros; apply Hz; by right|]. cbn [length]. rewrite Hc. cbn [mbind option_bind].
    exists d2. done.
Qed.

(** C29: cutting into packets and putting together are inverse.  The generator runs without a failed
    assertion; whatever order its packets are processed in, the decoder takes every one, and
    the strings it gives are those that the generator chose, each once under the number of its
    flow; nothing is left in the decoder; and the flows marked as attacks are those in which the
    detector finds a word. *)
Theorem intruder_roundtrip alloc percent numFlow seed maxLength :
  (forall X, alloc X <> NULL /\ alloc X ∉ X) -> 0 <= percent <= 100 -> 0 <= numFlow -> 0 < maxLength < 2 ^ 31 ->
  numFlow * (Z.max maxLength 7 + 1) + 2 < 2 ^ 28 ->
  exists s0 s1 s n sent strings d0, stream_alloc percent = Some s0 /\ stream_reset s0 seed = Some s1 /\
  stream_generate alloc s0 dictionary_alloc numFlow seed maxLength = Some (s, n) /\
  Queue.repr (packetQueue s) sent /\ decoder_alloc = Some d0 /\
  chosen alloc (Z.to_nat numFlow) maxLength 1 s1 0 = Some (literal <$> strings) /\ Forall (fun str => 0 ∉ str) strings /\
  Z.of_nat (length strings) = numFlow /\
  (forall f, stream_isAttack s f = true <-> exists str, strings !! Z.to_nat (f - 1) = Some str /\ 1 <= f /\ attack str = true) /\
  (forall l, l ≡ₚ sent -> exists d out d', decode_all alloc (packets_of s) l d0 = Some d /\
    collect (S (length strings)) d = Some (out, d') /\ out ≡ₚ imap (fun i str => (Z.of_nat i + 1, str)) strings /\
    fragmentedMap d' = ∅ /\ lists d' = ∅ /\ decodeds d' = ∅).
Proof.
  intros Halloc Hp Hn Hmax Hroom.
  destruct (stream_generate_ok alloc Halloc percent numFlow seed maxLength Hp Hn Hmax Hroom) as (s0 & s1 & s & n & held & sent & flows & H0 & H1 & Hg & Hs & Hl & Hch).
  destruct (decoder_alloc_ok (packets_of s) flows sent) as (d0 & Hd0 & Hinv0). pose proof (sm_cut _ _ _ _ _ Hs) as Hcut.
  exists s0, s1, s, n, sent, (fst <$> flows), d0. rewrite length_fmap. split_and!; try done; [apply Hs|by rewrite <- list_fmap_compose| | |].
  - apply Forall_fmap, (Forall_impl _ _ _ (cut_flows _ _ _ Hcut)). by intros x (? & _).
  - intros f. unfold stream_isAttack. rewrite bool_decide_eq_true, (sm_attack _ _ _ _ _ Hs). unfold flow. rewrite list_lookup_fmap.
    destruct (Z.leb_spec 1 f); [|naive_solver lia]. destruct (flows !! _) as [[st k]|]; naive_solver.
  - intros l Hperm.
    destruct (decode_all_ok alloc _ flows sent l Hcut Halloc (sm_few _ _ _ _ _ Hs) [] d0 [] Hinv0 Hperm) as (d & out & Hd & Hinv & Hout).
    { by rewrite (completed_nil _ _ sent). }
    assert (Hall : reverse l ++ [] ≡ₚ sent) by by rewrite app_nil_r, reverse_Permutation.
    rewrite (completed_perm _ _ _ _ Hall), (completed_all _ _ sent Hcut) in Hout.
    assert (E : named <$> numbered flows = imap (fun i str => (Z.of_nat i + 1, str)) (fst <$> flows)).
    { unfold numbered. rewrite fmap_imap, imap_fmap. done. }
    destruct (collect_ok (packets_of s) flows sent _ Hcut out d Hinv) as (d' & Hc & Hinv').
    { intros x Hx. rewrite Hout in Hx. apply list_elem_of_fmap in Hx as ([f [st k]] & -> & Hx%elem_of_numbered). by apply (flow_valid _ _ _ Hcut f st k Hx). }
    exists d, out, d'. split; [done|]. split.
    { replace (length flows) with (length out); [done|]. by rewrite Hout, E, length_imap, length_fmap. }
    split; [by rewrite Hout, E|]. by eapply decoder_empty.
Qed.

(** ** The threads *)

Lemma bind_focus {A B} (f : A -> list B) l t x : l !! t = Some x ->
  exists r, l ≫= f ≡ₚ f x ++ r /\ forall y, <[t := y]> l ≫= f ≡ₚ f y ++ r.
Proof.
  intros Hx. exists ((take t l ++ drop (S t) l) ≫= f).
  assert (H : forall y, <[t := y]> l ≫= f ≡ₚ f y ++ ((take t l ++ drop (S t) l) ≫= f)).
  { intros y. rewrite insert_take_drop by by eapply lookup_lt_Some. rewrite !bind_app, bind_cons. solve_Permutation. }
  split; [|done]. rewrite <- (list_insert_id l t x Hx) at 1. apply H.
Qed.

Section threads.
Context (alloc : gset Z -> Z) (Halloc : forall X, alloc X <> NULL /\ alloc X ∉ X).
Context (packets : gmap Z packet) (flows : list (list Z * Z)) (all : list Z) (Hcut : well_cut packets flows all).
Context (Hfew : Z.of_nat (length all) + 2 < 2 ^ 28) (Hflows : Z.of_nat (length flows) < 2 ^ 28).

(** What a thread has in hand: a packet, a string; and the flows it reported. *)
Record hand := mkHand { packet_of : list Z; string_of : list (Z * list Z); found_of : list Z }.

Definition thread_ok (th : thread) (h : hand) : Prop :=
  Vector.repr (errorVector th) (found_of h) /\
  match at_ th with
  | Get | Complete | Done => packet_of h = [] /\ string_of h = []
  | Process a => packet_of h = [a] /\ string_of h = []
  | Detect b f => packet_of h = [] /\ exists s, string_of h = [(f, s)] /\ b = literal s /\ 0 ∉ s
  end.

(** The flows in which the detector finds a word. *)
Definition attacks (l : list (Z * list Z)) : list Z := fst <$> filter (fun x => attack x.2 = true) l.

Definition waits (th : thread) : Z := match at_ th with Complete => 1 | _ => 0 end.

Record running (s : state) (seen rest : list Z) (out : list (Z * list Z)) (hs : list hand) : Prop := {
  run_decoder : decoder_inv packets flows all seen (decoderPtr s) out;
  run_strings x : x ∈ out -> exists k, flow flows x.1 = Some (x.2, k);
  run_input : Queue.repr (input s) rest;
  run_split : seen ++ (hs ≫= packet_of) ++ rest ≡ₚ all;
  run_done th : th ∈ threads s -> at_ th = Done -> rest = [];
  run_out : Z.of_nat (length out) <= zsum waits (threads s);
  run_hands : Forall2 thread_ok (threads s) hs;
  run_found : (hs ≫= found_of) ++ attacks (out ++ (hs ≫= string_of)) ≡ₚ attacks (completed packets flows seen) }.

(** Steps left. *)
Definition weight (th : thread) : Z :=
  match at_ th with Get => 1 | Process _ => 4 | Complete => 3 | Detect _ _ => 2 | Done => 0 end.
Definition left_ (s : state) : Z := 4 * Queue.numElement (input s) + zsum weight (threads s).

Lemma attacks_app l k : attacks (l ++ k) = attacks l ++ attacks k.
Proof. unfold attacks. by rewrite filter_app, fmap_app. Qed.

#[local] Instance attacks_proper : Proper ((≡ₚ) ==> (≡ₚ)) attacks.
Proof. intros l k H. unfold attacks. by rewrite H. Qed.

Definition advances (t : nat) (s : state) : Prop :=
  exists s' seen rest out hs, step alloc packets t s = Some s' /\ running s' seen rest out hs /\
  left_ s' < left_ s /\ length (threads s') = length (threads s).

(** Thread [t] goes from [th] and [h] to [th'] and [h']. *)
Lemma advances_intro s t th h seen rest out hs th' h' q d seen' rest' out' :
  running s seen rest out hs -> threads s !! t = Some th -> hs !! t = Some h ->
  processPackets alloc packets th (input s) (decoderPtr s) = Some (th', q, d) ->
  decoder_inv packets flows all seen' d out' -> (forall x, x ∈ out' -> x ∈ out \/ x ∈ completed packets flows seen') ->
  Queue.repr q rest' -> thread_ok th' h' ->
  seen' ++ packet_of h' ++ rest' ≡ₚ seen ++ packet_of h ++ rest ->
  (at_ th' = Done -> rest' = []) -> (rest = [] -> rest' = []) ->
  Z.of_nat (length out') - waits th' <= Z.max 0 (Z.of_nat (length out) - waits th) ->
  (forall r, found_of h ++ r ++ attacks (out ++ string_of h) ≡ₚ attacks (completed packets flows seen) ->
    found_of h' ++ r ++ attacks (out' ++ string_of h') ≡ₚ attacks (completed packets flows seen')) ->
  4 * Z.of_nat (length rest') + weight th' < 4 * Z.of_nat (length rest) + weight th ->
  advances t s.
Proof.
  intros [Hd Hst Hi Hsp Hdn Ho Hh Hf] Hth Hht Hp Hd' Hst' Hq Hok Hsplit Hdone Hrest Hout Hfound Hw.
  exists (mkState q d (<[t := th']> (threads s))), seen', rest', out', (<[t := h']> hs).
  destruct (bind_focus packet_of hs t h Hht) as (r1 & E1 & E1'), (bind_focus string_of hs t h Hht) as (r2 & E2 & E2'),
    (bind_focus found_of hs t h Hht) as (r3 & E3 & E3').
  unfold step. rewrite Hth. cbn [mbind option_bind]. rewrite Hp. cbn [mbind option_bind]. split; [done|]. split; [split; cbn [decoderPtr input threads]|].
  - done.
  - intros x [Hx|Hx]%Hst'; [by apply Hst|by eapply completed_flow].
  - done.
  - rewrite E1'. rewrite E1 in Hsp. rewrite <- Hsp. transitivity (r1 ++ seen' ++ packet_of h' ++ rest'); [solve_Permutation|].
    rewrite Hsplit. solve_Permutation.
  - intros th1 [i Hi']%list_elem_of_lookup Hd1. destruct (decide (i = t)) as [->|].
    + rewrite list_lookup_insert_eq in Hi' by by eapply lookup_lt_Some. simplify_eq. auto.
    + rewrite list_lookup_insert_ne in Hi' by done. apply Hrest, (Hdn th1); [by eapply list_elem_of_lookup_2|done].
  - rewrite (zsum_insert _ _ _ _ _ Hth). assert (0 <= zsum waits (threads s) - waits th).
    { pose proof (zsum_elem_le waits (threads s) t th) as Hle. enough (waits th <= zsum waits (threads s)) by lia.
      apply Hle; [|done]. intros x _. unfold waits. case_match; lia. }
    lia.
  - by apply Forall2_insert.
  - rewrite E3', E2'. rewrite E3, E2 in Hf. specialize (Hfound (r3 ++ attacks r2)). rewrite !attacks_app in *. rewrite <- Hfound; [solve_Permutation|].
    rewrite <- Hf. solve_Permutation.
  - split; [|apply length_insert]. unfold left_. cbn [input threads]. rewrite (zsum_insert _ _ _ _ _ Hth).
    rewrite (Queue.numElement_spec _ _ Hq), (Queue.numElement_spec _ _ Hi). lia.
Qed.

Lemma running_all s seen rest out hs a h : running s seen rest out hs -> h ∈ hs -> a ∈ packet_of h -> a ∈ all /\ a ∉ seen.
Proof.
  intros H Hh Ha. pose proof (run_split _ _ _ _ _ H) as Hs. assert (Hin : a ∈ (hs ≫= packet_of)) by (apply list_elem_of_bind; eauto).
  split; [rewrite <- Hs; set_solver|]. intros Hseen. pose proof (cut_nodup _ _ _ Hcut) as Hn. rewrite <- Hs in Hn.
  apply NoDup_app in Hn as (_ & Hn & _). apply (Hn a Hseen). set_solver.
Qed.

Lemma attacks_length seen : (length (attacks (completed packets flows seen)) <= length flows)%nat.
Proof.
  unfold attacks, completed. rewrite length_fmap. etrans; [apply length_filter|]. rewrite length_fmap. etrans; [apply length_filter|].
  unfold numbered. by rewrite length_imap.
Qed.

Lemma found_length s seen rest out hs t h : running s seen rest out hs -> hs !! t = Some h -> (length (found_of h) <= length flows)%nat.
Proof.
  intros H Hh. pose proof (Permutation_length (run_found _ _ _ _ _ H)) as Hl. destruct (bind_focus found_of hs t h Hh) as (r & E & _).
  rewrite E, !length_app in Hl. pose proof (attacks_length seen). lia.
Qed.

(** The body of the loop, at a given place. *)
Ltac in_loop Hat :=
  unfold processPackets, TMstream_getPacket, stream_getPacket, TMdecoder_process, TMdecoder_getComplete; rewrite Hat.

Section cases.
Context (s : state) (t : nat) (th : thread) (h : hand) (seen rest : list Z) (out : list (Z * list Z)) (hs : list hand).
Context (H : running s seen rest out hs) (Hth : threads s !! t = Some th) (Hh : hs !! t = Some h) (Hok : thread_ok th h).

Lemma take_ok : at_ th = Get -> advances t s.
Proof.
  intros Hat. destruct Hok as [Hv Hp]. rewrite Hat in Hp. destruct Hp as [Hp Hs].
  destruct (Queue.queue_pop_spec (input s) rest (run_input _ _ _ _ _ H)) as (q & Hq & Hr).
  destruct (head rest) as [a|] eqn:Ea.
  - destruct rest as [|a' rest']; simplify_eq/=. assert (Ha : a ∈ all) by (rewrite <- (run_split _ _ _ _ _ H); set_solver).
    assert (Ha0 : a <> NULL) by (intros ->; by apply (cut_null _ _ _ Hcut)).
    apply (advances_intro s t th h seen (a :: rest') out hs (mkThread (Process a) (errorVector th)) (mkHand [a] [] (found_of h)) q (decoderPtr s) seen rest' out);
      [done|done|done| |apply H|by left|done|done| |done|done| | |].
    + in_loop Hat. rewrite Hq. cbn. destruct (Z.eqb_spec a NULL); done.
    + by rewrite Hp.
    + unfold waits. rewrite Hat. cbn [at_]. lia.
    + intros r. by rewrite Hs.
    + unfold weight. rewrite Hat. simpl length. cbn [at_]. lia.
  - assert (Er : rest = []) by by destruct rest. rewrite Er in Hr. cbn in Hq.
    apply (advances_intro s t th h seen rest out hs (mkThread Done (errorVector th)) h q (decoderPtr s) seen [] out);
      [done|done|done| |apply H|by left|done|done|by rewrite Er|done|done| |done|].
    + in_loop Hat. rewrite Hq. done.
    + unfold waits. rewrite Hat. cbn [at_]. lia.
    + unfold weight. rewrite Hat. cbn [at_ length]. lia.
Qed.

Lemma process_ok a : at_ th = Process a -> advances t s.
Proof.
  intros Hat. destruct Hok as [Hv Hp]. rewrite Hat in Hp. destruct Hp as [Hp Hs].
  destruct (running_all s seen rest out hs a h H) as [Ha Hn]; [by eapply list_elem_of_lookup_2|rewrite Hp; left|].
  destruct (take_packet packets flows all Hcut alloc seen (decoderPtr s) out a Halloc (run_decoder _ _ _ _ _ H) Ha Hn Hfew) as (p & d & new & Hpk & Hd & Hinv & Hc & Hl).
  apply (advances_intro s t th h seen rest out hs (mkThread Complete (errorVector th)) (mkHand [] [] (found_of h)) (input s) d (a :: seen) rest (out ++ new));
    [done|done|done| |done| |apply H|done| |done|done| | |].
  - in_loop Hat. rewrite Hpk. cbn [mbind option_bind]. rewrite Hd. done.
  - intros x. rewrite Hc, !elem_of_app. tauto.
  - rewrite Hp. simpl. by rewrite Permutation_middle.
  - unfold waits. rewrite Hat, length_app. cbn [at_]. lia.
  - intros r. cbn [found_of string_of]. rewrite Hs, Hc, !app_nil_r, !attacks_app. intros <-. solve_Permutation.
  - unfold weight. rewrite Hat. cbn [at_]. lia.
Qed.

Lemma complete_ok : at_ th = Complete -> advances t s.
Proof.
  intros Hat. destruct Hok as [Hv Hp]. rewrite Hat in Hp. destruct Hp as [Hp Hs].
  destruct (decoder_getComplete_ok packets flows all Hcut seen (decoderPtr s) out (run_decoder _ _ _ _ _ H)) as (d & Hd & Hinv).
  destruct (head out) as [[f st]|] eqn:Eo.
  - destruct out as [|x out']; simplify_eq/=.
    destruct (run_strings _ _ _ _ _ H (f, st)) as (k & Hk); [left|]. destruct (flow_valid _ _ _ Hcut f st k Hk) as (Hz & _).
    apply (advances_intro s t th h seen rest ((f, st) :: out') hs (mkThread (Detect (literal st) f) (errorVector th)) (mkHand [] [(f, st)] (found_of h)) (input s) d seen rest out');
      [done|done|done| |done|by left; right|apply H| | |done|done| | |].
    + in_loop Hat. rewrite Hd. done.
    + split; [done|]. split; [done|]. by exists st.
    + by rewrite Hp.
    + unfold waits. rewrite Hat. cbn [at_]. simpl length. lia.
    + intros r. cbn [found_of string_of]. rewrite Hs, app_nil_r. intros <-. change ((f, st) :: out') with ([(f, st)] ++ out'). rewrite !attacks_app. solve_Permutation.
    + unfold weight. rewrite Hat. cbn [at_]. lia.
  - assert (Eo' : out = []) by by destruct out. rewrite Eo' in Hinv. cbn in Hd.
    apply (advances_intro s t th h seen rest out hs (mkThread Get (errorVector th)) h (input s) d seen rest []);
      [done|done|done| |done|by intros ? ?%elem_of_nil|apply H|done|done|done|done| |by rewrite Eo'|].
    + in_loop Hat. rewrite Hd. done.
    + unfold waits. cbn [at_ length]. lia.
    + unfold weight. rewrite Hat. cbn [at_]. lia.
Qed.

Lemma detect_ok b f : at_ th = Detect b f -> advances t s.
Proof.
  intros Hat. destruct Hok as [Hv Hp]. rewrite Hat in Hp. destruct Hp as (Hp & st & Hs & -> & Hz).
  destruct (attack st) eqn:Eat.
  - destruct (Vector.vector_pushBack_spec true (errorVector th) (found_of h) f Hv) as (v & ok & Hpush & Hv' & Hfull).
    pose proof (found_length _ _ _ _ _ _ _ H Hh) as Hlen.
    destruct ok; [|destruct (Hfull eq_refl); [done|lia]].
    apply (advances_intro s t th h seen rest out hs (mkThread Get v) (mkHand [] [] (found_of h ++ [f])) (input s) (decoderPtr s) seen rest out);
      [done|done|done| |apply H|by left|apply H|done| |done|done| | |].
    + in_loop Hat. cbn [mbind option_bind]. rewrite detector_spec, Eat by done. cbn [mbind option_bind].
      rewrite decide_False by done. rewrite Hpush. done.
    + by rewrite Hp.
    + unfold waits. rewrite Hat. cbn [at_]. lia.
    + intros r. cbn [found_of string_of]. rewrite Hs, app_nil_r, attacks_app. intros <-.
      assert (E : attacks [(f, st)] = [f]) by (unfold attacks; rewrite filter_cons_True by done; done). rewrite E. solve_Permutation.
    + unfold weight. rewrite Hat. cbn [at_]. lia.
  - apply (advances_intro s t th h seen rest out hs (mkThread Get (errorVector th)) (mkHand [] [] (found_of h)) (input s) (decoderPtr s) seen rest out);
      [done|done|done| |apply H|by left|apply H|done| |done|done| | |].
    + in_loop Hat. cbn [mbind option_bind]. rewrite detector_spec, Eat by done. done.
    + by rewrite Hp.
    + unfold waits. rewrite Hat. cbn [at_]. lia.
    + intros r. cbn [found_of string_of]. rewrite Hs, app_nil_r, attacks_app. intros <-.
      assert (E : attacks [(f, st)] = []) by (unfold attacks; rewrite filter_cons_False by (simpl; congruence); done). rewrite E. solve_Permutation.
    + unfold weight. rewrite Hat. cbn [at_]. lia.
Qed.

End cases.

Lemma thread_advances s seen rest out hs t th : running s seen rest out hs -> threads s !! t = Some th -> at_ th = Done \/ advances t s.
Proof.
  intros H Hth. destruct (Forall2_lookup_l _ _ _ _ _ (run_hands _ _ _ _ _ H) Hth) as (h & Hh & Hok).
  destruct (at_ th) as [|a| |b f|] eqn:E; [right..|by left].
  - by eapply take_ok.
  - by eapply process_ok.
  - by eapply complete_ok.
  - by eapply detect_ok.
Qed.

Definition invariant (s : state) : Prop := exists seen rest out hs, running s seen rest out hs.

Lemma step_ok s t s' : invariant s -> step alloc packets t s = Some s' ->
  invariant s' /\ left_ s' < left_ s /\ length (threads s') = length (threads s).
Proof.
  intros (seen & rest & out & hs & H) Hs. destruct (threads s !! t) as [th|] eqn:Hth.
  - destruct (thread_advances s seen rest out hs t th H Hth) as [E|(s1 & seen' & rest' & out' & hs' & Hs1 & H' & Hl & Ht)].
    + unfold step in Hs. rewrite Hth in Hs. cbn [mbind option_bind] in Hs. unfold processPackets in Hs. by rewrite E in Hs.
    + simplify_eq. split; [|done]. by exists seen', rest', out', hs'.
  - unfold step in Hs. by rewrite Hth in Hs.
Qed.

Lemma run_ok sched : forall s s', invariant s -> run (step alloc packets) sched s = Some s' ->
  invariant s' /\ left_ s' + Z.of_nat (length sched) <= left_ s /\ length (threads s') = length (threads s).
Proof.
  induction sched as [|t sched IH]; intros s s' H Hr; simpl in Hr; [simplify_eq; split_and!; (done || simpl; lia)|].
  destruct (step alloc packets t s) as [s1|] eqn:E; [|done]. cbn [mbind option_bind] in Hr. destruct (step_ok s t s1 H E) as (H1 & Hl & Ht).
  destruct (IH s1 s' H1 Hr) as (H2 & Hl2 & Ht2). split_and!; [done|simpl length; lia|congruence].
Qed.

Lemma left_nonneg s : invariant s -> 0 <= left_ s.
Proof.
  intros (seen & rest & out & hs & H). unfold left_. rewrite (Queue.numElement_spec _ _ (run_input _ _ _ _ _ H)).
  enough (0 <= zsum weight (threads s)) by lia. apply zsum_nonneg. intros x _. unfold weight. case_match; lia.
Qed.

(** All threads have left. *)
Lemma all_done s seen rest out hs : running s seen rest out hs -> threads s <> [] -> (forall th, th ∈ threads s -> at_ th = Done) ->
  rest = [] /\ out = [] /\ hs ≫= packet_of = [] /\ hs ≫= string_of = [].
Proof.
  intros H Hne Hd. assert (Hidle : forall h, h ∈ hs -> packet_of h = [] /\ string_of h = []).
  { intros h [i Hi]%list_elem_of_lookup. destruct (Forall2_lookup_r _ _ _ _ _ (run_hands _ _ _ _ _ H) Hi) as (th & Hth & _ & Hok).
    rewrite Hd in Hok by by eapply list_elem_of_lookup_2. done. }
  split_and!.
  - destruct (threads s) as [|th ths] eqn:E; [done|]. apply (run_done _ _ _ _ _ H th); [rewrite E; left|]. apply Hd. left.
  - pose proof (run_out _ _ _ _ _ H) as Ho. rewrite zsum_0 in Ho; [destruct out; [done|simpl in Ho; lia]|].
    intros th Hth. unfold waits. by rewrite Hd.
  - apply elem_of_nil_inv. intros a (h & Ha & Hh)%list_elem_of_bind. destruct (Hidle h Hh) as [E _]. rewrite E in Ha. by apply elem_of_nil in Ha.
  - apply elem_of_nil_inv. intros a (h & Ha & Hh)%list_elem_of_bind. destruct (Hidle h Hh) as [_ E]. rewrite E in Ha. by apply elem_of_nil in Ha.
Qed.

End threads.

(** The final check. *)
Lemma check_errors_ok st v es : Vector.repr v es -> (forall f, f ∈ es -> stream_isAttack st f = true) -> forall k i, (i + k = length es)%nat ->
  check_errors k (Z.of_nat i) st v = Some ().
Proof.
  intros Hv Hes. induction k as [|k IH]; intros i Hi; simpl; [done|]. rewrite (Vector.vector_at_spec v es _ Hv).
  destruct (Z.leb_spec 0 (Z.of_nat i)); [|lia]. rewrite Nat2Z.id. destruct (lookup_lt_is_Some_2 es i) as [f Hf]; [lia|]. rewrite Hf.
  cbn [default mbind option_bind id]. rewrite Hes by by eapply list_elem_of_lookup_2. replace (Z.of_nat i + 1) with (Z.of_nat (S i)) by lia. apply IH. lia.
Qed.

Lemma check_solution_ok st ths hs : Forall2 thread_ok ths hs -> (forall f, f ∈ (hs ≫= found_of) -> stream_isAttack st f = true) ->
  forall n, check_solution st ths n = Some (n + Z.of_nat (length (hs ≫= found_of))).
Proof.
  induction 1 as [|th h ths hs [Hv _] _ IH]; intros Hf n; cbn [check_solution]; [simpl; f_equal; lia|].
  pose proof Hv as (Hsz & _). unfold Vector.vector_getSize. rewrite Hsz, Nat2Z.id.
  assert (Hc : check_errors (length (found_of h)) 0 st (errorVector th) = Some ()).
  { apply (check_errors_ok st _ (found_of h) Hv) with (i := 0%nat); [|done]. intros. apply Hf. rewrite bind_cons. set_solver. }
  rewrite Hc. cbn [mbind option_bind].
  rewrite IH; [|intros; apply Hf; rewrite bind_cons; set_solver]. rewrite bind_cons, length_app. f_equal. lia.
Qed.

Lemma start_running packets flows all st n held v d numThread : stream_made st n held all flows -> packets = packets_of st ->
  Vector.repr v [] -> decoder_inv packets flows all [] d [] ->
  running packets flows all (mkState (packetQueue st) d (replicate numThread (mkThread Get v))) [] all [] (replicate numThread (mkHand [] [] [])).
Proof.
  intros Hs -> Hv Hd. assert (E : forall B (f : hand -> list B), f (mkHand [] [] []) = [] -> replicate numThread (mkHand [] [] []) ≫= f = []).
  { intros B f Hf. induction numThread as [|k IH]; [done|]. csimpl. by rewrite Hf, IH. }
  split; cbn [decoderPtr input threads].
  - done.
  - by intros x ?%elem_of_nil.
  - apply Hs.
  - by rewrite E.
  - intros th [-> _]%elem_of_replicate. done.
  - simpl. apply zsum_nonneg. intros x _. unfold waits. case_match; lia.
  - apply Forall2_replicate. split; done.
  - rewrite !E by done. rewrite (completed_nil _ _ all (sm_cut _ _ _ _ _ Hs)). done.
Qed.

(** The number of attacks among the numbered strings. *)
Lemma attacks_numbered flows : length (attacks (named <$> numbered flows)) = length (filter (fun x => attack x.1 = true) flows).
Proof.
  unfold attacks. rewrite length_fmap. unfold numbered. rewrite fmap_imap.
  enough (H : forall g : nat -> Z, length (filter (fun x => attack x.2 = true) (imap (fun i x => (g i, x.1)) flows)) =
    length (filter (fun x => attack x.1 = true) flows)) by exact (H (fun n => Z.of_nat n + 1)).
  induction flows as [|[st k] l IH]; intros g; [done|]. rewrite imap_cons, !filter_cons. simpl. pose proof (IH (g ∘ S)) as IH'.
  case_decide; simpl; by rewrite <- IH'.
Qed.

(** C30: the benchmark, for every interleaving of any number of threads: set-up succeeds; at any time every
    thread that has not left its loop can take a step (no assertion fails, no access is
    undefined), and there are at most four steps for every packet and one for every thread; when all
    have left, the final check succeeds with exactly the attacks that the generator counted,
    the decoder holds no list, flow or string any more, and the buffers of the stream can be
    freed one by one. *)
Theorem intruder_benchmark_correct alloc percent maxLength numFlow seed numThread :
  (forall X, alloc X <> NULL /\ alloc X ∉ X) -> 0 <= percent <= 100 -> 0 <= numFlow -> 0 < maxLength < 2 ^ 31 ->
  numFlow * (Z.max maxLength 7 + 1) + 2 < 2 ^ 28 -> (0 < numThread)%nat ->
  exists st numAttack s0, set_up alloc percent maxLength numFlow seed numThread = Some (st, numAttack, s0) /\
  forall sched s, run (step alloc (packets_of st)) sched s0 = Some s ->
    Z.of_nat (length sched) <= 4 * Queue.numElement (packetQueue st) + Z.of_nat numThread /\
    (forall t, (t < numThread)%nat ->
      (exists th, threads s !! t = Some th /\ at_ th = Done) \/ is_Some (step alloc (packets_of st) t s)) /\
    ((forall th, th ∈ threads s -> at_ th = Done) ->
      check_solution st (threads s) 0 = Some numAttack /\ fragmentedMap (decoderPtr s) = ∅ /\
      lists (decoderPtr s) = ∅ /\ decodeds (decoderPtr s) = ∅ /\ stream_free st = Some ∅).
Proof.
  intros Halloc Hp Hn Hmax Hroom Hth.
  destruct (stream_generate_ok alloc Halloc percent numFlow seed maxLength Hp Hn Hmax Hroom) as (s0 & s1 & st & n & held & all & flows & H0 & _ & Hg & Hs & Hl & _).
  destruct (decoder_alloc_ok (packets_of st) flows all) as (d & Hd & Hinv). pose proof (sm_cut _ _ _ _ _ Hs) as Hcut. pose proof (sm_few _ _ _ _ _ Hs) as Hfew.
  destruct (Vector.vector_alloc true true numFlow) as [v|] eqn:Ev.
  2: { exfalso. unfold Vector.vector_alloc in Ev. destruct (malloc_array true (Z.max numFlow 1)) eqn:Em; [done|]. apply malloc_array_fails in Em as [?|?]; [done|nia..]. }
  exists st, n, (mkState (packetQueue st) d (replicate numThread (mkThread Get v))). split.
  { unfold set_up. rewrite H0. cbn [mbind option_bind]. rewrite Hg. cbn [mbind option_bind]. rewrite Hd. cbn [mbind option_bind]. rewrite Ev. done. }
  apply Vector.vector_alloc_repr in Ev; [|nia]. assert (Hfl : Z.of_nat (length flows) < 2 ^ 28) by nia.
  pose proof (start_running _ flows all st n held v d numThread Hs eq_refl Ev Hinv) as Hst.
  intros sched s Hrun. destruct (run_ok alloc Halloc _ flows all Hcut Hfew Hfl sched _ s (ex_intro _ _ (ex_intro _ _ (ex_intro _ _ (ex_intro _ _ Hst)))) Hrun) as (Hi & Hleft & Hlen).
  cbn [threads] in Hlen. rewrite length_replicate in Hlen. pose proof (left_nonneg _ flows all s Hi) as H1. destruct Hi as (seen & rest & out & hs & H).
  split_and!.
  - unfold left_ at 2 in Hleft. cbn [input threads] in Hleft. rewrite (zsum_ext _ (fun _ => 1)) in Hleft by by intros x [-> _]%elem_of_replicate.
    rewrite zsum_const, length_replicate in Hleft. lia.
  - intros t Ht. destruct (lookup_lt_is_Some_2 (threads s) t) as [th E]; [lia|].
    destruct (thread_advances alloc Halloc _ flows all Hcut Hfew Hfl s seen rest out hs t th H E) as [?|(s' & _ & _ & _ & _ & -> & _)]; [left; eauto|right; eauto].
  - intros Hdone. destruct (all_done _ flows all s seen rest out hs H) as (-> & -> & E1 & E2); [by destruct (threads s); simpl in *; [lia|]|done|].
    pose proof (run_split _ _ _ _ _ _ _ _ H) as Hsp. rewrite E1, !app_nil_r in Hsp.
    pose proof (run_found _ _ _ _ _ _ _ _ H) as Hf. rewrite E2, app_nil_r in Hf. change (attacks []) with (@nil Z) in Hf.
    rewrite (completed_perm _ _ _ _ Hsp), (completed_all _ _ all Hcut) in Hf.
    split; [|split_and!; [by eapply decoder_empty; [|apply H|]..|by eapply stream_free_ok]].
    rewrite (check_solution_ok st (threads s) hs (run_hands _ _ _ _ _ _ _ _ H)).
    + rewrite Hf, attacks_numbered, (sm_count _ _ _ _ _ Hs). done.
    + intros f. rewrite Hf. intros ([g str] & -> & [Hat ([g' [str' k]] & [= -> ->] & Hx%elem_of_numbered)%list_elem_of_fmap]%list_elem_of_filter)%list_elem_of_fmap.
      unfold stream_isAttack. apply bool_decide_eq_true, (sm_attack _ _ _ _ _ Hs). eauto.
Qed.

(** ** Examples *)

(** An allocator: one beyond the largest address in use. *)
Definition beyond (X : gset Z) : Z := 1 + set_fold Z.max 0 X.

Lemma beyond_ok X : beyond X <> NULL /\ beyond X ∉ X.
Proof.
  assert (H : 0 <= set_fold Z.max 0 X /\ forall x, x ∈ X -> x <= set_fold Z.max 0 X).
  { apply (set_fold_ind_L (fun r X => 0 <= r /\ forall x, x ∈ X -> x <= r)); [set_solver by lia|].
    intros x Y r _ [H0 H]. split; [lia|]. intros y [->%elem_of_singleton|Hy]%elem_of_union; [lia|]. specialize (H y Hy). lia. }
  unfold beyond, NULL. split; [lia|]. intros Hin. apply H in Hin. lia.
Qed.

Lemma intruder_roundtrip_witness : exists s0 s n sent d0 d out d', stream_alloc 30 = Some s0 /\
  stream_generate beyond s0 dictionary_alloc 6 1 10 = Some (s, n) /\ Queue.repr (packetQueue s) sent /\ decoder_alloc = Some d0 /\
  decode_all beyond (packets_of s) (reverse sent) d0 = Some d /\ collect 7 d = Some (out, d') /\ length out = 6%nat.
Proof.
  destruct (intruder_roundtrip beyond 30 6 1 10 beyond_ok) as (s0 & s1 & s & n & sent & strings & d0 & H1 & _ & H2 & H3 & H4 & _ & _ & H5 & _ & H6);
    [lia|lia|lia|lia|].
  destruct (H6 (reverse sent)) as (d & out & d' & Hd & Hc & Hp & _); [apply reverse_Permutation|].
  assert (Hl : length strings = 6%nat) by lia. rewrite Hl in Hc. exists s0, s, n, sent, d0, d, out, d'. split_and!; try assumption.
  rewrite Hp, length_imap. exact Hl.
Defined.

(** Two threads that run in turn take 56 steps until both are done. *)
Definition in_turn : list nat := mjoin (replicate 28 [0; 1]%nat).

Definition has_left (th : thread) : bool := match at_ th with Done => true | _ => false end.

Definition ends_with (sched : list nat) (x : stream * Z * state) : bool :=
  match run (step beyond (packets_of x.1.1)) sched x.2 with
  | Some s => (x.1.2 =? 2) && forallb has_left (threads s)
  | None => false
  end.

Lemma ends_with_spec sched st n s0 : ends_with sched (st, n, s0) = true -> exists s,
  run (step beyond (packets_of st)) sched s0 = Some s /\ n = 2 /\ forall th, th ∈ threads s -> at_ th = Done.
Proof.
  unfold ends_with. simpl. destruct (run (step beyond (packets_of st)) sched s0) as [s|]; [|done].
  intros [Hn%Z.eqb_eq Hd]%andb_true_iff. exists s. split_and!; [done|done|].
  intros th Hth. rewrite forallb_forall in Hd. apply list_elem_of_In, Hd in Hth. unfold has_left in Hth. by destruct (at_ th).
Qed.

Definition holds_of {A} (P : A -> bool) (o : option A) : bool := match o with Some a => P a | None => false end.

Lemma holds_of_result {A} (P : A -> bool) (o : option A) x : holds_of P o = true -> o = Some x -> P x = true.
Proof. intros H ->. exact H. Qed.

Lemma demo_check : holds_of (ends_with in_turn) (set_up beyond 30 10 6 1 2) = true.
Proof. vm_compute. reflexivity. Qed.

Lemma demo_runs st n s0 : set_up beyond 30 10 6 1 2 = Some (st, n, s0) -> exists s,
  run (step beyond (packets_of st)) in_turn s0 = Some s /\ n = 2 /\ forall th, th ∈ threads s -> at_ th = Done.
Proof. intros Hset. exact (ends_with_spec in_turn st n s0 (holds_of_result (ends_with in_turn) _ _ demo_check Hset)). Qed.

Lemma intruder_benchmark_correct_witness : exists st s0 s, set_up beyond 30 10 6 1 2 = Some (st, 2, s0) /\
  run (step beyond (packets_of st)) in_turn s0 = Some s /\
  check_solution st (threads s) 0 = Some 2 /\ lists (decoderPtr s) = ∅ /\ stream_free st = Some ∅.
Proof.
  destruct (intruder_benchmark_correct beyond 30 10 6 1 2 beyond_ok) as (st & n & s0 & Hset & Hrun); [lia|lia|lia|lia|lia|].
  destruct (demo_runs st n s0 Hset) as (s & Hs & Hn & Hd).
  destruct (Hrun in_turn s Hs) as (_ & _ & Hend). destruct (Hend Hd) as (Hc & _ & Hlists & _ & Hf).
  rewrite Hn in Hset, Hc. exists st, s0, s. exact (conj Hset (conj Hs (conj Hc (conj Hlists Hf)))).
Defined.

(** The calls of the unit test of [decoder.c]: a packet and the size that is passed with it. *)
Fixpoint test_decoder (calls : list (packet * Z)) (known : gmap Z packet) (d : decoder) : option (list error_t * decoder) :=
  match calls with
  | [] => Some ([], d)
  | (p, numByte) :: calls =>
    let a := beyond (used known d) in
    '(d, error) ← decoder_process beyond (<[a := p]> known) a numByte d;
    '(errors, d) ← test_decoder calls (<[a := p]> known) d;
    Some (error :: errors, d)
  end.

Definition abc flow frag num len : packet := mkPacket flow frag num len (Some <$> codes "abc").
Definition def flow frag num len : packet := mkPacket flow frag num len (Some <$> codes "def").

(** The unit test passes: every error in turn, and the string in the end. *)
Lemma decoder_unit_test : (
  d ← decoder_alloc;
  '(errors, d) ← test_decoder
    [(abc 1 0 2 3, 3); (abc (-1) 0 2 3, 19); (abc 1 (-1) 2 3, 19); (abc 1 2 2 3, 19); (abc 1 0 2 (-1), 19);
     (abc 1 0 2 3, 19); (def 1 1 3 3, 19); (abc 1 0 2 3, 19); (def 1 0 2 3, 19); (def 1 1 2 3, 19); (abc 1 0 2 3, 19)] ∅ d;
  '(out, d) ← collect 3 d;
  Some (errors, out, size (lists d))) =
  Some ([ERROR_SHORT; ERROR_FLOWID; ERROR_FRAGMENTID; ERROR_FRAGMENTID; ERROR_LENGTH;
         ERROR_NONE; ERROR_NUMFRAGMENT; ERROR_NONE; ERROR_INCOMPLETE; ERROR_NONE; ERROR_NONE],
        [(1, codes "abcdef")], 2%nat).
Proof. vm_compute. reflexivity. Qed.

(** As the last number shows, the two lists that were dropped with an error are never freed. *)

(** A negative size passes for a large one. *)
Lemma decoder_negative_size : (
  d ← decoder_alloc; '(errors, _) ← test_decoder [(abc 1 0 1 3, -1)] ∅ d; Some errors) = Some [ERROR_NONE].
Proof. vm_compute. reflexivity. Qed.
