(* ===== verification/Vacation.v ===== *)
(** * The travel database of STAMP's vacation
      ([src/sws/benchmarks/stamp/vacation/{reservation,customer,manager}.c])

    The manager keeps three tables of reservations (cars, flights, rooms) and one of
    customers; every operation runs as one transaction.  An operation returns [None] where
    the code calls [TM_RESTART] (the transaction is rolled back) or where an [assert] of the
    sequential variant fails.  [long] is 32 bits (the build passes [-m32]) and its arithmetic
    is written with [s32].

    The tables are [MAP_T] of [lib/map.h], here finite maps with the contract of the
    [TMMAP_*] macros; the list of a customer's reservations is the sequence of
    [StampList], whose operations refine it.  Allocation succeeds (a failed one stops the
    program in an [assert]).

    The main result is a global invariant: the number of used units of each resource is the
    number of customers that hold a reservation of it. *)

From S2P Require Import Prelude StampList.

(** ** Tables ([lib/map.h], [MAP_USE_RBTREE]) *)

Notation MAP_T V := (gmap Z V).

Definition TMMAP_FIND {V} (m : MAP_T V) (k : Z) : option V := m !! k.
Definition TMMAP_CONTAINS {V} (m : MAP_T V) (k : Z) : bool := bool_decide (is_Some (m !! k)).
Definition TMMAP_INSERT {V} (m : MAP_T V) (k : Z) (v : V) : bool * MAP_T V :=
  match m !! k with Some _ => (false, m) | None => (true, <[k := v]> m) end.
Definition TMMAP_REMOVE {V} (m : MAP_T V) (k : Z) : bool * MAP_T V :=
  match m !! k with Some _ => (true, delete k m) | None => (false, m) end.

(** ** [reservation.c] *)

Inductive reservation_type_t := RESERVATION_CAR | RESERVATION_FLIGHT | RESERVATION_ROOM.

#[global] Instance reservation_type_eq_dec : EqDecision reservation_type_t.
Proof. solve_decision. Defined.

Definition type_code (t : reservation_type_t) : Z :=
  match t with RESERVATION_CAR => 0 | RESERVATION_FLIGHT => 1 | RESERVATION_ROOM => 2 end.

Record reservation_info_t := ReservationInfo {
  ri_type : reservation_type_t; ri_id : Z; ri_price : Z }.

Record reservation_t := Reservation {
  r_id : Z; numUsed : Z; numFree : Z; numTotal : Z; price : Z }.

Definition reservation_info_alloc (t : reservation_type_t) (id p : Z) : reservation_info_t :=
  ReservationInfo t id p.

(** The difference of the types is unsigned and converted to [long]. *)
Definition reservation_info_compare (a b : reservation_info_t) : Z :=
  let typeDiff := s32 (u32 (type_code (ri_type a) - type_code (ri_type b))) in
  if negb (typeDiff =? 0) then typeDiff else s32 (ri_id a - ri_id b).

(** [checkReservation]: [false] is [TM_RESTART]. *)
Definition checkReservation (r : reservation_t) : bool :=
  negb (numUsed r <? 0) && negb (numFree r <? 0) && negb (numTotal r <? 0)
  && (s32 (numUsed r + numFree r) =? numTotal r) && negb (price r <? 0).

(** [checkReservation_seq]: [false] is a failed assertion. *)
Definition checkReservation_seq (r : reservation_t) : bool :=
  (numUsed r >=? 0) && (numFree r >=? 0) && (numTotal r >=? 0)
  && (s32 (numUsed r + numFree r) =? numTotal r) && (price r >=? 0).

Definition reservation_alloc (id num p : Z) : option reservation_t :=
  let r := Reservation id 0 num num p in
  if checkReservation r then Some r else None.

Definition reservation_alloc_seq (id num p : Z) : option reservation_t :=
  let r := Reservation id 0 num num p in
  if checkReservation_seq r then Some r else None.

Definition reservation_addToTotal (r : reservation_t) (num : Z) : option (bool * reservation_t) :=
  if s32 (numFree r + num) <? 0 then Some (false, r)
  else
    let r' := Reservation (r_id r) (numUsed r) (s32 (numFree r + num)) (s32 (numTotal r + num)) (price r) in
    if checkReservation r' then Some (true, r') else None.

Definition reservation_addToTotal_seq (r : reservation_t) (num : Z) : option (bool * reservation_t) :=
  if s32 (numFree r + num) <? 0 then Some (false, r)
  else
    let r' := Reservation (r_id r) (numUsed r) (s32 (numFree r + num)) (s32 (numTotal r + num)) (price r) in
    if checkReservation_seq r' then Some (true, r') else None.

Definition reservation_make (r : reservation_t) : option (bool * reservation_t) :=
  if numFree r <? 1 then Some (false, r)
  else
    let r' := Reservation (r_id r) (s32 (numUsed r + 1)) (s32 (numFree r - 1)) (numTotal r) (price r) in
    if checkReservation r' then Some (true, r') else None.

Definition reservation_make_seq (r : reservation_t) : option (bool * reservation_t) :=
  if numFree r <? 1 then Some (false, r)
  else
    let r' := Reservation (r_id r) (s32 (numUsed r + 1)) (s32 (numFree r - 1)) (numTotal r) (price r) in
    if checkReservation_seq r' then Some (true, r') else None.

Definition reservation_cancel (r : reservation_t) : option (bool * reservation_t) :=
  if numUsed r <? 1 then Some (false, r)
  else
    let r' := Reservation (r_id r) (s32 (numUsed r - 1)) (s32 (numFree r + 1)) (numTotal r) (price r) in
    if checkReservation r' then Some (true, r') else None.

Definition reservation_cancel_seq (r : reservation_t) : option (bool * reservation_t) :=
  if numUsed r <? 1 then Some (false, r)
  else
    let r' := Reservation (r_id r) (s32 (numUsed r - 1)) (s32 (numFree r + 1)) (numTotal r) (price r) in
    if checkReservation_seq r' then Some (true, r') else None.

Definition reservation_updatePrice (r : reservation_t) (p : Z) : option (bool * reservation_t) :=
  if p <? 0 then Some (false, r)
  else
    let r' := Reservation (r_id r) (numUsed r) (numFree r) (numTotal r) p in
    if checkReservation r' then Some (true, r') else None.

Definition reservation_updatePrice_seq (r : reservation_t) (p : Z) : option (bool * reservation_t) :=
  if p <? 0 then Some (false, r)
  else
    let r' := Reservation (r_id r) (numUsed r) (numFree r) (numTotal r) p in
    if checkReservation_seq r' then Some (true, r') else None.

Definition reservation_compare (a b : reservation_t) : Z := s32 (r_id a - r_id b).
Definition reservation_hash (r : reservation_t) : Z := u32 (r_id r).

(** ** [customer.c] *)

Record customer_t := Customer { c_id : Z; reservationInfoList : list reservation_info_t }.

Definition compareReservationInfo := reservation_info_compare.

Definition customer_alloc (id : Z) : customer_t := Customer id [].
Definition customer_alloc_seq (id : Z) : customer_t := Customer id [].
Definition customer_compare (a b : customer_t) : Z := s32 (c_id a - c_id b).

(** The list refuses a second reservation of the same resource ([LIST_NO_DUPLICATES]). *)
Definition customer_addReservationInfo (c : customer_t) (t : reservation_type_t) (id p : Z)
  : bool * customer_t :=
  match linsert compareReservationInfo true (reservation_info_alloc t id p) (reservationInfoList c) with
  | Some l => (true, Customer (c_id c) l)
  | None => (false, c)
  end.

Definition customer_removeReservationInfo (c : customer_t) (t : reservation_type_t) (id : Z)
  : option (bool * customer_t) :=
  let findReservationInfo := ReservationInfo t id 0 in
  match lfind compareReservationInfo findReservationInfo (reservationInfoList c) with
  | None => Some (false, c)
  | Some _ =>
    match lremove compareReservationInfo findReservationInfo (reservationInfoList c) with
    | None => None
    | Some l => Some (true, Customer (c_id c) l)
    end
  end.

Definition customer_getBill (c : customer_t) : Z :=
  foldl (fun bill i => s32 (bill + ri_price i)) 0 (reservationInfoList c).

(** ** [manager.c] *)

Record manager_t := Manager {
  carTable : MAP_T reservation_t;
  roomTable : MAP_T reservation_t;
  flightTable : MAP_T reservation_t;
  customerTable : MAP_T customer_t }.

Definition tableAlloc {V} : MAP_T V := ∅.
Definition manager_alloc : manager_t := Manager tableAlloc tableAlloc tableAlloc tableAlloc.

Definition with_car (m : manager_t) tb := Manager tb (roomTable m) (flightTable m) (customerTable m).
Definition with_room (m : manager_t) tb := Manager (carTable m) tb (flightTable m) (customerTable m).
Definition with_flight (m : manager_t) tb := Manager (carTable m) (roomTable m) tb (customerTable m).
Definition with_customers (m : manager_t) cs := Manager (carTable m) (roomTable m) (flightTable m) cs.

Definition addReservation (tb : MAP_T reservation_t) (id num p : Z)
  : option (bool * MAP_T reservation_t) :=
  match TMMAP_FIND tb id with
  | None =>
    if (num <? 1) || (p <? 0) then Some (false, tb)
    else r ← reservation_alloc id num p; Some (true, (TMMAP_INSERT tb id r).2)
  | Some r =>
    '(ok, r) ← reservation_addToTotal r num;
    let tb := <[id := r]> tb in
    if negb ok then Some (false, tb)
    else if numTotal r =? 0 then
      let '(status, tb) := TMMAP_REMOVE tb id in
      if (status : bool) then Some (true, tb) else None
    else
      '(_, r) ← reservation_updatePrice r p;
      Some (true, <[id := r]> tb)
  end.

Definition addReservation_seq (tb : MAP_T reservation_t) (id num p : Z)
  : option (bool * MAP_T reservation_t) :=
  match TMMAP_FIND tb id with
  | None =>
    if (num <? 1) || (p <? 0) then Some (false, tb)
    else
      r ← reservation_alloc_seq id num p;
      let '(status, tb) := TMMAP_INSERT tb id r in
      if (status : bool) then Some (true, tb) else None
  | Some r =>
    '(ok, r) ← reservation_addToTotal_seq r num;
    let tb := <[id := r]> tb in
    if negb ok then Some (false, tb)
    else if numTotal r =? 0 then
      let '(status, tb) := TMMAP_REMOVE tb id in
      if (status : bool) then Some (true, tb) else None
    else
      '(_, r) ← reservation_updatePrice_seq r p;
      Some (true, <[id := r]> tb)
  end.

Definition manager_addCar (m : manager_t) (carId numCars p : Z) : option (bool * manager_t) :=
  '(b, tb) ← addReservation (carTable m) carId numCars p; Some (b, with_car m tb).
Definition manager_addCar_seq (m : manager_t) (carId numCars p : Z) : option (bool * manager_t) :=
  '(b, tb) ← addReservation_seq (carTable m) carId numCars p; Some (b, with_car m tb).
Definition manager_deleteCar (m : manager_t) (carId numCar : Z) : option (bool * manager_t) :=
  '(b, tb) ← addReservation (carTable m) carId (s32 (- numCar)) (-1); Some (b, with_car m tb).

Definition manager_addRoom (m : manager_t) (roomId numRoom p : Z) : option (bool * manager_t) :=
  '(b, tb) ← addReservation (roomTable m) roomId numRoom p; Some (b, with_room m tb).
Definition manager_addRoom_seq (m : manager_t) (roomId numRoom p : Z) : option (bool * manager_t) :=
  '(b, tb) ← addReservation_seq (roomTable m) roomId numRoom p; Some (b, with_room m tb).
Definition manager_deleteRoom (m : manager_t) (roomId numRoom : Z) : option (bool * manager_t) :=
  '(b, tb) ← addReservation (roomTable m) roomId (s32 (- numRoom)) (-1); Some (b, with_room m tb).

Definition manager_addFlight (m : manager_t) (flightId numSeat p : Z) : option (bool * manager_t) :=
  '(b, tb) ← addReservation (flightTable m) flightId numSeat p; Some (b, with_flight m tb).
Definition manager_addFlight_seq (m : manager_t) (flightId numSeat p : Z) : option (bool * manager_t) :=
  '(b, tb) ← addReservation_seq (flightTable m) flightId numSeat p; Some (b, with_flight m tb).

Definition manager_deleteFlight (m : manager_t) (flightId : Z) : option (bool * manager_t) :=
  match TMMAP_FIND (flightTable m) flightId with
  | None => Some (false, m)
  | Some r =>
    if numUsed r >? 0 then Some (false, m)
    else
      '(b, tb) ← addReservation (flightTable m) flightId (s32 (-1 * numTotal r)) (-1);
      Some (b, with_flight m tb)
  end.

Definition manager_addCustomer (m : manager_t) (customerId : Z) : option (bool * manager_t) :=
  if TMMAP_CONTAINS (customerTable m) customerId then Some (false, m)
  else
    let '(status, cs) := TMMAP_INSERT (customerTable m) customerId (customer_alloc customerId) in
    if (status : bool) then Some (true, with_customers m cs) else None.

Definition manager_addCustomer_seq (m : manager_t) (customerId : Z) : option (bool * manager_t) :=
  if TMMAP_CONTAINS (customerTable m) customerId then Some (false, m)
  else
    let '(status, cs) := TMMAP_INSERT (customerTable m) customerId (customer_alloc_seq customerId) in
    if (status : bool) then Some (true, with_customers m cs) else None.

(** [reservationTables[type]] of [manager_deleteCustomer]. *)
Definition table (m : manager_t) (t : reservation_type_t) : MAP_T reservation_t :=
  match t with
  | RESERVATION_CAR => carTable m
  | RESERVATION_ROOM => roomTable m
  | RESERVATION_FLIGHT => flightTable m
  end.

Definition set_table (m : manager_t) (t : reservation_type_t) (tb : MAP_T reservation_t) : manager_t :=
  match t with
  | RESERVATION_CAR => with_car m tb
  | RESERVATION_ROOM => with_room m tb
  | RESERVATION_FLIGHT => with_flight m tb
  end.

(** The loop over the customer's reservations. *)
Fixpoint cancel_all (l : list reservation_info_t) (m : manager_t) : option manager_t :=
  match l with
  | [] => Some m
  | i :: l =>
    match TMMAP_FIND (table m (ri_type i)) (ri_id i) with
    | None => None
    | Some r =>
      '(status, r) ← reservation_cancel r;
      if (status : bool)
      then cancel_all l (set_table m (ri_type i) (<[ri_id i := r]> (table m (ri_type i))))
      else None
    end
  end.

Definition manager_deleteCustomer (m : manager_t) (customerId : Z) : option (bool * manager_t) :=
  match TMMAP_FIND (customerTable m) customerId with
  | None => Some (false, m)
  | Some c =>
    m ← cancel_all (reservationInfoList c) m;
    let '(status, cs) := TMMAP_REMOVE (customerTable m) customerId in
    if (status : bool) then Some (true, with_customers m cs) else None
  end.

Definition queryNumFree (tb : MAP_T reservation_t) (id : Z) : Z :=
  match TMMAP_FIND tb id with Some r => numFree r | None => -1 end.
Definition queryPrice (tb : MAP_T reservation_t) (id : Z) : Z :=
  match TMMAP_FIND tb id with Some r => price r | None => -1 end.

Definition manager_queryCar (m : manager_t) := queryNumFree (carTable m).
Definition manager_queryCarPrice (m : manager_t) := queryPrice (carTable m).
Definition manager_queryRoom (m : manager_t) := queryNumFree (roomTable m).
Definition manager_queryRoomPrice (m : manager_t) := queryPrice (roomTable m).
Definition manager_queryFlight (m : manager_t) := queryNumFree (flightTable m).
Definition manager_queryFlightPrice (m : manager_t) := queryPrice (flightTable m).
Definition manager_queryCustomerBill (m : manager_t) (customerId : Z) : Z :=
  match TMMAP_FIND (customerTable m) customerId with Some c => customer_getBill c | None => -1 end.

Definition reserve (tb : MAP_T reservation_t) (cs : MAP_T customer_t) (customerId id : Z)
    (t : reservation_type_t) : option (bool * (MAP_T reservation_t * MAP_T customer_t)) :=
  match TMMAP_FIND cs customerId with
  | None => Some (false, (tb, cs))
  | Some c =>
    match TMMAP_FIND tb id with
    | None => Some (false, (tb, cs))
    | Some r =>
      '(ok, r) ← reservation_make r;
      if negb ok then Some (false, (<[id := r]> tb, cs))
      else
        let '(added, c) := customer_addReservationInfo c t id (price r) in
        if negb added then
          '(status, r) ← reservation_cancel r;
          if negb status then None else Some (false, (<[id := r]> tb, cs))
        else Some (true, (<[id := r]> tb, <[customerId := c]> cs))
    end
  end.

Definition cancel (tb : MAP_T reservation_t) (cs : MAP_T customer_t) (customerId id : Z)
    (t : reservation_type_t) : option (bool * (MAP_T reservation_t * MAP_T customer_t)) :=
  match TMMAP_FIND cs customerId with
  | None => Some (false, (tb, cs))
  | Some c =>
    match TMMAP_FIND tb id with
    | None => Some (false, (tb, cs))
    | Some r =>
      '(ok, r) ← reservation_cancel r;
      if negb ok then Some (false, (<[id := r]> tb, cs))
      else
        '(removed, c) ← customer_removeReservationInfo c t id;
        if negb removed then
          '(status, r) ← reservation_make r;
          if negb status then None else Some (false, (<[id := r]> tb, cs))
        else Some (true, (<[id := r]> tb, <[customerId := c]> cs))
    end
  end.

Definition manager_reserveCar (m : manager_t) (customerId carId : Z) : option (bool * manager_t) :=
  '(b, (tb, cs)) ← reserve (carTable m) (customerTable m) customerId carId RESERVATION_CAR;
  Some (b, with_customers (with_car m tb) cs).
Definition manager_reserveRoom (m : manager_t) (customerId roomId : Z) : option (bool * manager_t) :=
  '(b, (tb, cs)) ← reserve (roomTable m) (customerTable m) customerId roomId RESERVATION_ROOM;
  Some (b, with_customers (with_room m tb) cs).
Definition manager_reserveFlight (m : manager_t) (customerId flightId : Z) : option (bool * manager_t) :=
  '(b, (tb, cs)) ← reserve (flightTable m) (customerTable m) customerId flightId RESERVATION_FLIGHT;
  Some (b, with_customers (with_flight m tb) cs).
Definition manager_cancelCar (m : manager_t) (customerId carId : Z) : option (bool * manager_t) :=
  '(b, (tb, cs)) ← cancel (carTable m) (customerTable m) customerId carId RESERVATION_CAR;
  Some (b, with_customers (with_car m tb) cs).
Definition manager_cancelRoom (m : manager_t) (customerId roomId : Z) : option (bool * manager_t) :=
  '(b, (tb, cs)) ← cancel (roomTable m) (customerTable m) customerId roomId RESERVATION_ROOM;
  Some (b, with_customers (with_room m tb) cs).
Definition manager_cancelFlight (m : manager_t) (customerId flightId : Z) : option (bool * manager_t) :=
  '(b, (tb, cs)) ← cancel (flightTable m) (customerTable m) customerId flightId RESERVATION_FLIGHT;
  Some (b, with_customers (with_flight m tb) cs).

(** ** Consistency of a reservation *)

Record reservation_ok (r : reservation_t) : Prop := {
  ok_used : 0 <= numUsed r;
  ok_free : 0 <= numFree r;
  ok_total : numTotal r = numUsed r + numFree r;
  ok_bound : numTotal r < 2 ^ 31;
  ok_price : 0 <= price r;
}.

(** A value of type [long]. *)
Definition is_long (x : Z) : Prop := - 2 ^ 31 <= x < 2 ^ 31.

Lemma checkReservation_ok r :
  is_long (numUsed r) -> is_long (numFree r) -> is_long (numTotal r) ->
  checkReservation r = true <-> reservation_ok r.
Proof.
  unfold is_long, checkReservation. intros Hu Hf Ht. split.
  - intros H. zify_bool.
    destruct (Z.lt_ge_cases (numUsed r + numFree r) (2 ^ 31)).
    + rewrite s32_small in * by lia. split; lia.
    + rewrite s32_over in * by lia. lia.
  - intros []. rewrite s32_small by lia. bool_cases; simpl; lia.
Qed.

Lemma checkReservation_true r : reservation_ok r -> checkReservation r = true.
Proof. intros Hr. pose proof Hr as []. apply checkReservation_ok; unfold is_long; (lia || done). Qed.

Lemma checkReservation_seq_eq r : checkReservation_seq r = checkReservation r.
Proof.
  unfold checkReservation, checkReservation_seq. rewrite !Z.geb_leb, !Z.leb_antisym. done.
Qed.

Lemma reservation_make_ok r :
  reservation_ok r ->
  reservation_make r = Some (if numFree r <? 1 then (false, r)
    else (true, Reservation (r_id r) (numUsed r + 1) (numFree r - 1) (numTotal r) (price r))).
Proof.
  intros []. unfold reservation_make. destruct (Z.ltb_spec (numFree r) 1); [done|].
  rewrite !s32_small by lia. rewrite checkReservation_true; [done|]. split; simpl; lia.
Qed.

Lemma reservation_cancel_ok r :
  reservation_ok r ->
  reservation_cancel r = Some (if numUsed r <? 1 then (false, r)
    else (true, Reservation (r_id r) (numUsed r - 1) (numFree r + 1) (numTotal r) (price r))).
Proof.
  intros []. unfold reservation_cancel. destruct (Z.ltb_spec (numUsed r) 1); [done|].
  rewrite !s32_small by lia. rewrite checkReservation_true; [done|]. split; simpl; lia.
Qed.

(** Growth beyond [long] restarts the transaction, whatever the free count does. *)
Lemma reservation_addToTotal_ok r num :
  reservation_ok r -> is_long num ->
  reservation_addToTotal r num =
    if (numFree r + num <? 0) || (2 ^ 31 <=? numFree r + num) then Some (false, r)
    else if 2 ^ 31 <=? numTotal r + num then None
    else Some (true, Reservation (r_id r) (numUsed r) (numFree r + num) (numTotal r + num) (price r)).
Proof.
  unfold is_long, reservation_addToTotal. intros [] Hn.
  destruct (Z.ltb_spec (numFree r + num) 0).
  { rewrite s32_small by lia. by rewrite (proj2 (Z.ltb_lt _ _)). }
  destruct (Z.leb_spec (2 ^ 31) (numFree r + num)).
  { rewrite s32_over by lia. rewrite (proj2 (Z.ltb_lt _ 0)) by lia. done. }
  rewrite s32_small by lia. rewrite (proj2 (Z.ltb_ge _ 0)) by lia. cbn [orb].
  destruct (Z.leb_spec (2 ^ 31) (numTotal r + num)).
  - rewrite s32_over by lia. unfold checkReservation; cbn [numUsed numFree numTotal price].
    rewrite (proj2 (Z.ltb_lt (numTotal r + num - 2 ^ 32) 0)) by lia. rewrite !andb_false_r. done.
  - rewrite s32_small by lia. rewrite checkReservation_true; [done|]. split; simpl; lia.
Qed.

Lemma reservation_updatePrice_ok r p :
  reservation_ok r -> is_long p ->
  reservation_updatePrice r p = Some (if p <? 0 then (false, r)
    else (true, Reservation (r_id r) (numUsed r) (numFree r) (numTotal r) p)).
Proof.
  unfold is_long, reservation_updatePrice. intros [] Hp. destruct (Z.ltb_spec p 0); [done|].
  rewrite checkReservation_true; [done|]. split; simpl; lia.
Qed.

(** The sequential variants used for initialisation and checking are the same functions. *)
Lemma reservation_seq_eq r n :
  reservation_addToTotal_seq r n = reservation_addToTotal r n
  /\ reservation_updatePrice_seq r n = reservation_updatePrice r n
  /\ reservation_make_seq r = reservation_make r /\ reservation_cancel_seq r = reservation_cancel r.
Proof.
  unfold reservation_addToTotal_seq, reservation_updatePrice_seq, reservation_make_seq, reservation_cancel_seq.
  by rewrite !checkReservation_seq_eq.
Qed.

Lemma addReservation_seq_eq tb id num p : addReservation_seq tb id num p = addReservation tb id num p.
Proof.
  unfold addReservation_seq, addReservation, TMMAP_FIND, TMMAP_INSERT. destruct (tb !! id) as [r|] eqn:E.
  - rewrite (proj1 (reservation_seq_eq r num)).
    destruct (reservation_addToTotal r num) as [[ok r1]|]; [|done]. cbn [mbind option_bind].
    by rewrite (proj1 (proj2 (reservation_seq_eq r1 p))).
  - unfold reservation_alloc_seq, reservation_alloc. rewrite checkReservation_seq_eq.
    destruct (_ || _); [done|]. by destruct (checkReservation _).
Qed.

(** ** Keys of reservation infos

    On valid identifiers the 32-bit comparison is the comparison of (type, id) pairs. *)

Definition ri_key (i : reservation_info_t) : reservation_type_t * Z := (ri_type i, ri_id i).

Definition valid_id (id : Z) : Prop := 0 <= id < 2 ^ 31.

Definition key_compare (a b : reservation_info_t) : Z :=
  let d := type_code (ri_type a) - type_code (ri_type b) in
  if negb (d =? 0) then d else ri_id a - ri_id b.

#[global] Instance key_comparison : Comparison key_compare.
Proof.
  split; unfold key_compare; intros; bool_cases; simpl in *; try lia.
  all: repeat match goal with H : context [_ =? _] |- _ => revert H end; bool_cases; simpl; lia.
Qed.

Lemma key_compare_eq a b : key_compare a b = 0 <-> ri_key a = ri_key b.
Proof.
  unfold key_compare, ri_key. destruct a as [ta ia pa], b as [tb ib pb]; simpl.
  destruct ta, tb; simpl; split; intros H; simplify_eq; try lia; f_equal; lia.
Qed.

Lemma info_compare_key a b :
  valid_id (ri_id a) -> valid_id (ri_id b) -> reservation_info_compare a b = key_compare a b.
Proof.
  unfold valid_id, reservation_info_compare, key_compare. intros Ha Hb. rewrite s32_u32.
  rewrite (s32_small (ri_id a - ri_id b)) by lia.
  rewrite (s32_small (_ - _)); [done|]. destruct (ri_type a), (ri_type b); simpl; lia.
Qed.

Section lists.
Context (l : list reservation_info_t) (Hl : Forall (fun i => valid_id (ri_id i)) l).

Lemma info_lsplit x : valid_id (ri_id x) -> lsplit reservation_info_compare x l = lsplit key_compare x l.
Proof.
  intros Hx. induction Hl as [|y k Hy Hk IH]; simpl; [done|].
  rewrite info_compare_key by done. destruct (_ >=? 0); [done|]. by rewrite IH.
Qed.

Lemma info_lfind x : valid_id (ri_id x) -> lfind reservation_info_compare x l = lfind key_compare x l.
Proof.
  intros Hx. unfold lfind. rewrite info_lsplit by done.
  destruct (lsplit key_compare x l).2 as [|y post] eqn:E; [done|]. rewrite info_compare_key; [done| |done].
  assert (Hy : y ∈ l) by (rewrite <- (lsplit_app key_compare x l), E; set_solver).
  rewrite Forall_forall in Hl. by apply Hl.
Qed.

Lemma info_linsert nd x : valid_id (ri_id x) -> linsert reservation_info_compare nd x l = linsert key_compare nd x l.
Proof. intros Hx. unfold linsert. by rewrite info_lfind, info_lsplit. Qed.

Lemma info_lremove x : valid_id (ri_id x) -> lremove reservation_info_compare x l = lremove key_compare x l.
Proof.
  intros Hx. unfold lremove. rewrite info_lsplit by done.
  destruct (lsplit key_compare x l).2 as [|y post] eqn:E; [done|]. rewrite info_compare_key; [done| |done].
  assert (Hy : y ∈ l) by (rewrite <- (lsplit_app key_compare x l), E; set_solver).
  rewrite Forall_forall in Hl. by apply Hl.
Qed.
End lists.

(** Whether a customer's list has a reservation of the resource. *)
Definition has (t : reservation_type_t) (id : Z) (l : list reservation_info_t) : bool :=
  bool_decide ((t, id) ∈ ri_key <$> l).

Record customer_ok (c : customer_t) : Prop := {
  ok_sorted : strict key_compare (reservationInfoList c);
  ok_ids : Forall (fun i => valid_id (ri_id i)) (reservationInfoList c);
  ok_prices : Forall (fun i => 0 <= ri_price i) (reservationInfoList c);
}.

Lemma strict_keys l : strict key_compare l -> NoDup (ri_key <$> l).
Proof.
  unfold strict. induction 1 as [|x l Hs IH Hx]; csimpl; constructor; [|done].
  intros (y & Hy & Hin)%list_elem_of_fmap. rewrite Forall_forall in Hx. specialize (Hx y Hin).
  unfold clt in Hx. apply key_compare_eq in Hy. lia.
Qed.

Lemma lfind_has t id p l :
  strict key_compare l -> bool_decide (is_Some (lfind key_compare (ReservationInfo t id p) l)) = has t id l.
Proof.
  intros Hs. apply bool_decide_ext. rewrite list_elem_of_fmap. split.
  - intros [y Hy]. apply lfind_Some in Hy as [Hin Hk]; [|apply _]. apply key_compare_eq in Hk. eauto.
  - intros (y & Hk & Hin). exists y. apply lfind_class; [apply _|done|done|]. by apply key_compare_eq.
Qed.

(** Adding a reservation succeeds unless the customer has it, and adds that key. *)
Lemma addReservationInfo_ok c t id p :
  customer_ok c -> valid_id id -> 0 <= p ->
  if has t id (reservationInfoList c) then customer_addReservationInfo c t id p = (false, c)
  else exists l, customer_addReservationInfo c t id p = (true, Customer (c_id c) l)
    /\ l ≡ₚ ReservationInfo t id p :: reservationInfoList c /\ customer_ok (Customer (c_id c) l).
Proof.
  intros [Hs Hi Hpr] Hid Hp0. unfold customer_addReservationInfo, compareReservationInfo, reservation_info_alloc.
  rewrite info_linsert by done.
  pose proof (lfind_has t id p _ Hs) as Hh.
  destruct (linsert key_compare true (ReservationInfo t id p) (reservationInfoList c)) as [l|] eqn:E.
  - pose proof (linsert_perm _ _ _ _ _ E) as Hp. pose proof (linsert_strict _ _ _ _ Hs E) as Hs'.
    unfold linsert in E. cbn [andb] in E. rewrite Hh in E. destruct (has t id _); [done|].
    exists l. split_and!; [done|done|]. by split; [|cbn [reservationInfoList]; rewrite Hp; constructor..].
  - unfold linsert in E. cbn [andb] in E. rewrite Hh in E. by destruct (has t id _).
Qed.

Lemma removeReservationInfo_ok c t id :
  customer_ok c -> valid_id id ->
  if has t id (reservationInfoList c) then
    exists l p, customer_removeReservationInfo c t id = Some (true, Customer (c_id c) l)
      /\ reservationInfoList c ≡ₚ ReservationInfo t id p :: l /\ customer_ok (Customer (c_id c) l)
  else customer_removeReservationInfo c t id = Some (false, c).
Proof.
  intros [Hs Hi Hpr] Hid. unfold customer_removeReservationInfo, compareReservationInfo.
  rewrite info_lfind, info_lremove by done. pose proof (lfind_has t id 0 _ Hs) as Hh.
  destruct (lfind key_compare (ReservationInfo t id 0) (reservationInfoList c)) as [y|] eqn:Ef.
  - rewrite <- Hh. cbn.
    destruct (lremove key_compare (ReservationInfo t id 0) (reservationInfoList c)) as [l|] eqn:E.
    + destruct (lremove_Some _ _ _ _ E) as (z & Hz & Hp). rewrite Ef in Hz. simplify_eq.
      apply lfind_Some in Ef as [_ Hk]; [|apply _]. apply key_compare_eq in Hk.
      destruct z as [tz iz pz]. unfold ri_key in Hk. simplify_eq/=.
      exists l, pz. split_and!; [done|done|]. split; cbn [reservationInfoList].
      * by apply (lremove_strict key_compare (ReservationInfo t id 0) (reservationInfoList c)).
      * rewrite Hp in Hi. by apply Forall_cons in Hi as [_ ?].
      * rewrite Hp in Hpr. by apply Forall_cons in Hpr as [_ ?].
    + apply lremove_None in E. congruence.
  - rewrite <- Hh. done.
Qed.

Lemma has_perm t id l k : l ≡ₚ k -> has t id l = has t id k.
Proof. intros H. apply bool_decide_ext. by rewrite H. Qed.

Lemma has_cons t id i l :
  has t id (i :: l) = bool_decide (ri_key i = (t, id)) || has t id l.
Proof.
  unfold has. csimpl. rewrite <- bool_decide_or. apply bool_decide_ext. rewrite elem_of_cons. naive_solver.
Qed.

(** ** The invariant of the database *)

Definition used (m : manager_t) (t : reservation_type_t) (id : Z) : Z :=
  match table m t !! id with Some r => numUsed r | None => 0 end.

(** The number of customers that hold a reservation of the resource. *)
Definition holders (cs : MAP_T customer_t) (t : reservation_type_t) (id : Z) : Z :=
  msum (fun c => Z.b2z (has t id (reservationInfoList c))) cs.

Definition table_ok (tb : MAP_T reservation_t) : Prop :=
  forall id r, tb !! id = Some r -> reservation_ok r /\ r_id r = id /\ 1 <= numTotal r.

Definition customers_ok (cs : MAP_T customer_t) : Prop :=
  forall cid c, cs !! cid = Some c -> customer_ok c /\ c_id c = cid.

Record manager_ok (m : manager_t) : Prop := {
  inv_tables : forall t, table_ok (table m t);
  inv_customers : customers_ok (customerTable m);
  inv_used : forall t id, used m t id = holders (customerTable m) t id;
}.

Lemma table_set m t tb t' : table (set_table m t tb) t' = if decide (t' = t) then tb else table m t'.
Proof. by destruct t, t'. Qed.

Lemma customerTable_set m t tb : customerTable (set_table m t tb) = customerTable m.
Proof. by destruct t. Qed.

Lemma table_customers m cs t : table (with_customers m cs) t = table m t.
Proof. by destruct t. Qed.

Lemma table_ok_insert tb id r :
  table_ok tb -> reservation_ok r -> r_id r = id -> 1 <= numTotal r -> table_ok (<[id := r]> tb).
Proof.
  intros Ht Hr Hid H1 id' r'. destruct (decide (id' = id)) as [-> |].
  - rewrite lookup_insert_eq. by intros [= <-].
  - rewrite lookup_insert_ne by done. apply Ht.
Qed.

Lemma used_set m t tb t' id :
  used (set_table m t tb) t' id
  = if decide (t' = t) then match tb !! id with Some r => numUsed r | None => 0 end else used m t' id.
Proof. unfold used. rewrite table_set. by destruct (decide (t' = t)). Qed.

Lemma used_customers m cs t id : used (with_customers m cs) t id = used m t id.
Proof. unfold used. by rewrite table_customers. Qed.

Lemma used_insert m t id r t' id' :
  used (set_table m t (<[id := r]> (table m t))) t' id'
  = if decide ((t', id') = (t, id)) then numUsed r else used m t' id'.
Proof.
  rewrite used_set. destruct (decide (t' = t)) as [-> |Ht].
  - destruct (decide (id' = id)) as [-> |Hid].
    + rewrite lookup_insert_eq. by rewrite decide_True.
    + rewrite lookup_insert_ne by done. rewrite decide_False by congruence. done.
  - rewrite decide_False by congruence. done.
Qed.

(** Changing only counts that do not enter the invariant. *)
Lemma manager_ok_set m t tb :
  manager_ok m -> table_ok tb ->
  (forall id, match tb !! id with Some r => numUsed r | None => 0 end = used m t id) ->
  manager_ok (set_table m t tb).
Proof.
  intros [Ht Hc Hu] Htb Hus. split.
  - intros t'. rewrite table_set. destruct (decide (t' = t)); [done|apply Ht].
  - by rewrite customerTable_set.
  - intros t' id. rewrite customerTable_set, used_set, <- Hu.
    destruct (decide (t' = t)) as [-> |]; [apply Hus|done].
Qed.

Lemma holders_insert cs cid c c' t id :
  cs !! cid = Some c ->
  holders (<[cid := c']> cs) t id
  = holders cs t id - Z.b2z (has t id (reservationInfoList c)) + Z.b2z (has t id (reservationInfoList c')).
Proof. intros H. unfold holders. by rewrite (msum_insert _ _ _ _ _ H). Qed.

Lemma holders_le cs cid c t id :
  cs !! cid = Some c -> has t id (reservationInfoList c) = true -> 1 <= holders cs t id.
Proof.
  intros H Hh. unfold holders.
  pose proof (msum_elem_le (fun c => Z.b2z (has t id (reservationInfoList c))) cs cid c
    (fun x => b2z_nonneg _) H) as Hle. simpl in Hle. rewrite Hh in Hle. exact Hle.
Qed.

(** A reservation held by a customer is in its table, and counted there. *)
Lemma held_present m cid c t id :
  manager_ok m -> customerTable m !! cid = Some c -> has t id (reservationInfoList c) = true ->
  exists r, table m t !! id = Some r /\ 1 <= numUsed r.
Proof.
  intros [Ht Hc Hu] Hcid Hh. pose proof (holders_le _ _ _ _ _ Hcid Hh) as H1.
  rewrite <- Hu in H1. unfold used in H1. destruct (table m t !! id) as [r|]; [by exists r|lia].
Qed.

Lemma same_used (tb : MAP_T reservation_t) id r r' :
  tb !! id = Some r -> numUsed r' = numUsed r ->
  forall id', match <[id := r']> tb !! id' with Some r => numUsed r | None => 0 end
              = match tb !! id' with Some r => numUsed r | None => 0 end.
Proof.
  intros E Hu id'. destruct (decide (id' = id)) as [-> |]; [|by rewrite lookup_insert_ne].
  by rewrite lookup_insert_eq, E.
Qed.

(** [addReservation] on a consistent table: [None] (a restart) exactly when the total
    would not be a [long]. *)
Lemma addReservation_ok tb id num p :
  table_ok tb -> is_long num -> is_long p ->
  match addReservation tb id num p with
  | Some (b, tb') => table_ok tb' /\ (b = false -> tb' = tb)
      /\ forall id', match tb' !! id' with Some r => numUsed r | None => 0 end
                     = match tb !! id' with Some r => numUsed r | None => 0 end
  | None => exists r, tb !! id = Some r /\ 2 ^ 31 <= numTotal r + num
  end.
Proof.
  intros Ht Hn Hp. unfold addReservation, TMMAP_FIND, TMMAP_INSERT, TMMAP_REMOVE.
  destruct (tb !! id) as [r|] eqn:E.
  - destruct (Ht id r E) as (Hr & Hid & H1). rewrite reservation_addToTotal_ok by done.
    destruct ((numFree r + num <? 0) || (2 ^ 31 <=? numFree r + num)) eqn:Ef.
    { cbn. rewrite insert_id by done. done. }
    destruct (Z.leb_spec (2 ^ 31) (numTotal r + num)) as [Hov|Hov]; [cbn; eauto|].
    apply orb_false_iff in Ef as [Hf1 Hf2]. zify_bool. destruct Hr as [Hr1 Hr2 Hr3 Hr4 Hr5].
    cbn [mbind option_bind negb]. cbn [numTotal].
    destruct (Z.eqb_spec (numTotal r + num) 0) as [H0|H0].
    + rewrite lookup_insert_eq, delete_insert_eq. split_and!; [|done|].
      * intros id' r' Hr'. apply lookup_delete_Some in Hr' as [_ Hr']. by apply Ht.
      * intros id'. destruct (decide (id' = id)) as [-> |]; [|by rewrite lookup_delete_ne].
        rewrite lookup_delete_eq, E. lia.
    + rewrite reservation_updatePrice_ok; [|split; simpl; lia|done]. cbn [mbind option_bind].
      destruct (Z.ltb_spec p 0); rewrite insert_insert_eq; (split_and!; [|done|]);
        first [apply table_ok_insert; [done|split; simpl; lia|done|simpl; lia]|by apply (same_used tb id r)].
  - destruct (Z.ltb_spec num 1); cbn [orb]; [done|]. destruct (Z.ltb_spec p 0); [done|].
    unfold is_long in *. unfold reservation_alloc.
    assert (Hok : reservation_ok (Reservation id 0 num num p)) by (split; simpl; lia).
    rewrite checkReservation_true by done. cbn. split_and!; [|done|].
    + by apply table_ok_insert.
    + intros id'. destruct (decide (id' = id)) as [-> |]; [|by rewrite lookup_insert_ne].
      rewrite lookup_insert_eq, E. done.
Qed.

(** ** Reserving and cancelling *)

(** The reservation after one more unit is taken, and after one is given back. *)
Definition taken (r : reservation_t) : reservation_t :=
  Reservation (r_id r) (numUsed r + 1) (numFree r - 1) (numTotal r) (price r).
Definition returned (r : reservation_t) : reservation_t :=
  Reservation (r_id r) (numUsed r - 1) (numFree r + 1) (numTotal r) (price r).

Lemma returned_taken r : returned (taken r) = r.
Proof. destruct r. unfold returned, taken. simpl. f_equal; lia. Qed.

Lemma taken_returned r : taken (returned r) = r.
Proof. destruct r. unfold returned, taken. simpl. f_equal; lia. Qed.

Lemma taken_ok r : reservation_ok r -> 1 <= numFree r -> reservation_ok (taken r).
Proof. intros [] ?. split; simpl; lia. Qed.

Lemma returned_ok r : reservation_ok r -> 1 <= numUsed r -> reservation_ok (returned r).
Proof. intros [] ?. split; simpl; lia. Qed.

(** [reserve] succeeds exactly when the customer and the resource exist, a unit is free
    and the customer does not hold one already; otherwise nothing changes. *)
Lemma reserve_ok tb cs cid id t :
  table_ok tb -> customers_ok cs -> valid_id id ->
  match cs !! cid, tb !! id with
  | Some c, Some r =>
    if (numFree r <? 1) || has t id (reservationInfoList c)
    then reserve tb cs cid id t = Some (false, (tb, cs))
    else exists c', reserve tb cs cid id t = Some (true, (<[id := taken r]> tb, <[cid := c']> cs))
      /\ reservationInfoList c' ≡ₚ ReservationInfo t id (price r) :: reservationInfoList c
      /\ customer_ok c' /\ c_id c' = cid
  | _, _ => reserve tb cs cid id t = Some (false, (tb, cs))
  end.
Proof.
  intros Ht Hc Hid. unfold reserve, TMMAP_FIND.
  destruct (cs !! cid) as [c|] eqn:Ec; [|done]. destruct (tb !! id) as [r|] eqn:Er; [|done].
  destruct (Ht id r Er) as (Hr & Hri & H1). destruct (Hc cid c Ec) as (Hco & Hci).
  rewrite reservation_make_ok by done. destruct (Z.ltb_spec (numFree r) 1) as [Hf|Hf].
  { cbn. by rewrite insert_id. }
  cbn [mbind option_bind negb orb]. change (Reservation _ _ _ _ _) with (taken r).
  pose proof (addReservationInfo_ok c t id (price r) Hco Hid (ok_price r Hr)) as Ha. change (price (taken r)) with (price r).
  destruct (has t id (reservationInfoList c)).
  - rewrite Ha. cbn [negb]. rewrite reservation_cancel_ok by by apply taken_ok.
    destruct Hr. destruct (Z.ltb_spec (numUsed (taken r)) 1); [simpl in *; lia|].
    cbn [mbind option_bind negb]. change (Reservation _ _ _ _ _) with (returned (taken r)).
    by rewrite returned_taken, insert_id.
  - destruct Ha as (l & -> & Hp & Hok). cbn [negb]. eauto.
Qed.

(** [cancel] succeeds exactly when the customer holds the resource. *)
Lemma cancel_ok tb cs cid id t :
  table_ok tb -> customers_ok cs -> valid_id id ->
  (forall c, cs !! cid = Some c -> has t id (reservationInfoList c) = true ->
     exists r, tb !! id = Some r /\ 1 <= numUsed r) ->
  match cs !! cid, tb !! id with
  | Some c, Some r =>
    if has t id (reservationInfoList c)
    then exists c' p, cancel tb cs cid id t = Some (true, (<[id := returned r]> tb, <[cid := c']> cs))
      /\ reservationInfoList c ≡ₚ ReservationInfo t id p :: reservationInfoList c'
      /\ customer_ok c' /\ c_id c' = cid
    else cancel tb cs cid id t = Some (false, (tb, cs))
  | _, _ => cancel tb cs cid id t = Some (false, (tb, cs))
  end.
Proof.
  intros Ht Hc Hid Hheld. unfold cancel, TMMAP_FIND.
  destruct (cs !! cid) as [c|] eqn:Ec; [|done]. destruct (tb !! id) as [r|] eqn:Er; [|done].
  destruct (Ht id r Er) as (Hr & Hri & H1). destruct (Hc cid c Ec) as (Hco & Hci).
  specialize (Hheld c eq_refl). pose proof (removeReservationInfo_ok c t id Hco Hid) as Hrm.
  rewrite reservation_cancel_ok by done. destruct (Z.ltb_spec (numUsed r) 1) as [Hu|Hu].
  { destruct (has t id (reservationInfoList c)).
    - destruct (Hheld eq_refl) as (r' & [= <-] & ?). lia.
    - cbn. by rewrite insert_id. }
  cbn [mbind option_bind negb]. change (Reservation _ _ _ _ _) with (returned r).
  destruct (has t id (reservationInfoList c)).
  - destruct Hrm as (l & p & -> & Hp & Hok). cbn [mbind option_bind negb]. eauto 10.
  - rewrite Hrm. cbn [mbind option_bind negb].
    rewrite reservation_make_ok by (apply returned_ok; [done|lia]).
    destruct Hr. destruct (Z.ltb_spec (numFree (returned r)) 1); [simpl in *; lia|].
    cbn [mbind option_bind negb]. change (Reservation _ _ _ _ _) with (taken (returned r)).
    by rewrite taken_returned, insert_id.
Qed.

(** The operations of [manager.c], uniformly in the table. *)
Definition add_on (t : reservation_type_t) (m : manager_t) (id num p : Z) : option (bool * manager_t) :=
  '(b, tb) ← addReservation (table m t) id num p; Some (b, set_table m t tb).
Definition reserve_on (t : reservation_type_t) (m : manager_t) (cid id : Z) : option (bool * manager_t) :=
  '(b, (tb, cs)) ← reserve (table m t) (customerTable m) cid id t;
  Some (b, with_customers (set_table m t tb) cs).
Definition cancel_on (t : reservation_type_t) (m : manager_t) (cid id : Z) : option (bool * manager_t) :=
  '(b, (tb, cs)) ← cancel (table m t) (customerTable m) cid id t;
  Some (b, with_customers (set_table m t tb) cs).

Lemma set_table_id m t : with_customers (set_table m t (table m t)) (customerTable m) = m.
Proof. by destruct m, t. Qed.

Lemma set_table_same m t : set_table m t (table m t) = m.
Proof. by destruct m, t. Qed.

(** Moving one unit between a table and a customer keeps the books. *)
Lemma manager_ok_move m t id r r' cid c c' :
  manager_ok m -> table m t !! id = Some r -> customerTable m !! cid = Some c ->
  reservation_ok r' -> r_id r' = id -> 1 <= numTotal r' -> customer_ok c' -> c_id c' = cid ->
  (forall t' id', Z.b2z (has t' id' (reservationInfoList c')) - Z.b2z (has t' id' (reservationInfoList c))
     = if decide ((t', id') = (t, id)) then numUsed r' - numUsed r else 0) ->
  manager_ok (with_customers (set_table m t (<[id := r']> (table m t))) (<[cid := c']> (customerTable m))).
Proof.
  intros [Ht Hc Hu] Hr Hcid Hok Hri Htot Hcok Hci Hdiff. split.
  - intros t'. rewrite table_customers, table_set. destruct (decide (t' = t)) as [-> |]; [|apply Ht].
    apply table_ok_insert; [apply Ht|done..].
  - intros cid' c0. cbn [customerTable with_customers]. destruct (decide (cid' = cid)) as [-> |].
    + rewrite lookup_insert_eq. by intros [= <-].
    + rewrite lookup_insert_ne by done. apply Hc.
  - intros t' id'. rewrite used_customers, used_insert. cbn [customerTable with_customers].
    rewrite (holders_insert _ _ c) by done. specialize (Hdiff t' id'). rewrite <- Hu.
    destruct (decide ((t', id') = (t, id))) as [[= -> ->]|]; [|lia].
    assert (used m t id = numUsed r) by (unfold used; by rewrite Hr). lia.
Qed.

Lemma has_added l l' t id p t' id' :
  has t id l = false -> l' ≡ₚ ReservationInfo t id p :: l ->
  Z.b2z (has t' id' l') - Z.b2z (has t' id' l) = if decide ((t', id') = (t, id)) then 1 else 0.
Proof.
  intros Hn Hp. rewrite (has_perm _ _ _ _ Hp), has_cons. unfold ri_key. cbn [ri_type ri_id].
  destruct (decide ((t', id') = (t, id))) as [[= -> ->]|Hne].
  - rewrite bool_decide_true by done. rewrite Hn. done.
  - rewrite bool_decide_false by congruence. simpl. lia.
Qed.

Lemma has_new l l' t id p : NoDup (ri_key <$> l') -> l' ≡ₚ ReservationInfo t id p :: l -> has t id l = false.
Proof.
  intros Hnd Hp. rewrite Hp in Hnd. csimpl in Hnd. apply NoDup_cons in Hnd as [Hn _].
  by apply bool_decide_eq_false_2.
Qed.

(** The result of a transaction: the state of the database, never a restart. *)
Lemma reserve_on_ok m t cid id :
  manager_ok m -> valid_id id ->
  exists b m', reserve_on t m cid id = Some (b, m') /\ manager_ok m' /\ (b = false -> m' = m).
Proof.
  intros Hm Hid. unfold reserve_on. pose proof (reserve_ok (table m t) (customerTable m) cid id t
    (inv_tables m Hm t) (inv_customers m Hm) Hid) as Hr.
  destruct (customerTable m !! cid) as [c|] eqn:Ec;
    [|rewrite Hr; cbn; rewrite set_table_id; by exists false, m].
  destruct (table m t !! id) as [r|] eqn:Er;
    [|rewrite Hr; cbn; rewrite set_table_id; by exists false, m].
  destruct (Z.ltb_spec (numFree r) 1) as [|Hf]; cbn [orb] in Hr;
    [rewrite Hr; cbn; rewrite set_table_id; by exists false, m|].
  destruct (has t id (reservationInfoList c)) eqn:Eh;
    [rewrite Hr; cbn; rewrite set_table_id; by exists false, m|].
  destruct Hr as (c' & -> & Hp & Hok & Hci). cbn [mbind option_bind].
  eexists true, _. split_and!; [done| |done].
  destruct (inv_tables m Hm t id r Er) as (Hro & Hri & Htot).
  apply (manager_ok_move m t id r (taken r) cid c c'); try done.
  - by apply taken_ok.
  - intros t' id'. erewrite has_added by done. cbn [numUsed taken]. destruct (decide _); lia.
Qed.

Lemma cancel_on_ok m t cid id :
  manager_ok m -> valid_id id ->
  exists b m', cancel_on t m cid id = Some (b, m') /\ manager_ok m' /\ (b = false -> m' = m)
    /\ (b = true <-> exists c, customerTable m !! cid = Some c /\ has t id (reservationInfoList c) = true).
Proof.
  intros Hm Hid. unfold cancel_on. pose proof (cancel_ok (table m t) (customerTable m) cid id t
    (inv_tables m Hm t) (inv_customers m Hm) Hid (fun c => held_present m cid c t id Hm)) as Hr.
  destruct (customerTable m !! cid) as [c|] eqn:Ec.
  2: { rewrite Hr. cbn. rewrite set_table_id. exists false, m. naive_solver. }
  pose proof (held_present m cid c t id Hm Ec) as Hheld.
  destruct (table m t !! id) as [r|] eqn:Er.
  2: { rewrite Hr. cbn. rewrite set_table_id. exists false, m. split_and!; try done.
       split; [done|]. intros (c1 & [= <-] & Hh). destruct (Hheld Hh) as (? & ? & ?). done. }
  destruct (has t id (reservationInfoList c)) eqn:Eh.
  2: { rewrite Hr. cbn. rewrite set_table_id. exists false, m. split_and!; try done.
       split; [done|]. intros (c1 & [= <-] & Hh). congruence. }
  destruct Hr as (c' & p & -> & Hp & Hok & Hci). cbn [mbind option_bind].
  eexists true, _. split_and!; [done| |done|naive_solver].
  destruct (inv_tables m Hm t id r Er) as (Hro & Hri & Htot).
  destruct (Hheld eq_refl) as (r1 & [= <-] & Hu1).
  apply (manager_ok_move m t id r (returned r) cid c c'); try done.
  - by apply returned_ok.
  - intros t' id'.
    pose proof (has_added (reservationInfoList c') (reservationInfoList c) t id p t' id'
      (has_new _ _ _ _ _ (strict_keys _ (ok_sorted c (proj1 (inv_customers m Hm cid c Ec)))) Hp) Hp).
    cbn [numUsed returned]. destruct (decide _); lia.
Qed.

(** The loop of [manager_deleteCustomer] gives back every unit of the list. *)
Lemma cancel_all_ok l : forall m,
  (forall t, table_ok (table m t)) -> NoDup (ri_key <$> l) ->
  (forall i, i ∈ l -> 1 <= used m (ri_type i) (ri_id i)) ->
  exists m', cancel_all l m = Some m' /\ customerTable m' = customerTable m
    /\ (forall t, table_ok (table m' t))
    /\ forall t id, used m' t id = used m t id - Z.b2z (has t id l).
Proof.
  induction l as [|i l IH]; intros m Ht Hnd Hu.
  { exists m. split_and!; try done. intros. simpl. lia. }
  csimpl in Hnd. apply NoDup_cons in Hnd as [Hn Hnd]. pose proof (Hu i ltac:(left)) as H1.
  simpl. unfold TMMAP_FIND. unfold used in H1.
  destruct (table m (ri_type i) !! ri_id i) as [r|] eqn:Er; [|lia].
  destruct (Ht _ _ _ Er) as (Hr & Hri & Htot). rewrite reservation_cancel_ok by done.
  destruct (Z.ltb_spec (numUsed r) 1); [lia|]. cbn [mbind option_bind].
  change (Reservation _ _ _ _ _) with (returned r).
  set (m1 := set_table m (ri_type i) (<[ri_id i := returned r]> (table m (ri_type i)))).
  assert (Hused1 : forall t id, used m1 t id = used m t id - Z.b2z (bool_decide (ri_key i = (t, id)))).
  { intros t id. subst m1. rewrite used_insert. unfold ri_key.
    destruct (decide ((t, id) = (ri_type i, ri_id i))) as [[= -> ->]|Hne].
    - rewrite bool_decide_true by done. unfold used. rewrite Er. done.
    - rewrite bool_decide_false by congruence. simpl. lia. }
  destruct (IH m1) as (m' & Hc & Hcs & Ht' & Hu').
  - intros t. subst m1. rewrite table_set. destruct (decide (t = ri_type i)); [|done].
    apply table_ok_insert; [done|by apply returned_ok|done|done].
  - done.
  - intros j Hj. rewrite Hused1, bool_decide_false.
    + simpl. rewrite Z.sub_0_r. apply Hu. by right.
    + intros Hk. apply Hn. rewrite Hk. by apply (list_elem_of_fmap_2 ri_key).
  - exists m'. split_and!; [done|by rewrite Hcs; apply customerTable_set|done|].
    intros t id. rewrite Hu', Hused1, has_cons.
    case_bool_decide as Hk; simpl; [|lia].
    assert (has t id l = false) as ->; [|simpl; lia].
    apply bool_decide_eq_false_2. by rewrite <- Hk.
Qed.

Lemma deleteCustomer_ok m cid :
  manager_ok m ->
  exists m', manager_deleteCustomer m cid = Some (bool_decide (is_Some (customerTable m !! cid)), m')
    /\ manager_ok m' /\ customerTable m' = delete cid (customerTable m).
Proof.
  intros Hm. unfold manager_deleteCustomer, TMMAP_FIND, TMMAP_REMOVE.
  destruct (customerTable m !! cid) as [c|] eqn:Ec.
  2: { exists m. split_and!; [done|done|]. symmetry. by apply delete_id. }
  destruct (inv_customers m Hm cid c Ec) as [Hcok Hci].
  destruct (cancel_all_ok (reservationInfoList c) m) as (m' & -> & Hcs & Ht' & Hu').
  - apply Hm.
  - apply strict_keys, Hcok.
  - intros i Hi. rewrite (inv_used m Hm). eapply holders_le; [exact Ec|].
    apply bool_decide_eq_true_2. change (ri_type i, ri_id i) with (ri_key i). by apply (list_elem_of_fmap_2 ri_key).
  - cbn [mbind option_bind]. rewrite Hcs, Ec. eexists. split_and!; [done| |by rewrite <- Hcs].
    split.
    + intros t. by rewrite table_customers.
    + intros cid' c' Hc'. cbn [customerTable with_customers] in Hc'.
      apply lookup_delete_Some in Hc' as [_ Hc']. by apply (inv_customers m Hm).
    + intros t id. rewrite used_customers, Hu', (inv_used m Hm). cbn [customerTable with_customers].
      unfold holders. rewrite (msum_delete _ _ _ c) by done. done.
Qed.

(** ** The transactions of the clients *)

Inductive action :=
| AddCar (id num p : Z) | AddRoom (id num p : Z) | AddFlight (id num p : Z)
| DeleteCar (id num : Z) | DeleteRoom (id num : Z) | DeleteFlight (id : Z)
| AddCustomer (cid : Z) | DeleteCustomer (cid : Z)
| ReserveCar (cid id : Z) | ReserveRoom (cid id : Z) | ReserveFlight (cid id : Z)
| CancelCar (cid id : Z) | CancelRoom (cid id : Z) | CancelFlight (cid id : Z).

Definition perform (a : action) (m : manager_t) : option (bool * manager_t) :=
  match a with
  | AddCar id num p => manager_addCar m id num p
  | AddRoom id num p => manager_addRoom m id num p
  | AddFlight id num p => manager_addFlight m id num p
  | DeleteCar id num => manager_deleteCar m id num
  | DeleteRoom id num => manager_deleteRoom m id num
  | DeleteFlight id => manager_deleteFlight m id
  | AddCustomer cid => manager_addCustomer m cid
  | DeleteCustomer cid => manager_deleteCustomer m cid
  | ReserveCar cid id => manager_reserveCar m cid id
  | ReserveRoom cid id => manager_reserveRoom m cid id
  | ReserveFlight cid id => manager_reserveFlight m cid id
  | CancelCar cid id => manager_cancelCar m cid id
  | CancelRoom cid id => manager_cancelRoom m cid id
  | CancelFlight cid id => manager_cancelFlight m cid id
  end.

(** Arguments are [long], and the identifiers reserved are not negative. *)
Definition action_valid (a : action) : Prop :=
  match a with
  | AddCar _ num p | AddRoom _ num p | AddFlight _ num p => is_long num /\ is_long p
  | DeleteCar _ num | DeleteRoom _ num => is_long num
  | ReserveCar _ id | ReserveRoom _ id | ReserveFlight _ id
  | CancelCar _ id | CancelRoom _ id | CancelFlight _ id => valid_id id
  | DeleteFlight _ | AddCustomer _ | DeleteCustomer _ => True
  end.

#[global] Instance action_valid_dec a : Decision (action_valid a).
Proof. destruct a; simpl; unfold is_long, valid_id; apply _. Defined.

(** A transaction that restarts leaves the database as it was. *)
Definition vacation_step (a : action) (m : manager_t) : option manager_t :=
  if decide (action_valid a) then snd <$> perform a m else None.

(** The transactions that may restart: additions to an existing resource. *)
Definition overflows (a : action) (m : manager_t) : Prop :=
  let over t id num := exists r, table m t !! id = Some r /\ 2 ^ 31 <= numTotal r + num in
  match a with
  | AddCar id num _ => over RESERVATION_CAR id num
  | AddRoom id num _ => over RESERVATION_ROOM id num
  | AddFlight id num _ => over RESERVATION_FLIGHT id num
  | DeleteCar id num => over RESERVATION_CAR id (s32 (- num))
  | DeleteRoom id num => over RESERVATION_ROOM id (s32 (- num))
  | _ => False
  end.

Lemma add_on_ok t m id num p :
  manager_ok m -> is_long num -> is_long p ->
  match add_on t m id num p with
  | Some (b, m') => manager_ok m' /\ (b = false -> m' = m)
  | None => exists r, table m t !! id = Some r /\ 2 ^ 31 <= numTotal r + num
  end.
Proof.
  intros Hm Hn Hp. unfold add_on.
  pose proof (addReservation_ok (table m t) id num p (inv_tables m Hm t) Hn Hp) as H.
  destruct (addReservation (table m t) id num p) as [[b tb]|]; [|done].
  destruct H as (Htb & Hf & Hu). cbn [mbind option_bind]. split.
  - by apply manager_ok_set.
  - intros Hb. rewrite (Hf Hb). apply set_table_same.
Qed.

Lemma addCustomer_ok m cid :
  manager_ok m ->
  manager_addCustomer m cid =
    Some (match customerTable m !! cid with
          | Some _ => (false, m)
          | None => (true, with_customers m (<[cid := Customer cid []]> (customerTable m)))
          end)
  /\ (customerTable m !! cid = None ->
      manager_ok (with_customers m (<[cid := Customer cid []]> (customerTable m)))).
Proof.
  intros [Ht Hc Hu]. split.
  - unfold manager_addCustomer, TMMAP_CONTAINS, TMMAP_INSERT.
    destruct (customerTable m !! cid) as [c|] eqn:E; done.
  - intros E. split.
    + intros t. rewrite table_customers. apply Ht.
    + intros cid' c'. cbn [customerTable with_customers]. destruct (decide (cid' = cid)) as [-> |].
      * rewrite lookup_insert_eq. intros [= <-]. split; [|done]. split; constructor.
      * rewrite lookup_insert_ne by done. apply Hc.
    + intros t id. rewrite used_customers, Hu. unfold holders. cbn [customerTable with_customers].
      by rewrite msum_insert_new.
Qed.

Lemma deleteFlight_ok m id :
  manager_ok m ->
  exists b m', manager_deleteFlight m id = Some (b, m') /\ manager_ok m' /\ (b = false -> m' = m)
    /\ (b = true <-> is_Some (flightTable m !! id) /\ used m RESERVATION_FLIGHT id = 0)
    /\ (b = true -> flightTable m' = delete id (flightTable m)).
Proof.
  intros Hm. unfold manager_deleteFlight, TMMAP_FIND, used. simpl.
  destruct (flightTable m !! id) as [r|] eqn:E.
  2: { exists false, m. split_and!; try done. split; [done|]. intros [[? ?] _]. done. }
  destruct (inv_tables m Hm RESERVATION_FLIGHT id r E) as ([] & Hri & Htot).
  rewrite Z.gtb_ltb. destruct (Z.ltb_spec 0 (numUsed r)).
  { exists false, m. split_and!; try done. split; [done|]. intros [_ ?]. lia. }
  pose proof (add_on_ok RESERVATION_FLIGHT m id (-1 * numTotal r) (-1) Hm) as Ha.
  rewrite s32_small by lia. unfold add_on in Ha. simpl table in Ha.
  assert (Hadd : addReservation (flightTable m) id (-1 * numTotal r) (-1)
    = Some (true, delete id (flightTable m))).
  { unfold addReservation, TMMAP_FIND. rewrite E, reservation_addToTotal_ok; [|by split; lia|unfold is_long; lia].
    assert (numFree r + -1 * numTotal r = 0) as -> by lia. assert (numTotal r + -1 * numTotal r = 0) as -> by lia.
    change (2 ^ 31 <=? 0) with false. cbn. unfold TMMAP_REMOVE. rewrite lookup_insert_eq, delete_insert_eq. done. }
  rewrite Hadd in *. cbn [mbind option_bind] in *. destruct Ha as [Ha _]; [unfold is_long; lia..|].
  eexists true, _. split_and!; [done|done|done| |done]. split; [|done]. intros _. split; [by eexists|lia].
Qed.

(** Every transaction keeps the invariant; it restarts only on overflow, and changes nothing
    when it reports failure. *)
Lemma perform_ok a m :
  manager_ok m -> action_valid a ->
  match perform a m with
  | Some (b, m') => manager_ok m' /\ (b = false -> m' = m)
  | None => overflows a m
  end.
Proof.
  intros Hm Hv. destruct a; simpl in Hv |- *.
  - apply (add_on_ok RESERVATION_CAR); [done|apply Hv..].
  - apply (add_on_ok RESERVATION_ROOM); [done|apply Hv..].
  - apply (add_on_ok RESERVATION_FLIGHT); [done|apply Hv..].
  - apply (add_on_ok RESERVATION_CAR); [done|apply s32_range|unfold is_long; lia].
  - apply (add_on_ok RESERVATION_ROOM); [done|apply s32_range|unfold is_long; lia].
  - destruct (deleteFlight_ok m id Hm) as (b & m' & -> & ? & ? & _). done.
  - destruct (addCustomer_ok m cid Hm) as [-> Hn]. destruct (customerTable m !! cid); [done|]. by split; [apply Hn|].
  - destruct (deleteCustomer_ok m cid Hm) as (m' & He & Hok & Hcs). rewrite He. split; [done|].
    intros Hb%bool_decide_eq_false. apply eq_None_not_Some in Hb. unfold manager_deleteCustomer, TMMAP_FIND in He.
    rewrite Hb in He. by simplify_eq.
  - destruct (reserve_on_ok m RESERVATION_CAR cid id Hm Hv) as (b & m' & He & ? & ?).
    unfold manager_reserveCar. unfold reserve_on in He. simpl in He. by rewrite He.
  - destruct (reserve_on_ok m RESERVATION_ROOM cid id Hm Hv) as (b & m' & He & ? & ?).
    unfold manager_reserveRoom. unfold reserve_on in He. simpl in He. by rewrite He.
  - destruct (reserve_on_ok m RESERVATION_FLIGHT cid id Hm Hv) as (b & m' & He & ? & ?).
    unfold manager_reserveFlight. unfold reserve_on in He. simpl in He. by rewrite He.
  - destruct (cancel_on_ok m RESERVATION_CAR cid id Hm Hv) as (b & m' & He & ? & ? & _).
    unfold manager_cancelCar. unfold cancel_on in He. simpl in He. by rewrite He.
  - destruct (cancel_on_ok m RESERVATION_ROOM cid id Hm Hv) as (b & m' & He & ? & ? & _).
    unfold manager_cancelRoom. unfold cancel_on in He. simpl in He. by rewrite He.
  - destruct (cancel_on_ok m RESERVATION_FLIGHT cid id Hm Hv) as (b & m' & He & ? & ? & _).
    unfold manager_cancelFlight. unfold cancel_on in He. simpl in He. by rewrite He.
Qed.

Lemma manager_alloc_ok : manager_ok manager_alloc.
Proof. split; [by intros []|done|by intros []]. Qed.

Lemma vacation_reach_ok m : reach vacation_step manager_alloc m -> manager_ok m.
Proof.
  apply reach_invariant; [apply manager_alloc_ok|]. intros a m1 m2 Hm. unfold vacation_step.
  destruct (decide (action_valid a)) as [Hv|]; [|done]. pose proof (perform_ok a m1 Hm Hv) as Hp.
  destruct (perform a m1) as [[b m']|]; simpl; [|done]. intros [= <-]. apply Hp.
Qed.

(** C27: in every database reached by any sequence of transactions, every resource is consistent
    (used and free counts are not negative and add up to the total, a positive [long]) and its
    used count is exactly the number of customers that hold a reservation of it; a customer never
    holds the same resource twice. *)
Theorem vacation_books_balance m :
  reach vacation_step manager_alloc m ->
  (forall t id r, table m t !! id = Some r ->
     0 <= numUsed r /\ 0 <= numFree r /\ numTotal r = numUsed r + numFree r
     /\ 1 <= numTotal r < 2 ^ 31 /\ 0 <= price r)
  /\ (forall t id, used m t id = holders (customerTable m) t id)
  /\ (forall cid c, customerTable m !! cid = Some c -> NoDup (ri_key <$> reservationInfoList c)).
Proof.
  intros Hm%vacation_reach_ok. split_and!.
  - intros t id r Hr. destruct (inv_tables m Hm t id r Hr) as ([] & _ & ?). lia.
  - apply Hm.
  - intros cid c Hc. destruct (inv_customers m Hm cid c Hc) as [Hok _]. apply strict_keys, Hok.
Qed.

(** No transaction on a reached database restarts, except one that adds to a resource whose
    total would then not fit a [long]: in particular no reservation, cancellation or deletion
    of a customer ever restarts or finds its books inconsistent.  A transaction that returns
    failure has changed nothing. *)
Theorem vacation_no_restart m a :
  reach vacation_step manager_alloc m -> action_valid a ->
  match perform a m with
  | Some (b, m') => b = false -> m' = m
  | None => overflows a m
  end.
Proof.
  intros Hm%vacation_reach_ok Hv. pose proof (perform_ok a m Hm Hv) as Hp.
  destruct (perform a m) as [[b m']|]; [apply Hp|done].
Qed.

(** A car is reserved exactly when the customer and the car exist, a car is free and the
    customer does not have one of these already; the customer then holds it at its price, and
    cancelling it leads back to the same tables of cars, rooms and flights. *)
Theorem vacation_reserve_cancel m cid id :
  reach vacation_step manager_alloc m -> valid_id id ->
  exists b m', manager_reserveCar m cid id = Some (b, m')
    /\ (b = true <-> exists c r, customerTable m !! cid = Some c /\ carTable m !! id = Some r
          /\ 1 <= numFree r /\ (RESERVATION_CAR, id) ∉ ri_key <$> reservationInfoList c)
    /\ (b = true -> manager_queryCar m' id = manager_queryCar m id - 1
          /\ (exists c c', customerTable m !! cid = Some c /\ customerTable m' !! cid = Some c'
              /\ reservationInfoList c' ≡ₚ
                 ReservationInfo RESERVATION_CAR id (manager_queryCarPrice m id) :: reservationInfoList c)
          /\ exists m'', manager_cancelCar m' cid id = Some (true, m'')
               /\ carTable m'' = carTable m /\ roomTable m'' = roomTable m /\ flightTable m'' = flightTable m).
Proof.
  intros Hm%vacation_reach_ok Hid.
  pose proof (reserve_ok (carTable m) (customerTable m) cid id RESERVATION_CAR
    (inv_tables m Hm RESERVATION_CAR) (inv_customers m Hm) Hid) as Hr.
  destruct (reserve_on_ok m RESERVATION_CAR cid id Hm Hid) as (b & m' & He & Hm' & Hf).
  change (manager_reserveCar m cid id = Some (b, m')) in He. exists b, m'. split; [done|].
  unfold manager_reserveCar in He.
  destruct (customerTable m !! cid) as [c|] eqn:Ec.
  2: { rewrite Hr in He. cbn in He. simplify_eq. split; [|done]. split; [done|naive_solver]. }
  destruct (carTable m !! id) as [r|] eqn:Er.
  2: { rewrite Hr in He. cbn in He. simplify_eq. split; [|done]. split; [done|naive_solver]. }
  destruct (Z.ltb_spec (numFree r) 1) as [|Hfree]; cbn [orb] in Hr.
  { rewrite Hr in He. cbn in He. simplify_eq. split; [|done]. split; [done|].
    intros (? & ? & ? & ? & ? & ?). simplify_eq. lia. }
  destruct (has RESERVATION_CAR id (reservationInfoList c)) eqn:Eh.
  { rewrite Hr in He. cbn in He. simplify_eq. split; [|done]. split; [done|].
    intros (? & ? & ? & ? & ? & ?). simplify_eq. by apply bool_decide_eq_true in Eh. }
  destruct Hr as (c' & Hres & Hp & Hok & _). rewrite Hres in He. cbn in He. simplify_eq.
  split.
  { split; [|done]. intros _. exists c, r. split_and!; try done. by apply bool_decide_eq_false in Eh. }
  intros _. split_and!.
  - unfold manager_queryCar, queryNumFree, TMMAP_FIND. cbn [carTable with_customers with_car].
    by rewrite Er, lookup_insert_eq.
  - exists c, c'. split_and!; [done|by cbn; rewrite lookup_insert_eq|].
    unfold manager_queryCarPrice, queryPrice, TMMAP_FIND. by rewrite Er.
  - assert (Hh : has RESERVATION_CAR id (reservationInfoList c') = true).
    { rewrite (has_perm _ _ _ _ Hp), has_cons. by rewrite bool_decide_true. }
    set (m1 := with_customers _ _) in *.
    assert (Hc1 : customerTable m1 !! cid = Some c') by apply lookup_insert_eq.
    assert (Hr1 : carTable m1 !! id = Some (taken r)) by apply lookup_insert_eq.
    pose proof (cancel_ok (carTable m1) (customerTable m1) cid id RESERVATION_CAR
      (inv_tables _ Hm' RESERVATION_CAR) (inv_customers _ Hm') Hid
      (fun c => held_present _ cid c RESERVATION_CAR id Hm')) as Hc.
    rewrite Hc1, Hr1, Hh in Hc. destruct Hc as (c'' & p & Hc & _).
    unfold manager_cancelCar. rewrite Hc. eexists. split; [done|].
    cbn. by rewrite returned_taken, insert_insert_eq, insert_id.
Qed.

(** A deleted customer gives back every unit it held and nothing else: for each resource the
    used count drops by one if the customer held it and is unchanged otherwise, and the
    customer is gone. *)
Theorem vacation_delete_customer m cid c :
  reach vacation_step manager_alloc m -> customerTable m !! cid = Some c ->
  exists m', manager_deleteCustomer m cid = Some (true, m')
    /\ customerTable m' = delete cid (customerTable m)
    /\ forall t id, used m' t id
         = used m t id - Z.b2z (bool_decide ((t, id) ∈ ri_key <$> reservationInfoList c)).
Proof.
  intros Hm%vacation_reach_ok Hc. destruct (deleteCustomer_ok m cid Hm) as (m' & He & Hm' & Hcs).
  rewrite Hc in He. exists m'. split_and!; [done|done|]. intros t id.
  rewrite (inv_used m' Hm'), (inv_used m Hm), Hcs. unfold holders. by rewrite (msum_delete _ _ _ c).
Qed.

(** The bill of a customer of a reached database is the sum of the prices of its
    reservations, when that sum fits a [long]. *)
Theorem vacation_bill m cid c :
  reach vacation_step manager_alloc m -> customerTable m !! cid = Some c ->
  zsum ri_price (reservationInfoList c) < 2 ^ 31 ->
  manager_queryCustomerBill m cid = zsum ri_price (reservationInfoList c).
Proof.
  intros Hm%vacation_reach_ok Hc Hs. destruct (inv_customers m Hm cid c Hc) as [[_ _ Hp] _].
  unfold manager_queryCustomerBill, TMMAP_FIND, customer_getBill. rewrite Hc.
  assert (Hg : forall l b, 0 <= b -> Forall (fun i => 0 <= ri_price i) l -> b + zsum ri_price l < 2 ^ 31 ->
    foldl (fun bill i => s32 (bill + ri_price i)) b l = b + zsum ri_price l).
  { induction l as [|i l IH]; intros b Hb Hl Hlt; simpl in *; [lia|]. apply Forall_cons in Hl as [Hi Hl].
    assert (0 <= zsum ri_price l).
    { apply zsum_nonneg. intros x Hx. rewrite Forall_forall in Hl. by apply Hl. }
    rewrite s32_small by lia. rewrite IH by (done || lia). lia. }
  by rewrite Hg.
Qed.

(** ** A small database *)

Definition demo_trace : list action :=
  [AddCar 1 2 50; AddRoom 3 1 80; AddCustomer 7; AddCustomer 8; ReserveCar 7 1; ReserveCar 7 1;
   ReserveRoom 8 3; ReserveRoom 7 3; DeleteCar 1 1; AddCar 1 1 60].
Definition demo_db : manager_t := default manager_alloc (run vacation_step demo_trace manager_alloc).

Lemma demo_db_reached : reach vacation_step manager_alloc demo_db.
Proof. apply (run_from _ demo_trace). vm_compute. reflexivity. Qed.

Lemma vacation_books_balance_witness :
  used demo_db RESERVATION_CAR 1 = 1 /\ holders (customerTable demo_db) RESERVATION_CAR 1 = 1.
Proof.
  destruct (vacation_books_balance demo_db demo_db_reached) as (_ & H & _).
  specialize (H RESERVATION_CAR 1). split; [vm_compute; reflexivity|rewrite <- H; vm_compute; reflexivity].
Defined.

Lemma vacation_no_restart_witness : overflows (AddCar 1 2147483646 5) demo_db.
Proof.
  pose proof (vacation_no_restart demo_db (AddCar 1 2147483646 5) demo_db_reached
    ltac:(simpl; unfold is_long; lia)) as H.
  exact H.
Defined.

Lemma vacation_reserve_cancel_witness :
  exists m', manager_reserveCar demo_db 8 1 = Some (true, m')
    /\ manager_queryCar m' 1 = manager_queryCar demo_db 1 - 1.
Proof.
  destruct (vacation_reserve_cancel demo_db 8 1 demo_db_reached ltac:(unfold valid_id; lia))
    as (b & m' & H & _ & Ht).
  assert (b = true) as -> by (vm_compute in H; congruence).
  exists m'. split; [exact H|]. apply Ht. reflexivity.
Defined.

Lemma vacation_delete_customer_witness :
  exists m', manager_deleteCustomer demo_db 7 = Some (true, m') /\ used m' RESERVATION_CAR 1 = 0.
Proof.
  destruct (vacation_delete_customer demo_db 7 (Customer 7 [ReservationInfo RESERVATION_CAR 1 50])
    demo_db_reached ltac:(vm_compute; reflexivity)) as (m' & H & _ & Hu).
  exists m'. split; [exact H|]. rewrite Hu. vm_compute. reflexivity.
Defined.

Lemma vacation_bill_witness : manager_queryCustomerBill demo_db 7 = 50.
Proof.
  rewrite (vacation_bill demo_db 7 (Customer 7 [ReservationInfo RESERVATION_CAR 1 50])
    demo_db_reached ltac:(vm_compute; reflexivity) ltac:(vm_compute; reflexivity)).
  reflexivity.
Defined.
