(* ===== verification/VacationMain.v ===== *)
(** * The vacation benchmark: set-up, client transactions and final check
      ([src/sws/benchmarks/stamp/vacation/{client,vacation}.c])

    [initializeManager] fills the tables, the clients run transactions built from the
    operations of [Vacation], and [checkTables] validates every entry at the end.  The
    random numbers are a parameter: any generator of unsigned 32-bit values.  The arrays a
    client draws before a transaction ([types], [ids], [ops], [prices]) are arguments of the
    transaction.  [None] is a restart of the transaction or a failed assertion. *)

From S2P Require Import Prelude StampList Vacation.

(** ** [client.c] *)

Inductive action_t := ACTION_MAKE_RESERVATION | ACTION_DELETE_CUSTOMER | ACTION_UPDATE_TABLES.

Definition selectAction (r percentUser : Z) : action_t :=
  if r <? percentUser then ACTION_MAKE_RESERVATION
  else if Z.odd r then ACTION_DELETE_CUSTOMER
  else ACTION_UPDATE_TABLES.

(** [switch (t)] on a drawn type; other values reach [assert(0)]. *)
Definition type_of (t : Z) : option reservation_type_t :=
  if t =? 0 then Some RESERVATION_CAR
  else if t =? 1 then Some RESERVATION_FLIGHT
  else if t =? 2 then Some RESERVATION_ROOM
  else None.

(** The price of a resource that exists, -1 otherwise. *)
Definition client_price (m : manager_t) (t : reservation_type_t) (id : Z) : Z :=
  match t with
  | RESERVATION_CAR => if manager_queryCar m id >=? 0 then manager_queryCarPrice m id else -1
  | RESERVATION_FLIGHT => if manager_queryFlight m id >=? 0 then manager_queryFlightPrice m id else -1
  | RESERVATION_ROOM => if manager_queryRoom m id >=? 0 then manager_queryRoomPrice m id else -1
  end.

(** [maxPrices], [maxIds] (indexed by type) and [isFound]. *)
Record best := Best { maxPrices : list Z; maxIds : list Z; isFound : bool }.

Definition best_init : best := Best [-1; -1; -1] [-1; -1; -1] false.

Definition tidx (t : reservation_type_t) : nat := Z.to_nat (type_code t).

Fixpoint query_loop (m : manager_t) (qs : list (Z * Z)) (b : best) : option best :=
  match qs with
  | [] => Some b
  | (tz, id) :: qs =>
    t ← type_of tz;
    let p := client_price m t id in
    query_loop m qs
      (if p >? maxPrices b !!! tidx t
       then Best (<[tidx t := p]> (maxPrices b)) (<[tidx t := id]> (maxIds b)) true
       else b)
  end.

(** [if (maxIds[t] > 0) MANAGER_RESERVE_...]; the status is not used. *)
Definition reserve_best (t : reservation_type_t) (b : best) (customerId : Z) (m : manager_t)
  : option manager_t :=
  let id := maxIds b !!! tidx t in
  if id >? 0 then
    snd <$> match t with
            | RESERVATION_CAR => manager_reserveCar m customerId id
            | RESERVATION_FLIGHT => manager_reserveFlight m customerId id
            | RESERVATION_ROOM => manager_reserveRoom m customerId id
            end
  else Some m.

(** [case ACTION_MAKE_RESERVATION], between [TM_BEGIN] and [TM_END]. *)
Definition client_make_reservation (customerId : Z) (qs : list (Z * Z)) (m : manager_t)
  : option manager_t :=
  b ← query_loop m qs best_init;
  m ← (if isFound b then snd <$> manager_addCustomer m customerId else Some m);
  m ← reserve_best RESERVATION_CAR b customerId m;
  m ← reserve_best RESERVATION_FLIGHT b customerId m;
  reserve_best RESERVATION_ROOM b customerId m.

(** [case ACTION_DELETE_CUSTOMER]. *)
Definition client_delete_customer (customerId : Z) (m : manager_t) : option manager_t :=
  if manager_queryCustomerBill m customerId >=? 0
  then snd <$> manager_deleteCustomer m customerId
  else Some m.

(** [case ACTION_UPDATE_TABLES]: type, id, whether to add, and the new price. *)
Fixpoint client_update_tables (us : list (Z * Z * bool * Z)) (m : manager_t) : option manager_t :=
  match us with
  | [] => Some m
  | (tz, id, doAdd, newPrice) :: us =>
    t ← type_of tz;
    '(_, m) ← (if (doAdd : bool) then
                 match t with
                 | RESERVATION_CAR => manager_addCar m id 100 newPrice
                 | RESERVATION_FLIGHT => manager_addFlight m id 100 newPrice
                 | RESERVATION_ROOM => manager_addRoom m id 100 newPrice
                 end
               else
                 match t with
                 | RESERVATION_CAR => manager_deleteCar m id 100
                 | RESERVATION_FLIGHT => manager_deleteFlight m id
                 | RESERVATION_ROOM => manager_deleteRoom m id 100
                 end);
    client_update_tables us m
  end.

(** ** [vacation.c] *)

Section random.
Context {R : Type} (random_generate : R -> Z * R).

(** [for (i = 0; i < numRelation; i++)] swap two drawn positions. *)
Fixpoint shuffle (n : nat) (numRelation : Z) (ids : list Z) (rnd : R) : list Z * R :=
  match n with
  | O => (ids, rnd)
  | S n =>
    let '(x, rnd) := random_generate rnd in
    let '(y, rnd) := random_generate rnd in
    let x := Z.to_nat (x mod numRelation) in
    let y := Z.to_nat (y mod numRelation) in
    let tmp := ids !!! x in
    let ids := <[x := ids !!! y]> ids in
    shuffle n numRelation (<[y := tmp]> ids) rnd
  end.

(** The loop that fills one table; [None] is [assert(status)]. *)
Fixpoint populate (add : manager_t -> Z -> Z -> Z -> option (bool * manager_t))
    (ids : list Z) (m : manager_t) (rnd : R) : option (manager_t * R) :=
  match ids with
  | [] => Some (m, rnd)
  | id :: ids =>
    let '(a, rnd) := random_generate rnd in
    let '(b, rnd) := random_generate rnd in
    let num := (a mod 5 + 1) * 100 in
    let p := (b mod 5) * 10 + 50 in
    '(status, m) ← add m id num p;
    if (status : bool) then populate add ids m rnd else None
  end.

Definition addCustomer (m : manager_t) (id num p : Z) : option (bool * manager_t) :=
  manager_addCustomer_seq m id.

(** [manager_add[t]], in the order of the array. *)
Definition manager_add : list (manager_t -> Z -> Z -> Z -> option (bool * manager_t)) :=
  [manager_addCar_seq; manager_addFlight_seq; manager_addRoom_seq; addCustomer].

Fixpoint initialize_tables (adds : list (manager_t -> Z -> Z -> Z -> option (bool * manager_t)))
    (numRelation : Z) (ids : list Z) (m : manager_t) (rnd : R) : option manager_t :=
  match adds with
  | [] => Some m
  | add :: adds =>
    let '(ids, rnd) := shuffle (Z.to_nat numRelation) numRelation ids rnd in
    '(m, rnd) ← populate add ids m rnd;
    initialize_tables adds numRelation ids m rnd
  end.

Definition initializeManager (numRelation : Z) (rnd : R) : option manager_t :=
  initialize_tables manager_add numRelation (seqZ 1 numRelation) manager_alloc rnd.
End random.

(** [checkTables], the loop over the customers. *)
Fixpoint check_customers (js : list Z) (m : manager_t) : option manager_t :=
  match js with
  | [] => Some m
  | i :: js =>
    match TMMAP_FIND (customerTable m) i with
    | None => check_customers js m
    | Some _ =>
      let '(status, cs) := TMMAP_REMOVE (customerTable m) i in
      let m := with_customers m cs in
      if status && bool_decide (is_Some (TMMAP_FIND cs i)) then None
      else check_customers js m
    end
  end.

(** The loop over one table: validate the entry by adding nothing to it, remove it, and
    find that it is gone. *)
Fixpoint check_table (t : reservation_type_t)
    (add : manager_t -> Z -> Z -> Z -> option (bool * manager_t)) (js : list Z) (m : manager_t)
  : option manager_t :=
  match js with
  | [] => Some m
  | i :: js =>
    match TMMAP_FIND (table m t) i with
    | None => check_table t add js m
    | Some _ =>
      '(ok, m) ← add m i 0 0;
      if negb ok then None
      else
        let '(status, tb) := TMMAP_REMOVE (table m t) i in
        let m := set_table m t tb in
        if status && (TMMAP_REMOVE tb i).1 then None
        else check_table t add js m
    end
  end.

Definition checkTables (maxCustomerId numRelation : Z) (m : manager_t) : option manager_t :=
  m ← check_customers (seqZ 1 maxCustomerId) m;
  m ← check_table RESERVATION_CAR manager_addCar_seq (seqZ 1 numRelation) m;
  m ← check_table RESERVATION_FLIGHT manager_addFlight_seq (seqZ 1 numRelation) m;
  check_table RESERVATION_ROOM manager_addRoom_seq (seqZ 1 numRelation) m.

(** ** Transactions keep the books *)

Lemma query_loop_inv m qs b b' : query_loop m qs b = Some b' ->
  length (maxIds b) = 3%nat -> Forall (fun i => i = -1 \/ valid_id i) (maxIds b) ->
  Forall (fun q => valid_id q.2) qs ->
  length (maxIds b') = 3%nat /\ Forall (fun i => i = -1 \/ valid_id i) (maxIds b').
Proof.
  revert b. induction qs as [|[tz id] qs IH]; intros b Hq Hl Hi Hv; simpl in Hq; [by simplify_eq|].
  apply Forall_cons in Hv as [Hid Hv]. destruct (type_of tz) as [t|]; [|done]. simpl in Hq.
  apply (IH _ Hq); [..|done].
  - destruct (_ >? _); [|done]. cbn [maxIds]. by rewrite length_insert.
  - destruct (_ >? _); [|done]. cbn [maxIds]. apply Forall_insert; [done|by right].
Qed.

Lemma reserve_best_ok t b cid m :
  manager_ok m -> (maxIds b !!! tidx t = -1 \/ valid_id (maxIds b !!! tidx t)) ->
  exists m', reserve_best t b cid m = Some m' /\ manager_ok m'.
Proof.
  intros Hm Hv. unfold reserve_best. destruct (Z.gtb_spec (maxIds b !!! tidx t) 0); [|by eauto].
  destruct Hv as [Hv|Hv]; [lia|].
  destruct (reserve_on_ok m t cid _ Hm Hv) as (s & m' & He & Hm' & _).
  exists m'. split; [|done]. unfold reserve_on in He.
  destruct t; simpl in He |- *; unfold manager_reserveCar, manager_reserveFlight, manager_reserveRoom;
    by rewrite He.
Qed.

Lemma query_loop_total m qs b :
  Forall (fun q => 0 <= q.1 < 3) qs -> is_Some (query_loop m qs b).
Proof.
  revert b. induction qs as [|[tz id] qs IH]; intros b Hv; simpl; [by eexists|].
  apply Forall_cons in Hv as [Ht Hv]. simpl in Ht. unfold type_of. bool_cases; try lia; simpl; by apply IH.
Qed.

Definition queries_valid (qs : list (Z * Z)) : Prop :=
  Forall (fun q => 0 <= q.1 < 3 /\ valid_id q.2) qs.

Lemma make_reservation_ok cid qs m :
  manager_ok m -> queries_valid qs ->
  exists m', client_make_reservation cid qs m = Some m' /\ manager_ok m'.
Proof.
  intros Hm Hq. unfold client_make_reservation.
  destruct (query_loop_total m qs best_init) as [b Hb].
  { eapply Forall_impl; [exact Hq|]. by intros ? [? _]. }
  destruct (query_loop_inv _ _ _ _ Hb) as [Hl Hi]; [done|by repeat constructor; left| |].
  { eapply Forall_impl; [exact Hq|]. by intros ? [_ ?]. }
  assert (Hsel : forall t, maxIds b !!! tidx t = -1 \/ valid_id (maxIds b !!! tidx t)).
  { intros t. apply (Forall_lookup_total_1 _ _ (tidx t)) in Hi; [done|]. rewrite Hl. destruct t; cbv; lia. }
  rewrite Hb. cbn [mbind option_bind].
  assert (exists m1, (if isFound b then snd <$> manager_addCustomer m cid else Some m) = Some m1 /\ manager_ok m1)
    as (m1 & -> & Hm1).
  { destruct (isFound b); [|by eauto]. destruct (addCustomer_ok m cid Hm) as [-> Hn].
    destruct (customerTable m !! cid); simpl; eauto. }
  cbn [mbind option_bind].
  destruct (reserve_best_ok RESERVATION_CAR b cid m1 Hm1 (Hsel _)) as (m2 & -> & Hm2). cbn [mbind option_bind].
  destruct (reserve_best_ok RESERVATION_FLIGHT b cid m2 Hm2 (Hsel _)) as (m3 & -> & Hm3). cbn [mbind option_bind].
  by apply reserve_best_ok.
Qed.

Lemma delete_customer_ok cid m :
  manager_ok m -> exists m', client_delete_customer cid m = Some m' /\ manager_ok m'.
Proof.
  intros Hm. unfold client_delete_customer. destruct (_ >=? 0); [|by eauto].
  destruct (deleteCustomer_ok m cid Hm) as (m' & -> & Hm' & _). simpl. eauto.
Qed.

Lemma update_tables_ok us : forall m m',
  manager_ok m -> Forall (fun u => is_long u.2) us ->
  client_update_tables us m = Some m' -> manager_ok m'.
Proof.
  induction us as [|[[[tz id] doAdd] np] us IH]; intros m m' Hm Hv; simpl; [by intros [= <-]|].
  apply Forall_cons in Hv as [Hp Hv]. simpl in Hp. destruct (type_of tz) as [t|]; [|done]. cbn [mbind option_bind].
  set (a := if doAdd
    then match t with RESERVATION_CAR => AddCar id 100 np | RESERVATION_FLIGHT => AddFlight id 100 np
                    | RESERVATION_ROOM => AddRoom id 100 np end
    else match t with RESERVATION_CAR => DeleteCar id 100 | RESERVATION_FLIGHT => DeleteFlight id
                    | RESERVATION_ROOM => DeleteRoom id 100 end).
  assert (Ha : action_valid a) by (subst a; destruct doAdd, t; simpl; unfold is_long in *; (lia || done)).
  pose proof (perform_ok a m Hm Ha) as Hok. subst a.
  destruct doAdd, t; simpl in Hok |- *; match goal with
    |- (?x ≫= _) = _ -> _ => destruct x as [[s m1]|]; [|done] end; simpl; apply IH; (apply Hok || done).
Qed.

(** ** The choice of the most expensive resource *)

Lemma type_of_code tz t : type_of tz = Some t -> tz = type_code t.
Proof. unfold type_of. bool_cases; intros; simplify_eq; done. Qed.

Definition best_of (m : manager_t) (seen : list (Z * Z)) (b : best) : Prop :=
  length (maxPrices b) = 3%nat /\ length (maxIds b) = 3%nat
  /\ (forall t, -1 <= maxPrices b !!! tidx t
       /\ (forall id, (type_code t, id) ∈ seen -> client_price m t id <= maxPrices b !!! tidx t)
       /\ (if maxPrices b !!! tidx t =? -1 then maxIds b !!! tidx t = -1
           else (type_code t, maxIds b !!! tidx t) ∈ seen
                /\ client_price m t (maxIds b !!! tidx t) = maxPrices b !!! tidx t))
  /\ (isFound b = true <-> exists t, maxPrices b !!! tidx t <> -1).

Lemma best_of_next m seen b t id :
  best_of m seen b ->
  best_of m (seen ++ [(type_code t, id)])
    (if client_price m t id >? maxPrices b !!! tidx t
     then Best (<[tidx t := client_price m t id]> (maxPrices b)) (<[tidx t := id]> (maxIds b)) true
     else b).
Proof.
  intros (Hlp & Hli & Hb & Hfound). assert (Hlt : forall t, (tidx t < 3)%nat) by (intros []; cbv; lia).
  assert (Hinj : forall t t', tidx t = tidx t' -> t = t') by by intros [] [].
  assert (Hcode : forall t t', type_code t = type_code t' -> t = t') by by intros [] [].
  destruct (Z.gtb_spec (client_price m t id) (maxPrices b !!! tidx t)) as [Hgt|Hle].
  - split_and!; cbn [maxPrices maxIds isFound]; [by rewrite length_insert..| |].
    + intros t'. destruct (Hb t') as (Hge & Hmax & Harg). destruct (decide (t' = t)) as [-> |Hne].
      * rewrite !list_lookup_total_insert_eq by (rewrite ?Hlp, ?Hli; apply Hlt).
        rewrite (proj2 (Z.eqb_neq _ _)) by lia.
        split_and!; [lia| |set_solver|done].
        intros id' [Hin|Hin%list_elem_of_singleton]%elem_of_app; [specialize (Hmax id' Hin); lia|].
        simplify_eq. lia.
      * rewrite !list_lookup_total_insert_ne by (intros ?%Hinj; congruence). split_and!; [done| |].
        -- intros id' [Hin|Hin%list_elem_of_singleton]%elem_of_app; [by apply Hmax|].
           simplify_eq. by destruct Hne; apply Hcode.
        -- destruct (_ =? -1); [done|]. split; [set_solver|apply Harg].
    + split; [|done]. intros _. exists t. rewrite list_lookup_total_insert_eq by (rewrite Hlp; apply Hlt).
      destruct (Hb t) as [? _]. lia.
  - split_and!; [done|done| |done]. intros t'. destruct (Hb t') as (Hge & Hmax & Harg). split_and!; [done| |].
    + intros id' [Hin|Hin%list_elem_of_singleton]%elem_of_app; [by apply Hmax|].
      injection Hin as Hc ->. apply Hcode in Hc as ->. lia.
    + destruct (_ =? -1); [done|]. split; [set_solver|apply Harg].
Qed.

Lemma query_loop_best m qs : forall seen b b',
  best_of m seen b -> query_loop m qs b = Some b' -> best_of m (seen ++ qs) b'.
Proof.
  induction qs as [|[tz id] qs IH]; intros seen b b' Hb; simpl.
  - intros [= <-]. by rewrite app_nil_r.
  - destruct (type_of tz) as [t|] eqn:Et; [|done]. apply type_of_code in Et as ->. cbn [mbind option_bind].
    intros Hq. rewrite cons_middle, app_assoc. eapply IH; [|exact Hq]. by apply best_of_next.
Qed.

(** The query phase of a reservation transaction selects, for each type, a queried resource
    that exists and whose price is the highest among those queried, and selects none only when
    no queried resource of the type exists; it reports whether anything was found. *)
Theorem client_selects_best m qs b t :
  query_loop m qs best_init = Some b ->
  (forall id, (type_code t, id) ∈ qs -> client_price m t id <= maxPrices b !!! tidx t)
  /\ (maxPrices b !!! tidx t <> -1 ->
        (type_code t, maxIds b !!! tidx t) ∈ qs
        /\ client_price m t (maxIds b !!! tidx t) = maxPrices b !!! tidx t)
  /\ (maxPrices b !!! tidx t = -1 -> maxIds b !!! tidx t = -1)
  /\ (isFound b = true <-> exists t, maxPrices b !!! tidx t <> -1).
Proof.
  intros Hq. apply (query_loop_best m qs []) in Hq as (_ & _ & Hb & Hf).
  - destruct (Hb t) as (_ & Hmax & Harg). split_and!; [done| | |done].
    + intros Hne. by rewrite (proj2 (Z.eqb_neq _ _)) in Harg by done.
    + intros Heq. by rewrite Heq in Harg.
  - split_and!; [done|done| |].
    + intros []; (split_and!; [by vm_compute|by intros id ?%elem_of_nil|done]).
    + split; [done|]. intros [[] H]; by destruct H.
Qed.

(** ** Initialisation *)

Lemma add_on_new t m id num p :
  manager_ok m -> table m t !! id = None -> 1 <= num < 2 ^ 31 -> 0 <= p ->
  add_on t m id num p = Some (true, set_table m t (<[id := Reservation id 0 num num p]> (table m t))).
Proof.
  intros Hm Hn Hnum Hp. unfold add_on, addReservation, TMMAP_FIND, TMMAP_INSERT. rewrite Hn.
  rewrite (proj2 (Z.ltb_ge num 1)), (proj2 (Z.ltb_ge p 0)) by lia. cbn [orb]. unfold reservation_alloc.
  rewrite checkReservation_true by (split; simpl; lia). done.
Qed.

(** Whether a table ([None]: the customers) has a row. *)
Definition has_row (t : option reservation_type_t) (m : manager_t) (id : Z) : Prop :=
  match t with Some t => is_Some (table m t !! id) | None => is_Some (customerTable m !! id) end.

(** The rows after an addition to table [t] ([None]: the customers). *)
Definition row_added (t : option reservation_type_t) (id : Z) (m m' : manager_t) : Prop :=
  forall t' id', has_row t' m' id' <-> has_row t' m id' \/ (t' = t /\ id' = id).

Definition adder (t : option reservation_type_t) : manager_t -> Z -> Z -> Z -> option (bool * manager_t) :=
  match t with
  | Some RESERVATION_CAR => manager_addCar_seq
  | Some RESERVATION_FLIGHT => manager_addFlight_seq
  | Some RESERVATION_ROOM => manager_addRoom_seq
  | None => addCustomer
  end.

Lemma adder_on t m id num p : adder (Some t) m id num p = add_on t m id num p.
Proof.
  unfold add_on. destruct t; simpl; unfold manager_addCar_seq, manager_addFlight_seq, manager_addRoom_seq;
    by rewrite addReservation_seq_eq.
Qed.

Lemma is_Some_insert {V} (tb : gmap Z V) k v id : is_Some (<[k := v]> tb !! id) <-> is_Some (tb !! id) \/ id = k.
Proof. rewrite lookup_insert_is_Some'. naive_solver. Qed.

Lemma adder_new t m id num p :
  manager_ok m -> ~ has_row t m id -> 1 <= num < 2 ^ 31 -> 0 <= p < 2 ^ 31 ->
  exists m', adder t m id num p = Some (true, m') /\ manager_ok m' /\ row_added t id m m'.
Proof.
  intros Hm Hn Hnum Hp. destruct t as [t|].
  - apply eq_None_not_Some in Hn. rewrite adder_on.
    pose proof (add_on_ok t m id num p Hm) as Hok. rewrite add_on_new in * by (done || lia).
    eexists. split_and!; [done|apply Hok; unfold is_long; lia|]. intros [t'|] id'; simpl.
    + rewrite table_set. destruct (decide (t' = t)) as [-> |]; [|naive_solver]. rewrite is_Some_insert. naive_solver.
    + rewrite customerTable_set. naive_solver.
  - apply eq_None_not_Some in Hn. destruct (addCustomer_ok m id Hm) as [He Hok].
    simpl in Hn |- *. unfold addCustomer. change (manager_addCustomer_seq m id) with (manager_addCustomer m id).
    rewrite He, Hn. eexists. split_and!; [done|by apply Hok|]. intros [t'|] id'; simpl.
    + rewrite table_customers. naive_solver.
    + rewrite is_Some_insert. naive_solver.
Qed.

Section random_facts.
Context {R : Type} (random_generate : R -> Z * R).

Lemma shuffle_perm n numRelation : forall ids rnd,
  numRelation = Z.of_nat (length ids) -> 0 < numRelation ->
  (shuffle random_generate n numRelation ids rnd).1 ≡ₚ ids.
Proof.
  induction n as [|n IH]; intros ids rnd Hl Hpos; simpl; [done|].
  destruct (random_generate rnd) as [x r1]. destruct (random_generate r1) as [y r2].
  assert (Hin : forall z, is_Some (ids !! Z.to_nat (z mod numRelation))).
  { intros z. apply lookup_lt_is_Some_2. pose proof (Z.mod_pos_bound z numRelation Hpos). lia. }
  destruct (Hin x) as [vx Hx], (Hin y) as [vy Hy].
  rewrite IH; [|by rewrite !length_insert|done].
  rewrite (list_lookup_total_correct _ _ _ Hx), (list_lookup_total_correct _ _ _ Hy).
  by apply Permutation_insert_swap.
Qed.

Lemma populate_ok t ids : forall m rnd,
  manager_ok m -> NoDup ids -> (forall id, id ∈ ids -> ~ has_row t m id) ->
  exists m' rnd', populate random_generate (adder t) ids m rnd = Some (m', rnd') /\ manager_ok m'
    /\ forall t' id', has_row t' m' id' <-> has_row t' m id' \/ (t' = t /\ id' ∈ ids).
Proof.
  induction ids as [|id ids IH]; intros m rnd Hm Hnd Hn; simpl.
  { eexists _, _. split_and!; [done|done|]. set_solver. }
  destruct (random_generate rnd) as [a r1]. destruct (random_generate r1) as [b r2].
  apply NoDup_cons in Hnd as [Hid Hnd].
  destruct (adder_new t m id ((a mod 5 + 1) * 100) (b mod 5 * 10 + 50)) as (m1 & -> & Hm1 & Hrow);
    [done|apply Hn; left|mlia|mlia|]. cbn [mbind option_bind].
  destruct (IH m1 r2 Hm1 Hnd) as (m' & rnd' & -> & Hm' & Hrows).
  - intros i Hi [Hr|[_ ->]]%Hrow; [|done]. apply (Hn i); [by right|done].
  - eexists _, _. split_and!; [done|done|]. intros t' id'. rewrite Hrows, (Hrow t' id'), elem_of_cons. naive_solver.
Qed.

(** The tables are filled in the order of [manager_add]. *)
Lemma initialize_tables_ok numRelation ts : forall ids m rnd,
  0 < numRelation -> ids ≡ₚ seqZ 1 numRelation -> manager_ok m -> NoDup ts ->
  (forall t id, t ∈ ts -> ~ has_row t m id) ->
  exists m', initialize_tables random_generate (adder <$> ts) numRelation ids m rnd = Some m' /\ manager_ok m'
    /\ forall t id, has_row t m' id <-> has_row t m id \/ (t ∈ ts /\ 1 <= id <= numRelation).
Proof.
  induction ts as [|t ts IH]; intros ids m rnd Hn Hp Hm Hnd Hrow.
  { exists m. split_and!; [done|done|]. intros t id. set_solver. }
  csimpl. apply NoDup_cons in Hnd as [Ht Hnd].
  pose proof (shuffle_perm (Z.to_nat numRelation) numRelation ids rnd) as Hsh.
  destruct (shuffle random_generate (Z.to_nat numRelation) numRelation ids rnd) as [ids1 r1]. simpl in Hsh.
  rewrite Hp in Hsh at 2. rewrite Hp, length_seqZ in Hsh. specialize (Hsh ltac:(lia) Hn).
  destruct (populate_ok t ids1 m r1 Hm) as (m1 & r2 & -> & Hm1 & Hr1).
  - rewrite Hsh. apply NoDup_seqZ.
  - intros id _. apply Hrow. left.
  - cbn [mbind option_bind]. destruct (IH ids1 m1 r2 Hn Hsh Hm1 Hnd) as (m' & -> & Hm' & Hr').
    + intros t' id Hin [Hr|[-> _]]%Hr1; [|done]. apply (Hrow t' id); [by right|done].
    + exists m'. split_and!; [done|done|]. intros t' id.
      rewrite Hr', (Hr1 t' id), Hsh, elem_of_seqZ, elem_of_cons. split; [|naive_solver lia].
      intros [[?|[-> ?]]|[? ?]]; [by left|right; split; [by left|lia]|right; split; [by right|lia]].
Qed.

Lemma initializeManager_ok numRelation rnd :
  0 < numRelation ->
  exists m, initializeManager random_generate numRelation rnd = Some m /\ manager_ok m
    /\ forall t id, has_row t m id <-> 1 <= id <= numRelation.
Proof.
  intros Hn. destruct (initialize_tables_ok numRelation
    [Some RESERVATION_CAR; Some RESERVATION_FLIGHT; Some RESERVATION_ROOM; None]
    (seqZ 1 numRelation) manager_alloc rnd Hn) as (m & Hi & Hm & Hrow).
  - done.
  - apply manager_alloc_ok.
  - apply (bool_decide_unpack _). by vm_compute.
  - intros [[]|] id _ [? ?]; done.
  - exists m. split_and!; [exact Hi|done|]. intros t id. rewrite Hrow. split.
    + intros [Hr|[_ ?]]; [|done]. destruct t as [[]|], Hr as [? Hr]; done.
    + intros ?. right. split; [|done]. destruct t as [[]|]; set_solver.
Qed.
End random_facts.

(** ** The final check *)

Definition tables_ok (m : manager_t) : Prop := forall t, table_ok (table m t).

Lemma check_customers_ok js : forall m,
  tables_ok m -> exists m', check_customers js m = Some m' /\ tables_ok m'
    /\ (forall i, i ∈ js -> customerTable m' !! i = None)
    /\ (forall i, customerTable m !! i = None -> customerTable m' !! i = None).
Proof.
  induction js as [|i js IH]; intros m Hm; simpl.
  { exists m. split_and!; [done|done|set_solver|done]. }
  unfold TMMAP_FIND, TMMAP_REMOVE. destruct (customerTable m !! i) as [c|] eqn:E.
  - rewrite lookup_delete_eq. cbn [andb]. rewrite bool_decide_false by by intros [].
    destruct (IH (with_customers m (delete i (customerTable m)))) as (m' & Hc & Ht & H1 & H2).
    { intros t. by rewrite table_customers. }
    exists m'. split_and!; [done|done| |].
    + intros j [-> |Hj]%elem_of_cons; [|by apply H1]. apply H2. apply lookup_delete_eq.
    + intros j Hj. apply H2. simpl. rewrite lookup_delete_None. by right.
  - destruct (IH m Hm) as (m' & -> & Ht & H1 & H2). exists m'. split_and!; [done|done| |done].
    intros j [-> |Hj]%elem_of_cons; [by apply H2|by apply H1].
Qed.

(** Adding nothing to a consistent row succeeds. *)
Lemma add_nothing t m i r :
  tables_ok m -> table m t !! i = Some r ->
  exists r', adder (Some t) m i 0 0 = Some (true, set_table m t (<[i := r']> (table m t)))
    /\ reservation_ok r' /\ r_id r' = i /\ 1 <= numTotal r'.
Proof.
  intros Hm Hr. rewrite adder_on. unfold add_on, addReservation, TMMAP_FIND. rewrite Hr.
  destruct (Hm t i r Hr) as (Hok & Hid & Htot). pose proof Hok as [].
  rewrite reservation_addToTotal_ok by (done || unfold is_long; lia). rewrite !Z.add_0_r.
  rewrite (proj2 (Z.ltb_ge _ 0)), (proj2 (Z.leb_gt _ (numFree r))), (proj2 (Z.leb_gt _ (numTotal r))) by lia.
  cbn [orb mbind option_bind negb numTotal]. rewrite (proj2 (Z.eqb_neq _ 0)) by lia.
  rewrite reservation_updatePrice_ok; [|by split|unfold is_long; lia]. cbn. rewrite insert_insert_eq.
  eexists. split_and!; [done|split; simpl; lia|done|done].
Qed.

Lemma check_table_ok t js : forall m,
  tables_ok m -> exists m', check_table t (adder (Some t)) js m = Some m' /\ tables_ok m'
    /\ customerTable m' = customerTable m.
Proof.
  induction js as [|i js IH]; intros m Hm; cbn [check_table]; [by eauto|].
  unfold TMMAP_FIND, TMMAP_REMOVE. destruct (table m t !! i) as [r|] eqn:E; [|by apply IH].
  destruct (add_nothing t m i r Hm E) as (r' & Ha & Hok & Hid & Htot).
  rewrite Ha. cbn [mbind option_bind negb]. rewrite table_set, decide_True by done.
  rewrite lookup_insert_eq, delete_insert_eq, lookup_delete_eq. cbn [andb fst].
  destruct (IH (set_table (set_table m t (<[i := r']> (table m t))) t (delete i (table m t)))) as (m' & -> & Ht & Hc).
  - intros t'. rewrite !table_set. destruct (decide (t' = t)) as [-> |]; [|done].
    intros j r0 Hj. apply lookup_delete_Some in Hj as [_ Hj]. exact (Hm t j r0 Hj).
  - exists m'. by rewrite Hc, !customerTable_set.
Qed.

Lemma checkTables_ok maxCustomerId numRelation m :
  tables_ok m -> is_Some (checkTables maxCustomerId numRelation m).
Proof.
  intros Hm. unfold checkTables.
  destruct (check_customers_ok (seqZ 1 maxCustomerId) m Hm) as (m1 & -> & Hm1 & _). cbn [mbind option_bind].
  destruct (check_table_ok RESERVATION_CAR (seqZ 1 numRelation) m1 Hm1) as (m2 & He & Hm2 & _).
  simpl in He. rewrite He. cbn [mbind option_bind].
  destruct (check_table_ok RESERVATION_FLIGHT (seqZ 1 numRelation) m2 Hm2) as (m3 & He3 & Hm3 & _).
  simpl in He3. rewrite He3. cbn [mbind option_bind].
  destruct (check_table_ok RESERVATION_ROOM (seqZ 1 numRelation) m3 Hm3) as (m4 & He4 & _).
  simpl in He4. rewrite He4. by eexists.
Qed.

(** ** A run of the benchmark *)

(** One client transaction, with the values the client drew for it. *)
Inductive client_tx :=
| MakeReservation (customerId : Z) (qs : list (Z * Z))
| DropCustomer (customerId : Z)
| UpdateTables (us : list (Z * Z * bool * Z)).

(** The drawn types are below [NUM_RESERVATION_TYPE], the identifiers positive and the new prices
    are those of the generator. *)
Definition tx_valid (x : client_tx) : Prop :=
  match x with
  | MakeReservation _ qs => queries_valid qs
  | DropCustomer _ => True
  | UpdateTables us => Forall (fun u => 0 <= u.1.1.1 < 3 /\ 0 <= u.2 < 2 ^ 31) us
  end.

#[global] Instance tx_valid_dec x : Decision (tx_valid x).
Proof. destruct x; simpl; unfold queries_valid, valid_id; apply _. Defined.

Definition client_tx_run (x : client_tx) (m : manager_t) : option manager_t :=
  match x with
  | MakeReservation customerId qs => client_make_reservation customerId qs m
  | DropCustomer customerId => client_delete_customer customerId m
  | UpdateTables us => client_update_tables us m
  end.

Definition client_step (x : client_tx) (m : manager_t) : option manager_t :=
  if decide (tx_valid x) then client_tx_run x m else None.

Lemma client_step_ok x m m' : manager_ok m -> client_step x m = Some m' -> manager_ok m'.
Proof.
  intros Hm. unfold client_step. destruct (decide (tx_valid x)) as [Hv|]; [|done]. destruct x as [cid qs|cid|us]; simpl in *.
  - destruct (make_reservation_ok cid qs m Hm Hv) as (m1 & -> & ?). by intros [= <-].
  - destruct (delete_customer_ok cid m Hm) as (m1 & -> & ?). by intros [= <-].
  - apply update_tables_ok; [done|]. eapply Forall_impl; [exact Hv|]. intros u [_ ?]. unfold is_long. lia.
Qed.

(** C28: the benchmark from end to end, for every generator of random numbers and every order in
    which the clients' transactions commit: the set-up fails no assertion and creates exactly the
    rows 1 to [numRelation] of each table; afterwards every reservation or deletion transaction
    commits without a restart, the used count of each resource is the number of its holders,
    and the final check of the tables fails no assertion. *)
Theorem vacation_benchmark_correct {R} (random_generate : R -> Z * R) numRelation rnd maxCustomerId :
  0 < numRelation ->
  exists m0, initializeManager random_generate numRelation rnd = Some m0
    /\ (forall t id, has_row t m0 id <-> 1 <= id <= numRelation)
    /\ forall m, reach client_step m0 m ->
         (forall cid qs, queries_valid qs -> is_Some (client_make_reservation cid qs m))
         /\ (forall cid, is_Some (client_delete_customer cid m))
         /\ (forall t id, used m t id = holders (customerTable m) t id)
         /\ is_Some (checkTables maxCustomerId numRelation m).
Proof.
  intros Hn. destruct (initializeManager_ok random_generate numRelation rnd Hn) as (m0 & Hi & Hm0 & Hrow).
  exists m0. split_and!; [done|done|]. intros m Hr.
  assert (Hm : manager_ok m).
  { apply (reach_invariant client_step manager_ok m0 m Hm0); [|done]. intros; by eapply client_step_ok. }
  split_and!.
  - intros cid qs Hq. destruct (make_reservation_ok cid qs m Hm Hq) as (m' & -> & _). by eexists.
  - intros cid. destruct (delete_customer_ok cid m Hm) as (m' & -> & _). by eexists.
  - apply Hm.
  - apply checkTables_ok. exact (inv_tables m Hm).
Qed.

(** A generator, and a run with two rows per table. *)
Definition lcg (s : Z) : Z * Z := (u32 (s * 1103515245 + 12345), u32 (s * 1103515245 + 12345)).

Lemma client_selects_best_witness :
  exists b, query_loop demo_db [(0, 1); (2, 3); (0, 9)] best_init = Some b
    /\ client_price demo_db RESERVATION_CAR 9 <= maxPrices b !!! tidx RESERVATION_CAR
    /\ isFound b = true.
Proof.
  exists (Best [60; -1; 80] [1; -1; 3] true). split; [vm_compute; reflexivity|].
  destruct (client_selects_best demo_db [(0, 1); (2, 3); (0, 9)] (Best [60; -1; 80] [1; -1; 3] true)
    RESERVATION_CAR ltac:(vm_compute; reflexivity)) as (H & _).
  split; [apply H; do 2 right; left|reflexivity].
Defined.

Lemma vacation_benchmark_correct_witness :
  exists m0, initializeManager lcg 2 7 = Some m0 /\ is_Some (checkTables 3 2 m0).
Proof.
  destruct (vacation_benchmark_correct lcg 2 7 3 ltac:(lia)) as (m0 & Hi & _ & H).
  exists m0. split; [exact Hi|]. apply (H m0 (reach_refl client_step m0)).
Defined.
