(* ===== verification/SysVSem.v ===== *)
(** * System V semaphore sets ([src/linux-2.6.16-unmod/ipc/sem.c])

    A set is an array of semaphores with a queue of sleeping operations and one array of
    adjustments for each undo structure.  A call applies a vector of operations all at once:
    the code applies them one by one and rolls back when one cannot proceed.  [None] is an
    access outside an array or through a null undo pointer.

    Identifiers, permissions, time stamps and the copying of user memory are outside this
    model: it is one set, held under its spinlock by each call.  [semval] is an [int],
    operations and adjustments are [short]. *)

From S2P Require Import Prelude.

Module SysV.

Definition SEMVMX : Z := 32767.
Definition SEMAEM : Z := SEMVMX.
Definition SEM_UNDO : Z := 4096.
Definition IPC_NOWAIT : Z := 2048.
Definition EAGAIN : Z := 11.
Definition EINTR : Z := 4.
Definition ERANGE : Z := 34.
Definition EIDRM : Z := 43.
Definition EINVAL : Z := 22.
Definition E2BIG : Z := 7.
Definition EFBIG : Z := 27.
Definition SEMOPM : Z := 32.

Record sem := Sem { semval : Z; sempid : Z }.
Record sembuf := Sembuf { sem_num : Z; sem_op : Z; sem_flg : Z }.

Definition flagged (sop : sembuf) (f : Z) : bool := negb (Z.land (sem_flg sop) f =? 0).

(** A sleeping call: who sleeps, on whose behalf the adjustments are recorded, the
    operations, and whether they alter the array. *)
Record sem_queue := SemQueue {
  sleeper : Z; q_undo : option Z; q_pid : Z; q_sops : list sembuf; q_alter : bool }.

(** A set; [undos] gives the adjustments ([semadj]) of each undo structure. *)
Record sem_array := SemArray {
  sem_base : list sem; sem_pending : list sem_queue; undos : gmap Z (list Z) }.

(** ** [try_atomic_semop] *)

(** How the forward loop ended: through, at an operation that must wait, or out of range. *)
Inductive attempt := Through | WouldBlock (sop : sembuf) | OutOfRange.

(** The forward loop; [past] holds the operations applied so far, the last one first. *)
Fixpoint apply_loop (semadj : option (list Z)) (sops past : list sembuf) (base : list sem)
  : option (attempt * list sembuf * list sem) :=
  match sops with
  | [] => Some (Through, past, base)
  | sop :: rest =>
    curr ← base !! Z.to_nat (sem_num sop);
    let result := semval curr in
    if (sem_op sop =? 0) && negb (result =? 0) then Some (WouldBlock sop, past, base)
    else
      let result := s32 (result + sem_op sop) in
      if result <? 0 then Some (WouldBlock sop, past, base)
      else if result >? SEMVMX then Some (OutOfRange, past, base)
      else
        bad ← (if flagged sop SEM_UNDO then
                 adj ← semadj;
                 v ← adj !! Z.to_nat (sem_num sop);
                 let undo := s32 (v - sem_op sop) in
                 Some ((undo <? - SEMAEM - 1) || (undo >? SEMAEM))
               else Some false);
        if (bad : bool) then Some (OutOfRange, past, base)
        else apply_loop semadj rest (sop :: past)
               (<[Z.to_nat (sem_num sop) := Sem result (sempid curr)]> base)
  end.

(** The loop at [undo:], from the last operation back to the first. *)
Fixpoint undo_loop (past : list sembuf) (base : list sem) : option (list sem) :=
  match past with
  | [] => Some base
  | sop :: past =>
    curr ← base !! Z.to_nat (sem_num sop);
    undo_loop past (<[Z.to_nat (sem_num sop) := Sem (s32 (semval curr - sem_op sop)) (sempid curr)]> base)
  end.

(** The loop after success: record the process and the adjustments. *)
Fixpoint commit_loop (pid : Z) (past : list sembuf) (base : list sem) (semadj : option (list Z))
  : option (list sem * option (list Z)) :=
  match past with
  | [] => Some (base, semadj)
  | sop :: past =>
    curr ← base !! Z.to_nat (sem_num sop);
    let base := <[Z.to_nat (sem_num sop) := Sem (semval curr) pid]> base in
    semadj ← (if flagged sop SEM_UNDO then
                adj ← semadj;
                v ← adj !! Z.to_nat (sem_num sop);
                Some (Some (<[Z.to_nat (sem_num sop) := s16 (v - sem_op sop)]> adj))
              else Some semadj);
    commit_loop pid past base semadj
  end.

Definition get_undo (a : sem_array) (un : option Z) : option (list Z) := un ≫= fun u => undos a !! u.

Definition put_undo (un : option Z) (semadj : option (list Z)) (m : gmap Z (list Z)) : gmap Z (list Z) :=
  match un, semadj with Some u, Some adj => <[u := adj]> m | _, _ => m end.

(** Returns 0 if all operations succeeded, 1 if the caller must sleep, else an error. *)
Definition try_atomic_semop (a : sem_array) (sops : list sembuf) (un : option Z) (pid : Z)
  : option (Z * sem_array) :=
  '(o, past, base) ← apply_loop (get_undo a un) sops [] (sem_base a);
  match o with
  | Through =>
    '(base, adj) ← commit_loop pid past base (get_undo a un);
    Some (0, SemArray base (sem_pending a) (put_undo un adj (undos a)))
  | OutOfRange =>
    base ← undo_loop past base;
    Some (- ERANGE, SemArray base (sem_pending a) (undos a))
  | WouldBlock sop =>
    base ← undo_loop past base;
    Some (if flagged sop IPC_NOWAIT then - EAGAIN else 1, SemArray base (sem_pending a) (undos a))
  end.

(** ** The queue *)

Definition with_pending (a : sem_array) (l : list sem_queue) : sem_array :=
  SemArray (sem_base a) l (undos a).

Definition append_to_queue (a : sem_array) (q : sem_queue) : sem_array :=
  with_pending a (sem_pending a ++ [q]).
Definition prepend_to_queue (a : sem_array) (q : sem_queue) : sem_array :=
  with_pending a (q :: sem_pending a).
(** The entry at a position of the queue. *)
Definition remove_from_queue (a : sem_array) (pos : nat) : sem_array :=
  with_pending a (delete pos (sem_pending a)).

(** The scan of [update_queue] from position [pos]; the result lists the sleepers woken and the
    status each one gets. *)
Fixpoint update_loop (fuel : nat) (pos : nat) (a : sem_array) : option (sem_array * list (Z * Z)) :=
  match sem_pending a !! pos with
  | None => Some (a, [])
  | Some q =>
    match fuel with
    | O => None
    | S fuel =>
      '(error, a) ← try_atomic_semop a (q_sops q) (q_undo q) (q_pid q);
      if error <=? 0 then
        let a := remove_from_queue a pos in
        '(a, woken) ← update_loop fuel (if q_alter q then O else pos) a;
        Some (a, (sleeper q, error) :: woken)
      else update_loop fuel (S pos) a
    end
  end.

Definition update_queue (a : sem_array) : option (sem_array * list (Z * Z)) :=
  let n := length (sem_pending a) in update_loop (n * n + n) 0 a.

(** [count_semncnt] and [count_semzcnt]. *)
Definition waits_nonzero (semnum : Z) (sop : sembuf) : bool :=
  (sem_num sop =? semnum) && (sem_op sop <? 0) && negb (flagged sop IPC_NOWAIT).
Definition waits_zero (semnum : Z) (sop : sembuf) : bool :=
  (sem_num sop =? semnum) && (sem_op sop =? 0) && negb (flagged sop IPC_NOWAIT).

Definition count_semncnt (a : sem_array) (semnum : Z) : Z :=
  zsum (fun q => zsum (fun sop => Z.b2z (waits_nonzero semnum sop)) (q_sops q)) (sem_pending a).
Definition count_semzcnt (a : sem_array) (semnum : Z) : Z :=
  zsum (fun q => zsum (fun sop => Z.b2z (waits_zero semnum sop)) (q_sops q)) (sem_pending a).

(** ** The calls *)

(** The scan of the operations in [sys_semtimedop]: the largest index, whether an undo structure
    is needed, whether the array is altered. *)
Definition scan_max (sops : list sembuf) : Z :=
  foldl (fun m sop => if sem_num sop >=? m then sem_num sop else m) 0 sops.
Definition scan_undos (sops : list sembuf) : bool := existsb (fun sop => flagged sop SEM_UNDO) sops.
Definition scan_alter (sops : list sembuf) : bool := existsb (fun sop => negb (sem_op sop =? 0)) sops.

(** [find_undo]: the caller's undo structure, created with zero adjustments on first use. *)
Definition find_undo (a : sem_array) (ulp : Z) : sem_array :=
  match undos a !! ulp with
  | Some _ => a
  | None => SemArray (sem_base a) (sem_pending a)
              (<[ulp := replicate (length (sem_base a)) 0]> (undos a))
  end.

(** What [sys_semtimedop] does until it returns or sleeps: [Some r] is its return value,
    [None] that the caller sleeps.  [ulp] is the caller's undo list, [pid] its thread group. *)
Definition semtimedop_enter (a : sem_array) (task ulp pid : Z) (sops : list sembuf)
  : option (option Z * sem_array * list (Z * Z)) :=
  let nsops := Z.of_nat (length sops) in
  if nsops <? 1 then Some (Some (- EINVAL), a, [])
  else if nsops >? SEMOPM then Some (Some (- E2BIG), a, [])
  else
    let max := scan_max sops in
    let alter := scan_alter sops in
    let a := if scan_undos sops then find_undo a ulp else a in
    let un := if scan_undos sops then Some ulp else None in
    if max >=? Z.of_nat (length (sem_base a)) then Some (Some (- EFBIG), a, [])
    else
      '(error, a) ← try_atomic_semop a sops un pid;
      if error <=? 0 then
        if alter && (error =? 0)
        then '(a, woken) ← update_queue a; Some (Some error, a, woken)
        else Some (Some error, a, [])
      else
        let q := SemQueue task un pid sops alter in
        Some (None, if alter then append_to_queue a q else prepend_to_queue a q, []).

(** A sleeper that was not woken by [update_queue] (a signal or the timeout) takes its
    entry out of the queue. *)
Definition semtimedop_interrupted (a : sem_array) (pos : nat) (timed_out : bool) : Z * sem_array :=
  (if timed_out then - EAGAIN else - EINTR, remove_from_queue a pos).

Definition clear_adj (n : nat) (adj : list Z) : list Z := <[n := 0]> adj.

(** [semctl_main], the commands after the checks of identifier and permissions. *)
Definition semctl_SETVAL (a : sem_array) (semnum val pid : Z) : option (Z * sem_array * list (Z * Z)) :=
  if (semnum <? 0) || (semnum >=? Z.of_nat (length (sem_base a))) then Some (- EINVAL, a, [])
  else if (val >? SEMVMX) || (val <? 0) then Some (- ERANGE, a, [])
  else
    let n := Z.to_nat semnum in
    let a := SemArray (<[n := Sem val pid]> (sem_base a)) (sem_pending a) (clear_adj n <$> undos a) in
    '(a, woken) ← update_queue a;
    Some (0, a, woken).

Definition semctl_SETALL (a : sem_array) (vals : list Z) : option (Z * sem_array * list (Z * Z)) :=
  if existsb (fun v => v >? SEMVMX) vals then Some (- ERANGE, a, [])
  else
    let a := SemArray (zip_with (fun s v => Sem v (sempid s)) (sem_base a) vals) (sem_pending a)
               ((fun adj => replicate (length (sem_base a)) 0) <$> undos a) in
    '(a, woken) ← update_queue a;
    Some (0, a, woken).

Definition semctl_GETALL (a : sem_array) : list Z := semval <$> sem_base a.

Definition semctl_get (a : sem_array) (f : sem -> Z) (semnum : Z) : Z :=
  if (semnum <? 0) || (semnum >=? Z.of_nat (length (sem_base a))) then - EINVAL
  else match sem_base a !! Z.to_nat semnum with Some s => f s | None => - EINVAL end.
Definition semctl_GETVAL (a : sem_array) (semnum : Z) : Z := semctl_get a semval semnum.
Definition semctl_GETPID (a : sem_array) (semnum : Z) : Z := semctl_get a sempid semnum.

(** [freeary]: every sleeper is woken with [EIDRM], the undo structures are invalidated. *)
Definition freeary (a : sem_array) : list (Z * Z) := (fun q => (sleeper q, - EIDRM)) <$> sem_pending a.

(** The adjustment of one semaphore in [exit_sem]. *)
Definition exit_adjust (pid : Z) (s : sem) (adj : Z) : sem :=
  if adj =? 0 then s
  else
    let v := s32 (semval s + adj) in
    let v := if v <? 0 then 0 else v in
    let v := if v >? SEMVMX then SEMVMX else v in
    Sem v pid.

(** [exit_sem] for the undo structure of one set. *)
Definition exit_sem (a : sem_array) (u pid : Z) : option (sem_array * list (Z * Z)) :=
  match undos a !! u with
  | None => Some (a, [])
  | Some adj =>
    update_queue (SemArray (zip_with (exit_adjust pid) (sem_base a) adj) (sem_pending a) (delete u (undos a)))
  end.

(** ** Atomicity *)

Definition val_ok (s : sem) : Prop := 0 <= semval s <= SEMVMX.
Definition is_short (x : Z) : Prop := - 2 ^ 15 <= x < 2 ^ 15.
Definition sop_ok (n : nat) (sop : sembuf) : Prop :=
  0 <= sem_num sop < Z.of_nat n /\ is_short (sem_op sop).
Definition adj_ok (n : nat) (adj : list Z) : Prop := length adj = n /\ Forall is_short adj.

(** The adjustments exist wherever an operation needs them. *)
Definition undo_ok (n : nat) (semadj : option (list Z)) (sops : list sembuf) : Prop :=
  match semadj with Some adj => adj_ok n adj | None => Forall (fun sop => flagged sop SEM_UNDO = false) sops end.

(** The specification: apply the operations one by one to a copy of the values; the
    copy is the result if all can proceed, otherwise the first obstacle is. *)
Fixpoint semop_spec (adj : list Z) (sops : list sembuf) (vals : list Z) : attempt + list Z :=
  match sops with
  | [] => inr vals
  | sop :: rest =>
    let i := Z.to_nat (sem_num sop) in
    let v := vals !!! i in
    if (sem_op sop =? 0) && negb (v =? 0) then inl (WouldBlock sop)
    else if v + sem_op sop <? 0 then inl (WouldBlock sop)
    else if v + sem_op sop >? SEMVMX then inl OutOfRange
    else if flagged sop SEM_UNDO
            && ((adj !!! i - sem_op sop <? - SEMAEM - 1) || (adj !!! i - sem_op sop >? SEMAEM))
    then inl OutOfRange
    else semop_spec adj rest (<[i := v + sem_op sop]> vals)
  end.

Definition spec_code (r : attempt + list Z) : Z :=
  match r with
  | inr _ => 0
  | inl (WouldBlock sop) => if flagged sop IPC_NOWAIT then - EAGAIN else 1
  | inl _ => - ERANGE
  end.

Definition values (a : sem_array) : list Z := semval <$> sem_base a.

Lemma insert_sem_id (base : list sem) i s : base !! i = Some s -> <[i := Sem (semval s) (sempid s)]> base = base.
Proof. intros H. apply list_insert_id. rewrite H. by destruct s. Qed.

(** The forward loop follows the specification, and undoing what it did restores the array. *)
Lemma apply_loop_ok semadj sops : forall past base,
  Forall (sop_ok (length base)) sops -> undo_ok (length base) semadj sops -> Forall val_ok base ->
  exists o past' base',
    apply_loop semadj sops past base = Some (o, past', base')
    /\ undo_loop past' base' = undo_loop past base
    /\ length base' = length base /\ Forall val_ok base'
    /\ match semop_spec (default [] semadj) sops (semval <$> base) with
       | inr vals => o = Through /\ past' = rev sops ++ past /\ semval <$> base' = vals
       | inl o' => o = o' /\ o <> Through
       end.
Proof.
  induction sops as [|sop sops IH]; intros past base Hs Hu Hv.
  { exists Through, past, base. done. }
  apply Forall_cons in Hs as [[Hn Hop] Hs]. simpl. set (i := Z.to_nat (sem_num sop)) in *.
  destruct (lookup_lt_is_Some_2 base i) as [c Hc]; [lia|].
  pose proof (Forall_lookup_1 _ _ _ _ Hv Hc) as [Hc0 Hc1]. unfold is_short, SEMVMX in *.
  rewrite Hc. cbn [mbind option_bind].
  assert (Hlk : (semval <$> base) !!! i = semval c).
  { apply list_lookup_total_correct. by rewrite list_lookup_fmap, Hc. }
  rewrite Hlk. destruct ((sem_op sop =? 0) && negb (semval c =? 0)).
  { exists (WouldBlock sop), past, base. done. }
  rewrite s32_small by lia. destruct (Z.ltb_spec (semval c + sem_op sop) 0).
  { exists (WouldBlock sop), past, base. done. }
  destruct (Z.gtb_spec (semval c + sem_op sop) 32767).
  { exists OutOfRange, past, base. done. }
  assert (Hbad : (if flagged sop SEM_UNDO
     then adj ← semadj; v ← adj !! i;
          Some ((s32 (v - sem_op sop) <? - SEMAEM - 1) || (s32 (v - sem_op sop) >? SEMAEM))
     else Some false)
    = Some (flagged sop SEM_UNDO && ((default [] semadj !!! i - sem_op sop <? - SEMAEM - 1)
        || (default [] semadj !!! i - sem_op sop >? SEMAEM)))).
  { destruct (flagged sop SEM_UNDO) eqn:Ef; [|done]. destruct semadj as [adj|].
    - destruct Hu as [Hl Ha]. destruct (lookup_lt_is_Some_2 adj i) as [v Hv']; [lia|].
      pose proof (Forall_lookup_1 _ _ _ _ Ha Hv') as Hvs. unfold is_short in Hvs.
      simpl. rewrite Hv'. simpl. rewrite s32_small by lia. by rewrite (list_lookup_total_correct _ _ _ Hv').
    - apply Forall_cons in Hu as [Hu _]. congruence. }
  rewrite Hbad. cbn [mbind option_bind].
  destruct (flagged sop SEM_UNDO && _); [by exists OutOfRange, past, base|].
  destruct (IH (sop :: past) (<[i := Sem (semval c + sem_op sop) (sempid c)]> base))
    as (o & past' & base' & -> & Hund & Hlen & Hok & Hspec).
  - by rewrite length_insert.
  - rewrite length_insert. destruct semadj; [done|]. by apply Forall_cons in Hu as [_ ?].
  - apply Forall_insert; [done|]. unfold val_ok, SEMVMX. simpl. lia.
  - exists o, past', base'. split_and!; [done| |by rewrite Hlen, length_insert|done|].
    + rewrite Hund. cbn [undo_loop]. fold i. rewrite list_lookup_insert_eq by lia. cbn [mbind option_bind semval sempid].
      rewrite list_insert_insert_eq. do 2 f_equal. rewrite s32_small by lia.
      replace (semval c + sem_op sop - sem_op sop) with (semval c) by lia. by apply insert_sem_id.
    + rewrite list_fmap_insert in Hspec. cbn [semval] in Hspec.
      destruct (semop_spec _ sops _); [done|]. destruct Hspec as (-> & -> & ?). split_and!; [done| |done].
      cbn [rev]. by rewrite <- app_assoc.
Qed.

Lemma insert_pid_values (base : list sem) i c pid :
  base !! i = Some c -> semval <$> <[i := Sem (semval c) pid]> base = semval <$> base.
Proof.
  intros Hc. rewrite list_fmap_insert. apply list_insert_id. by rewrite list_lookup_fmap, Hc.
Qed.

(** The sum of the operations on one semaphore that are to be undone. *)
Definition undo_sum (i : nat) (sops : list sembuf) : Z :=
  zsum (fun sop => if flagged sop SEM_UNDO && (Z.to_nat (sem_num sop) =? i)%nat then sem_op sop else 0) sops.

Lemma s16_range x : is_short (s16 x).
Proof. unfold is_short, s16, sN. mlia. Qed.

Lemma s16_sub x y : s16 (s16 x - y) = s16 (x - y).
Proof. unfold s16, sN. mlia. Qed.

(** The commit loop changes no value and subtracts the operations from the adjustments. *)
Lemma commit_loop_ok pid past : forall base semadj,
  Forall (sop_ok (length base)) past -> undo_ok (length base) semadj past ->
  exists base' semadj', commit_loop pid past base semadj = Some (base', semadj')
    /\ semval <$> base' = semval <$> base /\ length base' = length base
    /\ match semadj, semadj' with
       | Some adj, Some adj' => adj_ok (length base) adj'
           /\ forall i v, adj !! i = Some v -> adj' !! i = Some (s16 (v - undo_sum i past))
       | None, None => True
       | _, _ => False
       end.
Proof.
  induction past as [|sop past IH]; intros base semadj Hs Hu.
  { exists base, semadj. split_and!; try done. destruct semadj as [adj|]; [|done]. split; [done|].
    intros i v Hv. destruct Hu as [_ Ha]. pose proof (Forall_lookup_1 _ _ _ _ Ha Hv) as Hvs.
    unfold undo_sum. simpl. rewrite Z.sub_0_r, s16_small; [done|apply Hvs]. }
  apply Forall_cons in Hs as [[Hn Hop] Hs]. simpl. set (j := Z.to_nat (sem_num sop)) in *.
  destruct (lookup_lt_is_Some_2 base j) as [c Hc]; [lia|]. rewrite Hc. cbn [mbind option_bind].
  set (base1 := <[j := Sem (semval c) pid]> base).
  assert (Hl1 : length base1 = length base) by apply length_insert.
  assert (Hv1 : semval <$> base1 = semval <$> base) by by apply insert_pid_values.
  destruct semadj as [adj|]; simpl in Hu.
  - destruct Hu as [Hl Ha]. destruct (lookup_lt_is_Some_2 adj j) as [v Hv]; [lia|].
    set (adj1 := if flagged sop SEM_UNDO then <[j := s16 (v - sem_op sop)]> adj else adj).
    assert (Hstep : (if flagged sop SEM_UNDO
       then adj ← Some adj; v ← adj !! j; Some (Some (<[j := s16 (v - sem_op sop)]> adj)) else Some (Some adj))
      = Some (Some adj1)).
    { subst adj1. destruct (flagged sop SEM_UNDO); [|done]. simpl. by rewrite Hv. }
    assert (Hok1 : adj_ok (length base1) adj1).
    { rewrite Hl1. subst adj1. destruct (flagged sop SEM_UNDO); [|done].
      split; [by rewrite length_insert|]. apply Forall_insert; [done|apply s16_range]. }
    rewrite Hstep. cbn [mbind option_bind]. destruct (IH base1 (Some adj1)) as (b' & a' & -> & Hvv & Hll & Hadj).
    { by rewrite Hl1. } { done. }
    exists b', a'. split_and!; [done|congruence|congruence|]. destruct a' as [adj'|]; [|done].
    destruct Hadj as [Hok' Hlk]. split; [by rewrite <- Hl1|]. intros i w Hw. unfold undo_sum. cbn [zsum].
    fold (undo_sum i past). fold j. destruct (flagged sop SEM_UNDO) eqn:Ef; subst adj1; cbn [andb].
    + destruct (Nat.eqb_spec j i) as [<- |Hne].
      * rewrite Hv in Hw. simplify_eq. erewrite Hlk by (apply list_lookup_insert_eq; lia).
        rewrite s16_sub. do 2 f_equal. lia.
      * erewrite Hlk by (rewrite list_lookup_insert_ne; done). by rewrite Z.add_0_l.
    + erewrite Hlk by done. by rewrite Z.add_0_l.
  - apply Forall_cons in Hu as [Hf Hu]. rewrite Hf. cbn [mbind option_bind].
    destruct (IH base1 None) as (b' & a' & -> & Hvv & Hll & Hadj); [by rewrite Hl1|done|].
    exists b', a'. split_and!; [done|congruence|congruence|done].
Qed.

Lemma Forall_fmap_semval (base : list sem) :
  Forall val_ok base <-> Forall (fun v => 0 <= v <= SEMVMX) (semval <$> base).
Proof. by rewrite Forall_fmap. Qed.

Lemma undo_sum_rev i sops : undo_sum i (rev sops) = undo_sum i sops.
Proof. apply zsum_perm. by rewrite <- Permutation_rev. Qed.

(** The adjustments after the operations. *)
Definition adjusted (sops : list sembuf) (adj : list Z) : list Z :=
  imap (fun i v => s16 (v - undo_sum i sops)) adj.

Lemma adjusted_eq sops n adj adj' :
  adj_ok n adj -> adj_ok n adj' ->
  (forall i v, adj !! i = Some v -> adj' !! i = Some (s16 (v - undo_sum i sops))) ->
  adj' = adjusted sops adj.
Proof.
  intros [Hl _] [Hl' _] H. apply list_eq_same_length with n; [by unfold adjusted; rewrite length_imap|done|].
  intros i x y Hi Hx Hy. unfold adjusted in Hy. rewrite list_lookup_imap in Hy.
  destruct (adj !! i) as [v|] eqn:E; [|done]. rewrite (H i v E) in Hx. simpl in Hy. congruence.
Qed.

(** A vector of operations that the set can take: indices and operations in range, and the
    caller's adjustments present if needed. *)
Definition call_ok (a : sem_array) (sops : list sembuf) (un : option Z) : Prop :=
  Forall (sop_ok (length (sem_base a))) sops /\ undo_ok (length (sem_base a)) (get_undo a un) sops
  /\ match un with Some u => u ∈ dom (undos a) | None => True end.

Definition array_ok (a : sem_array) : Prop :=
  Forall val_ok (sem_base a)
  /\ forall u adj, undos a !! u = Some adj -> adj_ok (length (sem_base a)) adj.

(** [try_atomic_semop] implements the specification: on success the values are those of the copy
    and the adjustments move by the operations to be undone; otherwise nothing changes. *)
Lemma try_atomic_semop_ok a sops un pid :
  array_ok a -> call_ok a sops un ->
  let r := semop_spec (default [] (get_undo a un)) sops (values a) in
  exists a', try_atomic_semop a sops un pid = Some (spec_code r, a')
    /\ sem_pending a' = sem_pending a /\ length (sem_base a') = length (sem_base a) /\ array_ok a'
    /\ match r with
       | inl _ => a' = a
       | inr vals => values a' = vals
           /\ forall u, undos a' !! u = if decide (un = Some u) then adjusted sops <$> undos a !! u
                                       else undos a !! u
       end.
Proof.
  intros [Hv Hadj] (Hs & Hu & _) r. unfold try_atomic_semop.
  destruct (apply_loop_ok (get_undo a un) sops [] (sem_base a) Hs Hu Hv)
    as (o & past & base & -> & Hund & Hlen & Hok & Hspec).
  cbn [mbind option_bind]. fold (values a) in Hspec. fold r in Hspec. cbn [undo_loop] in Hund.
  destruct r as [o'|vals].
  - destruct Hspec as [<- Hnt].
    assert (Hsame : SemArray (sem_base a) (sem_pending a) (undos a) = a) by by destruct a.
    destruct o; [done|rewrite Hund; cbn; rewrite Hsame; by exists a..].
  - destruct Hspec as (-> & -> & Hvals). rewrite app_nil_r.
    destruct (commit_loop_ok pid (rev sops) base (get_undo a un)) as (base' & adj' & -> & Hvv & Hll & Ha').
    { rewrite Hlen. by rewrite <- Permutation_rev. }
    { rewrite Hlen. unfold undo_ok in *. destruct (get_undo a un); [done|]. by rewrite <- Permutation_rev. }
    cbn [mbind option_bind]. eexists. split; [done|]. cbn [sem_pending sem_base undos].
    rewrite Hll, Hlen in *. assert (Hvals' : semval <$> base' = vals) by congruence.
    split_and!; [done|done|split| |].
    + cbn [sem_base]. apply Forall_fmap_semval. rewrite Hvals', <- Hvals. by apply Forall_fmap_semval.
    + cbn [undos sem_base]. intros u adj1. rewrite Hll. unfold put_undo.
      destruct un as [u0|]; [|apply Hadj]. destruct adj' as [adj0|]; [|apply Hadj].
      destruct (decide (u = u0)) as [-> |]; [|rewrite lookup_insert_ne by done; apply Hadj].
      rewrite lookup_insert_eq. intros [= <-]. destruct (get_undo a (Some u0)); [apply Ha'|done].
    + done.
    + intros u. unfold put_undo. destruct un as [u0|]; [|by rewrite decide_False].
      simpl in Ha', Hu. destruct (undos a !! u0) as [adj|] eqn:Eu.
      * destruct adj' as [adj0|]; [|done]. destruct (decide (Some u0 = Some u)) as [[= <-]|Hne].
        -- rewrite lookup_insert_eq, Eu. simpl. f_equal.
           apply (adjusted_eq sops (length (sem_base a))); [done|apply Ha'|].
           intros i v Hi. rewrite <- undo_sum_rev. by apply Ha'.
        -- apply lookup_insert_ne. congruence.
      * destruct adj' as [adj0|]; [done|]. destruct (decide (Some u0 = Some u)) as [[= <-]|]; [|done].
        by rewrite Eu.
Qed.

(** ** The queue is worked off *)

Definition verdict (a : sem_array) (q : sem_queue) : attempt + list Z :=
  semop_spec (default [] (get_undo a (q_undo q))) (q_sops q) (values a).

(** The operation of a queue entry cannot proceed and may wait. *)
Definition blocked (a : sem_array) (q : sem_queue) : Prop := spec_code (verdict a q) = 1.

Definition q_ok (a : sem_array) (q : sem_queue) : Prop :=
  call_ok a (q_sops q) (q_undo q) /\ q_alter q = scan_alter (q_sops q).

(** Two states that look the same to every operation. *)
Definition same_view (a a' : sem_array) : Prop := values a' = values a /\ undos a' = undos a.

(** The shape of a set never changes under operations. *)
Definition same_shape (a a' : sem_array) : Prop :=
  length (sem_base a') = length (sem_base a) /\ dom (undos a') = dom (undos a).

Lemma blocked_view a a' q : same_view a a' -> blocked a q -> blocked a' q.
Proof. unfold blocked, verdict, get_undo. by intros [-> ->]. Qed.

Lemma q_ok_shape a a' q : same_shape a a' -> array_ok a' -> q_ok a q -> q_ok a' q.
Proof.
  intros [Hl Hd] [_ Ha'] [(Hs & Hu & Hun) Hal]. split; [split_and!|done]; rewrite ?Hl, ?Hd; try done.
  destruct (q_undo q) as [u|]; [|done]. apply elem_of_dom in Hun as [adj Hadj]. simpl in *.
  assert (Hin : u ∈ dom (undos a')) by (rewrite Hd; by eapply elem_of_dom_2).
  apply elem_of_dom in Hin as [adj' Hadj']. rewrite Hadj'. rewrite <- Hl. by apply (Ha' u).
Qed.

Lemma spec_no_alter adj sops vals vals' :
  scan_alter sops = false -> semop_spec adj sops vals = inr vals' -> vals' = vals.
Proof.
  revert vals. induction sops as [|sop sops IH]; intros vals Ha; simpl; [by intros [= ->]|].
  simpl in Ha. apply orb_false_iff in Ha as [H0 Ha]. zify_bool. rewrite H0, Z.add_0_r.
  repeat case_match; try done. intros Hr. rewrite (IH _ Ha Hr). apply list_eq. intros i.
  destruct (decide (i = Z.to_nat (sem_num sop))) as [-> |]; [|by rewrite list_lookup_insert_ne].
  destruct (decide (Z.to_nat (sem_num sop) < length vals)%nat).
  - rewrite list_lookup_insert_eq by done. by rewrite list_lookup_lookup_total_lt.
  - by rewrite list_insert_ge by lia.
Qed.

Lemma adjusted_no_alter n sops adj : scan_alter sops = false -> adj_ok n adj -> adjusted sops adj = adj.
Proof.
  intros Ha Hok. symmetry. apply (adjusted_eq sops n); [done..|]. intros i v Hi.
  assert (undo_sum i sops = 0) as ->.
  { apply zsum_0. intros sop Hin. destruct (_ && _); [|done].
    apply not_true_iff_false in Ha. destruct (Z.eqb_spec (sem_op sop) 0) as [|Hne]; [done|].
    destruct Ha. apply existsb_exists. exists sop. split; [by apply list_elem_of_In|]. by apply negb_true_iff, Z.eqb_neq. }
  destruct Hok as [_ Hf]. pose proof (Forall_lookup_1 _ _ _ _ Hf Hi) as Hs. rewrite Z.sub_0_r, s16_small; [done|apply Hs].
Qed.

(** One attempt of a queued or new operation. *)
Lemma attempt_ok a sops un pid :
  array_ok a -> call_ok a sops un ->
  exists e a', try_atomic_semop a sops un pid = Some (e, a')
    /\ e = spec_code (semop_spec (default [] (get_undo a un)) sops (values a))
    /\ sem_pending a' = sem_pending a /\ array_ok a' /\ same_shape a a'
    /\ (e <> 0 -> a' = a) /\ (scan_alter sops = false -> same_view a a').
Proof.
  intros Ha Hc. destruct (try_atomic_semop_ok a sops un pid Ha Hc) as (a' & He & Hp & Hl & Ha' & Hr).
  eexists _, a'. split; [exact He|]. split_and!; [done|done|done| | |].
  - split; [done|]. destruct (semop_spec _ sops _) as [o|vals]; [by subst|]. destruct Hr as [_ Hu].
    apply set_eq. intros u. rewrite !elem_of_dom, Hu. destruct (decide _); [by rewrite fmap_is_Some|done].
  - destruct (semop_spec _ sops _) as [o|vals]; [done|]. by intros [].
  - intros Hal. destruct (semop_spec _ sops (values a)) as [o|vals] eqn:Es; [by subst|].
    destruct Hr as [Hv Hu]. split; [rewrite Hv; by eapply spec_no_alter|].
    apply map_eq. intros u. rewrite Hu. destruct (decide _); [|done].
    destruct (undos a !! u) as [adj|] eqn:Eu; [|done]. simpl. f_equal.
    destruct Ha as [_ Ha]. by eapply adjusted_no_alter; [|eapply Ha].
Qed.

Lemma spec_code_cases r : spec_code r <= 0 \/ spec_code r = 1.
Proof. destruct r as [[|sop|]|vals]; simpl; try (left; done). destruct (flagged _ _); [by left|by right]. Qed.

Lemma same_shape_trans a b c : same_shape a b -> same_shape b c -> same_shape a c.
Proof. intros [? ?] [? ?]. split; congruence. Qed.

(** The scan ends, wakes sleepers of the queue only and leaves only blocked operations. *)
Lemma update_loop_ok fuel : forall pos a,
  array_ok a -> Forall (q_ok a) (sem_pending a) -> Forall (blocked a) (take pos (sem_pending a)) ->
  (pos <= length (sem_pending a))%nat ->
  (length (sem_pending a) * length (sem_pending a) + length (sem_pending a) <= fuel + pos)%nat ->
  exists a' woken, update_loop fuel pos a = Some (a', woken)
    /\ array_ok a' /\ same_shape a a' /\ Forall (q_ok a') (sem_pending a') /\ Forall (blocked a') (sem_pending a')
    /\ sublist (sem_pending a') (sem_pending a)
    /\ (sleeper <$> sem_pending a) ≡ₚ woken.*1 ++ (sleeper <$> sem_pending a')
    /\ Forall (fun w => w.2 <= 0) woken.
Proof.
  induction fuel as [|fuel IH]; intros pos a Ha Hq Hb Hp Hf; simpl;
    destruct (sem_pending a !! pos) as [q|] eqn:Eq.
  - apply lookup_lt_Some in Eq. nia.
  - apply lookup_ge_None in Eq. exists a, []. rewrite take_ge in Hb by done. done.
  - pose proof (Forall_lookup_1 _ _ _ _ Hq Eq) as [Hc Hal].
    destruct (attempt_ok a (q_sops q) (q_undo q) (q_pid q) Ha Hc) as (e & a1 & -> & He & Hp1 & Ha1 & Hsh & Hn0 & Hsv).
    cbn [mbind option_bind]. pose proof (lookup_lt_Some _ _ _ Eq) as Hlt.
    set (n := length (sem_pending a)) in *.
    assert (Hq1 : Forall (q_ok a1) (sem_pending a)) by (eapply Forall_impl; [exact Hq|]; intros; by eapply q_ok_shape).
    destruct (Z.leb_spec e 0) as [Hle|Hgt].
    + set (a2 := remove_from_queue a1 pos).
      assert (Hp2 : sem_pending a2 = delete pos (sem_pending a)) by (unfold a2; simpl; by rewrite Hp1).
      assert (Hl2 : length (sem_pending a2) = (n - 1)%nat) by (rewrite Hp2, length_delete; [done|by eexists]).
      assert (Hperm : sem_pending a ≡ₚ q :: sem_pending a2) by (rewrite Hp2; by apply delete_Permutation).
      destruct (IH (if q_alter q then 0%nat else pos) a2) as (a' & w & -> & Ha' & Hsh' & Hq' & Hb' & Hsub & Hw & Hst).
      * done.
      * rewrite Hperm in Hq1. by apply Forall_cons in Hq1 as [_ ?].
      * destruct (q_alter q) eqn:Eal; [by rewrite take_0|]. rewrite Hp2, delete_take_drop.
        rewrite take_app_le by (rewrite length_take; lia). rewrite take_take, Nat.min_id.
        eapply Forall_impl; [exact Hb|]. intros q' Hbl. eapply (blocked_view a); [apply Hsv; congruence|done].
      * destruct (q_alter q); lia.
      * rewrite Hl2. destruct (q_alter q); nia.
      * eexists _, _. split; [done|]. split_and!; [done|by eapply same_shape_trans|done|done| | |by constructor].
        -- etrans; [exact Hsub|]. rewrite Hp2. apply sublist_delete.
        -- by rewrite Hperm, fmap_cons, Hw.
    + assert (e = 1) as He1 by (destruct (spec_code_cases (verdict a q)) as [Hv|Hv]; unfold verdict in Hv; lia).
      assert (a1 = a) as -> by (apply Hn0; lia).
      destruct (IH (S pos) a) as (a' & w & Hr); [done|done| |lia|lia|by eexists _, _].
      rewrite (take_S_r _ _ q) by done. apply Forall_app. split; [done|]. constructor; [|done].
      unfold blocked, verdict. by rewrite <- He.
  - apply lookup_ge_None in Eq. exists a, []. rewrite take_ge in Hb by done. done.
Qed.

Lemma update_queue_ok a :
  array_ok a -> Forall (q_ok a) (sem_pending a) ->
  exists a' woken, update_queue a = Some (a', woken)
    /\ array_ok a' /\ same_shape a a' /\ Forall (q_ok a') (sem_pending a') /\ Forall (blocked a') (sem_pending a')
    /\ sublist (sem_pending a') (sem_pending a)
    /\ (sleeper <$> sem_pending a) ≡ₚ woken.*1 ++ (sleeper <$> sem_pending a')
    /\ Forall (fun w => w.2 <= 0) woken.
Proof. intros Ha Hq. unfold update_queue. apply update_loop_ok; [done|done|by rewrite take_0|lia|lia]. Qed.

(** ** The system *)

(** The calls: an operation vector by a task, a sleeper interrupted by a signal or its timeout,
    the setting of one or all values, and the exit of the last user of an undo structure. *)
Inductive call :=
| Semop (task ulp pid : Z) (sops : list sembuf)
| Interrupt (pos : nat) (timed_out : bool)
| SetVal (semnum val pid : Z)
| SetAll (vals : list Z)
| Exit (u pid : Z).

(** The types of the C arguments; [SETALL] copies one unsigned value per semaphore. *)
Definition call_valid (c : call) (a : sem_array) : Prop :=
  match c with
  | Semop _ _ _ sops => Forall (fun sop => 0 <= sem_num sop /\ is_short (sem_op sop)) sops
  | Interrupt pos _ => (pos < length (sem_pending a))%nat
  | SetVal _ _ _ => True
  | SetAll vals => length vals = length (sem_base a) /\ Forall (fun v => 0 <= v) vals
  | Exit u _ => Forall (fun q => q_undo q <> Some u) (sem_pending a)
  end.

#[global] Instance call_valid_dec c a : Decision (call_valid c a).
Proof. destruct c; simpl; unfold is_short; apply _. Defined.

Definition run_call (c : call) (a : sem_array) : option sem_array :=
  match c with
  | Semop task ulp pid sops => '(_, a, _) ← semtimedop_enter a task ulp pid sops; Some a
  | Interrupt pos t => Some (semtimedop_interrupted a pos t).2
  | SetVal semnum val pid => '(_, a, _) ← semctl_SETVAL a semnum val pid; Some a
  | SetAll vals => '(_, a, _) ← semctl_SETALL a vals; Some a
  | Exit u pid => '(a, _) ← exit_sem a u pid; Some a
  end.

Definition sysv_step (c : call) (a : sem_array) : option sem_array :=
  if decide (call_valid c a) then run_call c a else None.

(** A new set of [n] semaphores ([newary]). *)
Definition new_set (n : nat) : sem_array := SemArray (replicate n (Sem 0 0)) [] ∅.

Record set_ok (a : sem_array) : Prop := {
  set_array : array_ok a;
  set_queue : Forall (q_ok a) (sem_pending a);
  set_blocked : Forall (blocked a) (sem_pending a);
}.

Lemma scan_max_ge sops : forall m,
  m <= foldl (fun m sop => if sem_num sop >=? m then sem_num sop else m) m sops
  /\ Forall (fun sop => sem_num sop <= foldl (fun m sop => if sem_num sop >=? m then sem_num sop else m) m sops) sops.
Proof.
  induction sops as [|sop sops IH]; intros m; simpl; [split; [lia|done]|].
  destruct (Z.geb_spec (sem_num sop) m).
  - destruct (IH (sem_num sop)) as [H1 H2]. split; [lia|]. by constructor.
  - destruct (IH m) as [H1 H2]. split; [lia|]. constructor; [lia|done].
Qed.

(** Adding an undo structure no sleeper refers to. *)
Lemma blocked_undo a q u x :
  q_ok a q -> undos a !! u = None -> blocked a q ->
  blocked (SemArray (sem_base a) (sem_pending a) (<[u := x]> (undos a))) q.
Proof.
  intros [(_ & _ & Hun) _] Hn. unfold blocked, verdict, get_undo, values. cbn [undos sem_base].
  destruct (q_undo q) as [w|]; [|done]. simpl. rewrite lookup_insert_ne; [done|]. intros ->.
  apply elem_of_dom in Hun as [? ?]. congruence.
Qed.

Lemma q_ok_undo a q u x :
  q_ok a q -> adj_ok (length (sem_base a)) x ->
  q_ok (SemArray (sem_base a) (sem_pending a) (<[u := x]> (undos a))) q.
Proof.
  intros [(Hs & Hu & Hun) Hal] Hx. split; [|done]. split_and!; [done| |].
  - cbn [sem_base undos]. unfold get_undo. destruct (q_undo q) as [w|]; [|done]. simpl in *.
    destruct (decide (w = u)) as [-> |]; [by rewrite lookup_insert_eq|by rewrite lookup_insert_ne].
  - cbn [undos]. destruct (q_undo q); [|done]. rewrite dom_insert. set_solver.
Qed.

Lemma zeros_ok n : adj_ok n (replicate n 0).
Proof. split; [apply length_replicate|]. apply Forall_replicate. unfold is_short. lia. Qed.

Lemma find_undo_ok a ulp :
  set_ok a -> set_ok (find_undo a ulp) /\ sem_base (find_undo a ulp) = sem_base a
    /\ ulp ∈ dom (undos (find_undo a ulp)).
Proof.
  intros [[Hv Hu] Hq Hb]. unfold find_undo. destruct (undos a !! ulp) as [adj|] eqn:E.
  { split_and!; [done|done|by eapply elem_of_dom_2]. }
  split_and!; [|done|cbn [undos]; rewrite dom_insert; set_solver]. split; [split| |].
  - done.
  - intros u adj. cbn [undos sem_base]. destruct (decide (u = ulp)) as [-> |].
    + rewrite lookup_insert_eq. intros [= <-]. apply zeros_ok.
    + rewrite lookup_insert_ne by done. apply Hu.
  - eapply Forall_impl; [exact Hq|]. intros q Hqq. apply q_ok_undo; [done|apply zeros_ok].
  - apply Forall_forall. intros q Hin. rewrite Forall_forall in Hq, Hb. apply blocked_undo; auto.
Qed.

Lemma update_set_ok a :
  array_ok a -> Forall (q_ok a) (sem_pending a) ->
  exists a' woken, update_queue a = Some (a', woken) /\ set_ok a'.
Proof. intros Ha Hq. destruct (update_queue_ok a Ha Hq) as (a' & w & ? & ? & _ & ? & ? & _). by exists a', w. Qed.

(** The prepared vector of a call: in range if the bound check passed. *)
Lemma enter_call_ok a ulp sops :
  set_ok a -> Forall (fun sop => 0 <= sem_num sop /\ is_short (sem_op sop)) sops ->
  let a1 := if scan_undos sops then find_undo a ulp else a in
  let un := if scan_undos sops then Some ulp else None in
  scan_max sops < Z.of_nat (length (sem_base a1)) ->
  set_ok a1 /\ call_ok a1 sops un.
Proof.
  intros Hset Hs a1 un Hmax. assert (Hsops : Forall (sop_ok (length (sem_base a1))) sops).
  { destruct (scan_max_ge sops 0) as [_ Hge]. rewrite Forall_forall in *. intros sop Hin.
    destruct (Hs sop Hin). specialize (Hge sop Hin). unfold scan_max in Hmax. split; [lia|done]. }
  subst a1 un. destruct (scan_undos sops) eqn:Eu.
  - destruct (find_undo_ok a ulp Hset) as (Hset' & Hbase & Hin). split; [done|]. split_and!; [done| |done].
    apply elem_of_dom in Hin as [adj Hadj]. simpl. rewrite Hadj. by apply (proj2 (set_array _ Hset') ulp).
  - split; [done|]. split_and!; [done| |done]. simpl. apply Forall_forall. intros sop Hin.
    apply not_true_iff_false in Eu. apply not_true_iff_false. intros Hf. apply Eu.
    apply existsb_exists. exists sop. split; [by apply list_elem_of_In|done].
Qed.

Lemma q_ok_pending a l q : q_ok (with_pending a l) q <-> q_ok a q.
Proof. done. Qed.

Lemma semop_ok a task ulp pid sops :
  set_ok a -> Forall (fun sop => 0 <= sem_num sop /\ is_short (sem_op sop)) sops ->
  exists r a' woken, semtimedop_enter a task ulp pid sops = Some (r, a', woken) /\ set_ok a'.
Proof.
  intros Hset Hs. unfold semtimedop_enter.
  destruct (_ <? 1); [by eexists _, _, _|]. destruct (_ >? SEMOPM); [by eexists _, _, _|].
  pose proof (enter_call_ok a ulp sops Hset Hs) as Hcall. simpl in Hcall.
  assert (Hset1 : set_ok (if scan_undos sops then find_undo a ulp else a)).
  { destruct (scan_undos sops); [by apply find_undo_ok|done]. }
  set (a1 := if scan_undos sops then find_undo a ulp else a) in *.
  set (un := if scan_undos sops then Some ulp else None) in *. clearbody a1 un.
  rewrite Z.geb_leb. destruct (Z.leb_spec (Z.of_nat (length (sem_base a1))) (scan_max sops)) as [|Hlt];
    [by eexists _, _, _|]. destruct (Hcall Hlt) as [_ Hc]. destruct Hset1 as [Ha Hq Hb].
  destruct (attempt_ok a1 sops un pid Ha Hc) as (e & a2 & -> & He & Hp & Ha2 & Hsh & Hn0 & Hsv).
  cbn [mbind option_bind].
  assert (Hq2 : Forall (q_ok a2) (sem_pending a2)).
  { rewrite Hp. eapply Forall_impl; [exact Hq|]. intros; by eapply q_ok_shape. }
  destruct (Z.leb_spec e 0) as [Hle|Hgt].
  - destruct (scan_alter sops && (e =? 0)) eqn:Eal.
    + destruct (update_set_ok a2 Ha2 Hq2) as (a' & w & -> & Hok). by eexists _, _, _.
    + eexists _, _, _. split; [done|]. split; [done|done|]. rewrite Hp.
      assert (Hview : same_view a1 a2).
      { apply andb_false_iff in Eal as [Eal|Eal]; [by apply Hsv|]. apply Z.eqb_neq in Eal. by rewrite Hn0. }
      eapply Forall_impl; [exact Hb|]. intros q. by apply blocked_view.
  - assert (e = 1) as -> by (destruct (spec_code_cases (semop_spec (default [] (get_undo a1 un)) sops (values a1))); lia).
    assert (a2 = a1) as -> by by apply Hn0.
    set (q := SemQueue task un pid sops (scan_alter sops)).
    assert (Hqq : q_ok a1 q) by by split.
    assert (Hbq : blocked a1 q) by (unfold blocked, verdict; simpl; by rewrite <- He).
    eexists _, _, _. split; [done|]. destruct (scan_alter sops); split; cbn [sem_pending append_to_queue prepend_to_queue with_pending];
      try done; try (apply Forall_app; split; [done|by constructor]); by constructor.
Qed.

(** Setting values and adjustments directly, then working off the queue. *)
Lemma reset_ok a base und :
  set_ok a -> Forall val_ok base -> length base = length (sem_base a) ->
  (forall u adj, und !! u = Some adj -> adj_ok (length base) adj) ->
  (forall q u, q ∈ sem_pending a -> q_undo q = Some u -> u ∈ dom und) ->
  exists a' woken, update_queue (SemArray base (sem_pending a) und) = Some (a', woken) /\ set_ok a'.
Proof.
  intros [Ha Hq Hb] Hv Hl Hu Hin. apply update_set_ok; [by split|]. cbn [sem_pending].
  apply Forall_forall. intros q Hqin. rewrite Forall_forall in Hq. destruct (Hq q Hqin) as [(Hs & Huo & Hun) Hal].
  split; [|done]. split_and!; cbn [sem_base undos].
  - by rewrite Hl.
  - unfold get_undo. cbn [undos]. destruct (q_undo q) as [u|] eqn:Eu; [|done].
    apply (Hin q u Hqin) in Eu. apply elem_of_dom in Eu as [adj Hadj]. simpl. rewrite Hadj. by apply (Hu u).
  - destruct (q_undo q) as [u|] eqn:Eu; [|done]. by apply (Hin q u).
Qed.

Lemma pending_undo_dom a q u : set_ok a -> q ∈ sem_pending a -> q_undo q = Some u -> u ∈ dom (undos a).
Proof.
  intros [_ Hq _] Hin Hu. rewrite Forall_forall in Hq. destruct (Hq q Hin) as [(_ & _ & Hun) _]. by rewrite Hu in Hun.
Qed.

Lemma exit_adjust_ok pid s adj : val_ok s -> is_short adj -> val_ok (exit_adjust pid s adj).
Proof.
  unfold val_ok, is_short, exit_adjust, SEMVMX. intros Hs Ha. destruct (adj =? 0); [done|].
  rewrite s32_small by lia. cbn [semval]. destruct (Z.ltb_spec (semval s + adj) 0); [simpl; lia|].
  destruct (Z.gtb_spec (semval s + adj) 32767); simpl; lia.
Qed.

Lemma exit_base_ok pid : forall base adj,
  Forall val_ok base -> Forall is_short adj -> Forall val_ok (zip_with (exit_adjust pid) base adj).
Proof.
  induction base as [|s base IH]; intros [|x adj] Hb Ha; simpl; try constructor.
  - apply exit_adjust_ok; [by apply Forall_cons in Hb as [? _]|by apply Forall_cons in Ha as [? _]].
  - apply IH; [by apply Forall_cons in Hb as [_ ?]|by apply Forall_cons in Ha as [_ ?]].
Qed.

Lemma run_call_ok c a :
  set_ok a -> call_valid c a -> exists a', run_call c a = Some a' /\ set_ok a'.
Proof.
  intros Hset Hv. pose proof Hset as [[Hval Hadj] Hq Hb]. destruct c as [task ulp pid sops|pos t|semnum val pid|vals|u pid]; simpl in Hv |- *.
  - destruct (semop_ok a task ulp pid sops Hset Hv) as (r & a' & w & -> & Hok). by exists a'.
  - eexists. split; [done|]. split; [done|..]; by apply Forall_delete.
  - unfold semctl_SETVAL. destruct (_ || _) eqn:Er; [by exists a|]. apply orb_false_iff in Er as [H1 H2].
    destruct ((val >? SEMVMX) || (val <? 0)) eqn:Ev; [by exists a|]. apply orb_false_iff in Ev as [H3 H4].
    destruct (reset_ok a (<[Z.to_nat semnum := Sem val pid]> (sem_base a)) (clear_adj (Z.to_nat semnum) <$> undos a))
      as (a' & w & He & Hok); [done| |apply length_insert| | |rewrite He; by exists a'].
    + apply Forall_insert; [done|]. unfold val_ok. simpl. lia.
    + intros u adj. rewrite length_insert, lookup_fmap_Some. intros (adj0 & <- & Hu). destruct (Hadj u adj0 Hu) as [Hl Ha].
      split; [unfold clear_adj; by rewrite length_insert|]. apply Forall_insert; [done|]. unfold is_short. lia.
    + intros q u Hin Hqu. rewrite dom_fmap. by eapply pending_undo_dom.
  - destruct Hv as [Hl Hpos]. unfold semctl_SETALL. destruct (existsb _ _) eqn:Ee; [by exists a|].
    destruct (reset_ok a (zip_with (fun s v => Sem v (sempid s)) (sem_base a) vals)
      ((fun _ => replicate (length (sem_base a)) 0) <$> undos a)) as (a' & w & He & Hok);
      [done| |rewrite length_zip_with; lia| | |rewrite He; by exists a'].
    + apply Forall_lookup_2. intros i s Hi. apply lookup_zip_with_Some in Hi as (s0 & v & -> & _ & Hv).
      pose proof (Forall_lookup_1 _ _ _ _ Hpos Hv) as Hv0. unfold val_ok. simpl in *. split; [done|].
      apply not_true_iff_false in Ee. destruct (Z.le_gt_cases v SEMVMX); [done|]. destruct Ee.
      apply existsb_exists. exists v. split; [by apply list_elem_of_In, list_elem_of_lookup_2 with i|].
      rewrite Z.gtb_ltb. by apply Z.ltb_lt.
    + intros u adj. rewrite lookup_fmap_Some. intros (adj0 & <- & _).
      rewrite length_zip_with, Hl, Nat.min_id. apply zeros_ok.
    + intros q u Hin Hqu. rewrite dom_fmap. by eapply pending_undo_dom.
  - unfold exit_sem. destruct (undos a !! u) as [adj|] eqn:Eu; [|by exists a]. destruct (Hadj u adj Eu) as [Hl Ha].
    destruct (reset_ok a (zip_with (exit_adjust pid) (sem_base a) adj) (delete u (undos a)))
      as (a' & w & He & Hok); [done|by apply exit_base_ok|rewrite length_zip_with; lia| | |rewrite He; by exists a'].
    + intros u' adj' Hu'. apply lookup_delete_Some in Hu' as [_ Hu']. rewrite length_zip_with, Hl, Nat.min_id. by apply (Hadj u').
    + intros q u' Hin Hqu. rewrite dom_delete. apply elem_of_difference. split; [by eapply pending_undo_dom|].
      rewrite Forall_forall in Hv. specialize (Hv q Hin). set_solver.
Qed.

Lemma new_set_ok n : set_ok (new_set n).
Proof.
  split; [split|done|done]; [|done]. apply Forall_replicate. unfold val_ok, SEMVMX. simpl. lia.
Qed.

Lemma sysv_reach_ok n a : reach sysv_step (new_set n) a -> set_ok a.
Proof.
  apply reach_invariant; [apply new_set_ok|]. intros c a1 a2 H1. unfold sysv_step.
  destruct (decide (call_valid c a1)) as [Hv|]; [|done].
  destruct (run_call_ok c a1 H1 Hv) as (a' & -> & ?). by intros [= <-].
Qed.

(** C31: a vector of operations is applied all at once or not at all: whatever the set reached by
    earlier calls, [try_atomic_semop] returns the code of the specification that works on a
    copy; when it does not return 0, every value, process id, adjustment and queue entry is as
    before; when it does, the values are those of the copy and only the caller's adjustments
    moved. *)
Theorem sysv_semop_atomic n a sops un pid :
  reach sysv_step (new_set n) a -> call_ok a sops un ->
  let r := semop_spec (default [] (get_undo a un)) sops (values a) in
  exists a', try_atomic_semop a sops un pid = Some (spec_code r, a')
    /\ match r with
       | inl _ => a' = a
       | inr vals => values a' = vals /\ sem_pending a' = sem_pending a
           /\ Forall (fun v => 0 <= v <= SEMVMX) vals
           /\ forall u, undos a' !! u = if decide (un = Some u) then adjusted sops <$> undos a !! u
                                        else undos a !! u
       end.
Proof.
  intros Hr%sysv_reach_ok Hc r. destruct (try_atomic_semop_ok a sops un pid (set_array a Hr) Hc)
    as (a' & He & Hp & Hl & [Hv _] & Hres). fold r in He, Hres. exists a'. split; [done|].
  destruct r as [o|vals]; [done|]. destruct Hres as [<- Hu]. split_and!; [done|done| |done].
  by apply Forall_fmap_semval.
Qed.

(** C32: no call on a reached set leaves its arrays, and no wake-up is lost: the semaphore values
    stay between 0 and [SEMVMX], and between calls every sleeping operation still cannot
    proceed (trying it again would make it wait). *)
Theorem sysv_no_lost_wakeup n a c :
  reach sysv_step (new_set n) a -> call_valid c a ->
  is_Some (run_call c a)
  /\ Forall (fun v => 0 <= v <= SEMVMX) (values a)
  /\ forall q, q ∈ sem_pending a ->
       try_atomic_semop a (q_sops q) (q_undo q) (q_pid q) = Some (1, a).
Proof.
  intros Hr%sysv_reach_ok Hv. split_and!.
  - destruct (run_call_ok c a Hr Hv) as (a' & -> & _). by eexists.
  - apply Forall_fmap_semval, Hr.
  - intros q Hin. destruct Hr as [Ha Hq Hb]. rewrite Forall_forall in Hq, Hb.
    destruct (Hq q Hin) as [Hc _]. specialize (Hb q Hin). unfold blocked in Hb.
    destruct (attempt_ok a (q_sops q) (q_undo q) (q_pid q) Ha Hc) as (e & a' & -> & -> & _ & _ & _ & Hn0 & _).
    unfold verdict in Hb. rewrite Hb in *. by rewrite Hn0.
Qed.

(** After any change of the values and adjustments of a reached set, the scan of the queue
    ends, answers sleepers of the queue only, each at most once and
    never with "sleep", keeps the order of the others, and leaves only operations that cannot
    proceed. *)
Theorem sysv_update_queue_complete n a a1 :
  reach sysv_step (new_set n) a -> array_ok a1 -> same_shape a a1 -> sem_pending a1 = sem_pending a ->
  exists a' woken, update_queue a1 = Some (a', woken)
    /\ (sleeper <$> sem_pending a) ≡ₚ woken.*1 ++ (sleeper <$> sem_pending a')
    /\ sublist (sem_pending a') (sem_pending a)
    /\ Forall (fun w => w.2 <= 0) woken
    /\ Forall (blocked a') (sem_pending a').
Proof.
  intros Hr%sysv_reach_ok Ha1 Hsh Hp. destruct (update_queue_ok a1 Ha1) as (a' & w & -> & H); [|exists a', w; rewrite <- Hp; tauto].
  rewrite Hp. eapply Forall_impl; [apply Hr|]. intros. by eapply q_ok_shape.
Qed.

(** The operation at which a vector blocks waits for a decrease or for zero. *)
Lemma spec_block adj sops vals sop :
  semop_spec adj sops vals = inl (WouldBlock sop) -> Forall (fun v => 0 <= v) vals ->
  sop ∈ sops /\ sem_op sop <= 0.
Proof.
  revert vals. induction sops as [|s sops IH]; intros vals; simpl; [done|].
  destruct ((sem_op s =? 0) && _) eqn:E1.
  { intros [= <-] _. zify_bool. split; [left|lia]. }
  destruct (Z.ltb_spec (vals !!! Z.to_nat (sem_num s) + sem_op s) 0) as [Hlt|Hge].
  { intros [= <-] Hv. split; [left|]. destruct (decide (Z.to_nat (sem_num s) < length vals)%nat) as [Hl|Hl].
    - pose proof (Forall_lookup_total_1 _ _ _ Hv Hl) as H0. simpl in H0. lia.
    - rewrite list_lookup_total_alt, lookup_ge_None_2 in Hlt by lia. simpl in Hlt. unfold inhabitant in Hlt.
      cbn in Hlt. lia. }
  destruct (_ >? SEMVMX); [done|]. destruct (flagged s SEM_UNDO && _); [done|].
  intros H Hv. destruct (IH _ H) as [Hin Hop]; [by apply Forall_insert|]. split; [by right|done].
Qed.

(** As the comment before [count_semncnt] promises, every task on the pending queue is
    counted: [semncnt + semzcnt] is positive for one of the semaphores it waits for. *)
Theorem sysv_sleeper_counted n a q :
  reach sysv_step (new_set n) a -> q ∈ sem_pending a ->
  exists sop, sop ∈ q_sops q /\ 0 < count_semncnt a (sem_num sop) + count_semzcnt a (sem_num sop).
Proof.
  intros Hr%sysv_reach_ok Hin. destruct Hr as [[Hv _] _ Hb]. rewrite Forall_forall in Hb.
  specialize (Hb q Hin). unfold blocked in Hb. destruct (verdict a q) as [[|sop|]|] eqn:Ev; try done.
  simpl in Hb. destruct (flagged sop IPC_NOWAIT) eqn:Ef; [done|]. unfold verdict in Ev.
  destruct (spec_block _ _ _ _ Ev) as [Hs Hop].
  { apply Forall_fmap_semval in Hv. eapply Forall_impl; [exact Hv|]. simpl. lia. }
  exists sop. split; [done|]. apply list_elem_of_lookup in Hin as [i Hi]. apply list_elem_of_lookup in Hs as [j Hj].
  assert (Hcount : forall f : sembuf -> bool, Z.b2z (f sop) <= zsum (fun q => zsum (fun s => Z.b2z (f s)) (q_sops q)) (sem_pending a)).
  { intros f. pose proof (zsum_elem_le (fun s => Z.b2z (f s)) (q_sops q) j sop (fun _ _ => b2z_nonneg _) Hj) as H1.
    pose proof (zsum_elem_le (fun q => zsum (fun s => Z.b2z (f s)) (q_sops q)) (sem_pending a) i q
      (fun _ _ => zsum_nonneg _ _ (fun _ _ => b2z_nonneg _)) Hi) as H2. simpl in H1, H2. lia. }
  pose proof (Hcount (waits_nonzero (sem_num sop))) as H1. pose proof (Hcount (waits_zero (sem_num sop))) as H2.
  unfold count_semncnt, count_semzcnt. unfold waits_nonzero in H1 at 1. unfold waits_zero in H2 at 1.
  rewrite Z.eqb_refl, Ef in H1, H2. cbn [andb negb] in H1, H2. rewrite !andb_true_r in H1, H2.
  destruct (Z.eq_dec (sem_op sop) 0) as [E0|].
  - rewrite E0 in H1, H2. simpl in H1, H2. lia.
  - rewrite (proj2 (Z.ltb_lt _ 0)) in H1 by lia. rewrite (proj2 (Z.eqb_neq _ 0)) in H2 by done. simpl in H1, H2. lia.
Qed.

(** ** Undoing on exit *)

Lemma spec_sum adj n sops : forall vals vals',
  Forall (fun sop => flagged sop SEM_UNDO = true) sops -> Forall (sop_ok n) sops -> length vals = n ->
  semop_spec adj sops vals = inr vals' ->
  length vals' = n /\ forall i v, vals !! i = Some v -> vals' !! i = Some (v + undo_sum i sops).
Proof.
  induction sops as [|sop sops IH]; intros vals vals' Hf Hs Hl; simpl.
  { intros [= <-]. split; [done|]. intros i v ->. unfold undo_sum. simpl. f_equal. lia. }
  apply Forall_cons in Hf as [Hf Hfs]. apply Forall_cons in Hs as [[Hn _] Hs].
  set (j := Z.to_nat (sem_num sop)) in *.
  destruct (_ && negb _); [done|]. destruct (_ <? 0); [done|]. destruct (_ >? SEMVMX); [done|].
  destruct (flagged sop SEM_UNDO && _); [done|]. intros Hr.
  destruct (IH _ _ Hfs Hs ltac:(by rewrite length_insert) Hr) as [Hl' Hi]. split; [done|].
  intros i v Hv. unfold undo_sum. cbn [zsum]. fold (undo_sum i sops). fold j. rewrite Hf. cbn [andb].
  destruct (Nat.eqb_spec j i) as [<- |Hne].
  - erewrite Hi by (apply list_lookup_insert_eq; lia). rewrite (list_lookup_total_correct _ _ _ Hv). f_equal. lia.
  - erewrite Hi by (by rewrite list_lookup_insert_ne). by rewrite Z.add_0_l.
Qed.

(** Values moved by [d] come back when the adjustment is [-d]. *)
Lemma exit_restores pid (base base' : list sem) adj :
  length base' = length base -> Forall val_ok base ->
  (forall i s, base !! i = Some s -> exists d s',
     base' !! i = Some s' /\ adj !! i = Some (- d) /\ semval s' = semval s + d) ->
  semval <$> zip_with (exit_adjust pid) base' adj = semval <$> base.
Proof.
  intros Hl Hv H. apply list_eq. intros i. rewrite !list_lookup_fmap, lookup_zip_with.
  destruct (base !! i) as [s|] eqn:Ei.
  - destruct (H i s Ei) as (d & s' & -> & Ha & Hs'). simpl. rewrite Ha. simpl. f_equal. unfold exit_adjust.
    pose proof (Forall_lookup_1 _ _ _ _ Hv Ei) as [Hs0 Hs1]. unfold SEMVMX in *.
    destruct (Z.eqb_spec (- d) 0); [lia|]. cbn [semval]. rewrite Hs'.
    replace (semval s + d + - d) with (semval s) by lia.
    rewrite s32_small by lia. rewrite (proj2 (Z.ltb_ge _ 0)) by lia. destruct (Z.gtb_spec (semval s) 32767); lia.
  - apply lookup_ge_None in Ei. rewrite (lookup_ge_None_2 base') by lia. done.
Qed.

(** C33: a task that has no adjustments yet and performs a vector of operations all marked
    [SEM_UNDO] gives back what it took: when nobody sleeps on the set, its exit restores every
    value, provided the operations on each semaphore add up to a [short]. *)
Theorem sysv_undo_restores n a ulp pid sops a1 :
  reach sysv_step (new_set n) a -> sem_pending a = [] -> undos a !! ulp = None ->
  call_valid (Semop 0 ulp pid sops) a ->
  Forall (fun sop => flagged sop SEM_UNDO = true) sops ->
  (forall i, is_short (- undo_sum i sops)) ->
  semtimedop_enter a 0 ulp pid sops = Some (Some 0, a1, []) ->
  exists a2, exit_sem a1 ulp pid = Some (a2, []) /\ values a2 = values a.
Proof.
  intros Hr%sysv_reach_ok Hnp Hnu Hv Hflag Hshort. unfold semtimedop_enter.
  destruct (Z.ltb_spec (Z.of_nat (length sops)) 1) as [|Hne]; [done|].
  destruct (_ >? SEMOPM); [done|].
  assert (Hun : scan_undos sops = true).
  { destruct sops as [|s sops]; [simpl in Hne; lia|]. apply Forall_cons in Hflag as [Hf _]. simpl. by rewrite Hf. }
  pose proof (enter_call_ok a ulp sops Hr Hv) as Hcall. simpl in Hcall. rewrite Hun in Hcall |- *.
  assert (Ef : find_undo a ulp = SemArray (sem_base a) [] (<[ulp := replicate (length (sem_base a)) 0]> (undos a))).
  { unfold find_undo. by rewrite Hnu, Hnp. }
  rewrite Z.geb_leb. destruct (Z.leb_spec (Z.of_nat (length (sem_base (find_undo a ulp)))) (scan_max sops)) as [|Hlt]; [done|].
  destruct (Hcall Hlt) as [Hset Hc]. rewrite Ef in *.
  destruct (try_atomic_semop_ok _ sops (Some ulp) pid (set_array _ Hset) Hc) as (a' & -> & Hp & Hl & Ha' & Hres).
  cbn [mbind option_bind]. unfold get_undo in Hres |- *. simpl in Hres |- *. rewrite lookup_insert_eq in Hres |- *.
  simpl in Hres |- *. destruct (semop_spec _ sops _) as [o|vals] eqn:Es.
  { destruct (Z.leb_spec (spec_code (inl o)) 0); [|done].
    destruct (scan_alter sops && (spec_code (inl o) =? 0)) eqn:E; [|intros [= H1 _]; destruct o as [|s|]; simpl in H1; try done; by destruct (flagged s IPC_NOWAIT)].
    apply andb_true_iff in E as [_ E]. destruct o as [|s|]; simpl in E; try done. by destruct (flagged s IPC_NOWAIT). }
  destruct Hres as [Hvals Hu]. simpl. rewrite andb_true_r.
  assert (Hupd : update_queue a' = Some (a', [])) by (unfold update_queue; rewrite Hp; simpl; by rewrite Hp).
  rewrite Hupd. cbn [mbind option_bind].
  assert (Hgoal : exists a2, exit_sem a' ulp pid = Some (a2, []) /\ values a2 = values a).
  2: { destruct (scan_alter sops); by intros [= <-]. }
  specialize (Hu ulp). rewrite decide_True, lookup_insert_eq in Hu by done. simpl in Hu, Hl.
  unfold exit_sem. rewrite Hu. eexists. split; [unfold update_queue; cbn [sem_pending]; rewrite Hp; done|].
  destruct (spec_sum _ (length (sem_base a)) sops (values a) vals Hflag (proj1 Hc) (length_fmap semval (sem_base a)) Es)
    as [Hlv Hsum].
  apply exit_restores; [done|apply Hr|]. intros i s Ei. exists (undo_sum i sops).
  assert (Hi' : vals !! i = Some (semval s + undo_sum i sops))
    by (apply Hsum; unfold values; by rewrite list_lookup_fmap, Ei).
  rewrite <- Hvals in Hi'. unfold values in Hi'. rewrite list_lookup_fmap in Hi'.
  destruct (sem_base a' !! i) as [s'|]; [|done]. injection Hi' as Hs'. exists s'. split_and!; [done| |done].
  unfold adjusted. rewrite list_lookup_imap, lookup_replicate_2 by (by eapply lookup_lt_Some). simpl.
  rewrite Z.sub_0_l. by rewrite s16_small by apply Hshort.
Qed.

(** The range check of an adjustment looks at one operation at a time, the commit adds them up in
    a [short]: three operations on one semaphore, each in range, leave the adjustment 2 instead
    of -65534. *)
Lemma sysv_semadj_wraps :
  let up := Sembuf 0 32767 SEM_UNDO in
  let down := Sembuf 0 (-32767) 0 in
  exists a, semtimedop_enter (new_set 1) 1 7 1 [up; down; up] = Some (Some 0, a, [])
    /\ undos a !! 7 = Some [2].
Proof. eexists. split; [vm_compute; reflexivity|vm_compute; reflexivity]. Qed.

(** ** Errors *)

(** What a call of [semop] has to answer; [None] is "sleep". *)
Definition semop_outcome (a : sem_array) (ulp : Z) (sops : list sembuf) : option Z :=
  let n := length (sem_base a) in
  if (length sops =? 0)%nat then Some (- EINVAL)
  else if (32 <? length sops)%nat then Some (- E2BIG)
  else if existsb (fun sop => Z.of_nat n <=? sem_num sop) sops then Some (- EFBIG)
  else
    match semop_spec (default (replicate n 0) (undos a !! ulp)) sops (values a) with
    | inr _ => Some 0
    | inl (WouldBlock sop) => if flagged sop IPC_NOWAIT then Some (- EAGAIN) else None
    | inl _ => Some (- ERANGE)
    end.

Lemma spec_adj_irrelevant adj adj' sops : scan_undos sops = false -> forall vals,
  semop_spec adj sops vals = semop_spec adj' sops vals.
Proof.
  induction sops as [|sop sops IH]; intros Hu vals; [done|]. unfold scan_undos in Hu. cbn [existsb] in Hu.
  apply orb_false_iff in Hu as [Hf Hu]. cbn [semop_spec]. rewrite Hf. cbn [andb]. by rewrite (IH Hu).
Qed.

Lemma scan_max_in sops : forall m,
  foldl (fun m sop => if sem_num sop >=? m then sem_num sop else m) m sops = m
  \/ exists sop, sop ∈ sops /\ sem_num sop = foldl (fun m sop => if sem_num sop >=? m then sem_num sop else m) m sops.
Proof.
  induction sops as [|sop sops IH]; intros m; simpl; [by left|].
  destruct (IH (if sem_num sop >=? m then sem_num sop else m)) as [Hm|(sop' & Hin & He)].
  - rewrite Hm. destruct (sem_num sop >=? m); [right; exists sop; split; [by left|done]|by left].
  - right. exists sop'. split; [by right|done].
Qed.

Lemma scan_max_bound sops n : sops <> [] -> Forall (fun sop => 0 <= sem_num sop /\ is_short (sem_op sop)) sops ->
  (scan_max sops >=? Z.of_nat n) = existsb (fun sop => Z.of_nat n <=? sem_num sop) sops.
Proof.
  intros Hne Hs. rewrite Forall_forall in Hs. apply eq_bool_prop_intro. rewrite !Is_true_true, Z.geb_le, existsb_exists.
  unfold scan_max. split.
  - intros Hle. destruct (scan_max_in sops 0) as [Hm|(sop & Hin & He)].
    + destruct sops as [|sop sops]; [done|]. exists sop. split; [by left|]. apply Z.leb_le.
      destruct (Hs sop ltac:(by left)). lia.
    + exists sop. split; [by apply list_elem_of_In|]. apply Z.leb_le. lia.
  - intros (sop & Hin%list_elem_of_In & Hle%Z.leb_le). destruct (scan_max_ge sops 0) as [_ Hge].
    rewrite Forall_forall in Hge. specialize (Hge sop Hin). lia.
Qed.

(** What the call finds after the search for the undo structure. *)
Lemma enter_undo a ulp sops :
  let a1 := if scan_undos sops then find_undo a ulp else a in
  let un := if scan_undos sops then Some ulp else None in
  sem_base a1 = sem_base a /\ sem_pending a1 = sem_pending a
  /\ (forall u, undos a1 !! u = undos a !! u
        \/ (u = ulp /\ undos a !! u = None /\ undos a1 !! u = Some (replicate (length (sem_base a)) 0)))
  /\ semop_spec (default [] (get_undo a1 un)) sops (values a1)
     = semop_spec (default (replicate (length (sem_base a)) 0) (undos a !! ulp)) sops (values a).
Proof.
  intros a1 un. subst a1 un. destruct (scan_undos sops) eqn:Eu.
  - unfold find_undo, get_undo. destruct (undos a !! ulp) as [adj|] eqn:E; cbn [mbind option_bind].
    + rewrite E. cbn. split_and!; [done|done|by left|done].
    + cbn [sem_base sem_pending undos]. split_and!; [done|done| |].
      * intros u. destruct (decide (u = ulp)) as [-> |]; [right; by rewrite lookup_insert_eq|left; by rewrite lookup_insert_ne].
      * by rewrite lookup_insert_eq.
  - split_and!; [done|done|by left|by apply spec_adj_irrelevant].
Qed.

(** Every call of [semop] on a reached set answers with exactly the code its arguments
    deserve: [EINVAL] for an empty vector, [E2BIG] for more than 32 operations, [EFBIG] for a
    semaphore outside the set, [ERANGE] or [EAGAIN] for the first operation that is out of
    range or would block without being allowed to, or sleep.  A call that fails leaves the
    semaphores and the queue as they were and wakes nobody; a call that sleeps only enters
    the queue; the only trace of either is an undo structure of zeros for the caller. *)
Theorem sysv_semop_errors n a task ulp pid sops :
  reach sysv_step (new_set n) a -> Forall (fun sop => 0 <= sem_num sop /\ is_short (sem_op sop)) sops ->
  exists a' woken, semtimedop_enter a task ulp pid sops = Some (semop_outcome a ulp sops, a', woken)
    /\ (semop_outcome a ulp sops <> Some 0 ->
         sem_base a' = sem_base a /\ woken = []
         /\ (forall u, undos a' !! u = undos a !! u
              \/ (u = ulp /\ undos a !! u = None /\ undos a' !! u = Some (replicate (length (sem_base a)) 0)))
         /\ match semop_outcome a ulp sops with
            | Some _ => sem_pending a' = sem_pending a
            | None => exists un, sem_pending a' ≡ₚ SemQueue task un pid sops (scan_alter sops) :: sem_pending a
            end).
Proof.
  intros Hr%sysv_reach_ok Hs. unfold semtimedop_enter, semop_outcome.
  destruct (Nat.eqb_spec (length sops) 0) as [Hl|Hl].
  { rewrite Hl. change (Z.of_nat 0 <? 1) with true. eexists _, _. split; [done|]. intros _. split_and!; auto. }
  replace (Z.of_nat (length sops) <? 1) with false by (symmetry; apply Z.ltb_ge; lia).
  destruct (Nat.ltb_spec 32 (length sops)) as [Hl2|Hl2].
  { replace (Z.of_nat (length sops) >? SEMOPM) with true by (symmetry; apply Z.gtb_lt; unfold SEMOPM; lia).
    eexists _, _. split; [done|]. intros _. split_and!; auto. }
  replace (Z.of_nat (length sops) >? SEMOPM) with false by (symmetry; rewrite Z.gtb_ltb; apply Z.ltb_ge; unfold SEMOPM; lia).
  destruct (enter_undo a ulp sops) as (Hb & Hp & Hu & Hspec). pose proof (enter_call_ok a ulp sops Hr Hs) as Hcall. cbn zeta in Hcall.
  set (a1 := if scan_undos sops then find_undo a ulp else a) in *.
  set (un := if scan_undos sops then Some ulp else None) in *. rewrite Hb in Hcall |- *.
  pose proof (scan_max_bound sops (length (sem_base a)) ltac:(by destruct sops) Hs) as Hmax. rewrite Hmax.
  destruct (existsb _ sops).
  { eexists _, _. split; [done|]. intros _. by split_and!. }
  rewrite Z.geb_leb in Hmax. destruct (Hcall ltac:(apply Z.leb_gt; exact Hmax)) as [Hset1 Hc].
  destruct (attempt_ok a1 sops un pid (set_array _ Hset1) Hc) as (e & a2 & -> & He & Hp2 & Ha2 & Hsh & Hn0 & _).
  rewrite Hspec in He. cbn [mbind option_bind]. subst e.
  destruct (semop_spec _ sops (values a)) as [[|sop|]|vals]; cbn [spec_code] in *; try destruct (flagged sop IPC_NOWAIT).
  all: try (rewrite Hn0 by done; unfold EAGAIN, ERANGE; cbn; rewrite andb_false_r; eexists _, _; split; [done|]; intros _; by split_and!).
  - rewrite Hn0 by done. change (1 <=? 0) with false. cbn iota. eexists _, _. split; [done|]. intros _.
    destruct (scan_alter sops); cbn [append_to_queue prepend_to_queue with_pending sem_base undos sem_pending]; rewrite Hp;
      split_and!; try done; exists un; [by rewrite <- Permutation_cons_append|done].
  - change (0 <=? 0) with true. rewrite Z.eqb_refl, andb_true_r. destruct (scan_alter sops); [|eexists _, _; by split].
    destruct (update_set_ok a2 Ha2) as (a' & w & -> & _).
    { rewrite Hp2. eapply Forall_impl; [apply Hset1|]. intros q Hq. by eapply q_ok_shape. }
    eexists _, _. by split.
Qed.

(** ** A run *)

Definition demo_calls : list call :=
  [SetVal 0 2 1; Semop 10 1 100 [Sembuf 0 (-3) 0]; Semop 11 2 101 [Sembuf 0 0 0];
   Semop 12 3 102 [Sembuf 0 (-1) SEM_UNDO; Sembuf 1 1 0]].
Definition demo_set : sem_array := default (new_set 2) (run sysv_step demo_calls (new_set 2)).

Lemma demo_set_reached : reach sysv_step (new_set 2) demo_set.
Proof. apply (run_from _ demo_calls). vm_compute. reflexivity. Qed.

Lemma sysv_semop_atomic_witness :
  try_atomic_semop demo_set [Sembuf 1 (-1) 0; Sembuf 0 (-2) 0] None 5 = Some (1, demo_set).
Proof.
  destruct (sysv_semop_atomic 2 demo_set [Sembuf 1 (-1) 0; Sembuf 0 (-2) 0] None 5 demo_set_reached) as (a' & He & Hr).
  - apply (bool_decide_unpack (Forall _ _ /\ Forall _ _ /\ True)). vm_compute. reflexivity.
  - assert (Ha : a' = demo_set) by exact Hr. rewrite Ha in He. exact He.
Defined.

Lemma sysv_semop_errors_witness :
  exists a' woken, semtimedop_enter demo_set 20 5 200 [Sembuf 1 (-1) 0; Sembuf 0 (-2) IPC_NOWAIT] = Some (Some (- EAGAIN), a', woken)
    /\ sem_base a' = sem_base demo_set /\ sem_pending a' = sem_pending demo_set.
Proof.
  destruct (sysv_semop_errors 2 demo_set 20 5 200 [Sembuf 1 (-1) 0; Sembuf 0 (-2) IPC_NOWAIT] demo_set_reached
    ltac:(apply (bool_decide_unpack (Forall _ _)); vm_compute; reflexivity)) as (a' & w & H1 & H2).
  assert (He : semop_outcome demo_set 5 [Sembuf 1 (-1) 0; Sembuf 0 (-2) IPC_NOWAIT] = Some (- EAGAIN)) by (vm_compute; reflexivity).
  rewrite He in H1, H2. destruct (H2 ltac:(discriminate)) as (H3 & _ & _ & H4). exists a', w. split; [exact H1|]. split; [exact H3|exact H4].
Defined.

Lemma sysv_no_lost_wakeup_witness :
  is_Some (run_call (Exit 3 102) demo_set)
  /\ try_atomic_semop demo_set [Sembuf 0 (-3) 0] None 100 = Some (1, demo_set).
Proof.
  destruct (sysv_no_lost_wakeup 2 demo_set (Exit 3 102) demo_set_reached
    ltac:(apply (bool_decide_unpack _); vm_compute; reflexivity)) as (H1 & _ & H2).
  split; [exact H1|]. apply (H2 (SemQueue 10 None 100 [Sembuf 0 (-3) 0] true)).
  vm_compute. right. left.
Defined.

Lemma sysv_update_queue_complete_witness :
  exists a' woken, update_queue demo_set = Some (a', woken) /\ Forall (blocked a') (sem_pending a').
Proof.
  destruct (sysv_update_queue_complete 2 demo_set demo_set demo_set_reached
    (set_array _ (sysv_reach_ok 2 demo_set demo_set_reached)) (conj eq_refl eq_refl) eq_refl)
    as (a' & w & H & _ & _ & _ & Hb).
  exists a', w. split; [exact H|exact Hb].
Defined.

Lemma sysv_sleeper_counted_witness :
  exists sop, sop ∈ [Sembuf 0 (-3) 0] /\ 0 < count_semncnt demo_set (sem_num sop) + count_semzcnt demo_set (sem_num sop).
Proof.
  apply (sysv_sleeper_counted 2 demo_set (SemQueue 10 None 100 [Sembuf 0 (-3) 0] true) demo_set_reached).
  vm_compute. right. left.
Defined.

Definition quiet_set : sem_array := default (new_set 2) (run sysv_step [SetVal 0 5 1] (new_set 2)).

Lemma quiet_set_reached : reach sysv_step (new_set 2) quiet_set.
Proof. apply (run_from _ [SetVal 0 5 1]). vm_compute. reflexivity. Qed.

Definition undo_ops : list sembuf := [Sembuf 0 (-3) SEM_UNDO; Sembuf 1 4 SEM_UNDO].
Definition after_ops : sem_array :=
  match semtimedop_enter quiet_set 0 9 77 undo_ops with Some (_, a, _) => a | None => quiet_set end.

Lemma undo_ops_short i : is_short (- undo_sum i undo_ops).
Proof. unfold is_short, undo_sum. destruct i as [|[|i]]; simpl; lia. Qed.

Lemma sysv_undo_restores_witness :
  exists a2, exit_sem after_ops 9 77 = Some (a2, []) /\ values a2 = [5; 0].
Proof.
  destruct (sysv_undo_restores 2 quiet_set 9 77 undo_ops after_ops quiet_set_reached
    ltac:(vm_compute; reflexivity) ltac:(vm_compute; reflexivity)
    ltac:(apply (bool_decide_unpack _); vm_compute; reflexivity)
    ltac:(repeat constructor) undo_ops_short ltac:(vm_compute; reflexivity)) as (a2 & H & Hv).
  exists a2. split; [exact H|]. rewrite Hv. vm_compute. reflexivity.
Defined.

End SysV.
