(* ===== verification/Pcount.v ===== *)
(** * The shared-counter benchmark ([src/linux-2.6.16-unmod/init/pcount.c])

    Kernel threads meet at a barrier and then increment a shared counter, each for its
    share, under a spinlock, under a semaphore, with a bus-locked increment or without any
    synchronisation.  One step is one access of a thread to shared memory (a load, a store,
    a locked instruction) or the end of a critical section; the threads interleave.  The
    model is the build without [CONFIG_INDEPENDENT_COUNTER]; [robusto] is
    [CONFIG_ROBUSTO_COUNTER], which the configuration turns on by default.  The theorems are
    about the robust build, where a thread is done when its share is; of the other build
    [pcount_remainder_lost] shows what goes wrong.  Lock and semaphore are taken as the exclusive locks that
    [SpinLock] and [Semaphore] show them to be. *)

From S2P Require Import Prelude.

Module Pcount.

Inductive sync_type := KMBM_SYNC_TYP_SPINLOCK | KMBM_SYNC_TYP_SEMAPHORE | KMBM_SYNC_TYP_LOCKED_INC
  | KMBM_SYNC_TYP_UNLOCKED.

(** The arguments of the system call and the build option. *)
Record config := Config {
  gnThreadCount : nat; gnTargetValue : Z; gnSyncType : sync_type; robusto : bool }.

(** Where a thread is.  [Crit k reg] is inside the section, [k] updates of the counter done,
    [reg] the value loaded for the next one. *)
Inductive pc := Start | Barrier | Loop | Crit (k : nat) (reg : option Z) | Complete | Finished.

Record thread := Thread { at_pc : pc; my_share : Z }.

Record state := State {
  gnSharedCounter : Z; atomic_counter : Z; gnAwakeCount : Z; gnThreadsComplete : Z;
  gKmbmLock : option nat; threads : list thread }.

(** The updates of the section: the spinlock section increments 11 times and decrements
    10 times. *)
Definition updates (t : sync_type) : list Z :=
  match t with
  | KMBM_SYNC_TYP_SPINLOCK => replicate 11 1 ++ replicate 10 (-1)
  | KMBM_SYNC_TYP_SEMAPHORE => [1]
  | KMBM_SYNC_TYP_LOCKED_INC => []
  | KMBM_SYNC_TYP_UNLOCKED => [1]
  end.

Definition locked (t : sync_type) : bool :=
  match t with KMBM_SYNC_TYP_SPINLOCK | KMBM_SYNC_TYP_SEMAPHORE => true | _ => false end.

(** The variable the section works on. *)
Definition counter (t : sync_type) (s : state) : Z :=
  if locked t then gnSharedCounter s else atomic_counter s.

Definition set_counter (t : sync_type) (v : Z) (s : state) : state :=
  if locked t
  then State v (atomic_counter s) (gnAwakeCount s) (gnThreadsComplete s) (gKmbmLock s) (threads s)
  else State (gnSharedCounter s) v (gnAwakeCount s) (gnThreadsComplete s) (gKmbmLock s) (threads s).

Definition put (i : nat) (th : thread) (s : state) : state :=
  State (gnSharedCounter s) (atomic_counter s) (gnAwakeCount s) (gnThreadsComplete s) (gKmbmLock s)
    (<[i := th]> (threads s)).

Definition set_lock (l : option nat) (s : state) : state :=
  State (gnSharedCounter s) (atomic_counter s) (gnAwakeCount s) (gnThreadsComplete s) l (threads s).

(** [splock]/[txdown] when free, or the bus-locked increment, at the top of the loop. *)
Definition enter (c : config) (i : nat) (th : thread) (s : state) : option state :=
  let th' := Thread (Crit 0 None) (my_share th) in
  match gnSyncType c with
  | KMBM_SYNC_TYP_SPINLOCK | KMBM_SYNC_TYP_SEMAPHORE =>
    match gKmbmLock s with None => Some (set_lock (Some i) (put i th' s)) | Some _ => None end
  | KMBM_SYNC_TYP_LOCKED_INC =>
    Some (put i th' (set_counter (gnSyncType c) (u32 (atomic_counter s + 1)) s))
  | KMBM_SYNC_TYP_UNLOCKED => Some (put i th' s)
  end.

(** [done], with the share already decremented. *)
Definition is_done (c : config) (share : Z) (s : state) : bool :=
  if robusto c then share =? 0
  else if locked (gnSyncType c) then
    ((share =? 0) && (gnThreadsComplete s <? u32 (Z.of_nat (gnThreadCount c) - 1)))
    || (gnSharedCounter s >=? gnTargetValue c)
  else (share =? 0) || (atomic_counter s >=? gnTargetValue c).

(** The end of the section: decide, release. *)
Definition finish_section (c : config) (i : nat) (th : thread) (s : state) : state :=
  let share := s32 (my_share th - 1) in
  let s := if locked (gnSyncType c) then set_lock None s else s in
  put i (Thread (if is_done c share s then Complete else Loop) share) s.

(** One step of thread [i]; [None] when it has to wait or has ended. *)
Definition kmbm_thread_proc (c : config) (i : nat) (s : state) : option state :=
  th ← threads s !! i;
  match at_pc th with
  | Start =>
    let s := State (gnSharedCounter s) (atomic_counter s) (u32 (gnAwakeCount s + 1)) (gnThreadsComplete s)
               (gKmbmLock s) (threads s) in
    Some (put i (Thread Barrier (my_share th)) s)
  | Barrier =>
    if gnAwakeCount s <? Z.of_nat (gnThreadCount c) then None
    else Some (put i (Thread Loop (my_share th)) s)
  | Loop => enter c i th s
  | Crit k None =>
    match updates (gnSyncType c) !! k with
    | Some _ => Some (put i (Thread (Crit k (Some (counter (gnSyncType c) s))) (my_share th)) s)
    | None => Some (finish_section c i th s)
    end
  | Crit k (Some v) =>
    d ← updates (gnSyncType c) !! k;
    Some (put i (Thread (Crit (S k) None) (my_share th)) (set_counter (gnSyncType c) (u32 (v + d)) s))
  | Complete =>
    let s := State (gnSharedCounter s) (atomic_counter s) (gnAwakeCount s) (u32 (gnThreadsComplete s + 1))
               (gKmbmLock s) (threads s) in
    Some (put i (Thread Finished (my_share th)) s)
  | Finished => None
  end.

(** The share of a thread is fixed when it starts. *)
Definition share0 (c : config) : Z := s32 (gnTargetValue c / Z.of_nat (gnThreadCount c)).

Definition init_kmbm_module (c : config) : state :=
  State 0 0 0 0 None (replicate (gnThreadCount c) (Thread Start (share0 c))).

(** The waiting of [wait_kmbm_complete] is over. *)
Definition all_complete (c : config) (s : state) : bool :=
  gnThreadsComplete s >=? Z.of_nat (gnThreadCount c).

(** What [sys_shared_counter_bm] returns in the robust build, once the threads completed. *)
Definition sys_shared_counter_bm (c : config) (s : state) : Z :=
  if negb (gnTargetValue c mod Z.of_nat (gnThreadCount c) =? 0) then -1
  else if gnSharedCounter s =? gnTargetValue c then 0 else -1.

(** ** Invariant *)

Definition in_crit (th : thread) : Z := match at_pc th with Crit _ _ => 1 | _ => 0 end.
Definition finished (th : thread) : Z := match at_pc th with Finished => 1 | _ => 0 end.
Definition awake (th : thread) : Z := match at_pc th with Start => 0 | _ => 1 end.

(** What a thread has added to the counter. *)
Definition added (c : config) (th : thread) : Z :=
  share0 c - my_share th +
  match at_pc th with
  | Crit k _ => match gnSyncType c with
                | KMBM_SYNC_TYP_LOCKED_INC => 1
                | t => zsum id (take k (updates t))
                end
  | _ => 0
  end.

Definition thread_ok (c : config) (s : state) (i : nat) (th : thread) : Prop :=
  (match at_pc th with
   | Complete | Finished => my_share th = 0
   | _ => 1 <= my_share th <= share0 c
   end)
  /\ (match at_pc th with
      | Crit k reg => (k <= length (updates (gnSyncType c)))%nat
          /\ (locked (gnSyncType c) = true -> gKmbmLock s = Some i)
          /\ match reg with
             | Some v => (k < length (updates (gnSyncType c)))%nat
                 /\ (locked (gnSyncType c) = true -> v = gnSharedCounter s)
             | None => True
             end
      | _ => locked (gnSyncType c) = true -> gKmbmLock s <> Some i
      end).

(** The configurations of the theorems: the robust build, enough target for everybody, no
    wrap of a 32-bit counter, and the multiple that the system call asks for in this build. *)
Record config_ok (c : config) : Prop := {
  some_threads : (1 <= gnThreadCount c)%nat;
  enough : Z.of_nat (gnThreadCount c) <= gnTargetValue c;
  no_wrap : gnTargetValue c < 2 ^ 31;
  multiple : gnTargetValue c mod Z.of_nat (gnThreadCount c) = 0;
  robust : robusto c = true;
}.

Record inv (c : config) (s : state) : Prop := {
  inv_len : length (threads s) = gnThreadCount c;
  inv_threads : forall i th, threads s !! i = Some th -> thread_ok c s i th;
  inv_added : gnSyncType c <> KMBM_SYNC_TYP_UNLOCKED -> counter (gnSyncType c) s = zsum (added c) (threads s);
  inv_awake : gnAwakeCount s = zsum awake (threads s);
  inv_complete : gnThreadsComplete s = zsum finished (threads s);
  inv_excl : locked (gnSyncType c) = true ->
    zsum in_crit (threads s) = match gKmbmLock s with Some _ => 1 | None => 0 end;
}.

Lemma share0_ok c : config_ok c -> 1 <= share0 c /\ share0 c * Z.of_nat (gnThreadCount c) = gnTargetValue c.
Proof.
  intros [Hn He Hw Hm _]. unfold share0.
  pose proof (Z.div_mod (gnTargetValue c) (Z.of_nat (gnThreadCount c)) ltac:(lia)) as Hd. rewrite Hm in Hd.
  assert (1 <= gnTargetValue c / Z.of_nat (gnThreadCount c)) by (apply Z.div_le_lower_bound; lia).
  rewrite s32_small by nia. nia.
Qed.

Lemma count_range (f : thread -> Z) l : (forall th, 0 <= f th <= 1) -> 0 <= zsum f l <= Z.of_nat (length l).
Proof.
  intros Hf. split; [apply zsum_nonneg; intros; apply Hf|].
  etrans; [apply (zsum_le f (fun _ => 1)); intros; apply Hf|]. rewrite zsum_const. lia.
Qed.

Lemma prefix_range t k : 0 <= zsum id (take k (updates t)) <= 11.
Proof.
  assert (H : Forall (fun k => 0 <= zsum id (take k (updates t)) <= 11) (seq 0 22)).
  { destruct t; apply (bool_decide_unpack _); vm_compute; reflexivity. }
  destruct (decide (k < 22)%nat) as [Hk|Hk].
  - rewrite Forall_forall in H. apply H, elem_of_seq. lia.
  - rewrite take_ge; [destruct t; vm_compute; (split; done)|]. destruct t; simpl; lia.
Qed.

(** Only a thread inside the section can be ahead of its share. *)
Lemma added_range c s i th :
  1 <= share0 c -> thread_ok c s i th ->
  0 <= added c th <= share0 c + (if locked (gnSyncType c) then 10 * in_crit th else 0).
Proof.
  unfold thread_ok, added, in_crit. intros H1 [Hs _]. pose proof (prefix_range (gnSyncType c)) as Hp.
  destruct (at_pc th) as [| | |k reg| |]; try (destruct (locked (gnSyncType c)); lia).
  specialize (Hp k). destruct (gnSyncType c); simpl locked; cbn iota; try lia.
  destruct k as [|[|k]]; simpl; lia.
Qed.

Lemma added_total c s :
  config_ok c -> inv c s -> 0 <= zsum (added c) (threads s) <= gnTargetValue c + 10.
Proof.
  intros Hc Hi. destruct (share0_ok c Hc) as [H1 Ht]. split.
  - apply zsum_nonneg. intros th [i Hth]%list_elem_of_lookup.
    pose proof (added_range c s i th H1 (inv_threads c s Hi i th Hth)). lia.
  - etrans; [apply (zsum_le _ (fun th => share0 c + (if locked (gnSyncType c) then 10 * in_crit th else 0)))|].
    + intros th [i Hth]%list_elem_of_lookup. apply (added_range c s i th H1 (inv_threads c s Hi i th Hth)).
    + rewrite zsum_add, zsum_const, (inv_len c s Hi), Ht. destruct (locked (gnSyncType c)) eqn:El.
      * pose proof (inv_excl c s Hi El) as He.
        assert (zsum (fun th => 10 * in_crit th) (threads s) = 10 * zsum in_crit (threads s)) as ->.
        { generalize (threads s). induction l; simpl; lia. }
        destruct (gKmbmLock s); lia.
      * rewrite zsum_const. lia.
Qed.

(** What one thread's step has to establish. *)
Lemma inv_step c s s' i th th' :
  inv c s -> threads s !! i = Some th -> threads s' = <[i := th']> (threads s) ->
  thread_ok c s' i th' ->
  (forall j thj, j <> i -> thread_ok c s j thj -> thread_ok c s' j thj) ->
  (gnSyncType c <> KMBM_SYNC_TYP_UNLOCKED ->
     counter (gnSyncType c) s' = counter (gnSyncType c) s - added c th + added c th') ->
  gnAwakeCount s' = gnAwakeCount s - awake th + awake th' ->
  gnThreadsComplete s' = gnThreadsComplete s - finished th + finished th' ->
  (locked (gnSyncType c) = true ->
     match gKmbmLock s' with Some _ => 1 | None => 0 end
     = match gKmbmLock s with Some _ => 1 | None => 0 end - in_crit th + in_crit th') ->
  inv c s'.
Proof.
  intros [Hl Ht Ha Hw Hc He] Hi Hs' Hok Hothers Hcnt Hawk Hcmp Hex. split; rewrite Hs'.
  - by rewrite length_insert.
  - intros j thj Hj. destruct (decide (j = i)) as [-> |Hne].
    + rewrite list_lookup_insert_eq in Hj by (by eapply lookup_lt_Some). by simplify_eq.
    + rewrite list_lookup_insert_ne in Hj by done. by apply Hothers, Ht.
  - intros Hu. rewrite (zsum_insert _ _ _ _ _ Hi), Hcnt, Ha by done. done.
  - by rewrite (zsum_insert _ _ _ _ _ Hi), Hawk, Hw.
  - by rewrite (zsum_insert _ _ _ _ _ Hi), Hcmp, Hc.
  - intros El. rewrite (zsum_insert _ _ _ _ _ Hi), (Hex El), He by done. done.
Qed.

(** The other threads are outside the section while one holds the lock, or it is free. *)
Lemma others_locked c s s' i j thj :
  j <> i -> locked (gnSyncType c) = true -> (gKmbmLock s = None \/ gKmbmLock s = Some i) ->
  (gKmbmLock s' = None \/ gKmbmLock s' = Some i) -> thread_ok c s j thj -> thread_ok c s' j thj.
Proof.
  intros Hne El Hl Hl' [Hs Hk]. split; [done|].
  destruct (at_pc thj) as [| | |k reg| |]; try (destruct Hl' as [-> | ->]; congruence).
  destruct Hk as (_ & Hk & _). specialize (Hk El). destruct Hl as [Hl|Hl]; congruence.
Qed.

(** Nothing another thread depends on changed. *)
Lemma others_same c s s' j thj :
  gKmbmLock s' = gKmbmLock s -> (locked (gnSyncType c) = true -> gnSharedCounter s' = gnSharedCounter s) ->
  thread_ok c s j thj -> thread_ok c s' j thj.
Proof.
  intros Hl Hc [Hs Hk]. split; [done|]. rewrite Hl. destruct (at_pc thj) as [| | |k [v|]| |]; try done.
  destruct Hk as (? & ? & ? & ?). split_and!; try done. intros El. rewrite Hc by done. auto.
Qed.

Lemma take_update t k d : updates t !! k = Some d ->
  zsum id (take (S k) (updates t)) = zsum id (take k (updates t)) + d.
Proof. intros H. rewrite (take_S_r _ _ d) by done. rewrite zsum_app. simpl. lia. Qed.

Lemma full_section t : t <> KMBM_SYNC_TYP_LOCKED_INC -> zsum id (updates t) = 1.
Proof. by destruct t. Qed.

Lemma added_crit c k reg share :
  gnSyncType c <> KMBM_SYNC_TYP_LOCKED_INC ->
  added c (Thread (Crit k reg) share) = share0 c - share + zsum id (take k (updates (gnSyncType c))).
Proof. unfold added. simpl. by destruct (gnSyncType c). Qed.

(** Taking the lock, or the locked increment. *)
Lemma enter_inv c s s' i th :
  config_ok c -> inv c s -> threads s !! i = Some th -> at_pc th = Loop ->
  enter c i th s = Some s' -> inv c s'.
Proof.
  intros Hc Hi Hth Hpc He. pose proof (inv_threads c s Hi i th Hth) as [Hsh _].
  rewrite Hpc in Hsh. pose proof (added_total c s Hc Hi) as Htot. pose proof (no_wrap c Hc) as Hw.
  assert (Hz : awake th = 1 /\ finished th = 0 /\ in_crit th = 0 /\ added c th = share0 c - my_share th)
    by (unfold awake, finished, in_crit, added; rewrite Hpc; split_and!; lia).
  destruct Hz as (Hz1 & Hz2 & Hz3 & Hz4).
  pose proof (fun s' => inv_step c s s' i th (Thread (Crit 0 None) (my_share th)) Hi Hth) as Hstep.
  rewrite Hz1, Hz2, Hz3, Hz4 in Hstep. unfold awake, finished, in_crit, added in Hstep. cbn in Hstep.
  pose proof (inv_added c s Hi) as Hcnt. unfold enter in He.
  assert (Hok : (locked (gnSyncType c) = true -> gKmbmLock s' = Some i) ->
    thread_ok c s' i (Thread (Crit 0 None) (my_share th))).
  { intros Hl. split; cbn; [lia|]. split_and!; [lia|done|done]. }
  destruct (gnSyncType c) eqn:Et.
  1,2: destruct (gKmbmLock s) eqn:El; [done|]; injection He as <-;
    apply Hstep; [done|by apply Hok| |cbn; lia..|done];
    intros j thj Hne; apply others_locked with i; [done|by rewrite Et|by left|by right].
  - injection He as <-. specialize (Hcnt ltac:(done)). cbn in Hcnt.
    apply Hstep; [done|by apply Hok| |cbn|cbn; lia..|done].
    + intros j thj _. apply others_same; [done|by rewrite Et].
    + intros _. rewrite u32_small by lia. lia.
  - injection He as <-. apply Hstep; [done|by apply Hok| |done|cbn; lia..|done].
    intros j thj _. apply others_same; [done|by rewrite Et].
Qed.

Lemma added_full c th k reg : at_pc th = Crit k reg -> (length (updates (gnSyncType c)) <= k)%nat ->
  added c th = share0 c - my_share th + 1.
Proof.
  unfold added. intros ->. destruct (gnSyncType c); intros Hk; rewrite ?take_ge by done;
    change (zsum id (updates _)) with 1; done.
Qed.

(** The end of the section in the robust build. *)
Lemma finish_inv c s i th k :
  config_ok c -> inv c s -> threads s !! i = Some th -> at_pc th = Crit k None ->
  updates (gnSyncType c) !! k = None -> inv c (finish_section c i th s).
Proof.
  intros Hc Hi Hth Hpc Hk. pose proof (inv_threads c s Hi i th Hth) as [Hsh Hlk]. rewrite Hpc in Hsh, Hlk.
  destruct Hlk as (_ & Hlock & _). apply lookup_ge_None in Hk. destruct (share0_ok c Hc) as [H1 Ht].
  assert (Hss : share0 c < 2 ^ 31) by (destruct Hc; nia).
  unfold finish_section. rewrite s32_small by lia.
  unfold is_done. rewrite (robust c Hc).
  set (s1 := if locked (gnSyncType c) then set_lock None s else s).
  set (p := if my_share th - 1 =? 0 then Complete else Loop).
  assert (Hp : awake (Thread p (my_share th - 1)) = 1 /\ finished (Thread p (my_share th - 1)) = 0
    /\ in_crit (Thread p (my_share th - 1)) = 0 /\ added c (Thread p (my_share th - 1)) = share0 c - (my_share th - 1)).
  { unfold awake, finished, in_crit, added, p. simpl. destruct (_ =? 0); split_and!; (done || lia). }
  destruct Hp as (Hp1 & Hp2 & Hp3 & Hp4).
  apply (inv_step c s _ i th (Thread p (my_share th - 1)) Hi Hth); rewrite ?Hp1, ?Hp2, ?Hp3, ?Hp4.
  - unfold s1. by destruct (locked _).
  - split; cbn [at_pc my_share].
    + unfold p. destruct (Z.eqb_spec (my_share th - 1) 0); lia.
    + assert (locked (gnSyncType c) = true -> gKmbmLock s1 <> Some i) by (unfold s1; intros ->; done).
      unfold p. by destruct (_ =? 0).
  - intros j thj Hne. destruct (locked (gnSyncType c)) eqn:El.
    + apply others_locked with i; [done|done|right; by apply Hlock|by left].
    + by apply others_same.
  - intros Hu. assert (counter (gnSyncType c) (put i (Thread p (my_share th - 1)) s1) = counter (gnSyncType c) s) as ->.
    { unfold counter, s1. by destruct (locked _). }
    rewrite (added_full c th k None Hpc Hk). lia.
  - unfold awake, s1. rewrite Hpc. destruct (locked _); simpl; lia.
  - unfold finished, s1. rewrite Hpc. destruct (locked _); simpl; lia.
  - intros El. unfold in_crit, s1. rewrite El, Hpc, (Hlock El). done.
Qed.

(** The two halves of an update. *)
Lemma load_inv c s i th k d :
  inv c s -> threads s !! i = Some th -> at_pc th = Crit k None -> updates (gnSyncType c) !! k = Some d ->
  inv c (put i (Thread (Crit k (Some (counter (gnSyncType c) s))) (my_share th)) s).
Proof.
  intros Hi Hth Hpc Hk. pose proof (inv_threads c s Hi i th Hth) as [Hsh Hcr]. rewrite Hpc in Hsh, Hcr.
  destruct Hcr as (Hle & Hl & _). apply lookup_lt_Some in Hk.
  eapply (inv_step c s _ i th _ Hi Hth); [reflexivity|..];
    unfold awake, finished, in_crit, added; rewrite ?Hpc; cbn; try (intros; lia).
  - split; cbn; [done|]. split_and!; [done|done|done|]. intros El. unfold counter. by rewrite El.
  - intros j thj _. by apply others_same.
  - intros _. match goal with |- ?a = ?b - ?x + ?x => change a with b; generalize x end. lia.
Qed.

Lemma updates_range t k d : updates t !! k = Some d -> -1 <= d <= 1.
Proof.
  intros Hd. assert (H : Forall (fun d => -1 <= d <= 1) (updates t)).
  { destruct t; apply (bool_decide_unpack _); vm_compute; reflexivity. }
  rewrite Forall_forall in H. by eapply H, list_elem_of_lookup_2.
Qed.

Lemma store_inv c s i th k v d :
  config_ok c -> inv c s -> threads s !! i = Some th -> at_pc th = Crit k (Some v) ->
  updates (gnSyncType c) !! k = Some d ->
  inv c (put i (Thread (Crit (S k) None) (my_share th)) (set_counter (gnSyncType c) (u32 (v + d)) s)).
Proof.
  intros Hc Hi Hth Hpc Hk. pose proof (inv_threads c s Hi i th Hth) as [Hsh Hcr]. rewrite Hpc in Hsh, Hcr.
  destruct Hcr as (Hle & Hl & Hlt & Hv). pose proof (added_total c s Hc Hi) as Htot.
  assert (Hlck : gKmbmLock (put i (Thread (Crit (S k) None) (my_share th))
    (set_counter (gnSyncType c) (u32 (v + d)) s)) = gKmbmLock s) by (unfold set_counter; by destruct (locked _)).
  eapply (inv_step c s _ i th _ Hi Hth); [unfold set_counter; by destruct (locked _)|..];
    unfold awake, finished, in_crit; rewrite ?Hpc, ?Hlck; cbn [at_pc]; try (intros; unfold set_counter; destruct (locked _); cbn; lia).
  - split; cbn [at_pc my_share]; [done|]. rewrite Hlck. split_and!; [lia|done|done].
  - intros j thj Hne. destruct (locked (gnSyncType c)) eqn:El.
    + apply others_locked with i; rewrite ?Hlck; auto.
    + apply others_same; [done|by rewrite El].
  - intros Hu. assert (Ht : gnSyncType c <> KMBM_SYNC_TYP_LOCKED_INC) by (intros Ht; by rewrite Ht in Hk).
    assert (El : locked (gnSyncType c) = true) by (by destruct (gnSyncType c)).
    pose proof (inv_added c s Hi Hu) as Hcnt. specialize (Hv El). destruct th as [p sh]. cbn in Hpc, Hsh. subst p.
    rewrite !added_crit, (take_update _ _ _ Hk) by done. unfold counter, set_counter in *. rewrite El in *. cbn.
    pose proof (updates_range _ _ _ Hk). pose proof (prefix_range (gnSyncType c) (S k)) as Hp.
    rewrite (take_update _ _ _ Hk) in Hp.
    assert (added c (Thread (Crit k (Some v)) sh) <= zsum (added c) (threads s)).
    { apply (zsum_elem_le _ _ i); [|done]. intros th [j Hj]%list_elem_of_lookup.
      apply (added_range c s j th); [apply share0_ok, Hc|by apply (inv_threads c s Hi)]. }
    rewrite added_crit in * by done. pose proof (no_wrap c Hc). rewrite u32_small by lia. lia.
Qed.

(** The counts of threads do not wrap. *)
Lemma counts_small c s : config_ok c -> inv c s ->
  0 <= gnAwakeCount s < 2 ^ 31 /\ 0 <= gnThreadsComplete s < 2 ^ 31.
Proof.
  intros [_ He Hw _ _] Hi. rewrite (inv_awake c s Hi), (inv_complete c s Hi). pose proof (inv_len c s Hi).
  pose proof (count_range awake (threads s)) as Ha. pose proof (count_range finished (threads s)) as Hf.
  specialize (Ha ltac:(intros [[] ?]; cbn; lia)). specialize (Hf ltac:(intros [[] ?]; cbn; lia)). lia.
Qed.

(** Every step keeps the invariant. *)
Lemma kmbm_step_inv c i s s' :
  config_ok c -> inv c s -> kmbm_thread_proc c i s = Some s' -> inv c s'.
Proof.
  intros Hc Hi Hs. unfold kmbm_thread_proc in Hs. destruct (threads s !! i) as [th|] eqn:Hth; [|done]. cbn in Hs.
  pose proof (inv_threads c s Hi i th Hth) as Hok. destruct (at_pc th) as [| | |k [v|]| |] eqn:Hpc.
  3: by eapply enter_inv.
  3: { destruct (updates (gnSyncType c) !! k) as [d|] eqn:Hk; [|done]. injection Hs as <-. by eapply store_inv. }
  3: { destruct (updates (gnSyncType c) !! k) as [d|] eqn:Hk; injection Hs as <-; [by eapply load_inv|by eapply finish_inv]. }
  4: done.
  2: destruct (_ <? _); [done|].
  all: injection Hs as <-; destruct Hok as [Hsh Hlk]; rewrite Hpc in Hsh, Hlk.
  all: eapply (inv_step c s _ i th _ Hi Hth); [reflexivity|..]; unfold awake, finished, in_crit, added; rewrite ?Hpc;
    cbn [at_pc my_share put]; try (split; cbn; done); try (intros j thj _; by apply others_same);
    try (intros _; unfold counter; cbn; lia); try (cbn; lia).
  all: destruct (counts_small c s Hc Hi); cbn; rewrite u32_small; lia.
Qed.

Lemma init_inv c : config_ok c -> inv c (init_kmbm_module c).
Proof.
  intros Hc. destruct (share0_ok c Hc) as [H1 _].
  assert (Hz : forall f, f (Thread Start (share0 c)) = 0 ->
    zsum f (replicate (gnThreadCount c) (Thread Start (share0 c))) = 0).
  { intros f Hf. apply zsum_0. intros th [-> _]%elem_of_replicate. done. }
  split; cbn.
  - apply length_replicate.
  - intros i th [-> _]%lookup_replicate. split; cbn; [lia|done].
  - intros _. rewrite Hz by (unfold added; cbn; lia). unfold counter. by destruct (locked _).
  - by rewrite Hz.
  - by rewrite Hz.
  - intros _. by rewrite Hz.
Qed.

Lemma reach_inv c s : config_ok c -> reach (kmbm_thread_proc c) (init_kmbm_module c) s -> inv c s.
Proof. intros Hc. apply reach_invariant; [by apply init_inv|]. intros i s1 s2 H Hs. by eapply kmbm_step_inv. Qed.

(** ** Progress *)

(** The steps a thread has left. *)
Definition rank (c : config) (th : thread) : Z :=
  my_share th * (2 * Z.of_nat (length (updates (gnSyncType c))) + 2) +
  match at_pc th with
  | Start => 3 | Barrier => 2 | Loop | Complete => 1
  | Crit k None => - 2 * Z.of_nat k
  | Crit k (Some _) => - 2 * Z.of_nat k - 1
  | Finished => 0
  end.

Lemma rank_nonneg c s i th : thread_ok c s i th -> 0 <= rank c th.
Proof. unfold thread_ok, rank. destruct (at_pc th) as [| | |k [v|]| |]; nia. Qed.

Lemma rank_put c s i th th' s' :
  threads s !! i = Some th -> threads s' = <[i := th']> (threads s) -> rank c th' = rank c th - 1 ->
  zsum (rank c) (threads s') = zsum (rank c) (threads s) - 1.
Proof. intros Hth -> Hr. rewrite (zsum_insert _ _ _ _ _ Hth). lia. Qed.

Lemma rank_step c i s s' :
  config_ok c -> inv c s -> kmbm_thread_proc c i s = Some s' ->
  zsum (rank c) (threads s') = zsum (rank c) (threads s) - 1.
Proof.
  intros Hc Hi Hs. unfold kmbm_thread_proc in Hs. destruct (threads s !! i) as [th|] eqn:Hth; [|done]. cbn in Hs.
  pose proof (inv_threads c s Hi i th Hth) as [Hsh Hlk].
  assert (Hss : share0 c < 2 ^ 31) by (destruct (share0_ok c Hc), Hc; nia).
  destruct (at_pc th) as [| | |k [v|]| |] eqn:Hpc; [..|done].
  4: destruct (updates (gnSyncType c) !! k) as [d|] eqn:Hk; [|done].
  5: destruct (updates (gnSyncType c) !! k) as [d|] eqn:Hk.
  6: { injection Hs as <-. unfold finish_section, is_done. rewrite (robust c Hc), s32_small by lia.
       eapply (rank_put c s i th _ _ Hth); [by destruct (locked _)|].
       apply lookup_ge_None in Hk. unfold rank. rewrite Hpc. cbn [at_pc my_share]. destruct (_ =? 0); nia. }
  2: destruct (_ <? _); [done|].
  3: unfold enter in Hs; destruct (gnSyncType c) eqn:Et; try (destruct (gKmbmLock s); [done|]).
  all: cbn in Hs; injection Hs as <-; eapply (rank_put c s i th _ _ Hth); [unfold set_counter; try reflexivity|];
    try (by destruct (locked _)); unfold rank; rewrite Hpc, ?Et; cbn [at_pc my_share]; nia.
Qed.

(** A thread that cannot move is finished, or waits for another. *)
Lemma stuck_thread c s i th :
  threads s !! i = Some th -> kmbm_thread_proc c i s = None -> inv c s ->
  match at_pc th with
  | Barrier => gnAwakeCount s < Z.of_nat (gnThreadCount c)
  | Loop => locked (gnSyncType c) = true /\ gKmbmLock s <> None
  | Finished => True
  | _ => False
  end.
Proof.
  intros Hth Hs Hi. unfold kmbm_thread_proc in Hs. rewrite Hth in Hs. cbn in Hs.
  pose proof (inv_threads c s Hi i th Hth) as [_ Hlk]. destruct (at_pc th) as [| | |k [v|]| |]; try done.
  - destruct (Z.ltb_spec (gnAwakeCount s) (Z.of_nat (gnThreadCount c))); [done|done].
  - unfold enter in Hs. destruct (gnSyncType c); try done; by destruct (gKmbmLock s).
  - destruct Hlk as (_ & _ & Hk & _). destruct (lookup_lt_is_Some_2 _ _ Hk) as [d Hd]. by rewrite Hd in Hs.
  - by destruct (_ !! k).
Qed.

Lemma stuck_finished c s :
  inv c s -> (forall i, kmbm_thread_proc c i s = None) -> forall th, th ∈ threads s -> at_pc th = Finished.
Proof.
  intros Hi Hs.
  assert (Hst : forall th, th ∈ threads s -> match at_pc th with
    | Barrier => gnAwakeCount s < Z.of_nat (gnThreadCount c)
    | Loop => locked (gnSyncType c) = true /\ gKmbmLock s <> None
    | Finished => True | _ => False end).
  { intros th [i Hth]%list_elem_of_lookup. by eapply stuck_thread. }
  assert (Hw : gnAwakeCount s = Z.of_nat (gnThreadCount c)).
  { rewrite (inv_awake c s Hi), <- (inv_len c s Hi). rewrite <- (Z.mul_1_l (Z.of_nat _)), <- zsum_const.
    apply zsum_ext. intros th Hth. specialize (Hst th Hth). unfold awake. by destruct (at_pc th). }
  assert (Hl : locked (gnSyncType c) = true -> gKmbmLock s = None).
  { intros El. pose proof (inv_excl c s Hi El) as He. rewrite zsum_0 in He; [by destruct (gKmbmLock s)|].
    intros th Hth. specialize (Hst th Hth). unfold in_crit. by destruct (at_pc th). }
  intros th Hth. specialize (Hst th Hth). destruct (at_pc th); try done; [lia|]. destruct Hst. tauto.
Qed.

(** ** The benchmark *)

Lemma run_rank c l s s' :
  config_ok c -> inv c s -> run (kmbm_thread_proc c) l s = Some s' ->
  zsum (rank c) (threads s') = zsum (rank c) (threads s) - Z.of_nat (length l) /\ inv c s'.
Proof.
  intros Hc. revert s. induction l as [|i l IH]; intros s Hi Hr; cbn in Hr.
  - injection Hr as <-. cbn. split; [lia|done].
  - destruct (kmbm_thread_proc c i s) as [s1|] eqn:Hs; [|done]. cbn in Hr.
    destruct (IH s1) as [H1 H2]; [by eapply kmbm_step_inv|done|].
    rewrite (rank_step c i s s1 Hc Hi Hs) in H1. cbn [length]. split; [lia|done].
Qed.

(** The steps of a whole run. *)
Definition total_steps (c : config) : Z :=
  gnTargetValue c * (2 * Z.of_nat (length (updates (gnSyncType c))) + 2) + 3 * Z.of_nat (gnThreadCount c).

Lemma rank_init c : config_ok c -> zsum (rank c) (threads (init_kmbm_module c)) = total_steps c.
Proof.
  intros Hc. destruct (share0_ok c Hc) as [_ Ht]. cbn.
  erewrite (zsum_ext _ (fun _ => rank c (Thread Start (share0 c))))
    by (by intros th [-> _]%elem_of_replicate).
  rewrite zsum_const, length_replicate. unfold rank, total_steps. cbn [my_share at_pc]. nia.
Qed.

(** C34: in the robust build ([CONFIG_ROBUSTO_COUNTER]) the threads always finish.  With at least one increment per thread and a target
    that is a multiple of the number of threads, no interleaving can take more than
    [total_steps] steps (each step is a thread passing the barrier, taking the lock, loading
    or storing the counter, or leaving the section), a thread that is not finished can
    always make one unless another one can, and so every maximal run has exactly
    [total_steps] steps and ends with all threads counted as complete: the barrier, the lock
    and [wait_kmbm_complete] do not hang. *)
Theorem pcount_finishes c l s :
  config_ok c -> run (kmbm_thread_proc c) l (init_kmbm_module c) = Some s ->
  Z.of_nat (length l) <= total_steps c
  /\ ((forall i, kmbm_thread_proc c i s = None) ->
      Z.of_nat (length l) = total_steps c /\ all_complete c s = true
      /\ (forall th, th ∈ threads s -> at_pc th = Finished)).
Proof.
  intros Hc Hr. destruct (run_rank c l _ s Hc (init_inv c Hc) Hr) as [Hn Hi]. rewrite rank_init in Hn by done.
  assert (Hp : 0 <= zsum (rank c) (threads s)).
  { apply zsum_nonneg. intros th [i Hth]%list_elem_of_lookup. by eapply rank_nonneg, (inv_threads c s Hi). }
  split; [lia|]. intros Hs. pose proof (stuck_finished c s Hi Hs) as Hf.
  assert (Hz : zsum (rank c) (threads s) = 0).
  { apply zsum_0. intros th Hth. pose proof (Hf th Hth) as Hpc. apply list_elem_of_lookup in Hth as [i Hth].
    destruct (inv_threads c s Hi i th Hth) as [Hsh _]. rewrite Hpc in Hsh. unfold rank. rewrite Hpc, Hsh. lia. }
  split_and!; [lia| |done]. unfold all_complete.
  rewrite (inv_complete c s Hi), <- (inv_len c s Hi). apply Z.geb_le.
  rewrite <- (Z.mul_1_l (Z.of_nat _)), <- zsum_const. apply zsum_le. intros th Hth. unfold finished. by rewrite Hf.
Qed.

Lemma complete_finished c s :
  inv c s -> all_complete c s = true -> forall th, th ∈ threads s -> at_pc th = Finished.
Proof.
  unfold all_complete. intros Hi Hc%Z.geb_le th [i Hth]%list_elem_of_lookup.
  rewrite (inv_complete c s Hi), <- (inv_len c s Hi) in Hc.
  assert (Hd : finished th + Z.of_nat (length (delete i (threads s))) >= Z.of_nat (length (threads s))).
  { assert (Hp : threads s ≡ₚ th :: delete i (threads s)) by (by apply delete_Permutation).
    rewrite (zsum_perm finished _ _ Hp) in Hc. cbn [zsum] in Hc.
    pose proof (count_range finished (delete i (threads s)) ltac:(intros [[] ?]; cbn; lia)). lia. }
  rewrite length_delete in Hd by done. apply lookup_lt_Some in Hth.
  unfold finished in Hd. destruct (at_pc th); (done || lia).
Qed.

(** Without a lock the shared counter is never written. *)
Lemma unlocked_shared c s :
  locked (gnSyncType c) = false -> reach (kmbm_thread_proc c) (init_kmbm_module c) s -> gnSharedCounter s = 0.
Proof.
  intros El. apply (reach_invariant _ (fun s => gnSharedCounter s = 0)); [done|]. intros i s1 s2 H Hs. unfold kmbm_thread_proc, enter, finish_section, set_counter in Hs.
  rewrite El in Hs. destruct (threads s1 !! i) as [th|]; [|done]. cbn in Hs.
  destruct (at_pc th) as [| | |k [v|]| |]; try (by simplify_eq).
  - destruct (_ <? _); by simplify_eq.
  - destruct (gnSyncType c); by simplify_eq.
  - destruct (_ !! k); cbn in Hs; by simplify_eq.
  - destruct (_ !! k); by simplify_eq.
Qed.

(** C35: what the robust build reports.  At every point of every interleaving at most one
    thread is inside the section of the spinlock or semaphore benchmark, and the counter
    stays within 10 of the target; once [wait_kmbm_complete] sees all threads complete, the
    shared counter is exactly the target and the system call returns 0.  The benchmark of
    the bus-locked increment counts to the target as well, but in another variable, so that
    the system call reports a failure, as it always does without synchronisation. *)
Theorem pcount_result c s :
  config_ok c -> reach (kmbm_thread_proc c) (init_kmbm_module c) s ->
  (locked (gnSyncType c) = true ->
     zsum in_crit (threads s) <= 1 /\ 0 <= gnSharedCounter s <= gnTargetValue c + 10)
  /\ (all_complete c s = true ->
      if locked (gnSyncType c)
      then gnSharedCounter s = gnTargetValue c /\ sys_shared_counter_bm c s = 0
      else (gnSyncType c = KMBM_SYNC_TYP_LOCKED_INC -> atomic_counter s = gnTargetValue c)
        /\ sys_shared_counter_bm c s = -1).
Proof.
  intros Hc Hr. pose proof (reach_inv c s Hc Hr) as Hi. pose proof (inv_added c s Hi) as Ha.
  pose proof (added_total c s Hc Hi) as Ht. split.
  - intros El. rewrite (inv_excl c s Hi El). unfold counter in Ha. rewrite El in Ha.
    split; [destruct (gKmbmLock s); lia|]. rewrite Ha; [lia|]. intros E. by rewrite E in El.
  - intros Hcm. pose proof (complete_finished c s Hi Hcm) as Hf.
    assert (Hz : zsum (added c) (threads s) = gnTargetValue c).
    { destruct (share0_ok c Hc) as [_ <-]. rewrite <- (inv_len c s Hi), <- zsum_const. apply zsum_ext.
      intros th Hth. pose proof (Hf th Hth) as Hpc. apply list_elem_of_lookup in Hth as [i Hth].
      destruct (inv_threads c s Hi i th Hth) as [Hsh _]. rewrite Hpc in Hsh. unfold added. rewrite Hpc, Hsh. lia. }
    rewrite Hz in Ha. unfold sys_shared_counter_bm, counter in *. rewrite (multiple c Hc). cbn [Z.eqb negb].
    destruct (locked (gnSyncType c)) eqn:El.
    + rewrite Ha by (intros E; by rewrite E in El). by rewrite Z.eqb_refl.
    + split; [intros E; apply Ha; by rewrite E|]. rewrite (unlocked_shared c s El Hr).
      destruct Hc. destruct (Z.eqb_spec 0 (gnTargetValue c)); lia.
Qed.

(** Two threads, one increment each. *)
Definition demo (t : sync_type) : config := Config 2 2 t true.

Lemma demo_ok t : config_ok (demo t).
Proof. split; cbn; (done || lia). Defined.

Definition demo_schedule : list nat :=
  [0; 1; 1; 0; 1]%nat ++ replicate 44 1%nat ++ replicate 45 0%nat.

Lemma pcount_finishes_witness :
  exists s, run (kmbm_thread_proc (demo KMBM_SYNC_TYP_SPINLOCK)) demo_schedule (init_kmbm_module (demo KMBM_SYNC_TYP_SPINLOCK)) = Some s
    /\ Z.of_nat (length demo_schedule) <= total_steps (demo KMBM_SYNC_TYP_SPINLOCK).
Proof.
  eexists. split; [vm_compute; reflexivity|].
  eapply (pcount_finishes (demo KMBM_SYNC_TYP_SPINLOCK) demo_schedule); [apply demo_ok|vm_compute; reflexivity].
Defined.

Lemma pcount_result_witness :
  exists s, run (kmbm_thread_proc (demo KMBM_SYNC_TYP_SPINLOCK)) demo_schedule (init_kmbm_module (demo KMBM_SYNC_TYP_SPINLOCK)) = Some s
    /\ all_complete (demo KMBM_SYNC_TYP_SPINLOCK) s = true /\ sys_shared_counter_bm (demo KMBM_SYNC_TYP_SPINLOCK) s = 0.
Proof.
  eexists. split_and!; [vm_compute; reflexivity|vm_compute; reflexivity|].
  eapply (pcount_result (demo KMBM_SYNC_TYP_SPINLOCK)); [apply demo_ok| |vm_compute; reflexivity].
  apply (run_from _ demo_schedule). vm_compute. reflexivity.
Defined.

(** The build without [CONFIG_ROBUSTO_COUNTER] lets the last thread make up for the remainder of the division, but
    decides who is last by the count of completed threads, which a thread that has left the
    section has not raised yet: two threads that are to count to 3 can stop at 2. *)
Definition race : config := Config 2 3 KMBM_SYNC_TYP_SEMAPHORE false.

Lemma pcount_remainder_lost :
  exists l s, run (kmbm_thread_proc race) l (init_kmbm_module race) = Some s
    /\ all_complete race s = true /\ gnSharedCounter s = 2.
Proof.
  exists [0; 1; 0; 1; 0; 0; 0; 0; 1; 1; 1; 1; 0; 1]%nat.
  eexists. split_and!; vm_compute; reflexivity.
Qed.

End Pcount.
