(* ===== verification/OsTable.v ===== *)
(** * The process table ([src/sws/modules/common/os.cc])

    The guest kernel tells the simulator module about its processes: forks, exits, context
    switches, state changes.  The module gives every process a simulator pid ([spid]) that is
    never reused, unlike the kernel's pids, and keeps two indexes of the same [pid_info]
    objects, by pid and by spid; [sync_char] identifies processes by these spids.  The
    objects live in a heap, so that the sharing between the two indexes, deletions and
    null or dangling pointers are visible; [None] is a crash of the module.

    Register values, the bytes and words of the simulated memory and the address of a new
    object are arguments; printing is left out. *)

From S2P Require Import Prelude.

Module Os.

(** ** State *)

Record pid_info := PidInfo {
  pid : Z; spid : Z; kernel : bool; cpu : Z; state : Z; syscall : Z; cmd : list Z }.

Record PeriodicData := Periodic {
  user : Z; nice : Z; system : Z; softirq : Z; irq : Z; idle : Z; iowait : Z; steal : Z }.

(** [kernel_version] is not initialised by [init_procs]. *)
Record os_data_t := OsData {
  last_pid : Z; timer_count : Z; spid_max : Z;
  kstats : list Z; snapshot : list PeriodicData; stat_interval : Z;
  heap : gmap Z pid_info; procs : gmap Z Z; sprocs : gmap Z Z; current_process : gmap Z Z;
  kstat_2_4 : Z * Z; kernel_version : option Z }.

(** Per-processor account of context switches ([ctxtsw_hist] of [osacommon.h]). *)
Record ctxtsw_hist := CtxtswHist { last_ctxtsw_start : Z; tot_ctxtsw : Z; tot_ctxtsw_cyc : Z }.

Definition NULL : Z := 0.

Definition with_tables (h : gmap Z pid_info) (p sp : gmap Z Z) (s : os_data_t) : os_data_t :=
  OsData (last_pid s) (timer_count s) (spid_max s) (kstats s) (snapshot s) (stat_interval s)
    h p sp (current_process s) (kstat_2_4 s) (kernel_version s).

Definition with_current (c : gmap Z Z) (s : os_data_t) : os_data_t :=
  OsData (last_pid s) (timer_count s) (spid_max s) (kstats s) (snapshot s) (stat_interval s)
    (heap s) (procs s) (sprocs s) c (kstat_2_4 s) (kernel_version s).

Definition with_pids (l m : Z) (s : os_data_t) : os_data_t :=
  OsData l (timer_count s) m (kstats s) (snapshot s) (stat_interval s)
    (heap s) (procs s) (sprocs s) (current_process s) (kstat_2_4 s) (kernel_version s).

Definition with_kstats (k : list Z) (sn : list PeriodicData) (p24 : Z * Z) (v : option Z) (s : os_data_t) : os_data_t :=
  OsData (last_pid s) (timer_count s) (spid_max s) k sn (stat_interval s)
    (heap s) (procs s) (sprocs s) (current_process s) p24 v.

(** [new struct pid_info()] is zeroed. *)
Definition new_pid_info : pid_info := PidInfo 0 0 false 0 0 0 (replicate 256 0).

(** ** Operations *)

(** [p0] is the address of the first object. *)
Definition init_procs (ncpus : nat) (p0 : Z) (stale24 : Z * Z) : os_data_t :=
  OsData 0 0 1 [] [] 10000000
    {[ p0 := PidInfo 0 0 true 0 0 0 (replicate 256 0) ]} {[ 0 := p0 ]} {[ 0 := p0 ]}
    (list_to_map ((fun i => (i, 0)) <$> seqZ 0 (Z.of_nat ncpus)))
    stale24 None.

(** [os->procs[pid]]: [operator[]] of [std::map] inserts a null pointer for a new key. *)
Definition procs_at (p : Z) (s : os_data_t) : Z * os_data_t :=
  match procs s !! p with
  | Some pp => (pp, s)
  | None => (NULL, with_tables (heap s) (<[p := NULL]> (procs s)) (sprocs s) s)
  end.

(** Dereferencing a pointer to a [pid_info]. *)
Definition deref (pp : Z) (s : os_data_t) : option pid_info :=
  if pp =? NULL then None else heap s !! pp.

Definition store (pp : Z) (p : pid_info) (s : os_data_t) : os_data_t :=
  with_tables (<[pp := p]> (heap s)) (procs s) (sprocs s) s.

(** The loop of [os_sched] that copies the command line: zero bytes between the arguments
    become blanks, an empty one stops the copy; [n] iterations are left. *)
Fixpoint read_cmd (mem : Z -> Z) (n : nat) (i ptr : Z) (c : list Z) : list Z :=
  match n with
  | O => c
  | S n =>
    let b := s8 (mem ptr) in
    if (b =? 0) && (i =? 0) then <[Z.to_nat i := b]> c
    else read_cmd mem n (i + 1) (u64 (ptr + 1)) (<[Z.to_nat i := if b =? 0 then 32 else b]> c)
  end.

Definition sched_cmd (mem : Z -> Z) (len ptr : Z) (c : list Z) : list Z :=
  let len := if 255 <? len then 255 else len in
  let c := replicate (Z.to_nat (len + 1)) 0 ++ drop (Z.to_nat (len + 1)) c in
  if negb (ptr =? 0) && negb (len =? 0) then read_cmd mem (Z.to_nat (len - 1)) 0 ptr c else c.

(** A context switch to [p]; [cpunum] is the processor it happens on. *)
Definition os_sched (mem : Z -> Z) (cpunum p len ptr : Z) (s : os_data_t) : option os_data_t :=
  let '(pp, s) := procs_at p s in
  if pp =? NULL then Some s
  else
    i ← deref pp s;
    let i := PidInfo (pid i) (spid i) (kernel i) cpunum (state i) (syscall i) (sched_cmd mem len ptr (cmd i)) in
    let s := store pp i s in
    Some (with_current (<[cpunum := spid i]> (current_process s)) s).

Definition os_timer (s : os_data_t) : os_data_t :=
  OsData (last_pid s) (s32 (timer_count s + 1)) (spid_max s) (kstats s) (snapshot s) (stat_interval s)
    (heap s) (procs s) (sprocs s) (current_process s) (kstat_2_4 s) (kernel_version s).

(** [pp] is the address of the new object. *)
Definition os_fork (pp p : Z) (k : bool) (s : os_data_t) : os_data_t :=
  let i := PidInfo p (spid_max s) k (cpu new_pid_info) 256 (syscall new_pid_info) (cmd new_pid_info) in
  let s := with_pids p (u32 (spid_max s + 1)) s in
  let '(old, s) := procs_at p s in
  let h := if old =? NULL then heap s else delete old (heap s) in
  with_tables (<[pp := i]> h) (<[p := pp]> (procs s)) (<[spid i := pp]> (sprocs s)) s.

Definition os_exit (p : Z) (s : os_data_t) : option os_data_t :=
  let '(pp, s) := procs_at p s in
  i ← deref pp s;
  Some (with_tables (delete pp (heap s)) (delete p (procs s)) (delete (spid i) (sprocs s)) s).

Definition os_task_state (p st : Z) (s : os_data_t) : option os_data_t :=
  let '(pp, s) := procs_at p s in
  if pp =? NULL then Some s
  else
    i ← deref pp s;
    Some (store pp (PidInfo (pid i) (spid i) (kernel i) (cpu i) st (syscall i) (cmd i)) s).

Definition os_cur_syscall (p sc : Z) (s : os_data_t) : option os_data_t :=
  let '(pp, s) := procs_at p s in
  if pp =? NULL then Some s
  else
    i ← deref pp s;
    Some (store pp (PidInfo (pid i) (spid i) (kernel i) (cpu i) (state i) sc (cmd i)) s).

(** Context-switch accounting. *)
Definition os_enter_sched (now : Z) (c : ctxtsw_hist) : ctxtsw_hist :=
  CtxtswHist now (tot_ctxtsw c) (tot_ctxtsw_cyc c).

Definition os_exit_switch_to (now : Z) (c : ctxtsw_hist) : ctxtsw_hist :=
  if last_ctxtsw_start c =? 0 then c
  else CtxtswHist (last_ctxtsw_start c) (s64 (tot_ctxtsw c + 1))
         (s64 (tot_ctxtsw_cyc c + s64 (now - last_ctxtsw_start c))).

(** *** Kernel statistics *)

(** [os_kstat] registers the address of one processor's counters (truncated to 32 bits by
    the vector), [os_kstat_2_4] the one table of a 2.4 kernel. *)
Definition os_kstat (paddr : Z) (s : os_data_t) : os_data_t :=
  with_kstats (kstats s ++ [u32 paddr]) (snapshot s ++ [Periodic 0 0 0 0 0 0 0 0]) (kstat_2_4 s) (Some 2600) s.

Definition os_kstat_2_4 (ncpus : nat) (nrcpus paddr : Z) (s : os_data_t) : os_data_t :=
  with_kstats (kstats s ++ replicate ncpus (u32 paddr))
    (snapshot s ++ replicate ncpus (Periodic 0 0 0 0 0 0 0 0)) (paddr, nrcpus) (Some 2400) s.

(** The counters of a processor, in the layouts of the two kernels. *)
Definition read_2_6 (mem8 : Z -> Z) (a : Z) : PeriodicData :=
  Periodic (mem8 a) (mem8 (a + 8)) (mem8 (a + 16)) (mem8 (a + 24)) (mem8 (a + 32)) (mem8 (a + 40))
    (mem8 (a + 48)) (mem8 (a + 56)).

Definition read_2_4 (mem4 : Z -> Z) (a nr i : Z) : PeriodicData :=
  Periodic (mem4 (a + i * 4)) (mem4 (a + 4 * nr + i * 4)) (mem4 (a + 2 * 4 * nr + i * 4)) 0 0
    (mem4 (a + 3 * 4 * nr + i * 4)) 0 0.

Definition minus (x y : PeriodicData) : PeriodicData :=
  Periodic (u64 (user x - user y)) (u64 (nice x - nice y)) (u64 (system x - system y))
    (u64 (softirq x - softirq y)) (u64 (irq x - irq y)) (u64 (idle x - idle y))
    (u64 (iowait x - iowait y)) (u64 (steal x - steal y)).

(** [kstats[i]] and [snapshot[i]] are unchecked vector accesses. *)
Definition prepare_kstats_snapshot (mem8 mem4 : Z -> Z) (s : os_data_t) : option os_data_t :=
  v ← kernel_version s;
  sn ← (if 2600 <=? v
        then mapM (fun i => read_2_6 mem8 <$> kstats s !! i) (seq 0 (length (snapshot s)))
        else Some ((fun i => read_2_4 mem4 (kstat_2_4 s).1 (kstat_2_4 s).2 (Z.of_nat i))
                     <$> seq 0 (length (snapshot s))));
  Some (with_kstats (kstats s) sn (kstat_2_4 s) (kernel_version s) s).

Definition take_kstats_snapshot (mem8 mem4 : Z -> Z) (ncpus : nat) (s : os_data_t) : option (list PeriodicData) :=
  v ← kernel_version s;
  if 2600 <=? v
  then mapM (fun i => k ← kstats s !! i; b ← snapshot s !! i; Some (minus (read_2_6 mem8 k) b))
         (seq 0 (length (kstats s)))
  else if (length (snapshot s) =? 0)%nat then Some []
  else mapM (fun i => b ← snapshot s !! i;
               let r := read_2_4 mem4 (kstat_2_4 s).1 (kstat_2_4 s).2 (Z.of_nat i) in
               Some (minus r (Periodic (user b) (nice b) (system b) 0 0 (idle b) 0 0)))
         (seq 0 ncpus).

(** *** Checkpoints

    The attribute the simulator saves: dictionaries as lists of their entries (in the order
    of [map_to_list]; the keys are distinct); a [cmd] is saved as a C string. *)
Record os_attr := OsAttr {
  a_spid_max : Z; a_sprocs : list (Z * pid_info); a_procs : list (Z * Z); a_current : list (Z * Z);
  a_last_pid : Z; a_timer_count : Z; a_kstats : list Z }.

(** The bytes before the first zero. *)
Fixpoint c_string (c : list Z) : list Z :=
  match c with [] => [] | b :: c => if b =? 0 then [] else b :: c_string c end.

Definition serialize_pid_info (i : pid_info) : pid_info :=
  PidInfo (pid i) (spid i) (kernel i) (cpu i) (state i) (syscall i) (c_string (cmd i)).

(** [strncpy(cmd, ., 256)] pads with zeros. *)
Definition deserialize_pid_info (i : pid_info) : pid_info :=
  PidInfo (pid i) (spid i) (kernel i) (cpu i) (state i) (syscall i)
    (take 256 (cmd i ++ replicate 256 0)).

Definition get_os_visibility (s : os_data_t) : option os_attr :=
  sp ← mapM (fun e : Z * Z => i ← deref e.2 s; Some (e.1, serialize_pid_info i)) (map_to_list (sprocs s));
  p ← mapM (fun e : Z * Z => i ← deref e.2 s; Some (e.1, spid i)) (map_to_list (procs s));
  Some (OsAttr (spid_max s) sp p (map_to_list (current_process s)) (last_pid s) (timer_count s) (kstats s)).

(** [os->sprocs[spid]], which inserts a null pointer for a new key. *)
Definition sprocs_at (k : Z) (s : os_data_t) : Z * os_data_t :=
  match sprocs s !! k with
  | Some pp => (pp, s)
  | None => (NULL, with_tables (heap s) (procs s) (<[k := NULL]> (sprocs s)) s)
  end.

(** [locs] are the addresses of the objects [deserialize_pid_info] allocates. *)
Definition set_sprocs (sp : list (Z * pid_info)) (locs : list Z) (s : os_data_t) : os_data_t :=
  foldl (fun s '((k, i), pp) =>
    with_tables (<[pp := deserialize_pid_info i]> (heap s)) (procs s) (<[k := pp]> (sprocs s)) s)
    s (zip sp locs).

Definition set_procs (p : list (Z * Z)) (s : os_data_t) : os_data_t :=
  foldl (fun s '(k, sp) =>
    let '(pp, s) := sprocs_at sp s in with_tables (heap s) (<[k := pp]> (procs s)) (sprocs s) s) s p.

Definition set_os_visibility (a : os_attr) (locs : list Z) (s : os_data_t) : os_data_t :=
  let s := with_pids (last_pid s) (u32 (a_spid_max a)) s in
  let s := set_sprocs (a_sprocs a) locs s in
  let s := set_procs (a_procs a) s in
  let s := with_current (foldl (fun m '(c, p) => <[c := p]> m) (current_process s) (a_current a)) s in
  OsData (s32 (a_last_pid a)) (s32 (a_timer_count a)) (spid_max s) (kstats s ++ (u32 <$> a_kstats a)) (snapshot s)
    (stat_interval s) (heap s) (procs s) (sprocs s) (current_process s) (kstat_2_4 s) (kernel_version s).

(** ** Events

    What the guest kernel reports; a fork comes with the address of the new object. *)
Inductive event :=
| Sched (mem : Z -> Z) (cpunum p len ptr : Z)
| Timer
| Fork (pp p : Z) (k : bool)
| Exit (p : Z)
| TaskState (p st : Z)
| CurSyscall (p sc : Z)
| Kstat (paddr : Z).

Definition os_event (e : event) (s : os_data_t) : option os_data_t :=
  match e with
  | Sched mem c p len ptr => os_sched mem c p len ptr s
  | Timer => Some (os_timer s)
  | Fork pp p k => Some (os_fork pp p k s)
  | Exit p => os_exit p s
  | TaskState p st => os_task_state p st s
  | CurSyscall p sc => os_cur_syscall p sc s
  | Kstat a => Some (os_kstat a s)
  end.

(** What the two indexes say. *)
Definition spid_of (s : os_data_t) (p : Z) : option Z :=
  pp ← procs s !! p; i ← deref pp s; Some (spid i).

Definition pid_of (s : os_data_t) (k : Z) : option Z :=
  pp ← sprocs s !! k; i ← deref pp s; Some (pid i).

(** The kernel forks processes that do not exist and ends processes that do; a new object
    is at a fresh address; spids have not wrapped.  Any pid may be scheduled or change its
    state, known or not. *)
Definition legal (e : event) (s : os_data_t) : Prop :=
  match e with
  | Fork pp p _ => pp <> NULL /\ heap s !! pp = None /\ spid_of s p = None
      /\ spid_max s + 1 < 2 ^ 32 /\ - 2 ^ 31 <= p < 2 ^ 31
  | Exit p => is_Some (spid_of s p)
  | Sched _ _ _ len _ => 0 <= len
  | _ => True
  end.

Fixpoint legal_run (l : list event) (s : os_data_t) : Prop :=
  match l with
  | [] => True
  | e :: l => legal e s /\ (forall s', os_event e s = Some s' -> legal_run l s')
  end.

(** ** Abstract specification: the live processes with their spids, the number of the next
    process, and who runs where. *)
Record spec := Spec { sp_live : gmap Z Z; sp_next : Z; sp_running : gmap Z Z }.

Definition spec_init (ncpus : nat) : spec :=
  Spec {[ 0 := 0 ]} 1 (list_to_map ((fun i => (i, 0)) <$> seqZ 0 (Z.of_nat ncpus))).

Definition spec_event (e : event) (a : spec) : spec :=
  match e with
  | Fork _ p _ => Spec (<[p := sp_next a]> (sp_live a)) (sp_next a + 1) (sp_running a)
  | Exit p => Spec (delete p (sp_live a)) (sp_next a) (sp_running a)
  | Sched _ c p _ _ =>
    match sp_live a !! p with
    | Some k => Spec (sp_live a) (sp_next a) (<[c := k]> (sp_running a))
    | None => a
    end
  | _ => a
  end.

(** ** Invariant *)

Record table_ok (s : os_data_t) : Prop := {
  t_procs : forall p pp, procs s !! p = Some pp ->
    pp = NULL \/ exists i, heap s !! pp = Some i /\ pid i = p;
  t_sprocs : forall k pp, sprocs s !! k = Some pp -> exists i, heap s !! pp = Some i /\ spid i = k;
  t_heap : forall pp i, heap s !! pp = Some i ->
    pp <> NULL /\ procs s !! pid i = Some pp /\ sprocs s !! spid i = Some pp
    /\ 0 <= spid i < spid_max s /\ length (cmd i) = 256%nat /\ cmd i !! 255%nat = Some 0;
  t_range : 0 <= spid_max s < 2 ^ 32 /\ - 2 ^ 31 <= last_pid s < 2 ^ 31
    /\ - 2 ^ 31 <= timer_count s < 2 ^ 31 /\ Forall (fun k => 0 <= k < 2 ^ 32) (kstats s);
}.

Lemma deref_heap s pp i : table_ok s -> heap s !! pp = Some i -> deref pp s = Some i.
Proof. intros Hs Hi. unfold deref. destruct (t_heap s Hs pp i Hi) as [Hn _]. by rewrite (proj2 (Z.eqb_neq _ _) Hn). Qed.

Lemma deref_None s pp : table_ok s -> deref pp s = None -> pp = NULL \/ heap s !! pp = None.
Proof. intros Hs. unfold deref. destruct (Z.eqb_spec pp NULL); auto. Qed.

(** A live process, by its pid. *)
Lemma spid_of_Some s p k : table_ok s ->
  spid_of s p = Some k <-> exists pp i, procs s !! p = Some pp /\ heap s !! pp = Some i /\ pid i = p /\ spid i = k.
Proof.
  intros Hs. unfold spid_of. split.
  - destruct (procs s !! p) as [pp|] eqn:Hp; [|done]. cbn.
    destruct (t_procs s Hs p pp Hp) as [-> |(i & Hi & Hpid)]; [done|].
    rewrite (deref_heap s pp i Hs Hi). cbn. intros [= <-]. by exists pp, i.
  - intros (pp & i & -> & Hi & _ & <-). cbn. by rewrite (deref_heap s pp i Hs Hi).
Qed.

Lemma pid_of_Some s p k : table_ok s -> pid_of s k = Some p <-> spid_of s p = Some k.
Proof.
  intros Hs. rewrite spid_of_Some by done. unfold pid_of. split.
  - destruct (sprocs s !! k) as [pp|] eqn:Hk; [|done]. cbn.
    destruct (t_sprocs s Hs k pp Hk) as (i & Hi & Hsp). rewrite (deref_heap s pp i Hs Hi). cbn. intros [= <-].
    exists pp, i. by destruct (t_heap s Hs pp i Hi) as (_ & ? & _).
  - intros (pp & i & Hp & Hi & <- & <-). destruct (t_heap s Hs pp i Hi) as (_ & _ & -> & _). cbn.
    by rewrite (deref_heap s pp i Hs Hi).
Qed.

(** ** Steps *)

(** Same objects, same indexes up to null entries of the pid index. *)
Lemma table_ok_null s p :
  table_ok s -> procs s !! p = None -> table_ok (with_tables (heap s) (<[p := NULL]> (procs s)) (sprocs s) s).
Proof.
  intros [Hp Hk Hh Hr] Hn. split; cbn; [|done| |done].
  - intros q pp. destruct (decide (q = p)) as [-> |Hne]; [rewrite lookup_insert_eq; intros [= <-]; by left|].
    rewrite lookup_insert_ne by done. apply Hp.
  - intros pp i Hi. destruct (Hh pp i Hi) as (? & Hpi & ?). split_and!; [done| |tauto..].
    rewrite lookup_insert_ne; [done|]. intros ->. congruence.
Qed.

Lemma spid_of_null s p q : procs s !! p = None ->
  spid_of (with_tables (heap s) (<[p := NULL]> (procs s)) (sprocs s) s) q = spid_of s q.
Proof.
  intros Hn. unfold spid_of. cbn. destruct (decide (q = p)) as [-> |Hne]; [|by rewrite lookup_insert_ne].
  by rewrite lookup_insert_eq, Hn.
Qed.

Inductive procs_at_spec (p : Z) (s : os_data_t) : Z * os_data_t -> Prop :=
| At_null s1 : table_ok s1 -> (forall q, spid_of s1 q = spid_of s q) -> heap s1 = heap s ->
    current_process s1 = current_process s -> spid_max s1 = spid_max s -> spid_of s p = None ->
    procs_at_spec p s (NULL, s1)
| At_live pp i : procs s !! p = Some pp -> heap s !! pp = Some i -> pid i = p -> pp <> NULL ->
    spid_of s p = Some (spid i) -> procs_at_spec p s (pp, s).

Lemma procs_at_cases p s : table_ok s -> procs_at_spec p s (procs_at p s).
Proof.
  intros Hs. unfold procs_at. destruct (procs s !! p) as [pp|] eqn:Hp.
  - destruct (t_procs s Hs p pp Hp) as [-> |(i & Hi & Hpid)].
    + constructor; try done. unfold spid_of. by rewrite Hp.
    + pose proof (t_heap s Hs pp i Hi) as (Hn & _). eapply At_live; try done.
      apply spid_of_Some; [done|]. by exists pp, i.
  - constructor; try done; [by apply table_ok_null|intros q; by apply spid_of_null|].
    unfold spid_of. by rewrite Hp.
Qed.

(** Updating an object in place. *)
Lemma store_ok s pp i i' :
  table_ok s -> heap s !! pp = Some i -> pid i' = pid i -> spid i' = spid i ->
  length (cmd i') = 256%nat -> cmd i' !! 255%nat = Some 0 ->
  table_ok (store pp i' s) /\ (forall q, spid_of (store pp i' s) q = spid_of s q)
  /\ base.size (heap (store pp i' s)) = base.size (heap s).
Proof.
  intros Hs Hi Hp Hk Hl Hz. pose proof Hs as [Hps Hss Hh Hr].
  assert (Hlk : forall qq j, heap s !! qq = Some j ->
    exists j', heap (store pp i' s) !! qq = Some j' /\ pid j' = pid j /\ spid j' = spid j).
  { intros qq j Hj. cbn. destruct (decide (qq = pp)) as [-> |Hne].
    - rewrite lookup_insert_eq. simplify_eq. by exists i'.
    - rewrite lookup_insert_ne by done. by exists j. }
  assert (Hok : table_ok (store pp i' s)).
  { split; [| | |done].
    - intros q qq Hq. destruct (Hps q qq Hq) as [-> |(j & Hj & <-)]; [by left|right].
      destruct (Hlk qq j Hj) as (j' & ? & ? & _). by exists j'.
    - intros k qq Hq. destruct (Hss k qq Hq) as (j & Hj & <-). destruct (Hlk qq j Hj) as (j' & ? & _ & ?). by exists j'.
    - intros qq j. cbn. destruct (decide (qq = pp)) as [-> |Hne].
      + rewrite lookup_insert_eq. intros [= <-]. destruct (Hh pp i Hi) as (? & ? & ? & ? & _). rewrite Hp, Hk. done.
      + rewrite lookup_insert_ne by done. apply Hh. }
  split_and!; [done| |].
  - intros q. apply option_eq. intros k. rewrite !spid_of_Some by done. split.
    + intros (qq & j & Hq & Hj & Hpq & Hkq). cbn in Hj. destruct (decide (qq = pp)) as [-> |Hne].
      * rewrite lookup_insert_eq in Hj. simplify_eq. exists pp, i. split_and!; [done..|congruence|congruence].
      * rewrite lookup_insert_ne in Hj by done. by exists qq, j.
    + intros (qq & j & Hq & Hj & Hpq & Hkq). destruct (Hlk qq j Hj) as (j' & ? & ? & ?).
      exists qq, j'. split_and!; [done..|congruence|congruence].
  - cbn. by rewrite map_size_insert_Some.
Qed.

(** A command line always ends in a zero. *)
Lemma read_cmd_len mem n : forall i ptr c, length (read_cmd mem n i ptr c) = length c.
Proof.
  induction n as [|n IH]; intros i ptr c; cbn; [done|].
  destruct (_ && _); [by rewrite length_insert|]. by rewrite IH, length_insert.
Qed.

Lemma read_cmd_last mem n : forall i ptr c, 0 <= i -> i + Z.of_nat n <= 255 ->
  read_cmd mem n i ptr c !! 255%nat = c !! 255%nat.
Proof.
  induction n as [|n IH]; intros i ptr c Hi Hn; cbn [read_cmd]; [done|].
  destruct (_ && _); [rewrite list_lookup_insert_ne by lia; done|].
  rewrite IH by lia. by rewrite list_lookup_insert_ne by lia.
Qed.

Lemma sched_cmd_ok mem len ptr c : 0 <= len -> length c = 256%nat -> c !! 255%nat = Some 0 ->
  length (sched_cmd mem len ptr c) = 256%nat /\ sched_cmd mem len ptr c !! 255%nat = Some 0.
Proof.
  intros Hl Hc Hz. unfold sched_cmd. set (n := if 255 <? len then 255 else len).
  assert (Hn : 0 <= n <= 255) by (unfold n; destruct (Z.ltb_spec 255 len); lia).
  set (c1 := replicate (Z.to_nat (n + 1)) 0 ++ drop (Z.to_nat (n + 1)) c).
  assert (Hc1 : length c1 = 256%nat /\ c1 !! 255%nat = Some 0).
  { unfold c1. rewrite length_app, length_replicate, length_drop. split; [lia|].
    destruct (decide (n = 255)) as [-> |Hne]; [done|].
    rewrite lookup_app_r by (rewrite length_replicate; lia). rewrite length_replicate, lookup_drop.
    replace (Z.to_nat (n + 1) + (255 - Z.to_nat (n + 1)))%nat with 255%nat by lia. done. }
  destruct (negb _ && negb _) eqn:E; [|done]. rewrite read_cmd_len.
  apply andb_true_iff in E as [_ E]. rewrite read_cmd_last by lia. done.
Qed.

(** ** Refinement *)

Record sim (s : os_data_t) (a : spec) : Prop := {
  s_ok : table_ok s;
  s_live : forall p, spid_of s p = sp_live a !! p;
  s_next : spid_max s = sp_next a;
  s_run : current_process s = sp_running a;
  s_size : base.size (heap s) = base.size (sp_live a);
}.

(** Changes outside the tables. *)
Lemma table_ok_frame s s' :
  heap s' = heap s -> procs s' = procs s -> sprocs s' = sprocs s -> spid_max s' = spid_max s ->
  - 2 ^ 31 <= last_pid s' < 2 ^ 31 -> - 2 ^ 31 <= timer_count s' < 2 ^ 31 ->
  Forall (fun k => 0 <= k < 2 ^ 32) (kstats s') -> table_ok s -> table_ok s'.
Proof. intros Eh Ep Es Em Hl Ht Hk [H1 H2 H3 H4]. split; rewrite ?Eh, ?Ep, ?Es, ?Em; try done. tauto. Qed.

Lemma spid_of_frame s s' p : heap s' = heap s -> procs s' = procs s -> spid_of s' p = spid_of s p.
Proof. unfold spid_of, deref. by intros -> ->. Qed.

(** Storing through a live pointer, or nothing for an unknown pid. *)
Lemma set_field_sim p s a (f : pid_info -> pid_info) :
  sim s a -> (forall i, pid (f i) = pid i /\ spid (f i) = spid i
    /\ (length (cmd i) = 256%nat -> cmd i !! 255%nat = Some 0 ->
         length (cmd (f i)) = 256%nat /\ cmd (f i) !! 255%nat = Some 0)) ->
  exists s', (let '(pp, s) := procs_at p s in
    if pp =? NULL then Some s else i ← deref pp s; Some (store pp (f i) s)) = Some s' /\ sim s' a.
Proof.
  intros [Ho Hl Hn Hr Hz] Hf. destruct (procs_at_cases p s Ho) as [s1 H1 Hq Hh Hc Hm _|pp i Hp Hi Hpid Hne _].
  - exists s1. split; [done|]. split; [done|..]; [intros q; by rewrite Hq|congruence|congruence|by rewrite Hh].
  - rewrite (proj2 (Z.eqb_neq _ _) Hne), (deref_heap s pp i Ho Hi). cbn. eexists. split; [done|].
    destruct (Hf i) as (E1 & E2 & E3). destruct (t_heap s Ho pp i Hi) as (_ & _ & _ & _ & Hlen & Hz0).
    destruct (store_ok s pp i (f i)) as (H1 & H2 & H3); [done..|by apply E3|by apply E3|].
    split; [done|intros q; by rewrite H2|done|done|by rewrite H3].
Qed.

Lemma sched_sim mem c p len ptr s a : sim s a -> 0 <= len ->
  exists s', os_sched mem c p len ptr s = Some s' /\ sim s' (spec_event (Sched mem c p len ptr) a).
Proof.
  intros [Ho Hl Hn Hr Hz] Hlen. unfold os_sched. cbn [spec_event].
  destruct (procs_at_cases p s Ho) as [s1 H1 Hq Hh Hc Hm Hnone|pp i Hp Hi Hpid Hne Hsp].
  - exists s1. rewrite <- Hl, Hnone. split; [done|]. split; [done|..]; [intros q; by rewrite Hq|congruence|congruence|by rewrite Hh].
  - rewrite (proj2 (Z.eqb_neq _ _) Hne), (deref_heap s pp i Ho Hi). cbn [mbind option_bind].
    destruct (t_heap s Ho pp i Hi) as (_ & _ & _ & _ & Hlen' & Hz0). rewrite <- Hl, Hsp.
    set (i' := PidInfo _ _ _ _ _ _ _).
    destruct (sched_cmd_ok mem len ptr (cmd i) Hlen Hlen' Hz0) as [Hc1 Hc2].
    destruct (store_ok s pp i i' Ho Hi eq_refl eq_refl Hc1 Hc2) as (H1 & H2 & H3).
    eexists. split; [reflexivity|]. split.
    + apply (table_ok_frame (store pp i' s)); try done; apply Ho.
    + intros q. cbn. rewrite <- Hl, <- H2. by apply spid_of_frame.
    + done.
    + cbn. by rewrite Hr.
    + cbn. rewrite <- Hz. exact H3.
Qed.

Lemma fork_sim pp p k s a : sim s a -> legal (Fork pp p k) s ->
  sim (os_fork pp p k s) (spec_event (Fork pp p k) a).
Proof.
  intros [Ho Hl Hn Hr Hz] (Hne & Hfr & Hnone & Hw & Hp). unfold os_fork. cbn [spec_event].
  set (i := PidInfo p (spid_max s) k _ _ _ _). set (s0 := with_pids p _ s).
  assert (Hk0 : forall q, procs s !! q = Some pp -> False).
  { intros q Hq. destruct (t_procs s Ho q pp Hq) as [? |(j & Hj & _)]; [done|congruence]. }
  assert (Hat : exists s1, procs_at p s0 = (NULL, s1) /\ heap s1 = heap s /\ sprocs s1 = sprocs s
    /\ delete p (procs s1) = delete p (procs s) /\ spid_max s1 = u32 (spid_max s + 1)
    /\ last_pid s1 = p /\ timer_count s1 = timer_count s /\ kstats s1 = kstats s
    /\ current_process s1 = current_process s).
  { unfold procs_at. cbn. destruct (procs s !! p) as [qq|] eqn:Hq.
    - destruct (t_procs s Ho p qq Hq) as [-> |(j & Hj & Hpj)]; [by exists s0|].
      exfalso. assert (spid_of s p = Some (spid j)) by (apply spid_of_Some; [done|by exists qq, j]). congruence.
    - eexists. split; [done|]. cbn. split_and!; try done. by rewrite delete_insert_eq. }
  destruct Hat as (s1 & -> & Eh & Es & Ep & Em & El & Et & Ek & Ec). cbn [Z.eqb NULL].
  assert (Hp1 : forall q, q <> p -> procs s1 !! q = procs s !! q).
  { intros q Hq. by rewrite <- (lookup_delete_ne (procs s1) p q), Ep, lookup_delete_ne by done. }
  destruct (t_range s Ho) as (Hr1 & Hr2 & Hr3 & Hr4). rewrite u32_small in Em by lia.
  set (s2 := with_tables _ _ _ s1).
  assert (Hj2 : forall qq j, heap s !! qq = Some j -> qq <> pp /\ pid j <> p /\ spid j <> spid_max s).
  { intros qq j Hj. destruct (t_heap s Ho qq j Hj) as (_ & Hpj & _ & Hsp & _). split_and!; [congruence| |lia].
    intros <-. assert (spid_of s (pid j) = Some (spid j)) by (apply spid_of_Some; [done|by exists qq, j]). congruence. }
  assert (Hok : table_ok s2).
  { split; cbn; rewrite ?Eh, ?Es.
    - intros q qq. destruct (decide (q = p)) as [-> |Hq].
      + rewrite lookup_insert_eq. intros [= <-]. right. exists i. by rewrite lookup_insert_eq.
      + rewrite lookup_insert_ne, Hp1 by done. intros Hqq.
        destruct (t_procs s Ho q qq Hqq) as [? |(j & Hj & ?)]; [by left|right].
        exists j. by rewrite lookup_insert_ne by (by apply not_eq_sym, (Hj2 qq j)).
    - intros q qq. destruct (decide (q = spid_max s)) as [-> |Hq].
      + rewrite lookup_insert_eq. intros [= <-]. exists i. by rewrite lookup_insert_eq.
      + rewrite lookup_insert_ne by done. intros Hqq. destruct (t_sprocs s Ho q qq Hqq) as (j & Hj & ?).
        exists j. by rewrite lookup_insert_ne by (by apply not_eq_sym, (Hj2 qq j)).
    - intros qq j. destruct (decide (qq = pp)) as [-> |Hq].
      + rewrite lookup_insert_eq. intros [= <-]. cbn. rewrite !lookup_insert_eq, Em. split_and!; done || lia.
      + rewrite lookup_insert_ne by done. intros Hj. destruct (Hj2 qq j Hj) as (_ & ? & ?).
        destruct (t_heap s Ho qq j Hj) as (? & ? & ? & ? & ?).
        rewrite !lookup_insert_ne, Hp1, Em by done. split_and!; (done || lia || tauto).
    - rewrite Em, El, Et, Ek. split_and!; done || lia. }
  split; [done| |cbn; lia|cbn; congruence|].
  - intros q. cbn [sp_live]. destruct (decide (q = p)) as [-> |Hq].
    + rewrite lookup_insert_eq. rewrite <- Hn. apply spid_of_Some; [done|]. exists pp, i. cbn.
      by rewrite !lookup_insert_eq.
    + rewrite lookup_insert_ne, <- Hl by done. unfold spid_of, deref. cbn. rewrite lookup_insert_ne, Hp1 by done.
      destruct (procs s !! q) as [qq|] eqn:Hqq; [|done]. cbn. rewrite lookup_insert_ne, Eh; [done|].
      intros ->. by eapply Hk0.
  - cbn. rewrite Eh, !map_size_insert_None; [by rewrite Hz|by rewrite <- Hl|done].
Qed.

Lemma exit_sim p s a : sim s a -> legal (Exit p) s ->
  exists s', os_exit p s = Some s' /\ sim s' (spec_event (Exit p) a).
Proof.
  intros [Ho Hl Hn Hr Hz] Hlive. unfold os_exit. cbn [spec_event legal] in *.
  destruct (procs_at_cases p s Ho) as [s1 _ _ _ _ _ Hnone|pp i Hp Hi Hpid Hne Hsp];
    [rewrite Hnone in Hlive; by destruct Hlive|].
  rewrite (deref_heap s pp i Ho Hi). cbn [mbind option_bind]. eexists. split; [reflexivity|].
  assert (Hj2 : forall qq j, heap s !! qq = Some j -> qq <> pp -> pid j <> p /\ spid j <> spid i).
  { intros qq j Hj Hq. destruct (t_heap s Ho qq j Hj) as (_ & Hpj & Hsj & _).
    destruct (t_heap s Ho pp i Hi) as (_ & Hpi & Hsi & _). split; congruence. }
  set (s2 := with_tables _ _ _ s).
  assert (Hok : table_ok s2).
  { split; cbn.
    - intros q qq [Hq Hqq]%lookup_delete_Some. destruct (t_procs s Ho q qq Hqq) as [? |(j & Hj & ?)]; [by left|right].
      exists j. rewrite lookup_delete_ne; [done|]. intros ->. congruence.
    - intros q qq [Hq Hqq]%lookup_delete_Some. destruct (t_sprocs s Ho q qq Hqq) as (j & Hj & ?).
      exists j. rewrite lookup_delete_ne; [done|]. intros ->. congruence.
    - intros qq j [Hq Hj]%lookup_delete_Some. destruct (Hj2 qq j Hj) as [? ?]; [done|].
      rewrite !lookup_delete_ne by done. by apply (t_heap s Ho).
    - apply Ho. }
  split; [done| |done|done|].
  - intros q. cbn [sp_live]. destruct (decide (q = p)) as [-> |Hq].
    + rewrite lookup_delete_eq. unfold spid_of. cbn. by rewrite lookup_delete_eq.
    + rewrite lookup_delete_ne, <- Hl by done. unfold spid_of, deref. cbn. rewrite lookup_delete_ne by done.
      destruct (procs s !! q) as [qq|] eqn:Hqq; [|done]. cbn. destruct (Z.eqb_spec qq NULL); [done|].
      rewrite lookup_delete_ne; [done|]. intros ->. destruct (t_procs s Ho q qq Hqq) as [? |(j & Hj & ?)]; congruence.
  - cbn. rewrite !map_size_delete, <- Hl, Hsp, Hi. by rewrite Hz.
Qed.

Lemma event_sim e s a : sim s a -> legal e s ->
  exists s', os_event e s = Some s' /\ sim s' (spec_event e a).
Proof.
  intros Hs Hlg. destruct e as [mem c p len ptr| |pp p k|p|p st|p sc|paddr]; cbn [os_event].
  - by apply sched_sim.
  - eexists. split; [done|]. destruct Hs as [Ho Hl Hn Hr Hz]. destruct (t_range s Ho) as (_ & ? & _ & ?).
    split; [|intros q; cbn; rewrite <- Hl; by apply spid_of_frame|done..].
    apply (table_ok_frame s); try done. apply s32_range.
  - eexists. split; [done|]. by apply fork_sim.
  - by apply exit_sim.
  - apply (set_field_sim p s a (fun i => PidInfo (pid i) (spid i) (kernel i) (cpu i) st (syscall i) (cmd i))); done.
  - apply (set_field_sim p s a (fun i => PidInfo (pid i) (spid i) (kernel i) (cpu i) (state i) sc (cmd i))); done.
  - eexists. split; [done|]. destruct Hs as [Ho Hl Hn Hr Hz]. destruct (t_range s Ho) as (_ & ? & ? & ?).
    split; [|intros q; cbn; rewrite <- Hl; by apply spid_of_frame|done..].
    apply (table_ok_frame s); try done. cbn. apply Forall_app. split; [done|]. apply Forall_singleton, u32_range.
Qed.

Lemma init_sim ncpus p0 st : p0 <> NULL -> sim (init_procs ncpus p0 st) (spec_init ncpus).
Proof.
  intros Hp0. assert (Ho : table_ok (init_procs ncpus p0 st)).
  { split; cbn.
    - intros p pp [<- <-]%lookup_singleton_Some. right. eexists. by rewrite lookup_singleton_eq.
    - intros p pp [<- <-]%lookup_singleton_Some. eexists. by rewrite lookup_singleton_eq.
    - intros pp i [<- <-]%lookup_singleton_Some. cbn. rewrite lookup_singleton_eq. split_and!; done || lia.
    - split_and!; [lia..|constructor]. }
  split; [done| |done|done|cbn; by rewrite !map_size_singleton].
  intros p. cbn. destruct (decide (p = 0)) as [-> |Hne].
  - rewrite lookup_singleton_eq. apply spid_of_Some; [done|]. exists p0. eexists. cbn. by rewrite !lookup_singleton_eq.
  - rewrite lookup_singleton_ne by done. unfold spid_of. cbn. by rewrite lookup_singleton_ne.
Qed.

Fixpoint os_run (l : list event) (s : os_data_t) : option os_data_t :=
  match l with [] => Some s | e :: l => s ← os_event e s; os_run l s end.

Lemma run_sim l : forall s a, sim s a -> legal_run l s ->
  exists s', os_run l s = Some s' /\ sim s' (foldl (fun a e => spec_event e a) a l).
Proof.
  induction l as [|e l IH]; intros s a Hs Hl; [by exists s|]. destruct Hl as [He Hl].
  destruct (event_sim e s a Hs He) as (s1 & E1 & H1). destruct (IH s1 _ H1) as (s2 & E2 & H2); [by apply Hl|].
  exists s2. cbn. by rewrite E1.
Qed.

(** C36: the process table implements its specification.  Whatever the kernel reports (any
    pid may be scheduled or change state; forks are of pids that do not exist, exits of pids
    that do), the module does not crash; looking a process up by its pid gives the number of
    its fork as spid, so that spids are never shared or reused; looking up by spid is exactly
    the inverse; the spid recorded for a processor is that of the last known process
    scheduled on it; and there is one object per live process, nothing leaks. *)
Theorem os_table_refines ncpus p0 st l :
  p0 <> NULL -> legal_run l (init_procs ncpus p0 st) ->
  exists s, os_run l (init_procs ncpus p0 st) = Some s
    /\ let a := foldl (fun a e => spec_event e a) (spec_init ncpus) l in
       (forall p, spid_of s p = sp_live a !! p)
       /\ (forall k p, pid_of s k = Some p <-> sp_live a !! p = Some k)
       /\ (forall p q k, sp_live a !! p = Some k -> sp_live a !! q = Some k -> p = q)
       /\ current_process s = sp_running a
       /\ base.size (heap s) = base.size (sp_live a).
Proof.
  intros Hp0 Hl. destruct (run_sim l _ _ (init_sim ncpus p0 st Hp0) Hl) as (s & Es & [Ho Hlv Hn Hr Hz]).
  exists s. split; [done|]. cbn zeta. split_and!; [done| | |done|done].
  - intros k p. rewrite <- Hlv. by apply pid_of_Some.
  - intros p q k. rewrite <- !Hlv, <- !pid_of_Some by done. congruence.
Qed.

(** Process 7 is forked, runs on processor 1, makes process 8, and ends. *)
Definition demo_events : list event :=
  [Fork 100 7 false; Sched (fun _ => 97) 1 7 4 64; TaskState 9 1; Fork 200 8 true; Exit 7].

Lemma os_table_refines_witness :
  legal_run demo_events (init_procs 2 1000 (0, 0)) /\
  exists s, os_run demo_events (init_procs 2 1000 (0, 0)) = Some s
    /\ spid_of s 8 = Some 2 /\ current_process s !! 1 = Some 1.
Proof.
  assert (Hl : legal_run demo_events (init_procs 2 1000 (0, 0))).
  { unfold demo_events. cbn [legal_run]. repeat (split; [|intros s' Hs'; vm_compute in Hs'; injection Hs' as <-]); try done.
    all: vm_compute; try (split_and!; done || (intros; discriminate)); try (by eexists). }
  split; [exact Hl|].
  destruct (os_table_refines 2 1000 (0, 0) demo_events ltac:(done) Hl) as (s & Es & H1 & _ & _ & H2 & _).
  exists s. split_and!; [exact Es|rewrite H1; vm_compute; reflexivity|rewrite H2; vm_compute; reflexivity].
Defined.

(** ** Checkpoints *)

(** What a user of the table sees of a process, by pid and by spid. *)
Definition view (s : os_data_t) (p : Z) : option pid_info :=
  pp ← procs s !! p; i ← deref pp s; Some (serialize_pid_info i).

Definition sview (s : os_data_t) (k : Z) : option pid_info :=
  pp ← sprocs s !! k; i ← deref pp s; Some (serialize_pid_info i).

Definition insert_all {V} (m : gmap Z V) (l : list (Z * V)) : gmap Z V := foldl (fun m '(k, v) => <[k := v]> m) m l.

Lemma insert_all_union {V} (l : list (Z * V)) : forall m, NoDup l.*1 -> insert_all m l = list_to_map l ∪ m.
Proof.
  induction l as [|[k v] l IH]; intros m Hl; cbn; [by rewrite (left_id_L ∅ (∪))|].
  apply NoDup_cons in Hl as [Hk Hl]. unfold insert_all in IH. rewrite IH by done.
  rewrite <- insert_union_r, insert_union_l; [done|]. by apply not_elem_of_list_to_map_1.
Qed.

Lemma insert_all_Some {V} (m : gmap Z V) l k v : NoDup l.*1 -> (k, v) ∈ l -> insert_all m l !! k = Some v.
Proof.
  intros Hl Hk. rewrite insert_all_union by done. apply lookup_union_Some_l. by apply elem_of_list_to_map_1.
Qed.

Lemma insert_all_None {V} (m : gmap Z V) l k : NoDup l.*1 -> k ∉ l.*1 -> insert_all m l !! k = m !! k.
Proof.
  intros Hl Hk. rewrite insert_all_union by done. rewrite lookup_union_r; [done|]. by apply not_elem_of_list_to_map_1.
Qed.

Lemma mapM_total {A B} (f : A -> option B) (g : A -> B) l : (forall x, x ∈ l -> f x = Some (g x)) -> mapM f l = Some (g <$> l).
Proof.
  induction l as [|x l IH]; intros Hf; [done|]. cbn. rewrite Hf by (by left). cbn.
  rewrite IH; [done|]. intros y Hy. apply Hf. by right.
Qed.

Lemma set_sprocs_tables sp : forall locs s,
  set_sprocs sp locs s = with_tables (insert_all (heap s) (zip locs (deserialize_pid_info ∘ snd <$> sp))) (procs s)
    (insert_all (sprocs s) (zip sp.*1 locs)) s.
Proof.
  induction sp as [|[k i] sp IH]; intros [|pp locs] [] ; try done. unfold set_sprocs in *. cbn in *. by rewrite IH.
Qed.

Lemma set_procs_tables p : forall s, (forall k q, (k, q) ∈ p -> is_Some (sprocs s !! q)) ->
  set_procs p s = with_tables (heap s)
    (insert_all (procs s) ((fun e => (e.1, default NULL (sprocs s !! e.2))) <$> p)) (sprocs s) s.
Proof.
  induction p as [|[k q] p IH]; intros s Hp; [by destruct s|]. unfold set_procs in *. cbn.
  destruct (Hp k q ltac:(by left)) as [pp Hpp]. unfold sprocs_at. rewrite Hpp. cbn.
  rewrite IH; [done|]. intros k' q' Hk. apply (Hp k' q'). by right.
Qed.

Lemma c_string_len c n : c !! n = Some 0 -> (length (c_string c) <= n)%nat.
Proof.
  revert n. induction c as [|b c IH]; intros n Hn; cbn; [lia|].
  destruct (Z.eqb_spec b 0) as [-> |Hb]; [cbn; lia|]. destruct n as [|n]; cbn in Hn; [congruence|].
  cbn. specialize (IH n Hn). lia.
Qed.

Lemma c_string_app c r : c_string (c_string c ++ 0 :: r) = c_string c.
Proof.
  induction c as [|b c IH]; cbn; [done|]. destruct (Z.eqb_spec b 0) as [|Hb]; [done|].
  cbn. rewrite (proj2 (Z.eqb_neq _ _) Hb). by rewrite IH.
Qed.

Lemma serialize_roundtrip i : cmd i !! 255%nat = Some 0 ->
  serialize_pid_info (deserialize_pid_info (serialize_pid_info i)) = serialize_pid_info i.
Proof.
  intros Hi%c_string_len. unfold serialize_pid_info, deserialize_pid_info.
  cbn [pid spid kernel cpu state syscall cmd]. f_equal.
  rewrite take_app, take_ge, take_replicate by lia.
  replace (256 - length (c_string (cmd i)))%nat with (S (255 - length (c_string (cmd i)))) by lia.
  replace (S _ `min` 256)%nat with (S (255 - length (c_string (cmd i)))) by lia. apply c_string_app.
Qed.

(** The object behind a pointer. *)
Definition obj (s : os_data_t) (pp : Z) : pid_info := default new_pid_info (heap s !! pp).

Lemma get_os_visibility_ok s : table_ok s -> (forall p, procs s !! p <> Some NULL) ->
  get_os_visibility s = Some (OsAttr (spid_max s)
    ((fun e => (e.1, serialize_pid_info (obj s e.2))) <$> map_to_list (sprocs s))
    ((fun e => (e.1, spid (obj s e.2))) <$> map_to_list (procs s))
    (map_to_list (current_process s)) (last_pid s) (timer_count s) (kstats s)).
Proof.
  intros Hs Hn. unfold get_os_visibility.
  rewrite (mapM_total _ (fun e => (e.1, serialize_pid_info (obj s e.2)))).
  - cbn. rewrite (mapM_total _ (fun e => (e.1, spid (obj s e.2)))); [done|].
    intros [p pp] Hp%elem_of_map_to_list. cbn. destruct (t_procs s Hs p pp Hp) as [-> |(i & Hi & _)].
    + by destruct (Hn p).
    + rewrite (deref_heap s pp i Hs Hi). unfold obj. by rewrite Hi.
  - intros [k pp] Hk%elem_of_map_to_list. cbn. destruct (t_sprocs s Hs k pp Hk) as (i & Hi & _).
    rewrite (deref_heap s pp i Hs Hi). unfold obj. by rewrite Hi.
Qed.

(** The objects are re-created at [locs], in the order of the saved dictionary. *)
Lemma restored_sproc s (locs : list Z) k pp :
  length locs = base.size (sprocs s) -> sprocs s !! k = Some pp ->
  exists n l, map_to_list (sprocs s) !! n = Some (k, pp) /\ locs !! n = Some l.
Proof.
  intros Hl Hk. apply elem_of_map_to_list, list_elem_of_lookup in Hk as [n Hn].
  pose proof (lookup_lt_Some _ _ _ Hn) as Hlt. rewrite length_map_to_list, <- Hl in Hlt.
  apply lookup_lt_is_Some in Hlt as [l Hlk]. eauto.
Qed.

Lemma zip_elem {A B} (l : list A) (k : list B) n x y : l !! n = Some x -> k !! n = Some y -> (x, y) ∈ zip l k.
Proof. intros Hx Hy. apply list_elem_of_lookup. exists n. by rewrite lookup_zip_with, Hx; cbn; rewrite Hy. Qed.

Lemma deref_spec s pp : deref pp s = if pp =? NULL then None else heap s !! pp.
Proof. done. Qed.

Section restore.
Context (s : os_data_t) (n : nat) (p0 : Z) (st : Z * Z) (locs : list Z).
Context (Hs : table_ok s) (Hnull : forall p, procs s !! p <> Some NULL) (H0 : spid_of s 0 = Some 0).
Context (Hlocs : NoDup locs) (Hlen : length locs = base.size (sprocs s)) (HNULL : NULL ∉ locs).

Let sp := (fun e : Z * Z => (e.1, serialize_pid_info (obj s e.2))) <$> map_to_list (sprocs s).
Let ps := (fun e : Z * Z => (e.1, spid (obj s e.2))) <$> map_to_list (procs s).
Let s1 := set_sprocs sp locs (with_pids 0 (u32 (spid_max s)) (init_procs n p0 st)).

Lemma sp_keys : sp.*1 = (map_to_list (sprocs s)).*1.
Proof using. unfold sp. rewrite <- list_fmap_compose. done. Qed.

Lemma zip_keys : (zip sp.*1 locs).*1 = sp.*1.
Proof using Hlen. apply fst_zip. rewrite sp_keys, length_fmap, length_map_to_list, Hlen. done. Qed.

Lemma zip_locs : (zip locs (deserialize_pid_info ∘ snd <$> sp)).*1 = locs.
Proof using Hlen. apply fst_zip. unfold sp. rewrite !length_fmap, length_map_to_list, Hlen. done. Qed.

Lemma zip_nodup : NoDup (zip sp.*1 locs).*1 /\ NoDup (zip locs (deserialize_pid_info ∘ snd <$> sp)).*1.
Proof using Hlen Hlocs. rewrite zip_keys, zip_locs, sp_keys. split; [apply NoDup_fst_map_to_list|done]. Qed.

(** A saved process is found again under its spid. *)
Lemma restored k pp i : sprocs s !! k = Some pp -> heap s !! pp = Some i ->
  exists l, sprocs s1 !! k = Some l /\ l <> NULL /\ heap s1 !! l = Some (deserialize_pid_info (serialize_pid_info i)).
Proof using Hlen Hlocs HNULL.
  intros Hk Hi. destruct (restored_sproc s locs k pp Hlen Hk) as (m & l & Hm & Hl). destruct zip_nodup as [N1 N2].
  unfold s1. rewrite set_sprocs_tables. cbn [heap sprocs with_tables].
  assert (Hsp : sp !! m = Some (k, serialize_pid_info i)).
  { unfold sp. rewrite list_lookup_fmap, Hm. cbn. unfold obj. by rewrite Hi. }
  exists l. split_and!.
  - apply insert_all_Some; [done|]. eapply zip_elem; [|done]. by rewrite list_lookup_fmap, Hsp.
  - intros ->. apply HNULL. by eapply list_elem_of_lookup_2.
  - apply insert_all_Some; [done|]. eapply zip_elem; [done|]. by rewrite list_lookup_fmap, Hsp.
Qed.

Lemma restored_unknown k : sprocs s !! k = None -> sprocs s1 !! k = sprocs (init_procs n p0 st) !! k.
Proof using Hlen Hlocs.
  intros Hk. unfold s1. rewrite set_sprocs_tables. cbn [sprocs with_tables]. destruct zip_nodup as [N1 _].
  rewrite insert_all_None; [done|done|]. rewrite zip_keys, sp_keys.
  intros ([k' pp] & -> & Hin%elem_of_map_to_list)%list_elem_of_fmap. cbn in Hk. congruence.
Qed.

Lemma ps_known k q : (k, q) ∈ ps -> is_Some (sprocs s1 !! q).
Proof using Hs Hnull Hlen Hlocs HNULL.
  unfold ps. intros ([p pp] & [= -> ->] & Hp%elem_of_map_to_list)%list_elem_of_fmap.
  destruct (t_procs s Hs p pp Hp) as [-> |(i & Hi & _)]; [by destruct (Hnull p)|].
  destruct (t_heap s Hs pp i Hi) as (_ & _ & Hk & _). unfold obj. cbn. rewrite Hi. cbn.
  destruct (restored _ _ _ Hk Hi) as (l & -> & _). done.
Qed.

(** And under its pid. *)
Lemma restored_procs p :
  procs (set_procs ps s1) !! p
  = match procs s !! p with Some pp => sprocs s1 !! spid (obj s pp) | None => procs (init_procs n p0 st) !! p end.
Proof using Hs Hnull Hlen Hlocs HNULL.
  rewrite (set_procs_tables ps s1 ps_known). cbn [procs with_tables].
  assert (Hks : ((fun e : Z * Z => (e.1, default NULL (sprocs s1 !! e.2))) <$> ps).*1 = (map_to_list (procs s)).*1).
  { unfold ps. by rewrite <- !list_fmap_compose. }
  assert (Hnd : NoDup ((fun e : Z * Z => (e.1, default NULL (sprocs s1 !! e.2))) <$> ps).*1)
    by (rewrite Hks; apply NoDup_fst_map_to_list).
  destruct (procs s !! p) as [pp|] eqn:Hp.
  - assert (Hin : (p, spid (obj s pp)) ∈ ps).
    { unfold ps. apply list_elem_of_fmap. exists (p, pp). split; [done|]. by apply elem_of_map_to_list. }
    destruct (ps_known _ _ Hin) as [l Hl]. rewrite Hl. apply insert_all_Some; [done|].
    apply list_elem_of_fmap. exists (p, spid (obj s pp)). cbn. by rewrite Hl.
  - rewrite insert_all_None; [unfold s1; by rewrite set_sprocs_tables|done|].
    rewrite Hks. intros ([p' pp] & -> & Hin%elem_of_map_to_list)%list_elem_of_fmap. cbn in Hp. congruence.
Qed.

Lemma restored_heap : heap (set_procs ps s1) = heap s1 /\ sprocs (set_procs ps s1) = sprocs s1.
Proof using Hs Hnull Hlen Hlocs HNULL. by rewrite (set_procs_tables ps s1 ps_known). Qed.

Lemma restored_views :
  let t := set_os_visibility (OsAttr (spid_max s) sp ps (map_to_list (current_process s)) (last_pid s)
    (timer_count s) (kstats s)) locs (init_procs n p0 st) in
  (forall p, view t p = view s p) /\ (forall k, sview t k = sview s k)
  /\ current_process t = current_process s ∪ current_process (init_procs n p0 st)
  /\ spid_max t = u32 (spid_max s) /\ kstats t = u32 <$> kstats s.
Proof using Hs Hnull H0 Hlen Hlocs HNULL.
  intros t. destruct restored_heap as [Eh Es].
  assert (Th : heap t = heap s1 /\ procs t = procs (set_procs ps s1) /\ sprocs t = sprocs s1)
    by (split_and!; [exact Eh|done|exact Es]). destruct Th as (Th & Tp & Ts).
  assert (Hv : forall k pp i, sprocs s !! k = Some pp -> heap s !! pp = Some i ->
    (l ← sprocs s1 !! k; j ← deref l t; Some (serialize_pid_info j)) = Some (serialize_pid_info i)).
  { intros k pp i Hk Hi. destruct (restored k pp i Hk Hi) as (l & -> & Hl & Hj). cbn. rewrite deref_spec, Th.
    rewrite (proj2 (Z.eqb_neq _ _) Hl), Hj. cbn [mbind option_bind].
    by rewrite serialize_roundtrip by (by apply (t_heap s Hs pp i)). }
  apply spid_of_Some in H0 as (q0 & i0 & Hq0 & Hi0 & Hp0 & Hk0); [|done].
  destruct (t_heap s Hs q0 i0 Hi0) as (_ & _ & Hs0 & _). rewrite Hk0 in Hs0. split_and!.
  - intros p. unfold view. rewrite Tp, restored_procs. destruct (procs s !! p) as [pp|] eqn:Hp.
    + destruct (t_procs s Hs p pp Hp) as [-> |(i & Hi & _)]; [by destruct (Hnull p)|].
      destruct (t_heap s Hs pp i Hi) as (_ & _ & Hk & _). unfold obj. rewrite Hi.
      etrans; [apply (Hv _ _ _ Hk Hi)|]. cbn. by rewrite (deref_heap s pp i Hs Hi).
    + cbn. rewrite lookup_singleton_ne; [done|]. congruence.
  - intros k. unfold sview. rewrite Ts. destruct (sprocs s !! k) as [pp|] eqn:Hk.
    + destruct (t_sprocs s Hs k pp Hk) as (i & Hi & _). rewrite (Hv _ _ _ Hk Hi). cbn.
      by rewrite (deref_heap s pp i Hs Hi).
    + rewrite restored_unknown by done. cbn. rewrite lookup_singleton_ne; [done|]. congruence.
  - change (current_process t) with (insert_all (current_process (set_procs ps s1)) (map_to_list (current_process s))).
    rewrite (set_procs_tables ps s1 ps_known), insert_all_union, list_to_map_to_list by apply NoDup_fst_map_to_list.
    unfold s1. by rewrite set_sprocs_tables.
  - change (spid_max t) with (spid_max (set_procs ps s1)).
    rewrite (set_procs_tables ps s1 ps_known). unfold s1. by rewrite set_sprocs_tables.
  - change (kstats t) with (kstats (set_procs ps s1) ++ (u32 <$> kstats s)).
    rewrite (set_procs_tables ps s1 ps_known). unfold s1. by rewrite set_sprocs_tables.
Qed.
End restore.

(** A processor with a running process keeps having one. *)
Lemma running_kept l c : forall a, is_Some (sp_running a !! c) ->
  is_Some (sp_running (foldl (fun a e => spec_event e a) a l) !! c).
Proof.
  induction l as [|e l IH]; intros a Ha; [done|]. cbn. apply IH. destruct e as [? c' p ? ?| | | | | |]; try done.
  cbn. destruct (sp_live a !! p) as [k|]; [|done]. cbn. destruct (decide (c' = c)) as [-> |Hne].
  - by rewrite lookup_insert_eq.
  - by rewrite lookup_insert_ne.
Qed.

(** A checkpoint restores the process table.  Save the table after any run of events in
    which only known pids were scheduled, and load it into a freshly initialised module:
    every process is found again, by pid and by spid, with the same fields and command line,
    and the running processes, the next spid, the last pid, the timer count and the
    addresses of the kernel statistics are those saved. *)
Theorem os_checkpoint_roundtrip ncpus p0 st l s q0 st' locs :
  p0 <> NULL -> legal_run l (init_procs ncpus p0 st) -> os_run l (init_procs ncpus p0 st) = Some s ->
  (forall p, procs s !! p <> Some NULL) -> spid_of s 0 = Some 0 ->
  NoDup locs -> length locs = base.size (sprocs s) -> NULL ∉ locs ->
  exists a, get_os_visibility s = Some a
    /\ let t := set_os_visibility a locs (init_procs ncpus q0 st') in
       (forall p, view t p = view s p) /\ (forall k, sview t k = sview s k)
       /\ current_process t = current_process s /\ spid_max t = spid_max s
       /\ last_pid t = last_pid s /\ timer_count t = timer_count s /\ kstats t = kstats s.
Proof.
  intros Hp0 Hl Hr Hn H0 Hd Hlen HN. pose proof (init_sim ncpus p0 st Hp0) as Hi.
  destruct (run_sim l _ _ Hi Hl) as (s' & Hr' & Hsim). rewrite Hr in Hr'. injection Hr' as <-.
  pose proof (s_ok _ _ Hsim) as Hs. destruct (t_range s Hs) as (R1 & R2 & R3 & R4).
  eexists. split; [by apply get_os_visibility_ok|]. cbn zeta.
  pose proof (restored_views s ncpus q0 st' locs Hs Hn H0 Hd Hlen HN) as (V1 & V2 & V3 & V4 & V5).
  split_and!; [exact V1|exact V2| | | | |].
  - rewrite V3, (s_run _ _ Hsim). apply map_eq. intros c. rewrite lookup_union.
    pose proof (running_kept l c (spec_init ncpus)) as Hc. cbn [current_process init_procs].
    cbn [sp_running spec_init] in Hc. destruct (list_to_map _ !! c) as [k|]; [|by destruct (sp_running _ !! c)].
    destruct Hc as [k' Hk']; [done|]. by rewrite Hk'.
  - by rewrite V4, u32_small.
  - by apply s32_small.
  - by apply s32_small.
  - rewrite V5. transitivity (id <$> kstats s); [|by rewrite list_fmap_id].
    apply list_fmap_ext. intros j k Hk. apply u32_small. by eapply Forall_lookup_1 in R4.
Qed.

Definition demo_saved : list event := [Fork 100 7 false; Sched (fun _ => 97) 1 7 4 64; Fork 200 8 true; Timer; Kstat 4096].

Lemma os_checkpoint_roundtrip_witness :
  exists s a, os_run demo_saved (init_procs 2 1000 (0, 0)) = Some s /\ get_os_visibility s = Some a
    /\ view (set_os_visibility a [11; 12; 13] (init_procs 2 10 (0, 0))) 7 = view s 7.
Proof.
  assert (Hl : legal_run demo_saved (init_procs 2 1000 (0, 0))).
  { unfold demo_saved. cbn [legal_run]. repeat (split; [|intros s' Hs'; vm_compute in Hs'; injection Hs' as <-]); try done.
    all: vm_compute; try (split_and!; done || (intros; discriminate)). }
  destruct (os_run demo_saved (init_procs 2 1000 (0, 0))) as [s|] eqn:Es; [|vm_compute in Es; discriminate].
  assert (Hsz : procs s = {[ 0 := 1000; 7 := 100; 8 := 200 ]} /\ spid_of s 0 = Some 0 /\ base.size (sprocs s) = 3%nat)
    by (vm_compute in Es; injection Es as <-; split_and!; vm_compute; reflexivity).
  destruct Hsz as (Hp & H0 & Hsz).
  destruct (os_checkpoint_roundtrip 2 1000 (0, 0) demo_saved s 10 (0, 0) [11; 12; 13]) as (a & Ha & H1 & _).
  - done.
  - exact Hl.
  - exact Es.
  - intros p H. rewrite Hp in H. repeat (apply lookup_insert_Some in H as [[_ H]|[_ H]]; [discriminate|]).
    apply lookup_singleton_Some in H as [_ H]. discriminate.
  - exact H0.
  - apply (bool_decide_unpack _). vm_compute. reflexivity.
  - by rewrite Hsz.
  - apply (bool_decide_unpack _). vm_compute. reflexivity.
  - exists s, a. split_and!; [reflexivity|exact Ha|apply H1].
Defined.

(** What the checkpoint does not save: after loading one, the vector of snapshots is empty
    and the kernel version unknown, so that the first report of the kernel statistics reads
    outside the vector. *)
Lemma set_procs_frame p : forall s, snapshot (set_procs p s) = snapshot s
  /\ kernel_version (set_procs p s) = kernel_version s /\ kstats (set_procs p s) = kstats s.
Proof.
  induction p as [|[k q] p IH]; intros s; [done|].
  change (set_procs ((k, q) :: p) s) with (set_procs p (let '(pp, s) := sprocs_at q s in
    with_tables (heap s) (<[k := pp]> (procs s)) (sprocs s) s)).
  destruct (IH (let '(pp, s) := sprocs_at q s in with_tables (heap s) (<[k := pp]> (procs s)) (sprocs s) s)) as (-> & -> & ->).
  unfold sprocs_at. by destruct (sprocs s !! q).
Qed.

Lemma os_restore_loses_snapshots a locs ncpus p0 st mem8 mem4 :
  a_kstats a <> [] ->
  let t := set_os_visibility a locs (init_procs ncpus p0 st) in
  snapshot t = [] /\ kstats t <> [] /\ take_kstats_snapshot mem8 mem4 ncpus t = None.
Proof.
  intros Hk t.
  destruct (set_procs_frame (a_procs a) (set_sprocs (a_sprocs a) locs
    (with_pids 0 (u32 (a_spid_max a)) (init_procs ncpus p0 st)))) as (E1 & E2 & E3).
  rewrite set_sprocs_tables in E1, E2, E3.
  assert (Hv : kernel_version t = None) by (unfold t, set_os_visibility; rewrite set_sprocs_tables; exact E2).
  split_and!.
  - unfold t, set_os_visibility. rewrite set_sprocs_tables. exact E1.
  - unfold t, set_os_visibility. cbn [kstats]. rewrite set_sprocs_tables. cbn in E3 |- *. rewrite E3. cbn.
    by destruct (a_kstats a).
  - unfold take_kstats_snapshot. by rewrite Hv.
Qed.

(** A pid that is reported before its fork leaves a null pointer in the index, and the next
    checkpoint crashes. *)
Lemma os_unknown_pid_breaks_checkpoint :
  exists s, os_task_state 9 1 (init_procs 2 1000 (0, 0)) = Some s /\ get_os_visibility s = None.
Proof. eexists. split; [reflexivity|]. vm_compute. reflexivity. Qed.

(** A fork of a pid whose exit was not seen deletes the old object and leaves its address in
    the index by spid. *)
Lemma os_fork_reuse_dangles :
  let s := os_fork 200 7 false (os_fork 100 7 false (init_procs 2 1000 (0, 0))) in
  sprocs s !! 1 = Some 100 /\ heap s !! 100 = None.
Proof. vm_compute. done. Qed.

(** ** Kernel statistics *)

(** Preparing a snapshot and taking it later reports, for every processor, the difference of
    the counters of the two moments. *)
Lemma kstats_interval mem8 mem8' mem4 mem4' ncpus s :
  kernel_version s = Some 2600 -> length (snapshot s) = length (kstats s) ->
  exists s', prepare_kstats_snapshot mem8 mem4 s = Some s'
    /\ take_kstats_snapshot mem8' mem4' ncpus s'
       = Some ((fun k => minus (read_2_6 mem8' k) (read_2_6 mem8 k)) <$> kstats s).
Proof.
  intros Hv Hl. unfold prepare_kstats_snapshot. rewrite Hv. cbn [mbind option_bind].
  change (2600 <=? 2600) with true. cbn iota. rewrite Hl.
  assert (Hd : forall i, i ∈ seq 0 (length (kstats s)) -> kstats s !! i = Some (default 0 (kstats s !! i))).
  { intros i [_ Hi]%elem_of_seq. apply lookup_lt_is_Some in Hi as [k Hk]. by rewrite Hk. }
  rewrite (mapM_total _ (fun i => read_2_6 mem8 (default 0 (kstats s !! i)))) by (intros i Hi; by rewrite (Hd i Hi)).
  eexists. split; [reflexivity|]. unfold take_kstats_snapshot. cbn [kernel_version with_kstats].
  cbn [mbind option_bind kstats with_kstats snapshot]. change (2600 <=? 2600) with true. cbn iota.
  rewrite (mapM_total _ (fun i => minus (read_2_6 mem8' (default 0 (kstats s !! i))) (read_2_6 mem8 (default 0 (kstats s !! i))))).
  - f_equal. apply list_eq. intros i. rewrite !list_lookup_fmap. destruct (decide (i < length (kstats s))%nat) as [Hi|Hi].
    + rewrite lookup_seq_lt by done. cbn. apply lookup_lt_is_Some in Hi as [k Hk]. by rewrite Hk.
    + rewrite lookup_seq_ge, lookup_ge_None_2 by lia. done.
  - intros i Hi. rewrite (Hd i Hi). cbn. apply elem_of_seq in Hi as [_ Hi]. rewrite list_lookup_fmap, lookup_seq_lt by done. done.
Qed.

End Os.
