(* ===== verification/Magic.v ===== *)
(** * Magic instructions: how the guest kernel talks to the modules
    ([src/sws/modules/common/common.cc], [osacommon.cc])

    The patched kernel executes magic instructions; [magic_callback] of the [common] module
    decodes them and passes them on to the modules of the machine: [osatxm] and [syncchar]
    through their interfaces, and to the process table ([OsTable]) that every module keeps
    for itself.  It also owns some state: the queue of benchmarks, the watchpoints, and the
    random shutdown that must not hit an unsafe region.

    The modules of all machines of a simulation form one list.  What leaves the model is a
    list of effects: a call of an interface function of a module, a line in its log, a write
    to guest memory, a stop of the simulation.  An instruction is given with the contents of
    the registers its case reads; the cases that do nothing but call one function of
    [osatxm], which is not part of the repository, are one constructor. *)

From S2P Require Import Prelude OsTable.

Module Magic.

(** ** Data *)

Inductive osamod_type := OSATXM | SYNCCHAR | SYNCCOUNT | COMMON.

#[export] Instance osamod_type_eq_dec : EqDecision osamod_type.
Proof. solve_decision. Defined.

Record common_data_t := CommonData {
  ide : list Z; grub_option : Z; preload : Z; fast_caches : Z; break_on_sched : bool;
  idle_cycles : Z; benchmarks : list string;
  kill_imminent : bool; kill_safe_level : Z; kill_begin_time : Z }.

(** [has_stream]: [pStatStream] is not null; of [disk_delay] only the sign matters. *)
Record osamod_t := Osamod {
  type : osamod_type; system : Z; has_stream : bool; disk_delay : Z;
  ctxtsws : gmap Z Os.ctxtsw_hist; os : Os.os_data_t; common : common_data_t }.

Record watchpoint_t := Watchpoint { addr : Z; len : Z; wpid : Z; bp : Z }.

(** [mods] is the list of [OSA_mod_list]; [bps] is the [std::map] of watchpoints, in the
    order of its keys. *)
Record state := State { mods : list osamod_t; bps : list (Z * watchpoint_t); suspend_protect : gmap Z Z }.

Inductive instr :=
| OSA_PRINT_STR_VAL (all : bool) (text : string)
| OSA_CLEAR_STAT (all : bool)
| OSA_OUTPUT_STAT (all : bool)
| OSA_KILLSIM
| OSA_BREAKSIM
| OSA_BENCHMARK (ebx ecx : Z)
| OSA_NETWORK (ebx : Z)
| OSA_GRUB (ebx : Z)
| OSA_PRINT_NUM_CHAR (text : string)
| OSA_PRINT_STACK_TRACE
| OSA_LOG_THREAD_START
| OSA_LOG_THREAD_STOP
| OSA_PRELOAD (ebx : Z)
| OSA_TOGGLE_DISK_DELAY (ebx : Z)
| OSA_SCHED (mem : Z -> Z) (pid len ptr : Z)
| OSA_FORK (pid : Z) (kernel : bool)
| OSA_TIMER
| OSA_KSTAT (paddr : Z)
| OSA_KSTAT_2_4 (ncpus : nat) (nrcpus paddr : Z)
| OSA_TASK_STATE_VAL (pid st : Z)
| OSA_CUR_SYSCALL_VAL (pid sc : Z)
| OSA_ENTER_SCHED
| OSA_EXIT_SWITCH_TO
| OSA_KERNEL_BOOT
| OSA_REGISTER_SPINLOCK
| OSA_EXIT_CODE (pid : Z)
| OSATXM_ONLY (f : string)
| OSA_GET_RANDOM (rand : Z)
| OSA_DEBUG_PRINT (text : string)
| OSA_PROTECT_ADDR (ebx ecx bp : Z)
| OSA_UNPROTECT_ADDR (ebx : Z)
| OSA_PROTECT_SUSPEND
| OSA_PROTECT_RESUME
| OSA_LOG_SIGSEGV
| SYNCCHAR_CLEAR_MAP
| SYNCCHAR_LOAD_MAP
| OSA_RANDOM_SHUTDOWN_BEGIN (eax edx lrand : Z)
| OSA_RANDOM_SHUTDOWN_UNSAFE
| OSA_RANDOM_SHUTDOWN_SAFE
| OddCode.

Inductive reason := Requested | OnSchedule | Sigsegv | RandomKill (who : nat) | NoWatchpoint | IsolationViolation.

Inductive effect :=
| Call (i : nat) (iface f : string)
| Print (i : nat) (text : string)
| PrintThread (i : nat) (spid : Z) (start : bool)
| Console (text : string)
| Break (r : reason)
| IdleCallback (cycles : Z)
| Quit
| WriteString (laddr : Z) (s : string) (limit : Z)
| Write4 (laddr val : Z)
| WriteEBX (val : Z)
| SetDelay (obj : Z) (delay : bool)
| SetSwitchTime
| StackTrace
| EnablePerturb
| DeleteBreakpoint (bp : Z)
| NotFound (laddr : Z)
| Elapsed (cycles : Z)
| PostKill (who : nat) (cycles : Z).

Definition with_common (c : common_data_t) (m : osamod_t) : osamod_t :=
  Osamod (type m) (system m) (has_stream m) (disk_delay m) (ctxtsws m) (os m) c.

Definition with_os (o : Os.os_data_t) (m : osamod_t) : osamod_t :=
  Osamod (type m) (system m) (has_stream m) (disk_delay m) (ctxtsws m) o (common m).

Definition with_ctxtsws (h : gmap Z Os.ctxtsw_hist) (m : osamod_t) : osamod_t :=
  Osamod (type m) (system m) (has_stream m) (disk_delay m) h (os m) (common m).

Definition with_mods (l : list osamod_t) (s : state) : state := State l (bps s) (suspend_protect s).

Definition set_kill (imminent : bool) (level begin : Z) (c : common_data_t) : common_data_t :=
  CommonData (ide c) (grub_option c) (preload c) (fast_caches c) (break_on_sched c) (idle_cycles c) (benchmarks c)
    imminent level begin.

Definition set_bench (fast : Z) (b : list string) (c : common_data_t) : common_data_t :=
  CommonData (ide c) (grub_option c) (preload c) fast (break_on_sched c) (idle_cycles c) b
    (kill_imminent c) (kill_safe_level c) (kill_begin_time c).

Definition set_common (who : nat) (c : common_data_t) (s : state) : state :=
  with_mods (alter (with_common c) who (mods s)) s.

(** ** Dispatching *)

Definition sameMachine (a b : osamod_t) : bool := system a =? system b.

(** One effect for every module that [sel] selects, in the order of the list. *)
Definition each (sel : osamod_t -> bool) (f : nat -> osamod_t -> effect) (l : list osamod_t) : list effect :=
  concat (imap (fun i m => if sel m then [f i m] else []) l).

Definition DISPATCH_ALL (osamod : osamod_t) (func : string) (all_flag : bool) (l : list osamod_t) : list effect :=
  each (fun m => all_flag || sameMachine osamod m) (fun i _ => Call i "common_osamod_interface" func) l.

Definition DISPATCH_SYNCCHAR (osamod : osamod_t) (func : string) (l : list osamod_t) : list effect :=
  each (fun m => sameMachine osamod m && bool_decide (type m = SYNCCHAR)) (fun i _ => Call i "common_syncchar_interface" func) l.

Definition DISPATCH_OSATXM (osamod : osamod_t) (func : string) (l : list osamod_t) : list effect :=
  each (fun m => sameMachine osamod m && bool_decide (type m = OSATXM)) (fun i _ => Call i "common_osatxm_interface" func) l.

Definition DISPATCH_OS_VISIBILITY (osamod : osamod_t) (func : osamod_t -> option osamod_t) (l : list osamod_t)
  : option (list osamod_t) :=
  mapM (fun m => if sameMachine osamod m then func m else Some m) l.

(** ** Benchmarks *)

Definition networked : list string :=
  ["specweb_cli"; "specweb_cli_primary"; "server"; "apt"; "scp"; "scp_nplus1"; "nc"; "nc_2n"; "nc_udp"; "nc_udp_2n";
   "nc_server"; "nc_udp_server"].

Definition osa_network_query (c : common_data_t) : Z :=
  if existsb (fun b => bool_decide (b ∈ networked)) (benchmarks c) then 1 else 0.

(** The attribute: the old queue is deleted before the kind of the new value is checked. *)
Definition set_benchmarks (v : option (list string)) (c : common_data_t) : bool * common_data_t :=
  match v with
  | Some l => (true, set_bench (fast_caches c) l c)
  | None => (false, set_bench (fast_caches c) [] c)
  end.

Definition get_benchmarks (c : common_data_t) : list string := benchmarks c.

(** ** Random shutdown *)

(** The timer of a random shutdown, and the end of an unsafe region that it fell into. *)
Definition osa_random_kill (who : nat) (c : common_data_t) : common_data_t * list effect :=
  if negb (kill_safe_level c =? 0) then (set_kill true (kill_safe_level c) (kill_begin_time c) c, [])
  else (c, [Break (RandomKill who)]).

Definition set_idle_callback (c : common_data_t) : list effect :=
  if 0 <? idle_cycles c then [IdleCallback (idle_cycles c)] else [Quit].

(** ** Watchpoints *)

(** [bps.insert]: an entry that is there stays. *)
Fixpoint bps_insert (k : Z) (w : watchpoint_t) (l : list (Z * watchpoint_t)) : list (Z * watchpoint_t) :=
  match l with
  | [] => [(k, w)]
  | (k', w') :: l' =>
    if k =? k' then l else if k <? k' then (k, w) :: l else (k', w') :: bps_insert k w l'
  end.

Definition bps_find (k : Z) (l : list (Z * watchpoint_t)) : option watchpoint_t :=
  snd <$> find (fun e => e.1 =? k) l.

Definition bps_erase (k : Z) (l : list (Z * watchpoint_t)) : list (Z * watchpoint_t) :=
  filter (fun e => e.1 <> k) l.

(** [os->current_process[cpunum]] is the operator of [std::map]: it reads 0 for a processor that
    has no entry, and leaves an entry behind. *)
Definition current_process (m : osamod_t) (cpunum : Z) : Z := default 0 (Os.current_process (os m) !! cpunum).

Definition touch_process (cpunum : Z) (m : osamod_t) : osamod_t :=
  match Os.current_process (os m) !! cpunum with
  | Some _ => m
  | None => with_os (Os.with_current (<[cpunum := 0]> (Os.current_process (os m))) (os m)) m
  end.

(** A memory access that hit a breakpoint. *)
Definition breakpoint_callback (who : nat) (cpunum a : Z) (s : state) : state * list effect :=
  if negb (default 0 (suspend_protect s !! cpunum) =? 0) then (s, [])
  else
    let none := match bps s with [] => [Break NoWatchpoint] | _ => [] end in
    match find (fun e => (addr e.2 <=? a) && (a <=? addr e.2 + len e.2)) (bps s), mods s !! who with
    | Some e, Some m =>
        (with_mods (alter (touch_process cpunum) who (mods s)) s,
         none ++ if current_process m cpunum =? wpid e.2 then [Break IsolationViolation] else [])
    | _, _ => (s, none)
    end.

Definition timing_operate (penalty : Z) (c : common_data_t) : Z :=
  if negb (fast_caches c =? 0) && (0 <? penalty) then 1 else penalty.

(** ** [magic_callback] *)

Section callback.
(** [new struct pid_info()] in a module. *)
Context (alloc : gmap Z Os.pid_info -> Z).

Definition os_of (e : osamod_t -> Os.event) (m : osamod_t) : option osamod_t :=
  o ← Os.os_event (e m) (os m); Some (with_os o m).

Definition ctxtsw_at (cpunum : Z) (m : osamod_t) : Os.ctxtsw_hist := default (Os.CtxtswHist 0 0 0) (ctxtsws m !! cpunum).

(** [OSA_SCHED] visits each module once. *)
Definition sched_effects (osamod : osamod_t) (l : list osamod_t) : list effect :=
  concat (imap (fun i m =>
    if sameMachine osamod m then
      (if bool_decide (type m = COMMON) && break_on_sched (common m) then [Break OnSchedule] else [])
      ++ (if bool_decide (type m = SYNCCHAR) then [Call i "common_syncchar_interface" "osa_sched"] else [])
    else []) l).

(** The modules with a log of their own. *)
Definition logs (m : osamod_t) : bool := has_stream m && bool_decide (type m <> COMMON).

Definition disk (d : bool) (c : common_data_t) : list effect := (fun o => SetDelay o d) <$> ide c.

(** [who] is the common module of the machine, [cpunum] and [now] the processor and its
    cycle count. *)
Definition magic_callback (who : nat) (cpunum now : Z) (codeVal : instr) (s : state) : option (state * list effect) :=
  osamod ← mods s !! who;
  let c := common osamod in
  let l := mods s in
  let quiet eff := Some (s, eff) in
  let visible f := l' ← DISPATCH_OS_VISIBILITY osamod f l; Some (with_mods l' s, []) in
  let log_thread start :=
    let sel m := logs m && sameMachine osamod m in
    Some (with_mods ((fun m => if sel m then touch_process cpunum m else m) <$> l) s,
          each sel (fun i m => PrintThread i (current_process m cpunum) start) l) in
  match codeVal with
  | OSA_PRINT_STR_VAL all_flag text =>
    quiet (Console text :: each (fun m => logs m && (all_flag || sameMachine osamod m)) (fun i _ => Print i text) l)
  | OSA_CLEAR_STAT all_flag => quiet (DISPATCH_ALL osamod "clear_stat" all_flag l)
  | OSA_OUTPUT_STAT all_flag => quiet (DISPATCH_ALL osamod "output_stat" all_flag l)
  | OSA_KILLSIM => quiet (set_idle_callback c)
  | OSA_BREAKSIM => quiet [Break Requested]
  | OSA_BENCHMARK a limit =>
    let '(eff, b) := match benchmarks c with [] => ([], []) | b :: bs => ([WriteString a b limit], bs) end in
    let fast := if negb (fast_caches c =? 2) then 0 else fast_caches c in
    Some (set_common who (set_bench fast b c) s,
          eff ++ [SetSwitchTime] ++ (if 0 <? disk_delay osamod then disk true c else [])
          ++ DISPATCH_SYNCCHAR osamod "osa_after_boot" l)
  | OSA_NETWORK a => quiet [Write4 a (osa_network_query c)]
  | OSA_GRUB a => quiet (if negb (grub_option c =? -1) then [Write4 a (grub_option c)] else [])
  | OSA_PRINT_NUM_CHAR text =>
    quiet (Console text :: each (fun m => sameMachine osamod m && logs m) (fun i _ => Print i text) l)
  | OSA_PRINT_STACK_TRACE => quiet [StackTrace]
  | OSA_LOG_THREAD_START => log_thread true
  | OSA_LOG_THREAD_STOP => log_thread false
  | OSA_PRELOAD a => quiet [Write4 a (preload c)]
  | OSA_TOGGLE_DISK_DELAY toggle =>
    quiet (if toggle =? 0 then disk false c else if 0 <? disk_delay osamod then disk true c else [])
  | OSA_SCHED mem p len ptr =>
    l' ← DISPATCH_OS_VISIBILITY osamod (os_of (fun _ => Os.Sched mem cpunum p len ptr)) l;
    Some (with_mods l' s, sched_effects osamod l)
  | OSA_FORK p k =>
    l' ← DISPATCH_OS_VISIBILITY osamod (os_of (fun m => Os.Fork (alloc (Os.heap (os m))) p k)) l;
    Some (with_mods l' s, DISPATCH_OSATXM osamod "osa_fork" l ++ DISPATCH_SYNCCHAR osamod "osa_fork" l)
  | OSA_TIMER => visible (os_of (fun _ => Os.Timer))
  | OSA_KSTAT a => visible (os_of (fun _ => Os.Kstat a))
  | OSA_KSTAT_2_4 ncpus nr a => visible (fun m => Some (with_os (Os.os_kstat_2_4 ncpus nr a (os m)) m))
  | OSA_TASK_STATE_VAL p st => visible (os_of (fun _ => Os.TaskState p st))
  | OSA_CUR_SYSCALL_VAL p sc => visible (os_of (fun _ => Os.CurSyscall p sc))
  | OSA_ENTER_SCHED =>
    visible (fun m => Some (with_ctxtsws (<[cpunum := Os.os_enter_sched now (ctxtsw_at cpunum m)]> (ctxtsws m)) m))
  | OSA_EXIT_SWITCH_TO =>
    visible (fun m => Some (with_ctxtsws (<[cpunum := Os.os_exit_switch_to now (ctxtsw_at cpunum m)]> (ctxtsws m)) m))
  | OSA_KERNEL_BOOT => quiet (EnablePerturb :: DISPATCH_OSATXM osamod "osa_kernel_boot" l)
  | OSA_REGISTER_SPINLOCK => quiet (DISPATCH_SYNCCHAR osamod "osa_register_spinlock" l)
  | OSA_EXIT_CODE p =>
    l' ← DISPATCH_OS_VISIBILITY osamod (os_of (fun _ => Os.Exit p)) l;
    Some (with_mods l' s, DISPATCH_OSATXM osamod "osa_exit_code" l' ++ DISPATCH_SYNCCHAR osamod "osa_exit" l')
  | OSATXM_ONLY f => quiet (DISPATCH_OSATXM osamod f l)
  | OSA_GET_RANDOM r => quiet [WriteEBX r]
  | OSA_DEBUG_PRINT text => quiet [Console text]
  | OSA_PROTECT_ADDR a length b =>
    Some (State (alter (touch_process cpunum) who l)
            (bps_insert a (Watchpoint a length (current_process osamod cpunum) b) (bps s)) (suspend_protect s), [])
  | OSA_UNPROTECT_ADDR a =>
    match bps_find a (bps s) with
    | Some w => Some (State l (bps_erase a (bps s)) (suspend_protect s), [DeleteBreakpoint (bp w)])
    | None => quiet [NotFound a]
    end
  | OSA_PROTECT_SUSPEND => Some (State l (bps s) (<[cpunum := 1]> (suspend_protect s)), [])
  | OSA_PROTECT_RESUME => Some (State l (bps s) (<[cpunum := 0]> (suspend_protect s)), [])
  | OSA_LOG_SIGSEGV => Some (with_mods (alter (touch_process cpunum) who l) s, [Break Sigsegv])
  | SYNCCHAR_CLEAR_MAP => quiet (DISPATCH_SYNCCHAR osamod "syncchar_clear_map" l)
  | SYNCCHAR_LOAD_MAP => quiet (DISPATCH_SYNCCHAR osamod "syncchar_load_map" l)
  | OSA_RANDOM_SHUTDOWN_BEGIN limit_low limit_hi lrand48 =>
    let limit := s64 (Z.lor limit_low (Z.shiftl limit_hi 32)) in
    if limit =? -1 then Some (set_common who (set_kill (kill_imminent c) (kill_safe_level c) now c) s, [])
    else if limit =? -2 then quiet [Elapsed (s64 (now - kill_begin_time c))]
    else if limit =? 0 then None
    else quiet [PostKill who (u64 (Z.rem lrand48 limit))]
  | OSA_RANDOM_SHUTDOWN_UNSAFE =>
    Some (set_common who (set_kill (kill_imminent c) (s32 (kill_safe_level c + 1)) (kill_begin_time c) c) s, [])
  | OSA_RANDOM_SHUTDOWN_SAFE =>
    let c := set_kill (kill_imminent c) (s32 (kill_safe_level c - 1)) (kill_begin_time c) c in
    let '(c, eff) := if (kill_safe_level c =? 0) && kill_imminent c then osa_random_kill who c else (c, []) in
    Some (set_common who c s, eff)
  | OddCode => quiet []
  end.

(** ** Runs of a simulation: instructions of any machine, and timers of random shutdowns *)

Inductive step := Instr (who : nat) (cpunum now : Z) (i : instr) | KillTimer (who : nat).

Definition do_step (x : step) (s : state) : option (state * list effect) :=
  match x with
  | Instr who cpunum now i => magic_callback who cpunum now i s
  | KillTimer who =>
    m ← mods s !! who;
    let '(c, eff) := osa_random_kill who (common m) in
    Some (set_common who c s, eff)
  end.

(** The effects of each step. *)
Fixpoint run_steps (l : list step) (s : state) : option (state * list (list effect)) :=
  match l with
  | [] => Some (s, [])
  | x :: l =>
    '(s, eff) ← do_step x s;
    '(s, tr) ← run_steps l s;
    Some (s, eff :: tr)
  end.

(** *** The process tables *)

(** What an instruction means to the process table of its machine; the address of a new
    object plays no role in the specification. *)
Definition os_meaning (cpunum : Z) (i : instr) : option Os.event :=
  match i with
  | OSA_SCHED mem p len ptr => Some (Os.Sched mem cpunum p len ptr)
  | OSA_FORK p k => Some (Os.Fork 0 p k)
  | OSA_EXIT_CODE p => Some (Os.Exit p)
  | _ => None
  end.

(** The table of each machine, by its [system]. *)
Definition table_step (systems : list Z) (x : step) (A : Z -> Os.spec) (sys : Z) : Os.spec :=
  match x with
  | Instr who cpunum _ i =>
    match os_meaning cpunum i with
    | Some e => if bool_decide (systems !! who = Some sys) then Os.spec_event e (A sys) else A sys
    | None => A sys
    end
  | KillTimer _ => A sys
  end.

(** The kernel forks pids that do not exist and ends pids that do, a new spid fits; the
    module exists; a random shutdown has a non-zero limit; a processor whose current process
    is read is one of the machine, or has had a context switch. *)
Definition legal_step (systems : list Z) (A : Z -> Os.spec) (x : step) : Prop :=
  match x with
  | KillTimer who => is_Some (systems !! who)
  | Instr who cpunum _ i =>
    exists sys, systems !! who = Some sys /\
    match i with
    | OSA_FORK p _ => Os.sp_live (A sys) !! p = None /\ Os.sp_next (A sys) + 1 < 2 ^ 32 /\ - 2 ^ 31 <= p < 2 ^ 31
    | OSA_EXIT_CODE p => is_Some (Os.sp_live (A sys) !! p)
    | OSA_SCHED _ _ len _ => 0 <= len
    | OSA_RANDOM_SHUTDOWN_BEGIN low hi _ => s64 (Z.lor low (Z.shiftl hi 32)) <> 0
    | OSA_PROTECT_ADDR _ _ _ | OSA_LOG_THREAD_START | OSA_LOG_THREAD_STOP | OSA_LOG_SIGSEGV =>
        is_Some (Os.sp_running (A sys) !! cpunum)
    | _ => True
    end
  end.

Fixpoint legal_steps (systems : list Z) (A : Z -> Os.spec) (l : list step) : Prop :=
  match l with
  | [] => True
  | x :: l => legal_step systems A x /\ legal_steps systems (table_step systems x A) l
  end.

Fixpoint tables (systems : list Z) (A : Z -> Os.spec) (l : list step) : Z -> Os.spec :=
  match l with [] => A | x :: l => tables systems (table_step systems x A) l end.

Hypothesis alloc_ok : forall h, alloc h <> Os.NULL /\ h !! alloc h = None.

Definition good (systems : list Z) (A : Z -> Os.spec) (s : state) : Prop :=
  system <$> mods s = systems /\ Forall (fun m => Os.sim (os m) (A (system m))) (mods s).

(** A visit of the modules of one machine. *)
Lemma visit_good systems A A' osamod f s :
  good systems A s ->
  (forall m, m ∈ mods s -> system m = system osamod -> Os.sim (os m) (A (system m)) ->
     exists m', f m = Some m' /\ system m' = system m /\ Os.sim (os m') (A' (system m))) ->
  (forall sys, sys <> system osamod -> A' sys = A sys) ->
  exists l', DISPATCH_OS_VISIBILITY osamod f (mods s) = Some l' /\ good systems A' (with_mods l' s).
Proof using.
  intros [Hsys Hall] Hf Ho. unfold DISPATCH_OS_VISIBILITY, good. cbn [mods with_mods]. revert systems Hsys Hall Hf.
  induction (mods s) as [|m l IH]; intros systems Hsys Hall Hf; [exists []; by repeat split|].
  apply Forall_cons in Hall as [Hm Hall]. destruct (IH _ eq_refl Hall) as (l' & E1 & Es & E2); [intros; apply Hf; [by right|done..]|].
  assert (Hx : exists m', (if sameMachine osamod m then f m else Some m) = Some m' /\ system m' = system m /\ Os.sim (os m') (A' (system m))).
  { unfold sameMachine. destruct (Z.eqb_spec (system osamod) (system m)) as [E|E].
    - apply Hf; [by left|done|done].
    - exists m. split_and!; [done|done|]. by rewrite Ho. }
  destruct Hx as (m' & E3 & E4 & E5). exists (m' :: l'). cbn [mapM]. rewrite E3. cbn. rewrite E1. cbn. split; [done|].
  split; [by rewrite E4, Es|]. constructor; [by rewrite E4|done].
Qed.

Lemma quiet_good systems A s l' : good systems A s -> (fun m => (system m, os m)) <$> l' = (fun m => (system m, os m)) <$> mods s ->
  good systems A (with_mods l' s).
Proof using.
  unfold good. cbn [mods with_mods]. generalize (mods s). intros l [H1 H2] He. revert systems l' H1 H2 He.
  induction l as [|m l IH]; intros systems [|m' l'] H1 H2 He; try done. cbn in *. simplify_eq.
  apply Forall_cons in H2 as [Hm H2]. destruct (IH _ l' eq_refl H2 ltac:(done)) as [E1 E2].
  split; [cbn; congruence|]. constructor; [congruence|done].
Qed.

Lemma set_common_good systems A who c s : good systems A s -> good systems A (set_common who c s).
Proof using.
  intros H. apply (quiet_good _ _ _ _ H). clear. revert who.
  induction (mods s) as [|m l IH]; intros [|who]; cbn; [done..|by f_equal].
Qed.

Lemma same_good systems A s s' : good systems A s -> mods s' = mods s -> good systems A s'.
Proof using. unfold good. by intros ? ->. Qed.

(** Reading the current process of a processor that has one changes nothing. *)
Lemma touch_known cpunum m a : Os.sim (os m) a -> is_Some (Os.sp_running a !! cpunum) -> touch_process cpunum m = m.
Proof using. intros [_ _ _ Hr _] [p Hp]. unfold touch_process. by rewrite Hr, Hp. Qed.

Lemma touch_one systems A s who cpunum m : good systems A s -> mods s !! who = Some m ->
  is_Some (Os.sp_running (A (system m)) !! cpunum) -> alter (touch_process cpunum) who (mods s) = mods s.
Proof using.
  intros [_ Hall] Hm Hc. apply list_eq. intros i. rewrite list_lookup_alter. case_decide as E; [|done]. subst i.
  rewrite Hm. cbn. f_equal. eapply touch_known; [by eapply Forall_lookup in Hall|done].
Qed.

Lemma touch_machine systems A s cpunum m (sel : osamod_t -> bool) : good systems A s ->
  (forall m', sel m' = true -> system m' = system m) -> is_Some (Os.sp_running (A (system m)) !! cpunum) ->
  (fun m' => if sel m' then touch_process cpunum m' else m') <$> mods s = mods s.
Proof using.
  intros [_ Hall] Hsel Hc. rewrite <- (list_fmap_id (mods s)) at 2. apply list_fmap_ext. intros i m' Hm'. cbn.
  destruct (sel m') eqn:E; [|done]. rewrite <- (Hsel m' E) in Hc. eapply touch_known; [by eapply Forall_lookup in Hall|done].
Qed.

Lemma logs_machine m m' : logs m' && sameMachine m m' = true -> system m' = system m.
Proof using. intros [_ H%Z.eqb_eq]%andb_true_iff. done. Qed.

(** A report about processes is taken by every module of the machine. *)
Lemma report_good systems A osamod (e : osamod_t -> Os.event) ev s :
  good systems A s ->
  (forall m, system m = system osamod -> Os.sim (os m) (A (system osamod)) ->
     Os.legal (e m) (os m) /\ forall a, Os.spec_event (e m) a = Os.spec_event ev a) ->
  exists l', DISPATCH_OS_VISIBILITY osamod (os_of e) (mods s) = Some l'
    /\ good systems (fun sys => if bool_decide (sys = system osamod) then Os.spec_event ev (A sys) else A sys) (with_mods l' s).
Proof using.
  intros Hg He. eapply visit_good; [exact Hg| |].
  - intros m _ Hm Hs. rewrite Hm in Hs. destruct (He m Hm Hs) as [Hl Hev].
    destruct (Os.event_sim _ _ _ Hs Hl) as (o & E1 & E2). exists (with_os o m). unfold os_of. rewrite E1.
    split_and!; [done|done|]. cbn [os with_os]. rewrite Hm, bool_decide_true by done. by rewrite <- Hev.
  - intros sys Hn. by rewrite bool_decide_false.
Qed.

Lemma good_ext systems A A' s : (forall sys, A sys = A' sys) -> good systems A s -> good systems A' s.
Proof using.
  intros HA [H1 H2]. split; [done|]. eapply Forall_impl; [exact H2|]. cbn. intros m. by rewrite <- HA.
Qed.

(** Reports that do not change the specification. *)
Lemma neutral_good systems A osamod e s : good systems A s ->
  (forall m, Os.legal e m) -> (forall a, Os.spec_event e a = a) ->
  exists l', DISPATCH_OS_VISIBILITY osamod (os_of (fun _ => e)) (mods s) = Some l' /\ good systems A (with_mods l' s).
Proof using.
  intros Hg Hl He. destruct (report_good systems A osamod (fun _ => e) e s Hg) as (l' & E1 & E2); [by intros; split; auto|].
  exists l'. split; [done|]. eapply good_ext; [|exact E2]. intros sys. cbn. case_bool_decide; [by rewrite He|done].
Qed.

Lemma kstat_2_4_sim ncpus nr a o sp : Os.sim o sp -> Os.sim (Os.os_kstat_2_4 ncpus nr a o) sp.
Proof using.
  intros [H1 H2 H3 H4 H5]. destruct (Os.t_range o H1) as (_ & ? & ? & ?). split; try done.
  apply (Os.table_ok_frame o); try done. cbn. apply Forall_app. split; [done|]. apply Forall_replicate, u32_range.
Qed.

Lemma legal_module systems A s who cpunum now i : good systems A s -> legal_step systems A (Instr who cpunum now i) ->
  exists m, mods s !! who = Some m /\ systems !! who = Some (system m) /\ Os.sim (os m) (A (system m)).
Proof using.
  intros [<- H2] (sys & H3 & _). apply list_lookup_fmap_Some in H3 as (m & -> & Hm). exists m.
  rewrite list_lookup_fmap, Hm. split_and!; [done|done|]. by eapply Forall_lookup in H2.
Qed.

Lemma magic_callback_ok systems A s who cpunum now i :
  good systems A s -> legal_step systems A (Instr who cpunum now i) ->
  exists s' eff, magic_callback who cpunum now i s = Some (s', eff)
    /\ good systems (table_step systems (Instr who cpunum now i) A) s'.
Proof using alloc_ok.
  intros Hg Hl. destruct (legal_module _ _ _ _ _ _ _ Hg Hl) as (m & Hm & Hsys & Hsim). destruct Hl as (sys & Hsys' & Hl).
  rewrite Hsys in Hsys'. injection Hsys' as <-.
  assert (Hrep : forall (e : osamod_t -> Os.event) ev,
    (forall m', system m' = system m -> Os.sim (os m') (A (system m)) ->
       Os.legal (e m') (os m') /\ forall a, Os.spec_event (e m') a = Os.spec_event ev a) ->
    exists l', DISPATCH_OS_VISIBILITY m (os_of e) (mods s) = Some l'
      /\ good systems (fun sys => if bool_decide (systems !! who = Some sys) then Os.spec_event ev (A sys) else A sys) (with_mods l' s)).
  { intros e ev He. destruct (report_good systems A m e ev s Hg He) as (l' & E1 & E2). exists l'. split; [done|].
    eapply good_ext; [|exact E2]. intros sys. cbn. rewrite Hsys. repeat case_bool_decide; simplify_eq; done. }
  assert (Hneu : forall e, (forall o, Os.legal e o) -> (forall a, Os.spec_event e a = a) ->
    exists s' eff, (l' ← DISPATCH_OS_VISIBILITY m (os_of (fun _ => e)) (mods s); Some (with_mods l' s, [])) = Some (s', eff : list effect)
      /\ good systems A s').
  { intros e H1 H2. destruct (neutral_good systems A m e s Hg H1 H2) as (l' & -> & E). by eexists _, _. }
  unfold magic_callback. rewrite Hm. cbn [mbind option_bind].
  destruct i; cbn [table_step os_meaning]; try (by eexists _, _); try (by apply Hneu);
    try (by eexists _, _; split; [reflexivity|apply set_common_good]).
  - destruct (match benchmarks (common m) with [] => _ | _ => _ end) as [eff b].
    eexists _, _. split; [reflexivity|]. by apply set_common_good.
  - rewrite (touch_machine systems A s cpunum m _ Hg (logs_machine m) Hl). by eexists _, _.
  - rewrite (touch_machine systems A s cpunum m _ Hg (logs_machine m) Hl). by eexists _, _.
  - destruct (Hrep (fun _ => Os.Sched mem cpunum pid len0 ptr) (Os.Sched mem cpunum pid len0 ptr) ltac:(by split)) as (l' & -> & E).
    by eexists _, _.
  - destruct (Hrep (fun m => Os.Fork (alloc (Os.heap (os m))) pid kernel) (Os.Fork 0 pid kernel)) as (l' & -> & E); [|by eexists _, _].
    intros m' _ [_ L2 L3 _ _]. destruct (alloc_ok (Os.heap (os m'))). cbn. rewrite L2, L3. naive_solver.
  - destruct (visit_good systems A A m (fun m0 => Some (with_os (Os.os_kstat_2_4 ncpus nrcpus paddr (os m0)) m0)) s Hg)
      as (l' & -> & E); [|done|by eexists _, _].
    intros m' _ _ Hs. eexists. split_and!; [done|done|]. by apply kstat_2_4_sim.
  - destruct (visit_good systems A A m (fun m0 =>
      Some (with_ctxtsws (<[cpunum := Os.os_enter_sched now (ctxtsw_at cpunum m0)]> (ctxtsws m0)) m0)) s Hg)
      as (l' & -> & E); [|done|by eexists _, _].
    intros m' _ _ Hs. eexists. by split_and!.
  - destruct (visit_good systems A A m (fun m0 =>
      Some (with_ctxtsws (<[cpunum := Os.os_exit_switch_to now (ctxtsw_at cpunum m0)]> (ctxtsws m0)) m0)) s Hg)
      as (l' & -> & E); [|done|by eexists _, _].
    intros m' _ _ Hs. eexists. by split_and!.
  - destruct (Hrep (fun _ => Os.Exit pid) (Os.Exit pid)) as (l' & -> & E); [|by eexists _, _].
    intros m' _ [_ L2 _ _ _]. split; [|done]. cbn. by rewrite L2.
  - rewrite (touch_one systems A s who cpunum m Hg Hm Hl). by eexists _, _.
  - destruct (bps_find ebx (bps s)); by eexists _, _.
  - rewrite (touch_one systems A s who cpunum m Hg Hm Hl). by eexists _, _.
  - destruct (_ =? -1); [eexists _, _; split; [reflexivity|]; by apply set_common_good|].
    destruct (_ =? -2); [by eexists _, _|]. rewrite (proj2 (Z.eqb_neq _ _) Hl). by eexists _, _.
  - destruct (if _ && _ then _ else _) as [c' eff]. eexists _, _. split; [reflexivity|]. by apply set_common_good.
Qed.

Lemma do_step_ok systems A s x : good systems A s -> legal_step systems A x ->
  exists s' eff, do_step x s = Some (s', eff) /\ good systems (table_step systems x A) s'.
Proof using alloc_ok.
  destruct x as [who cpunum now i|who]; [apply magic_callback_ok|]. intros Hg Hl. cbn [do_step].
  destruct Hg as [<- Hs]. cbn [legal_step] in Hl. rewrite list_lookup_fmap in Hl. destruct (mods s !! who) as [m|]; [|by destruct Hl].
  cbn [mbind option_bind]. destruct (osa_random_kill who (common m)) as [c eff]. eexists _, _. split; [reflexivity|].
  by apply set_common_good.
Qed.

Lemma run_steps_ok systems l : forall A s, good systems A s -> legal_steps systems A l ->
  exists s' tr, run_steps l s = Some (s', tr) /\ good systems (tables systems A l) s'.
Proof using alloc_ok.
  induction l as [|x l IH]; intros A s Hg Hl; [by eexists _, _|]. destruct Hl as [Hx Hl].
  destruct (do_step_ok _ _ _ _ Hg Hx) as (s1 & eff & E1 & H1). destruct (IH _ _ H1 Hl) as (s2 & tr & E2 & H2).
  exists s2, (eff :: tr). cbn [run_steps]. rewrite E1. cbn. by rewrite E2.
Qed.

(** *** The random shutdown *)

(** The depth of unsafe regions of a machine, from the instructions alone. *)
Definition nest (who : nat) (x : step) : Z :=
  match x with
  | Instr w _ _ OSA_RANDOM_SHUTDOWN_UNSAFE => if bool_decide (w = who) then 1 else 0
  | Instr w _ _ OSA_RANDOM_SHUTDOWN_SAFE => if bool_decide (w = who) then -1 else 0
  | _ => 0
  end.

Definition nesting (who : nat) (l : list step) : Z := zsum (nest who) l.

Definition is_kill (who : nat) (e : effect) : bool :=
  match e with Break (RandomKill w) => bool_decide (w = who) | _ => false end.

(** The step stopped the simulation by a random shutdown. *)
Definition killed (who : nat) (eff : list effect) : bool := existsb (is_kill who) eff.

Definition kill_view (who : nat) (s : state) : option (bool * Z) :=
  m ← mods s !! who; Some (kill_imminent (common m), kill_safe_level (common m)).

Lemma killed_app who e1 e2 : killed who (e1 ++ e2) = killed who e1 || killed who e2.
Proof using. apply existsb_app. Qed.

Lemma each_quiet who sel f l : (forall i m, is_kill who (f i m) = false) -> killed who (each sel f l) = false.
Proof using.
  intros Hf. unfold each, killed. rewrite <- not_true_iff_false, existsb_exists. intros (e & He & Hk).
  apply in_concat in He as (l' & Hl & He). apply list_elem_of_In, elem_of_lookup_imap in Hl as (i & m & -> & _).
  destruct (sel m); [|done]. destruct He as [<- |[]]. congruence.
Qed.

Lemma sched_quiet who osamod l : killed who (sched_effects osamod l) = false.
Proof using.
  unfold sched_effects, killed. rewrite <- not_true_iff_false, existsb_exists. intros (e & He & Hk).
  apply in_concat in He as (l' & Hl & He). apply list_elem_of_In, elem_of_lookup_imap in Hl as (i & m & -> & _).
  destruct (sameMachine osamod m); [|done]. apply in_app_or in He as [He|He].
  - destruct (_ && _); [|done]. by destruct He as [<- |[]].
  - destruct (bool_decide _); [|done]. by destruct He as [<- |[]].
Qed.

Lemma disk_quiet who d c : killed who (disk d c) = false.
Proof using. unfold disk. by induction (ide c). Qed.

Lemma dispatch_quiet who osamod f a l :
  killed who (DISPATCH_ALL osamod f a l) = false /\ killed who (DISPATCH_SYNCCHAR osamod f l) = false
  /\ killed who (DISPATCH_OSATXM osamod f l) = false.
Proof using. split_and!; by apply each_quiet. Qed.

Lemma visit_view osamod f l l' who s s' : DISPATCH_OS_VISIBILITY osamod f l = Some l' ->
  (forall m m', f m = Some m' -> common m' = common m) -> mods s = l -> mods s' = l' -> kill_view who s' = kill_view who s.
Proof using.
  unfold kill_view. intros H Hf -> ->. revert l' who H. unfold DISPATCH_OS_VISIBILITY.
  induction l as [|m l IH]; intros l' who; cbn [mapM]; [by intros [= <-]|].
  destruct (if sameMachine osamod m then f m else Some m) as [m'|] eqn:Em; cbn; [|done].
  destruct (mapM _ l) as [l1|]; cbn; [|done]. intros [= <-]. destruct who as [|who]; cbn [lookup list_lookup]; [|by apply IH].
  assert (Hc : common m' = common m) by (destruct (sameMachine osamod m); [by apply Hf|congruence]). cbn. by rewrite Hc.
Qed.

Lemma os_of_common e m m' : os_of e m = Some m' -> common m' = common m.
Proof using. unfold os_of. destruct (Os.os_event _ _); cbn; [|done]. by intros [= <-]. Qed.

Lemma touch_common cpunum m : common (touch_process cpunum m) = common m.
Proof using. unfold touch_process. by destruct (Os.current_process (os m) !! cpunum). Qed.

Lemma touch_view who w cpunum s s' : mods s' = alter (touch_process cpunum) w (mods s) -> kill_view who s' = kill_view who s.
Proof using.
  intros E. unfold kill_view. rewrite E, list_lookup_alter. case_decide; [subst|done].
  destruct (mods s !! who) as [m|]; [|done]. cbn. by rewrite touch_common.
Qed.

Lemma touch_all_view who cpunum (sel : osamod_t -> bool) s s' :
  mods s' = (fun m => if sel m then touch_process cpunum m else m) <$> mods s -> kill_view who s' = kill_view who s.
Proof using.
  intros E. unfold kill_view. rewrite E, list_lookup_fmap. destruct (mods s !! who) as [m|]; [|done]. cbn.
  destruct (sel m); [by rewrite touch_common|done].
Qed.

Lemma set_common_view who w c m s : mods s !! w = Some m ->
  kill_view who (set_common w c s) = if bool_decide (w = who) then Some (kill_imminent c, kill_safe_level c) else kill_view who s.
Proof using.
  intros Hm. unfold kill_view. cbn [set_common with_mods mods]. case_bool_decide as E.
  - subst w. by rewrite list_lookup_alter_eq, Hm.
  - by rewrite list_lookup_alter_ne.
Qed.

(** No shutdown among these effects. *)
Ltac hush :=
  repeat first
    [ reflexivity | assumption
    | rewrite killed_app; apply orb_false_iff; split
    | match goal with |- killed ?w (?a :: ?l) = false => change (killed w (a :: l)) with (is_kill w a || killed w l); apply orb_false_iff; split end
    | apply each_quiet; intros; reflexivity | apply sched_quiet | apply disk_quiet
    | apply (dispatch_quiet _ _ _ true _)
    | match goal with |- killed _ (if ?b then _ else _) = false => destruct b end
    | unfold set_idle_callback, DISPATCH_ALL, DISPATCH_SYNCCHAR, DISPATCH_OSATXM ].

(** A visit of the process tables. *)
Ltac visit H l El :=
  match type of H with
  | mbind _ (DISPATCH_OS_VISIBILITY ?m ?f ?ms) = _ => destruct (DISPATCH_OS_VISIBILITY m f ms) as [l|] eqn:El; [|done]
  end; cbn [mbind option_bind] in H; injection H as <- <-;
  split; [eapply visit_view; [exact El| |reflexivity|reflexivity]; first [apply os_of_common|by intros ? ? [= <-]]|hush].

(** Every instruction but the two that open and close a region leaves the shutdown alone. *)
Lemma other_instr who w cpunum now i s s' eff :
  magic_callback w cpunum now i s = Some (s', eff) -> i <> OSA_RANDOM_SHUTDOWN_UNSAFE -> i <> OSA_RANDOM_SHUTDOWN_SAFE ->
  kill_view who s' = kill_view who s /\ killed who eff = false.
Proof using.
  intros H H1 H2. unfold magic_callback in H. destruct (mods s !! w) as [m|] eqn:Hm; [|done]. cbn [mbind option_bind] in H.
  destruct i; try done; try (injection H as <- <-; split; [first [done|by eapply touch_all_view|by eapply touch_view]|hush]).
  - destruct (match benchmarks (common m) with [] => _ | _ => _ end) as [ef b] eqn:Eb. injection H as <- <-. split.
    + rewrite (set_common_view who w _ m) by done. case_bool_decide as E; [|done]. subst w. unfold kill_view. by rewrite Hm.
    + assert (killed who ef = false) by (destruct (benchmarks (common m)); by injection Eb as <- <-). hush.
  - visit H l' El.
  - visit H l' El.
  - visit H l' El.
  - visit H l' El.
  - visit H l' El.
  - visit H l' El.
  - visit H l' El.
  - visit H l' El.
  - visit H l' El.
  - visit H l' El.
  - destruct (bps_find ebx (bps s)); by injection H as <- <-.
  - destruct (_ =? -1).
    { injection H as <- <-. split; [|done]. rewrite (set_common_view who w _ m) by done. case_bool_decide as E; [|done].
      subst w. unfold kill_view. by rewrite Hm. }
    destruct (_ =? -2); [by injection H as <- <-|]. destruct (_ =? 0); [done|]. by injection H as <- <-.
Qed.

Lemma zero_of_s32 x : - 2 ^ 31 <= x < 2 ^ 31 -> (s32 x =? 0) = (x =? 0).
Proof using. intros H. by rewrite s32_small. Qed.

(** What a step does to the shutdown. *)
Lemma kill_step who x s s' eff im lv : do_step x s = Some (s', eff) -> kill_view who s = Some (im, lv) ->
  0 <= lv + nest who x < 2 ^ 31 -> 0 <= lv < 2 ^ 31 ->
  exists im', kill_view who s' = Some (im', lv + nest who x)
    /\ (killed who eff = true -> lv + nest who x = 0)
    /\ (im = true -> im' = true /\ (lv + nest who x = 0 -> 0 < lv -> killed who eff = true))
    /\ (x = KillTimer who -> (lv = 0 /\ killed who eff = true) \/ (0 < lv /\ im' = true)).
Proof using.
  intros Hx Hv Hr Hl. assert (Hm : exists m, mods s !! who = Some m /\ im = kill_imminent (common m) /\ lv = kill_safe_level (common m)).
  { unfold kill_view in Hv. destruct (mods s !! who) as [m|]; [|done]. cbn in Hv. injection Hv as <- <-. eauto. }
  destruct Hm as (m & Hm & Him & Hlv).
  assert (Hquiet : nest who x = 0 -> x <> KillTimer who -> kill_view who s' = kill_view who s /\ killed who eff = false ->
    exists im', kill_view who s' = Some (im', lv + nest who x)
    /\ (killed who eff = true -> lv + nest who x = 0)
    /\ (im = true -> im' = true /\ (lv + nest who x = 0 -> 0 < lv -> killed who eff = true))
    /\ (x = KillTimer who -> (lv = 0 /\ killed who eff = true) \/ (0 < lv /\ im' = true))).
  { intros Hn Hk [E1 E2]. rewrite Hn, Z.add_0_r in *. exists im. rewrite E1, E2. split_and!; [done|done| |done]. intros; split; [done|lia]. }
  destruct x as [w cpunum now i|w]; cbn [do_step] in Hx.
  - assert (Hi : i = OSA_RANDOM_SHUTDOWN_UNSAFE \/ i = OSA_RANDOM_SHUTDOWN_SAFE
      \/ (i <> OSA_RANDOM_SHUTDOWN_UNSAFE /\ i <> OSA_RANDOM_SHUTDOWN_SAFE)) by (destruct i; auto).
    destruct Hi as [-> |[-> |[H1 H2]]].
    + unfold magic_callback in Hx. destruct (mods s !! w) as [mw|] eqn:Hw; [|done]. cbn [mbind option_bind] in Hx.
      injection Hx as <- <-. rewrite (set_common_view who w _ mw) in * by done. cbn [nest] in *.
      case_bool_decide as E; [subst w|by apply Hquiet]. simplify_eq. cbn [kill_imminent kill_safe_level set_kill].
      rewrite s32_small by lia. eexists. split_and!; [done|done| |done]. intros ->. split; [done|lia].
    + unfold magic_callback in Hx. destruct (mods s !! w) as [mw|] eqn:Hw; [|done]. cbn [mbind option_bind] in Hx.
      cbn [nest kill_imminent kill_safe_level set_kill] in *. case_bool_decide as E.
      * subst w. simplify_eq. unfold osa_random_kill in Hx. cbn [kill_safe_level set_kill] in Hx.
        rewrite zero_of_s32 in Hx by lia. clear Hquiet.
        replace (kill_safe_level (common mw) + -1) with (kill_safe_level (common mw) - 1) in * by lia.
        destruct (Z.eqb_spec (kill_safe_level (common mw) - 1) 0) as [E|E]; cbn [andb negb] in Hx;
          destruct (kill_imminent (common mw)); cbn [andb negb] in Hx; injection Hx as <- <-;
          rewrite (set_common_view who who _ mw), bool_decide_true by done; cbn [kill_imminent kill_safe_level set_kill];
          rewrite s32_small by lia; eexists; (split_and!; [done|try done|try done|done]).
        intros _. split; [done|]. intros _ _. cbn. by rewrite bool_decide_true.
      * apply Hquiet; [done|done|]. destruct (if _ && _ then _ else _) as [c' ef] eqn:Ec. injection Hx as <- <-.
        rewrite (set_common_view who w _ mw), bool_decide_false by done. split; [done|].
        destruct (_ && _); [|by injection Ec as <- <-]. unfold osa_random_kill in Ec.
        destruct (negb _); injection Ec as <- <-; [done|]. cbn. by rewrite bool_decide_false.
    + apply Hquiet; [by destruct i|done|by eapply other_instr].
  - destruct (mods s !! w) as [mw|] eqn:Hw; [|done]. cbn [mbind option_bind] in Hx. unfold osa_random_kill in Hx.
    destruct (decide (w = who)) as [-> |Hne].
    + simplify_eq. cbn [nest] in *. rewrite Z.add_0_r in *. clear Hquiet.
      destruct (Z.eqb_spec (kill_safe_level (common mw)) 0) as [E|E]; cbn [negb] in Hx; injection Hx as <- <-;
        rewrite (set_common_view who who _ mw), bool_decide_true by done; cbn [kill_imminent kill_safe_level set_kill];
        eexists; (split; [reflexivity|]); (split; [done|]); (split; [intros; split; [done|lia]|]); intros _.
      * left. split; [done|]. cbn. by rewrite bool_decide_true.
      * right. split; [lia|done].
    + apply Hquiet; [done|congruence|]. destruct (negb _); injection Hx as <- <-;
        rewrite (set_common_view who w _ mw), bool_decide_false by done; [done|]. split; [done|]. cbn. by rewrite bool_decide_false.
Qed.

(** The regions are well nested. *)
Definition nested (who : nat) (lv : Z) (l : list step) : Prop :=
  forall k, 0 <= lv + nesting who (take k l) < 2 ^ 31.

Lemma nested_cons who lv x l : nested who lv (x :: l) -> 0 <= lv < 2 ^ 31 /\ 0 <= lv + nest who x < 2 ^ 31 /\ nested who (lv + nest who x) l.
Proof using.
  intros H. split_and!; [generalize (H 0%nat); cbn; lia..|generalize (H 1%nat); cbn; destruct l; cbn; lia| |].
  all: try (generalize (H 1%nat); cbn; destruct l; cbn; lia).
  intros k. specialize (H (S k)). unfold nesting in *. cbn in H. lia.
Qed.

Lemma kill_run who l : forall s s' tr im lv, run_steps l s = Some (s', tr) -> kill_view who s = Some (im, lv) -> nested who lv l ->
  (forall n eff, tr !! n = Some eff -> killed who eff = true -> lv + nesting who (take (S n) l) = 0)
  /\ (im = true -> 0 < lv -> lv + nesting who l = 0 -> exists k eff, tr !! k = Some eff /\ killed who eff = true)
  /\ (forall n, l !! n = Some (KillTimer who) -> lv + nesting who l = 0 ->
        exists k eff, (n <= k)%nat /\ tr !! k = Some eff /\ killed who eff = true).
Proof using.
  induction l as [|x l IH]; intros s s' tr im lv Hrun Hv Hn; cbn [run_steps] in Hrun.
  - injection Hrun as <- <-. unfold nesting. cbn. split_and!; [done|lia|done].
  - destruct (do_step x s) as [[s1 eff]|] eqn:Ex; [|done]. cbn [mbind option_bind] in Hrun.
    destruct (run_steps l s1) as [[s2 tr1]|] eqn:Er; [|done]. cbn [mbind option_bind] in Hrun. injection Hrun as <- <-.
    apply nested_cons in Hn as (Hl & Hx & Hn). destruct (kill_step _ _ _ _ _ _ _ Ex Hv Hx Hl) as (im' & Hv' & K1 & K2 & K3).
    destruct (IH _ _ _ _ _ Er Hv' Hn) as (I1 & I2 & I3). unfold nesting in *. cbn [zsum]. split_and!.
    + intros [|n] ef Hn' Hk; rewrite firstn_cons; cbn [zsum].
      * injection Hn' as <-. specialize (K1 Hk). rewrite take_0. cbn. lia.
      * specialize (I1 _ _ Hn' Hk). lia.
    + intros Him H0 Hz. destruct (K2 Him) as [-> K4]. destruct (decide (lv + nest who x = 0)) as [E|E].
      * exists 0%nat, eff. split; [done|auto].
      * destruct (I2 eq_refl ltac:(lia) ltac:(lia)) as (k & ef & E1 & E2). exists (S k), ef. done.
    + intros [|n] Hn' Hz; cbn in Hn'.
      * injection Hn' as ->. destruct (K3 eq_refl) as [[_ Hk]|[H0 ->]]; [exists 0%nat, eff; auto|]. cbn [nest] in *.
        destruct (I2 eq_refl ltac:(lia) ltac:(lia)) as (k & ef & E1 & E2). exists (S k), ef. split; [lia|done].
      * destruct (I3 n Hn' ltac:(lia)) as (k & ef & E1 & E2 & E3). exists (S k), ef. split; [lia|done].
Qed.

End callback.

(** ** The theorems *)

(** A simulation at its start: every module has an empty process table. *)
Definition fresh_module (ncpus : Z -> nat) (m : osamod_t) : Prop :=
  exists p0 st, p0 <> Os.NULL /\ os m = Os.init_procs (ncpus (system m)) p0 st.

Definition first_tables (ncpus : Z -> nat) (sys : Z) : Os.spec := Os.spec_init (ncpus sys).

Lemma fresh_good ncpus s : Forall (fresh_module ncpus) (mods s) -> good (system <$> mods s) (first_tables ncpus) s.
Proof.
  intros H. split; [done|]. eapply Forall_impl; [exact H|]. intros m (p0 & st & Hp & ->). by apply Os.init_sim.
Qed.


(** A random shutdown never hits an unsafe region and is never lost: as long as the
    guest nests its regions properly, the simulation of a machine is stopped by a random
    shutdown only by a step after which no region is open; and once no region is open, every
    shutdown that fell due has stopped the simulation, at the step it fell due or later. *)
Theorem random_shutdown_safe alloc ncpus s l who
  (alloc_ok : forall h, alloc h <> Os.NULL /\ h !! alloc h = None)
  (fresh : Forall (fresh_module ncpus) (mods s))
  (legal : legal_steps (system <$> mods s) (first_tables ncpus) l)
  (start : kill_view who s = Some (false, 0)) (well_nested : nested who 0 l) :
  exists s' tr, run_steps alloc l s = Some (s', tr)
    /\ (forall n eff, tr !! n = Some eff -> killed who eff = true -> nesting who (take (S n) l) = 0)
    /\ (forall n, l !! n = Some (KillTimer who) -> nesting who l = 0 ->
          exists k eff, (n <= k)%nat /\ tr !! k = Some eff /\ killed who eff = true).
Proof.
  destruct (run_steps_ok alloc alloc_ok _ l _ s (fresh_good _ _ fresh) legal) as (s' & tr & Hr & _).
  exists s', tr. destruct (kill_run alloc who l s s' tr false 0 Hr start well_nested) as (H1 & _ & H2).
  split_and!; [done|intros; by eapply H1|intros; by eapply H2].
Qed.

(** ** Examples: a machine with two modules beside one with a single module *)

Definition no_common : common_data_t := CommonData [] (-1) 0 0 false 0 [] false 0 0.

Definition demo_module (t : osamod_type) (sys p0 : Z) : osamod_t :=
  Osamod t sys true 0 ∅ (Os.init_procs 2 p0 (0, 0)) no_common.

Definition demo_state : state :=
  State [demo_module COMMON 1 10; demo_module SYNCCHAR 1 20; demo_module COMMON 2 30] [] ∅.

Definition next_object (h : gmap Z Os.pid_info) : Z := 1 + map_fold (fun a _ m => Z.max a m) 0 h.

Lemma next_object_ok h : next_object h <> Os.NULL /\ h !! next_object h = None.
Proof.
  assert (H : 0 <= map_fold (fun a _ m => Z.max a m) 0 h
    /\ forall a n, h !! a = Some n -> a <= map_fold (fun a _ m => Z.max a m) 0 h).
  { apply (map_fold_weak_ind (fun r h => 0 <= r /\ forall a n, h !! a = Some n -> a <= r)); [by split|].
    intros i x m r Hi [H1 H2]. split; [lia|]. intros a n Ha. destruct (decide (a = i)) as [-> |Hne]; [lia|].
    rewrite lookup_insert_ne in Ha by done. specialize (H2 _ _ Ha). lia. }
  destruct H as [H1 H2]. unfold next_object, Os.NULL. split; [lia|].
  destruct (h !! (1 + _)) as [n|] eqn:E1; [|done]. specialize (H2 _ _ E1). lia.
Qed.

Definition demo_steps : list step :=
  [Instr 0 0 5 (OSA_FORK 7 false); Instr 2 1 6 (OSA_FORK 7 true); Instr 0 1 7 (OSA_SCHED (fun _ => 97) 7 4 64);
   Instr 0 1 8 OSA_RANDOM_SHUTDOWN_UNSAFE; KillTimer 0; Instr 2 0 9 (OSA_EXIT_CODE 7); Instr 0 1 10 OSA_RANDOM_SHUTDOWN_SAFE].

Lemma demo_fresh : Forall (fresh_module (fun _ => 2%nat)) (mods demo_state).
Proof. repeat constructor; (eexists _, _; split; [|reflexivity]; done). Qed.

Lemma demo_legal : legal_steps (system <$> mods demo_state) (first_tables (fun _ => 2%nat)) demo_steps.
Proof.
  cbn [legal_steps demo_steps]. split_and!; try done.
  all: try (eexists; split; [reflexivity|]; vm_compute; try done; split_and!; done || (intros; discriminate)).
  - vm_compute. eauto.
  - eexists. split; [reflexivity|]. vm_compute. eauto.
Qed.


Lemma demo_nested : nested 0 0 demo_steps.
Proof. intros k. do 8 (destruct k as [|k]; [vm_compute; split; [discriminate|reflexivity]|]). vm_compute. split; [discriminate|reflexivity]. Qed.

Lemma random_shutdown_safe_witness : exists s' tr, run_steps next_object demo_steps demo_state = Some (s', tr)
  /\ exists k eff, (4 <= k)%nat /\ tr !! k = Some eff /\ killed 0 eff = true.
Proof.
  destruct (random_shutdown_safe next_object (fun _ => 2%nat) demo_state demo_steps 0 next_object_ok demo_fresh demo_legal
    ltac:(reflexivity) demo_nested) as (s' & tr & H1 & _ & H2).
  exists s', tr. split; [exact H1|]. apply (H2 4%nat); vm_compute; reflexivity.
Defined.

(** The exit of a pid that no fork announced follows a null pointer, and a random shutdown
    with limit 0 divides by it. *)
Lemma unknown_exit_crashes : magic_callback next_object 0 0 1 (OSA_EXIT_CODE 7) demo_state = None.
Proof. vm_compute. reflexivity. Qed.

Lemma zero_limit_crashes lrand : magic_callback next_object 0 0 1 (OSA_RANDOM_SHUTDOWN_BEGIN 0 0 lrand) demo_state = None.
Proof. reflexivity. Qed.

(** A close without an open leaves the level at -1, which counts as unsafe: no shutdown
    happens until an unbalanced open. *)
Lemma unmatched_safe_disables_kill : exists s' tr,
  run_steps next_object [Instr 0 0 1 OSA_RANDOM_SHUTDOWN_SAFE; KillTimer 0] demo_state = Some (s', tr) /\ tr = [[]; []].
Proof. eexists _, _. split; vm_compute; reflexivity. Qed.

End Magic.
