(* ===== verification/Staller.v ===== *)
(** * The memory staller

    Model of [trans-staller-plus/staller.cc]: the timing model at the end of the cache
    hierarchy.  [st_operate] counts the bytes that cross the front bus, penalises
    accesses while the bus is over its bandwidth limit, and returns the stall of an
    access, randomly perturbed.  The penalty is a global variable of the module that
    all stallers share.  The simulator (cycle counts, the attribute [fast_caches]) and
    [random] are parameters of the calls. *)

From S2P Require Import Prelude.

Module Staller.

Definition STALL_CHECK_INTERVAL : Z := 10000.
Definition FB_BW_bc : Z := 16.
Definition FB_BUSY_PENALTY_FACTOR : Z := 10.
Definition STALLER_STAT_INTERVAL : Z := 10000.
Definition BW_STAT_SIZE : Z := 100.

Record stconfig := mkConfig {
  stall_time : Z;
  perturb_range : Z;
  stress_test : Z;
  stress_range : Z;
  frontbus_bandwidth_limit_bpc : Z;
  frontbus_busy_penalty_factor : Z;
  frontbus_check_interval : Z;
  frontbus_stat_size : Z;
  frontbus_stat_interval : Z
}.

(** A bandwidth sample: -1 when no cycle has passed, else bytes and cycles, whose
    quotient the code stores as a [double]. *)
Inductive sample := NoSample | Bandwidth (bytes delta : Z).

Record simple_staller_t := mkStaller {
  past_bios : Z;
  memops_counter : Z;
  staller_previous_cycle : Z;
  penaltycounter : Z;
  memops_probe_counter : Z;
  memops_tx_probe_counter : Z;
  frontbus_previous_probe_cycle : Z;
  frontbus_previous_tx_probe_cycle : Z;
  config : stconfig
}.

(** The globals of the module. *)
Record globals := mkGlobals {
  booted : bool;
  st_initialized : bool;
  current_penalty : Z;
  max_penalty : Z
}.

Definition no_globals : globals := mkGlobals false false 0 0.

(** The memory is zeroed and the constructors do not run. *)
Definition st_new_instance : simple_staller_t :=
  mkStaller 0 0 0 0 0 0 0 0
    (mkConfig 0 4 0 0 FB_BW_bc FB_BUSY_PENALTY_FACTOR STALL_CHECK_INTERVAL BW_STAT_SIZE STALLER_STAT_INTERVAL).

Record generic_transaction_t := mkOp { may_stall : bool; op_size : Z; user_ptr : Z; reissue : Z; block_STC : Z }.

(** ** The steps of [st_operate] *)

(** The counters of the bandwidth probes. *)
Definition count_probe (op : generic_transaction_t) (st : simple_staller_t) : simple_staller_t :=
  if may_stall op then
    mkStaller (past_bios st) (memops_counter st) (staller_previous_cycle st) (penaltycounter st)
      (s32 (memops_probe_counter st + op_size op))
      (if Z.land (user_ptr op) 0x7fffffff =? 0 then memops_tx_probe_counter st
       else s32 (memops_tx_probe_counter st + op_size op))
      (frontbus_previous_probe_cycle st) (frontbus_previous_tx_probe_cycle st) (config st)
  else st.

(** The bandwidth limiter: the factor, and the new state. *)
Definition limiter (fast_caches : bool) (cycle : Z) (op : generic_transaction_t) (g : globals) (st : simple_staller_t)
    : Z * globals * simple_staller_t :=
  let cf := config st in
  let penalty := if current_penalty g =? 0 then frontbus_busy_penalty_factor cf else current_penalty g in
  let g := mkGlobals (booted g) (st_initialized g) penalty (max_penalty g) in
  let set counter previous events := mkStaller (past_bios st) counter previous events
        (memops_probe_counter st) (memops_tx_probe_counter st)
        (frontbus_previous_probe_cycle st) (frontbus_previous_tx_probe_cycle st) cf in
  if negb (frontbus_bandwidth_limit_bpc cf =? 0) && negb fast_caches then
    let counter := s32 (memops_counter st + op_size op) in
    let diff := s64 (cycle - staller_previous_cycle st) in
    if frontbus_check_interval cf <? diff then
      if s64 (diff * frontbus_bandwidth_limit_bpc cf) <=? s32 (counter * 8) then
        let penalty' := s32 (penalty + 1) in
        (penalty, mkGlobals (booted g) (st_initialized g) penalty' (Z.max (max_penalty g) penalty'),
         set counter (staller_previous_cycle st) (s32 (penaltycounter st + 1)))
      else (1, mkGlobals (booted g) (st_initialized g) (frontbus_busy_penalty_factor cf) (max_penalty g),
            set 0 cycle (penaltycounter st))
    else (1, g, set counter (staller_previous_cycle st) (penaltycounter st))
  else (1, g, st).

(** Stress mode: [r1], [r2] are the numbers [random] returns. *)
Definition stressed (cf : stconfig) (r1 r2 stall : Z) : Z :=
  let r := s32 (stress_range cf) in
  let s := s32 (Z.rem r1 (r + 1)) in
  if stall_time cf <? r then s
  else s32 (stall + s32 (s * (if Z.odd r2 then -1 else 1))).

(** The stall of an access before the penalty; [rnd] gives the numbers [random]
    returns, in order. *)
Definition stall_of (rnd : nat -> Z) (st : simple_staller_t) : Z :=
  let cf := config st in
  let stress := negb (past_bios st =? 0) && negb (stress_test cf =? 0) && (0 <? stress_range cf) in
  let stall := if stress then stressed cf (rnd 0%nat) (rnd 1%nat) (stall_time cf) else stall_time cf in
  let next := if negb stress then 0%nat else if stall_time cf <? s32 (stress_range cf) then 1%nat else 2%nat in
  if negb (past_bios st =? 0) && (0 <? perturb_range cf) then s32 (stall + Z.rem (rnd next) (perturb_range cf + 1))
  else stall.

(** The callback: the new globals and staller, the transaction with its reissue and
    caching flags set, the stall, and whether the statistics tick is posted. *)
Definition st_operate (fast_caches : bool) (cycle : Z) (rnd : nat -> Z) (op : generic_transaction_t)
    (g : globals) (st : simple_staller_t) : globals * simple_staller_t * generic_transaction_t * Z * bool :=
  let post := negb (st_initialized g) in
  let g := mkGlobals (booted g || negb fast_caches) true (current_penalty g) (max_penalty g) in
  let st := count_probe op st in
  let '(factor, g, st) := limiter fast_caches cycle op g st in
  (g, st, mkOp (may_stall op) (op_size op) (user_ptr op) 0 1, if may_stall op then s32 (factor * stall_of rnd st) else 0, post).

(** ** The bandwidth probes *)

Definition get_frontbus_bandwidth_probe (cycle : Z) (st : simple_staller_t) : simple_staller_t * sample :=
  if cycle =? frontbus_previous_probe_cycle st then (st, NoSample)
  else (mkStaller (past_bios st) (memops_counter st) (staller_previous_cycle st) (penaltycounter st)
          0 (memops_tx_probe_counter st) cycle (frontbus_previous_tx_probe_cycle st) (config st),
        Bandwidth (memops_probe_counter st) (s64 (cycle - frontbus_previous_probe_cycle st))).

Definition get_frontbus_bandwidth_tx_probe (cycle : Z) (st : simple_staller_t) : simple_staller_t * sample :=
  if cycle =? frontbus_previous_tx_probe_cycle st then (st, NoSample)
  else (mkStaller (past_bios st) (memops_counter st) (staller_previous_cycle st) (penaltycounter st)
          (memops_probe_counter st) 0 (frontbus_previous_probe_cycle st) cycle (config st),
        Bandwidth (memops_tx_probe_counter st) (s64 (cycle - frontbus_previous_tx_probe_cycle st))).

(** ** The stall of an access *)

(** The most a configuration adds up to before the penalty. *)
Definition max_stall (cf : stconfig) : Z := stall_time cf + stress_range cf + perturb_range cf.

Definition config_ok (cf : stconfig) : Prop :=
  0 <= stall_time cf /\ 0 <= perturb_range cf /\ 0 <= stress_range cf /\ max_stall cf < 2 ^ 31 - 1 /\
  1 <= frontbus_busy_penalty_factor cf.

Lemma rem_bound x n : 0 <= x -> 0 < n -> 0 <= Z.rem x n < n.
Proof. intros Hx Hn. rewrite Z.rem_mod_nonneg by lia. by apply Z.mod_pos_bound. Qed.

Lemma stressed_bounds cf r1 r2 : config_ok cf -> 0 <= r1 ->
  0 <= stressed cf r1 r2 (stall_time cf) <= stall_time cf + stress_range cf.
Proof.
  unfold config_ok, max_stall. intros (H1 & H2 & H3 & H4 & _) Hr1. unfold stressed. rewrite (s32_small (stress_range cf)) by lia.
  pose proof (rem_bound r1 (stress_range cf + 1) Hr1 ltac:(lia)) as Hs. rewrite (s32_small (Z.rem _ _)) by lia.
  destruct (Z.ltb_spec (stall_time cf) (stress_range cf)); [lia|].
  set (x := Z.rem _ _) in *. destruct (Z.odd r2); [rewrite (s32_small (x * -1)) by lia|rewrite (s32_small (x * 1)) by lia];
    rewrite s32_small by lia; lia.
Qed.

Lemma stall_of_bounds rnd st : config_ok (config st) -> (forall i, 0 <= rnd i) ->
  0 <= stall_of rnd st <= max_stall (config st).
Proof.
  intros Hc Hr. unfold stall_of. set (cf := config st) in *. pose proof (stressed_bounds cf (rnd 0%nat) (rnd 1%nat) Hc (Hr 0%nat)) as Hs.
  destruct Hc as (H1 & H2 & H3 & H4 & _). unfold max_stall in *.
  set (next := if negb (negb (past_bios st =? 0) && _ && _) then _ else _). pose proof (Hr next) as Hn.
  assert (Hst : forall b : bool, 0 <= (if b then stressed cf (rnd 0%nat) (rnd 1%nat) (stall_time cf) else stall_time cf)
    <= stall_time cf + stress_range cf) by (intros []; lia).
  specialize (Hst (negb (past_bios st =? 0) && negb (stress_test cf =? 0) && (0 <? stress_range cf))).
  destruct (negb (past_bios st =? 0) && (0 <? perturb_range cf)); [|lia].
  pose proof (rem_bound (rnd next) (perturb_range cf + 1) Hn ltac:(lia)). rewrite s32_small by lia. lia.
Qed.

(** The penalty in force: the configured factor when none is. *)
Definition penalty_of (g : globals) (st : simple_staller_t) : Z :=
  if current_penalty g =? 0 then frontbus_busy_penalty_factor (config st) else current_penalty g.

Lemma limiter_factor fast cycle op g st f g' st' :
  limiter fast cycle op g st = (f, g', st') -> (f = 1 \/ f = penalty_of g st) /\ config st' = config st /\ past_bios st' = past_bios st.
Proof.
  unfold limiter, penalty_of. intros H. repeat case_match; simplify_eq/=; auto.
Qed.

Lemma limiter_penalty fast cycle op g st f g' st' :
  1 <= frontbus_busy_penalty_factor (config st) -> 0 <= current_penalty g < 2 ^ 31 - 1 ->
  frontbus_busy_penalty_factor (config st) < 2 ^ 31 - 1 ->
  limiter fast cycle op g st = (f, g', st') ->
  (f = 1 /\ (current_penalty g' = penalty_of g st \/ current_penalty g' = frontbus_busy_penalty_factor (config st))) \/
  (f = penalty_of g st /\ current_penalty g' = f + 1).
Proof.
  intros Hf Hp Hf2 H. unfold limiter, penalty_of in *. revert H.
  set (p := if current_penalty g =? 0 then _ else _). assert (Hpb : 1 <= p < 2 ^ 31 - 1) by (subst p; case_match; lia).
  intros H. repeat case_match; simplify_eq/=; auto. right. split; [done|]. rewrite s32_small; lia.
Qed.


Definition busy_op : generic_transaction_t := mkOp true 64 0 1 0.

Definition busy : simple_staller_t :=
  mkStaller 1 50000 0 0 0 0 0 0 (mkConfig 200 4 0 0 16 10 10000 100 10000).


(** While the bus is over its limit the penalty grows by one with every access. *)
Lemma penalty_escalates :
  let step '(g, st, fs) (c : Z) :=
    let '(f, g, st) := limiter false c busy_op g st in (g, st, fs ++ [f]) in
  (foldl step (no_globals, busy, []) [20000; 20001; 20002; 40000; 60000]).2 = [10; 11; 12; 1; 1].
Proof. vm_compute. reflexivity. Qed.

(** The penalty of a bus that has been busy for long enough makes the stall negative:
    the product of penalty and stall is an [int]. *)
Lemma stall_negative :
  let g := mkGlobals true true 10737419 10737419 in
  let '(g', _, _, stall, _) := st_operate false 20000 (fun _ => 0) busy_op g busy in
  stall = -2147483496 /\ current_penalty g' = 10737420.
Proof. vm_compute. split; reflexivity. Qed.

(** The test multiplies the bytes of the window by 8 as an [int]: from 2^28 bytes on, the
    product is negative and a bus far over its limit passes for idle. *)
Lemma limiter_overflow :
  let st := mkStaller 1 (2 ^ 28 - 64) 0 0 0 0 0 0 (mkConfig 200 4 0 0 16 10 10000 100 10000) in
  (limiter false 20000 (mkOp true 63 0 1 0) no_globals st).1.1 = 10 /\
  (limiter false 20000 busy_op no_globals st).1.1 = 1.
Proof. split; vm_compute; reflexivity. Qed.

(** ** The bytes the probes report *)

Inductive sop :=
| Operate (fast : bool) (cycle : Z) (rnd : nat -> Z) (op : generic_transaction_t)
| Probe (cycle : Z)
| TxProbe (cycle : Z).

Definition bytes_of (r : sample) : Z := match r with NoSample => 0 | Bandwidth b _ => b end.

(** The state after an event and what it reports: bytes, transactional bytes. *)
Definition sstep (o : sop) (s : globals * simple_staller_t) : globals * simple_staller_t * (Z * Z) :=
  match o with
  | Operate fast cycle rnd op => let '(g, st, _, _, _) := st_operate fast cycle rnd op s.1 s.2 in (g, st, (0, 0))
  | Probe cycle => let '(st, r) := get_frontbus_bandwidth_probe cycle s.2 in (s.1, st, (bytes_of r, 0))
  | TxProbe cycle => let '(st, r) := get_frontbus_bandwidth_tx_probe cycle s.2 in (s.1, st, (0, bytes_of r))
  end.

Fixpoint srun (ops : list sop) (s : globals * simple_staller_t) : globals * simple_staller_t * (Z * Z) :=
  match ops with
  | [] => (s, (0, 0))
  | o :: ops =>
      let '(s, (b, t)) := sstep o s in
      let '(s, (b', t')) := srun ops s in (s, (b + b', t + t'))
  end.

(** The bytes of the accesses that may stall, and of the transactional ones of them. *)
Definition stalling (o : sop) : Z :=
  match o with Operate _ _ _ op => if may_stall op then op_size op else 0 | _ => 0 end.

Definition stalling_tx (o : sop) : Z :=
  match o with
  | Operate _ _ _ op => if may_stall op && negb (Z.land (user_ptr op) 0x7fffffff =? 0) then op_size op else 0
  | _ => 0
  end.

Definition sizes_ok (o : sop) : Prop := match o with Operate _ _ _ op => 0 <= op_size op | _ => True end.

Lemma limiter_probes fast cycle op g st f g' st' :
  limiter fast cycle op g st = (f, g', st') ->
  memops_probe_counter st' = memops_probe_counter st /\ memops_tx_probe_counter st' = memops_tx_probe_counter st.
Proof. unfold limiter. intros H. repeat case_match; by simplify_eq/=. Qed.

Lemma sstep_bytes o s s' b t :
  sizes_ok o -> 0 <= memops_probe_counter s.2 -> 0 <= memops_tx_probe_counter s.2 ->
  memops_probe_counter s.2 + stalling o < 2 ^ 31 -> memops_tx_probe_counter s.2 + stalling_tx o < 2 ^ 31 ->
  sstep o s = (s', (b, t)) ->
  memops_probe_counter s.2 + stalling o = b + memops_probe_counter s'.2 /\
  memops_tx_probe_counter s.2 + stalling_tx o = t + memops_tx_probe_counter s'.2 /\ 0 <= b /\ 0 <= t /\
  0 <= memops_probe_counter s'.2 /\ 0 <= memops_tx_probe_counter s'.2.
Proof.
  intros Hz H1 H2 Hb Ht Hs. destruct s as [g st]. cbn [fst snd] in *. destruct o as [fast cycle rnd op|cycle|cycle]; simpl in *.
  - destruct (st_operate _ _ _ _ _ _) as [[[[g1 st1] op1] x] y] eqn:Eo. simplify_eq. unfold st_operate in Eo.
    destruct (limiter _ _ _ _ _) as [[f g2] st2] eqn:El. simplify_eq. apply limiter_probes in El as [Hp1 Hp2]. cbn [snd].
    rewrite Hp1, Hp2. unfold count_probe.
    destruct (may_stall op); simpl in *; [|lia].
    destruct (Z.land (user_ptr op) 2147483647 =? 0); simpl in *; rewrite ?s32_small by lia; lia.
  - unfold get_frontbus_bandwidth_probe in Hs. destruct (cycle =? _); simplify_eq/=; lia.
  - unfold get_frontbus_bandwidth_tx_probe in Hs. destruct (cycle =? _); simplify_eq/=; lia.
Qed.

Lemma srun_bytes ops : forall s s' b t,
  Forall sizes_ok ops -> 0 <= memops_probe_counter s.2 -> 0 <= memops_tx_probe_counter s.2 ->
  memops_probe_counter s.2 + zsum stalling ops < 2 ^ 31 -> memops_tx_probe_counter s.2 + zsum stalling_tx ops < 2 ^ 31 ->
  srun ops s = (s', (b, t)) ->
  memops_probe_counter s.2 + zsum stalling ops = b + memops_probe_counter s'.2 /\
  memops_tx_probe_counter s.2 + zsum stalling_tx ops = t + memops_tx_probe_counter s'.2.
Proof.
  induction ops as [|o ops IH]; intros s s' b t Hz H1 H2 Hb Ht Hs; simpl in *; [simplify_eq; lia|].
  apply Forall_cons in Hz as [Ho Hz].
  assert (Hnn : 0 <= zsum stalling ops /\ 0 <= zsum stalling_tx ops).
  { split; apply zsum_nonneg; intros x Hx; rewrite Forall_forall in Hz; specialize (Hz x Hx);
      destruct x; simpl in *; repeat case_match; lia. }
  destruct (sstep o s) as [s1 [b1 t1]] eqn:E1. destruct (srun ops s1) as [s2 [b2 t2]] eqn:E2. simplify_eq.
  destruct (sstep_bytes o s s1 b1 t1) as (Hb1 & Ht1 & Hb0 & Ht0 & Hc1 & Hc2); [done..|lia|lia|done|].
  destruct (IH s1 s' b2 t2) as [Hb2 Ht2]; [done|lia|lia|lia|lia|done|]. lia.
Qed.

(** The bandwidth probes account for every byte.  Over any sequence of accesses and
    probes (below 2 GiB, where the counters wrap), the bytes that the probes have
    reported and the bytes still counted are exactly the bytes of the accesses that
    may stall, and likewise for the transactional accesses: no access is counted
    twice or lost between two probes. *)
Theorem staller_accounting ops s' b t :
  Forall sizes_ok ops -> zsum stalling ops < 2 ^ 31 -> zsum stalling_tx ops < 2 ^ 31 ->
  srun ops (no_globals, st_new_instance) = (s', (b, t)) ->
  zsum stalling ops = b + memops_probe_counter s'.2 /\ zsum stalling_tx ops = t + memops_tx_probe_counter s'.2.
Proof. intros Hz Hb Ht Hs. by apply (srun_bytes ops (no_globals, st_new_instance)). Qed.

Lemma staller_accounting_witness :
  let ops := [Operate false 5 (fun _ => 0) busy_op; Probe 10; Operate true 12 (fun _ => 0) (mkOp true 4 1 1 0); Probe 10; TxProbe 20; Probe 30] in
  exists s', srun ops (no_globals, st_new_instance) = (s', (68, 4)) /\ zsum stalling ops = 68 + memops_probe_counter s'.2.
Proof.
  eexists. split; [vm_compute; reflexivity|].
  refine (proj1 (staller_accounting [Operate false 5 (fun _ => 0) busy_op; Probe 10; Operate true 12 (fun _ => 0) (mkOp true 4 1 1 0);
    Probe 10; TxProbe 20; Probe 30] _ 68 4 _ _ _ _)); [by repeat constructor|done|done|vm_compute; reflexivity].
Defined.

End Staller.
