(* ===== verification/Tl2.v ===== *)
(** * The TL2 software transactional memory: the code

    Model of [benchmarks/stamp/tl2-x86-0.9.6/tl2.c], the library that the STAMP benchmarks are
    linked with, in its default build: deferred writes (no [TL2_EAGER]), version clock GV4, a
    linear write set (no [TL2_OPTIM_HASHLOG]) and pointers of 32 bits.  Threads interleave; one
    step is one access to shared memory: the version clock, the table of versioned locks and
    the data.  The client is arbitrary: which call comes next is an action of the machine.

    The pointers to the entries of a write set, which the library stores in the lock words,
    are a parameter.  Assertions are compiled out ([ASSERT] in [util.h]); [asserts] collects
    those of this build.  Memory is sequentially consistent.  Transactions neither allocate nor free
    ([TxAlloc], [TxFree]), so the lists [allocPtr] and [freePtr] are empty and the calls of [tmalloc.c]
    at the end of a transaction do nothing; [txSterilize] is modelled at the end.  The back-off
    after an abort only spins, on a random number that nothing else uses. *)

From stdpp Require Import functions.
From S2P Require Import Prelude.

Module Tl2.

Definition LOCKBIT : Z := 1.
Definition TL2_INIT_WRSET_NUM_ENTRY : Z := 1024.
Definition TL2_INIT_RDSET_NUM_ENTRY : Z := 8192.
Definition TL2_INIT_LOCAL_NUM_ENTRY : Z := 1024.

Definition _TABSZ : Z := Z.shiftl 1 20.
Definition TABMSK : Z := _TABSZ - 1.
Definition COLOR : Z := 128.
Definition PSSHIFT : Z := 2.

(** The index in [LockTab] of the lock that covers an address. *)
Definition PSLOCK (a : Z) : Z := Z.land (Z.shiftr (u32 (a + COLOR)) PSSHIFT) TABMSK.

Definition FILTERHASH (a : Z) : Z := Z.lxor (Z.shiftr a 2) (Z.shiftr a 5).
Definition FILTERBITS (a : Z) : Z := s32 (Z.shiftl 1 (Z.land (FILTERHASH a) 0x1F)).

Inductive Modes := TIDLE | TTXN | TABORTING | TABORTED | TCOMMITTING.

(** ** Logs

    An entry of a write set.  The links, the owner and the ordinal are given by the place of
    the entry in the log of its thread. *)
Record AVPair := mkPair { Addr : Z; Valu : Z; LockFor : Z; rdv : Z; Held : bool }.

(** The entries before [put], the number of entries of the list, and the number of times
    it was extended. *)
Record Log (A : Type) := mkLog { entries : list A; num : Z; ovf : Z }.
Arguments mkLog {A}.
Arguments entries {A}.
Arguments num {A}.
Arguments ovf {A}.

Definition MakeList {A} (sz : Z) : Log A := mkLog [] sz 0.

(** [put == NULL] *)
Definition at_end {A} (k : Log A) : bool := Z.of_nat (length (entries k)) =? num k.

(** Taking the entry at [put], after [ExtendList] at the end. *)
Definition put_entry {A} (k : Log A) (e : A) : Log A :=
  if at_end k then mkLog (entries k ++ [e]) (num k + 1) (ovf k + 1)
  else mkLog (entries k ++ [e]) (num k) (ovf k).

(** [put = List; tail = NULL] *)
Definition rewind {A} (k : Log A) : Log A := mkLog [] (num k) (ovf k).

Definition RecordStore (k : Log AVPair) (addr valu lock : Z) : Log AVPair :=
  put_entry k (mkPair addr valu lock LOCKBIT false).

Definition SaveForRollBack (k : Log (Z * Z)) (addr valu : Z) : Log (Z * Z) := put_entry k (addr, valu).

(** Whether a log of loads has an entry for the lock. *)
Definition FindFirst (k : Log Z) (lock : Z) : bool := existsb (fun l => l =? lock) (entries k).

(** The walk from [tail] over [Prev]: the last entry for an address. *)
Fixpoint last_index (a : Z) (es : list AVPair) : option nat :=
  match es with
  | [] => None
  | e :: es =>
      match last_index a es with
      | Some i => Some (S i)
      | None => if Addr e =? a then Some O else None
      end
  end.

Definition set_valu (v : Z) (e : AVPair) : AVPair := mkPair (Addr e) v (LockFor e) (rdv e) (Held e).
Definition acquired (cv : Z) (e : AVPair) : AVPair := mkPair (Addr e) (Valu e) (LockFor e) cv true.
Definition unheld (e : AVPair) : AVPair := mkPair (Addr e) (Valu e) (LockFor e) (rdv e) false.

Definition WriteBackReverse (k : Log (Z * Z)) (m : Z -> Z) : Z -> Z :=
  foldr (fun e (m : Z -> Z) => <[e.1 := e.2]> m) m (entries k).

(** ** Threads *)

Record Thread := mkThread {
  Mode : Modes; HoldsLocks : bool; Retries : Z; Starts : Z; Aborts : Z;
  rv : Z; wv : Z; abv : Z; ROFlag : bool; IsRO : bool;
  rdSet : Log Z; wrSet : Log AVPair; BloomFilter : Z; LocalUndo : Log (Z * Z)
}.

Definition with_mode (m : Modes) (x : Thread) : Thread :=
  mkThread m (HoldsLocks x) (Retries x) (Starts x) (Aborts x) (rv x) (wv x) (abv x) (ROFlag x) (IsRO x)
    (rdSet x) (wrSet x) (BloomFilter x) (LocalUndo x).
Definition with_holds (b : bool) (x : Thread) : Thread :=
  mkThread (Mode x) b (Retries x) (Starts x) (Aborts x) (rv x) (wv x) (abv x) (ROFlag x) (IsRO x)
    (rdSet x) (wrSet x) (BloomFilter x) (LocalUndo x).
Definition with_tally (retries starts aborts : Z) (x : Thread) : Thread :=
  mkThread (Mode x) (HoldsLocks x) retries starts aborts (rv x) (wv x) (abv x) (ROFlag x) (IsRO x)
    (rdSet x) (wrSet x) (BloomFilter x) (LocalUndo x).
Definition with_rv (v : Z) (x : Thread) : Thread :=
  mkThread (Mode x) (HoldsLocks x) (Retries x) (Starts x) (Aborts x) v (wv x) (abv x) (ROFlag x) (IsRO x)
    (rdSet x) (wrSet x) (BloomFilter x) (LocalUndo x).
Definition with_wv (v : Z) (x : Thread) : Thread :=
  mkThread (Mode x) (HoldsLocks x) (Retries x) (Starts x) (Aborts x) (rv x) v (abv x) (ROFlag x) (IsRO x)
    (rdSet x) (wrSet x) (BloomFilter x) (LocalUndo x).
Definition with_abv (v : Z) (x : Thread) : Thread :=
  mkThread (Mode x) (HoldsLocks x) (Retries x) (Starts x) (Aborts x) (rv x) (wv x) v (ROFlag x) (IsRO x)
    (rdSet x) (wrSet x) (BloomFilter x) (LocalUndo x).
Definition with_ro (flag ro : bool) (x : Thread) : Thread :=
  mkThread (Mode x) (HoldsLocks x) (Retries x) (Starts x) (Aborts x) (rv x) (wv x) (abv x) flag ro
    (rdSet x) (wrSet x) (BloomFilter x) (LocalUndo x).
Definition with_rd (k : Log Z) (x : Thread) : Thread :=
  mkThread (Mode x) (HoldsLocks x) (Retries x) (Starts x) (Aborts x) (rv x) (wv x) (abv x) (ROFlag x) (IsRO x)
    k (wrSet x) (BloomFilter x) (LocalUndo x).
Definition with_wr (k : Log AVPair) (filter : Z) (x : Thread) : Thread :=
  mkThread (Mode x) (HoldsLocks x) (Retries x) (Starts x) (Aborts x) (rv x) (wv x) (abv x) (ROFlag x) (IsRO x)
    (rdSet x) k filter (LocalUndo x).
Definition with_undo (k : Log (Z * Z)) (x : Thread) : Thread :=
  mkThread (Mode x) (HoldsLocks x) (Retries x) (Starts x) (Aborts x) (rv x) (wv x) (abv x) (ROFlag x) (IsRO x)
    (rdSet x) (wrSet x) (BloomFilter x) k.

(** The logs of a new thread. *)
Definition TxInitThread : Thread :=
  mkThread TIDLE false 0 0 0 0 0 0 false false
    (MakeList TL2_INIT_RDSET_NUM_ENTRY) (MakeList TL2_INIT_WRSET_NUM_ENTRY) 0 (MakeList TL2_INIT_LOCAL_NUM_ENTRY).

Definition txReset (x : Thread) : Thread :=
  with_holds false (with_undo (rewind (LocalUndo x)) (with_rd (rewind (rdSet x))
    (with_wr (rewind (wrSet x)) 0 (with_mode TIDLE x)))).

Definition txCommitReset (x : Thread) : Thread :=
  let x := txReset x in with_tally 0 (Starts x) (Aborts x) x.

(** Updates one entry of the write set. *)
Definition update_pair (i : nat) (f : AVPair -> AVPair) (x : Thread) : Thread :=
  let k := wrSet x in with_wr (mkLog (alter f i (entries k)) (num k) (ovf k)) (BloomFilter x) x.

(** ** The machine

    Where a thread is: between calls, or before the given access of a call. *)
Inductive pc :=
| Out                                       (* no transaction *)
| Ready                                     (* in a transaction, between calls *)
| LoadLock (a : Z)                          (* TxLoad: the lock *)
| LoadValu (a r : Z)                        (* TxLoad: the value *)
| LoadCheck (a r v : Z)                     (* TxLoad: the lock again *)
| StoreLock (a v : Z)                       (* TxStore: the lock *)
| StoreValu (a v r : Z)                     (* TxStore: the old value *)
| StoreCheck (a v r : Z)                    (* TxStore: the lock again *)
| Scan (l : Z) (j : nat)                    (* TrackLoad: ReadSetCoherentPessimistic at entry j *)
| AcqLoad (i : nat)                         (* TryFastUpdate: the lock of entry i *)
| AcqCas (i : nat) (cv : Z)                 (* TryFastUpdate: the CAS of a stripe that was read *)
| SpinLoad (i c : nat)                      (* TryFastUpdate: the lock of a write-only stripe *)
| SpinCas (i c : nat) (cv : Z)              (* TryFastUpdate: its CAS *)
| GvLoad                                    (* GVGenerateWV: the clock *)
| GvCas (gv : Z)                            (* GVGenerateWV: the CAS *)
| Validate (j : nat) (dx : bool)            (* ReadSetCoherent at entry j *)
| WriteBack (i : nat)                       (* WriteBackForward at entry i *)
| Drop (i : nat)                            (* DropLocks at entry i *)
| Restore (i : nat).                        (* TxAbort: RestoreLocks at entry i *)

(** A thread, where it is, and the memory that only it uses. *)
Record tstate := mkT { self : Thread; at_ : pc; local : Z -> Z }.

Record system := mkSys { LockTab : Z -> Z; mem : Z -> Z; _GCLOCK : Z; threads : nat -> tstate }.

Inductive act :=
| Start (t : nat) (ro : bool)
| Load (t : nat) (a : Z)
| Store (t : nat) (a v : Z)
| StoreLocal (t : nat) (a v : Z)
| Commit (t : nat)
| Restart (t : nat)
| Step (t : nat).

(** What the client sees: the results of its calls.  [ver] of a commit is the version the
    transaction takes effect at: its write version, or its read version if it wrote nothing. *)
Inductive call := Ld (a v : Z) | St (a v : Z).

#[export] Instance call_eq_dec : EqDecision call.
Proof. solve_decision. Defined.

Inductive event :=
| EBegin (t : nat)
| ECall (t : nat) (c : call)
| ECommit (t : nat) (ver : Z) (update : bool)
| EAbort (t : nat).

Definition locked (w : Z) : bool := negb (Z.land w LOCKBIT =? 0).

(** Spin budget of the acquisition of a lock. *)
Definition ctr : nat := 1000.

Definition put_thread (t : nat) (x : tstate) (s : system) : system :=
  mkSys (LockTab s) (mem s) (_GCLOCK s) (<[t := x]> (threads s)).
Definition put_lock (l w : Z) (s : system) : system :=
  mkSys (<[l := w]> (LockTab s)) (mem s) (_GCLOCK s) (threads s).
Definition put_mem (a v : Z) (s : system) : system :=
  mkSys (LockTab s) (<[a := v]> (mem s)) (_GCLOCK s) (threads s).

(** The result of a step. *)
Notation result := (option (system * list event)).

Section pointers.

(** The entry [i] of the write set of thread [t] is at [avp t i]; [Owner] and [Ordinal] read the
    fields of the entry at an address. *)
Context (avp : nat -> nat -> Z) (Owner Ordinal : Z -> nat).

Definition mine (t : nat) (w : Z) : bool := locked w && Nat.eqb (Owner (Z.lxor w LOCKBIT)) t.

Definition GVRead (s : system) : Z := _GCLOCK s.

(** The CAS of GV4: the new clock, and the write version. *)
Definition GVGenerateWV_GV4 (gv clock : Z) : Z * Z :=
  let wv := u32 (gv + 2) in if clock =? gv then (wv, wv) else (clock, clock).

(** The end of [TxAbort], after the locks; [GVAbort] of GV4 does nothing. *)
Definition end_abort (x : tstate) : tstate :=
  let r := self x in
  mkT (with_tally (Retries r + 1) (Starts r) (Aborts r + 1) r) Out (WriteBackReverse (LocalUndo r) (local x)).

Definition TxAbort (t : nat) (x : tstate) (s : system) : system * list event :=
  let x := mkT (with_mode TABORTED (self x)) (at_ x) (local x) in
  (put_thread t (if HoldsLocks (self x) then mkT (self x) (Restore 0) (local x) else end_abort x) s, [EAbort t]).

(** *** Loads and stores *)

Definition TxStart (t : nat) (ro : bool) (x : tstate) (s : system) : system * list event :=
  let r := with_rv (GVRead s) (txReset (self x)) in
  let r := with_ro ro ro (with_mode TTXN r) in
  (put_thread t (mkT (with_tally (Retries r) (Starts r + 1) (Aborts r) r) Ready (local x)) s, [EBegin t]).

(** The look-aside in the write set; else the first access follows. *)
Definition TxLoad (t : nat) (a : Z) (x : tstate) (s : system) : result :=
  let msk := FILTERBITS a in
  let go := Some (put_thread t (mkT (self x) (LoadLock a) (local x)) s, []) in
  if Z.land (BloomFilter (self x)) msk =? msk then
    match last_index a (entries (wrSet (self x))) with
    | Some i => e ← entries (wrSet (self x)) !! i; Some (s, [ECall t (Ld a (Valu e))])
    | None => go
    end
  else go.

Definition TxStore (t : nat) (a v : Z) (x : tstate) (s : system) : system * list event :=
  if IsRO (self x) then TxAbort t (mkT (with_ro false (IsRO (self x)) (self x)) (at_ x) (local x)) s
  else (put_thread t (mkT (self x) (StoreLock a v) (local x)) s, []).

Definition TxStoreLocal (t : nat) (a v : Z) (x : tstate) (s : system) : system * list event :=
  let r := self x in
  (put_thread t (mkT (with_undo (SaveForRollBack (LocalUndo r) a (local x a)) r) (at_ x) (<[a := v]> (local x))) s, []).

(** [TrackLoad], after which the call returns; a full read set is first checked. *)
Definition TrackLoad (t : nat) (l : Z) (x : tstate) (s : system) : system :=
  let r := self x in
  if at_end (rdSet r) then put_thread t (mkT r (Scan l 0) (local x)) s
  else put_thread t (mkT (with_rd (put_entry (rdSet r) l) r) Ready (local x)) s.

(** The last test of [TxLoad]. *)
Definition load_check (t : nat) (a r v : Z) (x : tstate) (s : system) : system * list event :=
  let l := PSLOCK a in
  if (r <=? rv (self x)) && (LockTab s l =? r) then
    (if IsRO (self x) then put_thread t (mkT (self x) Ready (local x)) s else TrackLoad t l x s, [ECall t (Ld a v)])
  else TxAbort t (mkT (with_abv r (self x)) (at_ x) (local x)) s.

(** The end of [TxStore]: a new entry of the write set. *)
Definition record_store (t : nat) (a v : Z) (x : tstate) (s : system) : system * list event :=
  let r := self x in
  let r := with_wr (RecordStore (wrSet r) a v (PSLOCK a)) (Z.lor (BloomFilter r) (FILTERBITS a)) r in
  (put_thread t (mkT r Ready (local x)) s, [ECall t (St a v)]).

(** The test for a redundant store. *)
Definition store_valu (t : nat) (a v r : Z) (x : tstate) (s : system) : system * list event :=
  if mem s a =? v then
    match last_index a (entries (wrSet (self x))) with
    | Some i => (put_thread t (mkT (update_pair i (set_valu v) (self x)) Ready (local x)) s, [ECall t (St a v)])
    | None =>
        if negb (locked r) && (r <=? rv (self x)) then (put_thread t (mkT (self x) (StoreCheck a v r) (local x)) s, [])
        else record_store t a v x s
    end
  else record_store t a v x s.

Definition store_check (t : nat) (a v r : Z) (x : tstate) (s : system) : system * list event :=
  let l := PSLOCK a in
  if LockTab s l =? r then (TrackLoad t l x s, [ECall t (St a v)]) else record_store t a v x s.

(** Whether an entry of the read set is still as the transaction saw it. *)
Definition entry_coherent (t : nat) (x : Thread) (w : Z) : bool := if locked w then mine t w else w <=? rv x.

Definition ReadSetCoherentPessimistic (t j : nat) (l : Z) (x : tstate) (s : system) : system * list event :=
  let r := self x in
  match entries (rdSet r) !! j with
  | None => (put_thread t (mkT (with_rd (put_entry (rdSet r) l) r) Ready (local x)) s, [])
  | Some l' =>
      if entry_coherent t r (LockTab s l') then (put_thread t (mkT r (Scan l (S j)) (local x)) s, [])
      else TxAbort t x s
  end.

(** *** Commit *)

Definition TxCommit (t : nat) (x : tstate) (s : system) : system * list event :=
  match entries (wrSet (self x)) with
  | [] => (put_thread t (mkT (txCommitReset (self x)) Out (local x)) s, [ECommit t (rv (self x)) false])
  | _ => (put_thread t (mkT (with_holds true (self x)) (AcqLoad 0) (local x)) s, [])
  end.

(** The head of the loop over the write set. *)
Definition acquire_from (i : nat) (x : Thread) : pc :=
  if (i <? length (entries (wrSet x)))%nat then AcqLoad i else GvLoad.

Definition goto (t : nat) (p : pc) (x : tstate) (s : system) : system * list event :=
  (put_thread t (mkT (self x) p (local x)) s, []).

Definition acq_load (t i : nat) (p : AVPair) (x : tstate) (s : system) : result :=
  let r := self x in
  let cv := LockTab s (LockFor p) in
  let fail := TxAbort t (mkT (with_abv cv r) (at_ x) (local x)) s in
  if mine t cv then
    if FindFirst (rdSet r) (LockFor p) then
      q ← entries (wrSet r) !! Ordinal (Z.lxor cv LOCKBIT);
      Some (if rv r <? rdv q then fail else goto t (acquire_from (S i) r) x s)
    else Some (goto t (acquire_from (S i) r) x s)
  else if FindFirst (rdSet r) (LockFor p) then
    Some (if negb (locked cv) && (cv <=? rv r) then goto t (AcqCas i cv) x s else fail)
  else Some (goto t (SpinLoad i ctr) x s).

(** The lock is taken: [p->rdv = cv; p->Held = 1]. *)
Definition take_lock (t i : nat) (cv : Z) (p : AVPair) (x : tstate) (s : system) : system * list event :=
  let r := update_pair i (acquired cv) (self x) in
  goto t (acquire_from (S i) r) (mkT r (at_ x) (local x)) (put_lock (LockFor p) (Z.lor (avp t i) LOCKBIT) s).

Definition acq_cas (t i : nat) (cv : Z) (p : AVPair) (x : tstate) (s : system) : system * list event :=
  if LockTab s (LockFor p) =? cv then take_lock t i cv p x s
  else TxAbort t (mkT (with_abv cv (self x)) (at_ x) (local x)) s.

(** [if (--c < 0) return 0;] *)
Definition spin_again (t i c : nat) (x : tstate) (s : system) : system * list event :=
  match c with O => TxAbort t x s | S c => goto t (SpinLoad i c) x s end.

Definition spin_load (t i c : nat) (p : AVPair) (x : tstate) (s : system) : system * list event :=
  let cv := LockTab s (LockFor p) in
  if locked cv then spin_again t i c x s else goto t (SpinCas i c cv) x s.

Definition spin_cas (t i c : nat) (cv : Z) (p : AVPair) (x : tstate) (s : system) : system * list event :=
  if LockTab s (LockFor p) =? cv then take_lock t i cv p x s else spin_again t i c x s.

Definition gv_cas (t : nat) (gv : Z) (x : tstate) (s : system) : system * list event :=
  let '(clock, w) := GVGenerateWV_GV4 gv (_GCLOCK s) in
  goto t (Validate 0 false) (mkT (with_wv w (self x)) (at_ x) (local x)) (mkSys (LockTab s) (mem s) clock (threads s)).

(** After the loop: the transaction is committed, or aborts. *)
Definition ReadSetCoherent (t j : nat) (dx : bool) (x : tstate) (s : system) : system * list event :=
  let r := self x in
  match entries (rdSet r) !! j with
  | Some l => goto t (Validate (S j) (dx || negb (entry_coherent t r (LockTab s l)))) x s
  | None =>
      if dx then TxAbort t x s
      else (put_thread t (mkT r (WriteBack 0) (local x)) s, [ECommit t (wv r) true])
  end.

Definition WriteBackForward (t i : nat) (x : tstate) (s : system) : system * list event :=
  match entries (wrSet (self x)) !! i with
  | Some e => goto t (WriteBack (S i)) x (put_mem (Addr e) (Valu e) s)
  | None => goto t (Drop 0) x s
  end.

Definition DropLocks (t i : nat) (x : tstate) (s : system) : system * list event :=
  let r := self x in
  match entries (wrSet r) !! i with
  | Some p =>
      if Held p then goto t (Drop (S i)) (mkT (update_pair i unheld r) (at_ x) (local x)) (put_lock (LockFor p) (wv r) s)
      else goto t (Drop (S i)) x s
  | None => (put_thread t (mkT (txCommitReset (with_holds false r)) Out (local x)) s, [])
  end.

Definition RestoreLocks (t i : nat) (x : tstate) (s : system) : system * list event :=
  let r := self x in
  match entries (wrSet r) !! i with
  | Some p =>
      if Held p then goto t (Restore (S i)) (mkT (update_pair i unheld r) (at_ x) (local x)) (put_lock (LockFor p) (rdv p) s)
      else goto t (Restore (S i)) x s
  | None => (put_thread t (end_abort (mkT (with_holds false r) (at_ x) (local x))) s, [])
  end.

(** *** Steps *)

(** The next access of a call. *)
Definition advance (t : nat) (x : tstate) (s : system) : result :=
  match at_ x with
  | Out | Ready => None
  | LoadLock a => Some (goto t (LoadValu a (Z.land (LockTab s (PSLOCK a)) (Z.lnot LOCKBIT))) x s)
  | LoadValu a r => Some (goto t (LoadCheck a r (mem s a)) x s)
  | LoadCheck a r v => Some (load_check t a r v x s)
  | StoreLock a v => Some (goto t (StoreValu a v (LockTab s (PSLOCK a))) x s)
  | StoreValu a v r => Some (store_valu t a v r x s)
  | StoreCheck a v r => Some (store_check t a v r x s)
  | Scan l j => Some (ReadSetCoherentPessimistic t j l x s)
  | AcqLoad i => p ← entries (wrSet (self x)) !! i; acq_load t i p x s
  | AcqCas i cv => p ← entries (wrSet (self x)) !! i; Some (acq_cas t i cv p x s)
  | SpinLoad i c => p ← entries (wrSet (self x)) !! i; Some (spin_load t i c p x s)
  | SpinCas i c cv => p ← entries (wrSet (self x)) !! i; Some (spin_cas t i c cv p x s)
  | GvLoad => Some (goto t (GvCas (_GCLOCK s)) x s)
  | GvCas gv => Some (gv_cas t gv x s)
  | Validate j dx => Some (ReadSetCoherent t j dx x s)
  | WriteBack i => Some (WriteBackForward t i x s)
  | Drop i => Some (DropLocks t i x s)
  | Restore i => Some (RestoreLocks t i x s)
  end.

Definition actor (a : act) : nat :=
  match a with Start t _ | Load t _ | Store t _ _ | StoreLocal t _ _ | Commit t | Restart t | Step t => t end.

Definition is_out (p : pc) : bool := match p with Out => true | _ => false end.
Definition is_ready (p : pc) : bool := match p with Ready => true | _ => false end.

Definition step (a : act) (s : system) : result :=
  match a with
  | Start t ro => let x := threads s t in if is_out (at_ x) then Some (TxStart t ro x s) else None
  | Load t a => let x := threads s t in if is_ready (at_ x) then TxLoad t a x s else None
  | Store t a v => let x := threads s t in if is_ready (at_ x) then Some (TxStore t a v x s) else None
  | StoreLocal t a v => let x := threads s t in if is_ready (at_ x) then Some (TxStoreLocal t a v x s) else None
  | Commit t => let x := threads s t in if is_ready (at_ x) then Some (TxCommit t x s) else None
  | Restart t => let x := threads s t in if is_ready (at_ x) then Some (TxAbort t x s) else None
  | Step t => advance t (threads s t) s
  end.

(** A pointer into [LockTab]: never [NULL], and inside the table. *)
Definition in_table (l : Z) : bool := (0 <=? l) && (l <? _TABSZ).

Definition not_null (a : Z) : bool := negb (a =? 0).

Definition is_empty {A} (k : Log A) : bool := match entries k with [] => true | _ => false end.

(** The assertions of this build at the place where a thread is, those of a loop for the
    entry it is at: of [TxStart] at [Out], of [TxLoad], [TxStore], [TxCommit] and [TryFastUpdate] on entry
    at [Ready], of the scan for a redundant store and of [RecordStore] at [StoreValu] and [StoreCheck], of
    the two checks of the read set at [Scan] and [Validate], of the loop that takes the locks at
    [AcqLoad], of [GVGenerateWV_GV4] at [GvCas], of [DropLocks] and [RestoreLocks].  [maxv] of
    [GVGenerateWV] is the largest version of a lock that the transaction took.  [ASSERT(0)] comes
    after [TxAbort], which does not return; the assertion of [txSterilize] is not among these,
    nor are those of the other builds. *)
Definition asserts (t : nat) (s : system) : bool :=
  let x := self (threads s t) in
  match at_ (threads s t) with
  | Out =>
      match Mode x with TIDLE | TABORTED => Z.land (GVRead s) LOCKBIT =? 0 | _ => false end &&
      is_empty (LocalUndo (txReset x)) && is_empty (wrSet (txReset x))
  | Ready =>
      match Mode x with TTXN => true | _ => false end && forallb (fun e => not_null (Addr e)) (entries (wrSet x))
  | StoreValu a _ _ =>
      not_null a &&
      forallb (fun e => not_null (Addr e) && (negb (Addr e =? a) || (LockFor e =? PSLOCK a))) (entries (wrSet x))
  | StoreCheck a _ _ => not_null a
  | Scan _ j | Validate j _ =>
      (Z.land (rv x) LOCKBIT =? 0) && match entries (rdSet x) !! j with Some l => in_table l | None => true end
  | AcqLoad i =>
      match entries (wrSet x) !! i with
      | Some p => not_null (Addr p) && in_table (LockFor p) && negb (Held p) && Nat.eqb (Owner (avp t i)) t
      | None => false
      end
  | GvCas gv =>
      let w := (GVGenerateWV_GV4 gv (_GCLOCK s)).2 in
      (Z.land w LOCKBIT =? 0) && negb (w =? 0) && (wv x <? w) && (rv x <? w) &&
      forallb (fun p => negb (Held p) || (rdv p <? w)) (entries (wrSet x))
  | Drop i =>
      match entries (wrSet x) !! i with
      | Some p => not_null (Addr p) && in_table (LockFor p) && (negb (Held p) ||
          ((rdv p <? wv x) && mine t (LockTab s (LockFor p)) && (LockTab s (LockFor p) =? Z.lor (avp t i) LOCKBIT)))
      | None => true
      end
  | Restore i =>
      match entries (wrSet x) !! i with
      | Some p => not_null (Addr p) && in_table (LockFor p) && (negb (Held p) ||
          ((Z.land (rdv p) LOCKBIT =? 0) && mine t (LockTab s (LockFor p)) && (LockTab s (LockFor p) =? Z.lor (avp t i) LOCKBIT)))
      | None => true
      end
  | _ => true
  end.

(** A client that stores through no null pointer. *)
Definition stores_somewhere (a : act) : Prop := match a with Store _ a _ => a <> 0 | _ => True end.

(** The library after [TxOnce] and the start of the threads. *)
Definition TxOnce (m : Z -> Z) : system :=
  mkSys (fun _ => 0) m 0 (fun _ => mkT TxInitThread Out (fun _ => 0)).

(** A run, as long as the version clock stays below [bound], with its events. *)
Fixpoint trace (bound : Z) (acts : list act) (s : system) : result :=
  match acts with
  | [] => Some (s, [])
  | a :: acts =>
      '(s, es) ← step a s;
      if _GCLOCK s <? bound then '(s', es') ← trace bound acts s; Some (s', es ++ es') else None
  end.

End pointers.

(** ** Freeing a block

    The loop of [txSterilize] over the words from [a] to [End = Addr + Length], then [memset]; each
    round runs undisturbed here, so its CAS succeeds. *)
Fixpoint sterilize_words (n : nat) (a : Z) (s : system) : system :=
  match n with
  | O => s
  | S n => sterilize_words n (a + 4) (put_lock (PSLOCK a) (Z.land (_GCLOCK s) (Z.lnot LOCKBIT)) s)
  end.

(** [memset] to 0xFF of the words of a block of [n] bytes. *)
Fixpoint mark_words (n : nat) (a : Z) (s : system) : system :=
  match n with O => s | S n => mark_words n (a + 4) (put_mem a (-1) s) end.

Definition txSterilize (base : Z) (length : nat) (s : system) : system :=
  mark_words (length / 4) base (sterilize_words length base s).

(** ** What the client may expect

    A call of a transaction that runs alone. *)
Definition do_call (c : call) (m : Z -> Z) : option (Z -> Z) :=
  match c with
  | Ld a v => if m a =? v then Some m else None
  | St a v => Some (<[a := v]> m)
  end.

Fixpoint exec (cs : list call) (m : Z -> Z) : option (Z -> Z) :=
  match cs with [] => Some m | c :: cs => m ← do_call c m; exec cs m end.

(** A committed transaction: its number, the number of commits when it began, its calls. *)
Record tx := mkTx { tx_no : nat; tx_since : nat; tx_ver : Z; tx_update : bool; tx_calls : list call }.

(** Transactions that only read come after the update of the version they read at. *)
Definition tx_key (c : tx) : Z := 2 * tx_ver c + (if tx_update c then 0 else 1).

(** Puts a transaction behind those of its version. *)
Fixpoint place (c : tx) (l : list tx) : list tx :=
  match l with
  | [] => [c]
  | d :: l => if tx_key d <=? tx_key c then d :: place c l else c :: d :: l
  end.

(** The history of a run: the calls of the transaction a thread is in, the number of commits
    when it began, and the committed transactions in their serial order. *)
Record history := mkHist { calls : nat -> list call; since : nat -> nat; commits : nat; serial : list tx }.

Definition observe (h : history) (e : event) : history :=
  match e with
  | EBegin t => mkHist (<[t := []]> (calls h)) (<[t := commits h]> (since h)) (commits h) (serial h)
  | ECall t c => mkHist (<[t := calls h t ++ [c]]> (calls h)) (since h) (commits h) (serial h)
  | EAbort t => mkHist (<[t := []]> (calls h)) (since h) (commits h) (serial h)
  | ECommit t ver u =>
      mkHist (<[t := []]> (calls h)) (since h) (S (commits h))
        (place (mkTx (commits h) (since h t) ver u (calls h t)) (serial h))
  end.

Definition no_history : history := mkHist (fun _ => []) (fun _ => O) O [].
Definition observed (es : list event) : history := foldl observe no_history es.

End Tl2.
