(* ===== verification/Tl2Spec.v ===== *)
(** * The TL2 software transactional memory: serial executions

    Facts about the specification in [Tl2]: transactions that run one after the other, the
    serial order of a history and the memory as of a version.  A committed transaction is
    kept with the addresses it read from memory and the entries it wrote. *)

From stdpp Require Import functions.
From S2P Require Import Prelude Tl2.
Import Tl2.

(** ** Memories *)

Definition apply (es : list AVPair) (m : Z -> Z) : Z -> Z := foldl (fun m e => <[Addr e := Valu e]> m) m es.

Definition waddr (es : list AVPair) : list Z := Addr <$> es.

Lemma fn_insert_spec (m : Z -> Z) a v b : <[a := v]> m b = if decide (a = b) then v else m b.
Proof. case_decide as E; [subst; by rewrite fn_lookup_insert|by rewrite fn_lookup_insert_ne]. Qed.

Lemma apply_ext es : forall m m' a, m a = m' a -> apply es m a = apply es m' a.
Proof.
  induction es as [|e es IH]; intros m m' a H; simpl; [done|]. apply IH. rewrite !fn_insert_spec. by case_decide.
Qed.

Lemma apply_notin es m a : a ∉ waddr es -> apply es m a = m a.
Proof.
  revert m. induction es as [|e es IH]; intros m H; simpl; [done|]. unfold waddr in H. rewrite fmap_cons in H.
  apply not_elem_of_cons in H as [Hne H]. rewrite IH by done. rewrite fn_insert_spec. by rewrite decide_False.
Qed.

Lemma apply_in es m m' a : a ∈ waddr es -> apply es m a = apply es m' a.
Proof.
  revert m m'. induction es as [|e es IH]; intros m m' H; simpl; [by apply not_elem_of_nil in H|].
  unfold waddr in H. rewrite fmap_cons in H. apply elem_of_cons in H as [-> |H]; [|by apply IH].
  apply apply_ext. by rewrite !fn_lookup_insert.
Qed.

Lemma apply_snoc es e m : apply (es ++ [e]) m = <[Addr e := Valu e]> (apply es m).
Proof. unfold apply. by rewrite foldl_app. Qed.

(** The last entry for an address gives its value. *)
Lemma last_index_None es a : last_index a es = None <-> a ∉ waddr es.
Proof.
  unfold waddr. induction es as [|e es IH]; simpl; [split; [intros _; apply not_elem_of_nil|done]|].
  rewrite not_elem_of_cons. destruct (last_index a es).
  - split; [done|]. intros [_ H]. by apply IH in H.
  - destruct (Z.eqb_spec (Addr e) a); split; [done|by intros [? _]|intros _; split; [congruence|by apply IH]|done].
Qed.

Lemma last_index_Some es a i : last_index a es = Some i ->
  exists e, es !! i = Some e /\ Addr e = a /\ forall m, apply es m a = Valu e.
Proof.
  revert i. induction es as [|e es IH]; intros i H; simpl in *; [done|].
  destruct (last_index a es) as [j|] eqn:E; simplify_eq/=.
  - destruct (IH j eq_refl) as (e' & He & Ha & Hm). exists e'. split_and!; auto.
  - destruct (Z.eqb_spec (Addr e) a) as [Ha|]; [|done]. simplify_eq/=. exists e. split_and!; [done..|]. intros m.
    apply last_index_None in E. rewrite apply_notin by done. by rewrite fn_lookup_insert.
Qed.

Lemma apply_set_last es a i v m b : last_index a es = Some i ->
  apply (alter (set_valu v) i es) m b = <[a := v]> (apply es m) b.
Proof.
  revert i m. induction es as [|e es IH]; intros i m H; simpl in *; [done|].
  destruct (last_index a es) as [j|] eqn:E; simplify_eq/=; [by apply IH|].
  destruct (Z.eqb_spec (Addr e) a) as [Ha|]; [|done]. simplify_eq/=. apply last_index_None in E.
  rewrite fn_insert_spec. case_decide as Hb; subst.
  - rewrite apply_notin by done. by rewrite fn_lookup_insert.
  - apply apply_ext. rewrite !fn_insert_spec. by rewrite !decide_False.
Qed.

(** ** Calls one after the other *)

Lemma exec_app cs1 cs2 m : exec (cs1 ++ cs2) m = (m' ← exec cs1 m; exec cs2 m').
Proof.
  revert m. induction cs1 as [|c cs IH]; intros m; simpl; [done|]. destruct (do_call c m); simpl; [apply IH|done].
Qed.

Lemma exec_ext cs : forall m m' x, (forall a, m a = m' a) -> exec cs m = Some x ->
  exists x', exec cs m' = Some x' /\ forall a, x a = x' a.
Proof.
  induction cs as [|c cs IH]; intros m m' x Hm H; simpl in *; [simplify_eq; eauto|]. destruct c as [a v|a v]; simpl in *.
  - rewrite <- Hm. destruct (m a =? v); simpl in *; [eauto|done].
  - eapply IH; [|exact H]. intros b. rewrite !fn_insert_spec. by case_decide.
Qed.

(** The calls [cs], made on a memory that agrees with [snap] on the addresses [rd], return what
    they did and have the effect of the entries [es]. *)
Definition calls_ok (snap : Z -> Z) (rd : list Z) (cs : list call) (es : list AVPair) : Prop :=
  forall m, (forall a, a ∈ rd -> m a = snap a) -> exists m', exec cs m = Some m' /\ forall a, m' a = apply es m a.

Lemma calls_ok_nil snap rd : calls_ok snap rd [] [].
Proof. intros m _. by exists m. Qed.

Lemma calls_ok_snap snap snap' rd cs es :
  (forall a, a ∈ rd -> snap' a = snap a) -> calls_ok snap rd cs es -> calls_ok snap' rd cs es.
Proof. intros H Hok m Hm. apply Hok. intros a Ha. by rewrite Hm, H. Qed.

Lemma calls_ok_load snap rd cs es a v :
  a ∉ waddr es -> snap a = v -> calls_ok snap rd cs es -> calls_ok snap (a :: rd) (cs ++ [Ld a v]) es.
Proof.
  intros Ha Hv Hok m Hm. destruct (Hok m) as (m' & He & Hm'); [intros b Hb; apply Hm; by right|].
  exists m'. split; [|done]. rewrite exec_app, He. simpl. rewrite Hm', apply_notin, Hm, Hv, Z.eqb_refl by (done || left). done.
Qed.

Lemma calls_ok_own snap rd cs es a v :
  (forall m, apply es m a = v) -> calls_ok snap rd cs es -> calls_ok snap rd (cs ++ [Ld a v]) es.
Proof.
  intros Hv Hok m Hm. destruct (Hok m Hm) as (m' & He & Hm'). exists m'. split; [|done].
  rewrite exec_app, He. simpl. by rewrite Hm', Hv, Z.eqb_refl.
Qed.

Lemma calls_ok_store snap rd cs es es' a v :
  (forall m b, apply es' m b = <[a := v]> (apply es m) b) ->
  calls_ok snap rd cs es -> calls_ok snap rd (cs ++ [St a v]) es'.
Proof.
  intros Hv Hok m Hm. destruct (Hok m Hm) as (m' & He & Hm'). exists (<[a := v]> m'). rewrite exec_app, He. simpl.
  split; [done|]. intros b. rewrite Hv, !fn_insert_spec. case_decide; [done|apply Hm'].
Qed.

Lemma calls_ok_redundant snap rd cs es a v :
  a ∉ waddr es -> snap a = v -> calls_ok snap rd cs es -> calls_ok snap (a :: rd) (cs ++ [St a v]) es.
Proof.
  intros Ha Hv Hok m Hm. destruct (Hok m) as (m' & He & Hm'); [intros b Hb; apply Hm; by right|].
  exists (<[a := v]> m'). rewrite exec_app, He. simpl. split; [done|]. intros b. rewrite fn_insert_spec.
  case_decide as Hb; [subst|apply Hm']. rewrite apply_notin by done. rewrite Hm; [done|left].
Qed.

(** ** Committed transactions *)

Record rec := mkRec { r_tx : tx; r_rv : Z; r_reads : list Z; r_writes : list AVPair }.

Notation r_ver r := (tx_ver (r_tx r)).
Notation r_key r := (tx_key (r_tx r)).
Notation r_no r := (tx_no (r_tx r)).

Definition effect (rs : list rec) (m : Z -> Z) : Z -> Z := foldl (fun m r => apply (r_writes r) m) m rs.

(** The memory as of a version. *)
Definition snap (m0 : Z -> Z) (rs : list rec) (v : Z) : Z -> Z := effect (filter (fun r => r_ver r <= v) rs) m0.

Lemma effect_ext rs : forall m m' a, m a = m' a -> effect rs m a = effect rs m' a.
Proof. induction rs as [|r rs IH]; intros m m' a H; simpl; [done|]. by apply IH, apply_ext. Qed.

Lemma effect_app rs rs' m : effect (rs ++ rs') m = effect rs' (effect rs m).
Proof. unfold effect. apply foldl_app. Qed.

Lemma effect_none rs m a : (forall r, r ∈ rs -> a ∉ waddr (r_writes r)) -> effect rs m a = m a.
Proof.
  revert m. induction rs as [|r rs IH]; intros m H; simpl; [done|]. rewrite IH by (intros; apply H; by right).
  apply apply_notin, H. left.
Qed.

(** Only the transactions that write an address matter to it. *)
Lemma effect_filter_ext P Q `{HP : !forall r, Decision (P r)} `{HQ : !forall r, Decision (Q r)} rs m a :
  (forall r, r ∈ rs -> a ∈ waddr (r_writes r) -> P r <-> Q r) -> effect (filter P rs) m a = effect (filter Q rs) m a.
Proof.
  revert m. induction rs as [|r rs IH]; intros m H; [done|]. rewrite !filter_cons.
  assert (IH' : forall m, effect (filter P rs) m a = effect (filter Q rs) m a) by (intros; apply IH; intros; apply H; [by right|done]).
  destruct (decide (a ∈ waddr (r_writes r))) as [Ha|Ha].
  - destruct (H r ltac:(left) Ha). do 2 case_decide; simpl; (tauto || apply IH').
  - pose proof (apply_notin (r_writes r) m a Ha) as Hn.
    do 2 case_decide; simpl; rewrite ?IH'; try done; by apply effect_ext.
Qed.

Lemma effect_filter_writers P `{HP : !forall r, Decision (P r)} rs m a :
  (forall r, r ∈ rs -> a ∈ waddr (r_writes r) -> P r) -> effect (filter P rs) m a = effect rs m a.
Proof.
  intros H. rewrite (effect_filter_ext _ (fun _ => True)) by (intros; split; auto). f_equal. clear H.
  induction rs as [|r rs IH]; [done|]. rewrite filter_cons_True by done. by rewrite IH.
Qed.

Lemma snap_full m0 rs v a :
  (forall r, r ∈ rs -> a ∈ waddr (r_writes r) -> r_ver r <= v) -> snap m0 rs v a = effect rs m0 a.
Proof. apply effect_filter_writers. Qed.

(** *** The serial order *)

Definition before (r r' : rec) : Prop := r_key r < r_key r' \/ (r_key r = r_key r' /\ (r_no r < r_no r')%nat).

Fixpoint rplace (c : rec) (l : list rec) : list rec :=
  match l with
  | [] => [c]
  | d :: l => if r_key d <=? r_key c then d :: rplace c l else c :: d :: l
  end.

Lemma rplace_tx c l : r_tx <$> rplace c l = place (r_tx c) (r_tx <$> l).
Proof. induction l as [|d l IH]; csimpl; [done|]. case_match; csimpl; [by rewrite IH|done]. Qed.

Lemma elem_of_rplace c l r : r ∈ rplace c l <-> r = c \/ r ∈ l.
Proof. induction l as [|d l IH]; simpl; [set_solver|]. case_match; set_solver. Qed.

Lemma rplace_sorted c l :
  StronglySorted before l -> (forall r, r ∈ l -> (r_no r < r_no c)%nat) -> StronglySorted before (rplace c l).
Proof.
  induction l as [|d l IH]; intros Hs Hn; simpl; [repeat constructor|]. apply StronglySorted_inv in Hs as [Hs Hd].
  pose proof (Hn d ltac:(left)) as Hdn. destruct (Z.leb_spec (r_key d) (r_key c)) as [Hle|Hlt].
  - constructor; [apply IH; [done|intros; apply Hn; by right]|]. apply Forall_forall. intros r Hr.
    apply elem_of_rplace in Hr as [-> |Hr]; [|rewrite Forall_forall in Hd; by apply Hd].
    unfold before. lia.
  - constructor; [by constructor|]. constructor; [left; lia|]. eapply Forall_impl; [exact Hd|]. intros r [?|[? ?]]; left; lia.
Qed.

Lemma effect_rplace_skip P `{HP : !forall r, Decision (P r)} c l m a :
  a ∉ waddr (r_writes c) \/ ~ P c -> effect (filter P (rplace c l)) m a = effect (filter P l) m a.
Proof.
  intros Hc. revert m. induction l as [|d l IH]; intros m; simpl.
  - rewrite filter_cons. case_decide; [|done]. destruct Hc; [by apply apply_notin|done].
  - case_match; rewrite !filter_cons.
    + case_decide; [|apply IH]. simpl. apply IH.
    + case_decide; [|done]. destruct Hc as [Hc|]; [|done]. simpl. case_decide; simpl; apply effect_ext; [apply apply_ext|]; by apply apply_notin.
Qed.

Lemma snap_rplace m0 c l v a :
  a ∉ waddr (r_writes c) \/ v < r_ver c -> snap m0 (rplace c l) v a = snap m0 l v a.
Proof. intros H. apply effect_rplace_skip. destruct H; [by left|right; lia]. Qed.

(** A transaction newer than every writer of an address decides its value. *)
Lemma effect_rplace_last c l m a :
  StronglySorted before l -> (forall r, r ∈ l -> a ∈ waddr (r_writes r) -> r_key r <= r_key c) ->
  effect (rplace c l) m a = apply (r_writes c) (effect l m) a.
Proof.
  revert m. induction l as [|d l IH]; intros m Hs Hw; simpl; [done|]. apply StronglySorted_inv in Hs as [Hs Hd].
  destruct (Z.leb_spec (r_key d) (r_key c)) as [Hle|Hlt]; simpl.
  - apply IH; [done|intros; apply Hw; [by right|done]].
  - assert (Hnone : forall r, r ∈ d :: l -> a ∉ waddr (r_writes r)).
    { intros r Hr Ha. pose proof (Hw r Hr Ha). apply elem_of_cons in Hr as [-> |Hr]; [lia|].
      rewrite Forall_forall in Hd. destruct (Hd r Hr) as [?|[? ?]]; lia. }
    pose proof (effect_none (d :: l) (apply (r_writes c) m) a Hnone) as H1. simpl in H1. rewrite H1.
    apply apply_ext. symmetry. apply (effect_none (d :: l) m a Hnone).
Qed.

(** *** Serial executions *)

Record rec_ok (m0 : Z -> Z) (rs : list rec) (r : rec) : Prop := {
  rec_nonneg : 0 <= r_rv r;
  rec_kind : if tx_update (r_tx r) then r_rv r < r_ver r else r_rv r = r_ver r /\ r_writes r = [];
  rec_calls : calls_ok (snap m0 rs (r_rv r)) (r_reads r) (tx_calls (r_tx r)) (r_writes r);
  rec_clean : forall a r', a ∈ r_reads r -> r' ∈ rs -> r' <> r -> a ∈ waddr (r_writes r') ->
    r_ver r' <= r_rv r \/ r_ver r < r_ver r'
}.

Lemma writer_update m0 rs r a : rec_ok m0 rs r -> a ∈ waddr (r_writes r) -> tx_update (r_tx r) = true.
Proof.
  intros H Ha. pose proof (rec_kind _ _ _ H) as Hk. destruct (tx_update (r_tx r)); [done|]. destruct Hk as [_ Hw].
  rewrite Hw in Ha. by apply not_elem_of_nil in Ha.
Qed.

Lemma sorted_middle (pre post : list rec) r :
  StronglySorted before (pre ++ r :: post) ->
  (forall r', r' ∈ pre -> before r' r) /\ (forall r', r' ∈ post -> before r r').
Proof.
  induction pre as [|d pre IH]; simpl; intros Hs; apply StronglySorted_inv in Hs as [Hs Hd]; rewrite Forall_forall in Hd.
  - split; [intros ? []%not_elem_of_nil|by intros; apply Hd].
  - destruct (IH Hs) as [H1 H2]. split; [|done]. intros r' [-> |]%elem_of_cons; [apply Hd; set_solver|auto].
Qed.

(** Before a transaction, the addresses it read hold what they held at its read version. *)
Lemma effect_before m0 rs pre r post a :
  rs = pre ++ r :: post -> StronglySorted before rs -> (forall r', r' ∈ rs -> rec_ok m0 rs r') ->
  a ∈ r_reads r -> effect pre m0 a = snap m0 rs (r_rv r) a.
Proof.
  intros Hrs Hs Hok Ha. rewrite Hrs in Hs. destruct (sorted_middle _ _ _ Hs) as [Hpre Hpost].
  assert (Hin : forall r', r' ∈ rs <-> r' ∈ pre \/ r' = r \/ r' ∈ post) by (intros; subst rs; set_solver).
  pose proof (Hok r ltac:(set_solver)) as Hr. pose proof (rec_kind _ _ _ Hr) as Hk.
  assert (Hkey : forall r', r' ∈ rs -> a ∈ waddr (r_writes r') -> r_key r' = 2 * r_ver r').
  { intros r' Hr' Hw. unfold tx_key. rewrite (writer_update _ _ _ _ (Hok r' Hr') Hw). lia. }
  assert (Hb : r_key r <= 2 * r_ver r + 1 /\ (tx_update (r_tx r) = true -> r_key r = 2 * r_ver r) /\
    (tx_update (r_tx r) = false -> r_key r = 2 * r_ver r + 1)) by (unfold tx_key; destruct (tx_update _); lia).
  unfold snap. rewrite Hrs at 1. rewrite filter_app, effect_app, (effect_none (filter _ (r :: post))).
  - symmetry. apply effect_filter_writers. intros r' Hr' Hw.
    assert (Hne : r' <> r) by (intros ->; destruct (Hpre r Hr') as [?|[? ?]]; lia).
    destruct (rec_clean _ _ _ Hr a r') as [|Hlt]; [done|set_solver|done|done|done|].
    pose proof (Hkey r' ltac:(set_solver) Hw). destruct (Hpre r' Hr') as [?|[? ?]]; lia.
  - intros r' [Hv Hr']%list_elem_of_filter Hw. pose proof (Hkey r' ltac:(set_solver) Hw) as Hk'.
    apply elem_of_cons in Hr' as [-> |Hr'].
    + rewrite (writer_update _ _ _ _ Hr Hw) in Hk. lia.
    + destruct (Hpost r' Hr') as [?|[? ?]]; destruct (tx_update (r_tx r)); intuition lia.
Qed.

(** The transactions executed one after the other return what they did, and the result is
    their combined effect. *)
Lemma serial_exec m0 rs : StronglySorted before rs -> (forall r, r ∈ rs -> rec_ok m0 rs r) ->
  forall pre post, rs = pre ++ post ->
  exists m, exec (mjoin (tx_calls <$> (r_tx <$> pre))) m0 = Some m /\ forall a, m a = effect pre m0 a.
Proof.
  intros Hs Hok pre. induction pre as [|r pre IH] using rev_ind; intros post Hrs; [by exists m0|].
  rewrite <- app_assoc in Hrs. simpl in Hrs. destruct (IH _ Hrs) as (m & He & Hm).
  destruct (rec_calls _ _ _ (Hok r ltac:(subst rs; set_solver)) m) as (m' & He' & Hm').
  { intros a Ha. rewrite Hm. by apply (effect_before m0 rs pre r post). }
  exists m'. rewrite !fmap_app, join_app, exec_app, He. csimpl. rewrite app_nil_r. split; [done|].
  intros a. rewrite Hm', effect_app. simpl. by apply apply_ext.
Qed.

(** The transactions up to a version are a prefix of the serial order. *)
Lemma snap_prefix m0 rs v : StronglySorted before rs -> (forall r, r ∈ rs -> rec_ok m0 rs r) ->
  exists pre post, rs = pre ++ post /\ (forall a, effect pre m0 a = snap m0 rs v a) /\
    (forall r, r ∈ rs -> r_ver r <= v -> r ∈ pre).
Proof.
  intros Hs Hok.
  assert (Hsplit : exists pre post, rs = pre ++ post /\ (forall r, r ∈ pre -> r_key r <= 2 * v + 1) /\ (forall r, r ∈ post -> 2 * v + 1 < r_key r)).
  { clear Hok. induction rs as [|r rs IH]; [exists [], []; split_and!; [done|intros ? []%not_elem_of_nil..]|].
    apply StronglySorted_inv in Hs as [Hs Hr]. destruct (Z.leb_spec (r_key r) (2 * v + 1)) as [Hle|Hlt].
    - destruct (IH Hs) as (pre & post & -> & H1 & H2). exists (r :: pre), post. split_and!; [done| |done].
      intros r' [-> |]%elem_of_cons; auto.
    - exists [], (r :: rs). split_and!; [done|intros ? []%not_elem_of_nil|]. rewrite Forall_forall in Hr.
      intros r' [-> |Hr']%elem_of_cons; [done|]. destruct (Hr r' Hr') as [?|[? ?]]; lia. }
  destruct Hsplit as (pre & post & Hrs & H1 & H2). exists pre, post. split_and!; [done| |].
  - intros a. unfold snap. rewrite Hrs at 1. rewrite filter_app, effect_app, (effect_none (filter _ post)).
    + symmetry. apply effect_filter_writers. intros r Hr Hw. specialize (H1 r Hr). unfold tx_key in H1.
      rewrite (writer_update m0 rs r a) in H1; [lia|apply Hok; subst rs; set_solver|done].
    + intros r [Hv Hr]%list_elem_of_filter Hw. specialize (H2 r Hr). unfold tx_key in H2.
      rewrite (writer_update m0 rs r a) in H2; [lia|apply Hok; subst rs; set_solver|done].
  - intros r Hr Hv. rewrite Hrs in Hr. apply elem_of_app in Hr as [|Hr]; [done|]. specialize (H2 r Hr). unfold tx_key in H2.
    destruct (tx_update _); lia.
Qed.

(** *** Adding a transaction *)

Lemma snap_rplace_rv m0 rs c :
  (if tx_update (r_tx c) then r_rv c < r_ver c else r_rv c = r_ver c /\ r_writes c = []) ->
  forall a, snap m0 (rplace c rs) (r_rv c) a = snap m0 rs (r_rv c) a.
Proof.
  intros Hk a. apply snap_rplace. destruct (tx_update (r_tx c)); [by right|]. destruct Hk as [_ ->]. left. apply not_elem_of_nil.
Qed.

Lemma rec_ok_old m0 rs c r :
  rec_ok m0 rs r -> (forall a, a ∈ r_reads r -> a ∈ waddr (r_writes c) -> r_ver r < r_ver c) -> rec_ok m0 (rplace c rs) r.
Proof.
  intros [H1 H2 H3 H4] Hc. split; [done|done| |].
  - eapply calls_ok_snap; [|exact H3]. intros a Ha. apply snap_rplace.
    destruct (decide (a ∈ waddr (r_writes c))) as [Hw|]; [|by left]. right. specialize (Hc a Ha Hw). destruct (tx_update _); lia.
  - intros a r' Ha Hr' Hne Hw. apply elem_of_rplace in Hr' as [-> |Hr']; [|by apply (H4 a r')]. right. by apply (Hc a).
Qed.

Lemma rec_ok_new m0 rs c :
  0 <= r_rv c -> (if tx_update (r_tx c) then r_rv c < r_ver c else r_rv c = r_ver c /\ r_writes c = []) ->
  calls_ok (snap m0 rs (r_rv c)) (r_reads c) (tx_calls (r_tx c)) (r_writes c) ->
  (forall a r, a ∈ r_reads c -> r ∈ rs -> a ∈ waddr (r_writes r) -> r_ver r <= r_rv c \/ r_ver c < r_ver r) ->
  rec_ok m0 (rplace c rs) c.
Proof.
  intros H0 Hk Hc Hcl. split; [done|done| |].
  - eapply calls_ok_snap; [|exact Hc]. intros a _. by apply snap_rplace_rv.
  - intros a r' Ha Hr' Hne Hw. apply elem_of_rplace in Hr' as [-> |Hr']; [done|by apply (Hcl a r')].
Qed.
