(* ===== verification/Tl2Inv.v ===== *)
(** * The TL2 software transactional memory: the invariant

    The invariant behind the theorems of [Tl2Props].  Ghosts: the version of every stripe as
    of its last release ([pv]) and as of the last commit ([cv]), the addresses each transaction
    has read from memory, and the committed transactions.  The heart of it is
    [inv_theta_rec], [inv_theta_live] and [inv_theta_val]: from the moment a committing
    transaction has read the clock, nobody who is ordered after it has read its stripes. *)

From stdpp Require Import functions.
From S2P Require Import Prelude Tl2 Tl2Spec.
Import Tl2.

(** ** Lock words *)

Lemma land_lockbit w : Z.land w LOCKBIT = Z.b2z (Z.odd w).
Proof.
  unfold LOCKBIT. change 1 with (Z.ones 1). rewrite Z.land_ones by lia. change (2 ^ 1) with 2. by rewrite Zmod_odd; destruct (Z.odd w).
Qed.

Lemma locked_odd w : locked w = Z.odd w.
Proof. unfold locked. rewrite land_lockbit. by destruct (Z.odd w). Qed.

Lemma locked_even w : Z.even w = true -> locked w = false.
Proof. intros H. rewrite locked_odd, <- Z.negb_even. by rewrite H. Qed.

Lemma land_lockbit_even p : Z.even p = true -> Z.land p LOCKBIT = 0.
Proof. intros H. by rewrite land_lockbit, <- Z.negb_even, H. Qed.

Lemma word_locked p : locked (Z.lor p LOCKBIT) = true.
Proof.
  unfold locked. rewrite Z.land_lor_distr_l. change (Z.land LOCKBIT LOCKBIT) with 1. rewrite land_lockbit.
  by destruct (Z.odd p).
Qed.

Lemma word_value p : Z.even p = true -> Z.lor p LOCKBIT = p + 1.
Proof.
  intros H. rewrite <- Z.lxor_lor by by apply land_lockbit_even. symmetry. by apply Z.add_nocarry_lxor, land_lockbit_even.
Qed.

Lemma word_pointer p : Z.even p = true -> Z.lxor (Z.lor p LOCKBIT) LOCKBIT = p.
Proof.
  intros H. rewrite <- Z.lxor_lor by by apply land_lockbit_even. by rewrite Z.lxor_assoc, Z.lxor_nilpotent, Z.lxor_0_r.
Qed.

Lemma word_masked p : Z.even p = true -> Z.land (Z.lor p LOCKBIT) (Z.lnot LOCKBIT) = p.
Proof.
  intros H. rewrite Z.land_lor_distr_l, <- Z.ldiff_land, <- Z.ldiff_land, Z.ldiff_diag, Z.lor_0_r.
  rewrite Z.ldiff_land. rewrite <- (Z.lor_0_r (Z.land _ _)), <- (land_lockbit_even p H), <- Z.land_lor_distr_r.
  by rewrite Z.lor_comm, Z.lor_lnot_diag, Z.land_m1_r.
Qed.

Lemma version_masked v : Z.even v = true -> Z.land v (Z.lnot LOCKBIT) = v.
Proof.
  intros H. rewrite <- (Z.lor_0_r (Z.land _ _)), <- (land_lockbit_even v H), <- Z.land_lor_distr_r.
  by rewrite Z.lor_comm, Z.lor_lnot_diag, Z.land_m1_r.
Qed.

(** The filter never forgets an address. *)
Lemma filter_hit f g : Z.land (Z.lor f g) g = g.
Proof. rewrite Z.land_lor_distr_l, Z.land_diag. apply Z.bits_inj'. intros n Hn. autorewrite with bits. btauto. Qed.

Lemma filter_keeps f g g' : Z.land f g' = g' -> Z.land (Z.lor f g) g' = g'.
Proof. intros H. rewrite Z.land_lor_distr_l, H. apply Z.bits_inj'. intros n Hn. autorewrite with bits. btauto. Qed.

(** ** What a thread is doing *)

Notation pairs x := (entries (wrSet (self x))).
Notation loads x := (entries (rdSet (self x))).
Notation rvof x := (rv (self x)).
Notation wvof x := (wv (self x)).

Definition stripes (x : tstate) : list Z := LockFor <$> pairs x.

(** Entry [i] holds the lock of stripe [l], whose version was [q]. *)
Definition held (x : tstate) (i : nat) (l q : Z) : Prop :=
  exists p, pairs x !! i = Some p /\ Held p = true /\ LockFor p = l /\ rdv p = q.

Definition covered (x : tstate) : Prop := forall l, l ∈ stripes x -> exists i q, held x i l q.

(** The transaction is committed, but not all of its stores or versions are written. *)
Definition committed (p : pc) : bool := match p with WriteBack _ | Drop _ => true | _ => false end.

(** The transaction is open: neither committed nor aborted. *)
Definition live (p : pc) : bool :=
  match p with Out | WriteBack _ | Drop _ | Restore _ => false | _ => true end.

(** The thread is in [TryFastUpdate] or [RestoreLocks]. *)
Definition holding (p : pc) : bool :=
  match p with
  | AcqLoad _ | AcqCas _ _ | SpinLoad _ _ | SpinCas _ _ _ | GvLoad | GvCas _ | Validate _ _ | WriteBack _ | Drop _ | Restore _ => true
  | _ => false
  end.

(** The least version the transaction may commit at. *)
Definition theta (x : tstate) : option Z :=
  match at_ x with GvCas gv => Some (gv + 1) | Validate _ _ => Some (wvof x) | _ => None end.

(** The stores still to be written back. *)
Definition pend (x : tstate) : list AVPair := match at_ x with WriteBack i => drop i (pairs x) | _ => [] end.

(** *** The logs and the locks of a thread *)

Definition pairs_ok (x : tstate) : Prop := forall p, p ∈ pairs x ->
  LockFor p = PSLOCK (Addr p) /\ Z.land (BloomFilter (self x)) (FILTERBITS (Addr p)) = FILTERBITS (Addr p).

(** Held stripes that were also read have the version the transaction may read. *)
Definition readable (x : tstate) : Prop := forall i l q, held x i l q -> l ∈ loads x -> q <= rvof x.

Definition locks_ok (x : tstate) : Prop :=
  match at_ x with
  | AcqLoad i | AcqCas i _ | SpinLoad i _ | SpinCas i _ _ =>
      (i < length (pairs x))%nat /\ (forall k l q, held x k l q -> (k < i)%nat) /\ readable x /\
      (forall k p, (k < i)%nat -> pairs x !! k = Some p -> exists j q, held x j (LockFor p) q)
  | GvLoad => readable x /\ covered x
  | GvCas gv => readable x /\ covered x /\ (forall k l q, held x k l q -> q <= gv)
  | Validate _ _ => readable x /\ covered x /\ (forall k l q, held x k l q -> q < wvof x)
  | WriteBack _ => covered x /\ (forall k l q, held x k l q -> q < wvof x)
  | Drop i => forall k l q, held x k l q -> (i <= k)%nat /\ q < wvof x
  | Restore i => forall k l q, held x k l q -> (i <= k)%nat
  | _ => forall k l q, ~ held x k l q
  end.

Definition clock_ok (clock : Z) (x : tstate) : Prop :=
  0 <= wvof x <= clock /\ Z.even (wvof x) = true /\
  match at_ x with
  | GvCas gv => rvof x <= gv <= clock /\ wvof x <= gv /\ Z.even gv = true
  | Validate _ _ => rvof x < wvof x
  | _ => True
  end.

(** *** The access in progress *)

Definition access_ok (hb : Z) (pv cv m : Z -> Z) (x : tstate) : Prop :=
  match at_ x with
  | LoadLock a => a ∉ waddr (pairs x)
  | LoadValu a q => a ∉ waddr (pairs x) /\ (q < hb -> q <= pv (PSLOCK a))
  | LoadCheck a q v => a ∉ waddr (pairs x) /\ (q < hb -> q <= pv (PSLOCK a) /\ (cv (PSLOCK a) = q -> m a = v))
  | StoreLock _ _ => IsRO (self x) = false
  | StoreValu a v q => IsRO (self x) = false /\ (locked q = false -> q <= pv (PSLOCK a))
  | StoreCheck a v q =>
      IsRO (self x) = false /\ a ∉ waddr (pairs x) /\ locked q = false /\ q <= rvof x /\ q <= pv (PSLOCK a) /\
      (cv (PSLOCK a) = q -> m a = v)
  | AcqCas i q => locked q = false /\ q <= rvof x
  | SpinLoad i _ => forall p, pairs x !! i = Some p -> LockFor p ∉ loads x
  | SpinCas i _ q => locked q = false /\ (forall p, pairs x !! i = Some p -> LockFor p ∉ loads x)
  | _ => True
  end.

(** *** The open transaction *)

Record live_ok (m0 : Z -> Z) (rs : list rec) (clock : Z) (cs : list call) (n : nat) (rd : list Z) (x : tstate) : Prop := {
  live_mode : Mode (self x) = TTXN;
  live_rv : 0 <= rvof x <= clock /\ Z.even (rvof x) = true;
  live_calls : calls_ok (snap m0 rs (rvof x)) rd cs (pairs x);
  live_since : forall r, r ∈ rs -> (r_no r < n)%nat -> r_ver r <= rvof x;
  live_ro : IsRO (self x) = true -> pairs x = [];
  live_tracked : IsRO (self x) = false -> forall a, a ∈ rd -> PSLOCK a ∈ loads x \/ exists j, at_ x = Scan (PSLOCK a) j
}.

(** What the validation so far has shown. *)
Definition valid_ok (rs : list rec) (x : tstate) : Prop :=
  forall j, at_ x = Validate j false -> forall r a, r ∈ rs -> a ∈ waddr (r_writes r) -> PSLOCK a ∈ take j (loads x) ->
  r_ver r <= rvof x \/ wvof x < r_ver r.

Record thread_ok (m0 : Z -> Z) (hb clock : Z) (m : Z -> Z) (h : history) (pv cv : Z -> Z) (rd : list Z) (rs : list rec) (t : nat) (x : tstate) : Prop := {
  th_pairs : pairs_ok x;
  th_locks : locks_ok x;
  th_holding : HoldsLocks (self x) = holding (at_ x);
  th_clock : clock_ok clock x;
  th_access : access_ok hb pv cv m x;
  th_live : live (at_ x) = true -> live_ok m0 rs clock (calls h t) (since h t) rd x;
  th_valid : valid_ok rs x;
  th_ro : holding (at_ x) = true -> live (at_ x) = true -> IsRO (self x) = false;
  th_since : (since h t <= commits h)%nat
}.

(** ** The invariant *)

Section invariant.
Context (avp : nat -> nat -> Z) (Owner Ordinal : Z -> nat) (hb : Z) (m0 : Z -> Z).

Definition word (t i : nat) : Z := Z.lor (avp t i) LOCKBIT.

(** The stores that will still go to an address. *)
Definition pending (s : system) (a : Z) : list AVPair :=
  let w := LockTab s (PSLOCK a) in
  if locked w then pend (threads s (Owner (Z.lxor w LOCKBIT))) else [].

(** A stripe is free at its version, or an entry holds it. *)
Definition lock_ok (s : system) (pv cv : Z -> Z) (l : Z) : Prop :=
  (LockTab s l = pv l /\ cv l = pv l) \/
  exists t i, LockTab s l = word t i /\ held (threads s t) i l (pv l) /\
    (if committed (at_ (threads s t)) then cv l = wvof (threads s t) else cv l = pv l).

Record inv (s : system) (h : history) (pv cv : Z -> Z) (rd : nat -> list Z) (rs : list rec) : Prop := {
  inv_clock : Z.even (_GCLOCK s) = true /\ 0 <= _GCLOCK s < hb;
  inv_lock : forall l, lock_ok s pv cv l;
  inv_ver : forall l, Z.even (pv l) = true /\ 0 <= pv l <= cv l /\ cv l <= _GCLOCK s;
  inv_held : forall t i l q, held (threads s t) i l q -> LockTab s l = word t i;
  inv_mem : forall a, apply (pending s a) (mem s) a = effect rs m0 a;
  inv_writers : forall r a, r ∈ rs -> a ∈ waddr (r_writes r) -> r_ver r <= cv (PSLOCK a);
  inv_sorted : StronglySorted before rs;
  inv_recs : forall r, r ∈ rs -> rec_ok m0 rs r /\ (r_no r < commits h)%nat /\ (tx_since (r_tx r) <= r_no r)%nat /\ r_ver r <= _GCLOCK s;
  inv_real : forall r r', r ∈ rs -> r' ∈ rs -> (r_no r' < tx_since (r_tx r))%nat -> r_ver r' <= r_rv r;
  inv_serial : serial h = r_tx <$> rs;
  inv_theta_rec : forall t v r a, theta (threads s t) = Some v -> r ∈ rs -> v <= r_ver r -> a ∈ r_reads r ->
    PSLOCK a ∉ stripes (threads s t);
  inv_theta_live : forall t u v a, theta (threads s t) = Some v -> u <> t -> live (at_ (threads s u)) = true ->
    v <= rvof (threads s u) -> a ∈ rd u -> PSLOCK a ∉ stripes (threads s t);
  inv_theta_val : forall t u v j l, theta (threads s t) = Some v -> u <> t -> at_ (threads s u) = Validate j false ->
    v <= wvof (threads s u) -> l ∈ take j (loads (threads s u)) -> l ∉ stripes (threads s t);
  inv_thread : forall t, thread_ok m0 hb (_GCLOCK s) (mem s) h pv cv (rd t) rs t (threads s t)
}.

Context (Howner : forall t i, Owner (avp t i) = t) (Hordinal : forall t i, Ordinal (avp t i) = i)
  (Heven : forall t i, Z.even (avp t i) = true) (Hbase : forall t i, hb <= avp t i) (Hhb : hb <= 2 ^ 32 - 2).

Lemma word_is_locked t i : locked (word t i) = true.
Proof. apply word_locked. Qed.

Lemma word_owner t i : Owner (Z.lxor (word t i) LOCKBIT) = t.
Proof. unfold word. by rewrite word_pointer, Howner. Qed.

Lemma word_ordinal t i : Ordinal (Z.lxor (word t i) LOCKBIT) = i.
Proof. unfold word. by rewrite word_pointer, Hordinal. Qed.

Lemma word_inj t i u j : word t i = word u j -> t = u /\ i = j.
Proof.
  intros H. split; [rewrite <- (word_owner t i), H; apply word_owner|rewrite <- (word_ordinal t i), H; apply word_ordinal].
Qed.

Lemma mine_word t u i : mine Owner t (word u i) = Nat.eqb u t.
Proof. unfold mine. by rewrite word_is_locked, word_owner. Qed.

Lemma mine_locked t w : locked w = false -> mine Owner t w = false.
Proof. unfold mine. by intros ->. Qed.

(** *** Reading the invariant *)

Section facts.
Context {s : system} {h : history} {pv cv : Z -> Z} {rd : nat -> list Z} {rs : list rec}.
Context (Hinv : inv s h pv cv rd rs).

Lemma free_stripe l : locked (LockTab s l) = false ->
  LockTab s l = pv l /\ cv l = pv l /\ forall t i q, ~ held (threads s t) i l q.
Proof using Hinv.
  intros Hf. destruct (inv_lock _ _ _ _ _ _ Hinv l) as [[H1 H2]|(t & i & Hw & _)].
  - split_and!; [done..|]. intros t i q Hh. rewrite (inv_held _ _ _ _ _ _ Hinv t i l q Hh), word_is_locked in Hf. done.
  - by rewrite Hw, word_is_locked in Hf.
Qed.

Lemma free_pv l : locked (pv l) = false.
Proof using Hinv. apply locked_even, (inv_ver _ _ _ _ _ _ Hinv l). Qed.

Lemma held_fact t i l q : held (threads s t) i l q ->
  LockTab s l = word t i /\ q = pv l /\ (if committed (at_ (threads s t)) then cv l = wvof (threads s t) else cv l = pv l).
Proof using Hinv Heven Howner Hordinal.
  intros Hh. pose proof (inv_held _ _ _ _ _ _ Hinv t i l q Hh) as Hw. destruct (inv_lock _ _ _ _ _ _ Hinv l) as [[H1 H2]|(u & j & Hw' & Hh' & Hc)].
  - pose proof (free_pv l) as Hf. by rewrite <- H1, Hw, word_is_locked in Hf.
  - rewrite Hw in Hw'. apply word_inj in Hw' as [<- <-]. split_and!; [done| |done].
    destruct Hh as (p & Hp & _ & _ & <-), Hh' as (p' & Hp' & _ & _ & <-). by simplify_eq.
Qed.

Lemma held_unique t i u j l q q' : held (threads s t) i l q -> held (threads s u) j l q' -> t = u /\ i = j.
Proof using Hinv Heven Howner Hordinal.
  intros H1%held_fact H2%held_fact. apply word_inj. destruct H1 as [<- _], H2 as [<- _]. done.
Qed.

(** Before it commits, a transaction that has read the clock holds all its stripes. *)
Lemma theta_covered t v : theta (threads s t) = Some v -> covered (threads s t).
Proof using Hinv.
  intros Ht. pose proof (th_locks _ _ _ _ _ _ _ _ _ _ _ (inv_thread _ _ _ _ _ _ Hinv t)) as Hl. unfold theta, locks_ok in *.
  destruct (at_ (threads s t)); try done; tauto.
Qed.

Lemma theta_locked t v l : theta (threads s t) = Some v -> l ∈ stripes (threads s t) -> exists i, LockTab s l = word t i.
Proof using Hinv.
  intros Ht Hl. destruct (theta_covered t v Ht l Hl) as (i & q & Hh). exists i. by apply (inv_held _ _ _ _ _ _ Hinv t i l q).
Qed.

Lemma theta_locked_not t v l : theta (threads s t) = Some v -> locked (LockTab s l) = false -> l ∉ stripes (threads s t).
Proof using Hinv. intros Ht Hf Hl. destruct (theta_locked t v l Ht Hl) as [i Hi]. by rewrite Hi, word_is_locked in Hf. Qed.

Lemma theta_mine_not t u v l : u <> t -> theta (threads s t) = Some v -> mine Owner u (LockTab s l) = true -> l ∉ stripes (threads s t).
Proof using Hinv Heven Howner.
  intros Hne Ht Hm Hl. destruct (theta_locked t v l Ht Hl) as [i Hi]. rewrite Hi, mine_word in Hm. by apply Nat.eqb_eq in Hm.
Qed.
End facts.

(** *** Steps that change one thread only *)

Lemma threads_eq t x s : threads (put_thread t x s) t = x.
Proof. apply fn_lookup_insert. Qed.

Lemma threads_ne t u x s : u <> t -> threads (put_thread t x s) u = threads s u.
Proof. intros. by apply fn_lookup_insert_ne. Qed.

(** What others see of a thread stays the same, or becomes harmless. *)
Record quiet (s : system) (rd rd' : list Z) (t : nat) (x x' : tstate) : Prop := {
  q_held : forall i l q, held x' i l q <-> held x i l q;
  q_committed : forall i l q, held x i l q -> committed (at_ x') = committed (at_ x) /\ (committed (at_ x) = true -> wvof x' = wvof x);
  q_pend : pend x' = pend x;
  q_theta : forall v, theta x' = Some v ->
    (exists v0, theta x = Some v0 /\ v0 <= v /\ stripes x' = stripes x) \/ _GCLOCK s < v;
  q_live : live (at_ x') = true -> rd' = [] \/
    (live (at_ x) = true /\ rvof x' = rvof x /\ forall a, a ∈ rd' -> a ∈ rd \/ locked (LockTab s (PSLOCK a)) = false);
  q_valid : forall j l, at_ x' = Validate j false -> l ∈ take j (loads x') ->
    (exists j0, at_ x = Validate j0 false /\ wvof x' = wvof x /\ l ∈ take j0 (loads x)) \/
    locked (LockTab s l) = false \/ mine Owner t (LockTab s l) = true
}.

Definition same_others (t : nat) (h h' : history) : Prop :=
  (forall u, u <> t -> calls h' u = calls h u /\ since h' u = since h u) /\ commits h' = commits h /\ serial h' = serial h.

Lemma thread_ok_history clock m h h' pv cv rd rs t x :
  calls h' t = calls h t -> since h' t = since h t -> commits h' = commits h ->
  thread_ok m0 hb clock m h pv cv rd rs t x -> thread_ok m0 hb clock m h' pv cv rd rs t x.
Proof. intros E1 E2 E3 []. split; try done; by rewrite ?E1, ?E2, ?E3. Qed.

Lemma local_step s h h' pv cv rd rd' rs t x' :
  inv s h pv cv rd rs -> same_others t h h' -> (forall u, u <> t -> rd' u = rd u) ->
  quiet s (rd t) (rd' t) t (threads s t) x' ->
  thread_ok m0 hb (_GCLOCK s) (mem s) h' pv cv (rd' t) rs t x' ->
  inv (put_thread t x' s) h' pv cv rd' rs.
Proof.
  intros Hinv (Hu & Hcm & Hser) Hrd Hq Hth. pose proof Hinv as [H1 H2 H3 H4 H5 H6 H7 H8 H9 H10 H11 H12 H13 H14].
  split; [done| |done| | |done|done| |done|by rewrite Hser| | | |]; cbn [LockTab mem _GCLOCK put_thread].
  - intros l. destruct (H2 l) as [|(u & i & Hw & Hh & Hc)]; [by left|right]. exists u, i. split; [done|].
    destruct (decide (u = t)) as [-> |]; [|by rewrite threads_ne]. rewrite threads_eq. destruct (q_committed _ _ _ _ _ _ Hq _ _ _ Hh) as [-> Hwv].
    split; [by apply (q_held _ _ _ _ _ _ Hq)|]. destruct (committed _) eqn:Ec; [|done]. by rewrite Hwv.
  - intros u i l q. destruct (decide (u = t)) as [-> |]; [|rewrite threads_ne by done; apply H4].
    rewrite threads_eq. intros Hh. by apply (H4 _ _ _ q), (q_held _ _ _ _ _ _ Hq).
  - intros a. rewrite <- H5. unfold pending. cbn [LockTab put_thread]. destruct (locked _); [|done]. f_equal.
    set (u := Owner _). destruct (decide (u = t)) as [-> |]; [|by rewrite threads_ne]. rewrite threads_eq. apply (q_pend _ _ _ _ _ _ Hq).
  - intros r Hr. destruct (H8 r Hr) as (? & ? & ? & ?). rewrite Hcm. done.
  - intros u v r a. destruct (decide (u = t)) as [-> |]; [|rewrite threads_ne by done; apply H11]. rewrite threads_eq. intros Hv Hr Hle Ha.
    destruct (q_theta _ _ _ _ _ _ Hq v Hv) as [(v0 & Hv0 & Hle0 & ->)|Hlt]; [apply (H11 t v0 r); [done|done|lia|done]|].
    destruct (H8 r Hr) as (_ & _ & _ & ?). lia.
  - intros u w v a. destruct (decide (u = t)) as [-> |Hut]; destruct (decide (w = t)) as [-> |Hwt]; rewrite ?threads_eq, ?threads_ne by done; intros Hv Hne; [done| | |].
    + rewrite Hrd by done. intros Hl Hle Ha. destruct (q_theta _ _ _ _ _ _ Hq v Hv) as [(v0 & Hv0 & Hle0 & ->)|Hlt]; [apply (H12 t w v0 a); [done..|lia|done]|].
      pose proof (live_rv _ _ _ _ _ _ _ (th_live _ _ _ _ _ _ _ _ _ _ _ (H14 w) Hl)). lia.
    + intros Hl Hle Ha. destruct (q_live _ _ _ _ _ _ Hq Hl) as [Hnil|(Hl0 & Hrv & Hold)]; [by rewrite Hnil in Ha; apply not_elem_of_nil in Ha|].
      destruct (Hold a Ha) as [Ha'|Hf]; [|by apply (theta_locked_not Hinv u v)]. apply (H12 u t v a); [done..|by rewrite <- Hrv|done].
    + rewrite Hrd by done. by apply H12.
  - intros u w v j l. destruct (decide (u = t)) as [-> |Hut]; destruct (decide (w = t)) as [-> |Hwt]; rewrite ?threads_eq, ?threads_ne by done; intros Hv Hne; [done| | |].
    + intros Hj Hle Hl. destruct (q_theta _ _ _ _ _ _ Hq v Hv) as [(v0 & Hv0 & Hle0 & ->)|Hlt]; [apply (H13 t w v0 j); [done..|lia|done]|].
      pose proof (th_clock _ _ _ _ _ _ _ _ _ _ _ (H14 w)) as [? _]. lia.
    + intros Hj Hle Hl. destruct (q_valid _ _ _ _ _ _ Hq j l Hj Hl) as [(j0 & Hj0 & Hw0 & Hl0)|[Hf|Hm]].
      * apply (H13 u t v j0); [done..|by rewrite <- Hw0|done].
      * by apply (theta_locked_not Hinv u v).
      * by apply (theta_mine_not Hinv u t v).
    + by apply H13.
  - intros u. destruct (decide (u = t)) as [-> |]; [by rewrite threads_eq|]. rewrite threads_ne, Hrd by done.
    destruct (Hu u) as [? ?]; [done|]. by eapply thread_ok_history; [..|apply H14].
Qed.

(** *** The clock advances *)

Lemma clock_ok_mono c c' x : c <= c' -> clock_ok c x -> clock_ok c' x.
Proof. intros Hle (H1 & H2 & H3). split_and!; [lia|lia|done|]. destruct (at_ x); try done. intuition lia. Qed.

Lemma live_ok_clock rs c c' cs n rd x : c <= c' -> live_ok m0 rs c cs n rd x -> live_ok m0 rs c' cs n rd x.
Proof. intros Hle []. split; try done. intuition lia. Qed.

Lemma clock_raise s h pv cv rd rs c :
  inv s h pv cv rd rs -> _GCLOCK s <= c < hb -> Z.even c = true ->
  inv (mkSys (LockTab s) (mem s) c (threads s)) h pv cv rd rs.
Proof.
  intros [H1 H2 H3 H4 H5 H6 H7 H8 H9 H10 H11 H12 H13 H14] Hc Hev. split; try done; cbn [LockTab mem _GCLOCK threads].
  - split; [done|lia].
  - intros l. destruct (H3 l). split; [done|lia].
  - intros r Hr. destruct (H8 r Hr) as (? & ? & ? & ?). split_and!; [done..|lia].
  - intros u. destruct (H14 u) as [P1 P2 P3 P4 P5 P6 P7 P8]. split; try done; [by eapply clock_ok_mono; [apply Hc|]|].
    intros Hl. eapply live_ok_clock; [apply Hc|auto].
Qed.

(** *** A lock is taken or released *)

Lemma access_ok_release pv pv' cv m x :
  (forall l, pv l <= pv' l) -> access_ok hb pv cv m x -> access_ok hb pv' cv m x.
Proof.
  intros Hle. unfold access_ok. destruct (at_ x) as [| |a|a q|a q v|a v|a v q|a v q|l j|i|i q|i c|i c q| |gv|j dx|i|i|i]; try done;
    pose proof (Hle (PSLOCK a)); intuition lia.
Qed.

Lemma stripe_step s h pv pv' cv rd rs t x' l w :
  inv s h pv cv rd rs ->
  (locked (LockTab s l) = false \/ mine Owner t (LockTab s l) = true) ->
  (w = pv' l /\ cv l = pv' l \/ exists i, w = word t i /\ held x' i l (pv' l) /\
     (if committed (at_ x') then cv l = wvof x' else cv l = pv' l)) ->
  (forall i l' q, l' <> l -> held x' i l' q <-> held (threads s t) i l' q) ->
  (forall i q, held x' i l q -> w = word t i) ->
  (forall l', l' <> l -> pv' l' = pv l') -> pv l <= pv' l <= cv l -> Z.even (pv' l) = true ->
  committed (at_ x') = committed (at_ (threads s t)) -> wvof x' = wvof (threads s t) ->
  pend x' = [] -> pend (threads s t) = [] -> theta x' = None ->
  (live (at_ x') = true -> live (at_ (threads s t)) = true /\ rvof x' = rvof (threads s t)) ->
  (forall j, at_ x' <> Validate j false) ->
  thread_ok m0 hb (_GCLOCK s) (mem s) h pv' cv (rd t) rs t x' ->
  inv (put_thread t x' (put_lock l w s)) h pv' cv rd rs.
Proof.
  intros Hinv Hown Hnew Hheld Hw Hpv Hle Hev Hcm Hwv Hp' Hp Hth Hlive Hval Hok.
  pose proof Hinv as [H1 H2 H3 H4 H5 H6 H7 H8 H9 H10 H11 H12 H13 H14].
  assert (Hfree : forall u i q, held (threads s u) i l q -> u = t).
  { intros u i q Hh. apply H4 in Hh as Hw'. destruct Hown as [Hf|Hm]; [by rewrite Hw', word_is_locked in Hf|].
    rewrite Hw', mine_word in Hm. by apply Nat.eqb_eq in Hm. }
  assert (Hin : forall u v, theta (threads s u) = Some v -> u <> t -> l ∉ stripes (threads s u)).
  { intros u v Hv Hne Hl. destruct (theta_covered Hinv u v Hv l Hl) as (i & q & Hh). by apply Hfree in Hh. }
  assert (Hlock : forall l', l' <> l -> <[l := w]> (LockTab s) l' = LockTab s l') by (intros; by apply fn_lookup_insert_ne).
  assert (Hlock' : <[l := w]> (LockTab s) l = w) by apply fn_lookup_insert.
  assert (Hpend : forall u, pend (if decide (u = t) then x' else threads s u) = pend (threads s u)).
  { intros u. case_decide; [subst; by rewrite Hp, Hp'|done]. }
  assert (Hthr : forall u, threads (put_thread t x' (put_lock l w s)) u = if decide (u = t) then x' else threads s u).
  { intros u. case_decide; [subst; apply threads_eq|by rewrite threads_ne]. }
  split; [done| | | | |done|done|done|done|done| | | |]; cbn [LockTab mem _GCLOCK put_thread put_lock].
  - intros l'. unfold lock_ok. cbn [LockTab put_thread put_lock]. destruct (decide (l' = l)) as [-> |Hne].
    + rewrite Hlock'. destruct Hnew as [Hnew|(i & Hi & Hh & Hc)]; [by left|right]. exists t, i. by rewrite threads_eq.
    + rewrite Hlock, Hpv by done. destruct (H2 l') as [|(u & i & Hu & Hh & Hc)]; [by left|right]. exists u, i. split; [done|].
      destruct (decide (u = t)) as [-> |]; [|by rewrite threads_ne]. rewrite threads_eq, Hcm, Hwv. split; [by apply Hheld|done].
  - intros l'. destruct (H3 l'). destruct (decide (l' = l)) as [-> |Hne]; [split; [done|lia]|]. by rewrite Hpv.
  - intros u i l' q. destruct (decide (u = t)) as [-> |Hut]; [rewrite threads_eq|rewrite threads_ne by done]; intros Hh.
    + destruct (decide (l' = l)) as [-> |]; [rewrite Hlock'; by apply (Hw i q)|]. rewrite Hlock by done. by apply (H4 t i l' q), Hheld.
    + rewrite Hlock; [by apply (H4 u i l' q)|]. intros ->. by apply Hfree in Hh.
  - intros a. rewrite <- H5. unfold pending. cbn [LockTab put_thread put_lock]. destruct (decide (PSLOCK a = l)) as [Ha|Ha].
    + rewrite Ha, Hlock'.
      assert (Hold : (if locked (LockTab s l) then pend (threads s (Owner (Z.lxor (LockTab s l) LOCKBIT))) else []) = []).
      { destruct Hown as [-> |Hm]; [done|]. unfold mine in Hm. apply andb_true_iff in Hm as [-> ->%Nat.eqb_eq]. done. }
      rewrite Hold. destruct Hnew as [[-> _]|(i & -> & _)]; [by rewrite (locked_even _ Hev)|].
      by rewrite word_is_locked, word_owner, threads_eq, Hp'.
    + by rewrite Hlock, Hthr, Hpend.
  - intros u v r a. rewrite Hthr. case_decide as Eu; [by rewrite Hth|]. apply H11.
  - intros u k v a. rewrite !Hthr. case_decide; [by rewrite Hth|]. intros Hv Hne. case_decide as Ek; [subst k|by apply H12].
    intros Hl Hle' Ha. destruct (Hlive Hl) as [Hl0 Hrv]. apply (H12 u t v a); [done..|by rewrite <- Hrv|done].
  - intros u k v j l'. rewrite !Hthr. case_decide; [by rewrite Hth|]. intros Hv Hne. case_decide; [|by apply H13]. intros Hj. by apply Hval in Hj.
  - intros u. rewrite Hthr. case_decide as E; [by subst|]. destruct (H14 u) as [P1 P2 P3 P4 P5 P6 P7 P8]. split; try done.
    eapply access_ok_release; [|exact P5]. intros l'. destruct (decide (l' = l)) as [-> |]; [lia|]. by rewrite Hpv.
Qed.

(** *** A store is written back *)

Lemma access_ok_mem pv cv cv' m m' x :
  (forall a q, q <= pv (PSLOCK a) -> cv' (PSLOCK a) = q -> cv (PSLOCK a) = q /\ m' a = m a) ->
  access_ok hb pv cv m x -> access_ok hb pv cv' m' x.
Proof.
  intros Hm. unfold access_ok. destruct (at_ x) as [| |a|a q|a q v|a v|a v q|a v q|l j|i|i q|i c|i c q| |gv|j dx|i|i|i]; try done.
  - intros (H1 & H2). split; [done|]. intros Hq. destruct (H2 Hq) as [H3 H4]. split; [done|]. intros Hc.
    destruct (Hm a q H3 Hc) as [Hc' ->]. auto.
  - intros (H1 & H2 & H3 & H4 & H5 & H6). split_and!; try done. intros Hc. destruct (Hm a q H5 Hc) as [Hc' ->]. auto.
Qed.

Lemma mem_step s h pv cv rd rs t i e :
  inv s h pv cv rd rs -> at_ (threads s t) = WriteBack i -> pairs (threads s t) !! i = Some e ->
  inv (put_thread t (mkT (self (threads s t)) (WriteBack (S i)) (local (threads s t))) (put_mem (Addr e) (Valu e) s)) h pv cv rd rs.
Proof.
  intros Hinv Hat He. set (x := threads s t) in *. set (x' := mkT _ _ _).
  pose proof Hinv as [H1 H2 H3 H4 H5 H6 H7 H8 H9 H10 H11 H12 H13 H14].
  pose proof (H14 t) as Ht. fold x in Ht. pose proof (th_locks _ _ _ _ _ _ _ _ _ _ _ Ht) as Hlk. unfold locks_ok in Hlk. rewrite Hat in Hlk.
  destruct Hlk as [Hcov Hlt].
  assert (Hein : e ∈ pairs x) by by eapply list_elem_of_lookup_2.
  pose proof (th_pairs _ _ _ _ _ _ _ _ _ _ _ Ht e Hein) as [Hps _].
  destruct (Hcov (PSLOCK (Addr e))) as (k & q & Hk); [apply list_elem_of_fmap; by exists e|].
  pose proof (held_fact Hinv t k _ q Hk) as (Hw & Hq & Hcv). fold x in Hcv. rewrite Hat in Hcv. simpl in Hcv. pose proof (Hlt _ _ _ Hk) as Hlt'. subst q.
  assert (Hheld : forall u k l q, held (if decide (u = t) then x' else threads s u) k l q <-> held (threads s u) k l q).
  { intros u k' l q. case_decide; [by subst|done]. }
  assert (Hthr : forall u, threads (put_thread t x' (put_mem (Addr e) (Valu e) s)) u = if decide (u = t) then x' else threads s u).
  { intros u. case_decide; [subst; apply threads_eq|by rewrite threads_ne]. }
  split; [done| |done| | |done|done|done|done|done| | | |]; cbn [LockTab mem _GCLOCK put_thread put_mem].
  - intros l. destruct (H2 l) as [|(u & j & Hu & Hh & Hc)]; [by left|right]. exists u, j. split; [done|]. rewrite Hthr, Hheld.
    split; [done|]. case_decide; [subst u|done]. fold x in Hc. by rewrite Hat in Hc.
  - intros u j l q. rewrite Hthr, Hheld. apply H4.
  - intros b. rewrite <- H5. unfold pending. cbn [LockTab put_thread put_mem]. destruct (locked (LockTab s (PSLOCK b))) eqn:El.
    + rewrite Hthr. case_decide as Eo.
      * rewrite Eo. fold x. unfold pend. rewrite Hat. simpl. by rewrite (drop_S _ _ _ He).
      * apply apply_ext. rewrite fn_insert_spec. case_decide as Eb; [|done]. subst b. by rewrite Hw, word_owner in Eo.
    + simpl. rewrite fn_insert_spec. case_decide as Eb; [|done]. subst b. by rewrite Hw, word_is_locked in El.
  - intros u v r a. rewrite Hthr. case_decide as Eu; [done|apply H11].
  - intros u k' v a. rewrite !Hthr. case_decide as Eu; [done|]. case_decide as Ek; [done|apply H12].
  - intros u k' v j l. rewrite !Hthr. case_decide as Eu; [done|]. case_decide as Ek; [done|apply H13].
  - intros u. rewrite Hthr. case_decide as Eu.
    + subst u. destruct Ht as [P1 P2 P3 P4 P5 P6 P7 P8]. split; try done; [by rewrite Hat in P3|].
      destruct P4 as (? & ? & _). done.
    + destruct (H14 u) as [P1 P2 P3 P4 P5 P6 P7 P8]. split; try done. eapply access_ok_mem; [|exact P5].
      intros a q Hle Hc. split; [done|]. rewrite fn_insert_spec. case_decide; [subst a|done]. lia.
Qed.

(** *** A transaction commits *)

Lemma thread_ok_record clock m h h' pv cv cv' rd rs t x c :
  thread_ok m0 hb clock m h pv cv rd rs t x ->
  calls h' t = calls h t -> since h' t = since h t -> (commits h <= commits h')%nat ->
  (since h t <= r_no c)%nat ->
  (forall l q, q <= pv l -> cv' l = q -> cv l = q) ->
  (forall a, live (at_ x) = true -> a ∈ rd -> a ∈ waddr (r_writes c) -> rvof x < r_ver c) ->
  (forall j a, at_ x = Validate j false -> a ∈ waddr (r_writes c) -> PSLOCK a ∈ take j (loads x) -> wvof x < r_ver c) ->
  thread_ok m0 hb clock m h' pv cv' rd (rplace c rs) t x.
Proof.
  intros [P1 P2 P3 P4 P5 P6 P7 P8] Ec Es Hn Hno Hcv Hlive Hval. split; try done.
  - eapply access_ok_mem; [|exact P5]. intros a q Hle Hc. split; [by eapply Hcv|done].
  - intros Hl. destruct (P6 Hl) as [L1 L2 L3 L4 L5 L6]. rewrite Ec, Es. split; try done.
    + eapply calls_ok_snap; [|exact L3]. intros a Ha. apply snap_rplace.
      destruct (decide (a ∈ waddr (r_writes c))); [right; by eapply Hlive|by left].
    + intros r Hr Hlt. apply elem_of_rplace in Hr as [-> |Hr]; [lia|auto].
  - intros j Hj r a Hr Ha Hl. apply elem_of_rplace in Hr as [-> |Hr]; [right; by eapply Hval|by eapply P7].
  - rewrite Es. lia.
Qed.

Lemma effect_rplace_notin c l m a : a ∉ waddr (r_writes c) -> effect (rplace c l) m a = effect l m a.
Proof.
  intros Ha. rewrite <- (effect_filter_writers (fun _ => True) (rplace c l)), <- (effect_filter_writers (fun _ => True) l) by done.
  apply effect_rplace_skip. by left.
Qed.

(** The committed transactions after one more. *)
Lemma recs_place rs n clock c :
  StronglySorted before rs ->
  (forall r, r ∈ rs -> rec_ok m0 rs r /\ (r_no r < n)%nat /\ (tx_since (r_tx r) <= r_no r)%nat /\ r_ver r <= clock) ->
  (forall r r', r ∈ rs -> r' ∈ rs -> (r_no r' < tx_since (r_tx r))%nat -> r_ver r' <= r_rv r) ->
  r_no c = n -> (tx_since (r_tx c) <= n)%nat -> r_ver c <= clock -> rec_ok m0 (rplace c rs) c ->
  (forall r, r ∈ rs -> (r_no r < tx_since (r_tx c))%nat -> r_ver r <= r_rv c) ->
  (forall r a, r ∈ rs -> a ∈ r_reads r -> a ∈ waddr (r_writes c) -> r_ver r < r_ver c) ->
  StronglySorted before (rplace c rs) /\
  (forall r, r ∈ rplace c rs -> rec_ok m0 (rplace c rs) r /\ (r_no r < S n)%nat /\ (tx_since (r_tx r) <= r_no r)%nat /\ r_ver r <= clock) /\
  (forall r r', r ∈ rplace c rs -> r' ∈ rplace c rs -> (r_no r' < tx_since (r_tx r))%nat -> r_ver r' <= r_rv r).
Proof.
  intros Hs Hok Hreal Hno Hsince Hv Hc Hcs Hnew. split_and!.
  - apply rplace_sorted; [done|]. intros r Hr. rewrite Hno. apply (Hok r Hr).
  - intros r Hr. apply elem_of_rplace in Hr as [-> |Hr]; [split_and!; [done|lia..]|]. destruct (Hok r Hr) as (? & ? & ? & ?).
    split_and!; [|lia..]. apply rec_ok_old; [done|]. intros a Ha Hw. by apply (Hnew r a).
  - intros r r' Hr Hr' Hlt. apply elem_of_rplace in Hr as [-> |Hr], Hr' as [-> |Hr']; [lia|auto| |by apply (Hreal r r')].
    destruct (Hok r Hr) as (_ & ? & ? & _). lia.
Qed.

Lemma reader_commit s h pv cv rd rs t x' :
  inv s h pv cv rd rs -> let x := threads s t in
  at_ x = Ready -> pairs x = [] -> at_ x' = Out -> pairs x' = [] -> HoldsLocks (self x') = false -> wvof x' = wvof x ->
  exists rs', inv (put_thread t x' s) (observe h (ECommit t (rvof x) false)) pv cv rd rs'.
Proof.
  intros Hinv x Hat Hnil Hat' Hnil' Hho Hwv. pose proof Hinv as [H1 H2 H3 H4 H5 H6 H7 H8 H9 H10 H11 H12 H13 H14].
  pose proof (H14 t) as Ht. fold x in Ht. destruct (th_live _ _ _ _ _ _ _ _ _ _ _ Ht) as [L1 L2 L3 L4 L5 L6]; [by rewrite Hat|].
  pose proof (th_since _ _ _ _ _ _ _ _ _ _ _ Ht) as Hsi. pose proof (th_clock _ _ _ _ _ _ _ _ _ _ _ Ht) as (Hc1 & Hc2 & _).
  set (c := mkRec (mkTx (commits h) (since h t) (rvof x) false (calls h t)) (rvof x) (rd t) []). exists (rplace c rs).
  assert (Hnw : forall a, a ∉ waddr (r_writes c)) by (intros a; apply not_elem_of_nil).
  assert (Hth : forall u v, theta (threads s u) = Some v -> u <> t) by (intros u v Hu ->; fold x in Hu; unfold theta in Hu; by rewrite Hat in Hu).
  destruct (recs_place rs (commits h) (_GCLOCK s) c) as (R1 & R2 & R3); try done; [simpl; lia| |intros r a _ _ Ha; by apply Hnw in Ha|].
  { apply rec_ok_new; simpl; [lia|done|by rewrite <- Hnil|]. intros a r Ha Hr Hw.
    destruct (Z.le_gt_cases (r_ver r) (rvof x)); [by left|by right]. }
  apply (local_step s (mkHist (calls h) (since h) (S (commits h)) (serial (observe h (ECommit t (rvof x) false)))) _ pv cv rd); try done.
  - split; try done; simpl.
    + intros a. rewrite H5, effect_rplace_notin; auto.
    + intros r a Hr Ha. apply elem_of_rplace in Hr as [-> |Hr]; [by apply Hnw in Ha|by apply H6].
    + by rewrite rplace_tx, H10.
    + intros u v r a Hu Hr Hle Ha. apply elem_of_rplace in Hr as [-> |Hr]; [|by apply (H11 u v r)].
      apply (H12 u t v); [done|intros <-; by apply Hth in Hu|fold x; by rewrite Hat|done|done].
    + intros u. eapply thread_ok_record; [apply H14|done|done|simpl; lia| |done|intros a _ _ Ha; by apply Hnw in Ha|intros j a _ Ha; by apply Hnw in Ha].
      simpl. apply (th_since _ _ _ _ _ _ _ _ _ _ _ (H14 u)).
  - split_and!; [|done..]. intros u Hu. simpl. by rewrite fn_lookup_insert_ne.
  - assert (Hn : forall k l q, ~ held x' k l q) by (intros k l q (p & Hp & _); by rewrite Hnil' in Hp).
    assert (Hn0 : forall k l q, ~ held x k l q) by (intros k l q (p & Hp & _); by rewrite Hnil in Hp).
    fold x. split; rewrite ?Hat, ?Hat'; try done.
    + intros i l q. split; intros Hh; exfalso; [by eapply Hn|by eapply Hn0].
    + unfold pend. by rewrite Hat, Hat'.
    + unfold theta. by rewrite Hat'.
  - assert (Hn : forall k l q, ~ held x' k l q) by (intros k l q (p & Hp & _); by rewrite Hnil' in Hp).
    split; simpl; rewrite ?Hat'; try done.
    + intros p Hp. rewrite Hnil' in Hp. by apply not_elem_of_nil in Hp.
    + unfold locks_ok. by rewrite Hat'.
    + unfold clock_ok. by rewrite Hat', Hwv.
    + unfold access_ok. by rewrite Hat'.
    + intros j Hj. by rewrite Hat' in Hj.
    + lia.
Qed.

(** The version of the stripes of a transaction that commits. *)
Definition bump (x : tstate) (cv : Z -> Z) (l : Z) : Z := if decide (l ∈ stripes x) then wvof x else cv l.

Section update.
Context (s : system) (h : history) (pv cv : Z -> Z) (rd : nat -> list Z) (rs : list rec) (t j : nat).
Context (Hinv : inv s h pv cv rd rs).
Let x := threads s t.
Context (Hat : at_ x = Validate j false) (Hend : loads x !! j = None).
Let x' := mkT (self x) (WriteBack 0) (local x).
Let c := mkRec (mkTx (commits h) (since h t) (wvof x) true (calls h t)) (rvof x) (rd t) (pairs x).

Lemma update_theta : theta x = Some (wvof x).
Proof using Hat. unfold theta. by rewrite Hat. Qed.

Lemma update_stripe a : a ∈ waddr (pairs x) -> PSLOCK a ∈ stripes x.
Proof using Hinv.
  intros (e & -> & He)%list_elem_of_fmap. apply list_elem_of_fmap. exists e. split; [|done]. symmetry.
  apply (th_pairs _ _ _ _ _ _ _ _ _ _ _ (inv_thread _ _ _ _ _ _ Hinv t) e He).
Qed.

(** Each stripe of the transaction is locked by it, at an older version. *)
Lemma update_held l : l ∈ stripes x ->
  exists i, LockTab s l = word t i /\ held x i l (pv l) /\ cv l = pv l /\ pv l < wvof x.
Proof using Hinv Hat Heven Howner Hordinal.
  intros Hl. destruct (theta_covered Hinv t _ update_theta l Hl) as (i & q & Hh). fold x in Hh.
  destruct (held_fact Hinv t i l q Hh) as (Hw & -> & Hc). fold x in Hc. rewrite Hat in Hc. exists i. split_and!; [done..|].
  pose proof (th_locks _ _ _ _ _ _ _ _ _ _ _ (inv_thread _ _ _ _ _ _ Hinv t)) as Hlk. fold x in Hlk. unfold locks_ok in Hlk. rewrite Hat in Hlk.
  by apply Hlk in Hh.
Qed.

Lemma update_tracked a : a ∈ rd t -> PSLOCK a ∈ take j (loads x).
Proof using Hinv Hat Hend.
  intros Ha. pose proof (inv_thread _ _ _ _ _ _ Hinv t) as Ht. fold x in Ht.
  rewrite take_ge by by apply lookup_ge_None.
  destruct (th_live _ _ _ _ _ _ _ _ _ _ _ Ht) as [_ _ _ _ _ L6]; [by rewrite Hat|].
  destruct (L6 ltac:(by apply (th_ro _ _ _ _ _ _ _ _ _ _ _ Ht); rewrite Hat) a Ha) as [|[k Hk]]; [done|congruence].
Qed.

Lemma update_recs :
  StronglySorted before (rplace c rs) /\
  (forall r, r ∈ rplace c rs -> rec_ok m0 (rplace c rs) r /\ (r_no r < S (commits h))%nat /\
    (tx_since (r_tx r) <= r_no r)%nat /\ r_ver r <= _GCLOCK s) /\
  (forall r r', r ∈ rplace c rs -> r' ∈ rplace c rs -> (r_no r' < tx_since (r_tx r))%nat -> r_ver r' <= r_rv r).
Proof using Hinv Hat Hend.
  pose proof Hinv as [_ _ _ _ _ _ H7 H8 H9 _ H11 _ _ H14]. pose proof (H14 t) as Ht. fold x in Ht.
  destruct (th_live _ _ _ _ _ _ _ _ _ _ _ Ht) as [L1 L2 L3 L4 L5 L6]; [by rewrite Hat|].
  pose proof (th_clock _ _ _ _ _ _ _ _ _ _ _ Ht) as (Hc1 & Hc2 & Hc3). rewrite Hat in Hc3.
  apply recs_place; try done.
  - apply (th_since _ _ _ _ _ _ _ _ _ _ _ Ht).
  - simpl; lia.
  - apply rec_ok_new; simpl; [lia|done|done|]. intros a r Ha Hr Hw.
    apply (th_valid _ _ _ _ _ _ _ _ _ _ _ Ht j Hat r a Hr Hw). by apply update_tracked.
  - intros r a Hr Ha Hw. destruct (Z.lt_ge_cases (r_ver r) (r_ver c)) as [|Hge]; [done|exfalso].
    eapply (H11 t _ r a update_theta); [done|done|done|]. by apply update_stripe.
Qed.

Lemma update_mem a : apply (pending (put_thread t x' s) a) (mem s) a = effect (rplace c rs) m0 a.
Proof using Hinv Hat Heven Howner Hordinal.
  pose proof Hinv as [H1 H2 H3 H4 H5 H6 H7 H8 H9 H10 H11 H12 H13 H14].
  destruct (decide (PSLOCK a ∈ stripes x)) as [Hl|Hl].
  - destruct (update_held _ Hl) as (i & Hw & Hh & Hcv & Hlt). rewrite effect_rplace_last; [|done|].
    + unfold pending. cbn [LockTab put_thread]. rewrite Hw, word_is_locked, word_owner, threads_eq. change (pend x') with (drop 0 (pairs x)). change (drop 0 (pairs x)) with (pairs x).
      apply apply_ext. rewrite <- H5. unfold pending. rewrite Hw, word_is_locked, word_owner. fold x. unfold pend. by rewrite Hat.
    + intros r Hr Ha. pose proof (H6 r a Hr Ha). unfold tx_key. rewrite (writer_update _ _ _ _ (proj1 (H8 r Hr)) Ha). simpl. lia.
  - rewrite effect_rplace_notin by (intros Ha; by apply Hl, update_stripe). rewrite <- H5. unfold pending. cbn [LockTab put_thread].
    destruct (locked _) eqn:El; [|done]. destruct (H2 (PSLOCK a)) as [[Hw _]|(u & i & Hw & Hh & _)].
    { by rewrite Hw, (free_pv Hinv) in El. }
    rewrite Hw, word_owner. rewrite threads_ne; [done|]. intros ->. apply Hl. destruct Hh as (p & Hp & _ & <- & _).
    apply list_elem_of_fmap. exists p. split; [done|]. by eapply list_elem_of_lookup_2.
Qed.

Lemma bump_keeps l q : q <= pv l -> bump x cv l = q -> cv l = q.
Proof using Hinv Hat Heven Howner Hordinal.
  unfold bump. case_decide as Hl; [|done]. destruct (update_held l Hl) as (i & _ & _ & _ & Hlt). lia.
Qed.

Lemma update_commit :
  inv (put_thread t x' s) (observe h (ECommit t (wvof x) true)) pv (bump x cv) rd (rplace c rs).
Proof using Hinv Hat Hend Heven Howner Hordinal.
  pose proof Hinv as [H1 H2 H3 H4 H5 H6 H7 H8 H9 H10 H11 H12 H13 H14]. pose proof (H14 t) as Ht. fold x in Ht.
  pose proof (th_clock _ _ _ _ _ _ _ _ _ _ _ Ht) as (Hc1 & Hc2 & Hc3). rewrite Hat in Hc3.
  destruct update_recs as (R1 & R2 & R3).
  assert (Hthr : forall u, threads (put_thread t x' s) u = if decide (u = t) then x' else threads s u).
  { intros u. case_decide; [subst; apply threads_eq|by rewrite threads_ne]. }
  assert (Hheld : forall u k l q, held (if decide (u = t) then x' else threads s u) k l q <-> held (threads s u) k l q).
  { intros u k' l q. case_decide; [by subst|done]. }
  split; [done| | | |exact update_mem| |done|done|done| | | | |]; cbn [LockTab mem _GCLOCK put_thread].
  - intros l. unfold lock_ok, bump. cbn [LockTab put_thread]. case_decide as Hl.
    + right. destruct (update_held l Hl) as (i & Hw & Hh & _). exists t, i. by rewrite threads_eq.
    + destruct (H2 l) as [|(u & i & Hw & Hh & Hc)]; [by left|right]. exists u, i. rewrite Hthr, Hheld. split_and!; [done..|].
      case_decide as Eu; [subst u|done]. exfalso. apply Hl. destruct Hh as (p & Hp & _ & <- & _).
      apply list_elem_of_fmap. exists p. split; [done|]. by eapply list_elem_of_lookup_2.
  - intros l. destruct (H3 l) as (E1 & E2 & E3). unfold bump. case_decide as Hl; [|done].
    destruct (update_held l Hl) as (i & _ & _ & _ & Hlt). split; [done|lia].
  - intros u i l q. rewrite Hthr, Hheld. apply H4.
  - intros r a Hr Ha. unfold bump. apply elem_of_rplace in Hr as [-> |Hr].
    + rewrite decide_True; [done|]. by apply update_stripe.
    + pose proof (H6 r a Hr Ha). case_decide as Hl; [|done]. destruct (update_held _ Hl) as (i & _ & _ & Hcv & Hlt). lia.
  - simpl. by rewrite rplace_tx, H10.
  - intros u v r a. rewrite Hthr. case_decide as Eu; [done|]. intros Hu Hr Hle Ha. apply elem_of_rplace in Hr as [-> |Hr]; [|by apply (H11 u v r)].
    apply (H13 u t v j); [done|congruence|done|done|]. by apply update_tracked.
  - intros u k v a. rewrite !Hthr. case_decide as Eu; [done|]. case_decide as Ek; [done|apply H12].
  - intros u k v i l. rewrite !Hthr. case_decide as Eu; [done|]. case_decide as Ek; [done|apply H13].
  - intros u. rewrite Hthr. case_decide as Eu.
    + subst u. destruct Ht as [P1 P2 P3 P4 P5 P6 P7 P8]. split; try done; [|by rewrite Hat in P3|simpl; lia].
      unfold locks_ok in *. rewrite Hat in P2. simpl. tauto.
    + eapply thread_ok_record; [apply H14| |done|simpl; lia|apply (th_since _ _ _ _ _ _ _ _ _ _ _ (H14 u))|apply bump_keeps| |].
      * simpl. by rewrite fn_lookup_insert_ne.
      * intros a Hl Ha Hw. destruct (Z.lt_ge_cases (rvof (threads s u)) (wvof x)) as [|Hge]; [done|exfalso].
        eapply (H12 t u _ a update_theta); [done|done|done|done|]. by apply update_stripe.
      * intros k a Hk Hw Hl. destruct (Z.lt_ge_cases (wvof (threads s u)) (wvof x)) as [|Hge]; [done|exfalso].
        eapply (H13 t u _ k (PSLOCK a) update_theta); [done|done|done|done|]. by apply update_stripe.
Qed.
End update.

End invariant.
