(* ===== verification/Tl2Steps.v ===== *)
(** * The TL2 software transactional memory: the steps

    Every step of the machine of [Tl2] preserves the invariant of [Tl2Inv]. *)

From stdpp Require Import functions.
From S2P Require Import Prelude Tl2 Tl2Spec Tl2Inv.
Import Tl2.

Section steps.
Context (avp : nat -> nat -> Z) (Owner Ordinal : Z -> nat) (hb : Z) (m0 : Z -> Z).
Context (Howner : forall t i, Owner (avp t i) = t) (Hordinal : forall t i, Ordinal (avp t i) = i)
  (Heven : forall t i, Z.even (avp t i) = true) (Hbase : forall t i, hb <= avp t i) (Hhb : hb <= 2 ^ 32 - 2).

Notation inv := (inv avp Owner hb m0).
Notation word := (word avp).
Notation thread_ok := (thread_ok m0 hb).
Notation quiet := (quiet Owner).

Definition good (s : system) (h : history) : Prop := exists pv cv rd rs, inv s h pv cv rd rs.

Lemma result_good r s' es h : Some r = Some (s', es) -> good r.1 (foldl observe h r.2) -> good s' (foldl observe h es).
Proof. by intros [= ->]. Qed.

(** ** Histories *)

Lemma same_others_refl t h : same_others t h h.
Proof. done. Qed.

Lemma same_others_call t h c : same_others t h (observe h (ECall t c)).
Proof. split_and!; [|done..]. intros u Hu. simpl. by rewrite fn_lookup_insert_ne. Qed.

Lemma same_others_begin t h : same_others t h (observe h (EBegin t)).
Proof. split_and!; [|done..]. intros u Hu. simpl. by rewrite !fn_lookup_insert_ne. Qed.

Lemma same_others_abort t h : same_others t h (observe h (EAbort t)).
Proof. split_and!; [|done..]. intros u Hu. simpl. by rewrite fn_lookup_insert_ne. Qed.

(** ** Quiet steps *)

Lemma pend_uncommitted x : committed (at_ x) = false -> pend x = [].
Proof. unfold pend. by destruct (at_ x). Qed.

Lemma held_pairs x x' i l q : pairs x' = pairs x -> held x' i l q <-> held x i l q.
Proof. unfold held. by intros ->. Qed.

(** A step that keeps the write set of an uncommitted transaction. *)
Lemma quiet_same s rd rd' t x x' :
  pairs x' = pairs x -> committed (at_ x) = false -> committed (at_ x') = false ->
  (forall v, theta x' = Some v -> (exists v0, theta x = Some v0 /\ v0 <= v) \/ _GCLOCK s < v) ->
  (live (at_ x') = true -> rd' = [] \/
    (live (at_ x) = true /\ rvof x' = rvof x /\ forall a, a ∈ rd' -> a ∈ rd \/ locked (LockTab s (PSLOCK a)) = false)) ->
  (forall j l, at_ x' = Validate j false -> l ∈ take j (loads x') ->
    (exists j0, at_ x = Validate j0 false /\ wvof x' = wvof x /\ l ∈ take j0 (loads x)) \/
    locked (LockTab s l) = false \/ mine Owner t (LockTab s l) = true) ->
  quiet s rd rd' t x x'.
Proof.
  intros Hp Hc Hc' Ht Hl Hv. split; try done.
  - intros i l q. by apply held_pairs.
  - by rewrite Hc, Hc'.
  - by rewrite !pend_uncommitted.
  - intros v Hth. destruct (Ht v Hth) as [(v0 & ? & ?)|]; [left|by right]. exists v0. unfold stripes. by rewrite Hp.
Qed.

(** A thread that holds no lock and is in no transaction but its own. *)
Definition plain (p : pc) : bool :=
  match p with
  | Out | Ready | LoadLock _ | LoadValu _ _ | LoadCheck _ _ _ | StoreLock _ _ | StoreValu _ _ _ | StoreCheck _ _ _ | Scan _ _ => true
  | _ => false
  end.

Lemma plain_facts x : plain (at_ x) = true ->
  committed (at_ x) = false /\ theta x = None /\ holding (at_ x) = false /\ (forall j dx, at_ x <> Validate j dx) /\
  (locks_ok x <-> forall k l q, ~ held x k l q).
Proof. unfold theta, locks_ok. by destruct (at_ x). Qed.

Lemma quiet_plain s rd rd' t x x' :
  plain (at_ x) = true -> plain (at_ x') = true -> locks_ok x -> locks_ok x' ->
  (live (at_ x') = true -> rd' = [] \/
    (live (at_ x) = true /\ rvof x' = rvof x /\ forall a, a ∈ rd' -> a ∈ rd \/ locked (LockTab s (PSLOCK a)) = false)) ->
  quiet s rd rd' t x x'.
Proof.
  intros Hx Hx' Hl Hl' Hlive. destruct (plain_facts x Hx) as (C1 & T1 & _ & V1 & E1), (plain_facts x' Hx') as (C2 & T2 & _ & V2 & E2).
  pose proof (proj1 E1 Hl) as Hn. pose proof (proj1 E2 Hl') as Hn'. split; try done.
  - intros i l q. split; intros Hh; exfalso; [by eapply Hn'|by eapply Hn].
  - by rewrite C1, C2.
  - by rewrite !pend_uncommitted.
  - by rewrite T2.
  - intros j l Hj. by apply V2 in Hj.
Qed.

(** A plain thread that moves on. *)
Lemma thread_ok_plain clock m h h' pv cv rd rd' rs t x x' :
  thread_ok clock m h pv cv rd rs t x -> plain (at_ x') = true -> HoldsLocks (self x') = false ->
  pairs_ok x' -> (forall k l q, ~ held x' k l q) -> wvof x' = wvof x -> access_ok hb pv cv m x' ->
  (live (at_ x') = true -> live_ok m0 rs clock (calls h' t) (since h' t) rd' x') -> (since h' t <= commits h')%nat ->
  thread_ok clock m h' pv cv rd' rs t x'.
Proof.
  intros Ht Hp Hho Hps Hheld Hwv Hacc Hlive Hsi. destruct (plain_facts x' Hp) as (C & T & Hh & V & E).
  pose proof (th_clock _ _ _ _ _ _ _ _ _ _ _ Ht) as (K1 & K2 & _). split; try done.
  - by apply E.
  - by rewrite Hh.
  - unfold clock_ok. rewrite Hwv. split_and!; [lia..|done|]. by destruct (at_ x').
  - intros j Hj. by apply V in Hj.
  - by rewrite Hh.
Qed.

Lemma plain_step s h h' pv cv rd rd' rs t x' :
  inv s h pv cv rd rs -> plain (at_ (threads s t)) = true -> same_others t h h' -> (forall u, u <> t -> rd' u = rd u) ->
  plain (at_ x') = true -> HoldsLocks (self x') = false -> pairs_ok x' -> (forall k l q, ~ held x' k l q) ->
  wvof x' = wvof (threads s t) -> access_ok hb pv cv (mem s) x' -> (since h' t <= commits h')%nat ->
  (live (at_ x') = true -> live_ok m0 rs (_GCLOCK s) (calls h' t) (since h' t) (rd' t) x' /\
    (rd' t = [] \/ (live (at_ (threads s t)) = true /\ rvof x' = rvof (threads s t) /\
      forall a, a ∈ rd' t -> a ∈ rd t \/ locked (LockTab s (PSLOCK a)) = false))) ->
  inv (put_thread t x' s) h' pv cv rd' rs.
Proof.
  intros Hinv Hpl Hso Hrd Hpl' Hho Hps Hh Hwv Hacc Hsi Hlive. pose proof (inv_thread _ _ _ _ _ _ _ _ _ _ Hinv t) as Ht.
  eapply local_step; [done..| |].
  - apply quiet_plain; [done|done|apply (th_locks _ _ _ _ _ _ _ _ _ _ _ Ht)| |apply Hlive].
    by apply (plain_facts x' Hpl').
  - eapply thread_ok_plain; try done. apply Hlive.
Qed.

Lemma unheld_iff x : (forall k l q, ~ held x k l q) <-> Forall (fun p => Held p = false) (pairs x).
Proof.
  rewrite Forall_lookup. split.
  - intros H i p Hp. destruct (Held p) eqn:E; [|done]. exfalso. apply (H i (LockFor p) (rdv p)). by exists p.
  - intros H k l q (p & Hp & Hh & _). apply H in Hp. congruence.
Qed.

(** ** Facts about a thread in a transaction *)

Section thread.
Context {s : system} {h : history} {pv cv : Z -> Z} {rd : nat -> list Z} {rs : list rec} (t : nat).
Context (Hinv : inv s h pv cv rd rs).
Let x := threads s t.

Lemma thread_fact : thread_ok (_GCLOCK s) (mem s) h pv cv (rd t) rs t x.
Proof using Hinv. apply (inv_thread _ _ _ _ _ _ _ _ _ _ Hinv). Qed.

Lemma plain_unheld : plain (at_ x) = true -> forall k l q, ~ held x k l q.
Proof using Hinv. intros Hp. by apply (plain_facts x Hp), (th_locks _ _ _ _ _ _ _ _ _ _ _ thread_fact). Qed.

Lemma plain_holds : plain (at_ x) = true -> HoldsLocks (self x) = false.
Proof using Hinv. intros Hp. rewrite (th_holding _ _ _ _ _ _ _ _ _ _ _ thread_fact). by apply (plain_facts x Hp). Qed.

Lemma live_fact : live (at_ x) = true -> live_ok m0 rs (_GCLOCK s) (calls h t) (since h t) (rd t) x.
Proof using Hinv. apply (th_live _ _ _ _ _ _ _ _ _ _ _ thread_fact). Qed.

(** A free stripe at a version the transaction may read holds the values of its snapshot. *)
Lemma free_snap a v : locked (LockTab s (PSLOCK a)) = false -> pv (PSLOCK a) <= v -> snap m0 rs v a = mem s a.
Proof using Hinv.
  intros Hf Hv. destruct (free_stripe _ _ _ _ Hinv _ Hf) as (_ & Hc & _). rewrite snap_full.
  - rewrite <- (inv_mem _ _ _ _ _ _ _ _ _ _ Hinv a). unfold pending. by rewrite Hf.
  - intros r Hr Ha. pose proof (inv_writers _ _ _ _ _ _ _ _ _ _ Hinv r a Hr Ha). lia.
Qed.
End thread.

(** ** Aborts *)

(** The thread with which a transaction aborts differs in nothing that matters. *)
Definition doomed (x y : tstate) : Prop :=
  pairs y = pairs x /\ BloomFilter (self y) = BloomFilter (self x) /\ wvof y = wvof x /\ HoldsLocks (self y) = HoldsLocks (self x).

Lemma doomed_refl x : doomed x x.
Proof. done. Qed.

Lemma abort_good s h pv cv rd rs t y :
  inv s h pv cv rd rs -> live (at_ (threads s t)) = true -> doomed (threads s t) y ->
  good (TxAbort t y s).1 (foldl observe h (TxAbort t y s).2).
Proof.
  intros Hinv Hl (Hp & Hb & Hwv & Hho). exists pv, cv, rd, rs. pose proof (thread_fact t Hinv) as Ht. cbn [TxAbort fst snd foldl].
  set (x := threads s t) in *. match goal with |- context [put_thread t ?X s] => set (x' := X) end.
  assert (Hp' : pairs x' = pairs x /\ BloomFilter (self x') = BloomFilter (self x) /\ wvof x' = wvof x).
  { unfold x'. simpl. by destruct (HoldsLocks (self y)). }
  destruct Hp' as (Hp' & Hb' & Hw'). pose proof (th_holding _ _ _ _ _ _ _ _ _ _ _ Ht) as Hx. rewrite <- Hho in Hx.
  assert (Hat : at_ x' = if holding (at_ x) then Restore 0 else Out).
  { unfold x'. simpl. rewrite <- Hx. by destruct (HoldsLocks (self y)). }
  assert (Hst : HoldsLocks (self x') = holding (at_ x')).
  { rewrite Hat. unfold x'. simpl. rewrite <- Hx. destruct (HoldsLocks (self y)) eqn:E; simpl; by rewrite E. }
  assert (Hf : committed (at_ x') = false /\ theta x' = None /\ live (at_ x') = false /\ (forall j dx, at_ x' <> Validate j dx)).
  { unfold theta. rewrite Hat. by destruct (holding (at_ x)). }
  destruct Hf as (F1 & F2 & F3 & F4).
  apply (local_step avp Owner hb m0 Howner Heven s h _ pv cv rd); [done|apply same_others_abort|done| |].
  - apply quiet_same; try done; fold x; [by destruct (at_ x)|by rewrite F2|by rewrite F3|by intros j l Hj; apply F4 in Hj].
  - pose proof (th_clock _ _ _ _ _ _ _ _ _ _ _ Ht) as (K1 & K2 & _). split; try done.
    + intros p. rewrite Hp', Hb'. apply (th_pairs _ _ _ _ _ _ _ _ _ _ _ Ht).
    + unfold locks_ok. rewrite Hat. destruct (holding (at_ x)) eqn:E; [intros; lia|]. intros k l q Hh. apply (held_pairs x) in Hh; [|done].
      pose proof (th_locks _ _ _ _ _ _ _ _ _ _ _ Ht) as Hlk. unfold locks_ok in Hlk.
      destruct (at_ x); simplify_eq/=; by eapply Hlk.
    + unfold clock_ok. rewrite Hw', Hat. split_and!; [lia..|done|]. by destruct (holding (at_ x)).
    + unfold access_ok. rewrite Hat. by destruct (holding (at_ x)).
    + by rewrite F3.
    + intros j Hj. by apply F4 in Hj.
    + by rewrite F3.
    + apply (th_since _ _ _ _ _ _ _ _ _ _ _ Ht).
Qed.

(** ** Loads and stores *)

Lemma history_step s h h' pv cv rd rs t :
  inv s h pv cv rd rs -> same_others t h h' -> thread_ok (_GCLOCK s) (mem s) h' pv cv (rd t) rs t (threads s t) ->
  inv s h' pv cv rd rs.
Proof.
  intros [] (Hu & Hc & Hs) Ht. split; try done.
  - intros r Hr. rewrite Hc. auto.
  - by rewrite Hs.
  - intros u. destruct (decide (u = t)) as [-> |Hne]; [done|]. destruct (Hu u Hne) as [E1 E2]. by eapply thread_ok_history; eauto.
Qed.

(** A thread goes on to the next access of a load or store. *)
Lemma goto_plain s h pv cv rd rs t p :
  inv s h pv cv rd rs -> let x := threads s t in let x' := mkT (self x) p (local x) in
  plain (at_ x) = true -> live (at_ x) = true -> plain p = true ->
  (forall l j, at_ x = Scan l j -> exists j', p = Scan l j') -> access_ok hb pv cv (mem s) x' ->
  inv (put_thread t x' s) h pv cv rd rs.
Proof.
  intros Hinv x x' Hpl Hl Hpl' Hsc Hacc. pose proof (thread_fact t Hinv) as Ht. fold x in Ht.
  apply (plain_step s h h pv cv rd rd rs t x' Hinv Hpl); try done.
  - by apply (plain_holds t Hinv).
  - apply (th_pairs _ _ _ _ _ _ _ _ _ _ _ Ht).
  - by apply (plain_unheld t Hinv).
  - apply (th_since _ _ _ _ _ _ _ _ _ _ _ Ht).
  - intros _. destruct (live_fact t Hinv Hl) as [L1 L2 L3 L4 L5 L6]. split; [|right; auto]. split; try done.
    intros Hro a Ha. destruct (L6 Hro a Ha) as [|[j Hj]]; [by left|]. right. by apply (Hsc _ j).
Qed.

Lemma start_good s h pv cv rd rs t ro :
  inv s h pv cv rd rs -> at_ (threads s t) = Out ->
  good (TxStart t ro (threads s t) s).1 (foldl observe h (TxStart t ro (threads s t) s).2).
Proof.
  intros Hinv Hat. exists pv, cv, (<[t := []]> rd), rs. cbn [TxStart fst snd foldl].
  pose proof (inv_clock _ _ _ _ _ _ _ _ _ _ Hinv) as [E1 E2].
  match goal with |- context [put_thread t ?X s] => set (x' := X) end.
  apply (plain_step s h _ pv cv rd _ rs t x' Hinv); try done.
  - by rewrite Hat.
  - apply same_others_begin.
  - intros u Hu. by rewrite fn_lookup_insert_ne.
  - intros p Hp. by apply not_elem_of_nil in Hp.
  - intros k l q (p & Hp & _). done.
  - simpl. by rewrite fn_lookup_insert.
  - intros _. simpl. rewrite !fn_lookup_insert. split; [|by left]. split; simpl; try done.
    + unfold GVRead. split; [lia|done].
    + apply calls_ok_nil.
    + intros r Hr _. apply (inv_recs _ _ _ _ _ _ _ _ _ _ Hinv r Hr).
    + intros _ a Ha. by apply not_elem_of_nil in Ha.
Qed.

Lemma load_good s h pv cv rd rs t a s' es :
  inv s h pv cv rd rs -> at_ (threads s t) = Ready -> TxLoad t a (threads s t) s = Some (s', es) ->
  good s' (foldl observe h es).
Proof.
  intros Hinv Hat H. exists pv, cv, rd, rs. unfold TxLoad in H. set (x := threads s t) in *.
  assert (Hgo : a ∉ waddr (pairs x) -> inv (put_thread t (mkT (self x) (LoadLock a) (local x)) s) h pv cv rd rs).
  { intros Ha. apply goto_plain; fold x; rewrite ?Hat; try done. }
  pose proof (thread_fact t Hinv) as Ht. fold x in Ht. destruct (Z.eqb_spec (Z.land (BloomFilter (self x)) (FILTERBITS a)) (FILTERBITS a)) as [Hf|Hf].
  - destruct (last_index a (pairs x)) as [i|] eqn:Ei; simpl in H.
    + destruct (last_index_Some _ _ _ Ei) as (e & He & Ha & Hv). rewrite He in H. simpl in H. injection H as <- <-. simpl.
      apply (history_step s h _ pv cv rd rs t Hinv); [apply same_others_call|]. fold x.
      destruct (live_fact t Hinv) as [L1 L2 L3 L4 L5 L6]; [fold x; by rewrite Hat|].
      destruct Ht as [P1 P2 P3 P4 P5 P6 P7 P8]. split; try done. intros _. simpl. rewrite fn_lookup_insert. split; try done.
      by apply calls_ok_own.
    + injection H as <- <-. by apply Hgo, last_index_None.
  - injection H as <- <-. apply Hgo. intros (e & -> & He)%list_elem_of_fmap. apply Hf. by apply (th_pairs _ _ _ _ _ _ _ _ _ _ _ Ht).
Qed.

Lemma store_good s h pv cv rd rs t a v :
  inv s h pv cv rd rs -> at_ (threads s t) = Ready ->
  good (TxStore t a v (threads s t) s).1 (foldl observe h (TxStore t a v (threads s t) s).2).
Proof.
  intros Hinv Hat. unfold TxStore. destruct (IsRO (self (threads s t))) eqn:Hro.
  - apply (abort_good s h pv cv rd rs); [done|by rewrite Hat|done].
  - exists pv, cv, rd, rs. simpl. apply goto_plain; rewrite ?Hat; done.
Qed.

Lemma store_local_good s h pv cv rd rs t a v :
  inv s h pv cv rd rs -> at_ (threads s t) = Ready ->
  good (TxStoreLocal t a v (threads s t) s).1 (foldl observe h (TxStoreLocal t a v (threads s t) s).2).
Proof.
  intros Hinv Hat. exists pv, cv, rd, rs. pose proof (thread_fact t Hinv) as Ht. simpl.
  match goal with |- context [put_thread t ?X s] => set (x' := X) end.
  apply (plain_step s h h pv cv rd rd rs t x' Hinv); try done; simpl; rewrite ?Hat; try done.
  - apply (plain_holds t Hinv). by rewrite Hat.
  - apply (th_pairs _ _ _ _ _ _ _ _ _ _ _ Ht).
  - apply (plain_unheld t Hinv). by rewrite Hat.
  - unfold access_ok, x'. simpl. by rewrite Hat.
  - apply (th_since _ _ _ _ _ _ _ _ _ _ _ Ht).
  - intros _. destruct (live_fact t Hinv) as [L1 L2 L3 L4 L5 L6]; [by rewrite Hat|]. split; [|right; auto]. by split.
Qed.

Lemma put_entries {A} (k : Log A) e : entries (put_entry k e) = entries k ++ [e].
Proof. unfold put_entry. by destruct (at_end k). Qed.

Lemma load_lock_good s h pv cv rd rs t a :
  inv s h pv cv rd rs -> let x := threads s t in at_ x = LoadLock a ->
  good (goto t (LoadValu a (Z.land (LockTab s (PSLOCK a)) (Z.lnot LOCKBIT))) x s).1 h.
Proof.
  intros Hinv x Hat. exists pv, cv, rd, rs. pose proof (thread_fact t Hinv) as Ht. fold x in Ht.
  pose proof (th_access _ _ _ _ _ _ _ _ _ _ _ Ht) as Ha. unfold access_ok in Ha. rewrite Hat in Ha.
  apply goto_plain; fold x; rewrite ?Hat; try done. simpl. split; [done|]. intros Hq.
  destruct (inv_lock _ _ _ _ _ _ _ _ _ _ Hinv (PSLOCK a)) as [[Hw _]|(u & i & Hw & _)].
  - rewrite Hw, version_masked; [lia|]. apply (inv_ver _ _ _ _ _ _ _ _ _ _ Hinv).
  - rewrite Hw in Hq. unfold Tl2Inv.word in Hq. rewrite word_masked in Hq by done. specialize (Hbase u i). lia.
Qed.

Lemma load_valu_good s h pv cv rd rs t a q :
  inv s h pv cv rd rs -> let x := threads s t in at_ x = LoadValu a q ->
  good (goto t (LoadCheck a q (mem s a)) x s).1 h.
Proof.
  intros Hinv x Hat. exists pv, cv, rd, rs. pose proof (thread_fact t Hinv) as Ht. fold x in Ht.
  pose proof (th_access _ _ _ _ _ _ _ _ _ _ _ Ht) as Ha. unfold access_ok in Ha. rewrite Hat in Ha.
  apply goto_plain; fold x; rewrite ?Hat; try done. destruct Ha. split; [done|]. intros Hq. split; [auto|done].
Qed.

Lemma store_lock_good s h pv cv rd rs t a v :
  inv s h pv cv rd rs -> let x := threads s t in at_ x = StoreLock a v ->
  good (goto t (StoreValu a v (LockTab s (PSLOCK a))) x s).1 h.
Proof.
  intros Hinv x Hat. exists pv, cv, rd, rs. pose proof (thread_fact t Hinv) as Ht. fold x in Ht.
  pose proof (th_access _ _ _ _ _ _ _ _ _ _ _ Ht) as Ha. unfold access_ok in Ha. rewrite Hat in Ha.
  apply goto_plain; fold x; rewrite ?Hat; try done. simpl. split; [done|]. intros Hq.
  destruct (free_stripe _ _ _ _ Hinv _ Hq) as [-> _]. lia.
Qed.

(** A value read from a free stripe is the value of the snapshot. *)
Lemma read_step s h pv cv rd rs t a c x' :
  inv s h pv cv rd rs -> let x := threads s t in
  plain (at_ x) = true -> live (at_ x) = true -> (forall l j, at_ x <> Scan l j) -> a ∉ waddr (pairs x) ->
  locked (LockTab s (PSLOCK a)) = false -> pv (PSLOCK a) <= rvof x -> (c = Ld a (mem s a) \/ c = St a (mem s a)) ->
  doomed x x' -> Mode (self x') = Mode (self x) -> rvof x' = rvof x -> IsRO (self x') = IsRO (self x) ->
  (at_ x' = Ready \/ at_ x' = Scan (PSLOCK a) 0) ->
  (IsRO (self x) = false -> (forall l, l ∈ loads x -> l ∈ loads x') /\ (PSLOCK a ∈ loads x' \/ at_ x' = Scan (PSLOCK a) 0)) ->
  inv (put_thread t x' s) (observe h (ECall t c)) pv cv (<[t := a :: rd t]> rd) rs.
Proof.
  intros Hinv x Hpl Hl Hsc Ha Hf Hv Hc (Dp & Db & Dw & Dh) Hm Hrv Hro Hat Htr.
  pose proof (thread_fact t Hinv) as Ht. fold x in Ht. pose proof (free_snap Hinv a (rvof x) Hf Hv) as Hsn.
  apply (plain_step s h _ pv cv rd _ rs t x' Hinv Hpl); fold x; try done.
  - apply same_others_call.
  - intros u Hu. by rewrite fn_lookup_insert_ne.
  - by destruct Hat as [-> | ->].
  - rewrite Dh. by apply (plain_holds t Hinv).
  - intros p. rewrite Dp, Db. apply (th_pairs _ _ _ _ _ _ _ _ _ _ _ Ht).
  - intros k l q Hh. apply (held_pairs x) in Hh; [|done]. by eapply (plain_unheld t Hinv).
  - unfold access_ok. by destruct Hat as [-> | ->].
  - apply (th_since _ _ _ _ _ _ _ _ _ _ _ Ht).
  - intros _. rewrite fn_lookup_insert. destruct (live_fact t Hinv Hl) as [L1 L2 L3 L4 L5 L6]. fold x in L1, L2, L3, L4, L5, L6. split.
    + split; simpl; rewrite ?fn_lookup_insert, ?Hm, ?Hrv, ?Hro, ?Dp; try done.
      * destruct Hc as [-> | ->]; [by apply calls_ok_load|by apply calls_ok_redundant].
      * intros Hr b [-> |Hb]%elem_of_cons; destruct (Htr Hr) as [T1 T2].
        -- destruct T2 as [|T2]; [by left|right; by exists O].
        -- destruct (L6 Hr b Hb) as [|[j Hj]]; [left; auto|by apply Hsc in Hj].
    + right. split_and!; [done..|]. intros b [-> |Hb]%elem_of_cons; [by right|by left].
Qed.

Lemma track_good s h pv cv rd rs t a c :
  inv s h pv cv rd rs -> let x := threads s t in
  plain (at_ x) = true -> live (at_ x) = true -> (forall l j, at_ x <> Scan l j) -> a ∉ waddr (pairs x) ->
  locked (LockTab s (PSLOCK a)) = false -> pv (PSLOCK a) <= rvof x -> (c = Ld a (mem s a) \/ c = St a (mem s a)) ->
  good (TrackLoad t (PSLOCK a) x s) (observe h (ECall t c)).
Proof.
  intros Hinv x Hpl Hl Hsc Ha Hf Hv Hc. exists pv, cv, (<[t := a :: rd t]> rd), rs. unfold TrackLoad. destruct (at_end (rdSet (self x))).
  - apply read_step; fold x; try done; [by right|by split; auto].
  - apply read_step; fold x; try done; [by left|]. intros _. simpl. rewrite put_entries. set_solver.
Qed.

Lemma load_check_good s h pv cv rd rs t a q v :
  inv s h pv cv rd rs -> let x := threads s t in at_ x = LoadCheck a q v ->
  good (load_check t a q v x s).1 (foldl observe h (load_check t a q v x s).2).
Proof.
  intros Hinv x Hat. pose proof (thread_fact t Hinv) as Ht. fold x in Ht. unfold load_check.
  destruct ((q <=? rvof x) && (LockTab s (PSLOCK a) =? q)) eqn:E.
  - zify_bool. pose proof (th_access _ _ _ _ _ _ _ _ _ _ _ Ht) as Ha. unfold access_ok in Ha. rewrite Hat in Ha.
    destruct Ha as [Ha Hacc]. destruct (live_fact t Hinv) as [L1 L2 _ _ _ _]; [fold x; by rewrite Hat|]. fold x in L2.
    pose proof (inv_clock _ _ _ _ _ _ _ _ _ _ Hinv) as [_ Hck]. destruct (Hacc ltac:(lia)) as [Hq Hm].
    destruct (inv_lock _ _ _ _ _ _ _ _ _ _ Hinv (PSLOCK a)) as [[Hw Hcv]|(u & i & Hw & _)].
    2: { exfalso. assert (Hz : q = Tl2Inv.word avp u i) by congruence. specialize (Hbase u i). unfold Tl2Inv.word in Hz.
         rewrite word_value in Hz by done. lia. }
    assert (Hf : locked (LockTab s (PSLOCK a)) = false) by (rewrite Hw; apply (free_pv _ _ _ _ Hinv)).
    assert (Hv : v = mem s a) by (symmetry; apply Hm; congruence). subst v.
    destruct (IsRO (self x)) eqn:Hro; simpl.
    + exists pv, cv, (<[t := a :: rd t]> rd), rs. apply read_step; fold x; rewrite ?Hat; try done; [lia|by left|by left|congruence].
    + apply (track_good s h pv cv rd rs); fold x; rewrite ?Hat; try done; [lia|by left].
  - apply (abort_good s h pv cv rd rs); [done|fold x; by rewrite Hat|done].
Qed.

(** A store that changes the write set. *)
Lemma write_step s h pv cv rd rs t a v x' :
  inv s h pv cv rd rs -> let x := threads s t in
  plain (at_ x) = true -> live (at_ x) = true -> (forall l j, at_ x <> Scan l j) -> IsRO (self x) = false ->
  at_ x' = Ready -> (forall m b, apply (pairs x') m b = <[a := v]> (apply (pairs x) m) b) ->
  pairs_ok x' -> Forall (fun p => Held p = false) (pairs x') ->
  HoldsLocks (self x') = HoldsLocks (self x) -> Mode (self x') = Mode (self x) -> rvof x' = rvof x -> wvof x' = wvof x ->
  IsRO (self x') = IsRO (self x) -> loads x' = loads x ->
  inv (put_thread t x' s) (observe h (ECall t (St a v))) pv cv rd rs.
Proof.
  intros Hinv x Hpl Hl Hsc Hro Hat Hap Hps Hun Hh Hm Hrv Hwv Hro' Hld. pose proof (thread_fact t Hinv) as Ht. fold x in Ht.
  apply (plain_step s h _ pv cv rd rd rs t x' Hinv Hpl); fold x; rewrite ?Hat; try done.
  - apply same_others_call.
  - rewrite Hh. by apply (plain_holds t Hinv).
  - by apply unheld_iff.
  - unfold access_ok. by rewrite Hat.
  - apply (th_since _ _ _ _ _ _ _ _ _ _ _ Ht).
  - intros _. destruct (live_fact t Hinv Hl) as [L1 L2 L3 L4 L5 L6]. fold x in L1, L2, L3, L4, L5, L6. split; [|right; auto].
    split; simpl; rewrite ?fn_lookup_insert, ?Hm, ?Hrv, ?Hro', ?Hld; try done.
    + by eapply calls_ok_store.
    + congruence.
    + intros _ b Hb. destruct (L6 Hro b Hb) as [|[j Hj]]; [by left|by apply Hsc in Hj].
Qed.

Lemma record_store_good s h pv cv rd rs t a v :
  inv s h pv cv rd rs -> let x := threads s t in
  plain (at_ x) = true -> live (at_ x) = true -> (forall l j, at_ x <> Scan l j) -> IsRO (self x) = false ->
  good (record_store t a v x s).1 (foldl observe h (record_store t a v x s).2).
Proof.
  intros Hinv x Hpl Hl Hsc Hro. pose proof (thread_fact t Hinv) as Ht. fold x in Ht. exists pv, cv, rd, rs. simpl.
  apply write_step; fold x; try done; unfold RecordStore; cbn [self wrSet with_wr]; rewrite ?put_entries.
  - intros m b. by rewrite apply_snoc.
  - intros p. cbn [self wrSet with_wr BloomFilter]. rewrite put_entries. intros [Hp| ->%list_elem_of_singleton]%elem_of_app; simpl.
    + destruct (th_pairs _ _ _ _ _ _ _ _ _ _ _ Ht p Hp). split; [done|]. by apply filter_keeps.
    + split; [done|apply filter_hit].
  - apply Forall_app. split; [|by constructor]. apply unheld_iff. by apply (plain_unheld t Hinv).
Qed.

Lemma elem_of_alter {A} (f : A -> A) (i : nat) (l : list A) y : y ∈ alter f i l -> y ∈ l \/ exists z, l !! i = Some z /\ y = f z.
Proof.
  revert i. induction l as [|z l IH]; intros [|i]; simpl; rewrite ?elem_of_cons; [by left|by left| |].
  - intros [-> |]; [right; by exists z|tauto].
  - intros [-> |H]; [tauto|]. destruct (IH i H) as [|(w & ? & ?)]; [tauto|right; by exists w].
Qed.

Lemma store_valu_good s h pv cv rd rs t a v q :
  inv s h pv cv rd rs -> let x := threads s t in at_ x = StoreValu a v q ->
  good (store_valu t a v q x s).1 (foldl observe h (store_valu t a v q x s).2).
Proof.
  intros Hinv x Hat. pose proof (thread_fact t Hinv) as Ht. fold x in Ht.
  pose proof (th_access _ _ _ _ _ _ _ _ _ _ _ Ht) as Ha. unfold access_ok in Ha. rewrite Hat in Ha. destruct Ha as [Hro Hq].
  assert (Hrec : good (record_store t a v x s).1 (foldl observe h (record_store t a v x s).2)).
  { apply (record_store_good s h pv cv rd rs); fold x; rewrite ?Hat; done. }
  unfold store_valu. destruct (Z.eqb_spec (mem s a) v) as [Hv|]; [|done].
  destruct (last_index a (pairs x)) as [i|] eqn:Ei.
  - exists pv, cv, rd, rs. simpl. apply write_step; fold x; rewrite ?Hat; try done; simpl.
    + intros m b. by apply apply_set_last.
    + intros p. simpl. intros [Hp|(e & He & ->)]%elem_of_alter; [by apply (th_pairs _ _ _ _ _ _ _ _ _ _ _ Ht)|].
      simpl. apply (th_pairs _ _ _ _ _ _ _ _ _ _ _ Ht e). by eapply list_elem_of_lookup_2.
    + apply Forall_forall. intros p [Hp|(e & He & ->)]%elem_of_alter; simpl; [|apply list_elem_of_lookup_2 in He; revert He; revert e].
      * revert p Hp. apply Forall_forall, unheld_iff. apply (plain_unheld t Hinv). fold x. by rewrite Hat.
      * apply Forall_forall, unheld_iff. apply (plain_unheld t Hinv). fold x. by rewrite Hat.
  - apply last_index_None in Ei. destruct (negb (locked q) && (q <=? rvof x)) eqn:E; [|done]. zify_bool.
    exists pv, cv, rd, rs. simpl. apply goto_plain; fold x; rewrite ?Hat; try done. simpl. split_and!; auto.
Qed.

Lemma store_check_good s h pv cv rd rs t a v q :
  inv s h pv cv rd rs -> let x := threads s t in at_ x = StoreCheck a v q ->
  good (store_check t a v q x s).1 (foldl observe h (store_check t a v q x s).2).
Proof.
  intros Hinv x Hat. pose proof (thread_fact t Hinv) as Ht. fold x in Ht.
  pose proof (th_access _ _ _ _ _ _ _ _ _ _ _ Ht) as Ha. unfold access_ok in Ha. rewrite Hat in Ha.
  destruct Ha as (Hro & Ha & Hf & Hle & Hq & Hm). unfold store_check. destruct (Z.eqb_spec (LockTab s (PSLOCK a)) q) as [Hw|]; simpl.
  - assert (Hf' : locked (LockTab s (PSLOCK a)) = false) by by rewrite Hw.
    destruct (free_stripe _ _ _ _ Hinv _ Hf') as (Hpv & Hcv & _).
    apply (track_good s h pv cv rd rs); fold x; rewrite ?Hat; try done; [lia|right]. f_equal. symmetry. apply Hm. congruence.
  - apply (record_store_good s h pv cv rd rs); fold x; rewrite ?Hat; done.
Qed.

Lemma scan_good s h pv cv rd rs t j l :
  inv s h pv cv rd rs -> let x := threads s t in at_ x = Scan l j ->
  good (ReadSetCoherentPessimistic Owner t j l x s).1 (foldl observe h (ReadSetCoherentPessimistic Owner t j l x s).2).
Proof.
  intros Hinv x Hat. pose proof (thread_fact t Hinv) as Ht. fold x in Ht. unfold ReadSetCoherentPessimistic.
  destruct (loads x !! j) as [l'|]; [destruct (entry_coherent _ _ _ _)|]; simpl.
  - exists pv, cv, rd, rs. apply goto_plain; fold x; rewrite ?Hat; try done. intros l0 j0 E. simplify_eq. eauto.
  - apply (abort_good s h pv cv rd rs); [done|fold x; by rewrite Hat|done].
  - exists pv, cv, rd, rs. apply (plain_step s h h pv cv rd rd rs t _ Hinv); fold x; rewrite ?Hat; try done; simpl.
    + apply (plain_holds t Hinv). fold x. by rewrite Hat.
    + apply (th_pairs _ _ _ _ _ _ _ _ _ _ _ Ht).
    + apply (plain_unheld t Hinv). fold x. by rewrite Hat.
    + apply (th_since _ _ _ _ _ _ _ _ _ _ _ Ht).
    + intros _. destruct (live_fact t Hinv) as [L1 L2 L3 L4 L5 L6]; [fold x; by rewrite Hat|]. fold x in L1, L2, L3, L4, L5, L6.
      split; [|right; auto]. split; simpl; try done. intros Hro b Hb. left. rewrite put_entries.
      destruct (L6 Hro b Hb) as [|[j' Hj]]; [set_solver|]. rewrite Hat in Hj. simplify_eq. set_solver.
Qed.

(** ** Commit: taking the locks *)

(** A committing transaction moves on. *)
Lemma hold_step s h pv cv rd rs t x' :
  inv s h pv cv rd rs -> let x := threads s t in
  live (at_ x) = true -> holding (at_ x) = true -> live (at_ x') = true -> holding (at_ x') = true ->
  pairs x' = pairs x -> BloomFilter (self x') = BloomFilter (self x) -> loads x' = loads x -> rvof x' = rvof x ->
  Mode (self x') = Mode (self x) -> IsRO (self x') = IsRO (self x) -> HoldsLocks (self x') = HoldsLocks (self x) ->
  locks_ok x' -> clock_ok (_GCLOCK s) x' -> access_ok hb pv cv (mem s) x' -> valid_ok rs x' ->
  (forall v, theta x' = Some v -> (exists v0, theta x = Some v0 /\ v0 <= v) \/ _GCLOCK s < v) ->
  (forall j l, at_ x' = Validate j false -> l ∈ take j (loads x') ->
    (exists j0, at_ x = Validate j0 false /\ wvof x' = wvof x /\ l ∈ take j0 (loads x)) \/
    locked (LockTab s l) = false \/ mine Owner t (LockTab s l) = true) ->
  inv (put_thread t x' s) h pv cv rd rs.
Proof.
  intros Hinv x Hl Hh Hl' Hh' Hp Hb Hld Hrv Hm Hro Hho Hlk Hck Hacc Hval Hth Hv. pose proof (thread_fact t Hinv) as Ht. fold x in Ht.
  assert (Hc : forall p, live p = true -> committed p = false) by by intros [].
  apply (local_step avp Owner hb m0 Howner Heven s h h pv cv rd rd); try done; fold x.
  - apply quiet_same; auto.
  - destruct (live_fact t Hinv Hl) as [L1 L2 L3 L4 L5 L6]. fold x in L1, L2, L3, L4, L5, L6.
    split; try done; rewrite ?Hh', ?Hho, ?Hro.
    + intros p. rewrite Hp, Hb. apply (th_pairs _ _ _ _ _ _ _ _ _ _ _ Ht).
    + by rewrite (th_holding _ _ _ _ _ _ _ _ _ _ _ Ht).
    + intros _. split; rewrite ?Hm, ?Hrv, ?Hp, ?Hro, ?Hld; try done. intros Hr a Ha.
      destruct (L6 Hr a Ha) as [|[j Hj]]; [by left|]. by rewrite Hj in Hh.
    + intros _ _. by apply (th_ro _ _ _ _ _ _ _ _ _ _ _ Ht).
    + apply (th_since _ _ _ _ _ _ _ _ _ _ _ Ht).
Qed.

(** At the head of the loop over the write set. *)
Lemma acquire_from_ok x i l0 :
  (forall k l q, held x k l q -> (k < S i)%nat) -> readable x ->
  (forall k p, (k < S i)%nat -> pairs x !! k = Some p -> exists j q, held x j (LockFor p) q) ->
  locks_ok (mkT (self x) (acquire_from (S i) (self x)) l0).
Proof.
  intros H1 H2 H3. unfold acquire_from. destruct (Nat.ltb_spec (S i) (length (pairs x))); unfold locks_ok; simpl; [by split_and!|].
  split; [done|]. intros l (p & -> & (k & Hk)%list_elem_of_lookup_1)%list_elem_of_fmap. apply (H3 k); [|done].
  apply lookup_lt_Some in Hk. simpl in Hk; lia.
Qed.

Lemma acquire_from_pc i x : let p := acquire_from i x in
  live p = true /\ holding p = true /\ committed p = false /\ (forall j dx, p <> Validate j dx) /\ (p = AcqLoad i \/ p = GvLoad).
Proof. unfold acquire_from. destruct (i <? _)%nat; simpl; split_and!; auto. Qed.

Lemma acquire_from_free (x : tstate) (r : Thread) i l0 : let y := mkT r (acquire_from i r) l0 in
  theta y = None /\ (forall pv cv m, access_ok hb pv cv m y) /\ (forall rs, valid_ok rs y) /\
  (forall c, 0 <= wvof y <= c -> Z.even (wvof y) = true -> clock_ok c y).
Proof.
  unfold theta, access_ok, valid_ok, clock_ok. destruct (acquire_from_pc i r) as (_ & _ & _ & _ & [E|E]); simpl; rewrite E; by split_and!.
Qed.

Lemma commit_good s h pv cv rd rs t :
  inv s h pv cv rd rs -> at_ (threads s t) = Ready ->
  good (TxCommit t (threads s t) s).1 (foldl observe h (TxCommit t (threads s t) s).2).
Proof.
  intros Hinv Hat. set (x := threads s t) in *. unfold TxCommit. pose proof (thread_fact t Hinv) as Ht. fold x in Ht.
  destruct (pairs x) as [|e es] eqn:Hp; simpl.
  - destruct (reader_commit avp Owner hb m0 Howner Heven s h pv cv rd rs t (mkT (txCommitReset (self x)) Out (local x))) as [rs' Hi]; try done.
    by exists pv, cv, rd, rs'.
  - exists pv, cv, rd, rs. assert (Hn : forall k l q, ~ held x k l q) by (apply (plain_unheld t Hinv); fold x; by rewrite Hat).
    pose proof (th_clock _ _ _ _ _ _ _ _ _ _ _ Ht) as (K1 & K2 & _).
    destruct (live_fact t Hinv) as [L1 L2 L3 L4 L5 L6]; [fold x; by rewrite Hat|]. fold x in L1, L2, L3, L4, L5, L6.
    apply (local_step avp Owner hb m0 Howner Heven s h h pv cv rd rd); try done; fold x.
    + apply quiet_same; rewrite ?Hat; try done. intros _. right; auto.
    + split; try done.
      * apply (th_pairs _ _ _ _ _ _ _ _ _ _ _ Ht).
      * unfold locks_ok. simpl. rewrite Hp. split_and!; [simpl; lia| | |intros; lia].
        -- intros k l q Hh. by apply Hn in Hh.
        -- intros k l q Hh. by apply Hn in Hh.
      * intros _. split; try done. intros Hr a Ha. destruct (L6 Hr a Ha) as [|[j Hj]]; [by left|congruence].
      * intros _ _. simpl. destruct (IsRO (self x)); [|done]. by rewrite L5 in Hp.
      * apply (th_since _ _ _ _ _ _ _ _ _ _ _ Ht).
Qed.

Lemma find_first_loads (k : Log Z) l : FindFirst k l = true <-> l ∈ entries k.
Proof.
  unfold FindFirst. rewrite existsb_exists. split.
  - intros (y & Hy & ->%Z.eqb_eq). by apply list_elem_of_In.
  - intros Hl. exists l. split; [by apply list_elem_of_In|apply Z.eqb_refl].
Qed.

(** The facts of the acquisition loop. *)
Definition at_entry (p : pc) (i : nat) : Prop :=
  match p with AcqLoad k | AcqCas k _ | SpinLoad k _ | SpinCas k _ _ => k = i | _ => False end.

Lemma at_entry_facts x i : at_entry (at_ x) i ->
  live (at_ x) = true /\ holding (at_ x) = true /\ committed (at_ x) = false /\ theta x = None /\
  (locks_ok x -> (i < length (pairs x))%nat /\ (forall k l q, held x k l q -> (k < i)%nat) /\ readable x /\
    (forall k p, (k < i)%nat -> pairs x !! k = Some p -> exists j q, held x j (LockFor p) q)).
Proof. unfold theta, locks_ok. by destruct (at_ x); simpl; try done; intros ->. Qed.

(** The next access to the same entry. *)
Lemma entry_step s h pv cv rd rs t i p :
  inv s h pv cv rd rs -> let x := threads s t in at_entry (at_ x) i -> at_entry p i ->
  access_ok hb pv cv (mem s) (mkT (self x) p (local x)) -> good (goto t p x s).1 h.
Proof.
  intros Hinv x Hat Hp Hacc. exists pv, cv, rd, rs. pose proof (thread_fact t Hinv) as Ht. fold x in Ht.
  destruct (at_entry_facts x i Hat) as (E1 & E2 & E3 & E4 & E5). specialize (E5 (th_locks _ _ _ _ _ _ _ _ _ _ _ Ht)).
  pose proof (th_clock _ _ _ _ _ _ _ _ _ _ _ Ht) as (K1 & K2 & _).
  assert (Hf : live p = true /\ holding p = true /\ theta (mkT (self x) p (local x)) = None /\ forall j dx, p <> Validate j dx) by by destruct p.
  destruct Hf as (F1 & F2 & F3 & F4).
  apply hold_step; fold x; try done.
  - unfold locks_ok. simpl. by destruct p; try done; simpl in Hp; subst.
  - unfold clock_ok. simpl. split_and!; [lia..|done|by destruct p].
  - intros j Hj. by apply F4 in Hj.
  - by rewrite F3.
  - intros j l Hj. by apply F4 in Hj.
Qed.

Lemma acq_load_good s h pv cv rd rs t i p s' es :
  inv s h pv cv rd rs -> let x := threads s t in at_ x = AcqLoad i -> pairs x !! i = Some p ->
  acq_load Owner Ordinal t i p x s = Some (s', es) -> good s' (foldl observe h es).
Proof.
  intros Hinv x Hat Hp H. pose proof (thread_fact t Hinv) as Ht. fold x in Ht.
  assert (Hae : at_entry (at_ x) i) by by rewrite Hat.
  destruct (at_entry_facts x i Hae) as (E1 & E2 & E3 & E4 & E5). destruct (E5 (th_locks _ _ _ _ _ _ _ _ _ _ _ Ht)) as (F1 & F2 & F3 & F4).
  pose proof (th_clock _ _ _ _ _ _ _ _ _ _ _ Ht) as (K1 & K2 & _). unfold acq_load in H. set (w := LockTab s (LockFor p)) in *.
  set (fail := TxAbort t (mkT (with_abv w (self x)) (at_ x) (local x)) s) in *.
  assert (Hfail : good fail.1 (foldl observe h fail.2)) by by apply (abort_good s h pv cv rd rs).
  destruct (mine Owner t w) eqn:Em.
  - (* the stripe is already ours *)
    assert (Hown : exists k, w = word t k /\ held x k (LockFor p) (pv (LockFor p))).
    { unfold mine in Em. apply andb_true_iff in Em as [El Eo%Nat.eqb_eq].
      destruct (inv_lock _ _ _ _ _ _ _ _ _ _ Hinv (LockFor p)) as [[Hw _]|(u & k & Hw & Hh & _)]; fold w in Hw.
      - by rewrite Hw, (free_pv _ _ _ _ Hinv) in El.
      - rewrite Hw, (word_owner avp Owner Howner Heven) in Eo. subst u. by exists k. }
    destruct Hown as (k & Hw & Hh).
    assert (Hgo : good (goto t (acquire_from (S i) (self x)) x s).1 h).
    { exists pv, cv, rd, rs. destruct (acquire_from_pc (S i) (self x)) as (A1 & A2 & A3 & A4 & _).
      destruct (acquire_from_free x (self x) (S i) (local x)) as (B1 & B2 & B3 & B4).
      apply hold_step; fold x; try done.
      - apply acquire_from_ok; [|done|].
        + intros k' l q Hk'. apply F2 in Hk'. lia.
        + intros k' p' Hk' Hp'. destruct (decide (k' = i)) as [-> |]; [|apply (F4 k'); [lia|done]]. simplify_eq. eauto.
      - by apply B4.
      - by rewrite B1.
      - intros j l Hj. by apply A4 in Hj. }
    destruct (FindFirst (rdSet (self x)) (LockFor p)); [|by eapply result_good].
    rewrite Hw, (word_ordinal avp Ordinal Hordinal Heven) in H. destruct Hh as (q & Hq & _). rewrite Hq in H. simpl in H.
    destruct (rvof x <? rdv q); by eapply result_good.
  - destruct (FindFirst (rdSet (self x)) (LockFor p)) eqn:Ef.
    + destruct (negb (locked w) && (w <=? rvof x)) eqn:E; [|by eapply result_good]. zify_bool.
      eapply result_good; [exact H|]. by apply (entry_step s h pv cv rd rs t i).
    + eapply result_good; [exact H|]. apply (entry_step s h pv cv rd rs t i); [done..|]. intros p' Hp'. cbn [self] in Hp'. fold x in Hp'.
      assert (p' = p) as -> by congruence. intros Hl%find_first_loads. cbn [self] in Hl. fold x in Hl. congruence.
Qed.

(** *** A lock is taken *)

Lemma apply_alter f i es m : (forall e, Addr (f e) = Addr e /\ Valu (f e) = Valu e) -> apply (alter f i es) m = apply es m.
Proof.
  intros Hf. revert i m. induction es as [|e es IH]; intros [|i] m; simpl; [done..| |apply IH]. by destruct (Hf e) as [-> ->].
Qed.

Lemma pairs_ok_alter x i f l0 p0 : (forall e, Addr (f e) = Addr e /\ LockFor (f e) = LockFor e) -> pairs_ok x ->
  pairs_ok (mkT (update_pair i f (self x)) p0 l0).
Proof.
  intros Hf Hok p. simpl. intros [Hp|(e & He & ->)]%elem_of_alter; [by apply Hok|]. destruct (Hf e) as [-> ->].
  apply Hok. by eapply list_elem_of_lookup_2.
Qed.

Lemma held_alter x i f l0 p0 p k l q : pairs x !! i = Some p ->
  held (mkT (update_pair i f (self x)) p0 l0) k l q <->
  (k = i /\ Held (f p) = true /\ LockFor (f p) = l /\ rdv (f p) = q) \/ (k <> i /\ held x k l q).
Proof.
  intros Hp. unfold held. simpl. destruct (decide (k = i)) as [-> |Hne].
  - rewrite list_lookup_alter_eq, Hp. simpl. split; [intros (e & E & H); simplify_eq; by left|].
    intros [(_ & H)|[? _]]; [by exists (f p)|done].
  - rewrite list_lookup_alter_ne by done. split; [by right|]. by intros [[? _]|[_ ?]].
Qed.

Lemma take_lock_good s h pv cv rd rs t i q p :
  inv s h pv cv rd rs -> let x := threads s t in at_entry (at_ x) i -> pairs x !! i = Some p ->
  LockTab s (LockFor p) = q -> locked q = false -> (LockFor p ∈ loads x -> q <= rvof x) ->
  good (take_lock avp t i q p x s).1 h.
Proof.
  intros Hinv x Hat Hp Hq Hf Hrd. pose proof (thread_fact t Hinv) as Ht. fold x in Ht.
  destruct (at_entry_facts x i Hat) as (E1 & E2 & E3 & E4 & E5). destruct (E5 (th_locks _ _ _ _ _ _ _ _ _ _ _ Ht)) as (F1 & F2 & F3 & F4).
  pose proof (th_clock _ _ _ _ _ _ _ _ _ _ _ Ht) as (K1 & K2 & _). rewrite <- Hq in Hf.
  destruct (free_stripe _ _ _ _ Hinv _ Hf) as (Hpv & Hcv & Hfree). rewrite Hq in Hpv.
  exists pv, cv, rd, rs. unfold take_lock, goto. cbn [fst]. set (r := update_pair i (acquired q) (self x)). cbn [self local].
  assert (Hhi : ~ exists l q0, held x i l q0) by (intros (l & q0 & Hh); apply F2 in Hh; lia).
  assert (Hh' : forall p0 l0 k l q0, held (mkT r p0 l0) k l q0 <-> (k = i /\ LockFor p = l /\ q = q0) \/ held x k l q0).
  { intros p0 l0 k l q0. unfold r. rewrite (held_alter x i (acquired q) l0 p0 p k l q0 Hp). simpl. split.
    - intros [(? & _ & ? & ?)|[? ?]]; auto.
    - intros [(? & ? & ?)|Hh]; [by left|]. right. split; [|done]. intros ->. apply Hhi. eauto. }
  destruct (acquire_from_pc (S i) r) as (A1 & A2 & A3 & A4 & _). destruct (acquire_from_free x r (S i) (local x)) as (B1 & B2 & B3 & B4).
  apply (stripe_step avp Owner hb m0 Howner Heven s h pv pv cv rd rs t); fold x; cbn [at_]; try done; rewrite ?A3, ?E3; try done.
  - by left.
  - right. exists i. split_and!; [done| |done]. apply Hh'. left. by rewrite <- Hpv.
  - intros k l q0 Hne. rewrite Hh'. split; [intros [(_ & <- & _)|]; done|by right].
  - intros k q0 Hk. apply Hh' in Hk as [(-> & _)|Hk]; [done|]. by apply Hfree in Hk.
  - rewrite Hcv. split; [lia|]. apply Z.le_refl.
  - apply (inv_ver _ _ _ _ _ _ _ _ _ _ Hinv).
  - by apply pend_uncommitted.
  - by apply pend_uncommitted.
  - destruct (live_fact t Hinv E1) as [L1 L2 L3 L4 L5 L6]. fold x in L1, L2, L3, L4, L5, L6. split; cbn [at_]; try done.
    + by apply pairs_ok_alter, (th_pairs _ _ _ _ _ _ _ _ _ _ _ Ht).
    + apply (acquire_from_ok (mkT r (at_ x) (local x))).
      * intros k l q0 [(-> & _)|Hk]%Hh'; [lia|]. apply F2 in Hk. lia.
      * intros k l q0 [(-> & <- & <-)|Hk]%Hh'; [done|]. by apply F3 in Hk.
      * intros k p' Hk. simpl. destruct (decide (k = i)) as [-> |Hne].
        -- rewrite list_lookup_alter_eq, Hp. simpl. intros [= <-]. exists i, q. apply Hh'. by left.
        -- rewrite list_lookup_alter_ne by done. intros Hp'. destruct (F4 k p') as (j & q0 & Hj); [lia|done|].
           exists j, q0. apply Hh'. by right.
    + rewrite A2. change (HoldsLocks (self x) = true). by rewrite (th_holding _ _ _ _ _ _ _ _ _ _ _ Ht).
    + by apply B4.
    + intros _. split; try done; simpl.
      * intros m Hm. destruct (L3 m Hm) as (m' & He & Ha). exists m'. split; [done|]. by rewrite apply_alter.
      * intros Hr. by rewrite (L5 Hr) in Hp.
      * intros Hr a Ha. destruct (L6 Hr a Ha) as [|[j Hj]]; [by left|]. by rewrite Hj in Hat.
    + intros _ _. by apply (th_ro _ _ _ _ _ _ _ _ _ _ _ Ht).
    + apply (th_since _ _ _ _ _ _ _ _ _ _ _ Ht).
Qed.

Lemma acq_cas_good s h pv cv rd rs t i q p :
  inv s h pv cv rd rs -> let x := threads s t in at_ x = AcqCas i q -> pairs x !! i = Some p ->
  good (acq_cas avp t i q p x s).1 (foldl observe h (acq_cas avp t i q p x s).2).
Proof.
  intros Hinv x Hat Hp. pose proof (th_access _ _ _ _ _ _ _ _ _ _ _ (thread_fact t Hinv)) as Ha. fold x in Ha.
  unfold access_ok in Ha. rewrite Hat in Ha. destruct Ha as [Hf Hle]. unfold acq_cas. destruct (Z.eqb_spec (LockTab s (LockFor p)) q).
  - apply (take_lock_good s h pv cv rd rs); fold x; try done. by rewrite Hat.
  - apply (abort_good s h pv cv rd rs); [done|fold x; by rewrite Hat|done].
Qed.

Lemma spin_again_good s h pv cv rd rs t i c p :
  inv s h pv cv rd rs -> let x := threads s t in at_entry (at_ x) i -> pairs x !! i = Some p -> LockFor p ∉ loads x ->
  good (spin_again t i c x s).1 (foldl observe h (spin_again t i c x s).2).
Proof.
  intros Hinv x Hat Hp Hn. unfold spin_again. destruct c as [|c].
  - apply (abort_good s h pv cv rd rs); [done|by apply (at_entry_facts x i)|done].
  - apply (entry_step s h pv cv rd rs t i); [done..|]. intros p' Hp'. cbn [self] in *. fold x in Hp'. assert (p' = p) as -> by congruence. done.
Qed.

Lemma spin_load_good s h pv cv rd rs t i c p :
  inv s h pv cv rd rs -> let x := threads s t in at_ x = SpinLoad i c -> pairs x !! i = Some p ->
  good (spin_load t i c p x s).1 (foldl observe h (spin_load t i c p x s).2).
Proof.
  intros Hinv x Hat Hp. pose proof (th_access _ _ _ _ _ _ _ _ _ _ _ (thread_fact t Hinv)) as Ha. fold x in Ha.
  unfold access_ok in Ha. rewrite Hat in Ha. assert (Hae : at_entry (at_ x) i) by by rewrite Hat.
  unfold spin_load. destruct (locked (LockTab s (LockFor p))) eqn:El.
  - apply (spin_again_good s h pv cv rd rs t i c p); auto.
  - by apply (entry_step s h pv cv rd rs t i).
Qed.

Lemma spin_cas_good s h pv cv rd rs t i c q p :
  inv s h pv cv rd rs -> let x := threads s t in at_ x = SpinCas i c q -> pairs x !! i = Some p ->
  good (spin_cas avp t i c q p x s).1 (foldl observe h (spin_cas avp t i c q p x s).2).
Proof.
  intros Hinv x Hat Hp. pose proof (th_access _ _ _ _ _ _ _ _ _ _ _ (thread_fact t Hinv)) as Ha. fold x in Ha.
  unfold access_ok in Ha. rewrite Hat in Ha. destruct Ha as [Hf Hn]. assert (Hae : at_entry (at_ x) i) by by rewrite Hat.
  unfold spin_cas. destruct (Z.eqb_spec (LockTab s (LockFor p)) q).
  - apply (take_lock_good s h pv cv rd rs); fold x; try done. intros Hl. by apply Hn in Hp.
  - apply (spin_again_good s h pv cv rd rs t i c p); auto.
Qed.

(** ** Commit: the clock and the validation *)

Lemma gv_load_good s h pv cv rd rs t :
  inv s h pv cv rd rs -> let x := threads s t in at_ x = GvLoad -> good (goto t (GvCas (_GCLOCK s)) x s).1 h.
Proof.
  intros Hinv x Hat. exists pv, cv, rd, rs. pose proof (thread_fact t Hinv) as Ht. fold x in Ht.
  pose proof (th_locks _ _ _ _ _ _ _ _ _ _ _ Ht) as Hlk. unfold locks_ok in Hlk. rewrite Hat in Hlk.
  pose proof (th_clock _ _ _ _ _ _ _ _ _ _ _ Ht) as (K1 & K2 & _). destruct (live_fact t Hinv) as [_ L2 _ _ _ _]; [fold x; by rewrite Hat|].
  pose proof (inv_clock _ _ _ _ _ _ _ _ _ _ Hinv) as [E1 E2].
  apply hold_step; fold x; rewrite ?Hat; try done.
  - split_and!; [apply Hlk..|]. intros k l q Hh. destruct (held_fact avp Owner Ordinal hb m0 Howner Hordinal Heven Hinv t k l q Hh) as (_ & -> & _).
    pose proof (inv_ver _ _ _ _ _ _ _ _ _ _ Hinv l). lia.
  - unfold clock_ok. simpl. fold x in L2. split_and!; [lia..|done|lia|lia|lia|done].
  - intros v [= <-]. right. lia.
Qed.

(** The write version is new, also when it is borrowed from another writer. *)
Lemma gv4_fresh gv clock : Z.even gv = true -> Z.even clock = true -> gv <= clock -> 0 <= gv -> clock < 2 ^ 32 - 2 ->
  exists c w, GVGenerateWV_GV4 gv clock = (c, w) /\ clock <= c /\ gv < w <= c /\ Z.even c = true /\ Z.even w = true.
Proof.
  intros K5 E1 K3 Hc Hb. unfold GVGenerateWV_GV4. destruct (Z.eqb_spec clock gv) as [Eg|Eg].
  - exists (gv + 2), (gv + 2). rewrite u32_small by lia. rewrite Z.even_add, K5. split_and!; (done || lia).
  - exists clock, clock. split_and!; (done || lia).
Qed.

Lemma gv_cas_good s h pv cv rd rs t gv :
  inv s h pv cv rd rs -> let x := threads s t in at_ x = GvCas gv -> _GCLOCK (gv_cas t gv x s).1 < hb ->
  good (gv_cas t gv x s).1 (foldl observe h (gv_cas t gv x s).2).
Proof.
  intros Hinv x Hat Hb. pose proof (thread_fact t Hinv) as Ht. fold x in Ht.
  pose proof (th_locks _ _ _ _ _ _ _ _ _ _ _ Ht) as Hlk. unfold locks_ok in Hlk. rewrite Hat in Hlk. destruct Hlk as (Q1 & Q2 & Q3).
  pose proof (th_clock _ _ _ _ _ _ _ _ _ _ _ Ht) as (K1 & K2 & K3). rewrite Hat in K3. destruct K3 as (K3 & K4 & K5).
  pose proof (inv_clock _ _ _ _ _ _ _ _ _ _ Hinv) as [E1 E2].
  destruct (gv4_fresh gv (_GCLOCK s)) as (c & w & Hcw & C1 & C2 & C3 & C4); [done|done|lia|lia|lia|]. unfold gv_cas in *. rewrite Hcw in *. cbn [fst snd foldl goto] in *.
  simpl in Hb. exists pv, cv, rd, rs.
  assert (Hinv1 : inv (mkSys (LockTab s) (mem s) c (threads s)) h pv cv rd rs) by (apply clock_raise; [done|lia|done]).
  apply (hold_step _ h pv cv rd rs t _ Hinv1); cbn [threads]; fold x; rewrite ?Hat; try done.
  - split_and!; [done..|]. intros k l q Hh. simpl. specialize (Q3 k l q Hh). lia.
  - unfold clock_ok. simpl. split_and!; (lia || done).
  - intros j [= <-] r a Hr Ha Hl. by apply not_elem_of_nil in Hl.
  - unfold theta. simpl. intros v [= <-]. left. exists (gv + 1). rewrite Hat. split; [done|lia].
  - intros j l [= <-] Hl. by apply not_elem_of_nil in Hl.
Qed.

Lemma validate_good s h pv cv rd rs t j dx :
  inv s h pv cv rd rs -> let x := threads s t in at_ x = Validate j dx ->
  good (ReadSetCoherent Owner t j dx x s).1 (foldl observe h (ReadSetCoherent Owner t j dx x s).2).
Proof.
  intros Hinv x Hat. pose proof (thread_fact t Hinv) as Ht. fold x in Ht. unfold ReadSetCoherent. destruct (loads x !! j) as [l|] eqn:Hj.
  - exists pv, cv, rd, rs. pose proof (th_locks _ _ _ _ _ _ _ _ _ _ _ Ht) as Hlk. unfold locks_ok in Hlk. rewrite Hat in Hlk.
    pose proof (th_clock _ _ _ _ _ _ _ _ _ _ _ Ht) as (K1 & K2 & K3). rewrite Hat in K3.
    assert (Htake : forall l', l' ∈ take (S j) (loads x) -> l' = l \/ l' ∈ take j (loads x)).
    { intros l'. rewrite (take_S_r _ _ _ Hj). intros [?|?%list_elem_of_singleton]%elem_of_app; auto. }
    apply hold_step; fold x; rewrite ?Hat; try done.
    + intros j' [= <- Hdx%orb_false_iff]. destruct Hdx as [-> Hco%negb_false_iff]. intros r a Hr Ha Hl. simpl in *.
      apply Htake in Hl as [<- |Hl]; [|by apply (th_valid _ _ _ _ _ _ _ _ _ _ _ Ht j Hat r a)]. left.
      pose proof (inv_writers _ _ _ _ _ _ _ _ _ _ Hinv r a Hr Ha) as Hcv. unfold entry_coherent in Hco.
      destruct (locked (LockTab s (PSLOCK a))) eqn:El.
      * destruct (inv_lock _ _ _ _ _ _ _ _ _ _ Hinv (PSLOCK a)) as [[Hw _]|(u & k & Hw & Hh & Hc)].
        { by rewrite Hw, (free_pv _ _ _ _ Hinv) in El. }
        rewrite Hw, (mine_word avp Owner Howner Heven) in Hco. apply Nat.eqb_eq in Hco. subst u. fold x in Hh, Hc. rewrite Hat in Hc. simpl in Hc.
        destruct Hlk as [Hrd _]. pose proof (Hrd k _ _ Hh ltac:(by eapply list_elem_of_lookup_2)). lia.
      * destruct (free_stripe _ _ _ _ Hinv _ El) as (Hw & Hc & _). zify_bool. lia.
    + intros v Hv. left. exists v. unfold theta in *. rewrite Hat. split; [done|lia].
    + intros j' l' [= <- Hdx%orb_false_iff] Hl. destruct Hdx as [-> Hco%negb_false_iff]. simpl in *.
      apply Htake in Hl as [-> |Hl]; [right|left; by exists j]. unfold entry_coherent in Hco. destruct (locked (LockTab s l)); auto.
  - destruct dx.
    + apply (abort_good s h pv cv rd rs); [done|fold x; by rewrite Hat|done].
    + exists pv, (bump x cv), rd, (rplace (mkRec (mkTx (commits h) (since h t) (wvof x) true (calls h t)) (rvof x) (rd t) (pairs x)) rs).
      by apply (update_commit avp Owner Ordinal hb m0 Howner Hordinal Heven s h pv cv rd rs t j).
Qed.

(** ** Commit and abort: giving the locks back *)

(** A transaction that is no longer open moves on without touching a lock. *)
Lemma idle_step s h pv cv rd rs t x' :
  inv s h pv cv rd rs -> let x := threads s t in
  live (at_ x') = false -> theta x' = None -> (forall i l q, held x' i l q <-> held x i l q) ->
  (forall i l q, held x i l q -> committed (at_ x') = committed (at_ x)) -> pend x' = pend x -> wvof x' = wvof x ->
  pairs_ok x' -> locks_ok x' -> HoldsLocks (self x') = holding (at_ x') ->
  inv (put_thread t x' s) h pv cv rd rs.
Proof.
  intros Hinv x Hl Hth Hh Hc Hpe Hwv Hps Hlk Hho. pose proof (thread_fact t Hinv) as Ht. fold x in Ht.
  pose proof (th_clock _ _ _ _ _ _ _ _ _ _ _ Ht) as (K1 & K2 & _).
  assert (Hv : forall j dx, at_ x' <> Validate j dx) by by intros j dx E; rewrite E in Hl.
  apply (local_step avp Owner hb m0 Howner Heven s h h pv cv rd rd); try done; fold x.
  - split; try done.
    + intros i l q Hi. split; [by eapply Hc|done].
    + by rewrite Hth.
    + by rewrite Hl.
    + intros j l Hj. by apply Hv in Hj.
  - split; try done.
    + unfold clock_ok. rewrite Hwv. split_and!; [lia..|done|]. by destruct (at_ x').
    + unfold access_ok. by destruct (at_ x').
    + by rewrite Hl.
    + intros j Hj. by apply Hv in Hj.
    + by rewrite Hl.
    + apply (th_since _ _ _ _ _ _ _ _ _ _ _ Ht).
Qed.

Lemma write_back_good s h pv cv rd rs t i :
  inv s h pv cv rd rs -> let x := threads s t in at_ x = WriteBack i ->
  good (WriteBackForward t i x s).1 (foldl observe h (WriteBackForward t i x s).2).
Proof.
  intros Hinv x Hat. exists pv, cv, rd, rs. pose proof (thread_fact t Hinv) as Ht. fold x in Ht. unfold WriteBackForward.
  destruct (pairs x !! i) as [e|] eqn:He; simpl.
  - by apply (mem_step avp Owner Ordinal hb m0 Howner Hordinal Heven).
  - pose proof (th_locks _ _ _ _ _ _ _ _ _ _ _ Ht) as Hlk. unfold locks_ok in Hlk. rewrite Hat in Hlk. destruct Hlk as [_ Hlt].
    apply idle_step; fold x; try done.
    + by rewrite Hat.
    + unfold pend. rewrite Hat. simpl. symmetry. apply drop_ge. by apply lookup_ge_None.
    + apply (th_pairs _ _ _ _ _ _ _ _ _ _ _ Ht).
    + intros k l q Hh. split; [lia|by apply (Hlt k l q)].
    + simpl. by rewrite (th_holding _ _ _ _ _ _ _ _ _ _ _ Ht), Hat.
Qed.

(** The lock of entry [i] is given back at version [w]. *)
Lemma release_step s h pv cv rd rs t i p w pc' :
  inv s h pv cv rd rs -> let x := threads s t in let x' := mkT (update_pair i unheld (self x)) pc' (local x) in
  pairs x !! i = Some p -> Held p = true ->
  live pc' = false -> committed pc' = committed (at_ x) -> live (at_ x) = false -> pend x = [] -> pend x' = [] -> holding pc' = holding (at_ x) ->
  pv (LockFor p) <= w -> w = cv (LockFor p) -> Z.even w = true -> locks_ok x' ->
  inv (put_thread t x' (put_lock (LockFor p) w s)) h (<[LockFor p := w]> pv) cv rd rs.
Proof.
  intros Hinv x x' Hp Hh Hl' Hc Hl Hpe Hpe' Hho Hle Hw Hev Hlk. pose proof (thread_fact t Hinv) as Ht. fold x in Ht.
  pose proof (th_clock _ _ _ _ _ _ _ _ _ _ _ Ht) as (K1 & K2 & _).
  assert (Hheld : held x i (LockFor p) (rdv p)) by (exists p; split_and!; done).
  pose proof (held_fact avp Owner Ordinal hb m0 Howner Hordinal Heven Hinv t i _ _ Hheld) as (Hlw & _ & _).
  assert (Hh' : forall k l q, held x' k l q <-> k <> i /\ held x k l q).
  { intros k l q. unfold x'. rewrite (held_alter x i unheld (local x) pc' p k l q Hp). simpl. split; [intros [(_ & ? & _)|]; done|by right]. }
  assert (Hself : forall k l q, held x k l q -> l = LockFor p -> k = i).
  { intros k l q Hk ->. by destruct (held_unique avp Owner Ordinal hb m0 Howner Hordinal Heven Hinv t k t i _ _ _ Hk Hheld). }
  apply (stripe_step avp Owner hb m0 Howner Heven s h pv _ cv rd rs t); fold x; try done.
  - right. by rewrite Hlw, (mine_word avp Owner Howner Heven), Nat.eqb_refl.
  - left. by rewrite fn_lookup_insert.
  - intros k l q Hne. rewrite Hh'. split; [by intros [_ ?]|]. intros Hk. split; [|done]. intros ->. destruct Hk as (p' & Hp' & _ & <- & _). by simplify_eq.
  - intros k q [Hne Hk]%Hh'. by apply Hself in Hk.
  - intros l Hne. by rewrite fn_lookup_insert_ne.
  - rewrite fn_lookup_insert. lia.
  - by rewrite fn_lookup_insert.
  - unfold theta. simpl. by destruct pc'.
  - simpl. by rewrite Hl'.
  - intros j Hj. simpl in Hj. by rewrite Hj in Hl'.
  - split; cbn [at_ x']; rewrite ?Hl', ?Hho; try done.
    + by apply pairs_ok_alter, (th_pairs _ _ _ _ _ _ _ _ _ _ _ Ht).
    + apply (th_holding _ _ _ _ _ _ _ _ _ _ _ Ht).
    + unfold clock_ok. simpl. split_and!; [lia..|done|by destruct pc'].
    + unfold access_ok. simpl. by destruct pc'.
    + intros j Hj. simpl in Hj. by rewrite Hj in Hl'.
    + apply (th_since _ _ _ _ _ _ _ _ _ _ _ Ht).
Qed.

Lemma drop_good s h pv cv rd rs t i :
  inv s h pv cv rd rs -> let x := threads s t in at_ x = Drop i ->
  good (DropLocks t i x s).1 (foldl observe h (DropLocks t i x s).2).
Proof.
  intros Hinv x Hat. pose proof (thread_fact t Hinv) as Ht. fold x in Ht. unfold DropLocks.
  pose proof (th_locks _ _ _ _ _ _ _ _ _ _ _ Ht) as Hlk. unfold locks_ok in Hlk. rewrite Hat in Hlk.
  pose proof (th_clock _ _ _ _ _ _ _ _ _ _ _ Ht) as (K1 & K2 & _).
  destruct (pairs x !! i) as [p|] eqn:Hp; [destruct (Held p) eqn:Hh|]; cbn [fst snd foldl goto].
  - assert (Hheld : held x i (LockFor p) (rdv p)) by (exists p; split_and!; done).
    pose proof (held_fact avp Owner Ordinal hb m0 Howner Hordinal Heven Hinv t i _ _ Hheld) as (_ & Hq & Hc). fold x in Hc. rewrite Hat in Hc.
    destruct (Hlk _ _ _ Hheld) as [_ Hlt]. exists (<[LockFor p := wvof x]> pv), cv, rd, rs.
    apply release_step; fold x; rewrite ?Hat; try done; [unfold pend; by rewrite Hat|lia|].
    intros k l q [(_ & ? & _)|[Hne Hk]]%(held_alter x i unheld _ _ p); [done| |done]. destruct (Hlk _ _ _ Hk). split; [lia|done].
  - exists pv, cv, rd, rs. apply idle_step; fold x; rewrite ?Hat; try done.
    + unfold pend. by rewrite Hat.
    + apply (th_pairs _ _ _ _ _ _ _ _ _ _ _ Ht).
    + intros k l q Hk. destruct (Hlk _ _ _ Hk). split; [|done]. destruct (decide (k = i)) as [-> |]; [|lia].
      destruct Hk as (p' & Hp' & Hh' & _). cbn [self] in Hp'. congruence.
    + simpl. by rewrite (th_holding _ _ _ _ _ _ _ _ _ _ _ Ht), Hat.
  - apply lookup_ge_None in Hp. assert (Hn : forall k l q, ~ held x k l q).
    { intros k l q Hk. destruct (Hlk _ _ _ Hk) as [? _]. destruct Hk as (p' & Hp'%lookup_lt_Some & _). lia. }
    assert (Hn' : forall k l q, ~ held (mkT (txCommitReset (with_holds false (self x))) Out (local x)) k l q) by (intros k l q (p' & Hp' & _); done).
    exists pv, cv, rd, rs. apply idle_step; fold x; rewrite ?Hat; try done.
    + intros k l q. split; intros Hk; exfalso; [by eapply Hn'|by eapply Hn].
    + intros k l q Hk. by apply Hn in Hk.
    + unfold pend. by rewrite Hat.
    + intros p' Hp'. by apply not_elem_of_nil in Hp'.
Qed.

Lemma restore_good s h pv cv rd rs t i :
  inv s h pv cv rd rs -> let x := threads s t in at_ x = Restore i ->
  good (RestoreLocks t i x s).1 (foldl observe h (RestoreLocks t i x s).2).
Proof.
  intros Hinv x Hat. pose proof (thread_fact t Hinv) as Ht. fold x in Ht. unfold RestoreLocks.
  pose proof (th_locks _ _ _ _ _ _ _ _ _ _ _ Ht) as Hlk. unfold locks_ok in Hlk. rewrite Hat in Hlk.
  destruct (pairs x !! i) as [p|] eqn:Hp; [destruct (Held p) eqn:Hh|]; cbn [fst snd foldl goto].
  - assert (Hheld : held x i (LockFor p) (rdv p)) by (exists p; split_and!; done).
    pose proof (held_fact avp Owner Ordinal hb m0 Howner Hordinal Heven Hinv t i _ _ Hheld) as (_ & Hq & Hc). fold x in Hc. rewrite Hat in Hc.
    exists (<[LockFor p := rdv p]> pv), cv, rd, rs.
    apply release_step; fold x; rewrite ?Hat; try done; [unfold pend; by rewrite Hat|lia|simpl in Hc; lia| |].
    + rewrite Hq. apply (inv_ver _ _ _ _ _ _ _ _ _ _ Hinv).
    + intros k l q [(_ & ? & _)|[Hne Hk]]%(held_alter x i unheld _ _ p); [done| |done]. apply Hlk in Hk. lia.
  - exists pv, cv, rd, rs. apply idle_step; fold x; rewrite ?Hat; try done.
    + unfold pend. by rewrite Hat.
    + apply (th_pairs _ _ _ _ _ _ _ _ _ _ _ Ht).
    + intros k l q Hk. pose proof (Hlk _ _ _ Hk). destruct (decide (k = i)) as [-> |]; [|lia].
      destruct Hk as (p' & Hp' & Hh' & _). cbn [self] in Hp'. congruence.
    + simpl. by rewrite (th_holding _ _ _ _ _ _ _ _ _ _ _ Ht), Hat.
  - apply lookup_ge_None in Hp. assert (Hn : forall k l q, ~ held x k l q).
    { intros k l q Hk. pose proof (Hlk _ _ _ Hk). destruct Hk as (p' & Hp'%lookup_lt_Some & _). lia. }
    exists pv, cv, rd, rs. apply idle_step; fold x; rewrite ?Hat; try done.
    + unfold pend. by rewrite Hat.
    + apply (th_pairs _ _ _ _ _ _ _ _ _ _ _ Ht).
Qed.

(** ** Every step *)

Lemma advance_good s h t s' es :
  good s h -> advance avp Owner Ordinal t (threads s t) s = Some (s', es) -> _GCLOCK s' < hb -> good s' (foldl observe h es).
Proof.
  intros (pv & cv & rd & rs & Hinv) H Hb. unfold advance in H.
  destruct (at_ (threads s t)) as [| |a|a q|a q v|a v|a v q|a v q|l j|i|i q|i c|i c q| |gv|j dx|i|i|i] eqn:Hat; [done|done| | | | | | | | | | | | | | | | |].
  - eapply result_good; [exact H|]. by eapply load_lock_good.
  - eapply result_good; [exact H|]. by eapply load_valu_good.
  - eapply result_good; [exact H|]. by eapply load_check_good.
  - eapply result_good; [exact H|]. by eapply store_lock_good.
  - eapply result_good; [exact H|]. by eapply store_valu_good.
  - eapply result_good; [exact H|]. by eapply store_check_good.
  - eapply result_good; [exact H|]. by eapply scan_good.
  - destruct (pairs (threads s t) !! i) as [p|] eqn:Hp; [|done]. by eapply acq_load_good.
  - destruct (pairs (threads s t) !! i) as [p|] eqn:Hp; [|done]. eapply result_good; [exact H|]. by eapply acq_cas_good.
  - destruct (pairs (threads s t) !! i) as [p|] eqn:Hp; [|done]. eapply result_good; [exact H|]. by eapply spin_load_good.
  - destruct (pairs (threads s t) !! i) as [p|] eqn:Hp; [|done]. eapply result_good; [exact H|]. by eapply spin_cas_good.
  - eapply result_good; [exact H|]. by eapply gv_load_good.
  - eapply result_good; [exact H|]. eapply gv_cas_good; [done|done|]. injection H as ->. done.
  - eapply result_good; [exact H|]. by eapply validate_good.
  - eapply result_good; [exact H|]. by eapply write_back_good.
  - eapply result_good; [exact H|]. by eapply drop_good.
  - eapply result_good; [exact H|]. by eapply restore_good.
Qed.

Lemma step_good a s h s' es :
  good s h -> step avp Owner Ordinal a s = Some (s', es) -> _GCLOCK s' < hb -> good s' (foldl observe h es).
Proof.
  intros Hg H Hb. destruct a as [t ro|t a|t a v|t a v|t|t|t]; simpl in H; [..|by eapply advance_good];
    destruct Hg as (pv & cv & rd & rs & Hinv); destruct (at_ (threads s t)) eqn:Hat; try done; simpl in H.
  - eapply result_good; [exact H|]. by eapply start_good.
  - by eapply load_good.
  - eapply result_good; [exact H|]. by eapply store_good.
  - eapply result_good; [exact H|]. by eapply store_local_good.
  - eapply result_good; [exact H|]. by eapply commit_good.
  - eapply result_good; [exact H|]. eapply abort_good; [done|by rewrite Hat|done].
Qed.

Lemma trace_good acts : forall s h s' es,
  good s h -> trace avp Owner Ordinal hb acts s = Some (s', es) -> good s' (foldl observe h es).
Proof.
  induction acts as [|a acts IH]; intros s h s' es Hg H; simpl in H; [by simplify_eq/=|].
  destruct (step avp Owner Ordinal a s) as [[s1 es1]|] eqn:E1; simpl in H; [|done].
  destruct (Z.ltb_spec (_GCLOCK s1) hb) as [Hb|]; [|done].
  destruct (trace avp Owner Ordinal hb acts s1) as [[s2 es2]|] eqn:E2; simpl in H; [|done]. simplify_eq.
  rewrite foldl_app. eapply IH; [|done]. by eapply step_good.
Qed.

Lemma init_good : 0 < hb -> good (TxOnce m0) no_history.
Proof.
  intros Hb. exists (fun _ => 0), (fun _ => 0), (fun _ => []), []. split; simpl; try done.
  - by left.
  - intros t i l q (p & Hp & _). done.
  - intros r a Hr. by apply not_elem_of_nil in Hr.
  - constructor.
  - intros r Hr. by apply not_elem_of_nil in Hr.
  - intros r r' Hr. by apply not_elem_of_nil in Hr.
  - intros t. split; try done.
    + intros p Hp. by apply not_elem_of_nil in Hp.
    + intros k l q (p & Hp & _). done.
Qed.

End steps.
