(* ===== verification/Tl2Props.v ===== *)
(** * The TL2 software transactional memory: the theorems

    Transactions of [Tl2] take effect one at a time, open transactions see a consistent
    memory, the assertions listed in [Tl2.asserts] hold, every call returns, and what goes wrong when a
    block is freed. *)

From stdpp Require Import functions.
From S2P Require Import Prelude Tl2 Tl2Spec Tl2Inv Tl2Steps.
Import Tl2.

(** What the library relies on: entries have even addresses of their own, above the versions
    that the clock reaches. *)
Record pointers (avp : nat -> nat -> Z) (Owner Ordinal : Z -> nat) (hb : Z) : Prop := {
  ptr_owner : forall t i, Owner (avp t i) = t;
  ptr_ordinal : forall t i, Ordinal (avp t i) = i;
  ptr_even : forall t i, Z.even (avp t i) = true;
  ptr_above : forall t i, hb <= avp t i;
  ptr_bound : 0 < hb <= 2 ^ 32 - 2
}.

(** Addresses for the examples. *)
Definition heap : Z := 0x8000000.
Definition entry_at (t i : nat) : Z := heap + 2 * Z.pos (encode (t, i)).
Definition entry_of (p : Z) : nat * nat := default (O, O) (decode (Z.to_pos (Z.div2 (p - heap)))).

Definition owner_at (p : Z) : nat := (entry_of p).1.
Definition ordinal_at (p : Z) : nat := (entry_of p).2.

Lemma entry_of_at t i : entry_of (entry_at t i) = (t, i).
Proof.
  unfold entry_of, entry_at. rewrite Z.div2_div.
  replace ((heap + 2 * Z.pos (encode (t, i)) - heap) / 2) with (Z.pos (encode (t, i))).
  - by rewrite Pos2Z.id, decode_encode.
  - apply Z.div_unique_exact; lia.
Qed.

Lemma entry_pointers : pointers entry_at owner_at ordinal_at heap.
Proof.
  split.
  - intros t i. unfold owner_at. by rewrite entry_of_at.
  - intros t i. unfold ordinal_at. by rewrite entry_of_at.
  - intros t i. unfold entry_at. rewrite Z.even_add, Z.even_mul. done.
  - intros t i. unfold entry_at. lia.
  - done.
Qed.

Section theorems.
Context (avp : nat -> nat -> Z) (Owner Ordinal : Z -> nat) (hb : Z) (m0 : Z -> Z).
Context (Hptr : pointers avp Owner Ordinal hb).

Lemma trace_inv acts s es : trace avp Owner Ordinal hb acts (TxOnce m0) = Some (s, es) -> good avp Owner hb m0 s (observed es).
Proof using Hptr.
  destruct Hptr as [P1 P2 P3 P4 P5]. intros H. eapply trace_good; try done; [lia|]. apply init_good; lia.
Qed.

(** Whoever is placed later began after nothing that comes later had committed. *)
Lemma serial_real_time s h pv cv rd rs i j c d :
  inv avp Owner hb m0 s h pv cv rd rs -> serial h !! i = Some c -> serial h !! j = Some d -> (tx_no d < tx_since c)%nat -> (j < i)%nat.
Proof.
  intros Hinv. rewrite (inv_serial _ _ _ _ _ _ _ _ _ _ Hinv), !list_lookup_fmap.
  destruct (rs !! i) as [r|] eqn:Hi; simpl; [|done]. destruct (rs !! j) as [r'|] eqn:Hj; simpl; [|done]. intros [= <-] [= <-] Hlt.
  assert (Hr : r ∈ rs) by by eapply list_elem_of_lookup_2. assert (Hr' : r' ∈ rs) by by eapply list_elem_of_lookup_2.
  pose proof (inv_real _ _ _ _ _ _ _ _ _ _ Hinv r r' Hr Hr' Hlt) as Hv.
  destruct (inv_recs _ _ _ _ _ _ _ _ _ _ Hinv r Hr) as (Hok & Hno & Hsi & _). pose proof (rec_kind _ _ _ Hok) as Hk.
  destruct (Nat.lt_trichotomy i j) as [Hij|[-> |]]; [exfalso|simplify_eq; lia|done].
  assert (Hb : before r r').
  { pose proof (inv_sorted _ _ _ _ _ _ _ _ _ _ Hinv) as Hs. rewrite <- (take_drop_middle rs i r Hi) in Hs.
    apply (sorted_middle _ _ _ Hs). apply list_elem_of_lookup_2 with (j - S i)%nat. rewrite lookup_drop.
    replace (S i + (j - S i))%nat with j by lia. done. }
  unfold before, tx_key in Hb. destruct (tx_update (r_tx r)), (tx_update (r_tx r')); lia.
Qed.


(** C23: transactions take effect one at a time.  Whatever the clients do and however the threads
    interleave, the committed transactions can be put in an order in which, executed one after
    the other on the initial memory, every load returns what it returned in the run; the
    order is consistent with real time: a transaction that had committed when another began
    comes before it; and at every address whose lock is free the memory holds the result of
    that serial execution. *)
Theorem tl2_serializable acts s es :
  trace avp Owner Ordinal hb acts (TxOnce m0) = Some (s, es) ->
  let h := observed es in
  exists m, exec (mjoin (tx_calls <$> serial h)) m0 = Some m /\
    (forall a, locked (LockTab s (PSLOCK a)) = false -> mem s a = m a) /\
    (forall i j c d, serial h !! i = Some c -> serial h !! j = Some d -> (tx_no d < tx_since c)%nat -> (j < i)%nat).
Proof using Hptr.
  intros H h. destruct (trace_inv acts s es H) as (pv & cv & rd & rs & Hinv).
  destruct (serial_exec m0 rs (inv_sorted _ _ _ _ _ _ _ _ _ _ Hinv)) with (pre := rs) (post := @nil rec) as (m & He & Hm).
  - intros r Hr. by apply (inv_recs _ _ _ _ _ _ _ _ _ _ Hinv r).
  - by rewrite app_nil_r.
  - exists m. split_and!; [by unfold h; rewrite (inv_serial _ _ _ _ _ _ _ _ _ _ Hinv)| |].
    + intros a Ha. rewrite Hm, <- (inv_mem _ _ _ _ _ _ _ _ _ _ Hinv a). unfold pending. by rewrite Ha.
    + intros i j c d. by apply (serial_real_time s _ pv cv rd rs).
Qed.

(** C24: open transactions see a consistent memory.  The calls that a transaction has made so
    far, also one that will be aborted, return what they would if the transaction ran alone
    after a prefix of the serial order, which holds every transaction that had committed when
    it began: no transaction ever runs on a mixture of two states. *)
Theorem tl2_opaque acts s es t :
  trace avp Owner Ordinal hb acts (TxOnce m0) = Some (s, es) ->
  let h := observed es in
  live (at_ (threads s t)) = true ->
  exists l1 l2 m1 m2, serial h = l1 ++ l2 /\ exec (mjoin (tx_calls <$> l1)) m0 = Some m1 /\
    exec (calls h t) m1 = Some m2 /\ (forall c, c ∈ serial h -> (tx_no c < since h t)%nat -> c ∈ l1).
Proof using Hptr.
  intros H h Hl. destruct (trace_inv acts s es H) as (pv & cv & rd & rs & Hinv).
  destruct (live_fact avp Owner hb m0 t Hinv Hl) as [_ _ L3 L4 _ _].
  assert (Hok : forall r, r ∈ rs -> rec_ok m0 rs r) by (intros r Hr; by apply (inv_recs _ _ _ _ _ _ _ _ _ _ Hinv r)).
  destruct (snap_prefix m0 rs (rvof (threads s t)) (inv_sorted _ _ _ _ _ _ _ _ _ _ Hinv) Hok) as (pre & post & Hrs & Hsn & Hin).
  destruct (serial_exec m0 rs (inv_sorted _ _ _ _ _ _ _ _ _ _ Hinv) Hok pre post Hrs) as (m & He & Hm).
  destruct (L3 m) as (m2 & He2 & _); [intros a _; by rewrite Hm, Hsn|].
  exists (r_tx <$> pre), (r_tx <$> post), m, m2. unfold h. rewrite (inv_serial _ _ _ _ _ _ _ _ _ _ Hinv). split_and!; [|done|done|].
  - by rewrite Hrs, fmap_app.
  - intros c (r & -> & Hr)%list_elem_of_fmap Hc. apply list_elem_of_fmap. exists r. split; [done|]. apply Hin; [done|]. by apply L4.
Qed.

End theorems.

(** *** Assertions *)

Section asserts.
Context (avp : nat -> nat -> Z) (Owner Ordinal : Z -> nat).

(** Opens a step of the machine. *)
Ltac open_step H :=
  unfold step, TxStart, TxLoad, TxStore, TxStoreLocal, TxCommit, advance, load_check, store_valu, store_check, TrackLoad, record_store,
    ReadSetCoherentPessimistic, acq_load, acq_cas, spin_load, spin_cas, spin_again, take_lock, gv_cas, ReadSetCoherent, WriteBackForward,
    DropLocks, RestoreLocks, TxAbort, goto in H;
  repeat first
    [ match type of H with context [?o ≫= _] => destruct o eqn:?; cbn [mbind option_bind] in H end
    | case_match ]; simplify_eq/=.

(** A step changes the thread that makes it. *)
Lemma step_actor a s s' es : step avp Owner Ordinal a s = Some (s', es) ->
  forall u, u <> actor a -> threads s' u = threads s u.
Proof.
  intros H u Hu. destruct a as [t ro|t a|t a v|t a v|t|t|t]; simpl in Hu; open_step H; try done; by rewrite fn_lookup_insert_ne.
Qed.

(** Between transactions a thread is idle or aborted. *)
Definition mode_ok (x : tstate) : Prop :=
  match at_ x with Out => Mode (self x) = TIDLE \/ Mode (self x) = TABORTED | Restore _ => Mode (self x) = TABORTED | _ => True end.

Lemma step_mode a s s' es t : step avp Owner Ordinal a s = Some (s', es) -> mode_ok (threads s t) -> mode_ok (threads s' t).
Proof.
  intros H Hm. destruct (decide (t = actor a)) as [-> |Hne]; [|by rewrite (step_actor _ _ _ _ H)].
  destruct a as [t ro|t a|t a v|t a v|t|t|t]; simpl in *; open_step H; rewrite ?fn_lookup_insert; unfold mode_ok in *; simpl; auto;
    match goal with E : at_ _ = _ |- _ => rewrite E in Hm end; auto; unfold acquire_from; by destruct (_ <? _)%nat.
Qed.

(** The logs hold pointers: no null address is written, and every lock is in the table. *)
Definition ptrs_ok (x : tstate) : Prop :=
  Forall (fun e => not_null (Addr e) = true /\ in_table (LockFor e) = true) (pairs x) /\
  Forall (fun l => in_table l = true) (loads x) /\
  match at_ x with
  | StoreLock a _ | StoreValu a _ _ | StoreCheck a _ _ => not_null a = true
  | Scan l _ => in_table l = true
  | _ => True
  end.

Lemma PSLOCK_in_table a : in_table (PSLOCK a) = true.
Proof.
  unfold in_table, PSLOCK, TABMSK, _TABSZ. change (Z.shiftl 1 20 - 1) with (Z.ones 20). rewrite Z.land_ones by lia.
  change (Z.shiftl 1 20) with (2 ^ 20). pose proof (Z.mod_pos_bound (Z.shiftr (u32 (a + COLOR)) PSSHIFT) (2 ^ 20) ltac:(lia)). lia.
Qed.

Lemma put_entry_Forall {A} (P : A -> Prop) (k : Log A) e : Forall P (entries k) -> P e -> Forall P (entries (put_entry k e)).
Proof. intros Hk He. unfold put_entry. destruct (at_end k); simpl; apply Forall_app; auto. Qed.

Lemma alter_Forall (P : AVPair -> Prop) f i es : (forall e, P e -> P (f e)) -> Forall P es -> Forall P (alter f i es).
Proof.
  intros Hf Hes. apply Forall_forall. intros e He. apply list_elem_of_lookup in He as [j He]. rewrite Forall_lookup in Hes.
  rewrite list_lookup_alter in He. case_decide; [|by eapply Hes]. subst j. apply fmap_Some in He as (e0 & He & ->). eapply Hf, Hes, He.
Qed.

Lemma step_ptrs a s s' es t : step avp Owner Ordinal a s = Some (s', es) -> stores_somewhere a ->
  ptrs_ok (threads s t) -> ptrs_ok (threads s' t).
Proof.
  intros H Ha Hp. destruct (decide (t = actor a)) as [-> |Hne]; [|by rewrite (step_actor _ _ _ _ H)].
  destruct Hp as (Hw & Hr & Hpc).
  destruct a as [t ro|t a|t a v|t a v|t|t|t]; simpl in *; open_step H; rewrite ?fn_lookup_insert; unfold ptrs_ok, acquire_from; simpl in *.
  all: try match goal with E : at_ _ = _ |- _ => rewrite E in Hpc end.
  all: split_and!; auto; try (by case_match); try (by apply Forall_nil_2);
    try (apply put_entry_Forall; auto); try (apply alter_Forall; [by intros []|done]); try (split; [done|]); try apply PSLOCK_in_table.
  all: try (unfold not_null; lia); try (destruct (_ <? _)%nat; done).
  by match goal with E : pairs _ = _ |- _ => rewrite E end.
Qed.

Lemma trace_ptrs hb acts t : forall s s' es,
  trace avp Owner Ordinal hb acts s = Some (s', es) -> Forall stores_somewhere acts -> ptrs_ok (threads s t) -> ptrs_ok (threads s' t).
Proof.
  induction acts as [|a acts IH]; intros s s' es H Ha Hm; cbn [trace] in H; [by simplify_eq|]. apply Forall_cons in Ha as [Ha Has].
  destruct (step avp Owner Ordinal a s) as [[s1 es1]|] eqn:E1; cbn [mbind option_bind] in H; [|done]. case_match; [|done].
  destruct (trace avp Owner Ordinal hb acts s1) as [[s2 es2]|] eqn:E2; cbn [mbind option_bind] in H; [|done]. simplify_eq.
  eapply IH; [exact E2|done|]. by eapply step_ptrs.
Qed.

(** *** The steps a call still takes *)

(** At most so many steps for an entry of the write set. *)
Definition per_entry : nat := (2 * ctr + 4)%nat.

Definition remaining (x : tstate) : nat :=
  let n := length (pairs x) in
  let r := length (loads x) in
  let clock := (r + 2 * n + 5)%nat in
  match at_ x with
  | Out | Ready => 0
  | LoadLock _ | StoreLock _ _ => r + n + 5
  | LoadValu _ _ | StoreValu _ _ _ => r + n + 4
  | LoadCheck _ _ _ | StoreCheck _ _ _ => r + n + 3
  | Scan _ j => (r - j) + n + 2
  | AcqLoad i => (n - i) * per_entry + clock
  | AcqCas i _ => (n - S i) * per_entry + clock + 1
  | SpinLoad i c => (n - S i) * per_entry + clock + 2 * c + 2
  | SpinCas i c _ => (n - S i) * per_entry + clock + 2 * c + 1
  | GvLoad => clock
  | GvCas _ => r + 2 * n + 4
  | Validate j _ => (r - j) + 2 * n + 3
  | WriteBack i => (n - i) + n + 2
  | Drop i | Restore i => (n - i) + 1
  end%nat.

Lemma remaining_done x : remaining x = O <-> at_ x = Out \/ at_ x = Ready.
Proof.
  unfold remaining. generalize per_entry as k. intros k.
  destruct (at_ x); (split; [intros H; auto; exfalso; revert H; try generalize ((length (pairs x) - i) * k)%nat;
    try generalize ((length (pairs x) - S i) * k)%nat; lia|by intros [?|?]]).
Qed.

Lemma entry_left n i : (i < n)%nat -> ((n - i) * per_entry = (n - S i) * per_entry + (2 * ctr + 4))%nat.
Proof. intros H. unfold per_entry. replace (n - i)%nat with (S (n - S i)) by lia. simpl. lia. Qed.

Lemma advance_decreases t s s' es :
  advance avp Owner Ordinal t (threads s t) s = Some (s', es) -> (remaining (threads s' t) < remaining (threads s t))%nat.
Proof.
  intros H. open_step H; rewrite ?fn_lookup_insert; unfold remaining, acquire_from; simpl; rewrite ?length_alter;
    match goal with E : at_ _ = _ |- _ => rewrite E end;
    repeat match goal with E : _ !! _ = Some _ |- _ => apply lookup_lt_Some in E end;
    repeat match goal with |- context [(?a <? ?b)%nat] => destruct (Nat.ltb_spec a b) end;
    repeat match goal with E : (?i < ?n)%nat |- context [((?n - ?i) * per_entry)%nat] => rewrite (entry_left n i E) end;
    repeat match goal with |- context [(?a * per_entry)%nat] => generalize (a * per_entry)%nat; intros ? end;
    unfold ctr; lia.
Qed.

(** Steps of a call in a run in which the thread makes no other calls. *)
Lemma trace_remaining hb acts t : forall s s' es,
  trace avp Owner Ordinal hb acts s = Some (s', es) -> Forall (fun a => actor a = t -> a = Step t) acts ->
  (length (filter (fun a => actor a = t) acts) + remaining (threads s' t) <= remaining (threads s t))%nat.
Proof.
  induction acts as [|a acts IH]; intros s s' es H Hf; cbn [trace] in H; [simplify_eq; simpl; lia|].
  destruct (step avp Owner Ordinal a s) as [[s1 es1]|] eqn:E1; cbn [mbind option_bind] in H; [|done]. case_match; [|done].
  destruct (trace avp Owner Ordinal hb acts s1) as [[s2 es2]|] eqn:E2; cbn [mbind option_bind] in H; [|done]. simplify_eq.
  apply Forall_cons in Hf as [Ha Hf]. specialize (IH _ _ _ E2 Hf). rewrite filter_cons. case_decide as Et.
  - rewrite (Ha Et) in E1. apply advance_decreases in E1. simpl. lia.
  - rewrite (step_actor _ _ _ _ E1 t) in IH by congruence. done.
Qed.

Lemma trace_mode hb acts t : forall s s' es,
  trace avp Owner Ordinal hb acts s = Some (s', es) -> mode_ok (threads s t) -> mode_ok (threads s' t).
Proof.
  induction acts as [|a acts IH]; intros s s' es H Hm; cbn [trace] in H; [by simplify_eq|].
  destruct (step avp Owner Ordinal a s) as [[s1 es1]|] eqn:E1; cbn [mbind option_bind] in H; [|done]. case_match; [|done].
  destruct (trace avp Owner Ordinal hb acts s1) as [[s2 es2]|] eqn:E2; cbn [mbind option_bind] in H; [|done]. simplify_eq.
  eapply IH; [exact E2|]. by eapply step_mode.
Qed.

End asserts.

Section calls.
Context (avp : nat -> nat -> Z) (Owner Ordinal : Z -> nat) (hb : Z) (m0 : Z -> Z).
Context (Hptr : pointers avp Owner Ordinal hb).

Lemma even_land v : Z.even v = true -> (Z.land v LOCKBIT =? 0) = true.
Proof. intros H. by rewrite land_lockbit_even. Qed.

(** In the middle of a call there is always a next step. *)
Lemma advance_defined s h pv cv rd rs t :
  inv avp Owner hb m0 s h pv cv rd rs -> at_ (threads s t) <> Out -> at_ (threads s t) <> Ready ->
  is_Some (advance avp Owner Ordinal t (threads s t) s).
Proof using Hptr.
  destruct Hptr as [P1 P2 P3 P4 P5]. intros Hinv H1 H2. pose proof (th_locks _ _ _ _ _ _ _ _ _ _ _ (thread_fact avp Owner hb m0 t Hinv)) as Hlk.
  unfold locks_ok in Hlk. unfold advance.
  destruct (at_ (threads s t)) as [| |a|a q|a q v|a v|a v q|a v q|l j|i|i q|i c|i c q| |gv|j dx|i|i|i] eqn:Hat; try done; try by eexists.
  all: destruct Hlk as (Hi & _); destruct (lookup_lt_is_Some_2 _ _ Hi) as [p Hp]; rewrite Hp; cbn [mbind option_bind]; try by eexists.
  unfold acq_load. destruct (mine Owner t _) eqn:Em; [|by case_match; eexists]. case_match; [|by eexists].
  unfold mine in Em. apply andb_true_iff in Em as [El Eo%Nat.eqb_eq].
  destruct (inv_lock _ _ _ _ _ _ _ _ _ _ Hinv (LockFor p)) as [[Hw _]|(u & k & Hw & (q & Hq & _) & _)].
  - by rewrite Hw, (free_pv _ _ _ _ Hinv) in El.
  - rewrite Hw, (word_owner avp Owner P1 P3) in Eo. subst u. rewrite Hw, (word_ordinal avp Ordinal P2 P3), Hq. by eexists.
Qed.

(** C25: every call returns, whatever the other threads do.  In the middle of a call a thread can
    always make its next step, and until it makes another call it makes at most
    [remaining] steps, a number that depends only on its logs: the loops are bounded, nothing
    waits for another thread. *)
Theorem tl2_calls_return acts s es t acts' s' es' :
  trace avp Owner Ordinal hb acts (TxOnce m0) = Some (s, es) ->
  trace avp Owner Ordinal hb acts' s = Some (s', es') -> Forall (fun a => actor a = t -> a = Step t) acts' ->
  (length (filter (fun a => actor a = t) acts') <= remaining (threads s t))%nat /\
  (at_ (threads s' t) = Out \/ at_ (threads s' t) = Ready \/ is_Some (step avp Owner Ordinal (Step t) s')).
Proof using Hptr.
  intros H H' Hf. pose proof (trace_remaining _ _ _ _ _ _ _ _ _ H' Hf). split; [lia|].
  destruct (trace_inv avp Owner Ordinal hb m0 Hptr acts s es H) as (pv & cv & rd & rs & Hinv).
  destruct Hptr as [P1 P2 P3 P4 P5]. destruct (trace_good avp Owner Ordinal hb m0 P1 P2 P3 P4 ltac:(lia) acts' s (observed es) s' es') as (pv' & cv' & rd' & rs' & Hinv');
    [by exists pv, cv, rd, rs|done|].
  destruct (decide (remaining (threads s' t) = O)) as [Hd%remaining_done|Hd]; [tauto|]. right; right.
  apply (advance_defined s' _ pv' cv' rd' rs' t Hinv'); intros E; apply Hd, remaining_done; auto.
Qed.

(** C26: the assertions that [asserts] lists, those of this build's [TxStart], [TxLoad], [TxStore], [TxCommit],
    [TryFastUpdate], [GVGenerateWV_GV4], [RecordStore], of the checks of the read set and of [DropLocks] and [RestoreLocks],
    hold wherever the run is, for clients that store through no null pointer and while the clock
    stays below the addresses of the log entries ([hb]): the clock and the
    versions are even, a write version is new, above the read version, the last write version
    and the version of every lock taken; a transaction starts with empty logs; the logs hold
    no null address and only locks of the table; entries belong to their thread, and a lock is
    given back by the entry that holds it. *)
Theorem tl2_asserts_hold acts s es t :
  trace avp Owner Ordinal hb acts (TxOnce m0) = Some (s, es) -> Forall stores_somewhere acts ->
  asserts avp Owner t s = true.
Proof using Hptr.
  intros H Hacts. destruct (trace_ptrs avp Owner Ordinal hb acts t _ _ _ H Hacts) as (Hpw & Hpr & Hpc).
  { split_and!; [apply Forall_nil_2|apply Forall_nil_2|done]. }
  assert (Hpl : forall i p, pairs (threads s t) !! i = Some p -> not_null (Addr p) && in_table (LockFor p) = true)
    by (intros i p Hp; by destruct (Forall_lookup_1 _ _ _ _ Hpw Hp) as [-> ->]).
  assert (Hrl : forall i, match loads (threads s t) !! i with Some l => in_table l | None => true end = true)
    by (intros i; destruct (loads (threads s t) !! i) eqn:Hl; [by apply (Forall_lookup_1 _ _ _ _ Hpr Hl)|done]). pose proof (trace_mode avp Owner Ordinal hb acts t _ _ _ H ltac:(by left)) as Hm.
  destruct (trace_inv avp Owner Ordinal hb m0 Hptr acts s es H) as (pv & cv & rd & rs & Hinv). destruct Hptr as [P1 P2 P3 P4 P5].
  pose proof (thread_fact avp Owner hb m0 t Hinv) as Ht. pose proof (inv_clock _ _ _ _ _ _ _ _ _ _ Hinv) as [E1 E2].
  pose proof (th_locks _ _ _ _ _ _ _ _ _ _ _ Ht) as Hlk. pose proof (th_clock _ _ _ _ _ _ _ _ _ _ _ Ht) as (K1 & K2 & K3).
  pose proof (live_fact avp Owner hb m0 t Hinv) as Hl. unfold asserts, mode_ok, locks_ok in *.
  destruct (at_ (threads s t)) as [| |a|a q|a q v|a v|a v q|a v q|l j|i|i q|i c|i c q| |gv|j dx|i|i|i] eqn:Hat; try done.
  - rewrite !andb_true_r. destruct Hm as [-> | ->]; by apply even_land.
  - rewrite (live_mode _ _ _ _ _ _ _ (Hl eq_refl)). apply forallb_forall. intros e He%list_elem_of_In.
    rewrite Forall_forall in Hpw. by apply Hpw.
  - rewrite Hpc. apply forallb_forall. intros e He%list_elem_of_In. rewrite Forall_forall in Hpw.
    rewrite (proj1 (Hpw e He)). destruct (Z.eqb_spec (Addr e) a) as [<- |]; [simpl|done].
    apply Z.eqb_eq, (th_pairs _ _ _ _ _ _ _ _ _ _ _ Ht e He).
  - rewrite Hrl, andb_true_r. by apply even_land, (live_rv _ _ _ _ _ _ _ (Hl eq_refl)).
  - destruct Hlk as (Hi & Hn & _). destruct (lookup_lt_is_Some_2 _ _ Hi) as [p Hp]. rewrite Hp, (Hpl _ _ Hp), P1, Nat.eqb_refl, andb_true_r. destruct (Held p) eqn:Hh; [|done].
    pose proof (Hn i (LockFor p) (rdv p) ltac:(by exists p)). lia.
  - destruct Hlk as (_ & _ & Hq). destruct K3 as (K3 & K4 & K5).
    destruct (gv4_fresh gv (_GCLOCK s)) as (c & w & -> & C1 & C2 & C3 & C4); [done|done|lia|lia|lia|]. simpl.
    rewrite even_land by done. destruct (Z.eqb_spec w 0), (Z.ltb_spec (wvof (threads s t)) w), (Z.ltb_spec (rvof (threads s t)) w); try lia. simpl.
    apply forallb_forall. intros e (k & Hk)%list_elem_of_In%list_elem_of_lookup_1. destruct (Held e) eqn:Hh; [simpl|done].
    pose proof (Hq k (LockFor e) (rdv e) ltac:(by exists e)). apply Z.ltb_lt. lia.
  - rewrite Hrl, andb_true_r. by apply even_land, (live_rv _ _ _ _ _ _ _ (Hl eq_refl)).
  - destruct (pairs (threads s t) !! i) as [p|] eqn:Hp; [|done]. rewrite (Hpl _ _ Hp). destruct (Held p) eqn:Hh; [simpl|done].
    assert (Hheld : held (threads s t) i (LockFor p) (rdv p)) by by exists p.
    rewrite (inv_held _ _ _ _ _ _ _ _ _ _ Hinv _ _ _ _ Hheld), (mine_word avp Owner P1 P3), Nat.eqb_refl. destruct (Hlk _ _ _ Hheld) as [_ Hlt].
    unfold word. rewrite Z.eqb_refl, !andb_true_r. by apply Z.ltb_lt.
  - destruct (pairs (threads s t) !! i) as [p|] eqn:Hp; [|done]. rewrite (Hpl _ _ Hp). destruct (Held p) eqn:Hh; [simpl|done].
    assert (Hheld : held (threads s t) i (LockFor p) (rdv p)) by by exists p.
    destruct (held_fact avp Owner Ordinal hb m0 P1 P2 P3 Hinv t i _ _ Hheld) as (Hw & Hq & _).
    rewrite Hw, (mine_word avp Owner P1 P3), Nat.eqb_refl. unfold word. rewrite Z.eqb_refl, !andb_true_r, Hq.
    apply even_land, (inv_ver _ _ _ _ _ _ _ _ _ _ Hinv).
Qed.

End calls.

(** *** An example

    A writer and a reader: the reader loads before the writer commits, and commits after it. *)
Definition example_head : list act :=
  [Start 0 false; Start 1 true; Store 0 100 1; Step 0; Step 0; Load 1 100; Step 1; Step 1; Step 1; Load 0 100; Commit 0].

Definition example_tail : list act :=
  replicate 10 (Step 0) ++ [Commit 1; Start 2 false; Load 2 100; Step 2; Step 2; Step 2].

Definition example : list act := example_head ++ example_tail.

Definition example_run : option (system * list event) :=
  trace entry_at owner_at ordinal_at heap example (TxOnce (fun _ => 0)).

Definition shown : option (list (list call) * list call * Z) :=
  '(s, es) ← example_run; Some (tx_calls <$> serial (observed es), calls (observed es) 2, mem s 100).

Lemma example_shown : shown = Some ([[Ld 100 0]; [St 100 1; Ld 100 1]], [Ld 100 1], 1).
Proof. vm_compute. reflexivity. Qed.

Lemma example_runs : match example_run with Some (s, _) => negb (locked (LockTab s (PSLOCK 100))) && live (at_ (threads s 2)) | None => false end = true.
Proof. vm_compute. reflexivity. Qed.

Lemma tl2_serializable_witness : exists s es m, example_run = Some (s, es) /\
  exec (mjoin (tx_calls <$> serial (observed es))) (fun _ => 0) = Some m /\ mem s 100 = m 100.
Proof.
  pose proof example_runs as Hx. unfold example_run in *. destruct (trace _ _ _ _ _ _) as [[s es]|] eqn:E; [|discriminate Hx]. apply andb_true_iff in Hx as [Hx _].
  destruct (tl2_serializable entry_at owner_at ordinal_at heap (fun _ => 0) entry_pointers example s es E) as (m & He & Hm & _).
  exists s, es, m. split_and!; [reflexivity|exact He|]. apply Hm. apply negb_true_iff. exact Hx.
Defined.

Lemma tl2_opaque_witness : exists s es l1 l2 m1 m2, example_run = Some (s, es) /\
  serial (observed es) = l1 ++ l2 /\ exec (mjoin (tx_calls <$> l1)) (fun _ => 0) = Some m1 /\ exec (calls (observed es) 2) m1 = Some m2.
Proof.
  pose proof example_runs as Hx. unfold example_run in *. destruct (trace _ _ _ _ _ _) as [[s es]|] eqn:E; [|discriminate Hx]. apply andb_true_iff in Hx as [_ Hx].
  destruct (tl2_opaque entry_at owner_at ordinal_at heap (fun _ => 0) entry_pointers example s es 2 E Hx) as (l1 & l2 & m1 & m2 & H1 & H2 & H3 & _).
  exists s, es, l1, l2, m1, m2. split_and!; [reflexivity|exact H1|exact H2|exact H3].
Defined.

Lemma tl2_calls_return_witness : exists s es s' es',
  trace entry_at owner_at ordinal_at heap example_head (TxOnce (fun _ => 0)) = Some (s, es) /\
  trace entry_at owner_at ordinal_at heap example_tail s = Some (s', es') /\
  (length (filter (fun a => actor a = 0%nat) example_tail) <= remaining (threads s 0))%nat.
Proof.
  assert (Hx : match trace entry_at owner_at ordinal_at heap example_head (TxOnce (fun _ => 0)) with
    | Some (s, _) => match trace entry_at owner_at ordinal_at heap example_tail s with Some _ => true | None => false end
    | None => false end = true) by (vm_compute; reflexivity).
  destruct (trace _ _ _ _ example_head _) as [[s es]|] eqn:E; [|discriminate Hx].
  destruct (trace _ _ _ _ example_tail s) as [[s' es']|] eqn:E'; [|discriminate Hx].
  exists s, es, s', es'. split_and!; [reflexivity|exact E'|].
  refine (proj1 (tl2_calls_return entry_at owner_at ordinal_at heap (fun _ => 0) entry_pointers example_head s es 0 example_tail s' es' E E' _)).
  unfold example_tail. repeat constructor; discriminate.
Defined.

Lemma tl2_asserts_hold_witness : exists s es, example_run = Some (s, es) /\ asserts entry_at owner_at 2 s = true.
Proof.
  pose proof example_runs as Hx. unfold example_run in *. destruct (trace _ _ _ _ _ _) as [[s es]|] eqn:E; [|discriminate Hx].
  exists s, es. split; [reflexivity|].
  refine (tl2_asserts_hold entry_at owner_at ordinal_at heap (fun _ => 0) entry_pointers example s es 2 E _).
  unfold example, example_head, example_tail. repeat constructor; discriminate.
Defined.

(** The bound on the clock is needed: [TxLoad] clears the lock bit of the word it reads first
    and later compares the result with a version, so a version that equals the address of a
    log entry lets a load accept a value from the middle of a commit.  Here entry 0 of
    thread 0 is at address 2, the first write version. *)
Lemma tl2_pointer_as_version :
  let at2 (t i : nat) := 2 + 2 * (Z.of_nat t + 1024 * Z.of_nat i) in
  let owner p := Z.to_nat (((p - 2) / 2) mod 1024) in
  let ordinal p := Z.to_nat ((p - 2) / 2048) in
  let acts := [Start 0 false; Store 0 100 1; Step 0; Step 0; Commit 0] ++ replicate 6 (Step 0) ++
    [Start 1 true; Load 1 100; Step 1; Step 1] ++ replicate 4 (Step 0) ++ [Step 1; Commit 1] in
  exists s es, trace at2 owner ordinal heap acts (TxOnce (fun _ => 0)) = Some (s, es) /\
    tx_calls <$> serial (observed es) = [[St 100 1]; [Ld 100 0]].
Proof.
  intros at2 owner ordinal acts.
  assert (Hx : match trace at2 owner ordinal heap acts (TxOnce (fun _ => 0)) with
    Some (_, es) => bool_decide (tx_calls <$> serial (observed es) = [[St 100 1]; [Ld 100 0]]) | None => false end = true).
  { vm_compute. reflexivity. }
  destruct (trace _ _ _ _ _ _) as [[s es]|]; [|discriminate Hx]. exists s, es. split; [done|]. by apply bool_decide_eq_true in Hx.
Qed.

(** ** Local variables

    The stores that [TxStoreLocal] logs are undone by an abort, the last one first. *)
Lemma local_undo (stores : list (Z * Z)) : forall (k : Log (Z * Z)) (m : Z -> Z) b,
  let r := foldl (fun '(k, m) '(a, v) => (SaveForRollBack k a (m a), <[a := v]> m)) (k, m) stores in
  WriteBackReverse r.1 r.2 b = WriteBackReverse k m b.
Proof.
  induction stores as [|[a v] stores IH]; intros k m b; [done|]. simpl in IH |- *. rewrite IH. unfold WriteBackReverse, SaveForRollBack.
  rewrite put_entries, foldr_app. simpl.
  assert (Hext : forall es (f g : Z -> Z), (forall c, f c = g c) -> forall c,
    foldr (fun e (m : Z -> Z) => <[e.1 := e.2]> m) f es c = foldr (fun e (m : Z -> Z) => <[e.1 := e.2]> m) g es c).
  { clear. intros es f g H. induction es as [|e es IH]; intros c; simpl; [done|]. rewrite !fn_insert_spec. by case_decide. }
  apply Hext. intros c. rewrite !fn_insert_spec. case_decide; [by subst|done].
Qed.

(** ** Freeing a block

    [txSterilize] stores the clock into the lock of every word it visits without looking
    whether the lock is held: a thread that is writing back loses its lock, here the one of
    address 100, and the stripe is free while its commit is under way. *)
Lemma sterilize_steals_lock :
  let r := trace entry_at owner_at ordinal_at heap (take 17 example) (TxOnce (fun _ => 0)) in
  exists s es, r = Some (s, es) /\ at_ (threads s 0) = WriteBack 0 /\ mine owner_at 0 (LockTab s (PSLOCK 100)) = true /\
    locked (LockTab (txSterilize 100 1 s) (PSLOCK 100)) = false.
Proof.
  assert (Hx : match trace entry_at owner_at ordinal_at heap (take 17 example) (TxOnce (fun _ => 0)) with
    | Some (s, _) => (match at_ (threads s 0) with WriteBack O => true | _ => false end) && mine owner_at 0 (LockTab s (PSLOCK 100)) &&
        negb (locked (LockTab (txSterilize 100 1 s) (PSLOCK 100)))
    | None => false end = true) by (vm_compute; reflexivity).
  intros r. subst r. destruct (trace _ _ _ _ _ _) as [[s es]|]; [|discriminate Hx]. exists s, es. zify_bool. split_and!; try done.
  by destruct (at_ (threads s 0)) as [| | | | | | | | | | | | | | | |[|]| |].
Qed.

(** It also walks [Length] words where the block has [Length] bytes. *)
Lemma sterilize_past_the_end s : mem (txSterilize 100 4 s) 104 = mem s 104 /\ LockTab (txSterilize 100 4 s) (PSLOCK 112) = Z.land (_GCLOCK s) (Z.lnot LOCKBIT).
Proof. split; [done|]. vm_compute. done. Qed.
