(* ===== verification/RbTree.v ===== *)
(** * The red-black tree of STAMP ([src/sws/benchmarks/stamp/lib/rbtree.c])

    The map behind vacation's tables.  The nodes live in a heap, a finite map from
    addresses, with parent pointers and without a sentinel; a dereference of an address that
    is not in the heap has no result, and neither has a loop that runs out of fuel.  The two
    families of functions ([rbtree_*] and [TMrbtree_*] inside a transaction) have the same
    bodies and differ in the macros that read, write and allocate: one definition stands for
    each body, and the variants are defined from it.

    Every body that treats left and right treats them symmetrically; the model writes such a
    body once, with the side [d] as an argument, and [rotateLeft], [rotateRight] and the two
    halves of the fix-up loops are its two instances. *)

From S2P Require Import Prelude.

Module Rb.

(** ** Data *)

Inductive dir := L | R.

#[export] Instance dir_eq_dec : EqDecision dir.
Proof. solve_decision. Defined.

Definition opp (d : dir) : dir := match d with L => R | R => L end.

Definition RED : Z := 0.
Definition BLACK : Z := 1.
Definition NULL : Z := 0.

Record node_t := Node { nk : Z; nv : Z; np : Z; nl : Z; nr : Z; nc : Z }.

(** [struct rbtree] and the memory its nodes are in. *)
Record rbtree := RbTree { root : Z; mem : gmap Z node_t }.

(** Fields by side. *)
Definition child (d : dir) (n : node_t) : Z := match d with L => nl n | R => nr n end.

Definition set_k (x : Z) (n : node_t) : node_t := Node x (nv n) (np n) (nl n) (nr n) (nc n).
Definition set_v (x : Z) (n : node_t) : node_t := Node (nk n) x (np n) (nl n) (nr n) (nc n).
Definition set_p (x : Z) (n : node_t) : node_t := Node (nk n) (nv n) x (nl n) (nr n) (nc n).
Definition set_c (x : Z) (n : node_t) : node_t := Node (nk n) (nv n) (np n) (nl n) (nr n) x.
Definition set_child (d : dir) (x : Z) (n : node_t) : node_t :=
  match d with
  | L => Node (nk n) (nv n) (np n) x (nr n) (nc n)
  | R => Node (nk n) (nv n) (np n) (nl n) x (nc n)
  end.

(** Loads and stores through a pointer. *)
Definition LDF {A} (f : node_t -> A) (x : Z) (s : rbtree) : option A := n ← mem s !! x; Some (f n).

Definition STF (f : node_t -> node_t) (x : Z) (s : rbtree) : option rbtree :=
  n ← mem s !! x; Some (RbTree (root s) (<[x := f n]> (mem s))).

Definition set_root (x : Z) (s : rbtree) : rbtree := RbTree x (mem s).

(** ** Helpers that accept null *)

Definition parentOf (x : Z) (s : rbtree) : option Z := if x =? NULL then Some NULL else LDF np x s.

Definition childOf (d : dir) (x : Z) (s : rbtree) : option Z :=
  if x =? NULL then Some NULL else LDF (child d) x s.

Definition leftOf : Z -> rbtree -> option Z := childOf L.
Definition rightOf : Z -> rbtree -> option Z := childOf R.

Definition colorOf (x : Z) (s : rbtree) : option Z := if x =? NULL then Some BLACK else LDF nc x s.

Definition setColor (x col : Z) (s : rbtree) : option rbtree :=
  if x =? NULL then Some s else STF (set_c col) x s.

(** [PARENT_OF(PARENT_OF(x))]. *)
Definition grandOf (x : Z) (s : rbtree) : option Z := px ← parentOf x s; parentOf px s.

(** ** Rotations *)

(** [rotate L] is [rotateLeft]: the child on the other side takes the place of [x]. *)
Definition rotate (d : dir) (x : Z) (s : rbtree) : option rbtree :=
  y ← LDF (child (opp d)) x s;
  t ← LDF (child d) y s;
  s ← STF (set_child (opp d) t) x s;
  s ← (if t =? NULL then Some s else STF (set_p x) t s);
  xp ← LDF np x s;
  s ← STF (set_p xp) y s;
  s ← (if xp =? NULL then Some (set_root y s)
       else
         ch ← LDF (child d) xp s;
         if ch =? x then STF (set_child d y) xp s else STF (set_child (opp d) y) xp s);
  s ← STF (set_child d x) y s;
  STF (set_p y) x s.

Definition rotateLeft : Z -> rbtree -> option rbtree := rotate L.
Definition rotateRight : Z -> rbtree -> option rbtree := rotate R.

(** ** Insertion *)

(** The body of the loop for a parent that is the [d] child of the grandparent. *)
Definition fixI_side (d : dir) (x : Z) (s : rbtree) : option (Z * rbtree) :=
  g ← grandOf x s;
  y ← childOf (opp d) g s;
  cy ← colorOf y s;
  if cy =? RED then
    px ← parentOf x s;
    s ← setColor px BLACK s;
    s ← setColor y BLACK s;
    g ← grandOf x s;
    s ← setColor g RED s;
    g ← grandOf x s;
    Some (g, s)
  else
    px ← parentOf x s;
    far ← childOf (opp d) px s;
    '(x, s) ← (if x =? far then s ← rotate d px s; Some (px, s) else Some (x, s));
    px ← parentOf x s;
    s ← setColor px BLACK s;
    g ← grandOf x s;
    s ← setColor g RED s;
    g ← grandOf x s;
    s ← (if g =? NULL then Some s else rotate (opp d) g s);
    Some (x, s).

Fixpoint fixI_loop (fuel : nat) (x : Z) (s : rbtree) : option rbtree :=
  if (x =? NULL) || (x =? root s) then Some s
  else
    match fuel with
    | O => None
    | S fuel =>
      xp ← LDF np x s;
      cp ← LDF nc xp s;
      if negb (cp =? RED) then Some s
      else
        px ← parentOf x s;
        g ← grandOf x s;
        lg ← leftOf g s;
        '(x, s) ← fixI_side (if px =? lg then L else R) x s;
        fixI_loop fuel x s
    end.

Definition fixAfterInsertion (x : Z) (s : rbtree) : option rbtree :=
  s ← STF (set_c RED) x s;
  s ← fixI_loop (base.size (mem s)) x s;
  cr ← LDF nc (root s) s;
  if negb (cr =? BLACK) then STF (set_c BLACK) (root s) s else Some s.

(** ** Deletion *)

Fixpoint leftmost (fuel : nat) (x : Z) (s : rbtree) : option Z :=
  xl ← LDF nl x s;
  if xl =? NULL then Some x
  else match fuel with O => None | S fuel => leftmost fuel xl s end.

Fixpoint climb (fuel : nat) (ch x : Z) (s : rbtree) : option Z :=
  if x =? NULL then Some NULL
  else
    xr ← LDF nr x s;
    if negb (ch =? xr) then Some x
    else match fuel with O => None | S fuel => xp ← LDF np x s; climb fuel x xp s end.

Definition successor (t : Z) (s : rbtree) : option Z :=
  if t =? NULL then Some NULL
  else
    tr ← LDF nr t s;
    if negb (tr =? NULL) then leftmost (base.size (mem s)) tr s
    else tp ← LDF np t s; climb (base.size (mem s)) t tp s.

(** The body of the loop for an [x] that is the [d] child of its parent: the last case, in
    which the sibling has a red child on the far side ... *)
Definition fixD_final (d : dir) (x sib : Z) (s : rbtree) : option (Z * rbtree) :=
  px ← parentOf x s;
  cp ← colorOf px s;
  s ← setColor sib cp s;
  px ← parentOf x s;
  s ← setColor px BLACK s;
  far ← childOf (opp d) sib s;
  s ← setColor far BLACK s;
  px ← parentOf x s;
  s ← rotate d px s;
  Some (root s, s).

(** ... the cases of a black sibling ... *)
Definition fixD_rest (d : dir) (x sib : Z) (s : rbtree) : option (Z * rbtree) :=
  near ← childOf d sib s;
  cn ← colorOf near s;
  far ← childOf (opp d) sib s;
  cf ← colorOf far s;
  if (cn =? BLACK) && (cf =? BLACK) then
    s ← setColor sib RED s;
    px ← parentOf x s;
    Some (px, s)
  else
    '(sib, s) ← (if cf =? BLACK then
        near ← childOf d sib s;
        s ← setColor near BLACK s;
        s ← setColor sib RED s;
        s ← rotate (opp d) sib s;
        px ← parentOf x s;
        sib ← childOf (opp d) px s;
        Some (sib, s)
      else Some (sib, s));
    fixD_final d x sib s.

(** ... after a red sibling has been rotated away. *)
Definition fixD_side (d : dir) (x : Z) (s : rbtree) : option (Z * rbtree) :=
  px ← parentOf x s;
  sib ← childOf (opp d) px s;
  cs ← colorOf sib s;
  '(sib, s) ← (if cs =? RED then
      s ← setColor sib BLACK s;
      px ← parentOf x s;
      s ← setColor px RED s;
      px ← parentOf x s;
      s ← rotate d px s;
      px ← parentOf x s;
      sib ← childOf (opp d) px s;
      Some (sib, s)
    else Some (sib, s));
  fixD_rest d x sib s.

Fixpoint fixD_loop (fuel : nat) (x : Z) (s : rbtree) : option (Z * rbtree) :=
  if x =? root s then Some (x, s)
  else
    cx ← colorOf x s;
    if negb (cx =? BLACK) then Some (x, s)
    else
      match fuel with
      | O => None
      | S fuel =>
        px ← parentOf x s;
        lx ← leftOf px s;
        '(x, s) ← fixD_side (if x =? lx then L else R) x s;
        fixD_loop fuel x s
      end.

Definition fixAfterDeletion (x : Z) (s : rbtree) : option rbtree :=
  '(x, s) ← fixD_loop (S (base.size (mem s))) x s;
  if x =? NULL then Some s
  else
    cx ← LDF nc x s;
    if negb (cx =? BLACK) then STF (set_c BLACK) x s else Some s.

(** The first part of [delete_node]: a node with two children takes the contents of its
    successor, which is then the one to go. *)
Definition pick_node (x : Z) (s : rbtree) : option (Z * rbtree) :=
  xl ← LDF nl x s;
  xr ← LDF nr x s;
  if negb (xl =? NULL) && negb (xr =? NULL) then
    y ← successor x s;
    ky ← LDF nk y s;
    s ← STF (set_k ky) x s;
    vy ← LDF nv y s;
    s ← STF (set_v vy) x s;
    Some (y, s)
  else Some (x, s).

(** The second part: the only child of [x] takes its place ... *)
Definition splice_node (x replacement xp : Z) (s : rbtree) : option rbtree :=
  s ← STF (set_p xp) replacement s;
  pp ← LDF np x s;
  s ← (if pp =? NULL then Some (set_root replacement s)
       else
         ppl ← LDF nl pp s;
         if x =? ppl then STF (set_child L replacement) pp s
         else STF (set_child R replacement) pp s);
  s ← STF (set_child L NULL) x s;
  s ← STF (set_child R NULL) x s;
  s ← STF (set_p NULL) x s;
  cx ← LDF nc x s;
  if cx =? BLACK then fixAfterDeletion replacement s else Some s.

(** ... or [x], a leaf, is cut off its parent ... *)
Definition cut_node (x : Z) (s : rbtree) : option rbtree :=
  pp ← LDF np x s;
  if negb (pp =? NULL) then
    ppl ← LDF nl pp s;
    s ← (if x =? ppl then STF (set_child L NULL) pp s
         else
           ppr ← LDF nr pp s;
           if x =? ppr then STF (set_child R NULL) pp s else Some s);
    STF (set_p NULL) x s
  else Some s.

(** ... after the fix-up, in which it stands for the missing black node. *)
Definition unlink_node (x : Z) (s : rbtree) : option rbtree :=
  xl ← LDF nl x s;
  xr ← LDF nr x s;
  let replacement := if negb (xl =? NULL) then xl else xr in
  xp ← LDF np x s;
  if negb (replacement =? NULL) then splice_node x replacement xp s
  else if xp =? NULL then Some (set_root NULL s)
  else
    cx ← LDF nc x s;
    s ← (if cx =? BLACK then fixAfterDeletion x s else Some s);
    cut_node x s.

Definition delete_node (x : Z) (s : rbtree) : option (Z * rbtree) :=
  '(x, s) ← pick_node x s;
  s ← unlink_node x s;
  Some (x, s).

(** ** Allocation: the address and the first contents of a new node are arguments. *)

Definition rbtree_alloc (m : gmap Z node_t) : rbtree := RbTree NULL m.

Definition getNode (n : Z) (junk : node_t) (s : rbtree) : rbtree :=
  RbTree (root s) (<[n := junk]> (mem s)).

Definition releaseNode (n : Z) (s : rbtree) : rbtree := RbTree (root s) (delete n (mem s)).

(** [freeNode] releases a whole subtree. *)
Fixpoint freeNode (fuel : nat) (n : Z) (s : rbtree) : option rbtree :=
  if n =? NULL then Some s
  else
    match fuel with
    | O => None
    | S fuel =>
      nl' ← LDF nl n s;
      s ← freeNode fuel nl' s;
      nr' ← LDF nr n s;
      s ← freeNode fuel nr' s;
      Some (releaseNode n s)
    end.

Definition rbtree_free (s : rbtree) : option rbtree := freeNode (base.size (mem s)) (root s) s.

(** ** The operations that compare keys *)

Section compare.
Context (compare : Z -> Z -> Z) (junk : node_t).

Fixpoint lookup_loop (fuel : nat) (x key : Z) (s : rbtree) : option Z :=
  if x =? NULL then Some NULL
  else
    match fuel with
    | O => None
    | S fuel =>
      kx ← LDF nk x s;
      let cmp := compare key kx in
      if cmp =? 0 then Some x
      else
        x ← LDF (child (if cmp <? 0 then L else R)) x s;
        lookup_loop fuel x key s
    end.

Definition lookup (key : Z) (s : rbtree) : option Z := lookup_loop (base.size (mem s)) (root s) key s.

(** The new node [n] becomes the [d] child of [t], which has none. *)
Definition attach (d : dir) (t key val n : Z) (s : rbtree) : option (Z * rbtree) :=
  s ← STF (set_child L NULL) n s;
  s ← STF (set_child R NULL) n s;
  s ← STF (set_k key) n s;
  s ← STF (set_v val) n s;
  s ← STF (set_p t) n s;
  s ← STF (set_child d n) t s;
  s ← fixAfterInsertion n s;
  Some (NULL, s).

(** The search of [insert] from [t]; [n] is the new node. *)
Fixpoint insert_loop (fuel : nat) (t key val n : Z) (s : rbtree) : option (Z * rbtree) :=
  match fuel with
  | O => None
  | S fuel =>
    kt ← LDF nk t s;
    let cmp := compare key kt in
    if cmp =? 0 then Some (t, s)
    else
      let d := if cmp <? 0 then L else R in
      tc ← LDF (child d) t s;
      if negb (tc =? NULL) then insert_loop fuel tc key val n s else attach d t key val n s
  end.

Definition insert (key val n : Z) (s : rbtree) : option (Z * rbtree) :=
  let t := root s in
  if t =? NULL then
    if n =? NULL then Some (NULL, s)
    else
      s ← STF (set_child L NULL) n s;
      s ← STF (set_child R NULL) n s;
      s ← STF (set_p NULL) n s;
      s ← STF (set_k key) n s;
      s ← STF (set_v val) n s;
      s ← STF (set_c BLACK) n s;
      Some (NULL, set_root n s)
  else insert_loop (base.size (mem s)) t key val n s.

Definition rbtree_insert (key val node : Z) (s : rbtree) : option (bool * rbtree) :=
  let s := getNode node junk s in
  '(ex, s) ← insert key val node s;
  let s := if negb (ex =? NULL) then releaseNode node s else s in
  Some (ex =? NULL, s).

Definition rbtree_delete (key : Z) (s : rbtree) : option (bool * rbtree) :=
  node ← lookup key s;
  '(node, s) ← (if negb (node =? NULL) then delete_node node s else Some (node, s));
  let s := if negb (node =? NULL) then releaseNode node s else s in
  Some (negb (node =? NULL), s).

Definition rbtree_update (key val nn : Z) (s : rbtree) : option (bool * rbtree) :=
  let s := getNode nn junk s in
  '(ex, s) ← insert key val nn s;
  if negb (ex =? NULL) then
    s ← STF (set_v val) ex s;
    Some (true, releaseNode nn s)
  else Some (false, s).

Definition rbtree_get (key : Z) (s : rbtree) : option Z :=
  n ← lookup key s;
  if negb (n =? NULL) then LDF nv n s else Some NULL.

Definition rbtree_contains (key : Z) (s : rbtree) : option bool :=
  n ← lookup key s;
  Some (negb (n =? NULL)).

End compare.

(** The default comparison: a difference of [long]s. *)
Definition compareKeysDefault (a b : Z) : Z := s32 (a - b).

(** The transactional variants, in a build where [TM_FREE] is [free] (the sequential one and
    those with [malloc] in transactions); in the other builds of [tm.h] it is empty, and a
    released node stays allocated. *)
Definition TMlookup := lookup.
Definition TMrotateLeft := rotateLeft.
Definition TMrotateRight := rotateRight.
Definition TMparentOf := parentOf.
Definition TMleftOf := leftOf.
Definition TMrightOf := rightOf.
Definition TMcolorOf := colorOf.
Definition TMsetColor := setColor.
Definition TMfixAfterInsertion := fixAfterInsertion.
Definition TMinsert := insert.
Definition TMsuccessor := successor.
Definition TMfixAfterDeletion := fixAfterDeletion.
Definition TMdelete := delete_node.
Definition TMrbtree_alloc := rbtree_alloc.
Definition TMreleaseNode := releaseNode.
Definition TMfreeNode := freeNode.
Definition TMgetNode := getNode.
Definition TMrbtree_insert := rbtree_insert.
Definition TMrbtree_delete := rbtree_delete.
Definition TMrbtree_update := rbtree_update.
Definition TMrbtree_get := rbtree_get.
Definition TMrbtree_contains := rbtree_contains.

(** Nine insertions and five deletions, evaluated. *)
Definition ins (s : option rbtree) (key : Z) : option rbtree :=
  s ← s; snd <$> rbtree_insert compareKeysDefault (Node 0 0 0 0 0 0) key (key * 10) (1000 + key) s.
Definition del (s : option rbtree) (key : Z) : option rbtree :=
  s ← s; snd <$> rbtree_delete compareKeysDefault key s.

Example rbtree_runs :
  let s := foldl del (foldl ins (Some (rbtree_alloc ∅)) [5; 1; 8; 3; 2; 9; 7; 4; 6]) [5; 2; 9; 1] in
  (s ← s; mapM (fun key => rbtree_get compareKeysDefault key s) [1; 2; 3; 4; 5; 6; 7; 8; 9])
  = Some [0; 0; 30; 40; 0; 60; 70; 80; 0].
Proof. vm_compute. reflexivity. Qed.

End Rb.
