(* ===== verification/RbTreeProps.v ===== *)
(** * The red-black tree: heaps, trees and insertion

    [is_tree] relates a heap to an algebraic tree whose nodes carry their addresses; loads,
    recolourings and rotations of the code are steps on such trees, seen through a zipper
    ([plug]).  On top of that, the fix-up loop of an insertion restores the red-black
    conditions. *)

From S2P Require Import Prelude RbTree.
Import Rb.

(** ** Trees and contexts *)

Inductive tree := E | T (x k v c : Z) (a b : tree).

(** A node with [a] on side [d] and [b] on the other. *)
Definition mk (d : dir) (x k v c : Z) (a b : tree) : tree :=
  match d with L => T x k v c a b | R => T x k v c b a end.

Definition mkn (d : dir) (k v p ca cb c : Z) : node_t :=
  match d with L => Node k v p ca cb c | R => Node k v p cb ca c end.

(** A step from a node to its child on side [fd]; [fs] is the other child. *)
Record frame := F { fd : dir; fx : Z; fk : Z; fv : Z; fc : Z; fs : tree }.

Fixpoint plug (ctx : list frame) (t : tree) : tree :=
  match ctx with
  | [] => t
  | f :: ctx => plug ctx (mk (fd f) (fx f) (fk f) (fv f) (fc f) t (fs f))
  end.

Definition rt (t : tree) : Z := match t with E => NULL | T x _ _ _ _ _ => x end.

Definition up (ctx : list frame) : Z := match ctx with [] => NULL | f :: _ => fx f end.

Fixpoint top (ctx : list frame) (x : Z) : Z := match ctx with [] => x | f :: ctx => top ctx (fx f) end.

Fixpoint locs (t : tree) : list Z :=
  match t with E => [] | T x _ _ _ a b => x :: locs a ++ locs b end.

Fixpoint clocs (ctx : list frame) : list Z :=
  match ctx with [] => [] | f :: ctx => fx f :: locs (fs f) ++ clocs ctx end.

Fixpoint rep (h : gmap Z node_t) (t : tree) (par : Z) : Prop :=
  match t with
  | E => True
  | T x k v c a b => x <> NULL /\ h !! x = Some (Node k v par (rt a) (rt b) c) /\ rep h a x /\ rep h b x
  end.

Fixpoint repc (h : gmap Z node_t) (ctx : list frame) (x : Z) : Prop :=
  match ctx with
  | [] => True
  | f :: ctx => fx f <> NULL /\ h !! fx f = Some (mkn (fd f) (fk f) (fv f) (up ctx) x (rt (fs f)) (fc f))
      /\ rep h (fs f) (fx f) /\ repc h ctx (fx f)
  end.

Lemma rep_mk h d x k v c a b par :
  rep h (mk d x k v c a b) par
  <-> x <> NULL /\ h !! x = Some (mkn d k v par (rt a) (rt b) c) /\ rep h a x /\ rep h b x.
Proof. destruct d; cbn; tauto. Qed.

Lemma rt_mk d x k v c a b : rt (mk d x k v c a b) = x.
Proof. by destruct d. Qed.

Lemma locs_mk d x k v c a b : locs (mk d x k v c a b) ≡ₚ x :: locs a ++ locs b.
Proof. destruct d; cbn; [done|]. by rewrite (comm (++) (locs a)). Qed.

Lemma plug_rep h ctx : forall t, rep h (plug ctx t) NULL <-> rep h t (up ctx) /\ repc h ctx (rt t).
Proof.
  induction ctx as [|f ctx IH]; intros t; cbn; [tauto|]. rewrite IH, rep_mk, rt_mk. tauto.
Qed.

Lemma plug_locs ctx : forall t, locs (plug ctx t) ≡ₚ locs t ++ clocs ctx.
Proof.
  induction ctx as [|f ctx IH]; intros t; cbn; [by rewrite app_nil_r|].
  rewrite IH, locs_mk. cbn. rewrite <- app_assoc. by rewrite <- Permutation_middle.
Qed.

Lemma plug_rt ctx : forall t, rt (plug ctx t) = top ctx (rt t).
Proof. induction ctx as [|f ctx IH]; intros t; cbn; [done|]. by rewrite IH, rt_mk. Qed.

Lemma plug_app c1 : forall c2 t, plug (c1 ++ c2) t = plug c2 (plug c1 t).
Proof. induction c1 as [|f c1 IH]; intros c2 t; cbn; [done|]. by rewrite IH. Qed.

(** ** Heaps and trees *)

Lemma rep_null h t par : rep h t par -> NULL ∉ locs t.
Proof.
  revert par. induction t as [|x k v c a IHa b IHb]; intros par; cbn; [intros _; apply not_elem_of_nil|].
  intros (Hx & _ & Ha & Hb). rewrite not_elem_of_cons, not_elem_of_app.
  split_and!; [done|by eapply IHa|by eapply IHb].
Qed.

Lemma repc_null h ctx x : repc h ctx x -> NULL ∉ clocs ctx.
Proof.
  revert x. induction ctx as [|f ctx IH]; intros x; cbn; [intros _; apply not_elem_of_nil|].
  intros (Hx & _ & Hs & Hc). rewrite not_elem_of_cons, not_elem_of_app.
  split_and!; [done|by eapply rep_null|by eapply IH].
Qed.

Lemma rep_alter h f z t par : z ∉ locs t -> rep h t par -> rep (alter f z h) t par.
Proof.
  revert par. induction t as [|x k v c a IHa b IHb]; intros par; cbn; [done|].
  rewrite not_elem_of_cons, not_elem_of_app. intros (Hz & Ha & Hb) (Hx & Hl & Hra & Hrb).
  split_and!; [done| |by apply IHa|by apply IHb]. by rewrite lookup_alter_ne by done.
Qed.

Lemma repc_alter h f z ctx x : z ∉ clocs ctx -> repc h ctx x -> repc (alter f z h) ctx x.
Proof.
  revert x. induction ctx as [|g ctx IH]; intros x; cbn; [done|].
  rewrite not_elem_of_cons, not_elem_of_app. intros (Hz & Ha & Hb) (Hx & Hl & Hs & Hc).
  split_and!; [done| |by apply rep_alter|by apply IH]. by rewrite lookup_alter_ne by done.
Qed.

(** Re-parenting a subtree. *)
Lemma rep_set_p h t par q : NoDup (locs t) -> rep h t par -> rep (alter (set_p q) (rt t) h) t q.
Proof.
  destruct t as [|x k v c a b]; cbn; [done|]. rewrite NoDup_cons, not_elem_of_app. intros ((Ha & Hb) & _) (Hx & Hl & Hra & Hrb).
  split_and!; [done| |by apply rep_alter|by apply rep_alter]. by rewrite lookup_alter_eq, Hl.
Qed.

(** Making the parent point to another child. *)
Definition relink (d : dir) (x y : Z) (n : node_t) : node_t :=
  if child d n =? x then set_child d y n else set_child (opp d) y n.

Lemma relink_mkn d d' x y k v p cb c : x <> cb ->
  relink d x y (mkn d' k v p x cb c) = mkn d' k v p y cb c.
Proof.
  intros Hne. unfold relink. destruct d, d'; cbn; try (by rewrite Z.eqb_refl);
    destruct (Z.eqb_spec cb x); congruence.
Qed.

Lemma rt_not_in t z : z <> NULL -> z ∉ locs t -> z <> rt t.
Proof. destruct t; cbn; [done|]. rewrite not_elem_of_cons. tauto. Qed.

Lemma repc_relink h d ctx x y : NoDup (clocs ctx) -> x <> NULL -> x ∉ clocs ctx -> repc h ctx x ->
  repc (alter (relink d x y) (up ctx) h) ctx y.
Proof.
  destruct ctx as [|f ctx]; cbn; [done|]. rewrite NoDup_cons, !not_elem_of_cons, !not_elem_of_app.
  intros ((H1 & H2) & Hnd) Hx (Hxf & Hxs & Hxc) (Hf & Hl & Hs & Hc). split_and!; [done| |by apply rep_alter|by apply repc_alter].
  rewrite lookup_alter_eq, Hl. cbn. by rewrite relink_mkn by (by apply rt_not_in).
Qed.

(** ** A heap that holds a tree; [F] is the rest of the memory. *)
Record is_tree (Fr : Z -> option node_t) (s : rbtree) (t : tree) : Prop := {
  it_rep : rep (mem s) t NULL;
  it_nodup : NoDup (locs t);
  it_null : mem s !! NULL = None;
  it_root : root s = rt t;
  it_frame : forall z, z ∉ locs t -> mem s !! z = Fr z;
}.

Lemma is_tree_zip Fr s ctx t :
  is_tree Fr s (plug ctx t)
  <-> rep (mem s) t (up ctx) /\ repc (mem s) ctx (rt t) /\ NoDup (locs t ++ clocs ctx) /\ mem s !! NULL = None
      /\ root s = top ctx (rt t) /\ (forall z, z ∉ locs t ++ clocs ctx -> mem s !! z = Fr z).
Proof.
  assert (Hz : forall z, z ∉ locs t ++ clocs ctx <-> z ∉ locs (plug ctx t)) by (intros z; by rewrite plug_locs).
  split.
  - intros [H1 H2 H3 H4 H5]. rewrite plug_rep in H1. rewrite plug_locs in H2. rewrite plug_rt in H4.
    split_and!; try tauto. intros z. rewrite Hz. apply H5.
  - intros (H1 & H2 & H3 & H4 & H5 & H6). split; [by rewrite plug_rep|by rewrite plug_locs|done|by rewrite plug_rt|].
    intros z. rewrite <- Hz. apply H6.
Qed.

Lemma LDF_Some {A} (f : node_t -> A) x s n : mem s !! x = Some n -> LDF f x s = Some (f n).
Proof. unfold LDF. by intros ->. Qed.

Lemma STF_alter f x s : is_Some (mem s !! x) -> STF f x s = Some (RbTree (root s) (alter f x (mem s))).
Proof.
  intros [n Hn]. unfold STF. rewrite Hn. cbn. do 2 f_equal. apply map_eq. intros z.
  destruct (decide (z = x)) as [-> |Hne].
  - by rewrite lookup_insert_eq, lookup_alter_eq, Hn.
  - by rewrite lookup_insert_ne, lookup_alter_ne.
Qed.

Lemma alter_null f (h : gmap Z node_t) : h !! NULL = None -> alter f NULL h = h.
Proof.
  intros Hn. apply map_eq. intros z. destruct (decide (z = NULL)) as [-> |Hne].
  - by rewrite lookup_alter_eq, Hn.
  - by rewrite lookup_alter_ne.
Qed.

(** A store that is skipped for a null pointer. *)
Lemma STF_opt f x s : mem s !! NULL = None -> (x <> NULL -> is_Some (mem s !! x)) ->
  (if x =? NULL then Some s else STF f x s) = Some (RbTree (root s) (alter f x (mem s))).
Proof.
  intros Hn Hx. destruct (Z.eqb_spec x NULL) as [-> |Hne].
  - rewrite alter_null by done. by destruct s.
  - by apply STF_alter, Hx.
Qed.

Lemma is_Some_alter f x z (h : gmap Z node_t) : is_Some (h !! z) -> is_Some (alter f x h !! z).
Proof.
  intros [n Hn]. destruct (decide (z = x)) as [-> |Hne].
  - by rewrite lookup_alter_eq, Hn.
  - by rewrite lookup_alter_ne, Hn.
Qed.

Lemma alter_None f x z (h : gmap Z node_t) : h !! z = None -> alter f x h !! z = None.
Proof.
  intros Hn. destruct (decide (z = x)) as [-> |Hne].
  - by rewrite lookup_alter_eq, Hn.
  - by rewrite lookup_alter_ne, Hn.
Qed.

Lemma rt_dom h t par : rep h t par -> rt t <> NULL -> is_Some (h !! rt t).
Proof. destruct t; cbn; [done|]. intros (_ & -> & _). done. Qed.

Lemma up_dom h ctx x : repc h ctx x -> up ctx <> NULL -> is_Some (h !! up ctx).
Proof. destruct ctx; cbn; [done|]. intros (_ & -> & _). done. Qed.

(** The root of a tree and the parent of a context are outside a set that is disjoint from
    them and has no null. *)
Lemma rt_sep t (X : list Z) : NULL ∉ X -> (forall z, z ∈ locs t -> z ∉ X) -> rt t ∉ X.
Proof. destruct t; cbn; [done|]. intros _ H. apply H. by left. Qed.

Lemma up_sep ctx (X : list Z) : NULL ∉ X -> (forall z, z ∈ clocs ctx -> z ∉ X) -> up ctx ∉ X.
Proof. destruct ctx; cbn; [done|]. intros _ H. apply H. by left. Qed.

(** The link from the parent, or the root, is redirected. *)
Lemma redirect d x y s ctx h0 :
  mem s !! NULL = None -> (up ctx <> NULL -> is_Some (mem s !! up ctx)) ->
  h0 = alter (relink d x y) (up ctx) (mem s) ->
  (if up ctx =? NULL then Some (set_root y s)
   else ch ← LDF (child d) (up ctx) s;
     if ch =? x then STF (set_child d y) (up ctx) s else STF (set_child (opp d) y) (up ctx) s)
  = Some (RbTree (if up ctx =? NULL then y else root s) h0).
Proof.
  intros Hn Hu ->. destruct (Z.eqb_spec (up ctx) NULL) as [E|Hne].
  - rewrite E, alter_null by done. done.
  - destruct (Hu Hne) as [n Hn']. unfold LDF. rewrite Hn'. cbn. unfold relink.
    destruct (child d n =? x) eqn:Ec; rewrite STF_alter by done; do 2 f_equal; apply map_eq; intros z;
      (destruct (decide (z = up ctx)) as [-> |Hz]; [rewrite !lookup_alter_eq, Hn'; cbn; by rewrite Ec|by rewrite !lookup_alter_ne]).
Qed.

Lemma child_mkn d k v p ca cb c : child d (mkn d k v p ca cb c) = ca /\ child (opp d) (mkn d k v p ca cb c) = cb.
Proof. by destruct d. Qed.

Lemma set_child_mkn d x k v p ca cb c : set_child d x (mkn d k v p ca cb c) = mkn d k v p x cb c
  /\ set_child (opp d) x (mkn d k v p ca cb c) = mkn d k v p ca x c.
Proof. by destruct d. Qed.

Lemma set_p_mkn d x k v p ca cb c : set_p x (mkn d k v p ca cb c) = mkn d k v x ca cb c /\ np (mkn d k v p ca cb c) = p.
Proof. by destruct d. Qed.

Lemma top_up ctx x y h z : repc h ctx z -> top ctx y = if up ctx =? NULL then y else top ctx x.
Proof.
  destruct ctx as [|f ctx]; cbn; [done|]. intros (Hf & _). by rewrite (proj2 (Z.eqb_neq _ _) Hf).
Qed.

(** Side conditions about addresses: everything follows from one [NoDup]. *)
Ltac addr :=
  repeat match goal with
  | H : NoDup (_ :: _) |- _ => apply NoDup_cons in H as [? H]
  | H : NoDup (_ ++ _) |- _ => apply NoDup_app in H as (? & ? & H)
  | H : _ ∉ _ :: _ |- _ => apply not_elem_of_cons in H as [? H]
  | H : _ ∉ _ ++ _ |- _ => apply not_elem_of_app in H as [? H]
  end.

(** An address of one part is not in another part. *)
Ltac apart1 z :=
  repeat match goal with
  | Hd : forall w, w ∈ ?A -> w ∉ _, Hz : z ∈ ?A |- _ =>
      let Hq := fresh in pose proof (Hd z Hz) as Hq; rewrite ?not_elem_of_app in Hq; clear Hd
  end; tauto.

Ltac apart :=
  match goal with
  | |- rt _ ∉ _ => apply rt_sep; [assumption|let z := fresh "z" in intros z ? ?; apart1 z]
  | |- up _ ∉ _ => apply up_sep; [assumption|let z := fresh "z" in intros z ? ?; apart1 z]
  | |- _ ∉ _ => assumption
  end.

Lemma up_not_in ctx z : z <> NULL -> z ∉ clocs ctx -> z <> up ctx.
Proof. destruct ctx; cbn; [done|]. rewrite not_elem_of_cons. tauto. Qed.

Lemma rotate_tree Fr s d ctx x kx vx cx y ky vy cy a b e :
  is_tree Fr s (plug ctx (mk d x kx vx cx a (mk d y ky vy cy b e))) ->
  exists s', rotate d x s = Some s' /\ is_tree Fr s' (plug ctx (mk d y ky vy cy (mk d x kx vx cx a b) e)).
Proof.
  rewrite is_tree_zip, rep_mk, rep_mk, !rt_mk.
  intros ((Hx & Lx & Ra & Hy & Ly & Rb & Re) & Rc & Hnd & Hn & Hr & Hf).
  assert (Hp : locs (mk d x kx vx cx a (mk d y ky vy cy b e)) ++ clocs ctx
    ≡ₚ x :: y :: locs a ++ locs b ++ locs e ++ clocs ctx).
  { rewrite locs_mk, locs_mk. cbn. rewrite <- !app_assoc. cbn. by rewrite <- Permutation_middle, <- app_assoc. }
  assert (Hq : locs (mk d y ky vy cy (mk d x kx vx cx a b) e) ++ clocs ctx
    ≡ₚ x :: y :: locs a ++ locs b ++ locs e ++ clocs ctx).
  { rewrite locs_mk, locs_mk. cbn. rewrite <- !app_assoc. apply Permutation_swap. }
  rewrite Hp in Hnd. pose proof (rep_null _ _ _ Ra) as Na. pose proof (rep_null _ _ _ Rb) as Nb.
  pose proof (rep_null _ _ _ Re) as Ne. pose proof (repc_null _ _ _ Rc) as Nc.
  assert (Hg : True -> NoDup (locs (mk d y ky vy cy (mk d x kx vx cx a b) e) ++ clocs ctx))
    by (intros _; by rewrite Hq). addr.
  assert (Db : rt b <> NULL -> is_Some (mem s !! rt b)) by (by eapply rt_dom).
  assert (Dc : up ctx <> NULL -> is_Some (mem s !! up ctx)) by (by eapply up_dom).
  assert (Ex1 : x <> rt b) by (by apply rt_not_in). assert (Ey1 : y <> rt b) by (by apply rt_not_in).
  assert (Ex2 : x <> up ctx) by (by apply up_not_in). assert (Ey2 : y <> up ctx) by (by apply up_not_in).
  unfold rotate. rewrite (LDF_Some _ _ _ _ Lx). cbn [mbind option_bind]. rewrite (proj2 (child_mkn _ _ _ _ _ _ _)).
  rewrite (LDF_Some _ _ _ _ Ly). cbn [mbind option_bind]. rewrite (proj1 (child_mkn _ _ _ _ _ _ _)).
  rewrite STF_alter by (rewrite ?Lx; done). cbn [mbind option_bind].
  rewrite STF_opt; [|by apply alter_None|intros; apply is_Some_alter; auto]. cbn [mbind option_bind root mem].
  erewrite (LDF_Some np x); [|cbn [mem]; rewrite lookup_alter_ne, lookup_alter_eq, Lx by done; reflexivity].
  cbn [mbind option_bind]. rewrite (proj2 (set_child_mkn _ _ _ _ _ _ _ _)), (proj2 (set_p_mkn _ 0 _ _ _ _ _ _)).
  rewrite STF_alter by (cbn [mem]; rewrite !lookup_alter_ne by done; rewrite Ly; done). cbn [mbind option_bind root mem].
  erewrite (redirect d x y _ ctx); [|repeat apply alter_None; done|intros; repeat apply is_Some_alter; auto|reflexivity].
  cbn [mbind option_bind root mem].
  rewrite STF_alter by (cbn [mem]; repeat apply is_Some_alter; rewrite Ly; done). cbn [mbind option_bind root mem].
  rewrite STF_alter by (cbn [mem]; repeat apply is_Some_alter; rewrite Lx; done). cbn [root mem].
  eexists. split; [reflexivity|]. apply is_tree_zip. cbn [mem root]. rewrite rep_mk, rep_mk, !rt_mk. split_and!.
  - done.
  - rewrite lookup_alter_ne, lookup_alter_eq, lookup_alter_ne, lookup_alter_eq, !lookup_alter_ne, Ly by done. cbn.
    by rewrite (proj1 (set_p_mkn _ _ _ _ _ _ _ _)), (proj1 (set_child_mkn _ _ _ _ _ _ _ _)).
  - done.
  - rewrite lookup_alter_eq, !lookup_alter_ne, lookup_alter_eq, Lx by done. cbn.
    by rewrite (proj2 (set_child_mkn _ _ _ _ _ _ _ _)), (proj1 (set_p_mkn _ _ _ _ _ _ _ _)).
  - repeat (apply rep_alter; [apart|]). done.
  - do 4 (apply rep_alter; [apart|]). eapply rep_set_p; [done|]. apply rep_alter; [apart|]. done.
  - repeat (apply rep_alter; [apart|]). done.
  - do 2 (apply repc_alter; [done|]). apply repc_relink; [done..|]. repeat (apply repc_alter; [apart|]). done.
  - by apply Hg.
  - repeat apply alter_None. done.
  - rewrite Hr. symmetry. by eapply top_up.
  - intros z Hz. rewrite Hq, !not_elem_of_cons, !not_elem_of_app in Hz. destruct Hz as (Zx & Zy & Za & Zb & Ze & Zc).
    rewrite <- Hf by (rewrite Hp, !not_elem_of_cons, !not_elem_of_app; done).
    destruct (decide (z = NULL)) as [-> |Hz0]; [rewrite Hn; repeat apply alter_None; done|].
    by rewrite !lookup_alter_ne by (by first [apply not_eq_sym, rt_not_in|apply not_eq_sym, up_not_in|apply not_eq_sym]).
Qed.

(** ** Reading and colouring *)

Lemma mk_opp d x k v c a b : mk (opp d) x k v c b a = mk d x k v c a b.
Proof. by destruct d. Qed.

Lemma opp_opp d : opp (opp d) = d.
Proof. by destruct d. Qed.

(** Moving the focus to a child. *)
Lemma focus d x k v c a b ctx : plug ctx (mk d x k v c a b) = plug (F d x k v c b :: ctx) a.
Proof. done. Qed.

Lemma focus_opp d x k v c a b ctx : plug ctx (mk d x k v c a b) = plug (F (opp d) x k v c a :: ctx) b.
Proof. cbn. by rewrite mk_opp. Qed.

Lemma it_node Fr s ctx d x k v c a b : is_tree Fr s (plug ctx (mk d x k v c a b)) ->
  x <> NULL /\ mem s !! x = Some (mkn d k v (up ctx) (rt a) (rt b) c).
Proof. rewrite is_tree_zip, rep_mk. tauto. Qed.

Lemma parentOf_node Fr s ctx d x k v c a b : is_tree Fr s (plug ctx (mk d x k v c a b)) -> parentOf x s = Some (up ctx).
Proof.
  intros (Hx & Hl)%it_node. unfold parentOf. rewrite (proj2 (Z.eqb_neq _ _) Hx), (LDF_Some _ _ _ _ Hl).
  by rewrite (proj2 (set_p_mkn _ 0 _ _ _ _ _ _)).
Qed.

Lemma childOf_node Fr s ctx d x k v c a b : is_tree Fr s (plug ctx (mk d x k v c a b)) ->
  childOf d x s = Some (rt a) /\ childOf (opp d) x s = Some (rt b).
Proof.
  intros (Hx & Hl)%it_node. unfold childOf. rewrite (proj2 (Z.eqb_neq _ _) Hx), !(LDF_Some _ _ _ _ Hl).
  by rewrite (proj1 (child_mkn _ _ _ _ _ _ _)), (proj2 (child_mkn _ _ _ _ _ _ _)).
Qed.

Definition col (t : tree) : Z := match t with E => BLACK | T _ _ _ c _ _ => c end.

Definition paint (c : Z) (t : tree) : tree := match t with E => E | T x k v _ a b => T x k v c a b end.

Lemma col_mk d x k v c a b : col (mk d x k v c a b) = c.
Proof. by destruct d. Qed.

Lemma paint_mk d x k v c c' a b : paint c' (mk d x k v c a b) = mk d x k v c' a b.
Proof. by destruct d. Qed.

Lemma rt_paint c t : rt (paint c t) = rt t.
Proof. by destruct t. Qed.

Lemma colorOf_tree Fr s ctx t : is_tree Fr s (plug ctx t) -> colorOf (rt t) s = Some (col t).
Proof.
  destruct t as [|x k v c a b]; [done|]. intros (Hx & Hl)%(it_node _ _ _ L). unfold colorOf. cbn.
  by rewrite (proj2 (Z.eqb_neq _ _) Hx), (LDF_Some _ _ _ _ Hl).
Qed.

(** Writing key, value and colour of a node. *)
Lemma STF_tree Fr s ctx d x k v c a b f k' v' c' :
  (forall p ca cb, f (mkn d k v p ca cb c) = mkn d k' v' p ca cb c') ->
  is_tree Fr s (plug ctx (mk d x k v c a b)) ->
  exists s', STF f x s = Some s' /\ is_tree Fr s' (plug ctx (mk d x k' v' c' a b)).
Proof.
  intros Hf. rewrite is_tree_zip, rep_mk, rt_mk. intros ((Hx & Lx & Ra & Rb) & Rc & Hnd & Hn & Hr & Hfr).
  rewrite STF_alter by (by rewrite Lx). eexists. split; [reflexivity|]. apply is_tree_zip. cbn [mem root].
  rewrite rep_mk, rt_mk. rewrite locs_mk in Hnd. setoid_rewrite locs_mk in Hfr.
  assert (Hg : True -> NoDup ((x :: locs a ++ locs b) ++ clocs ctx)) by done. cbn in Hnd. rewrite <- app_assoc in Hnd. addr.
  split_and!.
  - done.
  - rewrite lookup_alter_eq, Lx. cbn. by rewrite Hf.
  - by apply rep_alter.
  - by apply rep_alter.
  - by apply repc_alter.
  - rewrite locs_mk. by apply Hg.
  - by apply alter_None.
  - done.
  - intros z. rewrite locs_mk. intros Hz. rewrite <- Hfr by done. rewrite lookup_alter_ne; [done|].
    intros ->. apply Hz. by left.
Qed.

Lemma setColor_tree Fr s ctx t c' : is_tree Fr s (plug ctx t) ->
  exists s', setColor (rt t) c' s = Some s' /\ is_tree Fr s' (plug ctx (paint c' t)).
Proof.
  destruct t as [|x k v c a b]; [by exists s|]. intros Ht. pose proof Ht as [Hx _]%(it_node _ _ _ L).
  unfold setColor. cbn. rewrite (proj2 (Z.eqb_neq _ _) Hx).
  apply (STF_tree Fr s ctx L x k v c a b (set_c c') k v c'); [done|exact Ht].
Qed.

Lemma parentOf_tree Fr s ctx t : t <> E -> is_tree Fr s (plug ctx t) -> parentOf (rt t) s = Some (up ctx).
Proof. destruct t as [|x k v c a b]; [done|]. intros _. apply (parentOf_node Fr s ctx L). Qed.

(** Parent and grandparent of a subtree. *)
Lemma grand Fr s ctx d g kg vg cg e p kp vp cp X B Y :
  X <> E -> is_tree Fr s (plug ctx (mk d g kg vg cg (mk e p kp vp cp X B) Y)) ->
  parentOf (rt X) s = Some p /\ grandOf (rt X) s = Some g.
Proof.
  intros HX Ht. assert (H1 : parentOf (rt X) s = Some p) by exact (parentOf_tree Fr s (F e p kp vp cp B :: F d g kg vg cg Y :: ctx) X HX Ht).
  split; [exact H1|]. unfold grandOf. rewrite H1. cbn. exact (parentOf_node Fr s (F d g kg vg cg Y :: ctx) e p kp vp cp X B Ht).
Qed.

Lemma setColor_node Fr s ctx d x k v c c' a b : is_tree Fr s (plug ctx (mk d x k v c a b)) ->
  exists s', setColor x c' s = Some s' /\ is_tree Fr s' (plug ctx (mk d x k v c' a b)).
Proof.
  intros Ht. destruct (setColor_tree Fr s ctx _ c' Ht) as (s' & H1 & H2). rewrite rt_mk in H1. rewrite paint_mk in H2. eauto.
Qed.

(** ** The body of the insertion loop *)

Lemma fixI_recolor Fr s d e ctx g kg vg cg p kp vp X B Y :
  is_tree Fr s (plug ctx (mk d g kg vg cg (mk e p kp vp RED X B) Y)) -> X <> E -> col Y = RED ->
  exists s', fixI_side d (rt X) s = Some (g, s')
    /\ is_tree Fr s' (plug ctx (mk d g kg vg RED (mk e p kp vp BLACK X B) (paint BLACK Y))).
Proof.
  intros Ht HX HY. destruct (grand _ _ _ _ _ _ _ _ _ _ _ _ _ _ _ _ HX Ht) as [E1 E2].
  unfold fixI_side. rewrite E2. cbn [mbind option_bind]. rewrite (proj2 (childOf_node _ _ _ _ _ _ _ _ _ _ Ht)).
  cbn [mbind option_bind]. rewrite focus_opp in Ht. rewrite (colorOf_tree _ _ _ _ Ht), HY.
  cbn [mbind option_bind]. change (RED =? RED) with true. cbn iota. rewrite E1. cbn [mbind option_bind].
  rewrite <- focus_opp in Ht. rewrite focus in Ht.
  destruct (setColor_node _ _ _ _ _ _ _ _ BLACK _ _ Ht) as (s1 & -> & H1). cbn [mbind option_bind].
  rewrite <- focus, focus_opp in H1. destruct (setColor_tree _ _ _ _ BLACK H1) as (s2 & -> & H2). cbn [mbind option_bind].
  rewrite <- focus_opp in H2. destruct (grand _ _ _ _ _ _ _ _ _ _ _ _ _ _ _ _ HX H2) as [_ ->]. cbn [mbind option_bind].
  destruct (setColor_node _ _ _ _ _ _ _ _ RED _ _ H2) as (s3 & -> & H3). cbn [mbind option_bind].
  destruct (grand _ _ _ _ _ _ _ _ _ _ _ _ _ _ _ _ HX H3) as [_ ->]. cbn [mbind option_bind]. eauto.
Qed.

(** The tail of the rotation case: [X] and its sibling [B] are ready. *)
Lemma fixI_outer Fr s d ctx g kg vg cg p kp vp cp X B Y :
  is_tree Fr s (plug ctx (mk d g kg vg cg (mk d p kp vp cp X B) Y)) -> X <> E ->
  exists s', (px ← parentOf (rt X) s;
    s ← setColor px BLACK s;
    g ← grandOf (rt X) s;
    s ← setColor g RED s;
    g ← grandOf (rt X) s;
    s ← (if g =? NULL then Some s else rotate (opp d) g s);
    Some (rt X, s)) = Some (rt X, s')
    /\ is_tree Fr s' (plug ctx (mk d p kp vp BLACK X (mk d g kg vg RED B Y))).
Proof.
  intros Ht HX. destruct (grand _ _ _ _ _ _ _ _ _ _ _ _ _ _ _ _ HX Ht) as [-> _]. cbn [mbind option_bind].
  rewrite focus in Ht. destruct (setColor_node _ _ _ _ _ _ _ _ BLACK _ _ Ht) as (s1 & -> & H1). cbn [mbind option_bind].
  rewrite <- focus in H1. destruct (grand _ _ _ _ _ _ _ _ _ _ _ _ _ _ _ _ HX H1) as [_ ->]. cbn [mbind option_bind].
  destruct (setColor_node _ _ _ _ _ _ _ _ RED _ _ H1) as (s2 & -> & H2). cbn [mbind option_bind].
  destruct (grand _ _ _ _ _ _ _ _ _ _ _ _ _ _ _ _ HX H2) as [_ ->]. cbn [mbind option_bind].
  pose proof (proj1 (it_node _ _ _ _ _ _ _ _ _ _ H2)) as Hg. rewrite (proj2 (Z.eqb_neq _ _) Hg).
  rewrite <- (mk_opp d g), <- (mk_opp d p) in H2. destruct (rotate_tree _ _ _ _ _ _ _ _ _ _ _ _ _ _ _ H2) as (s3 & -> & H3).
  cbn [mbind option_bind]. exists s3. split; [done|]. by rewrite !mk_opp in H3.
Qed.

Lemma tree_distinct Fr s ctx t u : is_tree Fr s (plug ctx t) -> t <> E -> u ∈ clocs ctx -> rt t <> u.
Proof.
  rewrite is_tree_zip. intros (_ & _ & Hnd & _) Ht Hu. destruct t as [|x k v c a b]; [done|]. cbn in *.
  apply NoDup_cons in Hnd as [Hx _]. rewrite not_elem_of_app in Hx. intros ->. tauto.
Qed.

Lemma fixI_rotate Fr s d e ctx g kg vg cg p kp vp x kx vx cx A B C Y :
  is_tree Fr s (plug ctx (mk d g kg vg cg (mk e p kp vp RED (mk d x kx vx cx A B) C) Y)) -> col Y <> RED ->
  exists s' x' t', fixI_side d x s = Some (x', s') /\ is_tree Fr s' (plug ctx t')
    /\ t' = (if decide (e = d) then mk d p kp vp BLACK (mk d x kx vx cx A B) (mk d g kg vg RED C Y)
             else mk d x kx vx BLACK (mk d p kp vp RED C A) (mk d g kg vg RED B Y))
    /\ x' = if decide (e = d) then x else p.
Proof.
  intros Ht HY. assert (HX : mk d x kx vx cx A B <> E) by (by destruct d).
  destruct (grand _ _ _ _ _ _ _ _ _ _ _ _ _ _ _ _ HX Ht) as [E1 E2]. rewrite rt_mk in E1, E2.
  unfold fixI_side. rewrite E2. cbn [mbind option_bind]. rewrite (proj2 (childOf_node _ _ _ _ _ _ _ _ _ _ Ht)).
  cbn [mbind option_bind]. rewrite focus_opp in Ht. rewrite (colorOf_tree _ _ _ _ Ht). rewrite <- focus_opp in Ht.
  cbn [mbind option_bind]. rewrite (proj2 (Z.eqb_neq _ _) HY), E1. cbn [mbind option_bind].
  rewrite focus in Ht. pose proof (childOf_node _ _ _ _ _ _ _ _ _ _ Ht) as [C1 C2]. rewrite rt_mk in C1.
  destruct (decide (e = d)) as [-> |Hne].
  - rewrite C2. cbn [mbind option_bind]. rewrite <- focus in Ht.
    assert (Hxc : x <> rt C).
    { intros ->. assert (Hin : C <> E).
      { intros ->. cbn in *. rewrite focus, focus in Ht. by destruct (it_node _ _ _ _ _ _ _ _ _ _ Ht). }
      rewrite focus, focus_opp in Ht. eapply (tree_distinct _ _ _ _ (rt C) Ht Hin); [|done].
      cbn. right. apply elem_of_app. left. rewrite locs_mk. by left. }
    rewrite (proj2 (Z.eqb_neq _ _) Hxc). cbn [mbind option_bind].
    destruct (fixI_outer _ _ _ _ _ _ _ _ _ _ _ _ _ _ _ Ht HX) as (s' & Hs & H1). rewrite rt_mk in Hs. eauto 10.
  - assert (Ee : e = opp d) by (destruct d, e; done). subst e. rewrite opp_opp in C2. rewrite C1. cbn [mbind option_bind].
    rewrite Z.eqb_refl. rewrite mk_opp in Ht.
    destruct (rotate_tree _ _ _ _ _ _ _ _ _ _ _ _ _ _ _ Ht) as (s1 & -> & H1). cbn [mbind option_bind].
    rewrite <- focus in H1. assert (HP : mk d p kp vp RED C A <> E) by (by destruct d).
    destruct (fixI_outer _ _ _ _ _ _ _ _ _ _ _ _ _ _ _ H1 HP) as (s' & Hs & H2). rewrite rt_mk in Hs. eauto 10.
Qed.

(** ** The red-black conditions

    [rb ph t c n]: [t] has root colour [c], black height [n] and no red node with a red
    child; the node at [ph] is on its way out and counts as an empty tree. *)
Inductive rb (ph : Z) : tree -> Z -> nat -> Prop :=
| rb_E : rb ph E BLACK 0
| rb_ph k v : rb ph (T ph k v BLACK E E) BLACK 0
| rb_R x k v a b n : x <> ph -> rb ph a BLACK n -> rb ph b BLACK n -> rb ph (T x k v RED a b) RED n
| rb_B x k v a b ca cb n : x <> ph -> rb ph a ca n -> rb ph b cb n -> rb ph (T x k v BLACK a b) BLACK (S n).

(** [rbc ph ctx c n]: plugging a tree with root colour [c] and black height [n] gives a
    red-black tree with a black root. *)
Inductive rbc (ph : Z) : list frame -> Z -> nat -> Prop :=
| rbc_nil n : rbc ph [] BLACK n
| rbc_R d x k v b ctx n : x <> ph -> rb ph b BLACK n -> rbc ph ctx RED n -> rbc ph (F d x k v RED b :: ctx) BLACK n
| rbc_B d x k v b cb ctx c n : x <> ph -> rb ph b cb n -> rbc ph ctx BLACK (S n) -> rbc ph (F d x k v BLACK b :: ctx) c n.

Lemma rb_mk_R ph d x k v a b n : x <> ph -> rb ph a BLACK n -> rb ph b BLACK n -> rb ph (mk d x k v RED a b) RED n.
Proof. destruct d; by constructor. Qed.

Lemma rb_mk_B ph d x k v a b ca cb n : x <> ph -> rb ph a ca n -> rb ph b cb n -> rb ph (mk d x k v BLACK a b) BLACK (S n).
Proof. destruct d; econstructor; eauto. Qed.

Lemma rb_mk_inv ph d x k v c a b c' n : rb ph (mk d x k v c a b) c' n -> x <> ph ->
  c' = c /\ ((c = RED /\ rb ph a BLACK n /\ rb ph b BLACK n)
             \/ (c = BLACK /\ exists m ca cb, n = S m /\ rb ph a ca m /\ rb ph b cb m)).
Proof. destruct d; cbn; inversion 1; subst; intros ?; try done; split; eauto 10. Qed.

Lemma rb_col ph t c n : rb ph t c n -> c = col t /\ (c = RED \/ c = BLACK).
Proof. destruct 1; cbn; auto. Qed.

Lemma plug_rb ph ctx c n : rbc ph ctx c n -> forall t, rb ph t c n -> exists m, rb ph (plug ctx t) BLACK m.
Proof.
  induction 1 as [n|d x k v b ctx n Hx Hb _ IH|d x k v b cb ctx c n Hx Hb _ IH]; intros t Ht; cbn; [eauto|apply IH..].
  - by apply rb_mk_R.
  - by eapply rb_mk_B.
Qed.

Lemma unplug_rb ph ctx : forall t m, rb ph (plug ctx t) BLACK m -> Forall (fun f => fx f <> ph) ctx ->
  exists c n, rb ph t c n /\ rbc ph ctx c n.
Proof.
  induction ctx as [|[d x k v c b] ctx IH]; cbn; intros t m Hm Hx; [eexists _, _; split; [done|constructor]|].
  apply Forall_cons in Hx as [Hx Hc]. destruct (IH _ _ Hm Hc) as (c' & n & H1 & H2). cbn in Hx.
  apply rb_mk_inv in H1 as [-> [(-> & Ha & Hb)|(-> & m' & ca & cb & -> & Ha & Hb)]]; [| |done].
  - exists BLACK, n. split; [done|]. by constructor.
  - exists ca, m'. split; [done|]. econstructor; eauto.
Qed.

(** A hole below a red node has a black frame; its colour does not matter. *)
Lemma rbc_red ph ctx n : rbc ph ctx RED n -> rbc ph ctx BLACK n
  /\ exists d x k v b cb ctx', ctx = F d x k v BLACK b :: ctx' /\ x <> ph /\ rb ph b cb n /\ rbc ph ctx' BLACK (S n).
Proof. inversion 1; subst. split; [econstructor; eauto|]. eauto 20. Qed.

Lemma rb_paint ph t c n : rb ph t c n -> exists m, rb ph (paint BLACK t) BLACK m.
Proof. destruct 1; cbn; eexists; econstructor; eauto. Qed.

Lemma rb_paint_red ph t n : rb ph t RED n -> rb ph (paint BLACK t) BLACK (S n).
Proof. inversion 1; subst. cbn. econstructor; eauto. Qed.

(** ** The contents, in order *)

Fixpoint elems (t : tree) : list (Z * Z) :=
  match t with E => [] | T _ k v _ a b => elems a ++ (k, v) :: elems b end.

(** The nodes in order, with their contents. *)
Fixpoint nodes (t : tree) : list (Z * (Z * Z)) :=
  match t with E => [] | T x k v _ a b => nodes a ++ (x, (k, v)) :: nodes b end.

(** Two trees with the same nodes, contents and order. *)
Definition same (t t' : tree) : Prop := nodes t = nodes t'.

Lemma nodes_elems t : elems t = (nodes t).*2.
Proof. induction t as [|x k v c a IHa b IHb]; cbn; [done|]. rewrite fmap_app. cbn. by rewrite IHa, IHb. Qed.

Lemma nodes_locs t : locs t ≡ₚ (nodes t).*1.
Proof.
  induction t as [|x k v c a IHa b IHb]; cbn; [done|]. rewrite fmap_app. cbn. rewrite IHa, IHb. apply Permutation_middle.
Qed.

Lemma same_both t t' : same t t' -> elems t = elems t' /\ locs t ≡ₚ locs t'.
Proof. intros H. by rewrite !nodes_elems, !nodes_locs, H. Qed.

#[export] Instance same_equiv : Equivalence same.
Proof. split; [done|by intros t t'|]. intros t1 t2 t3 H1 H2. by unfold same in *; rewrite H1. Qed.

Lemma same_mk d x k v c c' a b a' b' : same a a' -> same b b' -> same (mk d x k v c a b) (mk d x k v c' a' b').
Proof. unfold same. intros H1 H2. destruct d; cbn; by rewrite H1, H2. Qed.

#[export] Instance plug_same ctx : Proper (same ==> same) (plug ctx).
Proof.
  induction ctx as [|[d x k v c b] ctx IH]; intros t t' H; cbn; [done|]. apply IH. by apply same_mk.
Qed.

Lemma same_rotate d x kx vx cx y ky vy cy cx' cy' a b e :
  same (mk d x kx vx cx a (mk d y ky vy cy b e)) (mk d y ky vy cy' (mk d x kx vx cx' a b) e).
Proof. unfold same. destruct d; cbn; by rewrite <- app_assoc. Qed.

Lemma same_paint c t : same (paint c t) t.
Proof. by destruct t. Qed.

(** ** The insertion loop *)

Lemma top_in ctx x : ctx <> [] -> top ctx x ∈ clocs ctx.
Proof.
  revert x. induction ctx as [|f ctx IH]; intros x Hc; [done|]. cbn. destruct ctx as [|f' ctx]; [by left|].
  right. apply elem_of_app. right. by apply IH.
Qed.

Lemma not_root Fr s ctx t : is_tree Fr s (plug ctx t) -> t <> E -> ctx <> [] -> rt t <> root s.
Proof.
  intros Ht Hn Hc. assert (Hr : root s = top ctx (rt t)) by (apply is_tree_zip in Ht; tauto).
  rewrite Hr. eapply tree_distinct; [exact Ht|done|]. by apply top_in.
Qed.

Lemma mk_neq d x k v c a b : mk d x k v c a b <> E.
Proof. by destruct d. Qed.

Lemma rt_neq Fr s ctx t : is_tree Fr s (plug ctx t) -> t <> E -> rt t <> NULL.
Proof. destruct t as [|x k v c a b]; [done|]. intros Ht _. by apply (it_node _ _ _ L) in Ht as []. Qed.

(** A child that is the left or the right one, seen from the grandparent. *)
Lemma side_of Fr s ctx d x k v c a b : is_tree Fr s (plug ctx (mk d x k v c a b)) -> a <> E ->
  childOf L x s = Some (rt (match d with L => a | R => b end))
  /\ (rt a =? rt (match d with L => a | R => b end)) = match d with L => true | R => false end.
Proof.
  intros Ht Ha. pose proof (childOf_node _ _ _ _ _ _ _ _ _ _ Ht) as [C1 C2]. destruct d; [by rewrite C1, Z.eqb_refl|].
  split; [exact C2|]. apply Z.eqb_neq. rewrite focus in Ht.
  destruct b as [|y ky vy cy b1 b2] eqn:Eb; [by eapply rt_neq|].
  eapply tree_distinct; [exact Ht|done|]. cbn. right. by left.
Qed.

Lemma fixI_step Fr s fuel ctx d g kg vg cg e p kp vp X B Y :
  is_tree Fr s (plug ctx (mk d g kg vg cg (mk e p kp vp RED X B) Y)) -> X <> E ->
  fixI_loop (S fuel) (rt X) s = ('(x, s) ← fixI_side d (rt X) s; fixI_loop fuel x s).
Proof.
  intros Ht HX. pose proof (grand _ _ _ _ _ _ _ _ _ _ _ _ _ _ _ _ HX Ht) as [E1 E2].
  pose proof (side_of _ _ _ _ _ _ _ _ _ _ Ht (mk_neq _ _ _ _ _ _ _)) as [C1 C2]. rewrite rt_mk in C2.
  rewrite focus in Ht. pose proof (colorOf_tree _ _ _ _ Ht) as Hc. rewrite rt_mk, col_mk in Hc.
  pose proof (proj1 (it_node _ _ _ _ _ _ _ _ _ _ Ht)) as Hp. rewrite focus in Ht.
  pose proof (rt_neq _ _ _ _ Ht HX) as Hx. pose proof (not_root _ _ _ _ Ht HX ltac:(done)) as Hr.
  cbn [fixI_loop]. rewrite (proj2 (Z.eqb_neq _ _) Hx), (proj2 (Z.eqb_neq _ _) Hr). cbn [orb].
  assert (Hld : LDF np (rt X) s = Some p) by (unfold parentOf in E1; by rewrite (proj2 (Z.eqb_neq _ _) Hx) in E1).
  assert (Hlc : LDF nc p s = Some RED) by (unfold colorOf in Hc; by rewrite (proj2 (Z.eqb_neq _ _) Hp) in Hc).
  rewrite Hld. cbn [mbind option_bind]. rewrite Hlc. cbn [mbind option_bind]. change (negb (RED =? RED)) with false. cbn iota.
  rewrite E1. cbn [mbind option_bind]. rewrite E2. cbn [mbind option_bind]. unfold leftOf. rewrite C1. cbn [mbind option_bind].
  rewrite C2. by destruct d.
Qed.

(** A black parent ends the loop. *)
Lemma fixI_black Fr s fuel ctx d p kp vp X B : is_tree Fr s (plug ctx (mk d p kp vp BLACK X B)) -> X <> E ->
  fixI_loop (S fuel) (rt X) s = Some s.
Proof.
  intros Ht HX. pose proof (colorOf_tree _ _ _ _ Ht) as Hc. rewrite rt_mk, col_mk in Hc.
  pose proof (proj1 (it_node _ _ _ _ _ _ _ _ _ _ Ht)) as Hp. rewrite focus in Ht.
  pose proof (rt_neq _ _ _ _ Ht HX) as Hx. pose proof (not_root _ _ _ _ Ht HX ltac:(done)) as Hr.
  pose proof (parentOf_tree _ _ _ _ HX Ht) as E1.
  assert (Hld : LDF np (rt X) s = Some p) by (unfold parentOf in E1; by rewrite (proj2 (Z.eqb_neq _ _) Hx) in E1).
  assert (Hlc : LDF nc p s = Some BLACK) by (unfold colorOf in Hc; by rewrite (proj2 (Z.eqb_neq _ _) Hp) in Hc).
  cbn [fixI_loop]. rewrite (proj2 (Z.eqb_neq _ _) Hx), (proj2 (Z.eqb_neq _ _) Hr). cbn [orb].
  rewrite Hld. cbn [mbind option_bind]. by rewrite Hlc.
Qed.

Lemma fixI_loop_ok Fr : forall fuel ctx d x k v a b n s,
  is_tree Fr s (plug ctx (mk d x k v RED a b)) ->
  rb NULL a BLACK n -> rb NULL b BLACK n -> rbc NULL ctx BLACK n -> (length ctx <= fuel)%nat ->
  exists s' t', fixI_loop fuel x s = Some s' /\ is_tree Fr s' t' /\ same t' (plug ctx (mk d x k v RED a b))
    /\ exists c m, rb NULL t' c m.
Proof.
  induction fuel as [fuel IH] using lt_wf_ind. intros ctx d x k v a b n s Ht Ha Hb Hc Hf.
  pose proof (it_node _ _ _ _ _ _ _ _ _ _ Ht) as [Hx _].
  inversion Hc as [n' Ec|e p kp vp B ctx1 n' Hp HB Hc1 Ec|e p kp vp B cB ctx1 c' n' Hp HB Hc1 Ec]; subst.
  - exists s, (mk d x k v RED a b). assert (Hr : root s = x) by (apply is_tree_zip in Ht; rewrite rt_mk in Ht; cbn in Ht; tauto).
    split_and!; [|exact Ht|done|eexists _, _; by apply rb_mk_R].
    destruct fuel; cbn [fixI_loop]; by rewrite Hr, Z.eqb_refl, orb_true_r.
  - destruct (rbc_red _ _ _ Hc1) as (_ & f & g & kg & vg & Y & cY & ctx2 & -> & Hg & HY & Hc2).
    cbn in Hf. destruct fuel as [|fuel]; [lia|]. cbn [plug fd fx fk fv fc fs] in Ht.
    pose proof (fixI_step Fr s fuel ctx2 f g kg vg BLACK e p kp vp _ B Y Ht (mk_neq _ _ _ _ _ _ _)) as Hst.
    rewrite rt_mk in Hst. rewrite Hst. clear Hst. destruct (decide (col Y = RED)) as [HYr|HYb].
    + destruct (fixI_recolor _ _ _ _ _ _ _ _ _ _ _ _ _ _ _ Ht (mk_neq _ _ _ _ _ _ _) HYr) as (s1 & Hs1 & H1).
      rewrite rt_mk in Hs1. rewrite Hs1. cbn [mbind option_bind].
      destruct (IH fuel ltac:(lia) ctx2 f g kg vg _ _ (S n) s1 H1) as (s' & t' & E1 & E2 & E3 & E4).
      * eapply rb_mk_B; [done|by apply rb_mk_R|exact HB].
      * destruct (rb_col _ _ _ _ HY) as [EY _]. rewrite HYr in EY. subst cY. by apply rb_paint_red.
      * exact Hc2.
      * lia.
      * exists s', t'. split_and!; [exact E1|exact E2| |exact E4]. rewrite E3. cbn [plug fd fx fk fv fc fs]. apply plug_same.
        apply same_mk; [by apply same_mk|apply same_paint].
    + assert (HYB : rb NULL Y BLACK n).
      { destruct (rb_col _ _ _ _ HY) as [EY [->| ->]]; [congruence|exact HY]. }
      rewrite <- (mk_opp d) in Ht. assert (Hd : f = d \/ f = opp d) by (destruct f, d; auto).
      assert (Hmk : exists a1 b1, mk d x k v RED a b = mk f x k v RED a1 b1 /\ rb NULL a1 BLACK n /\ rb NULL b1 BLACK n).
      { destruct Hd as [-> | ->]; [by exists a, b|]. exists b, a. by rewrite mk_opp. }
      destruct Hmk as (a1 & b1 & Em & Ha1 & Hb1). rewrite mk_opp, Em in Ht. cbn [plug fd fx fk fv fc fs]. rewrite Em.
      destruct (fixI_rotate _ _ _ _ _ _ _ _ _ _ _ _ _ _ _ _ _ _ _ _ Ht HYb) as (s1 & x' & t' & Hs1 & H1 & Et & Ex).
      rewrite Hs1. cbn [mbind option_bind]. destruct fuel as [|fuel]; [lia|].
      exists s1, (plug ctx2 t'). subst t' x'. destruct (decide (e = f)) as [-> |Hef].
      * split_and!; [|exact H1| |].
        -- pose proof (fixI_black _ _ fuel _ _ _ _ _ _ _ H1 (mk_neq _ _ _ _ _ _ _)) as Hb2. by rewrite rt_mk in Hb2.
        -- apply plug_same. rewrite <- (mk_opp f p), <- (mk_opp f g). rewrite <- (same_rotate (opp f)).
           rewrite (mk_opp f g). apply same_mk; [|done]. by rewrite mk_opp.
        -- exists BLACK. eapply plug_rb; [exact Hc2|]. eapply rb_mk_B; [done|by apply rb_mk_R|by apply rb_mk_R].
      * assert (Ee : e = opp f) by (destruct e, f; done). subst e.
        split_and!; [|exact H1| |].
        -- pose proof (fixI_black _ _ fuel _ _ _ _ _ _ _ H1 (mk_neq _ _ _ _ _ _ _)) as Hb2. by rewrite rt_mk in Hb2.
        -- apply plug_same. rewrite (mk_opp f p), <- (mk_opp f x), <- (mk_opp f g) at 1.
           rewrite <- (same_rotate (opp f)), (mk_opp f g), (mk_opp f x). apply same_mk; [|done]. by rewrite <- same_rotate.
        -- exists BLACK. eapply plug_rb; [exact Hc2|]. eapply rb_mk_B; [done|by apply rb_mk_R|by apply rb_mk_R].
  - cbn in Hf. destruct fuel as [|fuel]; [lia|]. exists s, (plug ctx1 (mk e p kp vp BLACK (mk d x k v RED a b) B)).
    split_and!; [|exact Ht|done|].
    + pose proof (fixI_black _ _ fuel _ _ _ _ _ _ _ Ht (mk_neq _ _ _ _ _ _ _)) as Hb2. by rewrite rt_mk in Hb2.
    + exists BLACK. eapply plug_rb; [exact Hc1|]. eapply rb_mk_B; [done|by apply rb_mk_R|exact HB].
  Unshelve. all: exact RED.
Qed.

(** ** Nodes that come and go *)

Lemma is_tree_frame Fr Fr' s t : (forall z, z ∉ locs t -> Fr z = Fr' z) -> is_tree Fr s t -> is_tree Fr' s t.
Proof. intros Hf [H1 H2 H3 H4 H5]. split; try done. intros z Hz. by rewrite <- Hf, H5. Qed.

Lemma rep_put h t par z nd : z ∉ locs t -> rep h t par -> rep (<[z := nd]> h) t par.
Proof.
  revert par. induction t as [|x k v c a IHa b IHb]; intros par; cbn; [done|].
  rewrite not_elem_of_cons, not_elem_of_app. intros (Hz & Ha & Hb) (Hx & Hl & Hra & Hrb).
  split_and!; [done| |by apply IHa|by apply IHb]. by rewrite lookup_insert_ne by done.
Qed.

(** Writing outside the tree. *)
Lemma is_tree_put Fr s t z nd : is_tree Fr s t -> z ∉ locs t -> z <> NULL ->
  is_tree (fun w => if decide (w = z) then Some nd else Fr w) (RbTree (root s) (<[z := nd]> (mem s))) t.
Proof.
  intros [H1 H2 H3 H4 H5] Hz Hn. split; cbn [mem root]; [by apply rep_put|done|by rewrite lookup_insert_ne|done|].
  intros w Hw. destruct (decide (w = z)) as [-> |Hne]; [by rewrite lookup_insert_eq|by rewrite lookup_insert_ne, H5].
Qed.

Lemma rep_del h t par z : z ∉ locs t -> rep h t par -> rep (delete z h) t par.
Proof.
  revert par. induction t as [|x k v c a IHa b IHb]; intros par; cbn; [done|].
  rewrite not_elem_of_cons, not_elem_of_app. intros (Hz & Ha & Hb) (Hx & Hl & Hra & Hrb).
  split_and!; [done| |by apply IHa|by apply IHb]. by rewrite lookup_delete_ne by done.
Qed.

Lemma is_tree_release Fr s t z : is_tree Fr s t -> z ∉ locs t ->
  is_tree (fun w => if decide (w = z) then None else Fr w) (releaseNode z s) t.
Proof.
  intros [H1 H2 H3 H4 H5] Hz. split; cbn [mem root releaseNode]; [by apply rep_del|done|by apply lookup_delete_None; right|done|].
  intros w Hw. destruct (decide (w = z)) as [-> |Hne]; [by rewrite lookup_delete_eq|by rewrite lookup_delete_ne, H5].
Qed.

Lemma repc_child h f ctx x y : NoDup (clocs (f :: ctx)) -> repc h (f :: ctx) x ->
  repc (alter (set_child (fd f) y) (fx f) h) (f :: ctx) y.
Proof.
  cbn. rewrite NoDup_cons, not_elem_of_app. intros ((H1 & H2) & _) (Hf & Hl & Hs & Hc).
  split_and!; [done| |by apply rep_alter|by apply repc_alter].
  rewrite lookup_alter_eq, Hl. cbn. by rewrite (proj1 (set_child_mkn _ _ _ _ _ _ _ _)).
Qed.

(** A new leaf is linked to its parent. *)
Lemma link_leaf Fr s f ctx n key val c0 :
  is_tree Fr s (plug (f :: ctx) E) -> n <> NULL -> n ∉ clocs (f :: ctx) ->
  mem s !! n = Some (Node key val (fx f) NULL NULL c0) ->
  exists s', STF (set_child (fd f) n) (fx f) s = Some s' /\ is_tree Fr s' (plug (f :: ctx) (T n key val c0 E E)).
Proof.
  rewrite is_tree_zip. intros (_ & Rc & Hnd & Hn & Hr & Hf) Hn0 Hnc Hm. rewrite STF_alter by (destruct Rc as (_ & -> & _); done).
  eexists. split; [reflexivity|]. apply is_tree_zip. cbn [mem root rt rep]. cbn in Hnd.
  split_and!; [done| |done|done|by apply (repc_child _ f ctx NULL)| |by apply alter_None|done|].
  - rewrite lookup_alter_ne; [done|]. intros <-. apply Hnc. by left.
  - cbn. apply NoDup_cons. split; [exact Hnc|exact Hnd].
  - cbn [locs app]. intros z [Hz1 Hz2]%not_elem_of_cons. rewrite lookup_alter_ne; [by apply Hf|].
    intros <-. apply Hz2. by left.
Qed.

(** ** Searching *)

(** The contents before and after the hole. *)
Fixpoint pre (ctx : list frame) : list (Z * Z) :=
  match ctx with
  | [] => []
  | f :: ctx => match fd f with L => pre ctx | R => pre ctx ++ elems (fs f) ++ [(fk f, fv f)] end
  end.

Fixpoint post (ctx : list frame) : list (Z * Z) :=
  match ctx with
  | [] => []
  | f :: ctx => match fd f with L => (fk f, fv f) :: elems (fs f) ++ post ctx | R => post ctx end
  end.

Lemma elems_split ctx : forall t, elems (plug ctx t) = pre ctx ++ elems t ++ post ctx.
Proof.
  induction ctx as [|[d x k v c b] ctx IH]; intros t; cbn; [by rewrite app_nil_r|]. rewrite IH.
  destruct d; cbn; rewrite <- !app_assoc; done.
Qed.

(** [key] belongs into the hole. *)
Definition path (key : Z) (ctx : list frame) : Prop :=
  Forall (fun f => match fd f with L => key < fk f | R => fk f < key end) ctx.

Definition ordered (l : list (Z * Z)) : Prop := StronglySorted Z.lt l.*1.

Lemma ordered_app l1 l2 : ordered (l1 ++ l2) <->
  ordered l1 /\ ordered l2 /\ (forall a b, a ∈ l1.*1 -> b ∈ l2.*1 -> a < b).
Proof.
  unfold ordered. rewrite fmap_app. generalize (l1.*1), (l2.*1). clear l1 l2. intros l1 l2.
  induction l1 as [|x l1 IH]; cbn.
  - split; [intros H; split_and!; [constructor|done|by intros ? ? ?%elem_of_nil]|tauto].
  - split.
    + intros H. apply StronglySorted_inv in H as [H1 H2]. apply IH in H1 as (H3 & H4 & H5).
      rewrite Forall_app in H2. destruct H2 as [H6 H7]. split_and!; [by constructor|done|].
      intros a b [-> |Ha]%elem_of_cons Hb; [by eapply Forall_forall in H7|by apply H5].
    + intros (H1 & H2 & H3). apply StronglySorted_inv in H1 as [H4 H5]. constructor.
      * apply IH. split_and!; [done|done|]. intros a b Ha Hb. apply H3; [by right|done].
      * apply Forall_app. split; [done|]. apply Forall_forall. intros b Hb. apply H3; [by left|done].
Qed.

Lemma path_bounds key ctx : forall mid, path key ctx -> ordered (pre ctx ++ mid ++ post ctx) ->
  (forall a, a ∈ (pre ctx).*1 -> a < key) /\ (forall b, b ∈ (post ctx).*1 -> key < b).
Proof.
  induction ctx as [|[d x k v c b] ctx IH]; intros mid Hp Ho; cbn in *.
  - split; by intros ? ?%elem_of_nil.
  - apply Forall_cons in Hp as [Hk Hp]. cbn in Hk. destruct d; cbn in *.
    + destruct (IH (mid ++ (k, v) :: elems b) Hp) as [H1 H2]; [by rewrite <- app_assoc|].
      split; [done|]. intros z. cbn. intros [-> |Hz]%elem_of_cons; [done|].
      apply ordered_app in Ho as (_ & Ho & _). apply ordered_app in Ho as (_ & Ho & _).
      unfold ordered in Ho. cbn in Ho. apply StronglySorted_inv in Ho as [_ Ho]. rewrite Forall_forall in Ho. specialize (Ho z Hz). lia.
    + rewrite <- !app_assoc in Ho. destruct (IH (elems b ++ [(k, v)] ++ mid) Hp) as [H1 H2]; [by rewrite <- !app_assoc|].
      split; [|done]. intros z. rewrite !fmap_app, !elem_of_app. cbn.
      intros [Hz|[Hz|Hz]]; [by apply H1| |by apply list_elem_of_singleton in Hz; subst].
      apply ordered_app in Ho as (_ & Ho & _). apply ordered_app in Ho as (_ & _ & Ho).
      specialize (Ho z k Hz ltac:(by left)). lia.
Qed.

(** ** Fuel *)

Lemma rep_dom h t par z : rep h t par -> z ∈ locs t -> is_Some (h !! z).
Proof.
  revert par. induction t as [|x k v c a IHa b IHb]; intros par; cbn; [by intros _ ?%elem_of_nil|].
  intros (_ & Hx & Ha & Hb) [-> |[Hz|Hz]%elem_of_app]%elem_of_cons; [by rewrite Hx|by eapply IHa|by eapply IHb].
Qed.

Lemma tree_size Fr s t : is_tree Fr s t -> (length (locs t) <= base.size (mem s))%nat.
Proof.
  intros [H1 H2 _ _ _]. rewrite <- size_dom. rewrite <- (size_list_to_set (C := gset Z)) by exact H2.
  apply subseteq_size. intros z Hz%elem_of_list_to_set. apply elem_of_dom. by eapply rep_dom.
Qed.

Lemma ctx_size ctx : (length ctx <= length (clocs ctx))%nat.
Proof. induction ctx as [|f ctx IH]; cbn; [done|]. rewrite length_app. lia. Qed.

Lemma zip_size Fr s ctx t : is_tree Fr s (plug ctx t) -> (length (locs t) + length ctx <= base.size (mem s))%nat.
Proof.
  intros Ht%tree_size. rewrite plug_locs, length_app in Ht. pose proof (ctx_size ctx). lia.
Qed.

(** ** Inserting a leaf *)

Lemma STF_put f x s n : mem s !! x = Some n -> STF f x s = Some (RbTree (root s) (<[x := f n]> (mem s))).
Proof. unfold STF. by intros ->. Qed.

Lemma init_node n key val par s j : mem s !! n = Some j ->
  (s ← STF (set_child L NULL) n s; s ← STF (set_child R NULL) n s; s ← STF (set_k key) n s;
   s ← STF (set_v val) n s; STF (set_p par) n s)
  = Some (RbTree (root s) (<[n := Node key val par NULL NULL (nc j)]> (mem s))).
Proof.
  intros Hj. rewrite (STF_put _ _ _ _ Hj). cbn [mbind option_bind].
  repeat (erewrite STF_put; [|cbn [mem]; apply lookup_insert_eq]; cbn [mbind option_bind root mem]).
  by rewrite !insert_insert_eq.
Qed.

Lemma fixAfterInsertion_ok Fr s ctx n key val c0 m :
  is_tree Fr s (plug ctx (T n key val c0 E E)) -> rb NULL (plug ctx E) BLACK m ->
  exists s' t', fixAfterInsertion n s = Some s' /\ is_tree Fr s' t'
    /\ same t' (plug ctx (T n key val RED E E)) /\ exists m', rb NULL t' BLACK m'.
Proof.
  intros Ht Hrb. unfold fixAfterInsertion.
  destruct (STF_tree Fr s ctx L n key val c0 E E (set_c RED) key val RED ltac:(done) Ht) as (s1 & -> & H1).
  cbn [mbind option_bind]. assert (Hc : rbc NULL ctx BLACK 0).
  { destruct (unplug_rb NULL ctx E m Hrb) as (c & n' & H2 & H3); [|by inversion H2; subst].
    apply is_tree_zip in H1 as (_ & Rc & _). clear -Rc. revert Rc. generalize (rt (mk L n key val RED E E)).
    induction ctx as [|f ctx IH]; intros x Rc; constructor; [apply Rc|]. eapply IH, Rc. }
  destruct (fixI_loop_ok Fr (base.size (mem s1)) ctx L n key val E E 0 s1 H1) as (s2 & t2 & -> & H2 & H3 & c & m' & H4);
    [constructor|constructor|done|apply zip_size in H1; lia|].
  cbn [mbind option_bind].
  assert (Hne : t2 <> E).
  { intros ->. apply same_both in H3 as [_ H3]. rewrite plug_locs in H3. by apply Permutation_nil_l in H3. }
  pose proof (it_root _ _ _ H2) as Hr. pose proof (rt_neq _ _ [] _ H2 Hne) as Hn.
  pose proof (colorOf_tree _ _ [] _ H2) as Hcol. unfold colorOf in Hcol. rewrite (proj2 (Z.eqb_neq _ _) Hn) in Hcol.
  rewrite Hr, Hcol. cbn [mbind option_bind]. destruct (rb_col _ _ _ _ H4) as [-> [Ec|Ec]].
  - rewrite Ec. change (negb (RED =? BLACK)) with true. cbn iota.
    destruct (setColor_tree _ _ [] _ BLACK H2) as (s3 & Hs3 & H5). unfold setColor in Hs3.
    rewrite (proj2 (Z.eqb_neq _ _) Hn) in Hs3. exists s3, (paint BLACK t2). split_and!; [done|done| |by eapply rb_paint].
    by rewrite same_paint.
  - rewrite Ec. exists s2, t2. rewrite Ec in H4. split_and!; [done..|eauto].
Qed.

Lemma attach_ok Fr s f ctx n key val m :
  is_tree Fr s (plug (f :: ctx) E) -> n <> NULL -> n ∉ clocs (f :: ctx) -> is_Some (mem s !! n) ->
  rb NULL (plug (f :: ctx) E) BLACK m ->
  exists s' t', attach (fd f) (fx f) key val n s = Some (NULL, s') /\ is_tree Fr s' t'
    /\ same t' (plug (f :: ctx) (T n key val RED E E)) /\ exists m', rb NULL t' BLACK m'.
Proof.
  intros Ht Hn Hnc [j Hj] Hrb. unfold attach.
  pose proof (init_node n key val (fx f) s j Hj) as Hi.
  assert (Hl : n ∉ locs (plug (f :: ctx) E)) by (by rewrite plug_locs).
  pose proof (is_tree_put _ _ _ _ (Node key val (fx f) NULL NULL (nc j)) Ht Hl Hn) as H1.
  destruct (link_leaf _ _ _ _ n key val (nc j) H1 Hn Hnc) as (s2 & Hs2 & H2); [cbn [mem]; by rewrite lookup_insert_eq|].
  destruct (fixAfterInsertion_ok _ _ _ _ _ _ _ m H2 Hrb) as (s3 & t3 & Hs3 & H3 & H4 & H5).
  exists s3, t3. split_and!; [|eapply is_tree_frame; [|exact H3]|done|done].
  - destruct (STF (set_child L NULL) n s) as [sa|]; [|done]. cbn [mbind option_bind] in *.
    destruct (STF (set_child R NULL) n sa) as [sb|]; [|done]. cbn [mbind option_bind] in *.
    destruct (STF (set_k key) n sb) as [sc|]; [|done]. cbn [mbind option_bind] in *.
    destruct (STF (set_v val) n sc) as [sd|]; [|done]. cbn [mbind option_bind] in *.
    rewrite Hi. cbn [mbind option_bind]. rewrite Hs2. cbn [mbind option_bind]. by rewrite Hs3.
  - intros z Hz. cbn. destruct (decide (z = n)) as [-> |]; [|done]. exfalso. apply Hz.
    apply same_both in H4 as [_ ->]. rewrite plug_locs. cbn. by left.
Qed.
