(* ===== verification/RbTreeDelete.v ===== *)
(** * The red-black tree: deletion

    A node with two children takes the contents of its successor; the node that goes has at
    most one child.  If it was black, the fix-up loop starts with a subtree that is one black
    node short and restores the balance.  A leaf that goes stays in the tree during the
    loop as a phantom, which counts as empty. *)

From S2P Require Import Prelude RbTree RbTreeProps.
Import Rb.

(** ** The cases of the loop body *)

(** The parent of [X], next to its sibling. *)
Lemma parent_here Fr s ctx d p kp vp cp X W : is_tree Fr s (plug ctx (mk d p kp vp cp X W)) -> X <> E ->
  parentOf (rt X) s = Some p.
Proof. intros Ht HX. exact (parentOf_tree Fr s (F d p kp vp cp W :: ctx) X HX Ht). Qed.

Lemma child_here Fr s ctx d p kp vp cp X d' w kw vw cw SN SF :
  is_tree Fr s (plug ctx (mk d p kp vp cp X (mk d' w kw vw cw SN SF))) ->
  childOf d' w s = Some (rt SN) /\ childOf (opp d') w s = Some (rt SF)
  /\ colorOf (rt SN) s = Some (col SN) /\ colorOf (rt SF) s = Some (col SF) /\ colorOf w s = Some cw.
Proof.
  intros Ht. rewrite focus_opp in Ht. pose proof (childOf_node _ _ _ _ _ _ _ _ _ _ Ht) as [C1 C2].
  pose proof (colorOf_tree _ _ _ _ Ht) as C3. rewrite rt_mk, col_mk in C3.
  split_and!; [done|done| | |done].
  - rewrite focus in Ht. exact (colorOf_tree _ _ _ _ Ht).
  - rewrite focus_opp in Ht. exact (colorOf_tree _ _ _ _ Ht).
Qed.

(** Painting the sibling. *)
Lemma paint_sib Fr s ctx d p kp vp cp X d' w kw vw cw c' SN SF :
  is_tree Fr s (plug ctx (mk d p kp vp cp X (mk d' w kw vw cw SN SF))) ->
  exists s', setColor w c' s = Some s' /\ is_tree Fr s' (plug ctx (mk d p kp vp cp X (mk d' w kw vw c' SN SF))).
Proof.
  intros Ht. rewrite focus_opp in Ht. destruct (setColor_node _ _ _ _ _ _ _ _ c' _ _ Ht) as (s' & H1 & H2).
  rewrite <- focus_opp in H2. eauto.
Qed.

Lemma fixD_final_ok Fr s ctx d p kp vp cp X w kw vw cw SN SF :
  is_tree Fr s (plug ctx (mk d p kp vp cp X (mk d w kw vw cw SN SF))) -> X <> E ->
  exists s', fixD_final d (rt X) w s = Some (root s', s')
    /\ is_tree Fr s' (plug ctx (mk d w kw vw cp (mk d p kp vp BLACK X SN) (paint BLACK SF))).
Proof.
  intros Ht HX. unfold fixD_final. rewrite (parent_here _ _ _ _ _ _ _ _ _ _ Ht HX). cbn [mbind option_bind].
  pose proof (colorOf_tree _ _ _ _ Ht) as Hc. rewrite rt_mk, col_mk in Hc. rewrite Hc. cbn [mbind option_bind].
  destruct (paint_sib _ _ _ _ _ _ _ _ _ _ _ _ _ _ cp _ _ Ht) as (s1 & -> & H1). cbn [mbind option_bind].
  rewrite (parent_here _ _ _ _ _ _ _ _ _ _ H1 HX). cbn [mbind option_bind].
  destruct (setColor_node _ _ _ _ _ _ _ _ BLACK _ _ H1) as (s2 & -> & H2). cbn [mbind option_bind].
  destruct (child_here _ _ _ _ _ _ _ _ _ _ _ _ _ _ _ _ H2) as (_ & -> & _). cbn [mbind option_bind].
  rewrite focus_opp, focus_opp in H2. destruct (setColor_tree _ _ _ _ BLACK H2) as (s3 & -> & H3).
  cbn [mbind option_bind]. rewrite <- !focus_opp in H3.
  rewrite (parent_here _ _ _ _ _ _ _ _ _ _ H3 HX). cbn [mbind option_bind].
  destruct (rotate_tree _ _ _ _ _ _ _ _ _ _ _ _ _ _ _ H3) as (s4 & -> & H4). cbn [mbind option_bind]. eauto.
Qed.

Lemma fixD_rest_recolor Fr s ctx d p kp vp cp X w kw vw cw SN SF :
  is_tree Fr s (plug ctx (mk d p kp vp cp X (mk d w kw vw cw SN SF))) -> X <> E -> col SN = BLACK -> col SF = BLACK ->
  exists s', fixD_rest d (rt X) w s = Some (p, s')
    /\ is_tree Fr s' (plug ctx (mk d p kp vp cp X (mk d w kw vw RED SN SF))).
Proof.
  intros Ht HX HN HF. unfold fixD_rest. destruct (child_here _ _ _ _ _ _ _ _ _ _ _ _ _ _ _ _ Ht) as (-> & -> & C1 & C2 & _).
  cbn [mbind option_bind]. rewrite C1. cbn [mbind option_bind]. rewrite C2. cbn [mbind option_bind]. rewrite HN, HF.
  change ((BLACK =? BLACK) && (BLACK =? BLACK)) with true. cbn iota.
  destruct (paint_sib _ _ _ _ _ _ _ _ _ _ _ _ _ _ RED _ _ Ht) as (s1 & -> & H1). cbn [mbind option_bind].
  rewrite (parent_here _ _ _ _ _ _ _ _ _ _ H1 HX). cbn [mbind option_bind]. eauto.
Qed.

Lemma fixD_rest_far Fr s ctx d p kp vp cp X w kw vw cw SN SF :
  is_tree Fr s (plug ctx (mk d p kp vp cp X (mk d w kw vw cw SN SF))) -> X <> E -> col SF <> BLACK ->
  exists s', fixD_rest d (rt X) w s = Some (root s', s')
    /\ is_tree Fr s' (plug ctx (mk d w kw vw cp (mk d p kp vp BLACK X SN) (paint BLACK SF))).
Proof.
  intros Ht HX HF. unfold fixD_rest. destruct (child_here _ _ _ _ _ _ _ _ _ _ _ _ _ _ _ _ Ht) as (-> & -> & C1 & C2 & _).
  cbn [mbind option_bind]. rewrite C1. cbn [mbind option_bind]. rewrite C2. cbn [mbind option_bind].
  rewrite (proj2 (Z.eqb_neq _ _) HF), andb_false_r. cbn [mbind option_bind]. by eapply fixD_final_ok.
Qed.

Lemma fixD_rest_near Fr s ctx d p kp vp cp X w kw vw cw y ky vy cy A B SF :
  is_tree Fr s (plug ctx (mk d p kp vp cp X (mk d w kw vw cw (mk d y ky vy cy A B) SF))) -> X <> E ->
  cy <> BLACK -> col SF = BLACK ->
  exists s', fixD_rest d (rt X) w s = Some (root s', s')
    /\ is_tree Fr s' (plug ctx (mk d y ky vy cp (mk d p kp vp BLACK X A) (mk d w kw vw BLACK B SF))).
Proof.
  intros Ht HX HN HF. unfold fixD_rest. destruct (child_here _ _ _ _ _ _ _ _ _ _ _ _ _ _ _ _ Ht) as (E1 & E2 & C1 & C2 & _).
  rewrite E1. cbn [mbind option_bind]. rewrite C1. cbn [mbind option_bind]. rewrite E2. cbn [mbind option_bind].
  rewrite C2. cbn [mbind option_bind]. rewrite col_mk, HF, (proj2 (Z.eqb_neq _ _) HN). change (BLACK =? BLACK) with true. cbn [andb].
  rewrite rt_mk. rewrite focus_opp, focus in Ht. destruct (setColor_node _ _ _ _ _ _ _ _ BLACK _ _ Ht) as (s1 & -> & H1).
  cbn [mbind option_bind]. rewrite <- focus, <- focus_opp in H1.
  destruct (paint_sib _ _ _ _ _ _ _ _ _ _ _ _ _ _ RED _ _ H1) as (s2 & -> & H2). cbn [mbind option_bind].
  rewrite focus_opp, <- (mk_opp d w), <- (mk_opp d y) in H2.
  destruct (rotate_tree _ _ _ _ _ _ _ _ _ _ _ _ _ _ _ H2) as (s3 & -> & H3). cbn [mbind option_bind].
  rewrite !mk_opp, <- focus_opp in H3. rewrite (parent_here _ _ _ _ _ _ _ _ _ _ H3 HX). cbn [mbind option_bind].
  rewrite (proj2 (childOf_node _ _ _ _ _ _ _ _ _ _ H3)). cbn [mbind option_bind]. rewrite rt_mk.
  destruct (fixD_final_ok _ _ _ _ _ _ _ _ _ _ _ _ _ _ _ H3 HX) as (s4 & -> & H4). rewrite paint_mk in H4. eauto.
Qed.

(** A red sibling is rotated away. *)
Lemma fixD_red Fr s ctx d p kp vp cp X w kw vw SN SF :
  is_tree Fr s (plug ctx (mk d p kp vp cp X (mk d w kw vw RED SN SF))) -> X <> E ->
  exists s1, fixD_side d (rt X) s = fixD_rest d (rt X) (rt SN) s1
    /\ is_tree Fr s1 (plug (F d w kw vw BLACK SF :: ctx) (mk d p kp vp RED X SN)).
Proof.
  intros Ht HX. unfold fixD_side. rewrite (parent_here _ _ _ _ _ _ _ _ _ _ Ht HX). cbn [mbind option_bind].
  rewrite (proj2 (childOf_node _ _ _ _ _ _ _ _ _ _ Ht)). cbn [mbind option_bind]. rewrite rt_mk.
  destruct (child_here _ _ _ _ _ _ _ _ _ _ _ _ _ _ _ _ Ht) as (_ & _ & _ & _ & ->). cbn [mbind option_bind].
  change (RED =? RED) with true. cbn iota.
  destruct (paint_sib _ _ _ _ _ _ _ _ _ _ _ _ _ _ BLACK _ _ Ht) as (s1 & -> & H1). cbn [mbind option_bind].
  rewrite (parent_here _ _ _ _ _ _ _ _ _ _ H1 HX). cbn [mbind option_bind].
  destruct (setColor_node _ _ _ _ _ _ _ _ RED _ _ H1) as (s2 & -> & H2). cbn [mbind option_bind].
  rewrite (parent_here _ _ _ _ _ _ _ _ _ _ H2 HX). cbn [mbind option_bind].
  destruct (rotate_tree _ _ _ _ _ _ _ _ _ _ _ _ _ _ _ H2) as (s3 & -> & H3). cbn [mbind option_bind].
  rewrite focus in H3. rewrite (parent_here _ _ _ _ _ _ _ _ _ _ H3 HX). cbn [mbind option_bind].
  rewrite (proj2 (childOf_node _ _ _ _ _ _ _ _ _ _ H3)). cbn [mbind option_bind]. eauto.
Qed.

Lemma fixD_black Fr s ctx d p kp vp cp X W :
  is_tree Fr s (plug ctx (mk d p kp vp cp X W)) -> X <> E -> col W = BLACK ->
  fixD_side d (rt X) s = fixD_rest d (rt X) (rt W) s.
Proof.
  intros Ht HX HW. unfold fixD_side. rewrite (parent_here _ _ _ _ _ _ _ _ _ _ Ht HX). cbn [mbind option_bind].
  rewrite (proj2 (childOf_node _ _ _ _ _ _ _ _ _ _ Ht)). cbn [mbind option_bind]. rewrite focus_opp in Ht.
  rewrite (colorOf_tree _ _ _ _ Ht), HW. done.
Qed.

(** ** One black node short *)

(** A subtree of black height [n] whose root may be red below a red node. *)
Inductive rbw (ph : Z) : tree -> nat -> Prop :=
| rbw_ph k v : rbw ph (T ph k v BLACK E E) 0
| rbw_R x k v a b ca cb n : x <> ph -> rb ph a ca n -> rb ph b cb n -> rbw ph (T x k v RED a b) n
| rbw_B x k v a b ca cb n : x <> ph -> rb ph a ca n -> rb ph b cb n -> rbw ph (T x k v BLACK a b) (S n).

Lemma rbw_cases ph t n : rbw ph t n ->
  t <> E /\ ((col t = BLACK /\ rb ph t BLACK n) \/ (col t = RED /\ rb ph (paint BLACK t) BLACK (S n))).
Proof.
  destruct 1; (split; [done|]); [left; split; [done|constructor]|right|left]; (split; [done|econstructor; eauto]).
Qed.

Lemma rbw_paint ph t n : rbw ph t n -> exists m, rb ph (paint BLACK t) BLACK m.
Proof. intros (_ & [[_ H]|[_ H]])%rbw_cases; [by eapply rb_paint|eauto]. Qed.

Lemma rbw_mk_R ph d x k v a b ca cb n : x <> ph -> rb ph a ca n -> rb ph b cb n -> rbw ph (mk d x k v RED a b) n.
Proof. destruct d; econstructor; eauto. Qed.

Lemma rbw_mk_B ph d x k v a b ca cb n : x <> ph -> rb ph a ca n -> rb ph b cb n -> rbw ph (mk d x k v BLACK a b) (S n).
Proof. destruct d; econstructor; eauto. Qed.

(** A black tree of positive height, by side. *)
Lemma rb_black_node ph d t n : rb ph t BLACK (S n) -> exists x k v a b ca cb,
  t = mk d x k v BLACK a b /\ x <> ph /\ rb ph a ca n /\ rb ph b cb n.
Proof.
  inversion 1; subst. destruct d; [eauto 15|]. exists x, k, v, b, a, cb, ca. done.
Qed.

Lemma rb_red_node ph d t n : rb ph t RED n -> exists x k v a b,
  t = mk d x k v RED a b /\ x <> ph /\ rb ph a BLACK n /\ rb ph b BLACK n.
Proof. inversion 1; subst. destruct d; [eauto 15|]. exists x, k, v, b, a. done. Qed.

(** The frame of a hole, with the colour of its node. *)
Lemma rbc_frame ph d p kp vp cp W ctx n : rbc ph (F d p kp vp cp W :: ctx) BLACK n ->
  p <> ph /\ ((cp = RED /\ rb ph W BLACK n /\ rbc ph ctx RED n)
              \/ (cp = BLACK /\ exists cw, rb ph W cw n /\ rbc ph ctx BLACK (S n))).
Proof. inversion 1; subst; split; eauto 10. Qed.

(** A node of the parent's colour with two subtrees of the right height takes the place of
    the parent. *)
Lemma replace_parent ph d p kp vp cp W ctx n y ky vy A B :
  rbc ph (F d p kp vp cp W :: ctx) BLACK n -> y <> ph -> rb ph A BLACK n -> rb ph B BLACK n ->
  exists m, rb ph (plug ctx (mk d y ky vy cp A B)) BLACK m.
Proof.
  intros (_ & [(-> & _ & Hc)|(-> & cw & _ & Hc)])%rbc_frame Hy HA HB.
  - eapply plug_rb; [exact Hc|]. by apply rb_mk_R.
  - eapply plug_rb; [exact Hc|]. by eapply rb_mk_B.
Qed.

Lemma same_far d p kp vp cp X w kw vw cw SN SF c1 c2 :
  same (mk d w kw vw c1 (mk d p kp vp c2 X SN) (paint BLACK SF)) (mk d p kp vp cp X (mk d w kw vw cw SN SF)).
Proof.
  rewrite (same_rotate d p kp vp cp w kw vw cw c2 c1). apply same_mk; [done|apply same_paint].
Qed.

Lemma same_near d p kp vp cp X w kw vw cw y ky vy cy A B SF c1 c2 c3 :
  same (mk d y ky vy c1 (mk d p kp vp c2 X A) (mk d w kw vw c3 B SF))
    (mk d p kp vp cp X (mk d w kw vw cw (mk d y ky vy cy A B) SF)).
Proof.
  assert (H : same (mk d w kw vw cw (mk d y ky vy cy A B) SF) (mk d y ky vy cy A (mk d w kw vw c3 B SF))).
  { symmetry. apply same_rotate. }
  rewrite <- (same_rotate d p kp vp cp y ky vy cy c2 c1). apply same_mk; [done|by symmetry].
Qed.

(** The cases of a black sibling: done, or the parent is now the short one. *)
Lemma fixD_rest_ok Fr ph s ctx d p kp vp cp X W n :
  is_tree Fr s (plug ctx (mk d p kp vp cp X W)) -> X <> E -> rb ph X BLACK n -> rb ph W BLACK (S n) ->
  rbc ph (F d p kp vp cp W :: ctx) BLACK (S n) ->
  exists x' s', fixD_rest d (rt X) (rt W) s = Some (x', s') /\
    ((x' = root s' /\ exists t' m, is_tree Fr s' t' /\ same t' (plug ctx (mk d p kp vp cp X W)) /\ rb ph t' BLACK m)
     \/ (exists Y n', x' = rt Y /\ is_tree Fr s' (plug ctx Y) /\ same Y (mk d p kp vp cp X W)
          /\ rbw ph Y n' /\ rbc ph ctx BLACK (S n') /\ col Y = cp)).
Proof.
  intros Ht HX HbX HbW Hc. destruct (rb_black_node ph d W n HbW) as (w & kw & vw & SN & SF & cn & cf & -> & Hw & HN & HF).
  pose proof (rb_col _ _ _ _ HN) as [-> HcN]. pose proof (rb_col _ _ _ _ HF) as [-> HcF]. rewrite rt_mk.
  destruct HcF as [EF|EF].
  - destruct (fixD_rest_far _ _ _ _ _ _ _ _ _ _ _ _ _ _ _ Ht HX) as (s' & E1 & H1); [by rewrite EF|].
    exists (root s'), s'. split; [done|]. left. split; [done|]. rewrite EF in HF.
    destruct (rbc_frame _ _ _ _ _ _ _ _ _ Hc) as [Hp _].
    destruct (replace_parent ph d p kp vp cp _ ctx (S n) w kw vw (mk d p kp vp BLACK X SN) (paint BLACK SF) Hc Hw) as [m Hm];
      [by eapply rb_mk_B|by apply rb_paint_red|].
    eexists _, m. split_and!; [exact H1|apply plug_same, same_far|exact Hm].
  - destruct HcN as [EN|EN].
    + rewrite EN in HN. destruct (rb_red_node ph d SN n HN) as (y & ky & vy & A & B & -> & Hy & HA & HB).
      destruct (fixD_rest_near _ _ _ _ _ _ _ _ _ _ _ _ _ _ _ _ _ _ _ _ Ht HX) as (s' & E1 & H1); [done|done|].
      exists (root s'), s'. split; [done|]. left. split; [done|]. rewrite EF in HF.
      destruct (rbc_frame _ _ _ _ _ _ _ _ _ Hc) as [Hp _].
      destruct (replace_parent ph d p kp vp cp _ ctx (S n) y ky vy (mk d p kp vp BLACK X A) (mk d w kw vw BLACK B SF) Hc Hy) as [m Hm];
        [by eapply rb_mk_B|by eapply rb_mk_B|].
      eexists _, m. split_and!; [exact H1|apply plug_same, same_near|exact Hm].
    + destruct (fixD_rest_recolor _ _ _ _ _ _ _ _ _ _ _ _ _ _ _ Ht HX EN EF) as (s' & E1 & H1).
      exists p, s'. split; [done|]. right. rewrite EN in HN. rewrite EF in HF.
      assert (Hr : rb ph (mk d w kw vw RED SN SF) RED n) by (by apply rb_mk_R).
      destruct (rbc_frame _ _ _ _ _ _ _ _ _ Hc) as (Hp & [(-> & _ & Hc')|(-> & cw & _ & Hc')]).
      * exists (mk d p kp vp RED X (mk d w kw vw RED SN SF)), n. rewrite rt_mk, col_mk.
        split_and!; [done|exact H1|by repeat apply same_mk|by eapply rbw_mk_R|by apply rbc_red|done].
      * exists (mk d p kp vp BLACK X (mk d w kw vw RED SN SF)), (S n). rewrite rt_mk, col_mk.
        split_and!; [done|exact H1|by repeat apply same_mk|by eapply rbw_mk_B|done|done].
Qed.

Lemma fixD_side_ok Fr ph s ctx d p kp vp cp X W n :
  is_tree Fr s (plug ctx (mk d p kp vp cp X W)) -> X <> E -> rb ph X BLACK n ->
  rbc ph (F d p kp vp cp W :: ctx) BLACK (S n) ->
  exists x' s', fixD_side d (rt X) s = Some (x', s') /\
    ((x' = root s' /\ exists t' m, is_tree Fr s' t' /\ same t' (plug ctx (mk d p kp vp cp X W)) /\ rb ph t' BLACK m)
     \/ (exists ctx' Y n', x' = rt Y /\ is_tree Fr s' (plug ctx' Y)
          /\ same (plug ctx' Y) (plug ctx (mk d p kp vp cp X W))
          /\ rbw ph Y n' /\ rbc ph ctx' BLACK (S n') /\ (col Y = BLACK -> ctx' = ctx))).
Proof.
  intros Ht HX HbX Hc. destruct (rbc_frame _ _ _ _ _ _ _ _ _ Hc) as (Hp & Hcase).
  assert (HW : exists cw, rb ph W cw (S n)) by (destruct Hcase as [(_ & ? & _)|(_ & cw & ? & _)]; eauto).
  destruct HW as [cw HW]. destruct (rb_col _ _ _ _ HW) as [-> [EW|EW]].
  - rewrite EW in HW. destruct Hcase as [(-> & HB & _)|(-> & cw & _ & Hc1)];
      [destruct (rb_col _ _ _ _ HB) as [HB' _]; by rewrite EW in HB'|].
    destruct (rb_red_node ph d W (S n) HW) as (w & kw & vw & SN & SF & -> & Hw & HN & HF).
    destruct (fixD_red _ _ _ _ _ _ _ _ _ _ _ _ _ _ Ht HX) as (s1 & -> & H1).
    assert (Hc2 : rbc ph (F d p kp vp RED SN :: F d w kw vw BLACK SF :: ctx) BLACK (S n)).
    { constructor; [done|done|]. by econstructor. }
    assert (Hs : same (plug (F d w kw vw BLACK SF :: ctx) (mk d p kp vp RED X SN))
      (plug ctx (mk d p kp vp BLACK X (mk d w kw vw RED SN SF)))).
    { cbn. apply plug_same. symmetry. apply same_rotate. }
    destruct (fixD_rest_ok Fr ph s1 _ d p kp vp RED X SN n H1 HX HbX HN Hc2)
      as (x' & s' & -> & [(-> & t' & m & Q1 & Q2 & Q3)|(Y & n' & -> & Q1 & Q2 & Q3 & Q4 & Q5)]).
    + eexists _, _. split; [done|left]. split; [done|]. exists t', m. split_and!; [done| |done]. by rewrite Q2.
    + eexists _, _. split; [done|right]. eexists _, Y, n'. split_and!; [done|exact Q1| |done|done|by rewrite Q5].
      rewrite Q2. exact Hs.
  - rewrite EW in HW. rewrite (fixD_black _ _ _ _ _ _ _ _ _ _ Ht HX EW).
    destruct (fixD_rest_ok Fr ph s _ d p kp vp cp X W n Ht HX HbX HW Hc)
      as (x' & s' & -> & [(-> & H1)|(Y & n' & -> & Q1 & Q2 & Q3 & Q4 & Q5)]).
    + eexists _, _. split; [done|left]. split; [done|exact H1].
    + eexists _, _. split; [done|right]. eexists ctx, Y, n'. split_and!; [done|exact Q1| |done..]. by rewrite Q2.
Qed.

(** ** The loop *)

Lemma fixD_root fuel s : fixD_loop fuel (root s) s = Some (root s, s).
Proof. destruct fuel; cbn; by rewrite Z.eqb_refl. Qed.

Lemma fixD_step Fr s fuel ctx d p kp vp cp X W :
  is_tree Fr s (plug ctx (mk d p kp vp cp X W)) -> X <> E -> col X = BLACK ->
  fixD_loop (S fuel) (rt X) s = ('(x, s) ← fixD_side d (rt X) s; fixD_loop fuel x s).
Proof.
  intros Ht HX Hc. pose proof (parent_here _ _ _ _ _ _ _ _ _ _ Ht HX) as E1.
  pose proof (side_of _ _ _ _ _ _ _ _ _ _ Ht HX) as [C1 C2]. rewrite focus in Ht.
  pose proof (not_root _ _ _ _ Ht HX ltac:(done)) as Hr. pose proof (colorOf_tree _ _ _ _ Ht) as C3. rewrite Hc in C3.
  cbn [fixD_loop]. rewrite (proj2 (Z.eqb_neq _ _) Hr), C3. cbn [mbind option_bind]. change (negb (BLACK =? BLACK)) with false.
  cbn iota. rewrite E1. cbn [mbind option_bind]. unfold leftOf. rewrite C1. cbn [mbind option_bind]. rewrite C2. by destruct d.
Qed.

Lemma fixD_stop Fr s fuel ctx X : is_tree Fr s (plug ctx X) -> X <> E -> (ctx = [] \/ col X = RED) ->
  fixD_loop fuel (rt X) s = Some (rt X, s).
Proof.
  intros Ht HX [-> |Hc].
  - assert (Hr : root s = rt X) by apply (it_root _ _ _ Ht). rewrite <- Hr. apply fixD_root.
  - destruct (decide (rt X = root s)) as [-> |Hr]; [apply fixD_root|].
    pose proof (colorOf_tree _ _ _ _ Ht) as C3. rewrite Hc in C3.
    destruct fuel; cbn; by rewrite (proj2 (Z.eqb_neq _ _) Hr), C3.
Qed.

Lemma fixD_loop_ok Fr ph : forall fuel ctx X n s,
  is_tree Fr s (plug ctx X) -> rbw ph X n -> rbc ph ctx BLACK (S n) -> (col X = BLACK -> (length ctx <= fuel)%nat) ->
  exists s' ctx' X' m, fixD_loop fuel (rt X) s = Some (rt X', s') /\ X' <> E /\ is_tree Fr s' (plug ctx' X')
    /\ same (plug ctx' X') (plug ctx X) /\ rb ph (plug ctx' (paint BLACK X')) BLACK m.
Proof.
  induction fuel as [|fuel IH]; intros ctx X n s Ht Hw Hc Hf; destruct (rbw_cases _ _ _ Hw) as (HX & [[HcX HbX]|[HcX HbX]]).
  1,3: destruct ctx as [|[d p kp vp cp W] ctx].
  - destruct (rb_paint _ _ _ _ HbX) as [m Hm]. exists s, [], X, m. split_and!; [|done..]. by eapply fixD_stop; [|done|left].
  - specialize (Hf HcX). cbn in Hf. lia.
  - destruct (rb_paint _ _ _ _ HbX) as [m Hm]. exists s, [], X, m. split_and!; [|done..]. by eapply fixD_stop; [|done|left].
  - specialize (Hf HcX). cbn in Hf. cbn [plug fd fx fk fv fc fs] in Ht.
    rewrite (fixD_step Fr s fuel ctx d p kp vp cp X W Ht HX HcX).
    destruct (fixD_side_ok Fr ph s ctx d p kp vp cp X W n Ht HX HbX Hc)
      as (x' & s' & -> & [(-> & t' & m & Q1 & Q2 & Q3)|(ctx' & Y & n' & -> & Q1 & Q2 & Q3 & Q4 & Q5)]); cbn [mbind option_bind].
    + rewrite fixD_root, (it_root _ _ _ Q1). destruct (rb_paint _ _ _ _ Q3) as [m' Hm']. exists s', [], t', m'.
      split_and!; [done| |done|done|done]. intros ->. apply same_both in Q2 as [_ Q2]. rewrite plug_locs, locs_mk in Q2.
      by apply Permutation_nil_l in Q2.
    + destruct (IH ctx' Y n' s' Q1 Q3 Q4) as (s2 & ctx2 & X2 & m & P1 & P2 & P3 & P4 & P5).
      { intros HY. rewrite (Q5 HY). lia. }
      exists s2, ctx2, X2, m. split_and!; [done..| |done]. cbn [plug fd fx fk fv fc fs]. by rewrite P4.
  - destruct (plug_rb _ _ _ _ Hc _ HbX) as [m Hm]. exists s, ctx, X, m. split_and!; [|done..]. by eapply fixD_stop; [|done|right].
  - destruct (plug_rb _ _ _ _ Hc _ HbX) as [m Hm]. exists s, ctx, X, m. split_and!; [|done..]. by eapply fixD_stop; [|done|right].
Qed.

(** The whole of the fix-up. *)
Lemma fixAfterDeletion_ok Fr ph s ctx X n :
  is_tree Fr s (plug ctx X) -> rbw ph X n -> rbc ph ctx BLACK (S n) ->
  exists s' t' m, fixAfterDeletion (rt X) s = Some s' /\ is_tree Fr s' t' /\ same t' (plug ctx X) /\ rb ph t' BLACK m.
Proof.
  intros Ht Hw Hc. unfold fixAfterDeletion.
  destruct (fixD_loop_ok Fr ph (S (base.size (mem s))) ctx X n s Ht Hw Hc) as (s' & ctx' & X' & m & -> & HX & H1 & H2 & H3).
  { intros _. apply zip_size in Ht. lia. }
  cbn [mbind option_bind]. pose proof (rt_neq _ _ _ _ H1 HX) as Hn. rewrite (proj2 (Z.eqb_neq _ _) Hn).
  pose proof (colorOf_tree _ _ _ _ H1) as C. unfold colorOf in C. rewrite (proj2 (Z.eqb_neq _ _) Hn) in C.
  rewrite C. cbn [mbind option_bind]. destruct (Z.eqb_spec (col X') BLACK) as [E1|E1]; cbn [negb].
  - exists s', (plug ctx' X'), m. split_and!; [done..|]. replace X' with (paint BLACK X') at 1; [done|].
    destruct X'; cbn in *; by subst.
  - destruct (setColor_tree _ _ _ _ BLACK H1) as (s2 & Hs2 & H4). unfold setColor in Hs2.
    rewrite (proj2 (Z.eqb_neq _ _) Hn) in Hs2. exists s2, (plug ctx' (paint BLACK X')), m.
    split_and!; [done|done| |done]. rewrite <- H2. apply plug_same, same_paint.
Qed.

(** ** Taking a node out *)

(** The nodes around the hole of a context. *)
Lemma nodes_plug ctx : exists l1 l2, forall t, nodes (plug ctx t) = l1 ++ nodes t ++ l2.
Proof.
  induction ctx as [|[d x k v c b] ctx (l1 & l2 & IH)]; cbn.
  - exists [], []. intros t. by rewrite app_nil_r.
  - destruct d; cbn.
    + exists l1, ((x, (k, v)) :: nodes b ++ l2). intros t. rewrite IH. cbn. by rewrite <- app_assoc.
    + exists (l1 ++ nodes b ++ [(x, (k, v))]), l2. intros t. rewrite IH. cbn. by rewrite <- !app_assoc.
Qed.

(** Addresses are unique, so the place of a node in the order is too. *)
Lemma split_unique (l1 l2 m1 m2 : list (Z * (Z * Z))) x p q :
  NoDup (l1 ++ (x, p) :: l2).*1 -> l1 ++ (x, p) :: l2 = m1 ++ (x, q) :: m2 -> l1 = m1 /\ p = q /\ l2 = m2.
Proof.
  revert m1. induction l1 as [|[y r] l1 IH]; intros [|[z r'] m1]; cbn; intros Hnd He; simplify_eq.
  - done.
  - apply NoDup_cons in Hnd as [Hx _]. exfalso. apply Hx. rewrite fmap_app. apply elem_of_app. right. by left.
  - apply NoDup_cons in Hnd as [Hx _]. exfalso. apply Hx. rewrite fmap_app. apply elem_of_app. right. by left.
  - apply NoDup_cons in Hnd as [_ Hnd]. by destruct (IH m1 Hnd ltac:(eassumption)) as (-> & -> & ->).
Qed.

Lemma nodes_nodup Fr s t : is_tree Fr s t -> NoDup (nodes t).*1.
Proof. intros Ht. rewrite <- nodes_locs. apply Ht. Qed.

(** A node of a tree, seen from its place. *)
Lemma locate x t : x ∈ locs t -> exists ctx k v c a b, t = plug ctx (T x k v c a b).
Proof.
  induction t as [|y k v c a IHa b IHb]; cbn; [by intros ?%elem_of_nil|].
  intros [-> |[Hx|Hx]%elem_of_app]%elem_of_cons.
  - by exists [], k, v, c, a, b.
  - destruct (IHa Hx) as (ctx & k' & v' & c' & a' & b' & ->). exists (ctx ++ [F L y k v c b]), k', v', c', a', b'. by rewrite plug_app.
  - destruct (IHb Hx) as (ctx & k' & v' & c' & a' & b' & ->). exists (ctx ++ [F R y k v c a]), k', v', c', a', b'. by rewrite plug_app.
Qed.

Lemma frames_in ctx z : (exists f, f ∈ ctx /\ fx f = z) -> z ∈ clocs ctx.
Proof.
  intros (f & Hf & <-). induction Hf as [f ctx|f g ctx _ IH]; cbn; [by left|]. right. apply elem_of_app. by right.
Qed.

Lemma frames_ne ctx z : z ∉ clocs ctx -> Forall (fun f => fx f <> z) ctx.
Proof. intros Hz. apply Forall_forall. intros f Hf E. apply Hz, frames_in. eauto. Qed.

(** The conditions around a node of a real tree. *)
Lemma unplug_null Fr s ctx t m : is_tree Fr s (plug ctx t) -> rb NULL (plug ctx t) BLACK m ->
  exists c n, rb NULL t c n /\ rbc NULL ctx c n.
Proof.
  intros (_ & Rc & _)%is_tree_zip Hm. eapply unplug_rb; [exact Hm|]. by eapply frames_ne, repc_null.
Qed.

(** Which node is the phantom does not matter to a tree that does not have it. *)
Lemma rb_change ph ph' t c n : rb ph t c n -> ph ∉ locs t -> ph' ∉ locs t -> rb ph' t c n.
Proof.
  induction 1 as [|k v|x k v a b n Hx Ha IHa Hb IHb|x k v a b ca cb n Hx Ha IHa Hb IHb]; cbn; rewrite ?not_elem_of_cons, ?not_elem_of_app.
  - constructor.
  - tauto.
  - intros. constructor; [apply not_eq_sym; tauto|apply IHa; tauto|apply IHb; tauto].
  - intros. econstructor; [apply not_eq_sym; tauto|apply IHa; tauto|apply IHb; tauto].
Qed.

Lemma rbc_change ph ph' ctx c n : rbc ph ctx c n -> ph ∉ clocs ctx -> ph' ∉ clocs ctx -> rbc ph' ctx c n.
Proof.
  induction 1 as [n|d x k v b ctx n Hx Hb Hc IH|d x k v b cb ctx c n Hx Hb Hc IH]; cbn; rewrite ?not_elem_of_cons, ?not_elem_of_app.
  - constructor.
  - intros. constructor; [apply not_eq_sym; tauto|apply (rb_change ph); tauto|apply IH; tauto].
  - intros. econstructor; [apply not_eq_sym; tauto|apply (rb_change ph ph' b cb n); tauto|apply IH; tauto].
Qed.

(** The store when [x], whose only subtree is [Y], is bypassed; [f] is what is written into
    the node that went. *)
Lemma bypass Fr s ctx d x k v c Y f :
  is_tree Fr s (plug ctx (mk d x k v c Y E)) ->
  exists nd, is_tree (fun w => if decide (w = x) then Some nd else Fr w)
    (RbTree (if up ctx =? NULL then rt Y else root s)
       (alter f x (alter (relink L x (rt Y)) (up ctx) (alter (set_p (up ctx)) (rt Y) (mem s)))))
    (plug ctx Y).
Proof.
  rewrite is_tree_zip, rep_mk, rt_mk. intros ((Hx & Lx & RY & _) & Rc & Hnd & Hn & Hr & Hf).
  assert (Hp : locs (mk d x k v c Y E) ++ clocs ctx ≡ₚ x :: locs Y ++ clocs ctx).
  { rewrite locs_mk. cbn. by rewrite app_nil_r. }
  rewrite Hp in Hnd. pose proof (rep_null _ _ _ RY) as NY. pose proof (repc_null _ _ _ Rc) as Nc. addr.
  assert (Ex1 : x <> rt Y) by (by apply rt_not_in). assert (Ex2 : x <> up ctx) by (by apply up_not_in).
  eexists. apply is_tree_zip. cbn [mem root]. split_and!.
  - apply rep_alter; [done|]. apply rep_alter; [apart|]. by eapply rep_set_p.
  - apply repc_alter; [done|]. apply repc_relink; [done..|]. apply repc_alter; [apart|]. done.
  - apply NoDup_app. done.
  - repeat apply alter_None. done.
  - rewrite Hr. symmetry. by eapply top_up.
  - intros z [Zy Zc]%not_elem_of_app. destruct (decide (z = x)) as [-> |Hz].
    + by rewrite lookup_alter_eq, !lookup_alter_ne, Lx by done.
    + rewrite <- Hf by (rewrite Hp, not_elem_of_cons, not_elem_of_app; done).
      destruct (decide (z = NULL)) as [-> |Hz0]; [rewrite Hn; repeat apply alter_None; done|].
      by rewrite !lookup_alter_ne by (by first [apply not_eq_sym, rt_not_in|apply not_eq_sym, up_not_in|apply not_eq_sym]).
Qed.

(** What the removal of the node [x] leaves. *)
Definition removed (Fr : Z -> option node_t) (x k v : Z) (t : tree) (s' : rbtree) : Prop :=
  exists t' nd m l1 l2, is_tree (fun w => if decide (w = x) then Some nd else Fr w) s' t' /\ rb NULL t' BLACK m
    /\ nodes t = l1 ++ (x, (k, v)) :: l2 /\ nodes t' = l1 ++ l2.

Lemma nodes_bypass ctx d x k v c Y : exists l1 l2,
  nodes (plug ctx (mk d x k v c Y E)) = l1 ++ (x, (k, v)) :: l2 /\ nodes (plug ctx Y) = l1 ++ l2.
Proof.
  destruct (nodes_plug ctx) as (l1 & l2 & H). rewrite !H. destruct d; cbn.
  - exists (l1 ++ nodes Y), l2. by rewrite <- !app_assoc.
  - by exists l1, (nodes Y ++ l2).
Qed.

Lemma unlink_reads d x k v p r c s : mem s !! x = Some (mkn d k v p r NULL c) ->
  unlink_node x s = if negb (r =? NULL) then splice_node x r p s
    else if p =? NULL then Some (set_root NULL s)
    else s ← (if c =? BLACK then fixAfterDeletion x s else Some s); cut_node x s.
Proof.
  intros Hl. unfold unlink_node. rewrite !(LDF_Some _ _ _ _ Hl). cbn [mbind option_bind]. destruct d; cbn [mkn nl nr np nc]; [|done].
  destruct (r =? NULL) eqn:Hr; cbn [negb]; [done|]. by rewrite Hr.
Qed.

(** The link from the parent, as [delete_node] redirects it. *)
Lemma redirect_left x y s ctx :
  mem s !! NULL = None -> (up ctx <> NULL -> is_Some (mem s !! up ctx)) ->
  (if up ctx =? NULL then Some (set_root y s)
   else ppl ← LDF nl (up ctx) s;
     if x =? ppl then STF (set_child L y) (up ctx) s else STF (set_child R y) (up ctx) s)
  = Some (RbTree (if up ctx =? NULL then y else root s) (alter (relink L x y) (up ctx) (mem s))).
Proof.
  intros Hn Hu. rewrite <- (redirect L x y s ctx _ Hn Hu eq_refl). destruct (up ctx =? NULL); [done|].
  change (LDF (child L)) with (LDF nl). destruct (LDF nl (up ctx) s) as [p|]; [|done]. cbn. by rewrite Z.eqb_sym.
Qed.

(** A real node of black height zero is red. *)
Lemma rb_short Y c : rb NULL Y c 0 -> rt Y <> NULL -> c = RED /\ rbw NULL Y 0.
Proof. inversion 1; subst; cbn; try done. intros _. split; [done|]. econstructor; eauto. Qed.

(** A node with one child, which takes its place. *)
Lemma unlink_child Fr s ctx d x k v c Y m :
  is_tree Fr s (plug ctx (mk d x k v c Y E)) -> Y <> E -> rb NULL (plug ctx (mk d x k v c Y E)) BLACK m ->
  exists s', unlink_node x s = Some s' /\ removed Fr x k v (plug ctx (mk d x k v c Y E)) s'.
Proof.
  intros Ht HY Hrb. pose proof (it_node _ _ _ _ _ _ _ _ _ _ Ht) as [Hx Hl]. pose proof (it_null _ _ _ Ht) as Hn.
  pose proof Ht as Hz. rewrite focus in Hz. pose proof (rt_neq _ _ _ _ Hz HY) as Hr.
  destruct (unplug_null _ _ _ _ _ Ht Hrb) as (c' & n & H1 & H2).
  apply rb_mk_inv in H1 as [-> [(-> & H3 & H4)|(-> & n' & ca & cb & -> & H3 & H4)]]; [| |done];
    (inversion H4; subst; destruct (rb_short _ _ H3 Hr) as [Hc HY0]; [try done]).
  rewrite (unlink_reads _ _ _ _ _ _ _ _ Hl).
  assert (Hxr : x <> rt Y) by (apply not_eq_sym; eapply tree_distinct; [exact Hz|done|by left]).
  assert (Dr : is_Some (mem s !! rt Y)).
  { apply is_tree_zip in Hz as (RY & _). by eapply rt_dom. }
  assert (Du : up ctx <> NULL -> is_Some (mem s !! up ctx)).
  { apply is_tree_zip in Ht as (_ & Rc & _). by eapply up_dom. }
  assert (Hxu : x <> up ctx).
  { intros E1. destruct ctx as [|g ctx]; [done|]. eapply (tree_distinct _ _ _ _ (fx g) Ht (mk_neq _ _ _ _ _ _ _)); [by left|].
    by rewrite rt_mk. }
  rewrite (proj2 (Z.eqb_neq _ _) Hr). cbn [negb]. unfold splice_node.
  rewrite STF_alter by done. cbn [mbind option_bind].
  erewrite (LDF_Some np x); [|cbn [mem]; rewrite lookup_alter_ne by done; exact Hl]. cbn [mbind option_bind].
  rewrite (proj2 (set_p_mkn _ 0 _ _ _ _ _ _)).
  rewrite (redirect_left x (rt Y)); [|by apply alter_None|intros; apply is_Some_alter; auto].
  cbn [mbind option_bind root mem].
  do 3 (rewrite STF_alter by (cbn [mem]; repeat apply is_Some_alter; by rewrite Hl); cbn [mbind option_bind root mem]).
  erewrite (LDF_Some nc x); [|cbn [mem]; rewrite !lookup_alter_eq, !lookup_alter_ne by done; rewrite Hl; reflexivity].
  rewrite !alter_alter_eq.
  destruct (bypass _ _ _ _ _ _ _ _ _ (set_p NULL ∘ (set_child R NULL ∘ set_child L NULL)) Ht) as (nd & H5).
  cbn [mbind option_bind]. replace (nc _) with BLACK by (by destruct d). rewrite Z.eqb_refl.
  destruct (fixAfterDeletion_ok _ NULL _ _ _ _ H5 HY0 H2) as (s' & t' & m' & Hs & E1 & E2 & E3).
  exists s'. split; [exact Hs|]. destruct (nodes_bypass ctx d x k v BLACK Y) as (l1 & l2 & N1 & N2).
  exists t', nd, m', l1, l2. split_and!; [done..|]. by rewrite E2.
Qed.

(** Cutting off a leaf. *)
Lemma cut_ok Fr s f ctx x k v c :
  is_tree Fr s (plug (f :: ctx) (T x k v c E E)) ->
  exists s' nd, cut_node x s = Some s' /\ is_tree (fun w => if decide (w = x) then Some nd else Fr w) s' (plug (f :: ctx) E).
Proof.
  intros Ht. destruct (bypass Fr s (f :: ctx) L x k v c E (set_p NULL) Ht) as (nd & Hb).
  pose proof (it_null _ _ _ Ht) as Hn. pose proof (it_node _ _ _ L _ _ _ _ _ _ Ht) as [Hx Hl].
  pose proof Ht as Hp. cbn [plug] in Hp. pose proof (it_node _ _ _ _ _ _ _ _ _ _ Hp) as [Hf Hlf]. cbn [rt] in *.
  assert (Hrel : (ppl ← LDF nl (fx f) s;
      if x =? ppl then STF (set_child L NULL) (fx f) s
      else ppr ← LDF nr (fx f) s; if x =? ppr then STF (set_child R NULL) (fx f) s else Some s)
    = Some (RbTree (root s) (alter (relink L x NULL) (fx f) (mem s)))).
  { pose proof (redirect_left x NULL s (f :: ctx) Hn) as Hr. cbn [up] in Hr. rewrite (proj2 (Z.eqb_neq _ _) Hf) in Hr.
    rewrite <- Hr by (intros _; by rewrite Hlf). rewrite !(LDF_Some _ _ _ _ Hlf). cbn [mbind option_bind].
    destruct (fd f); cbn [mkn nl nr]; rewrite Z.eqb_refl; [done|]. by destruct (x =? rt (fs f)). }
  cbn [up] in Hb. rewrite (proj2 (Z.eqb_neq _ _) Hf), alter_null in Hb by done. eexists _, nd. split; [|exact Hb].
  unfold cut_node. rewrite (LDF_Some _ _ _ _ Hl). cbn [mbind option_bind mkn np up].
  rewrite (proj2 (Z.eqb_neq _ _) Hf). cbn [negb].
  destruct (LDF nl (fx f) s) as [ppl|]; [|done]. cbn [mbind option_bind] in *.
  rewrite Hrel. cbn [mbind option_bind]. rewrite STF_alter; [done|]. cbn [mem]. apply is_Some_alter. by rewrite Hl.
Qed.

Lemma ctx_no_null Fr s ctx t : is_tree Fr s (plug ctx t) -> NULL ∉ locs (plug ctx t).
Proof. intros [H _ _ _ _]. by eapply rep_null. Qed.

(** The phantom of a finished fix-up is cut off. *)
Lemma cut_phantom Fr s t ctx x k v m :
  is_tree Fr s t -> rb x t BLACK m -> ctx <> [] -> same t (plug ctx (T x k v BLACK E E)) ->
  exists s', cut_node x s = Some s' /\ removed Fr x k v (plug ctx (T x k v BLACK E E)) s'.
Proof.
  intros Ht Hrb Hctx Hsame. pose proof (same_both _ _ Hsame) as [_ Hperm].
  assert (Hin : x ∈ locs t) by (rewrite Hperm, plug_locs; by left).
  destruct (locate x t Hin) as (ctx2 & k2 & v2 & c2 & a2 & b2 & ->).
  pose proof (it_nodup _ _ _ Ht) as Hnd. rewrite plug_locs in Hnd. cbn in Hnd. apply NoDup_cons in Hnd as [Hx _].
  rewrite not_elem_of_app in Hx. pose proof (ctx_no_null _ _ _ _ Ht) as Hnull.
  destruct (unplug_rb _ _ _ _ Hrb (frames_ne _ _ (proj2 Hx))) as (c' & n' & H1 & H2).
  assert (HT : T x k2 v2 c2 a2 b2 = T x k2 v2 BLACK E E /\ rbc x ctx2 BLACK 0) by (by inversion H1; subst).
  destruct HT as [HT H3]. rewrite HT in *. clear HT H1 H2.
  destruct ctx2 as [|f ctx2].
  { destruct ctx as [|g ctx]; [done|]. rewrite (plug_locs (g :: ctx)) in Hperm. apply Permutation_length in Hperm. cbn in Hperm. lia. }
  destruct (cut_ok _ _ _ _ _ _ _ _ Ht) as (s' & nd & Hs & H4). exists s'. split; [done|].
  destruct (plug_rb _ _ _ _ H3 E (rb_E x)) as [m' Hm'].
  destruct (nodes_bypass (f :: ctx2) L x k2 v2 BLACK E) as (l1 & l2 & N1 & N2). cbn [mk] in N1.
  destruct (nodes_plug ctx) as (l1' & l2' & N3). specialize (N3 (T x k v BLACK E E)). cbn [nodes app] in N3.
  pose proof (nodes_nodup _ _ _ Ht) as Hnd. rewrite N1 in Hnd.
  assert (Hsp : l1 ++ (x, (k2, v2)) :: l2 = l1' ++ (x, (k, v)) :: l2') by (by rewrite <- N1, <- N3).
  destruct (split_unique _ _ _ _ _ _ _ Hnd Hsp) as (-> & ? & ->). exists (plug (f :: ctx2) E), nd, m', l1', l2'.
  split_and!; [done| |done|done]. eapply rb_change; [exact Hm'|rewrite plug_locs; cbn; tauto|].
  intros Hb. apply Hnull. rewrite plug_locs in *. by right.
Qed.

(** A leaf. *)
Lemma unlink_leaf Fr s ctx x k v c m :
  is_tree Fr s (plug ctx (T x k v c E E)) -> rb NULL (plug ctx (T x k v c E E)) BLACK m ->
  exists s', unlink_node x s = Some s' /\ removed Fr x k v (plug ctx (T x k v c E E)) s'.
Proof.
  intros Ht Hrb. pose proof (it_node _ _ _ L _ _ _ _ _ _ Ht) as [Hx Hl]. pose proof (it_null _ _ _ Ht) as Hn.
  destruct (unplug_null _ _ _ _ _ Ht Hrb) as (c' & n & H1 & H2).
  destruct (nodes_bypass ctx L x k v c E) as (l1 & l2 & N1 & N2).
  cbn [rt] in Hl. rewrite (unlink_reads _ _ _ _ _ _ _ _ Hl). change (negb (NULL =? NULL)) with false. cbn iota.
  destruct ctx as [|f ctx].
  - destruct (bypass Fr s [] L x k v c E id Ht) as (nd & Hb). cbn [up rt] in *.
    change (NULL =? NULL) with true in *. cbn iota in *. eexists. split; [reflexivity|].
    exists E, nd, 0%nat, l1, l2. split_and!; [|constructor|done|done].
    rewrite alter_id, !alter_null in Hb by (rewrite ?alter_null by done; done). exact Hb.
  - assert (Hf : fx f <> NULL) by (cbn [plug] in Ht; apply it_node in Ht; tauto).
    cbn [up]. rewrite (proj2 (Z.eqb_neq _ _) Hf). destruct (rb_mk_inv _ L _ _ _ _ _ _ _ _ H1 Hx) as [-> [(-> & H3 & H4)|(-> & n' & ca & cb & -> & H3 & H4)]].
    + change (RED =? BLACK) with false. cbn [mbind option_bind].
      destruct (cut_ok _ _ _ _ _ _ _ _ Ht) as (s' & nd & Hs & H5). exists s'. split; [done|].
      destruct (rbc_red _ _ _ H2) as [H2' _]. destruct (plug_rb _ _ _ _ H2' E H3) as [m' Hm'].
      exists (plug (f :: ctx) E), nd, m', l1, l2. done.
    + rewrite Z.eqb_refl. inversion H3; subst.
      assert (Hxc : x ∉ clocs (f :: ctx)).
      { pose proof (it_nodup _ _ _ Ht) as Hnd. rewrite plug_locs in Hnd. by apply NoDup_cons in Hnd as [? _]. }
      assert (Hnc : NULL ∉ clocs (f :: ctx)) by (apply is_tree_zip in Ht as (_ & Rc & _); by eapply repc_null).
      destruct (fixAfterDeletion_ok Fr x s _ (T x k v BLACK E E) 0 Ht (rbw_ph _ _ _) (rbc_change _ _ _ _ _ H2 Hnc Hxc))
        as (s1 & t1 & m1 & Hs1 & E1 & E2 & E3). cbn [rt] in Hs1. rewrite Hs1. cbn [mbind option_bind].
      by eapply cut_phantom.
Qed.

Lemma unlink_ok Fr s ctx x k v c a b m :
  is_tree Fr s (plug ctx (T x k v c a b)) -> a = E \/ b = E -> rb NULL (plug ctx (T x k v c a b)) BLACK m ->
  exists s', unlink_node x s = Some s' /\ removed Fr x k v (plug ctx (T x k v c a b)) s'.
Proof.
  intros Ht Hab Hrb. destruct a as [|xa ka va ca a1 a2], b as [|xb kb vb cb b1 b2].
  - by eapply unlink_leaf.
  - by apply (unlink_child Fr s ctx R x k v c (T xb kb vb cb b1 b2) m).
  - by apply (unlink_child Fr s ctx L x k v c (T xa ka va ca a1 a2) m).
  - by destruct Hab.
Qed.

(** ** The node to remove *)

Lemma leftmost_ok Fr s t : forall fuel ctx, t <> E -> is_tree Fr s (plug ctx t) -> (length (locs t) <= fuel)%nat ->
  exists cL y k v c b l, leftmost fuel (rt t) s = Some y /\ t = plug cL (T y k v c E b)
    /\ forall u, nodes (plug cL u) = nodes u ++ l.
Proof.
  induction t as [|x k v c a IHa b _]; intros fuel ctx HE Ht Hf; [done|].
  pose proof (it_node _ _ _ L _ _ _ _ _ _ Ht) as [Hx Hl]. cbn in Hf. rewrite length_app in Hf.
  destruct fuel as [|fuel]; [lia|]. cbn [leftmost rt]. rewrite (LDF_Some _ _ _ _ Hl). cbn [mbind option_bind mkn nl].
  destruct a as [|xa ka va ca a1 a2].
  - exists [], x, k, v, c, b, []. split_and!; [done..|]. intros u. by rewrite app_nil_r.
  - change (rt (T xa ka va ca a1 a2)) with xa. rewrite (focus L) in Ht.
    pose proof (rt_neq _ _ _ _ Ht ltac:(done)) as Hn. cbn [rt] in Hn. rewrite (proj2 (Z.eqb_neq _ _) Hn).
    destruct (IHa fuel (F L x k v c b :: ctx) ltac:(done) Ht ltac:(lia)) as (cL & y & k' & v' & c' & b' & l & H1 & H2 & H3).
    exists (cL ++ [F L x k v c b]), y, k', v', c', b', (l ++ (x, (k, v)) :: nodes b). split_and!; [done| |].
    + rewrite plug_app, <- H2. done.
    + intros u. rewrite plug_app. cbn. by rewrite H3, <- app_assoc.
Qed.

Lemma rb_relabel Fr s ctx x k v k' v' c a b m :
  is_tree Fr s (plug ctx (T x k v c a b)) -> rb NULL (plug ctx (T x k v c a b)) BLACK m ->
  exists m', rb NULL (plug ctx (T x k' v' c a b)) BLACK m'.
Proof.
  intros Ht Hrb. destruct (unplug_null _ _ _ _ _ Ht Hrb) as (c' & n & H1 & H2). eapply plug_rb; [exact H2|].
  pose proof (it_node _ _ _ L _ _ _ _ _ _ Ht) as [Hx _]. inversion H1; subst; [done|..]; econstructor; eauto.
Qed.

Ltac reassoc := repeat (progress (rewrite ?fmap_app, <- ?app_assoc; cbn)); done.

(** Without the node that was picked, the tree has what it had without [x]. *)
Lemma pick_ok Fr s ctx x k v c a b m :
  is_tree Fr s (plug ctx (T x k v c a b)) -> rb NULL (plug ctx (T x k v c a b)) BLACK m ->
  exists s' y ctx' k' v' c' a' b' m' l1 l2 n1 n2,
    pick_node x s = Some (y, s') /\ is_tree Fr s' (plug ctx' (T y k' v' c' a' b')) /\ (a' = E \/ b' = E)
    /\ rb NULL (plug ctx' (T y k' v' c' a' b')) BLACK m'
    /\ elems (plug ctx (T x k v c a b)) = l1 ++ (k, v) :: l2
    /\ nodes (plug ctx' (T y k' v' c' a' b')) = n1 ++ (y, (k', v')) :: n2 /\ (n1 ++ n2).*2 = l1 ++ l2
    /\ locs (plug ctx (T x k v c a b)) ≡ₚ (n1 ++ (y, (k', v')) :: n2).*1.
Proof.
  intros Ht Hrb. pose proof (it_node _ _ _ L _ _ _ _ _ _ Ht) as [Hx Hl]. unfold pick_node.
  rewrite !(LDF_Some _ _ _ _ Hl). cbn [mbind option_bind mkn nl nr]. destruct (nodes_plug ctx) as (p & q & Hpq).
  assert (Hab : (a = E \/ b = E) \/ (a <> E /\ b <> E)) by (destruct a, b; auto). destruct Hab as [Hab|[Ha Hb]].
  - replace (negb (rt a =? NULL) && negb (rt b =? NULL)) with false; [|by destruct Hab as [-> | ->]; rewrite ?andb_false_r].
    exists s, x, ctx, k, v, c, a, b, m, (p.*2 ++ elems a), (elems b ++ q.*2), (p ++ nodes a), (nodes b ++ q).
    rewrite !nodes_elems, nodes_locs, !Hpq. cbn [nodes].
    split_and!; [done|done|done|done| | | |]; reassoc.
  - pose proof Ht as HtL. rewrite (focus L) in HtL. pose proof (rt_neq _ _ _ _ HtL Ha) as Na.
    pose proof Ht as HtR. rewrite (focus_opp L) in HtR. pose proof (rt_neq _ _ _ _ HtR Hb) as Nb.
    rewrite (proj2 (Z.eqb_neq _ _) Na), (proj2 (Z.eqb_neq _ _) Nb). cbn [negb andb]. unfold successor.
    rewrite (proj2 (Z.eqb_neq _ _) Hx), !(LDF_Some _ _ _ _ Hl). cbn [mbind option_bind mkn nr].
    rewrite (proj2 (Z.eqb_neq _ _) Nb). cbn [negb].
    destruct (leftmost_ok Fr s b (base.size (mem s)) _ Hb HtR) as (cL & y & k' & v' & c' & b' & l & -> & -> & Hn).
    { apply zip_size in HtR. lia. }
    cbn [mbind option_bind]. pose proof HtR as HtY. rewrite <- plug_app in HtY.
    pose proof (it_node _ _ _ L _ _ _ _ _ _ HtY) as [Hy Hly]. rewrite (LDF_Some _ _ _ _ Hly). cbn [mbind option_bind mkn nk].
    destruct (STF_tree Fr s ctx L x k v c a _ (set_k k') k' v c ltac:(done) Ht) as (s1 & -> & H1). cbn [mbind option_bind].
    pose proof H1 as H1Y. rewrite (focus_opp L), <- plug_app in H1Y. cbn [opp] in H1Y.
    pose proof (it_node _ _ _ L _ _ _ _ _ _ H1Y) as [_ Hly']. rewrite (LDF_Some _ _ _ _ Hly'). cbn [mbind option_bind mkn nv].
    destruct (STF_tree Fr s1 ctx L x k' v c a _ (set_v v') k' v' c ltac:(done) H1) as (s2 & -> & H2). cbn [mbind option_bind].
    pose proof H2 as H2Y. rewrite (focus_opp L), <- plug_app in H2Y. cbn [opp] in H2Y.
    destruct (rb_relabel Fr s ctx x k v k' v' c a _ m Ht Hrb) as [m' Hm'].
    exists s2, y, (cL ++ F R x k' v' c a :: ctx), k', v', c', E, b', m', (p.*2 ++ elems a), ((k', v') :: elems b' ++ l.*2 ++ q.*2),
      (p ++ nodes a ++ [(x, (k', v'))]), (nodes b' ++ l ++ q).
    split_and!; [done|exact H2Y|by left|by rewrite plug_app| | | |].
    + rewrite !nodes_elems, Hpq. cbn. rewrite Hn. reassoc.
    + rewrite plug_app. cbn. rewrite Hpq. cbn. rewrite Hn. reassoc.
    + rewrite !nodes_elems. reassoc.
    + rewrite nodes_locs, Hpq. cbn. rewrite Hn. reassoc.
Qed.

(** The whole of [delete_node]: it returns the node that went. *)
Lemma delete_node_ok Fr s ctx x k v c a b m :
  is_tree Fr s (plug ctx (T x k v c a b)) -> rb NULL (plug ctx (T x k v c a b)) BLACK m ->
  exists y s' t' nd m' l1 l2, delete_node x s = Some (y, s') /\ y <> NULL
    /\ is_tree (fun w => if decide (w = y) then Some nd else Fr w) s' t' /\ rb NULL t' BLACK m'
    /\ elems (plug ctx (T x k v c a b)) = l1 ++ (k, v) :: l2 /\ elems t' = l1 ++ l2
    /\ locs (plug ctx (T x k v c a b)) ≡ₚ y :: locs t'.
Proof.
  intros Ht Hrb. unfold delete_node.
  destruct (pick_ok _ _ _ _ _ _ _ _ _ _ Ht Hrb)
    as (s1 & y & ctx' & k' & v' & c' & a' & b' & m1 & l1 & l2 & n1 & n2 & -> & H1 & H2 & H3 & H4 & H5 & H6 & H7).
  cbn [mbind option_bind].
  destruct (unlink_ok _ _ _ _ _ _ _ _ _ _ H1 H2 H3) as (s2 & -> & t' & nd & m2 & r1 & r2 & E1 & E2 & E3 & E4).
  cbn [mbind option_bind]. pose proof (nodes_nodup _ _ _ H1) as Hnd. rewrite H5 in Hnd, E3.
  destruct (split_unique _ _ _ _ _ _ _ Hnd E3) as (-> & _ & ->).
  pose proof (it_node _ _ _ L _ _ _ _ _ _ H1) as [Hy _].
  exists y, s2, t', nd, m2, l1, l2. split_and!; [done|done|done|done|done|by rewrite nodes_elems, E4|].
  rewrite H7, (nodes_locs t'), E4, !fmap_app. cbn. by rewrite Permutation_middle.
Qed.
