(* ===== verification/RbTreeMap.v ===== *)
(** * The red-black tree as a finite map

    The operations of [RbTree] implement lookup, insertion, update and removal of a finite
    map, provided the comparison function orders the keys in use; the tree stays balanced. *)

From S2P Require Import Prelude Vacation RbTree RbTreeProps RbTreeDelete.
Import Rb.

(** ** Sorted association lists as maps *)

Lemma ordered_nodup l : ordered l -> NoDup l.*1.
Proof.
  unfold ordered. generalize (l.*1). clear l. induction 1 as [|x l _ IH Hf]; constructor; [|done].
  intros Hx. rewrite Forall_forall in Hf. specialize (Hf x Hx). lia.
Qed.

Lemma ordered_fresh l1 l2 k v : ordered (l1 ++ (k, v) :: l2) -> k ∉ (l1 ++ l2).*1 /\ ordered (l1 ++ l2).
Proof.
  intros Ho. pose proof (ordered_nodup _ Ho) as Hn. rewrite fmap_app in Hn. cbn in Hn.
  rewrite <- Permutation_middle, <- fmap_app in Hn. apply NoDup_cons in Hn as [Hk _]. split; [done|].
  apply ordered_app in Ho as (H1 & H2 & H3). unfold ordered in H2. cbn in H2. apply StronglySorted_inv in H2 as [H2 _].
  apply ordered_app. split_and!; [done|done|]. intros a b Ha Hb. apply H3; [done|by right].
Qed.

Lemma ordered_map l1 l2 k v : ordered (l1 ++ (k, v) :: l2) ->
  (list_to_map (l1 ++ (k, v) :: l2) : gmap Z Z) = <[k := v]> (list_to_map (l1 ++ l2))
  /\ (list_to_map (l1 ++ l2) : gmap Z Z) !! k = None.
Proof.
  intros Ho. destruct (ordered_fresh _ _ _ _ Ho) as [Hk _]. split; [|by apply not_elem_of_list_to_map_1].
  rewrite (list_to_map_proper (l1 ++ (k, v) :: l2) ((k, v) :: l1 ++ l2)); [done|by apply ordered_nodup|].
  by rewrite <- Permutation_middle.
Qed.

Lemma ordered_insert l1 l2 k v : ordered (l1 ++ l2) -> (forall a, a ∈ l1.*1 -> a < k) -> (forall b, b ∈ l2.*1 -> k < b) ->
  ordered (l1 ++ (k, v) :: l2).
Proof.
  rewrite !ordered_app. intros (H1 & H2 & H3) Ha Hb. split_and!; [done| |].
  - unfold ordered. cbn. constructor; [exact H2|]. apply Forall_forall. auto.
  - cbn. intros a b Hal [-> |Hbl]%elem_of_cons; auto.
Qed.

Lemma rep_agree h h' t par : (forall z, z ∈ locs t -> h' !! z = h !! z) -> rep h t par -> rep h' t par.
Proof.
  revert par. induction t as [|x k v c a IHa b IHb]; intros par Hh; cbn; [done|]. intros (Hx & Hl & Ha & Hb). cbn in Hh.
  split_and!; [done|rewrite Hh; [done|by left]|apply IHa; [|done]|apply IHb; [|done]]; intros z Hz; apply Hh; right; apply elem_of_app; auto.
Qed.

(** ** The height *)

Fixpoint height (t : tree) : nat := match t with E => 0 | T _ _ _ _ a b => S (Nat.max (height a) (height b)) end.

Lemma height_locs t : (height t <= length (locs t))%nat.
Proof. induction t as [|x k v c a IHa b IHb]; cbn; [done|]. rewrite length_app. lia. Qed.

(** A red node adds a level that the black height does not count; a black node doubles the
    smallest number of nodes. *)
Lemma rb_height t c n : rb NULL t c n -> NULL ∉ locs t ->
  (height t <= 2 * n + (if decide (c = RED) then 1 else 0))%nat /\ (2 ^ n <= S (length (locs t)))%nat.
Proof.
  induction 1 as [|k v|x k v a b n Hx Ha IHa Hb IHb|x k v a b ca cb n Hx Ha IHa Hb IHb]; cbn [height locs];
    rewrite ?not_elem_of_cons, ?not_elem_of_app; [intros _; cbn; lia|tauto|..]; intros (_ & Na & Nb);
    destruct (IHa Na) as [A1 A2], (IHb Nb) as [B1 B2]; cbn [length]; rewrite length_app;
    repeat case_decide; try done; rewrite ?Nat.pow_succ_r'; lia.
Qed.

Lemma rb_log t n : rb NULL t BLACK n -> NULL ∉ locs t -> (height t <= 2 * Nat.log2 (S (length (locs t))))%nat.
Proof.
  intros Ht Hn. destruct (rb_height _ _ _ Ht Hn) as [H1 H2]. case_decide; [done|].
  assert (n <= Nat.log2 (S (length (locs t))))%nat; [|lia]. rewrite <- (Nat.log2_pow2 n) by lia. by apply Nat.log2_le_mono.
Qed.

(** ** The operations *)

Section operations.
Context (compare : Z -> Z -> Z) (junk : node_t) (K : Z -> Prop).

(** What the code relies on: the sign of [compare] is the order, on the keys in use. *)
Hypothesis compare_ok : forall a b, K a -> K b -> (compare a b = 0 <-> a = b) /\ (compare a b < 0 <-> a < b).

Lemma compare_cases a b : K a -> K b ->
  (a = b /\ compare a b =? 0 = true)
  \/ (a < b /\ compare a b =? 0 = false /\ compare a b <? 0 = true)
  \/ (b < a /\ compare a b =? 0 = false /\ compare a b <? 0 = false).
Proof using compare_ok.
  intros Ha Hb. destruct (compare_ok a b Ha Hb) as [H1 H2].
  destruct (Z.eqb_spec (compare a b) 0) as [E1|E1], (Z.ltb_spec (compare a b) 0) as [E2|E2]; [lia|left; tauto|right; left; tauto|].
  right. right. split; [|done]. destruct (Z.lt_trichotomy a b) as [?|[?|?]]; [|tauto|done]. apply H2 in H. lia.
Qed.

Notation keys t := (elems t).*1.

Lemma keys_mk d x k v c a b : keys (mk d x k v c a b) ≡ₚ k :: keys a ++ keys b.
Proof.
  destruct d; cbn; rewrite fmap_app; cbn; rewrite <- Permutation_middle; [done|]. by rewrite (comm (++) (keys b)).
Qed.

Lemma search Fr s key t : forall fuel ctx,
  is_tree Fr s (plug ctx t) -> Forall K (keys t) -> K key -> path key ctx -> (height t <= fuel)%nat ->
  exists ctx', path key ctx' /\
    ((lookup_loop compare fuel (rt t) key s = Some NULL /\ plug ctx t = plug ctx' E)
     \/ (exists x v c a b, lookup_loop compare fuel (rt t) key s = Some x /\ x <> NULL
           /\ plug ctx t = plug ctx' (T x key v c a b))).
Proof using compare_ok.
  induction t as [|x k v c a IHa b IHb]; intros fuel ctx Ht HK Hk Hp Hf.
  - exists ctx. split; [done|left]. by destruct fuel.
  - cbn [rt]. pose proof (it_node _ _ _ L _ _ _ _ _ _ Ht) as [Hx Hl]. cbn in HK, Hf. rewrite fmap_app in HK. cbn in HK.
    rewrite Forall_app, Forall_cons in HK. destruct HK as (Ka & Kk & Kb).
    destruct fuel as [|fuel]; [lia|]. cbn [lookup_loop]. rewrite (proj2 (Z.eqb_neq _ _) Hx), (LDF_Some _ _ _ _ Hl).
    cbn [mbind option_bind mkn nk]. destruct (compare_cases key k Hk Kk) as [(-> & ->)|[(Hlt & -> & ->)|(Hlt & -> & ->)]].
    + exists ctx. split; [done|right]. eauto 10.
    + rewrite (LDF_Some _ _ _ _ Hl). cbn [mbind option_bind mkn child nl].
      apply (IHa fuel (F L x k v c b :: ctx)); [exact Ht|done|done|by constructor|lia].
    + rewrite (LDF_Some _ _ _ _ Hl). cbn [mbind option_bind mkn child nr].
      apply (IHb fuel (F R x k v c a :: ctx)); [exact Ht|done|done|by constructor|lia].
Qed.

Lemma insert_search Fr s key val n t : forall fuel ctx,
  t <> E -> is_tree Fr s (plug ctx t) -> Forall K (keys t) -> K key -> path key ctx -> (length (locs t) <= fuel)%nat ->
  exists ctx', path key ctx' /\
    ((exists f ctx1, ctx' = f :: ctx1 /\ plug ctx t = plug ctx' E
        /\ insert_loop compare fuel (rt t) key val n s = attach (fd f) (fx f) key val n s)
     \/ (exists x v c a b, insert_loop compare fuel (rt t) key val n s = Some (x, s) /\ x <> NULL
           /\ plug ctx t = plug ctx' (T x key v c a b))).
Proof using compare_ok.
  induction t as [|x k v c a IHa b IHb]; intros fuel ctx HE Ht HK Hk Hp Hf; [done|].
  cbn [rt]. pose proof (it_node _ _ _ L _ _ _ _ _ _ Ht) as [Hx Hl]. cbn in HK, Hf. rewrite fmap_app in HK. cbn in HK.
  rewrite Forall_app, Forall_cons in HK. destruct HK as (Ka & Kk & Kb). rewrite length_app in Hf.
  destruct fuel as [|fuel]; [lia|]. cbn [insert_loop]. rewrite (LDF_Some _ _ _ _ Hl).
  cbn [mbind option_bind mkn nk]. destruct (compare_cases key k Hk Kk) as [(-> & ->)|[(Hlt & -> & ->)|(Hlt & -> & ->)]].
  - exists ctx. split; [done|right]. eauto 10.
  - rewrite (LDF_Some _ _ _ _ Hl). cbn [mbind option_bind mkn child nl]. destruct a as [|xa ka va ca a1 a2].
    + exists (F L x k v c b :: ctx). split; [by constructor|left]. cbn. eauto.
    + assert (Hn : xa <> NULL) by (apply (it_node _ _ (F L x k v c b :: ctx) L) in Ht; tauto).
      change (rt (T xa ka va ca a1 a2)) with xa. rewrite (proj2 (Z.eqb_neq _ _) Hn). cbn [negb].
      apply (IHa fuel (F L x k v c b :: ctx)); [done|exact Ht|done|done|by constructor|cbn in *; lia].
  - rewrite (LDF_Some _ _ _ _ Hl). cbn [mbind option_bind mkn child nr]. destruct b as [|xa ka va ca a1 a2].
    + exists (F R x k v c a :: ctx). split; [by constructor|left]. cbn. eauto.
    + assert (Hn : xa <> NULL) by (apply (it_node _ _ (F R x k v c a :: ctx) L) in Ht; tauto).
      change (rt (T xa ka va ca a1 a2)) with xa. rewrite (proj2 (Z.eqb_neq _ _) Hn). cbn [negb].
      apply (IHb fuel (F R x k v c a :: ctx)); [done|exact Ht|done|done|by constructor|cbn in *; lia].
Qed.

(** [m] is the map held by the tree at [s]; the memory is that of the tree beside [Fr]. *)
Definition holds (Fr : Z -> option node_t) (s : rbtree) (m : gmap Z Z) : Prop :=
  exists t n, is_tree Fr s t /\ rb NULL t BLACK n /\ ordered (elems t) /\ Forall K (keys t)
    /\ (forall z, z ∈ locs t -> Fr z = None) /\ m = list_to_map (elems t).

Lemma found ctx x key v c a b : ordered (elems (plug ctx (T x key v c a b))) ->
  (list_to_map (elems (plug ctx (T x key v c a b))) : gmap Z Z) !! key = Some v.
Proof using.
  intros Ho. assert (He : elems (plug ctx (T x key v c a b)) = (pre ctx ++ elems a) ++ (key, v) :: elems b ++ post ctx).
  { rewrite elems_split. cbn. by rewrite <- !app_assoc. }
  rewrite He in *. destruct (ordered_map _ _ _ _ Ho) as [-> _]. by rewrite lookup_insert_eq.
Qed.

Lemma missing key ctx : path key ctx -> ordered (elems (plug ctx E)) ->
  (list_to_map (elems (plug ctx E)) : gmap Z Z) !! key = None
  /\ forall val, ordered (pre ctx ++ (key, val) :: post ctx)
      /\ (list_to_map (pre ctx ++ (key, val) :: post ctx) : gmap Z Z) = <[key := val]> (list_to_map (elems (plug ctx E))).
Proof using.
  intros Hp Ho. rewrite elems_split in *. cbn [elems app] in *.
  destruct (path_bounds key ctx [] Hp Ho) as [H1 H2].
  assert (Hi : forall val, ordered (pre ctx ++ (key, val) :: post ctx)) by (intros val; by apply ordered_insert).
  split; [by destruct (ordered_map _ _ _ _ (Hi 0))|]. intros val. split; [done|]. by destruct (ordered_map _ _ _ _ (Hi val)).
Qed.

Lemma lookup_ok Fr s t key : is_tree Fr s t -> ordered (elems t) -> Forall K (keys t) -> K key ->
  (lookup compare key s = Some NULL /\ (list_to_map (elems t) : gmap Z Z) !! key = None)
  \/ (exists ctx x v c a b, lookup compare key s = Some x /\ x <> NULL /\ t = plug ctx (T x key v c a b)
        /\ (list_to_map (elems t) : gmap Z Z) !! key = Some v).
Proof using compare_ok.
  intros Ht Ho HK Hk. unfold lookup. rewrite (it_root _ _ _ Ht).
  destruct (search Fr s key t (base.size (mem s)) [] Ht HK Hk) as (ctx & Hp & [[H1 H2]|(x & v & c & a & b & H1 & H2 & H3)]);
    [constructor|apply tree_size in Ht; pose proof (height_locs t); lia| |]; cbn [plug] in *.
  - left. split; [done|]. rewrite H2 in *. by apply missing.
  - right. exists ctx, x, v, c, a, b. rewrite H3 in *. split_and!; [done..|by apply found].
Qed.

Lemma get_ok Fr s m key : holds Fr s m -> K key ->
  rbtree_get compare key s = Some (default NULL (m !! key)) /\ rbtree_contains compare key s = Some (bool_decide (is_Some (m !! key))).
Proof using compare_ok.
  intros (t & n & Ht & _ & Ho & HK & _ & ->) Hk. unfold rbtree_get, rbtree_contains.
  destruct (lookup_ok Fr s t key Ht Ho HK Hk) as [[-> ->]|(ctx & x & v & c & a & b & -> & Hx & -> & ->)]; cbn [mbind option_bind].
  - split; [done|]. by rewrite bool_decide_false by (by intros []).
  - rewrite (proj2 (Z.eqb_neq _ _) Hx). cbn [negb]. rewrite bool_decide_true by done. split; [|done].
    pose proof (it_node _ _ _ L _ _ _ _ _ _ Ht) as [_ Hl]. by rewrite (LDF_Some _ _ _ _ Hl).
Qed.

(** The tree with the new node allocated beside it. *)
Lemma is_tree_alloc Fr s t n : is_tree Fr s t -> n <> NULL -> mem s !! n = None ->
  n ∉ locs t /\ is_tree (fun w => if decide (w = n) then Some junk else Fr w) (getNode n junk s) t.
Proof using.
  intros Ht Hn Hm. assert (Hl : n ∉ locs t).
  { intros Hin. destruct (rep_dom _ _ _ _ (it_rep _ _ _ Ht) Hin). congruence. }
  split; [done|]. by apply is_tree_put.
Qed.

Lemma insert_first key val n s j : mem s !! n = Some j ->
  (s ← STF (set_child L NULL) n s; s ← STF (set_child R NULL) n s; s ← STF (set_p NULL) n s;
   s ← STF (set_k key) n s; s ← STF (set_v val) n s; s ← STF (set_c BLACK) n s; Some (NULL, set_root n s))
  = Some (NULL, RbTree n (<[n := Node key val NULL NULL NULL BLACK]> (mem s))).
Proof using.
  intros Hj. rewrite (STF_put _ _ _ _ Hj). cbn [mbind option_bind].
  repeat (erewrite STF_put; [|cbn [mem]; apply lookup_insert_eq]; cbn [mbind option_bind root mem]).
  unfold set_root. cbn [mem]. by rewrite !insert_insert_eq.
Qed.

(** The whole of [insert], on a tree that has the new node beside it. *)
Lemma insert_ok Fr s t m key val n : is_tree Fr s t -> rb NULL t BLACK m -> ordered (elems t) -> Forall K (keys t) -> K key ->
  n <> NULL -> n ∉ locs t -> is_Some (mem s !! n) ->
  match (list_to_map (elems t) : gmap Z Z) !! key with
  | Some v => exists ctx x c a b, insert compare key val n s = Some (x, s) /\ x <> NULL /\ t = plug ctx (T x key v c a b)
  | None => exists s' t' m', insert compare key val n s = Some (NULL, s') /\ is_tree Fr s' t' /\ rb NULL t' BLACK m'
      /\ ordered (elems t') /\ Forall K (keys t') /\ locs t' ≡ₚ n :: locs t
      /\ (list_to_map (elems t') : gmap Z Z) = <[key := val]> (list_to_map (elems t))
  end.
Proof using compare_ok.
  intros Ht Hrb Ho HK Hk Hn Hl Hj. unfold insert. rewrite (it_root _ _ _ Ht).
  assert (t = E \/ t <> E) as [-> |Hne] by (destruct t; auto).
  - cbn [elems list_to_map foldr rt]. rewrite lookup_empty, Z.eqb_refl, (proj2 (Z.eqb_neq _ _) Hn).
    destruct Hj as [j Hj]. rewrite (insert_first key val n s j Hj).
    exists (RbTree n (<[n := Node key val NULL NULL NULL BLACK]> (mem s))), (T n key val BLACK E E), 1%nat.
    split_and!; [done| |by econstructor; [|constructor..]| | |done|done].
    + split; cbn [mem root rep locs rt app]; [by rewrite lookup_insert_eq|apply NoDup_singleton|
        rewrite lookup_insert_ne by done; apply Ht|done|].
      intros z Hz%not_elem_of_cons. rewrite lookup_insert_ne by (apply not_eq_sym; tauto). apply (it_frame _ _ _ Ht), Hz.
    + cbn. repeat constructor.
    + cbn. by constructor.
  - pose proof (rt_neq _ _ [] _ Ht Hne) as Hr. rewrite (proj2 (Z.eqb_neq _ _) Hr).
    destruct (insert_search Fr s key val n t (base.size (mem s)) [] Hne Ht HK Hk)
      as (ctx & Hp & [(f & ctx1 & -> & H2 & H3)|(x & v & c & a & b & H1 & H2 & H3)]);
      [constructor|by apply tree_size in Ht| |]; cbn [plug] in H2, H3 |- *.
    + rewrite H3. change (plug ctx1 _) with (plug (f :: ctx1) E) in H2. rewrite H2 in *.
      destruct (missing key (f :: ctx1) Hp Ho) as [-> Hins]. rewrite plug_locs in Hl. cbn [locs app] in Hl.
      destruct (attach_ok Fr s f ctx1 n key val m Ht Hn Hl Hj Hrb) as (s' & t' & -> & H5 & [H6 H7]%same_both & m' & H8).
      destruct (Hins val) as [H9 H10].
      assert (He : elems t' = pre (f :: ctx1) ++ (key, val) :: post (f :: ctx1)) by (by rewrite H6, elems_split).
      exists s', t', m'. rewrite He. split_and!; [done..| | |exact H10].
      * rewrite elems_split in HK. cbn [elems app] in HK. rewrite fmap_app, Forall_app in *. cbn [fmap list_fmap fst].
        rewrite Forall_cons. tauto.
      * by rewrite H7, !plug_locs.
    + rewrite H3 in *. rewrite (found _ _ _ _ _ _ _ Ho). eauto 10.
Qed.

Lemma insert_node Fr s t m key val n : is_tree Fr s t -> rb NULL t BLACK m -> ordered (elems t) -> Forall K (keys t) -> K key ->
  n <> NULL -> mem s !! n = None -> (forall z, z ∈ locs t -> Fr z = None) ->
  match (list_to_map (elems t) : gmap Z Z) !! key with
  | Some v => exists ctx x c a b, insert compare key val n (getNode n junk s) = Some (x, getNode n junk s) /\ x <> NULL
      /\ t = plug ctx (T x key v c a b)
  | None => exists s', insert compare key val n (getNode n junk s) = Some (NULL, s')
      /\ holds Fr s' (<[key := val]> (list_to_map (elems t)))
  end.
Proof using compare_ok.
  intros Ht Hrb Ho HK Hk Hn Hm HF. destruct (is_tree_alloc Fr s t n Ht Hn Hm) as [Hl H0].
  pose proof (insert_ok _ _ t m key val n H0 Hrb Ho HK Hk Hn Hl) as Hi.
  specialize (Hi ltac:(cbn [mem getNode]; by rewrite lookup_insert_eq)).
  destruct ((list_to_map (elems t) : gmap Z Z) !! key) as [v|]; [exact Hi|].
  destruct Hi as (s' & t' & h' & Hs & H1 & H2 & H3 & H4 & H5 & H6). exists s'. split; [done|].
  exists t', h'. split_and!; [|done..| |done].
  - eapply is_tree_frame; [|exact H1]. intros z Hz. cbn. destruct (decide (z = n)) as [-> |]; [|done].
    exfalso. apply Hz. rewrite H5. by left.
  - intros z. rewrite H5. intros [-> |Hz]%elem_of_cons; [|by apply HF]. by rewrite <- (it_frame _ _ _ Ht).
Qed.

Lemma rbtree_insert_holds Fr s m key val n : holds Fr s m -> K key -> n <> NULL -> mem s !! n = None ->
  exists s', rbtree_insert compare junk key val n s = Some (bool_decide (m !! key = None), s')
    /\ holds Fr s' (match m !! key with Some _ => m | None => <[key := val]> m end).
Proof using compare_ok.
  intros (t & h & Ht & Hrb & Ho & HK & HF & ->) Hk Hn Hm. unfold rbtree_insert.
  pose proof (insert_node Fr s t h key val n Ht Hrb Ho HK Hk Hn Hm HF) as Hi.
  destruct ((list_to_map (elems t) : gmap Z Z) !! key) as [v|] eqn:Em.
  - destruct Hi as (ctx & x & c & a & b & -> & Hx & _). cbn [mbind option_bind].
    rewrite (proj2 (Z.eqb_neq _ _) Hx), bool_decide_false by done. cbn [negb]. eexists. split; [reflexivity|].
    exists t, h. split_and!; [|done..]. destruct (is_tree_alloc Fr s t n Ht Hn Hm) as [Hl H0].
    eapply is_tree_frame; [|apply is_tree_release; [exact H0|done]].
    intros z Hz. cbn. destruct (decide (z = n)) as [-> |]; [|done]. by rewrite <- (it_frame _ _ _ Ht) by done.
  - destruct Hi as (s' & -> & H1). cbn [mbind option_bind]. rewrite bool_decide_true by done. eauto.
Qed.

(** [rbtree_update] overwrites the value of a key that is there. *)
Lemma rbtree_update_holds Fr s m key val n : holds Fr s m -> K key -> n <> NULL -> mem s !! n = None ->
  exists s', rbtree_update compare junk key val n s = Some (bool_decide (is_Some (m !! key)), s')
    /\ holds Fr s' (<[key := val]> m).
Proof using compare_ok.
  intros (t & h & Ht & Hrb & Ho & HK & HF & ->) Hk Hn Hm. unfold rbtree_update.
  pose proof (insert_node Fr s t h key val n Ht Hrb Ho HK Hk Hn Hm HF) as Hi.
  destruct ((list_to_map (elems t) : gmap Z Z) !! key) as [v|] eqn:Em.
  - destruct Hi as (ctx & x & c & a & b & -> & Hx & ->). cbn [mbind option_bind].
    rewrite (proj2 (Z.eqb_neq _ _) Hx), bool_decide_true by done. cbn [negb].
    destruct (is_tree_alloc Fr s _ n Ht Hn Hm) as [Hl H0].
    destruct (STF_tree _ _ ctx L x key v c a b (set_v val) key val c ltac:(done) H0) as (s' & -> & H1).
    cbn [mbind option_bind mk] in *. eexists. split; [reflexivity|].
    destruct (rb_relabel _ _ _ _ _ _ key val _ _ _ _ Ht Hrb) as [m' Hm'].
    assert (Hlocs : locs (plug ctx (T x key val c a b)) ≡ₚ locs (plug ctx (T x key v c a b))) by (by rewrite !plug_locs).
    assert (He : forall u, elems (plug ctx (T x key u c a b)) = (pre ctx ++ elems a) ++ (key, u) :: elems b ++ post ctx).
    { intros u. rewrite elems_split. cbn. by rewrite <- !app_assoc. }
    assert (Hkeys : keys (plug ctx (T x key val c a b)) = keys (plug ctx (T x key v c a b))) by (by rewrite !He, !fmap_app).
    assert (Ho' : ordered (elems (plug ctx (T x key val c a b)))) by (unfold ordered in *; by rewrite Hkeys).
    exists (plug ctx (T x key val c a b)), m'. split_and!; [|done|done|by rewrite Hkeys|intros z; rewrite Hlocs; apply HF|].
    + eapply is_tree_frame; [|apply is_tree_release; [exact H1|by rewrite Hlocs]]. intros z Hz. cbn.
      destruct (decide (z = n)) as [-> |]; [|done]. by rewrite <- (it_frame _ _ _ Ht) by done.
    + rewrite !He in *. destruct (ordered_map _ _ _ _ Ho') as [-> _], (ordered_map _ _ _ _ Ho) as [-> _].
      by rewrite insert_insert_eq.
  - destruct Hi as (s' & -> & H1). cbn [mbind option_bind]. rewrite bool_decide_false by (by intros []).
    change (negb (NULL =? NULL)) with false. cbn iota. eauto.
Qed.

Lemma rbtree_delete_holds Fr s m key : holds Fr s m -> K key ->
  exists s', rbtree_delete compare key s = Some (bool_decide (is_Some (m !! key)), s') /\ holds Fr s' (delete key m).
Proof using compare_ok.
  intros (t & h & Ht & Hrb & Ho & HK & HF & ->) Hk. unfold rbtree_delete.
  destruct (lookup_ok Fr s t key Ht Ho HK Hk) as [[-> Em]|(ctx & x & v & c & a & b & -> & Hx & -> & Em)]; cbn [mbind option_bind].
  - change (negb (NULL =? NULL)) with false. cbn [mbind option_bind]. change (negb (NULL =? NULL)) with false. rewrite Em.
    rewrite bool_decide_false by (by intros []). eexists. split; [reflexivity|]. rewrite delete_id by done.
    exists t, h. done.
  - rewrite (proj2 (Z.eqb_neq _ _) Hx). cbn [negb]. rewrite Em, bool_decide_true by done.
    destruct (delete_node_ok _ _ _ _ _ _ _ _ _ _ Ht Hrb) as (y & s' & t' & nd & m' & l1 & l2 & -> & Hy & E1 & E2 & E3 & E4 & E5).
    cbn [mbind option_bind]. rewrite (proj2 (Z.eqb_neq _ _) Hy). cbn [negb]. eexists. split; [reflexivity|].
    rewrite E3 in *. destruct (ordered_fresh _ _ _ _ Ho) as [_ Ho']. destruct (ordered_map _ _ _ _ Ho) as [-> Hd].
    exists t', m'. rewrite E4. split_and!; [|done|done| | |by rewrite delete_insert_id].
    + assert (Hyt : y ∉ locs t').
      { pose proof (it_nodup _ _ _ Ht) as Hnd. rewrite E5 in Hnd. by apply NoDup_cons in Hnd as [? _]. }
      eapply is_tree_frame; [|by apply is_tree_release]. intros z Hz. cbn. destruct (decide (z = y)) as [-> |]; [|done].
      symmetry. apply HF. rewrite E5. by left.
    + rewrite fmap_app, Forall_app in *. cbn in HK. rewrite Forall_cons in HK. tauto.
    + intros z Hz. apply HF. rewrite E5. by right.
Qed.

Lemma lookup_loop_mono fuel : forall fuel' x key s r, lookup_loop compare fuel x key s = Some r -> (fuel <= fuel')%nat ->
  lookup_loop compare fuel' x key s = Some r.
Proof using.
  induction fuel as [|fuel IH]; intros [|fuel'] x key s r; cbn [lookup_loop]; destruct (x =? NULL); try done; [lia|].
  intros H Hf. destruct (LDF nk x s) as [kx|]; [|done]. cbn [mbind option_bind] in *. destruct (compare key kx =? 0); [done|].
  destruct (LDF _ x s) as [y|]; [|done]. cbn [mbind option_bind] in *. apply IH; [done|lia].
Qed.

Lemma holds_size Fr s m : holds Fr s m -> exists t n, is_tree Fr s t /\ rb NULL t BLACK n /\ Forall K (keys t)
  /\ base.size m = length (locs t).
Proof using.
  intros (t & n & Ht & Hrb & Ho & HK & _ & ->). exists t, n. split_and!; [done..|].
  rewrite map_size_list_to_map by (by apply ordered_nodup). rewrite nodes_elems, nodes_locs. by rewrite !length_fmap.
Qed.

(** The search visits a number of nodes that is logarithmic in the size of the map. *)
Lemma lookup_log Fr s m key : holds Fr s m -> K key ->
  exists x, lookup_loop compare (2 * Nat.log2 (S (base.size m))) (root s) key s = Some x /\ lookup compare key s = Some x.
Proof using compare_ok.
  intros (t & n & Ht & Hrb & HK & ->)%holds_size Hk. pose proof (rb_log _ _ Hrb (ctx_no_null _ _ [] _ Ht)) as Hh.
  unfold lookup. rewrite (it_root _ _ _ Ht). pose proof (height_locs t). pose proof (tree_size _ _ _ Ht).
  assert (Hx : exists x, lookup_loop compare (height t) (rt t) key s = Some x).
  { destruct (search Fr s key t (height t) [] Ht HK Hk) as (ctx & _ & [[H1 _]|(x & v & c & a & b & H1 & _)]);
      [constructor|done|eauto..]. }
  destruct Hx as [x Hx]. exists x. split; eapply lookup_loop_mono; eauto. lia.
Qed.

(** ** Freeing *)

Lemma freeNode_ok t : forall fuel s par, rep (mem s) t par -> NoDup (locs t) -> (length (locs t) <= fuel)%nat ->
  exists s', freeNode fuel (rt t) s = Some s' /\ root s' = root s
    /\ forall z, mem s' !! z = if decide (z ∈ locs t) then None else mem s !! z.
Proof using.
  induction t as [|x k v c a IHa b IHb]; intros fuel s par Hr Hnd Hf.
  - exists s. cbn. split_and!; [by destruct fuel|done|]. intros z. rewrite decide_False; [done|]. apply not_elem_of_nil.
  - destruct Hr as (Hx & Hl & Ra & Rb). cbn in Hnd, Hf. apply NoDup_cons in Hnd as [Hxab Hnd].
    rewrite not_elem_of_app in Hxab. apply NoDup_app in Hnd as (Na & Hab & Nb). rewrite length_app in Hf.
    destruct fuel as [|fuel]; [lia|]. cbn [freeNode rt]. rewrite (proj2 (Z.eqb_neq _ _) Hx), (LDF_Some _ _ _ _ Hl).
    cbn [mbind option_bind nl]. destruct (IHa fuel s x Ra Na ltac:(lia)) as (s1 & -> & Hr1 & H1). cbn [mbind option_bind].
    assert (Hl1 : mem s1 !! x = Some (Node k v par (rt a) (rt b) c)) by (rewrite H1, decide_False by tauto; done).
    rewrite (LDF_Some _ _ _ _ Hl1). cbn [mbind option_bind nr].
    destruct (IHb fuel s1 x) as (s2 & -> & Hr2 & H2); [|done|lia|].
    { eapply rep_agree; [|exact Rb]. intros z Hz. rewrite H1, decide_False; [done|]. intros Hza. by eapply Hab. }
    cbn [mbind option_bind]. eexists. split; [reflexivity|]. cbn. split; [by rewrite Hr2|]. intros z.
    destruct (decide (z = x)) as [-> |Hz].
    + rewrite lookup_delete_eq, decide_True by (by left). done.
    + rewrite lookup_delete_ne, H2, H1 by done. repeat case_decide; try done; rewrite elem_of_cons, elem_of_app in *; tauto.
Qed.

Lemma rbtree_free_holds Fr s m : holds Fr s m -> exists s', rbtree_free s = Some s' /\ forall z, mem s' !! z = Fr z.
Proof using.
  intros (t & n & Ht & _ & _ & _ & HF & _). unfold rbtree_free. rewrite (it_root _ _ _ Ht).
  destruct (freeNode_ok t (base.size (mem s)) s NULL) as (s' & -> & _ & H1); [apply Ht|apply Ht|by eapply tree_size|].
  eexists. split; [done|]. intros z. rewrite H1. case_decide; [by rewrite HF|by rewrite (it_frame _ _ _ Ht)].
Qed.

(** ** Sequences of operations *)

(** What the code relies on of [malloc]: the address is not null and not in use. *)
Context (alloc : gmap Z node_t -> Z).
Hypothesis alloc_ok : forall h, alloc h <> NULL /\ h !! alloc h = None.

Inductive map_op := Insert (key val : Z) | Update (key val : Z) | Remove (key : Z) | Find (key : Z) | Contains (key : Z).

Definition op_key (o : map_op) : Z :=
  match o with Insert key _ | Update key _ | Remove key | Find key | Contains key => key end.

(** The answer is a truth value or a pointer. *)
Definition of_bool (b : bool) : Z := if b then 1 else 0.

Definition exec (o : map_op) (s : rbtree) : option (Z * rbtree) :=
  match o with
  | Insert key val => '(b, s) ← rbtree_insert compare junk key val (alloc (mem s)) s; Some (of_bool b, s)
  | Update key val => '(b, s) ← rbtree_update compare junk key val (alloc (mem s)) s; Some (of_bool b, s)
  | Remove key => '(b, s) ← rbtree_delete compare key s; Some (of_bool b, s)
  | Find key => v ← rbtree_get compare key s; Some (v, s)
  | Contains key => b ← rbtree_contains compare key s; Some (of_bool b, s)
  end.

(** The same operation on a table of [Vacation]. *)
Definition spec (o : map_op) (m : MAP_T Z) : Z * MAP_T Z :=
  match o with
  | Insert key val => let '(b, m) := TMMAP_INSERT m key val in (of_bool b, m)
  | Update key val => (of_bool (TMMAP_CONTAINS m key), <[key := val]> m)
  | Remove key => let '(b, m) := TMMAP_REMOVE m key in (of_bool b, m)
  | Find key => (default NULL (TMMAP_FIND m key), m)
  | Contains key => (of_bool (TMMAP_CONTAINS m key), m)
  end.

Fixpoint exec_all (os : list map_op) (s : rbtree) : option (list Z * rbtree) :=
  match os with
  | [] => Some ([], s)
  | o :: os => '(a, s) ← exec o s; '(l, s) ← exec_all os s; Some (a :: l, s)
  end.

Fixpoint spec_all (os : list map_op) (m : MAP_T Z) : list Z * MAP_T Z :=
  match os with
  | [] => ([], m)
  | o :: os => let '(a, m) := spec o m in let '(l, m) := spec_all os m in (a :: l, m)
  end.

Lemma exec_holds Fr o s m : holds Fr s m -> K (op_key o) ->
  exists s', exec o s = Some ((spec o m).1, s') /\ holds Fr s' (spec o m).2.
Proof using compare_ok alloc_ok.
  intros Hh Hk. destruct o as [key val|key val|key|key|key]; cbn in Hk; cbn [exec spec].
  - destruct (alloc_ok (mem s)) as [A1 A2]. destruct (rbtree_insert_holds Fr s m key val _ Hh Hk A1 A2) as (s' & -> & H1).
    unfold TMMAP_INSERT. destruct (m !! key) as [v|]; cbn; eauto.
  - destruct (alloc_ok (mem s)) as [A1 A2]. destruct (rbtree_update_holds Fr s m key val _ Hh Hk A1 A2) as (s' & -> & H1).
    cbn. eauto.
  - destruct (rbtree_delete_holds Fr s m key Hh Hk) as (s' & -> & H1). unfold TMMAP_REMOVE.
    destruct (m !! key) as [v|] eqn:Em; cbn; [eauto|]. rewrite delete_id in H1 by done. eauto.
  - destruct (get_ok Fr s m key Hh Hk) as [-> _]. cbn. eauto.
  - destruct (get_ok Fr s m key Hh Hk) as [_ ->]. cbn. eauto.
Qed.

Lemma exec_all_holds Fr os : forall s m, holds Fr s m -> Forall (fun o => K (op_key o)) os ->
  exists s', exec_all os s = Some ((spec_all os m).1, s') /\ holds Fr s' (spec_all os m).2.
Proof using compare_ok alloc_ok.
  induction os as [|o os IH]; intros s m Hh Hk; [cbn; eauto|]. apply Forall_cons in Hk as [Ho Hk].
  destruct (exec_holds Fr o s m Hh Ho) as (s1 & E1 & H1). cbn [exec_all spec_all]. rewrite E1. cbn [mbind option_bind].
  destruct (spec o m) as [a m1]. cbn in *. destruct (IH s1 m1 H1 Hk) as (s2 & -> & H2). cbn [mbind option_bind].
  destruct (spec_all os m1) as [l m2]. cbn in *. eauto.
Qed.

Lemma alloc_holds h : h !! NULL = None -> holds (fun z => h !! z) (rbtree_alloc h) ∅.
Proof using.
  intros Hn. exists E, 0%nat. split_and!; [|constructor|constructor|constructor| |done].
  - split; cbn; try done. constructor.
  - cbn. by intros z ?%elem_of_nil.
Qed.

End operations.

(** ** The theorems *)

(** The keys for which [compareKeysDefault] is an order, on 32-bit longs. *)
Definition small_key (k : Z) : Prop := 0 <= k < 2 ^ 31.

Lemma compareKeysDefault_ok a b : small_key a -> small_key b ->
  (compareKeysDefault a b = 0 <-> a = b) /\ (compareKeysDefault a b < 0 <-> a < b).
Proof. unfold small_key, compareKeysDefault. intros Ha Hb. rewrite s32_small by lia. lia. Qed.

(** Beyond, the difference wraps around: -2 counts as larger than 2^31 - 1. *)
Lemma compareKeysDefault_wraps : compareKeysDefault (2 ^ 31 - 1) (-2) < 0.
Proof. by vm_compute. Qed.

(** C37: Every sequence of insertions, updates, removals and searches on a new red-black
    tree terminates without a dereference of a null or freed pointer and gives the answers
    of the same sequence on the abstract tables of vacation; freeing the tree gives back
    exactly the nodes that were allocated for it. *)
Theorem rbtree_refines_map compare junk (K : Z -> Prop) alloc h os
  (compare_ok : forall a b, K a -> K b -> (compare a b = 0 <-> a = b) /\ (compare a b < 0 <-> a < b))
  (alloc_ok : forall h, alloc h <> NULL /\ h !! alloc h = None)
  (keys_ok : Forall (fun o => K (op_key o)) os) (null_free : h !! NULL = None) :
  exists s s', exec_all compare junk alloc os (rbtree_alloc h) = Some ((spec_all os ∅).1, s)
    /\ rbtree_free s = Some s' /\ mem s' = h.
Proof.
  destruct (exec_all_holds compare junk K compare_ok alloc alloc_ok _ os _ _ (alloc_holds K h null_free) keys_ok) as (s & H1 & H2).
  destruct (rbtree_free_holds K _ _ _ H2) as (s' & H3 & H4). exists s, s'. split_and!; [done..|]. by apply map_eq.
Qed.

(** An allocator for the examples: the address after the largest one in use. *)
Definition next_address (h : gmap Z node_t) : Z := 1 + map_fold (fun a _ m => Z.max a m) 0 h.

Lemma next_address_ok h : next_address h <> NULL /\ h !! next_address h = None.
Proof.
  assert (H : 0 <= map_fold (fun a _ m => Z.max a m) 0 h
    /\ forall a n, h !! a = Some n -> a <= map_fold (fun a _ m => Z.max a m) 0 h).
  { apply (map_fold_weak_ind (fun r h => 0 <= r /\ forall a n, h !! a = Some n -> a <= r)); [by split|].
    intros i x m r Hi [H1 H2]. split; [lia|]. intros a n Ha. destruct (decide (a = i)) as [-> |Hne]; [lia|].
    rewrite lookup_insert_ne in Ha by done. specialize (H2 _ _ Ha). lia. }
  destruct H as [H1 H2]. unfold next_address, NULL. split; [lia|].
  destruct (h !! (1 + _)) as [n|] eqn:E1; [|done]. specialize (H2 _ _ E1). lia.
Qed.

Definition sample_ops : list map_op :=
  [Insert 5 50; Insert 1 10; Insert 8 80; Insert 3 30; Insert 2 20; Insert 9 90; Insert 7 70; Insert 5 55; Update 3 33;
   Remove 5; Contains 5; Remove 5; Remove 2; Remove 9; Find 3; Find 8; Find 2; Contains 7].

Lemma rbtree_refines_map_witness : exists s s',
  exec_all compareKeysDefault (Node 0 0 0 0 0 0) next_address sample_ops (rbtree_alloc ∅)
    = Some ([1; 1; 1; 1; 1; 1; 1; 0; 1; 1; 0; 0; 1; 1; 33; 80; 0; 1], s)
  /\ rbtree_free s = Some s' /\ mem s' = ∅.
Proof.
  apply (rbtree_refines_map compareKeysDefault (Node 0 0 0 0 0 0) small_key next_address ∅ sample_ops).
  - exact compareKeysDefault_ok.
  - exact next_address_ok.
  - repeat (constructor; [by split|]); constructor.
  - reflexivity.
Defined.

(** After any such sequence the tree is balanced: the search of [lookup] for any key
    ends within 2*log2(n+1) nodes, where n is the number of keys in the table, and has the
    answer of the unbounded search. *)
Theorem rbtree_search_bound compare junk (K : Z -> Prop) alloc h os key
  (compare_ok : forall a b, K a -> K b -> (compare a b = 0 <-> a = b) /\ (compare a b < 0 <-> a < b))
  (alloc_ok : forall h, alloc h <> NULL /\ h !! alloc h = None)
  (keys_ok : Forall (fun o => K (op_key o)) os) (key_ok : K key) (null_free : h !! NULL = None) :
  exists l s x, exec_all compare junk alloc os (rbtree_alloc h) = Some (l, s)
    /\ lookup_loop compare (2 * Nat.log2 (S (base.size (spec_all os ∅).2))) (root s) key s = Some x
    /\ lookup compare key s = Some x.
Proof.
  destruct (exec_all_holds compare junk K compare_ok alloc alloc_ok _ os _ _ (alloc_holds K h null_free) keys_ok) as (s & H1 & H2).
  destruct (lookup_log compare K compare_ok _ _ _ key H2 key_ok) as (x & H3 & H4). eauto 10.
Qed.

Lemma rbtree_search_bound_witness : exists l s x,
  exec_all compareKeysDefault (Node 0 0 0 0 0 0) next_address (map (fun k => Insert k 0) (seqZ 1 7)) (rbtree_alloc ∅) = Some (l, s)
  /\ lookup_loop compareKeysDefault 6 (root s) 7 s = Some x /\ lookup compareKeysDefault 7 s = Some x.
Proof.
  apply (rbtree_search_bound compareKeysDefault (Node 0 0 0 0 0 0) small_key next_address ∅ (map (fun k => Insert k 0) (seqZ 1 7)) 7).
  - exact compareKeysDefault_ok.
  - exact next_address_ok.
  - repeat (constructor; [by split|]); constructor.
  - by split.
  - reflexivity.
Defined.
