(* ===== verification/RbTreeVerify.v ===== *)
(** * The integrity check of the red-black tree ([rbtree_verify] of [lib/rbtree.c])

    The tests of the tree call [rbtree_verify] after every operation.  It walks over the
    nodes with [firstEntry] and [successor], comparing neighbours, and computes the black
    height with [verifyRedBlack]; it reports some violations by a return value and others
    only by a line of output, so the model counts the lines.  The indentation depth and the
    verbose output are left out.  The theorem: after any sequence of operations the check
    succeeds and prints nothing. *)

From S2P Require Import Prelude Vacation RbTree RbTreeProps RbTreeDelete RbTreeMap.
Import Rb.

(** ** The code *)

Module RbVerify.

Definition firstEntry (s : rbtree) : option Z :=
  if root s =? NULL then Some NULL else leftmost (base.size (mem s)) (root s) s.

(** One line if [child] is not null and its parent is not [x]. *)
Definition check_parent (child x : Z) (s : rbtree) : option nat :=
  if negb (child =? NULL) then p ← LDF np child s; Some (if p =? x then 0%nat else 1%nat) else Some 0%nat.

(** [x != NULL && x->c != BLACK] *)
Definition not_black (x : Z) (s : rbtree) : option bool :=
  if negb (x =? NULL) then c ← LDF nc x s; Some (negb (c =? BLACK)) else Some false.

(** The black height, or 0, and the number of lines printed. *)
Fixpoint verifyRedBlack (fuel : nat) (x : Z) (s : rbtree) : option (Z * nat) :=
  if x =? NULL then Some (1, 0%nat)
  else
    match fuel with
    | O => None
    | S fuel =>
      xl ← LDF nl x s;
      '(height_left, w1) ← verifyRedBlack fuel xl s;
      xr ← LDF nr x s;
      '(height_right, w2) ← verifyRedBlack fuel xr s;
      let w := (w1 + w2)%nat in
      if (height_left =? 0) || (height_right =? 0) then Some (0, w)
      else
        let w := if negb (height_left =? height_right) then S w else w in
        p1 ← check_parent xl x s;
        p2 ← check_parent xr x s;
        let w := (w + p1 + p2)%nat in
        c ← LDF nc x s;
        if c =? RED then
          bl ← not_black xl s;
          if (bl : bool) then Some (0, S w)
          else
            br ← not_black xr s;
            if (br : bool) then Some (0, S w) else Some (height_left, w)
        else if negb (c =? BLACK) then Some (0, S w)
        else Some (height_left + 1, w)
    end.

(** The walk over the nodes: [false] is a violation of the order. *)
Fixpoint order_loop (compare : Z -> Z -> Z) (fuel : nat) (its : Z) (s : rbtree) : option (bool * nat) :=
  if its =? NULL then Some (true, 0%nat)
  else
    match fuel with
    | O => None
    | S fuel =>
      xl ← LDF nl its s;
      p1 ← check_parent xl its s;
      xr ← LDF nr its s;
      p2 ← check_parent xr its s;
      nxt ← successor its s;
      if nxt =? NULL then Some (true, (p1 + p2)%nat)
      else
        k1 ← LDF nk its s;
        k2 ← LDF nk nxt s;
        if 0 <=? compare k1 k2 then Some (false, S (p1 + p2))
        else
          '(ok, w) ← order_loop compare fuel nxt s;
          Some (ok, (p1 + p2 + w)%nat)
    end.

Definition rbtree_verify (compare : Z -> Z -> Z) (s : rbtree) : option (Z * nat) :=
  if root s =? NULL then Some (1, 0%nat)
  else
    rp ← LDF np (root s) s;
    if negb (rp =? NULL) then Some (-1, 1%nat)
    else
      rc ← LDF nc (root s) s;
      let w0 := if negb (rc =? BLACK) then 1%nat else 0%nat in
      its ← firstEntry s;
      '(ok, w1) ← order_loop compare (base.size (mem s)) its s;
      if negb ok then Some (-3, (w0 + w1)%nat)
      else
        '(vfy, w2) ← verifyRedBlack (base.size (mem s)) (root s) s;
        Some (vfy, (w0 + w1 + w2)%nat).

End RbVerify.
Import RbVerify.

(** ** The successor of a node is the next node in order *)

(** The nodes after the hole. *)
Fixpoint after (ctx : list frame) : list (Z * (Z * Z)) :=
  match ctx with
  | [] => []
  | f :: ctx => match fd f with L => (fx f, (fk f, fv f)) :: nodes (fs f) ++ after ctx | R => after ctx end
  end.

Lemma nodes_after ctx : exists l, forall t, nodes (plug ctx t) = l ++ nodes t ++ after ctx.
Proof.
  induction ctx as [|[d x k v c b] ctx [l IH]]; cbn; [exists []; intros; by rewrite app_nil_r|]. destruct d; cbn.
  - exists l. intros t. rewrite IH. cbn. by rewrite <- app_assoc.
  - exists (l ++ nodes b ++ [(x, (k, v))]). intros t. rewrite IH. cbn. by rewrite <- !app_assoc.
Qed.

Definition first (l : list (Z * (Z * Z))) : Z := match l with [] => NULL | (x, _) :: _ => x end.

Lemma leftmost_first Fr s t fuel ctx : t <> E -> is_tree Fr s (plug ctx t) -> (length (locs t) <= fuel)%nat ->
  forall l, leftmost fuel (rt t) s = Some (first (nodes t ++ l)).
Proof.
  intros HE Ht Hf l. destruct (leftmost_ok Fr s t fuel ctx HE Ht Hf) as (cL & y & k & v & c & b & l' & -> & -> & Hn).
  by rewrite Hn.
Qed.

(** Climbing while coming from the right. *)
Lemma climb_ok Fr s ctx : forall fuel t, t <> E -> is_tree Fr s (plug ctx t) -> (length ctx <= fuel)%nat ->
  climb fuel (rt t) (up ctx) s = Some (first (after ctx)).
Proof.
  induction ctx as [|[d x k v c b] ctx IH]; intros fuel t HE Ht Hf; [by destruct fuel|].
  pose proof Ht as Hp. cbn [plug fd fx fk fv fc fs] in Hp. pose proof (it_node _ _ _ _ _ _ _ _ _ _ Hp) as [Hx Hl].
  pose proof (side_of _ _ _ _ _ _ _ _ _ _ Hp HE) as [_ Hside].
  cbn [up fx after fd]. destruct fuel as [|fuel]; [cbn in Hf; lia|]. cbn [climb].
  rewrite (proj2 (Z.eqb_neq _ _) Hx), !(LDF_Some _ _ _ _ Hl). cbn [mbind option_bind]. destruct d; cbn [mkn nr np].
  - assert (Hne : rt t <> rt b).
    { destruct b as [|xb kb vb cb b1 b2]; [by eapply rt_neq|]. eapply tree_distinct; [exact Ht|done|]. cbn. right. by left. }
    by rewrite (proj2 (Z.eqb_neq _ _) Hne).
  - rewrite Z.eqb_refl. cbn [negb]. specialize (IH fuel (mk R x k v c t b) (mk_neq _ _ _ _ _ _ _) Hp ltac:(cbn in Hf; lia)).
    by rewrite rt_mk in IH.
Qed.

Lemma successor_ok Fr s t l1 l2 x p : is_tree Fr s t -> nodes t = l1 ++ (x, p) :: l2 ->
  successor x s = Some (first l2).
Proof.
  intros Ht Hn. assert (Hin : x ∈ locs t).
  { rewrite nodes_locs, Hn, fmap_app, elem_of_app. right. by left. }
  destruct (locate x t Hin) as (ctx & k & v & c & a & b & ->). destruct (nodes_after ctx) as [l Hl].
  pose proof (nodes_nodup _ _ _ Ht) as Hnd. rewrite Hn in Hnd.
  assert (He : l1 ++ (x, p) :: l2 = (l ++ nodes a) ++ (x, (k, v)) :: nodes b ++ after ctx).
  { rewrite <- Hn, Hl. cbn. by rewrite <- !app_assoc. }
  destruct (split_unique _ _ _ _ _ _ _ Hnd He) as (_ & _ & ->). unfold successor.
  pose proof (it_node _ _ _ L _ _ _ _ _ _ Ht) as [Hx Hlx].
  rewrite (proj2 (Z.eqb_neq _ _) Hx), !(LDF_Some _ _ _ _ Hlx). cbn [mbind option_bind mkn nr np].
  pose proof (zip_size _ _ _ _ Ht) as Hz.
  destruct b as [|xb kb vb cb b1 b2].
  - apply (climb_ok Fr s ctx (base.size (mem s)) (T x k v c a E)); [done|exact Ht|lia].
  - rewrite (focus_opp L) in Ht. pose proof (rt_neq _ _ _ _ Ht ltac:(done)) as Hb.
    rewrite (proj2 (Z.eqb_neq _ _) Hb). cbn [negb]. apply zip_size in Ht as Hz'.
    eapply leftmost_first; [done|exact Ht|lia].
Qed.

(** ** The walk *)

Lemma check_parent_ok Fr s ctx d x k v c a b : is_tree Fr s (plug ctx (mk d x k v c a b)) ->
  check_parent (rt a) x s = Some 0%nat.
Proof.
  intros Ht. unfold check_parent. destruct (Z.eqb_spec (rt a) NULL) as [|Hn]; [done|]. cbn [negb].
  assert (Ha : a <> E) by (by intros ->). rewrite focus in Ht. pose proof (parentOf_tree _ _ _ _ Ha Ht) as Hp.
  unfold parentOf in Hp. rewrite (proj2 (Z.eqb_neq _ _) Hn) in Hp. rewrite Hp. cbn. by rewrite Z.eqb_refl.
Qed.

(** What the checks of a node read. *)
Lemma node_checks Fr s ctx x k v c a b : is_tree Fr s (plug ctx (T x k v c a b)) ->
  LDF nl x s = Some (rt a) /\ LDF nr x s = Some (rt b) /\ LDF nk x s = Some k
  /\ check_parent (rt a) x s = Some 0%nat /\ check_parent (rt b) x s = Some 0%nat.
Proof.
  intros Ht. pose proof (it_node _ _ _ L _ _ _ _ _ _ Ht) as [Hx Hl]. rewrite !(LDF_Some _ _ _ _ Hl).
  split_and!; [done..| |]; [by eapply (check_parent_ok Fr s ctx L)|by eapply (check_parent_ok Fr s ctx R)].
Qed.

Lemma node_in Fr s t l1 l2 x k v : is_tree Fr s t -> nodes t = l1 ++ (x, (k, v)) :: l2 ->
  exists ctx c a b, t = plug ctx (T x k v c a b).
Proof.
  intros Ht Hn. assert (Hin : x ∈ locs t).
  { rewrite nodes_locs, Hn, fmap_app, elem_of_app. right. by left. }
  destruct (locate x t Hin) as (ctx & k' & v' & c & a & b & ->). destruct (nodes_plug ctx) as (p & q & Hpq).
  pose proof (nodes_nodup _ _ _ Ht) as Hnd. rewrite Hn in Hnd.
  assert (He : l1 ++ (x, (k, v)) :: l2 = (p ++ nodes a) ++ (x, (k', v')) :: nodes b ++ q).
  { rewrite <- Hn, Hpq. cbn. by rewrite <- !app_assoc. }
  destruct (split_unique _ _ _ _ _ _ _ Hnd He) as (_ & ? & _). simplify_eq. eauto 10.
Qed.

Section verify.
Context (compare : Z -> Z -> Z) (K : Z -> Prop).
Hypothesis compare_ok : forall a b, K a -> K b -> (compare a b = 0 <-> a = b) /\ (compare a b < 0 <-> a < b).

Lemma order_loop_ok Fr s t : is_tree Fr s t -> ordered (elems t) -> Forall K (elems t).*1 ->
  forall l2 fuel l1 x p, nodes t = l1 ++ (x, p) :: l2 -> (length l2 < fuel)%nat ->
  order_loop compare fuel x s = Some (true, 0%nat).
Proof using compare_ok.
  intros Ht Ho HK. induction l2 as [|[y [ky vy]] l2 IH]; intros fuel l1 x [k v] Hn Hf; (destruct fuel as [|fuel]; [lia|]);
    destruct (node_in _ _ _ _ _ _ _ _ Ht Hn) as (ctx & c & a & b & ->);
    pose proof (it_node _ _ _ L _ _ _ _ _ _ Ht) as [Hx _];
    destruct (node_checks _ _ _ _ _ _ _ _ _ Ht) as (E1 & E2 & E3 & E4 & E5);
    cbn [order_loop]; rewrite (proj2 (Z.eqb_neq _ _) Hx), E1; cbn [mbind option_bind]; rewrite E4; cbn [mbind option_bind];
    rewrite E2; cbn [mbind option_bind]; rewrite E5; cbn [mbind option_bind]; rewrite (successor_ok _ _ _ _ _ _ _ Ht Hn);
    cbn [mbind option_bind first]; [done|].
  assert (Hn' : nodes (plug ctx (T x k v c a b)) = (l1 ++ [(x, (k, v))]) ++ (y, (ky, vy)) :: l2) by (by rewrite Hn, <- app_assoc).
  pose proof Ht as Hty. destruct (node_in _ _ _ _ _ _ _ _ Ht Hn') as (ctx' & c' & a' & b' & Et). rewrite Et in Hty.
  pose proof (it_node _ _ _ L _ _ _ _ _ _ Hty) as [Hy _].
  destruct (node_checks _ _ _ _ _ _ _ _ _ Hty) as (_ & _ & E6 & _).
  rewrite (proj2 (Z.eqb_neq _ _) Hy), E3. cbn [mbind option_bind]. rewrite E6. cbn [mbind option_bind].
  assert (He : elems (plug ctx (T x k v c a b)) = l1.*2 ++ (k, v) :: (ky, vy) :: l2.*2) by (by rewrite nodes_elems, Hn, fmap_app).
  rewrite He in Ho, HK. rewrite fmap_app, Forall_app in HK. cbn in HK. rewrite !Forall_cons in HK. destruct HK as (_ & Kk & Kky & _).
  assert (Hlt : k < ky).
  { apply ordered_app in Ho as (_ & Ho & _). unfold ordered in Ho. cbn in Ho. apply StronglySorted_inv in Ho as [_ Ho].
    by apply Forall_cons in Ho as [? _]. }
  destruct (compare_ok k ky Kk Kky) as [_ Hc]. apply Hc in Hlt. rewrite (proj2 (Z.leb_gt _ _) Hlt).
  by rewrite (IH fuel _ _ _ Hn' ltac:(cbn in Hf; lia)).
Qed.

(** ** The black height *)

Lemma not_black_ok Fr s ctx t : is_tree Fr s (plug ctx t) -> col t = BLACK -> not_black (rt t) s = Some false.
Proof using.
  intros Ht Hc. unfold not_black. destruct (Z.eqb_spec (rt t) NULL) as [|Hn]; [done|]. cbn [negb].
  pose proof (colorOf_tree _ _ _ _ Ht) as H. unfold colorOf in H. rewrite (proj2 (Z.eqb_neq _ _) Hn) in H. rewrite H, Hc. done.
Qed.

Lemma verifyRedBlack_ok Fr s t : forall fuel ctx c n, is_tree Fr s (plug ctx t) -> rb NULL t c n -> (length (locs t) <= fuel)%nat ->
  verifyRedBlack fuel (rt t) s = Some (Z.of_nat (S n), 0%nat).
Proof using.
  induction t as [|x k v c0 a IHa b IHb]; intros fuel ctx c n Ht Hrb Hf.
  - inversion Hrb; subst. by destruct fuel.
  - pose proof (it_node _ _ _ L _ _ _ _ _ _ Ht) as [Hx Hl]. cbn in Hf. rewrite length_app in Hf.
    destruct fuel as [|fuel]; [lia|]. destruct (node_checks _ _ _ _ _ _ _ _ _ Ht) as (E1 & E2 & _ & E4 & E5).
    pose proof Ht as HtL. rewrite (focus L) in HtL. pose proof Ht as HtR. rewrite (focus_opp L) in HtR.
    assert (Hab : exists ca cb m, rb NULL a ca m /\ rb NULL b cb m
      /\ ((c0 = RED /\ n = m /\ ca = BLACK /\ cb = BLACK) \/ (c0 = BLACK /\ n = S m))).
    { inversion Hrb; subst; eauto 15. done. }
    destruct Hab as (ca & cb & m & Ha & Hb & Hcase).
    cbn [verifyRedBlack rt]. rewrite (proj2 (Z.eqb_neq _ _) Hx), E1. cbn [mbind option_bind].
    rewrite (IHa fuel _ _ _ HtL Ha ltac:(lia)). cbn [mbind option_bind]. rewrite E2. cbn [mbind option_bind].
    rewrite (IHb fuel _ _ _ HtR Hb ltac:(lia)). cbn [mbind option_bind]. rewrite Z.eqb_refl.
    replace (Z.of_nat (S m) =? 0) with false by (symmetry; apply Z.eqb_neq; lia). cbn [orb negb].
    rewrite E4. cbn [mbind option_bind]. rewrite E5. cbn [mbind option_bind]. rewrite (LDF_Some _ _ _ _ Hl). cbn [mbind option_bind mkn nc].
    destruct Hcase as [(-> & -> & -> & ->)|(-> & ->)].
    + change (RED =? RED) with true. cbn iota. apply rb_col in Ha as [Ha _], Hb as [Hb _].
      rewrite (not_black_ok _ _ _ _ HtL) by done. cbn [mbind option_bind].
      by rewrite (not_black_ok _ _ _ _ HtR) by done.
    + change (BLACK =? RED) with false. change (BLACK =? BLACK) with true. cbn iota. cbn [negb]. do 2 f_equal. lia.
Qed.

Lemma rbtree_verify_ok Fr s m : holds K Fr s m -> exists n, rbtree_verify compare s = Some (Z.of_nat (S n), 0%nat)
  /\ (2 ^ n <= S (base.size m))%nat.
Proof using compare_ok.
  intros (t & n & Ht & Hrb & Ho & HK & _ & ->). exists n.
  destruct (rb_height _ _ _ Hrb (ctx_no_null _ _ [] _ Ht)) as [_ Hsz].
  rewrite map_size_list_to_map by (by apply ordered_nodup). rewrite nodes_elems, length_fmap.
  rewrite nodes_locs, length_fmap in Hsz. split; [|done].
  unfold rbtree_verify. rewrite (it_root _ _ _ Ht). destruct t as [|x k v c a b] eqn:Et; [by inversion Hrb; subst|]. rewrite <- Et in *.
  assert (HE : t <> E) by (by subst). pose proof (rt_neq _ _ [] _ Ht HE) as Hr.
  rewrite (proj2 (Z.eqb_neq _ _) Hr). pose proof (parentOf_tree _ _ [] _ HE Ht) as Hp. unfold parentOf in Hp.
  rewrite (proj2 (Z.eqb_neq _ _) Hr) in Hp. rewrite Hp. cbn [mbind option_bind up]. change (negb (NULL =? NULL)) with false. cbn iota.
  pose proof (colorOf_tree _ _ [] _ Ht) as Hc. unfold colorOf in Hc. rewrite (proj2 (Z.eqb_neq _ _) Hr) in Hc. rewrite Hc.
  cbn [mbind option_bind]. destruct (rb_col _ _ _ _ Hrb) as [<- _]. change (negb (BLACK =? BLACK)) with false. cbn iota.
  unfold firstEntry. rewrite (it_root _ _ _ Ht), (proj2 (Z.eqb_neq _ _) Hr).
  pose proof (tree_size _ _ _ Ht) as Hts. rewrite (leftmost_first Fr s t _ [] HE Ht Hts []). cbn [mbind option_bind]. rewrite app_nil_r.
  destruct (nodes t) as [|[y p] l] eqn:En; [by rewrite Et in En; destruct (app_cons_not_nil (nodes a) (nodes b) (x, (k, v)))|].
  rewrite (order_loop_ok Fr s t Ht Ho HK l _ [] y p En); [|rewrite nodes_locs, length_fmap, En in Hts; cbn in Hts; lia].
  cbn [mbind option_bind negb]. by rewrite (verifyRedBlack_ok Fr s t _ [] _ _ Ht Hrb Hts).
Qed.

End verify.

(** C38: After any sequence of operations on a new tree the integrity check of the code,
    which walks over all nodes by [successor] and recomputes the black heights, succeeds
    without printing anything; its result, the black height plus one, is at most
    log2(n+1)+1 for a table of n keys. *)
Theorem rbtree_verify_succeeds compare junk (K : Z -> Prop) alloc h os
  (compare_ok : forall a b, K a -> K b -> (compare a b = 0 <-> a = b) /\ (compare a b < 0 <-> a < b))
  (alloc_ok : forall h, alloc h <> NULL /\ h !! alloc h = None)
  (keys_ok : Forall (fun o => K (op_key o)) os) (null_free : h !! NULL = None) :
  exists l s n, exec_all compare junk alloc os (rbtree_alloc h) = Some (l, s)
    /\ rbtree_verify compare s = Some (Z.of_nat (S n), 0%nat) /\ (2 ^ n <= S (base.size (spec_all os ∅).2))%nat.
Proof.
  destruct (exec_all_holds compare junk K compare_ok alloc alloc_ok _ os _ _ (alloc_holds K h null_free) keys_ok) as (s & H1 & H2).
  destruct (rbtree_verify_ok compare K compare_ok _ _ _ H2) as (n & H3 & H4). eauto 10.
Qed.

Lemma rbtree_verify_succeeds_witness : exists l s n,
  exec_all compareKeysDefault (Node 0 0 0 0 0 0) next_address sample_ops (rbtree_alloc ∅) = Some (l, s)
  /\ rbtree_verify compareKeysDefault s = Some (Z.of_nat (S n), 0%nat) /\ (2 ^ n <= 5)%nat.
Proof.
  apply (rbtree_verify_succeeds compareKeysDefault (Node 0 0 0 0 0 0) small_key next_address ∅ sample_ops).
  - exact compareKeysDefault_ok.
  - exact next_address_ok.
  - repeat (constructor; [by split|]); constructor.
  - reflexivity.
Defined.

(** An imbalance alone is printed and does not make the check fail. *)
Lemma imbalance_accepted : let s := RbTree 1 {[1 := Node 10 0 0 2 0 BLACK; 2 := Node 5 0 1 0 0 BLACK]} in
  rbtree_verify compareKeysDefault s = Some (3, 1%nat).
Proof. by vm_compute. Qed.
